(* ===== verification/_CoqProject ===== *)
-Q . S2P
Prelude.v
SchedulerSync.v
Accounts.v
DevinScheduler.v
ComputeBudget.v
CostModel.v
CostTracker.v
AccountLocks.v
ThreadAwareLocks.v
StateContainer.v
SchedulerCommon.v
GreedyScheduler.v
UsageQueue.v
UnifiedScheduler.v
UnifiedTraces.v
OrdMap.v
ForkChoice.v
ForkTree.v
ForkUpdate.v
ForkVisit.v
ForkLeaf.v
ForkInvariant.v
ForkRoots.v
ForkSplit.v
ForkPurge.v
ForkTheorems.v
FrozenVotes.v
FrozenTheorems.v
TransactionContext.v
ContextSpec.v
ContextTrace.v
ContextTheorems.v
Builtin.v
BuiltinRuns.v
VoteState.v
VoteTower.v
VoteSteps.v
VoteSync.v
VoteHistory.v
VoteTrace.v
VoteOwn.v
VoteHandler.v
VoteInstance.v
VoteTheorems.v
VoteProgram.v
VoteOutcome.v
VoteInstructions.v
VoteProgramTheorems.v
VoteWire.v
SystemProgram.v
SystemOutcome.v
SystemTheorems.v
SystemWire.v
TransactionBytes.v
TransactionFrames.v
TransactionView.v
