(* ===== verification/Prelude.v ===== *)
(** * A verification of the scheduling, cost, consensus and execution core of a validator

    The program is a Solana validator in Rust with a block engine: besides the
    transactions it schedules itself, the leader can execute a whole block it has
    received. This library models the parts that decide what runs, in which order, at
    what cost, on which fork, and what a running transaction may do to accounts, and
    proves what makes each of them correct.

    ** The parts and how they interact

    - While it leads a slot the validator either schedules transactions itself (the
      "vanilla" schedulers) or executes a received block (the block stage). One atomic
      word arbitrates between them: [SchedulerSync].
    - The block stage hands ranges of the block to its workers with [DevinScheduler].
      The vanilla path keeps its transactions in [StateContainer], locks their accounts
      per worker in [ThreadAwareLocks] and picks them with [GreedyScheduler], which
      uses [SchedulerCommon]. The unified scheduler ([UsageQueue], [UnifiedScheduler],
      [UnifiedTraces]) schedules blocks that are replayed, and blocks produced by
      priority.
    - A batch of transactions holds the account locks of its bank, and a bundle those
      of the bundle locker: [AccountLocks]. [Accounts] has the vocabulary of account
      accesses that all of these share.
    - What a transaction costs is read off its instructions ([ComputeBudget]), estimated
      before and computed after execution ([CostModel]) and charged against the limits
      of the block ([CostTracker], with the service that reserves costs for a batch and
      the check that replay makes).
    - Packets are read in place through views: [TransactionBytes], [TransactionFrames],
      [TransactionView].
    - A running transaction works on a context that guards its accounts
      ([TransactionContext], [ContextSpec], [ContextTrace], [ContextTheorems]). Two builtin
      programs run in it, with what they share in [Builtin]: the vote program, the state
      of a vote account in [VoteState] to [VoteTheorems] and the program on accounts in
      [VoteProgram] to [VoteWire], and the system program in [SystemProgram] to [SystemWire].
    - Votes choose the fork: [OrdMap] and [ForkChoice] to [ForkTheorems]. The replay stage
      gathers them from replayed banks and from gossip in the stores of [FrozenVotes].

    ** Which file models what

    Paths are under src/. Every definition that translates code has the name of the
    Rust item, or one that says which (view_set_owner, tower_double_lockouts).

    - [SchedulerSync]: core/src/scheduler_synchronization.rs and
      core/src/banking_stage/decision_maker.rs. [Sync] has the encoding of the word and
      each operation; [Threads] interleaves them at the granularity of atomic accesses.
    - [DevinScheduler]: core/src/block_stage/devin_scheduler.rs, with the loop of
      block_consumer.rs as the protocol of its client.
    - [ComputeBudget]: compute-budget-instruction/, builtins-default-costs/ and the
      signature counts of runtime-transaction/. [CostModel]: cost-model/src/
      cost_model.rs, transaction_cost.rs, block_cost_limits.rs. [CostTracker]: cost-model/
      src/cost_tracker.rs, core/src/banking_stage/qos_service.rs and the cost check of
      ledger/src/blockstore_processor.rs.
    - [AccountLocks]: accounts-db/src/account_locks.rs ([Table]), the locking of
      accounts-db/src/accounts.rs, runtime/src/bank.rs and transaction_batch.rs ([Bank]),
      core/src/bundle_stage/bundle_account_locker.rs ([Bundle]).
    - [ThreadAwareLocks]: scheduling-utils/src/thread_aware_account_locks.rs.
      [StateContainer], [SchedulerCommon], [GreedyScheduler]: the files of
      core/src/banking_stage/transaction_scheduler/ they are named after, and
      read_write_account_set.rs.
    - [UsageQueue], [UnifiedScheduler], [UnifiedTraces]: unified-scheduler-logic/src/lib.rs.
    - [OrdMap] is BTreeMap; [ForkChoice] has the operations of
      core/src/consensus/heaviest_subtree_fork_choice.rs and tree_diff.rs; [ForkTree],
      [ForkUpdate], [ForkVisit], [ForkLeaf], [ForkInvariant], [ForkRoots], [ForkSplit]
      and [ForkPurge] prove its invariant, operation by operation; [ForkTheorems] has the
      reachable states.
    - [TransactionContext]: transaction-context/src/lib.rs and transaction_accounts.rs, and
      the mapping of account data into a program's memory from program-runtime/src/
      serialization.rs, as state transformers that may fail and may panic. [ContextSpec]:
      what one operation may change. [ContextTrace], [ContextTheorems]: whole transactions of any programs.
    - [VoteState]: programs/vote/src/vote_state/mod.rs, the trait of handler.rs with its
      default methods, and core/src/consensus/tower_vote_state.rs. [VoteHandler]: the
      versions of the vote state in handler.rs. [VoteTower], [VoteSteps], [VoteSync],
      [VoteHistory], [VoteTrace] and [VoteOwn] prove what they compute; [VoteInstance] has
      an instance of the interface of the vote crate.
    - [VoteProgram]: programs/vote/src/vote_processor.rs and the functions of mod.rs and
      handler.rs that read and write vote accounts. [VoteOutcome] says what each
      instruction does, to the byte, [VoteInstructions] what the processor makes of it, [VoteWire] has
      an encoding with its laws. [Builtin] is the borrowing of an account and the check of
      sysvar accounts, [BuiltinRuns] a triple for code that holds one borrowed account.
    - [SystemProgram]: programs/system/src/system_processor.rs and system_instruction.rs,
      every instruction. [SystemOutcome] says what an instruction may do to one account,
      [SystemTheorems] what it does to all of them, [SystemWire] runs it.
    - [FrozenVotes]: core/src/consensus/latest_validator_votes_for_frozen_banks.rs,
      core/src/unfrozen_gossip_verified_vote_hashes.rs, [compute_bank_stats] of the fork
      choice and the parts of core/src/replay_stage.rs and consensus.rs that call them.
      [FrozenTheorems] runs them as a transition system.
    - [TransactionBytes], [TransactionFrames], [TransactionView]: transaction-view/src/.

    ** How programs are modelled

    A machine word of width w is an integer with its wrap-around, saturation or check
    written out ([wadd], [sat_add], [checked_add]). A panic (a failed assertion, an
    unwrap, an index out of range, a subtraction that overflows in a checked build where
    the code relies on it) is [None]; an error is [Err] of a [result]. State that the code
    mutates is passed and returned, with the changes an operation has made before it
    fails. Shared cells (the queues of the unified scheduler, the accounts of a
    transaction) are one store. Threads are interleaved as steps of a relation.

    What other crates provide is a type class: [Sdk], [CostSdk] and [PacketSdk] (program
    ids, account keys, limits), [Slab] and [MinMaxHeap], [Channel], [Runtime] (rent, the
    instructions sysvar), [VoteInterface] and [VotersInterface] (lockouts, authorized
    voters), [VoteCodec] and [SystemInterface] (encodings, derived keys, nonces). Where a proof relies on the
    behaviour of such code, a class of laws states it as documented, and an instance with
    its laws shows that it can hold and runs the examples.

    ** What the theorems show

    - Exclusion: the block stage and a vanilla thread never schedule one slot, nor do block
      execution and vote processing of one slot overlap; conflicting transactions are never
      in flight together, in the block scheduler, the greedy scheduler, the unified
      scheduler and the batches of a bank.
    - Order and progress: blocks run in block order, the unified scheduler serves first come
      first served or by priority, nothing deadlocks, nothing panics.
    - Costs: the compute-budget requests and the cost of a transaction are given by plain
      reference definitions; a leader's block stays within the limits, and replay accepts
      it if its transactions stayed within their own and no block built elsewhere was
      executed. Two theorems show how the costs of executed blocks break this.
    - Packets: the parser accepts exactly the encodings of well-formed transactions, reading
      back gives what was written, and no unchecked access leaves the packet.
    - Fork choice: the stake of a block is that of the latest votes below it, the best
      block ends the heaviest valid path, and the answers do not depend on history. No
      operation panics, from building the tree to purging, pruning and merging.
    - Transactions: whatever programs do, lamports are conserved, references to accounts are
      exclusive, data stays within its bounds, and a program changes only what it owns and
      its instruction makes writable, also by stores that make an account grow.
    - Votes: towers stay well formed, no vote is dropped during its lockout, tower syncs are
      accepted exactly when they should be, and a validator's own tower lands. The vote
      program on accounts refines this, with an outcome that is fully determined, asks for the right signatures, never panics and
      conserves lamports.
    - The system program does what each instruction says and nothing else, takes lamports,
      space or ownership only from accounts that signed or whose derivation did, and a
      nonce advances at most once for a blockhash.
    - Votes on their way to the fork choice: the fork choice counts each validator's newest
      replayed vote, the first for its slot, gossip votes count once their bank is frozen. One theorem shows that a
      second vote for a slot with another hash is lost.

    ** Fuel

    Recursion is structural wherever the code allows it. Loops without such a measure take
    fuel that is shown to be enough: the number of votes for popping expired votes; the
    lengths of both lists, plus one or two, for loops that advance one of two indices; the
    number of blocks for walks of the fork tree; the length of the buffer for reading in
    blocks of 1024 bytes. Running out of fuel is [None] or leaves the state unchanged, and
    the theorems that exclude panics exclude it too.

    ** Not modelled

    - Networking, gossip, turbine, repair, RPC, streaming, command-line tools, metrics and
      logs: input and output, with no logic that a pure model would capture.
    - The accounts database, the blockstore, snapshots and the status cache: storage and its
      concurrency, whose correctness depends on files, memory maps and background threads.
    - The virtual machine, the program cache, syscalls and the message processor: they
      execute machine code of programs; the context they work on is modelled, and the
      handler of stores beyond a region, but not stores within one.
    - Cryptography and encodings (signatures, hashes, Merkle trees, bincode): parameters.
    - The consumer, the committer, the receive path and the controller of the banking stage,
      the bundle stage and the rest of the block stage: they drive the modelled parts through
      a bank, a recorder of entries and channels. The priority-graph scheduler uses a graph
      from another crate.
    - The rest of replay and of the tower (switching, threshold checks, its storage) and the
      aggregation of votes by the vote listener: they read progress and ancestors from the
      bank forks and compare stakes in floating point.
    - Memory orderings weaker than sequential consistency, and the copy-on-write sharing of
      account buffers.

    ** This file

    Machine integers, results, transition systems and the automation the components
    share. *)

From stdpp Require Export prelude list gmap sets sorting.
From Stdlib Require Export ZArith Lia Sorted.

#[global] Set Default Goal Selector "!".

Declare Scope rs_scope.
Delimit Scope rs_scope with rs.
Open Scope Z_scope.

(** ** Rust results *)

(** [Result<A, E>]; the error type comes first so that [result E] is a monad. *)
Inductive result (E A : Type) : Type :=
| Ok (val : A)
| Err (err : E).
Arguments Ok {E A} val.
Arguments Err {E A} err.

#[global] Instance result_eq_dec {E A} `{EqDecision E, EqDecision A} :
  EqDecision (result E A).
Proof. solve_decision. Defined.

#[global] Instance result_ret {E} : MRet (result E) := @Ok E.

(** The [?] operator: an error is returned at once. *)
#[global] Instance result_bind {E} : MBind (result E) := fun _ _ f r =>
  match r with
  | Ok v => f v
  | Err e => Err e
  end.

Definition is_ok {E A} (r : result E A) : bool :=
  match r with Ok _ => true | Err _ => false end.

Definition is_err {E A} (r : result E A) : bool := negb (is_ok r).

Lemma result_bind_ok {E A B} (f : A -> result E B) (r : result E A) b :
  r ≫= f = Ok b <-> exists a, r = Ok a /\ f a = Ok b.
Proof. destruct r; naive_solver. Qed.

(** ** Machine integers

    A [w]-bit unsigned integer is a [Z] in [0, 2^w). Release builds of the
    repository keep Rust's default of wrapping arithmetic, so [+] and [-] on
    machine integers are [wadd] and [wsub]. *)
Section Words.
Context (w : Z).

Definition word_max : Z := 2 ^ w - 1.
Definition in_word (x : Z) : Prop := 0 <= x <= word_max.
Definition wrap (x : Z) : Z := x mod 2 ^ w.
Definition wadd (x y : Z) : Z := wrap (x + y).
Definition wsub (x y : Z) : Z := wrap (x - y).
Definition sat_add (x y : Z) : Z := Z.min (x + y) word_max.
Definition sat_mul (x y : Z) : Z := Z.min (x * y) word_max.
Definition checked_add (x y : Z) : option Z :=
  if x + y <=? word_max then Some (x + y) else None.
End Words.

Definition sat_sub (x y : Z) : Z := Z.max 0 (x - y).
Definition checked_sub (x y : Z) : option Z :=
  if y <=? x then Some (x - y) else None.

Abbreviation U64_MAX := (word_max 64).
Abbreviation U32_MAX := (word_max 32).
Abbreviation is_u64 := (in_word 64).
Abbreviation is_u32 := (in_word 32).

(** ** Booleans, decisions and case analysis *)

(** Turns the boolean tests of the code into the propositions they decide. *)
Ltac bool_to_prop :=
  repeat match goal with
  | H : ?a && ?b = true |- _ => apply andb_true_iff in H; destruct H
  | H : ?a && ?b = false |- _ => apply andb_false_iff in H
  | H : ?a || ?b = false |- _ => apply orb_false_iff in H; destruct H
  | H : ?a || ?b = true |- _ => apply orb_true_iff in H
  | H : negb ?a = true |- _ => apply negb_true_iff in H
  | H : negb ?a = false |- _ => apply negb_false_iff in H
  | H : (?a =? ?b) = true |- _ => apply Z.eqb_eq in H
  | H : (?a =? ?b) = false |- _ => apply Z.eqb_neq in H
  | H : (?a <=? ?b) = true |- _ => apply Z.leb_le in H
  | H : (?a <=? ?b) = false |- _ => apply Z.leb_gt in H
  | H : (?a <? ?b) = true |- _ => apply Z.ltb_lt in H
  | H : (?a <? ?b) = false |- _ => apply Z.ltb_ge in H
  | H : (?a >? ?b) = true |- _ => rewrite Z.gtb_ltb in H
  | H : (?a >? ?b) = false |- _ => rewrite Z.gtb_ltb in H
  | H : bool_decide _ = true |- _ => apply bool_decide_eq_true in H
  | H : bool_decide _ = false |- _ => apply bool_decide_eq_false in H
  | H : ?x = true |- context [?x] => rewrite H
  | H : ?x = false |- context [?x] => rewrite H
  end.

(** Splits on the first conditional of the goal or of a hypothesis. *)
Ltac split_if :=
  match goal with
  | |- context [if ?b then _ else _] =>
      let E := fresh "E" in destruct b eqn:E
  | H : context [if ?b then _ else _] |- _ =>
      let E := fresh "E" in destruct b eqn:E
  end.

Ltac split_ifs := repeat (split_if; simplify_eq/=).

(** ** Transition systems *)
Section TransitionSystem.
Context {St : Type} (init : St -> Prop) (step : St -> St -> Prop).

Inductive reachable : St -> Prop :=
| reachable_init s : init s -> reachable s
| reachable_step s s' : reachable s -> step s s' -> reachable s'.

(** Invariants by rule induction. *)
Lemma invariant_reachable (Inv : St -> Prop) :
  (forall s, init s -> Inv s) ->
  (forall s s', Inv s -> step s s' -> Inv s') ->
  forall s, reachable s -> Inv s.
Proof. intros Hinit Hstep s Hr. induction Hr; eauto. Qed.

(** The same, with an invariant already established available in the step. *)
Lemma invariant_reachable_with (Inv0 Inv : St -> Prop) :
  (forall s, reachable s -> Inv0 s) ->
  (forall s, init s -> Inv s) ->
  (forall s s', Inv0 s -> Inv0 s' -> Inv s -> step s s' -> Inv s') ->
  forall s, reachable s -> Inv s.
Proof.
  intros H0 Hinit Hstep s Hr. induction Hr; [eauto|].
  eapply Hstep; eauto using reachable.
Qed.
End TransitionSystem.

Create HintDb words.
#[export] Hint Unfold wadd wsub wrap sat_add sat_mul sat_sub in_word word_max : words.

(** ** Words: bounds *)
Lemma wrap_small w x : 0 <= x < 2 ^ w -> wrap w x = x.
Proof. apply Z.mod_small. Qed.

Lemma wadd_small w x y : 0 <= x + y <= word_max w -> wadd w x y = x + y.
Proof. intros. apply wrap_small. unfold word_max in *. lia. Qed.

Lemma wsub_small w x y : y <= x -> x <= word_max w -> 0 <= y -> wsub w x y = x - y.
Proof. intros. apply wrap_small. unfold word_max in *. lia. Qed.

Lemma sat_add_small w x y : x + y <= word_max w -> sat_add w x y = x + y.
Proof. unfold sat_add. lia. Qed.

Lemma sat_mul_small w x y : x * y <= word_max w -> sat_mul w x y = x * y.
Proof. unfold sat_mul. lia. Qed.

Lemma wrap_in_word w x : 0 <= w -> in_word w (wrap w x).
Proof.
  intros. pose proof (Z.mod_pos_bound x (2 ^ w)).
  unfold in_word, wrap, word_max. lia.
Qed.

(** ** Sorted lists *)
Lemma StronglySorted_app_l {A} (R : A -> A -> Prop) l1 l2 :
  StronglySorted R (l1 ++ l2) -> StronglySorted R l1.
Proof.
  induction l1 as [|x l1 IH]; simpl; [constructor|].
  intros [? Hx]%StronglySorted_inv. constructor; [auto|]. by apply Forall_app in Hx as [? _].
Qed.

Lemma StronglySorted_impl {A} (R R' : A -> A -> Prop) l :
  (forall x y, x ∈ l -> y ∈ l -> R x y -> R' x y) -> StronglySorted R l -> StronglySorted R' l.
Proof.
  induction 2 as [|x l Hs IH Hx]; constructor; [apply IH; set_solver|].
  rewrite Forall_forall in *. set_solver.
Qed.

Lemma StronglySorted_snoc {A} (R : A -> A -> Prop) l x :
  StronglySorted R l -> (forall y, y ∈ l -> R y x) -> StronglySorted R (l ++ [x]).
Proof.
  induction 1 as [|y l Hs IH Hy]; intros Hx; simpl; [repeat constructor|].
  constructor; [apply IH; set_solver|]. apply Forall_app. split; [done|]. apply Forall_singleton. set_solver.
Qed.

Lemma StronglySorted_app_r {A} (R : A -> A -> Prop) l1 l2 :
  StronglySorted R (l1 ++ l2) -> StronglySorted R l2.
Proof. induction l1; simpl; [done|]. intros []%StronglySorted_inv. auto. Qed.

(** Everything after an element of a sorted list is related to it. *)
Lemma StronglySorted_after {A} (R : A -> A -> Prop) l1 x l2 y :
  StronglySorted R (l1 ++ x :: l2) -> y ∈ l2 -> R x y.
Proof.
  intros [_ Hx]%StronglySorted_app_r%StronglySorted_inv Hy.
  rewrite Forall_forall in Hx. auto.
Qed.

Lemma StronglySorted_app_mid {A} (R : A -> A -> Prop) l1 l2 l3 :
  StronglySorted R (l1 ++ l2 ++ l3) -> StronglySorted R (l1 ++ l3).
Proof.
  induction l1 as [|x l1 IH]; simpl; [apply StronglySorted_app_r|].
  intros [? Hx]%StronglySorted_inv. constructor; [auto|]. rewrite !Forall_app in *. tauto.
Qed.

Lemma StronglySorted_seq n m : StronglySorted Nat.lt (seq n m).
Proof.
  revert n. induction m as [|m IH]; intros n; simpl; constructor; [auto|].
  apply Forall_forall. intros i Hi%elem_of_seq. unfold Nat.lt. lia.
Qed.

(** ** Pairwise relations *)
Fixpoint pairwise {A} (R : A -> A -> Prop) (l : list A) : Prop :=
  match l with
  | [] => True
  | x :: l => Forall (R x) l /\ pairwise R l
  end.

#[global] Instance pairwise_perm {A} (R : A -> A -> Prop) `{!Symmetric R} :
  Proper ((≡ₚ) ==> iff) (pairwise R).
Proof.
  assert (forall l1 l2, l1 ≡ₚ l2 -> pairwise R l1 -> pairwise R l2) as Hp.
  { induction 1 as [|x l1 l2 Hl IH|x y l|]; simpl; [done|..|auto].
    - intros [Hx Hr]. split; [by rewrite <- Hl|auto].
    - rewrite !Forall_cons. intros [[? ?] [? ?]]. repeat split; auto. }
  intros l1 l2 Hl. split; apply Hp; [done|by symmetry].
Qed.

Lemma pairwise_app {A} (R : A -> A -> Prop) l1 l2 :
  pairwise R (l1 ++ l2) <->
  pairwise R l1 /\ pairwise R l2 /\ Forall (fun x => Forall (R x) l2) l1.
Proof.
  induction l1 as [|x l1 IH]; simpl; [rewrite Forall_nil; tauto|].
  rewrite Forall_app, Forall_cons, IH. tauto.
Qed.

Lemma pairwise_elem {A} (R : A -> A -> Prop) `{!Symmetric R} l1 x l2 y :
  pairwise R (l1 ++ x :: l2) -> y ∈ l1 ++ l2 -> R x y.
Proof.
  rewrite <- Permutation_middle. intros [Hx _] Hy. rewrite Forall_forall in Hx. auto.
Qed.

(** ** Filtering maps that keep everything *)
Lemma length_omap_le {A B} (f : A -> option B) l : (length (omap f l) <= length l)%nat.
Proof.
  induction l as [|x l IH]; [simpl; lia|]. change (omap f (x :: l)) with
    (match f x with Some y => y :: omap f l | None => omap f l end).
  destruct (f x); simpl; lia.
Qed.

Lemma omap_total {A B} (f : A -> option B) (g : A -> B) l :
  (forall x y, f x = Some y -> y = g x) ->
  length (omap f l) = length l <-> Forall (fun x => f x = Some (g x)) l.
Proof.
  intros Hf. induction l as [|x l IH]; [by split|].
  change (omap f (x :: l)) with (match f x with Some y => y :: omap f l | None => omap f l end).
  rewrite Forall_cons, <- IH. pose proof (length_omap_le f l).
  destruct (f x) as [y|] eqn:Hx; simpl; [rewrite (Hf x y Hx); naive_solver|]. split; [lia|naive_solver].
Qed.

Lemma omap_all {A B} (f : A -> option B) (g : A -> B) l :
  Forall (fun x => f x = Some (g x)) l -> omap f l = map g l.
Proof.
  induction 1 as [|x l Hx _ IH]; [done|].
  change (omap f (x :: l)) with (match f x with Some y => y :: omap f l | None => omap f l end).
  by rewrite Hx, IH.
Qed.

Lemma StronglySorted_filter {A} (R : A -> A -> Prop) (P : A -> Prop) `{forall x, Decision (P x)} l :
  StronglySorted R l -> StronglySorted R (filter P l).
Proof.
  induction 1 as [|x l Hs IH Hx]; [constructor|]. rewrite filter_cons. case_decide; [|done].
  constructor; [done|]. rewrite Forall_forall in *. intros y [_ Hy]%list_elem_of_filter. auto.
Qed.

(** Strictly sorted lists are determined by their elements. *)
Lemma StronglySorted_lt_ext l1 l2 :
  StronglySorted lt l1 -> StronglySorted lt l2 -> (forall x, x ∈ l1 <-> x ∈ l2) -> l1 = l2.
Proof.
  intros Hs1. revert l2. induction Hs1 as [|x l1 Hs1 IH Hx]; intros l2 Hs2 He.
  - destruct l2 as [|y l2]; [done|]. specialize (He y). rewrite elem_of_nil, elem_of_cons in He. tauto.
  - destruct Hs2 as [|y l2 Hs2 Hy].
    { specialize (He x). rewrite elem_of_nil, elem_of_cons in He. tauto. }
    rewrite Forall_forall in Hx, Hy.
    assert (x = y) as <-.
    { pose proof (proj1 (He x)) as Hex. pose proof (proj2 (He y)) as Hey.
      rewrite !elem_of_cons in Hex, Hey.
      destruct Hex as [|Hex]; [by left|done|]. destruct Hey as [|Hey]; [by left|done|].
      apply Hx in Hey. apply Hy in Hex. lia. }
    f_equal. apply IH; [done|]. intros z. specialize (He z). rewrite !elem_of_cons in He. split.
    + intros Hz. destruct (proj1 He (or_intror Hz)) as [->|]; [|done]. apply Hx in Hz. lia.
    + intros Hz. destruct (proj2 He (or_intror Hz)) as [->|]; [|done]. apply Hy in Hz. lia.
Qed.

(** ** Loops whose body may panic *)
Fixpoint foldM {A B} (f : A -> B -> option A) (a : A) (l : list B) : option A :=
  match l with
  | [] => Some a
  | b :: l => a' ← f a b; foldM f a' l
  end.

(** A filtered list has distinct keys when the list has. *)
Lemma NoDup_fmap_filter {A B} (f : A -> B) (P : A -> Prop) `{!forall x, Decision (P x)} l :
  NoDup (f <$> l) -> NoDup (f <$> filter P l).
Proof.
  induction l as [|x l IH]; [done|]. rewrite fmap_cons, NoDup_cons. intros [Hx Hnd]. rewrite filter_cons.
  case_decide; [|by apply IH]. rewrite fmap_cons, NoDup_cons. split; [|by apply IH].
  intros (y & Heq & [_ Hy]%list_elem_of_filter)%list_elem_of_fmap. apply Hx. rewrite Heq. by apply list_elem_of_fmap_2.
Qed.

(** An element of a list is known by its key when the keys are distinct. *)
Lemma fmap_key_inj {A B} (f : A -> B) l x y : NoDup (f <$> l) -> x ∈ l -> y ∈ l -> f x = f y -> x = y.
Proof.
  intros Hnd [i Hi]%list_elem_of_lookup [j Hj]%list_elem_of_lookup Heq.
  assert (i = j) as <-; [|congruence].
  eapply (NoDup_lookup (f <$> l)); [done|by rewrite list_lookup_fmap, Hi|by rewrite list_lookup_fmap, Hj, Heq].
Qed.

(** An invariant indexed by the elements already consumed carries a loop through. *)
Lemma foldM_inv {A B} (f : A -> B -> option A) (I : list B -> A -> Prop) l : forall pre a,
  I pre a ->
  (forall pre b a, I pre a -> b ∈ l -> exists a', f a b = Some a' /\ I (pre ++ [b]) a') ->
  exists a', foldM f a l = Some a' /\ I (pre ++ l) a'.
Proof.
  induction l as [|b l IH]; intros pre a HI Hstep; simpl.
  - exists a. by rewrite app_nil_r.
  - destruct (Hstep pre b a) as (a1 & Hf & HI1); [done|left|]. rewrite Hf. simpl.
    replace (pre ++ b :: l) with ((pre ++ [b]) ++ l) by (by rewrite <- app_assoc).
    apply IH; [done|]. intros pre' b' a2 HI2 Hb'. apply Hstep; [done|by right].
Qed.

(** A loop whose body may panic ([None]) or return early ([Err]). *)
Fixpoint try_fold {A B E} (f : A -> B -> option (result E A)) (a : A) (l : list B) :
    option (result E A) :=
  match l with
  | [] => Some (Ok a)
  | x :: l =>
      match f a x with
      | None => None
      | Some (Err e) => Some (Err e)
      | Some (Ok a') => try_fold f a' l
      end
  end.

(** The loop keeps [I] on the processed prefix, or stops at the first element
    whose body fails. *)
Lemma try_fold_inv {A B E} (f : A -> B -> option (result E A)) (I : list B -> A -> Prop)
    (J : list B -> B -> E -> Prop) l a :
  I [] a ->
  (forall l1 x l2 a, l = l1 ++ x :: l2 -> I l1 a ->
    (exists a', f a x = Some (Ok a') /\ I (l1 ++ [x]) a') \/
    (exists e, f a x = Some (Err e) /\ J l1 x e)) ->
  (exists a', try_fold f a l = Some (Ok a') /\ I l a') \/
  (exists e l1 x l2, try_fold f a l = Some (Err e) /\ l = l1 ++ x :: l2 /\ J l1 x e).
Proof.
  intros Ha Hf. revert Ha.
  cut (forall todo pre a, l = pre ++ todo -> I pre a ->
    (exists a', try_fold f a todo = Some (Ok a') /\ I l a') \/
    (exists e l1 x l2, try_fold f a todo = Some (Err e) /\ l = l1 ++ x :: l2 /\ J l1 x e)).
  { intros H Ha. by apply (H l []). }
  clear a. induction todo as [|x todo IH]; intros pre a Hl Ha; simpl.
  - left. exists a. by rewrite Hl, app_nil_r.
  - destruct (Hf pre x todo a Hl Ha) as [(a' & -> & Ha') | (e & -> & He)].
    + apply (IH (pre ++ [x])); [by rewrite <- app_assoc|done].
    + right. by exists e, pre, x, todo.
Qed.

Lemma imap_pair_snd {A} (l : list A) : (imap pair l).*2 = l.
Proof. apply list_eq. intros i. rewrite list_lookup_fmap, list_lookup_imap. by destruct (l !! i). Qed.

Lemma imap_pair_inj {A} (l k : list A) : imap pair l = imap pair k -> l = k.
Proof. intros Hl%(f_equal (fmap snd)). by rewrite !imap_pair_snd in Hl. Qed.

Lemma imap_pair_snoc {A} (l : list A) x : imap pair (l ++ [x]) = imap pair l ++ [(length l, x)].
Proof. rewrite imap_app. simpl. by rewrite Nat.add_0_r. Qed.

Lemma imap_pair_split {A} (l : list A) l1 x l2 :
  imap pair l = l1 ++ x :: l2 ->
  exists k1 y k2, l = k1 ++ y :: k2 /\ l1 = imap pair k1 /\ x = (length k1, y).
Proof.
  intros Hl. pose proof (f_equal (fmap snd) Hl) as Hs.
  rewrite imap_pair_snd, fmap_app, fmap_cons in Hs. subst l.
  exists l1.*2, x.2, l2.*2. split; [done|]. rewrite imap_app in Hl. simpl in Hl.
  apply app_inj_1 in Hl as [Hl1 Hx]; [|by rewrite length_imap, length_fmap].
  split; [done|]. rewrite Nat.add_0_r in Hx. by simplify_eq.
Qed.

(** ** Sums *)
Definition Zsum {A} (f : A -> Z) (l : list A) : Z := foldr (fun a n => f a + n) 0 l.

Lemma Zsum_cons {A} (f : A -> Z) a l : Zsum f (a :: l) = f a + Zsum f l.
Proof. done. Qed.

Lemma Zsum_app {A} (f : A -> Z) l1 l2 : Zsum f (l1 ++ l2) = Zsum f l1 + Zsum f l2.
Proof. induction l1 as [|a l1 IH]; simpl; [done|]. rewrite IH. lia. Qed.

Lemma Zsum_ext {A} (f g : A -> Z) l : (forall x, x ∈ l -> f x = g x) -> Zsum f l = Zsum g l.
Proof.
  induction l as [|a l IH]; intros Hfg; [done|]. rewrite !Zsum_cons, Hfg by set_solver.
  rewrite IH by set_solver. done.
Qed.

Lemma Zsum_fmap {A B} (h : A -> B) (f : B -> Z) l : Zsum f (h <$> l) = Zsum (fun x => f (h x)) l.
Proof. induction l as [|a l IH]; [done|]. rewrite fmap_cons, !Zsum_cons, IH. done. Qed.

Lemma Zsum_plus {A} (f g : A -> Z) l : Zsum (fun x => f x + g x) l = Zsum f l + Zsum g l.
Proof. induction l as [|a l IH]; [done|]. rewrite !Zsum_cons, IH. lia. Qed.

Lemma Zsum_zero {A} (f : A -> Z) l : (forall x, x ∈ l -> f x = 0) -> Zsum f l = 0.
Proof.
  induction l as [|a l IH]; intros Hf; [done|]. rewrite Zsum_cons, Hf, IH by set_solver. done.
Qed.


Lemma Zsum_swap {A B} (f : A -> B -> Z) (l : list A) (l' : list B) :
  Zsum (fun x => Zsum (f x) l') l = Zsum (fun y => Zsum (fun x => f x y) l) l'.
Proof.
  induction l as [|a l IH]; [by rewrite (Zsum_zero _ l')|]. rewrite Zsum_cons, IH.
  rewrite <- Zsum_plus. by apply Zsum_ext.
Qed.

Lemma Zsum_scale {A} (c : Z) (f : A -> Z) l : Zsum (fun x => c * f x) l = c * Zsum f l.
Proof. induction l as [|a l IH]; [simpl; lia|]. rewrite !Zsum_cons, IH. lia. Qed.

Lemma Zsum_le {A} (f g : A -> Z) l : (forall x, x ∈ l -> f x <= g x) -> Zsum f l <= Zsum g l.
Proof.
  induction l as [|a l IH]; intros Hf; [done|]. rewrite !Zsum_cons.
  specialize (IH ltac:(set_solver)). specialize (Hf a ltac:(set_solver)). lia.
Qed.

Lemma Zsum_nonneg {A} (f : A -> Z) l : (forall x, x ∈ l -> 0 <= f x) -> 0 <= Zsum f l.
Proof. intros Hf. rewrite <- (Zsum_zero (fun _ => 0) l) by done. by apply Zsum_le. Qed.

(** One term of a duplicate-free list is counted once. *)
Lemma Zsum_delta {A} `{EqDecision A} (f : A -> Z) (a : A) l :
  NoDup l -> Zsum (fun x => if decide (x = a) then f x else 0) l = if decide (a ∈ l) then f a else 0.
Proof.
  induction l as [|b l IH]; intros Hl; [by rewrite decide_False by set_solver|].
  apply NoDup_cons in Hl as [Hb Hl]. rewrite Zsum_cons, IH by done.
  destruct (decide (b = a)) as [->|Hne].
  - rewrite (decide_False (P := a ∈ l)), decide_True by set_solver. lia.
  - destruct (decide (a ∈ l)); [rewrite decide_True by set_solver|rewrite decide_False by set_solver]; lia.
Qed.

Lemma Zsum_length {A} (P : A -> Prop) `{forall x, Decision (P x)} l :
  Z.of_nat (length (filter P l)) = Zsum (fun x => if decide (P x) then 1 else 0) l.
Proof.
  induction l as [|a l IH]; [done|]. rewrite Zsum_cons, filter_cons.
  case_decide; simpl; lia.
Qed.

#[global] Instance Zsum_perm {A} (f : A -> Z) : Proper ((≡ₚ) ==> (=)) (Zsum f).
Proof. induction 1; simpl; lia. Qed.

(** A sum over a map, after an insertion. *)
Lemma Zsum_map_insert {K V} `{Countable K} (f : K * V -> Z) (m : gmap K V) k x :
  Zsum f (map_to_list (<[k := x]> m)) =
  Zsum f (map_to_list m) - (match m !! k with Some y => f (k, y) | None => 0 end) + f (k, x).
Proof.
  assert (forall (m : gmap K V) x, m !! k = None ->
    Zsum f (map_to_list (<[k := x]> m)) = f (k, x) + Zsum f (map_to_list m)) as Hins.
  { intros m' x' Hm. by rewrite (Zsum_perm f _ _ (map_to_list_insert m' k x' Hm)). }
  rewrite <- (insert_delete_eq m). rewrite Hins by apply lookup_delete_eq.
  destruct (m !! k) as [y|] eqn:E.
  - rewrite <- (insert_delete_id m k y E) at 2. rewrite Hins by apply lookup_delete_eq. lia.
  - rewrite delete_id by done. lia.
Qed.

(** ** Wrap-around sums *)
Lemma wadd_wrap w x y : 0 <= w -> wadd w (wrap w x) y = wrap w (x + y).
Proof. intros Hw. unfold wadd, wrap. by rewrite Zplus_mod_idemp_l. Qed.

Lemma wsub_wrap w x y : 0 <= w -> wsub w (wrap w x) y = wrap w (x - y).
Proof. intros Hw. unfold wsub, wrap. by rewrite Zminus_mod_idemp_l. Qed.

(** Lists with the same elements of every class, in the same order, are permutations. *)
Lemma filter_first {A B} `{EqDecision B} (g : A -> B) x r l :
  filter (fun y => g y = g x) l = x :: r ->
  exists l1 l2, l = l1 ++ x :: l2 /\ filter (fun y => g y = g x) l1 = [] /\
    filter (fun y => g y = g x) l2 = r.
Proof.
  induction l as [|y l IH]; [done|]. destruct (decide (g y = g x)) as [Hy|Hy].
  - rewrite filter_cons_True by done. intros [= -> <-]. by exists [], l.
  - rewrite filter_cons_False by done. intros (l1 & l2 & -> & H1 & H2)%IH.
    exists (y :: l1), l2. split_and!; [done| |done]. by rewrite filter_cons_False.
Qed.

Lemma Permutation_by_class {A B} `{EqDecision B} (g : A -> B) l1 l2 :
  (forall b, filter (fun x => g x = b) l1 = filter (fun x => g x = b) l2) -> l1 ≡ₚ l2.
Proof.
  revert l2. induction l1 as [|x l1 IH]; intros l2 Hf.
  - destruct l2 as [|y l2]; [done|]. specialize (Hf (g y)).
    rewrite filter_cons_True in Hf by done. done.
  - pose proof (Hf (g x)) as Hx. rewrite filter_cons_True in Hx by done. symmetry in Hx.
    apply filter_first in Hx as (a & b & -> & Ha & Hb).
    rewrite <- Permutation_middle. constructor. apply IH. intros c. specialize (Hf c).
    rewrite filter_app in Hf |- *. destruct (decide (g x = c)) as [<-|Hne].
    + by rewrite Ha, Hb.
    + rewrite !filter_cons_False in Hf by done. done.
Qed.
