(* ===== verification/SchedulerSync.v ===== *)
(** * Slot arbitration between the block stage and the vanilla schedulers

    [core/src/scheduler_synchronization.rs]: one atomic word says which
    scheduler owns the slot being produced, and one atomic flag keeps the vote
    worker out while a whole block executes. The file has the word's encoding,
    every operation as the sequence of atomic accesses the code performs, the
    abstract claim the word stands for with the refinement between the two, and
    the interleaving semantics of the threads that use the module (the block
    stage thread, the vote worker and any number of vanilla threads), with the
    exclusion invariants. [core/src/banking_stage/decision_maker.rs] is the
    caller that turns a tick height into a claim. *)

From S2P Require Import Prelude.

Module Sync.

(** ** The encoding of the state word *)

Definition BLOCK_CLAIMED_BIT : Z := Z.shiftl 1 63.
(** [!BLOCK_CLAIMED_BIT] on [u64]. *)
Definition SLOT_MASK : Z := Z.lxor U64_MAX BLOCK_CLAIMED_BIT.
Definition SENTINEL : Z := U64_MAX.

Definition get_slot (value : Z) : Z := Z.land value SLOT_MASK.

Definition is_block_claim (value : Z) : bool :=
  negb (value =? SENTINEL) && negb (Z.land value BLOCK_CLAIMED_BIT =? 0).

Definition vanilla_claim (slot : Z) : Z := Z.land slot SLOT_MASK.

Definition block_claim (slot : Z) : Z :=
  Z.lor (Z.land slot SLOT_MASK) BLOCK_CLAIMED_BIT.

(** [AtomicU64::fetch_update]: the closure is applied to the current value and
    either replaces it ([Ok old]) or leaves it ([Err old]). *)
Definition fetch_update (f : Z -> option Z) (state : Z) : result Z Z * Z :=
  match f state with
  | Some new => (Ok state, new)
  | None => (Err state, state)
  end.

(** ** The closures given to [fetch_update] *)

(** The shared shape of both claims: from the sentinel or from an earlier slot. *)
Definition claim_update (new_state current_slot old_state : Z) : option Z :=
  if old_state =? SENTINEL then Some new_state
  else match get_slot old_state ?= current_slot with
       | Lt => Some new_state
       | Eq => None
       | Gt => None
       end.

Definition vanilla_update (current_slot : Z) : Z -> option Z :=
  claim_update (vanilla_claim current_slot) current_slot.

Definition block_update (current_slot : Z) : Z -> option Z :=
  claim_update (block_claim current_slot) current_slot.

Definition finished_update (current_slot old_state : Z) : option Z :=
  if old_state =? SENTINEL then None
  else if negb (get_slot old_state =? current_slot) then None
  else if negb (is_block_claim old_state) then None
  else Some (vanilla_claim current_slot).

Definition failed_update (current_slot old_state : Z) : option Z :=
  if old_state =? SENTINEL then None
  else if negb (get_slot old_state =? current_slot) then None
  else if negb (is_block_claim old_state) then None
  else Some (vanilla_claim (wsub 64 current_slot 1)).

(** ** The operations, run without interference *)

(** The first load of [vanilla_should_schedule]: an existing claim decides. *)
Definition claimed_decision (current_slot state : Z) : option bool :=
  if negb (state =? SENTINEL) && (get_slot state =? current_slot)
  then Some (negb (is_block_claim state)) else None.

(** The load after a failed claim. *)
Definition recheck_decision (current_slot state : Z) : bool :=
  if negb (state =? SENTINEL) && (get_slot state =? current_slot)
  then negb (is_block_claim state) else false.

Definition vanilla_should_schedule (current_slot : Z) (in_delegation_period : bool)
    (state : Z) : option bool * Z :=
  match claimed_decision current_slot state with
  | Some b => (Some b, state)
  | None =>
      if in_delegation_period then (None, state)
      else
        let '(r, state') := fetch_update (vanilla_update current_slot) state in
        if is_ok r then (Some true, state')
        else (Some (recheck_decision current_slot state'), state')
  end.

Definition block_should_schedule (current_slot : Z) (in_delegation_period : bool)
    (state : Z) : option bool * Z :=
  if negb in_delegation_period then (None, state)
  else
    let '(r, state') := fetch_update (block_update current_slot) state in
    (Some (is_ok r), state').

Definition is_block_executing (current_slot state : Z) : bool :=
  if state =? SENTINEL then false
  else (get_slot state =? current_slot) && is_block_claim state.

Definition block_execution_finished (current_slot state : Z) : bool * Z :=
  let '(r, state') := fetch_update (finished_update current_slot) state in
  (is_ok r, state').

Definition block_failed (current_slot state : Z) : option bool * Z :=
  let '(r, state') := fetch_update (failed_update current_slot) state in
  (Some (is_ok r), state').

(** [begin_vote_processing] on the pair (state word, VOTE_PROCESSING). *)
Definition begin_vote_processing (current_slot : Z) (s : Z * bool) : bool * (Z * bool) :=
  let '(state, _) := s in
  if is_block_executing current_slot state
  then (false, (state, false))
  else (true, (state, true)).

Definition end_vote_processing (s : Z * bool) : Z * bool := (s.1, false).

(** ** The abstract claim *)

(** Who owns the most recent claimed slot. *)
Inductive claim : Type :=
| Unclaimed
| ByVanilla (slot : Z)
| ByBlock (slot : Z).

#[global] Instance claim_eq_dec : EqDecision claim.
Proof. solve_decision. Defined.

(** Slots that occur in practice: the word has 63 bits for the slot and the
    all-ones block claim is the sentinel. *)
Definition real_slot (slot : Z) : Prop := 0 <= slot < 2 ^ 63 - 1.

Definition valid_claim (c : claim) : Prop :=
  match c with
  | Unclaimed => True
  | ByVanilla s => 0 <= s < 2 ^ 63
  | ByBlock s => real_slot s
  end.

Definition encode (c : claim) : Z :=
  match c with
  | Unclaimed => SENTINEL
  | ByVanilla s => vanilla_claim s
  | ByBlock s => block_claim s
  end.

Definition decode (state : Z) : claim :=
  if state =? SENTINEL then Unclaimed
  else if is_block_claim state then ByBlock (get_slot state)
  else ByVanilla (get_slot state).

(** The abstract operations: a slot can be claimed when nothing at or above it
    is claimed; only the owner of a block claim releases or reverts it. *)
Definition claimable (slot : Z) (c : claim) : bool :=
  match c with
  | Unclaimed => true
  | ByVanilla s | ByBlock s => s <? slot
  end.

Definition abs_vanilla (slot : Z) (deleg : bool) (c : claim) : option bool * claim :=
  match c with
  | ByVanilla s => if s =? slot then (Some true, c)
                   else if deleg then (None, c)
                   else if claimable slot c then (Some true, ByVanilla slot)
                   else (Some false, c)
  | ByBlock s => if s =? slot then (Some false, c)
                 else if deleg then (None, c)
                 else if claimable slot c then (Some true, ByVanilla slot)
                 else (Some false, c)
  | Unclaimed => if deleg then (None, c) else (Some true, ByVanilla slot)
  end.

Definition abs_block (slot : Z) (deleg : bool) (c : claim) : option bool * claim :=
  if negb deleg then (None, c)
  else if claimable slot c then (Some true, ByBlock slot)
  else (Some false, c).

Definition abs_finished (slot : Z) (c : claim) : bool * claim :=
  if decide (c = ByBlock slot) then (true, ByVanilla slot) else (false, c).

Definition abs_failed (slot : Z) (c : claim) : option bool * claim :=
  if decide (c = ByBlock slot)
  then (Some true, ByVanilla (if slot =? 0 then 2 ^ 63 - 1 else slot - 1))
  else (Some false, c).

(** ** Encoding lemmas *)

Lemma get_slot_mod v : get_slot v = v mod 2 ^ 63.
Proof. unfold get_slot. change SLOT_MASK with (Z.ones 63). by rewrite Z.land_ones. Qed.

Lemma testbit_63 v : 0 <= v <= U64_MAX -> Z.testbit v 63 = negb (v <? 2 ^ 63).
Proof.
  intros [Hlo Hhi]. unfold word_max in Hhi.
  rewrite Z.testbit_odd, Z.shiftr_div_pow2 by lia.
  destruct (Z.ltb_spec v (2 ^ 63)).
  - by rewrite Z.div_small by lia.
  - by replace (v / 2 ^ 63) with 1 by (apply (Z.div_unique _ _ _ (v - 2 ^ 63)); lia).
Qed.

Lemma land_claimed_bit v :
  Z.land v BLOCK_CLAIMED_BIT = if Z.testbit v 63 then 2 ^ 63 else 0.
Proof.
  change BLOCK_CLAIMED_BIT with (2 ^ 63). apply Z.bits_inj'. intros n Hn.
  rewrite Z.land_spec, Z.pow2_bits_eqb by lia.
  destruct (Z.eqb_spec 63 n) as [<-|Hne].
  - destruct (Z.testbit v 63); [|done]. by rewrite Z.pow2_bits_true.
  - rewrite andb_false_r. destruct (Z.testbit v 63); [|by rewrite Z.bits_0].
    by rewrite Z.pow2_bits_false.
Qed.

Lemma is_block_claim_spec v :
  0 <= v <= U64_MAX -> is_block_claim v = (2 ^ 63 <=? v) && negb (v =? SENTINEL).
Proof.
  intros Hv. unfold is_block_claim. rewrite land_claimed_bit, testbit_63 by done.
  rewrite Z.leb_antisym. by destruct (v <? 2 ^ 63), (v =? SENTINEL).
Qed.

Lemma vanilla_claim_small s : 0 <= s < 2 ^ 63 -> vanilla_claim s = s.
Proof. intros. change (vanilla_claim s) with (get_slot s). rewrite get_slot_mod. apply Z.mod_small. lia. Qed.

Lemma block_claim_add s : block_claim s = s mod 2 ^ 63 + 2 ^ 63.
Proof.
  unfold block_claim. change (Z.land s SLOT_MASK) with (get_slot s). rewrite get_slot_mod.
  set (m := s mod 2 ^ 63). assert (0 <= m < 2 ^ 63) by (apply Z.mod_pos_bound; lia).
  enough (Z.land m BLOCK_CLAIMED_BIT = 0) as Hl.
  { pose proof (Z.add_lor_land m BLOCK_CLAIMED_BIT) as Hadd.
    change BLOCK_CLAIMED_BIT with (2 ^ 63) in *. lia. }
  rewrite land_claimed_bit, testbit_63.
  - by destruct (Z.ltb_spec m (2 ^ 63)); [|lia].
  - unfold word_max. lia.
Qed.

Lemma block_claim_real s : real_slot s -> block_claim s = s + 2 ^ 63.
Proof. unfold real_slot. intros. rewrite block_claim_add, Z.mod_small; lia. Qed.

Lemma encode_cases c :
  valid_claim c ->
  match c with
  | Unclaimed => encode c = SENTINEL
  | ByVanilla s => encode c = s /\ 0 <= s < 2 ^ 63
  | ByBlock s => encode c = s + 2 ^ 63 /\ real_slot s
  end.
Proof.
  destruct c as [|s|s]; simpl; [done|..]; intros Hs.
  - by rewrite vanilla_claim_small.
  - by rewrite block_claim_real.
Qed.

Lemma get_slot_encode c :
  valid_claim c -> get_slot (encode c) =
    match c with Unclaimed => 2 ^ 63 - 1 | ByVanilla s | ByBlock s => s end.
Proof.
  intros Hv. rewrite get_slot_mod. pose proof (encode_cases c Hv) as He.
  destruct c as [|s|s]; [by rewrite He|destruct He as [-> Hs]..].
  - apply Z.mod_small. lia.
  - unfold real_slot in Hs. rewrite <- (Z.mul_1_l (2 ^ 63)) at 1.
    rewrite Z.mod_add by lia. apply Z.mod_small. lia.
Qed.

Lemma encode_sentinel c :
  valid_claim c -> (encode c =? SENTINEL) = bool_decide (c = Unclaimed).
Proof.
  intros Hv. pose proof (encode_cases c Hv) as He.
  destruct c as [|s|s]; [by rewrite He|destruct He as [-> Hs]..];
    rewrite bool_decide_eq_false_2 by done; apply Z.eqb_neq;
    unfold SENTINEL, word_max, real_slot in *; lia.
Qed.

Lemma is_block_claim_encode c :
  valid_claim c -> is_block_claim (encode c) =
    match c with ByBlock _ => true | _ => false end.
Proof.
  intros Hv. pose proof (encode_sentinel c Hv) as Hsen.
  pose proof (encode_cases c Hv) as He. unfold real_slot in *.
  assert (0 <= encode c <= U64_MAX) by (unfold SENTINEL, word_max in *; destruct c; lia).
  rewrite is_block_claim_spec, Hsen by done.
  destruct c as [|s|s]; [by rewrite andb_false_r|destruct He as [-> Hs]..].
  - by rewrite (proj2 (Z.leb_gt _ _)) by lia.
  - rewrite (proj2 (Z.leb_le _ _)) by lia. by rewrite bool_decide_eq_false_2.
Qed.

Lemma decode_encode c : valid_claim c -> decode (encode c) = c.
Proof.
  intros Hv. unfold decode.
  rewrite encode_sentinel, is_block_claim_encode, get_slot_encode by done.
  by destruct c.
Qed.

(** ** The operations on encoded claims *)

Lemma claim_update_encode new slot c :
  valid_claim c ->
  claim_update new slot (encode c) = if claimable slot c then Some new else None.
Proof.
  intros Hv. unfold claim_update.
  rewrite encode_sentinel, get_slot_encode by done.
  destruct c as [|s|s]; simpl; [done|..];
    rewrite ?bool_decide_eq_false_2 by done; unfold Z.ltb; by destruct (s ?= slot).
Qed.

Lemma claimed_decision_encode slot c :
  valid_claim c ->
  claimed_decision slot (encode c) =
    match c with
    | Unclaimed => None
    | ByVanilla s => if s =? slot then Some true else None
    | ByBlock s => if s =? slot then Some false else None
    end.
Proof.
  intros Hv. unfold claimed_decision.
  rewrite encode_sentinel, is_block_claim_encode, get_slot_encode by done.
  destruct c; simpl; [done|..]; by rewrite ?bool_decide_eq_false_2.
Qed.

Lemma recheck_decision_claimed slot state :
  recheck_decision slot state = default false (claimed_decision slot state).
Proof. unfold recheck_decision, claimed_decision. by destruct (_ && _). Qed.

Lemma owned_update_encode (new : Z) slot c :
  valid_claim c ->
  (if encode c =? SENTINEL then None
   else if negb (get_slot (encode c) =? slot) then None
   else if negb (is_block_claim (encode c)) then None
   else Some new) = if decide (c = ByBlock slot) then Some new else None.
Proof.
  intros Hv. rewrite encode_sentinel, is_block_claim_encode, get_slot_encode by done.
  case_decide as Hc.
  - subst c. simpl. by rewrite Z.eqb_refl.
  - destruct c as [|s|s]; [done|..]; rewrite bool_decide_eq_false_2 by done.
    + by destruct (s =? slot).
    + by rewrite (proj2 (Z.eqb_neq s slot)) by congruence.
Qed.

Lemma is_block_executing_encode slot c :
  valid_claim c -> is_block_executing slot (encode c) = bool_decide (c = ByBlock slot).
Proof.
  intros Hv. unfold is_block_executing.
  rewrite encode_sentinel, is_block_claim_encode, get_slot_encode by done.
  destruct c as [|s|s]; [done|..]; rewrite (bool_decide_eq_false_2 (_ = Unclaimed)) by done.
  - by rewrite andb_false_r, bool_decide_eq_false_2.
  - rewrite andb_true_r. apply Bool.eq_true_iff_eq. rewrite Z.eqb_eq, bool_decide_eq_true. naive_solver.
Qed.

(** The slot [block_failed] goes back to. *)
Lemma reverted_slot slot :
  real_slot slot ->
  vanilla_claim (wsub 64 slot 1) = vanilla_claim (if slot =? 0 then 2 ^ 63 - 1 else slot - 1).
Proof.
  unfold real_slot. intros Hs. destruct (Z.eqb_spec slot 0) as [->|]; [done|].
  f_equal. apply wsub_small; unfold word_max; lia.
Qed.

(** The operations on the word implement the abstract operations. *)
Lemma vanilla_refines slot deleg c :
  valid_claim c -> real_slot slot ->
  vanilla_should_schedule slot deleg (encode c) = prod_map id encode (abs_vanilla slot deleg c).
Proof.
  intros Hv Hs. unfold vanilla_should_schedule, fetch_update, vanilla_update.
  rewrite claimed_decision_encode, claim_update_encode by done.
  destruct c as [|s|s]; simpl; [by destruct deleg|..];
    (destruct (Z.eqb_spec s slot); [done|]); (destruct deleg; [done|]);
    (destruct (s <? slot); [done|]); simpl;
    rewrite recheck_decision_claimed; fold (encode (ByVanilla s)); fold (encode (ByBlock s));
    rewrite claimed_decision_encode by done; by rewrite (proj2 (Z.eqb_neq _ _)).
Qed.

Lemma block_refines slot deleg c :
  valid_claim c ->
  block_should_schedule slot deleg (encode c) = prod_map id encode (abs_block slot deleg c).
Proof.
  intros Hv. unfold block_should_schedule, abs_block, fetch_update, block_update.
  rewrite claim_update_encode by done.
  destruct deleg; simpl; [|done]. by destruct (claimable slot c).
Qed.

Lemma finished_refines slot c :
  valid_claim c ->
  block_execution_finished slot (encode c) = prod_map id encode (abs_finished slot c).
Proof.
  intros Hv. unfold block_execution_finished, fetch_update, finished_update, abs_finished.
  rewrite owned_update_encode by done. by case_decide.
Qed.

Lemma failed_refines slot c :
  valid_claim c -> real_slot slot ->
  block_failed slot (encode c) = prod_map id encode (abs_failed slot c).
Proof.
  intros Hv Hs. unfold block_failed, fetch_update, failed_update, abs_failed.
  rewrite owned_update_encode by done. case_decide; [|done].
  simpl. by rewrite reverted_slot.
Qed.

Lemma abs_valid slot deleg c :
  valid_claim c -> real_slot slot ->
  valid_claim (abs_vanilla slot deleg c).2 /\ valid_claim (abs_block slot deleg c).2 /\
  valid_claim (abs_finished slot c).2 /\ valid_claim (abs_failed slot c).2.
Proof.
  intros Hv Hs. unfold abs_block, abs_finished, abs_failed.
  assert (valid_claim (ByVanilla slot)) by (unfold real_slot in Hs; simpl; lia).
  repeat split.
  - destruct c; simpl in *; split_ifs; done.
  - destruct deleg; simpl; [|done]. by destruct (claimable slot c).
  - by case_decide.
  - case_decide; [|done]. simpl. unfold real_slot in Hs. split_if; bool_to_prop; lia.
Qed.

(** C25: functional refinement. On every claim word that real slots can
    produce, each operation of the module returns the answer of the abstract
    claim machine and leaves the word that encodes its next claim, which is
    again valid; so the bit tricks (the claim bit, the mask, the sentinel) never
    confuse two claims. *)
Theorem sync_refines_claim slot deleg c :
  valid_claim c -> real_slot slot ->
  decode (encode c) = c /\
  vanilla_should_schedule slot deleg (encode c) = prod_map id encode (abs_vanilla slot deleg c) /\
  block_should_schedule slot deleg (encode c) = prod_map id encode (abs_block slot deleg c) /\
  block_execution_finished slot (encode c) = prod_map id encode (abs_finished slot c) /\
  block_failed slot (encode c) = prod_map id encode (abs_failed slot c) /\
  valid_claim (abs_vanilla slot deleg c).2 /\ valid_claim (abs_block slot deleg c).2 /\
  valid_claim (abs_finished slot c).2 /\ valid_claim (abs_failed slot c).2.
Proof.
  intros Hv Hs. pose proof (abs_valid slot deleg c Hv Hs).
  auto 10 using decode_encode, vanilla_refines, block_refines, finished_refines, failed_refines.
Qed.

Lemma sync_refines_claim_witness :
  decode (encode (ByBlock 7)) = ByBlock 7 /\
  vanilla_should_schedule 8 false (encode (ByBlock 7)) = (Some true, encode (ByVanilla 8)).
Proof.
  destruct (sync_refines_claim 8 false (ByBlock 7)) as (Hd & Hvan & _).
  - unfold valid_claim, real_slot. lia.
  - unfold real_slot. lia.
  - split; [exact Hd|exact Hvan].
Defined.

(** A block that fails in a slot after the first hands the slot to vanilla:
    the revert succeeds and the next vanilla call outside the delegation period
    claims the slot. *)
Lemma block_failed_hands_over slot :
  real_slot slot -> 0 < slot ->
  let '(r, state) := block_failed slot (block_claim slot) in
  r = Some true /\
  vanilla_should_schedule slot false state = (Some true, vanilla_claim slot) /\
  begin_vote_processing slot (state, false) = (true, (state, true)).
Proof.
  intros Hs Hpos. change (block_claim slot) with (encode (ByBlock slot)).
  rewrite failed_refines by done. unfold abs_failed. rewrite decide_True by done.
  rewrite (proj2 (Z.eqb_neq slot 0)) by lia. simpl (prod_map _ _ _).
  assert (valid_claim (ByVanilla (slot - 1))) as Hv by (unfold real_slot in Hs; simpl; lia).
  split; [done|]. change (vanilla_claim (slot - 1)) with (encode (ByVanilla (slot - 1))).
  rewrite vanilla_refines by done. unfold begin_vote_processing.
  rewrite is_block_executing_encode, bool_decide_eq_false_2 by done. simpl.
  rewrite (proj2 (Z.eqb_neq _ _)), (proj2 (Z.ltb_lt _ _)) by lia. done.
Qed.

(** C39: in slot 0 the revert wraps around to the largest slot number, and from
    then on neither scheduler can claim any slot: [wrapping_sub] does not handle
    the slot 0 edge case it is commented to handle. *)
Theorem block_failed_slot_zero_wedges slot deleg :
  real_slot slot ->
  let '(r, state) := block_failed 0 (block_claim 0) in
  r = Some true /\
  vanilla_should_schedule slot deleg state = ((if deleg then None else Some false), state) /\
  block_should_schedule slot true state = (Some false, state).
Proof.
  intros Hs. change (block_claim 0) with (encode (ByBlock 0)).
  rewrite failed_refines by done. unfold abs_failed. rewrite decide_True by done.
  set (c := ByVanilla (2 ^ 63 - 1)).
  change (prod_map id encode _) with (Some true, encode c).
  assert (valid_claim c) by done.
  assert (claimable slot c = false) as Hno.
  { unfold real_slot in Hs. apply Z.ltb_ge. lia. }
  split; [done|]. rewrite vanilla_refines, block_refines by done.
  unfold abs_block. rewrite Hno. split; [|done].
  change (abs_vanilla slot deleg c) with
    (if 2 ^ 63 - 1 =? slot then (Some true, c) else if deleg then (None, c)
     else if claimable slot c then (Some true, ByVanilla slot) else (Some false, c)).
  rewrite Hno, (proj2 (Z.eqb_neq _ _)) by (unfold real_slot in Hs; lia). by destruct deleg.
Qed.

Lemma block_failed_slot_zero_wedges_witness :
  vanilla_should_schedule 3 false (block_failed 0 (block_claim 0)).2
    = (Some false, (block_failed 0 (block_claim 0)).2).
Proof.
  assert (real_slot 3) as H by (unfold real_slot; lia).
  exact (proj1 (proj2 (block_failed_slot_zero_wedges 3 false H))).
Defined.

End Sync.

(** * The threads that share the word, interleaved at every atomic access *)
Module Threads.
Import Sync.

(** A vanilla scheduler thread inside [vanilla_should_schedule]. *)
Inductive vanilla_pc : Type :=
| VStart (slot : Z) (deleg : bool)   (** before the first load *)
| VTry (slot : Z)                    (** before [fetch_update] *)
| VRecheck (slot : Z)                (** before the load after a failed claim *)
| VDone (slot : Z) (answer : option bool).

(** The block stage thread inside the loop body of [BlockStage::process_loop]. *)
Inductive block_pc : Type :=
| BIdle
| BTry (slot : Z) (deleg : bool)     (** before [block_should_schedule] *)
| BWait (slot : Z)                   (** spinning in [wait_for_votes_to_finish] *)
| BExec (slot : Z).                  (** executing the block *)

(** The vote worker around one batch of votes. *)
Inductive vote_pc : Type :=
| TIdle
| TCheck (slot : Z)                  (** flag stored, before the check *)
| TReset (slot : Z)                  (** check failed, before the flag is cleared *)
| TProcess (slot : Z).               (** processing a batch *)

Record sys : Type := Sys {
  state : Z;                         (** SCHEDULER_STATE *)
  vote_processing : bool;            (** VOTE_PROCESSING *)
  block : block_pc;
  vote : vote_pc;
  vanilla : gmap nat vanilla_pc      (** by thread *)
}.

Definition initial (s : sys) : Prop := s = Sys SENTINEL false BIdle TIdle ∅.

(** Where a vanilla thread goes after its first load. *)
Definition after_load (slot : Z) (deleg : bool) (st : Z) : vanilla_pc :=
  match claimed_decision slot st with
  | Some b => VDone slot (Some b)
  | None => if deleg then VDone slot None else VTry slot
  end.

Definition after_try (slot : Z) (r : result Z Z) : vanilla_pc :=
  if is_ok r then VDone slot (Some true) else VRecheck slot.

Definition after_claim (slot : Z) (answer : option bool) : block_pc :=
  match answer with
  | Some true => BWait slot
  | _ => BIdle
  end.

Inductive step : sys -> sys -> Prop :=
| step_vanilla_call st vp b v m t slot deleg :
    real_slot slot ->
    step (Sys st vp b v m) (Sys st vp b v (<[t := VStart slot deleg]> m))
| step_vanilla_load st vp b v m t slot deleg :
    m !! t = Some (VStart slot deleg) ->
    step (Sys st vp b v m) (Sys st vp b v (<[t := after_load slot deleg st]> m))
| step_vanilla_try st vp b v m t slot r st' :
    m !! t = Some (VTry slot) ->
    fetch_update (vanilla_update slot) st = (r, st') ->
    step (Sys st vp b v m) (Sys st' vp b v (<[t := after_try slot r]> m))
| step_vanilla_recheck st vp b v m t slot :
    m !! t = Some (VRecheck slot) ->
    step (Sys st vp b v m)
         (Sys st vp b v (<[t := VDone slot (Some (recheck_decision slot st))]> m))
| step_block_call st vp v m slot deleg :
    real_slot slot ->
    step (Sys st vp BIdle v m) (Sys st vp (BTry slot deleg) v m)
| step_block_try st vp v m slot deleg r st' :
    block_should_schedule slot deleg st = (r, st') ->
    step (Sys st vp (BTry slot deleg) v m) (Sys st' vp (after_claim slot r) v m)
| step_block_wait st v m slot :
    step (Sys st false (BWait slot) v m) (Sys st false (BExec slot) v m)
| step_block_finished st vp v m slot r st' :
    block_execution_finished slot st = (r, st') ->
    step (Sys st vp (BExec slot) v m) (Sys st' vp BIdle v m)
| step_block_failed st vp v m slot r st' :
    block_failed slot st = (r, st') ->
    step (Sys st vp (BExec slot) v m) (Sys st' vp BIdle v m)
| step_vote_store st vp b m slot :
    step (Sys st vp b TIdle m) (Sys st true b (TCheck slot) m)
| step_vote_check st vp b m slot :
    step (Sys st vp b (TCheck slot) m)
         (Sys st vp b (if is_block_executing slot st then TReset slot else TProcess slot) m)
| step_vote_reset st vp b m slot :
    step (Sys st vp b (TReset slot) m) (Sys st false b TIdle m)
| step_vote_end st vp b m slot :
    step (Sys st vp b (TProcess slot) m) (Sys st false b TIdle m).

(** ** The invariant, on abstract claims *)

(** A slot later than [slot] has been claimed. *)
Definition passed (slot : Z) (c : claim) : Prop :=
  match c with
  | Unclaimed => False
  | ByVanilla s | ByBlock s => slot < s
  end.

(** The slot the block thread owns, from the claim to the release. *)
Definition owns (b : block_pc) : option Z :=
  match b with
  | BWait slot | BExec slot => Some slot
  | _ => None
  end.

Definition pc_real (p : vanilla_pc) : Prop :=
  match p with
  | VStart s _ | VTry s | VRecheck s | VDone s _ => real_slot s
  end.

Record inv (c : claim) (vp : bool) (b : block_pc) (v : vote_pc)
    (m : gmap nat vanilla_pc) : Prop := {
  inv_valid : valid_claim c;
  inv_flag : vp = false <-> v = TIdle;
  inv_block_try : match b with BTry s _ | BWait s | BExec s => real_slot s | BIdle => True end;
  inv_owned : forall s, owns b = Some s -> c = ByBlock s \/ passed s c;
  inv_vote : forall s, b = BExec s -> v = TProcess s -> passed s c;
  inv_pc : forall t p, m !! t = Some p -> pc_real p;
  inv_vanilla : forall t s, m !! t = Some (VDone s (Some true)) ->
    (c = ByVanilla s \/ passed s c) /\ owns b <> Some s
}.

Definition Inv (s : sys) : Prop :=
  exists c, state s = encode c /\
    inv c (vote_processing s) (block s) (vote s) (vanilla s).

(** Claiming a claimable slot passes every slot claimed before. *)
Lemma claimable_passed slot c c' s :
  claimable slot c = true -> c' = ByVanilla slot \/ c' = ByBlock slot ->
  c = ByVanilla s \/ c = ByBlock s \/ passed s c -> passed s c'.
Proof.
  intros Hc Hc' Hs. destruct c as [|s0|s0]; simpl in *;
    destruct Hc' as [-> | ->]; simpl; bool_to_prop; destruct Hs as [?|[?|?]]; simplify_eq; lia.
Qed.

Lemma claimable_fresh slot c :
  claimable slot c = true -> ~ (c = ByVanilla slot \/ c = ByBlock slot \/ passed slot c).
Proof. destruct c; simpl; intros; bool_to_prop; naive_solver lia. Qed.

(** Releasing or reverting a block claim never goes below a settled slot. *)
Lemma release_settled slot s :
  passed s (ByBlock slot) -> real_slot slot ->
  let c' := ByVanilla (if slot =? 0 then 2 ^ 63 - 1 else slot - 1) in
  (c' = ByVanilla s \/ passed s c') /\ passed s (ByVanilla slot).
Proof.
  simpl. unfold real_slot. intros Hlt Hs. split; [|done].
  destruct (Z.eqb_spec slot 0) as [->|].
  - right. lia.
  - destruct (decide (s = slot - 1)) as [->|]; [by left|right; lia].
Qed.

(** ** Preservation, by thread *)

Lemma inv_set_pc c vp b v m t p :
  inv c vp b v m -> pc_real p ->
  (forall s, p = VDone s (Some true) -> c = ByVanilla s) ->
  inv c vp b v (<[t := p]> m).
Proof.
  intros [] Hp Hdone. constructor; try done.
  - intros t' p' [[<- <-]|[? ?]]%lookup_insert_Some; eauto.
  - intros t' s [[<- ->]|[? ?]]%lookup_insert_Some; [|eauto].
    rewrite (Hdone s) in * by done. split; [by left|].
    intros [?|Hlt]%inv_owned0; [done|]. simpl in Hlt. lia.
Qed.

Lemma inv_vanilla_claims c vp b v m slot :
  inv c vp b v m -> claimable slot c = true -> real_slot slot ->
  inv (ByVanilla slot) vp b v m.
Proof.
  intros [] Hc Hs. constructor; try done.
  - unfold real_slot in Hs. simpl. lia.
  - intros s Ho. right. eapply claimable_passed; naive_solver.
  - intros s Hb Hv. eapply claimable_passed; naive_solver.
  - intros t s Ht. destruct (inv_vanilla0 t s Ht) as [Hset Hown]. split; [|done].
    right. eapply claimable_passed; naive_solver.
Qed.

Lemma inv_block_claims c vp v m slot deleg :
  inv c vp (BTry slot deleg) v m -> claimable slot c = true ->
  inv (ByBlock slot) vp (BWait slot) v m.
Proof.
  intros [] Hc. constructor; try done.
  - intros s Ho. simplify_eq/=. by left.
  - intros t s Ht. destruct (inv_vanilla0 t s Ht) as [Hset _]. split.
    + right. eapply claimable_passed; naive_solver.
    + simpl. intros ?; simplify_eq. eapply claimable_fresh; naive_solver.
Qed.

Lemma inv_block_leaves c c' vp b v m :
  inv c vp b v m -> valid_claim c' ->
  (forall s, c = ByVanilla s \/ passed s c -> c' = ByVanilla s \/ passed s c') ->
  inv c' vp BIdle v m.
Proof.
  intros [] Hv Hset. constructor; try done.
  intros t s Ht. destruct (inv_vanilla0 t s Ht) as [? _]. eauto.
Qed.

Lemma inv_vote_step c vp b v m vp' v' :
  inv c vp b v m -> (vp' = false <-> v' = TIdle) ->
  (forall s, b = BExec s -> v' = TProcess s -> passed s c) ->
  inv c vp' b v' m.
Proof. intros [] ? ?. by constructor. Qed.

Lemma step_vanilla_inv st vp b v m t p c st' c' :
  st = encode c -> inv c vp b v m -> st' = encode c' -> inv c' vp b v m -> pc_real p ->
  (forall s, p = VDone s (Some true) -> c' = ByVanilla s) ->
  Inv (Sys st' vp b v (<[t := p]> m)).
Proof. intros _ _ -> Hi Hp Hd. exists c'. split; [done|]. by apply inv_set_pc. Qed.

Lemma decided_claim slot c :
  valid_claim c -> claimed_decision slot (encode c) = Some true -> c = ByVanilla slot.
Proof.
  intros Hv. rewrite claimed_decision_encode by done.
  destruct c; intros; split_ifs; bool_to_prop; congruence.
Qed.

Lemma Inv_step s s' : Inv s -> step s s' -> Inv s'.
Proof.
  intros (c & Hc & Hi) Hstep. pose proof (inv_valid _ _ _ _ _ Hi) as Hv.
  pose proof (inv_pc _ _ _ _ _ Hi) as Hpc. pose proof (inv_block_try _ _ _ _ _ Hi) as Hb.
  destruct Hstep; simpl in *; subst st.
  - eapply step_vanilla_inv; eauto. done.
  - eapply step_vanilla_inv; eauto; unfold after_load.
    + apply Hpc in H. destruct (claimed_decision _ _), deleg; done.
    + intros s. destruct (claimed_decision slot (encode c)) as [[]|] eqn:E; [|done|by destruct deleg].
      intros ?; simplify_eq. by apply decided_claim.
  - apply Hpc in H. unfold fetch_update, vanilla_update, after_try in *.
    rewrite claim_update_encode in * by done.
    destruct (claimable slot c) eqn:E; simplify_eq/=.
    + eapply (step_vanilla_inv _ _ _ _ _ _ _ c _ (ByVanilla slot)); eauto using inv_vanilla_claims.
      naive_solver.
    + eapply step_vanilla_inv; eauto. done.
  - eapply step_vanilla_inv; eauto; [by apply Hpc in H|].
    intros s ?; simplify_eq. rewrite recheck_decision_claimed in *.
    destruct (claimed_decision _ _) as [[]|] eqn:E; simplify_eq/=. by apply decided_claim.
  - exists c. split; [done|]. by destruct Hi; constructor.
  - rewrite block_refines in H by done. unfold abs_block in H.
    destruct deleg; simpl in H; [destruct (claimable slot c) eqn:E|]; simplify_eq/=.
    + exists (ByBlock slot). split; [done|]. by eapply inv_block_claims.
    + exists c. split; [done|]. by eapply inv_block_leaves.
    + exists c. split; [done|]. by eapply inv_block_leaves.
  - exists c. split; [done|]. destruct Hi; constructor; try done.
    intros s _ Hv'. simpl in *. by rewrite (proj1 inv_flag0 eq_refl) in Hv'.
  - rewrite finished_refines in H by done. unfold abs_finished in H.
    case_decide; simplify_eq/=.
    + exists (ByVanilla slot). split; [done|]. eapply inv_block_leaves; eauto.
      * unfold real_slot in Hb. simpl. lia.
      * intros s [?|Hp]; [done|]. right. exact Hp.
    + exists c. split; [done|]. by eapply inv_block_leaves.
  - rewrite failed_refines in H by done. pose proof (abs_valid slot true c Hv Hb) as (_ & _ & _ & Hv').
    unfold abs_failed in *. case_decide; simplify_eq/=.
    + eexists (ByVanilla _). split; [done|]. eapply inv_block_leaves; eauto.
      intros s [?|Hp]; [done|]. by apply release_settled.
    + exists c. split; [done|]. by eapply inv_block_leaves.
  - exists c. split; [done|]. eapply inv_vote_step; eauto; done.
  - exists c. split; [done|]. eapply inv_vote_step; eauto.
    + destruct (inv_flag _ _ _ _ _ Hi). split_if; naive_solver.
    + simpl. intros s -> Hs. rewrite is_block_executing_encode in Hs by done.
      case_bool_decide as Hex; simplify_eq. by destruct (inv_owned _ _ _ _ _ Hi s).
  - exists c. split; [done|]. eapply inv_vote_step; eauto; done.
  - exists c. split; [done|]. eapply inv_vote_step; eauto; done.
Qed.

Lemma Inv_reachable s : reachable initial step s -> Inv s.
Proof.
  apply invariant_reachable; [|exact Inv_step].
  intros ? ->. exists Unclaimed. split; [done|]. by constructor.
Qed.

(** C1: a slot is never scheduled twice. In every state the threads can reach,
    while the block stage owns a slot (from its claim until it releases or
    reverts the claim) no vanilla thread holds the answer that it should
    schedule the same slot. *)
Theorem block_vanilla_exclusive s slot t :
  reachable initial step s ->
  owns (block s) = Some slot ->
  vanilla s !! t <> Some (VDone slot (Some true)).
Proof.
  intros (c & _ & Hi)%Inv_reachable Ho Ht.
  by destruct (inv_vanilla _ _ _ _ _ Hi t slot Ht).
Qed.

(** C26: votes and blocks exclude each other. While the block stage executes a
    slot, either the word still holds its claim and the vote worker is not
    processing votes for that slot, or a later slot has been claimed. *)
Theorem block_vote_exclusive s slot :
  reachable initial step s ->
  block s = BExec slot ->
  (state s = block_claim slot /\ vote s <> TProcess slot) \/
  (state s <> SENTINEL /\ slot < get_slot (state s)).
Proof.
  intros (c & Hc & Hi)%Inv_reachable Hb. pose proof (inv_valid _ _ _ _ _ Hi) as Hv.
  assert (passed slot c -> state s <> SENTINEL /\ slot < get_slot (state s)) as Hpass.
  { intros Hp. rewrite Hc, get_slot_encode by done. split; [|by destruct c].
    pose proof (encode_sentinel c Hv) as Hs. intros E. rewrite E, Z.eqb_refl in Hs.
    by destruct c. }
  destruct (inv_owned _ _ _ _ _ Hi slot) as [->|Hp]; [by rewrite Hb|..|auto].
  left. split; [done|]. intros Hvote.
  pose proof (inv_vote _ _ _ _ _ Hi slot Hb Hvote) as Hp. simpl in Hp. lia.
Qed.

(** One run: the block stage claims slot 5 and executes it while a vanilla
    thread asks for the same slot and is refused. *)
Lemma sample_run :
  reachable initial step
    (Sys (block_claim 5) false (BExec 5) TIdle {[0%nat := VDone 5 (Some false)]}).
Proof.
  replace {[0%nat := VDone 5 (Some false)]} with
    (<[0%nat := after_load 5 true (block_claim 5)]> (<[0%nat := VStart 5 true]> (∅ : gmap nat vanilla_pc)))
    by (vm_compute; reflexivity).
  eapply reachable_step.
  { eapply reachable_step.
    { eapply reachable_step.
      { eapply reachable_step.
        { eapply reachable_step.
          { by apply reachable_init. }
          apply (step_block_call _ _ _ _ 5 true). unfold real_slot. lia. }
        apply (step_block_try _ _ _ _ 5 true (Some true) (block_claim 5)). reflexivity. }
      apply step_block_wait. }
    apply (step_vanilla_call _ _ _ _ _ 0%nat 5 true). unfold real_slot. lia. }
  apply (step_vanilla_load _ _ _ _ _ 0%nat 5 true). reflexivity.
Qed.

Lemma block_vanilla_exclusive_witness :
  ({[0%nat := VDone 5 (Some false)]} : gmap nat vanilla_pc) !! 0%nat <> Some (VDone 5 (Some true)).
Proof. exact (block_vanilla_exclusive _ 5 0%nat sample_run eq_refl). Defined.

Lemma block_vote_exclusive_witness :
  (block_claim 5 = block_claim 5 /\ TIdle <> TProcess 5) \/
  (block_claim 5 <> SENTINEL /\ 5 < get_slot (block_claim 5)).
Proof. exact (block_vote_exclusive _ 5 sample_run eq_refl). Defined.

End Threads.

(** * [DecisionMaker]: from the leader state to a gated consume decision *)
Module Decision.
Import Sync.

Section Decision.
(** Constants of the [solana_clock] crate. *)
Context (DEFAULT_TICKS_PER_SLOT FORWARD_TRANSACTIONS_TO_LEADER_AT_SLOT_OFFSET
         HOLD_TRANSACTIONS_SLOT_OFFSET : Z).

(** What the decision reads of a [Bank]. *)
Record bank : Type := Bank {
  slot : Z;
  tick_height : Z;
  max_tick_height : Z;
  ticks_per_slot : Z
}.

Inductive BufferedPacketsDecision : Type :=
| Consume (b : bank)
| Forward
| ForwardAndHold
| Hold.

Record LeaderState : Type := {
  working_bank : option bank;
  leader_tick_height : Z;
  leader_first_tick_height : option Z
}.

Definition make_consume_or_forward_decision (state : LeaderState) : BufferedPacketsDecision :=
  match working_bank state with
  | Some b => Consume b
  | None =>
      match leader_first_tick_height state with
      | Some first =>
          let ticks_until_leader := sat_sub first (leader_tick_height state) in
          if ticks_until_leader <=?
             (FORWARD_TRANSACTIONS_TO_LEADER_AT_SLOT_OFFSET - 1) * DEFAULT_TICKS_PER_SLOT
          then Hold
          else if ticks_until_leader <? HOLD_TRANSACTIONS_SLOT_OFFSET * DEFAULT_TICKS_PER_SLOT
          then ForwardAndHold
          else Forward
      | None => Forward
      end
  end.

Definition start_tick (b : bank) : Z := wsub 64 (max_tick_height b) (ticks_per_slot b).

Definition delegation_period_length (b : bank) : Z := wrap 64 (ticks_per_slot b * 15) / 16.

Definition in_delegation_period (b : bank) : bool :=
  sat_sub (tick_height b) (start_tick b) <? delegation_period_length b.

Definition maybe_consume (VANILLA : bool) (decision : BufferedPacketsDecision) (state : Z) :
    BufferedPacketsDecision * Z :=
  match decision with
  | Consume b =>
      let should_schedule := if VANILLA then vanilla_should_schedule else block_should_schedule in
      let '(r, state') := should_schedule (slot b) (in_delegation_period b) state in
      (match r with
       | Some true => Consume b
       | Some false => Hold
       | None => Hold
       end, state')
  | _ => (decision, state)
  end.

(** The tick heights of a bank that is being produced. *)
Definition bank_ok (b : bank) : Prop :=
  real_slot (slot b) /\
  0 <= ticks_per_slot b <= max_tick_height b /\ max_tick_height b <= U64_MAX /\
  0 <= tick_height b <= U64_MAX /\ ticks_per_slot b * 15 <= U64_MAX.

Lemma in_delegation_period_spec b :
  bank_ok b ->
  in_delegation_period b = true <->
  tick_height b - (max_tick_height b - ticks_per_slot b) < ticks_per_slot b * 15 / 16 /\
  0 < ticks_per_slot b * 15 / 16.
Proof.
  intros (Hs & Ht & Hm & Hh & H15).
  unfold in_delegation_period, delegation_period_length, start_tick.
  rewrite wsub_small, wrap_small by (unfold word_max in *; lia).
  unfold sat_sub. rewrite Z.ltb_lt. lia.
Qed.

(** Who may consume when. A block consumes a bank only during the first
    15/16 of the slot's ticks and always leaves its own claim in the word; a
    vanilla thread consumes either on a claim vanilla already holds for the slot
    or, from 15/16 of the slot's ticks on, by claiming it; every other decision
    passes through with the word untouched. *)
Lemma maybe_consume_periods b c d state' :
  bank_ok b -> valid_claim c ->
  let boundary := max_tick_height b - ticks_per_slot b + ticks_per_slot b * 15 / 16 in
  (maybe_consume false (Consume b) (encode c) = (Consume d, state') ->
     d = b /\ tick_height b < boundary /\ state' = block_claim (slot b)) /\
  (maybe_consume true (Consume b) (encode c) = (Consume d, state') ->
     d = b /\ state' = vanilla_claim (slot b) /\
     (c = ByVanilla (slot b) \/ boundary <= tick_height b \/ ticks_per_slot b * 15 / 16 = 0)) /\
  (forall V x, (forall b', x <> Consume b') -> maybe_consume V x (encode c) = (x, encode c)).
Proof.
  intros Hb Hc boundary. pose proof (in_delegation_period_spec b Hb) as Hd.
  assert (0 <= ticks_per_slot b * 15 / 16) by (apply Z.div_pos; destruct Hb; lia).
  destruct Hb as [Hs _]. unfold maybe_consume. split; [|split].
  - rewrite block_refines by done. unfold abs_block.
    destruct (in_delegation_period b); [|done]. simpl.
    destruct (claimable (slot b) c); intros; simplify_eq/=. repeat split; unfold boundary; lia.
  - rewrite vanilla_refines by done.
    destruct (in_delegation_period b) eqn:E; destruct c as [|s|s]; simpl;
      intros; simplify_eq/=; split_ifs; bool_to_prop; subst; split_and!; try done;
      unfold boundary; first [by left|right; lia].
  - intros V [] Hx; naive_solver.
Qed.
End Decision.

End Decision.
