(* ===== verification/Accounts.v ===== *)
(** * Account accesses of transactions

    What every lock table and scheduler of the repository reads of a
    transaction: its account keys and which of them it writes
    ([SVMMessage::account_keys], [SVMMessage::is_writable]), paired up by
    [TransactionAccountLocksIterator::accounts_with_is_writable]. The file has
    the interface, the validation of a transaction's accounts before locking,
    and the counting and conflict vocabulary the components share. *)

From S2P Require Import Prelude.

(** The part of the [SVMMessage] trait that locking uses. *)
Class SVMMessage (Key Tx : Type) : Type := {
  account_keys : Tx -> list Key;
  is_writable : Tx -> nat -> bool
}.

(** The variants of [TransactionError] the modelled code builds or matches;
    [InvalidInstructionError i] is
    [InstructionError(i, InstructionError::InvalidInstructionData)]. *)
Inductive TransactionError : Type :=
| AccountInUse
| AccountLoadedTwice
| AlreadyProcessed
| TooManyAccountLocks
| WouldExceedMaxBlockCostLimit
| WouldExceedMaxVoteCostLimit
| WouldExceedMaxAccountCostLimit
| WouldExceedAccountDataBlockLimit
| WouldExceedAccountDataTotalLimit
| InvalidInstructionError (index : Z)
| DuplicateInstruction (index : Z)
| InvalidLoadedAccountsDataSizeLimit.

#[global] Instance TransactionError_eq_dec : EqDecision TransactionError.
Proof. solve_decision. Defined.

Section Accesses.
Context {Key : Type} `{Countable Key}.

Definition accounts_with_is_writable {Tx} `{SVMMessage Key Tx} (tx : Tx) : list (Key * bool) :=
  imap (fun index key => (key, is_writable tx index)) (account_keys tx).

(** The brute-force scan of [has_duplicates]. *)
Fixpoint has_duplicates_scan (keys : list Key) : bool :=
  match keys with
  | [] => false
  | key :: rest => existsb (fun k => bool_decide (key = k)) rest || has_duplicates_scan rest
  end.

(** The hash-set scan: [any] over [!set.insert(key)]. *)
Fixpoint has_duplicates_set (seen : gset Key) (keys : list Key) : bool :=
  match keys with
  | [] => false
  | key :: rest =>
      if decide (key ∈ seen) then true else has_duplicates_set ({[key]} ∪ seen) rest
  end.

Definition USE_ACCOUNT_LOCK_SET_SIZE : nat := 32.

Definition has_duplicates (keys : list Key) : bool :=
  if (USE_ACCOUNT_LOCK_SET_SIZE <=? length keys)%nat then has_duplicates_set ∅ keys
  else has_duplicates_scan keys.

Definition validate_account_locks (keys : list Key) (tx_account_lock_limit : nat) :
    result TransactionError unit :=
  if (tx_account_lock_limit <? length keys)%nat then Err TooManyAccountLocks
  else if has_duplicates keys then Err AccountLoadedTwice
  else Ok tt.

(** ** Counting and conflicts *)

(** How often an access list has key [k] with writable flag [w]. *)
Definition acc_count (w : bool) (k : Key) (l : list (Key * bool)) : Z :=
  Z.of_nat (length (filter (fun a => a = (k, w)) l)).

Definition touches (l : list (Key * bool)) (k : Key) : Prop := exists w, (k, w) ∈ l.
Definition writes (l : list (Key * bool)) (k : Key) : Prop := (k, true) ∈ l.

(** Two access lists conflict when one writes an account the other touches. *)
Definition conflict (l1 l2 : list (Key * bool)) : Prop :=
  exists k, (writes l1 k /\ touches l2 k) \/ (touches l1 k /\ writes l2 k).

#[global] Instance touches_dec l k : Decision (touches l k).
Proof.
  refine (cast_if (decide ((k, true) ∈ l \/ (k, false) ∈ l))).
  - destruct o; eexists; eauto.
  - intros [[] ?]; auto.
Defined.

#[global] Instance writes_dec l k : Decision (writes l k) := decide ((k, true) ∈ l).

Lemma acc_count_nil w k : acc_count w k [] = 0.
Proof. done. Qed.

Lemma acc_count_cons w k a l :
  acc_count w k (a :: l) = (if decide (a = (k, w)) then 1 else 0) + acc_count w k l.
Proof. unfold acc_count. rewrite filter_cons. case_decide; simpl; lia. Qed.

Lemma acc_count_app w k l1 l2 : acc_count w k (l1 ++ l2) = acc_count w k l1 + acc_count w k l2.
Proof. unfold acc_count. rewrite filter_app, length_app. lia. Qed.

Lemma acc_count_nonneg w k l : 0 <= acc_count w k l.
Proof. unfold acc_count. lia. Qed.

Lemma acc_count_le w k l : acc_count w k l <= Z.of_nat (length l).
Proof. unfold acc_count. pose proof (length_filter (fun a => a = (k, w)) l). lia. Qed.

Lemma acc_count_pos w k l : 0 < acc_count w k l <-> (k, w) ∈ l.
Proof.
  induction l as [|a l IH]; [rewrite acc_count_nil, elem_of_nil; lia|].
  rewrite acc_count_cons, elem_of_cons. pose proof (acc_count_nonneg w k l).
  case_decide; naive_solver lia.
Qed.

Lemma acc_count_zero w k l : acc_count w k l = 0 <-> (k, w) ∉ l.
Proof. rewrite <- acc_count_pos. pose proof (acc_count_nonneg w k l). lia. Qed.

#[global] Instance acc_count_perm w k : Proper ((≡ₚ) ==> (=)) (acc_count w k).
Proof. intros l1 l2 Hl. unfold acc_count. by rewrite Hl. Qed.

Lemma conflict_sym l1 l2 : conflict l1 l2 -> conflict l2 l1.
Proof. intros (k & Hk). exists k. naive_solver. Qed.

Lemma conflict_perm l1 l1' l2 l2' : l1 ≡ₚ l1' -> l2 ≡ₚ l2' -> conflict l1 l2 -> conflict l1' l2'.
Proof.
  intros H1 H2. unfold conflict, writes, touches. setoid_rewrite H1. setoid_rewrite H2. done.
Qed.

(** A conflict is found by a scan over the accesses of one side. *)
Lemma conflict_Exists l1 l2 :
  conflict l1 l2 <-> Exists (fun a => writes l2 a.1 \/ (a.2 = true /\ touches l2 a.1)) l1.
Proof.
  rewrite Exists_exists. unfold conflict. split.
  - intros (k & [[Hw Ht]|[[w Ht] Hw]]); [exists (k, true)|exists (k, w)]; simpl; auto.
  - intros ([k []] & Hin & [Hw|[? Ht]]); simplify_eq/=; exists k; unfold touches; eauto.
Qed.

#[global] Instance conflict_dec l1 l2 : Decision (conflict l1 l2).
Proof.
  refine (cast_if (decide (Exists (fun a => writes l2 a.1 \/ (a.2 = true /\ touches l2 a.1)) l1)));
    by rewrite conflict_Exists.
Defined.

Lemma conflict_nil_r l : ~ conflict l [].
Proof. intros (k & [[_ [? []%elem_of_nil]]|[_ []%elem_of_nil]]). Qed.

Lemma conflict_app_r l l1 l2 : conflict l (l1 ++ l2) <-> conflict l l1 \/ conflict l l2.
Proof. unfold conflict, writes, touches. setoid_rewrite elem_of_app. naive_solver. Qed.

Lemma touches_app l1 l2 k : touches (l1 ++ l2) k <-> touches l1 k \/ touches l2 k.
Proof. unfold touches. setoid_rewrite elem_of_app. naive_solver. Qed.

(** ** Validation *)

Lemma has_duplicates_scan_spec keys : has_duplicates_scan keys = false <-> NoDup keys.
Proof.
  induction keys as [|k keys IH]; simpl; [naive_solver constructor|].
  rewrite orb_false_iff, IH, NoDup_cons. f_equiv.
  rewrite <- not_true_iff_false, existsb_exists. setoid_rewrite bool_decide_eq_true.
  setoid_rewrite <- list_elem_of_In. naive_solver.
Qed.

Lemma has_duplicates_set_spec seen keys :
  has_duplicates_set seen keys = false <-> NoDup keys /\ Forall (fun k => k ∉ seen) keys.
Proof.
  revert seen. induction keys as [|k keys IH]; intros seen; simpl;
    [naive_solver constructor|].
  rewrite NoDup_cons, Forall_cons. case_decide; [naive_solver|].
  rewrite IH, !Forall_forall. set_solver.
Qed.

(** The size test only picks the cheaper scan: both decide [NoDup]. *)
Lemma has_duplicates_spec keys : has_duplicates keys = false <-> NoDup keys.
Proof.
  unfold has_duplicates. destruct (_ <=? _)%nat.
  - rewrite has_duplicates_set_spec, Forall_forall. set_solver.
  - apply has_duplicates_scan_spec.
Qed.

Lemma validate_account_locks_ok keys limit :
  validate_account_locks keys limit = Ok tt <-> (length keys <= limit)%nat /\ NoDup keys.
Proof.
  unfold validate_account_locks. rewrite <- has_duplicates_spec.
  destruct (Nat.ltb_spec limit (length keys)), (has_duplicates keys); naive_solver lia.
Qed.

Lemma length_accounts_with_is_writable {Tx} `{SVMMessage Key Tx} (tx : Tx) :
  length (accounts_with_is_writable tx) = length (account_keys tx).
Proof. apply length_imap. Qed.

(** Validated transactions never list an account twice, whatever the flags. *)
Lemma accesses_NoDup_keys {Tx} `{SVMMessage Key Tx} (tx : Tx) :
  NoDup (account_keys tx) -> NoDup (accounts_with_is_writable tx).*1.
Proof.
  unfold accounts_with_is_writable. generalize (is_writable tx).
  induction (account_keys tx) as [|k ks IH]; intros f; simpl; [done|].
  rewrite !NoDup_cons. intros [Hk Hnd]. split; [|by apply (IH (fun i => f (S i)))].
  intros ([? w] & -> & (i & Hi)%list_elem_of_lookup)%list_elem_of_fmap.
  rewrite list_lookup_imap in Hi. apply fmap_Some in Hi as (k' & Hk' & ?). simplify_eq/=.
  by apply list_elem_of_lookup_2 in Hk'.
Qed.

End Accesses.

(** ** Accesses of several transactions *)
Section Transactions.
Context {Key : Type} `{Countable Key} {Tx : Type} `{SVMMessage Key Tx}.

Definition accesses (txs : list Tx) : list (Key * bool) :=
  concat (map accounts_with_is_writable txs).

Definition conflicting (t1 t2 : Tx) : Prop :=
  conflict (accounts_with_is_writable t1) (accounts_with_is_writable t2).

Lemma accesses_app l1 l2 : accesses (l1 ++ l2) = accesses l1 ++ accesses l2.
Proof. unfold accesses. by rewrite map_app, concat_app. Qed.

#[global] Instance accesses_perm : Proper ((≡ₚ) ==> (≡ₚ)) accesses.
Proof. intros l1 l2 Hl. unfold accesses. rewrite <- !flat_map_concat_map. by rewrite Hl. Qed.

Lemma conflict_accesses l txs :
  conflict l (accesses txs) <-> exists tx, tx ∈ txs /\ conflict l (accounts_with_is_writable tx).
Proof.
  induction txs as [|tx txs IH].
  - split; [by intros ?%conflict_nil_r|by intros (? & ?%not_elem_of_nil & _)].
  - change (accesses (tx :: txs)) with (accounts_with_is_writable tx ++ accesses txs).
    rewrite conflict_app_r, IH. setoid_rewrite elem_of_cons. naive_solver.
Qed.

#[global] Instance conflicting_sym : Symmetric (fun t1 t2 => ~ conflicting t1 t2).
Proof. intros t1 t2 Hn Hc. apply Hn. by apply conflict_sym. Qed.

Lemma accesses_cons tx txs : accesses (tx :: txs) = accounts_with_is_writable tx ++ accesses txs.
Proof. done. Qed.

End Transactions.

(** A concrete message, for examples: its accesses themselves. *)
Module SampleMessage.
#[export] Instance sample_message : SVMMessage nat (list (nat * bool)) := {
  account_keys tx := tx.*1;
  is_writable tx i := default false (snd <$> tx !! i)
}.
End SampleMessage.
