(* ===== verification/DevinScheduler.v ===== *)
(** * The block stage's transaction scheduler

    [core/src/block_stage/devin_scheduler.rs]: hands out contiguous ranges of a
    block's transactions to worker threads so that conflicting transactions run
    in block order. The definitions follow the code operation by operation (a
    panic of the source is [None]); [Session] is the protocol of its only client,
    the main loop of [BlockConsumer::execute_and_commit_parallel]: ranges are
    popped, run, and finished in any order. *)

From S2P Require Import Prelude Accounts.

Module Devin.

Section Devin.
Context {Key : Type} `{Countable Key} {Tx : Type} `{SVMMessage Key Tx}.
(** [CostModel::calculate_cost(tx, &bank.feature_set).sum()]. *)
Context (calculate_cost : Tx -> Z).

Record DevinScheduler : Type := Scheduler {
  running_locks : gmap Key Z;
  skipped_locks : gmap Key Z;
  indices : list nat;
  next : nat;
  completed : nat;
  finished : bool
}.

Definition MAX_COST : Z := 1400000.
Definition MAX_RANGE : nat := 64.

Definition new : DevinScheduler := Scheduler ∅ ∅ [] 0 0 false.

Definition lock_blocks (locks : gmap Key Z) (a : Key * bool) : bool :=
  match locks !! a.1 with
  | Some lock => (lock =? U32_MAX) || (negb (lock =? 0) && a.2)
  | None => false
  end.

Definition is_blocked (tx : Tx) (locks : gmap Key Z) : bool :=
  existsb (lock_blocks locks) (accounts_with_is_writable tx).

Definition lock_account (locks : gmap Key Z) (a : Key * bool) : gmap Key Z :=
  let '(account, write) := a in
  match locks !! account with
  | Some v => <[account := if write : bool then U32_MAX else sat_add 32 v 1]> locks
  | None => <[account := if write : bool then U32_MAX else 1]> locks
  end.

Definition lock_accounts (tx : Tx) (locks : gmap Key Z) : gmap Key Z :=
  foldl lock_account locks (accounts_with_is_writable tx).

Definition unlock_account (locks : gmap Key Z) (a : Key * bool) : gmap Key Z :=
  let '(account, write) := a in
  match locks !! account with
  | Some v => <[account := if write : bool then 0 else sat_sub v 1]> locks
  | None => locks
  end.

Definition unlock_accounts (tx : Tx) (locks : gmap Key Z) : gmap Key Z :=
  foldl unlock_account locks (accounts_with_is_writable tx).

Definition init (transactions : list Tx) (self : DevinScheduler) : DevinScheduler :=
  Scheduler ∅ ∅ (seq 0 (length transactions)) 0 0 false.

(** A [Range<usize>]: start and (exclusive) end. *)
Definition range_indices (r : nat * nat) : list nat := seq r.1 (r.2 - r.1).

(** The scan of [pop] over the candidates; [value] and [cost] are its locals. *)
Fixpoint pop_loop (transactions : list Tx) (candidates : list nat) (self : DevinScheduler)
    (value : option (nat * nat)) (cost : Z) : option (DevinScheduler * option (nat * nat)) :=
  match candidates with
  | [] => Some (self, value)
  | i :: rest =>
      let '(Scheduler running skipped idx nxt comp fin) := self in
      if match value with Some (_, stop) => negb (i =? stop)%nat | None => false end
      then Some (self, value)
      else
        match transactions !! i with
        | None => None
        | Some tx =>
            if is_blocked tx running || is_blocked tx skipped
            then Some (Scheduler running (lock_accounts tx skipped) idx (nxt + 1) comp fin, value)
            else
              let self' := Scheduler (lock_accounts tx running) skipped idx nxt comp fin in
              let value' := match value with
                            | Some (start, stop) => Some (start, (stop + 1)%nat)
                            | None => Some (i, (i + 1)%nat)
                            end in
              let cost' := wadd 64 cost (calculate_cost tx) in
              if MAX_COST <? cost' then Some (self', value')
              else pop_loop transactions rest self' value' cost'
        end
  end.

(** [indices.iter().position(v == start).unwrap()], then [indices.drain(..)]. *)
Definition drain_range (idx : list nat) (r : nat * nat) : option (list nat) :=
  match list_find (fun v => v = r.1) idx with
  | None => None
  | Some (start, _) =>
      let len := (r.2 - r.1)%nat in
      if (start + len <=? length idx)%nat then Some (take start idx ++ drop (start + len) idx)
      else None
  end.

Definition pop (transactions : list Tx) (self : DevinScheduler) :
    option (DevinScheduler * option (nat * nat)) :=
  match pop_loop transactions (take MAX_RANGE (drop (next self) (indices self))) self None 0 with
  | None => None
  | Some (self', None) => Some (self', None)
  | Some (Scheduler running skipped idx nxt comp fin, Some r) =>
      match drain_range idx r with
      | None => None
      | Some idx' => Some (Scheduler running skipped idx' nxt comp fin, Some r)
      end
  end.

Fixpoint unlock_range (transactions : list Tx) (idx : list nat) (locks : gmap Key Z) :
    option (gmap Key Z) :=
  match idx with
  | [] => Some locks
  | i :: rest =>
      match transactions !! i with
      | None => None
      | Some tx => unlock_range transactions rest (unlock_accounts tx locks)
      end
  end.

Definition finish (r : nat * nat) (transactions : list Tx) (self : DevinScheduler) :
    option DevinScheduler :=
  let completed' := (completed self + (r.2 - r.1))%nat in
  match unlock_range transactions (range_indices r) (running_locks self) with
  | None => None
  | Some locks =>
      Some (Scheduler locks ∅ (indices self) 0 completed'
              (completed' =? length transactions)%nat)
  end.

(** ** The client protocol *)

(** The scheduler, the ranges that workers hold, and the indices of the
    transactions that have finished, oldest first. *)
Record session : Type := Session {
  sched : DevinScheduler;
  running : list (nat * nat);
  done_txs : list nat
}.

Definition initial (transactions : list Tx) (s : session) : Prop :=
  exists old, s = Session (init transactions old) [] [].

Inductive step (transactions : list Tx) : session -> session -> Prop :=
| step_pop_some d d' r rs dn :
    pop transactions d = Some (d', Some r) ->
    step transactions (Session d rs dn) (Session d' (r :: rs) dn)
| step_pop_none d d' rs dn :
    pop transactions d = Some (d', None) ->
    step transactions (Session d rs dn) (Session d' rs dn)
| step_finish d d' r rs1 rs2 dn :
    finish r transactions d = Some d' ->
    step transactions (Session d (rs1 ++ r :: rs2) dn)
                      (Session d' (rs1 ++ rs2) (dn ++ range_indices r)).

Definition running_txs (s : session) : list nat := concat (map range_indices (running s)).

(** The accesses of the transactions at the given indices. *)
Definition accesses_at (transactions : list Tx) (idx : list nat) : list (Key * bool) :=
  concat (map (fun i => from_option accounts_with_is_writable [] (transactions !! i)) idx).

(** Transactions [i] and [j] of the block conflict. *)
Definition conflicting (transactions : list Tx) (i j : nat) : Prop :=
  exists ti tj, transactions !! i = Some ti /\ transactions !! j = Some tj /\
    conflict (accounts_with_is_writable ti) (accounts_with_is_writable tj).

(** The lock words are 32 bits wide and the all-ones word means a write lock:
    a block must not have that many account references. *)
Definition block_bound (transactions : list Tx) : Prop :=
  Z.of_nat (length (accesses_at transactions (seq 0 (length transactions)))) < U32_MAX.

(** ** What a lock table stands for *)

(** The value of a lock; an absent entry and a zero entry are the same lock. *)
Definition lock_value (locks : gmap Key Z) (k : Key) : Z := default 0 (locks !! k).

(** The table represents an access list: all-ones on written accounts, the
    number of reads elsewhere. *)
Definition represents (locks : gmap Key Z) (l : list (Key * bool)) : Prop :=
  forall k, (writes l k -> lock_value locks k = U32_MAX) /\
            (~ writes l k -> lock_value locks k = acc_count false k l).

Definition fits (l : list (Key * bool)) : Prop := Z.of_nat (length l) < U32_MAX.

#[global] Instance represents_perm locks : Proper ((≡ₚ) ==> iff) (represents locks).
Proof.
  intros l1 l2 Hl. unfold represents, writes. apply forall_proper. intros k.
  by rewrite (acc_count_perm false k l1 l2 Hl), Hl.
Qed.

Lemma represents_empty : represents ∅ [].
Proof.
  intros k. unfold lock_value. rewrite lookup_empty. split; [by intros ?%not_elem_of_nil|done].
Qed.

Lemma lock_account_value locks a k :
  lock_value (lock_account locks a) k =
    if decide (k = a.1) then
      if a.2 then U32_MAX else
        match locks !! k with Some v => sat_add 32 v 1 | None => 1 end
    else lock_value locks k.
Proof.
  destruct a as [k' w]. unfold lock_account, lock_value. simpl.
  case_decide as Hk; [subst k'|]; destruct (locks !! _) eqn:E; simpl;
    rewrite ?lookup_insert_eq, ?lookup_insert_ne by done; done.
Qed.

Lemma writes_cons (a : Key * bool) l k : writes (a :: l) k <-> a = (k, true) \/ writes l k.
Proof. unfold writes. rewrite elem_of_cons. naive_solver. Qed.

Lemma writes_app (l1 l2 : list (Key * bool)) k : writes (l1 ++ l2) k <-> writes l1 k \/ writes l2 k.
Proof. unfold writes. by rewrite elem_of_app. Qed.

Lemma lock_account_represents locks l a :
  represents locks l -> fits (a :: l) -> represents (lock_account locks a) (a :: l).
Proof.
  intros Hr Hf k. rewrite lock_account_value, writes_cons, acc_count_cons.
  destruct (Hr k) as [Hw Hn]. pose proof (acc_count_le false k l) as Hle.
  pose proof (acc_count_nonneg false k l). unfold fits, lock_value, sat_add in *. simpl in Hf.
  destruct a as [k' w]. simpl. case_decide as Hk; [subst k'; destruct w|].
  - rewrite decide_False by done. naive_solver.
  - rewrite decide_True by done. split.
    + intros [?|Hk]; [done|]. specialize (Hw Hk). destruct (locks !! k); simpl in *; unfold word_max in *; lia.
    + intros Hk. rewrite <- Hn in * by tauto. destruct (locks !! k); simpl in *; lia.
  - rewrite decide_False by congruence. split; [|naive_solver]. intros [?|?]; [congruence|auto].
Qed.

Lemma lock_accounts_represents tx locks l :
  represents locks l -> fits (accounts_with_is_writable tx ++ l) ->
  represents (lock_accounts tx locks) (accounts_with_is_writable tx ++ l).
Proof.
  unfold lock_accounts, fits. generalize (accounts_with_is_writable tx) as acc. intros acc.
  revert locks l. induction acc as [|a acc IH]; intros locks l Hr Hf; simpl; [done|].
  rewrite Permutation_middle. simpl in Hf. rewrite length_app in Hf. apply IH.
  - apply lock_account_represents; [done|]. unfold fits. simpl. lia.
  - rewrite length_app. simpl. lia.
Qed.

Lemma unlock_account_value locks a k :
  0 <= lock_value locks k ->
  lock_value (unlock_account locks a) k =
    if decide (k = a.1) then (if a.2 then 0 else Z.max 0 (lock_value locks k - 1))
    else lock_value locks k.
Proof.
  destruct a as [k' w]. unfold unlock_account, lock_value, sat_sub. simpl. intros Hpos.
  case_decide as Hk.
  - subst k'. destruct (locks !! k) eqn:E; simpl in *.
    + rewrite lookup_insert_eq. by destruct w.
    + rewrite E. by destruct w.
  - destruct (locks !! k'); [|done]. by rewrite lookup_insert_ne.
Qed.

Lemma unlock_value locks l k :
  (forall k', 0 <= lock_value locks k') ->
  (writes l k -> lock_value (foldl unlock_account locks l) k = 0) /\
  (~ writes l k -> lock_value (foldl unlock_account locks l) k =
                   Z.max 0 (lock_value locks k - acc_count false k l)).
Proof.
  revert locks. induction l as [|[k' w] l IH]; intros locks Hpos; cbn [foldl].
  { specialize (Hpos k). rewrite acc_count_nil. split; [by intros ?%not_elem_of_nil|lia]. }
  pose proof (fun k0 => unlock_account_value locks (k', w) k0 (Hpos k0)) as Hu. simpl in Hu.
  destruct (IH (unlock_account locks (k', w))) as [IHw IHn].
  { intros k0. rewrite Hu. specialize (Hpos k0). case_decide; destruct w; lia. }
  rewrite Hu in IHn. rewrite writes_cons, acc_count_cons. specialize (Hpos k).
  pose proof (acc_count_nonneg false k l).
  destruct (decide (k = k')) as [<-|].
  - rewrite <- (decide_ext (w = false) ((k, w) = (k, false))) by naive_solver. split.
    + destruct (decide (writes l k)) as [?|Hl]; [auto|]. intros [?|?]; [|done]. simplify_eq.
      rewrite (IHn Hl). lia.
    + intros Hk. rewrite IHn by tauto. destruct w; [tauto|]. rewrite decide_True by done. lia.
  - rewrite decide_False by congruence. split; [|naive_solver]. intros [?|?]; [congruence|auto].
Qed.

Lemma represents_nonneg locks l k : represents locks l -> 0 <= lock_value locks k.
Proof.
  intros Hr. destruct (Hr k) as [Hw Hn]. pose proof (acc_count_nonneg false k l).
  destruct (decide (writes l k)); [rewrite Hw by done|rewrite Hn by done]; unfold word_max; lia.
Qed.

(** Unlocking a transaction that conflicts with nothing still locked leaves
    exactly the locks of the others. *)
Lemma unlock_accounts_represents tx locks l :
  represents locks (accounts_with_is_writable tx ++ l) ->
  ~ conflict (accounts_with_is_writable tx) l ->
  represents (unlock_accounts tx locks) l.
Proof.
  unfold unlock_accounts. generalize (accounts_with_is_writable tx) as acc. intros acc Hr Hc k.
  destruct (unlock_value locks acc k) as [Hu0 Hu1]; [eauto using represents_nonneg|].
  destruct (Hr k) as [Hw Hn]. rewrite writes_app, acc_count_app in *.
  pose proof (acc_count_nonneg false k l). destruct (decide (writes acc k)) as [Ha|Ha].
  - assert (~ touches l k) as Ht by (intros Ht; apply Hc; exists k; by left).
    rewrite Hu0 by done. split; intros Hl.
    + destruct Ht. by exists true.
    + symmetry. apply acc_count_zero. intros ?. apply Ht. by exists false.
  - rewrite Hu1 by done. split; intros Hl.
    + rewrite Hw by tauto. assert (acc_count false k acc = 0) as ->; [|unfold word_max; lia].
      apply acc_count_zero. intros ?. apply Hc. exists k. right. split; [by eexists|done].
    + rewrite Hn by tauto. lia.
Qed.

Lemma lock_blocks_spec locks l k w :
  represents locks l -> fits l ->
  lock_blocks locks (k, w) = true <-> writes l k \/ (w = true /\ touches l k).
Proof.
  intros Hr Hf. assert (lock_blocks locks (k, w) =
    (lock_value locks k =? U32_MAX) || (negb (lock_value locks k =? 0) && w)) as ->.
  { unfold lock_blocks, lock_value. simpl. by destruct (locks !! k). }
  destruct (Hr k) as [Hw Hn]. pose proof (acc_count_le false k l). unfold fits in Hf.
  rewrite orb_true_iff, andb_true_iff, Z.eqb_eq, negb_true_iff, Z.eqb_neq.
  destruct (decide (writes l k)) as [Hl|Hl]; [naive_solver|]. rewrite Hn by done.
  assert (acc_count false k l <> 0 <-> touches l k) as Ht; [|naive_solver lia].
  rewrite acc_count_zero. split.
  - intros ?%dec_stable. by exists false.
  - intros [[] Hin]; [done|tauto].
Qed.

(** A transaction is blocked exactly when it conflicts with a locked access. *)
Lemma is_blocked_spec tx locks l :
  represents locks l -> fits l ->
  is_blocked tx locks = true <-> conflict (accounts_with_is_writable tx) l.
Proof.
  intros Hr Hf. unfold is_blocked. generalize (accounts_with_is_writable tx) as acc. intros acc.
  rewrite existsb_exists. setoid_rewrite <- list_elem_of_In. split.
  - intros ([k w] & Hin & [Hw|[-> Ht]]%(lock_blocks_spec _ l)); try done; exists k.
    + right. split; [by eexists|done].
    + by left.
  - intros (k & [[Hw Ht]|[[w Ht] Hw]]); eexists (k, _); rewrite (lock_blocks_spec _ l); eauto.
Qed.

(** ** Accesses of sets of transactions *)

Section Block.
Context (txs : list Tx) (Hbound : block_bound txs).
Let acc := accesses_at txs.

Lemma accesses_at_app l1 l2 : acc (l1 ++ l2) = acc l1 ++ acc l2.
Proof. unfold acc, accesses_at. by rewrite map_app, concat_app. Qed.

Lemma accesses_at_cons i tx l :
  txs !! i = Some tx -> acc (i :: l) = accounts_with_is_writable tx ++ acc l.
Proof. intros Hi. unfold acc, accesses_at. simpl. by rewrite Hi. Qed.

#[global] Instance accesses_at_perm : Proper ((≡ₚ) ==> (≡ₚ)) (accesses_at txs).
Proof.
  intros l1 l2 Hl. unfold accesses_at. rewrite <- !flat_map_concat_map. by rewrite Hl.
Qed.

(** Disjoint sets of the block's transactions fit in the lock words. *)
Lemma accesses_fit l l' : l ++ l' ≡ₚ seq 0 (length txs) -> fits (acc l).
Proof.
  intros Hp. unfold fits, block_bound in *. rewrite <- Hp in Hbound.
  fold acc in Hbound. rewrite accesses_at_app, length_app in Hbound. lia.
Qed.

Lemma conflict_accesses_at tx idx :
  conflict (accounts_with_is_writable tx) (acc idx) <->
  exists j tj, j ∈ idx /\ txs !! j = Some tj /\
    conflict (accounts_with_is_writable tx) (accounts_with_is_writable tj).
Proof.
  assert (forall a, a ∈ acc idx <->
    exists j tj, j ∈ idx /\ txs !! j = Some tj /\ a ∈ accounts_with_is_writable tj) as Hin.
  { intros a. unfold acc, accesses_at. rewrite list_elem_of_In, in_concat.
    setoid_rewrite in_map_iff. setoid_rewrite <- list_elem_of_In. split.
    - intros (l & (j & <- & Hj) & Ha). destruct (txs !! j) as [tj|] eqn:E; [eauto|].
      by apply not_elem_of_nil in Ha.
    - intros (j & tj & Hj & E & Ha). eexists. split; [|exact Ha]. exists j. by rewrite E. }
  unfold conflict, writes, touches. setoid_rewrite Hin. naive_solver.
Qed.

Lemma conflicting_sym i j : conflicting txs i j -> conflicting txs j i.
Proof. intros (ti & tj & Hi & Hj & Hc). exists tj, ti. auto using conflict_sym. Qed.

Lemma no_conflict_accesses i tx idx :
  txs !! i = Some tx ->
  (forall j, j ∈ idx -> ~ conflicting txs i j) <->
  ~ conflict (accounts_with_is_writable tx) (acc idx).
Proof.
  intros Hi. rewrite conflict_accesses_at. unfold conflicting. naive_solver.
Qed.

(** ** The scan of [pop] *)

Definition value_indices (value : option (nat * nat)) : list nat :=
  from_option range_indices [] value.

Definition value_ok (value : option (nat * nat)) : Prop :=
  match value with Some (a, e) => (a < e)%nat | None => True end.

Lemma value_indices_extend value i :
  value_ok value ->
  (match value with Some (_, e) => negb (i =? e)%nat | None => false end) = false ->
  let value' := match value with
                | Some (a, e) => Some (a, (e + 1)%nat)
                | None => Some (i, (i + 1)%nat) end in
  value_indices value' = value_indices value ++ [i] /\ value_ok value'.
Proof.
  intros Hok Hi. destruct value as [[a e]|]; simpl in *.
  - apply negb_false_iff, Nat.eqb_eq in Hi as ->. split; [|lia].
    unfold range_indices. simpl. replace (e + 1 - a)%nat with (S (e - a)) by lia.
    rewrite seq_S. do 2 f_equal. lia.
  - split; [|lia]. unfold range_indices. simpl. by replace (i + 1 - i)%nat with 1%nat by lia.
Qed.

(** What the scan establishes: [taken] is the part of the candidates that was
    added to the range; at most one further candidate was skipped over. *)
Record scanned (cands R SK : list nat) (self : DevinScheduler) (value : option (nat * nat))
    (self' : DevinScheduler) (value' : option (nat * nat)) (taken rest : list nat) : Prop := {
  sc_split : cands = taken ++ rest;
  sc_value : value_indices value' = value_indices value ++ taken;
  sc_ok : value_ok value';
  sc_running : represents (running_locks self') (acc (value_indices value' ++ R));
  sc_same : indices self' = indices self /\ completed self' = completed self /\
            finished self' = finished self;
  sc_skip : (next self' = next self /\ skipped_locks self' = skipped_locks self) \/
            (exists b rest', rest = b :: rest' /\ next self' = (next self + 1)%nat /\
               represents (skipped_locks self') (acc (SK ++ [b])));
  sc_order : forall l1 i l2, taken = l1 ++ i :: l2 ->
    forall j, j ∈ SK ++ value_indices value ++ l1 ++ R -> ~ conflicting txs i j;
  sc_progress : cands <> [] -> R = [] -> SK = [] -> value = None -> taken <> []
}.

Lemma pop_loop_spec cands : forall self value cost R SK,
  Forall (fun i => (i < length txs)%nat) cands ->
  value_ok value ->
  represents (running_locks self) (acc (value_indices value ++ R)) ->
  represents (skipped_locks self) (acc SK) ->
  fits (acc (cands ++ value_indices value ++ R)) -> fits (acc (cands ++ SK)) ->
  exists self' value' taken rest,
    pop_loop txs cands self value cost = Some (self', value') /\
    scanned cands R SK self value self' value' taken rest.
Proof.
  induction cands as [|i cands IH]; intros self value cost R SK Hlt Hok Hrun Hskip Hfr Hfs.
  { exists self, value, [], []. split; [done|].
    split; rewrite ?app_nil_r; auto; try done. by intros []. }
  destruct self as [run skip idx nxt comp fin]. simpl in Hrun, Hskip. cbn [pop_loop].
  apply Forall_cons in Hlt as [Hi Hlt].
  destruct (match value with Some (_, e) => negb (i =? e)%nat | None => false end) eqn:Hcont.
  { exists (Scheduler run skip idx nxt comp fin), value, [], (i :: cands). split; [done|].
    split; rewrite ?app_nil_r; auto; try done; [by intros []|]. by destruct value. }
  destruct (lookup_lt_is_Some_2 txs i Hi) as [tx Htx]. rewrite Htx.
  assert (fits (acc (value_indices value ++ R)) /\ fits (acc SK)) as [Hf1 Hf2].
  { unfold fits in *. rewrite !accesses_at_app, !length_app in *. lia. }
  pose proof (is_blocked_spec tx run _ Hrun Hf1) as Hb1.
  pose proof (is_blocked_spec tx skip _ Hskip Hf2) as Hb2.
  destruct (is_blocked tx run || is_blocked tx skip) eqn:Hblk.
  { eexists _, value, [], (i :: cands). split; [reflexivity|].
    split; rewrite ?app_nil_r; auto; try done; [|by intros []|].
    - right. exists i, cands. split; [done|]. split; [done|]. simpl.
      rewrite <- (Permutation_cons_append SK i), (accesses_at_cons i tx) by done.
      apply lock_accounts_represents; [done|]. rewrite <- (accesses_at_cons i tx) by done.
      unfold fits in *. change (i :: cands) with ([i] ++ cands) in Hfs.
      change (i :: SK) with ([i] ++ SK). rewrite !accesses_at_app, !length_app in *. lia.
    - intros _ -> -> ->. exfalso. apply orb_true_iff in Hblk as [Hx|Hx];
        [apply Hb1 in Hx|apply Hb2 in Hx]; destruct Hx as (k & [[_ [? Hx]]|[_ Hx]]);
        by apply not_elem_of_nil in Hx. }
  apply orb_false_iff in Hblk as [Hn1 Hn2].
  rewrite <- not_true_iff_false, Hb1, <- (no_conflict_accesses i) in Hn1 by done.
  rewrite <- not_true_iff_false, Hb2, <- (no_conflict_accesses i) in Hn2 by done.
  destruct (value_indices_extend value i Hok Hcont) as [Hext Hok'].
  set (value' := match value with Some (a, e) => Some (a, (e + 1)%nat) | None => Some (i, (i + 1)%nat) end) in *.
  set (self' := Scheduler (lock_accounts tx run) skip idx nxt comp fin).
  assert (value_indices value' ++ R ≡ₚ i :: value_indices value ++ R) as Hperm.
  { rewrite Hext, <- app_assoc. simpl. by rewrite Permutation_middle. }
  assert (represents (running_locks self') (acc (value_indices value' ++ R))) as Hrun'.
  { rewrite Hperm, (accesses_at_cons i tx) by done. apply lock_accounts_represents; [done|].
    rewrite <- (accesses_at_cons i tx) by done. unfold fits in *.
    change (i :: cands) with ([i] ++ cands) in Hfr.
    change (i :: ?l) with ([i] ++ l). rewrite !accesses_at_app, !length_app in *. lia. }
  assert (forall j, j ∈ SK ++ value_indices value ++ R -> ~ conflicting txs i j) as Hfree.
  { intros j. rewrite elem_of_app. naive_solver. }
  destruct (MAX_COST <? wadd 64 cost (calculate_cost tx)).
  { exists self', value', [i], cands. split; [done|]. split; auto.
    intros l1 i' l2 Heq j. destruct l1 as [|? [|]]; simplify_eq/=. by apply Hfree. }
  destruct (IH self' value' (wadd 64 cost (calculate_cost tx)) R SK) as (s & v & taken & rest & Hloop & []);
    auto.
  { unfold fits in *. rewrite Hperm. change (i :: ?l) with ([i] ++ l) in *.
    rewrite !accesses_at_app, !length_app in *. lia. }
  { unfold fits in *. change (i :: cands) with ([i] ++ cands) in Hfs.
    rewrite !accesses_at_app, !length_app in *. lia. }
  exists s, v, (i :: taken), rest. split; [done|]. split; auto.
  - by rewrite sc_split0.
  - rewrite sc_value0, Hext, <- app_assoc. done.
  - intros l1 i' l2 Heq j Hj. destruct l1 as [|? l1]; simplify_eq/=; [by apply Hfree|].
    eapply sc_order0; [done|]. rewrite Hext. revert Hj. rewrite !elem_of_app, elem_of_cons. set_solver.
Qed.

(** ** The session invariant *)

Record session_inv (s : session) : Prop := {
  si_partition : indices (sched s) ++ running_txs s ++ done_txs s ≡ₚ seq 0 (length txs);
  si_sorted : StronglySorted Nat.lt (indices (sched s));
  si_next : (next (sched s) <= length (indices (sched s)))%nat;
  si_running : represents (running_locks (sched s)) (acc (running_txs s));
  si_skipped : represents (skipped_locks (sched s))
                 (acc (take (next (sched s)) (indices (sched s))));
  si_completed : completed (sched s) = length (done_txs s);
  si_finished : finished (sched s) = true <-> length (done_txs s) = length txs /\ done_txs s <> [];
  si_idle : running s = [] -> next (sched s) = 0%nat;
  si_ranges : Forall (fun r => (r.1 < r.2)%nat) (running s);
  si_order : forall i j, i ∈ running_txs s -> (j < i)%nat -> conflicting txs i j -> j ∈ done_txs s
}.

Lemma drain_range_spec pre taken post r :
  NoDup (pre ++ taken ++ post) -> (r.1 < r.2)%nat -> range_indices r = taken ->
  drain_range (pre ++ taken ++ post) r = Some (pre ++ post).
Proof.
  intros Hnd Hr Htaken. unfold drain_range.
  assert (length taken = r.2 - r.1)%nat as Hlen by (subst taken; apply length_seq).
  assert (exists taken', taken = r.1 :: taken') as [taken' Ht].
  { subst taken. unfold range_indices. destruct (r.2 - r.1)%nat eqn:E; [lia|]. by eexists. }
  assert (list_find (fun v => v = r.1) (pre ++ taken ++ post) = Some (length pre, r.1)) as ->.
  { apply list_find_Some. rewrite Ht. split_and!; [by apply list_lookup_middle|done|].
    intros j y Hy Hlt ->. rewrite Ht in Hnd. apply NoDup_app in Hnd as (_ & Hnd & _).
    apply (Hnd r.1); [|by left]. rewrite lookup_app_l in Hy by done. by eapply list_elem_of_lookup_2. }
  rewrite <- Hlen. rewrite !length_app. destruct (Nat.leb_spec (length pre + length taken)
    (length pre + (length taken + length post))); [|lia].
  rewrite take_app_length, app_assoc, <- length_app. by rewrite drop_app_length.
Qed.

Lemma conflicting_in_block i j : conflicting txs i j -> (j < length txs)%nat.
Proof. intros (ti & tj & _ & Hj & _). by eapply lookup_lt_Some. Qed.

(** The part of the invariant that popping a range must re-establish. *)
Lemma popped_order s taken post j i l1 l2 :
  session_inv s ->
  drop (next (sched s)) (indices (sched s)) = taken ++ post ->
  taken = l1 ++ i :: l2 ->
  (forall j, j ∈ take (next (sched s)) (indices (sched s)) ++ l1 ++ running_txs s -> ~ conflicting txs i j) ->
  (j < i)%nat -> conflicting txs i j -> j ∈ done_txs s.
Proof.
  intros Hinv Hdrop Htaken Hfree Hlt Hc.
  assert (j ∈ seq 0 (length txs)) as Hj.
  { apply elem_of_seq. apply conflicting_in_block in Hc. lia. }
  rewrite <- (si_partition s Hinv), !elem_of_app in Hj.
  destruct Hj as [Hj|[Hj|Hj]]; [exfalso|exfalso|done].
  - pose proof (si_sorted s Hinv) as Hs.
    rewrite <- (take_drop (next (sched s)) (indices (sched s))), Hdrop, Htaken in Hj, Hs.
    rewrite <- app_assoc in Hj, Hs. simpl in Hj, Hs. rewrite !elem_of_app, elem_of_cons in Hj.
    destruct Hj as [Hj|[Hj|[->|Hj]]]; [| |lia|].
    + apply (Hfree j); [|done]. rewrite elem_of_app. by left.
    + apply (Hfree j); [|done]. rewrite !elem_of_app. auto.
    + rewrite app_assoc in Hs. eapply StronglySorted_after in Hs; [|exact Hj].
      unfold Nat.lt in Hs. lia.
  - apply (Hfree j); [|done]. rewrite !elem_of_app. auto.
Qed.

Lemma sorted_NoDup l : StronglySorted Nat.lt l -> NoDup l.
Proof.
  induction 1 as [|x l Hs IH Hx]; constructor; [|done]. intros Hin.
  rewrite Forall_forall in Hx. apply Hx in Hin. unfold Nat.lt in Hin. lia.
Qed.

Lemma session_bounds s i :
  session_inv s -> i ∈ indices (sched s) ++ running_txs s ++ done_txs s -> (i < length txs)%nat.
Proof. intros Hinv. rewrite (si_partition s Hinv), elem_of_seq. lia. Qed.

(** The skipped prefix after a scan is again the first [next] indices. *)
Lemma skip_represents d self SK rest tl :
  length SK = next d ->
  represents (skipped_locks d) (acc SK) ->
  (next self = next d /\ skipped_locks self = skipped_locks d) \/
  (exists b rest', rest = b :: rest' /\ next self = (next d + 1)%nat /\
     represents (skipped_locks self) (acc (SK ++ [b]))) ->
  (next self <= length (SK ++ rest ++ tl))%nat /\
  represents (skipped_locks self) (acc (take (next self) (SK ++ rest ++ tl))) /\
  (rest = [] -> next self = next d).
Proof.
  intros Hlen Hr [[-> ->]|(b & rest' & -> & -> & Hs)]; rewrite length_app, <- Hlen.
  - rewrite take_app_length. split_and!; [lia|done..].
  - replace (length SK + 1)%nat with (length (SK ++ [b])) by (by rewrite length_app).
    replace (SK ++ (b :: rest') ++ tl) with ((SK ++ [b]) ++ rest' ++ tl) by (by rewrite <- app_assoc).
    rewrite take_app_length. rewrite !length_app. simpl. split_and!; [lia|done..].
Qed.

Lemma devin_pop_spec d rs dn :
  session_inv (Session d rs dn) ->
  exists d' o, pop txs d = Some (d', o) /\
    session_inv (Session d' (from_option (fun r => r :: rs) rs o) dn) /\
    (rs = [] -> indices d <> [] -> o <> None) /\
    (forall r, o = Some r -> (r.1 < r.2)%nat /\ (r.2 - r.1 <= MAX_RANGE)%nat).
Proof.
  intros Hinv. pose proof Hinv as []. simpl in *.
  set (R := running_txs (Session d rs dn)) in *.
  set (SK := take (next d) (indices d)) in *. set (cands := take MAX_RANGE (drop (next d) (indices d))).
  set (tl := drop MAX_RANGE (drop (next d) (indices d))).
  assert (indices d = SK ++ cands ++ tl) as Hidx by (unfold SK, cands, tl; by rewrite !take_drop).
  destruct (pop_loop_spec cands d None 0 R SK) as (self & value & taken & rest & Hloop & Hsc); auto.
  { apply Forall_forall. intros i Hi. apply (session_bounds _ i Hinv). simpl.
    rewrite Hidx. set_solver. }
  { done. }
  { apply (accesses_fit _ (SK ++ tl ++ dn)). rewrite <- si_partition0, Hidx. simpl. solve_Permutation. }
  { apply (accesses_fit _ (tl ++ R ++ dn)). rewrite <- si_partition0, Hidx. solve_Permutation. }
  destruct Hsc as [Hcands Hval Hok Hrun (Hi & Hc & Hf) Hskip Hord Hprog]. simpl in Hval.
  assert (length SK = next d) as Hsk by (apply length_take_le; done).
  destruct (skip_represents d self SK rest tl Hsk si_skipped0 Hskip) as (Hn1 & Hn2 & Hn3).
  assert (drop (next d) (indices d) = taken ++ rest ++ tl) as Hdrop.
  { rewrite Hidx, <- Hsk, drop_app_length, Hcands. by rewrite <- app_assoc. }
  assert (forall i j, i ∈ taken -> (j < i)%nat -> conflicting txs i j -> j ∈ dn) as Horder.
  { intros i j (l1 & l2 & Ht)%list_elem_of_split Hlt Hcf.
    eapply (popped_order _ taken _ j i l1 l2 Hinv Hdrop); eauto. }
  unfold pop. fold cands. rewrite Hloop.
  destruct value as [r|].
  - simpl in Hval. destruct r as [a e] eqn:Hr. rewrite <- Hr in *. assert (r.1 < r.2)%nat as Hlt by (by subst r).
    destruct self as [run skip idx nxt comp fin]. simpl in *. rewrite Hi, Hidx, Hcands, <- app_assoc.
    rewrite (drain_range_spec SK taken (rest ++ tl) r); [|..|done|by rewrite Hval].
    2: { rewrite app_assoc, app_assoc, <- (app_assoc SK), <- Hcands, <- app_assoc, <- Hidx.
         by apply sorted_NoDup. }
    eexists _, (Some r). split; [reflexivity|]. split_and!; [|done|].
    + cbn [from_option].
      assert (running_txs (Session (Scheduler run skip (SK ++ rest ++ tl) nxt comp fin) (r :: rs) dn)
              = taken ++ R) as Hrt by (unfold running_txs, R; simpl; by rewrite Hval).
      split; rewrite ?Hrt; simpl; auto; try done.
      * rewrite <- si_partition0, Hidx, Hcands. solve_Permutation.
      * rewrite Hidx, Hcands, <- app_assoc in si_sorted0. by eapply StronglySorted_app_mid.
      * by rewrite <- Hval.
      * by rewrite Hc.
      * by rewrite Hf.
      * intros i j [?|?]%elem_of_app; eauto.
    + intros r' [= <-]. split; [done|].
      assert (length taken = r.2 - r.1)%nat as <- by (rewrite <- Hval; apply length_seq).
      assert (length cands <= MAX_RANGE)%nat by (unfold cands; rewrite length_take; lia).
      rewrite Hcands, length_app in *. lia.
  - simpl in Hval. subst taken. simpl in *. subst rest. eexists self, None.
    split; [by destruct self|]. split_and!; [|..|done].
    + assert (running_txs (Session self rs dn) = R) as Hrt by done.
      rewrite <- Hidx in Hn1, Hn2.
      split; rewrite ?Hrt; simpl; rewrite ?Hi, ?Hc, ?Hf; auto.
      intros Hrs. destruct (decide (cands = [])) as [Hc0|Hc0]; [rewrite Hn3 by done; auto|].
      destruct (Hprog Hc0); [by subst rs R| |done..]. unfold SK. by rewrite si_idle0.
    + intros Hrs Hne _. destruct Hprog; [|by subst rs R|by unfold SK; rewrite si_idle0|done..].
      intros Hc0. apply Hne. rewrite Hidx. unfold SK, tl. rewrite Hc0, si_idle0 by done. simpl.
      unfold cands in Hc0. rewrite si_idle0 in Hc0 by done. simpl in Hc0. by destruct (indices d).
Qed.

Lemma unlock_range_spec l : forall locks R,
  NoDup (l ++ R) -> Forall (fun i => (i < length txs)%nat) l ->
  represents locks (acc (l ++ R)) ->
  (forall i j, i ∈ l -> j ∈ l ++ R -> i <> j -> ~ conflicting txs i j) ->
  exists locks', unlock_range txs l locks = Some locks' /\ represents locks' (acc R).
Proof.
  induction l as [|i l IH]; intros locks R Hnd Hlt Hrep Hfree; simpl in *; [by eexists|].
  apply Forall_cons in Hlt as [Hi Hlt]. apply NoDup_cons in Hnd as [Hni Hnd].
  destruct (lookup_lt_is_Some_2 txs i Hi) as [tx Htx]. rewrite Htx.
  apply IH; [done..| |].
  - rewrite (accesses_at_cons i tx) in Hrep by done. apply unlock_accounts_represents; [done|].
    rewrite <- (no_conflict_accesses i) by done. intros j Hj.
    apply (Hfree i j); set_solver.
  - intros i' j Hi' Hj. apply Hfree; set_solver.
Qed.

(** Running transactions never conflict with each other. *)
Lemma running_no_conflict s i j :
  session_inv s -> i ∈ running_txs s -> j ∈ running_txs s -> i <> j -> ~ conflicting txs i j.
Proof.
  intros Hinv Hi Hj Hne Hc.
  assert (NoDup (running_txs s ++ done_txs s)) as Hnd.
  { pose proof (NoDup_seq 0 (length txs)) as Hnd. rewrite <- (si_partition s Hinv) in Hnd.
    by apply NoDup_app in Hnd as (_ & _ & ?). }
  apply NoDup_app in Hnd as (_ & Hdisj & _).
  assert (j < i \/ i < j)%nat as [Hlt|Hlt] by lia.
  - apply (Hdisj j Hj). by apply (si_order s Hinv i j).
  - apply (Hdisj i Hi). apply (si_order s Hinv j i); auto using conflicting_sym.
Qed.

Lemma finish_spec d r rs1 rs2 dn :
  session_inv (Session d (rs1 ++ r :: rs2) dn) ->
  exists d', finish r txs d = Some d' /\
    session_inv (Session d' (rs1 ++ rs2) (dn ++ range_indices r)).
Proof.
  intros Hinv. pose proof (fun i j => running_no_conflict _ i j Hinv) as Hnc.
  pose proof (fun i => session_bounds _ i Hinv) as Hbd. pose proof Hinv as []. simpl in *.
  set (R := running_txs (Session d (rs1 ++ rs2) dn)).
  assert (running_txs (Session d (rs1 ++ r :: rs2) dn) ≡ₚ range_indices r ++ R) as Hrun.
  { unfold R, running_txs. simpl. rewrite !map_app, !concat_app. simpl. solve_Permutation. }
  rewrite Hrun in *. setoid_rewrite Hrun in Hnc. setoid_rewrite Hrun in si_order0.
  setoid_rewrite Hrun in Hbd.
  assert (NoDup (range_indices r ++ R)) as Hnd.
  { pose proof (NoDup_seq 0 (length txs)) as Hnd. rewrite <- si_partition0 in Hnd.
    apply NoDup_app in Hnd as (_ & _ & Hnd). by apply NoDup_app in Hnd as (? & _ & _). }
  assert (0 < length (range_indices r))%nat as Hpos.
  { apply Forall_app in si_ranges0 as [_ [? _]%Forall_cons]. unfold range_indices. rewrite length_seq. lia. }
  destruct (unlock_range_spec (range_indices r) (running_locks d) R) as (locks & Hunlock & Hrep); auto.
  { apply Forall_forall. intros i Hi. apply Hbd. rewrite !elem_of_app. auto. }
  { intros i j Hi Hj. apply Hnc; [|done]. rewrite elem_of_app. auto. }
  unfold finish. rewrite Hunlock. eexists. split; [done|].
  assert (completed d + (r.2 - r.1) = length (dn ++ range_indices r))%nat as Hcomp.
  { rewrite length_app, <- si_completed0. unfold range_indices. by rewrite length_seq. }
  split; simpl; auto.
  - rewrite <- si_partition0. change (running_txs _) with R. solve_Permutation.
  - lia.
  - rewrite take_0. apply represents_empty.
  - rewrite Hcomp, Nat.eqb_eq. split; [|naive_solver]. intros ?. split; [done|].
    intros [_ Hnil]%app_eq_nil. rewrite Hnil in Hpos. simpl in Hpos. lia.
  - apply Forall_app in si_ranges0 as [? [_ ?]%Forall_cons]. by apply Forall_app.
  - intros i j Hi Hlt Hc. apply elem_of_app. left. apply (si_order0 i j); [|done..].
    rewrite elem_of_app. auto.
Qed.

Lemma session_init s : initial txs s -> session_inv s.
Proof.
  intros [old ->]. split; simpl; try done.
  - by rewrite !app_nil_r.
  - apply StronglySorted_seq.
  - lia.
  - apply represents_empty.
  - rewrite take_0. apply represents_empty.
  - naive_solver.
  - by intros i j ?%not_elem_of_nil.
Qed.

Lemma session_step s s' : session_inv s -> step txs s s' -> session_inv s'.
Proof.
  intros Hinv Hstep. destruct Hstep as [d d' r rs dn Hp|d d' rs dn Hp|d d' r rs1 rs2 dn Hf].
  - destruct (devin_pop_spec d rs dn Hinv) as (? & ? & ? & ? & _). by simplify_eq/=.
  - destruct (devin_pop_spec d rs dn Hinv) as (? & ? & ? & ? & _). by simplify_eq/=.
  - destruct (finish_spec d r rs1 rs2 dn Hinv) as (? & ? & ?). by simplify_eq/=.
Qed.

Lemma devin_session_reachable s : reachable (initial txs) (step txs) s -> session_inv s.
Proof. apply invariant_reachable; eauto using session_init, session_step. Qed.

End Block.

(** C9: block order is respected. In every state of every session on a block,
    whenever a transaction is running, every earlier transaction of the block it
    conflicts with has already finished; and two running transactions never
    conflict. *)
Theorem devin_respects_block_order txs s i j :
  block_bound txs -> reachable (initial txs) (step txs) s ->
  i ∈ running_txs s ->
  ((j < i)%nat -> conflicting txs i j -> j ∈ done_txs s) /\
  (j ∈ running_txs s -> i <> j -> ~ conflicting txs i j).
Proof.
  intros Hb Hr Hi. pose proof (devin_session_reachable txs Hb s Hr) as Hinv.
  split; [by apply si_order|]. by eapply running_no_conflict.
Qed.

(** Every transaction of the block is in exactly one place (still to be
    scheduled, running, or finished), the completion counter counts the finished
    ones, and the [finished] flag is set exactly when all of a non-empty block
    has finished. *)
Lemma devin_exactly_once txs s :
  block_bound txs -> txs <> [] -> reachable (initial txs) (step txs) s ->
  indices (sched s) ++ running_txs s ++ done_txs s ≡ₚ seq 0 (length txs) /\
  completed (sched s) = length (done_txs s) /\
  (finished (sched s) = true <-> done_txs s ≡ₚ seq 0 (length txs)).
Proof.
  intros Hb Hne Hr. pose proof (devin_session_reachable txs Hb s Hr) as [].
  split_and!; [done..|]. rewrite si_finished0. split.
  - intros [Hlen _]. 
    assert (length (indices (sched s) ++ running_txs s) = 0)%nat as H00.
    { apply Permutation_length in si_partition0.
      rewrite !length_app, length_seq in *. lia. }
    apply nil_length_inv in H00. rewrite app_assoc, H00 in si_partition0. by symmetry.
  - intros Hp. split; [by rewrite Hp, length_seq|]. intros Hnil.
    rewrite Hnil in Hp. apply Permutation_nil_l in Hp. by destruct txs.
Qed.

(** C35: the scheduler neither panics nor deadlocks. In every reachable state
    [pop] and [finish] of a running range return (no index is out of bounds, the
    popped range is found and drained), a popped range is non-empty and at most
    [MAX_RANGE] long, and when no range is running but transactions remain,
    [pop] returns one. *)
Theorem devin_total_and_live txs s :
  block_bound txs -> reachable (initial txs) (step txs) s ->
  (exists d' o, pop txs (sched s) = Some (d', o) /\
     (running s = [] -> indices (sched s) <> [] -> o <> None) /\
     (forall r, o = Some r -> (r.1 < r.2)%nat /\ (r.2 - r.1 <= MAX_RANGE)%nat)) /\
  (forall r, r ∈ running s -> exists d', finish r txs (sched s) = Some d').
Proof.
  intros Hb Hr. pose proof (devin_session_reachable txs Hb s Hr) as Hinv. destruct s as [d rs dn]. split.
  - destruct (devin_pop_spec txs Hb d rs dn Hinv) as (d' & o & Hp & _ & Hlive & Hrange). eauto.
  - intros r (rs1 & rs2 & Hrs)%list_elem_of_split. simpl in *. subst rs.
    destruct (finish_spec txs Hb d r rs1 rs2 dn Hinv) as (d' & Hf & _). eauto.
Qed.

End Devin.

(** ** A concrete block: transactions as lists of (account, writable) *)
Section Example.
Import SampleMessage.

(** The second transaction reads what the first writes; the third is independent. *)
Definition sample_block : list (list (nat * bool)) :=
  [[(0%nat, true)]; [(0%nat, false); (1%nat, true)]; [(2%nat, true)]].

Definition sample_cost (tx : list (nat * bool)) : Z := 1000.

Lemma sample_bound : block_bound sample_block.
Proof. vm_compute. reflexivity. Qed.

(** The first transaction is popped alone; the third runs beside it, the second
    is skipped over until the first has finished. *)
Lemma devin_sample_session :
  exists d, reachable (initial sample_block) (step sample_cost sample_block)
              (Session d [(1%nat, 2%nat); (2%nat, 3%nat)] [0%nat]).
Proof.
  eexists. eapply reachable_step; [eapply reachable_step; [eapply reachable_step;
    [eapply reachable_step; [apply reachable_init; by exists new|]|]|]|].
  - apply step_pop_some. vm_compute. reflexivity.
  - apply step_pop_some. vm_compute. reflexivity.
  - eapply (step_finish _ _ _ _ (0%nat, 1%nat) [(2%nat, 3%nat)] []). vm_compute. reflexivity.
  - apply step_pop_some. vm_compute. reflexivity.
Qed.

Lemma sample_conflict : conflicting sample_block 1 0.
Proof.
  exists [(0%nat, false); (1%nat, true)], [(0%nat, true)]. split_and!; [done..|].
  exists 0%nat. right. split; [exists false|]; left.
Qed.

Lemma devin_respects_block_order_witness :
  exists s : @session nat _ _, 1%nat ∈ running_txs s /\ conflicting sample_block 1 0 /\ 0%nat ∈ done_txs s.
Proof.
  destruct devin_sample_session as [d Hd].
  exists (Session d [(1%nat, 2%nat); (2%nat, 3%nat)] [0%nat]).
  destruct (devin_respects_block_order sample_cost sample_block _ 1 0 sample_bound Hd) as [Ho _].
  - unfold running_txs. simpl. by left.
  - split; [unfold running_txs; simpl; by left|]. split; [exact sample_conflict|].
    apply Ho; [lia|exact sample_conflict].
Defined.

Lemma devin_total_and_live_witness :
  exists d d' : @DevinScheduler nat _ _, finish (1%nat, 2%nat) sample_block d = Some d'.
Proof.
  destruct devin_sample_session as [d Hd]. exists d.
  destruct (devin_total_and_live sample_cost sample_block _ sample_bound Hd) as [_ Hf].
  apply (Hf (1%nat, 2%nat)). by left.
Defined.

End Example.
End Devin.
