(* ===== verification/ComputeBudget.v ===== *)
(** * Compute-budget instructions

    What a transaction asks of the compute budget, read off its instructions:
    [ComputeBudgetInstructionDetails] (compute-budget-instruction), the table
    of builtin programs (builtins-default-costs) and the count of precompile
    signatures (runtime-transaction). Each of the three scans a transaction's
    instructions through a filter that remembers, per program index, what the
    program id was found to be; the theorems remove the filters and the
    first-byte table from the answer. *)

From S2P Require Import Prelude Accounts.

(** ** What the code takes from the Solana SDK crates *)

(** [ComputeBudgetInstruction]; [Unused] stands for the variants the code
    rejects. *)
Inductive ComputeBudgetInstruction : Type :=
| RequestHeapFrame (bytes : Z)
| SetComputeUnitLimit (compute_unit_limit : Z)
| SetComputeUnitPrice (micro_lamports : Z)
| SetLoadedAccountsDataSizeLimit (bytes : Z)
| Unused.

(** Program ids, constants and the deserializer of the SDK. *)
Class Sdk (Key : Type) : Type := {
  vote_id : Key;
  system_program_id : Key;
  compute_budget_id : Key;
  bpf_loader_upgradeable_id : Key;
  bpf_loader_deprecated_id : Key;
  bpf_loader_id : Key;
  loader_v4_id : Key;
  secp256k1_program_id : Key;
  ed25519_program_id : Key;
  secp256r1_program_id : Key;
  (** [key.as_ref()[0]] *)
  first_byte : Key -> nat;
  HEAP_LENGTH : Z;
  PACKET_DATA_SIZE : Z;
  (** [try_from_slice_unchecked] at [ComputeBudgetInstruction] *)
  decode_compute_budget : list Z -> option ComputeBudgetInstruction
}.

(** A key is 32 bytes, and the deserializer yields [u32] and [u64] values. *)
Class SdkLaws (Key : Type) `{Sdk Key} : Prop := {
  first_byte_lt : forall key : Key, (first_byte key < 256)%nat;
  decode_in_range : forall data i, decode_compute_budget (Key := Key) data = Some i ->
    match i with
    | RequestHeapFrame v | SetComputeUnitLimit v | SetLoadedAccountsDataSizeLimit v => in_word 32 v
    | SetComputeUnitPrice v => in_word 64 v
    | Unused => True
    end
}.

Record SVMInstruction : Type := MkInstruction {
  program_id_index : nat;
  accounts : list Z;
  data : list Z
}.

(** A set of active features, by their ids. *)
Record FeatureSet (Key : Type) `{Countable Key} : Type := MkFeatureSet { active : gmap Key Z }.
Arguments MkFeatureSet {Key _ _} active.
Arguments active {Key _ _} f.

Definition is_active {Key} `{Countable Key} (fs : FeatureSet Key) (id : Key) : bool :=
  bool_decide (is_Some (active fs !! id)).

(** ** Memoised program ids *)

Module Filter.

(** [slots.get_mut(index).expect(..).get_or_insert_with(|| f)]. *)
Definition get_or_insert_with {A} (slots : list (option A)) (index : nat) (f : A) :
    option (A * list (option A)) :=
  match slots !! index with
  | None => None
  | Some (Some a) => Some (a, slots)
  | Some None => Some (f, <[index := Some f]> slots)
  end.

(** A slot that is filled has the answer for the key at its index. *)
Definition sound {A Key} (check : Key -> A) (keys : list Key) (n : nat) (slots : list (option A)) : Prop :=
  length slots = n /\
  forall i a k, slots !! i = Some (Some a) -> keys !! i = Some k -> a = check k.

Lemma sound_new {A Key} (check : Key -> A) keys n : sound check keys n (replicate n None).
Proof.
  split; [apply length_replicate|]. intros i a k [? _]%lookup_replicate. done.
Qed.

Lemma get_sound {A Key} (check : Key -> A) keys n slots i k :
  sound check keys n slots -> keys !! i = Some k -> (i < n)%nat ->
  exists slots', get_or_insert_with slots i (check k) = Some (check k, slots') /\
    sound check keys n slots'.
Proof.
  intros [Hlen Hs] Hk Hi. unfold get_or_insert_with.
  destruct (lookup_lt_is_Some_2 slots i) as [[a|] Ha]; [lia|..]; rewrite Ha.
  - exists slots. by rewrite (Hs i a k Ha Hk).
  - eexists. split; [done|]. split; [by rewrite length_insert|].
    intros j b k' [(-> & ? & _) | (? & ?)]%list_lookup_insert_Some Hk'; [congruence|]. by eapply Hs.
Qed.

End Filter.

(** ** The table of builtin programs *)

Module Builtins.

Inductive BuiltinCost (Key : Type) : Type :=
| Migrating (core_bpf_migration_feature : Key) (position : nat)
| NotMigrating.
Arguments Migrating {Key} core_bpf_migration_feature position.
Arguments NotMigrating {Key}.

Definition core_bpf_migration_feature {Key} (c : BuiltinCost Key) : option Key :=
  match c with
  | Migrating feature _ => Some feature
  | NotMigrating => None
  end.

Definition position {Key} (c : BuiltinCost Key) : option nat :=
  match c with
  | Migrating _ position => Some position
  | NotMigrating => None
  end.

Inductive BuiltinMigrationFeatureIndex : Type :=
| FeatureNotBuiltin
| BuiltinNoMigrationFeature
| BuiltinWithMigrationFeature (index : nat).

Inductive ProgramKind : Type :=
| NotBuiltin
| Builtin
| MigratingBuiltin (core_bpf_migration_feature_index : nat).

#[global] Instance ProgramKind_eq_dec : EqDecision ProgramKind.
Proof. solve_decision. Defined.

(** No builtin is being migrated at present. The code around the table is
    modelled for any table [migrating], of which this is the current one. *)
Definition MIGRATING_BUILTINS_COSTS {Key} : list (Key * BuiltinCost Key) := [].

Section Table.
Context {Key : Type} `{Countable Key} `{!Sdk Key}.
Context (migrating : list (Key * BuiltinCost Key)).

Definition NON_MIGRATING_BUILTINS_COSTS : list (Key * BuiltinCost Key) :=
  [(vote_id, NotMigrating);
   (system_program_id, NotMigrating);
   (compute_budget_id, NotMigrating);
   (bpf_loader_upgradeable_id, NotMigrating);
   (bpf_loader_deprecated_id, NotMigrating);
   (bpf_loader_id, NotMigrating);
   (loader_v4_id, NotMigrating);
   (secp256k1_program_id, NotMigrating);
   (ed25519_program_id, NotMigrating)].

(** Collecting pairs into a hash map: a later pair replaces an earlier one. *)
Definition BUILTIN_INSTRUCTION_COSTS : gmap Key (BuiltinCost Key) :=
  foldl (fun m p => <[p.1 := p.2]> m) ∅ (migrating ++ NON_MIGRATING_BUILTINS_COSTS).

Definition MAYBE_BUILTIN_KEY : list bool :=
  foldl (fun temp_table key => <[first_byte key := true]> temp_table) (replicate 256 false)
    (map_to_list BUILTIN_INSTRUCTION_COSTS).*1.

Definition get_builtin_migration_feature_index (program_id : Key) : BuiltinMigrationFeatureIndex :=
  match BUILTIN_INSTRUCTION_COSTS !! program_id with
  | None => FeatureNotBuiltin
  | Some builtin_cost =>
      match position builtin_cost with
      | None => BuiltinNoMigrationFeature
      | Some index => BuiltinWithMigrationFeature index
      end
  end.

(** The compile-time check of the table. *)
Fixpoint validate_position (index : nat) (migrating_builtins : list (Key * BuiltinCost Key)) : bool :=
  match migrating_builtins with
  | [] => true
  | (_, Migrating _ position) :: rest => (position =? index)%nat && validate_position (S index) rest
  | (_, NotMigrating) :: _ => false
  end.

(** [None]: one of the two [expect]s fails. *)
Definition get_migration_feature_id (index : nat) : option Key :=
  p ← migrating !! index; core_bpf_migration_feature p.2.

(** The table is indexed by a byte, which is in range. *)
Definition maybe_builtin (program_id : Key) : bool :=
  default false (MAYBE_BUILTIN_KEY !! first_byte program_id).

Definition check_program_kind (program_id : Key) : ProgramKind :=
  if negb (maybe_builtin program_id) then NotBuiltin
  else
    match get_builtin_migration_feature_index program_id with
    | FeatureNotBuiltin => NotBuiltin
    | BuiltinNoMigrationFeature => Builtin
    | BuiltinWithMigrationFeature index => MigratingBuiltin index
    end.

(** [ComputeBudgetProgramIdFilter::check_program_id]. *)
Definition check_compute_budget_id (program_id : Key) : bool :=
  if negb (maybe_builtin program_id) then false
  else bool_decide (program_id = compute_budget_id).

(** *** The first-byte table never changes an answer *)

Definition kind_of (program_id : Key) : ProgramKind :=
  match BUILTIN_INSTRUCTION_COSTS !! program_id with
  | None => NotBuiltin
  | Some NotMigrating => Builtin
  | Some (Migrating _ index) => MigratingBuiltin index
  end.

Lemma set_bytes_lookup `{!SdkLaws Key} (keys : list Key) : forall t key,
  length t = 256%nat -> key ∈ keys \/ t !! first_byte key = Some true ->
  foldl (fun temp_table k => <[first_byte k := true]> temp_table) t keys !! first_byte key = Some true.
Proof.
  induction keys as [|k keys IH]; intros t key Hlen Hk; simpl; [set_solver|].
  apply IH; [by rewrite length_insert|].
  assert (first_byte k < length t)%nat by (rewrite Hlen; apply first_byte_lt).
  destruct (decide (first_byte k = first_byte key)) as [<-|];
    [right; by apply list_lookup_insert_eq|].
  rewrite list_lookup_insert_ne by done. set_solver.
Qed.

Lemma maybe_builtin_complete `{!SdkLaws Key} (key : Key) :
  is_Some (BUILTIN_INSTRUCTION_COSTS !! key) -> maybe_builtin key = true.
Proof.
  intros [c Hc]. unfold maybe_builtin, MAYBE_BUILTIN_KEY.
  rewrite set_bytes_lookup; [done|by rewrite length_replicate|]. left.
  apply list_elem_of_fmap. exists (key, c). split; [done|]. by apply elem_of_map_to_list.
Qed.

Lemma check_program_kind_of `{!SdkLaws Key} (key : Key) : check_program_kind key = kind_of key.
Proof.
  unfold check_program_kind, kind_of, get_builtin_migration_feature_index.
  pose proof (maybe_builtin_complete key) as Hm.
  destruct (BUILTIN_INSTRUCTION_COSTS !! key) as [[]|]; [..|by case_match];
    rewrite Hm by eauto; done.
Qed.

Lemma foldl_insert_is_Some (l : list (Key * BuiltinCost Key)) : forall (m : gmap Key (BuiltinCost Key)) k,
  is_Some (m !! k) \/ k ∈ l.*1 -> is_Some (foldl (fun m p => <[p.1 := p.2]> m) m l !! k).
Proof.
  induction l as [|[k' c] l IH]; intros m k Hk; simpl; [set_solver|].
  apply IH. simpl in *. destruct (decide (k' = k)) as [->|];
    [rewrite lookup_insert_eq; eauto|rewrite lookup_insert_ne by done; set_solver].
Qed.

Lemma check_compute_budget_id_spec `{!SdkLaws Key} (key : Key) :
  check_compute_budget_id key = bool_decide (key = compute_budget_id).
Proof.
  unfold check_compute_budget_id. case_match eqn:Hm; [|done].
  symmetry. apply bool_decide_eq_false. intros ->. apply negb_true_iff in Hm.
  rewrite maybe_builtin_complete in Hm; [done|]. apply foldl_insert_is_Some. right.
  rewrite fmap_app. apply elem_of_app. right. set_solver.
Qed.

Lemma foldl_insert_cases (l : list (Key * BuiltinCost Key)) : forall (m : gmap Key (BuiltinCost Key)) k c,
  foldl (fun m p => <[p.1 := p.2]> m) m l !! k = Some c -> m !! k = Some c \/ (k, c) ∈ l.
Proof.
  induction l as [|[k' c'] l IH]; intros m k c Hk; simpl in *; [eauto|].
  apply IH in Hk as [Hk|Hk]; [|set_solver].
  apply lookup_insert_Some in Hk as [[-> ->]|[_ ?]]; set_solver.
Qed.

Lemma validate_position_lookup l : forall i p k c,
  validate_position i l = true -> l !! p = Some (k, c) ->
  exists feature, c = Migrating feature (i + p).
Proof.
  induction l as [|[k' [f q|]] l IH]; intros i p k c Hv Hp; [done|..]; [|done].
  simpl in Hv. apply andb_true_iff in Hv as [Hq%Nat.eqb_eq Hv]. destruct p as [|p]; simplify_eq/=.
  - exists f. f_equal. lia.
  - replace (i + S p)%nat with (S i + p)%nat by lia. eapply IH; eauto.
Qed.

(** A migrating program's index names its entry of the table. *)
Lemma kind_of_migrating key index :
  validate_position 0 migrating = true -> kind_of key = MigratingBuiltin index ->
  is_Some (get_migration_feature_id index).
Proof.
  unfold kind_of, get_migration_feature_id. intros Hv Hk.
  destruct (BUILTIN_INSTRUCTION_COSTS !! key) as [c|] eqn:Hc; [|done].
  unfold BUILTIN_INSTRUCTION_COSTS in Hc. apply foldl_insert_cases in Hc as [?|Hc]; [set_solver|].
  destruct c as [f p|]; simplify_eq. apply elem_of_app in Hc as [Hc|Hc];
    [|unfold NON_MIGRATING_BUILTINS_COSTS in Hc; set_solver].
  apply list_elem_of_lookup in Hc as [i Hi].
  destruct (validate_position_lookup _ _ _ _ _ Hv Hi) as [f' ?]. simplify_eq/=.
  rewrite Hi. simpl. eauto.
Qed.

End Table.
End Builtins.

(** ** [ComputeBudgetInstructionDetails] *)

Module Details.
Import Builtins.

(** [solana_program_runtime::execution_budget]. *)
Definition MAX_COMPUTE_UNIT_LIMIT : Z := 1_400_000.
Definition DEFAULT_HEAP_COST : Z := 8.
Definition DEFAULT_INSTRUCTION_COMPUTE_UNIT_LIMIT : Z := 200_000.
Definition MAX_BUILTIN_ALLOCATION_COMPUTE_UNIT_LIMIT : Z := 3_000.
Definition MAX_HEAP_FRAME_BYTES : Z := 256 * 1024.
Definition MAX_LOADED_ACCOUNTS_DATA_SIZE_BYTES : Z := 64 * 1024 * 1024.

Record ComputeBudgetInstructionDetails : Type := MkDetails {
  requested_compute_unit_limit : option (Z * Z);
  requested_compute_unit_price : option (Z * Z);
  requested_heap_size : option (Z * Z);
  requested_loaded_accounts_data_size_limit : option (Z * Z);
  num_non_compute_budget_instructions : Z;
  num_non_migratable_builtin_instructions : Z;
  num_non_builtin_instructions : Z;
  migrating_builtin : list Z
}.

Definition set_requested_compute_unit_limit (d : ComputeBudgetInstructionDetails) v :=
  MkDetails v (requested_compute_unit_price d) (requested_heap_size d)
    (requested_loaded_accounts_data_size_limit d) (num_non_compute_budget_instructions d)
    (num_non_migratable_builtin_instructions d) (num_non_builtin_instructions d) (migrating_builtin d).
Definition set_requested_compute_unit_price (d : ComputeBudgetInstructionDetails) v :=
  MkDetails (requested_compute_unit_limit d) v (requested_heap_size d)
    (requested_loaded_accounts_data_size_limit d) (num_non_compute_budget_instructions d)
    (num_non_migratable_builtin_instructions d) (num_non_builtin_instructions d) (migrating_builtin d).
Definition set_requested_heap_size (d : ComputeBudgetInstructionDetails) v :=
  MkDetails (requested_compute_unit_limit d) (requested_compute_unit_price d) v
    (requested_loaded_accounts_data_size_limit d) (num_non_compute_budget_instructions d)
    (num_non_migratable_builtin_instructions d) (num_non_builtin_instructions d) (migrating_builtin d).
Definition set_requested_loaded_limit (d : ComputeBudgetInstructionDetails) v :=
  MkDetails (requested_compute_unit_limit d) (requested_compute_unit_price d) (requested_heap_size d)
    v (num_non_compute_budget_instructions d)
    (num_non_migratable_builtin_instructions d) (num_non_builtin_instructions d) (migrating_builtin d).
Definition set_num_non_compute_budget (d : ComputeBudgetInstructionDetails) v :=
  MkDetails (requested_compute_unit_limit d) (requested_compute_unit_price d) (requested_heap_size d)
    (requested_loaded_accounts_data_size_limit d) v
    (num_non_migratable_builtin_instructions d) (num_non_builtin_instructions d) (migrating_builtin d).
Definition set_builtin_counters (d : ComputeBudgetInstructionDetails) non_migratable non_builtin migrating :=
  MkDetails (requested_compute_unit_limit d) (requested_compute_unit_price d) (requested_heap_size d)
    (requested_loaded_accounts_data_size_limit d) (num_non_compute_budget_instructions d)
    non_migratable non_builtin migrating.

Record ComputeBudgetLimits : Type := MkLimits {
  updated_heap_bytes : Z;
  compute_unit_limit : Z;
  compute_unit_price : Z;
  loaded_accounts_bytes : Z
}.

Section Details.
Context {Key : Type} `{Countable Key} `{!Sdk Key}.
Context (migrating : list (Key * BuiltinCost Key)).

Definition MIN_HEAP_FRAME_BYTES : Z := HEAP_LENGTH (Key := Key).

(** [(PACKET_DATA_SIZE / size_of::<Pubkey>()) as u8]. *)
Definition FILTER_SIZE : nat := Z.to_nat (wrap 8 (PACKET_DATA_SIZE (Key := Key) / 32)).

Definition default_details : ComputeBudgetInstructionDetails :=
  MkDetails None None None None 0 0 0 (replicate (length migrating) 0).

Definition process_instruction (d : ComputeBudgetInstructionDetails) (index : Z)
    (instruction : SVMInstruction) : result TransactionError ComputeBudgetInstructionDetails :=
  match decode_compute_budget (Key := Key) (data instruction) with
  | Some (RequestHeapFrame bytes) =>
      if requested_heap_size d is Some _ then Err (DuplicateInstruction index)
      else Ok (set_requested_heap_size d (Some (index, bytes)))
  | Some (SetComputeUnitLimit limit) =>
      if requested_compute_unit_limit d is Some _ then Err (DuplicateInstruction index)
      else Ok (set_requested_compute_unit_limit d (Some (index, limit)))
  | Some (SetComputeUnitPrice micro_lamports) =>
      if requested_compute_unit_price d is Some _ then Err (DuplicateInstruction index)
      else Ok (set_requested_compute_unit_price d (Some (index, micro_lamports)))
  | Some (SetLoadedAccountsDataSizeLimit bytes) =>
      if requested_loaded_accounts_data_size_limit d is Some _ then Err (DuplicateInstruction index)
      else Ok (set_requested_loaded_limit d (Some (index, bytes)))
  | Some Unused | None => Err (InvalidInstructionError index)
  end.

(** Body of the first loop; the state is the filter's slots and the details. *)
Definition scan_request (st : list (option bool) * ComputeBudgetInstructionDetails)
    (x : nat * (Key * SVMInstruction)) :
    option (result TransactionError (list (option bool) * ComputeBudgetInstructionDetails)) :=
  let '(i, (program_id, instruction)) := x in
  '(is_cb, flags) ← Filter.get_or_insert_with st.1 (program_id_index instruction)
                      (check_compute_budget_id migrating program_id);
  Some (if is_cb : bool then
          match process_instruction st.2 (wrap 8 (Z.of_nat i)) instruction with
          | Ok d => Ok (flags, d)
          | Err e => Err e
          end
        else Ok (flags, set_num_non_compute_budget st.2
                          (sat_add 16 (num_non_compute_budget_instructions st.2) 1))).

(** Body of the second loop. *)
Definition count_builtin (st : list (option ProgramKind) * ComputeBudgetInstructionDetails)
    (x : Key * SVMInstruction) :
    option (list (option ProgramKind) * ComputeBudgetInstructionDetails) :=
  let '(program_id, instruction) := x in
  let d := st.2 in
  '(kind, slots) ← Filter.get_or_insert_with st.1 (program_id_index instruction)
                     (check_program_kind migrating program_id);
  match kind with
  | Builtin =>
      Some (slots, set_builtin_counters d (sat_add 16 (num_non_migratable_builtin_instructions d) 1)
                     (num_non_builtin_instructions d) (migrating_builtin d))
  | NotBuiltin =>
      Some (slots, set_builtin_counters d (num_non_migratable_builtin_instructions d)
                     (sat_add 16 (num_non_builtin_instructions d) 1) (migrating_builtin d))
  | MigratingBuiltin index =>
      c ← migrating_builtin d !! index;
      Some (slots, set_builtin_counters d (num_non_migratable_builtin_instructions d)
                     (num_non_builtin_instructions d) (<[index := sat_add 16 c 1]> (migrating_builtin d)))
  end.

Definition try_from (instructions : list (Key * SVMInstruction)) :
    option (result TransactionError ComputeBudgetInstructionDetails) :=
  scanned ← try_fold scan_request (replicate FILTER_SIZE None, default_details)
              (imap pair instructions);
  match scanned with
  | Err e => Some (Err e)
  | Ok (_, d) =>
      if requested_compute_unit_limit d is Some _ then Some (Ok d)
      else
        counted ← foldM count_builtin (replicate FILTER_SIZE None, d) instructions;
        Some (Ok counted.2)
  end.

Definition sanitize_requested_heap_size (bytes : Z) : bool :=
  (MIN_HEAP_FRAME_BYTES <=? bytes) && (bytes <=? MAX_HEAP_FRAME_BYTES) && (bytes mod 1024 =? 0).

(** Body of the fold over the migrating counters; [+] on [u16] wraps. *)
Definition split_migrated (fs : FeatureSet Key) (acc : Z * Z) (x : nat * Z) : option (Z * Z) :=
  let '(migrated, not_migrated) := acc in
  let '(index, count) := x in
  if 0 <? count then
    feature ← get_migration_feature_id migrating index;
    Some (if is_active fs feature then (wadd 16 migrated count, not_migrated)
          else (migrated, wadd 16 not_migrated count))
  else Some (migrated, wadd 16 not_migrated count).

Definition calculate_default_compute_unit_limit (d : ComputeBudgetInstructionDetails)
    (fs : FeatureSet Key) : option Z :=
  '(num_migrated, num_not_migrated) ← foldM (split_migrated fs) (0, 0)
                                        (imap pair (migrating_builtin d));
  Some (sat_add 32
    (sat_mul 32 (sat_add 32 (num_non_migratable_builtin_instructions d) num_not_migrated)
       MAX_BUILTIN_ALLOCATION_COMPUTE_UNIT_LIMIT)
    (sat_mul 32 (sat_add 32 (num_non_builtin_instructions d) num_migrated)
       DEFAULT_INSTRUCTION_COMPUTE_UNIT_LIMIT)).

Definition sanitize_and_convert_to_compute_budget_limits (d : ComputeBudgetInstructionDetails)
    (fs : FeatureSet Key) : option (result TransactionError ComputeBudgetLimits) :=
  match
    match requested_heap_size d with
    | Some (index, requested) =>
        if sanitize_requested_heap_size requested then Ok requested
        else Err (InvalidInstructionError index)
    | None => Ok MIN_HEAP_FRAME_BYTES
    end
  with
  | Err e => Some (Err e)
  | Ok heap =>
      let updated_heap_bytes := Z.min heap MAX_HEAP_FRAME_BYTES in
      unit_limit ← match requested_compute_unit_limit d with
                   | None => calculate_default_compute_unit_limit d fs
                   | Some (_, requested) => Some requested
                   end;
      let compute_unit_limit := Z.min unit_limit MAX_COMPUTE_UNIT_LIMIT in
      let compute_unit_price :=
        match requested_compute_unit_price d with None => 0 | Some (_, requested) => requested end in
      Some (match
              match requested_loaded_accounts_data_size_limit d with
              | Some (_, requested) =>
                  if requested =? 0 then Err InvalidLoadedAccountsDataSizeLimit else Ok requested
              | None => Ok MAX_LOADED_ACCOUNTS_DATA_SIZE_BYTES
              end
            with
            | Err e => Err e
            | Ok loaded =>
                Ok (MkLimits updated_heap_bytes compute_unit_limit compute_unit_price
                      (Z.min loaded MAX_LOADED_ACCOUNTS_DATA_SIZE_BYTES))
            end)
  end.

Definition process_compute_budget_instructions (instructions : list (Key * SVMInstruction))
    (fs : FeatureSet Key) : option (result TransactionError ComputeBudgetLimits) :=
  details ← try_from instructions;
  match details with
  | Err e => Some (Err e)
  | Ok d => sanitize_and_convert_to_compute_budget_limits d fs
  end.

End Details.

(** *** What a list of instructions asks for *)

Inductive Request : Type := HeapFrame | UnitLimit | UnitPrice | LoadedLimit.

#[global] Instance Request_eq_dec : EqDecision Request.
Proof. solve_decision. Defined.

Definition request_of (i : ComputeBudgetInstruction) : option (Request * Z) :=
  match i with
  | RequestHeapFrame v => Some (HeapFrame, v)
  | SetComputeUnitLimit v => Some (UnitLimit, v)
  | SetComputeUnitPrice v => Some (UnitPrice, v)
  | SetLoadedAccountsDataSizeLimit v => Some (LoadedLimit, v)
  | Unused => None
  end.

Section Spec.
Context {Key : Type} `{Countable Key} `{!Sdk Key} `{!SdkLaws Key}.
Context (migrating : list (Key * BuiltinCost Key)).

Definition asks (k : Request) (x : nat * (Key * SVMInstruction)) : option (Z * Z) :=
  let '(i, (program_id, instruction)) := x in
  if decide (program_id = compute_budget_id) then
    '(k', v) ← decode_compute_budget (Key := Key) (data instruction) ≫= request_of;
    if decide (k' = k) then Some (wrap 8 (Z.of_nat i), v) else None
  else None.

(** The requests of one kind with their instruction indices (as [u8]). *)
Definition requests (k : Request) (instructions : list (Key * SVMInstruction)) : list (Z * Z) :=
  omap (asks k) (imap pair instructions).

Definition recognised (x : Key * SVMInstruction) : Prop :=
  x.1 = compute_budget_id ->
  is_Some (decode_compute_budget (Key := Key) (data x.2) ≫= request_of).

#[global] Instance recognised_dec x : Decision (recognised x).
Proof. unfold recognised. apply _. Defined.

(** Every compute-budget instruction is one the program knows and no kind of
    request is made twice. *)
Definition acceptable (instructions : list (Key * SVMInstruction)) : Prop :=
  Forall recognised instructions /\ forall k, (length (requests k instructions) <= 1)%nat.

Definition other_count (instructions : list (Key * SVMInstruction)) : Z :=
  Z.of_nat (length (filter (fun x => x.1 <> compute_budget_id) instructions)).

Definition kind_count (kind : ProgramKind) (instructions : list (Key * SVMInstruction)) : Z :=
  Z.of_nat (length (filter (fun x => kind_of migrating x.1 = kind) instructions)).

(** The details of acceptable instructions before the builtins are counted. *)
Definition requested (instructions : list (Key * SVMInstruction)) : ComputeBudgetInstructionDetails :=
  MkDetails (head (requests UnitLimit instructions)) (head (requests UnitPrice instructions))
    (head (requests HeapFrame instructions)) (head (requests LoadedLimit instructions))
    (Z.min (other_count instructions) (word_max 16)) 0 0 (replicate (length migrating) 0).

(** The builtin counters of the processed instructions. *)
Definition counted (d : ComputeBudgetInstructionDetails) (instructions : list (Key * SVMInstruction)) :
    ComputeBudgetInstructionDetails :=
  set_builtin_counters d (Z.min (kind_count Builtin instructions) (word_max 16))
    (Z.min (kind_count NotBuiltin instructions) (word_max 16))
    ((fun p => Z.min (kind_count (MigratingBuiltin p) instructions) (word_max 16)) <$>
       seq 0 (length migrating)).

Definition details_of (instructions : list (Key * SVMInstruction)) : ComputeBudgetInstructionDetails :=
  if requests UnitLimit instructions is [] then counted (requested instructions) instructions
  else requested instructions.

(** The instructions of a message with static keys [keys]. *)
Definition indexed_by (keys : list Key) (instructions : list (Key * SVMInstruction)) : Prop :=
  forall program_id instruction, (program_id, instruction) ∈ instructions ->
    keys !! program_id_index instruction = Some program_id /\
    (program_id_index instruction < FILTER_SIZE (Key := Key))%nat.

Lemma requests_snoc k l x :
  requests k (l ++ [x]) = requests k l ++ option_list (asks k (length l, x)).
Proof.
  unfold requests. rewrite imap_app, omap_app. f_equal.
  unfold imap at 1. rewrite Nat.add_0_r. cbn [omap list_omap]. by destruct (asks k (length l, x)).
Qed.

Lemma sat_count w n : Z.min (Z.min n (word_max w) + 1) (word_max w) = Z.min (n + 1) (word_max w).
Proof. lia. Qed.

Lemma asks_other k i x : x.1 <> compute_budget_id -> asks k (i, x) = None.
Proof. destruct x as [id ins]. intros ?. simpl in *. by rewrite decide_False. Qed.

Lemma requested_other l x :
  x.1 <> compute_budget_id ->
  requested (l ++ [x]) =
  set_num_non_compute_budget (requested l)
    (sat_add 16 (num_non_compute_budget_instructions (requested l)) 1).
Proof.
  intros Hx. unfold requested, set_num_non_compute_budget. simpl.
  rewrite !requests_snoc, !asks_other by done. simpl. rewrite !app_nil_r. f_equal.
  unfold sat_add. rewrite sat_count. unfold other_count.
  rewrite filter_app, filter_cons_True, length_app by done. simpl. f_equal. lia.
Qed.

Lemma acceptable_other l x : x.1 <> compute_budget_id -> acceptable l -> acceptable (l ++ [x]).
Proof.
  intros Hx [Hr Hk]. split; [apply Forall_app; split; [done|apply Forall_singleton; by intros ?]|].
  intros k. rewrite requests_snoc, asks_other by done. simpl. by rewrite app_nil_r.
Qed.

Lemma requested_count_cb l x :
  x.1 = compute_budget_id -> other_count (l ++ [x]) = other_count l.
Proof.
  intros Hx. unfold other_count. rewrite filter_app, filter_cons_False, app_nil_r by naive_solver. done.
Qed.

Lemma asks_cb k i ins :
  asks k (i, (compute_budget_id, ins)) =
  ('(k', v) ← decode_compute_budget (Key := Key) (data ins) ≫= request_of;
   if decide (k' = k) then Some (wrap 8 (Z.of_nat i), v) else None).
Proof. unfold asks. by rewrite decide_True. Qed.

Lemma acceptable_snoc l ins k v :
  decode_compute_budget (Key := Key) (data ins) ≫= request_of = Some (k, v) -> acceptable l ->
  acceptable (l ++ [(compute_budget_id, ins)]) <-> requests k l = [].
Proof.
  intros Hd [Hr Hk]. split.
  - intros [_ Hk']. specialize (Hk' k). rewrite requests_snoc, asks_cb, Hd in Hk'. simpl in Hk'.
    rewrite decide_True, length_app in Hk' by done. simpl in Hk'. destruct (requests k l); simpl in *; [done|lia].
  - intros Hnil. split; [apply Forall_app; split; [done|]; apply Forall_singleton; intros _; eexists; exact Hd|].
    intros k'. rewrite requests_snoc, asks_cb, Hd. simpl. specialize (Hk k').
    case_decide as Hkk; simpl; [|by rewrite app_nil_r]. subst k'. by rewrite Hnil.
Qed.

(** A compute-budget instruction is taken exactly when it is recognised and the
    first of its kind; otherwise it is reported with its index. *)
Lemma process_instruction_spec l ins :
  let x := (compute_budget_id, ins) in
  acceptable l ->
  (process_instruction (Key := Key) (requested l) (wrap 8 (Z.of_nat (length l))) ins =
     Ok (requested (l ++ [x])) /\ acceptable (l ++ [x])) \/
  (process_instruction (Key := Key) (requested l) (wrap 8 (Z.of_nat (length l))) ins =
     Err (if decide (recognised x) then DuplicateInstruction (wrap 8 (Z.of_nat (length l)))
          else InvalidInstructionError (wrap 8 (Z.of_nat (length l)))) /\ ~ acceptable (l ++ [x])).
Proof.
  intros x Hl.
  assert (forall k v, decode_compute_budget (Key := Key) (data ins) ≫= request_of = Some (k, v) ->
    requests k l = [] /\ acceptable (l ++ [x]) \/
    (exists r, head (requests k l) = Some r) /\ recognised x /\ ~ acceptable (l ++ [x])) as Hcase.
  { intros k v Hd. unfold x. rewrite (acceptable_snoc _ _ _ _ Hd Hl).
    destruct (requests k l) as [|r rs]; [by left|right]. split_and!; [by exists r|intros _; eexists; exact Hd|done]. }
  assert (decode_compute_budget (Key := Key) (data ins) ≫= request_of = None ->
    ~ recognised x /\ ~ acceptable (l ++ [x])) as Hbad.
  { intros Hd. assert (~ recognised x) as Hx; [|split; [done|]].
    - intros Hr. destruct (Hr eq_refl) as [? Hs]. simpl in Hs. congruence.
    - intros [[_ Hr]%Forall_app _]. rewrite Forall_singleton in Hr. exact (Hx Hr). }
  unfold process_instruction, requested at 1 3.
  unfold set_requested_heap_size, set_requested_compute_unit_limit, set_requested_compute_unit_price,
    set_requested_loaded_limit, requested. rewrite !requests_snoc. unfold x in *. rewrite !asks_cb.
  destruct (decode_compute_budget (data ins)) as [[v|v|v|v|]|] eqn:Hd; simpl in *;
    try (destruct Hbad as [??]; [done|]; right; by rewrite decide_False by done);
    destruct (Hcase _ _ eq_refl) as [[Hnil Ha]|([r Hr] & Hx & Ha)];
    try (left; split; [|done]; rewrite Hnil, !app_nil_r, requested_count_cb by done; done);
    right; rewrite Hr, decide_True by done; done.
Qed.

(** The error for the first instruction [x] that is not acceptable, after [pre]. *)
Definition rejection (pre : list (Key * SVMInstruction)) (x : Key * SVMInstruction) : TransactionError :=
  let index := wrap 8 (Z.of_nat (length pre)) in
  if decide (recognised x) then DuplicateInstruction index else InvalidInstructionError index.

Definition rejected_at (pre : list (Key * SVMInstruction)) (x : Key * SVMInstruction) : Prop :=
  x.1 = compute_budget_id /\ acceptable pre /\ ~ acceptable (pre ++ [x]).

Lemma acceptable_nil : acceptable [].
Proof. split; [done|]. intros k. unfold requests. simpl. lia. Qed.

Lemma requested_nil : requested [] = default_details migrating.
Proof. done. Qed.

Lemma budget_scan_spec keys instructions :
  indexed_by keys instructions ->
  (exists flags,
    try_fold (scan_request migrating) (replicate (FILTER_SIZE (Key := Key)) None, default_details migrating)
      (imap pair instructions) = Some (Ok (flags, requested instructions)) /\ acceptable instructions) \/
  (exists pre x post,
    try_fold (scan_request migrating) (replicate (FILTER_SIZE (Key := Key)) None, default_details migrating)
      (imap pair instructions) = Some (Err (rejection pre x)) /\
    instructions = pre ++ x :: post /\ rejected_at pre x).
Proof.
  intros Hidx.
  destruct (try_fold_inv (scan_request migrating)
    (fun done st => exists l, done = imap pair l /\
       Filter.sound (check_compute_budget_id migrating) keys (FILTER_SIZE (Key := Key)) st.1 /\
       acceptable l /\ st.2 = requested l)
    (fun done x e => exists l, done = imap pair l /\ rejected_at l x.2 /\ e = rejection l x.2)
    (imap pair instructions) (replicate (FILTER_SIZE (Key := Key)) None, default_details migrating))
    as [([flags d] & -> & l & Hl & _ & Ha & Hd) | (e & l1 & x & l2 & -> & Hl & pre & -> & Hrej & ->)].
  - exists []. split_and!; [done|apply Filter.sound_new|apply acceptable_nil|done].
  - intros l1 x l2 [flags d] Hl (l & -> & Hs & Ha & Hd). simpl in Hs, Hd. subst d.
    apply imap_pair_split in Hl as (k1 & [id ins] & k2 & Hk & Hl1 & ->).
    apply imap_pair_inj in Hl1 as ->.
    destruct (Hidx id ins) as [Hk1 Hlt]; [rewrite Hk; set_solver|].
    destruct (Filter.get_sound (check_compute_budget_id migrating) keys _ flags _ _ Hs Hk1 Hlt) as (flags' & Hg & Hs').
    unfold scan_request. simpl. rewrite Hg. simpl. rewrite (check_compute_budget_id_spec migrating).
    case_bool_decide as Hid.
    + subst id. destruct (process_instruction_spec k1 ins Ha) as [[-> Ha']|[-> Ha']].
      * left. eexists. split; [done|]. exists (k1 ++ [(compute_budget_id, ins)]). by rewrite imap_pair_snoc.
      * right. eexists. split; [done|]. by exists k1.
    + left. eexists. split; [done|]. exists (k1 ++ [(id, ins)]). simpl.
      rewrite imap_pair_snoc, (requested_other k1 (id, ins)) by done. split_and!; [done..| |done].
      by apply acceptable_other.
  - left. exists flags. simpl in Hd. subst d.
    by apply imap_pair_inj in Hl as ->.
  - right. apply imap_pair_split in Hl as (k1 & y & k2 & -> & Hl1 & ->). simpl in *.
    apply imap_pair_inj in Hl1 as ->. by exists k1, y, k2.
Qed.

Lemma kind_count_snoc kind l x :
  kind_count kind (l ++ [x]) = kind_count kind l + (if decide (kind_of migrating x.1 = kind) then 1 else 0).
Proof.
  unfold kind_count. rewrite filter_app, length_app, Nat2Z.inj_add. f_equal.
  rewrite filter_cons, filter_nil. by case_decide.
Qed.

Lemma kind_sat_snoc kind l x :
  Z.min (kind_count kind (l ++ [x])) (word_max 16) =
  if decide (kind_of migrating x.1 = kind) then sat_add 16 (Z.min (kind_count kind l) (word_max 16)) 1
  else Z.min (kind_count kind l) (word_max 16).
Proof.
  rewrite kind_count_snoc. unfold sat_add. case_decide; [by rewrite sat_count|by rewrite Z.add_0_r].
Qed.

Lemma migrating_counters_snoc l x index :
  kind_of migrating x.1 = MigratingBuiltin index ->
  (fun p => Z.min (kind_count (MigratingBuiltin p) (l ++ [x])) (word_max 16)) <$> seq 0 (length migrating) =
  <[index := sat_add 16 (Z.min (kind_count (MigratingBuiltin index) l) (word_max 16)) 1]>
    ((fun p => Z.min (kind_count (MigratingBuiltin p) l) (word_max 16)) <$> seq 0 (length migrating)).
Proof.
  intros Hx. apply list_eq. intros i. destruct (decide (i < length migrating)%nat) as [Hi|Hi].
  - rewrite list_lookup_fmap, lookup_seq_lt by done. simpl. rewrite kind_sat_snoc, Hx.
    destruct (decide (i = index)) as [->|Hne].
    + rewrite list_lookup_insert_eq, decide_True by (try rewrite length_fmap, length_seq; done). done.
    + rewrite list_lookup_insert_ne, decide_False by congruence.
      by rewrite list_lookup_fmap, lookup_seq_lt.
  - rewrite !lookup_ge_None_2; [done|..]; rewrite ?length_insert, length_fmap, length_seq; lia.
Qed.

Lemma migrating_counters_other l x :
  (forall index, kind_of migrating x.1 <> MigratingBuiltin index) ->
  (fun p => Z.min (kind_count (MigratingBuiltin p) (l ++ [x])) (word_max 16)) <$> seq 0 (length migrating) =
  (fun p => Z.min (kind_count (MigratingBuiltin p) l) (word_max 16)) <$> seq 0 (length migrating).
Proof. intros Hx. apply list_fmap_ext. intros _ p _. rewrite kind_sat_snoc. by rewrite decide_False. Qed.

Lemma counted_nil instructions : counted (requested instructions) [] = requested instructions.
Proof.
  unfold counted, requested, set_builtin_counters. simpl. f_equal.
  apply list_eq. intros i. rewrite list_lookup_fmap.
  destruct (decide (i < length migrating)%nat).
  - by rewrite lookup_seq_lt, lookup_replicate_2 by done.
  - rewrite lookup_seq_ge by lia. symmetry. apply lookup_replicate_None. lia.
Qed.

Lemma counted_snoc d l x : counted d (l ++ [x]) =
  match kind_of migrating x.1 with
  | Builtin => set_builtin_counters (counted d l)
      (sat_add 16 (num_non_migratable_builtin_instructions (counted d l)) 1)
      (num_non_builtin_instructions (counted d l)) (migrating_builtin (counted d l))
  | NotBuiltin => set_builtin_counters (counted d l)
      (num_non_migratable_builtin_instructions (counted d l))
      (sat_add 16 (num_non_builtin_instructions (counted d l)) 1) (migrating_builtin (counted d l))
  | MigratingBuiltin index => set_builtin_counters (counted d l)
      (num_non_migratable_builtin_instructions (counted d l))
      (num_non_builtin_instructions (counted d l))
      (<[index := sat_add 16 (Z.min (kind_count (MigratingBuiltin index) l) (word_max 16)) 1]>
         (migrating_builtin (counted d l)))
  end.
Proof.
  destruct (kind_of migrating x.1) as [| |index] eqn:Hx; unfold counted, set_builtin_counters; simpl;
    rewrite !kind_sat_snoc, Hx; simpl;
    [rewrite migrating_counters_other by congruence..|rewrite (migrating_counters_snoc _ _ index) by done]; done.
Qed.

Lemma count_spec keys instructions l :
  indexed_by keys l -> validate_position 0 migrating = true ->
  exists slots,
    foldM (count_builtin migrating) (replicate (FILTER_SIZE (Key := Key)) None, requested instructions) l =
    Some (slots, counted (requested instructions) l).
Proof.
  intros Hidx Hv. set (d := requested instructions).
  destruct (foldM_inv (count_builtin migrating)
    (fun pre st => Filter.sound (check_program_kind migrating) keys (FILTER_SIZE (Key := Key)) st.1 /\
                   st.2 = counted d pre) l [] (replicate (FILTER_SIZE (Key := Key)) None, d))
    as ([slots d'] & -> & _ & Hd'); [..|simpl in Hd'; subst d'; by exists slots].
  - split; [apply Filter.sound_new|]. symmetry. apply counted_nil.
  - intros pre [id ins] [slots d'] [Hs Hd'] Hin. simpl in Hs, Hd'. subst d'.
    destruct (Hidx id ins Hin) as [Hk1 Hlt].
    destruct (Filter.get_sound (check_program_kind migrating) keys _ slots _ _ Hs Hk1 Hlt) as (slots' & Hg & Hs').
    unfold count_builtin. simpl. rewrite Hg. simpl. rewrite (check_program_kind_of migrating), counted_snoc.
    simpl. destruct (kind_of migrating id) as [| |index] eqn:Hx; [by eexists..|].
    destruct (kind_of_migrating migrating id index Hv Hx) as [f Hf].
    assert (index < length migrating)%nat as Hi.
    { unfold get_migration_feature_id in Hf. destruct (migrating !! index) eqn:Hm; [|done]. by eapply lookup_lt_Some. }
    rewrite list_lookup_fmap, lookup_seq_lt by done. simpl. by eexists.
Qed.

Lemma acceptable_prefix l1 l2 : acceptable (l1 ++ l2) -> acceptable l1.
Proof.
  intros [Hr Hk]. split; [by apply Forall_app in Hr as [? _]|]. intros k. specialize (Hk k).
  unfold requests in *. rewrite imap_app, omap_app, length_app in Hk. lia.
Qed.

Lemma accepted_details keys l :
  indexed_by keys l -> validate_position 0 migrating = true -> acceptable l ->
  try_from migrating l = Some (Ok (details_of l)).
Proof.
  intros Hidx Hv Ha. unfold try_from.
  destruct (budget_scan_spec keys l Hidx) as [(flags & -> & _) | (pre & x & post & _ & Hl & _ & _ & Hrej)].
  - simpl. unfold details_of. destruct (requests UnitLimit l) as [|r rs]; simpl; [|done].
    destruct (count_spec keys l l Hidx Hv) as [slots ->]. done.
  - destruct Hrej. apply (acceptable_prefix _ post). rewrite <- app_assoc. simpl. by rewrite <- Hl.
Qed.

(** Reading a message's compute-budget requests, the scan accepts exactly
    the instruction lists in which every compute-budget instruction is known
    and no kind of request is repeated. On an accepted list the details are
    the requests with their instruction indices and the numbers of
    instructions by kind of program, counted only when no compute unit limit
    is requested; otherwise the error names the first offending instruction.
    The per-index caches and the first-byte table of builtin ids never change
    the answer and no index check panics. *)
Lemma compute_budget_details_exact keys instructions :
  indexed_by keys instructions -> validate_position 0 migrating = true ->
  (acceptable instructions /\ try_from migrating instructions = Some (Ok (details_of instructions))) \/
  (exists pre x post, instructions = pre ++ x :: post /\ rejected_at pre x /\
    try_from migrating instructions = Some (Err (rejection pre x))).
Proof.
  intros Hidx Hv.
  destruct (budget_scan_spec keys instructions Hidx) as [(flags & _ & Ha) | (pre & x & post & Hs & Hl & Hrej)].
  - left. split; [done|]. by apply (accepted_details keys).
  - right. exists pre, x, post. split_and!; [done..|]. unfold try_from. by rewrite Hs.
Qed.

(** *** The limits *)

(** The compute units one instruction gets when no limit is requested. *)
Definition default_units (fs : FeatureSet Key) (x : Key * SVMInstruction) : Z :=
  match kind_of migrating x.1 with
  | Builtin => MAX_BUILTIN_ALLOCATION_COMPUTE_UNIT_LIMIT
  | NotBuiltin => DEFAULT_INSTRUCTION_COMPUTE_UNIT_LIMIT
  | MigratingBuiltin index =>
      if get_migration_feature_id migrating index is Some feature then
        if is_active fs feature then DEFAULT_INSTRUCTION_COMPUTE_UNIT_LIMIT
        else MAX_BUILTIN_ALLOCATION_COMPUTE_UNIT_LIMIT
      else MAX_BUILTIN_ALLOCATION_COMPUTE_UNIT_LIMIT
  end.

(** The compute units of a transaction, before clamping. *)
Definition units_of (instructions : list (Key * SVMInstruction)) (fs : FeatureSet Key) : Z :=
  match requests UnitLimit instructions with
  | (_, requested) :: _ => requested
  | [] => Zsum (default_units fs) instructions
  end.

(** The limits of acceptable instructions. *)
Definition limits_of (instructions : list (Key * SVMInstruction)) (fs : FeatureSet Key) :
    result TransactionError ComputeBudgetLimits :=
  let price := match requests UnitPrice instructions with (_, requested) :: _ => requested | [] => 0 end in
  let limits heap loaded := MkLimits heap (Z.min (units_of instructions fs) MAX_COMPUTE_UNIT_LIMIT) price
                              (Z.min loaded MAX_LOADED_ACCOUNTS_DATA_SIZE_BYTES) in
  match requests HeapFrame instructions, requests LoadedLimit instructions with
  | (index, heap) :: _, loaded =>
      if sanitize_requested_heap_size (Key := Key) heap then
        match loaded with
        | (_, bytes) :: _ =>
            if bytes =? 0 then Err InvalidLoadedAccountsDataSizeLimit else Ok (limits heap bytes)
        | [] => Ok (limits heap MAX_LOADED_ACCOUNTS_DATA_SIZE_BYTES)
        end
      else Err (InvalidInstructionError index)
  | [], (_, bytes) :: _ =>
      if bytes =? 0 then Err InvalidLoadedAccountsDataSizeLimit
      else Ok (limits (MIN_HEAP_FRAME_BYTES (Key := Key)) bytes)
  | [], [] => Ok (limits (MIN_HEAP_FRAME_BYTES (Key := Key)) MAX_LOADED_ACCOUNTS_DATA_SIZE_BYTES)
  end.

(** Is the migration at a position of the table complete? *)
Definition migrated (fs : FeatureSet Key) (index : nat) : bool :=
  if get_migration_feature_id migrating index is Some feature then is_active fs feature else false.

Definition migrating_instr (fs : FeatureSet Key) (b : bool) (x : Key * SVMInstruction) : Z :=
  if kind_of migrating x.1 is MigratingBuiltin index then
    if Bool.eqb (migrated fs index) b then 1 else 0
  else 0.

Definition counter_part (fs : FeatureSet Key) (b : bool) (x : nat * Z) : Z :=
  if Bool.eqb (migrated fs x.1) b then x.2 else 0.

Lemma validate_position_feature :
  validate_position 0 migrating = true ->
  forall i, (i < length migrating)%nat -> is_Some (get_migration_feature_id migrating i).
Proof.
  intros Hv i Hi. destruct (lookup_lt_is_Some_2 migrating i Hi) as [[k c] Hk].
  destruct (validate_position_lookup _ _ _ _ _ Hv Hk) as [f ->].
  unfold get_migration_feature_id. rewrite Hk. simpl. eauto.
Qed.

Lemma split_migrated_spec fs (counters : list Z) :
  validate_position 0 migrating = true -> (length counters <= length migrating)%nat ->
  Forall (fun c => 0 <= c) counters ->
  foldM (split_migrated migrating fs) (0, 0) (imap pair counters) =
  Some (wrap 16 (Zsum (counter_part fs true) (imap pair counters)),
        wrap 16 (Zsum (counter_part fs false) (imap pair counters))).
Proof.
  intros Hv Hlen Hpos.
  destruct (foldM_inv (split_migrated migrating fs)
    (fun pre acc => acc = (wrap 16 (Zsum (counter_part fs true) pre), wrap 16 (Zsum (counter_part fs false) pre)))
    (imap pair counters) [] (0, 0)) as (acc & -> & ->); [done| |done].
  intros pre [i c] acc -> Hin.
  apply elem_of_lookup_imap in Hin as (j & d & Hd & Hj). simplify_eq.
  assert (j < length migrating)%nat as Hlt by (apply lookup_lt_Some in Hj; lia).
  destruct (validate_position_feature Hv j Hlt) as [f Hf].
  assert (0 <= d) by (eapply Forall_lookup in Hpos; eauto).
  assert (migrated fs j = is_active fs f) as Hm by (unfold migrated; by rewrite Hf).
  rewrite !Zsum_app. unfold split_migrated. simpl. rewrite Hf. simpl.
  assert (forall b, counter_part fs b (j, d) = if Bool.eqb (is_active fs f) b then d else 0) as counter_part_at
    by (intros b; unfold counter_part; simpl; by rewrite Hm).
  rewrite !Z.add_0_r, !counter_part_at. destruct (is_active fs f), (0 <? d) eqn:Hpd; bool_to_prop; simpl;
    (eexists; split; [done|]); rewrite ?wadd_wrap by lia; repeat f_equal; lia.
Qed.

Lemma kind_count_Zsum kind l :
  kind_count kind l = Zsum (fun x => if decide (kind_of migrating x.1 = kind) then 1 else 0) l.
Proof. apply Zsum_length. Qed.

Lemma kind_count_bound kind l : 0 <= kind_count kind l <= Z.of_nat (length l).
Proof. unfold kind_count. pose proof (length_filter (fun x => kind_of migrating x.1 = kind) l). lia. Qed.

(** Adding the counters up by position counts each migrating instruction once. *)
Lemma counters_total fs b l :
  validate_position 0 migrating = true ->
  Zsum (fun p => counter_part fs b (p, kind_count (MigratingBuiltin p) l)) (seq 0 (length migrating)) =
  Zsum (migrating_instr fs b) l.
Proof.
  intros Hv. induction l as [|x l IH].
  { apply Zsum_zero. intros p _. unfold counter_part, kind_count. simpl. by case_match. }
  rewrite Zsum_cons, <- IH.
  rewrite (Zsum_ext _ (fun p => (if decide (kind_of migrating x.1 = MigratingBuiltin p) then
    (if Bool.eqb (migrated fs p) b then 1 else 0) else 0) + counter_part fs b (p, kind_count (MigratingBuiltin p) l))).
  2: { intros p _. unfold counter_part. simpl. rewrite !kind_count_Zsum, Zsum_cons.
       by repeat case_match. }
  rewrite Zsum_plus. f_equal. unfold migrating_instr.
  destruct (kind_of migrating x.1) as [| |index] eqn:Hx; [by apply Zsum_zero..|].
  rewrite (Zsum_ext _ (fun p => if decide (p = index) then (if Bool.eqb (migrated fs p) b then 1 else 0) else 0)).
  2: { intros p _. by repeat case_decide; simplify_eq. }
  rewrite Zsum_delta by apply NoDup_seq. rewrite decide_True; [done|].
  destruct (kind_of_migrating migrating _ _ Hv Hx) as [f Hf]. unfold get_migration_feature_id in Hf.
  destruct (migrating !! index) eqn:Hm; [|done]. apply lookup_lt_Some in Hm. apply elem_of_seq. lia.
Qed.

Lemma imap_pair_seq (f : nat -> Z) n : imap pair (f <$> seq 0 n) = (fun p => (p, f p)) <$> seq 0 n.
Proof.
  apply list_eq. intros i. rewrite list_lookup_imap, !list_lookup_fmap.
  destruct (decide (i < n)%nat); [by rewrite !lookup_seq_lt|by rewrite !lookup_seq_ge by lia].
Qed.

Lemma default_units_split fs x :
  validate_position 0 migrating = true ->
  default_units fs x =
  MAX_BUILTIN_ALLOCATION_COMPUTE_UNIT_LIMIT *
    ((if decide (kind_of migrating x.1 = Builtin) then 1 else 0) + migrating_instr fs false x) +
  DEFAULT_INSTRUCTION_COMPUTE_UNIT_LIMIT *
    ((if decide (kind_of migrating x.1 = NotBuiltin) then 1 else 0) + migrating_instr fs true x).
Proof.
  intros Hv. unfold default_units, migrating_instr, migrated.
  destruct (kind_of migrating x.1) as [| |index] eqn:Hx; simpl; [lia..|].
  destruct (get_migration_feature_id migrating index); simpl; [destruct (is_active _ _); simpl|]; lia.
Qed.

Lemma kinds_bound fs b kind l :
  (forall index, kind <> MigratingBuiltin index) ->
  0 <= kind_count kind l + Zsum (migrating_instr fs b) l <= Z.of_nat (length l).
Proof.
  intros Hk. rewrite kind_count_Zsum, <- Zsum_plus. split.
  - apply Zsum_nonneg. intros x _. unfold migrating_instr. repeat case_match; lia.
  - transitivity (Zsum (fun _ => 1) l).
    + apply Zsum_le. intros x _. unfold migrating_instr. repeat case_match; try lia. congruence.
    + clear. induction l as [|x l IH]; [done|]. rewrite Zsum_cons. simpl length. lia.
Qed.

Lemma default_limit_spec fs d l :
  validate_position 0 migrating = true -> Z.of_nat (length l) <= word_max 16 ->
  exists v, calculate_default_compute_unit_limit migrating (counted d l) fs = Some v /\
    Z.min v MAX_COMPUTE_UNIT_LIMIT = Z.min (Zsum (default_units fs) l) MAX_COMPUTE_UNIT_LIMIT.
Proof.
  intros Hv Hlen.
  assert (forall kind, Z.min (kind_count kind l) (word_max 16) = kind_count kind l) as Hsat
    by (intros kind; pose proof (kind_count_bound kind l); lia).
  unfold calculate_default_compute_unit_limit, counted, set_builtin_counters. simpl.
  rewrite (list_fmap_ext _ (fun p => kind_count (MigratingBuiltin p) l)) by (intros; apply Hsat).
  rewrite !Hsat, split_migrated_spec; [|done|by rewrite length_fmap, length_seq|].
  2: { apply Forall_fmap, Forall_forall. intros p _. apply kind_count_bound. }
  simpl. eexists. split; [done|]. rewrite imap_pair_seq, !Zsum_fmap, !counters_total by done.
  rewrite (Zsum_ext (default_units fs) _ l (fun x _ => default_units_split fs x Hv)).
  rewrite Zsum_plus, !Zsum_scale, !Zsum_plus, <- !kind_count_Zsum.
  pose proof (kinds_bound fs false Builtin l ltac:(done)).
  pose proof (kinds_bound fs true NotBuiltin l ltac:(done)).
  pose proof (kind_count_bound Builtin l). pose proof (kind_count_bound NotBuiltin l).
  assert (forall b, 0 <= Zsum (migrating_instr fs b) l) as Hm.
  { intros b. apply Zsum_nonneg. intros x _. unfold migrating_instr. repeat case_match; lia. }
  pose proof (Hm true). pose proof (Hm false).
  unfold word_max in Hlen. rewrite !wrap_small by lia.
  unfold sat_add, sat_mul, word_max, MAX_COMPUTE_UNIT_LIMIT, MAX_BUILTIN_ALLOCATION_COMPUTE_UNIT_LIMIT,
    DEFAULT_INSTRUCTION_COMPUTE_UNIT_LIMIT. lia.
Qed.

Definition limits_bounded (limits : ComputeBudgetLimits) : Prop :=
  MIN_HEAP_FRAME_BYTES (Key := Key) <= updated_heap_bytes limits <= MAX_HEAP_FRAME_BYTES /\
  0 <= compute_unit_limit limits <= MAX_COMPUTE_UNIT_LIMIT /\
  0 < loaded_accounts_bytes limits <= MAX_LOADED_ACCOUNTS_DATA_SIZE_BYTES.

Lemma requests_decoded k l i v :
  (i, v) ∈ requests k l -> exists instr ins, decode_compute_budget (Key := Key) (data ins) = Some instr /\
    request_of instr = Some (k, v).
Proof.
  unfold requests. intros Hin. apply list_elem_of_omap in Hin as ([j [id ins]] & _ & Ha).
  unfold asks in Ha. case_decide; [|done].
  destruct (decode_compute_budget (data ins)) as [instr|] eqn:Hd; [|done]. simpl in Ha.
  destruct (request_of instr) as [[k' v']|] eqn:Hr; [|done]. simpl in Ha. case_decide; simplify_eq. eauto.
Qed.

Lemma request_nonneg k l i v : k <> UnitPrice -> (i, v) ∈ requests k l -> 0 <= v.
Proof.
  intros Hk (instr & ins & Hd & Hr)%requests_decoded. apply decode_in_range in Hd.
  destruct instr; simplify_eq/=; unfold in_word in Hd; lia.
Qed.

Lemma units_of_nonneg l fs : 0 <= units_of l fs.
Proof.
  unfold units_of. destruct (requests UnitLimit l) as [|[i v] rs] eqn:Hr.
  - apply Zsum_nonneg. intros x _. unfold default_units. repeat case_match; done.
  - apply (request_nonneg UnitLimit l i v); [done|]. rewrite Hr. set_solver.
Qed.

Lemma limits_of_bounded l fs limits :
  0 <= HEAP_LENGTH (Key := Key) <= MAX_HEAP_FRAME_BYTES -> limits_of l fs = Ok limits -> limits_bounded limits.
Proof.
  intros Hheap Hl. pose proof (units_of_nonneg l fs) as Hu.
  assert (forall i v rs, requests LoadedLimit l = (i, v) :: rs -> 0 <= v) as Hld.
  { intros i v rs Hr. apply (request_nonneg LoadedLimit l i v); [done|]. rewrite Hr. set_solver. }
  unfold limits_bounded, limits_of, sanitize_requested_heap_size, MIN_HEAP_FRAME_BYTES,
    MAX_COMPUTE_UNIT_LIMIT, MAX_LOADED_ACCOUNTS_DATA_SIZE_BYTES in *.
  destruct (requests HeapFrame l) as [|[i h] hs], (requests LoadedLimit l) as [|[j b] bs];
    try (pose proof (Hld _ _ _ eq_refl)); repeat case_match; simplify_eq; bool_to_prop; simpl; lia.
Qed.

Lemma sanitize_spec l fs :
  validate_position 0 migrating = true -> Z.of_nat (length l) <= word_max 16 ->
  0 <= HEAP_LENGTH (Key := Key) <= MAX_HEAP_FRAME_BYTES ->
  sanitize_and_convert_to_compute_budget_limits migrating (details_of l) fs = Some (limits_of l fs).
Proof.
  intros Hv Hlen Hheap.
  assert (exists v, match requested_compute_unit_limit (details_of l) with
      | None => calculate_default_compute_unit_limit migrating (details_of l) fs
      | Some (_, v) => Some v end = Some v /\
    Z.min v MAX_COMPUTE_UNIT_LIMIT = Z.min (units_of l fs) MAX_COMPUTE_UNIT_LIMIT) as (v & Hv1 & Hv2).
  { unfold units_of, details_of. destruct (requests UnitLimit l) as [|[i v] rs] eqn:Hr.
    - unfold requested. simpl. rewrite Hr. simpl.
      apply (default_limit_spec fs (requested l) l Hv Hlen).
    - unfold requested. simpl. rewrite Hr. simpl. eauto. }
  unfold sanitize_and_convert_to_compute_budget_limits. rewrite Hv1.
  assert (requested_heap_size (details_of l) = head (requests HeapFrame l) /\
    requested_compute_unit_price (details_of l) = head (requests UnitPrice l) /\
    requested_loaded_accounts_data_size_limit (details_of l) = head (requests LoadedLimit l)) as (-> & -> & ->).
  { unfold details_of. by destruct (requests UnitLimit l). }
  unfold limits_of. simpl. rewrite Hv2. unfold sanitize_requested_heap_size, MIN_HEAP_FRAME_BYTES.
  destruct (requests HeapFrame l) as [|[i h] hs], (requests LoadedLimit l) as [|[j b] bs],
    (requests UnitPrice l) as [|[p q] ps]; simpl; repeat case_match; simplify_eq; bool_to_prop;
    rewrite ?(Z.min_l _ MAX_HEAP_FRAME_BYTES) by lia; done.
Qed.

(** For acceptable instructions the limits are those requested, clamped to
    their maxima; without a request the compute unit limit is 3,000 units per
    builtin instruction and 200,000 per other instruction, a migrating builtin
    counting by whether its migration feature is active. A heap request that
    is out of range or not a multiple of 1024 and a zero data-size request are
    errors, and limits that are returned are within their bounds. The 16-bit
    counters and the saturating 32-bit arithmetic never distort the result. *)
Lemma compute_budget_limits_exact keys instructions fs :
  indexed_by keys instructions -> validate_position 0 migrating = true ->
  Z.of_nat (length instructions) <= word_max 16 -> acceptable instructions ->
  0 <= HEAP_LENGTH (Key := Key) <= MAX_HEAP_FRAME_BYTES ->
  process_compute_budget_instructions migrating instructions fs = Some (limits_of instructions fs) /\
  forall limits, limits_of instructions fs = Ok limits -> limits_bounded limits.
Proof.
  intros Hidx Hv Hlen Ha Hheap. split; [|intros limits; by apply limits_of_bounded].
  unfold process_compute_budget_instructions. rewrite (accepted_details keys) by done. simpl.
  apply sanitize_spec; done.
Qed.
End Spec.

(** *** A concrete message *)

Module SampleSdk.

Definition decode (data : list Z) : option ComputeBudgetInstruction :=
  match data with
  | [1; v] => if (0 <=? v) && (v <=? word_max 32) then Some (RequestHeapFrame v) else None
  | [2; v] => if (0 <=? v) && (v <=? word_max 32) then Some (SetComputeUnitLimit v) else None
  | [3; v] => if (0 <=? v) && (v <=? word_max 64) then Some (SetComputeUnitPrice v) else None
  | [4; v] => if (0 <=? v) && (v <=? word_max 32) then Some (SetLoadedAccountsDataSizeLimit v) else None
  | _ => None
  end.

#[export] Instance nat_sdk : Sdk nat := {
  vote_id := 1%nat;
  system_program_id := 2%nat;
  compute_budget_id := 3%nat;
  bpf_loader_upgradeable_id := 4%nat;
  bpf_loader_deprecated_id := 5%nat;
  bpf_loader_id := 6%nat;
  loader_v4_id := 7%nat;
  secp256k1_program_id := 8%nat;
  ed25519_program_id := 9%nat;
  secp256r1_program_id := 10%nat;
  first_byte := fun key => (key mod 256)%nat;
  HEAP_LENGTH := 32768;
  PACKET_DATA_SIZE := 1232;
  decode_compute_budget := decode
}.

#[export] Instance nat_sdk_laws : SdkLaws nat.
Proof.
  split.
  - intros key. apply Nat.mod_upper_bound. lia.
  - intros data i Hd. simpl in Hd. unfold decode in Hd. unfold in_word.
    repeat case_match; simplify_eq; bool_to_prop; lia.
Qed.

(** A price request, a transfer by the system program and a call of another program. *)
Definition message_keys : list nat := [3; 2; 100]%nat.
Definition message_instructions : list (nat * SVMInstruction) :=
  [(3%nat, MkInstruction 0 [] [3; 5000]); (2%nat, MkInstruction 1 [] [2; 0]);
   (100%nat, MkInstruction 2 [] [7])].

Lemma sample_indexed : indexed_by message_keys message_instructions.
Proof.
  intros id ins Hin. unfold message_instructions in Hin.
  repeat (apply elem_of_cons in Hin as [Hin|Hin]; [simplify_eq; split; [done|vm_compute; lia]|]).
  by apply elem_of_nil in Hin.
Qed.

Lemma sample_acceptable : acceptable message_instructions.
Proof.
  split; [|intros []; vm_compute; lia].
  repeat (apply Forall_cons; split; [intros Hid; vm_compute in Hid; first [discriminate Hid|vm_compute; eexists; reflexivity]|]).
  done.
Qed.

End SampleSdk.
Import SampleSdk.

End Details.

(** ** Precompile signatures *)

Module Signatures.

Record PrecompileSignatureDetails : Type := MkSignatureDetails {
  num_secp256k1_instruction_signatures : Z;
  num_ed25519_instruction_signatures : Z;
  num_secp256r1_instruction_signatures : Z
}.

Inductive ProgramIdStatus : Type := NotSignature | Secp256k1 | Ed25519 | Secp256r1.

#[global] Instance ProgramIdStatus_eq_dec : EqDecision ProgramIdStatus.
Proof. solve_decision. Defined.

(** [u64::from(instruction.data.first().copied().unwrap_or(0))]. *)
Definition get_num_signatures_in_instruction (instruction : SVMInstruction) : Z :=
  default 0 (head (data instruction)).

Section Signatures.
Context {Key : Type} `{Countable Key} `{!Sdk Key}.

Definition check_program_id (program_id : Key) : ProgramIdStatus :=
  if decide (program_id = secp256k1_program_id) then Secp256k1
  else if decide (program_id = ed25519_program_id) then Ed25519
  else if decide (program_id = secp256r1_program_id) then Secp256r1
  else NotSignature.

Definition process_signature_instruction (st : list (option ProgramIdStatus) * PrecompileSignatureDetails)
    (x : Key * SVMInstruction) : option (list (option ProgramIdStatus) * PrecompileSignatureDetails) :=
  let '(program_id, instruction) := x in
  let 'MkSignatureDetails k1 ed r1 := st.2 in
  '(status, flags) ← Filter.get_or_insert_with st.1 (program_id_index instruction)
                       (check_program_id program_id);
  let n := get_num_signatures_in_instruction instruction in
  Some (flags, match status with
               | NotSignature => MkSignatureDetails k1 ed r1
               | Secp256k1 => MkSignatureDetails (wadd 64 k1 n) ed r1
               | Ed25519 => MkSignatureDetails k1 (wadd 64 ed n) r1
               | Secp256r1 => MkSignatureDetails k1 ed (wadd 64 r1 n)
               end).

Definition get_precompile_signature_details (instructions : list (Key * SVMInstruction)) :
    option PrecompileSignatureDetails :=
  st ← foldM process_signature_instruction
         (replicate (Details.FILTER_SIZE (Key := Key)) None, MkSignatureDetails 0 0 0) instructions;
  Some st.2.

(** The signatures that instructions of one precompile verify. *)
Definition signatures (status : ProgramIdStatus) (instructions : list (Key * SVMInstruction)) : Z :=
  Zsum (fun x => if decide (check_program_id x.1 = status) then get_num_signatures_in_instruction x.2 else 0)
    instructions.

(** Instruction data are bytes. *)
Definition byte_data (instructions : list (Key * SVMInstruction)) : Prop :=
  Forall (fun x => Forall (fun b => in_word 8 b) (data x.2)) instructions.

Lemma signatures_bound status l :
  byte_data l -> 0 <= signatures status l <= 255 * Z.of_nat (length l).
Proof.
  intros Hl. induction Hl as [|x l Hx _ IH]; unfold signatures in *; simpl; [lia|].
  assert (0 <= get_num_signatures_in_instruction x.2 <= 255) as Hn.
  { unfold get_num_signatures_in_instruction. destruct Hx as [|b bs Hb _]; simpl; [lia|].
    unfold in_word, word_max in Hb. lia. }
  case_decide; lia.
Qed.

Lemma signatures_snoc status l x :
  signatures status (l ++ [x]) = signatures status l +
    (if decide (check_program_id x.1 = status) then get_num_signatures_in_instruction x.2 else 0).
Proof. unfold signatures. rewrite Zsum_app. simpl. lia. Qed.

Lemma signatures_fold keys instructions :
  Details.indexed_by keys instructions ->
  get_precompile_signature_details instructions =
  Some (MkSignatureDetails (wrap 64 (signatures Secp256k1 instructions))
          (wrap 64 (signatures Ed25519 instructions)) (wrap 64 (signatures Secp256r1 instructions))).
Proof.
  intros Hidx. unfold get_precompile_signature_details.
  destruct (foldM_inv process_signature_instruction
    (fun pre st => Filter.sound check_program_id keys (Details.FILTER_SIZE (Key := Key)) st.1 /\
       st.2 = MkSignatureDetails (wrap 64 (signatures Secp256k1 pre)) (wrap 64 (signatures Ed25519 pre))
                (wrap 64 (signatures Secp256r1 pre)))
    instructions [] (replicate (Details.FILTER_SIZE (Key := Key)) None, MkSignatureDetails 0 0 0))
    as ([flags d] & -> & _ & Hd); [..|simpl in Hd; by subst d].
  - split; [apply Filter.sound_new|done].
  - intros pre [id ins] [flags d] [Hs Hd] Hin. simpl in Hs, Hd. subst d.
    destruct (Hidx id ins Hin) as [Hk1 Hlt].
    destruct (Filter.get_sound check_program_id keys _ flags _ _ Hs Hk1 Hlt) as (flags' & Hg & Hs').
    unfold process_signature_instruction. simpl. rewrite Hg. simpl. eexists. split; [done|].
    split; [done|]. rewrite !signatures_snoc. simpl. destruct (check_program_id id); simpl;
      rewrite ?wadd_wrap, ?Z.add_0_r by lia; done.
Qed.

(** the signature counts of a message are, for each precompile, the sum of
    the leading data bytes of its instructions; the 64-bit counters do not
    wrap and no filter index panics. *)
Theorem precompile_signatures_exact keys instructions :
  Details.indexed_by keys instructions -> byte_data instructions ->
  Z.of_nat (length instructions) < 2 ^ 32 ->
  get_precompile_signature_details instructions =
  Some (MkSignatureDetails (signatures Secp256k1 instructions) (signatures Ed25519 instructions)
          (signatures Secp256r1 instructions)).
Proof.
  intros Hidx Hb Hlen. rewrite (signatures_fold keys) by done.
  rewrite !wrap_small; [done|..]; pose proof (signatures_bound Secp256k1 _ Hb);
    pose proof (signatures_bound Ed25519 _ Hb); pose proof (signatures_bound Secp256r1 _ Hb); lia.
Qed.

End Signatures.

Import Details.SampleSdk.

(** Two secp256k1 instructions around one ed25519 instruction. *)
Definition signed_instructions : list (nat * SVMInstruction) :=
  [(8%nat, MkInstruction 0 [] [2; 0]); (9%nat, MkInstruction 1 [] [1]); (8%nat, MkInstruction 0 [] [3])].

End Signatures.
