(* ===== verification/CostModel.v ===== *)
(** * The cost model

    What a transaction is charged against the limits of a block, in compute
    units: [TransactionCost] (cost-model/src/transaction_cost.rs), the
    constants of block_cost_limits.rs and [CostModel] (cost_model.rs), which
    estimates the cost before execution ([calculate_cost]) and computes it
    after execution ([calculate_cost_for_executed_transaction]). *)

From S2P Require Import Prelude Accounts ComputeBudget.
Import Builtins.

(** ** Interfaces *)

(** [TransactionSignatureDetails]. *)
Record TransactionSignatureDetails : Type := MkTransactionSignatures {
  tx_signatures : Z;
  secp256k1_signatures : Z;
  ed25519_signatures : Z;
  secp256r1_signatures : Z
}.

(** The traits [StaticMeta] and the rest of [SVMMessage]. *)
Class StaticMeta (Key Tx : Type) : Type := {
  is_simple_vote_transaction : Tx -> bool;
  signature_details : Tx -> TransactionSignatureDetails;
  compute_budget_instruction_details : Tx -> Details.ComputeBudgetInstructionDetails;
  instruction_data_len : Tx -> Z;
  program_instructions_iter : Tx -> list (Key * SVMInstruction);
  num_write_locks : Tx -> Z
}.

(** [SystemInstruction], by the account space it asks for. *)
Inductive SystemInstruction : Type :=
| CreateAccount (space : Z)
| CreateAccountWithSeed (space : Z)
| Allocate (space : Z)
| AllocateWithSeed (space : Z)
| OtherSystemInstruction.

(** What the cost model takes from the SDK crates and the feature set: the
    memory cost of [FeeStructure], the system program's instructions and
    allocation bounds, and two feature ids. *)
Class CostSdk (Key : Type) : Type := {
  calculate_memory_usage_cost : Z -> Z -> Z;
  decode_system : list Z -> option SystemInstruction;
  MAX_PERMITTED_DATA_LENGTH : Z;
  MAX_PERMITTED_ACCOUNTS_DATA_ALLOCATIONS_PER_TRANSACTION : Z;
  ed25519_precompile_verify_strict_id : Key;
  enable_secp256r1_precompile_id : Key
}.

(** Memory is charged per page of 32K, a started page in full; sizes are
    [u64]s. *)
Class CostSdkLaws (Key : Type) `{CostSdk Key} : Prop := {
  memory_cost_bound : forall size heap_cost, 0 <= size -> 0 <= heap_cost ->
    0 <= calculate_memory_usage_cost (Key := Key) size heap_cost <= (size / 32768 + 1) * heap_cost;
  memory_cost_mono : forall size1 size2 heap_cost, 0 <= size1 <= size2 -> 0 <= heap_cost ->
    calculate_memory_usage_cost (Key := Key) size1 heap_cost <=
    calculate_memory_usage_cost (Key := Key) size2 heap_cost;
  decode_system_space : forall data i, decode_system (Key := Key) data = Some i ->
    match i with
    | CreateAccount s | CreateAccountWithSeed s | Allocate s | AllocateWithSeed s => in_word 64 s
    | OtherSystemInstruction => True
    end;
  permitted_data_length : in_word 64 (MAX_PERMITTED_DATA_LENGTH (Key := Key));
  permitted_allocations : in_word 64 (MAX_PERMITTED_ACCOUNTS_DATA_ALLOCATIONS_PER_TRANSACTION (Key := Key))
}.

(** ** block_cost_limits.rs *)

Module Limits.

Definition COMPUTE_UNIT_TO_US_RATIO : Z := 30.
Definition SIGNATURE_COST : Z := COMPUTE_UNIT_TO_US_RATIO * 24.
Definition SECP256K1_VERIFY_COST : Z := COMPUTE_UNIT_TO_US_RATIO * 223.
Definition ED25519_VERIFY_COST : Z := COMPUTE_UNIT_TO_US_RATIO * 76.
Definition ED25519_VERIFY_STRICT_COST : Z := COMPUTE_UNIT_TO_US_RATIO * 80.
Definition SECP256R1_VERIFY_COST : Z := COMPUTE_UNIT_TO_US_RATIO * 160.
Definition WRITE_LOCK_UNITS : Z := COMPUTE_UNIT_TO_US_RATIO * 10.
Definition INSTRUCTION_DATA_BYTES_COST : Z := 140 / COMPUTE_UNIT_TO_US_RATIO.
Definition MAX_BLOCK_UNITS_SIMD_0256 : Z := 60_000_000.
Definition MAX_BLOCK_UNITS : Z := MAX_BLOCK_UNITS_SIMD_0256.
Definition MAX_WRITABLE_ACCOUNT_UNITS : Z := 12_000_000.
Definition MAX_VOTE_UNITS : Z := 36_000_000.
Definition MAX_BLOCK_ACCOUNTS_DATA_SIZE_DELTA : Z := 100_000_000.

(** [solana_vote_program::vote_processor]. *)
Definition VOTE_DEFAULT_COMPUTE_UNITS : Z := 2_100.

End Limits.
Import Limits.

(** ** transaction_cost.rs *)

Module Cost.

Definition SIMPLE_VOTE_USAGE_COST : Z := 3428.

Record UsageCostDetails (Tx : Type) : Type := MkUsage {
  usage_transaction : Tx;
  usage_signature_cost : Z;
  usage_write_lock_cost : Z;
  usage_data_bytes_cost : Z;
  usage_programs_execution_cost : Z;
  usage_loaded_accounts_data_size_cost : Z;
  usage_allocated_accounts_data_size : Z
}.
Arguments MkUsage {Tx}.
Arguments usage_transaction {Tx}.
Arguments usage_signature_cost {Tx}.
Arguments usage_write_lock_cost {Tx}.
Arguments usage_data_bytes_cost {Tx}.
Arguments usage_programs_execution_cost {Tx}.
Arguments usage_loaded_accounts_data_size_cost {Tx}.
Arguments usage_allocated_accounts_data_size {Tx}.

Inductive TransactionCost (Tx : Type) : Type :=
| SimpleVote (transaction : Tx)
| Transaction (usage_cost : UsageCostDetails Tx).
Arguments SimpleVote {Tx} transaction.
Arguments Transaction {Tx} usage_cost.

Section Cost.
Context {Tx : Type}.

Definition usage_sum (u : UsageCostDetails Tx) : Z :=
  sat_add 64 (sat_add 64 (sat_add 64 (sat_add 64 (usage_signature_cost u) (usage_write_lock_cost u))
    (usage_data_bytes_cost u)) (usage_programs_execution_cost u)) (usage_loaded_accounts_data_size_cost u).

Definition sum (c : TransactionCost Tx) : Z :=
  match c with
  | SimpleVote _ => SIMPLE_VOTE_USAGE_COST
  | Transaction u => usage_sum u
  end.

Definition programs_execution_cost (c : TransactionCost Tx) : Z :=
  match c with
  | SimpleVote _ => VOTE_DEFAULT_COMPUTE_UNITS
  | Transaction u => usage_programs_execution_cost u
  end.

Definition is_simple_vote (c : TransactionCost Tx) : bool :=
  match c with
  | SimpleVote _ => true
  | Transaction _ => false
  end.

Definition data_bytes_cost (c : TransactionCost Tx) : Z :=
  match c with
  | SimpleVote _ => 0
  | Transaction u => usage_data_bytes_cost u
  end.

Definition allocated_accounts_data_size (c : TransactionCost Tx) : Z :=
  match c with
  | SimpleVote _ => 0
  | Transaction u => usage_allocated_accounts_data_size u
  end.

Definition loaded_accounts_data_size_cost (c : TransactionCost Tx) : Z :=
  match c with
  | SimpleVote _ => 8
  | Transaction u => usage_loaded_accounts_data_size_cost u
  end.

Definition signature_cost (c : TransactionCost Tx) : Z :=
  match c with
  | SimpleVote _ => SIGNATURE_COST
  | Transaction u => usage_signature_cost u
  end.

Definition write_lock_cost (c : TransactionCost Tx) : Z :=
  match c with
  | SimpleVote _ => sat_mul 64 WRITE_LOCK_UNITS 2
  | Transaction u => usage_write_lock_cost u
  end.

Definition cost_transaction (c : TransactionCost Tx) : Tx :=
  match c with
  | SimpleVote tx => tx
  | Transaction u => usage_transaction u
  end.

(** The keys a transaction writes, in order. *)
Definition writable_keys {Key} `{SVMMessage Key Tx} (transaction : Tx) : list Key :=
  omap (fun x => if is_writable transaction x.1 then Some x.2 else None)
    (imap pair (account_keys transaction)).

Definition writable_accounts {Key} `{SVMMessage Key Tx} (c : TransactionCost Tx) : list Key :=
  writable_keys (cost_transaction c).

Definition num_transaction_signatures {Key} `{StaticMeta Key Tx} (c : TransactionCost Tx) : Z :=
  match c with
  | SimpleVote _ => 1
  | Transaction u => tx_signatures (signature_details (Key := Key) (usage_transaction u))
  end.

Definition num_secp256k1_instruction_signatures {Key} `{StaticMeta Key Tx} (c : TransactionCost Tx) : Z :=
  match c with
  | SimpleVote _ => 0
  | Transaction u => secp256k1_signatures (signature_details (Key := Key) (usage_transaction u))
  end.

Definition num_ed25519_instruction_signatures {Key} `{StaticMeta Key Tx} (c : TransactionCost Tx) : Z :=
  match c with
  | SimpleVote _ => 0
  | Transaction u => ed25519_signatures (signature_details (Key := Key) (usage_transaction u))
  end.

Definition num_secp256r1_instruction_signatures {Key} `{StaticMeta Key Tx} (c : TransactionCost Tx) : Z :=
  match c with
  | SimpleVote _ => 0
  | Transaction u => secp256r1_signatures (signature_details (Key := Key) (usage_transaction u))
  end.

End Cost.

Lemma NoDup_writable_keys {Key Tx} `{SVMMessage Key Tx} (tx : Tx) :
  NoDup (account_keys tx) -> NoDup (writable_keys tx).
Proof.
  intros Hk. rewrite <- (imap_pair_snd (account_keys tx)) in Hk. unfold writable_keys.
  induction (imap pair (account_keys tx)) as [|[i k] l IH]; [constructor|].
  apply NoDup_cons in Hk as [Hk Hl]. simpl. destruct (is_writable tx i); [|by apply IH].
  apply NoDup_cons. split; [|by apply IH]. intros ([j k'] & Hin & Hw)%list_elem_of_omap.
  case_match; simplify_eq/=. apply Hk. apply list_elem_of_fmap. eexists. split; [|exact Hin]. done.
Qed.

(** The parts of a cost add up to its sum: the compile-time assertion on votes
    and the absence of saturation on others. *)
Definition parts {Tx} (c : TransactionCost Tx) : Z :=
  signature_cost c + write_lock_cost c + data_bytes_cost c + programs_execution_cost c +
  loaded_accounts_data_size_cost c.

Lemma simple_vote_sum {Tx} (tx : Tx) : sum (SimpleVote tx) = parts (SimpleVote tx).
Proof. done. Qed.

Lemma usage_sum_exact {Tx} (u : UsageCostDetails Tx) :
  0 <= usage_signature_cost u -> 0 <= usage_write_lock_cost u -> 0 <= usage_data_bytes_cost u ->
  0 <= usage_programs_execution_cost u -> 0 <= usage_loaded_accounts_data_size_cost u ->
  parts (Transaction u) <= word_max 64 -> usage_sum u = parts (Transaction u).
Proof. unfold usage_sum, parts, sat_add. simpl. lia. Qed.

End Cost.

(** ** cost_model.rs *)

Module Model.
Import Cost.

Inductive SystemProgramAccountAllocation : Type :=
| AllocationNone
| AllocationSome (space : Z)
| AllocationFailed.

Section Model.
Context {Key Tx : Type} `{Countable Key} `{!Sdk Key} `{!CostSdk Key} `{!StaticMeta Key Tx}.
Context (migrating : list (Key * BuiltinCost Key)).

Definition get_signature_cost (transaction : Tx) (feature_set : FeatureSet Key) : Z :=
  let d := signature_details (Key := Key) transaction in
  let ed25519_verify_cost :=
    if is_active feature_set ed25519_precompile_verify_strict_id then ED25519_VERIFY_STRICT_COST
    else ED25519_VERIFY_COST in
  let secp256r1_verify_cost :=
    if is_active feature_set enable_secp256r1_precompile_id then SECP256R1_VERIFY_COST else 0 in
  sat_add 64 (sat_add 64 (sat_add 64
    (sat_mul 64 (tx_signatures d) SIGNATURE_COST)
    (sat_mul 64 (secp256k1_signatures d) SECP256K1_VERIFY_COST))
    (sat_mul 64 (ed25519_signatures d) ed25519_verify_cost))
    (sat_mul 64 (secp256r1_signatures d) secp256r1_verify_cost).

Definition get_write_lock_cost (num_write_locks : Z) : Z := sat_mul 64 WRITE_LOCK_UNITS num_write_locks.

Definition calculate_loaded_accounts_data_size_cost (loaded_accounts_data_size : Z) : Z :=
  calculate_memory_usage_cost (Key := Key) loaded_accounts_data_size Details.DEFAULT_HEAP_COST.

(** [None]: the limits could not be computed because an index check panicked. *)
Definition get_estimated_execution_cost (transaction : Tx) (feature_set : FeatureSet Key) :
    option (Z * Z) :=
  limits ← Details.sanitize_and_convert_to_compute_budget_limits migrating
             (compute_budget_instruction_details (Key := Key) transaction) feature_set;
  Some match limits with
       | Ok l => (Details.compute_unit_limit l,
                  calculate_loaded_accounts_data_size_cost (Details.loaded_accounts_bytes l))
       | Err _ => (0, 0)
       end.

Definition get_instructions_data_cost (transaction : Tx) : Z :=
  instruction_data_len (Key := Key) transaction / INSTRUCTION_DATA_BYTES_COST.

Definition calculate_account_data_size_on_deserialized_system_instruction
    (instruction : SystemInstruction) : SystemProgramAccountAllocation :=
  match instruction with
  | CreateAccount space | CreateAccountWithSeed space | Allocate space | AllocateWithSeed space =>
      if MAX_PERMITTED_DATA_LENGTH (Key := Key) <? space then AllocationFailed else AllocationSome space
  | OtherSystemInstruction => AllocationNone
  end.

Definition calculate_account_data_size_on_instruction (program_id : Key) (instruction : SVMInstruction) :
    SystemProgramAccountAllocation :=
  if decide (program_id = system_program_id) then
    match decode_system (Key := Key) (data instruction) with
    | Some instruction => calculate_account_data_size_on_deserialized_system_instruction instruction
    | None => AllocationFailed
    end
  else AllocationNone.

(** The loop; [None] is its early [return 0]. *)
Fixpoint sum_allocations (acc : Z) (instructions : list (Key * SVMInstruction)) : option Z :=
  match instructions with
  | [] => Some acc
  | (program_id, instruction) :: rest =>
      match calculate_account_data_size_on_instruction program_id instruction with
      | AllocationFailed => None
      | AllocationNone => sum_allocations acc rest
      | AllocationSome size => sum_allocations (sat_add 64 acc size) rest
      end
  end.

Definition calculate_allocated_accounts_data_size (instructions : list (Key * SVMInstruction)) : Z :=
  match sum_allocations 0 instructions with
  | None => 0
  | Some tx_attempted_allocation_size =>
      Z.min (MAX_PERMITTED_ACCOUNTS_DATA_ALLOCATIONS_PER_TRANSACTION (Key := Key)) tx_attempted_allocation_size
  end.

Definition calculate_non_vote_transaction_cost (transaction : Tx)
    (instructions : list (Key * SVMInstruction)) (num_write_locks : Z)
    (programs_execution_cost loaded_accounts_data_size_cost data_bytes_cost : Z)
    (feature_set : FeatureSet Key) : TransactionCost Tx :=
  Transaction (MkUsage transaction (get_signature_cost transaction feature_set)
    (get_write_lock_cost num_write_locks) data_bytes_cost programs_execution_cost
    loaded_accounts_data_size_cost (calculate_allocated_accounts_data_size instructions)).

Definition estimate_cost (transaction : Tx) (instructions : list (Key * SVMInstruction))
    (num_write_locks : Z) (feature_set : FeatureSet Key) : option (TransactionCost Tx) :=
  if is_simple_vote_transaction (Key := Key) transaction then Some (SimpleVote transaction)
  else
    '(programs_execution_cost, loaded_accounts_data_size_cost) ←
       get_estimated_execution_cost transaction feature_set;
    Some (calculate_non_vote_transaction_cost transaction instructions num_write_locks
            programs_execution_cost loaded_accounts_data_size_cost
            (get_instructions_data_cost transaction) feature_set).

Definition calculate_cost (transaction : Tx) (feature_set : FeatureSet Key) : option (TransactionCost Tx) :=
  if is_simple_vote_transaction (Key := Key) transaction then Some (SimpleVote transaction)
  else
    '(programs_execution_cost, loaded_accounts_data_size_cost) ←
       get_estimated_execution_cost transaction feature_set;
    Some (calculate_non_vote_transaction_cost transaction
            (program_instructions_iter transaction) (num_write_locks (Key := Key) transaction)
            programs_execution_cost loaded_accounts_data_size_cost
            (get_instructions_data_cost transaction) feature_set).

Definition calculate_cost_for_executed_transaction (transaction : Tx)
    (actual_programs_execution_cost actual_loaded_accounts_data_size_bytes : Z)
    (feature_set : FeatureSet Key) : TransactionCost Tx :=
  if is_simple_vote_transaction (Key := Key) transaction then SimpleVote transaction
  else
    calculate_non_vote_transaction_cost transaction
      (program_instructions_iter transaction) (num_write_locks (Key := Key) transaction)
      actual_programs_execution_cost
      (calculate_loaded_accounts_data_size_cost actual_loaded_accounts_data_size_bytes)
      (get_instructions_data_cost transaction) feature_set.

(** *** What the costs are *)

(** The metadata a runtime transaction is built with: its counts are those of a
    packet and its compute-budget details are those of its instructions. *)
Record static_meta (tx : Tx) : Prop := {
  meta_signatures : 0 <= tx_signatures (signature_details (Key := Key) tx) < 2 ^ 32;
  meta_secp256k1 : 0 <= secp256k1_signatures (signature_details (Key := Key) tx) < 2 ^ 32;
  meta_ed25519 : 0 <= ed25519_signatures (signature_details (Key := Key) tx) < 2 ^ 32;
  meta_secp256r1 : 0 <= secp256r1_signatures (signature_details (Key := Key) tx) < 2 ^ 32;
  meta_write_locks : 0 <= num_write_locks (Key := Key) tx < 2 ^ 32;
  meta_data_len : in_word 16 (instruction_data_len (Key := Key) tx);
  meta_instructions : Z.of_nat (length (program_instructions_iter (Key := Key) tx)) <= word_max 16;
  meta_compute_budget : compute_budget_instruction_details (Key := Key) tx =
    Details.details_of migrating (program_instructions_iter tx)
}.

(** Compute units that do not depend on the execution. *)
Definition base_cost (tx : Tx) (feature_set : FeatureSet Key) : Z :=
  let d := signature_details (Key := Key) tx in
  720 * tx_signatures d + 6690 * secp256k1_signatures d +
  (if is_active feature_set ed25519_precompile_verify_strict_id then 2400 else 2280) * ed25519_signatures d +
  (if is_active feature_set enable_secp256r1_precompile_id then 4800 else 0) * secp256r1_signatures d +
  300 * num_write_locks (Key := Key) tx + instruction_data_len (Key := Key) tx / 4.

(** The units reserved for execution and for loading accounts. *)
Definition reserved_units (tx : Tx) (feature_set : FeatureSet Key) : Z * Z :=
  match Details.limits_of migrating (program_instructions_iter tx) feature_set with
  | Ok l => (Details.compute_unit_limit l,
             calculate_loaded_accounts_data_size_cost (Details.loaded_accounts_bytes l))
  | Err _ => (0, 0)
  end.

(** The account space an instruction allocates; [None] if it must fail. *)
Definition allocation (x : Key * SVMInstruction) : option Z :=
  match calculate_account_data_size_on_instruction x.1 x.2 with
  | AllocationFailed => None
  | AllocationNone => Some 0
  | AllocationSome size => Some size
  end.

Definition allocated (instructions : list (Key * SVMInstruction)) : Z :=
  if decide (Forall (fun x => is_Some (allocation x)) instructions) then
    Z.min (MAX_PERMITTED_ACCOUNTS_DATA_ALLOCATIONS_PER_TRANSACTION (Key := Key))
      (Zsum (fun x => default 0 (allocation x)) instructions)
  else 0.

Context `{!SdkLaws Key} `{!CostSdkLaws Key}.

Lemma get_signature_cost_exact tx fs : static_meta tx ->
  get_signature_cost tx fs + get_write_lock_cost (num_write_locks (Key := Key) tx) +
    get_instructions_data_cost tx = base_cost tx fs /\
  0 <= get_signature_cost tx fs < 2 ^ 50 /\
  0 <= get_write_lock_cost (num_write_locks (Key := Key) tx) < 2 ^ 50 /\
  0 <= get_instructions_data_cost tx < 2 ^ 16.
Proof.
  intros []. assert (0 <= instruction_data_len (Key := Key) tx / 4 < 2 ^ 16).
  { unfold in_word, word_max in *. split; [apply Z.div_pos; lia|]. apply Z.div_lt_upper_bound; lia. }
  unfold get_signature_cost, get_write_lock_cost, get_instructions_data_cost, base_cost,
    SIGNATURE_COST, SECP256K1_VERIFY_COST, ED25519_VERIFY_COST, ED25519_VERIFY_STRICT_COST,
    SECP256R1_VERIFY_COST, WRITE_LOCK_UNITS, COMPUTE_UNIT_TO_US_RATIO.
  change INSTRUCTION_DATA_BYTES_COST with 4. destruct (signature_details tx) as [s k e r]. simpl in *.
  destruct (is_active fs ed25519_precompile_verify_strict_id), (is_active fs enable_secp256r1_precompile_id);
    rewrite !sat_mul_small by (unfold word_max; lia);
    (rewrite (sat_add_small 64 (s * _)), (sat_add_small 64 (_ + _)), sat_add_small by (unfold word_max; lia)); lia.
Qed.

Lemma allocation_bound x s : allocation x = Some s -> in_word 64 s.
Proof.
  unfold allocation, calculate_account_data_size_on_instruction,
    calculate_account_data_size_on_deserialized_system_instruction.
  assert (in_word 64 0) by (unfold in_word, word_max; lia).
  intros Ha. case_decide; [|by simplify_eq].
  destruct (decode_system (data x.2)) as [i|] eqn:Hd; [|done]. apply decode_system_space in Hd.
  destruct i; repeat case_match; by simplify_eq.
Qed.

Lemma allocations_nonneg l : 0 <= Zsum (fun x => default 0 (allocation x)) l.
Proof.
  apply Zsum_nonneg. intros x _. destruct (allocation x) as [s|] eqn:Hs; [|done].
  apply allocation_bound in Hs. apply Hs.
Qed.

Lemma sum_allocations_spec l : forall acc, 0 <= acc ->
  (exists n, sum_allocations acc l = Some n /\ Forall (fun x => is_Some (allocation x)) l /\
     Z.min n (word_max 64) = Z.min (acc + Zsum (fun x => default 0 (allocation x)) l) (word_max 64)) \/
  (sum_allocations acc l = None /\ ~ Forall (fun x => is_Some (allocation x)) l).
Proof.
  induction l as [|[id ins] l IH]; intros acc Hacc.
  { left. exists acc. simpl. rewrite Z.add_0_r. done. }
  rewrite Zsum_cons, Forall_cons. pose proof (allocations_nonneg l).
  assert (allocation (id, ins) = match calculate_account_data_size_on_instruction id ins with
    | AllocationFailed => None | AllocationNone => Some 0 | AllocationSome size => Some size end) as Ha by done.
  simpl. destruct (calculate_account_data_size_on_instruction id ins) as [|s|]; rewrite Ha.
  - destruct (IH acc Hacc) as [(n & -> & ? & Hn) | [-> ?]]; [left|right; naive_solver].
    exists n. split_and!; [done|apply Forall_cons; rewrite Ha; eauto|]. simpl. exact Hn.
  - pose proof (allocation_bound _ _ Ha) as Hb. unfold in_word, word_max in Hb.
    destruct (IH (sat_add 64 acc s)) as [(n & -> & ? & Hn) | [-> ?]];
      [unfold sat_add, word_max; lia|left|right; naive_solver].
    exists n. split_and!; [done|apply Forall_cons; rewrite Ha; eauto|]. simpl. rewrite Hn. unfold sat_add, word_max in *. lia.
  - right. split; [done|]. intros [[? ?] _]. done.
Qed.

Lemma allocated_exact l : calculate_allocated_accounts_data_size l = allocated l.
Proof.
  unfold calculate_allocated_accounts_data_size, allocated.
  destruct (sum_allocations_spec l 0) as [(n & -> & Hl & Hn) | [-> Hl]]; [done|..];
    [rewrite decide_True by done|by rewrite decide_False].
  pose proof permitted_allocations as [_ Hp]. lia.
Qed.

Lemma memory_cost_range size :
  0 <= size < 2 ^ 32 -> 0 <= calculate_loaded_accounts_data_size_cost size < 2 ^ 50.
Proof.
  intros Hs. unfold calculate_loaded_accounts_data_size_cost.
  pose proof (memory_cost_bound size Details.DEFAULT_HEAP_COST ltac:(lia) ltac:(done)) as Hb.
  assert (size / 32768 < 2 ^ 17) by (apply Z.div_lt_upper_bound; lia).
  assert (0 <= size / 32768) by (apply Z.div_pos; lia).
  unfold Details.DEFAULT_HEAP_COST in *. lia.
Qed.

Lemma non_vote_sum tx fs units loaded_cost instructions :
  static_meta tx -> 0 <= units < 2 ^ 50 -> 0 <= loaded_cost < 2 ^ 50 ->
  sum (calculate_non_vote_transaction_cost tx instructions (num_write_locks (Key := Key) tx) units
         loaded_cost (get_instructions_data_cost tx) fs) = base_cost tx fs + units + loaded_cost.
Proof.
  intros Hm Hu Hl. destruct (get_signature_cost_exact tx fs Hm) as (<- & Hs & Hw & Hd).
  unfold calculate_non_vote_transaction_cost. simpl.
  rewrite usage_sum_exact; unfold parts, word_max; simpl; lia.
Qed.

Lemma reserved_range tx fs :
  0 <= HEAP_LENGTH (Key := Key) <= Details.MAX_HEAP_FRAME_BYTES ->
  0 <= (reserved_units tx fs).1 < 2 ^ 50 /\ 0 <= (reserved_units tx fs).2 < 2 ^ 50.
Proof.
  intros Hh. unfold reserved_units.
  destruct (Details.limits_of migrating (program_instructions_iter tx) fs) as [l|] eqn:Hl; [|simpl; lia].
  apply Details.limits_of_bounded in Hl as (_ & Hu & Hb); [|done]. simpl.
  unfold Details.MAX_COMPUTE_UNIT_LIMIT, Details.MAX_LOADED_ACCOUNTS_DATA_SIZE_BYTES in *.
  split; [lia|]. apply memory_cost_range. lia.
Qed.

Lemma calculate_cost_spec tx fs :
  validate_position 0 migrating = true -> 0 <= HEAP_LENGTH (Key := Key) <= Details.MAX_HEAP_FRAME_BYTES ->
  static_meta tx -> is_simple_vote_transaction (Key := Key) tx = false ->
  calculate_cost tx fs = Some (calculate_non_vote_transaction_cost tx (program_instructions_iter tx)
    (num_write_locks (Key := Key) tx) (reserved_units tx fs).1 (reserved_units tx fs).2
    (get_instructions_data_cost tx) fs).
Proof.
  intros Hv Hh Hm Hvote. unfold calculate_cost, get_estimated_execution_cost, reserved_units.
  rewrite Hvote, (meta_compute_budget tx Hm), Details.sanitize_spec by (done || apply Hm).
  simpl. by destruct (Details.limits_of migrating (program_instructions_iter tx) fs).
Qed.

(** C36: the cost model never panics. It charges a simple vote 3428 units, and
    any other transaction exactly the sum of its signature, write-lock and
    data costs and the units its compute-budget instructions reserve (none if
    they are invalid), none of the saturating operations being reached. The
    account data it expects to be allocated is zero when an instruction of
    the system program is bound to fail and otherwise the total of the
    requested space, clamped to the most a transaction may allocate. *)
Theorem cost_model_exact tx fs :
  validate_position 0 migrating = true -> 0 <= HEAP_LENGTH (Key := Key) <= Details.MAX_HEAP_FRAME_BYTES ->
  static_meta tx ->
  exists c, calculate_cost tx fs = Some c /\ cost_transaction c = tx /\
    estimate_cost tx (program_instructions_iter tx) (num_write_locks (Key := Key) tx) fs = Some c /\
    (if is_simple_vote_transaction (Key := Key) tx then
       sum c = 3428 /\ allocated_accounts_data_size c = 0
     else
       sum c = base_cost tx fs + (reserved_units tx fs).1 + (reserved_units tx fs).2 /\
       allocated_accounts_data_size c = allocated (program_instructions_iter tx)).
Proof.
  intros Hv Hh Hm. destruct (is_simple_vote_transaction tx) eqn:Hvote.
  - exists (SimpleVote tx). unfold calculate_cost, estimate_cost. by rewrite Hvote.
  - eexists. split; [by apply calculate_cost_spec|]. split; [done|]. split.
    + rewrite <- (calculate_cost_spec tx fs) by done. done.
    + destruct (reserved_range tx fs Hh). split; [by apply non_vote_sum|]. apply allocated_exact.
Qed.

(** Execution within the limits that were reserved. *)
Definition executed_within (tx : Tx) (fs : FeatureSet Key) (units loaded : Z) : Prop :=
  exists l, Details.limits_of migrating (program_instructions_iter tx) fs = Ok l /\
    0 <= units <= Details.compute_unit_limit l /\ 0 <= loaded <= Details.loaded_accounts_bytes l.

(** An executed transaction that is not a vote is charged the same base
    cost as its estimate, plus the units it used and the memory it loaded; if
    it stayed within the limits it reserved, that is at most its estimate. *)
Lemma executed_cost_within_estimate tx fs units loaded :
  validate_position 0 migrating = true -> 0 <= HEAP_LENGTH (Key := Key) <= Details.MAX_HEAP_FRAME_BYTES ->
  static_meta tx -> is_simple_vote_transaction (Key := Key) tx = false ->
  executed_within tx fs units loaded ->
  exists estimate, calculate_cost tx fs = Some estimate /\
    let executed := calculate_cost_for_executed_transaction tx units loaded fs in
    sum executed = base_cost tx fs + units + calculate_loaded_accounts_data_size_cost loaded /\
    sum executed <= sum estimate /\
    allocated_accounts_data_size executed = allocated_accounts_data_size estimate.
Proof.
  intros Hv Hh Hm Hvote (l & Hl & Hu & Hld). eexists. split; [by apply calculate_cost_spec|].
  pose proof (Details.limits_of_bounded _ _ _ _ Hh Hl) as (_ & Hcu & Hb).
  unfold Details.MAX_COMPUTE_UNIT_LIMIT, Details.MAX_LOADED_ACCOUNTS_DATA_SIZE_BYTES in *.
  destruct (reserved_range tx fs Hh) as [Hr1 Hr2].
  unfold calculate_cost_for_executed_transaction. rewrite Hvote. cbv zeta.
  rewrite !non_vote_sum by (done || lia || apply memory_cost_range; lia).
  split_and!; [done| |done]. unfold reserved_units. rewrite Hl. simpl.
  unfold calculate_loaded_accounts_data_size_cost.
  pose proof (memory_cost_mono loaded (Details.loaded_accounts_bytes l) Details.DEFAULT_HEAP_COST
    ltac:(lia) ltac:(done)). lia.
Qed.
End Model.

(** *** A concrete transaction *)

Module SampleCost.
Import Details.SampleSdk.

Definition sample_decode_system (data : list Z) : option SystemInstruction :=
  match data with
  | [0; space] => if (0 <=? space) && (space <=? word_max 64) then Some (CreateAccount space) else None
  | 2 :: _ => Some OtherSystemInstruction
  | _ => None
  end.

#[export] Instance nat_cost_sdk : CostSdk nat := {
  calculate_memory_usage_cost := fun size heap_cost => ((size + 32767) / 32768) * heap_cost;
  decode_system := sample_decode_system;
  MAX_PERMITTED_DATA_LENGTH := 10_485_760;
  MAX_PERMITTED_ACCOUNTS_DATA_ALLOCATIONS_PER_TRANSACTION := 20_971_520;
  ed25519_precompile_verify_strict_id := 200%nat;
  enable_secp256r1_precompile_id := 201%nat
}.

#[export] Instance nat_cost_sdk_laws : CostSdkLaws nat.
Proof.
  assert (forall size, 0 <= size -> 0 <= (size + 32767) / 32768 <= size / 32768 + 1) as Hdiv.
  { intros size Hs. split; [apply Z.div_pos; lia|].
    replace (size / 32768 + 1) with ((size + 32768) / 32768) by (rewrite <- (Z.div_add size 1 32768) by lia; f_equal; lia).
    apply Z.div_le_mono; lia. }
  split; simpl.
  - intros size h Hs Hh. specialize (Hdiv size Hs). nia.
  - intros s1 s2 h Hs Hh. apply Z.mul_le_mono_nonneg_r; [done|]. apply Z.div_le_mono; lia.
  - intros data i Hd. unfold sample_decode_system, in_word in *. repeat case_match; simplify_eq; bool_to_prop; try lia; done.
  - vm_compute. split; congruence.
  - vm_compute. split; congruence.
Qed.

(** Transactions are numbers; an even one is the message of [message_instructions]
    and an odd one is a vote. *)
#[export] Instance nat_meta : StaticMeta nat nat := {
  is_simple_vote_transaction := Nat.odd;
  signature_details := fun _ => MkTransactionSignatures 1 0 0 0;
  compute_budget_instruction_details := fun _ => Details.details_of MIGRATING_BUILTINS_COSTS message_instructions;
  instruction_data_len := fun _ => 5;
  program_instructions_iter := fun _ => message_instructions;
  num_write_locks := fun _ => 2
}.

Lemma sample_heap : 0 <= HEAP_LENGTH (Key := nat) <= Details.MAX_HEAP_FRAME_BYTES.
Proof. vm_compute. split; congruence. Qed.

Lemma sample_static_meta (tx : nat) : static_meta (Key := nat) MIGRATING_BUILTINS_COSTS tx.
Proof. by split; try (vm_compute; split; congruence). Qed.

End SampleCost.
Import SampleCost Details.SampleSdk.

Lemma cost_model_exact_witness :
  exists c, calculate_cost (Key := nat) MIGRATING_BUILTINS_COSTS 4%nat (MkFeatureSet ∅) = Some c /\
    sum c = 1321 + 206_000 + 16_384.
Proof.
  destruct (cost_model_exact (Key := nat) MIGRATING_BUILTINS_COSTS 4%nat (MkFeatureSet ∅) eq_refl
    sample_heap (sample_static_meta 4)) as (c & Hc & _ & _ & Hs & _).
  exists c. split; [exact Hc|]. rewrite Hs. vm_compute. reflexivity.
Defined.

End Model.
