(* ===== verification/CostTracker.v ===== *)
(** * Block cost accounting

    [CostTracker] (cost-model/src/cost_tracker.rs), which charges the
    transactions of a block against the block, vote, account and data-size
    limits; [QosService] (core/src/banking_stage/qos_service.rs), which
    reserves the estimated costs of a batch and settles them after execution;
    the proposer vote limit and the executed costs that the block stage adds;
    and the check of a replayed block (ledger/src/blockstore_processor.rs).
    [BlockCosts] has the operations, [Qos] the service and the session of a
    leader's bank, [Replay] the verification of the resulting block. *)

From S2P Require Import Prelude Accounts ComputeBudget CostModel.
Import Builtins Limits Cost Model.

Module BlockCosts.

Inductive CostTrackerError : Type :=
| WouldExceedBlockMaxLimit
| WouldExceedVoteMaxLimit
| WouldExceedAccountMaxLimit
| ExceedAccountDataBlockLimit
| ExceedAccountDataTotalLimit.

(** [impl From<CostTrackerError> for TransactionError]. *)
Definition transaction_error (err : CostTrackerError) : TransactionError :=
  match err with
  | WouldExceedBlockMaxLimit => WouldExceedMaxBlockCostLimit
  | WouldExceedVoteMaxLimit => WouldExceedMaxVoteCostLimit
  | WouldExceedAccountMaxLimit => WouldExceedMaxAccountCostLimit
  | ExceedAccountDataBlockLimit => WouldExceedAccountDataBlockLimit
  | ExceedAccountDataTotalLimit => WouldExceedAccountDataTotalLimit
  end.

(** The counters of signatures, kept for reporting. *)
Record SignatureTotals : Type := MkTotals {
  transaction_signature_count : Z;
  secp256k1_instruction_signature_count : Z;
  ed25519_instruction_signature_count : Z;
  secp256r1_instruction_signature_count : Z
}.

Record CostTracker (Key : Type) `{Countable Key} : Type := MkTracker {
  account_cost_limit : Z;
  block_cost_limit : Z;
  vote_cost_limit : Z;
  original_vote_cost_limit : Z;
  cost_by_writable_accounts : gmap Key Z;
  block_cost : Z;
  vote_cost : Z;
  transaction_count : Z;
  allocated_size : Z;
  signature_totals : SignatureTotals;
  in_flight_transaction_count : Z
}.
Arguments MkTracker {Key _ _}.
Arguments account_cost_limit {Key _ _}.
Arguments block_cost_limit {Key _ _}.
Arguments vote_cost_limit {Key _ _}.
Arguments original_vote_cost_limit {Key _ _}.
Arguments cost_by_writable_accounts {Key _ _}.
Arguments block_cost {Key _ _}.
Arguments vote_cost {Key _ _}.
Arguments transaction_count {Key _ _}.
Arguments allocated_size {Key _ _}.
Arguments signature_totals {Key _ _}.
Arguments in_flight_transaction_count {Key _ _}.

(** The signature counters of [SVMMessage] that the block stage adds up. *)
Class SVMSignatures (Tx : Type) : Type := {
  svm_transaction_signatures : Tx -> Z;
  svm_secp256k1_signatures : Tx -> Z;
  svm_ed25519_signatures : Tx -> Z;
  svm_secp256r1_signatures : Tx -> Z
}.

Section Tracker.
Context {Key Tx : Type} `{Countable Key} `{!SVMMessage Key Tx} `{!StaticMeta Key Tx}.

Definition default_tracker : CostTracker Key :=
  MkTracker MAX_WRITABLE_ACCOUNT_UNITS MAX_BLOCK_UNITS MAX_VOTE_UNITS 0 ∅ 0 0 0 0 (MkTotals 0 0 0 0) 0.

Definition set_limits (t : CostTracker Key) (account block vote : Z) : CostTracker Key :=
  MkTracker account block vote (original_vote_cost_limit t) (cost_by_writable_accounts t) (block_cost t)
    (vote_cost t) (transaction_count t) (allocated_size t) (signature_totals t) (in_flight_transaction_count t).

Definition set_vote_limits (t : CostTracker Key) (vote original : Z) : CostTracker Key :=
  MkTracker (account_cost_limit t) (block_cost_limit t) vote original (cost_by_writable_accounts t) (block_cost t)
    (vote_cost t) (transaction_count t) (allocated_size t) (signature_totals t) (in_flight_transaction_count t).

Definition set_costs (t : CostTracker Key) (accounts : gmap Key Z) (block vote : Z) : CostTracker Key :=
  MkTracker (account_cost_limit t) (block_cost_limit t) (vote_cost_limit t) (original_vote_cost_limit t)
    accounts block vote (transaction_count t) (allocated_size t) (signature_totals t) (in_flight_transaction_count t).

Definition set_counters (t : CostTracker Key) (count allocated : Z) (totals : SignatureTotals) : CostTracker Key :=
  MkTracker (account_cost_limit t) (block_cost_limit t) (vote_cost_limit t) (original_vote_cost_limit t)
    (cost_by_writable_accounts t) (block_cost t) (vote_cost t) count allocated totals (in_flight_transaction_count t).

Definition set_in_flight (t : CostTracker Key) (n : Z) : CostTracker Key :=
  MkTracker (account_cost_limit t) (block_cost_limit t) (vote_cost_limit t) (original_vote_cost_limit t)
    (cost_by_writable_accounts t) (block_cost t) (vote_cost t) (transaction_count t) (allocated_size t)
    (signature_totals t) n.

Definition new_from_parent_limits (t : CostTracker Key) : CostTracker Key :=
  set_limits (set_vote_limits default_tracker (vote_cost_limit default_tracker) (original_vote_cost_limit t))
    (account_cost_limit t) (block_cost_limit t) (vote_cost_limit t).

Definition PROPOSER_VOTE_LIMIT : Z := 4_000_000.

Definition set_proposer_vote_limit (t : CostTracker Key) : CostTracker Key :=
  set_vote_limits t PROPOSER_VOTE_LIMIT (vote_cost_limit t).

Definition restore_vote_limit (t : CostTracker Key) : CostTracker Key :=
  if 0 <? original_vote_cost_limit t then set_vote_limits t (original_vote_cost_limit t) 0 else t.

Definition add_transactions_in_flight (t : CostTracker Key) (n : Z) : CostTracker Key :=
  set_in_flight t (sat_add 64 (in_flight_transaction_count t) n).

Definition sub_transactions_in_flight (t : CostTracker Key) (n : Z) : CostTracker Key :=
  set_in_flight t (sat_sub (in_flight_transaction_count t) n).

(** The per-account part of [add_transaction_execution_cost]: the costs and the
    costliest of the updated accounts. *)
Definition charge_account (adjustment : Z) (st : gmap Key Z * Z) (key : Key) : gmap Key Z * Z :=
  let account_cost := sat_add 64 (default 0 (st.1 !! key)) adjustment in
  (<[key := account_cost]> st.1, Z.max st.2 account_cost).

Definition add_transaction_execution_cost (t : CostTracker Key) (tx_cost : TransactionCost Tx)
    (adjustment : Z) : CostTracker Key * Z :=
  let '(accounts, costliest_account_cost) :=
    foldl (charge_account adjustment) (cost_by_writable_accounts t, 0) (writable_accounts tx_cost) in
  (set_costs t accounts (wadd 64 (block_cost t) adjustment)
     (if is_simple_vote tx_cost then sat_add 64 (vote_cost t) adjustment else vote_cost t),
   costliest_account_cost).

Definition credit_account (adjustment : Z) (accounts : gmap Key Z) (key : Key) : gmap Key Z :=
  <[key := sat_sub (default 0 (accounts !! key)) adjustment]> accounts.

Definition sub_transaction_execution_cost (t : CostTracker Key) (tx_cost : TransactionCost Tx)
    (adjustment : Z) : CostTracker Key :=
  set_costs t (foldl (credit_account adjustment) (cost_by_writable_accounts t) (writable_accounts tx_cost))
    (wsub 64 (block_cost t) adjustment)
    (if is_simple_vote tx_cost then sat_sub (vote_cost t) adjustment else vote_cost t).

(** The loop of [would_fit] over the writable accounts. *)
Definition account_fits (t : CostTracker Key) (cost : Z) (key : Key) : bool :=
  match cost_by_writable_accounts t !! key with
  | Some chained_cost => sat_add 64 chained_cost cost <=? account_cost_limit t
  | None => true
  end.

Definition would_fit (t : CostTracker Key) (tx_cost : TransactionCost Tx)
    (block_cost_limit_reservation : Z) : result CostTrackerError unit :=
  let cost := sum tx_cost in
  if is_simple_vote tx_cost && (vote_cost_limit t <? sat_add 64 (vote_cost t) cost) then
    Err WouldExceedVoteMaxLimit
  else if sat_sub (block_cost_limit t) block_cost_limit_reservation <? sat_add 64 (block_cost t) cost then
    Err WouldExceedBlockMaxLimit
  else if account_cost_limit t <? cost then Err WouldExceedAccountMaxLimit
  else if MAX_BLOCK_ACCOUNTS_DATA_SIZE_DELTA <?
          sat_add 64 (allocated_size t) (allocated_accounts_data_size tx_cost) then
    Err ExceedAccountDataBlockLimit
  else if forallb (account_fits t cost) (writable_accounts tx_cost) then Ok tt
  else Err WouldExceedAccountMaxLimit.

Definition add_totals (s : SignatureTotals) (a b c d : Z) : SignatureTotals :=
  MkTotals (sat_add 64 (transaction_signature_count s) a) (sat_add 64 (secp256k1_instruction_signature_count s) b)
    (sat_add 64 (ed25519_instruction_signature_count s) c) (sat_add 64 (secp256r1_instruction_signature_count s) d).

Definition sub_totals (s : SignatureTotals) (a b c d : Z) : SignatureTotals :=
  MkTotals (sat_sub (transaction_signature_count s) a) (sat_sub (secp256k1_instruction_signature_count s) b)
    (sat_sub (ed25519_instruction_signature_count s) c) (sat_sub (secp256r1_instruction_signature_count s) d).

Definition add_transaction_cost (t : CostTracker Key) (tx_cost : TransactionCost Tx) : CostTracker Key * Z :=
  let t := set_counters t (sat_add 64 (transaction_count t) 1)
             (sat_add 64 (allocated_size t) (allocated_accounts_data_size tx_cost))
             (add_totals (signature_totals t) (num_transaction_signatures (Key := Key) tx_cost)
                (num_secp256k1_instruction_signatures (Key := Key) tx_cost)
                (num_ed25519_instruction_signatures (Key := Key) tx_cost)
                (num_secp256r1_instruction_signatures (Key := Key) tx_cost)) in
  add_transaction_execution_cost t tx_cost (sum tx_cost).

Definition remove (t : CostTracker Key) (tx_cost : TransactionCost Tx) : CostTracker Key :=
  let t := sub_transaction_execution_cost t tx_cost (sum tx_cost) in
  set_counters t (sat_sub (transaction_count t) 1)
    (sat_sub (allocated_size t) (allocated_accounts_data_size tx_cost))
    (sub_totals (signature_totals t) (num_transaction_signatures (Key := Key) tx_cost)
       (num_secp256k1_instruction_signatures (Key := Key) tx_cost)
       (num_ed25519_instruction_signatures (Key := Key) tx_cost)
       (num_secp256r1_instruction_signatures (Key := Key) tx_cost)).

(** On success, the updated block cost and the costliest updated account. *)
Definition try_add (t : CostTracker Key) (tx_cost : TransactionCost Tx) (block_cost_limit_reservation : Z) :
    CostTracker Key * result CostTrackerError (Z * Z) :=
  match would_fit t tx_cost block_cost_limit_reservation with
  | Err e => (t, Err e)
  | Ok _ =>
      let '(t, updated_costliest_account_cost) := add_transaction_cost t tx_cost in
      (t, Ok (block_cost t, updated_costliest_account_cost))
  end.

Definition update_execution_cost (t : CostTracker Key) (estimated_tx_cost : TransactionCost Tx)
    (actual_execution_units actual_loaded_accounts_data_size_cost : Z) : CostTracker Key :=
  let actual := sat_add 64 actual_execution_units actual_loaded_accounts_data_size_cost in
  let estimated := sat_add 64 (programs_execution_cost estimated_tx_cost)
                     (loaded_accounts_data_size_cost estimated_tx_cost) in
  match actual ?= estimated with
  | Eq => t
  | Gt => (add_transaction_execution_cost t estimated_tx_cost (actual - estimated)).1
  | Lt => sub_transaction_execution_cost t estimated_tx_cost (estimated - actual)
  end.

(** Body of [add_executed_transaction_costs]: a transaction with its compute
    units and the size of the accounts it loaded. *)
Definition add_executed_transaction_cost `{!SVMSignatures Tx} (t : CostTracker Key) (x : Tx * Z * Z) :
    CostTracker Key :=
  let '(tx, actual_compute_units, loaded_accounts_data_size) := x in
  let t := set_counters t (sat_add 64 (transaction_count t) 1)
             (sat_add 64 (allocated_size t) loaded_accounts_data_size)
             (add_totals (signature_totals t) (svm_transaction_signatures tx) (svm_secp256k1_signatures tx)
                (svm_ed25519_signatures tx) (svm_secp256r1_signatures tx)) in
  set_costs t
    (foldl (charge_account actual_compute_units) (cost_by_writable_accounts t, 0) (writable_keys tx)).1
    (wadd 64 (block_cost t) actual_compute_units)
    (if is_simple_vote_transaction (Key := Key) tx then sat_add 64 (vote_cost t) actual_compute_units
     else vote_cost t).

Definition add_executed_transaction_costs `{!SVMSignatures Tx} (t : CostTracker Key) (executed_txs : list (Tx * Z * Z)) :
    CostTracker Key :=
  foldl add_executed_transaction_cost t executed_txs.

End Tracker.

(** ** Charges

    What a tracker stands for: a list of charges, each with the accounts it
    counts against, whether it is a vote, its compute units and its data size.
    Each limited quantity is a [measure] of the charges. *)
Record Charge (Key : Type) : Type := MkCharge {
  charge_accounts : list Key;
  charge_vote : bool;
  charge_units : Z;
  charge_data : Z
}.
Arguments MkCharge {Key}.
Arguments charge_accounts {Key}.
Arguments charge_vote {Key}.
Arguments charge_units {Key}.
Arguments charge_data {Key}.

Inductive measure (Key : Type) : Type :=
| BlockUnits
| VoteUnits
| AccountUnits (key : Key)
| DataSize.
Arguments BlockUnits {Key}.
Arguments VoteUnits {Key}.
Arguments AccountUnits {Key}.
Arguments DataSize {Key}.

#[global] Instance measure_eq_dec {Key} `{EqDecision Key} : EqDecision (measure Key).
Proof. solve_decision. Defined.

Section Charges.
Context {Key Tx : Type} `{Countable Key} `{!SVMMessage Key Tx} `{!StaticMeta Key Tx}.

Definition value (m : measure Key) (c : Charge Key) : Z :=
  match m with
  | BlockUnits => charge_units c
  | VoteUnits => if charge_vote c then charge_units c else 0
  | AccountUnits k => if decide (k ∈ charge_accounts c) then charge_units c else 0
  | DataSize => charge_data c
  end.

Definition total (m : measure Key) (charges : list (Charge Key)) : Z := Zsum (value m) charges.

Definition recorded (m : measure Key) (t : CostTracker Key) : Z :=
  match m with
  | BlockUnits => block_cost t
  | VoteUnits => vote_cost t
  | AccountUnits k => default 0 (cost_by_writable_accounts t !! k)
  | DataSize => allocated_size t
  end.

Definition limit (m : measure Key) (t : CostTracker Key) : Z :=
  match m with
  | BlockUnits => block_cost_limit t
  | VoteUnits => vote_cost_limit t
  | AccountUnits _ => account_cost_limit t
  | DataSize => MAX_BLOCK_ACCOUNTS_DATA_SIZE_DELTA
  end.

Record charge_ok (c : Charge Key) : Prop := {
  charge_keys : NoDup (charge_accounts c);
  charge_units_nonneg : 0 <= charge_units c;
  charge_data_nonneg : 0 <= charge_data c
}.

(** The tracker shows exactly these charges. *)
Definition represents (t : CostTracker Key) (charges : list (Charge Key)) : Prop :=
  (forall m, recorded m t = total m charges) /\ transaction_count t = Z.of_nat (length charges).

(** No 64-bit counter overflows. *)
Definition fits (charges : list (Charge Key)) : Prop :=
  total BlockUnits charges <= word_max 64 /\ total DataSize charges <= word_max 64 /\
  Z.of_nat (length charges) <= word_max 64.

#[export] Instance represents_perm t : Proper ((≡ₚ) ==> iff) (represents t).
Proof.
  intros l1 l2 Hl. unfold represents, total. rewrite Hl.
  assert (forall m, Zsum (value m) l1 = Zsum (value m) l2) as Hm by (intros m; by rewrite Hl).
  by setoid_rewrite Hm.
Qed.

Lemma total_cons m c l : total m (c :: l) = value m c + total m l.
Proof. done. Qed.

Lemma value_nonneg m c : charge_ok c -> 0 <= value m c.
Proof. intros []. destruct m; simpl; repeat case_match; lia. Qed.

Lemma total_nonneg m l : Forall charge_ok l -> 0 <= total m l.
Proof. intros Hl. apply Zsum_nonneg. intros c Hc. eapply value_nonneg, Forall_forall; eauto. Qed.

Lemma total_fits m l : Forall charge_ok l -> fits l -> total m l <= word_max 64.
Proof.
  intros Hl (Hb & Hd & _). rewrite Forall_forall in Hl.
  assert (forall m, (forall c, value m c <= charge_units c \/ ~ charge_ok c) -> total m l <= word_max 64) as Hle.
  { intros m' Hm. etransitivity; [|exact Hb]. apply Zsum_le. intros c Hc. specialize (Hm c). naive_solver. }
  destruct m; [done| | |done]; apply Hle; intros c;
    (destruct (decide (0 <= charge_units c)); [left|right; by intros []]); simpl; case_match; lia.
Qed.

(** *** Charging and crediting *)

Lemma charge_accounts_lookup adj (keys : list Key) : forall m c k, NoDup keys ->
  default 0 ((foldl (charge_account adj) (m, c) keys).1 !! k) =
  (if decide (k ∈ keys) then sat_add 64 (default 0 (m !! k)) adj else default 0 (m !! k) : Z).
Proof.
  induction keys as [|a keys IH]; intros m c k Hk; [by rewrite decide_False by set_solver|].
  apply NoDup_cons in Hk as [Ha Hk]. cbn [foldl]. unfold charge_account at 2. cbn [fst snd].
  rewrite IH by done. destruct (decide (k = a)) as [->|Hne].
  - rewrite decide_False, decide_True by set_solver. by rewrite lookup_insert_eq.
  - rewrite lookup_insert_ne by done.
    destruct (decide (k ∈ keys)); [rewrite decide_True by set_solver|rewrite decide_False by set_solver]; done.
Qed.

Lemma credit_accounts_lookup adj (keys : list Key) : forall (m : gmap Key Z) k, NoDup keys ->
  default 0 (foldl (credit_account adj) m keys !! k) =
  (if decide (k ∈ keys) then sat_sub (default 0 (m !! k)) adj else default 0 (m !! k) : Z).
Proof.
  induction keys as [|a keys IH]; intros m k Hk; [by rewrite decide_False by set_solver|].
  apply NoDup_cons in Hk as [Ha Hk]. cbn [foldl]. rewrite IH by done. unfold credit_account.
  destruct (decide (k = a)) as [->|Hne].
  - rewrite decide_False, decide_True by set_solver. by rewrite lookup_insert_eq.
  - rewrite lookup_insert_ne by done.
    destruct (decide (k ∈ keys)); [rewrite decide_True by set_solver|rewrite decide_False by set_solver]; done.
Qed.

(** The charge of a transaction at [units] compute units. *)
Definition charge_at (c : TransactionCost Tx) (units : Z) : Charge Key :=
  MkCharge (writable_accounts c) (is_simple_vote c) units (allocated_accounts_data_size c).

(** The cost of a transaction as it is reserved. *)
Definition estimate (c : TransactionCost Tx) : Charge Key := charge_at c (sum c).

Lemma add_execution_recorded t c adj m :
  NoDup (writable_accounts c) -> m <> DataSize ->
  0 <= recorded m t + value m (charge_at c adj) <= word_max 64 ->
  recorded m (add_transaction_execution_cost t c adj).1 = recorded m t + value m (charge_at c adj).
Proof.
  intros Hn Hm Hb. unfold add_transaction_execution_cost.
  pose proof (charge_accounts_lookup adj (writable_accounts c) (cost_by_writable_accounts t) 0) as Hl.
  destruct (foldl _ _ _) as [accounts costliest]. simpl in Hl.
  destruct m as [| |k|]; cbn in Hb |- *; [exact (wadd_small _ _ _ Hb)| |..|done].
  - destruct (is_simple_vote c); [exact (sat_add_small _ _ _ (proj2 Hb))|lia].
  - rewrite Hl by done. case_decide; [exact (sat_add_small _ _ _ (proj2 Hb))|lia].
Qed.

Lemma sub_execution_recorded t c adj m :
  NoDup (writable_accounts c) -> m <> DataSize -> 0 <= adj ->
  recorded m t <= word_max 64 -> value m (charge_at c adj) <= recorded m t ->
  recorded m (sub_transaction_execution_cost t c adj) = recorded m t - value m (charge_at c adj).
Proof.
  intros Hn Hm Hadj Hmax Hb. unfold sub_transaction_execution_cost.
  destruct m as [| |k|]; cbn in Hb, Hmax |- *; [by apply wsub_small| |..|done].
  - unfold sat_sub. destruct (is_simple_vote c); lia.
  - rewrite credit_accounts_lookup by done. unfold sat_sub. case_decide; lia.
Qed.

(** A cost as the model computes it: its parts add up without saturation. *)
Record cost_ok (c : TransactionCost Tx) : Prop := {
  cost_keys : NoDup (writable_accounts c);
  cost_fixed : 0 <= signature_cost c /\ 0 <= write_lock_cost c /\ 0 <= data_bytes_cost c;
  cost_execution : 0 <= programs_execution_cost c < 2 ^ 50 /\ 0 <= loaded_accounts_data_size_cost c < 2 ^ 50;
  cost_sum : sum c = parts c;
  cost_data : 0 <= allocated_accounts_data_size c
}.

(** The units of a transaction after its execution is accounted for. *)
Definition settled (c : TransactionCost Tx) (units loaded_cost : Z) : Z :=
  sum c - (programs_execution_cost c + loaded_accounts_data_size_cost c) + (units + loaded_cost).

Lemma cost_sum_nonneg c : cost_ok c -> 0 <= sum c.
Proof. intros [_ ? ? -> _]. unfold parts. lia. Qed.

Lemma charge_at_ok c units : cost_ok c -> 0 <= units -> charge_ok (charge_at c units).
Proof. intros [] ?. by split. Qed.

Lemma settled_nonneg c units loaded_cost :
  cost_ok c -> 0 <= units -> 0 <= loaded_cost -> 0 <= settled c units loaded_cost.
Proof. intros [_ ? ? Hs _] ? ?. unfold settled. rewrite Hs. unfold parts. lia. Qed.

Lemma value_charge_at m c x y : m <> DataSize -> value m (charge_at c (x + y)) = value m (charge_at c x) + value m (charge_at c y).
Proof. destruct m; simpl; intros; repeat case_match; (done || lia). Qed.

Lemma value_charge_at_data c x : value DataSize (charge_at c x) = allocated_accounts_data_size c.
Proof. done. Qed.

Lemma represents_add t c l :
  represents t l -> Forall charge_ok l -> cost_ok c -> fits (estimate c :: l) ->
  represents (add_transaction_cost t c).1 (estimate c :: l).
Proof.
  intros [Hr Hc] Hl Hok Hf. pose proof (cost_sum_nonneg c Hok) as Hs.
  assert (Forall charge_ok (estimate c :: l)) as Hl' by (constructor; [by apply charge_at_ok|done]).
  split.
  - intros m. rewrite total_cons. pose proof (total_fits m _ Hl' Hf) as Hm. rewrite total_cons in Hm.
    pose proof (total_nonneg m l Hl). pose proof (value_nonneg m (estimate c) ltac:(by apply charge_at_ok)).
    rewrite <- Hr in *. destruct (decide (m = DataSize)) as [->|Hne].
    + unfold add_transaction_cost, add_transaction_execution_cost. destruct (foldl _ _ _). cbn in Hm |- *.
      rewrite sat_add_small by lia. lia.
    + unfold add_transaction_cost. rewrite add_execution_recorded; [|apply Hok|done|].
      * destruct m; cbn; (done || lia).
      * destruct m; cbn in *; (done || lia).
  - destruct Hf as (_ & _ & Hlen). cbn [length] in Hlen |- *.
    unfold add_transaction_cost, add_transaction_execution_cost. destruct (foldl _ _ _). cbn.
    rewrite Hc, sat_add_small by lia. lia.
Qed.

Lemma represents_sub t c adj x l :
  represents t (charge_at c (x + adj) :: l) -> Forall charge_ok (charge_at c (x + adj) :: l) -> cost_ok c ->
  fits (charge_at c (x + adj) :: l) -> 0 <= x -> 0 <= adj ->
  represents (sub_transaction_execution_cost t c adj) (charge_at c x :: l).
Proof.
  intros [Hr Hc] Hl Hok Hf Hx Hadj. split; [|exact Hc].
  intros m. rewrite total_cons. pose proof (total_fits m _ Hl Hf) as Hm. rewrite <- Hr in Hm.
  pose proof (total_nonneg m l ltac:(by inversion Hl)). specialize (Hr m). rewrite total_cons in Hr.
  destruct (decide (m = DataSize)) as [->|Hne]; [by rewrite value_charge_at_data in *|].
  pose proof (value_nonneg m _ (charge_at_ok c x Hok Hx)).
  rewrite value_charge_at in Hr by done.
  rewrite sub_execution_recorded; [lia|apply Hok|done..|lia].
Qed.

Lemma represents_extra t c adj x l :
  represents t (charge_at c x :: l) -> Forall charge_ok (charge_at c x :: l) -> cost_ok c ->
  fits (charge_at c (x + adj) :: l) -> 0 <= x -> 0 <= adj ->
  represents (add_transaction_execution_cost t c adj).1 (charge_at c (x + adj) :: l).
Proof.
  intros [Hr Hc] Hl Hok Hf Hx Hadj.
  assert (Forall charge_ok (charge_at c (x + adj) :: l)) as Hl'
    by (constructor; [apply charge_at_ok; [done|lia]|by inversion Hl]).
  split; [|rewrite (length_cons (charge_at c (x + adj))); revert Hc; unfold add_transaction_execution_cost;
           by destruct (foldl _ _ _)].
  intros m. rewrite total_cons. pose proof (total_fits m _ Hl' Hf) as Hm. rewrite total_cons in Hm.
  pose proof (total_nonneg m l ltac:(by inversion Hl)). specialize (Hr m). rewrite total_cons in Hr.
  destruct (decide (m = DataSize)) as [->|Hne].
  - rewrite value_charge_at_data in *. rewrite <- Hr. unfold add_transaction_execution_cost. by destruct (foldl _ _ _).
  - pose proof (value_nonneg m _ (charge_at_ok c x Hok Hx)). pose proof (value_nonneg m _ (charge_at_ok c adj Hok Hadj)).
    rewrite value_charge_at in * by done. rewrite add_execution_recorded; [lia|apply Hok|done|lia].
Qed.

Lemma represents_update t c units loaded_cost l :
  represents t (estimate c :: l) -> Forall charge_ok l -> cost_ok c ->
  0 <= units < 2 ^ 63 -> 0 <= loaded_cost < 2 ^ 50 ->
  fits (charge_at c (Z.max (sum c) (settled c units loaded_cost)) :: l) ->
  represents (update_execution_cost t c units loaded_cost) (charge_at c (settled c units loaded_cost) :: l).
Proof.
  intros Hr Hl Hok Hu Hld Hf. pose proof (cost_sum_nonneg c Hok) as Hs.
  pose proof (settled_nonneg c units loaded_cost Hok ltac:(lia) ltac:(lia)) as Hset.
  destruct (cost_execution c Hok) as [He1 He2].
  assert (Forall charge_ok (estimate c :: l)) as Hl' by (constructor; [by apply charge_at_ok|done]).
  unfold update_execution_cost. rewrite !sat_add_small by (unfold word_max; lia).
  set (actual := units + loaded_cost). set (est := programs_execution_cost c + loaded_accounts_data_size_cost c).
  assert (settled c units loaded_cost = sum c - est + actual) as Heq by done. rewrite Heq in *.
  destruct (Z.compare_spec actual est) as [Hc|Hc|Hc].
  - replace (sum c - est + actual) with (sum c) by lia. exact Hr.
  - assert (sum c - est + actual + (est - actual) = sum c) as Hx by lia.
    apply represents_sub; rewrite ?Hx; [exact Hr|exact Hl'|done| |exact Hset|lia].
    by rewrite Z.max_l in Hf by lia.
  - replace (sum c - est + actual) with (sum c + (actual - est)) in * by lia.
    apply represents_extra; [exact Hr|exact Hl'|done| |done|lia]. by rewrite Z.max_r in Hf by lia.
Qed.

Lemma represents_remove t c l :
  represents t (estimate c :: l) -> Forall charge_ok l -> cost_ok c -> fits (estimate c :: l) ->
  represents (remove t c) l.
Proof.
  intros Hr Hl Hok Hf. pose proof (cost_sum_nonneg c Hok) as Hs.
  assert (Forall charge_ok (estimate c :: l)) as Hl' by (constructor; [by apply charge_at_ok|done]).
  destruct (represents_sub t c (sum c) 0 l) as [Hsub Hcount]; try done.
  split.
  - intros m. specialize (Hsub m). rewrite total_cons in Hsub. pose proof (total_nonneg m l Hl).
    destruct (decide (m = DataSize)) as [->|Hne].
    + rewrite value_charge_at_data in Hsub. unfold remove. cbn in Hsub |- *. unfold sat_sub. rewrite Hsub.
      pose proof (cost_data c Hok). lia.
    + assert (value m (charge_at c 0) = 0) as Hz by (destruct m; simpl; repeat case_match; done).
      rewrite Hz in Hsub. unfold remove. destruct m; cbn in Hsub |- *; (done || lia).
  - unfold remove. cbn in Hcount |- *. rewrite Hcount. unfold sat_sub. lia.
Qed.

(** *** Transactions the block stage executed *)

Definition executed_charge (x : Tx * Z * Z) : Charge Key :=
  MkCharge (writable_keys x.1.1) (is_simple_vote_transaction (Key := Key) x.1.1) x.1.2 x.2.

Context `{!SVMSignatures Tx}.

Lemma represents_executed t x l :
  represents t l -> Forall charge_ok l -> charge_ok (executed_charge x) -> fits (executed_charge x :: l) ->
  represents (add_executed_transaction_cost t x) (executed_charge x :: l).
Proof.
  intros [Hr Hc] Hl Hok Hf.
  assert (Forall charge_ok (executed_charge x :: l)) as Hl' by by constructor.
  destruct x as [[tx units] loaded]. split.
  - intros m. rewrite total_cons. pose proof (total_fits m _ Hl' Hf) as Hm. rewrite total_cons in Hm.
    pose proof (total_nonneg m l Hl) as H0. pose proof (value_nonneg m _ Hok) as H1. rewrite <- Hr in *.
    destruct Hok as [Hn _ _]. cbn in Hn.
    pose proof (charge_accounts_lookup units (writable_keys tx) (cost_by_writable_accounts t) 0) as Ha.
    destruct m as [| |k|]; cbn in Hm, H0, H1 |- *.
    + rewrite wadd_small by lia. lia.
    + destruct (is_simple_vote_transaction tx); [rewrite sat_add_small by lia|]; lia.
    + rewrite Ha by done. case_decide; [rewrite sat_add_small by lia|]; lia.
    + rewrite sat_add_small by lia. lia.
  - destruct Hf as (_ & _ & Hlen). cbn [length] in Hlen |- *. cbn.
    rewrite Hc, sat_add_small by lia. lia.
Qed.

(** *** Admission *)

(** Limits a saturated counter would exceed. *)
Definition limits_ok (t : CostTracker Key) : Prop :=
  0 <= account_cost_limit t < word_max 64 /\ 0 <= block_cost_limit t < word_max 64 /\
  0 <= vote_cost_limit t < word_max 64.

Lemma sat_add_le w x y b : b < word_max w -> sat_add w x y <= b -> x + y <= b.
Proof. unfold sat_add. lia. Qed.

Lemma would_fit_ok t c reservation :
  limits_ok t -> 0 <= reservation -> would_fit t c reservation = Ok tt ->
  sum c <= account_cost_limit t /\
  forall m, value m (estimate c) = 0 /\ m <> DataSize \/ recorded m t + value m (estimate c) <= limit m t.
Proof.
  intros (Ha & Hb & Hv) Hr Hf. unfold would_fit in Hf.
  destruct (is_simple_vote c && _) eqn:Hvote; [done|].
  destruct (sat_sub _ _ <? _) eqn:Hblock; [done|]. destruct (_ <? sum c) eqn:Hacc; [done|].
  destruct (MAX_BLOCK_ACCOUNTS_DATA_SIZE_DELTA <? _) eqn:Hdata; [done|].
  destruct (forallb _ _) eqn:Hall; [|done]. bool_to_prop. split; [lia|].
  intros [| |k|]; cbn.
  - right. apply (sat_add_le 64); [lia|]. unfold sat_sub in *. lia.
  - destruct (is_simple_vote c); simpl in Hvote; [|by left]. bool_to_prop. right. apply (sat_add_le 64); lia.
  - case_decide as Hk; [right|by left]. apply list_elem_of_In in Hk.
    rewrite forallb_forall in Hall. specialize (Hall k Hk). unfold account_fits in Hall.
    destruct (_ !! k); simpl; bool_to_prop; [apply (sat_add_le 64); lia|lia].
  - right. apply (sat_add_le 64); [vm_compute; done|lia].
Qed.

Lemma would_fit_complete t c :
  sum c <= account_cost_limit t ->
  (forall m, recorded m t + value m (estimate c) <= limit m t) -> would_fit t c 0 = Ok tt.
Proof.
  intros Hs Hm. unfold would_fit.
  assert (forall x y b, x + y <= b -> (b <? sat_add 64 x y) = false) as Hsat
    by (intros; unfold sat_add; apply Z.ltb_ge; lia).
  pose proof (Hm BlockUnits) as Hb. pose proof (Hm VoteUnits) as Hv. pose proof (Hm DataSize) as Hd. cbn in Hb, Hv, Hd.
  assert (is_simple_vote c && (vote_cost_limit t <? sat_add 64 (vote_cost t) (sum c)) = false) as ->.
  { destruct (is_simple_vote c); [simpl; by apply Hsat|done]. }
  assert ((sat_sub (block_cost_limit t) 0 <? sat_add 64 (block_cost t) (sum c)) = false) as ->.
  { apply Z.ltb_ge. unfold sat_sub, sat_add. lia. }
  rewrite (proj2 (Z.ltb_ge _ _) Hs), (Hsat _ _ _ Hd).
  replace (forallb _ _) with true; [done|]. symmetry. apply forallb_forall. intros k Hk%list_elem_of_In.
  specialize (Hm (AccountUnits k)). cbn in Hm. rewrite decide_True in Hm by done. unfold account_fits.
  destruct (cost_by_writable_accounts t !! k); [|done]. simpl in Hm. apply Z.leb_le. unfold sat_add. lia.
Qed.


(** What the operations on costs leave alone. *)
Definition same_limits (t t' : CostTracker Key) : Prop :=
  account_cost_limit t' = account_cost_limit t /\ block_cost_limit t' = block_cost_limit t /\
  vote_cost_limit t' = vote_cost_limit t /\ original_vote_cost_limit t' = original_vote_cost_limit t.

Lemma same_limits_refl t : same_limits t t.
Proof. done. Qed.

Lemma same_limits_trans t1 t2 t3 : same_limits t1 t2 -> same_limits t2 t3 -> same_limits t1 t3.
Proof. unfold same_limits. intuition congruence. Qed.

Lemma add_cost_limits t c :
  same_limits t (add_transaction_cost t c).1 /\
  in_flight_transaction_count (add_transaction_cost t c).1 = in_flight_transaction_count t.
Proof. unfold add_transaction_cost, add_transaction_execution_cost. by destruct (foldl _ _ _). Qed.

Lemma update_limits t c units loaded_cost :
  same_limits t (update_execution_cost t c units loaded_cost) /\
  in_flight_transaction_count (update_execution_cost t c units loaded_cost) = in_flight_transaction_count t.
Proof.
  unfold update_execution_cost, add_transaction_execution_cost.
  destruct (_ ?= _); [done..|]. by destruct (foldl _ _ _).
Qed.

Lemma remove_limits t c :
  same_limits t (remove t c) /\ in_flight_transaction_count (remove t c) = in_flight_transaction_count t.
Proof. done. Qed.

End Charges.
End BlockCosts.

(** ** The QoS service and a leader's bank *)

Module Qos.
Import BlockCosts.

Inductive CommitTransactionDetails : Type :=
| Committed (compute_units loaded_accounts_data_size fee_payer_post_balance : Z)
    (outcome : result TransactionError unit)
| NotCommitted (err : TransactionError).

Section Qos.
Context {Key Tx : Type} `{Countable Key} `{!Sdk Key} `{!CostSdk Key} `{!SVMMessage Key Tx} `{!StaticMeta Key Tx}.
Context (migrating : list (Key * BuiltinCost Key)) (feature_set : FeatureSet Key).

Definition compute_transaction_costs (transactions : list Tx) (pre_results : list (result TransactionError unit)) :
    option (list (result TransactionError (TransactionCost Tx))) :=
  mapM (fun x => match x.2 with
                 | Ok _ => c ← calculate_cost migrating x.1 feature_set; Some (Ok c)
                 | Err e => Some (Err e)
                 end) (zip transactions pre_results).

(** The [map] over the costs, with the tracker and [num_included] as its state. *)
Fixpoint select_loop (t : CostTracker Key) (costs : list (result TransactionError (TransactionCost Tx)))
    (reservation_amount : Z) :
    CostTracker Key * list (result TransactionError (TransactionCost Tx)) * Z :=
  match costs with
  | [] => (t, [], 0)
  | Err e :: rest =>
      let '(t, results, num_included) := select_loop t rest reservation_amount in
      (t, Err e :: results, num_included)
  | Ok cost :: rest =>
      let '(t, added) := try_add t cost reservation_amount in
      let '(t, results, num_included) := select_loop t rest reservation_amount in
      match added with
      | Ok _ => (t, Ok cost :: results, num_included + 1)
      | Err e => (t, Err (transaction_error e) :: results, num_included)
      end
  end.

Definition select_transactions_per_cost (t : CostTracker Key) (transactions : list Tx)
    (costs : list (result TransactionError (TransactionCost Tx))) (reservation_amount : Z) :
    CostTracker Key * list (result TransactionError (TransactionCost Tx)) * Z :=
  let '(t, results, num_included) := select_loop t (zip transactions costs).*2 reservation_amount in
  (add_transactions_in_flight t num_included, results, num_included).

Definition select_and_accumulate_transaction_costs (t : CostTracker Key) (transactions : list Tx)
    (pre_results : list (result TransactionError unit)) (reservation_amount : Z) :
    option (CostTracker Key * list (result TransactionError (TransactionCost Tx)) * Z) :=
  costs ← compute_transaction_costs transactions pre_results;
  let '(t, results, num_included) := select_transactions_per_cost t transactions costs reservation_amount in
  Some (t, results, sat_sub (Z.of_nat (length transactions)) num_included).

(** Body of the loop of [remove_or_update_recorded_transaction_costs]. *)
Definition settle_one (st : CostTracker Key * Z)
    (x : result TransactionError (TransactionCost Tx) * CommitTransactionDetails) : CostTracker Key * Z :=
  match x with
  | (Ok tx_cost, Committed compute_units loaded _ _) =>
      (update_execution_cost st.1 tx_cost compute_units
         (calculate_loaded_accounts_data_size_cost (Key := Key) loaded), st.2 + 1)
  | (Ok tx_cost, NotCommitted _) => (remove st.1 tx_cost, st.2 + 1)
  | (Err _, _) => st
  end.

Definition remove_or_update_recorded_transaction_costs (t : CostTracker Key)
    (results : list (result TransactionError (TransactionCost Tx))) (status : list CommitTransactionDetails) :
    CostTracker Key :=
  let '(t, num_included) := foldl settle_one (t, 0) (zip results status) in
  sub_transactions_in_flight t num_included.

Definition remove_one (st : CostTracker Key * Z) (r : result TransactionError (TransactionCost Tx)) :
    CostTracker Key * Z :=
  match r with
  | Ok tx_cost => (remove st.1 tx_cost, st.2 + 1)
  | Err _ => st
  end.

Definition remove_unrecorded_transaction_costs (t : CostTracker Key)
    (results : list (result TransactionError (TransactionCost Tx))) : CostTracker Key :=
  let '(t, num_included) := foldl remove_one (t, 0) results in
  sub_transactions_in_flight t num_included.

Definition remove_or_update_costs (t : CostTracker Key)
    (results : list (result TransactionError (TransactionCost Tx)))
    (transaction_committed_status : option (list CommitTransactionDetails)) : CostTracker Key :=
  match transaction_committed_status with
  | Some status => remove_or_update_recorded_transaction_costs t results status
  | None => remove_unrecorded_transaction_costs t results
  end.

(** *** The charges of a batch *)

Definition included (results : list (result TransactionError (TransactionCost Tx))) : list (TransactionCost Tx) :=
  omap (fun r => match r with Ok c => Some c | Err _ => None end) results.

(** A committed transaction: its estimate, units and loaded data size. *)
Definition commit_charge (x : TransactionCost Tx * Z * Z) : Charge Key :=
  let '(c, units, loaded) := x in
  charge_at c (settled c units (calculate_loaded_accounts_data_size_cost (Key := Key) loaded)).

(** By how much a committed transaction exceeded its estimate. *)
Definition overrun (x : TransactionCost Tx * Z * Z) : Charge Key :=
  let '(c, units, loaded) := x in
  MkCharge (writable_accounts c) (is_simple_vote c)
    (Z.max 0 (settled c units (calculate_loaded_accounts_data_size_cost (Key := Key) loaded) - sum c)) 0.

Definition commits (results : list (result TransactionError (TransactionCost Tx)))
    (status : list CommitTransactionDetails) : list (TransactionCost Tx * Z * Z) :=
  omap (fun x => match x with
                 | (Ok c, Committed units loaded _ _) => Some (c, units, loaded)
                 | _ => None
                 end) (zip results status).

(** An estimate, raised to the settled units where those are higher. *)
Definition peak (c : TransactionCost Tx) (d : CommitTransactionDetails) : Charge Key :=
  charge_at c match d with
              | Committed units loaded _ _ =>
                  Z.max (sum c) (settled c units (calculate_loaded_accounts_data_size_cost (Key := Key) loaded))
              | NotCommitted _ => sum c
              end.

Definition peaks (results : list (result TransactionError (TransactionCost Tx)))
    (status : list CommitTransactionDetails) : list (Charge Key) :=
  omap (fun x => match x with (Ok c, d) => Some (peak c d) | (Err _, _) => None end) (zip results status).

Definition status_ok (d : CommitTransactionDetails) : Prop :=
  match d with
  | Committed units loaded _ _ => 0 <= units < 2 ^ 63 /\ 0 <= loaded < 2 ^ 32
  | NotCommitted _ => True
  end.

Context `{!SdkLaws Key} `{!CostSdkLaws Key}.

Lemma total_app m (l1 l2 : list (Charge Key)) : total m (l1 ++ l2) = total m l1 + total m l2.
Proof. apply Zsum_app. Qed.

Lemma value_mono m c x y : 0 <= x <= y -> value m (charge_at (Key := Key) c x) <= value m (charge_at c y).
Proof. intros ?. destruct m; simpl; repeat case_match; lia. Qed.

Lemma fits_le (l1 l2 : list (Charge Key)) :
  (forall m, total m l1 <= total m l2) -> (length l1 <= length l2)%nat -> fits l2 -> fits l1.
Proof.
  intros Hm Hl (? & ? & ?). pose proof (Hm BlockUnits). pose proof (Hm DataSize). repeat split; lia.
Qed.

Lemma included_ok c results : included (Ok c :: results) = c :: included results.
Proof. done. Qed.

Lemma peaks_ok c d results status : peaks (Ok c :: results) (d :: status) = peak c d :: peaks results status.
Proof. done. Qed.

Lemma commits_ok c d results status :
  commits (Ok c :: results) (d :: status) = commits [Ok c] [d] ++ commits results status.
Proof. by destruct d. Qed.

Lemma estimate_below_peak m c d : cost_ok c -> value m (estimate c) <= value m (peak c d).
Proof. intros Hok. pose proof (cost_sum_nonneg c Hok). destruct d; apply value_mono; lia. Qed.

Lemma estimates_below_peaks : forall results status,
  length results = length status -> Forall cost_ok (included results) ->
  (forall m, total m (estimate (Key := Key) <$> included results) <= total m (peaks results status)) /\
  length (included results) = length (peaks results status).
Proof.
  induction results as [|[c|e] results IH]; intros [|d status] Hlen Hc; try done.
  - rewrite included_ok in *. apply Forall_cons in Hc as [Hok Hc].
    destruct (IH status ltac:(simpl in Hlen; lia) Hc) as [IHm IHl].
    rewrite peaks_ok, fmap_cons. split; [|simpl; lia].
    intros m. rewrite !total_cons. specialize (IHm m). pose proof (estimate_below_peak m c d Hok). lia.
  - by apply IH; [simpl in Hlen; lia|].
Qed.

Lemma commit_below_peak m c d :
  cost_ok c -> status_ok d -> total m (commit_charge <$> commits [Ok c] [d]) <= value m (peak c d).
Proof.
  intros Hok Hd. pose proof (cost_sum_nonneg c Hok). destruct d as [units loaded bal out|err].
  - destruct Hd as [? Hld]. pose proof (memory_cost_range loaded Hld).
    assert (commits [Ok c] [Committed units loaded bal out] = [(c, units, loaded)]) as -> by done.
    cbn [fmap list_fmap commit_charge]. rewrite total_cons. cbn [total Zsum foldr]. rewrite Z.add_0_r. apply value_mono.
    split; [apply settled_nonneg; (done || lia)|lia].
  - apply value_nonneg, charge_at_ok; [done|]. lia.
Qed.

Lemma commits_length c d : (length (commit_charge <$> commits [Ok c] [d]) <= 1)%nat.
Proof. destruct d; simpl; lia. Qed.

Lemma commits_charge_ok c d : cost_ok c -> status_ok d -> Forall charge_ok (commit_charge <$> commits [Ok c] [d]).
Proof.
  intros Hok Hd. destruct d as [units loaded bal out|err]; [|constructor].
  destruct Hd as [? Hld]. pose proof (memory_cost_range loaded Hld).
  constructor; [|constructor]. apply charge_at_ok; [done|]. apply settled_nonneg; (done || lia).
Qed.

Lemma settle_one_spec c d t n other :
  represents t (estimate c :: other) -> cost_ok c -> Forall charge_ok other -> status_ok d ->
  fits (peak c d :: other) ->
  let st := settle_one (t, n) (Ok c, d) in
  represents st.1 ((commit_charge <$> commits [Ok c] [d]) ++ other) /\ st.2 = n + 1 /\
  same_limits t st.1 /\ in_flight_transaction_count st.1 = in_flight_transaction_count t.
Proof.
  intros Hr Hok Ho Hd Hf. destruct d as [units loaded bal out|err]; cbn [settle_one fst snd].
  - destruct Hd as [Hu Hld]. destruct (update_limits t c units
      (calculate_loaded_accounts_data_size_cost (Key := Key) loaded)) as [Hlim Hfl].
    split_and!; [|done..]. apply represents_update; try done. by apply memory_cost_range.
  - split_and!; [|done..]. by apply represents_remove.
Qed.

(** Settling a batch replaces its estimates by what was committed. *)
Lemma settle_spec : forall results status t n other,
  length results = length status ->
  represents t ((estimate <$> included results) ++ other) ->
  Forall cost_ok (included results) -> Forall charge_ok other -> Forall status_ok status ->
  fits (peaks results status ++ other) ->
  let st := foldl settle_one (t, n) (zip results status) in
  represents st.1 ((commit_charge <$> commits results status) ++ other) /\
  st.2 = n + Z.of_nat (length (included results)) /\ same_limits t st.1 /\
  in_flight_transaction_count st.1 = in_flight_transaction_count t.
Proof.
  induction results as [|[c|e] results IH]; intros [|d status] t n other Hlen Hr Hc Ho Hs Hf; try done.
  - split_and!; [done|simpl; lia|done|done].
  - rewrite included_ok, peaks_ok, commits_ok in *. apply Forall_cons in Hc as [Hok Hc].
    apply Forall_cons in Hs as [Hd Hs]. simpl in Hlen.
    destruct (estimates_below_peaks results status ltac:(lia) Hc) as [Hle Hll].
    pose proof (fun m => commit_below_peak m c d Hok Hd) as Hpk.
    destruct (settle_one_spec c d t n ((estimate <$> included results) ++ other)) as (Hr1 & Hn1 & Hl1 & Hf1); [done..| |done| |].
    { apply Forall_app. split; [|done]. apply Forall_fmap. eapply Forall_impl; [exact Hc|].
      intros c' Hc'. apply charge_at_ok; [done|by apply cost_sum_nonneg]. }
    { eapply fits_le; [..|exact Hf].
      - intros m. rewrite <- app_comm_cons, !total_cons, !total_app. specialize (Hle m). lia.
      - simpl. rewrite !length_app, length_fmap. lia. }
    cbn [zip zip_with foldl]. destruct (settle_one (t, n) (Ok c, d)) as [t1 n1]. simpl in Hr1, Hn1, Hl1, Hf1.
    destruct (IH status t1 n1 ((commit_charge <$> commits [Ok c] [d]) ++ other)) as (IH1 & IH2 & IH3 & IH4);
      [lia| |done| |done| |].
    { rewrite Permutation_app_swap_app. exact Hr1. }
    { apply Forall_app. split; [by apply commits_charge_ok|done]. }
    { eapply fits_le; [..|exact Hf].
      - intros m. rewrite <- app_comm_cons, total_cons, !total_app. specialize (Hpk m). lia.
      - simpl. pose proof (commits_length c d). rewrite !length_app in *. lia. }
    split_and!.
    + rewrite fmap_app, <- app_assoc, Permutation_app_swap_app. exact IH1.
    + rewrite IH2. cbn [length]. lia.
    + by eapply same_limits_trans.
    + by rewrite IH4.
  - cbn [zip zip_with foldl settle_one]. inversion Hs; subst. apply (IH status t n other); [simpl in Hlen; lia|done..].
Qed.

(** *** Reserving a batch *)

(** What a measure may reach: its limit, the vote limit being at most [V]. *)
Definition cap (V : Z) (m : measure Key) (t : CostTracker Key) : Z :=
  match m with
  | VoteUnits => V
  | _ => limit m t
  end.

(** The tracker shows [charges], which stay within the limits except for [overs]. *)
Record accounts_for (V : Z) (t : CostTracker Key) (charges overs : list (Charge Key)) : Prop := {
  af_represents : represents t charges;
  af_charges : Forall charge_ok charges;
  af_overs : Forall charge_ok overs;
  af_fits : fits charges;
  af_limits : limits_ok t;
  af_vote : vote_cost_limit t <= V;
  af_original : 0 <= original_vote_cost_limit t <= V;
  af_bound : forall m, total m charges <= cap V m t + total m overs
}.

Lemma add_accounts_for V t c charges overs reservation :
  accounts_for V t charges overs -> cost_ok c -> 0 <= reservation ->
  Z.of_nat (length charges) < word_max 64 -> would_fit t c reservation = Ok tt ->
  accounts_for V (add_transaction_cost t c).1 (estimate c :: charges) overs.
Proof.
  intros [Hrep Hok Hov Hf Hlim Hv Ho Hb] Hc Hr Hlen Hfit.
  destruct (would_fit_ok t c reservation Hlim Hr Hfit) as [_ Hm].
  pose proof (cost_sum_nonneg c Hc) as Hs.
  assert (charge_ok (estimate c)) as Hce by by apply charge_at_ok.
  destruct Hlim as (Hla & Hlb & Hlv).
  assert (fits (estimate c :: charges)) as Hf'.
  { destruct Hrep as [Hrep _]. destruct Hf as (Hf1 & Hf2 & Hf3). unfold fits. rewrite !total_cons.
    pose proof (Hm BlockUnits) as Hb1. pose proof (Hm DataSize) as Hd1. rewrite Hrep in Hb1, Hd1. cbn in Hb1, Hd1.
    assert (MAX_BLOCK_ACCOUNTS_DATA_SIZE_DELTA <= word_max 64) by (vm_compute; done).
    cbn [value estimate charge_at charge_units charge_data length]. split_and!; [lia|naive_solver lia|lia]. }
  destruct (add_cost_limits t c) as [(E1 & E2 & E3 & E4) _].
  split; [by apply represents_add|by constructor|done|done| | | |].
  - unfold limits_ok. by rewrite E1, E2, E3.
  - by rewrite E3.
  - by rewrite E4.
  - intros m. rewrite total_cons. pose proof (total_nonneg m overs Hov). specialize (Hb m).
    assert (cap V m (add_transaction_cost t c).1 = cap V m t) as -> by (destruct m; cbn; congruence).
    destruct (Hm m) as [[Hz _]|Hle]; [lia|]. destruct Hrep as [Hrep _]. rewrite Hrep in Hle.
    assert (limit m t <= cap V m t) by (destruct m; simpl; lia). lia.
Qed.

#[export] Instance accounts_for_perm V t : Proper ((≡ₚ) ==> (≡ₚ) ==> impl) (accounts_for V t).
Proof.
  intros c1 c2 Hc o1 o2 Ho [Hr Hok Hov Hf ? ? ? Hb]. unfold fits, total in *. split; try done.
  - by rewrite <- Hc.
  - by rewrite <- Hc.
  - by rewrite <- Ho.
  - unfold fits, total. by rewrite <- Hc.
  - intros m. specialize (Hb m). unfold total. by rewrite <- Hc, <- Ho.
Qed.

Lemma select_loop_spec V reservation overs : forall costs t charges,
  0 <= reservation -> accounts_for V t charges overs -> Forall cost_ok (included costs) ->
  Z.of_nat (length charges + length costs) <= word_max 64 ->
  let '(t', results, n) := select_loop t costs reservation in
  accounts_for V t' ((estimate <$> included results) ++ charges) overs /\
  n = Z.of_nat (length (included results)) /\ same_limits t t' /\
  in_flight_transaction_count t' = in_flight_transaction_count t /\
  included results ⊆ included costs /\
  Forall (fun c => sum c <= account_cost_limit t) (included results).
Proof.
  intros costs. induction costs as [|[c|e] costs IH]; intros t charges Hr Haf Hc Hlen; cbn [select_loop].
  - split_and!; done.
  - rewrite included_ok in *. apply Forall_cons in Hc as [Hok Hc]. cbn [length] in Hlen.
    unfold try_add. destruct (would_fit t c reservation) as [[]|e] eqn:Hfit.
    + pose proof (add_accounts_for V t c charges overs reservation Haf Hok Hr ltac:(lia) Hfit) as Haf1.
      destruct (add_cost_limits t c) as [Hl1 Hf1].
      destruct (would_fit_ok t c reservation (af_limits _ _ _ _ Haf) Hr Hfit) as [Hsum _].
      destruct (add_transaction_cost t c) as [t1 costliest]. simpl in Haf1, Hl1, Hf1.
      specialize (IH t1 (estimate c :: charges) Hr Haf1 Hc ltac:(simpl; lia)).
      destruct (select_loop t1 costs reservation) as [[t2 rs] n].
      destruct IH as (IH1 & IH2 & IH3 & IH4 & IH5 & IH6).
      destruct Hl1 as (E1 & ?). rewrite E1 in IH6. rewrite included_ok. split_and!.
      * rewrite fmap_cons. simpl. rewrite Permutation_middle. exact IH1.
      * cbn [length]. lia.
      * eapply same_limits_trans; [|exact IH3]. by split.
      * congruence.
      * set_solver.
      * by constructor.
    + specialize (IH t charges Hr Haf Hc ltac:(lia)). destruct (select_loop t costs reservation) as [[t2 rs] n].
      destruct IH as (IH1 & IH2 & IH3 & IH4 & IH5 & IH6). split_and!; try done. set_solver.
  - cbn [length] in Hlen. specialize (IH t charges Hr Haf Hc ltac:(lia)).
    destruct (select_loop t costs reservation) as [[t2 rs] n]. exact IH.
Qed.

(** *** A leader's bank *)

(** A transaction as the banking stage prepares it. *)
Definition tx_ok (tx : Tx) : Prop := static_meta (Key := Key) migrating tx /\ NoDup (account_keys (Key := Key) tx).

(** The costs that [calculate_cost] assigns to such transactions. *)
Definition priced (c : TransactionCost Tx) : Prop :=
  exists tx, tx_ok tx /\ calculate_cost migrating tx feature_set = Some c.

(** The SDK's constants and the table of builtins are as the code asserts. *)
Definition constants_ok : Prop :=
  validate_position 0 migrating = true /\ 0 <= HEAP_LENGTH (Key := Key) <= Details.MAX_HEAP_FRAME_BYTES.

Lemma allocated_nonneg (l : list (Key * SVMInstruction)) : 0 <= allocated l.
Proof.
  unfold allocated. case_decide; [|done]. pose proof permitted_allocations as [? _].
  pose proof (allocations_nonneg l). lia.
Qed.

Lemma calculate_cost_priced tx : constants_ok -> static_meta (Key := Key) migrating tx ->
  exists c, calculate_cost migrating tx feature_set = Some c /\ cost_transaction c = tx /\
    is_simple_vote c = is_simple_vote_transaction (Key := Key) tx.
Proof.
  intros [Hv Hh] Hm. destruct (is_simple_vote_transaction tx) eqn:Hvote.
  - exists (SimpleVote tx). unfold calculate_cost. by rewrite Hvote.
  - eexists. by rewrite calculate_cost_spec.
Qed.

Lemma non_vote_cost_ok tx units loaded_cost :
  tx_ok tx -> 0 <= units < 2 ^ 50 -> 0 <= loaded_cost < 2 ^ 50 ->
  cost_ok (calculate_non_vote_transaction_cost tx (program_instructions_iter tx) (num_write_locks (Key := Key) tx)
    units loaded_cost (get_instructions_data_cost (Key := Key) tx) feature_set).
Proof.
  intros [Hm Hn] Hr1 Hr2. destruct (get_signature_cost_exact migrating tx feature_set Hm) as (_ & Hs & Hw & Hd).
  split; [by apply NoDup_writable_keys|exact (conj (proj1 Hs) (conj (proj1 Hw) (proj1 Hd)))|exact (conj Hr1 Hr2)| |].
  - apply usage_sum_exact;
      [exact (proj1 Hs)|exact (proj1 Hw)|exact (proj1 Hd)|exact (proj1 Hr1)|exact (proj1 Hr2)|].
    unfold parts. cbn [signature_cost write_lock_cost data_bytes_cost programs_execution_cost
      loaded_accounts_data_size_cost usage_signature_cost usage_write_lock_cost usage_data_bytes_cost
      usage_programs_execution_cost usage_loaded_accounts_data_size_cost]. unfold word_max. lia.
  - cbn [allocated_accounts_data_size calculate_non_vote_transaction_cost usage_allocated_accounts_data_size].
    rewrite allocated_exact. apply allocated_nonneg.
Qed.

Lemma vote_cost_ok tx : NoDup (account_keys (Key := Key) tx) -> cost_ok (SimpleVote tx).
Proof.
  intros Hn. split; [by apply NoDup_writable_keys|vm_compute; split_and!; congruence
    |vm_compute; split_and!; congruence|done|done].
Qed.

(** A cost is that of a vote, or the estimate of another transaction. *)
Lemma priced_cases c : constants_ok -> priced c ->
  (exists tx, tx_ok tx /\ is_simple_vote_transaction (Key := Key) tx = true /\ c = SimpleVote tx) \/
  (exists tx, tx_ok tx /\ is_simple_vote_transaction (Key := Key) tx = false /\
    c = calculate_non_vote_transaction_cost tx (program_instructions_iter tx) (num_write_locks (Key := Key) tx)
          (reserved_units migrating tx feature_set).1 (reserved_units migrating tx feature_set).2
          (get_instructions_data_cost (Key := Key) tx) feature_set).
Proof.
  intros [Hv Hh] (tx & Htx & Hc). destruct (is_simple_vote_transaction tx) eqn:Hvote; [left|right]; exists tx.
  - unfold calculate_cost in Hc. rewrite Hvote in Hc. by simplify_eq.
  - rewrite calculate_cost_spec in Hc by (done || apply Htx). by simplify_eq.
Qed.

Lemma priced_ok c : constants_ok -> priced c -> cost_ok c.
Proof.
  intros Hk Hp. destruct (priced_cases c Hk Hp) as [(tx & [_ Hn] & _ & ->)|(tx & Htx & _ & ->)].
  - by apply vote_cost_ok.
  - destruct Hk as [_ Hh]. destruct (reserved_range migrating tx feature_set Hh). by apply non_vote_cost_ok.
Qed.

Record world : Type := MkWorld {
  tracker : CostTracker Key;
  (** batches that were selected and not settled yet *)
  flights : list (list (result TransactionError (TransactionCost Tx)));
  (** committed transactions with their units and loaded data size *)
  committed : list (TransactionCost Tx * Z * Z);
  (** transactions of executed blocks with their units and loaded data size *)
  executed : list (Tx * Z * Z)
}.

Definition reserved (w : world) : list (TransactionCost Tx) := flights w ≫= included.

Definition charges (w : world) : list (Charge Key) :=
  (estimate <$> reserved w) ++ (commit_charge <$> committed w) ++ (executed_charge <$> executed w).

Definition overs (w : world) : list (Charge Key) :=
  (overrun <$> committed w) ++ (executed_charge <$> executed w).

Definition executed_ok (x : Tx * Z * Z) : Prop :=
  NoDup (account_keys (Key := Key) x.1.1) /\ 0 <= x.1.2 /\ 0 <= x.2.

Context `{!SVMSignatures Tx}.

(** The charges of the other batches, the committed and the executed ones. *)
Definition rest (f : list (list (result TransactionError (TransactionCost Tx)))) (w : world) : list (Charge Key) :=
  (estimate <$> (f ≫= included)) ++ (commit_charge <$> committed w) ++ (executed_charge <$> executed w).

Inductive step : world -> world -> Prop :=
| step_select w transactions pre_results reservation t results throttled :
    Forall tx_ok transactions -> 0 <= reservation ->
    Z.of_nat (length (charges w) + length transactions) <= word_max 64 ->
    select_and_accumulate_transaction_costs (tracker w) transactions pre_results reservation =
      Some (t, results, throttled) ->
    step w (MkWorld t (results :: flights w) (committed w) (executed w))
| step_settle w f1 results f2 status :
    flights w = f1 ++ results :: f2 -> length results = length status -> Forall status_ok status ->
    fits (peaks results status ++ rest (f1 ++ f2) w) ->
    step w (MkWorld (remove_or_update_costs (tracker w) results (Some status)) (f1 ++ f2)
              (commits results status ++ committed w) (executed w))
| step_abandon w f1 results f2 :
    flights w = f1 ++ results :: f2 ->
    step w (MkWorld (remove_or_update_costs (tracker w) results None) (f1 ++ f2) (committed w) (executed w))
| step_execute w txs :
    Forall executed_ok txs -> fits ((executed_charge <$> txs) ++ charges w) ->
    step w (MkWorld (add_executed_transaction_costs (tracker w) txs) (flights w) (committed w)
              (txs ++ executed w))
| step_propose w :
    step w (MkWorld (set_proposer_vote_limit (tracker w)) (flights w) (committed w) (executed w))
| step_restore w :
    step w (MkWorld (restore_vote_limit (tracker w)) (flights w) (committed w) (executed w)).

Definition initial (t : CostTracker Key) (w : world) : Prop := w = MkWorld t [] [] [].

(** A tracker at the start of a block. *)
Definition fresh (t : CostTracker Key) : Prop :=
  represents t [] /\ limits_ok t /\ 0 <= original_vote_cost_limit t /\ in_flight_transaction_count t = 0.

Definition vote_cap (t : CostTracker Key) : Z :=
  Z.max (Z.max (vote_cost_limit t) (original_vote_cost_limit t)) PROPOSER_VOTE_LIMIT.

Record bank_inv (t0 : CostTracker Key) (w : world) : Prop := {
  bi_accounts : accounts_for (vote_cap t0) (tracker w) (charges w) (overs w);
  bi_in_flight : in_flight_transaction_count (tracker w) = Z.of_nat (length (reserved w));
  bi_account_limit : account_cost_limit (tracker w) = account_cost_limit t0;
  bi_block_limit : block_cost_limit (tracker w) = block_cost_limit t0;
  bi_priced : Forall (fun c => priced c /\ sum c <= account_cost_limit t0) (reserved w ++ (committed w).*1.*1);
  bi_status : Forall (fun x => 0 <= x.1.2 < 2 ^ 63 /\ 0 <= x.2 < 2 ^ 32) (committed w)
}.

Lemma compute_costs_priced transactions pre_results costs :
  Forall tx_ok transactions -> compute_transaction_costs transactions pre_results = Some costs ->
  Forall priced (included costs) /\ (length costs <= length transactions)%nat.
Proof.
  intros Htx Hc. unfold compute_transaction_costs in Hc. apply mapM_Some in Hc. split.
  - assert (Forall (fun x => tx_ok x.1) (zip transactions pre_results)) as Hz.
    { apply Forall_forall. intros [tx pre] Hin%elem_of_zip_l. by eapply Forall_forall in Htx. }
    induction Hc as [|x r l costs Hx _ IH]; [constructor|]. apply Forall_cons in Hz as [Hx1 Hz].
    specialize (IH Hz). destruct (x.2) as [u|e]; [|by simplify_eq].
    destruct (calculate_cost migrating x.1 feature_set) as [c|] eqn:Hcost; [|done]. simplify_eq/=.
    constructor; [by exists x.1|done].
  - apply Forall2_length in Hc. rewrite length_zip_with in Hc. lia.
Qed.

Lemma compute_costs_total transactions pre_results :
  constants_ok -> Forall tx_ok transactions ->
  is_Some (compute_transaction_costs transactions pre_results).
Proof.
  intros Hk Htx. unfold compute_transaction_costs. apply mapM_is_Some, Forall_forall.
  intros [tx pre] Hin%elem_of_zip_l. simpl. eapply Forall_forall in Htx as [Hm _]; [|done].
  destruct pre; [|done]. destruct (calculate_cost_priced tx Hk Hm) as (c & -> & _). done.
Qed.

Lemma zip_snd_id {A B} (l1 : list A) (l2 : list B) : (length l2 <= length l1)%nat -> (zip l1 l2).*2 = l2.
Proof. intros. by rewrite snd_zip. Qed.

Lemma accounts_for_in_flight V t n c o : accounts_for V t c o -> accounts_for V (set_in_flight t n) c o.
Proof. intros [[Hr1 Hr2] ? ? ? ? ? ? Hb]. by split. Qed.

Lemma charges_select w t results :
  charges (MkWorld t (results :: flights w) (committed w) (executed w)) =
  (estimate <$> included results) ++ charges w.
Proof. unfold charges, reserved. simpl. by rewrite fmap_app, <- app_assoc. Qed.

Lemma select_inv t0 w transactions pre_results reservation t results throttled :
  constants_ok -> bank_inv t0 w -> Forall tx_ok transactions -> 0 <= reservation ->
  Z.of_nat (length (charges w) + length transactions) <= word_max 64 ->
  select_and_accumulate_transaction_costs (tracker w) transactions pre_results reservation =
    Some (t, results, throttled) ->
  bank_inv t0 (MkWorld t (results :: flights w) (committed w) (executed w)).
Proof.
  intros Hk [Haf Hfl Hal Hbl Hpr Hst] Htx Hr Hlen Hsel.
  unfold select_and_accumulate_transaction_costs in Hsel.
  destruct (compute_transaction_costs transactions pre_results) as [costs|] eqn:Hcosts; [|done].
  destruct (compute_costs_priced _ _ _ Htx Hcosts) as [Hpriced Hcl].
  simpl in Hsel. unfold select_transactions_per_cost in Hsel. rewrite zip_snd_id in Hsel by done.
  pose proof (select_loop_spec (vote_cap t0) reservation (overs w) costs (tracker w) (charges w) Hr Haf) as Hspec.
  destruct (select_loop (tracker w) costs reservation) as [[t1 rs] n].
  destruct Hspec as (Haf1 & -> & (L1 & L2 & L3 & L4) & Hfl1 & Hsub & Hsums).
  { eapply Forall_impl; [exact Hpriced|]. intros c. by apply priced_ok. }
  { lia. }
  simplify_eq. rewrite Hal in L1, Hsums. split; rewrite ?charges_select; cbn [tracker committed executed].
  - by apply accounts_for_in_flight.
  - change (sat_add 64 (in_flight_transaction_count t1) (Z.of_nat (length (included results))) =
      Z.of_nat (length ((results :: flights w) ≫= included))).
    rewrite Hfl1, Hfl, bind_cons, length_app. unfold reserved.
    rewrite sat_add_small; [lia|]. pose proof (af_fits _ _ _ _ Haf1) as (_ & _ & Hn).
    unfold charges, reserved in Hn. rewrite !length_app, !length_fmap in Hn. lia.
  - exact L1.
  - exact (eq_trans L2 Hbl).
  - unfold reserved. cbn [flights]. rewrite bind_cons, <- app_assoc. apply Forall_app. split; [|done].
    apply Forall_forall. intros c Hc. split.
    + eapply Forall_forall; [exact Hpriced|]. by apply Hsub.
    + eapply Forall_forall in Hsums; [|done]. done.
  - done.
Qed.

Lemma reserved_split f1 (results : list (result TransactionError (TransactionCost Tx))) f2 :
  (f1 ++ results :: f2) ≫= included ≡ₚ included results ++ (f1 ++ f2) ≫= included.
Proof. rewrite !bind_app, bind_cons. apply Permutation_app_swap_app. Qed.

Lemma charges_split w f1 results f2 : flights w = f1 ++ results :: f2 ->
  charges w ≡ₚ (estimate <$> included results) ++ rest (f1 ++ f2) w.
Proof.
  intros Hf. unfold charges, reserved, rest. rewrite Hf, reserved_split, fmap_app, <- app_assoc. done.
Qed.

(** Committed units exceed the estimates by the overruns at most. *)
Lemma commits_bound m : forall results status,
  length results = length status -> Forall cost_ok (included results) ->
  total m (commit_charge <$> commits results status) <=
  total m (estimate <$> included results) + total m (overrun <$> commits results status).
Proof.
  induction results as [|[c|e] results IH]; intros [|d status] Hlen Hc; try done.
  - rewrite included_ok, commits_ok, !fmap_app, fmap_cons, !total_app, total_cons in *.
    apply Forall_cons in Hc as [Hok Hc]. specialize (IH status ltac:(simpl in Hlen; lia) Hc).
    pose proof (value_nonneg m (estimate c) (charge_at_ok c _ Hok (cost_sum_nonneg c Hok))).
    enough (total m (commit_charge <$> commits [Ok c] [d]) <=
      value m (estimate c) + total m (overrun <$> commits [Ok c] [d])) by lia.
    destruct d as [units loaded bal out|err]; [|cbn [commits zip zip_with omap list_omap fmap list_fmap total Zsum foldr]; lia].
    unfold total. cbn [commits zip zip_with omap list_omap fmap list_fmap Zsum foldr].
    destruct m as [| |k|]; simpl; repeat case_match; lia.
  - by apply IH; [simpl in Hlen; lia|].
Qed.

Lemma overrun_ok x : cost_ok x.1.1 -> charge_ok (overrun x).
Proof. intros []. destruct x as [[c u] l]. split; simpl in *; [done|lia|lia]. Qed.

Lemma commits_costs : forall results status,
  length results = length status -> (commits results status).*1.*1 ⊆ included results.
Proof.
  induction results as [|[c|e] results IH]; intros [|d status] Hlen; try done.
  - rewrite commits_ok, included_ok, !fmap_app. specialize (IH status ltac:(simpl in Hlen; lia)).
    destruct d; simpl; set_solver.
  - apply IH. simpl in Hlen. lia.
Qed.

Lemma commits_status : forall results status, Forall status_ok status ->
  Forall (fun x => 0 <= x.1.2 < 2 ^ 63 /\ 0 <= x.2 < 2 ^ 32) (commits results status).
Proof.
  intros results. induction results as [|[c|e] results IH]; intros [|d status] Hs; try (by constructor).
  - apply Forall_cons in Hs as [Hd Hs]. rewrite commits_ok. apply Forall_app. split; [|by apply IH].
    destruct d; [|constructor]. by constructor.
  - apply Forall_cons in Hs as [_ Hs]. by apply IH.
Qed.

Lemma commits_all_ok : forall results status, Forall cost_ok (included results) -> Forall status_ok status ->
  Forall charge_ok (commit_charge <$> commits results status) /\
  (length (commits results status) <= length (peaks results status))%nat /\
  (forall m, total m (commit_charge <$> commits results status) <= total m (peaks results status)).
Proof.
  intros results. induction results as [|[c|e] results IH]; intros [|d status] Hc Hs; try done.
  - rewrite included_ok, commits_ok, peaks_ok in *. apply Forall_cons in Hc as [Hok Hc].
    apply Forall_cons in Hs as [Hd Hs]. destruct (IH status Hc Hs) as (IH1 & IH2 & IH3). rewrite fmap_app.
    split_and!.
    + apply Forall_app. split; [by apply commits_charge_ok|done].
    + pose proof (commits_length c d) as Hl. rewrite length_fmap in Hl. rewrite length_app. simpl. lia.
    + intros m. rewrite total_app, total_cons. specialize (IH3 m). pose proof (commit_below_peak m c d Hok Hd). lia.
  - apply Forall_cons in Hs as [_ Hs]. by apply IH.
Qed.

Lemma settle_accounts V t results status other o :
  accounts_for V t ((estimate <$> included results) ++ other) o -> length results = length status ->
  Forall cost_ok (included results) -> Forall status_ok status -> fits (peaks results status ++ other) ->
  let st := foldl settle_one (t, 0) (zip results status) in
  accounts_for V st.1 ((commit_charge <$> commits results status) ++ other)
    ((overrun <$> commits results status) ++ o) /\
  st.2 = Z.of_nat (length (included results)) /\ same_limits t st.1 /\
  in_flight_transaction_count st.1 = in_flight_transaction_count t.
Proof.
  intros [Hrep Hok Hov Hf Hlim Hv Ho Hb] Hlen Hcok Hs Hfit.
  apply Forall_app in Hok as [_ Hrest].
  destruct (settle_spec results status t 0 other Hlen Hrep Hcok Hrest Hs Hfit)
    as (Hrep' & Hn & (L1 & L2 & L3 & L4) & Hin).
  destruct (commits_all_ok results status Hcok Hs) as (Hall & Hlc & Htot).
  simpl. split_and!; [|done..]. split; [done|by apply Forall_app| | | | | |].
  - apply Forall_app. split; [|done]. apply Forall_fmap, Forall_forall. intros x Hx. apply overrun_ok.
    eapply Forall_forall; [exact Hcok|]. apply (commits_costs results status Hlen).
    apply list_elem_of_fmap. exists x.1. split; [done|]. by apply list_elem_of_fmap_2.
  - eapply fits_le; [..|exact Hfit]; [intros m; rewrite !total_app; specialize (Htot m); lia|].
    rewrite !length_app, length_fmap. lia.
  - unfold limits_ok. by rewrite L1, L2, L3.
  - by rewrite L3.
  - by rewrite L4.
  - intros m. specialize (Hb m). rewrite !total_app in *. pose proof (commits_bound m results status Hlen Hcok).
    assert (cap V m (foldl settle_one (t, 0) (zip results status)).1 = cap V m t) as -> by (destruct m; cbn [cap limit]; congruence).
    lia.
Qed.

Lemma settle_inv t0 w f1 results f2 status :
  constants_ok -> bank_inv t0 w -> flights w = f1 ++ results :: f2 -> length results = length status ->
  Forall status_ok status -> fits (peaks results status ++ rest (f1 ++ f2) w) ->
  bank_inv t0 (MkWorld (remove_or_update_costs (tracker w) results (Some status)) (f1 ++ f2)
                 (commits results status ++ committed w) (executed w)).
Proof.
  intros Hk [Haf Hfl Hal Hbl Hpr Hst] Hflights Hlen Hs Hfit.
  rewrite (charges_split _ _ _ _ Hflights) in Haf.
  unfold reserved in Hpr, Hfl. rewrite Hflights, reserved_split in Hpr, Hfl. rewrite <- app_assoc in Hpr.
  apply Forall_app in Hpr as [Hpr1 Hpr2].
  destruct (settle_accounts _ _ results status _ _ Haf Hlen) as (Haf' & Hn & (L1 & L2 & L3 & L4) & Hin); [|done..|].
  { eapply Forall_impl; [exact Hpr1|]. intros c [? _]. by apply priced_ok. }
  unfold remove_or_update_costs, remove_or_update_recorded_transaction_costs.
  destruct (foldl settle_one (tracker w, 0) (zip results status)) as [t' n']. simpl in Haf', Hn, L1, L2, L3, L4, Hin.
  split; cbn [tracker flights committed executed].
  - apply accounts_for_in_flight. eapply accounts_for_perm; [..|exact Haf'].
    + unfold charges, reserved, rest. cbn [flights committed executed]. rewrite fmap_app.
      rewrite (Permutation_app_swap_app (commit_charge <$> commits results status)), <- !app_assoc. done.
    + unfold overs. cbn [committed executed]. by rewrite fmap_app, <- app_assoc.
  - cbn. rewrite Hn, Hin, Hfl, length_app. unfold sat_sub, reserved. cbn [flights]. lia.
  - cbn. congruence.
  - cbn. congruence.
  - apply Forall_app in Hpr2 as [Hpr2 Hpr3]. rewrite !fmap_app, !Forall_app. split_and!; [done| |done].
    apply Forall_forall. intros c Hc. eapply Forall_forall in Hpr1; [exact Hpr1|]. by eapply commits_costs.
  - apply Forall_app. split; [by apply commits_status|done].
Qed.

(** Abandoning a batch is settling it with nothing committed. *)
Lemma abandon_is_settle t results e :
  remove_or_update_costs t results None =
  remove_or_update_costs t results (Some (replicate (length results) (NotCommitted e))).
Proof.
  unfold remove_or_update_costs, remove_unrecorded_transaction_costs, remove_or_update_recorded_transaction_costs.
  replace (foldl settle_one (t, 0) (zip results (replicate (length results) (NotCommitted e))))
    with (foldl remove_one (t, 0) results); [done|].
  generalize (t, 0). induction results as [|[c|e'] results IH]; intros st; [done|..]; simpl; by rewrite IH.
Qed.

Lemma abandon_commits results e : commits results (replicate (length results) (NotCommitted e)) = [].
Proof. induction results as [|[c|e'] results IH]; [done|exact IH..]. Qed.

Lemma abandon_peaks results e :
  peaks results (replicate (length results) (NotCommitted e)) = estimate <$> included results.
Proof.
  induction results as [|[c|e'] results IH]; [done|..]; cbn [length replicate].
  - rewrite peaks_ok, included_ok, fmap_cons. by rewrite IH.
  - exact IH.
Qed.

Lemma abandon_inv t0 w f1 results f2 :
  constants_ok -> bank_inv t0 w -> flights w = f1 ++ results :: f2 ->
  bank_inv t0 (MkWorld (remove_or_update_costs (tracker w) results None) (f1 ++ f2) (committed w) (executed w)).
Proof.
  intros Hk Hinv Hfl. rewrite (abandon_is_settle _ _ AccountInUse).
  pose proof (settle_inv t0 w f1 results f2 (replicate (length results) (NotCommitted AccountInUse)) Hk Hinv Hfl) as Hs.
  rewrite abandon_commits, abandon_peaks in Hs. apply Hs.
  - by rewrite length_replicate.
  - by apply Forall_replicate.
  - destruct Hinv as [[_ _ _ Hfits _ _ _ _] _ _ _ _ _]. eapply fits_le; [..|exact Hfits].
    + intros m. unfold total. by rewrite (charges_split _ _ _ _ Hfl).
    + by rewrite (charges_split _ _ _ _ Hfl).
Qed.

Lemma executed_charge_ok x : executed_ok x -> charge_ok (executed_charge x).
Proof. intros (Hn & Hu & Hl). split; [by apply NoDup_writable_keys|done|done]. Qed.

Lemma executed_limits t x :
  same_limits t (add_executed_transaction_cost t x) /\
  in_flight_transaction_count (add_executed_transaction_cost t x) = in_flight_transaction_count t.
Proof. by destruct x as [[tx units] loaded]. Qed.

Lemma execute_accounts V : forall txs t c o,
  accounts_for V t c o -> Forall executed_ok txs -> fits ((executed_charge <$> txs) ++ c) ->
  accounts_for V (add_executed_transaction_costs t txs) ((executed_charge <$> txs) ++ c)
    ((executed_charge <$> txs) ++ o) /\
  same_limits t (add_executed_transaction_costs t txs) /\
  in_flight_transaction_count (add_executed_transaction_costs t txs) = in_flight_transaction_count t.
Proof.
  induction txs as [|x txs IH]; intros t c o Haf Hok Hf; [done|].
  apply Forall_cons in Hok as [Hx Hok]. pose proof (executed_charge_ok x Hx) as Hcx.
  rewrite fmap_cons in *. cbn [add_executed_transaction_costs foldl].
  destruct (executed_limits t x) as [Hl Hfl].
  assert (Forall charge_ok (executed_charge <$> txs)) as Hall.
  { apply Forall_fmap. eapply Forall_impl; [exact Hok|]. apply executed_charge_ok. }
  assert (accounts_for V (add_executed_transaction_cost t x) (executed_charge x :: c) (executed_charge x :: o)) as Haf1.
  { destruct Haf as [Hrep Hc Ho ? Hlim Hv Hor Hb]. destruct Hl as (L1 & L2 & L3 & L4).
    assert (fits (executed_charge x :: c)) as Hf1.
    { eapply fits_le; [..|exact Hf]; [|simpl; rewrite length_app; lia].
      intros m. rewrite <- app_comm_cons, !total_cons, total_app. pose proof (total_nonneg m _ Hall). lia. }
    split; [by apply represents_executed|by constructor|by constructor|done| | | |].
    - unfold limits_ok. by rewrite L1, L2, L3.
    - by rewrite L3.
    - by rewrite L4.
    - intros m. specialize (Hb m). rewrite !total_cons.
      assert (cap V m (add_executed_transaction_cost t x) = cap V m t) as -> by (destruct m; cbn [cap limit]; congruence).
      lia. }
  destruct (IH (add_executed_transaction_cost t x) (executed_charge x :: c) (executed_charge x :: o)) as (IH1 & IH2 & IH3);
    [done..| |split_and!].
  - eapply fits_le; [..|exact Hf]; [intros m; unfold total; by rewrite <- Permutation_middle|].
    simpl. rewrite !length_app. simpl. lia.
  - simpl. rewrite !(Permutation_middle (executed_charge <$> txs)). exact IH1.
  - by eapply same_limits_trans.
  - unfold add_executed_transaction_costs in IH3. by rewrite IH3.
Qed.

Lemma vote_limits_accounts V t v original c o :
  accounts_for V t c o -> 0 <= v <= V -> v < word_max 64 -> 0 <= original <= V ->
  accounts_for V (set_vote_limits t v original) c o.
Proof.
  intros [[Hr1 Hr2] ? ? ? (H0 & H1 & _) ? ? Hb] Hv Hw Ho. split; try done; [|by destruct Hv|by intros []; apply Hb].
  exact (conj H0 (conj H1 (conj (proj1 Hv) Hw))).
Qed.

Lemma step_inv t0 w w' :
  constants_ok -> limits_ok t0 -> 0 <= original_vote_cost_limit t0 < word_max 64 ->
  bank_inv t0 w -> step w w' -> bank_inv t0 w'.
Proof.
  intros Hk Hl0 Ho0 Hinv Hstep. destruct Hstep.
  - by eapply select_inv.
  - by apply settle_inv.
  - by apply abandon_inv.
  - destruct Hinv as [Haf Hfl Hal Hbl Hpr Hst].
    destruct (execute_accounts _ txs _ _ _ Haf) as (Haf' & (L1 & L2 & _) & Hin); [done..|].
    split; cbn [tracker flights committed executed]; [|by rewrite Hin|congruence|congruence|done|done].
    eapply accounts_for_perm; [..|exact Haf'];
      unfold charges, overs, reserved; cbn [flights committed executed]; rewrite fmap_app.
    + solve_Permutation.
    + solve_Permutation.
  - destruct Hinv as [Haf Hfl Hal Hbl Hpr Hst]. split; try done. cbn [tracker].
    destruct (af_limits _ _ _ _ Haf) as (_ & _ & Hv). pose proof (af_vote _ _ _ _ Haf).
    apply vote_limits_accounts; [done| |vm_compute; done|lia].
    unfold vote_cap, PROPOSER_VOTE_LIMIT. lia.
  - destruct Hinv as [Haf Hfl Hal Hbl Hpr Hst]. unfold restore_vote_limit.
    destruct (0 <? original_vote_cost_limit (tracker w)) eqn:Ho; [|by destruct w].
    split; try done. cbn [tracker]. pose proof (af_original _ _ _ _ Haf).
    apply vote_limits_accounts; [done|lia| |lia].
    destruct Hl0 as (_ & _ & Hv0). unfold vote_cap in *.
    assert (PROPOSER_VOTE_LIMIT < word_max 64) by (vm_compute; done). lia.
Qed.

Lemma bank_reachable t0 w :
  constants_ok -> fresh t0 -> original_vote_cost_limit t0 < word_max 64 ->
  reachable (initial t0) step w -> bank_inv t0 w.
Proof.
  intros Hk (Hrep & Hlim & Ho & Hfl) Hom. apply invariant_reachable.
  - intros w0 ->. split; cbn; try done. split; cbn; try done.
    + destruct Hlim as (? & ? & ?). unfold vote_cap. lia.
    + unfold vote_cap. lia.
    + intros m. destruct Hlim as (? & ? & ?). unfold total, vote_cap.
      destruct m; cbn [cap limit Zsum foldr]; unfold PROPOSER_VOTE_LIMIT, MAX_BLOCK_ACCOUNTS_DATA_SIZE_DELTA; lia.
  - intros w1 w2 Hw Hs. eapply step_inv; eauto.
Qed.

(** In every state of a leader's bank the tracker's block, vote and account
    costs, data size, transaction count and in-flight count are exactly those
    of the transactions it stands for: the estimates of the batches in flight,
    the executed costs of what was committed and the units the block stage
    reported. Abandoned and rejected transactions leave no trace. *)
Lemma block_costs_exact t0 w :
  constants_ok -> fresh t0 -> original_vote_cost_limit t0 < word_max 64 ->
  reachable (initial t0) step w ->
  (forall m, recorded m (tracker w) = total m (charges w)) /\
  transaction_count (tracker w) = Z.of_nat (length (charges w)) /\
  in_flight_transaction_count (tracker w) = Z.of_nat (length (reserved w)).
Proof.
  intros Hk Hf Ho Hr. destruct (bank_reachable t0 w Hk Hf Ho Hr) as [[[Hrep Hcount] _ _ _ _ _ _ _] Hfl _ _ _ _].
  done.
Qed.

(** C32: the block, vote, account and data-size totals of a leader's bank never
    exceed their limits by more than the committed transactions exceeded their
    estimates and the block stage reported, whose costs are added unchecked.
    The vote limit is the larger of the bank's own and the proposer's. *)
Theorem block_limits_respected t0 w m :
  constants_ok -> fresh t0 -> original_vote_cost_limit t0 < word_max 64 ->
  reachable (initial t0) step w ->
  recorded m (tracker w) <= cap (vote_cap t0) m t0 + total m (overs w).
Proof.
  intros Hk Hf Ho Hr. destruct (bank_reachable t0 w Hk Hf Ho Hr) as [[[Hrep _] _ _ _ _ _ _ Hb] _ Ha Hbl _ _].
  rewrite Hrep. specialize (Hb m). destruct m; cbn [cap limit] in *; lia.
Qed.

Lemma select_loop_shape costs : forall t reservation,
  let '(_, results, n) := select_loop t costs reservation in
  length results = length costs /\ n = Z.of_nat (length (included results)) /\
  forall i e, costs !! i = Some (Err e) -> results !! i = Some (Err e).
Proof.
  induction costs as [|[c|e] costs IH]; intros t reservation; cbn [select_loop]; [done|..].
  - destruct (try_add t c reservation) as [t1 [x|e]]; specialize (IH t1 reservation);
      destruct (select_loop t1 costs reservation) as [[t2 rs] n]; destruct IH as (IH1 & IH2 & IH3);
      (split_and!; [simpl; lia|first [exact IH2|rewrite included_ok; cbn [length]; lia]|]);
      intros [|i] e' Hi; [done|by apply IH3|done|by apply IH3].
  - specialize (IH t reservation). destruct (select_loop t costs reservation) as [[t2 rs] n].
    destruct IH as (IH1 & IH2 & IH3). split_and!; [simpl; lia|exact IH2|]. intros [|i] e' Hi; [done|by apply IH3].
Qed.

(** selecting a batch never panics and answers for every transaction; an
    earlier error is passed on, and the throttled count is the number of
    transactions without a reserved cost. *)
Theorem selection_total t transactions pre_results reservation :
  constants_ok -> Forall tx_ok transactions -> length pre_results = length transactions ->
  exists t' results throttled,
    select_and_accumulate_transaction_costs t transactions pre_results reservation =
      Some (t', results, throttled) /\
    length results = length transactions /\
    throttled = Z.of_nat (length transactions) - Z.of_nat (length (included results)) /\
    forall i e, pre_results !! i = Some (Err e) -> results !! i = Some (Err e).
Proof.
  intros Hk Htx Hlen. unfold select_and_accumulate_transaction_costs.
  destruct (compute_costs_total transactions pre_results Hk Htx) as [costs Hc]. rewrite Hc. simpl.
  apply mapM_Some in Hc. pose proof (Forall2_length _ _ _ Hc) as Hlc. rewrite length_zip_with in Hlc.
  unfold select_transactions_per_cost. rewrite zip_snd_id by lia.
  pose proof (select_loop_shape costs t reservation) as Hs.
  destruct (select_loop t costs reservation) as [[t1 rs] n]. destruct Hs as (Hs1 & -> & Hs3).
  do 3 eexists. split; [done|]. split_and!; [lia| |].
  - unfold sat_sub. pose proof (length_omap_le (fun r => match r with Ok c => Some c | Err _ => None end) rs) as Hle.
    fold (included rs) in Hle. lia.
  - intros i e Hi. apply Hs3. destruct (lookup_lt_is_Some_2 transactions i) as [tx Htxi].
    { rewrite <- Hlen. by eapply lookup_lt_Some. }
    eapply Forall2_lookup_l in Hc as (r & Hr & Hx); [|by apply lookup_zip_Some]. by simplify_eq/=.
Qed.

End Qos.
End Qos.

(** ** Verifying a block *)

Module Replay.
Import BlockCosts Qos.

Section Replay.
Context {Key Tx : Type} `{Countable Key} `{!Sdk Key} `{!CostSdk Key} `{!SVMMessage Key Tx} `{!StaticMeta Key Tx}
  `{!SVMSignatures Tx}.
Context (migrating : list (Key * BuiltinCost Key)) (feature_set : FeatureSet Key).

(** Commit results carry the executed units and the loaded data size; [None]:
    the assertion on the lengths fails. *)
Definition get_transaction_costs (commit_results : list (result TransactionError (Z * Z)))
    (sanitized_transactions : list Tx) : option (list (option (TransactionCost Tx))) :=
  if (length sanitized_transactions =? length commit_results)%nat then
    Some (zip_with (fun commit_result tx =>
                      match commit_result with
                      | Ok (executed_units, loaded) =>
                          Some (calculate_cost_for_executed_transaction (Key := Key) tx executed_units loaded feature_set)
                      | Err _ => None
                      end) commit_results sanitized_transactions)
  else None.

Fixpoint check_block_cost_limits (t : CostTracker Key) (tx_costs : list (option (TransactionCost Tx))) :
    CostTracker Key * result TransactionError unit :=
  match tx_costs with
  | [] => (t, Ok tt)
  | None :: rest => check_block_cost_limits t rest
  | Some tx_cost :: rest =>
      match try_add t tx_cost 0 with
      | (t, Ok _) => check_block_cost_limits t rest
      | (t, Err e) => (t, Err (transaction_error e))
      end
  end.

Context `{!SdkLaws Key} `{!CostSdkLaws Key}.

Lemma check_spec : forall costs t charged,
  represents t charged -> Forall charge_ok charged -> Forall cost_ok costs ->
  Forall (fun c => sum c <= account_cost_limit t) costs ->
  (forall m, total m ((estimate <$> costs) ++ charged) <= limit m t) ->
  fits ((estimate <$> costs) ++ charged) ->
  (check_block_cost_limits t (Some <$> costs)).2 = Ok tt.
Proof.
  induction costs as [|c costs IH]; intros t charged Hrep Hch Hok Hsum Hlim Hfits; [done|].
  apply Forall_cons in Hok as [Hc Hok]. apply Forall_cons in Hsum as [Hs Hsum].
  rewrite !fmap_cons in *. rewrite <- app_comm_cons in *. cbn [check_block_cost_limits]. unfold try_add.
  assert (Forall charge_ok (estimate (Key := Key) <$> costs)) as Hall.
  { apply Forall_fmap. eapply Forall_impl; [exact Hok|]. intros c' Hc'. apply charge_at_ok; [done|by apply cost_sum_nonneg]. }
  assert (forall m, 0 <= total m (estimate (Key := Key) <$> costs)) as Hpos by (intros m; by apply total_nonneg).
  rewrite would_fit_complete; [|done|].
  2: { intros m. destruct Hrep as [Hrep _]. rewrite Hrep. specialize (Hlim m). specialize (Hpos m).
       rewrite total_cons, total_app in Hlim. lia. }
  destruct (add_cost_limits t c) as [(L1 & L2 & L3 & L4) _].
  pose proof (represents_add t c charged Hrep Hch Hc) as Hrep'.
  destruct (add_transaction_cost t c) as [t' costliest]. simpl in Hrep', L1, L2, L3, L4.
  apply (IH t' (estimate c :: charged)).
  - apply Hrep'. eapply fits_le; [..|exact Hfits]; [|simpl; rewrite length_app; lia].
    intros m. rewrite !total_cons, total_app. specialize (Hpos m). lia.
  - constructor; [|done]. apply charge_at_ok; [done|by apply cost_sum_nonneg].
  - done.
  - by rewrite L1.
  - intros m. specialize (Hlim m). rewrite total_cons, total_app in Hlim. rewrite total_app, total_cons.
    assert (limit m t' = limit m t) as -> by (destruct m; cbn; congruence). lia.
  - eapply fits_le; [..|exact Hfits]; [|simpl; rewrite !length_app; simpl; lia].
    intros m. rewrite total_cons, !total_app, total_cons. lia.
Qed.

(** The execution of a committed transaction as the cost model expects it: a
    vote used at least its fixed units, any other transaction stayed within its
    limits. *)
Definition faithful (x : TransactionCost Tx * Z * Z) : Prop :=
  let '(c, units, loaded) := x in
  if is_simple_vote c then 2108 <= units + calculate_loaded_accounts_data_size_cost (Key := Key) loaded
  else executed_within migrating (cost_transaction c) feature_set units loaded.

Definition executed_cost (x : TransactionCost Tx * Z * Z) : TransactionCost Tx :=
  let '(c, units, loaded) := x in
  calculate_cost_for_executed_transaction (Key := Key) (cost_transaction c) units loaded feature_set.

(** Settling charged the executed cost, which is no more than the estimate, and
    what exceeds the estimate. *)
Definition settled_exactly (x : TransactionCost Tx * Z * Z) : Prop :=
  cost_ok (executed_cost x) /\ sum (executed_cost x) <= sum x.1.1 /\
  forall m, value m (estimate (executed_cost x)) + value m (overrun x) = value m (commit_charge x).

Lemma split_charge (c e : TransactionCost Tx) units over m :
  writable_accounts e = writable_accounts c -> is_simple_vote e = is_simple_vote c ->
  allocated_accounts_data_size e = allocated_accounts_data_size c -> sum e + over = units ->
  value m (estimate e) + value m (MkCharge (writable_accounts c) (is_simple_vote c) over 0) = value m (charge_at c units).
Proof.
  intros Hw Hv Ha <-. unfold estimate, charge_at. rewrite Hw, Hv, Ha.
  destruct m; cbn [value charge_units charge_vote charge_accounts charge_data]; repeat case_match; lia.
Qed.

Lemma faithful_vote tx units loaded :
  tx_ok migrating tx -> is_simple_vote_transaction (Key := Key) tx = true ->
  faithful (SimpleVote tx, units, loaded) -> settled_exactly (SimpleVote tx, units, loaded).
Proof.
  intros [_ Hn] Hvote Hf. cbn in Hf.
  unfold settled_exactly, executed_cost, calculate_cost_for_executed_transaction. cbn [cost_transaction fst]. rewrite Hvote.
  set (cost := calculate_loaded_accounts_data_size_cost (Key := Key) loaded) in *.
  assert (settled (SimpleVote tx) units cost = 3428 + (units + cost - 2108)) as Hs.
  { unfold settled. cbn [sum programs_execution_cost loaded_accounts_data_size_cost].
    unfold SIMPLE_VOTE_USAGE_COST, VOTE_DEFAULT_COMPUTE_UNITS. lia. }
  split_and!; [by apply vote_cost_ok|done|]. intros m. apply split_charge; try done. fold cost. rewrite Hs. change (sum (SimpleVote tx)) with 3428. lia.
Qed.

Lemma executed_within_reserved tx units loaded :
  0 <= HEAP_LENGTH (Key := Key) <= Details.MAX_HEAP_FRAME_BYTES ->
  executed_within migrating tx feature_set units loaded ->
  0 <= units <= (reserved_units migrating tx feature_set).1 /\
  0 <= calculate_loaded_accounts_data_size_cost (Key := Key) loaded <= (reserved_units migrating tx feature_set).2.
Proof.
  intros Hh (l & Hl & Hu & Hld). pose proof (Details.limits_of_bounded _ _ _ _ Hh Hl) as (_ & Hcu & Hb).
  unfold Details.MAX_COMPUTE_UNIT_LIMIT, Details.MAX_LOADED_ACCOUNTS_DATA_SIZE_BYTES in *.
  unfold reserved_units. rewrite Hl. cbn [fst snd]. split; [lia|]. split; [apply memory_cost_range; lia|].
  apply memory_cost_mono; [lia|done].
Qed.

Lemma faithful_non_vote tx units loaded :
  let c := calculate_non_vote_transaction_cost tx (program_instructions_iter tx) (num_write_locks (Key := Key) tx)
             (reserved_units migrating tx feature_set).1 (reserved_units migrating tx feature_set).2
             (get_instructions_data_cost (Key := Key) tx) feature_set in
  0 <= HEAP_LENGTH (Key := Key) <= Details.MAX_HEAP_FRAME_BYTES ->
  tx_ok migrating tx -> is_simple_vote_transaction (Key := Key) tx = false ->
  faithful (c, units, loaded) -> settled_exactly (c, units, loaded).
Proof.
  intros c Hh Htx Hvote Hf. destruct (reserved_range migrating tx feature_set Hh) as [Hr1 Hr2].
  destruct (executed_within_reserved tx units loaded Hh Hf) as [Hu Hld].
  set (cost := calculate_loaded_accounts_data_size_cost (Key := Key) loaded) in *.
  pose proof (non_vote_sum migrating tx feature_set _ _ (program_instructions_iter tx) (proj1 Htx) Hr1 Hr2) as Hsc.
  pose proof (non_vote_sum migrating tx feature_set units cost (program_instructions_iter tx) (proj1 Htx)
    ltac:(lia) ltac:(lia)) as Hse.
  fold c in Hsc. unfold settled_exactly.
  assert (executed_cost (c, units, loaded) = calculate_non_vote_transaction_cost tx (program_instructions_iter tx)
    (num_write_locks (Key := Key) tx) units cost (get_instructions_data_cost (Key := Key) tx) feature_set) as ->.
  { unfold executed_cost, calculate_cost_for_executed_transaction. change (cost_transaction c) with tx. by rewrite Hvote. }
  assert (settled c units cost = base_cost tx feature_set + units + cost) as Hset.
  { unfold settled. rewrite Hsc. change (programs_execution_cost c) with (reserved_units migrating tx feature_set).1.
    change (loaded_accounts_data_size_cost c) with (reserved_units migrating tx feature_set).2. lia. }
  split_and!.
  - apply (non_vote_cost_ok migrating); (done || lia).
  - cbn [fst]. rewrite Hsc, Hse. lia.
  - intros m. apply split_charge; try done. fold cost. rewrite Hset, Hse, Hsc. lia.
Qed.

Lemma faithful_charge x :
  constants_ok (Key := Key) migrating -> priced migrating feature_set x.1.1 -> faithful x -> settled_exactly x.
Proof.
  destruct x as [[c units] loaded]. intros Hk Hp Hf. cbn [fst] in Hp.
  destruct (priced_cases migrating feature_set c Hk Hp) as [(tx & Htx & Hvote & ->)|(tx & Htx & Hvote & ->)].
  - by apply faithful_vote.
  - destruct Hk. by apply faithful_non_vote.
Qed.

Lemma get_transaction_costs_committed (order : list (TransactionCost Tx * Z * Z)) :
  get_transaction_costs (map (fun x => Ok (x.1.2, x.2)) order) (map (fun x => cost_transaction x.1.1) order) =
  Some (Some <$> (executed_cost <$> order)).
Proof.
  unfold get_transaction_costs. rewrite !length_map, Nat.eqb_refl. f_equal.
  induction order as [|[[c u] l] order IH]; [done|]. simpl. f_equal. exact IH.
Qed.

(** C3: a leader's block passes the cost check of replay. If every batch is
    settled, no externally built block was executed, every vote used at least the
    2,108 units its fixed cost assumes and every other transaction stayed within
    its limits, then a validator that starts from a fresh tracker with limits no
    lower than the leader's accepts the committed transactions in any order. *)
Theorem replay_accepts_leader_block t0 w t1 order :
  constants_ok (Key := Key) migrating -> fresh t0 -> original_vote_cost_limit t0 < word_max 64 ->
  reachable (initial t0) (step migrating feature_set) w -> flights w = [] -> executed w = [] ->
  Forall faithful (committed w) -> order ≡ₚ committed w ->
  represents t1 [] -> account_cost_limit t0 <= account_cost_limit t1 ->
  block_cost_limit t0 <= block_cost_limit t1 -> vote_cap t0 <= vote_cost_limit t1 ->
  exists costs,
    get_transaction_costs (map (fun x => Ok (x.1.2, x.2)) order) (map (fun x => cost_transaction x.1.1) order) =
      Some costs /\
    (check_block_cost_limits t1 costs).2 = Ok tt.
Proof.
  intros Hk Hfresh Ho Hr Hfl Hex Hfaith Hord Hrep1 Hla Hlb Hlv.
  destruct (bank_reachable migrating feature_set t0 w Hk Hfresh Ho Hr) as [Haf _ Hal Hbl Hpr _].
  unfold charges, reserved, overs in Haf. rewrite Hfl, Hex in Haf. simpl in Haf. rewrite !app_nil_r, <- Hord in Haf.
  unfold reserved in Hpr. rewrite Hfl in Hpr. simpl in Hpr. rewrite <- Hord in Hpr, Hfaith.
  destruct Haf as [_ Hcok _ Hfits _ _ _ Hb].
  assert (Forall (fun x => settled_exactly x /\ sum (executed_cost x) <= account_cost_limit t1) order) as Hset.
  { rewrite !Forall_fmap in Hpr. rewrite Forall_forall in *. intros x Hx.
    destruct (Hpr x Hx) as [Hp Hs]. destruct (faithful_charge x Hk Hp (Hfaith x Hx)) as (? & Hle & ?).
    cbn in Hs. split; [by split_and!|lia]. }
  exists (Some <$> (executed_cost <$> order)). split; [apply get_transaction_costs_committed|].
  assert (forall m, total m (estimate <$> (executed_cost <$> order)) + total m (overrun <$> order)
    = total m (commit_charge <$> order)) as Htot.
  { intros m. unfold total. rewrite !Zsum_fmap, <- Zsum_plus. apply Zsum_ext. intros x Hx. rewrite Forall_forall in Hset.
    apply (Hset x Hx). }
  assert (forall m, 0 <= total m (overrun <$> order)) as Hover.
  { intros m. unfold total. rewrite Zsum_fmap. apply Zsum_nonneg. intros [[c u] l] _. destruct m; cbn; repeat case_match; lia. }
  apply (check_spec _ t1 []); rewrite ?app_nil_r; [done|constructor|..].
  - apply Forall_fmap. eapply Forall_impl; [exact Hset|]. by intros x [(? & _) _].
  - apply Forall_fmap. eapply Forall_impl; [exact Hset|]. by intros x [_ ?].
  - intros m. specialize (Hb m). specialize (Htot m). destruct m; cbn [cap limit] in *; lia.
  - eapply fits_le; [..|exact Hfits]; [|by rewrite !length_fmap]. intros m. specialize (Htot m). specialize (Hover m). lia.
Qed.

(** *** Blocks built elsewhere

    [add_executed_transaction_costs] charges the transactions of an executed
    block without a check, by other rules than replay does. *)

(** C37: the tracker adds the loaded account data of an executed block to the
    data its transactions allocated. Once such blocks have loaded more than
    100,000,000 bytes, whatever they allocated, no further transaction is
    admitted to the bank. *)
Theorem executed_blocks_close_bank t0 w c reservation :
  constants_ok (Key := Key) migrating -> fresh t0 -> original_vote_cost_limit t0 < word_max 64 ->
  reachable (initial t0) (step migrating feature_set) w ->
  MAX_BLOCK_ACCOUNTS_DATA_SIZE_DELTA < Zsum (fun x => x.2) (executed w) -> priced migrating feature_set c ->
  exists e, try_add (tracker w) c reservation = (tracker w, Err e).
Proof.
  intros Hk Hfresh Ho Hr Hdata Hc. pose proof (priced_ok migrating feature_set c Hk Hc) as Hok.
  destruct (bank_reachable migrating feature_set t0 w Hk Hfresh Ho Hr) as [[[Hrep _] Hch _ _ _ _ _ _] _ _ _ _ _].
  assert (Zsum (fun x => x.2) (executed w) <= allocated_size (tracker w)) as Hle.
  { specialize (Hrep DataSize). cbn in Hrep. rewrite Hrep. unfold charges in *. rewrite app_assoc in *.
    apply Forall_app in Hch as [Hch _]. unfold total. rewrite Zsum_app, Zsum_fmap.
    pose proof (total_nonneg DataSize _ Hch) as Hpos. unfold total in Hpos. cbn [value executed_charge charge_data]. lia. }
  pose proof (cost_data c Hok).
  unfold try_add. destruct (would_fit (tracker w) c reservation) as [[]|e] eqn:Hfit; [|by exists e]. exfalso.
  unfold would_fit in Hfit. repeat (case_match; [done|]).
  assert ((MAX_BLOCK_ACCOUNTS_DATA_SIZE_DELTA <? sat_add 64 (allocated_size (tracker w)) (allocated_accounts_data_size c)) = true)
    as Hd; [|congruence].
  apply Z.ltb_lt. unfold sat_add. unfold MAX_BLOCK_ACCOUNTS_DATA_SIZE_DELTA in *.
  assert (100_000_000 < word_max 64) by (vm_compute; done). lia.
Qed.

(** What the transactions of a block are: signed; votes that use the units of the
    vote program, or transactions within the range of the limits. *)
Definition block_transaction (x : Tx * Z * Z) : Prop :=
  static_meta (Key := Key) migrating x.1.1 /\ 1 <= tx_signatures (signature_details (Key := Key) x.1.1) /\
  0 <= x.1.2 < 2 ^ 50 /\ 0 <= x.2 < 2 ^ 32 /\
  (is_simple_vote_transaction (Key := Key) x.1.1 = true -> x.1.2 <= VOTE_DEFAULT_COMPUTE_UNITS).

Lemma replay_charges_more x : block_transaction x ->
  x.1.2 + SIGNATURE_COST <= sum (calculate_cost_for_executed_transaction (Key := Key) x.1.1 x.1.2 x.2 feature_set).
Proof.
  destruct x as [[tx units] loaded]. intros (Hm & Hsig & Hu & Hl & Hv). cbn [fst snd] in *.
  unfold calculate_cost_for_executed_transaction. destruct (is_simple_vote_transaction tx).
  { specialize (Hv eq_refl). cbn. unfold VOTE_DEFAULT_COMPUTE_UNITS, SIMPLE_VOTE_USAGE_COST in *. change SIGNATURE_COST with 720. lia. }
  pose proof (memory_cost_range loaded Hl). rewrite (non_vote_sum migrating) by done.
  destruct Hm. unfold base_cost. assert (0 <= instruction_data_len (Key := Key) tx / 4).
  { unfold in_word in *. apply Z.div_pos; lia. }
  change SIGNATURE_COST with 720. repeat case_match; lia.
Qed.

(** C38: the tracker charges the transactions of an executed block less than
    replay does. After [add_executed_transaction_costs] the block cost has grown
    by no more than what replay charges for the same transactions without the
    cost of one signature for each: signatures, write locks, data and loaded
    memory are not counted. The transactions are signed, and votes among them use
    at most the 2,100 units of the vote program. *)
Theorem executed_blocks_undercharged (t : CostTracker Key) (txs : list (Tx * Z * Z)) :
  0 <= block_cost t -> Forall block_transaction txs ->
  block_cost (add_executed_transaction_costs t txs) + SIGNATURE_COST * Z.of_nat (length txs) <=
  block_cost t + Zsum (fun x => sum (calculate_cost_for_executed_transaction (Key := Key) x.1.1 x.1.2 x.2 feature_set)) txs.
Proof.
  intros Ht Htx. revert t Ht. unfold add_executed_transaction_costs.
  induction Htx as [|x txs Hx _ IH]; intros t Ht; cbn [foldl length]; [unfold Zsum; cbn; lia|].
  rewrite Zsum_cons. pose proof (replay_charges_more x Hx) as Hmore. destruct Hx as (_ & _ & Hu & _).
  destruct x as [[tx units] loaded]. cbn [fst snd] in *.
  assert (0 <= block_cost (add_executed_transaction_cost t (tx, units, loaded)) <= block_cost t + units) as [Hlo Hhi].
  { cbn. unfold wadd, wrap. split; [by apply Z.mod_pos_bound|]. apply Z.mod_le; lia. }
  specialize (IH _ Hlo). lia.
Qed.

End Replay.
End Replay.

(** ** A sample block *)

Module SampleBlock.
Import BlockCosts Qos Replay Details.SampleSdk Model.SampleCost.

(** Transaction [n] writes account [n] and reads account 1000. *)
#[export] Instance nat_message : SVMMessage nat nat := {
  account_keys := fun tx => [tx; 1000 + tx]%nat;
  is_writable := fun _ index => (index =? 0)%nat
}.

#[export] Instance nat_signatures : SVMSignatures nat := {
  svm_transaction_signatures := fun _ => 1;
  svm_secp256k1_signatures := fun _ => 0;
  svm_ed25519_signatures := fun _ => 0;
  svm_secp256r1_signatures := fun _ => 0
}.

#[local] Abbreviation sample_tracker := (default_tracker (Key := nat)).
#[local] Abbreviation no_features := (MkFeatureSet (Key := nat) ∅).
#[local] Abbreviation sample_step := (step (Key := nat) (Tx := nat) MIGRATING_BUILTINS_COSTS no_features).

Lemma sample_constants : constants_ok (Key := nat) MIGRATING_BUILTINS_COSTS.
Proof. split; [reflexivity|exact sample_heap]. Qed.

Lemma sample_fresh : fresh sample_tracker.
Proof. split_and!; [by split; [intros []|]|..|done]; vm_compute; repeat split; congruence. Qed.

Lemma sample_tx_ok tx : tx_ok (Key := nat) MIGRATING_BUILTINS_COSTS tx.
Proof.
  split; [apply sample_static_meta|]. apply NoDup_cons. split; [|apply NoDup_singleton].
  rewrite list_elem_of_singleton. lia.
Qed.

(** Two transactions and a vote are selected; one transaction is not committed. *)
Definition selection :=
  select_and_accumulate_transaction_costs (Key := nat) MIGRATING_BUILTINS_COSTS no_features sample_tracker
    [4; 6; 7]%nat [Ok tt; Ok tt; Ok tt] 0.

Definition selected : CostTracker nat * list (result TransactionError (TransactionCost nat)) * Z :=
  default (sample_tracker, [], 0) selection.

Definition outcome : list CommitTransactionDetails :=
  [Committed 1500 100_000 0 (Ok tt); NotCommitted AccountInUse; Committed 2100 32_768 0 (Ok tt)].

Definition world_selected : world (Key := nat) (Tx := nat) := MkWorld selected.1.1 [selected.1.2] [] [].

Definition world_settled : world (Key := nat) (Tx := nat) :=
  MkWorld (remove_or_update_costs (tracker world_selected) selected.1.2 (Some outcome)) ([] ++ [])
    (commits selected.1.2 outcome ++ committed world_selected) (executed world_selected).

Definition block : list (nat * Z * Z) := [(8%nat, 1000, 60_000_000); (10%nat, 1000, 60_000_000)].

Definition world_executed : world (Key := nat) (Tx := nat) :=
  MkWorld (add_executed_transaction_costs sample_tracker block) [] [] (block ++ []).

Lemma sample_selected : reachable (initial sample_tracker) sample_step world_selected.
Proof.
  eapply reachable_step; [by apply reachable_init|].
  apply (step_select _ _ (MkWorld sample_tracker [] [] []) [4; 6; 7]%nat [Ok tt; Ok tt; Ok tt] 0 _ _ selected.2).
  - apply Forall_forall. intros tx _. apply sample_tx_ok.
  - done.
  - vm_compute. congruence.
  - vm_compute. reflexivity.
Qed.

Lemma sample_settled : reachable (initial sample_tracker) sample_step world_settled.
Proof.
  eapply reachable_step; [apply sample_selected|].
  apply (step_settle _ _ world_selected [] selected.1.2 [] outcome).
  - reflexivity.
  - vm_compute. reflexivity.
  - repeat constructor; vm_compute; congruence.
  - vm_compute. split_and!; congruence.
Qed.

Lemma sample_executed : reachable (initial sample_tracker) sample_step world_executed.
Proof.
  eapply reachable_step; [by apply reachable_init|].
  apply (step_execute _ _ (MkWorld sample_tracker [] [] []) block).
  - repeat constructor; try (vm_compute; congruence); rewrite ?list_elem_of_singleton; try lia; set_solver.
  - vm_compute. split_and!; congruence.
Qed.

Lemma sample_original : original_vote_cost_limit sample_tracker < word_max 64.
Proof. vm_compute. reflexivity. Qed.

End SampleBlock.
Import BlockCosts Qos Replay Details.SampleSdk Model.SampleCost SampleBlock.

Lemma Forall_pair {A} (P : A -> Prop) l a b : l = [a; b] -> P a -> P b -> Forall P l.
Proof. intros -> ? ?. by repeat constructor. Qed.

Lemma block_limits_respected_witness :
  recorded BlockUnits (tracker world_settled) <=
  cap (vote_cap (default_tracker (Key := nat))) BlockUnits (default_tracker (Key := nat)) + total BlockUnits (overs world_settled).
Proof.
  exact (block_limits_respected MIGRATING_BUILTINS_COSTS (MkFeatureSet ∅) default_tracker world_settled BlockUnits
    sample_constants sample_fresh sample_original sample_settled).
Defined.

Lemma replay_accepts_leader_block_witness :
  exists costs,
    get_transaction_costs (Key := nat) (MkFeatureSet ∅)
      (map (fun x => Ok (x.1.2, x.2)) (committed world_settled))
      (map (fun x => cost_transaction x.1.1) (committed world_settled)) = Some costs /\
    (check_block_cost_limits (default_tracker (Key := nat)) costs).2 = Ok tt.
Proof.
  apply (replay_accepts_leader_block MIGRATING_BUILTINS_COSTS (MkFeatureSet ∅) default_tracker world_settled
    default_tracker (committed world_settled) sample_constants sample_fresh sample_original sample_settled
    eq_refl eq_refl).
  - eapply Forall_pair; [vm_compute; reflexivity| |vm_compute; congruence].
    exists (Details.MkLimits 32768 206_000 5000 67_108_864). vm_compute. repeat split; congruence.
  - reflexivity.
  - exact (proj1 sample_fresh).
  - vm_compute. congruence.
  - vm_compute. congruence.
  - vm_compute. congruence.
Defined.

Lemma executed_blocks_close_bank_witness :
  exists e, try_add (tracker world_executed) (SimpleVote 7%nat) 0 = (tracker world_executed, Err e).
Proof.
  apply (executed_blocks_close_bank MIGRATING_BUILTINS_COSTS (MkFeatureSet ∅) default_tracker world_executed
    (SimpleVote 7%nat) 0 sample_constants sample_fresh sample_original sample_executed).
  - vm_compute. reflexivity.
  - exists 7%nat. split; [apply sample_tx_ok|reflexivity].
Defined.

Lemma executed_blocks_undercharged_witness :
  block_cost (add_executed_transaction_costs (default_tracker (Key := nat)) block) + SIGNATURE_COST * 2 <=
  block_cost (default_tracker (Key := nat)) +
  Zsum (fun x => sum (calculate_cost_for_executed_transaction (Key := nat) x.1.1 x.1.2 x.2 (MkFeatureSet ∅))) block.
Proof.
  apply (executed_blocks_undercharged MIGRATING_BUILTINS_COSTS (MkFeatureSet ∅) default_tracker block); [vm_compute; congruence|].
  repeat (apply Forall_cons; split; [split; [apply sample_static_meta|vm_compute; repeat split; congruence]|]).
  done.
Defined.
