(* ===== verification/AccountLocks.v ===== *)
(** * Account locks of a bank, of transaction batches and of bundles

    [accounts-db/src/account_locks.rs] (module [Table]), the entry points of
    [accounts-db/src/accounts.rs] and [runtime/src/bank.rs] that lock and unlock
    batches together with the batch objects of
    [runtime/src/transaction_batch.rs] that own locks until they are dropped
    ([Bank]), and the bundle stage's lock table of [core/src/bundle_stage/bundle_account_locker.rs] ([Bundle]). Both
    tables count the accesses held; [counts] is what a table of counters stands
    for and carries the proofs of both. *)

From S2P Require Import Prelude Accounts.

(** ** Tables of positive counters *)
Module Counters.
Section Counters.
Context {Key : Type} `{Countable Key}.

(** [*map.entry(key).or_default() += 1] *)
Definition incr (m : gmap Key Z) (k : Key) : gmap Key Z :=
  <[k := wadd 64 (default 0 (m !! k)) 1]> m.

(** [m] holds exactly the non-zero values of [f]. *)
Definition counts (f : Key -> Z) (m : gmap Key Z) : Prop :=
  forall k, m !! k = if decide (f k = 0) then None else Some (f k).

Lemma counts_value f m k : counts f m -> default 0 (m !! k) = f k.
Proof. intros Hc. rewrite (Hc k). by case_decide. Qed.

Lemma counts_ext f g m : (forall k, f k = g k) -> counts f m -> counts g m.
Proof. intros Hfg Hc k. rewrite <- Hfg. apply Hc. Qed.

Lemma counts_zero f m : counts f m -> (forall k, f k = 0) -> m = ∅.
Proof.
  intros Hc Hz. apply map_eq. intros k. rewrite (Hc k), lookup_empty.
  by rewrite decide_True.
Qed.

Lemma counts_incr f m k :
  counts f m -> 0 <= f k -> f k < U64_MAX ->
  counts (fun k' => (if decide (k' = k) then 1 else 0) + f k') (incr m k).
Proof.
  intros Hc Hpos Hlt k'. unfold incr. rewrite (counts_value f m k Hc).
  rewrite wadd_small by lia. rewrite lookup_insert.
  destruct (decide (k = k')) as [<-|Hne].
  - rewrite (decide_True (P := k = k)) by done. rewrite decide_False by lia. f_equal. lia.
  - rewrite (decide_False (P := k' = k)) by congruence. rewrite (Hc k'). done.
Qed.

(** Decrementing a positive counter and removing it at zero, however the source
    spells the subtraction. *)
Lemma counts_decr f m k (sub : Z -> Z) :
  counts f m -> 0 < f k -> (sub (f k) = f k - 1) ->
  counts (fun k' => f k' - (if decide (k' = k) then 1 else 0))
    (match m !! k with
     | Some c => if sub c =? 0 then delete k m else <[k := sub c]> m
     | None => m
     end).
Proof.
  intros Hc Hpos Hsub k'. rewrite (Hc k), decide_False by lia. rewrite Hsub.
  destruct (Z.eqb_spec (f k - 1) 0) as [Hz|Hz];
    rewrite ?lookup_delete, ?lookup_insert; destruct (decide (k = k')) as [<-|Hne].
  - rewrite (decide_True (P := k = k)) by done. by rewrite decide_True.
  - rewrite (decide_False (P := k' = k)) by congruence. rewrite Z.sub_0_r. apply Hc.
  - rewrite (decide_True (P := k = k)) by done. by rewrite decide_False.
  - rewrite (decide_False (P := k' = k)) by congruence. rewrite Z.sub_0_r. apply Hc.
Qed.
End Counters.
End Counters.
Import Counters.

(** ** [AccountLocks] *)
Module Table.
Section Table.
Context {Key : Type} `{Countable Key}.

Record AccountLocks : Type := Locks {
  write_locks : gmap Key Z;
  readonly_locks : gmap Key Z
}.

Definition empty_locks : AccountLocks := Locks ∅ ∅.

Definition is_locked_readonly (self : AccountLocks) (key : Key) : bool :=
  match readonly_locks self !! key with Some count => 0 <? count | None => false end.

Definition is_locked_write (self : AccountLocks) (key : Key) : bool :=
  match write_locks self !! key with Some count => 0 <? count | None => false end.

Definition can_read_lock (self : AccountLocks) (key : Key) : bool :=
  negb (is_locked_write self key).

Definition can_write_lock (self : AccountLocks) (key : Key) : bool :=
  negb (is_locked_readonly self key) && negb (is_locked_write self key).

Fixpoint can_lock_accounts (self : AccountLocks) (keys : list (Key * bool)) :
    result TransactionError unit :=
  match keys with
  | [] => Ok tt
  | (key, writable) :: rest =>
      if writable : bool
      then if negb (can_write_lock self key) then Err AccountInUse else can_lock_accounts self rest
      else if negb (can_read_lock self key) then Err AccountInUse else can_lock_accounts self rest
  end.

Definition lock_readonly (self : AccountLocks) (key : Key) : AccountLocks :=
  Locks (write_locks self) (incr (readonly_locks self) key).

Definition lock_write (self : AccountLocks) (key : Key) : AccountLocks :=
  Locks (incr (write_locks self) key) (readonly_locks self).

Definition lock_accounts (self : AccountLocks) (keys : list (Key * bool)) : AccountLocks :=
  foldl (fun t '(key, writable) =>
           if writable : bool then lock_write t key else lock_readonly t key) self keys.

(** Removing a lock that is not held is a [debug_assert]: release builds skip it. *)
Definition unlock_readonly (self : AccountLocks) (key : Key) : AccountLocks :=
  Locks (write_locks self)
    (match readonly_locks self !! key with
     | Some count => if wsub 64 count 1 =? 0 then delete key (readonly_locks self)
                     else <[key := wsub 64 count 1]> (readonly_locks self)
     | None => readonly_locks self
     end).

Definition unlock_write (self : AccountLocks) (key : Key) : AccountLocks :=
  Locks (match write_locks self !! key with
     | Some count => if wsub 64 count 1 =? 0 then delete key (write_locks self)
                     else <[key := wsub 64 count 1]> (write_locks self)
     | None => write_locks self
     end) (readonly_locks self).

Definition unlock_accounts (self : AccountLocks) (keys : list (Key * bool)) : AccountLocks :=
  foldl (fun t '(k, writable) =>
           if writable : bool then unlock_write t k else unlock_readonly t k) self keys.

Definition try_lock_accounts (self : AccountLocks) (keys : list (Key * bool)) :
    result TransactionError unit * AccountLocks :=
  match can_lock_accounts self keys with
  | Err e => (Err e, self)
  | Ok _ => (Ok tt, lock_accounts self keys)
  end.

(** The first pass checks every transaction against the locks held before the
    batch; the second locks those that passed. *)
Definition check_batch (self : AccountLocks)
    (batch : list (result TransactionError (list (Key * bool)))) :
    list (result TransactionError (list (Key * bool))) :=
  map (fun validated_keys =>
         match validated_keys with
         | Ok keys => match can_lock_accounts self keys with
                      | Err e => Err e
                      | Ok _ => Ok keys
                      end
         | Err e => Err e
         end) batch.

Fixpoint lock_batch (self : AccountLocks)
    (batch : list (result TransactionError (list (Key * bool)))) :
    list (result TransactionError unit) * AccountLocks :=
  match batch with
  | [] => ([], self)
  | available_keys :: rest =>
      let '(r, self') := match available_keys with
                         | Ok keys => (Ok tt, lock_accounts self keys)
                         | Err e => (Err e, self)
                         end in
      let '(rs, self'') := lock_batch self' rest in
      (r :: rs, self'')
  end.

Definition try_lock_transaction_batch (self : AccountLocks)
    (validated_batch_keys : list (result TransactionError (list (Key * bool)))) :
    list (result TransactionError unit) * AccountLocks :=
  lock_batch self (check_batch self validated_batch_keys).

(** ** What the table stands for *)

(** The table counts exactly the accesses in [held]. *)
Definition holds (self : AccountLocks) (held : list (Key * bool)) : Prop :=
  counts (fun k => acc_count true k held) (write_locks self) /\
  counts (fun k => acc_count false k held) (readonly_locks self).

Definition fits64 (held : list (Key * bool)) : Prop := Z.of_nat (length held) <= U64_MAX.

#[global] Instance holds_perm self : Proper ((≡ₚ) ==> iff) (holds self).
Proof.
  intros l1 l2 Hl. unfold holds, counts.
  by split; intros [Hw Hr]; split; intros k;
    [rewrite Hw|rewrite Hr|rewrite Hw|rewrite Hr]; rewrite (acc_count_perm _ k l1 l2 Hl).
Qed.

#[global] Instance fits64_perm : Proper ((≡ₚ) ==> iff) fits64.
Proof. intros l1 l2 Hl. unfold fits64. by rewrite Hl. Qed.

Lemma holds_nil self : holds self [] <-> self = empty_locks.
Proof.
  split.
  - intros [Hw Hr]. destruct self as [w r]. simpl in *. unfold empty_locks.
    by rewrite (counts_zero _ _ Hw), (counts_zero _ _ Hr).
  - intros ->. split; intros k; apply lookup_empty.
Qed.

Lemma holds_lock_one self held k w :
  holds self held -> fits64 ((k, w) :: held) ->
  holds (if w : bool then lock_write self k else lock_readonly self k) ((k, w) :: held).
Proof.
  unfold fits64. simpl. intros [Hw Hr] Hf.
  assert (forall w' k', acc_count w' k' ((k, w) :: held) =
    (if decide (w = w') then (if decide (k' = k) then 1 else 0) else 0) + acc_count w' k' held) as Hcons.
  { intros w' k'. rewrite acc_count_cons. repeat case_decide; naive_solver. }
  assert (forall w', 0 <= acc_count w' k held < U64_MAX) as Hb.
  { intros w'. pose proof (acc_count_nonneg w' k held). pose proof (acc_count_le w' k held). lia. }
  destruct w; split; simpl;
    (eapply counts_ext; [intros k'; symmetry; apply Hcons|]); simpl; try done;
    apply counts_incr; auto; apply Hb.
Qed.

Lemma holds_unlock_one self held k w :
  holds self ((k, w) :: held) -> fits64 ((k, w) :: held) ->
  holds (if w : bool then unlock_write self k else unlock_readonly self k) held.
Proof.
  unfold fits64. intros [Hw Hr] Hf.
  assert (forall w' k', acc_count w' k' held = acc_count w' k' ((k, w) :: held) -
    (if decide (w = w') then (if decide (k' = k) then 1 else 0) else 0)) as Hcons.
  { intros w' k'. rewrite acc_count_cons. repeat case_decide; naive_solver lia. }
  assert (0 < acc_count w k ((k, w) :: held)) by (apply acc_count_pos; by left).
  pose proof (acc_count_le w k ((k, w) :: held)).
  assert (forall x, x = acc_count w k ((k, w) :: held) -> wsub 64 x 1 = x - 1) as Hsub.
  { intros x ->. apply wsub_small; lia. }
  destruct w; split; simpl;
    (eapply counts_ext; [intros k'; symmetry; apply Hcons|]); simpl;
    try (eapply counts_ext; [|done]; intros; simpl; lia);
    by apply (counts_decr _ _ k (fun c => wsub 64 c 1)); auto.
Qed.

Lemma holds_lock_accounts self held keys :
  holds self held -> fits64 (keys ++ held) -> holds (lock_accounts self keys) (keys ++ held).
Proof.
  unfold lock_accounts. revert self held.
  induction keys as [|[k w] keys IH]; intros self held Hh Hf; simpl; [done|].
  rewrite Permutation_middle. unfold fits64 in *. simpl in Hf. rewrite length_app in Hf.
  apply IH.
  - apply holds_lock_one; [done|]. unfold fits64. simpl. lia.
  - rewrite length_app. simpl. lia.
Qed.

Lemma holds_unlock_accounts self held keys :
  holds self (keys ++ held) -> fits64 (keys ++ held) -> holds (unlock_accounts self keys) held.
Proof.
  unfold unlock_accounts. revert self.
  induction keys as [|[k w] keys IH]; intros self Hh Hf; simpl; [done|].
  apply IH; [by apply holds_unlock_one|]. unfold fits64 in *. simpl in Hf. lia.
Qed.

Lemma locked_spec self held k :
  holds self held ->
  is_locked_write self k = bool_decide (writes held k) /\
  is_locked_readonly self k = bool_decide ((k, false) ∈ held).
Proof.
  intros [Hw Hr]. unfold is_locked_write, is_locked_readonly, writes.
  rewrite (Hw k), (Hr k). pose proof (acc_count_nonneg true k held).
  pose proof (acc_count_nonneg false k held). rewrite <- (bool_decide_ext _ _ (acc_count_pos true k held)).
  rewrite <- (bool_decide_ext _ _ (acc_count_pos false k held)).
  split; case_decide; case_bool_decide; try lia; try done; by apply Z.ltb_lt.
Qed.

(** Locking fails exactly on a conflict with the accesses held. *)
Lemma can_lock_spec self held keys :
  holds self held ->
  can_lock_accounts self keys = if decide (conflict keys held) then Err AccountInUse else Ok tt.
Proof.
  intros Hh. rewrite (decide_ext _ _ _ _ (conflict_Exists keys held)).
  induction keys as [|[k w] keys IH]; [done|]. simpl.
  destruct (locked_spec self held k Hh) as [Hw Hr].
  assert ((if w then negb (can_write_lock self k) else negb (can_read_lock self k)) =
          bool_decide (writes held k \/ (w = true /\ touches held k))) as Hone.
  { unfold can_write_lock, can_read_lock. rewrite Hw, Hr. unfold touches, writes.
    apply Bool.eq_true_iff_eq. destruct w; rewrite ?negb_andb, ?negb_involutive;
      rewrite ?orb_true_iff, !bool_decide_eq_true; [|naive_solver].
    split; [naive_solver|]. intros [?|[_ [[] ?]]]; auto. }
  rewrite (decide_ext _ _ _ _ (Exists_cons _ _ _)). simpl.
  clear Hw Hr. case_bool_decide as Hb.
  - rewrite decide_True by auto. destruct w; simpl in Hone; by rewrite Hone.
  - transitivity (can_lock_accounts self keys); [destruct w; simpl in Hone; by rewrite Hone|].
    rewrite IH. apply decide_ext. tauto.
Qed.

End Table.
End Table.

(** ** Locking batches of transactions *)
Module Bank.
Import Table.
Section Bank.
Context {Key : Type} `{Countable Key} {Tx : Type} `{SVMMessage Key Tx}.
Context {Hash : Type} `{Countable Hash} (message_hash : Tx -> Hash).

#[local] Abbreviation AccountLocks := (Table.AccountLocks (Key := Key)).

(** [Accounts::lock_accounts]: the accesses of the transactions that are still
    good and whose accounts validate. *)
Definition validated_keys (limit : nat) (tx : Tx) (r : result TransactionError unit) :
    result TransactionError (list (Key * bool)) :=
  match r with
  | Err e => Err e
  | Ok _ => match validate_account_locks (account_keys tx) limit with
            | Err e => Err e
            | Ok _ => Ok (accounts_with_is_writable tx)
            end
  end.

Fixpoint lock_each (self : AccountLocks)
    (batch : list (result TransactionError (list (Key * bool)))) :
    list (result TransactionError unit) * AccountLocks :=
  match batch with
  | [] => ([], self)
  | keys :: rest =>
      let '(r, self') := match keys with
                         | Ok keys => try_lock_accounts self keys
                         | Err e => (Err e, self)
                         end in
      let '(rs, self'') := lock_each self' rest in
      (r :: rs, self'')
  end.

Definition lock_accounts (txs : list Tx) (results : list (result TransactionError unit))
    (tx_account_lock_limit : nat) (relax_intrabatch_account_locks : bool) (self : AccountLocks) :
    list (result TransactionError unit) * AccountLocks :=
  let validated_batch_keys := zip_with (validated_keys tx_account_lock_limit) txs results in
  if relax_intrabatch_account_locks then try_lock_transaction_batch self validated_batch_keys
  else lock_each self validated_batch_keys.

Definition unlock_accounts (txs_and_results : list (Tx * result TransactionError unit))
    (self : AccountLocks) : AccountLocks :=
  if negb (existsb (fun p => is_ok p.2) txs_and_results) then self
  else foldl (fun t '(tx, res) =>
                if is_ok res then Table.unlock_accounts t (accounts_with_is_writable tx) else t)
         self txs_and_results.

(** With relaxed locks a repeated message hash within the batch is refused. *)
Fixpoint dedup_results (relax : bool) (seen : gset Hash) (txs : list Tx)
    (results : list (result TransactionError unit)) : list (result TransactionError unit) :=
  match txs, results with
  | tx :: txs, r :: results =>
      match r with
      | Ok _ =>
          if relax then
            if decide (message_hash tx ∈ seen)
            then Err AlreadyProcessed :: dedup_results relax seen txs results
            else Ok tt :: dedup_results relax ({[message_hash tx]} ∪ seen) txs results
          else Ok tt :: dedup_results relax seen txs results
      | Err e => Err e :: dedup_results relax seen txs results
      end
  | _, _ => []
  end.

Definition try_lock_accounts_with_results (limit : nat) (txs : list Tx)
    (tx_results : list (result TransactionError unit)) (relax : bool) (self : AccountLocks) :
    list (result TransactionError unit) * AccountLocks :=
  lock_accounts txs (dedup_results relax ∅ txs tx_results) limit relax self.

(** ** [TransactionBatch] *)

Record TransactionBatch : Type := Batch {
  lock_results : list (result TransactionError unit);
  sanitized_txs : list Tx;
  needs_unlock : bool
}.

Definition batch_new (rs : list (result TransactionError unit)) (txs : list Tx) :
    option TransactionBatch :=
  if (length rs =? length txs)%nat then Some (Batch rs txs true) else None.

(** The transactions whose lock results an update turns into errors. *)
Definition newly_failed (b : TransactionBatch) (rs : list (result TransactionError unit)) :
    list (Tx * result TransactionError unit) :=
  map fst (filter (fun p => is_err p.2 && is_ok p.1.2)
    (zip (zip (sanitized_txs b) (lock_results b)) rs)).

Definition unlock_failures (b : TransactionBatch) (rs : list (result TransactionError unit))
    (self : AccountLocks) : option (TransactionBatch * AccountLocks) :=
  if negb (length (lock_results b) =? length rs)%nat then None
  else if negb (needs_unlock b) then Some (b, self)
  else if existsb (fun p => is_ok p.2 && is_err p.1) (zip (lock_results b) rs) then None
  else Some (Batch rs (sanitized_txs b) (needs_unlock b), unlock_accounts (newly_failed b rs) self).

Definition batch_drop (b : TransactionBatch) (self : AccountLocks) : AccountLocks :=
  if needs_unlock b then unlock_accounts (zip (sanitized_txs b) (lock_results b)) self else self.

(** ** The bank's lock table with the batches that own locks *)

Definition locked_txs (txs : list Tx) (rs : list (result TransactionError unit)) : list Tx :=
  map fst (filter (fun p => is_ok p.2) (zip txs rs)).

Definition owned (b : TransactionBatch) : list Tx :=
  if needs_unlock b then locked_txs (sanitized_txs b) (lock_results b) else [].

(** The live batches, each with the relaxation flag it was locked under. *)
Record world : Type := World {
  table : AccountLocks;
  batches : list (bool * TransactionBatch)
}.

Definition held (w : world) : list (Key * bool) :=
  accesses (concat (map (fun b => owned b.2) (batches w))).

Inductive step : world -> world -> Prop :=
| step_prepare t bs limit txs results relax rs t' b :
    length results = length txs ->
    fits64 (accesses txs ++ held (World t bs)) ->
    try_lock_accounts_with_results limit txs results relax t = (rs, t') ->
    batch_new rs txs = Some b ->
    step (World t bs) (World t' ((relax, b) :: bs))
| step_unlock_failures t relax b bs1 bs2 rs b' t' :
    unlock_failures b rs t = Some (b', t') ->
    step (World t (bs1 ++ (relax, b) :: bs2)) (World t' (bs1 ++ (relax, b') :: bs2))
| step_drop t relax b bs1 bs2 :
    step (World t (bs1 ++ (relax, b) :: bs2)) (World (batch_drop b t) (bs1 ++ bs2)).

Definition initial (w : world) : Prop := w = World empty_locks [].

(** ** Locking *)

(** What both locking modes establish for a batch locked on top of [h]. *)
Record batch_locked (relax : bool) (txs : list Tx) (rs : list (result TransactionError unit))
    (h : list (Key * bool)) (t' : AccountLocks) : Prop := {
  bl_length : length rs = length txs;
  bl_holds : holds t' (accesses (locked_txs txs rs) ++ h);
  bl_free : Forall (fun tx => ~ conflict (accounts_with_is_writable tx) h) (locked_txs txs rs);
  bl_pairwise : relax = false -> pairwise (fun t1 t2 => ~ conflicting t1 t2) (locked_txs txs rs)
}.

Lemma validated_keys_ok limit tx r keys :
  validated_keys limit tx r = Ok keys -> keys = accounts_with_is_writable tx.
Proof. unfold validated_keys. repeat case_match; naive_solver. Qed.

Lemma locked_txs_cons tx txs r rs :
  locked_txs (tx :: txs) (r :: rs) = (if is_ok r then [tx] else []) ++ locked_txs txs rs.
Proof. unfold locked_txs. simpl. rewrite filter_cons. by destruct r. Qed.

Lemma fits64_le (l1 l2 : list (Key * bool)) :
  (length l1 <= length l2)%nat -> fits64 l2 -> fits64 l1.
Proof. unfold fits64. lia. Qed.

Lemma lock_each_spec limit txs : forall results t h rs t',
  length results = length txs -> holds t h -> fits64 (accesses txs ++ h) ->
  lock_each t (zip_with (validated_keys limit) txs results) = (rs, t') ->
  batch_locked false txs rs h t'.
Proof.
  induction txs as [|tx txs IH]; intros [|r0 results] t h rs t' Hlen Hh Hf Hl; simplify_eq/=.
  { by split. }
  rewrite accesses_cons in Hf.
  assert (forall r, is_ok r = false ->
    (let '(rs, self'') := lock_each t (zip_with (validated_keys limit) txs results) in
     (r :: rs, self'')) = (rs, t') ->
    batch_locked false (tx :: txs) rs h t') as Hskip.
  { intros r Hr Hrest.
    destruct (lock_each t _) as [rs1 t2] eqn:Hl1. simplify_eq/=.
    destruct (IH results t h rs1 t') as [HL Hho Hfr Hpw]; auto.
    { eapply fits64_le; [|exact Hf]. rewrite !length_app. lia. }
    split; rewrite ?locked_txs_cons, ?Hr; simpl; auto. }
  destruct (validated_keys limit tx r0) as [keys|e] eqn:Hv; [|by apply (Hskip (Err e))].
  apply validated_keys_ok in Hv as ->. unfold try_lock_accounts in Hl.
  rewrite (can_lock_spec _ h) in Hl by done. case_decide as Hc; [by apply (Hskip (Err AccountInUse))|].
  clear Hskip. destruct (lock_each _ _) as [rs1 t2] eqn:Hl1. simplify_eq/=.
  apply (IH results _ (accounts_with_is_writable tx ++ h)) in Hl1 as [HL Hho Hfr Hpw]; auto.
  - split; rewrite ?locked_txs_cons; simpl; [lia|..].
    + rewrite accesses_cons. eapply holds_perm; [|exact Hho]. solve_Permutation.
    + constructor; [done|]. eapply Forall_impl; [exact Hfr|].
      simpl. intros tx' Hn ?. apply Hn, conflict_app_r. auto.
    + intros _. split; [|auto]. eapply Forall_impl; [exact Hfr|].
      simpl. intros tx' Hn Hc'. apply Hn, conflict_app_r. left. by apply conflict_sym.
  - apply holds_lock_accounts; [done|]. eapply fits64_le; [|exact Hf]. rewrite !length_app. lia.
  - eapply fits64_le; [|exact Hf]. rewrite !length_app. lia.
Qed.

Lemma lock_batch_spec limit t0 h txs : forall results t h1 rs t',
  length results = length txs -> holds t0 h -> holds t h1 -> fits64 (accesses txs ++ h1) ->
  lock_batch t (check_batch t0 (zip_with (validated_keys limit) txs results)) = (rs, t') ->
  length rs = length txs /\ holds t' (accesses (locked_txs txs rs) ++ h1) /\
  Forall (fun tx => ~ conflict (accounts_with_is_writable tx) h) (locked_txs txs rs).
Proof.
  induction txs as [|tx txs IH]; intros [|r0 results] t h1 rs t' Hlen Hh0 Hh Hf Hl; simplify_eq/=.
  { done. }
  rewrite accesses_cons in Hf.
  destruct (validated_keys limit tx r0) as [keys|e] eqn:Hv.
  - apply validated_keys_ok in Hv as ->. rewrite (can_lock_spec t0 h) in Hl by done.
    case_decide as Hc; destruct (lock_batch _ _) as [rs1 t2] eqn:Hl1; simplify_eq/=.
    + eapply IH in Hl1 as (? & ? & ?); rewrite ?locked_txs_cons; eauto.
      eapply fits64_le; [|exact Hf]. rewrite !length_app. lia.
    + eapply (IH _ _ (accounts_with_is_writable tx ++ h1)) in Hl1 as (? & Hho & ?);
        rewrite ?locked_txs_cons; auto.
      * split_and!; [auto| |by constructor].
        eapply holds_perm; [|exact Hho]. simpl. rewrite accesses_cons. solve_Permutation.
      * apply holds_lock_accounts; [done|]. eapply fits64_le; [|exact Hf]. rewrite !length_app. lia.
      * eapply fits64_le; [|exact Hf]. rewrite !length_app. lia.
  - destruct (lock_batch _ _) as [rs1 t2] eqn:Hl1; simplify_eq/=.
    eapply IH in Hl1 as (? & ? & ?); rewrite ?locked_txs_cons; eauto.
    eapply fits64_le; [|exact Hf]. rewrite !length_app. lia.
Qed.

Lemma length_dedup_results relax seen txs results :
  length results = length txs -> length (dedup_results relax seen txs results) = length txs.
Proof.
  revert seen results. induction txs as [|tx txs IH]; intros seen [|r results] Hl; simplify_eq/=; auto.
  repeat case_match; simpl; auto.
Qed.

Lemma try_lock_spec limit txs results relax t h rs t' :
  length results = length txs -> holds t h -> fits64 (accesses txs ++ h) ->
  try_lock_accounts_with_results limit txs results relax t = (rs, t') ->
  batch_locked relax txs rs h t'.
Proof.
  intros Hlen Hh Hf Hl. unfold try_lock_accounts_with_results, lock_accounts in Hl.
  pose proof (length_dedup_results relax ∅ txs results Hlen).
  destruct relax; [|by eapply lock_each_spec].
  eapply lock_batch_spec in Hl as (? & ? & ?); by eauto.
Qed.

(** ** Unlocking *)

Lemma bank_unlock_spec txs rs t h :
  length rs = length txs ->
  holds t (accesses (locked_txs txs rs) ++ h) -> fits64 (accesses (locked_txs txs rs) ++ h) ->
  holds (unlock_accounts (zip txs rs) t) h.
Proof.
  intros Hlen Hh Hf. unfold unlock_accounts.
  destruct (existsb _ (zip txs rs)) eqn:Hany; simpl.
  - clear Hany. revert rs t Hlen Hh Hf.
    induction txs as [|tx txs IH]; intros [|r rs] t Hlen Hh Hf; simplify_eq/=; [done|].
    rewrite locked_txs_cons in Hh, Hf. destruct r; simpl in *; [|by apply IH].
    rewrite accesses_cons, <- app_assoc in Hh, Hf. apply IH; [done|by apply holds_unlock_accounts|].
    eapply fits64_le; [|exact Hf]. rewrite !length_app. lia.
  - replace (locked_txs txs rs) with (@nil Tx) in Hh; [done|]. unfold locked_txs.
    clear -Hany. induction (zip txs rs) as [|[tx r] l IH]; [done|].
    simpl in Hany. apply orb_false_iff in Hany as [Hr Hl].
    rewrite filter_cons_False; [by apply IH|simpl; rewrite Hr; intros []].
Qed.

(** Failing further transactions splits what a batch owns. *)
Lemma newly_failed_split b rs :
  length (lock_results b) = length rs ->
  existsb (fun p => is_ok p.2 && is_err p.1) (zip (lock_results b) rs) = false ->
  length (sanitized_txs b) = length rs ->
  locked_txs (sanitized_txs b) (lock_results b) ≡ₚ
    (newly_failed b rs).*1 ++ locked_txs (sanitized_txs b) rs /\
  locked_txs (newly_failed b rs).*1 (newly_failed b rs).*2 = (newly_failed b rs).*1.
Proof.
  destruct b as [lrs txs n]. unfold newly_failed. simpl. clear n. revert lrs rs.
  induction txs as [|tx txs IH]; intros [|l lrs] [|r rs] Hl He Ht; simplify_eq/=; [done|].
  apply orb_false_iff in He as [He1 He]. destruct (IH lrs rs) as [IHp IHl]; auto.
  rewrite !locked_txs_cons, filter_cons.
  destruct l, r; simpl in *; try done; rewrite ?locked_txs_cons; simpl; rewrite ?IHl; auto.
  - split; [|done]. rewrite <- Permutation_middle. by constructor.
  - split; [by constructor|]. by f_equal.
Qed.

Lemma unlock_failures_spec b rs t h b' t' :
  length (lock_results b) = length (sanitized_txs b) ->
  holds t (accesses (owned b) ++ h) -> fits64 (accesses (owned b) ++ h) ->
  unlock_failures b rs t = Some (b', t') ->
  length (lock_results b') = length (sanitized_txs b') /\ holds t' (accesses (owned b') ++ h) /\
  exists gone, owned b ≡ₚ gone ++ owned b'.
Proof.
  unfold unlock_failures, owned. intros Hlen Hh Hf Hu.
  destruct (Nat.eqb_spec (length (lock_results b)) (length rs)) as [Hlr|]; [simpl in Hu|done].
  destruct (needs_unlock b) eqn:Hn; simpl in Hu; simplify_eq.
  2: { rewrite Hn. split_and!; auto. by exists []. }
  destruct (existsb _ _) eqn:He; simplify_eq. simpl.
  destruct (newly_failed_split b rs) as [Hp Hnf]; [congruence..|].
  rewrite Hp in Hh, Hf. rewrite accesses_app, <- app_assoc in Hh, Hf.
  split_and!; [congruence| |by eexists].
  rewrite <- (zip_fst_snd (newly_failed b rs)).
  apply bank_unlock_spec; rewrite ?Hnf; auto. by rewrite !length_fmap.
Qed.

Lemma batch_drop_spec b t h :
  length (lock_results b) = length (sanitized_txs b) ->
  holds t (accesses (owned b) ++ h) -> fits64 (accesses (owned b) ++ h) ->
  holds (batch_drop b t) h.
Proof.
  unfold owned, batch_drop. destruct (needs_unlock b); [|done]. intros. by apply bank_unlock_spec.
Qed.

(** ** The invariant *)

Definition apart (b1 b2 : bool * TransactionBatch) : Prop :=
  Forall (fun t1 => Forall (fun t2 => ~ conflicting t1 t2) (owned b2.2)) (owned b1.2).

Record wf (w : world) : Prop := {
  wf_holds : holds (table w) (held w);
  wf_fits : fits64 (held w);
  wf_apart : pairwise apart (batches w);
  wf_batch : Forall (fun b => length (lock_results b.2) = length (sanitized_txs b.2) /\
    (b.1 = false -> pairwise (fun t1 t2 => ~ conflicting t1 t2) (owned b.2))) (batches w)
}.

#[global] Instance apart_sym : Symmetric apart.
Proof.
  unfold apart. intros b1 b2. rewrite !Forall_forall. intros Hb t2 Ht2.
  rewrite Forall_forall. intros t1 Ht1 Hc. specialize (Hb t1 Ht1).
  rewrite Forall_forall in Hb. apply (Hb t2 Ht2). by apply conflict_sym.
Qed.

Lemma held_middle t b bs1 bs2 :
  held (World t (bs1 ++ b :: bs2)) ≡ₚ accesses (owned b.2) ++ held (World t (bs1 ++ bs2)).
Proof.
  unfold held. simpl. rewrite !map_app, !concat_app, !accesses_app. simpl.
  rewrite accesses_app. solve_Permutation.
Qed.

Lemma held_table t t' bs : held (World t bs) = held (World t' bs).
Proof. done. Qed.

Lemma held_conflict t w tx :
  ~ conflict (accounts_with_is_writable tx) (held (World t w)) ->
  Forall (fun b => Forall (fun t2 => ~ conflicting tx t2) (owned b.2)) w.
Proof.
  intros Hn. rewrite Forall_forall. intros b Hb. rewrite Forall_forall. intros t2 Ht2 Hc.
  apply Hn. unfold held. apply conflict_accesses. exists t2. split; [|done].
  simpl. rewrite <- flat_map_concat_map. apply list_elem_of_In, in_flat_map.
  exists b. by rewrite <- !list_elem_of_In.
Qed.

Lemma wf_prepare t bs relax txs rs t' b :
  wf (World t bs) -> fits64 (accesses txs ++ held (World t bs)) ->
  batch_locked relax txs rs (held (World t bs)) t' -> batch_new rs txs = Some b ->
  wf (World t' ((relax, b) :: bs)).
Proof.
  intros [Hh Hf Ha Hb] Hfit [HL Hho Hfr Hpw] Hnew. unfold batch_new in Hnew.
  case_match; simplify_eq.
  split; simpl in *.
  - change (held _) with (accesses (locked_txs txs rs ++ concat (map (fun b => owned b.2) bs))).
    by rewrite accesses_app.
  - change (held _) with (accesses (locked_txs txs rs ++ concat (map (fun b => owned b.2) bs))).
    rewrite accesses_app. eapply fits64_le; [|exact Hfit]. rewrite !length_app.
    apply Nat.add_le_mono_r. clear. revert rs.
    induction txs as [|tx txs IH]; intros [|r rs]; simpl; try lia.
    specialize (IH rs). rewrite locked_txs_cons, !accesses_app, accesses_cons, !length_app.
    destruct (is_ok r); simpl; rewrite ?accesses_cons, ?length_app; simpl; lia.
  - split; [|done]. rewrite Forall_forall. intros b2 Hb2. unfold apart.
    change (owned (relax, Batch rs txs true).2) with (locked_txs txs rs).
    eapply Forall_impl; [exact Hfr|]. simpl. intros tx Hn.
    apply held_conflict in Hn. rewrite Forall_forall in Hn. auto.
  - by constructor.
Qed.

Lemma wf_shrink t relax b b' bs1 bs2 t' gone :
  wf (World t (bs1 ++ (relax, b) :: bs2)) ->
  owned b ≡ₚ gone ++ owned b' ->
  length (lock_results b') = length (sanitized_txs b') ->
  holds t' (accesses (owned b') ++ held (World t (bs1 ++ bs2))) ->
  wf (World t' (bs1 ++ (relax, b') :: bs2)).
Proof.
  intros [Hh Hf Ha Hb] Ho Hlen Hho.
  split; simpl in *.
  - by rewrite held_middle.
  - eapply fits64_le; [|exact Hf]. rewrite !held_middle. simpl. rewrite Ho, accesses_app, !length_app.
    rewrite (held_table t t'). lia.
  - rewrite <- Permutation_middle in Ha |- *. destruct Ha as [Ha Hr]. split; [|done].
    eapply Forall_impl; [exact Ha|]. unfold apart. simpl. intros b2.
    rewrite Ho, Forall_app. tauto.
  - rewrite Forall_app, Forall_cons in Hb |- *. destruct Hb as (H1' & [_ H2'] & H3').
    split_and!; auto. simpl in *. intros Hrel. specialize (H2' Hrel).
    rewrite Ho, pairwise_app in H2'. tauto.
Qed.

Lemma wf_reachable w : reachable initial step w -> wf w.
Proof.
  apply invariant_reachable.
  - intros ? ->. split; simpl; try done.
  - intros w1 w2 Hwf Hs. destruct Hs as [t bs limit txs results relax rs t' b Hlen Hfit Hl Hnew
      |t relax b bs1 bs2 rs b' t' Hu|t relax b bs1 bs2].
    + eapply wf_prepare; eauto. eapply try_lock_spec; eauto. apply Hwf.
    + pose proof (wf_batch _ Hwf) as Hb. simpl in Hb. rewrite Forall_app, Forall_cons in Hb.
      pose proof (wf_holds _ Hwf) as Hh. rewrite held_middle in Hh.
      eapply unlock_failures_spec in Hu as (? & ? & gone & ?); [|apply Hb|apply Hh|].
      * by eapply wf_shrink.
      * pose proof (wf_fits _ Hwf) as Hf. by rewrite held_middle in Hf.
    + destruct Hwf as [Hh Hf Ha Hb]. pose proof (held_middle t (relax, b) bs1 bs2) as Hp.
      simpl in *. rewrite Hp in Hh, Hf.
      rewrite Forall_app, Forall_cons in Hb. split; simpl.
      * apply batch_drop_spec; [apply Hb|..]; done.
      * eapply fits64_le; [|exact Hf]. rewrite length_app, (held_table _ t). lia.
      * rewrite <- Permutation_middle in Ha. apply Ha.
      * rewrite Forall_app. tauto.
Qed.

(** The verdict on one transaction, given the accesses it must not conflict with. *)
Definition verdict (limit : nat) (tx : Tx) (r : result TransactionError unit)
    (h : list (Key * bool)) : result TransactionError unit :=
  match validated_keys limit tx r with
  | Err e => Err e
  | Ok keys => if decide (conflict keys h) then Err AccountInUse else Ok tt
  end.

Lemma verdict_perm limit tx r h1 h2 : h1 ≡ₚ h2 -> verdict limit tx r h1 = verdict limit tx r h2.
Proof.
  intros Hp. unfold verdict. destruct (validated_keys _ _ _) as [keys|]; [|done].
  apply decide_ext. unfold conflict, touches, writes. by setoid_rewrite Hp.
Qed.

Lemma lock_each_verdicts limit txs : forall results t h rs t' i tx r,
  length results = length txs -> holds t h -> fits64 (accesses txs ++ h) ->
  lock_each t (zip_with (validated_keys limit) txs results) = (rs, t') ->
  txs !! i = Some tx -> results !! i = Some r ->
  rs !! i = Some (verdict limit tx r (accesses (locked_txs (take i txs) (take i rs)) ++ h)).
Proof.
  induction txs as [|tx txs IH]; intros [|r0 results] t h rs t' i tx' r' Hlen Hh Hf Hl Htx Hr;
    simplify_eq/=.
  rewrite accesses_cons in Hf. unfold try_lock_accounts in Hl.
  destruct (validated_keys limit tx r0) as [keys|e] eqn:Hv.
  - pose proof (validated_keys_ok _ _ _ _ Hv) as ->. rewrite (can_lock_spec t h) in Hl by done.
    case_decide as Hc; destruct (lock_each _ _) as [rs1 t2] eqn:Hl1; simplify_eq/=;
      (destruct i as [|i]; simplify_eq/=;
       [unfold verdict; rewrite Hv; by rewrite ?decide_True, ?decide_False by done|]).
    + rewrite locked_txs_cons. simpl. eapply IH; eauto.
      eapply fits64_le; [|exact Hf]. rewrite !length_app. lia.
    + eapply (IH results _ (accounts_with_is_writable tx ++ h) _ _ i) in Hl1; eauto.
      * rewrite Hl1. f_equal. apply verdict_perm. rewrite locked_txs_cons. simpl.
        rewrite accesses_cons. solve_Permutation.
      * apply holds_lock_accounts; [done|]. eapply fits64_le; [|exact Hf]. rewrite !length_app. lia.
      * eapply fits64_le; [|exact Hf]. rewrite !length_app. lia.
  - destruct (lock_each _ _) as [rs1 t2] eqn:Hl1; simplify_eq/=.
    destruct i as [|i]; simplify_eq/=; [unfold verdict; by rewrite Hv|].
    rewrite locked_txs_cons. simpl. eapply IH; eauto.
    eapply fits64_le; [|exact Hf]. rewrite !length_app. lia.
Qed.

Lemma lock_batch_verdicts limit t0 h txs : forall results t rs t' i tx r,
  holds t0 h ->
  lock_batch t (check_batch t0 (zip_with (validated_keys limit) txs results)) = (rs, t') ->
  txs !! i = Some tx -> results !! i = Some r -> rs !! i = Some (verdict limit tx r h).
Proof.
  induction txs as [|tx txs IH]; intros [|r0 results] t rs t' i tx' r' Hh Hl Htx Hr; simplify_eq/=.
  assert (match validated_keys limit tx r0 with
          | Ok keys => match can_lock_accounts t0 keys with Ok _ => Ok keys | Err e => Err e end
          | Err e => Err e
          end = match verdict limit tx r0 h with
                | Ok _ => validated_keys limit tx r0
                | Err e => Err e
                end) as Hc.
  { unfold verdict. destruct (validated_keys _ _ _); [|done].
    rewrite (can_lock_spec t0 h) by done. by case_decide. }
  rewrite Hc in Hl. destruct i as [|i]; simplify_eq/=.
  - unfold verdict in *. destruct (validated_keys limit tx' r'); [case_decide|];
      destruct (lock_batch _ _); by simplify_eq/=.
  - destruct (match verdict limit tx r0 h with Ok _ => _ | Err e => Err e end);
      destruct (lock_batch _ _) as [rs1 t2] eqn:Hl1; simplify_eq/=; by eapply IH.
Qed.

(** C10: the bank's account locks exclude each other. In every state reached by
    locking batches, failing transactions of a batch and dropping batches in any
    order, no transaction owned by one live batch writes an account that a
    transaction of another live batch touches; and within a batch that was
    locked without relaxed intra-batch locking no two owned transactions
    conflict. *)
Theorem bank_locks_exclusive w bs1 r b bs2 :
  reachable initial step w -> batches w = bs1 ++ (r, b) :: bs2 ->
  (forall r2 b2 t1 t2, (r2, b2) ∈ bs1 ++ bs2 -> t1 ∈ owned b -> t2 ∈ owned b2 ->
     ~ conflicting t1 t2) /\
  (r = false -> forall l1 t1 l2 t2, owned b = l1 ++ t1 :: l2 -> t2 ∈ l1 ++ l2 ->
     ~ conflicting t1 t2).
Proof.
  intros [_ _ Ha Hb]%wf_reachable Heq. rewrite Heq in *. split.
  - intros r2 b2 t1 t2 Hin Ht1 Ht2. apply (pairwise_elem apart bs1 (r, b) bs2 (r2, b2)) in Ha; [|done].
    unfold apart in Ha. rewrite Forall_forall in Ha. specialize (Ha t1 Ht1).
    rewrite Forall_forall in Ha. by apply Ha.
  - intros -> l1 t1 l2 t2 Ho Hin. rewrite Forall_app, Forall_cons in Hb.
    destruct Hb as (_ & [_ Hpw] & _). specialize (Hpw eq_refl). simpl in Hpw.
    rewrite Ho in Hpw. eapply (pairwise_elem (fun t1 t2 => ~ conflicting t1 t2)); eauto.
Qed.

(** The lock table is exactly what the live batches own. In every reachable
    state an account is write-locked (read-locked) precisely when some live
    batch owns a transaction that writes (reads) it, and once every batch has
    been dropped, or has failed all its transactions, the table is empty: no
    lock leaks, and none is released early. *)
Lemma bank_locks_exact w :
  reachable initial step w ->
  (forall k, is_locked_write (table w) k = true <->
     exists r b tx, (r, b) ∈ batches w /\ tx ∈ owned b /\ (k, true) ∈ accounts_with_is_writable tx) /\
  (forall k, is_locked_readonly (table w) k = true <->
     exists r b tx, (r, b) ∈ batches w /\ tx ∈ owned b /\ (k, false) ∈ accounts_with_is_writable tx) /\
  (Forall (fun b => owned b.2 = []) (batches w) -> table w = empty_locks).
Proof.
  intros [Hh _ _ _]%wf_reachable.
  assert (forall a, a ∈ held w <-> exists r b tx, (r, b) ∈ batches w /\ tx ∈ owned b /\
    a ∈ accounts_with_is_writable tx) as Hheld.
  { intros a. unfold held, accesses. rewrite <- !flat_map_concat_map, list_elem_of_In, in_flat_map.
    setoid_rewrite in_flat_map. setoid_rewrite <- list_elem_of_In. split.
    - intros (tx & ([r b] & ? & ?) & ?). by exists r, b, tx.
    - intros (r & b & tx & ? & ? & ?). exists tx. split; [by exists (r, b)|done]. }
  split; [|split].
  - intros k. rewrite (proj1 (locked_spec _ _ k Hh)), bool_decide_eq_true. apply Hheld.
  - intros k. rewrite (proj2 (locked_spec _ _ k Hh)), bool_decide_eq_true. apply Hheld.
  - intros Hall. apply holds_nil. replace (held w) with (@nil (Key * bool)) in Hh; [done|].
    unfold held. clear Hheld Hh. induction Hall as [|b bs Hb _ IH]; [done|]. simpl. rewrite Hb. apply IH.
Qed.

(** What locking a batch answers. On a table that holds the accesses [h],
    entry [i] of the results is the error it came in with, else (with relaxed
    locking) AlreadyProcessed for a repeated message hash, else the validation
    error of its accounts, else AccountInUse when it conflicts with [h] (or,
    without relaxed locking, with an earlier transaction of the batch that got
    its locks), else Ok. *)
Lemma try_lock_verdicts limit txs results relax t h rs t' i tx r :
  length results = length txs -> holds t h -> fits64 (accesses txs ++ h) ->
  try_lock_accounts_with_results limit txs results relax t = (rs, t') ->
  txs !! i = Some tx -> dedup_results relax ∅ txs results !! i = Some r ->
  rs !! i = Some (verdict limit tx r
    (if relax then h else accesses (locked_txs (take i txs) (take i rs)) ++ h)).
Proof.
  intros Hlen Hh Hf Hl Htx Hr. unfold try_lock_accounts_with_results, lock_accounts in Hl.
  pose proof (length_dedup_results relax ∅ txs results Hlen).
  destruct relax; [by eapply lock_batch_verdicts|by eapply lock_each_verdicts].
Qed.

End Bank.

(** ** Examples *)
Section Example.
Import SampleMessage.

(** The second transaction reads what the first writes. *)
Definition sample_txs : list (list (nat * bool)) := [[(0%nat, true)]; [(0%nat, false); (1%nat, true)]].
Definition other_txs : list (list (nat * bool)) := [[(2%nat, true)]; [(3%nat, false)]].
Definition sample_batch : TransactionBatch := Batch [Ok tt; Err AccountInUse] sample_txs true.
Definition other_batch : TransactionBatch := Batch [Ok tt; Ok tt] other_txs true.

Lemma sample_world :
  exists t, reachable initial (step (fun tx => tx)) (World t [(false, other_batch); (false, sample_batch)]).
Proof.
  eexists. eapply reachable_step; [eapply reachable_step; [by apply reachable_init|]|].
  - eapply (step_prepare _ _ _ 64 sample_txs [Ok tt; Ok tt] false); vm_compute; (reflexivity || discriminate).
  - eapply (step_prepare _ _ _ 64 other_txs [Ok tt; Ok tt] false); vm_compute; (reflexivity || discriminate).
Qed.

Lemma bank_locks_exclusive_witness :
  ~ conflicting [(0%nat, true)] [(2%nat, true)] /\ ~ conflicting [(2%nat, true)] [(3%nat, false)].
Proof.
  destruct sample_world as [t Ht]. split.
  - apply (bank_locks_exclusive (fun tx => tx) _ [(false, other_batch)] false sample_batch [] Ht eq_refl)
      with (r2 := false) (b2 := other_batch); [left| |]; vm_compute; left.
  - apply (bank_locks_exclusive (fun tx => tx) _ [] false other_batch [(false, sample_batch)] Ht eq_refl)
      with (l1 := []) (l2 := [[(3%nat, false)]]); [reflexivity|vm_compute; reflexivity|left].
Defined.

End Example.
End Bank.

(** ** The bundle stage's lock table *)
Module Bundle.
Section Bundle.
Context {Key : Type} `{Countable Key} {Tx : Type} `{SVMMessage Key Tx}.

Record BundleAccountLocks : Type := BundleLocks {
  read_locks : gmap Key Z;
  write_locks : gmap Key Z
}.

Inductive BundleAccountLockerError : Type := LockingError.

Definition no_locks : BundleAccountLocks := BundleLocks ∅ ∅.

(** [saturating_sub(1)] of an occupied entry, which is removed at zero. *)
Definition decr (m : gmap Key Z) (k : Key) : gmap Key Z :=
  match m !! k with
  | Some count => if sat_sub count 1 =? 0 then delete k m else <[k := sat_sub count 1]> m
  | None => m
  end.

Definition lock_accounts (self : BundleAccountLocks) (transaction_locks : list (list (Key * bool))) :
    BundleAccountLocks :=
  foldl (fun t locks =>
    foldl (fun t '(acc, writable) =>
      if writable : bool then BundleLocks (read_locks t) (incr (write_locks t) acc)
      else BundleLocks (incr (read_locks t) acc) (write_locks t)) t locks) self transaction_locks.

Definition unlock_accounts (self : BundleAccountLocks) (transaction_locks : list (list (Key * bool))) :
    BundleAccountLocks :=
  foldl (fun t locks =>
    foldl (fun t '(acc, writable) =>
      if writable : bool then BundleLocks (read_locks t) (decr (write_locks t) acc)
      else BundleLocks (decr (read_locks t) acc) (write_locks t)) t locks) self transaction_locks.

Definition get_transaction_locks (limit : nat) (transactions : list Tx) :
    result BundleAccountLockerError (list (list (Key * bool))) :=
  let transaction_locks :=
    omap (fun tx => if is_ok (validate_account_locks (account_keys tx) limit)
                    then Some (accounts_with_is_writable tx) else None) transactions in
  if negb (length transaction_locks =? length transactions)%nat then Err LockingError
  else Ok transaction_locks.

Definition lock_bundle (limit : nat) (transactions : list Tx) (self : BundleAccountLocks) :
    result BundleAccountLockerError unit * BundleAccountLocks :=
  match get_transaction_locks limit transactions with
  | Err e => (Err e, self)
  | Ok transaction_locks => (Ok tt, lock_accounts self transaction_locks)
  end.

Definition unlock_bundle (limit : nat) (transactions : list Tx) (self : BundleAccountLocks) :
    result BundleAccountLockerError unit * BundleAccountLocks :=
  match get_transaction_locks limit transactions with
  | Err e => (Err e, self)
  | Ok transaction_locks => (Ok tt, unlock_accounts self transaction_locks)
  end.

(** ** What the table stands for *)

Definition as_table (t : BundleAccountLocks) : Table.AccountLocks :=
  Table.Locks (write_locks t) (read_locks t).

Definition bundle_holds (t : BundleAccountLocks) (held : list (Key * bool)) : Prop :=
  Table.holds (as_table t) held.

#[global] Instance bundle_holds_perm t : Proper ((≡ₚ) ==> iff) (bundle_holds t).
Proof. unfold bundle_holds. apply _. Qed.

Lemma bundle_holds_nil t : bundle_holds t [] <-> t = no_locks.
Proof.
  unfold bundle_holds. rewrite Table.holds_nil. destruct t.
  unfold as_table, Table.empty_locks, no_locks. simpl. naive_solver.
Qed.

Lemma bundle_holds_lock t held locks :
  bundle_holds t held -> Table.fits64 (concat locks ++ held) ->
  bundle_holds (lock_accounts t locks) (concat locks ++ held).
Proof.
  intros Hh Hf. enough (as_table (lock_accounts t locks) =
    Table.lock_accounts (as_table t) (concat locks)) as Ht.
  { unfold bundle_holds. rewrite Ht. by apply Table.holds_lock_accounts. }
  clear. unfold lock_accounts, Table.lock_accounts. revert t.
  induction locks as [|l locks IH]; intros t; [done|]. simpl. rewrite IH, foldl_app. f_equal. clear.
  revert t. induction l as [|[k []] l IH]; intros t; [done|..]; simpl; by rewrite IH.
Qed.

Lemma decr_wsub (f : Key -> Z) m k :
  counts f m -> 0 < f k <= U64_MAX ->
  decr m k = match m !! k with
             | Some count => if wsub 64 count 1 =? 0 then delete k m else <[k := wsub 64 count 1]> m
             | None => m
             end.
Proof.
  intros Hc Hk. unfold decr. rewrite (Hc k). rewrite decide_False by lia.
  unfold sat_sub. rewrite wsub_small by lia. by replace (Z.max 0 (f k - 1)) with (f k - 1) by lia.
Qed.

Lemma bundle_holds_unlock t held locks :
  bundle_holds t (concat locks ++ held) -> Table.fits64 (concat locks ++ held) ->
  bundle_holds (unlock_accounts t locks) held.
Proof.
  revert t. induction locks as [|l locks IH]; intros t Hh Hf; [done|]. simpl in *.
  apply IH; [|unfold Table.fits64 in *; rewrite !length_app in *; lia].
  rewrite <- app_assoc in Hh, Hf. clear IH. revert t Hh.
  generalize (concat locks ++ held) as h, Hf. clear. intros h Hf t Hh.
  revert t Hh. induction l as [|[k w] l IH]; intros t Hh; [done|]. simpl in *.
  apply IH; [unfold Table.fits64 in *; simpl in *; lia|].
  pose proof (Table.holds_unlock_one _ _ _ _ Hh Hf) as Hone.
  assert (0 < acc_count w k ((k, w) :: l ++ h)) by (apply acc_count_pos; by left).
  pose proof (acc_count_le w k ((k, w) :: l ++ h)). unfold Table.fits64 in Hf.
  destruct Hh as [Hw Hr]. unfold bundle_holds.
  destruct w; simpl in *; [rewrite (decr_wsub _ _ k Hw)|rewrite (decr_wsub _ _ k Hr)]; auto; lia.
Qed.

Lemma get_transaction_locks_spec limit txs :
  get_transaction_locks limit txs =
    if decide (Forall (fun tx => is_ok (validate_account_locks (account_keys tx) limit) = true) txs)
    then Ok (map accounts_with_is_writable txs) else Err LockingError.
Proof.
  unfold get_transaction_locks.
  set (f := fun tx : Tx => if is_ok (validate_account_locks (account_keys tx) limit)
                           then Some (accounts_with_is_writable tx) else None).
  assert (forall tx, f tx = Some (accounts_with_is_writable tx) <->
    is_ok (validate_account_locks (account_keys tx) limit) = true) as Hf.
  { intros tx. unfold f. by destruct (is_ok _). }
  assert (length (omap f txs) = length txs <->
    Forall (fun tx => f tx = Some (accounts_with_is_writable tx)) txs) as Hl.
  { apply omap_total. intros tx y. unfold f. destruct (is_ok _); naive_solver. }
  destruct (Nat.eqb_spec (length (omap f txs)) (length txs)) as [He|He]; simpl.
  - apply Hl in He. rewrite decide_True; [by rewrite (omap_all _ _ _ He)|].
    eapply Forall_impl; [exact He|]. intros; by apply Hf.
  - rewrite decide_False; [done|]. intros Hall. apply He, Hl.
    eapply Forall_impl; [exact Hall|]. intros; by apply Hf.
Qed.

(** ** Sequences of bundles *)

(** The bundles locked and not yet unlocked, all against one bank. *)
Record lockers : Type := Lockers {
  locks : BundleAccountLocks;
  outstanding : list (list Tx)
}.

Definition bundle_accesses (bundles : list (list Tx)) : list (Key * bool) :=
  concat (map accounts_with_is_writable (concat bundles)).

Inductive step (limit : nat) : lockers -> lockers -> Prop :=
| step_lock t out txs t' :
    Table.fits64 (bundle_accesses (txs :: out)) ->
    lock_bundle limit txs t = (Ok tt, t') -> step limit (Lockers t out) (Lockers t' (txs :: out))
| step_lock_refused t out txs e t' :
    lock_bundle limit txs t = (Err e, t') -> step limit (Lockers t out) (Lockers t' out)
| step_unlock t out1 txs out2 r t' :
    unlock_bundle limit txs t = (r, t') ->
    step limit (Lockers t (out1 ++ txs :: out2)) (Lockers t' (out1 ++ out2)).

Definition initial (l : lockers) : Prop := l = Lockers no_locks [].

Lemma bundle_accesses_middle out1 txs out2 :
  bundle_accesses (out1 ++ txs :: out2) ≡ₚ
  concat (map accounts_with_is_writable txs) ++ bundle_accesses (out1 ++ out2).
Proof.
  unfold bundle_accesses. rewrite !concat_app. simpl. rewrite !map_app, !concat_app. solve_Permutation.
Qed.

Definition locker_wf (limit : nat) (l : lockers) : Prop :=
  bundle_holds (locks l) (bundle_accesses (outstanding l)) /\
  Table.fits64 (bundle_accesses (outstanding l)) /\
  Forall (Forall (fun tx => is_ok (validate_account_locks (account_keys tx) limit) = true))
    (outstanding l).

Lemma locker_wf_reachable limit l : reachable initial (step limit) l -> locker_wf limit l.
Proof.
  apply invariant_reachable.
  - intros ? ->. split_and!; simpl; [by apply bundle_holds_nil|done|constructor].
  - intros l1 l2 (Hh & Hf & Hv) Hs.
    destruct Hs as [t out txs t' Hfit Hl|t out txs e t' Hl|t out1 txs out2 r t' Hl]; simpl in *.
    + unfold lock_bundle in Hl. rewrite get_transaction_locks_spec in Hl.
      case_decide; simplify_eq. pose proof (bundle_accesses_middle [] txs out) as Hp. simpl in Hp.
      split_and!; simpl; [|done|by constructor]. rewrite Hp. apply bundle_holds_lock; [done|].
      by rewrite <- Hp.
    + unfold lock_bundle in Hl. rewrite get_transaction_locks_spec in Hl.
      by case_decide; simplify_eq.
    + rewrite bundle_accesses_middle in Hh, Hf. rewrite Forall_app, Forall_cons in Hv.
      destruct Hv as (Hv1 & Hv & Hv2). unfold unlock_bundle in Hl.
      rewrite get_transaction_locks_spec, decide_True in Hl by done. simplify_eq.
      split_and!; simpl; [by apply bundle_holds_unlock| |by apply Forall_app].
      unfold Table.fits64 in *. rewrite length_app in Hf. lia.
Qed.

(** Bundle locks balance. Whatever bundles are locked and unlocked, in any
    order and with bundles that overlap, an account is in the write (read) map
    exactly when an outstanding bundle writes (reads) it, so that unlocking one
    bundle never exposes an account another still needs; when none is
    outstanding both maps are empty; and unlocking an outstanding bundle never
    fails. *)
Lemma bundle_locks_balanced limit l :
  reachable initial (step limit) l ->
  (forall k, is_Some (write_locks (locks l) !! k) <->
     exists bundle tx, bundle ∈ outstanding l /\ tx ∈ bundle /\ (k, true) ∈ accounts_with_is_writable tx) /\
  (forall k, is_Some (read_locks (locks l) !! k) <->
     exists bundle tx, bundle ∈ outstanding l /\ tx ∈ bundle /\ (k, false) ∈ accounts_with_is_writable tx) /\
  (outstanding l = [] -> locks l = no_locks) /\
  (forall txs, txs ∈ outstanding l -> exists t', unlock_bundle limit txs (locks l) = (Ok tt, t')).
Proof.
  intros ((Hw & Hr) & Hf & Hv)%locker_wf_reachable. simpl in *.
  assert (forall w k m, counts (fun k => acc_count w k (bundle_accesses (outstanding l))) m ->
    is_Some (m !! k) <-> exists bundle tx, bundle ∈ outstanding l /\ tx ∈ bundle /\
      (k, w) ∈ accounts_with_is_writable tx) as Hin.
  { intros w k m Hm. rewrite (Hm k). transitivity ((k, w) ∈ bundle_accesses (outstanding l)).
    - pose proof (acc_count_zero w k (bundle_accesses (outstanding l))) as Hz.
      case_decide; rewrite is_Some_alt; [tauto|]. destruct (decide ((k, w) ∈ bundle_accesses (outstanding l))); tauto.
    - unfold bundle_accesses. rewrite <- flat_map_concat_map, list_elem_of_In, in_flat_map.
      setoid_rewrite in_concat. setoid_rewrite <- list_elem_of_In. naive_solver. }
  split_and!; [by intros; apply Hin|by intros; apply Hin|..].
  - intros Ho. apply bundle_holds_nil. rewrite Ho in *. by split.
  - intros txs Htxs. rewrite Forall_forall in Hv. unfold unlock_bundle.
    rewrite get_transaction_locks_spec, decide_True by auto. eauto.
Qed.

(** A refused bundle leaves no trace. Locking a bundle fails exactly when
    one of its transactions has too many or repeated accounts, and then the
    table is unchanged; otherwise locking and then unlocking the bundle restores
    a table that counts the accesses [held]. *)
Lemma lock_bundle_all_or_nothing limit txs t held :
  bundle_holds t held -> Table.fits64 (bundle_accesses [txs] ++ held) ->
  (fst (lock_bundle limit txs t) = Ok tt <->
     Forall (fun tx => (length (account_keys tx) <= limit)%nat /\ NoDup (account_keys tx)) txs) /\
  (fst (lock_bundle limit txs t) <> Ok tt -> lock_bundle limit txs t = (Err LockingError, t)) /\
  (snd (unlock_bundle limit txs (snd (lock_bundle limit txs t))) = t).
Proof.
  intros Hh Hf. unfold lock_bundle, unlock_bundle. rewrite get_transaction_locks_spec.
  assert (forall tx : Tx, is_ok (validate_account_locks (account_keys tx) limit) = true <->
    (length (account_keys tx) <= limit)%nat /\ NoDup (account_keys tx)) as Hv.
  { intros tx. rewrite <- validate_account_locks_ok. by destruct (validate_account_locks _ _) as [[]|]. }
  case_decide as Hall; simpl.
  - split_and!; [|done|].
    + split; [|done]. intros _. eapply Forall_impl; [exact Hall|]. intros; by apply Hv.
    + assert (forall t1 t2, bundle_holds t1 held -> bundle_holds t2 held -> t1 = t2) as Huniq.
      { intros [] [] [H1 H2] [H3 H4]. simpl in *. f_equal; apply map_eq; intros k;
          [by rewrite (H2 k), (H4 k)|by rewrite (H1 k), (H3 k)]. }
      apply Huniq; [|done]. unfold bundle_accesses in Hf. simpl in Hf. rewrite app_nil_r in Hf.
      apply bundle_holds_unlock; [|done]. by apply bundle_holds_lock.
  - split_and!; [|done..]. split; [done|]. intros Hok. exfalso. apply Hall.
    eapply Forall_impl; [exact Hok|]. intros; by apply Hv.
Qed.

End Bundle.

(** ** Examples *)
Section Example.
Import SampleMessage.

Definition bundle_a : list (list (nat * bool)) := [[(0%nat, true); (1%nat, false)]; [(0%nat, true)]].
Definition bundle_b : list (list (nat * bool)) := [[(1%nat, false)]].

(** Two overlapping bundles are locked and the first is unlocked again. *)
End Example.
End Bundle.
