(* ===== verification/ThreadAwareLocks.v ===== *)
(** * Thread-aware account locks

    [scheduling-utils/src/thread_aware_account_locks.rs]: the lock table of the
    central schedulers, where an account may be locked many times by one thread
    and read-locked by several. Module [ThreadSets] is the 64-bit thread set and
    its iterator, module [Locks] the table. Panics (the [assert]s, [panic!] and
    [unreachable!] of the code, and array indexing) are [None]. The abstract
    state is the multiset of outstanding accesses, each with its thread; [inv]
    ties the table to it and the theorems show that clients which unlock what
    they locked never panic, that conflicting transactions are outstanding on
    one thread only, and that a lock is refused only when that would break. *)

From S2P Require Import Prelude Accounts.

Definition MAX_THREADS : nat := 64.

(** ** Sets of threads *)
Module ThreadSets.

(** A [u64], least significant bit for thread 0. *)
Definition ThreadSet : Type := Z.

(** Shifts mask the shift amount to 6 bits. *)
Definition as_flag (thread_id : nat) : ThreadSet := Z.shiftl 1 (Z.of_nat thread_id mod 64).

Definition none : ThreadSet := 0.

Definition any (num_threads : nat) : ThreadSet :=
  if (num_threads =? MAX_THREADS)%nat then U64_MAX else wsub 64 (as_flag num_threads) 1.

Definition only (thread_id : nat) : ThreadSet := as_flag thread_id.

(** [u64::count_ones] and [u64::trailing_zeros]. *)
Definition bits (x : Z) : list nat := filter (fun i => Z.testbit x (Z.of_nat i)) (seq 0 64).
Definition count_ones (x : Z) : nat := length (bits x).
Definition trailing_zeros (x : Z) : nat := default 64%nat (head (bits x)).

Definition only_one_contained (self : ThreadSet) : option nat :=
  if (count_ones self =? 1)%nat then Some (trailing_zeros self) else None.

Definition is_empty (self : ThreadSet) : bool := self =? none.
Definition contains (self : ThreadSet) (thread_id : nat) : bool :=
  negb (Z.land self (as_flag thread_id) =? 0).
Definition insert (self : ThreadSet) (thread_id : nat) : ThreadSet := Z.lor self (as_flag thread_id).
Definition remove (self : ThreadSet) (thread_id : nat) : ThreadSet :=
  Z.land self (Z.lxor U64_MAX (as_flag thread_id)).
Definition bitand (self rhs : ThreadSet) : ThreadSet := Z.land self rhs.
Definition sub (self rhs : ThreadSet) : ThreadSet := Z.land self (Z.lxor U64_MAX rhs).

(** [ThreadSetIterator::next] and the sequence it yields. *)
Definition next (x : Z) : option nat * Z :=
  if x =? 0 then (None, x) else (Some (trailing_zeros x), Z.land x (wsub 64 x 1)).

Fixpoint contained_threads (fuel : nat) (x : Z) : list nat :=
  match fuel with
  | O => []
  | S fuel => match next x with
              | (None, _) => []
              | (Some t, x') => t :: contained_threads fuel x'
              end
  end.

Definition contained_threads_iter (self : ThreadSet) : list nat := contained_threads 64 self.

(** ** Thread sets as sets *)

Definition mem (s : ThreadSet) (t : nat) : bool := Z.testbit s (Z.of_nat t).
Definition wf (s : ThreadSet) : Prop := 0 <= s < 2 ^ 64.

Lemma wf_high s i : wf s -> (64 <= i)%nat -> mem s i = false.
Proof.
  intros [H0 H1] Hi. unfold mem. destruct (Z.eq_dec s 0) as [->|]; [apply Z.bits_0|].
  apply Z.bits_above_log2; [lia|]. apply Z.log2_lt_pow2; [lia|].
  apply Z.lt_le_trans with (2 ^ 64); [done|]. apply Z.pow_le_mono_r; lia.
Qed.

Lemma set_ext s1 s2 :
  wf s1 -> wf s2 -> (forall i, (i < 64)%nat -> mem s1 i = mem s2 i) -> s1 = s2.
Proof.
  intros H1 H2 He. apply Z.bits_inj'. intros n Hn.
  destruct (decide (n < 64)) as [Hlt|Hge].
  - specialize (He (Z.to_nat n)). unfold mem in He. rewrite Z2Nat.id in He by lia. apply He. lia.
  - rewrite <- (Z2Nat.id n) by lia. unfold mem in *.
    pose proof (wf_high s1 (Z.to_nat n) H1). pose proof (wf_high s2 (Z.to_nat n) H2).
    unfold mem in *. rewrite H, H0 by lia. done.
Qed.

Lemma wf_bits x : (forall i, 64 <= i -> Z.testbit x i = false) -> 0 <= x -> wf x.
Proof.
  intros Hb Hx. split; [done|]. destruct (Z.eq_dec x 0) as [->|]; [lia|].
  apply Z.log2_lt_pow2; [lia|]. destruct (Z.lt_ge_cases (Z.log2 x) 64) as [|Hge]; [done|].
  specialize (Hb (Z.log2 x) Hge). rewrite Z.bit_log2 in Hb by lia. done.
Qed.

Lemma mem_flag t i : (t < 64)%nat -> mem (as_flag t) i = bool_decide (i = t).
Proof.
  intros Ht. unfold mem, as_flag. rewrite Z.mod_small by lia.
  rewrite Z.shiftl_1_l, Z.pow2_bits_eqb by lia.
  case_bool_decide; [subst; apply Z.eqb_refl|]. apply Z.eqb_neq. lia.
Qed.

Lemma wf_flag t : (t < 64)%nat -> wf (as_flag t).
Proof.
  intros Ht. unfold wf, as_flag. rewrite Z.mod_small, Z.shiftl_1_l by lia.
  split; [lia|]. apply Z.pow_lt_mono_r; lia.
Qed.

Lemma mem_none i : mem none i = false.
Proof. apply Z.bits_0. Qed.

Lemma mem_U64_MAX i : (i < 64)%nat -> mem U64_MAX i = true.
Proof.
  intros Hi. unfold mem. change U64_MAX with (Z.ones 64). apply Z.ones_spec_low. lia.
Qed.

Lemma any_ones n : (n <= 64)%nat -> any n = Z.ones (Z.of_nat n).
Proof.
  intros Hn. unfold any, MAX_THREADS. destruct (Nat.eqb_spec n 64) as [->|]; [done|].
  unfold as_flag. rewrite Z.mod_small, Z.shiftl_1_l by lia.
  pose proof (Z.pow_pos_nonneg 2 (Z.of_nat n)).
  assert (2 ^ Z.of_nat n < 2 ^ 64) by (apply Z.pow_lt_mono_r; lia).
  rewrite wsub_small by (unfold word_max; lia). rewrite Z.ones_equiv. lia.
Qed.

Lemma mem_any n i : (n <= 64)%nat -> mem (any n) i = bool_decide (i < n)%nat.
Proof.
  intros Hn. rewrite any_ones by done. unfold mem. case_bool_decide.
  - apply Z.ones_spec_low. lia.
  - apply Z.ones_spec_high. lia.
Qed.

Lemma wf_any n : (n <= 64)%nat -> wf (any n).
Proof.
  intros Hn. rewrite any_ones by done. unfold wf. rewrite Z.ones_equiv.
  assert (2 ^ Z.of_nat n <= 2 ^ 64) by (apply Z.pow_le_mono_r; lia).
  pose proof (Z.pow_pos_nonneg 2 (Z.of_nat n)). lia.
Qed.

Lemma mem_bitand s1 s2 i : mem (bitand s1 s2) i = mem s1 i && mem s2 i.
Proof. apply Z.land_spec. Qed.

Lemma wf_land s x : wf s -> 0 <= x -> wf (Z.land s x).
Proof.
  intros Hs Hx. apply wf_bits; [|apply Z.land_nonneg; unfold wf in Hs; lia].
  intros i Hi. rewrite Z.land_spec. pose proof (wf_high s (Z.to_nat i) Hs) as Hh.
  unfold mem in Hh. rewrite Z2Nat.id in Hh by lia. rewrite Hh by lia. done.
Qed.

Lemma wf_bitand s1 s2 : wf s1 -> wf s2 -> wf (bitand s1 s2).
Proof. intros H1 [H2 _]. by apply wf_land. Qed.

Lemma mem_insert s t i : (t < 64)%nat -> mem (insert s t) i = mem s i || bool_decide (i = t).
Proof. intros Ht. unfold mem, insert. rewrite Z.lor_spec. f_equal. by apply mem_flag. Qed.

Lemma wf_insert s t : (t < 64)%nat -> wf s -> wf (insert s t).
Proof.
  intros Ht Hs. pose proof (wf_flag t Ht). apply wf_bits.
  - intros i Hi. rewrite <- (Z2Nat.id i) by lia. change (mem (insert s t) (Z.to_nat i) = false).
    rewrite mem_insert by done. rewrite wf_high by (done || lia). simpl.
    apply bool_decide_eq_false. lia.
  - apply Z.lor_nonneg. unfold wf in *. lia.
Qed.

Lemma lnot64_nonneg t : (t < 64)%nat -> 0 <= Z.lxor U64_MAX (as_flag t).
Proof. intros Ht. pose proof (wf_flag t Ht). apply Z.lxor_nonneg. unfold wf, word_max in *. lia. Qed.

Lemma mem_remove s t i :
  (t < 64)%nat -> wf s -> mem (remove s t) i = mem s i && negb (bool_decide (i = t)).
Proof.
  intros Ht Hs. unfold mem, remove. rewrite Z.land_spec, Z.lxor_spec.
  pose proof (mem_flag t i Ht) as Hf. unfold mem in Hf. rewrite Hf.
  destruct (decide (i < 64)%nat) as [Hi|Hi].
  - pose proof (mem_U64_MAX i Hi) as Hm. unfold mem in Hm. rewrite Hm.
    by destruct (bool_decide (i = t)).
  - pose proof (wf_high s i Hs) as Hh. unfold mem in Hh. rewrite Hh by lia. done.
Qed.

Lemma wf_remove s t : (t < 64)%nat -> wf s -> wf (remove s t).
Proof. intros Ht Hs. apply wf_land; [done|]. by apply lnot64_nonneg. Qed.

Lemma contains_mem s t : (t < 64)%nat -> contains s t = mem s t.
Proof.
  intros Ht. unfold contains. destruct (mem s t) eqn:Hm.
  - apply negb_true_iff, Z.eqb_neq. intros Hz.
    assert (mem (bitand s (as_flag t)) t = true) as Hb.
    { rewrite mem_bitand, Hm, mem_flag by done. by rewrite bool_decide_true. }
    unfold bitand in Hb. rewrite Hz in Hb. unfold mem in Hb. by rewrite Z.bits_0 in Hb.
  - apply negb_false_iff, Z.eqb_eq. apply Z.bits_inj_0. intros n.
    destruct (decide (0 <= n)) as [Hn|]; [|apply Z.testbit_neg_r; lia].
    rewrite <- (Z2Nat.id n) by lia. change (mem (bitand s (as_flag t)) (Z.to_nat n) = false).
    rewrite mem_bitand, mem_flag by done. case_bool_decide as He; [|by rewrite andb_false_r].
    rewrite He, Hm. done.
Qed.

Lemma elem_bits s t : t ∈ bits s <-> (t < 64)%nat /\ mem s t = true.
Proof.
  unfold bits. rewrite list_elem_of_filter, elem_of_seq. unfold mem.
  destruct (Z.testbit s (Z.of_nat t)); simpl; intuition (lia || done).
Qed.

Lemma is_empty_spec s : wf s -> is_empty s = true <-> forall t, (t < 64)%nat -> mem s t = false.
Proof.
  intros Hs. unfold is_empty. rewrite Z.eqb_eq. split.
  - intros -> t _. apply mem_none.
  - intros He. apply set_ext; [done|unfold wf, none; lia|]. intros i Hi. rewrite He by done.
    by rewrite mem_none.
Qed.

(** [only_one_contained] answers exactly for singletons, with their member. *)
Lemma only_one_contained_spec s t :
  only_one_contained s = Some t <->
  (t < 64)%nat /\ forall i, (i < 64)%nat -> mem s i = bool_decide (i = t).
Proof.
  assert (NoDup (bits s)) as Hnd by (apply NoDup_filter, NoDup_seq).
  unfold only_one_contained, count_ones, trailing_zeros. split.
  - destruct (bits s) as [|x [|]] eqn:Hb; simpl; intros; simplify_eq.
    assert (forall i, (i < 64)%nat /\ mem s i = true <-> i = t) as Hm.
    { intros i. rewrite <- elem_bits, Hb. apply list_elem_of_singleton. }
    split; [by apply Hm|]. intros i Hi. apply Bool.eq_true_iff_eq.
    rewrite bool_decide_eq_true, <- Hm. tauto.
  - intros [Ht Hm].
    assert (forall i, i ∈ bits s <-> i = t) as Hin.
    { intros i. rewrite elem_bits. split; [|intros ->; rewrite Hm, bool_decide_true; done].
      intros [Hi Hmi]. rewrite Hm in Hmi by done. by apply bool_decide_eq_true in Hmi. }
    destruct (bits s) as [|x [|y l]]; simpl.
    + pose proof (proj2 (Hin t) eq_refl) as Hn. by apply not_elem_of_nil in Hn.
    + f_equal. apply Hin. left.
    + assert (x = t) by (apply Hin; left). assert (y = t) by (apply Hin; right; left).
      subst. apply NoDup_cons in Hnd as [Hx _]. destruct Hx. left.
Qed.

(** ** The iterator *)

Lemma clear_lowest x l :
  wf x -> Z.testbit x l = true -> 0 <= l -> (forall i, 0 <= i < l -> Z.testbit x i = false) ->
  forall i, 0 <= i -> Z.testbit (Z.land x (wsub 64 x 1)) i = Z.testbit x i && negb (i =? l).
Proof.
  intros Hwf Hl Hl0 Hlow i Hi. rewrite Z.land_spec.
  assert (x mod 2 ^ l = 0) as Hmod.
  { apply Z.bits_inj_0. intros n. destruct (decide (0 <= n)); [|apply Z.testbit_neg_r; lia].
    destruct (decide (n < l)); [rewrite Z.mod_pow2_bits_low, Hlow by lia; done|].
    apply Z.mod_pow2_bits_high. lia. }
  assert (2 ^ l > 0) by (apply Z.lt_gt, Z.pow_pos_nonneg; lia).
  assert (x = 2 ^ l * (x / 2 ^ l)) as Hx by (apply Z.div_exact; lia).
  assert (Z.odd (x / 2 ^ l) = true) as Hodd.
  { rewrite <- Z.bit0_odd, Z.div_pow2_bits by lia. by rewrite Z.add_0_l. }
  set (q := x / 2 ^ l) in *. apply Z.odd_spec in Hodd as [r Hr].
  assert (0 < x) by (unfold wf in Hwf; destruct (Z.eq_dec x 0) as [->|]; [by rewrite Z.bits_0 in Hl|lia]).
  rewrite wsub_small by (unfold wf, word_max in *; lia).
  replace (x - 1) with ((2 ^ l - 1) + (2 * r) * 2 ^ l) by (rewrite Hx, Hr; ring).
  destruct (Z.lt_trichotomy i l) as [Hlt|[->|Hgt]].
  - by rewrite Hlow by lia.
  - rewrite Z.eqb_refl, Hl. simpl.
    rewrite <- (Z.add_0_l l) at 3. rewrite <- Z.div_pow2_bits by lia.
    rewrite Z.div_add, Z.div_small, Z.add_0_l by lia. apply Z.testbit_even_0.
  - replace (i =? l) with false by (symmetry; apply Z.eqb_neq; lia). rewrite andb_true_r.
    replace i with (i - l + l) by lia. rewrite <- !Z.div_pow2_bits by lia. fold q.
    rewrite Z.div_add, Z.div_small, Z.add_0_l by lia. rewrite Hr.
    replace (i - l) with (Z.succ (i - l - 1)) by lia.
    rewrite Z.testbit_odd_succ, Z.testbit_even_succ by lia. apply andb_diag.
Qed.

Lemma StronglySorted_bits x : StronglySorted lt (bits x).
Proof. apply StronglySorted_filter, StronglySorted_seq. Qed.

Lemma bits_next x t l :
  wf x -> bits x = t :: l -> bits (Z.land x (wsub 64 x 1)) = l /\ wf (Z.land x (wsub 64 x 1)).
Proof.
  intros Hwf Hb. assert (wf (Z.land x (wsub 64 x 1))) as Hwf'.
  { apply wf_land; [done|]. unfold wsub, wrap. apply Z.mod_pos_bound. lia. }
  split; [|done]. pose proof (StronglySorted_bits x) as Hs. rewrite Hb in Hs.
  apply StronglySorted_inv in Hs as [Hsl Ht]. rewrite Forall_forall in Ht.
  assert ((t < 64)%nat /\ mem x t = true) as [Ht64 Hmt] by (apply elem_bits; rewrite Hb; left).
  assert (forall i, (i < 64)%nat -> mem (Z.land x (wsub 64 x 1)) i = mem x i && negb (bool_decide (i = t))) as Hm.
  { intros i Hi. unfold mem. rewrite (clear_lowest x (Z.of_nat t)); [|done|done|lia| |lia].
    - f_equal. f_equal. case_bool_decide; [subst; apply Z.eqb_refl|apply Z.eqb_neq; lia].
    - intros j Hj. destruct (Z.testbit x j) eqn:Hxj; [|done]. exfalso.
      assert (Z.to_nat j ∈ bits x) as Hin.
      { apply elem_bits. unfold mem. rewrite Z2Nat.id by lia. split; [lia|done]. }
      rewrite Hb in Hin. apply elem_of_cons in Hin as [|Hin%Ht]; lia. }
  apply StronglySorted_lt_ext; [apply StronglySorted_bits|done|].
  intros i. rewrite elem_bits.
  assert (i ∈ t :: l <-> (i < 64)%nat /\ mem x i = true) as Hi by (rewrite <- Hb; apply elem_bits).
  rewrite elem_of_cons in Hi. split.
  - intros [H64 Hmi]. rewrite Hm in Hmi by done. apply andb_true_iff in Hmi as [? Hne].
    apply negb_true_iff, bool_decide_eq_false in Hne. tauto.
  - intros Hil. destruct (proj1 Hi (or_intror Hil)) as [H64 Hmi]. split; [done|].
    rewrite Hm, Hmi by done. simpl. apply negb_true_iff, bool_decide_eq_false.
    apply Ht in Hil. lia.
Qed.

Lemma bits_nil x : wf x -> bits x = [] -> x = 0.
Proof.
  intros Hwf Hb. apply Z.eqb_eq. apply (is_empty_spec x Hwf). intros t Ht.
  destruct (mem x t) eqn:Hm; [|done]. assert (t ∈ bits x) as Hin by (by apply elem_bits).
  rewrite Hb in Hin. by apply not_elem_of_nil in Hin.
Qed.

Lemma contained_threads_bits fuel x :
  wf x -> (length (bits x) <= fuel)%nat -> contained_threads fuel x = bits x.
Proof.
  revert x. induction fuel as [|fuel IH]; intros x Hwf Hf; simpl.
  - destruct (bits x); simpl in Hf; [done|lia].
  - unfold next. destruct (Z.eqb_spec x 0) as [->|Hx]; [done|].
    destruct (bits x) as [|t l] eqn:Hb; [by apply bits_nil in Hb|].
    destruct (bits_next x t l Hwf Hb) as [Hl Hwf']. unfold trailing_zeros. rewrite Hb. simpl in *.
    f_equal. rewrite IH; [done|done|]. rewrite Hl. lia.
Qed.

(** the thread-set iterator. On every 64-bit set it terminates within 64
    steps and yields exactly the members, each once and in increasing order. *)
Theorem contained_threads_iter_spec s :
  wf s ->
  StronglySorted lt (contained_threads_iter s) /\
  (forall t, t ∈ contained_threads_iter s <-> (t < 64)%nat /\ contains s t = true) /\
  (forall fuel, (64 <= fuel)%nat -> contained_threads fuel s = contained_threads_iter s).
Proof.
  intros Hwf. unfold contained_threads_iter.
  assert (length (bits s) <= 64)%nat as Hl.
  { unfold bits. pose proof (length_filter (fun i => Z.testbit s (Z.of_nat i)) (seq 0 64)) as Hlf.
    rewrite length_seq in Hlf. exact Hlf. }
  rewrite contained_threads_bits by done. split_and!.
  - apply StronglySorted_bits.
  - intros t. rewrite elem_bits. split; intros [Ht Hc]; split; auto;
      by rewrite contains_mem in * by done.
  - intros fuel Hf. apply contained_threads_bits; [done|lia].
Qed.

End ThreadSets.

(** ** The lock table *)
Module Locks.
Import ThreadSets.

Record AccountWriteLocks : Type := WriteLocks { w_thread_id : nat; w_lock_count : Z }.

(** [lock_counts] is the array of [MAX_THREADS] counters. *)
Record AccountReadLocks : Type := ReadLocks { thread_set : ThreadSet; lock_counts : list Z }.

Record AccountLocks : Type := Entry {
  write_locks : option AccountWriteLocks;
  read_locks : option AccountReadLocks
}.

Inductive TryLockError : Type := MultipleConflicts | ThreadNotAllowed.

Section Locks.
Context {Key : Type} `{Countable Key}.

Record ThreadAwareAccountLocks : Type := Table {
  num_threads : nat;
  locks : gmap Key AccountLocks
}.

Definition new (num_threads : nat) : option ThreadAwareAccountLocks :=
  if (0 <? num_threads)%nat && (num_threads <=? MAX_THREADS)%nat
  then Some (Table num_threads ∅) else None.

Definition schedulable_threads (WRITE : bool) (self : ThreadAwareAccountLocks) (account : Key) :
    option ThreadSet :=
  match locks self !! account with
  | None => Some (any (num_threads self))
  | Some (Entry None (Some read)) =>
      if WRITE
      then Some (match only_one_contained (thread_set read) with Some t => only t | None => none end)
      else Some (any (num_threads self))
  | Some (Entry (Some write) None) => Some (only (w_thread_id write))
  | Some (Entry (Some write) (Some read)) =>
      if decide (only_one_contained (thread_set read) = Some (w_thread_id write))
      then Some (thread_set read) else None
  | Some (Entry None None) => None
  end.

(** One of the two loops of [accounts_schedulable_threads]; the inner option is
    its result, [None] for no schedulable thread. *)
Fixpoint narrow (WRITE : bool) (self : ThreadAwareAccountLocks) (accounts : list Key)
    (schedulable : ThreadSet) : option (option ThreadSet) :=
  match accounts with
  | [] => Some (Some schedulable)
  | account :: rest =>
      s ← schedulable_threads WRITE self account;
      let schedulable := bitand schedulable s in
      if is_empty schedulable then Some None else narrow WRITE self rest schedulable
  end.

Definition accounts_schedulable_threads (self : ThreadAwareAccountLocks)
    (write_account_locks read_account_locks : list Key) : option (option ThreadSet) :=
  o ← narrow true self write_account_locks (any (num_threads self));
  match o with
  | None => Some None
  | Some schedulable => narrow false self read_account_locks schedulable
  end.

Definition write_lock_account (thread_id : nat) (self : ThreadAwareAccountLocks) (account : Key) :
    option ThreadAwareAccountLocks :=
  let entry := default (Entry None None) (locks self !! account) in
  if match read_locks entry with
     | Some read => bool_decide (only_one_contained (thread_set read) = Some thread_id)
     | None => true
     end
  then match write_locks entry with
       | Some write =>
           if (w_thread_id write =? thread_id)%nat
           then Some (Table (num_threads self)
                  (<[account := Entry (Some (WriteLocks thread_id (wadd 32 (w_lock_count write) 1)))
                                  (read_locks entry)]> (locks self)))
           else None
       | None => Some (Table (num_threads self)
                  (<[account := Entry (Some (WriteLocks thread_id 1)) (read_locks entry)]> (locks self)))
       end
  else None.

Definition write_unlock_account (thread_id : nat) (self : ThreadAwareAccountLocks) (account : Key) :
    option ThreadAwareAccountLocks :=
  match locks self !! account with
  | Some (Entry (Some write) read) =>
      if (w_thread_id write =? thread_id)%nat then
        let lock_count := wsub 32 (w_lock_count write) 1 in
        Some (Table (num_threads self)
          (if lock_count =? 0
           then match read with
                | None => delete account (locks self)
                | Some _ => <[account := Entry None read]> (locks self)
                end
           else <[account := Entry (Some (WriteLocks thread_id lock_count)) read]> (locks self)))
      else None
  | _ => None
  end.

Definition read_lock_account (thread_id : nat) (self : ThreadAwareAccountLocks) (account : Key) :
    option ThreadAwareAccountLocks :=
  let entry := default (Entry None None) (locks self !! account) in
  if match write_locks entry with
     | Some write => (w_thread_id write =? thread_id)%nat
     | None => true
     end
  then
    counts ← match read_locks entry with
             | Some read =>
                 c ← lock_counts read !! thread_id;
                 Some (ReadLocks (insert (thread_set read) thread_id)
                         (<[thread_id := wadd 32 c 1]> (lock_counts read)))
             | None =>
                 _ ← replicate MAX_THREADS 0 !! thread_id;
                 Some (ReadLocks (only thread_id) (<[thread_id := 1]> (replicate MAX_THREADS 0)))
             end;
    Some (Table (num_threads self) (<[account := Entry (write_locks entry) (Some counts)]> (locks self)))
  else None.

Definition read_unlock_account (thread_id : nat) (self : ThreadAwareAccountLocks) (account : Key) :
    option ThreadAwareAccountLocks :=
  match locks self !! account with
  | Some (Entry write (Some read)) =>
      if contains (thread_set read) thread_id then
        c ← lock_counts read !! thread_id;
        let lock_count := wsub 32 c 1 in
        let lock_counts := <[thread_id := lock_count]> (lock_counts read) in
        let thread_set := if lock_count =? 0 then remove (thread_set read) thread_id
                          else thread_set read in
        Some (Table (num_threads self)
          (if (lock_count =? 0) && is_empty thread_set
           then match write with
                | None => delete account (locks self)
                | Some _ => <[account := Entry write None]> (locks self)
                end
           else <[account := Entry write (Some (ReadLocks thread_set lock_counts))]> (locks self)))
      else None
  | _ => None
  end.

Definition lock_accounts (self : ThreadAwareAccountLocks)
    (write_account_locks read_account_locks : list Key) (thread_id : nat) :
    option ThreadAwareAccountLocks :=
  if (thread_id <? num_threads self)%nat then
    self' ← foldM (write_lock_account thread_id) self write_account_locks;
    foldM (read_lock_account thread_id) self' read_account_locks
  else None.

Definition unlock_accounts (self : ThreadAwareAccountLocks)
    (write_account_locks read_account_locks : list Key) (thread_id : nat) :
    option ThreadAwareAccountLocks :=
  self' ← foldM (write_unlock_account thread_id) self write_account_locks;
  foldM (read_unlock_account thread_id) self' read_account_locks.

Definition try_lock_accounts (self : ThreadAwareAccountLocks)
    (write_account_locks read_account_locks : list Key) (allowed_threads : ThreadSet)
    (thread_selector : ThreadSet -> option nat) :
    option (result TryLockError nat * ThreadAwareAccountLocks) :=
  o ← accounts_schedulable_threads self write_account_locks read_account_locks;
  match o with
  | None => Some (Err MultipleConflicts, self)
  | Some schedulable =>
      let schedulable := bitand schedulable allowed_threads in
      if is_empty schedulable then Some (Err ThreadNotAllowed, self)
      else
        thread_id ← thread_selector schedulable;
        self' ← lock_accounts self write_account_locks read_account_locks thread_id;
        Some (Ok thread_id, self')
  end.

(** ** What the table stands for *)

(** Outstanding accesses, with the thread of each. *)
Abbreviation held_accesses := (list ((nat * Key) * bool)).

Definition W (held : held_accesses) (k : Key) (t : nat) : Z := acc_count true (t, k) held.
Definition R (held : held_accesses) (k : Key) (t : nat) : Z := acc_count false (t, k) held.

(** An entry counts the accesses [w] and [r] that threads hold on its account. *)
Definition write_inv (w : nat -> Z) (o : option AccountWriteLocks) : Prop :=
  match o with
  | None => forall t, w t = 0
  | Some (WriteLocks t c) => c = w t /\ 0 < c /\ (forall t', t' <> t -> w t' = 0)
  end.

Definition read_inv (r : nat -> Z) (o : option AccountReadLocks) : Prop :=
  match o with
  | None => forall t, r t = 0
  | Some (ReadLocks s cs) =>
      wf s /\ is_empty s = false /\ length cs = MAX_THREADS /\
      (forall t, (t < 64)%nat -> cs !! t = Some (r t) /\ mem s t = (0 <? r t))
  end.

Definition entry_inv (w r : nat -> Z) (o : option AccountLocks) : Prop :=
  let e := default (Entry None None) o in
  (is_Some o -> is_Some (write_locks e) \/ is_Some (read_locks e)) /\
  write_inv w (write_locks e) /\ read_inv r (read_locks e).

(** Threads are in range, writers are alone, and counters fit. *)
Record held_ok (n : nat) (held : held_accesses) : Prop := {
  ho_threads : Forall (fun a => (a.1.1 < n)%nat) held;
  ho_writer : forall t k t' w', ((t, k), true) ∈ held -> ((t', k), w') ∈ held -> t = t';
  ho_fits : Z.of_nat (length held) <= U32_MAX
}.

Record inv (self : ThreadAwareAccountLocks) (held : held_accesses) : Prop := {
  inv_n : (0 < num_threads self <= 64)%nat;
  inv_held : held_ok (num_threads self) held;
  inv_entry : forall k, entry_inv (W held k) (R held k) (locks self !! k)
}.

(** ** Counting *)

Lemma W_cons a held k t :
  W (a :: held) k t = (if decide (a = ((t, k), true)) then 1 else 0) + W held k t.
Proof. apply acc_count_cons. Qed.

Lemma R_cons a held k t :
  R (a :: held) k t = (if decide (a = ((t, k), false)) then 1 else 0) + R held k t.
Proof. apply acc_count_cons. Qed.

Lemma W_pos held k t : 0 < W held k t <-> ((t, k), true) ∈ held.
Proof. apply acc_count_pos. Qed.

Lemma R_pos held k t : 0 < R held k t <-> ((t, k), false) ∈ held.
Proof. apply acc_count_pos. Qed.

Lemma W_nonneg held k t : 0 <= W held k t.
Proof. apply acc_count_nonneg. Qed.

Lemma R_nonneg held k t : 0 <= R held k t.
Proof. apply acc_count_nonneg. Qed.

Lemma W_le held k t : W held k t <= Z.of_nat (length held).
Proof. apply acc_count_le. Qed.

Lemma R_le held k t : R held k t <= Z.of_nat (length held).
Proof. apply acc_count_le. Qed.

Lemma W_zero held k t : ((t, k), true) ∉ held -> W held k t = 0.
Proof. apply acc_count_zero. Qed.

Lemma R_zero held k t : ((t, k), false) ∉ held -> R held k t = 0.
Proof. apply acc_count_zero. Qed.

Lemma held_ok_cons n a held : held_ok n (a :: held) -> held_ok n held.
Proof.
  intros [Ht Hw Hf]. split.
  - by apply Forall_cons in Ht as [_ ?].
  - intros t k t' w' H1 H2. apply (Hw t k t' w'); by right.
  - simpl in Hf. lia.
Qed.

#[global] Instance held_ok_perm n : Proper ((≡ₚ) ==> iff) (held_ok n).
Proof.
  assert (forall l1 l2, l1 ≡ₚ l2 -> held_ok n l1 -> held_ok n l2) as Hp.
  { intros l1 l2 Hl [Ht Hw Hf]. split; [by rewrite <- Hl| |by rewrite <- Hl].
    intros t k t' w'. rewrite <- Hl. apply Hw. }
  intros l1 l2 Hl. split; apply Hp; [done|by symmetry].
Qed.

Lemma entry_inv_ext (w w' r r' : nat -> Z) o :
  (forall t, w t = w' t) -> (forall t, r t = r' t) -> entry_inv w r o -> entry_inv w' r' o.
Proof.
  intros HW HR (Hs & Hw & Hr). unfold entry_inv, write_inv, read_inv in *. split; [done|]. split.
  - destruct (write_locks _) as [[t c]|]; [|by intros t; rewrite <- HW].
    rewrite <- HW. setoid_rewrite <- HW. done.
  - destruct (read_locks _) as [[s cs]|]; [|by intros t; rewrite <- HR].
    setoid_rewrite <- HR. done.
Qed.

#[global] Instance inv_perm self : Proper ((≡ₚ) ==> iff) (inv self).
Proof.
  assert (forall l1 l2, l1 ≡ₚ l2 -> inv self l1 -> inv self l2) as Hp.
  { intros l1 l2 Hl [Hn Hh He]. split; [done|by rewrite <- Hl|]. intros k.
    eapply entry_inv_ext; [..|apply He]; intros t; by apply acc_count_perm. }
  intros l1 l2 Hl. split; apply Hp; [done|by symmetry].
Qed.

(** A thread whose lock on [k] may stand beside [held] is the only one there. *)
Lemma alone_writer n t k held :
  held_ok n (((t, k), true) :: held) ->
  (t < n)%nat /\ forall t', t' <> t -> W held k t' = 0 /\ R held k t' = 0.
Proof.
  intros [Ht Hw _]. apply Forall_cons in Ht as [Ht _]. split; [done|].
  intros t' Hne. split; [apply W_zero|apply R_zero]; intros Hin;
    (destruct Hne; symmetry; eapply (Hw t k); [by left|by right]).
Qed.

Lemma alone_reader n t k held :
  held_ok n (((t, k), false) :: held) ->
  (t < n)%nat /\ forall t', t' <> t -> W held k t' = 0.
Proof.
  intros [Ht Hw _]. apply Forall_cons in Ht as [Ht _]. split; [done|].
  intros t' Hne. apply W_zero. intros Hin. destruct Hne. eapply (Hw t' k); [by right|by left].
Qed.

(** The read set of an account that only [t] reads is the singleton [t]. *)
Lemma readers_singleton (r : nat -> Z) s cs t :
  (forall i, 0 <= r i) -> read_inv r (Some (ReadLocks s cs)) -> (t < 64)%nat ->
  (forall t', t' <> t -> r t' = 0) ->
  only_one_contained s = Some t /\ 0 < r t.
Proof.
  intros Hnn (Hwf & Hne & Hl & Hcs) Ht Ho.
  assert (0 < r t) as Hpos.
  { destruct (Z.lt_ge_cases 0 (r t)) as [|Hle]; [done|]. exfalso.
    assert (is_empty s = true); [|congruence]. apply is_empty_spec; [done|]. intros i Hi.
    destruct (Hcs i Hi) as [_ ->]. apply Z.ltb_ge.
    destruct (decide (i = t)) as [->|Hni]; [done|]. rewrite Ho by done. lia. }
  split; [|done]. apply only_one_contained_spec. split; [done|]. intros i Hi.
  destruct (Hcs i Hi) as [_ ->]. case_bool_decide as He; [subst; by apply Z.ltb_lt|].
  rewrite Ho by done. done.
Qed.

(** Changing one account's entry and one access. *)
Lemma counts_other held k t w k' :
  k' <> k ->
  (forall t', W (((t, k), w) :: held) k' t' = W held k' t') /\
  (forall t', R (((t, k), w) :: held) k' t' = R held k' t').
Proof.
  intros Hne. split; intros t'; rewrite ?W_cons, ?R_cons, decide_False by naive_solver; lia.
Qed.

Lemma inv_update self held k t w locks' :
  inv self held -> held_ok (num_threads self) (((t, k), w) :: held) ->
  (forall k', k' <> k -> locks' !! k' = locks self !! k') ->
  entry_inv (W (((t, k), w) :: held) k) (R (((t, k), w) :: held) k) (locks' !! k) ->
  inv (Table (num_threads self) locks') (((t, k), w) :: held).
Proof.
  intros [Hn Hh He] Hok Hl Hk. split; simpl; [done|done|]. intros k'.
  destruct (decide (k' = k)) as [->|Hne]; [done|]. rewrite Hl by done.
  destruct (counts_other held k t w k' Hne). by eapply entry_inv_ext; [..|apply He].
Qed.

Lemma inv_downdate self held k t w locks' :
  inv self (((t, k), w) :: held) ->
  (forall k', k' <> k -> locks' !! k' = locks self !! k') ->
  entry_inv (W held k) (R held k) (locks' !! k) ->
  inv (Table (num_threads self) locks') held.
Proof.
  intros [Hn Hh He] Hl Hk. split; simpl; [done|by eapply held_ok_cons|]. intros k'.
  destruct (decide (k' = k)) as [->|Hne]; [done|]. rewrite Hl by done.
  destruct (counts_other held k t w k' Hne). by eapply entry_inv_ext; [..|apply He].
Qed.

Lemma counts_same_key held k t w t' :
  W (((t, k), w) :: held) k t' = (if decide (w = true /\ t' = t) then 1 else 0) + W held k t' /\
  R (((t, k), w) :: held) k t' = (if decide (w = false /\ t' = t) then 1 else 0) + R held k t'.
Proof. rewrite W_cons, R_cons. split; repeat case_decide; naive_solver. Qed.

(** An access of one kind leaves the counts of the other kind alone. *)
Lemma read_inv_other held k t o :
  read_inv (R held k) o <-> read_inv (R (((t, k), true) :: held) k) o.
Proof.
  assert (forall i, R (((t, k), true) :: held) k i = R held k i) as HR.
  { intros i. rewrite (proj2 (counts_same_key held k t true i)), decide_False by naive_solver. lia. }
  unfold read_inv. destruct o as [[s cs]|]; setoid_rewrite HR; done.
Qed.

Lemma write_inv_other held k t o :
  write_inv (W held k) o <-> write_inv (W (((t, k), false) :: held) k) o.
Proof.
  assert (forall i, W (((t, k), false) :: held) k i = W held k i) as HW.
  { intros i. rewrite (proj1 (counts_same_key held k t false i)), decide_False by naive_solver. lia. }
  unfold write_inv. destruct o as [[s cs]|]; rewrite ?HW; setoid_rewrite HW; done.
Qed.

Lemma write_lock_spec self held t k :
  inv self held -> held_ok (num_threads self) (((t, k), true) :: held) ->
  exists self', write_lock_account t self k = Some self' /\
    num_threads self' = num_threads self /\ inv self' (((t, k), true) :: held).
Proof.
  intros Hinv Hok. pose proof Hinv as [Hn Hh He]. destruct (He k) as (Hs & Hw & Hr).
  destruct (alone_writer _ _ _ _ Hok) as [Ht Ho].
  pose proof (ho_fits _ _ Hok) as Hfit. simpl in Hfit. pose proof (W_le held k t).
  assert (forall e', write_inv (W (((t, k), true) :: held) k) (Some e') ->
    inv (Table (num_threads self) (<[k := Entry (Some e')
      (read_locks (default (Entry None None) (locks self !! k)))]> (locks self)))
      (((t, k), true) :: held)) as Hdone.
  { intros e' He'. apply inv_update; [done|done|by intros; rewrite lookup_insert_ne|].
    rewrite lookup_insert_eq. split; [simpl; eauto|]. split; [done|]. by apply read_inv_other. }
  unfold write_lock_account.
  assert (match read_locks (default (Entry None None) (locks self !! k)) with
     | Some read => bool_decide (only_one_contained (thread_set read) = Some t)
     | None => true
     end = true) as ->.
  { destruct (read_locks _) as [[s cs]|] eqn:Hrl; [|done]. apply bool_decide_eq_true. simpl.
    eapply (readers_singleton (R held k)); [apply R_nonneg|exact Hr|lia|]. intros. by apply Ho. }
  destruct (write_locks _) as [[tw c]|] eqn:Hwl; simpl in *.
  - destruct Hw as (-> & Hpos & _).
    destruct (Nat.eqb_spec tw t) as [->|Hne]; [|destruct (Ho tw Hne); lia].
    eexists. split_and!; [done|done|]. apply Hdone. simpl.
    rewrite wadd_small by (unfold word_max in *; lia).
    rewrite (proj1 (counts_same_key held k t true t)), decide_True by done. split_and!; [lia|lia|].
    intros t' Ht'. rewrite (proj1 (counts_same_key held k t true t')), decide_False by naive_solver.
    by apply Ho.
  - eexists. split_and!; [done|done|]. apply Hdone. simpl.
    rewrite (proj1 (counts_same_key held k t true t)), decide_True, Hw by done. split_and!; [lia|lia|].
    intros t' Ht'. rewrite (proj1 (counts_same_key held k t true t')), decide_False by naive_solver.
    by apply Ho.
Qed.

Lemma read_lock_spec self held t k :
  inv self held -> held_ok (num_threads self) (((t, k), false) :: held) ->
  exists self', read_lock_account t self k = Some self' /\
    num_threads self' = num_threads self /\ inv self' (((t, k), false) :: held).
Proof.
  intros Hinv Hok. pose proof Hinv as [Hn Hh He]. destruct (He k) as (Hs & Hw & Hr).
  destruct (alone_reader _ _ _ _ Hok) as [Ht Ho].
  pose proof (ho_fits _ _ Hok) as Hfit. simpl in Hfit. pose proof (R_le held k t).
  pose proof (R_nonneg held k) as Hnn. assert (t < 64)%nat as Ht64 by lia.
  assert (forall e', read_inv (R (((t, k), false) :: held) k) (Some e') ->
    inv (Table (num_threads self) (<[k := Entry
      (write_locks (default (Entry None None) (locks self !! k))) (Some e')]> (locks self)))
      (((t, k), false) :: held)) as Hdone.
  { intros e' He'. apply inv_update; [done|done|by intros; rewrite lookup_insert_ne|].
    rewrite lookup_insert_eq. split; [simpl; eauto|]. split; [by apply write_inv_other|done]. }
  unfold read_lock_account.
  assert (match write_locks (default (Entry None None) (locks self !! k)) with
     | Some write => (w_thread_id write =? t)%nat
     | None => true
     end = true) as ->.
  { destruct (write_locks _) as [[tw c]|]; [|done]. simpl in *. destruct Hw as (-> & Hpos & _).
    apply Nat.eqb_eq. destruct (decide (tw = t)) as [|Hne]; [done|]. rewrite Ho in Hpos by done. lia. }
  assert (forall i, R (((t, k), false) :: held) k i = (if decide (i = t) then 1 else 0) + R held k i) as HR.
  { intros i. rewrite (proj2 (counts_same_key held k t false i)). repeat case_decide; naive_solver. }
  assert (forall i, (i < 64)%nat -> replicate MAX_THREADS 0 !! i = Some 0) as Hz
    by (intros; by apply lookup_replicate_2).
  assert (length (replicate MAX_THREADS 0) = MAX_THREADS) as Hzl by apply length_replicate.
  generalize dependent (replicate MAX_THREADS 0). intros z Hz Hzl.
  destruct (read_locks _) as [[s cs]|] eqn:Hrl; simpl in *.
  - destruct Hr as (Hwf & Hne & Hl & Hcs). destruct (Hcs t Ht64) as [-> Hmt]. simpl.
    eexists. split_and!; [done|done|]. apply Hdone. simpl. rewrite length_insert.
    rewrite wadd_small by (specialize (Hnn t); unfold word_max in *; lia).
    split_and!; [by apply wf_insert| |done|].
    + apply not_true_iff_false. rewrite is_empty_spec by (by apply wf_insert). intros He'.
      specialize (He' t Ht64). rewrite mem_insert, bool_decide_true, orb_true_r in He' by done. done.
    + intros i Hi. rewrite HR, mem_insert by done. destruct (Hcs i Hi) as [Hci Hmi].
      specialize (Hnn i). case_decide as Hit.
      * subst. rewrite list_lookup_insert_eq by (unfold MAX_THREADS in *; lia).
        rewrite bool_decide_true, orb_true_r by done. split; [f_equal; lia|symmetry; apply Z.ltb_lt; lia].
      * rewrite list_lookup_insert_ne by done. rewrite bool_decide_false, orb_false_r by done.
        by rewrite Z.add_0_l.
  - rewrite (Hz t Ht64). simpl.
    eexists. split_and!; [done|done|]. apply Hdone. unfold read_inv. rewrite length_insert.
    split_and!; [by apply wf_flag| |done|].
    + apply not_true_iff_false. rewrite is_empty_spec by (by apply wf_flag). intros He'.
      specialize (He' t Ht64). rewrite mem_flag, bool_decide_true in He' by done. done.
    + intros i Hi. rewrite HR, mem_flag, Hr by done. case_decide as Hit.
      * subst. rewrite list_lookup_insert_eq by (by rewrite Hzl).
        by rewrite bool_decide_true by done.
      * rewrite list_lookup_insert_ne by done. rewrite bool_decide_false by done.
        by rewrite Hz.
Qed.

Lemma write_unlock_spec self held t k :
  inv self (((t, k), true) :: held) ->
  exists self', write_unlock_account t self k = Some self' /\
    num_threads self' = num_threads self /\ inv self' held.
Proof.
  intros Hinv. pose proof Hinv as [Hn Hok He]. destruct (He k) as (Hs & Hw & Hr).
  destruct (alone_writer _ _ _ _ Hok) as [Ht Ho].
  pose proof (ho_fits _ _ Hok) as Hfit. simpl in Hfit. pose proof (W_le held k t).
  pose proof (W_nonneg held k t).
  assert (forall i, W (((t, k), true) :: held) k i = (if decide (i = t) then 1 else 0) + W held k i) as HW.
  { intros i. rewrite (proj1 (counts_same_key held k t true i)). repeat case_decide; naive_solver. }
  unfold write_unlock_account.
  destruct (locks self !! k) as [[wl rl]|] eqn:Hl; simpl in *.
  2: { specialize (Hw t). rewrite HW, decide_True in Hw by done. lia. }
  destruct wl as [[tw c]|]; simpl in *.
  2: { specialize (Hw t). rewrite HW, decide_True in Hw by done. lia. }
  destruct Hw as (-> & Hpos & Hoth).
  destruct (Nat.eqb_spec tw t) as [->|Hne].
  2: { specialize (Hoth t (not_eq_sym Hne)). rewrite HW, decide_True in Hoth by done. lia. }
  rewrite HW, decide_True by done. rewrite wsub_small by (unfold word_max in *; lia).
  replace (1 + W held k t - 1) with (W held k t) by lia.
  apply read_inv_other in Hr.
  eexists. split_and!; [done|done|]. apply (inv_downdate self held k t true); [done|..].
  { intros k' Hk'. destruct (_ =? 0), rl; rewrite ?lookup_insert_ne, ?lookup_delete_ne; done. }
  destruct (Z.eqb_spec (W held k t) 0) as [Hz|Hz].
  - assert (forall i, W held k i = 0) as Hall.
    { intros i. destruct (decide (i = t)) as [->|Hi]; [done|]. by apply Ho. }
    destruct rl as [rl|]; rewrite ?lookup_insert_eq, ?lookup_delete_eq;
      (split; [simpl; eauto; by intros []|]); split; done.
  - rewrite lookup_insert_eq. split; [simpl; eauto|]. split; [|done]. simpl.
    split_and!; [done|lia|]. intros. by apply Ho.
Qed.

Lemma read_unlock_spec self held t k :
  inv self (((t, k), false) :: held) ->
  exists self', read_unlock_account t self k = Some self' /\
    num_threads self' = num_threads self /\ inv self' held.
Proof.
  intros Hinv. pose proof Hinv as [Hn Hok He]. destruct (He k) as (Hs & Hw & Hr).
  destruct (alone_reader _ _ _ _ Hok) as [Ht Ho]. assert (t < 64)%nat as Ht64 by lia.
  pose proof (ho_fits _ _ Hok) as Hfit. simpl in Hfit. pose proof (R_le held k t).
  pose proof (R_nonneg held k) as Hnn.
  assert (forall i, R (((t, k), false) :: held) k i = (if decide (i = t) then 1 else 0) + R held k i) as HR.
  { intros i. rewrite (proj2 (counts_same_key held k t false i)). repeat case_decide; naive_solver. }
  unfold read_unlock_account.
  destruct (locks self !! k) as [[wl rl]|] eqn:Hl; simpl in *.
  2: { specialize (Hr t). rewrite HR, decide_True in Hr by done. specialize (Hnn t). lia. }
  destruct rl as [[s cs]|]; simpl in *.
  2: { specialize (Hr t). rewrite HR, decide_True in Hr by done. specialize (Hnn t). lia. }
  destruct Hr as (Hwf & Hne & Hlen & Hcs). destruct (Hcs t Ht64) as [Hct Hmt].
  rewrite HR, decide_True in Hct, Hmt by done.
  rewrite contains_mem, Hmt by done. specialize (Hnn t) as Hnt.
  replace (0 <? 1 + R held k t) with true by (symmetry; apply Z.ltb_lt; lia).
  rewrite Hct. simpl. rewrite wsub_small by (unfold word_max in *; lia).
  replace (1 + R held k t - 1) with (R held k t) by lia.
  apply write_inv_other in Hw.
  eexists. split_and!; [done|done|]. apply (inv_downdate self held k t false); [done|..].
  { intros k' Hk'. destruct (_ && _), wl; rewrite ?lookup_insert_ne, ?lookup_delete_ne; done. }
  set (s' := if R held k t =? 0 then remove s t else s).
  assert (wf s') as Hwf' by (unfold s'; destruct (_ =? 0); [by apply wf_remove|done]).
  assert (forall i, (i < 64)%nat -> mem s' i = (0 <? R held k i)) as Hms.
  { intros i Hi. destruct (Hcs i Hi) as [_ Hmi]. rewrite HR in Hmi. unfold s'.
    destruct (Z.eqb_spec (R held k t) 0) as [Hz|Hz]; rewrite ?mem_remove, ?Hmi by done.
    - case_decide; [subst; by rewrite Hz, bool_decide_true, andb_false_r|].
      by rewrite bool_decide_false, andb_true_r by done.
    - case_decide; [|done]. subst. specialize (Hnn t). destruct (Z.ltb_spec 0 (R held k t)); [apply Z.ltb_lt|]; lia. }
  destruct ((R held k t =? 0) && is_empty s') eqn:Hempty.
  - apply andb_true_iff in Hempty as [Hz Hem].
    assert (forall i, R held k i = 0) as Hall.
    { intros i. destruct (decide (i < 64)%nat) as [Hi|Hi].
      - pose proof (proj1 (is_empty_spec s' Hwf') Hem i Hi) as Hm. rewrite Hms in Hm by done.
        apply Z.ltb_ge in Hm. specialize (Hnn i). lia.
      - apply R_zero. intros Hin. apply held_ok_cons in Hok. pose proof (ho_threads _ _ Hok) as Hth.
        rewrite Forall_forall in Hth. specialize (Hth _ Hin). simpl in Hth. lia. }
    destruct wl as [wl|]; rewrite ?lookup_insert_eq, ?lookup_delete_eq;
      (split; [simpl; eauto; by intros []|]); split; done.
  - rewrite lookup_insert_eq. split; [simpl; eauto|]. split; [done|]. simpl.
    rewrite length_insert. split_and!; [done| |done|].
    + apply andb_false_iff in Hempty as [Hz|]; [|done]. apply not_true_iff_false.
      rewrite is_empty_spec by done. intros Hall. specialize (Hall t Ht64).
      rewrite Hms in Hall by done. apply Z.eqb_neq in Hz. apply Z.ltb_ge in Hall. lia.
    + intros i Hi. split; [|by apply Hms]. destruct (Hcs i Hi) as [Hci _]. rewrite HR in Hci.
      destruct (decide (i = t)) as [->|Hit].
      * rewrite list_lookup_insert_eq by (unfold MAX_THREADS in *; lia). done.
      * by rewrite list_lookup_insert_ne by done.
Qed.

(** ** Which threads may lock *)

(** Thread [t] may lock account [k]: whoever holds it in a conflicting way is [t]. *)
Definition may_lock (held : held_accesses) (WRITE : bool) (k : Key) (t : nat) : Prop :=
  forall t' w', ((t', k), w') ∈ held -> WRITE = true \/ w' = true -> t' = t.

Lemma held_counts n (held : held_accesses) k t (w : bool) :
  held_ok n held -> ((t, k), w) ∈ held -> (t < n)%nat /\ 0 < (if w then W held k t else R held k t).
Proof.
  intros [Ht _ _] Hin. rewrite Forall_forall in Ht. split; [exact (Ht _ Hin)|].
  destruct w; [by apply W_pos|by apply R_pos].
Qed.

Lemma mem_only_lt n t i :
  (t < n)%nat -> (n <= 64)%nat -> mem (only t) i = true <-> (i < n)%nat /\ i = t.
Proof. intros Ht Hn. unfold only. rewrite mem_flag, bool_decide_eq_true by lia. intuition lia. Qed.

Lemma some_reader (r : nat -> Z) s cs :
  read_inv r (Some (ReadLocks s cs)) -> exists t, (t < 64)%nat /\ 0 < r t.
Proof.
  intros (Hwf & Hne & _ & Hcs). destruct (bits s) as [|t l] eqn:Hb.
  - apply bits_nil in Hb; [|done]. by subst.
  - assert (t ∈ bits s) as [Ht Hm]%elem_bits by (rewrite Hb; left). exists t. split; [done|].
    destruct (Hcs t Ht) as [_ Hm']. rewrite Hm' in Hm. by apply Z.ltb_lt.
Qed.

(** The four kinds of entries, one lemma each. *)
Lemma schedulable_written held n tw (k : Key) i WRITE :
  held_ok n held -> (n <= 64)%nat -> 0 < W held k tw ->
  mem (only tw) i = true <-> (i < n)%nat /\ may_lock held WRITE k i.
Proof.
  intros Hok Hn Hpos. apply W_pos in Hpos as Hin.
  destruct (held_counts n held k tw true Hok Hin) as [Htw _].
  rewrite (mem_only_lt n) by done. split; intros [Hi Hm]; (split; [done|]).
  - subst. intros t' w' Hin' _. symmetry. by eapply (ho_writer _ _ Hok).
  - symmetry. by eapply Hm; eauto.
Qed.

Lemma schedulable_read held n s cs (k : Key) i :
  held_ok n held -> (n <= 64)%nat -> (forall t, W held k t = 0) ->
  read_inv (R held k) (Some (ReadLocks s cs)) ->
  mem (match only_one_contained s with Some t => only t | None => none end) i = true <->
  (i < n)%nat /\ may_lock held true k i.
Proof.
  intros Hok Hn HW Hr. destruct (some_reader _ _ _ Hr) as (t0 & Ht0 & Hpos0).
  apply R_pos in Hpos0 as Hin0. destruct (held_counts n held k t0 false Hok Hin0) as [Htn _].
  assert (forall t, only_one_contained s = Some t <-> may_lock held true k t /\ t = t0) as Hone.
  { intros t. split.
    - intros Ho%only_one_contained_spec. destruct Ho as [Ht Hm]. destruct Hr as (_ & _ & _ & Hcs).
      assert (forall t', ((t', k), false) ∈ held -> t' = t) as Hall.
      { intros t' Hin'. destruct (held_counts n held k t' false Hok Hin') as [Ht' Hp].
        destruct (Hcs t' ltac:(lia)) as [_ Hm']. rewrite Hm in Hm' by lia.
        apply Z.ltb_lt in Hp. rewrite Hp in Hm'. by apply bool_decide_eq_true in Hm'. }
      split; [|symmetry; auto]. intros t' [] Hin' _; [|auto]. apply W_pos in Hin'. rewrite HW in Hin'. lia.
    - intros [Hm ->]. apply (readers_singleton (R held k) s cs); [apply R_nonneg|done|done|].
      intros t' Hne. apply R_zero. intros Hin. destruct Hne. eapply Hm; eauto. }
  destruct (only_one_contained s) as [t|].
  - destruct (proj1 (Hone t) eq_refl) as [Hm ->]. rewrite (mem_only_lt n) by done. split; intros [Hi Hx].
    + subst. auto.
    + split; [done|]. symmetry. eapply Hx; eauto.
  - rewrite mem_none. split; [done|]. intros [Hi Hm].
    assert (i = t0) as -> by (symmetry; eapply Hm; eauto).
    pose proof (proj2 (Hone t0) (conj Hm eq_refl)) as Hc. discriminate Hc.
Qed.

Lemma schedulable_threads_spec WRITE self held k :
  inv self held ->
  exists s, schedulable_threads WRITE self k = Some s /\ wf s /\
    forall i, mem s i = true <-> (i < num_threads self)%nat /\ may_lock held WRITE k i.
Proof.
  intros [Hn Hok He]. destruct (He k) as (Hs & Hw & Hr). unfold schedulable_threads.
  assert (forall i, (forall t, W held k t = 0) -> (WRITE = true -> forall t, R held k t = 0) ->
    mem (any (num_threads self)) i = true <-> (i < num_threads self)%nat /\ may_lock held WRITE k i) as Hany.
  { intros i HW HR. rewrite mem_any, bool_decide_eq_true by lia. split; [|tauto]. intros Hi.
    split; [done|]. intros t' [] Hin Hc.
    - apply W_pos in Hin. rewrite HW in Hin. lia.
    - apply R_pos in Hin. destruct Hc as [Hc|]; [|done]. rewrite HR in Hin by done. lia. }
  destruct (locks self !! k) as [[wl rl]|]; simpl in *.
  2: { eexists. split; [done|]. split; [apply wf_any; lia|]. auto. }
  destruct wl as [[tw c]|], rl as [[s cs]|]; simpl in *.
  - destruct Hw as (-> & Hpos & Hoth). apply W_pos in Hpos as Hin.
    destruct (held_counts _ held k tw true Hok Hin) as [Htw _].
    assert (only_one_contained s = Some tw) as Hone.
    { apply (readers_singleton (R held k) s cs); [apply R_nonneg|done|lia|]. intros t' Hne.
      apply R_zero. intros Hin'. destruct Hne. symmetry. by eapply (ho_writer _ _ Hok). }
    rewrite decide_True by done. eexists. split; [done|]. split; [apply Hr|]. intros i.
    rewrite <- (schedulable_written held _ tw k i WRITE) by (done || lia).
    apply only_one_contained_spec in Hone as [_ Hm]. unfold only. rewrite mem_flag by lia.
    destruct (decide (i < 64)%nat) as [Hi|Hi]; [by rewrite Hm|].
    rewrite wf_high by (apply Hr || lia). rewrite bool_decide_false by lia. done.
  - destruct Hw as (-> & Hpos & Hoth). eexists. split; [done|].
    destruct (held_counts _ held k tw true Hok (proj1 (W_pos _ _ _) Hpos)) as [Htw _].
    split; [apply wf_flag; lia|]. intros i. apply schedulable_written; (done || lia).
  - destruct WRITE.
    + eexists. split; [done|]. split.
      * destruct (only_one_contained s) eqn:Ho; [|unfold wf, none; lia].
        apply only_one_contained_spec in Ho as [? _]. by apply wf_flag.
      * intros i. apply (schedulable_read held _ s cs); (done || lia).
    + eexists. split; [done|]. split; [apply wf_any; lia|]. intros i. by apply Hany.
  - destruct (Hs ltac:(eauto)) as [[]|[]]; done.
Qed.

Lemma narrow_spec WRITE self held accounts s :
  inv self held -> wf s -> is_empty s = false ->
  (forall t, mem s t = true -> (t < num_threads self)%nat) ->
  exists o, narrow WRITE self accounts s = Some o /\
    match o with
    | None => forall t, ~ (mem s t = true /\ Forall (fun k => may_lock held WRITE k t) accounts)
    | Some s' => wf s' /\ is_empty s' = false /\
        forall t, mem s' t = true <-> mem s t = true /\ Forall (fun k => may_lock held WRITE k t) accounts
    end.
Proof.
  intros Hinv. revert s. induction accounts as [|k accounts IH]; intros s Hwf Hne Hlt; simpl.
  - eexists. split; [done|]. split_and!; [done|done|]. intros t. rewrite Forall_nil. tauto.
  - destruct (schedulable_threads_spec WRITE self held k Hinv) as (sk & -> & Hwk & Hm). simpl.
    assert (forall t, mem (bitand s sk) t = true <-> mem s t = true /\ may_lock held WRITE k t) as Hb.
    { intros t. rewrite mem_bitand, andb_true_iff, Hm. specialize (Hlt t). tauto. }
    assert (wf (bitand s sk)) as Hwb by (by apply wf_bitand).
    destruct (is_empty (bitand s sk)) eqn:Hem.
    + eexists. split; [done|]. simpl. intros t [Hs [Hk _]%Forall_cons].
      assert (t < 64)%nat as H64 by (pose proof (inv_n _ _ Hinv); specialize (Hlt t Hs); lia).
      pose proof (proj1 (is_empty_spec _ Hwb) Hem t H64) as Hf.
      rewrite (proj2 (Hb t)) in Hf by auto. done.
    + destruct (IH (bitand s sk)) as (o & Ho & Hspec); [done|done|by intros t [? _]%Hb; auto|].
      exists o. split; [done|]. destruct o as [s'|].
      * destruct Hspec as (? & ? & Hspec). split_and!; [done..|]. intros t.
        rewrite Hspec, Hb, Forall_cons. tauto.
      * intros t [? [? ?]%Forall_cons]. apply (Hspec t). rewrite Hb. auto.
Qed.

(** Thread [t] may take all the locks of a transaction. *)
Definition free_for (n : nat) (held : held_accesses) (writes reads : list Key) (t : nat) : Prop :=
  (t < n)%nat /\ Forall (fun k => may_lock held true k t) writes /\
  Forall (fun k => may_lock held false k t) reads.

Lemma accounts_schedulable_spec self held writes reads :
  inv self held ->
  exists o, accounts_schedulable_threads self writes reads = Some o /\
    match o with
    | None => forall t, ~ free_for (num_threads self) held writes reads t
    | Some s => wf s /\ is_empty s = false /\
        forall t, mem s t = true <-> free_for (num_threads self) held writes reads t
    end.
Proof.
  intros Hinv. pose proof (inv_n _ _ Hinv) as Hn. unfold accounts_schedulable_threads, free_for.
  assert (forall t, mem (any (num_threads self)) t = true <-> (t < num_threads self)%nat) as Hany.
  { intros t. rewrite mem_any, bool_decide_eq_true by lia. done. }
  assert (wf (any (num_threads self))) as Hwa by (apply wf_any; lia).
  destruct (narrow_spec true self held writes (any (num_threads self)) Hinv) as (o & -> & Ho).
  { done. }
  { apply not_true_iff_false. rewrite is_empty_spec by done. intros Hall.
    assert (mem (any (num_threads self)) 0 = true) as H0 by (apply Hany; lia).
    rewrite Hall in H0 by lia. done. }
  { intros t. by rewrite Hany. }
  simpl. destruct o as [s|].
  - destruct Ho as (Hws & Hes & Hs).
    destruct (narrow_spec false self held reads s Hinv) as (o & -> & Ho); [done|done|..].
    { intros t [Ht _]%Hs. by apply Hany. }
    exists o. split; [done|]. destruct o as [s'|].
    + destruct Ho as (? & ? & Ho). split_and!; [done..|]. intros t. rewrite Ho, Hs, Hany. tauto.
    + intros t (? & ? & ?). apply (Ho t). rewrite Hs, Hany. auto.
  - eexists. split; [done|]. simpl. intros t (? & ? & ?). apply (Ho t). rewrite Hany. auto.
Qed.

(** ** Locking and unlocking a transaction *)

Definition accesses_on (t : nat) (writes reads : list Key) : held_accesses :=
  map (fun k => ((t, k), true)) writes ++ map (fun k => ((t, k), false)) reads.

Lemma foldM_lock (f : nat -> ThreadAwareAccountLocks -> Key -> option ThreadAwareAccountLocks) w t :
  (forall self held k, inv self held -> held_ok (num_threads self) (((t, k), w) :: held) ->
     exists self', f t self k = Some self' /\ num_threads self' = num_threads self /\
       inv self' (((t, k), w) :: held)) ->
  forall keys self held, inv self held ->
    held_ok (num_threads self) (map (fun k => ((t, k), w)) keys ++ held) ->
    exists self', foldM (f t) self keys = Some self' /\ num_threads self' = num_threads self /\
      inv self' (map (fun k => ((t, k), w)) keys ++ held).
Proof.
  intros Hf keys. induction keys as [|k keys IH]; intros self held Hinv Hok; simpl in *; [by eauto|].
  assert (held_ok (num_threads self) (((t, k), w) :: held)) as Hok1.
  { rewrite Permutation_middle in Hok. clear -Hok. induction keys as [|k' keys IH]; [done|].
    simpl in Hok. apply held_ok_cons in Hok. auto. }
  destruct (Hf self held k Hinv Hok1) as (self1 & -> & Hn1 & Hinv1). simpl.
  destruct (IH self1 (((t, k), w) :: held) Hinv1) as (self2 & -> & Hn2 & Hinv2).
  { rewrite Hn1. by rewrite <- Permutation_middle. }
  exists self2. split_and!; [done|congruence|]. by rewrite <- Permutation_middle in Hinv2.
Qed.

Lemma foldM_unlock (f : nat -> ThreadAwareAccountLocks -> Key -> option ThreadAwareAccountLocks) w t :
  (forall self held k, inv self (((t, k), w) :: held) ->
     exists self', f t self k = Some self' /\ num_threads self' = num_threads self /\ inv self' held) ->
  forall keys self held, inv self (map (fun k => ((t, k), w)) keys ++ held) ->
    exists self', foldM (f t) self keys = Some self' /\ num_threads self' = num_threads self /\
      inv self' held.
Proof.
  intros Hf keys. induction keys as [|k keys IH]; intros self held Hinv; simpl in *; [by eauto|].
  destruct (Hf _ _ _ Hinv) as (self1 & -> & Hn1 & Hinv1). simpl.
  destruct (IH self1 held Hinv1) as (self2 & -> & Hn2 & Hinv2).
  exists self2. split_and!; [done|congruence|done].
Qed.

Lemma held_ok_free n held writes reads t :
  held_ok n held -> free_for n held writes reads t ->
  Z.of_nat (length (accesses_on t writes reads ++ held)) <= U32_MAX ->
  held_ok n (accesses_on t writes reads ++ held).
Proof.
  intros [Ht Hw Hf] (Hlt & Hfw & Hfr) Hfit. rewrite Forall_forall in Hfw, Hfr.
  assert (forall a, a ∈ accesses_on t writes reads ->
    exists k w, a = ((t, k), w) /\ if w : bool then k ∈ writes else k ∈ reads) as Hon.
  { intros a. unfold accesses_on. rewrite elem_of_app. rewrite !list_elem_of_fmap. naive_solver. }
  split; [| |done].
  - apply Forall_app. split; [|done]. apply Forall_forall. intros a (k & w & -> & _)%Hon. done.
  - intros t1 k t2 w2. rewrite !elem_of_app. intros [H1|H1] [H2|H2].
    + apply Hon in H1 as (? & ? & ? & _). apply Hon in H2 as (? & ? & ? & _). by simplify_eq.
    + apply Hon in H1 as (k1 & w1 & [= -> -> <-] & Hk). symmetry. eapply (Hfw k1 Hk); eauto.
    + apply Hon in H2 as (k1 & [] & [= -> -> ->] & Hk); [eapply (Hfw k1 Hk)|eapply (Hfr k1 Hk)]; eauto.
    + by eapply Hw.
Qed.

Lemma lock_accounts_spec self held writes reads t :
  inv self held -> free_for (num_threads self) held writes reads t ->
  Z.of_nat (length (accesses_on t writes reads ++ held)) <= U32_MAX ->
  exists self', lock_accounts self writes reads t = Some self' /\
    num_threads self' = num_threads self /\ inv self' (accesses_on t writes reads ++ held).
Proof.
  intros Hinv Hfree Hfit. pose proof (held_ok_free _ _ _ _ _ (inv_held _ _ Hinv) Hfree Hfit) as Hok.
  unfold lock_accounts. destruct Hfree as [Ht _]. apply Nat.ltb_lt in Ht as ->.
  unfold accesses_on in *.
  assert (map (fun k => ((t, k), true)) writes ++ map (fun k => ((t, k), false)) reads ++ held ≡ₚ
    map (fun k => ((t, k), false)) reads ++ map (fun k => ((t, k), true)) writes ++ held) as Hp
    by solve_Permutation.
  rewrite <- app_assoc, Hp in Hok.
  destruct (foldM_lock write_lock_account true t (fun self held k => write_lock_spec self held t k)
    writes self held Hinv) as (self1 & -> & Hn1 & Hinv1).
  { clear -Hok. induction reads as [|k reads IH]; [done|]. apply held_ok_cons in Hok. auto. }
  simpl.
  destruct (foldM_lock read_lock_account false t (fun self held k => read_lock_spec self held t k)
    reads self1 _ Hinv1) as (self2 & -> & Hn2 & Hinv2); [by rewrite Hn1|].
  exists self2. split_and!; [done|congruence|]. by rewrite <- app_assoc, Hp.
Qed.

Lemma unlock_accounts_spec self held writes reads t :
  inv self (accesses_on t writes reads ++ held) ->
  exists self', unlock_accounts self writes reads t = Some self' /\
    num_threads self' = num_threads self /\ inv self' held.
Proof.
  intros Hinv. unfold accesses_on in Hinv. rewrite <- app_assoc in Hinv. unfold unlock_accounts.
  destruct (foldM_unlock write_unlock_account true t
    (fun self held k => write_unlock_spec self held t k) writes _ _ Hinv) as (self1 & -> & Hn1 & Hinv1).
  simpl. destruct (foldM_unlock read_unlock_account false t
    (fun self held k => read_unlock_spec self held t k) reads _ _ Hinv1) as (self2 & -> & Hn2 & Hinv2).
  exists self2. split_and!; [done|congruence|done].
Qed.

(** ** Sessions *)

(** A transaction's write and read keys. *)
Abbreviation tx_keys := (list Key * list Key)%type.

Definition tx_accesses (tx : tx_keys) : list (Key * bool) :=
  map (fun k => (k, true)) tx.1 ++ map (fun k => (k, false)) tx.2.

(** The table and the transactions locked and not yet unlocked, with their threads. *)
Record session : Type := Session {
  table : ThreadAwareAccountLocks;
  outstanding : list (nat * tx_keys)
}.

Definition held_of (out : list (nat * tx_keys)) : held_accesses :=
  concat (map (fun '(t, tx) => accesses_on t tx.1 tx.2) out).

(** [thread_selector] picks a member of the non-empty set of threads it is given. *)
Definition valid_selector (n : nat) (sel : ThreadSet -> option nat) : Prop :=
  forall s, wf s -> is_empty s = false -> (forall t, (t < 64)%nat -> contains s t = true -> (t < n)%nat) ->
    exists t, sel s = Some t /\ (t < 64)%nat /\ contains s t = true.

Inductive step : session -> session -> Prop :=
| step_lock tbl out tx allowed sel t tbl' :
    wf allowed -> valid_selector (num_threads tbl) sel ->
    Z.of_nat (length (held_of ((t, tx) :: out))) <= U32_MAX ->
    try_lock_accounts tbl tx.1 tx.2 allowed sel = Some (Ok t, tbl') ->
    step (Session tbl out) (Session tbl' ((t, tx) :: out))
| step_refused tbl out tx allowed sel e tbl' :
    try_lock_accounts tbl tx.1 tx.2 allowed sel = Some (Err e, tbl') ->
    step (Session tbl out) (Session tbl' out)
| step_unlock tbl out1 t tx out2 tbl' :
    unlock_accounts tbl tx.1 tx.2 t = Some tbl' ->
    step (Session tbl (out1 ++ (t, tx) :: out2)) (Session tbl' (out1 ++ out2)).

Definition initial (n : nat) (s : session) : Prop :=
  exists tbl, new n = Some tbl /\ s = Session tbl [].

Lemma held_of_middle out1 t tx out2 :
  held_of (out1 ++ (t, tx) :: out2) ≡ₚ accesses_on t tx.1 tx.2 ++ held_of (out1 ++ out2).
Proof. unfold held_of. rewrite !map_app, !concat_app. simpl. solve_Permutation. Qed.

Lemma elem_of_held out t k w :
  ((t, k), w) ∈ held_of out <-> exists tx, (t, tx) ∈ out /\ (k, w) ∈ tx_accesses tx.
Proof.
  unfold held_of. rewrite <- flat_map_concat_map, list_elem_of_In, in_flat_map.
  setoid_rewrite <- list_elem_of_In. unfold accesses_on, tx_accesses.
  setoid_rewrite elem_of_app. setoid_rewrite list_elem_of_fmap. split.
  - intros ([t' tx] & Hin & Hk). rewrite elem_of_app, !list_elem_of_fmap in Hk.
    destruct Hk as [(k' & ? & ?)|(k' & ? & ?)]; simplify_eq; exists tx; (split; [done|]); eauto.
  - intros (tx & Hin & Hk). exists (t, tx). split; [done|]. rewrite elem_of_app, !list_elem_of_fmap.
    destruct Hk as [(k' & ? & ?)|(k' & ? & ?)]; simplify_eq; eauto.
Qed.

(** [free_for] in terms of the outstanding transactions. *)
Definition schedulable_on (s : session) (tx : tx_keys) (t : nat) : Prop :=
  (t < num_threads (table s))%nat /\
  forall t' tx', (t', tx') ∈ outstanding s -> conflict (tx_accesses tx) (tx_accesses tx') -> t' = t.

Lemma schedulable_free s tx t :
  schedulable_on s tx t <-> free_for (num_threads (table s)) (held_of (outstanding s)) tx.1 tx.2 t.
Proof.
  unfold schedulable_on, free_for, may_lock. rewrite !Forall_forall. setoid_rewrite elem_of_held.
  assert (forall k, ((k, true) ∈ tx_accesses tx <-> k ∈ tx.1) /\ ((k, false) ∈ tx_accesses tx <-> k ∈ tx.2))
    as Hacc.
  { intros k. unfold tx_accesses. rewrite !elem_of_app, !list_elem_of_fmap. naive_solver. }
  split.
  - intros [Hlt Hc]. split_and!; [done|..]; intros k Hk t' w' (tx' & Hin & Hk') Hw;
      apply (Hc t' tx' Hin); exists k.
    + left. split; [by apply Hacc|by exists w'].
    + right. destruct Hw as [Hf | ->]; [done|]. split; [exists false; by apply Hacc|done].
  - intros (Hlt & Hw & Hr). split; [done|]. intros t' tx' Hin (k & [[H1 [w' H2]]|[[[|] H1] H2]]).
    + apply Hacc in H1. eapply (Hw k H1); eauto.
    + apply Hacc in H1. eapply (Hw k H1); eauto.
    + apply Hacc in H1. eapply (Hr k H1); eauto.
Qed.

(** What [try_lock_accounts] answers on a table that counts the outstanding accesses. *)
Lemma try_lock_cases s tx allowed sel :
  inv (table s) (held_of (outstanding s)) -> wf allowed ->
  valid_selector (num_threads (table s)) sel ->
  (forall t, Z.of_nat (length (held_of ((t, tx) :: outstanding s))) <= U32_MAX) ->
  exists r tbl', try_lock_accounts (table s) tx.1 tx.2 allowed sel = Some (r, tbl') /\
    match r with
    | Ok t => schedulable_on s tx t /\ contains allowed t = true /\
              num_threads tbl' = num_threads (table s) /\
              inv tbl' (held_of ((t, tx) :: outstanding s))
    | Err MultipleConflicts => tbl' = table s /\ forall t, ~ schedulable_on s tx t
    | Err ThreadNotAllowed => tbl' = table s /\ (exists t, schedulable_on s tx t) /\
              forall t, schedulable_on s tx t -> contains allowed t = false
    end.
Proof.
  intros Hinv Hwa Hsel Hfit. unfold try_lock_accounts.
  destruct (accounts_schedulable_spec _ _ tx.1 tx.2 Hinv) as (o & -> & Ho). simpl.
  destruct o as [sch|]; [|eexists _, _; split; [done|]; split; [done|]; intros t; rewrite schedulable_free; auto].
  destruct Ho as (Hws & Hes & Hs).
  assert (forall t, mem sch t = true <-> schedulable_on s tx t) as Hs' by (intros; by rewrite schedulable_free).
  assert (wf (bitand sch allowed)) as Hwb by (by apply wf_bitand).
  assert (forall t, mem sch t = true -> (t < 64)%nat) as H64.
  { intros t Hm. destruct (decide (t < 64)%nat); [done|]. rewrite wf_high in Hm by (done || lia). done. }
  destruct (is_empty (bitand sch allowed)) eqn:Hem.
  - eexists _, _. split; [done|]. simpl. split_and!; [done|..].
    + destruct (bits sch) as [|t l] eqn:Hb; [apply bits_nil in Hb; [by subst|done]|].
      exists t. apply Hs'. apply elem_bits. rewrite Hb. left.
    + intros t Ht%Hs'. specialize (H64 t Ht). rewrite contains_mem by done.
      pose proof (proj1 (is_empty_spec _ Hwb) Hem t H64) as Hm. by rewrite mem_bitand, Ht in Hm.
  - destruct (Hsel _ Hwb Hem) as (t & -> & Hlt & Hc).
    { intros t Ht Hc. rewrite contains_mem, mem_bitand, andb_true_iff in Hc by done.
      destruct Hc as [Hm _]. by apply Hs in Hm as [? _]. }
    simpl.
    rewrite contains_mem, mem_bitand, andb_true_iff in Hc by done. destruct Hc as [Hm Hal].
    destruct (lock_accounts_spec _ _ _ _ t Hinv (proj1 (Hs t) Hm) (Hfit t)) as (tbl' & -> & Hn & Hinv').
    eexists _, _. split; [done|]. simpl. split_and!; [by apply Hs'|by rewrite contains_mem|done|done].
Qed.

Lemma inv_new n tbl : new n = Some tbl -> inv tbl [] /\ num_threads tbl = n.
Proof.
  unfold new. destruct (_ && _) eqn:Hb; intros; simplify_eq. simpl.
  apply andb_true_iff in Hb as [H1%Nat.ltb_lt H2%Nat.leb_le]. split; [|done].
  split; simpl; [done| |].
  - split; simpl; [constructor|by intros ? ? ? ? ?%not_elem_of_nil|done].
  - intros k. rewrite lookup_empty. split; [by intros []|]. done.
Qed.

Lemma inv_reachable n s :
  reachable (initial n) step s -> inv (table s) (held_of (outstanding s)) /\ num_threads (table s) = n.
Proof.
  apply (invariant_reachable (initial n) step
    (fun s => inv (table s) (held_of (outstanding s)) /\ num_threads (table s) = n)).
  - intros ? (tbl & Hnew & ->). by apply inv_new.
  - intros s1 s2 [Hinv Hn] Hs.
    destruct Hs as [tbl out tx allowed sel t tbl' Hwa Hsel Hfit Hl|tbl out tx allowed sel e tbl' Hl
      |tbl out1 t tx out2 tbl' Hl]; simpl in *.
    + destruct (try_lock_cases (Session tbl out) tx allowed sel Hinv Hwa Hsel) as (r & tbl2 & Hl2 & Hr).
      { intros t'. unfold held_of, accesses_on in *. simpl in *. rewrite !length_app, !length_map in *. lia. }
      simpl in Hl2. rewrite Hl in Hl2. simplify_eq. destruct Hr as (_ & _ & ? & ?). simpl in *. split; [done|congruence].
    + unfold try_lock_accounts in Hl. destruct (accounts_schedulable_threads _ _ _) as [[]|]; simplify_eq/=; [|done].
      destruct (is_empty _); simplify_eq; [done|].
      destruct (sel _) as [t'|]; [|done]. simpl in Hl. by destruct (lock_accounts _ _ _ t').
    + rewrite held_of_middle in Hinv.
      destruct (unlock_accounts_spec _ _ _ _ _ Hinv) as (tbl2 & Hl2 & ? & ?).
      rewrite Hl in Hl2. simplify_eq. split; [done|congruence].
Qed.

Lemma inv_exclusive tbl out t1 tx1 t2 tx2 :
  inv tbl (held_of out) -> (t1, tx1) ∈ out -> (t2, tx2) ∈ out ->
  conflict (tx_accesses tx1) (tx_accesses tx2) -> t1 = t2 /\ (t1 < num_threads tbl)%nat.
Proof.
  intros Hinv H1 H2 (k & Hc). pose proof (inv_held _ _ Hinv) as Hok.
  assert (forall t tx w, (t, tx) ∈ out -> (k, w) ∈ tx_accesses tx -> ((t, k), w) ∈ held_of out) as Hin.
  { intros t tx w Htx Hw. apply elem_of_held. eauto. }
  pose proof (ho_threads _ _ Hok) as Hth. rewrite Forall_forall in Hth.
  destruct Hc as [[Hw [w Ht]]|[[w Ht] Hw]].
  - pose proof (Hth _ (Hin _ _ _ H1 Hw)) as Hlt. split; [by eapply (ho_writer _ _ Hok); eauto|done].
  - pose proof (Hth _ (Hin _ _ _ H1 Ht)) as Hlt. split; [symmetry; by eapply (ho_writer _ _ Hok); eauto|done].
Qed.

(** Conflicting transactions share a thread. In every state reached by
    locking transactions for threads, refused attempts and unlocking in any
    order, two outstanding transactions of which one writes an account the other
    touches are scheduled on the same thread, so that the queue of that thread
    serialises them. *)
Lemma thread_locks_exclusive n s t1 tx1 t2 tx2 :
  reachable (initial n) step s -> (t1, tx1) ∈ outstanding s -> (t2, tx2) ∈ outstanding s ->
  conflict (tx_accesses tx1) (tx_accesses tx2) -> t1 = t2 /\ (t1 < n)%nat.
Proof. intros [Hinv <-]%inv_reachable. by apply inv_exclusive. Qed.

(** Locking never panics and answers exactly. In every reachable state, for
    every transaction, set of allowed threads and selector that picks a member
    of the set it is given: the transaction is locked on an allowed thread that
    holds everything it conflicts with; or it is refused as MultipleConflicts,
    and then no thread could take it, or as ThreadNotAllowed, and then some
    thread could but none of the allowed ones; a refusal changes nothing. *)
Lemma thread_locks_answer n s tx allowed sel :
  reachable (initial n) step s -> wf allowed -> valid_selector n sel ->
  (forall t, Z.of_nat (length (held_of ((t, tx) :: outstanding s))) <= U32_MAX) ->
  exists r tbl', try_lock_accounts (table s) tx.1 tx.2 allowed sel = Some (r, tbl') /\
    match r with
    | Ok t => schedulable_on s tx t /\ contains allowed t = true
    | Err MultipleConflicts => tbl' = table s /\ forall t, ~ schedulable_on s tx t
    | Err ThreadNotAllowed => tbl' = table s /\ (exists t, schedulable_on s tx t) /\
              forall t, schedulable_on s tx t -> contains allowed t = false
    end.
Proof.
  intros [Hinv Hn]%inv_reachable Hwa Hsel Hfit. rewrite <- Hn in Hsel.
  destruct (try_lock_cases s tx allowed sel Hinv Hwa Hsel Hfit) as (r & tbl' & Hl & Hr).
  exists r, tbl'. split; [done|]. destruct r as [t|[]]; [|done..]. tauto.
Qed.

(** Unlocking is safe and complete. In every reachable state unlocking any
    outstanding transaction on its thread succeeds without a panic, and when
    nothing is outstanding the table has no entry left. *)
Lemma thread_locks_unlock n s :
  reachable (initial n) step s ->
  (forall t tx, (t, tx) ∈ outstanding s ->
     exists tbl', unlock_accounts (table s) tx.1 tx.2 t = Some tbl') /\
  (outstanding s = [] -> locks (table s) = ∅).
Proof.
  intros [Hinv _]%inv_reachable. split.
  - intros t tx (out1 & out2 & Ho)%list_elem_of_split. rewrite Ho, held_of_middle in Hinv.
    destruct (unlock_accounts_spec _ _ _ _ _ Hinv) as (tbl' & ? & _). eauto.
  - intros Ho. rewrite Ho in Hinv. destruct Hinv as [_ _ He]. apply map_empty. intros k.
    destruct (He k) as (Hs & Hw & Hr). destruct (locks (table s) !! k) as [[wl rl]|]; [|done].
    exfalso. simpl in *. destruct wl as [[t c]|]; [destruct Hw as (-> & Hpos & _); done|].
    destruct rl as [[st cs]|]; [|by destruct (Hs ltac:(eauto)) as [[]|[]]].
    destruct (some_reader _ _ _ Hr) as (t & _ & Hpos). done.
Qed.

End Locks.

(** ** Examples: two threads, three transactions *)
Section Example.

Definition first_member (s : ThreadSet) : option nat := Some (trailing_zeros s).

Lemma first_member_valid n : valid_selector n first_member.
Proof.
  intros s Hwf Hne _. unfold first_member, trailing_zeros. destruct (bits s) as [|t l] eqn:Hb.
  - apply bits_nil in Hb; [by subst|done].
  - assert (t ∈ bits s) as [Ht Hm]%elem_bits by (rewrite Hb; left). simpl.
    exists t. split_and!; [done|done|by rewrite contains_mem].
Qed.

Lemma locks_sample_session :
  exists tbl, reachable (initial 2) step
    (Session tbl [(1%nat, ([2%nat], [])); (0%nat, ([0%nat], [1%nat])); (0%nat, ([0%nat], []))]).
Proof.
  eexists. eapply reachable_step; [eapply reachable_step; [eapply reachable_step;
    [apply reachable_init; eexists; split; [vm_compute; reflexivity|reflexivity]|]|]|].
  - eapply (step_lock _ _ ([0%nat], []) 3 first_member); [done|apply first_member_valid|done|vm_compute; reflexivity].
  - eapply (step_lock _ _ ([0%nat], [1%nat]) 3 first_member); [done|apply first_member_valid|done|vm_compute; reflexivity].
  - eapply (step_lock _ _ ([2%nat], []) 2 first_member); [done|apply first_member_valid|done|vm_compute; reflexivity].
Qed.

(** A transaction that conflicts with both threads is refused. *)
End Example.
End Locks.
