(* ===== verification/StateContainer.v ===== *)
(** * The transaction state container of the central schedulers

    [core/src/banking_stage/transaction_scheduler/]: [transaction_state.rs]
    (module [State]), [transaction_priority_id.rs] and
    [transaction_state_container.rs] (module [Container]). The container holds
    every transaction of the scheduler from reception to completion: a slab of
    states, a priority queue of ids, and ids held until the next slot. The slab
    and the min-max heap are third-party crates ([slab], [min_max_heap]): they
    are the interfaces [Slab] and [MinMaxHeap], with their documented behaviour
    as laws, and the examples instantiate both. Panics ([expect], [assert],
    removal of a missing slab key) are [None]. *)

From S2P Require Import Prelude.

(** ** A transaction's state *)
Module State.
Section State.
Context {Tx MaxAge : Type}.

Record TransactionState : Type := TState {
  transaction : option Tx;
  max_age : MaxAge;
  priority : Z;
  cost : Z
}.

Definition new (tx : Tx) (max_age : MaxAge) (priority cost : Z) : TransactionState :=
  TState (Some tx) max_age priority cost.

Definition take_transaction_for_scheduling (self : TransactionState) :
    option ((Tx * MaxAge) * TransactionState) :=
  match transaction self with
  | Some tx => Some ((tx, max_age self), TState None (max_age self) (priority self) (cost self))
  | None => None
  end.

Definition retry_transaction (self : TransactionState) (tx : Tx) : option TransactionState :=
  match transaction self with
  | Some _ => None
  | None => Some (TState (Some tx) (max_age self) (priority self) (cost self))
  end.

End State.
Arguments TransactionState : clear implicits.
End State.
Import State.

(** ** Priorities *)

Record TransactionPriorityId : Type := PriorityId { pid_priority : Z; pid_id : nat }.

#[global] Instance TransactionPriorityId_eq_dec : EqDecision TransactionPriorityId.
Proof. solve_decision. Defined.

(** The derived ordering: by priority, then by id. *)
Definition pid_le (a b : TransactionPriorityId) : bool :=
  (pid_priority a <? pid_priority b) ||
  ((pid_priority a =? pid_priority b) && (pid_id a <=? pid_id b)%nat).

Lemma pid_le_refl a : pid_le a a = true.
Proof. unfold pid_le. rewrite Z.eqb_refl, Nat.leb_refl. by rewrite orb_true_r. Qed.

Lemma pid_le_total a b : pid_le a b = true \/ pid_le b a = true.
Proof.
  unfold pid_le. rewrite !orb_true_iff, !andb_true_iff, !Z.ltb_lt, !Z.eqb_eq, !Nat.leb_le. lia.
Qed.

Lemma pid_le_trans a b c : pid_le a b = true -> pid_le b c = true -> pid_le a c = true.
Proof.
  unfold pid_le. rewrite !orb_true_iff, !andb_true_iff, !Z.ltb_lt, !Z.eqb_eq, !Nat.leb_le. lia.
Qed.

(** ** Third-party data structures *)

(** [min_max_heap::MinMaxHeap], seen through the elements it holds. *)
Class MinMaxHeap (T : Type) (le : T -> T -> bool) : Type := {
  heap : Type;
  heap_elems : heap -> list T;
  heap_empty : heap;
  heap_push : heap -> T -> heap;
  heap_pop_max : heap -> option (T * heap);
  heap_pop_min : heap -> option (T * heap);
  heap_elems_empty : heap_elems heap_empty = [];
  heap_elems_push h x : heap_elems (heap_push h x) ≡ₚ x :: heap_elems h;
  heap_pop_max_none h : heap_pop_max h = None -> heap_elems h = [];
  heap_pop_max_some h x h' : heap_pop_max h = Some (x, h') ->
    heap_elems h ≡ₚ x :: heap_elems h' /\ forall y, y ∈ heap_elems h -> le y x = true;
  heap_pop_min_none h : heap_pop_min h = None -> heap_elems h = [];
  heap_pop_min_some h x h' : heap_pop_min h = Some (x, h') ->
    heap_elems h ≡ₚ x :: heap_elems h' /\ forall y, y ∈ heap_elems h -> le x y = true
}.

(** [slab::Slab], seen through the map it holds: the vacant key is free,
    [insert] fills it, [remove] of a missing key panics, and the capacity is at
    least the one asked for and never shrinks. *)
Class Slab (A : Type) : Type := {
  slab : Type;
  slab_map : slab -> gmap nat A;
  slab_capacity : slab -> nat;
  slab_with_capacity : nat -> slab;
  slab_vacant_key : slab -> nat;
  slab_insert : slab -> A -> slab;
  slab_set : slab -> nat -> A -> slab;
  slab_remove : slab -> nat -> option slab;
  slab_map_with_capacity n : slab_map (slab_with_capacity n) = ∅;
  slab_capacity_with_capacity n : (n <= slab_capacity (slab_with_capacity n))%nat;
  slab_vacant s : slab_map s !! slab_vacant_key s = None;
  slab_map_insert s a : slab_map (slab_insert s a) = <[slab_vacant_key s := a]> (slab_map s);
  slab_capacity_insert s a : (slab_capacity s <= slab_capacity (slab_insert s a))%nat;
  slab_map_set s k a : is_Some (slab_map s !! k) -> slab_map (slab_set s k a) = <[k := a]> (slab_map s);
  slab_capacity_set s k a : slab_capacity (slab_set s k a) = slab_capacity s;
  slab_remove_none s k : slab_map s !! k = None -> slab_remove s k = None;
  slab_remove_some s k : is_Some (slab_map s !! k) ->
    exists s', slab_remove s k = Some s' /\ slab_map s' = delete k (slab_map s) /\
      slab_capacity s' = slab_capacity s
}.

(** ** The container *)
Module Container.
Section Container.
Context {Tx MaxAge : Type}.
Context `{Heap : !MinMaxHeap TransactionPriorityId pid_le}.
Context `{Sl : !Slab (TransactionState Tx MaxAge)}.

Record TransactionStateContainer : Type := Container {
  capacity : nat;
  priority_queue : heap;
  id_to_transaction_state : slab;
  held_transactions : list TransactionPriorityId
}.

Definition EXTRA_CAPACITY : nat := 64.

Definition with_capacity (capacity : nat) : TransactionStateContainer :=
  Container capacity heap_empty (slab_with_capacity (capacity + EXTRA_CAPACITY)) [].

Definition queue_size (self : TransactionStateContainer) : nat :=
  length (heap_elems (priority_queue self)).

Definition buffer_size (self : TransactionStateContainer) : nat :=
  size (slab_map (id_to_transaction_state self)).

Definition is_empty (self : TransactionStateContainer) : bool := (queue_size self =? 0)%nat.

Definition pop (self : TransactionStateContainer) :
    option TransactionPriorityId * TransactionStateContainer :=
  match heap_pop_max (priority_queue self) with
  | None => (None, self)
  | Some (x, h) =>
      (Some x, Container (capacity self) h (id_to_transaction_state self) (held_transactions self))
  end.

(** [get_mut_transaction_state] is a lookup; [set_transaction_state] writes
    through the reference it returns. *)
Definition get_transaction_state (self : TransactionStateContainer) (id : nat) :
    option (TransactionState Tx MaxAge) :=
  slab_map (id_to_transaction_state self) !! id.

Definition set_transaction_state (self : TransactionStateContainer) (id : nat)
    (st : TransactionState Tx MaxAge) : TransactionStateContainer :=
  Container (capacity self) (priority_queue self) (slab_set (id_to_transaction_state self) id st)
    (held_transactions self).

(** The transaction of an id; asking for one that is scheduled panics. *)
Definition get_transaction (self : TransactionStateContainer) (id : nat) : option (option Tx) :=
  match slab_map (id_to_transaction_state self) !! id with
  | None => Some None
  | Some st => match transaction st with Some tx => Some (Some tx) | None => None end
  end.

Fixpoint drop_lowest (n : nat) (queue : heap) (states : slab) : option (heap * slab) :=
  match n with
  | O => Some (queue, states)
  | S n =>
      '(x, queue') ← heap_pop_min queue;
      states' ← slab_remove states (pid_id x);
      drop_lowest n queue' states'
  end.

Definition push_ids_into_queue (self : TransactionStateContainer)
    (priority_ids : list TransactionPriorityId) : option (nat * TransactionStateContainer) :=
  let queue := foldl heap_push (priority_queue self) priority_ids in
  let num_dropped := (buffer_size self - capacity self)%nat in
  '(queue', states') ← drop_lowest num_dropped queue (id_to_transaction_state self);
  Some (num_dropped, Container (capacity self) queue' states' (held_transactions self)).

Definition hold_transaction (self : TransactionStateContainer) (x : TransactionPriorityId) :
    TransactionStateContainer :=
  Container (capacity self) (priority_queue self) (id_to_transaction_state self)
    (held_transactions self ++ [x]).

Definition retry_transaction (self : TransactionStateContainer) (transaction_id : nat) (tx : Tx)
    (immediately_retryable : bool) : option TransactionStateContainer :=
  st ← get_transaction_state self transaction_id;
  let priority_id := PriorityId (priority st) transaction_id in
  st' ← State.retry_transaction st tx;
  let self := set_transaction_state self transaction_id st' in
  if immediately_retryable then
    '(_, self') ← push_ids_into_queue self [priority_id]; Some self'
  else Some (hold_transaction self priority_id).

Definition remove_by_id (self : TransactionStateContainer) (id : nat) :
    option TransactionStateContainer :=
  states ← slab_remove (id_to_transaction_state self) id;
  Some (Container (capacity self) (priority_queue self) states (held_transactions self)).

(** The emptied vector of held ids is put back afterwards. *)
Definition flush_held_transactions (self : TransactionStateContainer) :
    option TransactionStateContainer :=
  '(_, self') ← push_ids_into_queue
    (Container (capacity self) (priority_queue self) (id_to_transaction_state self) [])
    (held_transactions self);
  Some self'.

(** [get_vacant_map_entry], then filling the entry. *)
Definition insert_map_only (self : TransactionStateContainer) (st : TransactionState Tx MaxAge) :
    option (nat * TransactionStateContainer) :=
  let states := id_to_transaction_state self in
  if (buffer_size self <? slab_capacity states)%nat then
    Some (slab_vacant_key states,
          Container (capacity self) (priority_queue self) (slab_insert states st)
            (held_transactions self))
  else None.

Definition insert_new_transaction (self : TransactionStateContainer) (tx : Tx) (max_age : MaxAge)
    (priority cost : Z) : option (bool * TransactionStateContainer) :=
  '(transaction_id, self') ← insert_map_only self (State.new tx max_age priority cost);
  '(dropped, self'') ← push_ids_into_queue self' [PriorityId priority transaction_id];
  Some ((0 <? dropped)%nat, self'').

(** ** The invariant *)

Definition states (self : TransactionStateContainer) : gmap nat (TransactionState Tx MaxAge) :=
  slab_map (id_to_transaction_state self).

Definition queued (self : TransactionStateContainer) : list TransactionPriorityId :=
  heap_elems (priority_queue self).

Definition keys {A} (m : gmap nat A) : list nat := (map_to_list m).*1.

(** An id whose transaction is available, under the priority of its state. *)
Definition available (self : TransactionStateContainer) (x : TransactionPriorityId) : Prop :=
  exists st, states self !! pid_id x = Some st /\ priority st = pid_priority x /\
    is_Some (transaction st).

(** Every id of the slab is in exactly one of the queue, the held ids and the
    ids [pending] elsewhere; ids in the queue or held are available. *)
Record wf (self : TransactionStateContainer) (pending : list nat) : Prop := {
  wf_keys : map pid_id (queued self) ++ map pid_id (held_transactions self) ++ pending ≡ₚ
            keys (states self);
  wf_available : Forall (available self) (queued self ++ held_transactions self);
  wf_slab : (capacity self + EXTRA_CAPACITY <= slab_capacity (id_to_transaction_state self))%nat
}.

(** ** Keys of maps *)

Lemma elem_of_keys {A} (m : gmap nat A) k : k ∈ keys m <-> is_Some (m !! k).
Proof.
  unfold keys. rewrite list_elem_of_fmap. split.
  - intros ([k' a] & -> & Hin). apply elem_of_map_to_list in Hin. by exists a.
  - intros [a Ha]. exists (k, a). split; [done|]. by apply elem_of_map_to_list.
Qed.

Lemma NoDup_keys {A} (m : gmap nat A) : NoDup (keys m).
Proof. apply NoDup_fst_map_to_list. Qed.

Lemma length_keys {A} (m : gmap nat A) : length (keys m) = size m.
Proof. unfold keys. rewrite length_fmap. apply length_map_to_list. Qed.

Lemma keys_insert {A} (m : gmap nat A) k a : m !! k = None -> keys (<[k := a]> m) ≡ₚ k :: keys m.
Proof. intros Hk. unfold keys. rewrite map_to_list_insert by done. done. Qed.

Lemma keys_delete {A} (m : gmap nat A) k : is_Some (m !! k) -> keys m ≡ₚ k :: keys (delete k m).
Proof. intros [a Ha]. unfold keys. rewrite <- (map_to_list_delete m k a Ha). done. Qed.

Lemma keys_update {A} (m : gmap nat A) k a : is_Some (m !! k) -> keys (<[k := a]> m) ≡ₚ keys m.
Proof.
  intros Hk. rewrite (keys_delete m k Hk). rewrite <- insert_delete_eq.
  apply keys_insert. apply lookup_delete_eq.
Qed.

(** ** Operations preserve the invariant *)

Lemma heap_elems_foldl_push ids h : heap_elems (foldl heap_push h ids) ≡ₚ ids ++ heap_elems h.
Proof.
  revert h. induction ids as [|x ids IH]; intros h; simpl; [done|].
  rewrite IH, heap_elems_push. by rewrite <- Permutation_middle.
Qed.

Lemma drop_lowest_spec n : forall queue states,
  (n <= length (heap_elems queue))%nat ->
  NoDup (map pid_id (heap_elems queue)) ->
  Forall (fun x => is_Some (slab_map states !! pid_id x)) (heap_elems queue) ->
  exists queue' states' dropped, drop_lowest n queue states = Some (queue', states') /\
    heap_elems queue ≡ₚ dropped ++ heap_elems queue' /\ length dropped = n /\
    (forall x y, x ∈ dropped -> y ∈ heap_elems queue' -> pid_le x y = true) /\
    keys (slab_map states) ≡ₚ map pid_id dropped ++ keys (slab_map states') /\
    (forall k, k ∉ map pid_id dropped -> slab_map states' !! k = slab_map states !! k) /\
    slab_capacity states' = slab_capacity states.
Proof.
  induction n as [|n IH]; intros queue states Hn Hnd Hall; simpl.
  { exists queue, states, []. split_and!; try done. by intros x y ?%not_elem_of_nil. }
  destruct (heap_pop_min queue) as [[x queue1]|] eqn:Hpop.
  2: { apply heap_pop_min_none in Hpop. rewrite Hpop in Hn. simpl in Hn. lia. }
  apply heap_pop_min_some in Hpop as [Hp Hmin]. rewrite Hp in Hn, Hnd, Hall. simpl in Hn, Hnd.
  apply NoDup_cons in Hnd as [Hx Hnd]. apply Forall_cons in Hall as [Hxs Hall]. simpl.
  destruct (slab_remove_some states (pid_id x) Hxs) as (states1 & -> & Hm1 & Hc1). simpl.
  destruct (IH queue1 states1) as (queue' & states' & dropped & -> & Hq & Hl & Hle & Hk & Hs & Hc).
  { lia. } { done. }
  { rewrite Forall_forall in Hall |- *. intros y Hy. rewrite Hm1, lookup_delete_ne; [by apply Hall|].
    intros Heq. destruct Hx. rewrite Heq. apply list_elem_of_fmap. eauto. }
  exists queue', states', (x :: dropped). split_and!; [done| | | | | |congruence].
  - rewrite Hp, Hq. done.
  - simpl. by rewrite Hl.
  - intros y z [->|Hy]%elem_of_cons Hz; [|by apply Hle]. apply Hmin. rewrite Hp, Hq.
    right. apply elem_of_app. by right.
  - rewrite (keys_delete _ _ Hxs), <- Hm1, Hk. done.
  - intros k Hk'. simpl in Hk'. rewrite not_elem_of_cons in Hk'. destruct Hk' as [Hkx Hkd].
    rewrite Hs by done. rewrite Hm1. by rewrite lookup_delete_ne.
Qed.

Lemma available_ext c c' x :
  states c' !! pid_id x = states c !! pid_id x -> available c x -> available c' x.
Proof. intros Heq. unfold available. by rewrite Heq. Qed.

Lemma wf_lookup c pending k : wf c pending -> k ∈ pending -> is_Some (states c !! k).
Proof.
  intros [Hk _ _] Hin. apply elem_of_keys. rewrite <- Hk, !elem_of_app. auto.
Qed.

Lemma wf_perm c p1 p2 : p1 ≡ₚ p2 -> wf c p1 -> wf c p2.
Proof. intros Hp [Hk Ha Hs]. split; [by rewrite <- Hp|done|done]. Qed.

(** The effect of pushing: the lowest ids beyond the capacity are dropped. *)
Record pushed (c c' : TransactionStateContainer) (ids dropped : list TransactionPriorityId)
    (pending : list nat) : Prop := {
  p_queue : ids ++ queued c ≡ₚ dropped ++ queued c';
  p_dropped : length dropped = (buffer_size c - capacity c)%nat;
  p_lowest : forall x y, x ∈ dropped -> y ∈ queued c' -> pid_le x y = true;
  p_states : forall k, k ∉ map pid_id dropped -> states c' !! k = states c !! k;
  p_keys : keys (states c) ≡ₚ map pid_id dropped ++ keys (states c');
  p_held : held_transactions c' = held_transactions c;
  p_capacity : capacity c' = capacity c;
  p_wf : wf c' pending
}.

Lemma push_spec c ids pending :
  wf c (map pid_id ids ++ pending) -> Forall (available c) ids ->
  (buffer_size c <= capacity c + length ids)%nat ->
  exists dropped c', push_ids_into_queue c ids = Some (length dropped, c') /\
    pushed c c' ids dropped pending /\ (buffer_size c' <= capacity c)%nat.
Proof.
  intros Hwf Hav Hsz. pose proof Hwf as [Hkeys Hava Hslab]. unfold push_ids_into_queue.
  pose proof (heap_elems_foldl_push ids (priority_queue c)) as Hq.
  assert (NoDup (map pid_id (queued c) ++ map pid_id (held_transactions c) ++ map pid_id ids ++ pending)) as Hnd.
  { rewrite Hkeys. apply NoDup_keys. }
  destruct (drop_lowest_spec (buffer_size c - capacity c) (foldl heap_push (priority_queue c) ids)
    (id_to_transaction_state c)) as (queue' & states' & dropped & Hd & Hqd & Hl & Hle & Hk & Hs & Hc).
  - rewrite Hq, length_app. lia.
  - rewrite Hq, map_app.
    assert (map pid_id (queued c) ++ map pid_id (held_transactions c) ++ map pid_id ids ++ pending ≡ₚ
      (map pid_id ids ++ map pid_id (queued c)) ++ map pid_id (held_transactions c) ++ pending) as Hp
      by solve_Permutation.
    rewrite Hp in Hnd. by apply NoDup_app in Hnd as (? & _ & _).
  - rewrite Hq, Forall_app. rewrite Forall_app in Hava. split.
    + eapply Forall_impl; [exact Hav|]. intros x (st & Hst & _). by exists st.
    + eapply Forall_impl; [apply Hava|]. intros x (st & Hst & _). by exists st.
  - rewrite Hd. simpl.
    set (c' := Container (capacity c) queue' states' (held_transactions c)).
    exists dropped, c'. split; [by rewrite Hl|]. unfold queued in *. rewrite Hq in Hqd.
    assert (map pid_id (queued c') ++ map pid_id (held_transactions c) ++ pending ≡ₚ keys (slab_map states')) as Hkeys'.
    { apply (Permutation_app_inv_l (map pid_id dropped)). rewrite <- Hk. unfold states in Hkeys. rewrite <- Hkeys.
      assert (map pid_id dropped ++ map pid_id (heap_elems queue') ≡ₚ map pid_id ids ++ map pid_id (heap_elems (priority_queue c))) as Hm.
      { rewrite <- !map_app. by rewrite Hqd. }
      unfold queued. simpl. rewrite (app_assoc (map pid_id dropped)), Hm. solve_Permutation. }
    assert (wf c' pending) as Hwf'.
    { split; [done| |by unfold c'; simpl; rewrite Hc].
      assert (forall x, x ∈ heap_elems queue' ++ held_transactions c ->
        (pid_id x ∉ map pid_id dropped) /\ available c x) as Hrem.
      { intros x Hx. split.
        - intros Hin. pose proof (NoDup_keys (slab_map (id_to_transaction_state c))) as Hnd'.
          rewrite Hk, <- Hkeys' in Hnd'. apply NoDup_app in Hnd' as (_ & Hdis & _).
          apply (Hdis _ Hin). rewrite app_assoc, elem_of_app. left. rewrite <- map_app.
          apply list_elem_of_fmap. eauto.
        - rewrite Forall_forall in Hava, Hav. apply elem_of_app in Hx as [Hx|Hx].
          + assert (x ∈ ids ++ heap_elems (priority_queue c)) as Hx' by (rewrite Hqd; apply elem_of_app; auto).
            apply elem_of_app in Hx' as [|]; [by apply Hav|]. apply Hava. apply elem_of_app. auto.
          + apply Hava. apply elem_of_app. auto. }
      apply Forall_forall. intros x [Hni Hxa]%Hrem. eapply available_ext; [|exact Hxa]. by apply Hs. }
    split; [by split|].
    assert (length (keys (states c)) = length dropped + length (keys (states c')))%nat as Hlen.
    { unfold states. rewrite Hk, length_app, length_map. done. }
    rewrite !length_keys in Hlen. unfold buffer_size, states in *. lia.
Qed.

Lemma pop_spec c pending x c' :
  wf c pending -> pop c = (Some x, c') ->
  wf c' (pid_id x :: pending) /\ queued c ≡ₚ x :: queued c' /\ available c x /\
  (forall y, y ∈ queued c -> pid_le y x = true) /\
  states c' = states c /\ held_transactions c' = held_transactions c /\ capacity c' = capacity c.
Proof.
  intros [Hk Ha Hs] Hp. unfold pop in Hp.
  destruct (heap_pop_max (priority_queue c)) as [[y h]|] eqn:Hpop; simplify_eq.
  apply heap_pop_max_some in Hpop as [Hq Hmax]. unfold queued in *. rewrite Hq in Hk, Ha. simpl in *.
  apply Forall_cons in Ha as [Hx Ha]. split_and!; try done. split; simpl; [|done|done].
  rewrite <- Hk. unfold queued. simpl. solve_Permutation.
Qed.

Lemma pop_none c c' : pop c = (None, c') -> queued c = [] /\ c' = c.
Proof.
  unfold pop. destruct (heap_pop_max _) as [[]|] eqn:Hpop; intros; simplify_eq.
  split; [|done]. by apply heap_pop_max_none.
Qed.

(** Writing the state of a pending id. *)
Lemma set_spec c pending id st :
  wf c pending -> id ∈ pending ->
  wf (set_transaction_state c id st) pending /\
  states (set_transaction_state c id st) = <[id := st]> (states c).
Proof.
  intros Hwf Hin. pose proof (wf_lookup _ _ _ Hwf Hin) as Hid. destruct Hwf as [Hk Ha Hs].
  assert (states (set_transaction_state c id st) = <[id := st]> (states c)) as Hst
    by (by apply slab_map_set).
  split; [|done]. split; [by rewrite Hst, keys_update| |by unfold set_transaction_state; simpl; rewrite slab_capacity_set].
  apply Forall_forall. intros x Hx. rewrite Forall_forall in Ha. eapply available_ext; [|by apply Ha].
  rewrite Hst. apply lookup_insert_ne. intros ->.
  pose proof (NoDup_keys (states c)) as Hnd. rewrite <- Hk, app_assoc, <- map_app in Hnd.
  apply NoDup_app in Hnd as (_ & Hdis & _). eapply Hdis; [|exact Hin]. apply list_elem_of_fmap. eauto.
Qed.

Lemma remove_spec c pending id :
  wf c (id :: pending) ->
  exists c', remove_by_id c id = Some c' /\ wf c' pending /\ states c' = delete id (states c) /\
    queued c' = queued c /\ held_transactions c' = held_transactions c /\ capacity c' = capacity c.
Proof.
  intros Hwf. pose proof (wf_lookup c (id :: pending) id Hwf ltac:(left)) as Hid.
  destruct Hwf as [Hk Ha Hs]. unfold remove_by_id.
  destruct (slab_remove_some (id_to_transaction_state c) id Hid) as (s' & -> & Hm & Hc). simpl.
  eexists. split; [done|]. split_and!; try done.
  pose proof (NoDup_keys (states c)) as Hnd. rewrite <- Hk in Hnd.
  split; simpl; [| |by rewrite Hc].
  - unfold states at 1. simpl. rewrite Hm. apply (Permutation_cons_inv (a := id)).
    rewrite <- (keys_delete _ _ Hid). unfold states in Hk. rewrite <- Hk. unfold queued. simpl. solve_Permutation.
  - apply Forall_forall. intros x Hx. rewrite Forall_forall in Ha. eapply available_ext; [|by apply Ha].
    unfold states. simpl. rewrite Hm. apply lookup_delete_ne. intros Heq.
    rewrite app_assoc, <- map_app in Hnd. apply NoDup_app in Hnd as (_ & Hdis & _).
    eapply (Hdis id); [|left]. apply list_elem_of_fmap. eauto.
Qed.

Lemma retry_spec c pending id tx imm st :
  wf c (id :: pending) -> states c !! id = Some st -> transaction st = None ->
  (buffer_size c <= capacity c)%nat ->
  exists c', retry_transaction c id tx imm = Some c' /\ wf c' pending /\
    states c' = <[id := TState (Some tx) (max_age st) (priority st) (cost st)]> (states c) /\
    capacity c' = capacity c /\ (buffer_size c' <= capacity c)%nat /\
    (if imm then queued c' ≡ₚ PriorityId (priority st) id :: queued c /\
                 held_transactions c' = held_transactions c
     else queued c' = queued c /\
          held_transactions c' = held_transactions c ++ [PriorityId (priority st) id]).
Proof.
  intros Hwf Hst Htx Hsz. unfold retry_transaction, get_transaction_state.
  change (slab_map (id_to_transaction_state c)) with (states c). rewrite Hst. simpl.
  unfold State.retry_transaction. rewrite Htx. simpl.
  set (st' := TState (Some tx) (max_age st) (priority st) (cost st)).
  destruct (set_spec c (id :: pending) id st' Hwf ltac:(left)) as [Hwf1 Hst1].
  assert (available (set_transaction_state c id st') (PriorityId (priority st) id)) as Hav.
  { exists st'. rewrite Hst1. simpl. rewrite lookup_insert_eq. eauto. }
  assert (buffer_size (set_transaction_state c id st') = buffer_size c) as Hbs.
  { unfold buffer_size. change (size (states (set_transaction_state c id st')) = size (states c)).
    rewrite Hst1. apply map_size_insert_Some. by exists st. }
  destruct imm.
  - destruct (push_spec (set_transaction_state c id st') [PriorityId (priority st) id] pending)
      as (dropped & c' & Hp & [Hq Hd _ Hs _ Hh Hc Hw] & Hbs'); [done|by constructor|simpl; lia|].
    rewrite Hp. simpl. exists c'. rewrite Hbs in Hd. simpl in Hd.
    destruct dropped as [|d ds]; [|simpl in Hd; lia]. simpl in *.
    split_and!; try done. apply map_eq. intros k. rewrite Hs by apply not_elem_of_nil. by rewrite Hst1.
  - eexists. split; [done|]. destruct Hwf1 as [Hk1 Ha1 Hs1].
    split_and!; try done; [|unfold buffer_size in *; simpl in *; lia]. split; simpl; [|by rewrite app_assoc, Forall_app; eauto|done].
    rewrite <- Hk1. simpl. rewrite map_app. simpl. solve_Permutation.
Qed.

Lemma insert_map_only_spec c pending st :
  wf c pending -> (buffer_size c < capacity c + EXTRA_CAPACITY)%nat ->
  exists k c', insert_map_only c st = Some (k, c') /\ wf c' (k :: pending) /\
    states c !! k = None /\ states c' = <[k := st]> (states c) /\
    queued c' = queued c /\ held_transactions c' = held_transactions c /\
    capacity c' = capacity c /\ buffer_size c' = S (buffer_size c).
Proof.
  intros [Hk Ha Hs] Hsz. unfold insert_map_only.
  assert (buffer_size c < slab_capacity (id_to_transaction_state c))%nat as Hlt%Nat.ltb_lt by lia.
  rewrite Hlt. eexists _, _. split; [done|].
  pose proof (slab_vacant (id_to_transaction_state c)) as Hv.
  pose proof (slab_map_insert (id_to_transaction_state c) st) as Hm.
  split_and!; try done.
  - split; simpl.
    + unfold states at 1. simpl. rewrite Hm, keys_insert by done. unfold queued in *. simpl.
      unfold states in Hk. rewrite <- Hk. solve_Permutation.
    + eapply Forall_impl; [exact Ha|]. intros x (st' & Hst' & ?). exists st'. split; [|done].
      unfold states. simpl. rewrite Hm, lookup_insert_ne; [done|].
      intros Heq. unfold states in Hst'. rewrite <- Heq in Hst'. congruence.
    + pose proof (slab_capacity_insert (id_to_transaction_state c) st). lia.
  - unfold buffer_size. simpl. rewrite Hm. by apply map_size_insert_None.
Qed.

Lemma flush_held_spec c pending :
  wf c pending -> (buffer_size c <= capacity c)%nat ->
  exists c', flush_held_transactions c = Some c' /\ wf c' pending /\ states c' = states c /\
    queued c' ≡ₚ held_transactions c ++ queued c /\ held_transactions c' = [] /\
    capacity c' = capacity c.
Proof.
  intros [Hk Ha Hs] Hsz. unfold flush_held_transactions.
  set (c0 := Container (capacity c) (priority_queue c) (id_to_transaction_state c) []).
  apply Forall_app in Ha as [Haq Hah].
  destruct (push_spec c0 (held_transactions c) pending)
    as (dropped & c' & Hp & [Hq Hd _ Hst _ Hh Hc Hw] & Hbs').
  { split; simpl; [done| |done]. by rewrite app_nil_r. }
  { done. }
  { unfold buffer_size, c0 in *. simpl. lia. }
  rewrite Hp. simpl. exists c'.
  destruct dropped as [|d ds]; [|unfold buffer_size, c0 in *; simpl in *; lia].
  split_and!; try done. apply map_eq. intros k. by rewrite Hst by apply not_elem_of_nil.
Qed.

(** ** Sessions of a scheduler with its container *)

(** The container, and the ids the scheduler has taken out of the queue. *)
Record session : Type := Session {
  container : TransactionStateContainer;
  pending : list nat
}.

Inductive step : session -> session -> Prop :=
| step_insert c p tx ma pr co b c' :
    insert_new_transaction c tx ma pr co = Some (b, c') -> step (Session c p) (Session c' p)
| step_pop c p x c' :
    pop c = (Some x, c') -> step (Session c p) (Session c' (pid_id x :: p))
| step_schedule c p id st r st' :
    id ∈ p -> get_transaction_state c id = Some st ->
    take_transaction_for_scheduling st = Some (r, st') ->
    step (Session c p) (Session (set_transaction_state c id st') p)
| step_push_back c ids p n c' :
    Forall (available c) ids -> push_ids_into_queue c ids = Some (n, c') ->
    step (Session c (map pid_id ids ++ p)) (Session c' p)
| step_retry c p1 id p2 tx imm c' :
    retry_transaction c id tx imm = Some c' ->
    step (Session c (p1 ++ id :: p2)) (Session c' (p1 ++ p2))
| step_remove c p1 id p2 c' :
    remove_by_id c id = Some c' -> step (Session c (p1 ++ id :: p2)) (Session c' (p1 ++ p2))
| step_flush c p c' :
    flush_held_transactions c = Some c' -> step (Session c p) (Session c' p).

Definition initial (n : nat) (s : session) : Prop := s = Session (with_capacity n) [].

Definition session_wf (n : nat) (s : session) : Prop :=
  wf (container s) (pending s) /\ (buffer_size (container s) <= n)%nat /\
  capacity (container s) = n.

Lemma insert_new_spec c p tx ma pr co :
  wf c p -> (buffer_size c <= capacity c)%nat ->
  exists b c' dropped k, insert_new_transaction c tx ma pr co = Some (b, c') /\
    wf c' p /\ capacity c' = capacity c /\ (buffer_size c' <= capacity c)%nat /\
    states c !! k = None /\
    PriorityId pr k :: queued c ≡ₚ dropped ++ queued c' /\
    length dropped = (if decide (buffer_size c = capacity c) then 1 else 0)%nat /\
    b = bool_decide (buffer_size c = capacity c) /\
    (forall x y, x ∈ dropped -> y ∈ queued c' -> pid_le x y = true) /\
    (forall id, states c' !! id = None \/ states c' !! id = <[k := State.new tx ma pr co]> (states c) !! id) /\
    (forall id, id ∈ p -> states c' !! id = states c !! id).
Proof.
  intros Hwf Hsz. unfold insert_new_transaction.
  destruct (insert_map_only_spec c p (State.new tx ma pr co) Hwf) as
    (k & c1 & -> & Hwf1 & Hk & Hst1 & Hq1 & Hh1 & Hc1 & Hb1); [unfold EXTRA_CAPACITY; lia|]. simpl.
  destruct (push_spec c1 [PriorityId pr k] p) as (dropped & c' & -> & [Hq Hd Hlow Hst Hkeys Hh Hc Hw] & Hbs).
  { done. }
  { constructor; [|done]. exists (State.new tx ma pr co). rewrite Hst1. simpl. rewrite lookup_insert_eq.
    split_and!; [done|done|]. by exists tx. }
  { simpl. lia. }
  simpl. eexists _, c', dropped, k. split; [done|]. rewrite Hq1 in Hq. rewrite Hb1, Hc1 in Hd.
  rewrite <- Hst1.
  assert (forall id, id ∈ map pid_id dropped -> states c' !! id = None) as Hgone.
  { intros id Hid. apply eq_None_not_Some. rewrite <- elem_of_keys. intros Hin.
    pose proof (NoDup_keys (states c1)) as Hnd. rewrite Hkeys in Hnd.
    apply NoDup_app in Hnd as (_ & Hdis & _). by apply (Hdis id). }
  split_and!; [done|congruence|lia|done|done| | |done|..].
  - rewrite Hd. case_decide; lia.
  - rewrite Hd. case_bool_decide; [apply Nat.ltb_lt|apply Nat.ltb_ge]; lia.
  - intros id. destruct (decide (id ∈ map pid_id dropped)); [left; by apply Hgone|right; by apply Hst].
  - intros id Hid. pose proof (wf_lookup _ _ _ Hw Hid) as [st' Hst'].
    rewrite Hst, Hst1, lookup_insert_ne; [done| |].
    + intros ->. pose proof (wf_lookup _ _ _ Hwf Hid) as [? ?]. congruence.
    + intros Hin%Hgone. congruence.
Qed.

Lemma with_capacity_spec n : wf (with_capacity n) [] /\ buffer_size (with_capacity n) = 0%nat.
Proof.
  split; [split; simpl|].
  - unfold queued, states. simpl. rewrite heap_elems_empty, slab_map_with_capacity. done.
  - unfold queued. simpl. by rewrite heap_elems_empty.
  - apply slab_capacity_with_capacity.
  - unfold buffer_size. simpl. by rewrite slab_map_with_capacity, map_size_empty.
Qed.

Lemma session_reachable n s : reachable (initial n) step s -> session_wf n s.
Proof.
  apply invariant_reachable.
  - intros ? ->. destruct (with_capacity_spec n) as [? Hb].
    split_and!; simpl; [done|rewrite Hb; lia|done].
  - intros s1 s2 (Hwf & Hsz & Hc) Hs. rewrite <- Hc in *. destruct Hs; simpl in *.
    + destruct (insert_new_spec c p tx ma pr co Hwf Hsz) as (? & ? & ? & ? & Hi & ? & ? & ? & _).
      simplify_eq. unfold session_wf. simpl. eauto.
    + edestruct pop_spec as (? & ? & ? & ? & Hst & ? & ?); [done..|].
      split_and!; simpl; [done| |done]. unfold buffer_size, states in *. by rewrite Hst.
    + destruct (set_spec c p id st' Hwf) as [? Hst]; [done|]. split_and!; simpl; [done| |done].
      unfold buffer_size. change (size (states (set_transaction_state c id st')) <= capacity c)%nat.
      rewrite Hst, map_size_insert_Some; [done|]. by exists st.
    + destruct (push_spec c ids p) as (? & ? & Hp & Hpushed & ?); [done|done|lia|]. simplify_eq.
      split_and!; simpl; [apply Hpushed|done|apply Hpushed].
    + assert (wf c (id :: p1 ++ p2)) as Hwf' by (eapply wf_perm; [|done]; solve_Permutation).
      destruct (wf_lookup c (id :: p1 ++ p2) id Hwf') as [st Hst]; [by left|].
      destruct (transaction st) as [tx'|] eqn:Htx.
      { unfold retry_transaction, get_transaction_state in H. unfold states in Hst. rewrite Hst in H.
        simpl in H. unfold State.retry_transaction in H. by rewrite Htx in H. }
      destruct (retry_spec c (p1 ++ p2) id tx imm st) as (? & Hr & ? & ? & ? & ? & _); [done..|].
      simplify_eq. by split_and!.
    + destruct (remove_spec c (p1 ++ p2) id) as (? & Hr & ? & Hst & _ & _ & ?).
      { eapply wf_perm; [|done]. solve_Permutation. }
      simplify_eq. split_and!; simpl; [done| |done]. unfold buffer_size.
      change (size (states c') <= capacity c)%nat. rewrite Hst, map_size_delete.
      unfold buffer_size, states in *. destruct (_ !! id); simpl; lia.
    + destruct (flush_held_spec c p) as (? & Hf & ? & Hst & _ & _ & ?); [done..|]. simplify_eq.
      split_and!; simpl; [done| |done]. unfold buffer_size, states in *. by rewrite Hst.
Qed.

(** No transaction is lost or duplicated. In every state a scheduler can
    drive its container to, the ids of the slab are exactly the queued ids, the
    held ids and the ids the scheduler has taken out, each once; queued and held
    ids have their transaction and their priority; and the slab never holds more
    than the capacity. *)
Lemma container_conserves n s :
  reachable (initial n) step s ->
  let c := container s in
  map pid_id (queued c) ++ map pid_id (held_transactions c) ++ pending s ≡ₚ keys (states c) /\
  NoDup (map pid_id (queued c) ++ map pid_id (held_transactions c) ++ pending s) /\
  Forall (available c) (queued c ++ held_transactions c) /\
  (buffer_size c <= n)%nat.
Proof.
  intros ([Hk Ha _] & Hsz & _)%session_reachable c. fold c in Hk, Ha, Hsz.
  split_and!; [done| |done|done]. rewrite Hk. apply NoDup_keys.
Qed.

(** Inserting keeps the best. In every reachable state a new transaction is
    accepted without a panic; one transaction is dropped exactly when the
    container was full, which is what the returned flag says, and it is the
    lowest of the queued transactions and the new one. *)
Lemma insert_keeps_highest n s tx ma pr co :
  reachable (initial n) step s ->
  let c := container s in
  exists b c' dropped k, insert_new_transaction c tx ma pr co = Some (b, c') /\
    states c !! k = None /\
    PriorityId pr k :: queued c ≡ₚ dropped ++ queued c' /\
    length dropped = (if decide (buffer_size c = n) then 1 else 0)%nat /\
    b = bool_decide (buffer_size c = n) /\
    (forall x y, x ∈ dropped -> y ∈ queued c' -> pid_le x y = true).
Proof.
  intros (Hwf & Hsz & Hc)%session_reachable c. fold c in Hwf, Hsz, Hc. rewrite <- Hc in *.
  destruct (insert_new_spec c (pending s) tx ma pr co Hwf Hsz)
    as (b & c' & dropped & k & ? & _ & _ & _ & ? & ? & ? & ? & ? & _ & _). by exists b, c', dropped, k.
Qed.

(** The container never panics under its client. In every reachable state:
    popping returns the highest queued id; removing a pending id, flushing the
    held ids, and retrying a pending id whose transaction was scheduled all
    succeed; and the retried transaction is back in the queue or among the held
    ids with its old priority. *)
Lemma container_total n s :
  reachable (initial n) step s ->
  let c := container s in
  (queued c <> [] -> exists x c', pop c = (Some x, c') /\
     queued c ≡ₚ x :: queued c' /\ forall y, y ∈ queued c -> pid_le y x = true) /\
  (exists c', flush_held_transactions c = Some c' /\
     queued c' ≡ₚ held_transactions c ++ queued c /\ held_transactions c' = []) /\
  (forall id, id ∈ pending s ->
     (exists c', remove_by_id c id = Some c' /\ states c' = delete id (states c)) /\
     forall st tx imm, states c !! id = Some st -> transaction st = None ->
       exists c', retry_transaction c id tx imm = Some c' /\
         available c' (PriorityId (priority st) id) /\
         PriorityId (priority st) id ∈ (if imm : bool then queued c' else held_transactions c')).
Proof.
  intros (Hwf & Hsz & Hc)%session_reachable c. fold c in Hwf, Hsz, Hc. rewrite <- Hc in *. split_and!.
  - intros Hq. destruct (pop c) as [[x|] c'] eqn:Hp; [|by apply pop_none in Hp as [? _]].
    eapply pop_spec in Hp as (_ & ? & _ & ? & _); [|done]. eauto.
  - destruct (flush_held_spec c (pending s) Hwf Hsz) as (c' & ? & _ & _ & ? & ? & _). eauto.
  - intros id Hid. apply list_elem_of_split in Hid as (p1 & p2 & Hp). rewrite Hp in Hwf.
    assert (wf c (id :: p1 ++ p2)) as Hwf' by (eapply wf_perm; [|done]; solve_Permutation). split.
    + destruct (remove_spec c (p1 ++ p2) id Hwf') as (c' & ? & _ & ? & _). eauto.
    + intros st tx imm Hst Htx.
      destruct (retry_spec c (p1 ++ p2) id tx imm st Hwf' Hst Htx Hsz) as (c' & ? & _ & Hst' & _ & _ & Hq).
      exists c'. split_and!; [done|..].
      * eexists. rewrite Hst'. simpl. rewrite lookup_insert_eq. eauto.
      * destruct imm; destruct Hq as [Hq Hh]; [rewrite Hq; left|rewrite Hh; apply elem_of_app; right; left].
Qed.

End Container.

(** ** Examples: lists as heaps, finite maps as slabs *)
Module SampleStructures.

Fixpoint select {T} (le : T -> T -> bool) (l : list T) : option (T * list T) :=
  match l with
  | [] => None
  | x :: l' => match select le l' with
               | None => Some (x, [])
               | Some (y, r) => if le y x then Some (x, l') else Some (y, x :: r)
               end
  end.

Lemma select_none {T} (le : T -> T -> bool) l : select le l = None -> l = [].
Proof. destruct l as [|x l]; [done|]. simpl. destruct (select le l) as [[]|]; [destruct (le _ _)|]; done. Qed.

Lemma select_some {T} (le : T -> T -> bool) l x r :
  (forall a, le a a = true) -> (forall a b, le a b = true \/ le b a = true) ->
  (forall a b c, le a b = true -> le b c = true -> le a c = true) ->
  select le l = Some (x, r) -> l ≡ₚ x :: r /\ forall y, y ∈ l -> le y x = true.
Proof.
  intros Hrefl Htot Htrans. revert x r. induction l as [|z l IH]; intros x r Hs; simpl in Hs; [done|].
  destruct (select le l) as [[y r']|] eqn:Hl.
  - destruct (IH y r' eq_refl) as [Hp Hle]. destruct (le y z) eqn:Hyz; simplify_eq.
    + split; [done|]. intros w [->|Hw]%elem_of_cons; [done|]. by eapply Htrans; [apply Hle|].
    + split; [by rewrite Hp; apply Permutation_swap|].
      intros w [->|Hw]%elem_of_cons; [|by apply Hle]. destruct (Htot z x); [done|congruence].
  - apply select_none in Hl as ->. simplify_eq. split; [done|]. intros w ->%list_elem_of_singleton. done.
Qed.

Lemma select_max_some l x r :
  select pid_le l = Some (x, r) -> l ≡ₚ x :: r /\ forall y, y ∈ l -> pid_le y x = true.
Proof. apply select_some; eauto using pid_le_refl, pid_le_total, pid_le_trans. Qed.

Lemma select_min_some l x r :
  select (fun a b => pid_le b a) l = Some (x, r) ->
  l ≡ₚ x :: r /\ forall y, y ∈ l -> pid_le x y = true.
Proof.
  apply (select_some (fun a b => pid_le b a)); eauto using pid_le_refl, pid_le_total, pid_le_trans.
Qed.

#[export] Instance list_heap : MinMaxHeap TransactionPriorityId pid_le := {|
  heap := list TransactionPriorityId; heap_elems l := l; heap_empty := [];
  heap_push l x := x :: l;
  heap_pop_max := select pid_le;
  heap_pop_min := select (fun a b => pid_le b a);
  heap_elems_empty := eq_refl;
  heap_elems_push l x := Permutation_refl (x :: l);
  heap_pop_max_none := select_none pid_le;
  heap_pop_max_some := select_max_some;
  heap_pop_min_none := select_none (fun a b => pid_le b a);
  heap_pop_min_some := select_min_some
|}.

Lemma max_key_vacant {A} (m : gmap nat A) : m !! S (max_list (keys m)) = None.
Proof. apply eq_None_not_Some. intros Hs%elem_of_keys. apply max_list_elem_of_le in Hs. lia. Qed.

Definition map_slab_remove {A} (s : gmap nat A * nat) (k : nat) : option (gmap nat A * nat) :=
  match s.1 !! k with Some _ => Some (delete k s.1, s.2) | None => None end.

Lemma map_slab_remove_none {A} (s : gmap nat A * nat) k : s.1 !! k = None -> map_slab_remove s k = None.
Proof. unfold map_slab_remove. by intros ->. Qed.

Lemma map_slab_remove_some {A} (s : gmap nat A * nat) k :
  is_Some (s.1 !! k) ->
  exists s', map_slab_remove s k = Some s' /\ s'.1 = delete k s.1 /\ s'.2 = s.2.
Proof. unfold map_slab_remove. intros [a ->]. eauto. Qed.

#[export] Instance map_slab {A} : Slab A := {|
  slab := gmap nat A * nat; slab_map s := s.1; slab_capacity s := s.2;
  slab_with_capacity n := (∅, n);
  slab_vacant_key s := S (max_list (keys s.1));
  slab_insert s a := (<[S (max_list (keys s.1)) := a]> s.1, s.2);
  slab_set s k a := (<[k := a]> s.1, s.2);
  slab_remove := map_slab_remove;
  slab_map_with_capacity n := eq_refl;
  slab_capacity_with_capacity n := Nat.le_refl n;
  slab_vacant s := max_key_vacant s.1;
  slab_map_insert s a := eq_refl;
  slab_capacity_insert s a := Nat.le_refl s.2;
  slab_map_set s k a _ := eq_refl;
  slab_capacity_set s k a := eq_refl;
  slab_remove_none := map_slab_remove_none;
  slab_remove_some := map_slab_remove_some
|}.

End SampleStructures.

(** ** Examples *)
Section Example.
Import SampleStructures.

(** Capacity two: three insertions drop the lowest; the best is popped and scheduled. *)
Abbreviation sample_container := (TransactionStateContainer (Tx := nat) (MaxAge := nat)).

Definition sample_insert (c : sample_container) (tx : nat) (pr : Z) : sample_container :=
  match insert_new_transaction c tx 0%nat pr 1 with Some (_, c') => c' | None => c end.

Definition sample_full : sample_container :=
  sample_insert (sample_insert (sample_insert (with_capacity 2) 10 5) 11 2) 12 7.

Definition sample_scheduled : sample_container :=
  set_transaction_state (pop sample_full).2 3 (TState None 0%nat 7 1).

Lemma container_sample_insert c p tx pr :
  is_Some (insert_new_transaction c tx 0%nat pr 1) ->
  step (Session c p) (Session (sample_insert c tx pr) p).
Proof.
  intros [[b c'] Hi]. unfold sample_insert. rewrite Hi. by eapply step_insert.
Qed.

Lemma is_Some_true {A} (o : option A) : match o with Some _ => true | None => false end = true -> is_Some o.
Proof. by destruct o; eauto. Qed.

Lemma sample_session :
  reachable (initial 2) step (Session sample_scheduled [3%nat]) /\
  states sample_scheduled !! 3%nat = Some (TState None 0%nat 7 1).
Proof.
  split; [|vm_compute; reflexivity].
  eapply reachable_step; [eapply reachable_step; [eapply reachable_step; [eapply reachable_step;
    [eapply reachable_step; [by apply reachable_init|]|]|]|]|].
  - apply (container_sample_insert _ _ 10 5), is_Some_true. vm_compute. reflexivity.
  - apply (container_sample_insert _ _ 11 2), is_Some_true. vm_compute. reflexivity.
  - apply (container_sample_insert _ _ 12 7), is_Some_true. vm_compute. reflexivity.
  - apply (step_pop sample_full [] (PriorityId 7 3) (pop sample_full).2).
    rewrite (surjective_pairing (pop sample_full)). f_equal.
  - eapply (step_schedule (pop sample_full).2 _ 3%nat (TState (Some 12%nat) 0%nat 7 1));
      [left|vm_compute; reflexivity|reflexivity].
Qed.

End Example.
End Container.
