(* ===== verification/SchedulerCommon.v ===== *)
(** * What the central schedulers share

    [core/src/banking_stage/transaction_scheduler/]: [in_flight_tracker.rs] and
    [batch_id_generator.rs] (module [Tracker]), [scheduler_common.rs] (modules
    [Batching] and [Common]: the per-thread batches, thread selection, sending
    batches to the workers, receiving completed ones). Channels are
    third-party ([crossbeam_channel]): a sender is the interface [Channel], and
    the message a receive returns is an argument. Panics are [None]. *)

From S2P Require Import Prelude Accounts ThreadAwareLocks StateContainer.
Import ThreadSets.

(** ** Batches in flight *)
Module Tracker.

Record BatchEntry : Type := Entry { thread_id : nat; num_transactions : Z; entry_cus : Z }.

Record InFlightTracker : Type := InFlight {
  num_in_flight_per_thread : list Z;
  cus_in_flight_per_thread : list Z;
  tracked : gmap Z BatchEntry;
  next_id : Z
}.

Definition new (num_threads : nat) : InFlightTracker :=
  InFlight (replicate num_threads 0) (replicate num_threads 0) ∅ 0.

(** [BatchIdGenerator::next] counts down from 0 with wrap-around. *)
Definition generate (next_id : Z) : Z * Z := (next_id, wsub 64 next_id 1).

Definition track_batch (self : InFlightTracker) (num_transactions total_cus : Z) (thread_id : nat) :
    option (Z * InFlightTracker) :=
  let '(batch_id, next_id) := generate (next_id self) in
  num ← num_in_flight_per_thread self !! thread_id;
  cus ← cus_in_flight_per_thread self !! thread_id;
  Some (batch_id,
    InFlight (<[thread_id := wadd 64 num num_transactions]> (num_in_flight_per_thread self))
      (<[thread_id := wadd 64 cus total_cus]> (cus_in_flight_per_thread self))
      (<[batch_id := Entry thread_id num_transactions total_cus]> (tracked self)) next_id).

Definition complete_batch (self : InFlightTracker) (batch_id : Z) : option (nat * InFlightTracker) :=
  e ← tracked self !! batch_id;
  num ← num_in_flight_per_thread self !! thread_id e;
  cus ← cus_in_flight_per_thread self !! thread_id e;
  Some (thread_id e,
    InFlight (<[thread_id e := wsub 64 num (num_transactions e)]> (num_in_flight_per_thread self))
      (<[thread_id e := wsub 64 cus (entry_cus e)]> (cus_in_flight_per_thread self))
      (delete batch_id (tracked self)) (next_id self)).

(** ** What the tracker stands for *)

Definition on_thread (t : nat) (f : BatchEntry -> Z) (p : Z * BatchEntry) : Z :=
  if decide (thread_id p.2 = t) then f p.2 else 0.

Lemma on_thread_pair t f id e :
  on_thread t f (id, e) = if decide (thread_id e = t) then f e else 0.
Proof. done. Qed.

(** The tracker of the batches [l], after [gen] batch ids have been generated. *)
Record tracks (n : nat) (gen : Z) (self : InFlightTracker) (l : list (Z * BatchEntry)) : Prop := {
  tr_num_len : length (num_in_flight_per_thread self) = n;
  tr_cus_len : length (cus_in_flight_per_thread self) = n;
  tr_num : forall t, (t < n)%nat ->
    num_in_flight_per_thread self !! t = Some (wrap 64 (Zsum (on_thread t num_transactions) l));
  tr_cus : forall t, (t < n)%nat ->
    cus_in_flight_per_thread self !! t = Some (wrap 64 (Zsum (on_thread t entry_cus) l));
  tr_map : forall id e, tracked self !! id = Some e <-> (id, e) ∈ l;
  tr_nodup : NoDup l.*1;
  tr_threads : Forall (fun p => (thread_id p.2 < n)%nat) l;
  tr_next : 0 <= gen /\ next_id self = wrap 64 (- gen);
  tr_ids : Forall (fun p => exists j, 0 <= j < gen /\ p.1 = wrap 64 (- j)) l
}.

Lemma tracks_perm n gen self l1 l2 : l1 ≡ₚ l2 -> tracks n gen self l1 -> tracks n gen self l2.
Proof.
  intros Hp [? ? Hnum Hcus Hmap Hnd Hth Hnext Hids]. split; try done.
  - intros t Ht. rewrite <- Hp. by apply Hnum.
  - intros t Ht. rewrite <- Hp. by apply Hcus.
  - intros id e. rewrite <- Hp. apply Hmap.
  - by rewrite <- Hp.
  - by rewrite <- Hp.
  - by rewrite <- Hp.
Qed.

Lemma tracks_new n : tracks n 0 (new n) [].
Proof.
  split; simpl; try done.
  - apply length_replicate.
  - apply length_replicate.
  - intros t Ht. by apply lookup_replicate_2.
  - intros t Ht. by apply lookup_replicate_2.
  - intros id e. rewrite lookup_empty, elem_of_nil. done.
  - constructor.
Qed.

(** Generated ids do not repeat within 2^64 generations. *)
Lemma fresh_id n gen self l :
  tracks n gen self l -> gen < 2 ^ 64 -> next_id self ∉ l.*1.
Proof.
  intros [_ _ _ _ _ _ _ [Hg Hnext] Hids] Hlt Hin. rewrite Forall_forall in Hids.
  apply list_elem_of_fmap in Hin as ([id e] & Heq & Hin). destruct (Hids _ Hin) as (j & Hj & Hid).
  simpl in *. rewrite Hnext, Hid in Heq. unfold wrap in Heq.
  assert ((gen - j) mod 2 ^ 64 = 0) as Hmod.
  { replace (gen - j) with (- j - - gen) by lia. rewrite Zminus_mod, Heq, Z.sub_diag. done. }
  rewrite Z.mod_small in Hmod by lia. lia.
Qed.

Lemma lookup_update_wadd (xs : list Z) (n t0 : nat) (f : nat -> Z) (d : Z) (op : Z -> Z -> Z) (g : Z -> Z -> Z) :
  length xs = n -> (t0 < n)%nat ->
  (forall t, (t < n)%nat -> xs !! t = Some (wrap 64 (f t))) ->
  (forall x, op (wrap 64 x) d = wrap 64 (g x d)) ->
  exists x, xs !! t0 = Some x /\ length (<[t0 := op x d]> xs) = n /\
    forall t, (t < n)%nat ->
      <[t0 := op x d]> xs !! t = Some (wrap 64 (if decide (t0 = t) then g (f t) d else f t)).
Proof.
  intros Hl Ht Hx Hop. exists (wrap 64 (f t0)). split; [by apply Hx|].
  split; [by rewrite length_insert|]. intros t Htn. case_decide as He.
  - subst. rewrite list_lookup_insert_eq by lia. by rewrite Hop.
  - rewrite list_lookup_insert_ne by done. by apply Hx.
Qed.

Lemma track_batch_spec n gen self l num cus t :
  tracks n gen self l -> (t < n)%nat -> gen < 2 ^ 64 ->
  exists id self', track_batch self num cus t = Some (id, self') /\
    tracks n (gen + 1) self' ((id, Entry t num cus) :: l).
Proof.
  intros Htr Ht Hg. pose proof (fresh_id _ _ _ _ Htr Hg) as Hfresh.
  destruct Htr as [Hnl Hcl Hnum Hcus Hmap Hnd Hth [Hg0 Hnext] Hids]. unfold track_batch. simpl.
  destruct (lookup_update_wadd _ n t _ num (wadd 64) Z.add Hnl Ht Hnum) as (x & -> & Hxl & Hx).
  { intros. by apply wadd_wrap. }
  destruct (lookup_update_wadd _ n t _ cus (wadd 64) Z.add Hcl Ht Hcus) as (y & -> & Hyl & Hy).
  { intros. by apply wadd_wrap. }
  simpl. eexists _, _. split; [done|]. split; simpl; try done.
  - intros t' Ht'. rewrite Hx by done. do 2 f_equal.
    rewrite ?Zsum_cons, !on_thread_pair. simpl. case_decide; lia.
  - intros t' Ht'. rewrite Hy by done. do 2 f_equal.
    rewrite ?Zsum_cons, !on_thread_pair. simpl. case_decide; lia.
  - intros id e. rewrite elem_of_cons, <- Hmap. destruct (decide (id = next_id self)) as [->|Hne].
    + rewrite lookup_insert_eq. split; [naive_solver|]. intros [?|Hin]; [naive_solver|].
      destruct Hfresh. apply Hmap in Hin. apply list_elem_of_fmap. by exists (next_id self, e).
    + rewrite lookup_insert_ne by done. naive_solver.
  - by constructor.
  - by constructor.
  - split; [lia|]. rewrite Hnext, wsub_wrap by lia. f_equal. lia.
  - constructor; [exists gen; split; [lia|done]|]. eapply Forall_impl; [exact Hids|].
    intros p (j & ? & ?). exists j. split; [lia|done].
Qed.

Lemma complete_batch_spec n gen self l id e :
  tracks n gen self ((id, e) :: l) ->
  exists self', complete_batch self id = Some (thread_id e, self') /\ tracks n gen self' l.
Proof.
  intros [Hnl Hcl Hnum Hcus Hmap Hnd Hth Hnext Hids]. unfold complete_batch.
  rewrite (proj2 (Hmap id e)) by left. simpl.
  apply Forall_cons in Hth as [Ht Hth]. apply Forall_cons in Hids as [_ Hids].
  simpl in Hnd. apply NoDup_cons in Hnd as [Hni Hnd]. simpl in Ht.
  destruct (lookup_update_wadd _ n (thread_id e) _ (num_transactions e) (wsub 64) Z.sub Hnl Ht Hnum)
    as (x & -> & Hxl & Hx); [intros; by apply wsub_wrap|].
  destruct (lookup_update_wadd _ n (thread_id e) _ (entry_cus e) (wsub 64) Z.sub Hcl Ht Hcus)
    as (y & -> & Hyl & Hy); [intros; by apply wsub_wrap|].
  simpl. eexists. split; [done|]. split; simpl; try done.
  - intros t' Ht'. rewrite Hx by done. do 2 f_equal.
    rewrite ?Zsum_cons, !on_thread_pair. simpl. case_decide; lia.
  - intros t' Ht'. rewrite Hy by done. do 2 f_equal.
    rewrite ?Zsum_cons, !on_thread_pair. simpl. case_decide; lia.
  - intros id' e'. destruct (decide (id' = id)) as [->|Hne].
    + rewrite lookup_delete_eq. split; [done|]. intros Hin. destruct Hni.
      apply list_elem_of_fmap. by exists (id, e').
    + rewrite lookup_delete_ne by done. rewrite Hmap, elem_of_cons. naive_solver.
Qed.

End Tracker.

(** ** Batches per thread *)
Module Batching.
Section Batching.
Context {Tx MaxAge : Type}.

(** The four parallel vectors, indexed by thread. *)
Record Batches : Type := MkBatches {
  ids : list (list nat);
  transactions : list (list Tx);
  max_ages : list (list MaxAge);
  total_cus : list Z
}.

Definition new (num_threads : nat) : Batches :=
  MkBatches (replicate num_threads []) (replicate num_threads []) (replicate num_threads [])
    (replicate num_threads 0).

Definition add_transaction_to_batch (self : Batches) (thread_id transaction_id : nat) (tx : Tx)
    (max_age : MaxAge) (cus : Z) : option Batches :=
  i ← ids self !! thread_id;
  t ← transactions self !! thread_id;
  a ← max_ages self !! thread_id;
  c ← total_cus self !! thread_id;
  Some (MkBatches (<[thread_id := i ++ [transaction_id]]> (ids self))
          (<[thread_id := t ++ [tx]]> (transactions self))
          (<[thread_id := a ++ [max_age]]> (max_ages self))
          (<[thread_id := wadd 64 c cus]> (total_cus self))).

Definition take_batch (self : Batches) (thread_id : nat) :
    option ((list nat * list Tx * list MaxAge * Z) * Batches) :=
  i ← ids self !! thread_id;
  t ← transactions self !! thread_id;
  a ← max_ages self !! thread_id;
  c ← total_cus self !! thread_id;
  Some ((i, t, a, c),
        MkBatches (<[thread_id := []]> (ids self)) (<[thread_id := []]> (transactions self))
          (<[thread_id := []]> (max_ages self)) (<[thread_id := 0]> (total_cus self))).

(** ** What the vectors stand for *)

Record scheduled : Type := Scheduled {
  s_id : nat;
  s_tx : Tx;
  s_age : MaxAge;
  s_cost : Z
}.

Definition batches_of (es : list (list scheduled)) : Batches :=
  MkBatches ((fun l : list scheduled => s_id <$> l) <$> es)
    ((fun l : list scheduled => s_tx <$> l) <$> es)
    ((fun l : list scheduled => s_age <$> l) <$> es)
    ((fun l : list scheduled => wrap 64 (Zsum s_cost l)) <$> es).

Lemma batches_of_new n : new n = batches_of (replicate n []).
Proof. unfold new, batches_of. by rewrite !fmap_replicate. Qed.

Lemma add_spec es t l e :
  es !! t = Some l ->
  add_transaction_to_batch (batches_of es) t (s_id e) (s_tx e) (s_age e) (s_cost e) =
  Some (batches_of (<[t := l ++ [e]]> es)).
Proof.
  intros Hl. unfold add_transaction_to_batch, batches_of. simpl.
  rewrite !list_lookup_fmap, Hl. simpl. rewrite !list_fmap_insert, !fmap_app. simpl.
  rewrite wadd_wrap, Zsum_app by lia. simpl. by rewrite Z.add_0_r.
Qed.

Lemma take_spec es t l :
  es !! t = Some l ->
  take_batch (batches_of es) t =
  Some ((s_id <$> l, s_tx <$> l, s_age <$> l, wrap 64 (Zsum s_cost l)), batches_of (<[t := []]> es)).
Proof.
  intros Hl. unfold take_batch, batches_of. simpl. rewrite !list_lookup_fmap, Hl. simpl.
  by rewrite !list_fmap_insert.
Qed.

(** ** Thread selection *)

(** A thread with its compute units and transactions queued or in flight. *)
Definition load (batch_cus in_flight_cus : list Z) (batches : list (list Tx)) (in_flight : list Z)
    (thread_id : nat) : option (nat * Z * Z) :=
  bc ← batch_cus !! thread_id;
  ic ← in_flight_cus !! thread_id;
  b ← batches !! thread_id;
  f ← in_flight !! thread_id;
  Some (thread_id, wadd 64 bc ic, wadd 64 (Z.of_nat (length b)) f).

(** [a.1.cmp(&b.1).then_with(|| a.2.cmp(&b.2))] is [Greater]. *)
Definition load_gt (a b : nat * Z * Z) : bool :=
  (b.1.2 <? a.1.2) || ((a.1.2 =? b.1.2) && (b.2 <? a.2)).

(** [Iterator::min_by]: the first of the minimal elements. *)
Definition min_load (l : list (nat * Z * Z)) : option (nat * Z * Z) :=
  match l with
  | [] => None
  | a :: l => Some (foldl (fun m b => if load_gt m b then b else m) a l)
  end.

Definition select_thread (thread_set : ThreadSet) (batch_cus in_flight_cus : list Z)
    (batches : list (list Tx)) (in_flight : list Z) : option nat :=
  l ← mapM (load batch_cus in_flight_cus batches in_flight) (contained_threads_iter thread_set);
  m ← min_load l;
  Some m.1.1.

Lemma load_gt_trans a b c : load_gt a b = false -> load_gt b c = false -> load_gt a c = false.
Proof.
  unfold load_gt. rewrite !orb_false_iff, !andb_false_iff, !Z.ltb_ge, !Z.eqb_neq. lia.
Qed.

Lemma load_gt_asym a b : load_gt a b = true -> load_gt b a = false.
Proof.
  unfold load_gt. rewrite orb_true_iff, orb_false_iff, andb_true_iff, andb_false_iff,
    !Z.ltb_lt, !Z.ltb_ge, !Z.eqb_eq, !Z.eqb_neq. lia.
Qed.

Lemma load_gt_irrefl a : load_gt a a = false.
Proof. unfold load_gt. by rewrite !Z.ltb_irrefl, andb_false_r. Qed.

(** The minimum is no greater than any element and strictly less than every earlier one. *)
Lemma min_load_fold l : forall a,
  let m := foldl (fun m b => if load_gt m b then b else m) a l in
  (forall x, x ∈ a :: l -> load_gt m x = false) /\
  exists l1 l2, a :: l = l1 ++ m :: l2 /\ forall x, x ∈ l1 -> load_gt x m = true.
Proof.
  induction l as [|b l IH] using rev_ind; intros a; simpl.
  - split; [|by exists [], []; split; [|intros x ?%not_elem_of_nil]].
    intros x ->%list_elem_of_singleton. apply load_gt_irrefl.
  - rewrite foldl_snoc. destruct (IH a) as [Hmin (l1 & l2 & Hl & Hlt)].
    set (m := foldl _ a l) in *. rewrite (app_comm_cons l [b] a). destruct (load_gt m b) eqn:Hmb.
    + assert (forall x, x ∈ a :: l -> load_gt x b = true) as Hall.
      { intros x Hx. destruct (load_gt x b) eqn:Hxb; [done|].
        rewrite (load_gt_trans m x b (Hmin x Hx) Hxb) in Hmb. done. }
      split; [|by exists (a :: l), []].
      intros x [Hx|Hx]%elem_of_app; [by apply load_gt_asym, Hall|].
      apply list_elem_of_singleton in Hx as ->. apply load_gt_irrefl.
    + split; [|exists l1, (l2 ++ [b]); rewrite Hl, <- app_assoc; done].
      intros x [Hx|Hx]%elem_of_app; [by apply Hmin|]. apply list_elem_of_singleton in Hx as ->. done.
Qed.

(** The loads [select_thread] compares, for threads within range. *)
Definition cus_of (batch_cus in_flight_cus : list Z) (t : nat) : Z :=
  wadd 64 (default 0 (batch_cus !! t)) (default 0 (in_flight_cus !! t)).
Definition num_of (batches : list (list Tx)) (in_flight : list Z) (t : nat) : Z :=
  wadd 64 (Z.of_nat (length (default [] (batches !! t)))) (default 0 (in_flight !! t)).

Lemma loads_defined bc ic (b : list (list Tx)) f n ts :
  length bc = n -> length ic = n -> length b = n -> length f = n ->
  Forall (fun t => (t < n)%nat) ts ->
  mapM (load bc ic b f) ts = Some (map (fun t => (t, cus_of bc ic t, num_of b f t)) ts).
Proof.
  intros Hbc Hic Hb Hf Hts. apply mapM_Some. induction Hts as [|t ts Ht _ IH]; [constructor|].
  constructor; [|done]. unfold load, cus_of, num_of.
  destruct (lookup_lt_is_Some_2 bc t) as [x ->]; [lia|].
  destruct (lookup_lt_is_Some_2 ic t) as [y ->]; [lia|].
  destruct (lookup_lt_is_Some_2 b t) as [z ->]; [lia|].
  destruct (lookup_lt_is_Some_2 f t) as [w ->]; [lia|]. done.
Qed.

Lemma select_thread_spec s bc ic (b : list (list Tx)) f n :
  wf s -> is_empty s = false -> length bc = n -> length ic = n -> length b = n -> length f = n ->
  (forall t, (t < 64)%nat -> contains s t = true -> (t < n)%nat) ->
  exists t, select_thread s bc ic b f = Some t /\ (t < 64)%nat /\ contains s t = true /\
    forall t', (t' < 64)%nat -> contains s t' = true ->
      cus_of bc ic t < cus_of bc ic t' \/
      (cus_of bc ic t = cus_of bc ic t' /\
       (num_of b f t < num_of b f t' \/ (num_of b f t = num_of b f t' /\ (t <= t')%nat))).
Proof.
  intros Hwf Hne Hbc Hic Hb Hf Hlt.
  assert (forall t, t ∈ bits s <-> (t < 64)%nat /\ contains s t = true) as Hbits.
  { intros t. rewrite elem_bits. split; intros [Ht Hc]; (split; [done|]); by rewrite contains_mem in * by done. }
  unfold select_thread, contained_threads_iter.
  rewrite contained_threads_bits; [|done|].
  2: { unfold bits. etrans; [apply length_filter|]. by rewrite length_seq. }
  rewrite (loads_defined bc ic b f n); [|done..|].
  2: { apply Forall_forall. intros t [? ?]%Hbits. auto. }
  pose proof (StronglySorted_bits s) as Hsorted. simpl.
  destruct (bits s) as [|t0 ts] eqn:Hbs; [apply bits_nil in Hbs; [by subst|done]|]. simpl.
  set (g := fun t => (t, cus_of bc ic t, num_of b f t)).
  destruct (min_load_fold (map g ts) (g t0)) as [Hmin (l1 & l2 & Hl & Hbefore)].
  set (m := foldl _ _ _) in *.
  assert (m ∈ map g (t0 :: ts)) as (t & Hm & Ht)%list_elem_of_fmap.
  { simpl. rewrite Hl. apply elem_of_app. right. left. }
  rewrite Hm. simpl. exists t. pose proof (proj1 (Hbits t) Ht) as [Ht64 Hct].
  split_and!; [done|done|done|]. intros t' Ht' Hc'.
  assert (t' ∈ t0 :: ts) as Hin by (by apply Hbits).
  specialize (Hmin (g t') ltac:(apply (list_elem_of_fmap_2 g (t0 :: ts)); done)). rewrite Hm in Hmin.
  destruct (decide (t <= t')%nat) as [Hle|Hgt].
  - unfold load_gt in Hmin. simpl in Hmin.
    rewrite orb_false_iff, andb_false_iff, !Z.ltb_ge, Z.eqb_neq in Hmin. lia.
  - assert (g t' ∈ l1) as Hl1.
    { assert (g t' ∈ l1 ++ m :: l2) as Hg by (rewrite <- Hl; by apply (list_elem_of_fmap_2 g (t0 :: ts))).
      apply elem_of_app in Hg as [|Hg]; [done|]. exfalso.
      assert (exists u1 u2, t0 :: ts = u1 ++ t :: u2 /\ map g u2 = l2) as (u1 & u2 & Hu & Hu2).
      { change (g t0 :: map g ts) with (map g (t0 :: ts)) in Hl.
        apply map_eq_app in Hl as (u1 & v & Hu & _ & Hv). apply map_eq_cons in Hv as (x & u2 & -> & Hx & Hu2).
        exists u1, u2. split; [|done]. rewrite Hu. do 2 f_equal. rewrite Hm in Hx. by injection Hx. }
      rewrite Hu in Hsorted. apply elem_of_cons in Hg as [Hg|Hg].
      - rewrite Hm in Hg. injection Hg. lia.
      - rewrite <- Hu2 in Hg. apply list_elem_of_fmap in Hg as (x & Hx & Hxin). injection Hx as ->.
        pose proof (StronglySorted_after _ _ _ _ _ Hsorted Hxin). lia. }
    specialize (Hbefore _ Hl1). rewrite Hm in Hbefore. unfold load_gt in Hbefore. simpl in Hbefore.
    rewrite orb_true_iff, andb_true_iff, !Z.ltb_lt, Z.eqb_eq in Hbefore. lia.
Qed.

(** The selector the schedulers pass to the lock table is a valid one. *)
Lemma select_thread_valid bc ic (b : list (list Tx)) f n :
  length bc = n -> length ic = n -> length b = n -> length f = n ->
  Locks.valid_selector n (fun s => select_thread s bc ic b f).
Proof.
  intros Hbc Hic Hb Hf s Hwf Hne Hlt.
  destruct (select_thread_spec s bc ic b f n) as (t & ? & ? & ? & _); [done..|]. eauto.
Qed.

(** the least loaded thread is selected. For a non-empty set of existing
    threads [select_thread] does not panic; it returns a member whose compute
    units (queued and in flight) are minimal, whose transaction count is minimal
    among those, and which is the lowest-numbered of the remaining ties. *)
Theorem select_thread_least_loaded s bc ic (b : list (list Tx)) f n :
  wf s -> is_empty s = false -> length bc = n -> length ic = n -> length b = n -> length f = n ->
  (forall t, (t < 64)%nat -> contains s t = true -> (t < n)%nat) ->
  exists t, select_thread s bc ic b f = Some t /\ (t < 64)%nat /\ contains s t = true /\
    forall t', (t' < 64)%nat -> contains s t' = true ->
      cus_of bc ic t < cus_of bc ic t' \/
      (cus_of bc ic t = cus_of bc ic t' /\
       (num_of b f t < num_of b f t' \/ (num_of b f t = num_of b f t' /\ (t <= t')%nat))).
Proof. apply select_thread_spec. Qed.

End Batching.

End Batching.

(** ** Sending and receiving batches *)

(** A [crossbeam_channel::Sender], seen through the messages it has accepted;
    sending fails when the receiver is gone. *)
Class Channel (A : Type) : Type := {
  sender : Type;
  sent : sender -> list A;
  send : sender -> A -> option sender;
  send_accepts s a s' : send s a = Some s' -> sent s' = sent s ++ [a]
}.

Module Common.
Import Tracker Batching.
Section Common.
Context {Key : Type} `{Countable Key} {Tx MaxAge : Type} `{SVMMessage Key Tx}.

Inductive SchedulerError : Type := DisconnectedSendChannel | DisconnectedRecvChannel.

Record ConsumeWork : Type := Work {
  batch_id : Z;
  work_ids : list nat;
  work_transactions : list Tx;
  work_max_ages : list MaxAge;
  target_slot : Z
}.

(** Retryable indexes, each with whether it may be retried at once. *)
Record FinishedConsumeWork : Type := Finished {
  work : ConsumeWork;
  retryable_indexes : list (nat * bool)
}.

Context `{Ch : !Channel ConsumeWork}.

Record SchedulingCommon : Type := SCommon {
  consume_work_senders : list sender;
  in_flight_tracker : InFlightTracker;
  account_locks : @Locks.ThreadAwareAccountLocks Key _ _;
  batches : @Batches Tx MaxAge
}.

Definition new (senders : list sender) : option SchedulingCommon :=
  let num_threads := length senders in
  if (0 <? num_threads)%nat && (num_threads <=? MAX_THREADS)%nat then
    locks ← Locks.new num_threads;
    Some (SCommon senders (Tracker.new num_threads) locks (Batching.new num_threads))
  else None.

(** The write and read account locks of a transaction, in account order. *)
Definition write_account_locks (tx : Tx) : list Key :=
  map fst (filter (fun a => a.2 = true) (accounts_with_is_writable tx)).
Definition read_account_locks (tx : Tx) : list Key :=
  map fst (filter (fun a => a.2 = false) (accounts_with_is_writable tx)).

Definition send_batch (thread_index : nat) (slot : Z) (self : SchedulingCommon) :
    option (result SchedulerError nat * SchedulingCommon) :=
  i ← ids (batches self) !! thread_index;
  if (length i =? 0)%nat then Some (Ok 0%nat, self)
  else
    '((i, t, a, cus), batches') ← take_batch (batches self) thread_index;
    '(id, tracker') ← track_batch (in_flight_tracker self) (Z.of_nat (length i)) cus thread_index;
    s ← consume_work_senders self !! thread_index;
    match send s (Work id i t a slot) with
    | None => Some (Err DisconnectedSendChannel,
                    SCommon (consume_work_senders self) tracker' (account_locks self) batches')
    | Some s' => Some (Ok (length i),
                       SCommon (<[thread_index := s']> (consume_work_senders self)) tracker'
                         (account_locks self) batches')
    end.

(** The sum of the results over the threads, which stops at the first error. *)
Fixpoint send_each (threads : list nat) (slot : Z) (self : SchedulingCommon) :
    option (result SchedulerError nat * SchedulingCommon) :=
  match threads with
  | [] => Some (Ok 0%nat, self)
  | t :: threads =>
      '(r, self') ← send_batch t slot self;
      match r with
      | Err e => Some (Err e, self')
      | Ok n =>
          '(r', self'') ← send_each threads slot self';
          Some (match r' with Ok m => Ok (n + m)%nat | Err e => Err e end, self'')
      end
  end.

Definition send_batches (slot : Z) (self : SchedulingCommon) :
    option (result SchedulerError nat * SchedulingCommon) :=
  send_each (seq 0 (length (consume_work_senders self))) slot self.

Definition complete_batch (id : Z) (txs : list Tx) (self : SchedulingCommon) :
    option SchedulingCommon :=
  '(thread_id, tracker') ← Tracker.complete_batch (in_flight_tracker self) id;
  locks' ← foldM (fun locks tx =>
             Locks.unlock_accounts locks (write_account_locks tx) (read_account_locks tx) thread_id)
             (account_locks self) txs;
  Some (SCommon (consume_work_senders self) tracker' locks' (batches self)).

Section WithContainer.
Context `{Heap : !MinMaxHeap TransactionPriorityId pid_le}.
Context `{Sl : !Slab (State.TransactionState Tx MaxAge)}.

(** The loop over the finished transactions, with the peekable iterator over
    the retryable indexes. *)
Fixpoint finish_transactions (index : nat) (retryable : list (nat * bool)) (txs : list (nat * Tx))
    (container : Container.TransactionStateContainer) : option Container.TransactionStateContainer :=
  match txs with
  | [] => Some container
  | (id, tx) :: txs =>
      match retryable with
      | (i, immediately) :: rest =>
          if (i =? index)%nat then
            container' ← Container.retry_transaction container id tx immediately;
            finish_transactions (S index) rest txs container'
          else
            container' ← Container.remove_by_id container id;
            finish_transactions (S index) retryable txs container'
      | [] =>
          container' ← Container.remove_by_id container id;
          finish_transactions (S index) retryable txs container'
      end
  end.

(** The answers of [try_recv]. *)
Inductive received : Type :=
| Received (w : FinishedConsumeWork)
| Empty
| Disconnected.

Definition try_receive_completed (message : received) (self : SchedulingCommon)
    (container : Container.TransactionStateContainer) :
    option (result SchedulerError (nat * nat) * SchedulingCommon * Container.TransactionStateContainer) :=
  match message with
  | Received (Finished w retryable) =>
      self' ← complete_batch (batch_id w) (work_transactions w) self;
      container' ← finish_transactions 0 retryable (zip (work_ids w) (work_transactions w)) container;
      Some (Ok (length (work_ids w), length retryable), self', container')
  | Empty => Some (Ok (0%nat, 0%nat), self, container)
  | Disconnected => Some (Err DisconnectedRecvChannel, self, container)
  end.

End WithContainer.

(** ** The state behind the vectors, tables and counters *)

Abbreviation scheduled := (@Batching.scheduled Tx MaxAge).

(** A batch in flight: its thread, its work and the cost it was tracked with. *)
Record flight : Type := Flight { f_thread : nat; f_work : ConsumeWork; f_cus : Z }.

Definition keys_of (tx : Tx) : list Key * list Key := (write_account_locks tx, read_account_locks tx).

Definition flight_locks (f : flight) : list (nat * (list Key * list Key)) :=
  map (fun tx => (f_thread f, keys_of tx)) (work_transactions (f_work f)).

Definition batch_locks (t : nat) (es : list scheduled) : list (nat * (list Key * list Key)) :=
  map (fun e => (t, keys_of (s_tx e))) es.

(** The transactions that hold locks: those in batches and those in flight. *)
Definition outstanding (entries : list (list scheduled)) (flights : list flight) :
    list (nat * (list Key * list Key)) :=
  concat (imap batch_locks entries) ++ concat (map flight_locks flights).

Definition flight_entry (f : flight) : Z * BatchEntry :=
  (batch_id (f_work f), Entry (f_thread f) (Z.of_nat (length (work_ids (f_work f)))) (f_cus f)).

Record common_inv (n : nat) (gen : Z) (self : SchedulingCommon) (entries : list (list scheduled))
    (flights : list flight) : Prop := {
  ci_senders : length (consume_work_senders self) = n;
  ci_threads : Locks.num_threads (account_locks self) = n;
  ci_entries : length entries = n;
  ci_batches : batches self = batches_of entries;
  ci_tracker : tracks n gen (in_flight_tracker self) (map flight_entry flights);
  ci_locks : Locks.inv (account_locks self) (Locks.held_of (outstanding entries flights))
}.

(** [self'] has handed the works [new] to the senders of [self]. *)
Definition handed (self self' : SchedulingCommon) (new : list flight) : Prop :=
  forall t s, consume_work_senders self !! t = Some s ->
    exists s', consume_work_senders self' !! t = Some s' /\
      sent s' = sent s ++ map f_work (filter (fun f => f_thread f = t) new).

(** The work made of the entries [es]. *)
Definition work_of (es : list scheduled) (slot : Z) (f : flight) : Prop :=
  work_ids (f_work f) = s_id <$> es /\ work_transactions (f_work f) = s_tx <$> es /\
  work_max_ages (f_work f) = s_age <$> es /\ target_slot (f_work f) = slot.

(** ** Entries and flights *)

Lemma tx_accesses_keys tx : Locks.tx_accesses (keys_of tx) ≡ₚ accounts_with_is_writable tx.
Proof.
  unfold Locks.tx_accesses, keys_of, write_account_locks, read_account_locks. simpl.
  induction (accounts_with_is_writable tx) as [|[k []] l IH]; [done|..]; rewrite !filter_cons; simpl.
  - by rewrite IH.
  - by rewrite <- Permutation_middle, IH.
Qed.

(** Replacing the entries of one thread. *)
Lemma outstanding_thread entries t es flights :
  entries !! t = Some es ->
  exists rest, (forall es', outstanding (<[t := es']> entries) flights ≡ₚ batch_locks t es' ++ rest) /\
    outstanding entries flights ≡ₚ batch_locks t es ++ rest.
Proof.
  intros Ht. apply list_elem_of_split_length in Ht as (l1 & l2 & -> & ->).
  exists (concat (imap batch_locks l1) ++ concat (imap (fun i => batch_locks (length l1 + S i)) l2) ++
          concat (map flight_locks flights)).
  assert (forall es', outstanding (l1 ++ es' :: l2) flights ≡ₚ batch_locks (length l1) es' ++
    concat (imap batch_locks l1) ++ concat (imap (fun i => batch_locks (length l1 + S i)) l2) ++
    concat (map flight_locks flights)) as Hgen.
  { intros es'. unfold outstanding. rewrite imap_app, concat_app. simpl. rewrite Nat.add_0_r. solve_Permutation. }
  split; [|apply Hgen]. intros es'. rewrite insert_app_r_alt by lia.
  rewrite Nat.sub_diag. simpl. apply Hgen.
Qed.

Lemma concat_thread {A} (entries : list (list A)) t es es' :
  entries !! t = Some es ->
  exists rest, concat (<[t := es']> entries) ≡ₚ es' ++ rest /\ concat entries ≡ₚ es ++ rest.
Proof.
  intros Ht. apply list_elem_of_split_length in Ht as (l1 & l2 & -> & ->).
  exists (concat l1 ++ concat l2). rewrite insert_app_r_alt by lia. rewrite Nat.sub_diag. simpl.
  rewrite !concat_app. simpl. split; solve_Permutation.
Qed.

Lemma outstanding_flights entries f flights :
  outstanding entries (f :: flights) ≡ₚ flight_locks f ++ outstanding entries flights.
Proof. unfold outstanding. simpl. solve_Permutation. Qed.

Lemma held_of_perm (l1 l2 : list (nat * (list Key * list Key))) :
  l1 ≡ₚ l2 -> Locks.held_of l1 ≡ₚ Locks.held_of l2.
Proof. intros Hp. unfold Locks.held_of. rewrite <- !flat_map_concat_map. by rewrite Hp. Qed.

Lemma flight_locks_of es slot f :
  work_of es slot f -> flight_locks f = batch_locks (f_thread f) es.
Proof.
  intros (_ & Htx & _). unfold flight_locks, batch_locks. rewrite Htx.
  change (s_tx <$> es) with (map s_tx es). by rewrite map_map.
Qed.

Lemma handed_refl self : handed self self [].
Proof. intros t s Hs. exists s. simpl. by rewrite app_nil_r. Qed.

Lemma handed_trans a b c l1 l2 : handed a b l1 -> handed b c l2 -> handed a c (l1 ++ l2).
Proof.
  intros H1' H2' t s Hs. destruct (H1' t s Hs) as (s1 & Hs1 & Hsent1).
  destruct (H2' t s1 Hs1) as (s2 & Hs2 & Hsent2). exists s2. split; [done|].
  by rewrite Hsent2, Hsent1, filter_app, map_app, app_assoc.
Qed.

Lemma common_inv_perm n gen self entries f1 f2 :
  f1 ≡ₚ f2 -> common_inv n gen self entries f1 -> common_inv n gen self entries f2.
Proof.
  intros Hp [Hs Hth He Hb Htr Hl]. split; try done.
  - eapply tracks_perm; [|exact Htr]. by rewrite Hp.
  - assert (outstanding entries f1 ≡ₚ outstanding entries f2) as Ho.
    { unfold outstanding. rewrite <- !(flat_map_concat_map flight_locks). by rewrite Hp. }
    by rewrite <- (held_of_perm _ _ Ho).
Qed.

(** ** Sending *)

Lemma send_batch_spec n gen self entries flights t es slot :
  common_inv n gen self entries flights -> entries !! t = Some es ->
  gen + Z.of_nat (length es) <= 2 ^ 64 ->
  exists r self', send_batch t slot self = Some (r, self') /\
    match r with
    | Err _ => True
    | Ok k => exists new, k = length es /\
        common_inv n (gen + Z.of_nat (length new)) self' (<[t := []]> entries) (new ++ flights) /\
        handed self self' new /\ (length new <= length es)%nat /\
        concat (map (fun f => work_ids (f_work f)) new) = s_id <$> es /\
        Forall (fun f => f_thread f = t /\ work_of es slot f /\ es <> []) new
    end.
Proof.
  intros [Hs Hth He Hb Htr Hl] Ht Hg. unfold send_batch. rewrite Hb.
  assert (t < n)%nat as Htn by (apply lookup_lt_Some in Ht; lia).
  change (ids (batches_of entries)) with ((fun l : list scheduled => s_id <$> l) <$> entries).
  rewrite list_lookup_fmap, Ht. simpl. rewrite length_fmap.
  destruct (Nat.eqb_spec (length es) 0) as [Hz|Hnz].
  - apply nil_length_inv in Hz as ->. eexists _, _. split; [done|]. exists [].
    rewrite list_insert_id, Z.add_0_r by done. split_and!; try done. apply handed_refl.
  - rewrite (take_spec entries t es Ht). simpl. rewrite length_fmap.
    destruct (track_batch_spec n gen (in_flight_tracker self) (map flight_entry flights)
      (Z.of_nat (length es)) (wrap 64 (Zsum s_cost es)) t Htr Htn ltac:(lia)) as (id & tr' & -> & Htr').
    simpl. destruct (lookup_lt_is_Some_2 (consume_work_senders self) t) as [s Hsnd]; [lia|].
    rewrite Hsnd. simpl. destruct (send s _) as [s'|] eqn:Hsend; [|by eexists _, _].
    eexists _, _. split; [done|].
    set (f := Flight t (Work id (s_id <$> es) (s_tx <$> es) (s_age <$> es) slot) (wrap 64 (Zsum s_cost es))).
    exists [f]. assert (work_of es slot f) as Hwork by done.
    split_and!; [by rewrite ?length_fmap| | | |by simpl; rewrite app_nil_r|].
    + split; simpl; [by rewrite length_insert|done|by rewrite length_insert|done| |].
      * unfold flight_entry at 1. simpl. by rewrite length_fmap.
      * destruct (outstanding_thread entries t es flights Ht) as (rest & Hrest & Hall).
        assert (outstanding (<[t:=[]]> entries) (f :: flights) ≡ₚ outstanding entries flights) as Hp.
        { rewrite outstanding_flights, Hrest, Hall. by rewrite (flight_locks_of es slot f). }
        by rewrite (held_of_perm _ _ Hp).
    + intros t' s0 Hs0. simpl. destruct (decide (t = t')) as [<-|Hne].
      * rewrite list_lookup_insert_eq by lia. eexists. split; [done|]. rewrite Hsnd in Hs0. simplify_eq.
        rewrite (send_accepts _ _ _ Hsend). by rewrite filter_cons_True.
      * rewrite list_lookup_insert_ne by done. exists s0. split; [done|].
        rewrite filter_cons_False by done. simpl. by rewrite app_nil_r.
    + simpl. destruct es; simpl in *; lia.
    + constructor; [|done]. split_and!; [done|done|]. by intros ->.
Qed.

Definition total (entries : list (list scheduled)) : Z := Z.of_nat (length (concat entries)).

Lemma send_each_spec n slot threads : forall gen self entries flights,
  common_inv n gen self entries flights -> Forall (fun t => (t < n)%nat) threads ->
  gen + total entries <= 2 ^ 64 ->
  exists r self', send_each threads slot self = Some (r, self') /\
    match r with
    | Err _ => True
    | Ok k => exists new entries',
        common_inv n (gen + Z.of_nat (length new)) self' entries' (new ++ flights) /\
        handed self self' new /\
        Z.of_nat k + total entries' = total entries /\ (length new <= k)%nat /\
        (forall t, t ∈ threads -> entries' !! t = Some []) /\
        (forall t es, entries' !! t = Some es -> es = [] \/ entries !! t = Some es) /\
        s_id <$> concat entries ≡ₚ
          concat (map (fun f => work_ids (f_work f)) new) ++ (s_id <$> concat entries') /\
        Forall (fun f => exists es, entries !! f_thread f = Some es /\ work_of es slot f /\ es <> []) new
    end.
Proof.
  induction threads as [|t threads IH]; intros gen self entries flights Hinv Hth Hg; simpl.
  { eexists _, _. split; [done|]. exists [], entries. rewrite Z.add_0_r.
    split_and!; try done; [apply handed_refl|by intros t ?%not_elem_of_nil|by auto]. }
  apply Forall_cons in Hth as [Ht Hth].
  destruct (lookup_lt_is_Some_2 entries t) as [es Hes]; [by rewrite (ci_entries _ _ _ _ _ Hinv)|].
  destruct (concat_thread entries t es [] Hes) as (rest & Hrest & Hall).
  assert (total (<[t := []]> entries) + Z.of_nat (length es) = total entries) as Htot.
  { unfold total. rewrite Hrest, Hall, !length_app. simpl. lia. }
  assert (0 <= total (<[t := []]> entries)) by (unfold total; lia).
  destruct (send_batch_spec n gen self entries flights t es slot Hinv Hes ltac:(lia))
    as (r & self1 & -> & Hr). simpl.
  destruct r as [k|e]; [|by eexists _, _].
  destruct Hr as (new1 & -> & Hinv1 & Hh1 & Hl1 & Hid1 & Hf1).
  destruct (IH _ _ _ _ Hinv1 Hth) as (r & self2 & -> & Hr); [lia|]. simpl.
  eexists _, _. split; [done|]. destruct r as [k|e]; [|done].
  destruct Hr as (new2 & entries' & Hinv2 & Hh2 & Htot2 & Hl2 & Hin2 & Hsub2 & Hid2 & Hf2).
  exists (new1 ++ new2), entries'. split_and!.
  - rewrite length_app. replace (gen + Z.of_nat (length new1 + length new2)) with
      (gen + Z.of_nat (length new1) + Z.of_nat (length new2)) by lia.
    eapply common_inv_perm; [|exact Hinv2]. solve_Permutation.
  - by eapply handed_trans.
  - lia.
  - rewrite length_app. lia.
  - intros t' [->|Hin]%elem_of_cons; [|by apply Hin2].
    destruct (lookup_lt_is_Some_2 entries' t) as [es' Hes']; [by rewrite (ci_entries _ _ _ _ _ Hinv2)|].
    rewrite Hes'. destruct (Hsub2 t es' Hes') as [->|Hx]; [done|].
    rewrite list_lookup_insert_eq in Hx by (by apply lookup_lt_Some in Hes). congruence.
  - intros t' es' Hes'. destruct (Hsub2 t' es' Hes') as [->|Hx]; [by left|].
    destruct (decide (t = t')) as [<-|Hne]; [|rewrite list_lookup_insert_ne in Hx by done; by right].
    rewrite list_lookup_insert_eq in Hx by (by apply lookup_lt_Some in Hes). left. congruence.
  - rewrite map_app, concat_app, Hid1, <- app_assoc. rewrite Hall, fmap_app.
    rewrite Hrest in Hid2. simpl in Hid2. rewrite Hid2. solve_Permutation.
  - apply Forall_app. split.
    { eapply Forall_impl; [exact Hf1|]. simpl. intros f (-> & Hw & Hne). eauto. }
    eapply Forall_impl; [exact Hf2|]. simpl. intros f (es' & Hes' & Hw & Hne).
    exists es'. split; [|done]. destruct (decide (t = f_thread f)) as [Heq|Hneq].
    + rewrite <- Heq, list_lookup_insert_eq in Hes' by (by apply lookup_lt_Some in Hes). congruence.
    + by rewrite list_lookup_insert_ne in Hes' by done.
Qed.

Lemma send_batches_spec n gen self entries flights slot :
  common_inv n gen self entries flights -> gen + total entries <= 2 ^ 64 ->
  exists r self', send_batches slot self = Some (r, self') /\
    match r with
    | Err _ => True
    | Ok k => exists new,
        common_inv n (gen + Z.of_nat (length new)) self' (replicate n []) (new ++ flights) /\
        handed self self' new /\ Z.of_nat k = total entries /\ (length new <= k)%nat /\
        s_id <$> concat entries ≡ₚ concat (map (fun f => work_ids (f_work f)) new) /\
        Forall (fun f => exists es, entries !! f_thread f = Some es /\ work_of es slot f /\ es <> []) new
    end.
Proof.
  intros Hinv Hg. unfold send_batches. rewrite (ci_senders _ _ _ _ _ Hinv).
  destruct (send_each_spec n slot (seq 0 n) gen self entries flights Hinv) as (r & self' & -> & Hr).
  { apply Forall_forall. intros t ?%elem_of_seq. lia. }
  { done. }
  eexists _, _. split; [done|]. destruct r as [k|e]; [|done].
  destruct Hr as (new & entries' & Hinv' & Hh & Htot & Hl & Hin & _ & Hid & Hf).
  assert (entries' = replicate n []) as ->.
  { symmetry. apply replicate_as_elem_of. split; [by rewrite (ci_entries _ _ _ _ _ Hinv')|].
    intros es (t & Ht)%list_elem_of_lookup. assert (t < n)%nat as Htn.
    { rewrite <- (ci_entries _ _ _ _ _ Hinv'). by apply lookup_lt_Some in Ht. }
    specialize (Hin t ltac:(apply elem_of_seq; lia)). congruence. }
  assert (concat (replicate n []) = @nil scheduled) as Hnil by (clear; by induction n).
  unfold total in Htot. rewrite Hnil in Htot, Hid. simpl in *. rewrite app_nil_r in Hid.
  exists new. split_and!; try done. unfold total. lia.
Qed.

(** ** Completing *)

Lemma unlock_each t txs : forall locks rest,
  Locks.inv locks (Locks.held_of (map (fun tx => (t, keys_of tx)) txs ++ rest)) ->
  exists locks', foldM (fun locks tx =>
      Locks.unlock_accounts locks (write_account_locks tx) (read_account_locks tx) t) locks txs = Some locks' /\
    Locks.num_threads locks' = Locks.num_threads locks /\ Locks.inv locks' (Locks.held_of rest).
Proof.
  induction txs as [|tx txs IH]; intros locks rest Hinv; simpl; [eauto|].
  destruct (Locks.unlock_accounts_spec locks (Locks.held_of (map (fun tx => (t, keys_of tx)) txs ++ rest))
    (write_account_locks tx) (read_account_locks tx) t) as (l1 & -> & Hn1 & Hinv1).
  { exact Hinv. }
  simpl. destruct (IH l1 rest Hinv1) as (l2 & -> & Hn2 & Hinv2). exists l2. split_and!; [done|congruence|done].
Qed.

Lemma complete_spec n gen self entries f flights :
  common_inv n gen self entries (f :: flights) ->
  exists self', complete_batch (batch_id (f_work f)) (work_transactions (f_work f)) self = Some self' /\
    common_inv n gen self' entries flights /\
    consume_work_senders self' = consume_work_senders self.
Proof.
  intros [Hs Hth He Hb Htr Hl]. unfold complete_batch. simpl in Htr.
  destruct (complete_batch_spec n gen _ (map flight_entry flights) _ _ Htr) as (tr' & -> & Htr'). simpl.
  rewrite (held_of_perm _ _ (outstanding_flights entries f flights)) in Hl. unfold flight_locks in Hl.
  destruct (unlock_each (f_thread f) (work_transactions (f_work f)) (account_locks self)
    (outstanding entries flights) Hl) as (l' & -> & Hn' & Hl'). simpl.
  eexists. split; [done|]. split; [|done]. split; simpl; [done|congruence|done|done|done|done].
Qed.

Section Finish.
Context `{Heap : !MinMaxHeap TransactionPriorityId pid_le}.
Context `{Sl : !Slab (State.TransactionState Tx MaxAge)}.
Import Container.

(** An id whose transaction has been handed out. *)
Definition handed_out (c : TransactionStateContainer) (id : nat) : Prop :=
  exists st, states c !! id = Some st /\ State.transaction st = None.

Lemma wf_pending_NoDup c pending : Container.wf c pending -> NoDup pending.
Proof.
  intros [Hk _ _]. pose proof (NoDup_keys (states c)) as Hnd. rewrite <- Hk in Hnd.
  apply NoDup_app in Hnd as (_ & _ & Hnd). by apply NoDup_app in Hnd as (_ & _ & ?).
Qed.

(** What the loop decides for each index: to remove, or to retry with a flag. *)
Fixpoint decisions (index : nat) (retryable : list (nat * bool)) (n : nat) : list (option bool) :=
  match n with
  | O => []
  | S n => match retryable with
           | (i, immediately) :: rest =>
               if (i =? index)%nat then Some immediately :: decisions (S index) rest n
               else None :: decisions (S index) retryable n
           | [] => None :: decisions (S index) retryable n
           end
  end.

Definition finish_one (c : TransactionStateContainer) (d : (nat * Tx) * option bool) :
    option TransactionStateContainer :=
  match d.2 with
  | Some immediately => Container.retry_transaction c d.1.1 d.1.2 immediately
  | None => remove_by_id c d.1.1
  end.

Lemma finish_decisions txs : forall index retryable c,
  finish_transactions index retryable txs c =
  foldM finish_one c (zip txs (decisions index retryable (length txs))).
Proof.
  induction txs as [|[id tx] txs IH]; intros index retryable c; simpl; [done|].
  destruct retryable as [|[i im] rest]; [|destruct (i =? index)%nat]; simpl.
  - change (finish_one c (id, tx, None)) with (remove_by_id c id). by destruct (remove_by_id c id); simpl.
  - change (finish_one c (id, tx, Some im)) with (Container.retry_transaction c id tx im).
    by destruct (Container.retry_transaction c id tx im); simpl.
  - change (finish_one c (id, tx, None)) with (remove_by_id c id). by destruct (remove_by_id c id); simpl.
Qed.

Lemma length_decisions index retryable n : length (decisions index retryable n) = n.
Proof.
  revert index retryable. induction n as [|n IH]; intros index retryable; simpl; [done|].
  destruct retryable as [|[i im] rest]; [|destruct (i =? index)%nat]; simpl; by rewrite IH.
Qed.

(** With sorted indexes the decision to retry is membership. *)
Lemma decisions_lookup n : forall index retryable i,
  StronglySorted lt retryable.*1 -> Forall (fun j => (index <= j)%nat) retryable.*1 -> (i < n)%nat ->
  match decisions index retryable n !! i with
  | Some (Some im) => ((index + i)%nat, im) ∈ retryable
  | Some None => (index + i)%nat ∉ retryable.*1
  | None => False
  end.
Proof.
  induction n as [|n IH]; intros index retryable i Hs Hge Hi; [lia|]. simpl.
  destruct retryable as [|[j im] rest]; simpl in *.
  - destruct i as [|i]; simpl; [apply not_elem_of_nil|]. rewrite <- Nat.add_succ_comm.
    apply (IH (S index) []); [constructor|constructor|lia].
  - apply StronglySorted_inv in Hs as [Hs Hlt]. apply Forall_cons in Hge as [Hj Hge].
    destruct (Nat.eqb_spec j index) as [->|Hne].
    + destruct i as [|i]; simpl; [rewrite Nat.add_0_r; by left|]. rewrite <- Nat.add_succ_comm.
      specialize (IH (S index) rest i Hs). destruct (decisions _ _ _ !! i) as [[im'|]|]; simpl in *.
      * right. apply IH; [|lia]. eapply Forall_impl; [exact Hlt|]. simpl. lia.
      * rewrite not_elem_of_cons. split; [lia|]. apply IH; [|lia].
        eapply Forall_impl; [exact Hlt|]. simpl. lia.
      * apply IH; [|lia]. eapply Forall_impl; [exact Hlt|]. simpl. lia.
    + assert (Forall (fun j0 => (S index <= j0)%nat) ((j, im) :: rest).*1) as Hge'.
      { simpl. constructor; [lia|]. eapply Forall_impl; [exact Hlt|]. simpl. lia. }
      destruct i as [|i]; simpl.
      * rewrite Nat.add_0_r, not_elem_of_cons. split; [lia|]. intros Hin.
        rewrite Forall_forall in Hlt. specialize (Hlt _ Hin). lia.
      * rewrite <- Nat.add_succ_comm. apply (IH (S index) ((j, im) :: rest) i); [|done|lia].
        simpl. by constructor.
Qed.

Lemma finish_each ds : forall c rest,
  Container.wf c (map (fun d => d.1.1) ds ++ rest) -> Forall (handed_out c) (map (fun d => d.1.1) ds) ->
  (buffer_size c <= capacity c)%nat ->
  exists c', foldM finish_one c ds = Some c' /\ Container.wf c' rest /\
    capacity c' = capacity c /\ (buffer_size c' <= capacity c)%nat /\
    (forall k, k ∉ map (fun d => d.1.1) ds -> states c' !! k = states c !! k) /\
    Forall (fun d => match d.2 with
                     | Some _ => exists st, states c' !! d.1.1 = Some st /\ State.transaction st = Some d.1.2
                     | None => states c' !! d.1.1 = None
                     end) ds.
Proof.
  induction ds as [|[[id tx] d] ds IH]; intros c rest Hwf Hho Hsz; simpl in *.
  { eexists. by split_and!. }
  pose proof (wf_pending_NoDup _ _ Hwf) as Hnd. apply NoDup_cons in Hnd as [Hni _].
  apply Forall_cons in Hho as [(st & Hst & Htx) Hho].
  assert (id ∉ map (fun d => d.1.1) ds) as Hnit by (intros Hin; apply Hni, elem_of_app; by left).
  assert (exists c1, finish_one c ((id, tx), d) = Some c1 /\
    Container.wf c1 (map (fun d => d.1.1) ds ++ rest) /\ capacity c1 = capacity c /\
    (buffer_size c1 <= capacity c)%nat /\ (forall k, k <> id -> states c1 !! k = states c !! k) /\
    match d with
    | Some _ => exists st, states c1 !! id = Some st /\ State.transaction st = Some tx
    | None => states c1 !! id = None
    end) as (c1 & -> & Hwf1 & Hc1 & Hsz1 & Hsame & Hd).
  { unfold finish_one. simpl. destruct d as [im|].
    - destruct (retry_spec c _ id tx im st Hwf Hst Htx Hsz) as (c1 & Hr & Hwf1 & Hs1 & Hc1 & Hb1 & _).
      exists c1. split_and!; try done.
      + intros k Hk. by rewrite Hs1, lookup_insert_ne.
      + eexists. by rewrite Hs1, lookup_insert_eq.
    - destruct (remove_spec c _ id Hwf) as (c1 & Hr & Hwf1 & Hs1 & _ & _ & Hc1).
      exists c1. split_and!; try done.
      + unfold buffer_size. change (size (states c1) <= capacity c)%nat. rewrite Hs1, map_size_delete.
        unfold buffer_size, states in *. destruct (_ !! id); simpl; lia.
      + intros k Hk. by rewrite Hs1, lookup_delete_ne.
      + by rewrite Hs1, lookup_delete_eq. }
  simpl. destruct (IH c1 rest Hwf1) as (c' & Hf & Hwf' & Hcap & Hsz' & Hst' & Hret).
  { rewrite Forall_forall in Hho |- *. intros k Hk. destruct (Hho k Hk) as (stk & Hstk & ?).
    exists stk. split; [|done]. rewrite Hsame; [done|]. by intros ->. }
  { by rewrite Hc1. }
  exists c'. rewrite Hc1 in *. split_and!; try done.
  - intros k Hk. rewrite not_elem_of_cons in Hk. rewrite Hst', Hsame; tauto.
  - constructor; [|done]. simpl. by rewrite Hst'.
Qed.

End Finish.
End Common.
End Common.
