(* ===== verification/GreedyScheduler.v ===== *)
(** * The greedy scheduler

    [core/src/banking_stage/read_write_account_set.rs] (module [RwSet]) and
    [core/src/banking_stage/transaction_scheduler/greedy_scheduler.rs] (module
    [Greedy]): one scheduling pass pops transactions in priority order, skips
    those that conflict with bundles or cannot be locked, and batches the others
    per worker thread. The bundle locker is shared with the bundle stage, which
    may change it between two transactions of a pass: its state at each scan is
    an argument. Panics are [None]. *)

From S2P Require Import Prelude Accounts AccountLocks ThreadAwareLocks StateContainer SchedulerCommon.
Import ThreadSets.

(** ** Accounts of the batches under construction *)
Module RwSet.
Section RwSet.
Context {Key : Type} `{Countable Key} {Tx : Type} `{SVMMessage Key Tx}.

Record ReadWriteAccountSet : Type := RwSets { read_set : gset Key; write_set : gset Key }.

Definition empty_sets : ReadWriteAccountSet := RwSets ∅ ∅.

Definition can_read (self : ReadWriteAccountSet) (k : Key) : bool := bool_decide (k ∉ write_set self).
Definition can_write (self : ReadWriteAccountSet) (k : Key) : bool :=
  bool_decide (k ∉ write_set self) && bool_decide (k ∉ read_set self).

Definition check_locks (self : ReadWriteAccountSet) (message : Tx) : bool :=
  forallb (fun '(k, w) => if w : bool then can_write self k else can_read self k)
    (accounts_with_is_writable message).

Definition add_read (self : ReadWriteAccountSet) (k : Key) : bool * ReadWriteAccountSet :=
  (can_read self k, RwSets ({[k]} ∪ read_set self) (write_set self)).
Definition add_write (self : ReadWriteAccountSet) (k : Key) : bool * ReadWriteAccountSet :=
  (can_write self k, RwSets (read_set self) ({[k]} ∪ write_set self)).

Definition take_locks (self : ReadWriteAccountSet) (message : Tx) : bool * ReadWriteAccountSet :=
  foldl (fun '(all_available, s) '(k, w) =>
           let '(b, s') := if w : bool then add_write s k else add_read s k in
           (all_available && b, s'))
    (true, self) (accounts_with_is_writable message).

Definition clear (self : ReadWriteAccountSet) : ReadWriteAccountSet := empty_sets.

(** ** What the sets stand for *)

Definition rw_holds (self : ReadWriteAccountSet) (h : list (Key * bool)) : Prop :=
  forall k, (k ∈ write_set self <-> (k, true) ∈ h) /\ (k ∈ read_set self <-> (k, false) ∈ h).

Lemma rw_holds_empty : rw_holds empty_sets [].
Proof. intros k. simpl. rewrite !elem_of_nil. set_solver. Qed.

Lemma rw_holds_perm self h1 h2 : h1 ≡ₚ h2 -> rw_holds self h1 -> rw_holds self h2.
Proof. intros Hp Hh k. rewrite <- Hp. apply Hh. Qed.

(** One access may join the set exactly when it conflicts with nothing in it. *)
Definition fits (h : list (Key * bool)) (a : Key * bool) : Prop :=
  ((a.1, true) ∉ h) /\ (a.2 = true -> (a.1, false) ∉ h).

Lemma can_spec self h (k : Key) (w : bool) :
  rw_holds self h ->
  (if w then can_write self k else can_read self k) = true <-> fits h (k, w).
Proof.
  intros Hh. destruct (Hh k) as [Hw Hr]. unfold fits, can_write, can_read. simpl.
  destruct w; rewrite ?andb_true_iff, !bool_decide_eq_true, Hw, ?Hr; naive_solver.
Qed.

Lemma conflict_fits l h : ~ conflict l h <-> Forall (fits h) l.
Proof.
  rewrite conflict_Exists, <- Forall_Exists_neg, !Forall_forall. unfold fits, writes, touches.
  split; intros Ha a Hin; specialize (Ha a Hin).
  - split; [naive_solver|]. intros Hw Hf. apply Ha. right. eauto.
  - intros [Hw|[Hw [[] Ht]]]; naive_solver.
Qed.

Lemma check_locks_spec self h tx :
  rw_holds self h -> check_locks self tx = true <-> ~ conflict (accounts_with_is_writable tx) h.
Proof.
  intros Hh. rewrite conflict_fits. unfold check_locks.
  rewrite forallb_forall, Forall_forall. setoid_rewrite <- list_elem_of_In.
  split; intros Ha [k w] Hin; specialize (Ha (k, w) Hin); by apply (can_spec self h k w Hh).
Qed.

Lemma add_holds self h (k : Key) (w : bool) :
  rw_holds self h -> rw_holds (if w then (add_write self k).2 else (add_read self k).2) ((k, w) :: h).
Proof.
  intros Hh k'. destruct (Hh k') as [Hw Hr]. rewrite !elem_of_cons.
  destruct w; simpl; rewrite elem_of_union, elem_of_singleton, Hw, Hr; naive_solver.
Qed.

(** A transaction without repeated accounts gets its locks exactly when they are free. *)
Lemma take_locks_spec self h tx :
  rw_holds self h -> NoDup (account_keys tx) -> ~ conflict (accounts_with_is_writable tx) h ->
  (take_locks self tx).1 = true /\
  rw_holds (take_locks self tx).2 (accounts_with_is_writable tx ++ h).
Proof.
  intros Hh Hnd Hc. rewrite conflict_fits in Hc. apply accesses_NoDup_keys in Hnd.
  unfold take_locks. revert self h Hh Hc Hnd.
  generalize (accounts_with_is_writable tx) as l. induction l as [|[k w] l IH]; intros self h Hh Hc Hnd; [done|].
  simpl in Hnd. apply NoDup_cons in Hnd as [Hni Hnd]. apply Forall_cons in Hc as [Hk Hc]. simpl.
  apply (can_spec self h k w Hh) in Hk.
  destruct (IH (if w then (add_write self k).2 else (add_read self k).2) ((k, w) :: h)) as [Hb Hh'].
  - by apply add_holds.
  - rewrite Forall_forall in Hc |- *. intros [k' w'] Hin. destruct (Hc _ Hin) as [H1' H2'].
    assert (k' <> k) by (intros ->; apply Hni, list_elem_of_fmap; by exists (k, w')).
    split; simpl in *; [|intros Hw']; rewrite not_elem_of_cons; split; [congruence|auto|congruence|auto].
  - done.
  - destruct w; simpl in *; rewrite Hk; (split; [done|]);
      (eapply rw_holds_perm; [|exact Hh']); solve_Permutation.
Qed.

End RwSet.
End RwSet.

(** ** The scheduler *)
Module Greedy.
Import State Container Batching Tracker Common RwSet.
Section Greedy.
Context {Key : Type} `{Countable Key} {Tx MaxAge : Type} `{SVMMessage Key Tx}.
Context `{Heap : !MinMaxHeap TransactionPriorityId pid_le}.
Context `{Sl : !Slab (State.TransactionState Tx MaxAge)}.
Context `{Ch : !Channel (@ConsumeWork Tx MaxAge)}.

#[local] Abbreviation BundleLocks := (@Bundle.BundleAccountLocks Key _ _).
#[local] Abbreviation ThreadLocks := (@Locks.ThreadAwareAccountLocks Key _ _).

Record GreedySchedulerConfig : Type := Config {
  target_scheduled_cus : Z;
  max_scanned_transactions_per_scheduling_pass : nat;
  target_transactions_per_batch : nat
}.

Record GreedyScheduler : Type := MkGreedy {
  common : @SchedulingCommon Key _ _ Tx MaxAge _;
  working_account_set : @ReadWriteAccountSet Key _ _;
  unschedulables : list TransactionPriorityId;
  config : GreedySchedulerConfig
}.

Definition new (senders : list sender) (config : GreedySchedulerConfig) : option GreedyScheduler :=
  common ← Common.new senders; Some (MkGreedy common empty_sets [] config).

Inductive TransactionSchedulingError : Type := UnschedulableConflicts | UnschedulableThread.

(** A read of an account a bundle writes, or a write of one a bundle touches. *)
Definition bundle_conflict (bundles : BundleLocks) (tx : Tx) : bool :=
  existsb (fun k => bool_decide (is_Some (Bundle.write_locks bundles !! k))) (read_account_locks tx) ||
  existsb (fun k => bool_decide (is_Some (Bundle.write_locks bundles !! k)) ||
                    bool_decide (is_Some (Bundle.read_locks bundles !! k))) (write_account_locks tx).

Definition try_schedule_transaction (bundles : BundleLocks)
    (st : TransactionState Tx MaxAge) (locks : ThreadLocks)
    (schedulable_threads : ThreadSet) (thread_selector : ThreadSet -> option nat) :
    option (result TransactionSchedulingError ((nat * Tx * MaxAge * Z) * TransactionState Tx MaxAge) *
            ThreadLocks) :=
  tx ← transaction st;
  if bundle_conflict bundles tx then Some (Err UnschedulableConflicts, locks)
  else
    '(r, locks') ← Locks.try_lock_accounts locks (write_account_locks tx) (read_account_locks tx)
                     schedulable_threads thread_selector;
    match r with
    | Err Locks.MultipleConflicts => Some (Err UnschedulableConflicts, locks')
    | Err Locks.ThreadNotAllowed => Some (Err UnschedulableThread, locks')
    | Ok thread_id =>
        '((tx', age), st') ← take_transaction_for_scheduling st;
        Some (Ok ((thread_id, tx', age, cost st'), st'), locks')
    end.

(** The variables of one pass. *)
Record pass : Type := Pass {
  p_common : @SchedulingCommon Key _ _ Tx MaxAge _;
  p_working : @ReadWriteAccountSet Key _ _;
  p_unschedulables : list TransactionPriorityId;
  p_container : TransactionStateContainer;
  p_budget : Z;
  p_threads : ThreadSet;
  p_scheduled : nat;
  p_sent : nat;
  p_conflicts : nat;
  p_refused : nat
}.

(** [working_account_set.clear(); num_sent += send_batches(target_slot)?;] *)
Definition flush (slot : Z) (p : pass) : option (result SchedulerError unit * pass) :=
  '(r, common') ← send_batches slot (p_common p);
  let p' k := Pass common' empty_sets (p_unschedulables p) (p_container p) (p_budget p) (p_threads p)
                (p_scheduled p) (p_sent p + k) (p_conflicts p) (p_refused p) in
  match r with
  | Err e => Some (Err e, p' 0%nat)
  | Ok k => Some (Ok tt, p' k)
  end.

(** A transaction that could not be scheduled waits for the end of the pass. *)
Definition skip (id : TransactionPriorityId) (e : TransactionSchedulingError) (p : pass) : pass :=
  Pass (p_common p) (p_working p) (p_unschedulables p ++ [id]) (p_container p) (p_budget p)
    (p_threads p) (p_scheduled p) (p_sent p)
    (match e with UnschedulableConflicts => S (p_conflicts p) | UnschedulableThread => p_conflicts p end)
    (match e with UnschedulableConflicts => p_refused p | UnschedulableThread => S (p_refused p) end).

(** What follows a successful [try_schedule_transaction]. *)
Definition place_transaction (cfg : GreedySchedulerConfig) (slot target_cu_per_thread : Z)
    (id : TransactionPriorityId) (thread_id : nat) (tx : Tx) (age : MaxAge) (cost : Z)
    (st' : TransactionState Tx MaxAge) (locks' : ThreadLocks) (p : pass) :
    option (result SchedulerError unit * pass) :=
  let '(available, working) := take_locks (p_working p) tx in
  if negb available then None
  else
    let c := p_common p in
    batches' ← add_transaction_to_batch (batches c) thread_id (pid_id id) tx age cost;
    let p1 := Pass (SCommon (consume_work_senders c) (in_flight_tracker c) locks' batches')
                working (p_unschedulables p) (set_transaction_state (p_container p) (pid_id id) st')
                (sat_sub (p_budget p) cost) (p_threads p) (S (p_scheduled p)) (p_sent p)
                (p_conflicts p) (p_refused p) in
    b ← transactions batches' !! thread_id;
    '(r, p2) ← if (target_transactions_per_batch cfg <=? length b)%nat then flush slot p1
               else Some (Ok tt, p1);
    match r with
    | Err e => Some (Err e, p2)
    | Ok _ =>
        in_flight ← cus_in_flight_per_thread (in_flight_tracker (p_common p2)) !! thread_id;
        queued ← total_cus (batches (p_common p2)) !! thread_id;
        Some (Ok tt,
          Pass (p_common p2) (p_working p2) (p_unschedulables p2) (p_container p2) (p_budget p2)
            (if target_cu_per_thread <=? wadd 64 in_flight queued
             then remove (p_threads p2) thread_id else p_threads p2)
            (p_scheduled p2) (p_sent p2) (p_conflicts p2) (p_refused p2))
    end.

(** One iteration of the scan. *)
Definition scan_one (cfg : GreedySchedulerConfig) (slot target_cu_per_thread : Z)
    (bundles : BundleLocks) (p : pass) : option (result SchedulerError unit * pass) :=
  match pop (p_container p) with
  | (None, _) => None
  | (Some id, container) =>
      let p := Pass (p_common p) (p_working p) (p_unschedulables p) container (p_budget p)
                 (p_threads p) (p_scheduled p) (p_sent p) (p_conflicts p) (p_refused p) in
      st ← get_transaction_state container (pid_id id);
      tx ← transaction st;
      '(r, p) ← if negb (check_locks (p_working p) tx) then flush slot p else Some (Ok tt, p);
      match r with
      | Err e => Some (Err e, p)
      | Ok _ =>
          let c := p_common p in
          '(r, locks') ← try_schedule_transaction bundles st (account_locks c) (p_threads p)
              (fun s => select_thread s (total_cus (batches c))
                          (cus_in_flight_per_thread (in_flight_tracker c))
                          (transactions (batches c))
                          (num_in_flight_per_thread (in_flight_tracker c)));
          match r with
          | Err e =>
              let c' := SCommon (consume_work_senders c) (in_flight_tracker c) locks' (batches c) in
              Some (Ok tt, skip id e
                (Pass c' (p_working p) (p_unschedulables p) (p_container p) (p_budget p) (p_threads p)
                   (p_scheduled p) (p_sent p) (p_conflicts p) (p_refused p)))
          | Ok ((thread_id, tx, age, cost), st') =>
              place_transaction cfg slot target_cu_per_thread id thread_id tx age cost st' locks' p
          end
      end
  end.

(** The loop; [scans] is what is left of the scan limit, and
    [bundles i] the bundle locks when [i] scans are left. *)
Fixpoint scan (cfg : GreedySchedulerConfig) (slot target_cu_per_thread : Z)
    (bundles : nat -> BundleLocks) (scans : nat) (p : pass) :
    option (result SchedulerError unit * pass) :=
  match scans with
  | O => Some (Ok tt, p)
  | S scans =>
      if (0 <? p_budget p) && negb (ThreadSets.is_empty (p_threads p)) &&
         negb (Container.is_empty (p_container p))
      then
        '(r, p') ← scan_one cfg slot target_cu_per_thread (bundles scans) p;
        match r with
        | Err e => Some (Err e, p')
        | Ok _ => scan cfg slot target_cu_per_thread bundles scans p'
        end
      else Some (Ok tt, p)
  end.

Record SchedulingSummary : Type := Summary {
  num_scheduled : nat;
  num_unschedulable_conflicts : nat;
  num_unschedulable_threads : nat
}.

(** The threads with less than the target in flight. *)
Definition initial_threads (num_threads : nat) (target_cu_per_thread : Z) (cus : list Z) : option ThreadSet :=
  foldM (fun s t => c ← cus !! t;
                    Some (if target_cu_per_thread <=? c then remove s t else s))
    (any num_threads) (seq 0 num_threads).

Definition schedule (bundles : nat -> BundleLocks) (budget slot : Z)
    (self : GreedyScheduler) (container : TransactionStateContainer) :
    option (result SchedulerError SchedulingSummary * GreedyScheduler * TransactionStateContainer) :=
  let c := common self in
  let cus := cus_in_flight_per_thread (in_flight_tracker c) in
  let budget := sat_sub budget (wrap 64 (Zsum (fun x => x) cus)) in
  let num_threads := length (consume_work_senders c) in
  let target_cu_per_thread := target_scheduled_cus (config self) / Z.of_nat num_threads in
  threads ← initial_threads num_threads target_cu_per_thread cus;
  if ThreadSets.is_empty threads then Some (Ok (Summary 0 0 0), self, container)
  else
    let done r p := Some (r, MkGreedy (p_common p) (p_working p) (p_unschedulables p) (config self),
                          p_container p) in
    '(r, p) ← scan (config self) slot target_cu_per_thread bundles
                (max_scanned_transactions_per_scheduling_pass (config self))
                (Pass c (working_account_set self) (unschedulables self) container budget threads 0 0 0 0);
    match r with
    | Err e => done (Err e) p
    | Ok _ =>
        '(r, p) ← flush slot p;
        match r with
        | Err e => done (Err e) p
        | Ok _ =>
            if negb (p_scheduled p =? p_sent p)%nat then None
            else
              '(_, container') ← push_ids_into_queue (p_container p) (p_unschedulables p);
              Some (Ok (Summary (p_scheduled p) (p_conflicts p) (p_refused p)),
                    MkGreedy (p_common p) (p_working p) [] (config self), container')
        end
    end.

(** ** The invariant of a pass *)

Abbreviation scheduled := (@Batching.scheduled Tx MaxAge).
Abbreviation flight := (@Common.flight Tx MaxAge).

(** Transactions are sanitized: no repeated account, at most [L] of them. *)
Definition tx_ok (L : nat) (tx : Tx) : Prop :=
  NoDup (account_keys tx) /\ (length (account_keys tx) <= L)%nat.

Definition flight_ids (flights : list flight) : list nat :=
  concat (map (fun f => work_ids (f_work f)) flights).

Definition flight_ok (L : nat) (f : flight) : Prop :=
  length (work_ids (f_work f)) = length (work_transactions (f_work f)) /\
  Forall (tx_ok L) (work_transactions (f_work f)) /\
  pairwise (fun t1 t2 => ~ conflicting t1 t2) (work_transactions (f_work f)).

(** A batch as the workers need it: non-empty, for the slot, without conflicts. *)
Definition work_ok (slot : Z) (f : flight) : Prop :=
  target_slot (f_work f) = slot /\ work_ids (f_work f) <> [] /\
  pairwise (fun t1 t2 => ~ conflicting t1 t2) (work_transactions (f_work f)).

(** [extra] are ids popped and not yet placed anywhere. *)
Record pass_inv (L n : nat) (gen : Z) (p : pass) (extra : list TransactionPriorityId)
    (entries : list (list scheduled)) (flights : list flight) : Prop := {
  pi_common : common_inv n gen (p_common p) entries flights;
  pi_working : rw_holds (p_working p) (accesses (s_tx <$> concat entries));
  pi_apart : pairwise (fun t1 t2 => ~ conflicting t1 t2) (s_tx <$> concat entries);
  pi_wf : Container.wf (p_container p)
    (map pid_id (p_unschedulables p ++ extra) ++ (s_id <$> concat entries) ++ flight_ids flights);
  pi_size : (buffer_size (p_container p) <= capacity (p_container p))%nat;
  pi_out : Forall (handed_out (p_container p)) ((s_id <$> concat entries) ++ flight_ids flights);
  pi_unsched : Forall (available (p_container p)) (p_unschedulables p ++ extra);
  pi_states : forall id st tx, states (p_container p) !! id = Some st ->
    transaction st = Some tx -> tx_ok L tx;
  pi_entries : Forall (tx_ok L) (s_tx <$> concat entries);
  pi_flights : Forall (flight_ok L) flights;
  pi_threads : ThreadSets.wf (p_threads p);
  pi_fits : Z.of_nat (L * capacity (p_container p)) <= U32_MAX;
  pi_count : Z.of_nat (p_scheduled p) = Z.of_nat (p_sent p) + total entries
}.

(** ** Counting locks *)

Lemma length_held_of L (out : list (nat * (list Key * list Key))) :
  Forall (fun x => (length x.2.1 + length x.2.2 <= L)%nat) out ->
  (length (Locks.held_of out) <= L * length out)%nat.
Proof.
  induction 1 as [|[t [ws rs]] out Hx _ IH]; [simpl; lia|]. unfold Locks.held_of in *. simpl in *.
  rewrite length_app. unfold Locks.accesses_on at 1. rewrite length_app, !length_map. lia.
Qed.

Lemma length_keys_of tx :
  (length (keys_of tx).1 + length (keys_of tx).2)%nat = length (account_keys tx).
Proof.
  rewrite <- length_accounts_with_is_writable, <- (tx_accesses_keys tx).
  unfold Locks.tx_accesses. by rewrite length_app, !length_map.
Qed.

Lemma length_outstanding entries flights L :
  Forall (flight_ok L) flights ->
  length (outstanding entries flights) = (length (concat entries) + length (flight_ids flights))%nat.
Proof.
  intros Hf. unfold outstanding, flight_ids. rewrite length_app. f_equal.
  - change (length (concat (imap batch_locks entries)) = length (concat entries)).
    generalize 0%nat as i. intros _. rewrite !length_concat. f_equal.
    apply list_eq. intros t. rewrite !list_lookup_fmap, list_lookup_imap.
    destruct (entries !! t); simpl; [|done]. unfold batch_locks. by rewrite length_map.
  - induction Hf as [|f flights (Hl & _) _ IH]; [done|]. simpl. rewrite !length_app, IH.
    unfold flight_locks. rewrite length_map. lia.
Qed.

Lemma outstanding_small L entries flights :
  Forall (tx_ok L) (s_tx <$> concat entries) -> Forall (flight_ok L) flights ->
  Forall (fun x => (length x.2.1 + length x.2.2 <= L)%nat) (outstanding entries flights).
Proof.
  intros He Hf. unfold outstanding. apply Forall_app. split; apply Forall_concat.
  - apply Forall_lookup. intros t ls Hls. rewrite list_lookup_imap in Hls.
    destruct (entries !! t) as [es|] eqn:Hes; simplify_eq/=. unfold batch_locks.
    apply Forall_fmap, Forall_forall. intros e Hin.
    change (length (keys_of (s_tx e)).1 + length (keys_of (s_tx e)).2 <= L)%nat.
    rewrite length_keys_of. rewrite Forall_forall in He. apply He.
    apply list_elem_of_fmap_2, list_elem_of_In, in_concat. exists es.
    rewrite <- !list_elem_of_In. split; [|done]. by apply list_elem_of_lookup_2 in Hes.
  - apply Forall_fmap. eapply Forall_impl; [exact Hf|]. intros f (_ & Hok & _). simpl.
    unfold flight_locks. apply Forall_fmap. eapply Forall_impl; [exact Hok|].
    intros tx [_ Hl]. change (length (keys_of tx).1 + length (keys_of tx).2 <= L)%nat.
    by rewrite length_keys_of.
Qed.

Lemma pass_inv_perm L n gen p extra entries f1 f2 :
  f1 ≡ₚ f2 -> pass_inv L n gen p extra entries f1 -> pass_inv L n gen p extra entries f2.
Proof.
  intros Hp [Hc Hw Ha Hwf Hsz Ho Hu Hs He Hf Ht Hfit Hcnt].
  assert (flight_ids f1 ≡ₚ flight_ids f2) as Hfi.
  { unfold flight_ids. rewrite <- !flat_map_concat_map. by rewrite Hp. }
  split; try done.
  - by eapply common_inv_perm.
  - eapply wf_perm; [|exact Hwf]. by rewrite Hfi.
  - by rewrite <- Hfi.
  - by rewrite <- Hp.
Qed.

(** ** Flushing *)

Lemma pairwise_work slot es f :
  work_of es slot f -> es <> [] ->
  pairwise (fun t1 t2 => ~ conflicting t1 t2) (s_tx <$> es) -> work_ok slot f.
Proof.
  intros (Hi & Ht & _ & Hs) Hne Hp. split_and!; [done| |by rewrite Ht].
  rewrite Hi. by destruct es.
Qed.

Lemma concat_elem {A} (entries : list (list A)) t es :
  entries !! t = Some es -> exists l1 l2, concat entries = l1 ++ es ++ l2.
Proof.
  intros Ht. apply list_elem_of_split_length in Ht as (l1 & l2 & -> & _).
  exists (concat l1), (concat l2). by rewrite concat_app.
Qed.

Lemma concat_replicate_nil {A} n : concat (replicate n (@nil A)) = [].
Proof. by induction n. Qed.

Lemma flush_spec L n gen p extra entries flights slot :
  pass_inv L n gen p extra entries flights -> gen + total entries <= 2 ^ 64 ->
  exists r p', flush slot p = Some (r, p') /\
    match r with
    | Err _ => True
    | Ok _ => exists new,
        pass_inv L n (gen + Z.of_nat (length new)) p' extra (replicate n []) (new ++ flights) /\
        Z.of_nat (length new) <= total entries /\
        handed (p_common p) (p_common p') new /\ Forall (work_ok slot) new /\
        p_container p' = p_container p /\ p_threads p' = p_threads p /\
        p_unschedulables p' = p_unschedulables p /\ p_working p' = empty_sets
    end.
Proof.
  intros [Hc Hw Ha Hwf Hsz Ho Hu Hs He Hf Ht Hfit Hcnt] Hg. unfold flush.
  destruct (send_batches_spec n gen (p_common p) entries flights slot Hc Hg) as (r & c' & -> & Hr).
  simpl. destruct r as [k|e]; [|by eexists _, _]. eexists _, _. split; [done|].
  destruct Hr as (new & Hc' & Hh & Hk & Hl & Hids & Hnew). exists new.
  rewrite Forall_forall in Hnew.
  assert (flight_ids (new ++ flights) ≡ₚ (s_id <$> concat entries) ++ flight_ids flights) as Hfi.
  { unfold flight_ids. rewrite map_app, concat_app, Hids. done. }
  split_and!; try done; [|lia|].
  - assert (concat (replicate n []) = @nil scheduled) as Hnil by apply concat_replicate_nil.
    split; simpl; rewrite ?Hnil; simpl; try done; [apply rw_holds_empty|..].
    + eapply wf_perm; [|exact Hwf]. by rewrite Hfi.
    + by rewrite Hfi.
    + apply Forall_app. split; [|done]. apply Forall_forall. intros f Hin.
      destruct (Hnew f Hin) as (es & Hes & (Hi & Htx & _) & _).
      destruct (concat_elem entries _ es Hes) as (l1 & l2 & Hcat). split_and!.
      * by rewrite Hi, Htx, !length_fmap.
      * rewrite Htx. rewrite Hcat, !fmap_app, !Forall_app in He. tauto.
      * rewrite Htx. rewrite Hcat, !fmap_app, !pairwise_app in Ha. tauto.
    + unfold total. rewrite Hnil. simpl. lia.
  - apply Forall_forall. intros f Hin. destruct (Hnew f Hin) as (es & Hes & Hwork & Hne).
    eapply pairwise_work; [done|done|]. destruct (concat_elem entries _ es Hes) as (l1 & l2 & Hcat).
    rewrite Hcat, !fmap_app, !pairwise_app in Ha. tauto.
Qed.

(** ** Placing one transaction *)

Lemma fits_one_more L n gen p extra x entries flights t tx :
  pass_inv L n gen p (x :: extra) entries flights -> tx_ok L tx ->
  Z.of_nat (length (Locks.held_of ((t, keys_of tx) :: outstanding entries flights))) <= U32_MAX.
Proof.
  intros [_ _ _ Hwf Hsz _ _ _ He Hf _ Hfit _] [_ Htx].
  assert (length (Locks.held_of ((t, keys_of tx) :: outstanding entries flights)) <=
    L * S (length (outstanding entries flights)))%nat as Hh.
  { apply (length_held_of L ((t, keys_of tx) :: _)). constructor; [|by apply outstanding_small].
    change (length (keys_of tx).1 + length (keys_of tx).2 <= L)%nat. by rewrite length_keys_of. }
  rewrite (length_outstanding entries flights L Hf) in Hh.
  assert (S (length (concat entries) + length (flight_ids flights)) <= capacity (p_container p))%nat as Hcap.
  { etrans; [|exact Hsz]. unfold buffer_size. change (slab_map _) with (states (p_container p)).
    rewrite <- length_keys. destruct Hwf as [Hk _ _].
    rewrite <- Hk, !length_app, !length_map, !length_app, ?length_fmap. simpl. lia. }
  assert (L * S (length (concat entries) + length (flight_ids flights)) <= L * capacity (p_container p))%nat
    by (by apply Nat.mul_le_mono_l).
  lia.
Qed.

Lemma place_inv L n gen p x entries flights t l st tx locks' working batches' :
  pass_inv L n gen p [x] entries flights ->
  states (p_container p) !! pid_id x = Some st -> transaction st = Some tx ->
  ~ conflict (accounts_with_is_writable tx) (accesses (s_tx <$> concat entries)) ->
  rw_holds working (accounts_with_is_writable tx ++ accesses (s_tx <$> concat entries)) ->
  entries !! t = Some l ->
  let e := Scheduled (pid_id x) tx (max_age st) (cost st) in
  batches' = batches_of (<[t := l ++ [e]]> entries) ->
  Locks.inv locks' (Locks.held_of ((t, keys_of tx) :: outstanding entries flights)) ->
  Locks.num_threads locks' = n ->
  pass_inv L n gen
    (Pass (SCommon (consume_work_senders (p_common p)) (in_flight_tracker (p_common p)) locks' batches')
       working (p_unschedulables p)
       (set_transaction_state (p_container p) (pid_id x) (TState None (max_age st) (priority st) (cost st)))
       (sat_sub (p_budget p) (cost st)) (p_threads p) (S (p_scheduled p)) (p_sent p)
       (p_conflicts p) (p_refused p))
    [] (<[t := l ++ [e]]> entries) flights.
Proof.
  intros [Hc Hw Ha Hwf Hsz Ho Hu Hs He Hf Ht Hfit Hcnt] Hst Htx Hnc Hwork Hl e Hb Hinv Hn.
  destruct (concat_thread entries t l (l ++ [e]) Hl) as (rest & Hnew & Hold).
  assert (concat (<[t := l ++ [e]]> entries) ≡ₚ e :: concat entries) as Hcat
    by (rewrite Hnew, Hold; solve_Permutation).
  assert (s_tx <$> concat (<[t := l ++ [e]]> entries) ≡ₚ tx :: (s_tx <$> concat entries)) as Htxs
    by (by rewrite Hcat).
  assert (s_id <$> concat (<[t := l ++ [e]]> entries) ≡ₚ pid_id x :: (s_id <$> concat entries)) as Hids
    by (by rewrite Hcat).
  assert (pid_id x ∈ map pid_id (p_unschedulables p ++ [x]) ++ (s_id <$> concat entries) ++ flight_ids flights) as Hin.
  { rewrite map_app, !elem_of_app. left. right. left. }
  destruct (set_spec (p_container p) _ (pid_id x) (TState None (max_age st) (priority st) (cost st)) Hwf Hin)
    as [Hwf' Hst'].
  pose proof (wf_pending_NoDup _ _ Hwf) as Hnd. rewrite map_app, <- app_assoc in Hnd. simpl in Hnd.
  rewrite <- Permutation_middle in Hnd. apply NoDup_cons in Hnd as [Hnx _].
  rewrite !elem_of_app in Hnx.
  assert ((pid_id x ∉ map pid_id (p_unschedulables p)) /\ (pid_id x ∉ s_id <$> concat entries) /\
    (pid_id x ∉ flight_ids flights)) as (Hn1 & Hn2 & Hn3) by tauto.
  split; simpl.
  - destruct Hc as [Hsnd Hth Hen Hba Htr _]. split; simpl; try done; [by rewrite length_insert|].
    destruct (outstanding_thread entries t l flights Hl) as (r & Hr & Hr0).
    assert (outstanding (<[t := l ++ [e]]> entries) flights ≡ₚ (t, keys_of tx) :: outstanding entries flights) as Hp.
    { rewrite Hr, Hr0. unfold batch_locks. rewrite map_app. simpl. solve_Permutation. }
    by rewrite (held_of_perm _ _ Hp).
  - eapply rw_holds_perm; [|exact Hwork]. rewrite Htxs. done.
  - rewrite Htxs. split; [|done]. apply Forall_forall. intros t2 Ht2 Hcf. apply Hnc.
    apply conflict_accesses. eauto.
  - eapply wf_perm; [|exact Hwf']. rewrite Hids, app_nil_r, map_app. simpl. solve_Permutation.
  - unfold buffer_size. change (slab_map _) with
      (states (set_transaction_state (p_container p) (pid_id x) (TState None (max_age st) (priority st) (cost st)))).
    rewrite Hst', map_size_insert_Some; [done|]. by exists st.
  - rewrite Hids. simpl. constructor.
    + eexists. by rewrite Hst', lookup_insert_eq.
    + rewrite Forall_forall in Ho |- *. intros k Hk. destruct (Ho k Hk) as (stk & Hstk & ?).
      exists stk. split; [|done]. rewrite Hst', lookup_insert_ne; [done|]. intros <-.
      apply elem_of_app in Hk as [|]; auto.
  - rewrite app_nil_r. apply Forall_app in Hu as [Hu _]. rewrite Forall_forall in Hu |- *. intros y Hy.
    eapply available_ext; [|by apply Hu]. rewrite Hst', lookup_insert_ne; [done|]. intros Heq.
    apply Hn1. rewrite Heq. by apply list_elem_of_fmap_2.
  - intros id st0 tx0. rewrite Hst'. destruct (decide (id = pid_id x)) as [->|Hne].
    + rewrite lookup_insert_eq. intros; by simplify_eq/=.
    + rewrite lookup_insert_ne by done. apply Hs.
  - rewrite Htxs. constructor; [by eapply Hs|done].
  - done.
  - done.
  - done.
  - unfold total in *. rewrite Hcat. simpl. lia.
Qed.

(** ** One scan *)

(** What a part of a pass establishes: the invariant, with the flights [new]
    handed to the workers, each fit for them, and [k] batch ids at most. *)
Record passed (L n : nat) (bound slot : Z) (p p' : pass) (flights : list flight) : Prop := {
  ps_inv : exists gen' entries' new,
    pass_inv L n gen' p' [] entries' (new ++ flights) /\ gen' + total entries' <= bound /\
    handed (p_common p) (p_common p') new /\ Forall (work_ok slot) new
}.

Lemma selector_valid n gen c entries flights :
  common_inv n gen c entries flights ->
  Locks.valid_selector n (fun s => select_thread s (total_cus (batches c))
    (cus_in_flight_per_thread (in_flight_tracker c)) (transactions (batches c))
    (num_in_flight_per_thread (in_flight_tracker c))).
Proof.
  intros [_ _ He Hb Htr _]. rewrite Hb. apply select_thread_valid; simpl.
  - by rewrite length_fmap.
  - apply (tr_cus_len _ _ _ _ Htr).
  - by rewrite length_fmap.
  - apply (tr_num_len _ _ _ _ Htr).
Qed.

(** The counters read after a placement exist. *)
Lemma counters_defined n gen c entries flights t :
  common_inv n gen c entries flights -> (t < n)%nat ->
  is_Some (cus_in_flight_per_thread (in_flight_tracker c) !! t) /\ is_Some (total_cus (batches c) !! t).
Proof.
  intros [_ _ He Hb Htr _] Ht. rewrite Hb. split; apply lookup_lt_is_Some_2.
  - by rewrite (tr_cus_len _ _ _ _ Htr).
  - simpl. by rewrite length_fmap, He.
Qed.

Lemma pass_inv_threads L n gen p extra entries flights threads :
  pass_inv L n gen p extra entries flights -> ThreadSets.wf threads ->
  pass_inv L n gen (Pass (p_common p) (p_working p) (p_unschedulables p) (p_container p) (p_budget p)
    threads (p_scheduled p) (p_sent p) (p_conflicts p) (p_refused p)) extra entries flights.
Proof. intros [] Ht. by split. Qed.

Lemma place_spec cfg L n gen p x entries flights slot target t st tx locks' :
  pass_inv L n gen p [x] entries flights -> (n <= 64)%nat ->
  states (p_container p) !! pid_id x = Some st -> transaction st = Some tx ->
  ~ conflict (accounts_with_is_writable tx) (accesses (s_tx <$> concat entries)) ->
  (t < n)%nat -> gen + total entries + 1 <= 2 ^ 64 ->
  Locks.inv locks' (Locks.held_of ((t, keys_of tx) :: outstanding entries flights)) ->
  Locks.num_threads locks' = n ->
  exists r p', place_transaction cfg slot target x t tx (max_age st) (cost st)
      (TState None (max_age st) (priority st) (cost st)) locks' p = Some (r, p') /\
    match r with
    | Err _ => True
    | Ok _ => passed L n (gen + total entries + 1) slot p p' flights
    end.
Proof.
  intros Hp Hn Hst Htx Hnc Ht Hg Hinv Hnt. unfold place_transaction.
  destruct (take_locks_spec (p_working p) _ tx (pi_working _ _ _ _ _ _ _ Hp)
    (proj1 (pi_states _ _ _ _ _ _ _ Hp _ _ _ Hst Htx)) Hnc) as [Hok Hwork].
  destruct (take_locks (p_working p) tx) as [b working]. simpl in Hok, Hwork. subst b. simpl.
  destruct (lookup_lt_is_Some_2 entries t) as [l Hl]; [by rewrite (ci_entries _ _ _ _ _ (pi_common _ _ _ _ _ _ _ Hp))|].
  set (e := Scheduled (pid_id x) tx (max_age st) (cost st)).
  pose proof (add_spec entries t l e Hl) as Hadd.
  rewrite (ci_batches _ _ _ _ _ (pi_common _ _ _ _ _ _ _ Hp)).
  change (add_transaction_to_batch _ _ _ _ _ _) with
    (add_transaction_to_batch (batches_of entries) t (s_id e) (s_tx e) (s_age e) (s_cost e)).
  rewrite Hadd. simpl.
  pose proof (place_inv L n gen p x entries flights t l st tx locks' working _ Hp Hst Htx Hnc Hwork Hl eq_refl Hinv Hnt) as Hp1.
  fold e in Hp1. set (p1 := Pass _ _ _ _ _ _ _ _ _ _) in Hp1 |- *.
  rewrite list_lookup_fmap, list_lookup_insert_eq by (by apply lookup_lt_Some in Hl). simpl.
  assert (total (<[t := l ++ [e]]> entries) = total entries + 1) as Htot.
  { destruct (concat_thread entries t l (l ++ [e]) Hl) as (rest & Hnew & Hold).
    unfold total. rewrite Hnew, Hold, !length_app. simpl. lia. }
  assert (forall r p2, (if (target_transactions_per_batch cfg <=? length (s_tx <$> l ++ [e]))%nat
      then flush slot p1 else Some (Ok tt, p1)) = Some (r, p2) -> r = Ok tt ->
    exists gen' entries' new, pass_inv L n gen' p2 [] entries' (new ++ flights) /\
      gen' + total entries' <= gen + total entries + 1 /\ handed (p_common p) (p_common p2) new /\
      Forall (work_ok slot) new) as Hafter.
  { intros r p2 Hr ->. destruct (_ <=? _)%nat.
    - destruct (flush_spec L n gen p1 [] _ flights slot Hp1 ltac:(lia)) as (r' & p' & Hf & Hr').
      rewrite Hf in Hr. injection Hr as -> ->. destruct Hr' as (new & Hp' & Hlen & Hh & Hok & _).
      exists (gen + Z.of_nat (length new)), (replicate n []), new. split_and!; [done| |done|done].
      unfold total at 1. rewrite concat_replicate_nil. simpl. lia.
    - injection Hr as <-. exists gen, (<[t := l ++ [e]]> entries), []. split_and!; [done|lia| |done].
      intros t' s Hs. exists s. simpl. by rewrite app_nil_r. }
  destruct (if (_ <=? _)%nat then flush slot p1 else Some (Ok tt, p1)) as [[r p2]|] eqn:Hr.
  2: { destruct (_ <=? _)%nat; [|done].
       destruct (flush_spec L n gen p1 [] _ flights slot Hp1 ltac:(lia)) as (? & ? & Hf & _). congruence. }
  simpl. destruct r as [[]|err]; [|by eexists _, _].
  destruct (Hafter _ _ eq_refl eq_refl) as (gen' & entries' & new & Hp2 & Hb2 & Hh2 & Hok2).
  destruct (counters_defined n gen' (p_common p2) entries' (new ++ flights) t
    (pi_common _ _ _ _ _ _ _ Hp2) Ht) as [[c1 ->] [c2 ->]]. simpl.
  eexists _, _. split; [done|]. split. exists gen', entries', new. split_and!; try done.
  apply pass_inv_threads; [done|]. destruct (_ <=? _); [|apply Hp2].
  apply wf_remove; [lia|apply Hp2].
Qed.

Lemma pop_inv L n gen p entries flights x c' :
  pass_inv L n gen p [] entries flights -> pop (p_container p) = (Some x, c') ->
  pass_inv L n gen (Pass (p_common p) (p_working p) (p_unschedulables p) c' (p_budget p)
    (p_threads p) (p_scheduled p) (p_sent p) (p_conflicts p) (p_refused p)) [x] entries flights /\
  exists st tx, states c' !! pid_id x = Some st /\ transaction st = Some tx.
Proof.
  intros [Hc Hw Ha Hwf Hsz Ho Hu Hs He Hf Ht Hfit Hcnt] Hpop.
  destruct (pop_spec _ _ _ _ Hwf Hpop) as (Hwf' & _ & Hav & _ & Hst & _ & Hcap).
  split.
  - rewrite app_nil_r in *. split; simpl; try done.
    + eapply wf_perm; [|exact Hwf']. rewrite map_app. simpl. solve_Permutation.
    + unfold buffer_size, states in *. by rewrite Hst, Hcap.
    + eapply Forall_impl; [exact Ho|]. intros k. unfold handed_out. by rewrite Hst.
    + apply Forall_app. split; [|constructor; [|done]].
      * eapply Forall_impl; [exact Hu|]. intros y. unfold available. by rewrite Hst.
      * unfold available in *. by rewrite Hst.
    + intros id st tx. rewrite Hst. apply Hs.
    + by rewrite Hcap.
  - destruct Hav as (st & Hst' & _ & [tx Htx]). exists st, tx. by rewrite Hst.
Qed.

(** Before scheduling, the batches are sent out if the transaction conflicts with them. *)
Lemma make_room L n gen p x entries flights slot tx :
  pass_inv L n gen p [x] entries flights -> gen + total entries <= 2 ^ 64 ->
  exists r p', (if negb (check_locks (p_working p) tx) then flush slot p else Some (Ok tt, p)) = Some (r, p') /\
    match r with
    | Err _ => True
    | Ok _ => exists gen' entries' new,
        pass_inv L n gen' p' [x] entries' (new ++ flights) /\ gen' + total entries' <= gen + total entries /\
        ~ conflict (accounts_with_is_writable tx) (accesses (s_tx <$> concat entries')) /\
        handed (p_common p) (p_common p') new /\ Forall (work_ok slot) new /\
        p_container p' = p_container p
    end.
Proof.
  intros Hp Hg. destruct (check_locks (p_working p) tx) eqn:Hck; simpl.
  - eexists _, _. split; [done|]. exists gen, entries, [].
    apply (check_locks_spec _ _ _ (pi_working _ _ _ _ _ _ _ Hp)) in Hck.
    split_and!; try done. intros t' s Hs. exists s. simpl. by rewrite app_nil_r.
  - destruct (flush_spec L n gen p [x] entries flights slot Hp Hg) as (r & p' & -> & Hr).
    eexists _, _. split; [done|]. destruct r as [[]|e]; [|done].
    destruct Hr as (new & Hp' & Hlen & Hh & Hok & Hc & _).
    exists (gen + Z.of_nat (length new)), (replicate n []), new.
    unfold total at 1. rewrite concat_replicate_nil. simpl. split_and!; try done; [lia|].
    apply conflict_nil_r.
Qed.

Lemma skip_inv L n gen p x e entries flights :
  pass_inv L n gen p [x] entries flights ->
  pass_inv L n gen (skip x e (Pass
    (SCommon (consume_work_senders (p_common p)) (in_flight_tracker (p_common p))
       (account_locks (p_common p)) (batches (p_common p)))
    (p_working p) (p_unschedulables p) (p_container p) (p_budget p) (p_threads p)
    (p_scheduled p) (p_sent p) (p_conflicts p) (p_refused p))) [] entries flights.
Proof.
  intros [Hc Hw Ha Hwf Hsz Ho Hu Hs He Hf Ht Hfit Hcnt].
  split; simpl; rewrite ?app_nil_r; try done. by destruct Hc.
Qed.

(** A scheduling attempt: the lock table decides, bundles may veto. *)
Lemma attempt_spec bundles L n gen p x entries flights st tx sel :
  pass_inv L n gen p [x] entries flights -> Locks.valid_selector n sel ->
  states (p_container p) !! pid_id x = Some st -> transaction st = Some tx ->
  exists r locks', try_schedule_transaction bundles st (account_locks (p_common p)) (p_threads p) sel =
      Some (r, locks') /\
    match r with
    | Err _ => locks' = account_locks (p_common p)
    | Ok ((t, tx', age, co), st') =>
        bundle_conflict bundles tx = false /\ (t < n)%nat /\
        tx' = tx /\ age = max_age st /\ co = cost st /\
        st' = TState None (max_age st) (priority st) (cost st) /\
        Locks.num_threads locks' = n /\
        Locks.inv locks' (Locks.held_of ((t, keys_of tx) :: outstanding entries flights))
    end.
Proof.
  intros Hp Hsel Hst Htx. unfold try_schedule_transaction. rewrite Htx. simpl.
  destruct (bundle_conflict bundles tx) eqn:Hbc; [by eexists _, _|].
  pose proof (pi_common _ _ _ _ _ _ _ Hp) as [_ Hth _ _ _ Hinv].
  destruct (Locks.try_lock_cases (Locks.Session (account_locks (p_common p)) (outstanding entries flights))
    (keys_of tx) (p_threads p) sel) as (r & locks' & Hlock & Hr); simpl.
  - done.
  - apply Hp.
  - by rewrite Hth.
  - intros t. eapply fits_one_more; [exact Hp|]. by eapply (pi_states _ _ _ _ _ _ _ Hp).
  - simpl in Hlock. rewrite Hlock. simpl. destruct r as [t|[]].
    + unfold take_transaction_for_scheduling. rewrite Htx. simpl.
      destruct Hr as ([Ht _] & _ & Hn & Hinv'). simpl in Ht, Hn. rewrite Hth in Ht, Hn.
      eexists _, _. split; [done|]. simpl. by split_and!.
    + destruct Hr as [-> _]. by eexists _, _.
    + destruct Hr as (-> & _). by eexists _, _.
Qed.

Lemma scan_one_spec cfg bundles L n gen p entries flights slot target :
  pass_inv L n gen p [] entries flights -> (n <= 64)%nat ->
  Container.is_empty (p_container p) = false -> gen + total entries + 1 <= 2 ^ 64 ->
  exists r p', scan_one cfg slot target bundles p = Some (r, p') /\
    match r with
    | Err _ => True
    | Ok _ => passed L n (gen + total entries + 1) slot p p' flights
    end.
Proof.
  intros Hp Hn Hne Hg. unfold scan_one.
  destruct (pop (p_container p)) as [[x|] c1] eqn:Hpop.
  2: { apply pop_none in Hpop as [Hq _]. unfold Container.is_empty, queue_size in Hne.
       unfold queued in Hq. by rewrite Hq in Hne. }
  destruct (pop_inv _ _ _ _ _ _ _ _ Hp Hpop) as (Hp0 & st & tx & Hst & Htx).
  set (p0 := Pass _ _ _ _ _ _ _ _ _ _) in Hp0 |- *.
  unfold get_transaction_state. change (slab_map (id_to_transaction_state c1)) with (states c1).
  rewrite Hst. simpl. rewrite Htx. simpl.
  destruct (make_room L n gen p0 x entries flights slot tx Hp0 ltac:(lia)) as (r & p1 & Hroom & Hr).
  simpl in Hroom. rewrite Hroom. simpl. destruct r as [[]|e]; [|by eexists _, _].
  destruct Hr as (gen1 & entries1 & new1 & Hp1 & Hg1 & Hnc & Hh1 & Hok1 & Hc1).
  pose proof (selector_valid _ _ _ _ _ (pi_common _ _ _ _ _ _ _ Hp1)) as Hsel.
  assert (states (p_container p1) !! pid_id x = Some st) as Hst1 by (by rewrite Hc1).
  destruct (attempt_spec bundles L n gen1 p1 x entries1 _ st tx _ Hp1 Hsel Hst1 Htx)
    as (r & locks' & -> & Hr). simpl.
  destruct r as [[[[[t tx'] age] co] st']|e].
  - destruct Hr as (_ & Ht & -> & -> & -> & -> & Hnt & Hinv).
    destruct (place_spec cfg L n gen1 p1 x entries1 (new1 ++ flights) slot target t st tx locks')
      as (r & p2 & -> & Hr); try done; [lia|].
    eexists _, _. split; [done|]. destruct r as [[]|e]; [|done].
    destruct Hr as [(gen2 & entries2 & new2 & Hp2 & Hg2 & Hh2 & Hok2)]. split.
    exists gen2, entries2, (new1 ++ new2). split_and!; [|lia| |by apply Forall_app].
    + eapply pass_inv_perm; [|exact Hp2]. solve_Permutation.
    + by eapply handed_trans.
  - rewrite Hr. eexists _, _. split; [done|]. split. exists gen1, entries1, new1.
    split_and!; [by apply skip_inv|lia|done|done].
Qed.

Lemma scan_spec cfg bundles L n slot target flights scans : forall gen p entries,
  pass_inv L n gen p [] entries flights -> (n <= 64)%nat ->
  gen + total entries + Z.of_nat scans <= 2 ^ 64 ->
  exists r p', scan cfg slot target bundles scans p = Some (r, p') /\
    match r with
    | Err _ => True
    | Ok _ => passed L n (gen + total entries + Z.of_nat scans) slot p p' flights
    end.
Proof.
  assert (forall gen p entries bound, pass_inv L n gen p [] entries flights ->
    gen + total entries <= bound -> passed L n bound slot p p flights) as Hstop.
  { intros gen p entries bound Hp Hb. split. exists gen, entries, []. split_and!; try done.
    apply handed_refl. }
  revert flights Hstop. induction scans as [|scans IH]; intros flights Hstop gen p entries Hp Hn Hg; simpl.
  { eexists _, _. split; [done|]. eapply Hstop; [done|lia]. }
  destruct (_ && _ && _) eqn:Hcond.
  2: { eexists _, _. split; [done|]. eapply Hstop; [done|lia]. }
  apply andb_true_iff in Hcond as [_ Hne%negb_true_iff].
  destruct (scan_one_spec cfg (bundles scans) L n gen p entries flights slot target Hp Hn Hne ltac:(lia))
    as (r & p1 & -> & Hr). simpl.
  destruct r as [[]|e]; [|by eexists _, _].
  destruct Hr as [(gen1 & entries1 & new1 & Hp1 & Hg1 & Hh1 & Hok1)].
  destruct (IH (new1 ++ flights)) with (gen := gen1) (p := p1) (entries := entries1)
    as (r & p2 & -> & Hr); [|done|done|lia|].
  { intros gen0 p0 entries0 bound Hp0 Hb0. split. exists gen0, entries0, []. split_and!; try done.
    apply handed_refl. }
  eexists _, _. split; [done|]. destruct r as [[]|e]; [|done].
  destruct Hr as [(gen2 & entries2 & new2 & Hp2 & Hg2 & Hh2 & Hok2)]. split.
  exists gen2, entries2, (new1 ++ new2). split_and!; [|lia|by eapply handed_trans|by apply Forall_app].
  eapply pass_inv_perm; [|exact Hp2]. solve_Permutation.
Qed.

(** ** A whole pass *)

(** Between passes: nothing batched, nothing set aside, every pending id in flight. *)
Record sched_inv (L n : nat) (gen : Z) (self : GreedyScheduler) (c : TransactionStateContainer)
    (flights : list flight) : Prop := {
  si_common : common_inv n gen (common self) (replicate n []) flights;
  si_working : working_account_set self = empty_sets;
  si_unsched : unschedulables self = [];
  si_wf : Container.wf c (flight_ids flights);
  si_size : (buffer_size c <= capacity c)%nat;
  si_out : Forall (handed_out c) (flight_ids flights);
  si_states : forall id st tx, states c !! id = Some st -> transaction st = Some tx -> tx_ok L tx;
  si_flights : Forall (flight_ok L) flights;
  si_threads : (0 < n <= 64)%nat;
  si_fits : Z.of_nat (L * capacity c) <= U32_MAX
}.

Lemma sched_inv_perm L n gen self c f1 f2 :
  f1 ≡ₚ f2 -> sched_inv L n gen self c f1 -> sched_inv L n gen self c f2.
Proof.
  intros Hp [Hc Hw Hu Hwf Hsz Ho Hs Hf Hn Hfit].
  assert (flight_ids f1 ≡ₚ flight_ids f2) as Hfi.
  { unfold flight_ids. rewrite <- !flat_map_concat_map. by rewrite Hp. }
  split; try done.
  - by eapply common_inv_perm.
  - eapply wf_perm; [|exact Hwf]. done.
  - by rewrite <- Hfi.
  - by rewrite <- Hp.
Qed.

Lemma initial_threads_spec n target cus :
  length cus = n -> (n <= 64)%nat ->
  exists s, initial_threads n target cus = Some s /\ ThreadSets.wf s.
Proof.
  intros Hl Hn. unfold initial_threads.
  destruct (foldM_inv (fun s t => c ← cus !! t; Some (if target <=? c then remove s t else s))
    (fun _ s => ThreadSets.wf s) (seq 0 n) [] (any n)) as (s & Hs & Hwf).
  - by apply wf_any.
  - intros pre t s Hwf Ht. apply elem_of_seq in Ht.
    destruct (lookup_lt_is_Some_2 cus t) as [c ->]; [lia|]. simpl. eexists. split; [done|].
    destruct (_ <=? _); [|done]. apply wf_remove; [lia|done].
  - eauto.
Qed.

Lemma start_inv L n gen self c flights budget threads :
  sched_inv L n gen self c flights -> ThreadSets.wf threads ->
  pass_inv L n gen (Pass (common self) (working_account_set self) (unschedulables self) c budget
    threads 0 0 0 0) [] (replicate n []) flights.
Proof.
  intros [Hc Hw Hu Hwf Hsz Ho Hs Hf Hn Hfit] Ht.
  assert (concat (replicate n []) = @nil scheduled) as Hnil by apply concat_replicate_nil.
  split; simpl; rewrite ?Hnil, ?Hw, ?Hu; simpl; try done; [apply rw_holds_empty|].
  unfold total. by rewrite Hnil.
Qed.

(** The end of a pass: unschedulable transactions return to the queue. *)
Lemma finish_inv L n gen p flights cfg :
  pass_inv L n gen p [] (replicate n []) flights -> (0 < n <= 64)%nat ->
  p_working p = empty_sets ->
  exists k c', push_ids_into_queue (p_container p) (p_unschedulables p) = Some (k, c') /\
    queued c' ≡ₚ p_unschedulables p ++ queued (p_container p) /\
    p_scheduled p = p_sent p /\
    sched_inv L n gen (MkGreedy (p_common p) (p_working p) [] cfg) c' flights.
Proof.
  intros [Hc Hw Ha Hwf Hsz Ho Hu Hs He Hf Ht Hfit Hcnt] Hn Hwork.
  assert (concat (replicate n []) = @nil scheduled) as Hnil by apply concat_replicate_nil.
  rewrite Hnil in *. simpl in *. rewrite app_nil_r in Hwf, Hu.
  destruct (push_spec (p_container p) (p_unschedulables p) (flight_ids flights) Hwf Hu ltac:(lia))
    as (dropped & c' & -> & [Hq Hd Hlow Hst _ Hh Hcap Hwf'] & Hsz').
  assert (dropped = []) as -> by (destruct dropped; [done|]; simpl in Hd; lia).
  assert (states c' = states (p_container p)) as Hsteq.
  { apply map_eq. intros k. by rewrite Hst by apply not_elem_of_nil. }
  eexists _, c'. split; [done|]. simpl in Hq.
  split_and!; [by symmetry|unfold total in Hcnt; rewrite Hnil in Hcnt; simpl in Hcnt; lia|].
  split; simpl; try done.
  - by rewrite Hcap.
  - eapply Forall_impl; [exact Ho|]. intros k. unfold handed_out. by rewrite Hsteq.
  - intros id st tx. rewrite Hsteq. apply Hs.
  - by rewrite Hcap.
Qed.

Lemma schedule_spec bundles L n gen budget slot self c flights :
  sched_inv L n gen self c flights ->
  gen + Z.of_nat (max_scanned_transactions_per_scheduling_pass (config self)) <= 2 ^ 64 ->
  exists r self' c', schedule bundles budget slot self c = Some (r, self', c') /\
    match r with
    | Err _ => True
    | Ok summary => exists gen' new,
        sched_inv L n gen' self' c' (new ++ flights) /\
        gen' <= gen + Z.of_nat (max_scanned_transactions_per_scheduling_pass (config self)) /\
        handed (common self) (common self') new /\ Forall (work_ok slot) new /\
        config self' = config self
    end.
Proof.
  intros Hs Hg. unfold schedule.
  pose proof (si_common _ _ _ _ _ _ Hs) as Hc. pose proof (si_threads _ _ _ _ _ _ Hs) as Hn.
  rewrite (ci_senders _ _ _ _ _ Hc).
  destruct (initial_threads_spec n (target_scheduled_cus (config self) / Z.of_nat n)
    (cus_in_flight_per_thread (in_flight_tracker (common self)))) as (threads & -> & Hwt).
  { apply (tr_cus_len _ _ _ _ (ci_tracker _ _ _ _ _ Hc)). }
  { lia. }
  simpl. destruct (ThreadSets.is_empty threads) eqn:Hem.
  { eexists _, _, _. split; [done|]. exists gen, []. split_and!; try done; [lia|apply handed_refl]. }
  assert (total (replicate n (@nil scheduled)) = 0) as Htot
    by (unfold total; by rewrite concat_replicate_nil).
  destruct (scan_spec (config self) bundles L n slot (target_scheduled_cus (config self) / Z.of_nat n) flights
    (max_scanned_transactions_per_scheduling_pass (config self)) gen _ _
    (start_inv L n gen self c flights
       (sat_sub budget (wrap 64 (Zsum (fun x => x) (cus_in_flight_per_thread (in_flight_tracker (common self))))))
       threads Hs Hwt)) as (r & p1 & Hscan & Hr); [lia|lia|].
  rewrite Hscan. simpl. destruct r as [[]|e]; [|by eexists _, _, _].
  destruct Hr as [(gen1 & entries1 & new1 & Hp1 & Hg1 & Hh1 & Hok1)]. simpl in Hh1.
  destruct (Greedy.flush_spec L n gen1 p1 [] entries1 (new1 ++ flights) slot Hp1 ltac:(lia)) as (r & p2 & -> & Hr).
  simpl. destruct r as [[]|e]; [|by eexists _, _, _].
  destruct Hr as (new2 & Hp2 & Hlen & Hh2 & Hok2 & _ & _ & _ & Hwork).
  destruct (finish_inv L n _ p2 _ (config self) Hp2 Hn Hwork) as (k & c' & -> & _ & -> & Hs').
  rewrite Nat.eqb_refl. simpl. eexists _, _, _. split; [done|].
  exists (gen1 + Z.of_nat (length new2)), (new1 ++ new2).
  split_and!; [|lia|by eapply handed_trans|by apply Forall_app|done].
  eapply sched_inv_perm; [|exact Hs']. solve_Permutation.
Qed.

(** ** Completed batches *)

Lemma zip_ids (ids : list nat) (txs : list Tx) (ds : list (option bool)) :
  length ids = length txs -> length ds = length txs -> map (fun d => d.1.1) (zip (zip ids txs) ds) = ids.
Proof.
  revert txs ds. induction ids as [|i ids IH]; intros [|tx txs] [|d ds] H1' H2'; simplify_eq/=; [done..|].
  f_equal. auto.
Qed.

Lemma receive_spec L n gen self c f flights retryable :
  sched_inv L n gen self c (f :: flights) ->
  exists common' c', try_receive_completed (Received (Finished (f_work f) retryable)) (common self) c =
      Some (Ok (length (work_ids (f_work f)), length retryable), common', c') /\
    sched_inv L n gen (MkGreedy common' (working_account_set self) (unschedulables self) (config self)) c' flights /\
    (StronglySorted lt retryable.*1 -> forall i id tx,
       work_ids (f_work f) !! i = Some id -> work_transactions (f_work f) !! i = Some tx ->
       if decide (i ∈ retryable.*1)
       then exists st, states c' !! id = Some st /\ transaction st = Some tx
       else states c' !! id = None).
Proof.
  intros [Hc Hw Hu Hwf Hsz Ho Hs Hf Hn Hfit]. unfold try_receive_completed.
  destruct (complete_spec _ _ _ _ _ _ Hc) as (common' & -> & Hc' & _). simpl.
  apply Forall_cons in Hf as [(Hlen & Htok & _) Hf].
  set (txs := zip (work_ids (f_work f)) (work_transactions (f_work f))).
  assert (length txs = length (work_transactions (f_work f))) as Hltxs
    by (unfold txs; rewrite length_zip_with; lia).
  set (ds := decisions 0 retryable (length txs)).
  assert (map (fun d => d.1.1) (zip txs ds) = work_ids (f_work f)) as Hids.
  { apply zip_ids; [done|]. unfold ds. rewrite length_decisions. done. }
  rewrite finish_decisions. fold ds. change (flight_ids (f :: flights)) with (work_ids (f_work f) ++ flight_ids flights) in *.
  apply Forall_app in Ho as [Ho1 Ho2].
  destruct (finish_each (zip txs ds) c (flight_ids flights)) as (c' & -> & Hwf' & Hcap & Hsz' & Hsame & Hds);
    [by rewrite Hids|by rewrite Hids|done|]. simpl.
  exists common', c'. split; [done|]. rewrite Hids in Hsame.
  assert (forall k st tx, states c' !! k = Some st -> transaction st = Some tx -> tx_ok L tx) as Hs'.
  { intros k st tx Hst Htx. destruct (decide (k ∈ work_ids (f_work f))) as [Hk|Hk].
    - rewrite <- Hids in Hk. apply list_elem_of_fmap in Hk as (d & -> & Hd).
      rewrite Forall_forall in Hds. specialize (Hds d Hd). destruct (d.2) as [im|] eqn:Hd2.
      + destruct Hds as (st' & Hst' & Htx'). assert (d.1.2 = tx) as <- by congruence.
        rewrite Forall_forall in Htok. apply Htok.
        destruct d as [[id tx0] o]. apply elem_of_zip_l in Hd. by apply elem_of_zip_r in Hd.
      + rewrite Hst in Hds. done.
    - rewrite Hsame in Hst by done. by eapply Hs. }
  split.
  - split; simpl; try done; [by rewrite Hcap| |by rewrite Hcap].
    pose proof (wf_pending_NoDup _ _ Hwf) as Hnd. apply NoDup_app in Hnd as (_ & Hdis & _).
    rewrite Forall_forall in Ho2 |- *. intros k Hk. destruct (Ho2 k Hk) as (st & Hst & ?).
    exists st. split; [|done]. rewrite Hsame; [done|]. intros Hin. by apply (Hdis k).
  - intros Hsorted i id tx Hi Htx.
    assert (txs !! i = Some (id, tx)) as Hlook by (by apply lookup_zip_Some).
    pose proof (decisions_lookup (length txs) 0 retryable i Hsorted) as Hdec.
    specialize (Hdec ltac:(apply Forall_forall; intros; lia) ltac:(by apply lookup_lt_Some in Hlook)).
    fold ds in Hdec. simpl in Hdec. destruct (ds !! i) as [d|] eqn:Hd; [|done].
    assert (((id, tx), d) ∈ zip txs ds) as Hin
      by (apply list_elem_of_lookup_2 with i; by apply lookup_zip_Some).
    rewrite Forall_forall in Hds. specialize (Hds _ Hin). simpl in Hds. destruct d as [im|].
    + rewrite decide_True; [done|]. apply list_elem_of_fmap. by exists (i, im).
    + by rewrite decide_False.
Qed.

(** ** The scheduler with its container and its workers *)

(** [scans] bounds the batch ids generated so far. *)
Record system : Type := System {
  scheduler : GreedyScheduler;
  container : TransactionStateContainer;
  flights : list flight;
  scans : Z
}.

(** The flights a pass added, as the workers and the tracker see them. *)
Definition launched (n : nat) (c c' : @SchedulingCommon Key _ _ Tx MaxAge _) (new : list flight) : Prop :=
  handed c c' new /\
  Forall (fun f => (f_thread f < n)%nat /\
    tracked (in_flight_tracker c') !! batch_id (f_work f) =
      Some (Tracker.Entry (f_thread f) (Z.of_nat (length (work_ids (f_work f)))) (f_cus f))) new.

Inductive step (L n : nat) : system -> system -> Prop :=
| step_schedule g c fs k bundles budget slot summary g' c' new :
    let k' := k + Z.of_nat (max_scanned_transactions_per_scheduling_pass (config g)) in
    k' <= 2 ^ 64 ->
    schedule bundles budget slot g c = Some (Ok summary, g', c') ->
    launched n (common g) (common g') new ->
    step L n (System g c fs k) (System g' c' (new ++ fs) k')
| step_receive g c fs1 f fs2 k retryable r common' c' :
    try_receive_completed (Received (Finished (f_work f) retryable)) (common g) c =
      Some (Ok r, common', c') ->
    step L n (System g c (fs1 ++ f :: fs2) k)
      (System (MkGreedy common' (working_account_set g) (unschedulables g) (config g)) c' (fs1 ++ fs2) k)
| step_insert g c fs k tx ma pr co b c' :
    tx_ok L tx -> insert_new_transaction c tx ma pr co = Some (b, c') ->
    step L n (System g c fs k) (System g c' fs k)
| step_flush_held g c fs k c' :
    flush_held_transactions c = Some c' -> step L n (System g c fs k) (System g c' fs k).

Definition initial (L n cap : nat) (s : system) : Prop :=
  Z.of_nat (L * cap) <= U32_MAX /\ exists senders cfg g, length senders = n /\
    new senders cfg = Some g /\ s = System g (with_capacity cap) [] 0.

Definition system_inv (L n : nat) (s : system) : Prop :=
  exists gen, gen <= scans s /\ sched_inv L n gen (scheduler s) (container s) (flights s).

Lemma launched_unique n gen L self c fs new new' c0 :
  sched_inv L n gen self c (new ++ fs) -> length (consume_work_senders c0) = n ->
  handed c0 (common self) new -> launched n c0 (common self) new' -> new' ≡ₚ new.
Proof.
  intros Hs Hl Hh [Hh' Hn']. pose proof (si_common _ _ _ _ _ _ Hs) as [_ _ _ _ Htr _].
  assert (Forall (fun f => (f_thread f < n)%nat /\
    tracked (in_flight_tracker (common self)) !! batch_id (f_work f) =
      Some (Tracker.Entry (f_thread f) (Z.of_nat (length (work_ids (f_work f)))) (f_cus f))) new) as Hn.
  { apply Forall_forall. intros f Hin. assert (flight_entry f ∈ map flight_entry (new ++ fs)) as Hfe.
    { apply list_elem_of_fmap_2, elem_of_app. by left. }
    split; [|by apply (tr_map _ _ _ _ Htr)].
    pose proof (tr_threads _ _ _ _ Htr) as Hth. rewrite Forall_forall in Hth. by specialize (Hth _ Hfe). }
  symmetry. apply (Permutation_by_class f_thread). intros t.
  destruct (decide (t < n)%nat) as [Ht|Ht].
  - destruct (lookup_lt_is_Some_2 (consume_work_senders c0) t) as [s Hsnd]; [lia|].
    destruct (Hh t s Hsnd) as (s1 & Hs1 & Hsent1). destruct (Hh' t s Hsnd) as (s2 & Hs2 & Hsent2).
    rewrite Hs1 in Hs2. simplify_eq. rewrite Hsent1 in Hsent2. apply app_inv_head in Hsent2.
    clear Hsent1 Hs1 Hh Hh'. revert Hsent2.
    assert (Forall (fun f => f_thread f = t /\ tracked (in_flight_tracker (common self)) !! batch_id (f_work f) =
      Some (Tracker.Entry (f_thread f) (Z.of_nat (length (work_ids (f_work f)))) (f_cus f)))
      (filter (fun f => f_thread f = t) new)) as H1'.
    { apply Forall_forall. intros f [? Hin]%list_elem_of_filter. rewrite Forall_forall in Hn.
      split; [done|]. by apply Hn. }
    assert (Forall (fun f => f_thread f = t /\ tracked (in_flight_tracker (common self)) !! batch_id (f_work f) =
      Some (Tracker.Entry (f_thread f) (Z.of_nat (length (work_ids (f_work f)))) (f_cus f)))
      (filter (fun f => f_thread f = t) new')) as H2'.
    { apply Forall_forall. intros f [? Hin]%list_elem_of_filter. rewrite Forall_forall in Hn'.
      split; [done|]. by apply Hn'. }
    revert H1' H2'. generalize (filter (fun f => f_thread f = t) new), (filter (fun f => f_thread f = t) new').
    clear. intros l1. induction l1 as [|f1 l1 IH]; intros [|f2 l2] H1' H2' Heq; simplify_eq/=; [done|].
    apply Forall_cons in H1' as [[? Ht1] H1']. apply Forall_cons in H2' as [[? Ht2] H2'].
    destruct f1 as [t1 w1 c1], f2 as [t2 w2 c2]. simpl in *. subst. rewrite Ht1 in Ht2. simplify_eq.
    f_equal. by apply IH.
  - assert (forall l : list flight, Forall (fun f => (f_thread f < n)%nat) l -> filter (fun f => f_thread f = t) l = []) as Hnone.
    { intros l Hl'. induction Hl' as [|f l Hf _ IH]; [done|]. rewrite filter_cons_False; [done|]. lia. }
    rewrite !Hnone; [done|..]; (eapply Forall_impl; [eassumption|]); naive_solver.
Qed.

Lemma outstanding_nil n : outstanding (replicate n (@nil scheduled)) [] = [].
Proof.
  apply nil_length_inv. rewrite (length_outstanding _ [] 0) by constructor.
  by rewrite concat_replicate_nil.
Qed.

Lemma initial_inv L n cap s : initial L n cap s -> system_inv L n s.
Proof.
  intros (Hfit & senders & cfg & g & Hl & Hnew & ->). exists 0. split; [done|]. simpl.
  unfold new, Common.new in Hnew. destruct (_ && _) eqn:Hb; [|done].
  destruct (Locks.new (length senders)) as [tbl|] eqn:Htbl; [|done]. simpl in Hnew. simplify_eq.
  destruct (Locks.inv_new _ _ Htbl) as [Hinv Hnt].
  apply andb_true_iff in Hb as [H1'%Nat.ltb_lt H2'%Nat.leb_le]. unfold MAX_THREADS in *.
  destruct (with_capacity_spec cap) as [Hwf Hbs].
  split; simpl; try done; [|by rewrite Hbs; lia|].
  - split; simpl; try done; [apply length_replicate|by rewrite batches_of_new|apply tracks_new|].
    by rewrite outstanding_nil.
  - intros id st tx. unfold states. simpl. by rewrite slab_map_with_capacity, lookup_empty.
Qed.

Lemma insert_inv L n gen g c fs tx ma pr co b c' :
  sched_inv L n gen g c fs -> tx_ok L tx -> insert_new_transaction c tx ma pr co = Some (b, c') ->
  sched_inv L n gen g c' fs.
Proof.
  intros [Hc Hw Hu Hwf Hsz Ho Hs Hf Hn Hfit] Htx Hi.
  destruct (insert_new_spec c (flight_ids fs) tx ma pr co Hwf Hsz)
    as (b2 & c2 & dropped & k & Hi2 & Hwf2 & Hcap2 & Hsz2 & _ & _ & _ & _ & _ & Hst2 & Hsame2).
  rewrite Hi in Hi2. injection Hi2 as <- <-. split; simpl; try done; [by rewrite Hcap2|..].
  - rewrite Forall_forall in Ho |- *. intros id Hid. unfold handed_out. rewrite Hsame2 by done. by apply Ho.
  - intros id st tx0 Hst Htx0. destruct (Hst2 id) as [Hnone|Hsome]; [congruence|].
    rewrite Hsome in Hst. destruct (decide (id = k)) as [->|Hne].
    + rewrite lookup_insert_eq in Hst. injection Hst as <-. simpl in Htx0. by injection Htx0 as <-.
    + rewrite lookup_insert_ne in Hst by done. by eapply Hs.
  - by rewrite Hcap2.
Qed.

Lemma system_reachable L n cap s : reachable (initial L n cap) (step L n) s -> system_inv L n s.
Proof.
  apply invariant_reachable; [apply initial_inv|]. intros s1 s2 (gen & Hg & Hs) Hstep.
  destruct Hstep as [g c fs k bundles budget slot summary g' c' new k' Hk Hsch Hla
    |g c fs1 f fs2 k retryable r common' c' Hr|g c fs k tx ma pr co b c' Htx Hi|g c fs k c' Hf]; simpl in Hs, Hg; simpl.
  - destruct (schedule_spec bundles L n gen budget slot g c fs Hs) as (r & g2 & c2 & Hsch2 & Hr); [lia|].
    rewrite Hsch in Hsch2. injection Hsch2 as <- <- <-.
    destruct Hr as (gen' & new' & Hs' & Hg' & Hh & _ & _). exists gen'. simpl. split; [lia|].
    eapply sched_inv_perm; [|exact Hs']. symmetry. f_equiv. eapply launched_unique; [done| |done|done].
    apply (ci_senders _ _ _ _ _ (si_common _ _ _ _ _ _ Hs)).
  - assert (sched_inv L n gen g c (f :: fs1 ++ fs2)) as Hs'.
    { eapply sched_inv_perm; [|exact Hs]. solve_Permutation. }
    destruct (receive_spec L n gen g c f (fs1 ++ fs2) retryable Hs') as (common2 & c2 & Hr2 & Hs2 & _).
    rewrite Hr in Hr2. injection Hr2 as _ <- <-. by exists gen.
  - exists gen. split; [done|]. by eapply insert_inv.
  - exists gen. split; [done|]. destruct Hs as [Hc Hw Hu Hwf Hsz Ho Hs Hfl Hn Hfit].
    destruct (Container.flush_held_spec c _ Hwf Hsz) as (c2 & Hf2 & Hwf2 & Hst2 & _ & _ & Hcap2).
    rewrite Hf in Hf2. injection Hf2 as <-. split; simpl; try done.
    + unfold buffer_size, states in *. by rewrite Hst2, Hcap2.
    + eapply Forall_impl; [exact Ho|]. intros x. unfold handed_out. by rewrite Hst2.
    + intros id st tx. rewrite Hst2. apply Hs.
    + by rewrite Hcap2.
Qed.

(** C8: transactions in flight never race. In every state the scheduler, its
    container and its workers can reach, two in-flight transactions of which one
    writes an account the other touches are on the same worker thread (whose
    queue serialises them), and no batch contains two conflicting transactions,
    so that a worker never fails to lock its own batch. *)
Theorem greedy_in_flight_exclusive L n cap s f1 f2 tx1 tx2 :
  reachable (initial L n cap) (step L n) s -> f1 ∈ flights s -> f2 ∈ flights s ->
  pairwise (fun t1 t2 => ~ conflicting t1 t2) (work_transactions (f_work f1)) /\
  (tx1 ∈ work_transactions (f_work f1) -> tx2 ∈ work_transactions (f_work f2) ->
   conflicting tx1 tx2 -> f_thread f1 = f_thread f2).
Proof.
  intros (gen & _ & Hs)%system_reachable H1' H2'. split.
  - pose proof (si_flights _ _ _ _ _ _ Hs) as Hf. rewrite Forall_forall in Hf.
    by destruct (Hf f1 H1') as (_ & _ & ?).
  - intros Ht1 Ht2 Hc. pose proof (ci_locks _ _ _ _ _ (si_common _ _ _ _ _ _ Hs)) as Hinv.
    assert (forall f tx, f ∈ flights s -> tx ∈ work_transactions (f_work f) ->
      (f_thread f, keys_of tx) ∈ outstanding (replicate n []) (flights s)) as Hin.
    { intros f tx Hf Htx. unfold outstanding. apply elem_of_app. right.
      apply list_elem_of_In, in_concat. exists (flight_locks f). split.
      - apply in_map, list_elem_of_In. done.
      - apply list_elem_of_In. unfold flight_locks. apply list_elem_of_fmap. eauto. }
    eapply (Locks.inv_exclusive _ _ _ (keys_of tx1) _ (keys_of tx2) Hinv); [by apply Hin|by apply Hin|].
    eapply conflict_perm; [..|exact Hc]; symmetry; apply tx_accesses_keys.
Qed.

(** The scheduler never panics. In every reachable state a pass (whatever
    the bundle locks, budget and slot) and the receipt of any in-flight batch
    with any retryable indexes run to completion: no assertion fails (locks
    available, scheduled equals sent, transaction state present), no index is
    out of bounds, and a pass fails only when a worker is gone. *)
Lemma greedy_total L n cap s :
  reachable (initial L n cap) (step L n) s ->
  (forall bundles budget slot,
     scans s + Z.of_nat (max_scanned_transactions_per_scheduling_pass (config (scheduler s))) <= 2 ^ 64 ->
     exists r g' c', schedule bundles budget slot (scheduler s) (container s) = Some (r, g', c')) /\
  (forall f retryable, f ∈ flights s ->
     exists r common' c', try_receive_completed (Received (Finished (f_work f) retryable))
       (common (scheduler s)) (container s) = Some (Ok r, common', c')).
Proof.
  intros (gen & Hg & Hs)%system_reachable. split.
  - intros bundles budget slot Hb.
    destruct (schedule_spec bundles L n gen budget slot _ _ _ Hs ltac:(lia)) as (r & g' & c' & ? & _). eauto.
  - intros f retryable (fs1 & fs2 & Hfs)%list_elem_of_split. rewrite Hfs in Hs.
    assert (sched_inv L n gen (scheduler s) (container s) (f :: fs1 ++ fs2)) as Hs'.
    { eapply sched_inv_perm; [|exact Hs]. solve_Permutation. }
    destruct (receive_spec L n gen _ _ f (fs1 ++ fs2) retryable Hs') as (common' & c' & ? & _). eauto.
Qed.

(** Every transaction is accounted for. In every reachable state the ids of
    the container are exactly those queued, held and in flight, each once; ids
    in flight have handed out their transaction, all others still have it; and
    the tracker's per-thread transaction and compute-unit counts are those of
    the batches in flight (modulo 2^64). *)
Lemma greedy_conserves L n cap s :
  reachable (initial L n cap) (step L n) s ->
  let c := container s in
  let tracker := in_flight_tracker (common (scheduler s)) in
  map pid_id (queued c) ++ map pid_id (held_transactions c) ++ flight_ids (flights s) ≡ₚ keys (states c) /\
  Forall (handed_out c) (flight_ids (flights s)) /\
  Forall (available c) (queued c ++ held_transactions c) /\
  forall t, (t < n)%nat ->
    num_in_flight_per_thread tracker !! t =
      Some (wrap 64 (Zsum (fun f => if decide (f_thread f = t) then Z.of_nat (length (work_ids (f_work f))) else 0)
        (flights s))) /\
    cus_in_flight_per_thread tracker !! t =
      Some (wrap 64 (Zsum (fun f => if decide (f_thread f = t) then f_cus f else 0) (flights s))).
Proof.
  intros (gen & Hg & Hs)%system_reachable c tracker. subst c tracker.
  destruct Hs as [Hc _ _ [Hk Hav _] _ Ho _ _ _ _]. split_and!; [done|done|done|].
  intros t Ht. destruct (ci_tracker _ _ _ _ _ Hc) as [_ _ Hnum Hcus _ _ _ _ _].
  rewrite Hnum, Hcus by done.
  assert (forall h, Zsum (on_thread t h) (map flight_entry (flights s)) =
    Zsum (fun f => on_thread t h (flight_entry f)) (flights s)) as Hmap.
  { intros h. generalize (flights s). clear. intros l. induction l as [|f l IH]; [done|]. simpl. by rewrite IH. }
  by rewrite !Hmap.
Qed.

(** Completed batches settle. When a worker returns an in-flight batch with
    its retryable indexes in increasing order, exactly the transactions at those
    indexes are available again, with the transaction the worker gave back, and
    all others have left the container. *)
Lemma completed_batches_settle L n cap s f retryable :
  reachable (initial L n cap) (step L n) s -> f ∈ flights s -> StronglySorted lt retryable.*1 ->
  exists r common' c', try_receive_completed (Received (Finished (f_work f) retryable))
      (common (scheduler s)) (container s) = Some (Ok r, common', c') /\
    forall i id tx, work_ids (f_work f) !! i = Some id -> work_transactions (f_work f) !! i = Some tx ->
      if decide (i ∈ retryable.*1)
      then exists st, states c' !! id = Some st /\ transaction st = Some tx
      else states c' !! id = None.
Proof.
  intros (gen & Hg & Hs)%system_reachable (fs1 & fs2 & Hfs)%list_elem_of_split Hsorted. rewrite Hfs in Hs.
  assert (sched_inv L n gen (scheduler s) (container s) (f :: fs1 ++ fs2)) as Hs'.
  { eapply sched_inv_perm; [|exact Hs]. solve_Permutation. }
  destruct (receive_spec L n gen _ _ f (fs1 ++ fs2) retryable Hs') as (common' & c' & Hr & _ & Hi).
  eexists _, common', c'. split; [exact Hr|]. by apply Hi.
Qed.

Lemma bundle_conflict_spec bundles h tx :
  Bundle.bundle_holds bundles h ->
  bundle_conflict bundles tx = true <-> conflict (accounts_with_is_writable tx) h.
Proof.
  intros [Hw Hr]. simpl in *.
  assert (forall w m k, Counters.counts (fun k => acc_count w k h) m -> is_Some (m !! k) <-> (k, w) ∈ h) as Hin.
  { intros w m k Hm. rewrite (Hm k). pose proof (acc_count_zero w k h).
    case_decide; rewrite is_Some_alt; [tauto|]. destruct (decide ((k, w) ∈ h)); tauto. }
  assert (forall k w, k ∈ (if w : bool then write_account_locks tx else read_account_locks tx) <->
    (k, w) ∈ accounts_with_is_writable tx) as Hacc.
  { intros k w. destruct w; unfold write_account_locks, read_account_locks; rewrite list_elem_of_fmap;
      setoid_rewrite list_elem_of_filter; (split; [intros ([k' w'] & -> & ? & ?); simplify_eq/=; done|]);
      intros; by eexists (k, _). }
  unfold bundle_conflict. rewrite orb_true_iff, !existsb_exists.
  setoid_rewrite <- list_elem_of_In. setoid_rewrite orb_true_iff. setoid_rewrite bool_decide_eq_true.
  setoid_rewrite (Hin true _ _ Hw). setoid_rewrite (Hin false _ _ Hr).
  rewrite conflict_Exists, Exists_exists. unfold writes, touches. split.
  - intros [(k & Hk & Hh)|(k & Hk & Hh)].
    + exists (k, false). split; [by apply (Hacc k false)|]. by left.
    + exists (k, true). split; [by apply (Hacc k true)|]. right. split; [done|]. naive_solver.
  - intros ([k []] & Hk & Hc); simpl in *; apply Hacc in Hk.
    + right. exists k. split; [done|]. destruct Hc as [|[_ [[] ?]]]; auto.
    + left. exists k. split; [done|]. destruct Hc as [|[? _]]; [done|done].
Qed.

(** Bundles keep their accounts. While the bundle lock table counts the
    accesses [h] of the outstanding bundles, a transaction is scheduled only if
    it does not conflict with them; a transaction that does is reported as
    unschedulable and takes no lock. *)
Lemma scheduled_avoids_bundles bundles h st locks threads sel tx :
  Bundle.bundle_holds bundles h -> transaction st = Some tx ->
  (forall info st' locks', try_schedule_transaction bundles st locks threads sel =
     Some (Ok (info, st'), locks') -> ~ conflict (accounts_with_is_writable tx) h) /\
  (conflict (accounts_with_is_writable tx) h ->
   try_schedule_transaction bundles st locks threads sel = Some (Err UnschedulableConflicts, locks)).
Proof.
  intros Hb Htx. pose proof (bundle_conflict_spec bundles h tx Hb) as Hbc.
  unfold try_schedule_transaction. rewrite Htx. simpl. split.
  - intros info st' locks' Hs Hc. apply Hbc in Hc. by rewrite Hc in Hs.
  - intros Hc. apply Hbc in Hc. by rewrite Hc.
Qed.

End Greedy.

(** ** Examples: two workers, three transactions *)
Section Example.
Import SampleMessage SampleStructures.

Abbreviation sample_tx := (list (nat * bool)).
Abbreviation sample_work := (@ConsumeWork sample_tx nat).

Definition queue_send (s : list sample_work * bool) (w : sample_work) : option (list sample_work * bool) :=
  if s.2 then Some (s.1 ++ [w], s.2) else None.

Lemma queue_send_accepts s w s' : queue_send s w = Some s' -> s'.1 = s.1 ++ [w].
Proof. unfold queue_send. destruct (s.2); [|done]. by intros [= <-]. Qed.

#[local] Instance queue_channel : Channel sample_work := {|
  sender := list sample_work * bool; sent s := s.1; send := queue_send; send_accepts := queue_send_accepts
|}.

Abbreviation sample_scheduler := (@GreedyScheduler nat _ _ sample_tx nat _).
Abbreviation sample_container := (@TransactionStateContainer sample_tx nat _ _).

Definition sample_config : GreedySchedulerConfig := Config 1000000 100 16.

Definition sample_start : sample_scheduler :=
  MkGreedy (SCommon [([], true); ([], true)] (Tracker.new 2) (Locks.Table 2 ∅) (Batching.new 2))
    empty_sets [] sample_config.

(** [tx_b] conflicts with [tx_a]; [tx_c] is independent. *)
Definition tx_a : sample_tx := [(0%nat, true)].
Definition tx_b : sample_tx := [(0%nat, false); (1%nat, true)].
Definition tx_c : sample_tx := [(2%nat, true)].

Definition sample_insert (c : sample_container) (tx : sample_tx) (pr : Z) : sample_container :=
  match insert_new_transaction c tx 0%nat pr 100 with Some (_, c') => c' | None => c end.

Definition sample_filled : sample_container :=
  sample_insert (sample_insert (sample_insert (with_capacity 8) tx_a 10) tx_b 5) tx_c 7.

Definition no_bundles (_ : nat) : @Bundle.BundleAccountLocks nat _ _ := Bundle.no_locks.

Definition sample_pass := schedule no_bundles 1000000 4 sample_start sample_filled.

Definition sample_after : sample_scheduler :=
  match sample_pass with Some (_, g, _) => g | None => sample_start end.
Definition sample_left : sample_container :=
  match sample_pass with Some (_, _, c) => c | None => sample_filled end.

Definition flight_a : @Common.flight sample_tx nat := Flight 0 (Work 0 [1%nat] [tx_a] [0%nat] 4) 100.
Definition flight_c : @Common.flight sample_tx nat := Flight 1 (Work (2 ^ 64 - 1) [3%nat] [tx_c] [0%nat] 4) 100.
Definition flight_b : @Common.flight sample_tx nat := Flight 0 (Work (2 ^ 64 - 2) [2%nat] [tx_b] [0%nat] 4) 100.

Lemma sample_pass_ok : sample_pass = Some (Ok (Summary 3 0 0), sample_after, sample_left).
Proof. vm_compute. reflexivity. Qed.

Lemma sample_launched : launched 2 (common sample_start) (common sample_after) [flight_a; flight_c; flight_b].
Proof.
  split.
  - intros [|[|t]] s Hs; simpl in Hs; simplify_eq;
      (eexists; split; [vm_compute; reflexivity|vm_compute; reflexivity]).
  - repeat constructor; vm_compute; reflexivity.
Qed.

Lemma sample_insert_step g c fs k tx pr :
  tx_ok 4 tx -> is_Some (insert_new_transaction c tx 0%nat pr 100) ->
  step 4 2 (System g c fs k) (System g (sample_insert c tx pr) fs k).
Proof. intros Htx [[b c'] Hi]. unfold sample_insert. rewrite Hi. by eapply step_insert. Qed.

Lemma sample_reachable :
  reachable (initial 4 2 8) (step 4 2)
    (System sample_after sample_left [flight_a; flight_c; flight_b] 100).
Proof.
  eapply reachable_step; [eapply reachable_step; [eapply reachable_step; [eapply reachable_step;
    [apply reachable_init; split; [vm_compute; discriminate|]|]|]|]|].
  - exists [([], true); ([], true)], sample_config, sample_start. split_and!; [reflexivity|vm_compute; reflexivity|reflexivity].
  - apply (sample_insert_step _ _ _ _ tx_a 10).
    + split; [apply NoDup_singleton|simpl; lia].
    + apply is_Some_true. vm_compute. reflexivity.
  - apply (sample_insert_step _ _ _ _ tx_b 5).
    + split; [|simpl; lia]. apply NoDup_cons. split; [|apply NoDup_singleton].
      intros Hin. apply list_elem_of_singleton in Hin. discriminate.
    + apply is_Some_true. vm_compute. reflexivity.
  - apply (sample_insert_step _ _ _ _ tx_c 7).
    + split; [apply NoDup_singleton|simpl; lia].
    + apply is_Some_true. vm_compute. reflexivity.
  - apply (step_schedule 4 2 sample_start sample_filled [] 0 no_bundles 1000000 4 (Summary 3 0 0)
      sample_after sample_left [flight_a; flight_c; flight_b]).
    + vm_compute. discriminate.
    + exact sample_pass_ok.
    + exact sample_launched.
Qed.

Lemma greedy_in_flight_exclusive_witness :
  conflicting tx_a tx_b /\ f_thread flight_a = f_thread flight_b.
Proof.
  assert (conflicting tx_a tx_b) as Hc.
  { exists 0%nat. left. split; [left|exists false; left]. }
  split; [exact Hc|].
  apply (greedy_in_flight_exclusive 4 2 8 _ flight_a flight_b tx_a tx_b sample_reachable);
    [left|right; right; left|left|left|exact Hc].
Defined.

End Example.
End Greedy.
