(* ===== verification/UsageQueue.v ===== *)
(** * Usage queues of the unified scheduler

    src/unified-scheduler-logic: tasks lock one usage queue per account they
    touch. A task that finds a queue occupied waits in it, and its counter of
    blocked usages says in how many queues it waits; it can run when the counter
    is zero. [Queues] has both kinds of queues: first come first served for block
    verification, and by priority for block production, where a task of higher
    priority takes a queue back from tasks that cannot run yet.

    Each queue stands for the tasks that hold it and the tasks that wait in it
    ([held_by], [waiting]); [ordered] is what the order of service needs, and the
    specifications of locking and unlocking one queue ([lock_queue_spec],
    [unlock_queue_spec]) hold for both kinds. A panic of the source (an
    assertion, an [unwrap], a counter overflow) is [None]. *)

From S2P Require Import Prelude Accounts.

(** ** Ordered maps: [BTreeMap] with [u128] keys, as the list of its entries *)
Module BTree.
Section BTree.
Context {A : Type}.

Fixpoint insert (k : Z) (v : A) (m : list (Z * A)) : option (list (Z * A)) :=
  match m with
  | [] => Some [(k, v)]
  | (k', v') :: rest =>
      if k <? k' then Some ((k, v) :: m)
      else if k =? k' then None
      else rest' ← insert k v rest; Some ((k', v') :: rest')
  end.

Fixpoint remove (k : Z) (m : list (Z * A)) : option (A * list (Z * A)) :=
  match m with
  | [] => None
  | (k', v') :: rest =>
      if k =? k' then Some (v', rest)
      else '(v, rest') ← remove k rest; Some (v, (k', v') :: rest')
  end.

Definition range_from (k : Z) (m : list (Z * A)) : list (Z * A) := filter (fun e => k <= e.1) m.

Definition sorted (m : list (Z * A)) : Prop := StronglySorted (fun e1 e2 => e1.1 < e2.1) m.

Lemma sorted_cons e m : sorted (e :: m) <-> Forall (fun e' => e.1 < e'.1) m /\ sorted m.
Proof. split; [intros []%StronglySorted_inv; done|]. intros []. by constructor. Qed.

Lemma btree_insert_spec k v m :
  sorted m -> k ∉ m.*1 -> exists m', insert k v m = Some m' /\ m' ≡ₚ (k, v) :: m /\ sorted m'.
Proof.
  induction m as [|[k' v'] m IH]; intros Hs Hk; simpl.
  - eexists. split_and!; [done|done|]. repeat constructor.
  - pose proof Hs as Hs'. apply sorted_cons in Hs as [Hf Hs]. rewrite fmap_cons, not_elem_of_cons in Hk. simpl in *.
    destruct Hk as [Hne Hk]. split_if; bool_to_prop; [|rewrite (proj2 (Z.eqb_neq k k')) by done].
    + eexists. split_and!; [done|done|]. apply sorted_cons. split; [|done].
      constructor; [done|]. eapply Forall_impl; [exact Hf|]. simpl. lia.
    + destruct (IH Hs Hk) as (m' & -> & Hp & Hs2). simpl. eexists. split_and!; [done| |].
      * rewrite Hp. apply Permutation_swap.
      * apply sorted_cons. split; [|done]. rewrite Hp. constructor; simpl; [lia|done].
Qed.

Lemma btree_remove_spec k v m :
  sorted m -> (k, v) ∈ m -> exists m', remove k m = Some (v, m') /\ m ≡ₚ (k, v) :: m' /\ sorted m'.
Proof.
  induction m as [|[k' v'] m IH]; intros Hs Hin; [set_solver|]. apply sorted_cons in Hs as [Hf Hs]. simpl.
  apply elem_of_cons in Hin as [[= <- <-]|Hin].
  - rewrite Z.eqb_refl. eauto.
  - rewrite Forall_forall in Hf. pose proof (Hf _ Hin) as Hlt. simpl in Hlt.
    rewrite (proj2 (Z.eqb_neq k k')) by lia. destruct (IH Hs Hin) as (m' & -> & Hp & Hs2).
    eexists. split_and!; [done|by rewrite Hp, Permutation_swap|]. apply sorted_cons. split; [|done].
    apply Forall_forall. intros e He. apply Hf. rewrite Hp. by right.
Qed.

Lemma sorted_perm m1 m2 : sorted m1 -> sorted m2 -> m1 ≡ₚ m2 -> m1 = m2.
Proof.
  revert m2. induction m1 as [|e1 m1 IH]; intros [|e2 m2] H1 H2 Hp.
  - done.
  - by apply Permutation_nil_l in Hp.
  - by apply Permutation_nil_r in Hp.
  - apply sorted_cons in H1 as [Hf1 H1], H2 as [Hf2 H2]. rewrite Forall_forall in Hf1, Hf2.
    assert (e1 = e2) as ->; [|f_equal; apply IH; [done|done|by eapply Permutation_cons_inv]].
    assert (e1 ∈ e2 :: m2) as [|He1]%elem_of_cons by (rewrite <- Hp; left); [done|].
    assert (e2 ∈ e1 :: m1) as [|He2]%elem_of_cons by (rewrite Hp; left); [done|].
    apply Hf2 in He1. apply Hf1 in He2. lia.
Qed.

End BTree.
End BTree.

Module Queues.
Section Queues.
Context {Key : Type} `{Countable Key} {Tx : Type} `{SVMMessage Key Tx}.

(** ** Data *)

Inductive Capability : Type := FifoQueueing | PriorityQueueing.

Inductive RequestedUsage : Type := Readonly | Writable.

#[global] Instance RequestedUsage_eq_dec : EqDecision RequestedUsage.
Proof. solve_decision. Defined.

Record Task : Type := MkTask {
  transaction : Tx;
  task_id : Z;
  lock_contexts : list (Key * RequestedUsage);
  consumed_block_size : Z
}.

Inductive Usage (R W : Type) : Type :=
| UReadonly (r : R)
| UWritable (w : W).
#[global] Arguments UReadonly {R W} r.
#[global] Arguments UWritable {R W} w.

Definition requested_usage {R W} (usage : Usage R W) : RequestedUsage :=
  match usage with UReadonly _ => Readonly | UWritable _ => Writable end.

Definition FifoUsage : Type := Usage Z unit.
Definition PriorityUsage : Type := Usage (list (Z * Task)) Task.

Definition FifoUsage_from (u : RequestedUsage) : FifoUsage :=
  match u with Readonly => UReadonly 1 | Writable => UWritable tt end.

Definition PriorityUsage_from (task : Task) (u : RequestedUsage) : PriorityUsage :=
  match u with
  | Readonly => UReadonly [(task_id task, task)]
  | Writable => UWritable task
  end.

Abbreviation UsageFromTask := (RequestedUsage * Task)%type.

Inductive UsageQueueInner : Type :=
| Fifo (current_usage : option FifoUsage) (blocked_usages_from_tasks : list UsageFromTask)
| Priority (current_usage : option PriorityUsage) (blocked_usages_from_tasks : list (Z * UsageFromTask)).

Definition UsageQueueInner_new (capability : Capability) : UsageQueueInner :=
  match capability with
  | FifoQueueing => Fifo None []
  | PriorityQueueing => Priority None []
  end.

(** ** Counters *)

(** [ShortCounter::increment] and [decrement] on [u32]. *)
Definition increment (c : Z) : option Z := checked_add 32 c 1.
Definition decrement (c : Z) : option Z := checked_sub c 1.

(** The [blocked_usage_count] cells, by task id; a task is created with zero. *)
Abbreviation Counts := (gmap Z Z).
Definition count (counts : Counts) (id : Z) : Z := default 0 (counts !! id).

Definition try_unblock (task : Task) (counts : Counts) : option (option Task * Counts) :=
  c ← decrement (count counts (task_id task));
  Some (if c =? 0 then Some task else None, <[task_id task := c]> counts).

Definition try_reblock (task : Task) (counts : Counts) : option (bool * Counts) :=
  let usage_count := count counts (task_id task) in
  if usage_count =? 0 then Some (false, counts)
  else
    c ← increment usage_count;
    Some (true, <[task_id task := c]> counts).

Definition is_higher_priority (self other : Task) : option bool :=
  if task_id self <? task_id other then Some true
  else if task_id other <? task_id self then Some false
  else None.

(** ** Usage queues *)

(** The result is the queue with the usage granted, or [Err] and no change. *)
Definition try_lock (self : UsageQueueInner) (new_task : Task) (u : RequestedUsage) :
    option (result unit UsageQueueInner) :=
  match self with
  | Fifo current_usage blocked =>
      match current_usage with
      | None => Some (Ok (Fifo (Some (FifoUsage_from u)) blocked))
      | Some (UReadonly n) =>
          match u with
          | Readonly => n ← increment n; Some (Ok (Fifo (Some (UReadonly n)) blocked))
          | Writable => Some (Err tt)
          end
      | Some (UWritable _) => Some (Err tt)
      end
  | Priority current_usage blocked =>
      match current_usage with
      | Some (UReadonly tasks) =>
          match u with
          | Readonly =>
              tasks ← BTree.insert (task_id new_task) new_task tasks;
              Some (Ok (Priority (Some (UReadonly tasks)) blocked))
          | Writable => Some (Err tt)
          end
      | Some (UWritable _) => Some (Err tt)
      | None => Some (Ok (Priority (Some (PriorityUsage_from new_task u)) blocked))
      end
  end.

Definition pop (self : UsageQueueInner) : option UsageFromTask * UsageQueueInner :=
  match self with
  | Fifo c [] => (None, self)
  | Fifo c (x :: blocked) => (Some x, Fifo c blocked)
  | Priority c [] => (None, self)
  | Priority c ((_, x) :: blocked) => (Some x, Priority c blocked)
  end.

Definition push (self : UsageQueueInner) (x : UsageFromTask) : option UsageQueueInner :=
  match self with
  | Fifo c blocked => Some (Fifo c (blocked ++ [x]))
  | Priority c blocked => blocked ← BTree.insert (task_id x.2) x blocked; Some (Priority c blocked)
  end.

Definition peek_blocked (self : UsageQueueInner) : option UsageFromTask :=
  match self with
  | Fifo _ blocked => head blocked
  | Priority _ blocked => snd <$> head blocked
  end.

Definition current_usage (self : UsageQueueInner) : option RequestedUsage :=
  match self with
  | Fifo c _ => requested_usage <$> c
  | Priority c _ => requested_usage <$> c
  end.

(** The part of [unlock] before the pop: the queue without the usage of the
    task, and whether it became lockable. *)
Definition release (self : UsageQueueInner) (task : Task) (u : RequestedUsage) :
    option (bool * UsageQueueInner) :=
  match self with
  | Fifo (Some (UReadonly n)) blocked =>
      match u with
      | Readonly =>
          if n =? 1 then Some (true, Fifo None blocked)
          else n ← decrement n; Some (false, Fifo (Some (UReadonly n)) blocked)
      | Writable => None
      end
  | Fifo (Some (UWritable _)) blocked =>
      match u with
      | Writable => Some (true, Fifo None blocked)
      | Readonly => None
      end
  | Fifo None _ => None
  | Priority (Some (UReadonly tasks)) blocked =>
      match u with
      | Readonly =>
          '(_, tasks) ← BTree.remove (task_id task) tasks;
          match tasks with
          | [] => Some (true, Priority None blocked)
          | _ => Some (false, Priority (Some (UReadonly tasks)) blocked)
          end
      | Writable => None
      end
  | Priority (Some (UWritable _)) blocked =>
      match u with
      | Writable => Some (true, Priority None blocked)
      | Readonly => None
      end
  | Priority None _ => None
  end.

Definition unlock (self : UsageQueueInner) (task : Task) (u : RequestedUsage) :
    option (option UsageFromTask * UsageQueueInner) :=
  '(is_newly_lockable, self) ← release self task u;
  Some (if (is_newly_lockable : bool) then pop self else (None, self)).

Definition push_blocked (self : UsageQueueInner) (x : UsageFromTask) : option UsageQueueInner :=
  match current_usage self with
  | Some _ => push self x
  | None => None
  end.

Definition pop_lockable_readonly (self : UsageQueueInner) : option (option UsageFromTask * UsageQueueInner) :=
  match peek_blocked self with
  | Some (Readonly, _) =>
      match current_usage self with
      | Some Readonly => Some (pop self)
      | _ => None
      end
  | _ => Some (None, self)
  end.

(** The scan that reblocks readers: the ids of those that could be, in order. *)
Fixpoint reblock_scan (tasks : list (Z * Task)) (counts : Counts) : option (list Z * Counts) :=
  match tasks with
  | [] => Some ([], counts)
  | (task_id, task) :: rest =>
      '(reblocked, counts) ← try_reblock task counts;
      '(ids, counts) ← reblock_scan rest counts;
      Some (if (reblocked : bool) then task_id :: ids else ids, counts)
  end.

(** The loop that moves them to the blocked usages. *)
Fixpoint reblock_move (ids : list Z) (current : list (Z * Task)) (blocked : list (Z * UsageFromTask)) :
    option (list (Z * Task) * list (Z * UsageFromTask)) :=
  match ids with
  | [] => Some (current, blocked)
  | id :: ids =>
      '(task, current) ← BTree.remove id current;
      blocked ← BTree.insert (task_id task) (Readonly, task) blocked;
      reblock_move ids current blocked
  end.

Definition prepare_lock (self : UsageQueueInner) (counts : Counts) (new_task : Task) (u : RequestedUsage) :
    option (result unit unit * UsageQueueInner * Counts) :=
  match self with
  | Fifo _ [] => Some (Ok tt, self, counts)
  | Fifo _ (_ :: _) => Some (Err tt, self, counts)
  | Priority None blocked =>
      match blocked with [] => Some (Ok tt, self, counts) | _ => None end
  | Priority (Some (UWritable current_task)) blocked =>
      higher ← is_higher_priority new_task current_task;
      if negb higher then Some (Err tt, self, counts)
      else
        '(reblocked, counts) ← try_reblock current_task counts;
        if negb reblocked then Some (Err tt, self, counts)
        else
          blocked ← BTree.insert (task_id current_task) (Writable, current_task) blocked;
          Some (Ok tt, Priority None blocked, counts)
  | Priority (Some (UReadonly current_tasks)) blocked =>
      match u with
      | Readonly =>
          match peek_blocked self with
          | None => Some (Ok tt, self, counts)
          | Some (Writable, peeked_task) =>
              higher ← is_higher_priority new_task peeked_task;
              Some (if (higher : bool) then Ok tt else Err tt, self, counts)
          | Some (Readonly, _) => None
          end
      | Writable =>
          '(ids, counts) ← reblock_scan (BTree.range_from (task_id new_task) current_tasks) counts;
          '(current_tasks, blocked) ← reblock_move ids current_tasks blocked;
          match current_tasks with
          | [] => Some (Ok tt, Priority None blocked, counts)
          | _ => Some (Err tt, Priority (Some (UReadonly current_tasks)) blocked, counts)
          end
      end
  end.

(** The [while let] loop of [unlock_usage_queues] over one queue; it pops a
    blocked usage a turn. *)
Fixpoint lock_newly (fuel : nat) (newly_lockable : option UsageFromTask) (q : UsageQueueInner)
    (counts : Counts) (uq : list Task) : option (UsageQueueInner * Counts * list Task) :=
  match newly_lockable with
  | None => Some (q, counts, uq)
  | Some (lockable_usage, lockable_task) =>
      match fuel with
      | O => None
      | Datatypes.S fuel =>
          r ← try_lock q lockable_task lockable_usage;
          match r with
          | Err _ => None
          | Ok q =>
              '(unblocked_task, counts) ← try_unblock lockable_task counts;
              let uq := match unblocked_task with Some task => uq ++ [task] | None => uq end in
              '(newly_lockable, q) ← (match lockable_usage with
                                      | Readonly => pop_lockable_readonly q
                                      | Writable => Some (None, q)
                                      end);
              lock_newly fuel newly_lockable q counts uq
          end
      end
  end.

Definition blocked_len (q : UsageQueueInner) : nat :=
  match q with Fifo _ blocked => length blocked | Priority _ blocked => length blocked end.

(** ** Queues: who holds and who waits *)

(** The blocked usages in the order they are granted. *)
Definition waiting (q : UsageQueueInner) : list UsageFromTask :=
  match q with Fifo _ blocked => blocked | Priority _ blocked => blocked.*2 end.

Definition uid (x : UsageFromTask) : Z := task_id x.2.

(** The current usage stands for the tasks [hs] that hold the queue. *)
Definition held_by (q : UsageQueueInner) (hs : list UsageFromTask) : Prop :=
  match q with
  | Fifo None _ => hs = []
  | Fifo (Some (UReadonly n)) _ => hs <> [] /\ n = Z.of_nat (length hs) /\ Forall (fun h => h.1 = Readonly) hs
  | Fifo (Some (UWritable _)) _ => exists t, hs = [(Writable, t)]
  | Priority None _ => hs = []
  | Priority (Some (UReadonly ts)) _ =>
      ts <> [] /\ hs ≡ₚ (fun e => (Readonly, e.2)) <$> ts /\ BTree.sorted ts /\
      Forall (fun e => e.1 = task_id e.2) ts
  | Priority (Some (UWritable t)) _ => hs = [(Writable, t)]
  end.

(** The map of blocked usages is keyed by the ids of its tasks. *)
Definition keyed (q : UsageQueueInner) : Prop :=
  match q with
  | Fifo _ _ => True
  | Priority _ blocked => BTree.sorted blocked /\ Forall (fun e => e.1 = uid e.2) blocked
  end.

Definition kind (q : UsageQueueInner) : Capability :=
  match q with Fifo _ _ => FifoQueueing | Priority _ _ => PriorityQueueing end.

Lemma held_by_nil q hs : held_by q hs -> current_usage q = None <-> hs = [].
Proof.
  destruct q as [[[n|[]]|] b|[[ts|t]|] b]; simpl; try naive_solver.
  - intros (Hts & Hp & _). split; [done|]. intros ->. destruct ts; [done|]. by apply Permutation_length in Hp.
Qed.

Lemma held_by_perm q hs hs' : held_by q hs -> hs ≡ₚ hs' -> held_by q hs'.
Proof.
  intros Hh Hp. destruct q as [[[n|[]]|] b|[[ts|t]|] b]; simpl in *.
  - destruct Hh as (Hne & -> & Hr). split_and!; [|by rewrite Hp|by rewrite <- Hp].
    intros ->. by apply Permutation_nil_r in Hp.
  - destruct Hh as (t & ->). exists t. by apply Permutation_singleton_l in Hp.
  - subst. by apply Permutation_nil_l in Hp.
  - destruct Hh as (Hne & Hq & Hs & Hk). split_and!; [done|by rewrite <- Hp|done|done].
  - subst. by apply Permutation_singleton_l in Hp.
  - subst. by apply Permutation_nil_l in Hp.
Qed.

(** Holders are readers, or one writer. *)
Lemma held_by_usage q hs :
  held_by q hs ->
  match current_usage q with
  | None => hs = []
  | Some Readonly => hs <> [] /\ Forall (fun h => h.1 = Readonly) hs
  | Some Writable => exists t, hs = [(Writable, t)]
  end.
Proof.
  destruct q as [[[n|[]]|] b|[[ts|t]|] b]; simpl; try naive_solver.
  intros (Hne & Hp & _). split.
  - intros ->. destruct ts; [done|]. by apply Permutation_length in Hp.
  - rewrite Hp. apply Forall_fmap, Forall_forall. done.
Qed.

Lemma keyed_ids b : BTree.sorted b -> Forall (fun e : Z * UsageFromTask => e.1 = uid e.2) b -> b.*1 = uid <$> b.*2.
Proof.
  intros _ Hk. induction Hk as [|e b He _ IH]; [done|]. rewrite !fmap_cons. by rewrite IH, He.
Qed.

Lemma holder_keys ts : Forall (fun e : Z * Task => e.1 = task_id e.2) ts ->
  ts.*1 = uid <$> ((fun e => (Readonly, e.2)) <$> ts).
Proof.
  intros Hk. induction Hk as [|e b He _ IH]; [done|]. rewrite !fmap_cons. by rewrite IH, He.
Qed.

(** Granting a usage. *)
Lemma try_lock_grant q hs task u :
  held_by q hs -> keyed q -> (hs = [] \/ (u = Readonly /\ current_usage q = Some Readonly)) ->
  task_id task ∉ uid <$> hs -> Z.of_nat (length hs) < U32_MAX ->
  exists q', try_lock q task u = Some (Ok q') /\ held_by q' ((u, task) :: hs) /\
    waiting q' = waiting q /\ kind q' = kind q /\ keyed q'.
Proof.
  intros Hh Hkeyed Hc Hid Hlen.
  destruct q as [[[n|[]]|] b|[[ts|t]|] b]; simpl in *; try (destruct Hc as [Hc|[_ ?]]; [|done]).
  - destruct Hh as (Hne & -> & Hr). destruct Hc as [|[-> _]]; [done|].
    unfold increment, checked_add. rewrite (proj2 (Z.leb_le _ _)) by lia. simpl.
    eexists. split_and!; try done. simpl. split_and!; [done|simpl; lia|by constructor].
  - destruct Hh as (? & ->). done.
  - subst. eexists. split_and!; try done. destruct u; simpl; [split_and!; [done|done|]|eauto].
    apply Forall_singleton. done.
  - destruct Hh as (Hne & Hp & Hs & Hk). destruct Hc as [->|[-> _]].
    { destruct ts; [done|]. by apply Permutation_length in Hp. }
    destruct (BTree.btree_insert_spec (task_id task) task ts Hs) as (ts' & -> & Hp' & Hs').
    { rewrite (holder_keys ts Hk), <- Hp. done. }
    simpl. eexists. split_and!; try done; simpl; split_and!; try done.
    + intros ->. by apply Permutation_length in Hp'.
    + by rewrite Hp', fmap_cons, Hp.
    + rewrite Hp'. by constructor.
  - subst. done.
  - subst. eexists. split_and!; try done. destruct u; simpl; [|done]. split_and!; [done|done| |].
    + repeat constructor.
    + by apply Forall_singleton.
Qed.

Lemma try_lock_deny q hs task u :
  held_by q hs -> hs <> [] -> ~ (u = Readonly /\ current_usage q = Some Readonly) ->
  try_lock q task u = Some (Err tt).
Proof.
  intros Hh Hne Hc. destruct q as [[[n|[]]|] b|[[ts|t]|] b]; simpl in *; try done; destruct u; naive_solver.
Qed.

(** Taking a holder out. *)
Lemma release_spec q hs hs0 task u :
  held_by q hs -> keyed q -> hs ≡ₚ (u, task) :: hs0 ->
  exists q', release q task u = Some (bool_decide (hs0 = []), q') /\ held_by q' hs0 /\
    waiting q' = waiting q /\ kind q' = kind q /\ keyed q'.
Proof.
  intros Hh Hkeyed Hp. destruct q as [[[n|[]]|] b|[[ts|t]|] b]; simpl in *.
  - destruct Hh as (Hne & -> & Hr). rewrite Hp in Hr. apply Forall_cons in Hr as [Hu Hr]. simpl in Hu. subst u.
    assert (Z.of_nat (length hs) = 1 + Z.of_nat (length hs0)) as -> by (apply Permutation_length in Hp; simpl in Hp; lia).
    destruct hs0 as [|h hs0].
    + eexists. split_and!; done.
    + rewrite (proj2 (Z.eqb_neq _ _)) by (simpl; lia). unfold decrement, checked_sub.
      rewrite (proj2 (Z.leb_le _ _)) by (simpl; lia). cbn [mbind option_bind]. rewrite bool_decide_eq_false_2 by done.
      eexists. split_and!; try done. simpl. split_and!; [done|lia|done].
  - destruct Hh as (t & ->). apply Permutation_singleton_l in Hp. simplify_eq.
    eexists. split_and!; done.
  - subst. by apply Permutation_length in Hp.
  - destruct Hh as (Hne & Hq & Hs & Hk).
    assert ((u, task) ∈ (fun e => (Readonly, e.2)) <$> ts) as Hin by (rewrite <- Hq, Hp; left).
    apply list_elem_of_fmap in Hin as ([k t'] & [= -> ->] & Hin). simpl in *.
    assert (k = task_id t') as -> by (rewrite Forall_forall in Hk; apply (Hk _ Hin)).
    destruct (BTree.btree_remove_spec _ _ _ Hs Hin) as (ts' & -> & Hp' & Hs'). simpl.
    assert (hs0 ≡ₚ (fun e => (Readonly, e.2)) <$> ts') as Hq'.
    { apply (Permutation_cons_inv (a := (Readonly, t'))). rewrite <- Hp, Hq, Hp'. done. }
    rewrite Hp' in Hk. apply Forall_cons in Hk as [_ Hk]. destruct ts' as [|e ts'].
    + apply Permutation_nil_r in Hq' as ->. eexists. split_and!; done.
    + destruct hs0; [by apply Permutation_length in Hq'|]. eexists. by split_and!.
  - subst. apply Permutation_singleton_l in Hp. simplify_eq. eexists. split_and!; done.
  - subst. by apply Permutation_length in Hp.
Qed.

Lemma pop_blocked_spec q x rest :
  waiting q = x :: rest ->
  exists q', pop q = (Some x, q') /\ waiting q' = rest /\ kind q' = kind q /\ current_usage q' = current_usage q /\
    (forall hs, held_by q hs -> held_by q' hs) /\ (keyed q -> keyed q').
Proof.
  destruct q as [c b|c b]; simpl; destruct b as [|y b]; try done.
  - intros [= -> ->]. eexists. split_and!; done.
  - destruct y as [k y]. simpl. intros [= -> <-]. eexists. split_and!; try done.
    intros [[_ Hs]%BTree.sorted_cons [_ Hk]%Forall_cons]. done.
Qed.

Lemma pop_empty q : waiting q = [] -> pop q = (None, q).
Proof. destruct q as [c b|c b]; simpl; [by intros ->|]. destruct b as [|[]]; done. Qed.

Lemma peek_spec q : peek_blocked q = head (waiting q).
Proof. destruct q as [c b|c b]; simpl; [done|]. by destruct b. Qed.

(** A new blocked usage goes last in first-come order, by its id in priority order. *)
Lemma push_blocked_spec q hs x :
  held_by q hs -> keyed q -> hs <> [] -> uid x ∉ uid <$> waiting q ->
  exists q', push_blocked q x = Some q' /\ held_by q' hs /\ kind q' = kind q /\ keyed q' /\
    current_usage q' = current_usage q /\ waiting q' ≡ₚ x :: waiting q /\
    (kind q = FifoQueueing -> waiting q' = waiting q ++ [x]).
Proof.
  intros Hh Hk Hne Hx. unfold push_blocked. pose proof (held_by_nil q hs Hh).
  destruct (current_usage q) eqn:Ec; [|tauto]. destruct q as [c b|c b]; simpl in *.
  - eexists. split_and!; try done. simpl. by rewrite Permutation_app_comm.
  - destruct Hk as [Hs Hk]. destruct (BTree.btree_insert_spec (task_id x.2) x b Hs) as (b' & -> & Hp & Hs').
    { by rewrite keyed_ids. }
    simpl. eexists. split_and!; try done.
    + simpl. split; [done|]. rewrite Hp. by constructor.
    + simpl. by rewrite Hp.
Qed.

Lemma held_readonly q hs h : held_by q hs -> h ∈ hs -> h.1 = Readonly -> current_usage q = Some Readonly.
Proof.
  intros Hh Hin Hr. apply held_by_usage in Hh. destruct (current_usage q) as [[]|]; [done| |].
  - destruct Hh as (t & ->). apply list_elem_of_singleton in Hin. by subst.
  - subst. by apply elem_of_nil in Hin.
Qed.

Lemma count_insert counts id c id' :
  count (<[id := c]> counts) id' = if decide (id' = id) then c else count counts id'.
Proof.
  unfold count. case_decide; [subst; by rewrite lookup_insert_eq|by rewrite lookup_insert_ne].
Qed.

Lemma try_unblock_spec task counts :
  1 <= count counts (task_id task) ->
  exists counts', try_unblock task counts =
      Some (if decide (count counts' (task_id task) = 0) then Some task else None, counts') /\
    forall id, count counts' id = count counts id - if decide (id = task_id task) then 1 else 0.
Proof.
  intros Hc. unfold try_unblock, decrement, checked_sub. rewrite (proj2 (Z.leb_le _ _)) by done.
  cbn [mbind option_bind]. eexists. split.
  - f_equal. f_equal. rewrite count_insert, (decide_True (P := task_id task = task_id task)) by done.
    destruct (_ =? 0) eqn:E; bool_to_prop; [by rewrite decide_True|by rewrite decide_False].
  - intros id. rewrite count_insert. case_decide; subst; lia.
Qed.

(** After a grant, the next reader if the grant was for one. *)
Lemma next_readonly_spec q hs u :
  held_by q hs -> (u = Readonly -> current_usage q = Some Readonly) -> keyed q ->
  let next := match u with Readonly => pop_lockable_readonly q | Writable => Some (None, q) end in
  (next = Some (None, q) /\
     (forall y rest, waiting q = y :: rest -> u = Readonly -> y.1 = Writable)) \/
  (exists y rest q', next = Some (Some y, q') /\ u = Readonly /\ y.1 = Readonly /\
     waiting q = y :: rest /\ waiting q' = rest /\ kind q' = kind q /\ current_usage q' = current_usage q /\
     (forall hs, held_by q hs -> held_by q' hs) /\ (keyed q -> keyed q')).
Proof.
  intros Hh Hu Hk. destruct u; simpl; [|by left].
  unfold pop_lockable_readonly. rewrite peek_spec. destruct (waiting q) as [|[v t] rest] eqn:Hw; simpl; [by left|].
  destruct v; [|left; naive_solver]. right. rewrite Hu by done.
  destruct (pop_blocked_spec q _ _ Hw) as (q' & -> & ? & ? & Hcu & ? & ?). rewrite Hu in Hcu by done.
  eexists _, rest, q'. split_and!; done.
Qed.

(** What one queue grants once its holders are gone or readers: the first
    waiting usage and, if it reads, the readers right behind it. *)
Lemma lock_newly_spec fuel : forall x q hs counts uq,
  held_by q hs -> keyed q ->
  (hs = [] \/ (x.1 = Readonly /\ current_usage q = Some Readonly)) ->
  NoDup (uid <$> x :: waiting q ++ hs) ->
  Z.of_nat (length (waiting q ++ hs)) < U32_MAX ->
  (forall y, y ∈ x :: waiting q -> 1 <= count counts (uid y)) ->
  (length (waiting q) < fuel)%nat ->
  exists ws q' counts',
    lock_newly fuel (Some x) q counts uq =
      Some (q', counts', uq ++ (snd <$> filter (fun y => count counts' (uid y) = 0) ws)) /\
    x :: waiting q = ws ++ waiting q' /\ ws <> [] /\ held_by q' (ws ++ hs) /\ kind q' = kind q /\ keyed q' /\
    (forall id, count counts' id = count counts id - if decide (id ∈ uid <$> ws) then 1 else 0) /\
    (forall y rest, waiting q' = y :: rest -> current_usage q' = Some Readonly -> y.1 = Writable).
Proof.
  induction fuel as [|fuel IH]; intros [u task] q hs counts uq Hh Hk Hc Hnd Hlen Hcnt Hfuel; [lia|].
  cbn [lock_newly]. pose proof Hnd as Hnd'. rewrite fmap_cons in Hnd'. apply NoDup_cons in Hnd' as [Hx Hnd'].
  destruct (try_lock_grant q hs task u) as (q1 & -> & Hh1 & Hw1 & Hkind1 & Hk1); [done|done|done| | |].
  { intros Hin. apply Hx. rewrite fmap_app, elem_of_app. by right. }
  { rewrite length_app in Hlen. lia. }
  cbn [mbind option_bind].
  destruct (try_unblock_spec task counts) as (counts1 & -> & Hc1).
  { apply (Hcnt (u, task)). left. }
  cbn [mbind option_bind].
  destruct (next_readonly_spec q1 ((u, task) :: hs) u) as [(-> & Hstop)|(y & rest & q2 & -> & Hu & Hy & Hw2 & Hw2' & Hkind2 & Hcu2 & Hh2 & Hk2)].
  { done. } { intros ->. eapply held_readonly; [done|left|done]. } { done. }
  - cbn [mbind option_bind]. exists [(u, task)], q1, counts1. split_and!; try done.
    + destruct (decide (count counts1 (task_id task) = 0)) as [Hz|Hz];
        [rewrite filter_cons_True by done|rewrite filter_cons_False by done; simpl; rewrite app_nil_r];
        by destruct fuel.
    + by rewrite Hw1.
    + intros id. rewrite Hc1. simpl. do 2 case_decide; set_solver.
    + intros y rest Hy Hcu. eapply Hstop; [done|]. apply held_by_usage in Hh1. rewrite Hcu in Hh1.
      by destruct Hh1 as [_ [? _]%Forall_cons].
  - cbn [mbind option_bind]. subst u. rewrite Hw1 in Hw2.
    destruct (IH y q2 ((Readonly, task) :: hs) counts1
      (match (if decide (count counts1 (task_id task) = 0) then Some task else None) with
       | Some t => uq ++ [t] | None => uq end)) as (ws & q' & counts' & -> & Hws & Hne & Hh' & Hkind' & Hk' & Hc' & Hstop).
    { by apply Hh2. } { by apply Hk2. } { right. split; [done|]. rewrite Hcu2. eapply held_readonly; [exact Hh1|left|done]. }
    { rewrite Hw2' . revert Hnd. rewrite Hw2. rewrite !fmap_cons, !fmap_app, !fmap_cons. simpl.
      rewrite !NoDup_cons, !NoDup_app, !NoDup_cons. set_solver. }
    { rewrite Hw2' . rewrite Hw2 in Hlen. rewrite length_app in *. simpl in *. lia. }
    { intros z Hz. rewrite Hw2' in Hz. rewrite Hc1. rewrite decide_False.
      - rewrite Z.sub_0_r. apply Hcnt. rewrite Hw2. by right.
      - intros Heq. apply Hx. rewrite Hw2. change (uid (Readonly, task)) with (task_id task). rewrite <- Heq.
        apply list_elem_of_fmap_2, elem_of_app. by left. }
    { rewrite Hw2' . rewrite Hw2 in Hfuel. simpl in Hfuel. lia. }
    exists ((Readonly, task) :: ws), q', counts'. split_and!; try done.
    + assert (count counts' (task_id task) = count counts1 (task_id task)) as Hsame.
      { rewrite Hc', decide_False; [lia|]. intros Hin. apply Hx. rewrite Hw2, <- Hw2', Hws.
        rewrite !fmap_app, !elem_of_app. by do 2 left. }
      f_equal. f_equal. destruct (decide (count counts1 (task_id task) = 0)) as [Hz|Hz].
      * rewrite filter_cons_True by (unfold uid; simpl; lia). by rewrite <- app_assoc.
      * rewrite filter_cons_False by (unfold uid; simpl; lia). done.
    + rewrite Hw2, <- Hw2' , Hws. done.
    + eapply held_by_perm; [exact Hh'|]. simpl. by rewrite Permutation_middle.
    + congruence.
    + intros id. rewrite Hc', Hc1. destruct (decide (id = task_id task)) as [->|Hne'].
      * rewrite decide_False, decide_True; [lia|left|]. intros Hin. apply Hx.
        rewrite Hw2, <- Hw2', Hws, !fmap_app, !elem_of_app. by do 2 left.
      * destruct (decide (id ∈ uid <$> ws)); [rewrite decide_True by (by right)|
          rewrite decide_False by (by intros [|]%elem_of_cons)]; lia.
Qed.

(** ** The order of a queue *)

(** [ord] is the order in which conflicting tasks are served (arrival, or
    priority); [NR] are the tasks whose claim can still be taken. *)
Record ordered (ord : Z -> Z) (NR : Z -> Prop) (q : UsageQueueInner) (hs : list UsageFromTask) : Prop := {
  ord_sorted : StronglySorted (fun x y => ord (uid x) < ord (uid y)) (waiting q);
  ord_none : hs = [] -> waiting q = [];
  ord_head : forall y rest, waiting q = y :: rest -> current_usage q = Some Readonly -> y.1 = Writable;
  ord_hold : forall h b, h ∈ hs -> b ∈ waiting q -> NR (uid h) -> ord (uid h) < ord (uid b)
}.

Lemma ordered_perm ord NR q hs hs' : ordered ord NR q hs -> hs ≡ₚ hs' -> ordered ord NR q hs'.
Proof.
  intros [Hs Hn Hh Ho] Hp. split; [done| |done|].
  - intros ->. apply Hn. by apply Permutation_nil_r in Hp.
  - intros h b Hin. apply Ho. by rewrite Hp.
Qed.

Lemma ordered_mono ord (NR NR' : Z -> Prop) q hs :
  ordered ord NR q hs -> (forall h, h ∈ hs -> NR' (uid h) -> NR (uid h)) -> ordered ord NR' q hs.
Proof. intros [Hs Hn Hh Ho] Hm. split; [done|done|done|]. eauto. Qed.

Lemma blocked_len_waiting q : blocked_len q = length (waiting q).
Proof. destruct q; simpl; [done|]. by rewrite length_fmap. Qed.

(** Descheduling a holder: one turn of the loop over the task's queues. *)
Lemma unlock_queue_spec ord NR q hs hs0 task u counts uq :
  held_by q hs -> keyed q -> ordered ord NR q hs -> hs ≡ₚ (u, task) :: hs0 ->
  NoDup (uid <$> waiting q ++ hs) -> Z.of_nat (length (waiting q ++ hs)) <= U32_MAX ->
  (forall y, y ∈ waiting q -> 1 <= count counts (uid y)) ->
  exists ws q' counts',
    ('(newly_lockable, q) ← unlock q task u;
     lock_newly (Datatypes.S (blocked_len q)) newly_lockable q counts uq) =
      Some (q', counts', uq ++ (snd <$> filter (fun y => count counts' (uid y) = 0) ws)) /\
    waiting q = ws ++ waiting q' /\ held_by q' (ws ++ hs0) /\ kind q' = kind q /\ keyed q' /\
    ordered ord NR q' (ws ++ hs0) /\
    (forall id, count counts' id = count counts id - if decide (id ∈ uid <$> ws) then 1 else 0).
Proof.
  intros Hh Hk Ho Hp Hnd Hlen Hcnt. unfold unlock.
  destruct (release_spec q hs hs0 task u Hh Hk Hp) as (q1 & -> & Hh1 & Hw1 & Hkind1 & Hk1).
  cbn [mbind option_bind]. case_bool_decide as He.
  - subst hs0. destruct (waiting q1) as [|x rest] eqn:Hwq1.
    + rewrite pop_empty by done. exists [], q1, counts. rewrite <- Hw1. split_and!; try done.
      * simpl. by rewrite app_nil_r.
      * split; [rewrite Hwq1; constructor|done|by rewrite Hwq1|set_solver].
      * intros id. rewrite decide_False by set_solver. lia.
    + destruct (pop_blocked_spec q1 x rest Hwq1) as (q2 & -> & Hw2 & Hkind2 & Hcu2 & Hh2 & Hk2).
      rewrite Hp in Hnd, Hlen. rewrite <- Hw1 in Hnd, Hlen, Hcnt.
      destruct (lock_newly_spec (Datatypes.S (blocked_len q2)) x q2 [] counts uq)
        as (ws & q' & counts' & Hl & Hws & Hne & Hh' & Hkind' & Hk' & Hc' & Hhead).
      { by apply Hh2. } { by apply Hk2. } { by left. }
      { rewrite Hw2, app_nil_r. rewrite fmap_app in Hnd. by apply NoDup_app in Hnd as [? _]. }
      { rewrite Hw2. rewrite !length_app in *. simpl in *. lia. }
      { by rewrite Hw2. } { rewrite blocked_len_waiting. lia. }
      rewrite Hl. exists ws, q', counts'. rewrite Hw2, Hw1 in Hws. rewrite !app_nil_r in *.
      split_and!; [done|done|done|congruence|done| |done].
      destruct Ho as [Hs _ _ _]. rewrite Hws in Hs. split.
      * by apply StronglySorted_app_r in Hs.
      * done.
      * done.
      * intros h b Hh3 Hb _. apply list_elem_of_split in Hh3 as (l1 & l2 & ->).
        rewrite <- app_assoc in Hs. simpl in Hs.
        eapply (StronglySorted_after (fun x y => ord (uid x) < ord (uid y))); [exact Hs|]. set_solver.
  - exists [], q1, counts. cbn [lock_newly]. split_and!; try done.
    + simpl. by rewrite app_nil_r.
    + destruct Ho as [Hs Hn Hhd Hhold]. rewrite <- Hw1 in *. split; [done|done| |].
      * intros y rest Hy _. eapply Hhd; [done|]. apply held_by_usage in Hh.
        apply Permutation_length in Hp. destruct hs0 as [|h0 hs0]; [done|].
        destruct (current_usage q) as [[]|]; [done| |by subst]. by destruct Hh as (t & ->).
      * intros h b Hin. apply Hhold. rewrite Hp. by right.
    + intros id. rewrite decide_False by set_solver. lia.
Qed.

(** Scheduling: one turn of the loop over the task's queues, without the count
    of blocked usages. *)
Definition lock_queue (q : UsageQueueInner) (counts : Counts) (task : Task) (u : RequestedUsage) :
    option (bool * UsageQueueInner * Counts) :=
  '(prepared, q, counts) ← prepare_lock q counts task u;
  lock_result ← (match prepared with Ok _ => try_lock q task u | Err _ => Some (Err tt) end);
  match lock_result with
  | Ok q => Some (false, q, counts)
  | Err _ => q ← push_blocked q (u, task); Some (true, q, counts)
  end.

(** What scheduling does to one queue: the task holds it or waits in it, and the
    holders [rb] that could not run yet may have to wait again. *)
Record locked (ord : Z -> Z) (NR : Z -> Prop) (q : UsageQueueInner) (hs : list UsageFromTask) (counts : Counts)
    (x : UsageFromTask) (blk : bool) (q' : UsageQueueInner) (counts' : Counts)
    (kept rb : list UsageFromTask) : Prop := {
  locked_run : lock_queue q counts x.2 x.1 = Some (blk, q', counts');
  locked_split : hs ≡ₚ kept ++ rb;
  locked_waiting : waiting q' ≡ₚ (if blk then [x] else []) ++ rb ++ waiting q;
  locked_held : held_by q' ((if blk then [] else [x]) ++ kept);
  locked_kind : kind q' = kind q;
  locked_keyed : keyed q';
  locked_ordered : ordered ord NR q' ((if blk then [] else [x]) ++ kept);
  locked_counts : forall id, count counts' id = count counts id + if decide (id ∈ uid <$> rb) then 1 else 0;
  locked_reblocked : forall r, r ∈ rb -> 0 < count counts (uid r)
}.

Lemma no_reblocks counts id :
  count counts id = count counts id + if decide (id ∈ uid <$> @nil UsageFromTask) then 1 else 0.
Proof. rewrite decide_False by set_solver. lia. Qed.

(** First come, first served. *)
Lemma lock_fifo_spec ord NR c b hs counts task u :
  let q := Fifo c b in
  held_by q hs -> ordered ord NR q hs -> NoDup (uid <$> (u, task) :: waiting q ++ hs) ->
  Z.of_nat (length hs) < U32_MAX ->
  (forall x, x ∈ waiting q ++ hs -> ord (uid x) < ord (task_id task)) ->
  exists blk q', locked ord NR q hs counts (u, task) blk q' counts hs [].
Proof.
  intros q Hh [Hs Hn Hhd Ho] Hnd Hlen Hlast. rewrite fmap_cons in Hnd. apply NoDup_cons in Hnd as [Hx Hnd].
  rewrite fmap_app, not_elem_of_app in Hx. destruct Hx as [Hxw Hxh].
  destruct (decide (b = [] /\ (hs = [] \/ (u = Readonly /\ current_usage q = Some Readonly)))) as [[Hb Hc]|Hno].
  - destruct (try_lock_grant q hs task u) as (q' & Hl & Hh' & Hw & Hkind & Hk); [done..|].
    exists false, q'. split; simpl; [|by rewrite app_nil_r|by rewrite Hw|done|done|done| |by apply no_reblocks|set_solver].
    + assert (prepare_lock q counts task u = Some (Ok tt, q, counts)) as Hprep by (by subst q b).
      unfold lock_queue. rewrite Hprep. cbn [mbind option_bind]. by rewrite Hl.
    + assert (waiting q = []) as Hw0 by (by subst q b). split; rewrite Hw, Hw0; [constructor|done|done|set_solver].
  - assert (hs <> []) as Hne by (intros ->; apply Hno; split; [by apply Hn|by left]).
    destruct (push_blocked_spec q hs (u, task)) as (q' & Hpush & Hh' & Hkind & Hk' & Hcu & Hw & Hwf); [done..|].
    specialize (Hwf eq_refl). exists true, q'.
    split; simpl; [|by rewrite app_nil_r|by rewrite Hw|done|done|done| |by apply no_reblocks|set_solver].
    + assert (exists r, prepare_lock q counts task u = Some (r, q, counts) /\ (b = [] \/ r = Err tt)) as (r & Hprep & Hr).
      { subst q. destruct b; eexists; split; [done|by left|done|by right]. }
      unfold lock_queue. rewrite Hprep. cbn [mbind option_bind]. destruct r as [[]|].
      * destruct Hr as [Hr|]; [|done]. rewrite (try_lock_deny q hs) by (done || tauto).
        cbn [mbind option_bind]. by rewrite Hpush.
      * cbn [mbind option_bind]. by rewrite Hpush.
    + split; rewrite Hwf.
      * apply StronglySorted_snoc; [done|]. intros y Hy. apply Hlast. set_solver.
      * done.
      * intros y rest Hy Hcur. rewrite Hcu in Hcur. destruct b as [|y0 b]; simpl in *; injection Hy as <- <-.
        -- destruct u; [|done]. tauto.
        -- by eapply Hhd.
      * intros h x Hin [Hx'|Hx']%elem_of_app; [by apply Ho|]. apply list_elem_of_singleton in Hx' as ->.
        intros _. apply Hlast. set_solver.
Qed.

(** ** By priority *)

Lemma keyed_sorted q : keyed q -> kind q = PriorityQueueing ->
  StronglySorted (fun x y => uid x < uid y) (waiting q).
Proof.
  destruct q as [|c b]; [done|]. intros [Hs Hk] _. simpl. clear c.
  induction b as [|e b IH]; [constructor|]. apply BTree.sorted_cons in Hs as [Hlt Hs].
  apply Forall_cons in Hk as [He Hk]. rewrite fmap_cons. constructor; [by apply IH|].
  apply Forall_fmap. rewrite Forall_forall in *. intros e' He'. simpl. rewrite <- He, <- (Hk e' He'). by apply Hlt.
Qed.

(** The first waiting usage has the highest priority of all of them. *)
Lemma head_least l y rest z :
  StronglySorted (fun x y => uid x < uid y) l -> l = y :: rest -> z ∈ l -> z = y \/ uid y < uid z.
Proof.
  intros Hs -> Hz. apply StronglySorted_inv in Hs as [_ Hf]. rewrite Forall_forall in Hf.
  apply elem_of_cons in Hz as [->|Hz]; [by left|right]. by apply Hf.
Qed.

Lemma locked_grant NR q hs counts task u q1 counts1 kept rb :
  prepare_lock q counts task u = Some (Ok tt, q1, counts1) ->
  kind q = PriorityQueueing -> kind q1 = PriorityQueueing -> keyed q1 -> held_by q1 kept ->
  (kept = [] \/ (u = Readonly /\ current_usage q1 = Some Readonly)) ->
  task_id task ∉ uid <$> kept -> Z.of_nat (length kept) < U32_MAX ->
  hs ≡ₚ kept ++ rb -> waiting q1 ≡ₚ rb ++ waiting q ->
  (forall id, count counts1 id = count counts id + if decide (id ∈ uid <$> rb) then 1 else 0) ->
  (forall r, r ∈ rb -> 0 < count counts (uid r)) ->
  (forall y rest, waiting q1 = y :: rest -> u = Readonly -> y.1 = Writable) ->
  (forall h b, h ∈ (u, task) :: kept -> b ∈ waiting q1 -> NR (uid h) -> uid h < uid b) ->
  exists q', locked (fun x => x) NR q hs counts (u, task) false q' counts1 kept rb.
Proof.
  intros Hprep Hkq Hk1 Hkeyed Hh Hc Hid Hlen Hsplit Hw Hcnt Hrb Hhd Ho.
  destruct (try_lock_grant q1 kept task u) as (q' & Hl & Hh' & Hw' & Hkind' & Hk'); [done..|].
  exists q'. split; simpl; [|done|by rewrite Hw'|done|congruence|done| |done|done].
  - unfold lock_queue. rewrite Hprep. cbn [mbind option_bind]. by rewrite Hl.
  - split; rewrite ?Hw'; [|done| |done].
    + rewrite <- Hw'. apply keyed_sorted; congruence.
    + intros y rest Hy Hcu. eapply Hhd; [done|]. apply held_by_usage in Hh'. rewrite Hcu in Hh'.
      by destruct Hh' as [_ [? _]%Forall_cons].
Qed.

Lemma locked_wait NR q hs counts task u r q1 counts1 kept rb :
  prepare_lock q counts task u = Some (r, q1, counts1) ->
  (r = Err tt \/ ~ (u = Readonly /\ current_usage q1 = Some Readonly)) ->
  kind q = PriorityQueueing -> kind q1 = PriorityQueueing -> keyed q1 -> held_by q1 kept -> kept <> [] ->
  task_id task ∉ uid <$> waiting q1 ->
  hs ≡ₚ kept ++ rb -> waiting q1 ≡ₚ rb ++ waiting q ->
  (forall id, count counts1 id = count counts id + if decide (id ∈ uid <$> rb) then 1 else 0) ->
  (forall r, r ∈ rb -> 0 < count counts (uid r)) ->
  (forall y, y ∈ (u, task) :: waiting q1 -> current_usage q1 = Some Readonly -> y.1 = Readonly ->
     exists z, z ∈ (u, task) :: waiting q1 /\ uid z < uid y) ->
  (forall h b, h ∈ kept -> b ∈ (u, task) :: waiting q1 -> NR (uid h) -> uid h < uid b) ->
  exists q', locked (fun x => x) NR q hs counts (u, task) true q' counts1 kept rb.
Proof.
  intros Hprep Hr Hkq Hk1 Hkeyed Hh Hne Hid Hsplit Hw Hcnt Hrb Hhd Ho.
  destruct (push_blocked_spec q1 kept (u, task)) as (q' & Hpush & Hh' & Hkind' & Hk' & Hcu & Hw' & _); [done..|].
  assert (StronglySorted (fun x y => uid x < uid y) (waiting q')) as Hs by (apply keyed_sorted; congruence).
  exists q'. split; simpl; [|done|by rewrite Hw', Hw|done|congruence|done| |done|done].
  - unfold lock_queue. rewrite Hprep. cbn [mbind option_bind]. destruct r as [[]|[]]; cbn [mbind option_bind].
    + destruct Hr as [|Hr]; [done|]. rewrite (try_lock_deny q1 kept) by done. cbn [mbind option_bind]. by rewrite Hpush.
    + by rewrite Hpush.
  - split; [done|done| |].
    + intros y rest Hy Hcur. rewrite Hcu in Hcur. destruct (y.1) eqn:Ey; [|done].
      destruct (Hhd y) as (z & Hz & Hlt); [rewrite <- Hw', Hy; left|done|done|].
      rewrite <- Hw' in Hz. destruct (head_least _ _ _ _ Hs Hy Hz) as [->|]; lia.
    + intros h b Hin Hb. apply Ho; [done|]. by rewrite <- Hw'.
Qed.

(** The scan and the move that take readers back. *)
Lemma reblock_scan_spec counts0 l : forall counts,
  NoDup l.*1 -> Forall (fun e => e.1 = task_id e.2) l ->
  Forall (fun e => 0 <= count counts0 e.1 < U32_MAX) l ->
  (forall e, e ∈ l -> count counts e.1 = count counts0 e.1) ->
  exists counts', reblock_scan l counts = Some ((filter (fun e => 0 < count counts0 e.1) l).*1, counts') /\
    forall id, count counts' id = count counts id +
      if decide (id ∈ (filter (fun e => 0 < count counts0 e.1) l).*1) then 1 else 0.
Proof.
  induction l as [|[k task] l IH]; intros counts Hnd Hk Hb He.
  { exists counts. split; [done|]. intros id. rewrite decide_False by set_solver. lia. }
  rewrite fmap_cons in Hnd. apply NoDup_cons in Hnd as [Hkl Hnd]. apply Forall_cons in Hk as [Hkt Hk].
  apply Forall_cons in Hb as [Hb0 Hb]. simpl in Hkt, Hb0, Hkl. subst k.
  pose proof (He (task_id task, task) ltac:(left)) as He0. simpl in He0.
  cbn [reblock_scan]. unfold try_reblock. rewrite He0. split_if; bool_to_prop.
  - cbn [mbind option_bind]. destruct (IH counts Hnd Hk Hb) as (counts' & -> & Hc'); [set_solver|].
    cbn [mbind option_bind]. rewrite filter_cons_False by (simpl; lia). eauto.
  - unfold increment, checked_add. rewrite (proj2 (Z.leb_le _ _)) by lia. cbn [mbind option_bind].
    destruct (IH (<[task_id task := count counts0 (task_id task) + 1]> counts) Hnd Hk Hb) as (counts' & -> & Hc').
    { intros e Hin. rewrite count_insert, decide_False; [apply He; by right|].
      intros Heq. apply Hkl. rewrite <- Heq. by apply list_elem_of_fmap_2. }
    cbn [mbind option_bind]. rewrite filter_cons_True by (simpl; lia). exists counts'. split; [done|].
    intros id. rewrite Hc', count_insert, fmap_cons. cbn [fst].
    destruct (decide (id = task_id task)) as [->|Hne].
    + rewrite decide_False, decide_True; [lia|left|]. intros Hin. apply Hkl.
      apply list_elem_of_fmap in Hin as (e & -> & [_ Hin]%list_elem_of_filter). by apply list_elem_of_fmap_2.
    + destruct (decide (id ∈ (filter (fun e => 0 < count counts0 e.1) l).*1)) as [Hi|Hi].
      * rewrite decide_True by (by right). lia.
      * rewrite decide_False; [lia|]. intros [Heq|Hin]%elem_of_cons; [by apply Hne|by apply Hi].
Qed.

Lemma reblock_move_spec rbl : forall ts keptl blocked,
  BTree.sorted ts -> ts ≡ₚ rbl ++ keptl -> Forall (fun e => e.1 = task_id e.2) ts ->
  BTree.sorted blocked -> Forall (fun e => e.1 = uid e.2) blocked ->
  (forall e, e ∈ rbl -> e.1 ∉ blocked.*1) -> NoDup rbl.*1 ->
  exists ts' blocked', reblock_move rbl.*1 ts blocked = Some (ts', blocked') /\
    ts' ≡ₚ keptl /\ BTree.sorted ts' /\ BTree.sorted blocked' /\ Forall (fun e => e.1 = uid e.2) blocked' /\
    blocked'.*2 ≡ₚ ((fun e => (Readonly, e.2)) <$> rbl) ++ blocked.*2.
Proof.
  induction rbl as [|[k task] rbl IH]; intros ts keptl blocked Hs Hp Hk Hsb Hkb Hdis Hnd.
  { exists ts, blocked. by split_and!. }
  rewrite fmap_cons in *. cbn [reblock_move fst]. apply NoDup_cons in Hnd as [Hkl Hnd]. cbn [fst] in Hkl.
  assert ((k, task) ∈ ts) as Hin by (rewrite Hp; left).
  assert (k = task_id task) as -> by (rewrite Forall_forall in Hk; apply (Hk _ Hin)).
  destruct (BTree.btree_remove_spec _ _ _ Hs Hin) as (ts1 & -> & Hp1 & Hs1). cbn [mbind option_bind].
  destruct (BTree.btree_insert_spec (task_id task) (Readonly, task) blocked Hsb) as (blocked1 & -> & Hpb & Hsb1).
  { apply (Hdis (task_id task, task)). left. }
  cbn [mbind option_bind].
  destruct (IH ts1 keptl blocked1) as (ts' & blocked' & -> & Hts' & Hs' & Hsb' & Hkb' & Hpb').
  { done. } { apply (Permutation_cons_inv (a := (task_id task, task))). by rewrite <- Hp1, Hp. }
  { rewrite Hp1 in Hk. by apply Forall_cons in Hk as [_ ?]. } { done. }
  { rewrite Hpb. by constructor. }
  { intros e He. rewrite Hpb, fmap_cons, not_elem_of_cons. cbn [fst]. split; [|apply Hdis; by right].
    intros Heq. apply Hkl. rewrite <- Heq. by apply list_elem_of_fmap_2. }
  { done. }
  exists ts', blocked'. split_and!; try done. rewrite Hpb', Hpb, !fmap_cons. cbn [snd].
  by rewrite <- Permutation_middle.
Qed.

Section LockPriority.
Context (NR : Z -> Prop) (hs : list UsageFromTask) (counts : Counts) (task : Task) (b : list (Z * UsageFromTask)).
Context (Hnr : forall h, h ∈ hs -> NR (uid h) <-> 0 < count counts (uid h)).
Context (Hcnt : forall h, h ∈ hs -> 0 <= count counts (uid h) < U32_MAX).
Context (Hlen : Z.of_nat (length hs) < U32_MAX).

Lemma lock_priority_free u :
  held_by (Priority None b) hs -> keyed (Priority None b) -> ordered (fun x => x) NR (Priority None b) hs ->
  exists q', locked (fun x => x) NR (Priority None b) hs counts (u, task) false q' counts hs [].
Proof.
  intros Hh Hk [_ Hn _ _]. simpl in Hh. subst hs. specialize (Hn eq_refl). simpl in Hn.
  apply fmap_nil_inv in Hn. subst b. apply (locked_grant _ _ _ _ _ _ (Priority None [])); try done.
  - by left.
  - set_solver.
  - intros. by apply no_reblocks.
  - set_solver.
  - set_solver.
Qed.

(** The holder writes: the new task waits behind it, or takes its place. *)
Lemma lock_priority_behind_writer u cur :
  let q := Priority (Some (UWritable cur)) b in
  hs = [(Writable, cur)] -> keyed q -> ordered (fun x => x) NR q hs ->
  task_id task ∉ uid <$> waiting q -> task_id task <> task_id cur ->
  (task_id task < task_id cur -> count counts (task_id cur) = 0) ->
  exists q', locked (fun x => x) NR q hs counts (u, task) true q' counts hs [].
Proof.
  intros q Hhs Hk [_ _ _ Ho] Hxw Hne Hlow. subst hs.
  apply (locked_wait NR q _ counts task u (Err tt) q counts);
    [|by left|done|done|done|done|done|done|done|done|intros; by apply no_reblocks|set_solver|done|].
  - unfold q, prepare_lock, is_higher_priority. destruct (Z.lt_ge_cases (task_id task) (task_id cur)) as [Hlt|Hge].
    + rewrite (proj2 (Z.ltb_lt _ _)) by done. cbn [mbind option_bind negb]. unfold try_reblock. by rewrite Hlow.
    + rewrite (proj2 (Z.ltb_ge _ _)), (proj2 (Z.ltb_lt _ _)) by lia. done.
  - intros h y Hin Hy Hn. apply elem_of_cons in Hy as [->|Hy]; [|by apply Ho].
    pose proof Hin as Hin'. apply list_elem_of_singleton in Hin as ->. apply Hnr in Hn; [|done].
    unfold uid in *. simpl in *. lia.
Qed.

Lemma lock_priority_takes_writer u cur :
  let q := Priority (Some (UWritable cur)) b in
  hs = [(Writable, cur)] -> keyed q -> ordered (fun x => x) NR q hs ->
  task_id cur ∉ uid <$> waiting q -> task_id task < task_id cur -> 0 < count counts (task_id cur) ->
  exists q' counts', locked (fun x => x) NR q hs counts (u, task) false q' counts' [] hs.
Proof.
  intros q Hhs [Hsb Hkb] [_ _ _ Ho] Hcw Hlt Hpos. subst hs.
  pose proof (Hcnt (Writable, cur) ltac:(left)) as Hb. unfold uid in Hb. simpl in Hb.
  assert (forall y, y ∈ waiting q -> task_id cur < uid y) as Hfirst.
  { intros y Hy. apply (Ho (Writable, cur)); [left|done|]. apply Hnr; [left|done]. }
  destruct (BTree.btree_insert_spec (task_id cur) (Writable, cur) b Hsb) as (b' & Hins & Hpb & Hsb').
  { by rewrite keyed_ids. }
  assert (keyed (Priority None b')) as Hk' by (split; [done|]; rewrite Hpb; by constructor).
  assert (forall y, y ∈ b'.*2 -> y = (Writable, cur) \/ task_id cur < uid y) as Hb'.
  { intros y. rewrite Hpb, fmap_cons. intros [->|Hy]%elem_of_cons; [by left|right]. by apply Hfirst. }
  destruct (locked_grant NR q [(Writable, cur)] counts task u (Priority None b')
    (<[task_id cur := count counts (task_id cur) + 1]> counts) [] [(Writable, cur)]) as (q' & Hq');
    [|done|done|done|done|by left|set_solver|done|done|simpl; by rewrite Hpb|..|eauto].
  - unfold q, prepare_lock, is_higher_priority. rewrite (proj2 (Z.ltb_lt _ _)) by done.
    cbn [mbind option_bind negb]. unfold try_reblock. rewrite (proj2 (Z.eqb_neq _ _)) by lia.
    unfold increment, checked_add. rewrite (proj2 (Z.leb_le _ _)) by lia. cbn [mbind option_bind negb]. by rewrite Hins.
  - intros id. rewrite count_insert, fmap_cons, fmap_nil. unfold uid. cbn [snd].
    destruct (decide (id = task_id cur)) as [->|Hne];
      [rewrite decide_True by left; done|rewrite decide_False by (by rewrite list_elem_of_singleton); lia].
  - intros r Hr. apply list_elem_of_singleton in Hr as ->. done.
  - intros y rest Hy _. destruct (head_least _ _ _ (Writable, cur) (keyed_sorted _ Hk' eq_refl) Hy) as [<-|Hlt']; [|done|].
    { simpl. rewrite Hpb. left. }
    destruct (Hb' y) as [->|Hy']; [change (y ∈ waiting (Priority None b')); rewrite Hy; left|done|].
    unfold uid in *. simpl in *. lia.
  - intros h y Hin Hy _. apply list_elem_of_singleton in Hin as ->. unfold uid at 1. simpl.
    destruct (Hb' y Hy) as [->|Hy']; [done|]. lia.
Qed.
(** The holders read, and so does the new task: it joins them unless a writer of
    higher priority waits. *)
Lemma lock_priority_reader ts :
  let q := Priority (Some (UReadonly ts)) b in
  held_by q hs -> keyed q -> ordered (fun x => x) NR q hs ->
  task_id task ∉ uid <$> waiting q -> task_id task ∉ uid <$> hs ->
  exists blk q', locked (fun x => x) NR q hs counts (Readonly, task) blk q' counts hs [].
Proof.
  intros q Hh Hk [Hs Hn Hhd Ho] Hxw Hxh. pose proof (held_by_nil q hs Hh) as Hne. simpl in Hne.
  assert (hs <> []) as Hne' by (intros Heq; by apply (proj2 Hne) in Heq).
  assert (prepare_lock q counts task Readonly = Some (Ok tt, q, counts) ->
    (forall y, y ∈ waiting q -> task_id task < uid y) ->
    exists blk q', locked (fun x => x) NR q hs counts (Readonly, task) blk q' counts hs []) as Hgrant.
  { intros Hprep Hlow. exists false. apply (locked_grant NR q hs counts task Readonly q counts hs []);
      [done|done|done|done|done|by right|done|done|by rewrite app_nil_r|done|intros; by apply no_reblocks
      |set_solver|by eauto|].
    intros h y [->|Hin]%elem_of_cons Hy Hnr'; [by apply Hlow|by apply Ho]. }
  destruct (waiting q) as [|[v p] rest] eqn:Hw.
  - apply Hgrant; [|set_solver]. unfold q, prepare_lock. rewrite peek_spec. fold q. by rewrite Hw.
  - assert (v = Writable) as -> by (by apply (Hhd (v, p) rest)).
    assert (prepare_lock q counts task Readonly =
      (higher ← is_higher_priority task p; Some (if (higher : bool) then Ok tt else Err tt, q, counts))) as Hprep.
    { unfold q, prepare_lock. rewrite peek_spec. fold q. by rewrite Hw. }
    unfold is_higher_priority in Hprep.
    assert (task_id task <> task_id p) as Hnp by (intros Heq; apply Hxw; rewrite Heq; left).
    assert (forall y, y ∈ (Writable, p) :: rest -> y = (Writable, p) \/ task_id p < uid y) as Hfirst.
    { intros y Hy. by apply (head_least _ _ _ _ Hs eq_refl). }
    destruct (Z.lt_ge_cases (task_id task) (task_id p)) as [Hlt|Hge].
    + rewrite (proj2 (Z.ltb_lt _ _)) in Hprep by done. apply Hgrant; [done|].
      intros y Hy. destruct (Hfirst y Hy) as [->|]; [done|lia].
    + rewrite (proj2 (Z.ltb_ge _ _)), (proj2 (Z.ltb_lt _ _)) in Hprep by lia. exists true.
      apply (locked_wait NR q hs counts task Readonly (Err tt) q counts hs []);
        [done|by left|done|done|done|done|done|by rewrite Hw|by rewrite app_nil_r|done|intros; by apply no_reblocks
        |set_solver|..]; rewrite Hw.
      * intros y Hy _ Hr. exists (Writable, p). split; [right; left|].
        apply elem_of_cons in Hy as [->|Hy]; [unfold uid; simpl; lia|].
        destruct (Hfirst y Hy) as [->|]; [done|done].
      * intros h y Hin Hy Hnr'. apply elem_of_cons in Hy as [->|Hy]; [|by apply Ho].
        pose proof (Ho h (Writable, p) Hin ltac:(left) Hnr') as Hhp. unfold uid in *. simpl in *. lia.
Qed.

(** The holders read and the new task writes: the readers of lower priority that
    cannot run yet wait again. *)
Definition reblockable (e : Z * Task) : Prop := task_id task <= e.1 /\ 0 < count counts e.1.

#[local] Instance reblockable_dec e : Decision (reblockable e).
Proof. unfold reblockable. apply _. Defined.

Lemma reblock_readers ts :
  let q := Priority (Some (UReadonly ts)) b in
  held_by q hs -> keyed q -> NoDup (uid <$> waiting q ++ hs) ->
  exists ts' b' counts',
    prepare_lock q counts task Writable =
      Some (if bool_decide (ts' = []) then Ok tt else Err tt,
            if bool_decide (ts' = []) then Priority None b' else Priority (Some (UReadonly ts')) b', counts') /\
    let kept := (fun e => (Readonly, e.2)) <$> filter (fun e => ~ reblockable e) ts in
    let rb := (fun e => (Readonly, e.2)) <$> filter reblockable ts in
    ts' ≡ₚ filter (fun e => ~ reblockable e) ts /\
    held_by (if bool_decide (ts' = []) then Priority None b' else Priority (Some (UReadonly ts')) b') kept /\
    keyed (Priority None b') /\ b'.*2 ≡ₚ rb ++ b.*2 /\ hs ≡ₚ kept ++ rb /\
    forall id, count counts' id = count counts id + if decide (id ∈ uid <$> rb) then 1 else 0.
Proof.
  intros q (Hne & Hhs & Hs & Hkt) [Hsb Hkb] Hnd.
  assert (forall e, e ∈ ts -> e.1 = task_id e.2 /\ (Readonly, e.2) ∈ hs) as Hts.
  { intros e He. split; [rewrite Forall_forall in Hkt; by apply Hkt|]. rewrite Hhs.
    by apply (list_elem_of_fmap_2 (fun e : Z * Task => (Readonly, e.2))). }
  assert (NoDup ts.*1) as Hndt.
  { rewrite (holder_keys ts Hkt), <- Hhs. rewrite fmap_app, NoDup_app in Hnd. tauto. }
  assert (BTree.range_from (task_id task) ts ⊆ ts) as Hsub by (unfold BTree.range_from; intros e [_ ?]%list_elem_of_filter; done).
  destruct (reblock_scan_spec counts (BTree.range_from (task_id task) ts) counts) as (counts' & Hscan & Hc').
  { eapply sublist_NoDup; [exact Hndt|]. apply fmap_sublist, sublist_filter. }
  { apply Forall_forall. intros e He. by apply Hts, Hsub. }
  { apply Forall_forall. intros e He. destruct (Hts e (Hsub e He)) as [-> Hin]. apply (Hcnt _ Hin). }
  { done. }
  assert (filter (fun e => 0 < count counts e.1) (BTree.range_from (task_id task) ts) = filter reblockable ts) as Hf.
  { unfold BTree.range_from. rewrite list_filter_filter. apply list_filter_iff. unfold reblockable. tauto. }
  rewrite Hf in *.
  destruct (reblock_move_spec (filter reblockable ts) ts (filter (fun e => ~ reblockable e) ts) b)
    as (ts' & b' & Hmove & Hts' & Hs' & Hsb' & Hkb' & Hpb); try done.
  { by rewrite filter_app_complement. }
  { intros e [_ He]%list_elem_of_filter Hin. rewrite keyed_ids in Hin by done. simpl in Hnd.
    destruct (Hts e He) as [Hk Hin']. rewrite fmap_app, NoDup_app in Hnd. destruct Hnd as (_ & Hd & _).
    apply (Hd _ Hin). rewrite Hk. by apply (list_elem_of_fmap_2 uid _ (Readonly, e.2)). }
  { eapply sublist_NoDup; [exact Hndt|]. apply fmap_sublist, sublist_filter. }
  assert (ts ≡ₚ filter (fun e => ~ reblockable e) ts ++ filter reblockable ts) as Hsplit.
  { by rewrite Permutation_app_comm, filter_app_complement. }
  exists ts', b', counts'. split; [|split; [done|split; [|split; [done|split; [done|split]]]]].
  - unfold q, prepare_lock. rewrite Hscan. cbn [mbind option_bind]. rewrite Hmove. cbn [mbind option_bind].
    by destruct ts'.
  - case_bool_decide as Het.
    + subst ts'. apply Permutation_nil_l in Hts'. simpl. by rewrite <- Hts'.
    + split_and!; [done|by rewrite <- Hts'|done|]. rewrite Hts'. apply Forall_forall.
      intros e [_ He]%list_elem_of_filter. by apply Hts.
  - rewrite Hhs, Hsplit at 1. by rewrite fmap_app.
  - intros id. rewrite Hc'. f_equal. apply decide_ext. 
    rewrite <- list_fmap_compose. split; intros Hin; apply list_elem_of_fmap in Hin as (e & -> & He);
      apply list_elem_of_fmap; exists e; (split; [|done]); apply list_elem_of_filter in He as [_ He];
      by destruct (Hts e He) as [Hk _].
Qed.
Lemma lock_priority_writer ts :
  let q := Priority (Some (UReadonly ts)) b in
  held_by q hs -> keyed q -> ordered (fun x => x) NR q hs -> NoDup (uid <$> (Writable, task) :: waiting q ++ hs) ->
  exists blk q' counts' kept rb, locked (fun x => x) NR q hs counts (Writable, task) blk q' counts' kept rb.
Proof.
  intros q Hh Hk [Hs Hn Hhd Ho] Hnd. rewrite fmap_cons in Hnd. apply NoDup_cons in Hnd as [Hx Hnd].
  rewrite fmap_app, not_elem_of_app in Hx. destruct Hx as [Hxw Hxh].
  destruct (reblock_readers ts Hh Hk Hnd) as (ts' & b' & counts' & Hprep & Hts' & Hh' & Hk' & Hpb & Hsplit & Hc').
  destruct Hh as (Hne & Hhs & _ & Hkt). rewrite Forall_forall in Hkt.
  set (kept := (fun e => (Readonly, e.2)) <$> filter (fun e => ~ reblockable e) ts) in *.
  set (rb := (fun e => (Readonly, e.2)) <$> filter reblockable ts) in *.
  assert (forall r, r ∈ rb -> 0 < count counts (uid r) /\ task_id task < uid r) as Hrb.
  { intros r Hr. assert (uid r <> task_id task) as Hneq.
    { intros Heq. apply Hxh. change (uid (Writable, task)) with (task_id task). rewrite <- Heq.
      apply list_elem_of_fmap_2. rewrite Hsplit. set_solver. }
    apply list_elem_of_fmap in Hr as (e & -> & [[Hle Hpos] He]%list_elem_of_filter).
    unfold uid in *. simpl in *. rewrite <- (Hkt e He) in *. lia. }
  assert (forall h, h ∈ kept -> NR (uid h) -> uid h < task_id task) as Hkept.
  { intros h Hin Hnr'. apply Hnr in Hnr'; [|rewrite Hsplit; set_solver].
    apply list_elem_of_fmap in Hin as (e & -> & [Hno He]%list_elem_of_filter). unfold reblockable in Hno.
    unfold uid in *. simpl in *. rewrite <- (Hkt e He) in *. lia. }
  case_bool_decide as Het.
  - simpl in Hh'. exists false. destruct (locked_grant NR q hs counts task Writable (Priority None b') counts' kept rb)
      as (q' & Hq'); [done|done|done|done|done|by left|rewrite Hh'; set_solver|by rewrite Hh'|done|done|done|..|eauto].
    + intros r Hr. by apply Hrb.
    + done.
    + intros h y Hin Hy _. rewrite Hh', list_elem_of_singleton in Hin. subst h. unfold uid at 1. simpl.
      simpl in Hy. rewrite Hpb in Hy. apply elem_of_app in Hy as [Hy|Hy]; [by apply Hrb|].
      destruct rb as [|r rb'] eqn:Erb.
      { rewrite Hh' in Hsplit. rewrite Hhs in Hsplit. apply Permutation_nil_r, fmap_nil_inv in Hsplit. done. }
      destruct (Hrb r ltac:(left)) as [Hpos Hlt].
      assert (r ∈ hs) as Hr by (rewrite Hsplit; set_solver).
      pose proof (Ho r y Hr Hy (proj2 (Hnr r Hr) Hpos)). lia.
  - exists true.
    assert (kept <> []) as Hkne.
    { intros Heq. apply Het. apply fmap_nil_inv in Heq. rewrite Heq in Hts'. by apply Permutation_nil_r in Hts'. }
    destruct (locked_wait NR q hs counts task Writable (Err tt) (Priority (Some (UReadonly ts')) b') counts' kept rb)
      as (q' & Hq'); [done|by left|done|done|done|done|done| |done|done|done| | | |eauto].
    + simpl. rewrite Hpb, fmap_app, not_elem_of_app. split; [|done]. intros Hin. apply Hxh.
      rewrite Hsplit, fmap_app, elem_of_app. by right.
    + intros r Hr. by apply Hrb.
    + intros y Hy _ Hr. simpl in Hy. rewrite Hpb in Hy. apply elem_of_cons in Hy as [->|Hy]; [done|].
      apply elem_of_app in Hy as [Hy|Hy].
      { exists (Writable, task). split; [left|]. by apply Hrb. }
      change (y ∈ waiting q) in Hy. destruct (waiting q) as [|f rest] eqn:Hw; [set_solver|].
      destruct (head_least _ _ _ _ Hs eq_refl Hy) as [->|Hlt]; [by rewrite (Hhd f rest) in Hr|].
      exists f. split; [right|done]. simpl. rewrite Hpb. apply elem_of_app. right.
      change (f ∈ waiting q). rewrite Hw. left.
    + intros h y Hin Hy Hnr'. pose proof (Hkept h Hin Hnr') as Hlt. simpl in Hy. rewrite Hpb in Hy.
      apply elem_of_cons in Hy as [->|[Hy|Hy]%elem_of_app]; [done| |].
      * pose proof (Hrb y Hy). lia.
      * apply Ho; [rewrite Hsplit; set_solver|done|done].
Qed.
End LockPriority.

(** Scheduling on one queue, of either kind. *)
Lemma lock_queue_spec ord NR q hs counts task u :
  held_by q hs -> keyed q -> ordered ord NR q hs -> NoDup (uid <$> (u, task) :: waiting q ++ hs) ->
  Z.of_nat (length hs) < U32_MAX ->
  (forall h, h ∈ hs -> 0 <= count counts (uid h) < U32_MAX) ->
  match kind q with
  | FifoQueueing => forall x, x ∈ waiting q ++ hs -> ord (uid x) < ord (task_id task)
  | PriorityQueueing => ord = (fun x => x) /\ forall h, h ∈ hs -> NR (uid h) <-> 0 < count counts (uid h)
  end ->
  exists blk q' counts' kept rb, locked ord NR q hs counts (u, task) blk q' counts' kept rb.
Proof.
  intros Hh Hk Ho Hnd Hlen Hcnt Hkind. destruct q as [c b|[[ts|cur]|] b]; simpl in Hkind.
  - destruct (lock_fifo_spec ord NR c b hs counts task u) as (blk & q' & Hl); [done..|]. eauto 10.
  - destruct Hkind as [-> Hnr]. destruct u; [|by apply lock_priority_writer].
    rewrite fmap_cons, NoDup_cons, fmap_app, not_elem_of_app in Hnd. destruct Hnd as [[Hxw Hxh] _].
    destruct (lock_priority_reader NR hs counts task b Hnr Hcnt Hlen ts) as (blk & q' & Hl); [done..|]. eauto 10.
  - destruct Hkind as [-> Hnr]. pose proof Hh as Hhs. simpl in Hhs.
    rewrite fmap_cons, NoDup_cons, fmap_app, not_elem_of_app, NoDup_app in Hnd. destruct Hnd as [[Hxw Hxh] (_ & Hd & _)].
    assert (task_id task <> task_id cur) as Hne by (subst hs; set_solver).
    destruct (decide (task_id task < task_id cur /\ count counts (task_id cur) <> 0)) as [[Hlt Hpos]|Hno].
    + destruct (lock_priority_takes_writer NR hs counts task b Hnr Hcnt Hlen u cur) as (q' & counts' & Hl);
        [done|done|done| |done| |eauto 10].
      * intros Hin. apply (Hd _ Hin). subst hs. left.
      * subst hs. specialize (Hcnt (Writable, cur) ltac:(left)). unfold uid in Hcnt. simpl in Hcnt. lia.
    + destruct (lock_priority_behind_writer NR hs counts task b Hnr Hcnt Hlen u cur) as (q' & Hl);
        [done|done|done|done|done| |eauto 10]. lia.
  - destruct Hkind as [-> Hnr].
    destruct (lock_priority_free NR hs counts task b Hnr Hcnt Hlen u) as (q' & Hl); [done..|]. eauto 10.
Qed.

End Queues.
End Queues.
