(* ===== verification/UnifiedScheduler.v ===== *)
(** * The unified scheduler's state machine

    [SchedulingStateMachine] of src/unified-scheduler-logic schedules, buffers
    and deschedules tasks over the usage queues of UsageQueue.v. The queues and
    the counters of blocked usages are shared by reference in the source: here
    they are one store, queues by account and counters by task id. *)

From S2P Require Import Prelude Accounts UsageQueue.
Import Queues.

Module Unified.
Section Unified.
Context {Key : Type} `{Countable Key} {Tx : Type} `{SVMMessage Key Tx}.
#[local] Abbreviation Task := (@Task Key Tx).
#[local] Abbreviation UsageQueueInner := (@UsageQueueInner Key Tx).
#[local] Abbreviation Counts := (gmap Z Z).
#[local] Abbreviation UsageFromTask := (RequestedUsage * Task)%type.

(** ** The machine *)

Record SchedulingStateMachine : Type := MkMachine {
  unblocked_task_queue : list Task;
  active_task_count : Z;
  running_task_count : Z;
  max_running_task_count : Z;
  handled_task_count : Z;
  unblocked_task_count : Z;
  total_task_count : Z
}.

(** What the tokens guard: the usage queues of the accounts and the counters of
    the tasks. *)
Record Store : Type := MkStore {
  capability : Capability;
  queues : gmap Key UsageQueueInner;
  counts : Counts
}.

(** [usage_queue_loader]: the same queue for an account every time. *)
Definition queue (s : Store) (k : Key) : UsageQueueInner :=
  default (UsageQueueInner_new (capability s)) (queues s !! k).

Definition is_task_runnable (self : SchedulingStateMachine) : bool :=
  running_task_count self <? max_running_task_count self.
Definition has_no_running_task (self : SchedulingStateMachine) : bool := running_task_count self =? 0.
Definition has_no_active_task (self : SchedulingStateMachine) : bool := active_task_count self =? 0.
Definition has_unblocked_task (self : SchedulingStateMachine) : bool :=
  negb (bool_decide (length (unblocked_task_queue self) = 0%nat)).
Definition has_runnable_task (self : SchedulingStateMachine) : bool :=
  has_unblocked_task self && is_task_runnable self.

Definition do_create_task (transaction : Tx) (task_id consumed_block_size : Z) : Task :=
  MkTask transaction task_id
    (imap (fun i address => (address, if is_writable transaction i then Writable else Readonly))
       (account_keys transaction))
    consumed_block_size.

Definition NO_CONSUMED_BLOCK_SIZE : Z := 0.

Definition create_task (transaction : Tx) (task_id : Z) : Task :=
  do_create_task transaction task_id NO_CONSUMED_BLOCK_SIZE.

Definition create_block_production_task (transaction : Tx) (task_id consumed_block_size : Z) : Task :=
  do_create_task transaction task_id consumed_block_size.

(** One turn of the loop of [try_lock_usage_queues]. *)
Definition lock_context (task : Task) (st : Store * Z) (context : Key * RequestedUsage) :
    option (Store * Z) :=
  let '(s, blocked_usage_count) := st in
  let '(k, u) := context in
  '(prepared, q, counts) ← prepare_lock (queue s k) (counts s) task u;
  lock_result ← (match prepared with Ok _ => try_lock q task u | Err _ => Some (Err tt) end);
  match lock_result with
  | Ok q => Some (MkStore (capability s) (<[k := q]> (queues s)) counts, blocked_usage_count)
  | Err _ =>
      blocked_usage_count ← increment blocked_usage_count;
      q ← push_blocked q (u, task);
      Some (MkStore (capability s) (<[k := q]> (queues s)) counts, blocked_usage_count)
  end.

Definition try_lock_usage_queues (task : Task) (s : Store) : option (option Task * Store) :=
  '(s, blocked_usage_count) ← foldM (lock_context task) (s, 0) (lock_contexts task);
  if blocked_usage_count =? 0 then Some (Some task, s)
  else Some (None, MkStore (capability s) (queues s)
                     (<[task_id task := blocked_usage_count]> (counts s))).

Definition schedule_or_buffer_task (task : Task) (force_buffering : bool)
    (self : SchedulingStateMachine) (s : Store) : option (option Task * SchedulingStateMachine * Store) :=
  let '(MkMachine uq active running max handled unblocked total) := self in
  total ← increment total;
  active ← increment active;
  '(locked, s) ← try_lock_usage_queues task s;
  match locked with
  | None => Some (None, MkMachine uq active running max handled unblocked total, s)
  | Some task =>
      if negb (running <? max) || force_buffering then
        unblocked ← increment unblocked;
        Some (None, MkMachine (uq ++ [task]) active running max handled unblocked total, s)
      else
        running ← increment running;
        Some (Some task, MkMachine uq active running max handled unblocked total, s)
  end.

(** [self.schedule_or_buffer_task(task, true).unwrap_none()]. *)
Definition buffer_task (task : Task) (self : SchedulingStateMachine) (s : Store) :
    option (SchedulingStateMachine * Store) :=
  '(r, self, s) ← schedule_or_buffer_task task true self s;
  match r with None => Some (self, s) | Some _ => None end.

Definition schedule_next_unblocked_task (self : SchedulingStateMachine) :
    option (option Task * SchedulingStateMachine) :=
  if negb (is_task_runnable self) then Some (None, self)
  else
    let '(MkMachine uq active running max handled unblocked total) := self in
    match uq with
    | [] => Some (None, self)
    | task :: uq =>
        running ← increment running;
        unblocked ← increment unblocked;
        Some (Some task, MkMachine uq active running max handled unblocked total)
    end.

(** One turn of the loop of [unlock_usage_queues]. *)
Definition unlock_context (task : Task) (st : Store * list Task) (context : Key * RequestedUsage) :
    option (Store * list Task) :=
  let '(s, uq) := st in
  let '(k, u) := context in
  '(newly_lockable, q) ← unlock (queue s k) task u;
  '(q, counts, uq) ← lock_newly (Datatypes.S (blocked_len q)) newly_lockable q (counts s) uq;
  Some (MkStore (capability s) (<[k := q]> (queues s)) counts, uq).

Definition unlock_usage_queues (task : Task) (s : Store) (uq : list Task) : option (Store * list Task) :=
  foldM (unlock_context task) (s, uq) (lock_contexts task).

Definition deschedule_task (task : Task) (self : SchedulingStateMachine) (s : Store) :
    option (SchedulingStateMachine * Store) :=
  let '(MkMachine uq active running max handled unblocked total) := self in
  running ← decrement running;
  active ← decrement active;
  handled ← increment handled;
  '(s, uq) ← unlock_usage_queues task s uq;
  Some (MkMachine uq active running max handled unblocked total, s).

Definition reinitialize (self : SchedulingStateMachine) : option SchedulingStateMachine :=
  if has_no_active_task self && (running_task_count self =? 0) &&
     bool_decide (length (unblocked_task_queue self) = 0%nat)
  then Some (MkMachine (unblocked_task_queue self) 0 (running_task_count self) (max_running_task_count self) 0 0 0)
  else None.

(** The loop of [clear_and_reinitialize]; [cleared] is its counter. *)
Fixpoint clear_loop (fuel : nat) (self : SchedulingStateMachine) (s : Store) (cleared : Z) :
    option (SchedulingStateMachine * Store * Z) :=
  match fuel with
  | O => None
  | Datatypes.S fuel =>
      '(next, self) ← schedule_next_unblocked_task self;
      match next with
      | None => Some (self, s, cleared)
      | Some task =>
          '(self, s) ← deschedule_task task self s;
          cleared ← increment cleared;
          clear_loop fuel self s cleared
      end
  end.

Definition clear_and_reinitialize (fuel : nat) (self : SchedulingStateMachine) (s : Store) :
    option (SchedulingStateMachine * Store * Z) :=
  '(self, s, cleared) ← clear_loop fuel self s 0;
  self ← reinitialize self;
  Some (self, s, cleared).

(** [exclusively_initialize_current_thread_for_scheduling]. *)
Definition initialize (max_running_task_count : option Z) : option SchedulingStateMachine :=
  let max := default U32_MAX max_running_task_count in
  if max <=? U32_MAX then Some (MkMachine [] 0 0 max 0 0 0) else None.

Lemma lock_context_queue task s blocked k u :
  lock_context task (s, blocked) (k, u) =
  ('(blk, q, counts) ← lock_queue (queue s k) (counts s) task u;
   blocked ← (if (blk : bool) then increment blocked else Some blocked);
   Some (MkStore (capability s) (<[k := q]> (queues s)) counts, blocked)).
Proof.
  unfold lock_context, lock_queue. destruct (prepare_lock _ _ _ _) as [[[[|] q] c]|]; simpl; [|..|done].
  - destruct (try_lock q task u) as [[|]|]; simpl; [done| |done].
    destruct (push_blocked _ _), (increment blocked); done.
  - destruct (push_blocked _ _), (increment blocked); done.
Qed.

(** ** Claims

    The tasks in the machine, each with the queues it claims. While a task is
    being scheduled or descheduled it claims some of its accounts. *)

Abbreviation Claim := (Task * list (Key * RequestedUsage))%type.
Definition cid (c : Claim) : Z := task_id c.1.

Definition usage_at (contexts : list (Key * RequestedUsage)) (k : Key) : option RequestedUsage :=
  snd <$> head (filter (fun c => c.1 = k) contexts).

(** The usages claimed on an account. *)
Definition members (claims : list Claim) (k : Key) : list UsageFromTask :=
  omap (fun c => (fun u => (u, c.1)) <$> usage_at c.2 k) claims.

Record claims_ok (claims : list Claim) : Prop := {
  claims_ids : NoDup (cid <$> claims);
  claims_keys : forall c, c ∈ claims -> NoDup c.2.*1 /\ Z.of_nat (length c.2) <= U32_MAX;
  claims_length : Z.of_nat (length claims) <= U32_MAX
}.

Lemma usage_at_spec ctx k u : NoDup ctx.*1 -> usage_at ctx k = Some u <-> (k, u) ∈ ctx.
Proof.
  induction ctx as [|[k' u'] ctx IH]; intros Hnd; [set_solver|].
  rewrite fmap_cons in Hnd. apply NoDup_cons in Hnd as [Hk Hnd]. simpl in Hk. unfold usage_at.
  destruct (decide (k' = k)) as [->|Hne].
  - rewrite filter_cons_True by done. simpl. rewrite elem_of_cons. split.
    + intros [= ->]. by left.
    + intros [[= ->]|Hin]; [done|]. destruct Hk. by apply (list_elem_of_fmap_2 fst ctx (k, u)).
  - rewrite filter_cons_False by done. fold (usage_at ctx k). rewrite IH, elem_of_cons by done. naive_solver.
Qed.

Lemma members_spec claims k u task :
  claims_ok claims -> (u, task) ∈ members claims k <-> exists ctx, (task, ctx) ∈ claims /\ (k, u) ∈ ctx.
Proof.
  intros [_ Hk _]. unfold members. rewrite list_elem_of_omap. split.
  - intros ([t ctx] & Hc & Hu). simpl in Hu. destruct (usage_at ctx k) as [v|] eqn:E; [|done].
    injection Hu as <- <-. exists ctx. split; [done|]. apply usage_at_spec; [by apply (Hk (t, ctx))|done].
  - intros (ctx & Hc & Hin). exists (task, ctx). split; [done|]. simpl.
    apply usage_at_spec in Hin as ->; [done|]. by apply (Hk (task, ctx)).
Qed.

Lemma members_ids claims k : uid <$> members claims k ⊆+ cid <$> claims.
Proof.
  induction claims as [|c claims IH]; [done|]. unfold members. cbn [omap list_omap].
  destruct (usage_at c.2 k); simpl; [by apply submseteq_skip|by apply submseteq_cons].
Qed.

Lemma members_NoDup claims k : claims_ok claims -> NoDup (uid <$> members claims k).
Proof.
  intros [Hnd _ _]. destruct (submseteq_Permutation _ _ (members_ids claims k)) as (l & Hp).
  rewrite Hp in Hnd. by apply NoDup_app in Hnd as [? _].
Qed.

Lemma members_length claims k : (length (members claims k) <= length claims)%nat.
Proof. apply length_omap_le. Qed.

#[global] Instance members_perm : Proper ((≡ₚ) ==> (=) ==> (≡ₚ)) members.
Proof. intros l1 l2 Hl k _ <-. unfold members. by rewrite Hl. Qed.

(** Claiming one more account, or one less. *)
Lemma usage_at_snoc ctx k u k' :
  k ∉ ctx.*1 -> usage_at (ctx ++ [(k, u)]) k' = if decide (k' = k) then Some u else usage_at ctx k'.
Proof.
  induction ctx as [|[k1 u1] ctx IH]; intros Hk; unfold usage_at.
  - simpl. rewrite filter_cons, filter_nil. simpl. repeat case_decide; naive_solver.
  - rewrite fmap_cons, not_elem_of_cons in Hk. simpl in Hk. destruct Hk as [Hne Hk]. simpl.
    rewrite !filter_cons. simpl. destruct (decide (k1 = k')) as [->|].
    + rewrite decide_False by done. done.
    + by apply IH.
Qed.

Lemma usage_at_none ctx k : k ∉ ctx.*1 -> usage_at ctx k = None.
Proof.
  induction ctx as [|[k1 u1] ctx IH]; intros Hk; [done|].
  rewrite fmap_cons, not_elem_of_cons in Hk. simpl in Hk. destruct Hk as [Hne Hk].
  unfold usage_at. rewrite filter_cons_False by (simpl; congruence). by apply IH.
Qed.

Lemma members_snoc claims task ctx k u k' :
  k ∉ ctx.*1 ->
  members (claims ++ [(task, ctx ++ [(k, u)])]) k'
  ≡ₚ (if decide (k' = k) then [(u, task)] else []) ++ members (claims ++ [(task, ctx)]) k'.
Proof.
  intros Hk. unfold members. rewrite !omap_app. simpl. rewrite usage_at_snoc by done.
  case_decide as Hd; [subst k'|done]. rewrite (usage_at_none ctx k) by done. simpl. rewrite app_nil_r.
  by rewrite Permutation_app_comm.
Qed.

Lemma members_drop claims task ctx k u k' :
  k ∉ ctx.*1 ->
  members ((task, (k, u) :: ctx) :: claims) k'
  = (if decide (k' = k) then [(u, task)] else []) ++ members ((task, ctx) :: claims) k'.
Proof.
  intros Hk. unfold members. cbn [omap list_omap fst snd]. unfold usage_at at 1. rewrite filter_cons. simpl.
  destruct (decide (k = k')) as [<-|].
  - rewrite decide_True by done. by rewrite (usage_at_none ctx k).
  - by rewrite decide_False by congruence.
Qed.

(** ** The counters *)

(** Whether a task waits in a queue, and the number of queues it waits in. *)
Definition waits (q : UsageQueueInner) (id : Z) : Z := if decide (id ∈ uid <$> waiting q) then 1 else 0.
Definition nblocked (s : Store) (id : Z) : Z := Zsum (fun kq => waits kq.2 id) (map_to_list (queues s)).

Lemma waits_bounds q id : 0 <= waits q id <= 1.
Proof. unfold waits. case_decide; lia. Qed.

Lemma waits_iff q id : 0 < waits q id <-> id ∈ uid <$> waiting q.
Proof. unfold waits. case_decide; split; (done || lia). Qed.

Lemma waits_new c id : waits (UsageQueueInner_new c) id = 0.
Proof. unfold waits. rewrite decide_False; [done|]. destruct c; set_solver. Qed.

Lemma nblocked_insert s k q cs id :
  nblocked (MkStore (capability s) (<[k := q]> (queues s)) cs) id
  = nblocked s id - waits (queue s k) id + waits q id.
Proof.
  unfold nblocked, queue. cbn [queues]. rewrite Zsum_map_insert. cbn [snd].
  destruct (queues s !! k); cbn; [lia|]. rewrite waits_new. lia.
Qed.

Lemma queue_insert s k q cs k' :
  queue (MkStore (capability s) (<[k := q]> (queues s)) cs) k' = if decide (k' = k) then q else queue s k'.
Proof.
  unfold queue. cbn [queues capability]. case_decide as Hd; [subst; by rewrite lookup_insert_eq|].
  by rewrite lookup_insert_ne.
Qed.

Lemma nblocked_nonneg s id : 0 <= nblocked s id.
Proof. apply Zsum_nonneg. intros x _. apply waits_bounds. Qed.

(** A task that waits somewhere is counted, and the other way around. *)
Lemma nblocked_pos s id : 0 < nblocked s id <-> exists k, id ∈ uid <$> waiting (queue s k).
Proof.
  split.
  - intros Hpos. destruct (decide (Exists (fun kq => 0 < waits kq.2 id) (map_to_list (queues s)))) as [Hex|Hno].
    + apply Exists_exists in Hex as ([k q] & Hin%elem_of_map_to_list & Hq). exists k. unfold queue.
      rewrite Hin. by apply waits_iff.
    + exfalso. unfold nblocked in Hpos. rewrite Zsum_zero in Hpos; [lia|]. intros x Hx.
      rewrite Exists_exists in Hno. pose proof (waits_bounds x.2 id). destruct (decide (0 < waits x.2 id)); [|lia].
      destruct Hno. eauto.
  - intros (k & Hk). unfold queue in Hk. destruct (queues s !! k) as [q|] eqn:E.
    + apply elem_of_map_to_list in E. apply list_elem_of_split in E as (l1 & l2 & E).
      unfold nblocked. rewrite E, Zsum_app, Zsum_cons. apply waits_iff in Hk. simpl in *.
      pose proof (Zsum_nonneg (fun kq : Key * UsageQueueInner => waits kq.2 id) l1 ltac:(intros; apply waits_bounds)).
      pose proof (Zsum_nonneg (fun kq : Key * UsageQueueInner => waits kq.2 id) l2 ltac:(intros; apply waits_bounds)).
      lia.
    + simpl in Hk. apply waits_iff in Hk. rewrite waits_new in Hk. lia.
Qed.

Lemma nblocked_le s id (ks : list Key) :
  (forall k, id ∈ uid <$> waiting (queue s k) -> k ∈ ks) -> nblocked s id <= Z.of_nat (length ks).
Proof.
  intros Hks. unfold nblocked, waits. rewrite <- Zsum_length.
  set (l := filter _ _). rewrite <- (length_fmap fst l). apply inj_le, submseteq_length, NoDup_submseteq.
  - subst l. eapply sublist_NoDup; [apply (NoDup_fst_map_to_list (queues s))|]. apply fmap_sublist, sublist_filter.
  - intros k ([k' q] & -> & Hin)%list_elem_of_fmap. subst l. apply list_elem_of_filter in Hin as [Hw Hin].
    apply Hks. apply elem_of_map_to_list in Hin. unfold queue. cbn [fst]. by rewrite Hin.
Qed.

(** ** The queues against the claims *)

(** Every account's queue holds and blocks exactly the usages claimed on it. *)
Definition store_ok (ord : Z -> Z) (NR : Z -> Prop) (claims : list Claim) (s : Store) : Prop :=
  forall k, exists hs,
    members claims k ≡ₚ hs ++ waiting (queue s k) /\ held_by (queue s k) hs /\ keyed (queue s k) /\
    kind (queue s k) = capability s /\ ordered ord NR (queue s k) hs.

Lemma store_ok_perm ord NR claims claims' s : claims ≡ₚ claims' -> store_ok ord NR claims s -> store_ok ord NR claims' s.
Proof. intros Hp Hs k. destruct (Hs k) as (hs & Hm & Hrest). exists hs. by rewrite <- Hp. Qed.

Lemma waiting_claim ord NR claims s k x :
  store_ok ord NR claims s -> x ∈ waiting (queue s k) -> x ∈ members claims k.
Proof. intros Hs Hx. destruct (Hs k) as (hs & -> & _). set_solver. Qed.

Lemma claim_unique claims c1 c2 : claims_ok claims -> c1 ∈ claims -> c2 ∈ claims -> cid c1 = cid c2 -> c1 = c2.
Proof. intros [Hnd _ _]. by apply fmap_key_inj. Qed.

(** A task claims the accounts it waits for. *)
Lemma waiting_key ord NR claims s k task ctx :
  claims_ok claims -> store_ok ord NR claims s -> (task, ctx) ∈ claims ->
  task_id task ∈ uid <$> waiting (queue s k) -> k ∈ ctx.*1.
Proof.
  intros Hc Hs Hin ([u t] & Hid & Hw)%list_elem_of_fmap.
  apply (waiting_claim _ _ _ _ _ _ Hs), (members_spec _ _ _ _ Hc) in Hw as (ctx' & Hin' & Hk).
  assert ((task, ctx) = (t, ctx')) as [= -> ->] by (by eapply claim_unique).
  by apply (list_elem_of_fmap_2 fst _ (k, u)).
Qed.

Lemma claims_ok_shrink l1 l2 task ctx ctx' :
  claims_ok (l1 ++ (task, ctx) :: l2) -> sublist ctx' ctx -> claims_ok (l1 ++ (task, ctx') :: l2).
Proof.
  intros [Hid Hk Hl] Hs. split.
  - rewrite fmap_app, fmap_cons in *. done.
  - intros c Hc. rewrite elem_of_app, elem_of_cons in Hc.
    destruct Hc as [Hc|[->|Hc]]; [apply Hk; set_solver| |apply Hk; set_solver]. destruct (Hk (task, ctx) ltac:(set_solver)) as [Hnd Hlen].
    simpl in *. split; [eapply sublist_NoDup; [exact Hnd|by apply fmap_sublist]|].
    apply sublist_length in Hs. lia.
  - rewrite length_app in *. done.
Qed.

(** A task waits in less queues than it claims while it holds one. *)
Lemma holder_bound ord NR claims s k hs h :
  claims_ok claims -> store_ok ord NR claims s -> members claims k ≡ₚ hs ++ waiting (queue s k) ->
  h ∈ hs -> nblocked s (uid h) < U32_MAX.
Proof.
  intros Hc Hs Hm Hh. destruct h as [u t].
  assert ((u, t) ∈ members claims k) as Hin by (rewrite Hm; set_solver).
  pose proof (members_NoDup claims k Hc) as Hnd. rewrite Hm, fmap_app, NoDup_app in Hnd.
  destruct Hnd as (_ & Hd & _). apply (members_spec _ _ _ _ Hc) in Hin as (ctx & Hin & Hk).
  apply (list_elem_of_fmap_2 fst) in Hk. simpl in Hk.
  destruct (claims_keys _ Hc _ Hin) as [Hndk Hlen]. simpl in *. rewrite <- (length_fmap fst) in Hlen.
  apply list_elem_of_split in Hk as (k1 & k2 & Hk). rewrite Hk in Hlen.
  enough (nblocked s (uid (u, t)) <= Z.of_nat (length (k1 ++ k2)))
    by (rewrite !length_app in *; simpl in *; lia).
  apply nblocked_le. intros k' Hw. assert (k' <> k) as Hne.
  { intros ->. apply (Hd (uid (u, t))); [|done]. by apply (list_elem_of_fmap_2 uid _ (u, t)). }
  pose proof (waiting_key _ _ _ _ _ _ _ Hc Hs Hin Hw) as Hk'. rewrite Hk in Hk'. set_solver.
Qed.

(** ** Scheduling one account *)

(** How the order of the queues and the claims that can still be taken relate to
    the tasks while [task] is scheduled. *)
Definition order_ok (ord : Z -> Z) (NR : Z -> Prop) (cl : list Claim) (id : Z) (s : Store) : Prop :=
  match capability s with
  | FifoQueueing => forall c, c ∈ cl -> ord (cid c) < ord id
  | PriorityQueueing => ord = (fun x => x) /\ forall id', id' <> id -> NR id' <-> 0 < nblocked s id'
  end.

Lemma locks_claim ord NR cl task ctx k u s hs :
  claims_ok (cl ++ [(task, ctx)]) -> store_ok ord NR (cl ++ [(task, ctx)]) s ->
  members (cl ++ [(task, ctx)]) k ≡ₚ hs ++ waiting (queue s k) ->
  held_by (queue s k) hs -> keyed (queue s k) -> kind (queue s k) = capability s -> ordered ord NR (queue s k) hs ->
  NoDup (uid <$> (u, task) :: hs ++ waiting (queue s k)) -> Z.of_nat (length hs) < U32_MAX ->
  (forall id, id <> task_id task -> count (counts s) id = nblocked s id) ->
  order_ok ord NR cl (task_id task) s ->
  exists blk q' counts' kept rb, locked ord NR (queue s k) hs (counts s) (u, task) blk q' counts' kept rb.
Proof.
  intros Hc Hs Hm Hh Hkq Hkind Ho Hnd Hlen Hcnt Hord.
  assert (forall x, x ∈ hs ++ waiting (queue s k) -> uid x <> task_id task) as Hfresh.
  { intros x Hx Heq. rewrite fmap_cons, NoDup_cons in Hnd. destruct Hnd as [Hx' _]. apply Hx'.
    change (uid (u, task)) with (task_id task). rewrite <- Heq. by apply list_elem_of_fmap_2. }
  apply lock_queue_spec; [done|done|done| |done| |].
  - by rewrite (Permutation_app_comm (waiting (queue s k)) hs).
  - intros h Hin. rewrite Hcnt by (apply Hfresh; set_solver).
    split; [apply nblocked_nonneg|by eapply holder_bound].
  - rewrite Hkind. unfold order_ok in Hord. destruct (capability s).
    + intros x Hx. rewrite (Permutation_app_comm (waiting (queue s k)) hs) in Hx.
      pose proof (Hfresh x Hx) as Hne. rewrite <- Hm in Hx. destruct x as [v t].
      apply (members_spec _ _ _ _ Hc) in Hx as (ctx' & Hin & _).
      apply elem_of_app in Hin as [Hin|Hin]; [by apply (Hord (t, ctx'))|].
      apply list_elem_of_singleton in Hin as [= -> ->]. done.
    + destruct Hord as [-> Hnr]. split; [done|]. intros h Hin.
      assert (uid h <> task_id task) as Hne by (apply Hfresh; set_solver). rewrite Hnr, Hcnt; done.
Qed.

(** The counters after a queue has taken a claim and blocked [rb] again. *)
Lemma relocked_counts s k q' cs (blk : bool) x rb :
  waiting q' ≡ₚ (if blk then [x] else []) ++ rb ++ waiting (queue s k) ->
  NoDup (uid <$> rb ++ waiting (queue s k)) -> uid x ∉ uid <$> rb ++ waiting (queue s k) ->
  let s' := MkStore (capability s) (<[k := q']> (queues s)) cs in
  nblocked s' (uid x) = nblocked s (uid x) + (if blk then 1 else 0) /\
  forall id, id <> uid x -> nblocked s' id = nblocked s id + if decide (id ∈ uid <$> rb) then 1 else 0.
Proof.
  intros Hw Hnd Hx. cbn zeta. rewrite fmap_app in Hnd, Hx. apply NoDup_app in Hnd as (_ & Hd & _).
  assert (forall id, id ∈ uid <$> waiting q' <->
    id ∈ uid <$> (if blk then [x] else []) \/ id ∈ uid <$> rb \/ id ∈ uid <$> waiting (queue s k)) as Hiff.
  { intros id. by rewrite Hw, !fmap_app, !elem_of_app. }
  apply not_elem_of_app in Hx as [Hx1 Hx2].
  split; [|intros id Hid]; rewrite nblocked_insert; unfold waits.
  - specialize (Hiff (uid x)). rewrite (decide_False (P := uid x ∈ uid <$> waiting (queue s k))) by done.
    destruct blk; [rewrite decide_True|rewrite decide_False]; try lia; apply Hiff || rewrite Hiff; simpl; set_solver.
  - assert (id ∉ uid <$> (if blk then [x] else [])) as Hne by (destruct blk; simpl; set_solver).
    specialize (Hd id). specialize (Hiff id). repeat case_decide; (lia || tauto).
Qed.

Lemma increment_Some c : c < U32_MAX -> increment c = Some (c + 1).
Proof. intros Hc. unfold increment, checked_add. by rewrite (proj2 (Z.leb_le _ _)) by lia. Qed.

Lemma decrement_Some c : 0 < c -> decrement c = Some (c - 1).
Proof. intros Hc. unfold decrement, checked_sub. by rewrite (proj2 (Z.leb_le _ _)) by lia. Qed.

Lemma lock_context_step ord NR cl task ctx k u s :
  claims_ok (cl ++ [(task, ctx ++ [(k, u)])]) -> store_ok ord NR (cl ++ [(task, ctx)]) s ->
  (forall id, id <> task_id task -> count (counts s) id = nblocked s id) ->
  order_ok ord NR cl (task_id task) s ->
  exists s', lock_context task (s, nblocked s (task_id task)) (k, u) = Some (s', nblocked s' (task_id task)) /\
    capability s' = capability s /\ store_ok ord NR (cl ++ [(task, ctx ++ [(k, u)])]) s' /\
    count (counts s') (task_id task) = count (counts s) (task_id task) /\
    forall id, id <> task_id task ->
      count (counts s') id = nblocked s' id /\ (0 < nblocked s' id <-> 0 < nblocked s id).
Proof.
  intros Hc' Hs Hcnt Hord. assert (claims_ok (cl ++ [(task, ctx)])) as Hc
    by (eapply claims_ok_shrink; [done|by apply sublist_inserts_r]).
  destruct (claims_keys _ Hc' (task, ctx ++ [(k, u)]) ltac:(set_solver)) as [Hkeys Hlen]. simpl in Hkeys, Hlen.
  rewrite fmap_app, NoDup_app in Hkeys. destruct Hkeys as (_ & Hkeys & _).
  assert (k ∉ ctx.*1) as Hk by (intros Hin; apply (Hkeys k Hin); simpl; set_solver).
  destruct (Hs k) as (hs & Hm & Hh & Hkq & Hkind & Ho).
  pose proof (members_NoDup _ k Hc') as Hnd. rewrite members_snoc, decide_True, Hm in Hnd by done.
  pose proof (members_length (cl ++ [(task, ctx ++ [(k, u)])]) k) as Hml.
  rewrite members_snoc, decide_True, Hm in Hml by done.
  pose proof (claims_length _ Hc') as Hcl.
  destruct (locks_claim ord NR cl task ctx k u s hs) as (blk & q' & counts' & kept & rb & L); try done.
  { simpl in Hml. rewrite !length_app in Hml. rewrite length_app in Hcl. simpl in *. lia. }
  assert (task_id task ∉ uid <$> hs ++ waiting (queue s k)) as Hfresh.
  { simpl in Hnd. by apply NoDup_cons in Hnd as [? _]. }
  destruct L as [Hrun Hsplit Hwait Hheld Hkind' Hkeyed Hordered Hcounts Hrb].
  set (s' := MkStore (capability s) (<[k := q']> (queues s)) counts').
  assert (NoDup (uid <$> rb ++ waiting (queue s k)) /\ task_id task ∉ uid <$> rb ++ waiting (queue s k)) as [Hnd' Hf'].
  { rewrite Hsplit in Hnd, Hfresh. rewrite <- app_assoc in Hnd, Hfresh. simpl in Hnd.
    apply NoDup_cons in Hnd as [_ Hnd]. rewrite (fmap_app uid kept) in Hnd, Hfresh.
    apply NoDup_app in Hnd as (_ & _ & Hnd). set_solver. }
  destruct (relocked_counts s k q' counts' blk (u, task) rb Hwait Hnd' Hf') as [Hn Hothers]. fold s' in Hn, Hothers.
  exists s'. split_and!.
  - rewrite lock_context_queue. simpl in Hrun. rewrite Hrun. cbn [mbind option_bind].
    change (uid (u, task)) with (task_id task) in Hn. rewrite Hn.
    assert (nblocked s (task_id task) <= Z.of_nat (length ctx)) as Hle.
    { rewrite <- (length_fmap fst). apply nblocked_le. intros k' Hw. eapply waiting_key; [done|done| |done]. set_solver. }
    rewrite length_app in Hlen. simpl in Hlen. destruct blk; cbn [mbind option_bind]; [|by rewrite Z.add_0_r].
    by rewrite increment_Some by lia.
  - done.
  - intros k'. pose proof (members_snoc cl task ctx k u k' Hk) as Hms. unfold s'. rewrite queue_insert.
    case_decide as Hd.
    + subst k'. eexists. split; [|split; [exact Hheld|split; [done|split; [by rewrite Hkind'|done]]]].
      rewrite Hms, Hm, Hwait, Hsplit. destruct blk; simpl; solve_Permutation.
    + destruct (Hs k') as (hs' & Hm' & Hrest). exists hs'. by rewrite Hms, Hm'.
  - cbn [counts s']. rewrite Hcounts, decide_False by set_solver. lia.
  - intros id Hid. rewrite (Hothers id Hid). cbn [counts s']. rewrite Hcounts, Hcnt by done.
    case_decide as Hin; [|lia]. apply list_elem_of_fmap in Hin as (r & -> & Hr). specialize (Hrb r Hr).
    rewrite Hcnt in Hrb by done. lia.
Qed.

(** ** Scheduling a task *)

Lemma order_ok_step ord NR cl id s s' :
  order_ok ord NR cl id s -> capability s' = capability s ->
  (forall id', id' <> id -> 0 < nblocked s' id' <-> 0 < nblocked s id') -> order_ok ord NR cl id s'.
Proof.
  unfold order_ok. intros Ho -> Hn. destruct (capability s); [done|]. destruct Ho as [-> Ho]. split; [done|].
  intros id' Hid. by rewrite Hn, Ho.
Qed.

Lemma lock_contexts_spec ord NR cl task todo : forall ctx s,
  claims_ok (cl ++ [(task, ctx ++ todo)]) -> store_ok ord NR (cl ++ [(task, ctx)]) s ->
  (forall id, id <> task_id task -> count (counts s) id = nblocked s id) ->
  order_ok ord NR cl (task_id task) s ->
  exists s', foldM (lock_context task) (s, nblocked s (task_id task)) todo = Some (s', nblocked s' (task_id task)) /\
    capability s' = capability s /\ store_ok ord NR (cl ++ [(task, ctx ++ todo)]) s' /\
    count (counts s') (task_id task) = count (counts s) (task_id task) /\
    forall id, id <> task_id task ->
      count (counts s') id = nblocked s' id /\ (0 < nblocked s' id <-> 0 < nblocked s id).
Proof.
  induction todo as [|[k u] todo IH]; intros ctx s Hc Hs Hcnt Hord.
  - exists s. rewrite app_nil_r. split_and!; try done. intros id Hid. by rewrite Hcnt.
  - destruct (lock_context_step ord NR cl task ctx k u s) as (s1 & Hrun & Hcap & Hs1 & Hn1 & Ho1); [|done..|].
    { eapply claims_ok_shrink; [exact Hc|]. apply sublist_app; [done|]. apply sublist_skip, sublist_nil_l. }
    destruct (IH (ctx ++ [(k, u)]) s1) as (s2 & Hrun2 & Hcap2 & Hs2 & Hn2 & Ho2).
    { by rewrite <- app_assoc. } { done. } { intros id Hid. by apply Ho1. }
    { eapply order_ok_step; [done|done|]. intros id Hid. by apply Ho1. }
    exists s2. cbn [foldM]. rewrite Hrun. cbn [mbind option_bind]. rewrite <- app_assoc in Hs2.
    split_and!; [done|congruence|done|congruence|].
    intros id Hid. destruct (Ho1 id Hid) as [_ Hp1], (Ho2 id Hid) as [Hc2 Hp2]. by rewrite Hc2, Hp2, Hp1.
Qed.

(** The claims that can still be taken: all of them are served in order under
    FIFO, those of blocked tasks under priorities. *)
Definition takeable (s : Store) (id : Z) : Prop := capability s = FifoQueueing \/ 0 < nblocked s id.

(** The tasks claim their accounts, the queues serve the claims in order and the
    counters count the queues a task waits in. *)
Record store_inv (ord : Z -> Z) (claims : list Claim) (s : Store) : Prop := {
  inv_claims : claims_ok claims;
  inv_queues : store_ok ord (takeable s) claims s;
  inv_counts : forall id, count (counts s) id = nblocked s id;
  inv_order : capability s = PriorityQueueing -> ord = (fun x => x)
}.

Lemma nblocked_stranger ord NR claims s id :
  claims_ok claims -> store_ok ord NR claims s -> id ∉ cid <$> claims -> nblocked s id = 0.
Proof.
  intros Hc Hs Hid. pose proof (nblocked_nonneg s id). destruct (decide (0 < nblocked s id)) as [Hp|]; [|lia].
  apply nblocked_pos in Hp as (k & ([u t] & -> & Hw)%list_elem_of_fmap).
  apply (waiting_claim _ _ _ _ _ _ Hs), (members_spec _ _ _ _ Hc) in Hw as (ctx & Hin & _).
  destruct Hid. by apply (list_elem_of_fmap_2 cid _ (t, ctx)).
Qed.

Lemma members_nil claims task k : members (claims ++ [(task, [])]) k = members claims k.
Proof. unfold members. rewrite omap_app. simpl. by rewrite app_nil_r. Qed.

Lemma store_inv_intro ord NR claims s cs :
  claims_ok claims -> store_ok ord NR claims s -> (forall id, takeable s id -> NR id) ->
  (forall id, count cs id = nblocked s id) -> (capability s = PriorityQueueing -> ord = (fun x => x)) ->
  store_inv ord claims (MkStore (capability s) (queues s) cs).
Proof.
  intros Hc Hs HNR Hcs Hp. split; [done| |done|done].
  intros k. destruct (Hs k) as (hs & Hm & Hh & Hk & Hkind & Hord). exists hs. split_and!; [done..|].
  eapply ordered_mono; [done|]. intros h _ Ht. by apply HNR.
Qed.

(** The new task claims its accounts; the other tasks are ready or blocked as
    before. *)
Lemma try_lock_usage_queues_spec ord claims task s :
  store_inv ord claims s -> claims_ok (claims ++ [(task, lock_contexts task)]) ->
  (capability s = FifoQueueing -> forall c, c ∈ claims -> ord (cid c) < ord (task_id task)) ->
  exists s', try_lock_usage_queues task s =
      Some (if nblocked s' (task_id task) =? 0 then Some task else None, s') /\
    capability s' = capability s /\ store_inv ord (claims ++ [(task, lock_contexts task)]) s' /\
    forall id, id <> task_id task -> 0 < nblocked s' id <-> 0 < nblocked s id.
Proof.
  intros [Hc Hs Hcnt Hprio] Hc' Hfifo.
  assert (task_id task ∉ cid <$> claims) as Hfresh.
  { pose proof (claims_ids _ Hc') as Hnd. rewrite fmap_app in Hnd. apply NoDup_app in Hnd as (_ & Hd & _).
    intros Hin. apply (Hd _ Hin). simpl. set_solver. }
  pose proof (nblocked_stranger _ _ _ _ _ Hc Hs Hfresh) as Hzero.
  set (NR := fun id => takeable s id \/ id = task_id task).
  destruct (lock_contexts_spec ord NR claims task (lock_contexts task) [] s) as (s1 & Hrun & Hcap & Hs1 & Hn & Ho).
  { done. }
  { intros k. destruct (Hs k) as (hs & Hm & Hh & Hk & Hkind & Hord). exists hs. rewrite members_nil.
    split_and!; [done..|]. eapply ordered_mono; [done|]. intros h Hin [?|Heq]; [done|].
    destruct Hfresh. rewrite <- Heq. eapply elem_of_submseteq; [|apply (members_ids claims k)].
    apply list_elem_of_fmap_2. rewrite Hm. set_solver. }
  { intros id _. apply Hcnt. }
  { unfold order_ok. destruct (capability s) eqn:E; [by apply Hfifo|]. split; [by apply Hprio|].
    intros id Hid. unfold NR, takeable. rewrite E. naive_solver. }
  assert (forall id, takeable s1 id -> NR id) as HNR.
  { intros id. unfold NR, takeable. rewrite Hcap. destruct (decide (id = task_id task)) as [->|Hne]; [by right|].
    destruct (Ho _ Hne) as [_ <-]. by left. }
  rewrite <- Hcap in Hprio. rewrite Hcnt, Hzero in Hn. rewrite Hzero in Hrun.
  unfold try_lock_usage_queues. rewrite Hrun. cbn [mbind option_bind].
  destruct (Z.eqb_spec (nblocked s1 (task_id task)) 0) as [Hz|Hz].
  - exists s1. rewrite Hz. split_and!; [done|done| |intros id Hid; by apply Ho].
    destruct s1 as [c qs cs]. apply (store_inv_intro ord NR _ (MkStore c qs cs)); [done..| |done].
    intros id. destruct (decide (id = task_id task)) as [->|Hne]; [by rewrite Hz|by apply Ho].
  - exists (MkStore (capability s1) (queues s1) (<[task_id task := nblocked s1 (task_id task)]> (counts s1))).
    change (nblocked (MkStore (capability s1) (queues s1) _)) with (nblocked s1).
    rewrite (proj2 (Z.eqb_neq _ _) Hz). split_and!; [done|done| |intros id Hid; by apply Ho].
    apply (store_inv_intro ord NR); [done..| |done].
    intros id. rewrite count_insert. case_decide as Hne; [by subst|by apply Ho].
Qed.

(** ** Descheduling a task *)

Definition is_ready (nb : Z -> Z) (task : Task) : Prop := nb (task_id task) = 0.
#[global] Instance is_ready_dec nb task : Decision (is_ready nb task) := decide (nb (task_id task) = 0).

(** The tasks that stop waiting in their last queue become ready. *)
Lemma newly_ready (nb nb' : Z -> Z) ts (ws : list UsageFromTask) :
  NoDup (task_id <$> ts) -> NoDup (uid <$> ws) -> (forall y, y ∈ ws -> y.2 ∈ ts /\ 1 <= nb (uid y)) ->
  (forall id, 0 <= nb' id /\ nb' id = nb id - if decide (id ∈ uid <$> ws) then 1 else 0) ->
  filter (is_ready nb') ts ≡ₚ filter (is_ready nb) ts ++ (snd <$> filter (fun y => nb' (uid y) = 0) ws).
Proof.
  intros Hts Hws Hin Hnb. apply NoDup_Permutation.
  - by apply NoDup_filter, (NoDup_fmap_1 task_id).
  - apply NoDup_app. split_and!.
    + by apply NoDup_filter, (NoDup_fmap_1 task_id).
    + intros t [Hr _]%list_elem_of_filter (y & -> & [_ Hy]%list_elem_of_filter)%list_elem_of_fmap.
      apply Hin in Hy as [_ Hy]. unfold is_ready in Hr. unfold uid in Hy. lia.
    + apply (NoDup_fmap_1 task_id). rewrite <- list_fmap_compose. eapply sublist_NoDup; [exact Hws|].
      apply fmap_sublist, sublist_filter.
  - intros t. rewrite elem_of_app, !list_elem_of_filter, list_elem_of_fmap. unfold is_ready.
    destruct (Hnb (task_id t)) as [Hge Heq]. split.
    + intros [Hr Ht]. case_decide as Hw; [|left; split; [lia|done]]. right.
      apply list_elem_of_fmap in Hw as ([u t'] & Hid & Hw). unfold uid in Hid. simpl in Hid.
      destruct (Hin _ Hw) as [Ht' _]. simpl in Ht'.
      assert (t = t') as <- by (by eapply (fmap_key_inj task_id)).
      exists (u, t). by rewrite list_elem_of_filter.
    + intros [[Hr Ht]|(y & -> & [Hr Hy]%list_elem_of_filter)].
      * split; [|done]. destruct (Hnb (task_id t)). repeat case_decide; lia.
      * split; [done|]. by apply Hin.
Qed.

(** The counters after a queue has granted the claims [ws]. *)
Lemma granted_counts s k q' cs ws id :
  waiting (queue s k) = ws ++ waiting q' -> NoDup (uid <$> waiting (queue s k)) ->
  nblocked (MkStore (capability s) (<[k := q']> (queues s)) cs) id =
  nblocked s id - if decide (id ∈ uid <$> ws) then 1 else 0.
Proof.
  intros Hw Hnd. rewrite nblocked_insert. unfold waits. rewrite Hw in Hnd |- *. rewrite fmap_app in *.
  apply NoDup_app in Hnd as (_ & Hd & _). specialize (Hd id). pose proof (elem_of_app (uid <$> ws) (uid <$> waiting q') id).
  repeat case_decide; (lia || tauto).
Qed.

(** The claims a queue grants are those of blocked tasks other than the one that
    gives up its own. *)
Lemma granted_claims ord NR cl task ctx s k y :
  claims_ok ((task, ctx) :: cl) -> store_ok ord NR ((task, ctx) :: cl) s -> nblocked s (task_id task) = 0 ->
  y ∈ waiting (queue s k) -> y.2 ∈ cl.*1 /\ 1 <= nblocked s (uid y).
Proof.
  intros Hc Hs Hready Hy. destruct y as [v t].
  assert (0 < nblocked s (uid (v, t))) as Hpos.
  { apply nblocked_pos. exists k. by apply list_elem_of_fmap_2. }
  split; [|lia]. apply (waiting_claim _ _ _ _ _ _ Hs), (members_spec _ _ _ _ Hc) in Hy as (ctx' & Hin & _).
  apply elem_of_cons in Hin as [[= -> ->]|Hin]; [unfold uid in Hpos; simpl in Hpos; lia|].
  by apply (list_elem_of_fmap_2 fst _ (t, ctx')).
Qed.

Lemma unlock_context_step ord NR cl task ctx k u s uq :
  claims_ok ((task, (k, u) :: ctx) :: cl) -> store_ok ord NR ((task, (k, u) :: ctx) :: cl) s ->
  (forall id, count (counts s) id = nblocked s id) -> nblocked s (task_id task) = 0 ->
  exists s' new, unlock_context task (s, uq) (k, u) = Some (s', uq ++ new) /\
    capability s' = capability s /\ store_ok ord NR ((task, ctx) :: cl) s' /\
    (forall id, count (counts s') id = nblocked s' id) /\ (forall id, nblocked s' id <= nblocked s id) /\
    filter (is_ready (nblocked s')) cl.*1 ≡ₚ filter (is_ready (nblocked s)) cl.*1 ++ new.
Proof.
  intros Hc Hs Hcnt Hready. destruct (claims_keys _ Hc (task, (k, u) :: ctx) ltac:(left)) as [Hkeys _].
  cbn [snd] in Hkeys. rewrite fmap_cons, NoDup_cons in Hkeys. destruct Hkeys as [Hk _]. cbn [fst] in Hk.
  destruct (Hs k) as (hs & Hm & Hh & Hkq & Hkind & Ho).
  pose proof (members_NoDup _ k Hc) as Hnd. pose proof (members_length ((task, (k, u) :: ctx) :: cl) k) as Hml.
  pose proof (claims_length _ Hc) as Hcl. rewrite Hm in Hnd, Hml.
  assert (forall k', task_id task ∉ uid <$> waiting (queue s k')) as Hnw.
  { intros k' Hin. assert (0 < nblocked s (task_id task)) by (apply nblocked_pos; eauto). lia. }
  assert ((u, task) ∈ hs) as (hs0 & Hhs)%elem_of_Permutation.
  { assert ((u, task) ∈ members ((task, (k, u) :: ctx) :: cl) k) as Hin
      by (rewrite members_drop, decide_True by done; left).
    rewrite Hm, elem_of_app in Hin. destruct Hin as [|Hin]; [done|]. destruct (Hnw k).
    by apply (list_elem_of_fmap_2 uid _ (u, task)). }
  destruct (unlock_queue_spec ord NR (queue s k) hs hs0 task u (counts s) uq)
    as (ws & q' & counts' & Hrun & Hw & Hh' & Hkind' & Hkq' & Ho' & Hcounts); [done..| | | |].
  { by rewrite Permutation_app_comm. } { rewrite Permutation_app_comm. lia. }
  { intros y Hy. rewrite Hcnt. by eapply granted_claims. }
  assert (NoDup (uid <$> waiting (queue s k))) as Hndw by (rewrite fmap_app in Hnd; by apply NoDup_app in Hnd as (_ & _ & ?)).
  set (s' := MkStore (capability s) (<[k := q']> (queues s)) counts').
  pose proof (fun id => granted_counts s k q' counts' ws id Hw Hndw) as Hnb. fold s' in Hnb.
  assert (forall id, count (counts s') id = nblocked s' id) as Hcnt' by (intros id; by rewrite Hnb, <- Hcnt, <- Hcounts).
  exists s', (snd <$> filter (fun y => nblocked s' (uid y) = 0) ws). split_and!.
  - unfold unlock_context. destruct (unlock _ _ _) as [[nl q]|]; [|done]. cbn [mbind option_bind] in Hrun |- *.
    rewrite Hrun. cbn [mbind option_bind]. do 3 f_equal. f_equal. apply list_filter_iff. intros y.
    by rewrite <- Hcnt'.
  - done.
  - intros k'. pose proof (members_drop cl task ctx k u k' Hk) as Hmd. unfold s'. rewrite queue_insert.
    case_decide as Hd.
    + subst k'. exists (ws ++ hs0). split_and!; [|done|done|by rewrite Hkind'|done].
      apply (Permutation_cons_inv (a := (u, task))). cbn [app] in Hmd. rewrite <- Hmd, Hm, Hhs, Hw. simpl. solve_Permutation.
    + destruct (Hs k') as (hs' & Hm' & Hrest). exists hs'. by rewrite <- Hm', Hmd.
  - done.
  - intros id. rewrite Hnb. case_decide; lia.
  - apply newly_ready.
    + rewrite <- list_fmap_compose. pose proof (claims_ids _ Hc) as Hids. by apply NoDup_cons in Hids as [_ ?].
    + rewrite Hw, fmap_app in Hndw. by apply NoDup_app in Hndw as [? _].
    + intros y Hy. eapply granted_claims; [done..|]. rewrite Hw. set_solver.
    + intros id. split; [apply nblocked_nonneg|apply Hnb].
Qed.

Lemma unlock_contexts_spec ord NR cl task ctx : forall s uq,
  claims_ok ((task, ctx) :: cl) -> store_ok ord NR ((task, ctx) :: cl) s ->
  (forall id, count (counts s) id = nblocked s id) -> nblocked s (task_id task) = 0 ->
  exists s' new, foldM (unlock_context task) (s, uq) ctx = Some (s', uq ++ new) /\
    capability s' = capability s /\ store_ok ord NR ((task, []) :: cl) s' /\
    (forall id, count (counts s') id = nblocked s' id) /\ (forall id, nblocked s' id <= nblocked s id) /\
    filter (is_ready (nblocked s')) cl.*1 ≡ₚ filter (is_ready (nblocked s)) cl.*1 ++ new.
Proof.
  induction ctx as [|[k u] ctx IH]; intros s uq Hc Hs Hcnt Hready.
  - exists s, []. rewrite !app_nil_r. split_and!; done.
  - destruct (unlock_context_step ord NR cl task ctx k u s uq) as (s1 & new1 & Hrun & Hcap & Hs1 & Hcnt1 & Hle & Hr1);
      [done..|].
    destruct (IH s1 (uq ++ new1)) as (s2 & new2 & Hrun2 & Hcap2 & Hs2 & Hcnt2 & Hle2 & Hr2).
    { apply (claims_ok_shrink [] cl task _ ctx Hc). by apply sublist_cons. } { done. } { done. }
    { pose proof (Hle (task_id task)). pose proof (nblocked_nonneg s1 (task_id task)). lia. }
    exists s2, (new1 ++ new2). cbn [foldM]. rewrite Hrun. cbn [mbind option_bind]. rewrite Hrun2, <- app_assoc.
    split_and!; [done|congruence|done|done| |].
    + intros id. specialize (Hle id). specialize (Hle2 id). lia.
    + by rewrite Hr2, Hr1, <- app_assoc.
Qed.

(** The task gives up its claims; the tasks that become ready are appended to
    the queue of unblocked tasks. *)
Lemma unlock_spec ord claims task s uq :
  store_inv ord ((task, lock_contexts task) :: claims) s -> nblocked s (task_id task) = 0 ->
  exists s' new, unlock_usage_queues task s uq = Some (s', uq ++ new) /\
    capability s' = capability s /\ store_inv ord claims s' /\
    filter (is_ready (nblocked s')) claims.*1 ≡ₚ filter (is_ready (nblocked s)) claims.*1 ++ new.
Proof.
  intros [Hc Hs Hcnt Hprio] Hready.
  destruct (unlock_contexts_spec ord (takeable s) claims task (lock_contexts task) s uq)
    as (s1 & new & Hrun & Hcap & Hs1 & Hcnt1 & Hle & Hr); [done..|].
  exists s1, new. split_and!; [done|done| |done]. rewrite <- Hcap in Hprio.
  destruct s1 as [c qs cs]. apply (store_inv_intro ord (takeable s) claims (MkStore c qs cs)); [|done| |done|done].
  - destruct Hc as [Hid Hk Hl]. split.
    + by apply NoDup_cons in Hid as [_ ?].
    + intros c' Hc'. apply Hk. by right.
    + simpl in Hl. lia.
  - intros id. unfold takeable. rewrite Hcap. specialize (Hle id). intros [?|?]; [by left|right; lia].
Qed.

End Unified.
End Unified.
