(* ===== verification/UnifiedTraces.v ===== *)
(** * Executions of the unified scheduler

    The calls a user of [SchedulingStateMachine] makes, under the contract its
    documentation states, and what holds in every state they reach: tasks that
    may run together never conflict, conflicting tasks run in the order of
    arrival (or by priority), no operation panics, some task can always run, and
    a machine without tasks leaves every queue as it was created. *)

From S2P Require Import Prelude Accounts UsageQueue UnifiedScheduler.
Import Queues Unified.

Module Traces.
Section Traces.
Context {Key : Type} `{Countable Key} {Tx : Type} `{SVMMessage Key Tx}.
#[local] Abbreviation Task := (@Task Key Tx).
#[local] Abbreviation SchedulingStateMachine := (@SchedulingStateMachine Key Tx).
#[local] Abbreviation Store := (Store (Key := Key) (Tx := Tx)).
#[local] Abbreviation Claim := (Task * list (Key * RequestedUsage))%type.

(** The machine and its queues, with the tasks its user has handed over, in the
    order of arrival, and those the user is running. *)
Record world : Type := World {
  machine : SchedulingStateMachine;
  store : Store;
  active : list Task;
  running : list Task
}.

Inductive op : Type :=
| OSchedule (transaction : Tx) (id consumed_block_size : Z) (force_buffering : bool)
| ONext
| ODeschedule (i : nat)
| OClear.

Definition apply (w : world) (o : op) : option world :=
  match o with
  | OSchedule transaction id consumed_block_size force_buffering =>
      let task := do_create_task transaction id consumed_block_size in
      '(r, sm, s) ← schedule_or_buffer_task task force_buffering (machine w) (store w);
      Some (World sm s (active w ++ [task]) (running w ++ option_list r))
  | ONext =>
      '(r, sm) ← schedule_next_unblocked_task (machine w);
      Some (World sm (store w) (active w) (running w ++ option_list r))
  | ODeschedule i =>
      task ← running w !! i;
      '(sm, s) ← deschedule_task task (machine w) (store w);
      Some (World sm s (filter (fun t => task_id t <> task_id task) (active w)) (delete i (running w)))
  | OClear =>
      '(sm, s, _) ← clear_and_reinitialize (Datatypes.S (length (active w))) (machine w) (store w);
      Some (World sm s [] [])
  end.

(** The contract: task ids are unique, the transactions are validated with
    [validate_account_locks] before the task is created, the counters are wide
    enough, only running tasks are descheduled, and the machine is cleared when
    no task runs. *)
Definition valid (w : world) (o : op) : Prop :=
  match o with
  | OSchedule transaction id _ _ =>
      (id ∉ task_id <$> active w) /\
      (exists limit, Z.of_nat limit <= U32_MAX /\ validate_account_locks (account_keys transaction) limit = Ok tt) /\
      2 * (total_task_count (machine w) + 1) <= U32_MAX
  | ONext => True
  | ODeschedule i => (i < length (running w))%nat
  | OClear => running w = []
  end.

Definition step (w w' : world) : Prop := exists o, valid w o /\ apply w o = Some w'.

Definition init (c : Capability) (w : world) : Prop :=
  exists max sm, initialize max = Some sm /\ 0 < max_running_task_count sm /\ w = World sm (MkStore c ∅ ∅) [] [].

(** ** The invariant *)

Definition created (task : Task) : Prop :=
  lock_contexts task =
  (fun a => (a.1, if (a.2 : bool) then Writable else Readonly)) <$> accounts_with_is_writable (transaction task).

Definition claim_of (task : Task) : Claim := (task, lock_contexts task).

Record inv (w : world) : Prop := {
  i_store : exists ord, store_inv ord (claim_of <$> active w) (store w) /\
    (capability (store w) = FifoQueueing ->
     StronglySorted (fun t t' => ord (task_id t) < ord (task_id t')) (active w));
  i_created : Forall created (active w);
  i_ready : running w ++ unblocked_task_queue (machine w) ≡ₚ filter (is_ready (nblocked (store w))) (active w);
  i_active : active_task_count (machine w) = Z.of_nat (length (active w));
  i_running : running_task_count (machine w) = Z.of_nat (length (running w));
  i_total : total_task_count (machine w) = handled_task_count (machine w) + Z.of_nat (length (active w));
  i_handled : 0 <= handled_task_count (machine w);
  i_unblocked : 0 <= unblocked_task_count (machine w) <=
    2 * total_task_count (machine w) - (Z.of_nat (length (active w)) - Z.of_nat (length (running w)));
  i_small : 2 * total_task_count (machine w) <= U32_MAX;
  i_max : 0 < max_running_task_count (machine w)
}.

Lemma cid_claims (ts : list Task) : cid <$> (claim_of <$> ts) = task_id <$> ts.
Proof. by rewrite <- list_fmap_compose. Qed.

Lemma fst_claims (ts : list Task) : (claim_of <$> ts).*1 = ts.
Proof. rewrite <- list_fmap_compose. apply list_fmap_id. Qed.

(** The order may be chosen anew for tasks that are not in the machine. *)
Lemma store_inv_order ord ord' claims (s : Store) :
  store_inv ord claims s -> (forall c, c ∈ claims -> ord' (cid c) = ord (cid c)) ->
  (capability s = PriorityQueueing -> ord' = (fun x => x)) -> store_inv ord' claims s.
Proof.
  intros [Hc Hs Hcnt _] Heq Hp. split; [done| |done|done].
  intros k. destruct (Hs k) as (hs & Hm & Hh & Hk & Hkind & [Hsort Hn Hhd Hhold]). exists hs. split_and!; [done..|].
  assert (forall x, x ∈ hs ++ waiting (queue s k) -> ord' (uid x) = ord (uid x)) as Hx.
  { intros [u t] Hx. rewrite <- Hm in Hx. apply (members_spec _ _ _ _ Hc) in Hx as (ctx & Hin & _).
    apply (Heq (t, ctx) Hin). }
  split; [|done|done|].
  - eapply StronglySorted_impl; [|exact Hsort]. intros x y Hx1 Hy1 Hlt. rewrite !Hx by set_solver. done.
  - intros h b Hin1 Hin2 Ht. rewrite !Hx by set_solver. by apply Hhold.
Qed.

Lemma order_bound (ord : Z -> Z) (l : list Task) : exists m, forall t, t ∈ l -> ord (task_id t) < m.
Proof.
  induction l as [|t l [m Hm]]; [exists 0; set_solver|]. exists (Z.max m (ord (task_id t) + 1)).
  intros t' [->|Hin]%elem_of_cons; [lia|]. specialize (Hm t' Hin). lia.
Qed.

(** A new task comes last. *)
Lemma store_inv_last ord ts task (s : Store) :
  store_inv ord (claim_of <$> ts) s -> task_id task ∉ task_id <$> ts ->
  (capability s = FifoQueueing -> StronglySorted (fun t t' => ord (task_id t) < ord (task_id t')) ts) ->
  exists ord', store_inv ord' (claim_of <$> ts) s /\
    (capability s = FifoQueueing ->
     StronglySorted (fun t t' => ord' (task_id t) < ord' (task_id t')) (ts ++ [task])).
Proof.
  intros Hi Hfresh Hsort. destruct (capability s) eqn:E; [|exists ord; split; [done|]; done].
  destruct (order_bound ord ts) as (m & Hm).
  set (ord' := fun id => if decide (id = task_id task) then m else ord id).
  assert (forall t, t ∈ ts -> ord' (task_id t) = ord (task_id t)) as Hold.
  { intros t Ht. subst ord'. cbn beta. rewrite decide_False; [done|]. intros Heq. apply Hfresh. rewrite <- Heq.
    by apply list_elem_of_fmap_2. }
  exists ord'. split.
  - eapply store_inv_order; [done| |by rewrite E]. intros c (t & -> & Ht)%list_elem_of_fmap. by apply Hold.
  - intros _. apply StronglySorted_snoc.
    + eapply StronglySorted_impl; [|by apply Hsort]. intros x y Hx Hy Hlt. by rewrite !Hold.
    + intros t Ht. rewrite Hold by done. subst ord'. cbn beta. rewrite decide_True by done. by apply Hm.
Qed.

Lemma filter_ready_ext (nb nb' : Z -> Z) (l : list Task) :
  (forall id, 0 <= nb id /\ 0 <= nb' id) -> (forall t, t ∈ l -> 0 < nb' (task_id t) <-> 0 < nb (task_id t)) ->
  filter (is_ready nb') l = filter (is_ready nb) l.
Proof.
  intros Hge. induction l as [|t l IH]; intros Hiff; [done|].
  assert (is_ready nb' t <-> is_ready nb t) as Ht.
  { unfold is_ready. specialize (Hiff t ltac:(left)). destruct (Hge (task_id t)). lia. }
  rewrite !filter_cons, IH by set_solver. repeat case_decide; tauto.
Qed.

Lemma claims_ok_snoc ts task :
  claims_ok (claim_of <$> ts) -> task_id task ∉ task_id <$> ts -> NoDup (lock_contexts task).*1 ->
  Z.of_nat (length (lock_contexts task)) <= U32_MAX -> Z.of_nat (length ts) < U32_MAX ->
  claims_ok ((claim_of <$> ts) ++ [(task, lock_contexts task)]).
Proof.
  intros [Hid Hk Hl] Hfresh Hnd Hlen Hn. split.
  - rewrite fmap_app, cid_claims in *. apply NoDup_app. split_and!; [done| |apply NoDup_singleton].
    intros x Hx Hx'. simpl in Hx'. apply list_elem_of_singleton in Hx' as ->. done.
  - intros c [Hc|Hc]%elem_of_app; [by apply Hk|]. apply list_elem_of_singleton in Hc as ->. done.
  - rewrite length_app, length_fmap. simpl. lia.
Qed.

(** ** The operations keep it *)

Definition admissible (w : world) (task : Task) : Prop :=
  (task_id task ∉ task_id <$> active w) /\ created task /\ NoDup (lock_contexts task).*1 /\
  Z.of_nat (length (lock_contexts task)) <= U32_MAX /\ 2 * (total_task_count (machine w) + 1) <= U32_MAX.

Lemma create_task_created (tx : Tx) id size : created (do_create_task tx id size).
Proof.
  unfold created, do_create_task, accounts_with_is_writable. cbn. apply list_eq. intros i.
  rewrite list_lookup_fmap, !list_lookup_imap. by destruct (account_keys tx !! i).
Qed.

Lemma valid_admissible w tx id size force :
  valid w (OSchedule tx id size force) -> admissible w (do_create_task tx id size).
Proof.
  intros (Hfresh & (limit & Hl & [Hlen Hnd]%validate_account_locks_ok) & Hb).
  pose proof (create_task_created tx id size) as Hc. split; [done|split; [done|]].
  rewrite Hc. rewrite length_fmap, length_accounts_with_is_writable. cbn [transaction do_create_task].
  split_and!; [|lia|done]. rewrite <- list_fmap_compose. by apply (accesses_NoDup_keys tx).
Qed.

Lemma inv_lengths w : inv w -> (length (running w) + length (unblocked_task_queue (machine w)) <= length (active w))%nat.
Proof.
  intros Hi. pose proof (i_ready w Hi) as Hp. apply Permutation_length in Hp. rewrite length_app in Hp.
  rewrite Hp. apply length_filter.
Qed.

Lemma try_lock_inv w task :
  inv w -> admissible w task ->
  exists s', try_lock_usage_queues task (store w) =
      Some (if nblocked s' (task_id task) =? 0 then Some task else None, s') /\
    capability s' = capability (store w) /\
    (exists ord, store_inv ord (claim_of <$> active w ++ [task]) s' /\
     (capability s' = FifoQueueing ->
      StronglySorted (fun t t' => ord (task_id t) < ord (task_id t')) (active w ++ [task]))) /\
    filter (is_ready (nblocked s')) (active w ++ [task])
    = filter (is_ready (nblocked (store w))) (active w) ++ if nblocked s' (task_id task) =? 0 then [task] else [].
Proof.
  intros [(ord0 & Hs0 & Hsort0) _ Hready Ha Hr Ht Hh Hu Hsmall Hmax] (Hfresh & _ & Hnd & Hlen & Hbound).
  destruct (store_inv_last ord0 (active w) task (store w)) as (ord & Hs & Hsort); [done..|].
  assert (forall t, t ∈ active w -> capability (store w) = FifoQueueing -> ord (task_id t) < ord (task_id task)) as Hlast.
  { intros t Hin Hc. specialize (Hsort Hc). apply list_elem_of_split in Hin as (l1 & l2 & Heq). rewrite Heq in Hsort.
    rewrite <- app_assoc in Hsort. eapply (StronglySorted_after _ _ _ _ task) in Hsort; [done|set_solver]. }
  destruct (try_lock_usage_queues_spec ord (claim_of <$> active w) task (store w)) as (s' & Hrun & Hcap & Hs' & Hiff); [done| | |].
  { apply claims_ok_snoc; [apply Hs|done..|]. lia. }
  { intros Hc c (t & -> & Hin)%list_elem_of_fmap. by apply Hlast. }
  exists s'. split_and!; [done|done| |].
  - exists ord. rewrite fmap_app. split; [done|]. by rewrite Hcap.
  - rewrite filter_app. f_equal.
    + apply filter_ready_ext; [intros id; split; apply nblocked_nonneg|]. intros t Hin. apply Hiff. intros Heq.
      apply Hfresh. rewrite <- Heq. by apply list_elem_of_fmap_2.
    + rewrite filter_cons, filter_nil. unfold is_ready. destruct (Z.eqb_spec (nblocked s' (task_id task)) 0);
        [by rewrite decide_True|by rewrite decide_False].
Qed.

Lemma schedule_inv w task force :
  inv w -> admissible w task ->
  exists r sm s, schedule_or_buffer_task task force (machine w) (store w) = Some (r, sm, s) /\
    capability s = capability (store w) /\ max_running_task_count sm = max_running_task_count (machine w) /\
    (force = true -> r = None) /\ inv (World sm s (active w ++ [task]) (running w ++ option_list r)).
Proof.
  intros Hi Hv. destruct (try_lock_inv w task Hi Hv) as (s' & Hrun & Hcap & Hs & Hfilter).
  pose proof (inv_lengths w Hi) as Hlens. destruct Hv as (_ & Hcr & _ & _ & Hbound).
  destruct Hi as [_ Hcrs Hready Ha Hr Ht Hh Hu Hsmall Hmax].
  destruct w as [[uq act run max handled unb total] s acts runs]. cbn in *.
  rewrite (increment_Some total), (increment_Some act) by lia. cbn [mbind option_bind]. rewrite Hrun.
  cbn [mbind option_bind]. rewrite (increment_Some unb), (increment_Some run) by lia.
  destruct (nblocked s' (task_id task) =? 0); [destruct (negb (run <? max) || force) eqn:E|];
    (eexists _, _, _; split; [reflexivity|split; [done|split; [done|split; [|split; cbn]]]]);
    rewrite ?Hfilter, ?app_nil_r, ?length_app; cbn; try lia; try done.
  all: try (by apply Forall_app_2, Forall_singleton).
  - by rewrite app_assoc, Hready.
  - intros ->. by rewrite orb_true_r in E.
  - rewrite <- app_assoc. rewrite <- Hready. solve_Permutation.
Qed.

Lemma next_inv w :
  inv w -> exists r sm, schedule_next_unblocked_task (machine w) = Some (r, sm) /\
    max_running_task_count sm = max_running_task_count (machine w) /\
    inv (World sm (store w) (active w) (running w ++ option_list r)).
Proof.
  intros Hi. pose proof (inv_lengths w Hi) as Hlens. pose proof Hi as [Hs Hcrs Hready Ha Hr Ht Hh Hu Hsmall Hmax].
  destruct w as [[uq act run max handled unb total] s acts runs]. unfold schedule_next_unblocked_task.
  destruct (negb _); [eexists _, _; split; [done|split; [done|]]; simpl; by rewrite app_nil_r|]. cbn [machine] in *.
  destruct uq as [|task uq]; [eexists _, _; split; [done|split; [done|]]; simpl; by rewrite app_nil_r|].
  cbn in *. rewrite (increment_Some run), (increment_Some unb) by lia.
  eexists _, _. split; [reflexivity|split; [done|]]. split; cbn; rewrite ?length_app; cbn; try lia; [done|done|].
  rewrite <- Hready. solve_Permutation.
Qed.

Lemma filter_others (l : list Task) (task : Task) :
  task_id task ∉ task_id <$> l -> filter (fun t => task_id t <> task_id task) l = l.
Proof.
  induction l as [|t l IH]; intros Hnot; [done|]. rewrite fmap_cons, not_elem_of_cons in Hnot.
  destruct Hnot as [Hne Hnot]. rewrite filter_cons_True by congruence. by rewrite IH.
Qed.

Lemma remove_task (l : list Task) (task : Task) :
  NoDup (task_id <$> l) -> task ∈ l -> l ≡ₚ task :: filter (fun t => task_id t <> task_id task) l.
Proof.
  intros Hnd Hin. apply elem_of_Permutation in Hin as (l' & Hp). rewrite Hp in Hnd.
  rewrite fmap_cons, NoDup_cons in Hnd. destruct Hnd as [Hnew _]. rewrite Hp at 1. f_equiv.
  rewrite Hp, filter_cons_False by naive_solver. by rewrite filter_others.
Qed.

Lemma store_inv_perm ord claims claims' (s : Store) : claims ≡ₚ claims' -> store_inv ord claims s -> store_inv ord claims' s.
Proof.
  intros Hp [[Hid Hk Hl] Hs Hcnt Ho]. split; [split|by eapply store_ok_perm|done|done].
  - by rewrite <- Hp.
  - intros c. rewrite <- Hp. apply Hk.
  - by rewrite <- Hp.
Qed.

Lemma deschedule_inv w i task :
  inv w -> running w !! i = Some task ->
  exists sm s, deschedule_task task (machine w) (store w) = Some (sm, s) /\ capability s = capability (store w) /\
    max_running_task_count sm = max_running_task_count (machine w) /\
    length (active w) = Datatypes.S (length (filter (fun t => task_id t <> task_id task) (active w))) /\
    inv (World sm s (filter (fun t => task_id t <> task_id task) (active w)) (delete i (running w))).
Proof.
  intros Hi Hrun. pose proof (inv_lengths w Hi) as Hlens.
  destruct Hi as [(ord & Hs & Hsort) Hcrs Hready Ha Hr Ht Hh Hu Hsmall Hmax].
  pose proof (delete_Permutation _ _ _ Hrun) as Hperm.
  assert (task ∈ filter (is_ready (nblocked (store w))) (active w)) as [Hzero Hin]%list_elem_of_filter.
  { rewrite <- Hready, Hperm. set_solver. }
  pose proof (claims_ids _ (inv_claims _ _ _ Hs)) as Hnd. rewrite cid_claims in Hnd.
  pose proof (remove_task _ _ Hnd Hin) as Hrem. set (rest := filter (fun t => task_id t <> task_id task) (active w)) in *.
  assert (store_inv ord ((task, lock_contexts task) :: (claim_of <$> rest)) (store w)) as Hs1.
  { eapply store_inv_perm; [|exact Hs]. exact (fmap_Permutation claim_of _ _ Hrem). }
  destruct (unlock_spec ord (claim_of <$> rest) task (store w) (unblocked_task_queue (machine w)))
    as (s' & new & Hun & Hcap & Hs' & Hnew); [done..|]. rewrite fst_claims in Hnew.
  assert (length (active w) = Datatypes.S (length rest) /\ length (running w) = Datatypes.S (length (delete i (running w)))) as [Hla Hlr].
  { split; [exact (Permutation_length Hrem)|exact (Permutation_length Hperm)]. }
  destruct w as [[uq act run max handled unb total] s acts runs]. cbn in *.
  rewrite (decrement_Some run), (decrement_Some act), (increment_Some handled) by lia. cbn [mbind option_bind].
  rewrite Hun. cbn [mbind option_bind]. eexists _, _. split_and!; [reflexivity|done|done|done|].
  split; cbn; try lia; 
    [|rewrite Forall_forall in *; intros t [_ Hin']%list_elem_of_filter; by apply Hcrs|].
  - exists ord. split; [done|]. rewrite Hcap. intros Hf. by apply StronglySorted_filter, Hsort.
  - rewrite Hnew, app_assoc. f_equiv. apply (Permutation_cons_inv (a := task)).
    rewrite Hrem, filter_cons_True in Hready by done. rewrite <- Hready. by rewrite Hperm at 2.
Qed.

(** ** Progress *)

Lemma least_task (ord : Z -> Z) (l : list Task) :
  l <> [] -> exists t, t ∈ l /\ forall t', t' ∈ l -> ord (task_id t) <= ord (task_id t').
Proof.
  induction l as [|t l IH]; [done|]. intros _. destruct l as [|t1 l].
  - exists t. split; [left|]. intros t' ->%list_elem_of_singleton. lia.
  - destruct IH as (m & Hin & Hm); [done|]. destruct (decide (ord (task_id t) <= ord (task_id m))).
    + exists t. split; [left|]. intros t' [->|Ht']%elem_of_cons; [lia|]. specialize (Hm t' Ht'). lia.
    + exists m. split; [by right|]. intros t' [->|Ht']%elem_of_cons; [lia|]. by apply Hm.
Qed.

Lemma member_active ts k u t :
  claims_ok (claim_of <$> ts) -> (u, t) ∈ members (claim_of <$> ts) k <-> t ∈ ts /\ (k, u) ∈ lock_contexts t.
Proof.
  intros Hc. rewrite members_spec by done. split.
  - intros (ctx & (t' & [= -> ->] & Ht)%list_elem_of_fmap & Hk). done.
  - intros [Ht Hk]. exists (lock_contexts t). split; [|done]. by apply (list_elem_of_fmap_2 claim_of _ t).
Qed.

(** The first task of the order can run, or waits for tasks that can. *)
Lemma some_ready w : inv w -> active w <> [] -> filter (is_ready (nblocked (store w))) (active w) <> [].
Proof.
  intros [(ord & [Hc Hs _ _] & _) _ _ _ _ _ _ _ _ _] Hne.
  enough (exists t, t ∈ active w /\ is_ready (nblocked (store w)) t) as (t & Ht & Hr).
  { intros Hnil. assert (t ∈ @nil Task) by (rewrite <- Hnil; by apply list_elem_of_filter). set_solver. }
  destruct (least_task ord (active w) Hne) as (t & Hin & Hleast).
  destruct (decide (is_ready (nblocked (store w)) t)) as [|Hn]; [by exists t|].
  assert (0 < nblocked (store w) (task_id t)) as (k & Hk)%nblocked_pos.
  { pose proof (nblocked_nonneg (store w) (task_id t)). unfold is_ready in Hn. lia. }
  destruct (Hs k) as (hs & Hm & _ & _ & _ & Ho). destruct hs as [|[u h] hs].
  { rewrite (ord_none _ _ _ _ Ho) in Hk by done. set_solver. }
  assert ((u, h) ∈ members (claim_of <$> active w) k) as Hh by (rewrite Hm; set_solver).
  apply member_active in Hh as [Hh _]; [|done]. exists h. split; [done|].
  destruct (decide (0 < nblocked (store w) (task_id h))) as [Hpos|];
    [|pose proof (nblocked_nonneg (store w) (task_id h)); unfold is_ready; lia].
  apply list_elem_of_fmap in Hk as (b & Hb & Hbw).
  pose proof (ord_hold _ _ _ _ Ho (u, h) b ltac:(left) Hbw (or_intror Hpos)) as Hlt.
  rewrite <- Hb in Hlt. specialize (Hleast h Hh). unfold uid in Hlt. simpl in Hlt. lia.
Qed.

(** ** Clearing *)

Lemma next_stops w sm :
  inv w -> running w = [] -> schedule_next_unblocked_task (machine w) = Some (None, sm) -> active w = [] /\ sm = machine w.
Proof.
  intros Hi Hrun Hnext. pose proof (some_ready w Hi) as Hsome.
  destruct Hi as [_ _ Hready _ Hr _ _ _ _ Hmax]. destruct w as [[uq act run max handled unb total] s acts runs].
  cbn in *. subst runs. cbn in Hr. unfold schedule_next_unblocked_task, is_task_runnable in Hnext. cbn in Hnext.
  rewrite (proj2 (Z.ltb_lt _ _)) in Hnext by lia. cbn in Hnext. destruct uq as [|task uq].
  - injection Hnext as <-. split; [|done]. destruct acts as [|a acts]; [done|]. exfalso. apply Hsome; [done|].
    by apply Permutation_nil_l in Hready.
  - destruct (increment run), (increment unb); done.
Qed.

Lemma clear_loop_spec fuel : forall w cleared,
  inv w -> running w = [] -> (length (active w) < fuel)%nat ->
  cleared + Z.of_nat (length (active w)) <= U32_MAX ->
  exists sm s, clear_loop fuel (machine w) (store w) cleared = Some (sm, s, cleared + Z.of_nat (length (active w))) /\
    capability s = capability (store w) /\ max_running_task_count sm = max_running_task_count (machine w) /\
    inv (World sm s [] []).
Proof.
  induction fuel as [|fuel IH]; intros w cleared Hi Hrun Hf Hb; [lia|]. cbn [clear_loop].
  destruct (next_inv w Hi) as (r & sm & Hnext & Hmax1 & Hi1). rewrite Hnext. cbn [mbind option_bind].
  destruct r as [task|].
  - rewrite Hrun in Hi1. cbn [option_list app] in Hi1.
    destruct (deschedule_inv _ 0 task Hi1) as (sm2 & s2 & Hd & Hcap & Hmax & Hlen & Hi2); [done|].
    cbn [machine store active running] in Hd, Hcap, Hmax, Hlen, Hi2. rewrite Hd. cbn [mbind option_bind].
    rewrite increment_Some by lia. cbn [mbind option_bind].
    destruct (IH _ (cleared + 1) Hi2) as (sm3 & s3 & Hl & Hcap3 & Hmax3 & Hi3); [done|cbn; lia|cbn; lia|].
    cbn [machine store active] in Hl. exists sm3, s3. rewrite Hl. cbn [store machine] in Hcap3, Hmax3.
    split_and!; [|congruence|congruence|done]. do 2 f_equal. lia.
  - destruct (next_stops w sm Hi Hrun Hnext) as [Hnil ->]. exists (machine w), (store w).
    rewrite Hnil. split_and!; [by rewrite Z.add_0_r|done|done|]. destruct w as [m s acts runs]. cbn in *. by subst.
Qed.

Definition fresh_machine (max : Z) : SchedulingStateMachine := MkMachine [] 0 0 max 0 0 0.

Lemma clear_inv w :
  inv w -> running w = [] ->
  exists s, clear_and_reinitialize (Datatypes.S (length (active w))) (machine w) (store w) =
      Some (fresh_machine (max_running_task_count (machine w)), s, Z.of_nat (length (active w))) /\
    capability s = capability (store w) /\ inv (World (fresh_machine (max_running_task_count (machine w))) s [] []).
Proof.
  intros Hi Hrun.
  destruct (clear_loop_spec (Datatypes.S (length (active w))) w 0 Hi Hrun) as (sm & s & Hl & Hcap & Hmax & Hi1); [lia| |].
  { pose proof (i_total w Hi). pose proof (i_handled w Hi). pose proof (i_small w Hi). lia. }
  unfold clear_and_reinitialize. rewrite Hl. cbn [mbind option_bind]. exists s.
  destruct sm as [uq act run max handled unb total]. pose proof Hi1 as [Hs _ Hready Ha Hr _ _ _ _ Hm]. cbn in *.
  apply Permutation_nil_r in Hready as ->. subst act run max. unfold reinitialize. cbn.
  split_and!; [done|done|]. split; cbn; (done || lia).
Qed.

(** ** Every reachable world *)

Lemma apply_inv w o :
  inv w -> valid w o -> exists w', apply w o = Some w' /\ inv w' /\ capability (store w') = capability (store w) /\
    max_running_task_count (machine w') = max_running_task_count (machine w).
Proof.
  intros Hi Hv. destruct o as [tx id size force| |i|].
  - destruct (schedule_inv w (do_create_task tx id size) force Hi (valid_admissible w tx id size force Hv)) as (r & sm & s & Hrun & Hcap & Hm & _ & Hi').
    eexists. unfold apply. rewrite Hrun. split_and!; [done|done|done|done].
  - destruct (next_inv w Hi) as (r & sm & Hrun & Hm & Hi'). eexists. unfold apply. by rewrite Hrun.
  - apply lookup_lt_is_Some in Hv as [task Ht].
    destruct (deschedule_inv w i task Hi Ht) as (sm & s & Hrun & Hcap & Hm & _ & Hi').
    eexists. unfold apply. rewrite Ht. cbn [mbind option_bind]. by rewrite Hrun.
  - destruct (clear_inv w Hi Hv) as (s & Hrun & Hcap & Hi'). eexists. unfold apply. by rewrite Hrun.
Qed.

Lemma init_inv c w : init c w -> inv w /\ capability (store w) = c.
Proof.
  intros (max & sm & Hsm & Hmax & ->). unfold initialize in Hsm. case_match; [|done]. injection Hsm as <-.
  cbn in Hmax. split; [|done]. split; cbn; try done; try lia.
  exists (fun x => x). split; [|constructor]. split; [|intros k|..]; try done.
  - split; [constructor|set_solver|done].
  - exists []. unfold queue. cbn [queues capability]. rewrite lookup_empty. destruct c; cbn;
      (split_and!; first [done|apply SSorted_nil|constructor; cbn; first [apply SSorted_nil|done|set_solver]]).
Qed.

Definition reaches (c : Capability) : world -> Prop := reachable (init c) step.

Lemma reaches_inv c w : reaches c w -> inv w /\ capability (store w) = c.
Proof.
  intros Hr. induction Hr as [w Hw|w w' Hr [Hi Hc] (o & Hv & Ho)]; [by apply init_inv|].
  destruct (apply_inv w o Hi Hv) as (w1 & Ho1 & Hi1 & Hc1 & _). rewrite Ho in Ho1. injection Ho1 as <-.
  split; [done|congruence].
Qed.

(** ** What the machine guarantees *)

(** The tasks that may run: handed out, or waiting only to be handed out. *)
Definition runnable (w : world) : list Task := running w ++ unblocked_task_queue (machine w).

Lemma runnable_iff w t : inv w -> t ∈ runnable w <-> t ∈ active w /\ nblocked (store w) (task_id t) = 0.
Proof.
  intros Hi. unfold runnable. rewrite (i_ready w Hi), list_elem_of_filter. unfold is_ready. naive_solver.
Qed.

Lemma created_access t k b :
  created t -> (k, b) ∈ accounts_with_is_writable (transaction t) ->
  (k, if (b : bool) then Writable else Readonly) ∈ lock_contexts t.
Proof. intros -> Hin. apply list_elem_of_fmap. by exists (k, b). Qed.

(** Conflicting tasks claim a common account, one of them writably. *)
Lemma conflicting_claims w t t' :
  inv w -> t ∈ active w -> t' ∈ active w -> conflicting (transaction t) (transaction t') ->
  exists k u u', (k, u) ∈ lock_contexts t /\ (k, u') ∈ lock_contexts t' /\ (u = Writable \/ u' = Writable).
Proof.
  intros Hi Ht Ht' (k & Hk). pose proof (i_created w Hi) as Hc. rewrite Forall_forall in Hc.
  pose proof (Hc t Ht) as Hct. pose proof (Hc t' Ht') as Hct'. unfold writes, touches in Hk.
  destruct Hk as [[Hw (b & Hb)]|[(b & Hb) Hw]]; eapply created_access in Hw, Hb; eauto 10.
Qed.

(** A runnable task holds its accounts: a task that conflicts with it waits for
    the account, and comes later if the order binds the runnable task. *)
Lemma runnable_excludes w t t' k u u' :
  inv w -> t ∈ runnable w -> t' ∈ active w -> t <> t' -> (k, u) ∈ lock_contexts t -> (k, u') ∈ lock_contexts t' ->
  u = Writable \/ u' = Writable ->
  (u', t') ∈ waiting (queue (store w) k) /\
  forall ord NR, store_ok ord NR (claim_of <$> active w) (store w) -> NR (task_id t) -> ord (task_id t) < ord (task_id t').
Proof.
  intros Hi Ht Ht' Hne Hk Hk' Hw. apply (runnable_iff w t Hi) in Ht as [Ht Hzero].
  destruct (i_store w Hi) as (ord0 & [Hc Hs0 _ _] & _).
  assert ((u, t) ∉ waiting (queue (store w) k)) as Hnw.
  { intros Hin. assert (0 < nblocked (store w) (task_id t)); [|lia]. apply nblocked_pos. exists k.
    by apply (list_elem_of_fmap_2 uid _ (u, t)). }
  assert (forall x hs, members (claim_of <$> active w) k ≡ₚ hs ++ waiting (queue (store w) k) ->
    x.2 ∈ active w -> (k, x.1) ∈ lock_contexts x.2 -> x ∈ hs \/ x ∈ waiting (queue (store w) k)) as Hsplit.
  { intros [v y] hs Hm Hy Hx. rewrite <- elem_of_app, <- Hm. by apply member_active. }
  assert ((u', t') ∈ waiting (queue (store w) k)) as Hwait.
  { destruct (Hs0 k) as (hs & Hm & Hh & _). destruct (Hsplit (u, t) hs) as [Hin|?]; [done..| |done].
    destruct (Hsplit (u', t') hs) as [Hin'|?]; [done..| |done]. exfalso.
    apply held_by_usage in Hh. destruct (current_usage (queue (store w) k)) as [[]|].
    - destruct Hh as [_ Hh]. rewrite Forall_forall in Hh. apply Hh in Hin, Hin'. naive_solver.
    - destruct Hh as (t0 & ->). set_solver.
    - subst hs. set_solver. }
  split; [done|]. intros ord NR Hs HNR. destruct (Hs k) as (hs & Hm & _ & _ & _ & Ho).
  destruct (Hsplit (u, t) hs) as [Hin|?]; [done..| |done]. by apply (ord_hold _ _ _ _ Ho (u, t) (u', t')).
Qed.

Lemma waiting_blocked (s : Store) k u t : (u, t) ∈ waiting (queue s k) -> 0 < nblocked s (task_id t).
Proof. intros Hin. apply nblocked_pos. exists k. by apply (list_elem_of_fmap_2 uid _ (u, t)). Qed.

Lemma runnable_NoDup w : inv w -> NoDup (runnable w).
Proof.
  intros Hi. unfold runnable. rewrite (i_ready w Hi). apply NoDup_filter, (NoDup_fmap_1 task_id).
  destruct (i_store w Hi) as (ord & [Hc _ _ _] & _). rewrite <- cid_claims. apply Hc.
Qed.

(** C14: tasks the unified scheduler hands out are safe to execute in parallel.
    In every state its operations reach, of either queueing capability, two
    tasks that are running or ready to run never conflict: neither writes an
    account the other one names. *)
Theorem unified_isolation c w i j t t' :
  reaches c w -> runnable w !! i = Some t -> runnable w !! j = Some t' -> i <> j ->
  ~ conflicting (transaction t) (transaction t').
Proof.
  intros [Hi _]%reaches_inv Ht Ht' Hij Hc.
  assert (t <> t') as Hne by (intros ->; apply Hij; by eapply NoDup_lookup; [apply runnable_NoDup|..]).
  apply list_elem_of_lookup_2 in Ht, Ht'. apply (runnable_iff w t' Hi) in Ht' as [Ht' Hz].
  pose proof (proj1 (runnable_iff w t Hi) Ht) as [Hta _].
  destruct (conflicting_claims w t t' Hi Hta Ht' Hc) as (k & u & u' & Hk & Hk' & Hw).
  destruct (runnable_excludes w t t' k u u' Hi Ht Ht' Hne Hk Hk' Hw) as [Hin%waiting_blocked _]. lia.
Qed.

(** C33: with FIFO queueing, as block verification uses it, conflicting tasks run
    in the order in which they were scheduled: a task that is running or ready to
    run conflicts with no task that arrived before it and has not been
    descheduled yet. *)
Theorem unified_fifo_order w l1 t l2 t' :
  reaches FifoQueueing w -> active w = l1 ++ t :: l2 -> t ∈ runnable w -> t' ∈ l1 ->
  ~ conflicting (transaction t') (transaction t).
Proof.
  intros [Hi Hcap]%reaches_inv Hact Ht Ht' Hc%conflict_sym.
  destruct (i_store w Hi) as (ord & Hs & Hsort). specialize (Hsort Hcap). rewrite Hact in Hsort.
  assert (ord (task_id t') < ord (task_id t)) as Hlt.
  { apply list_elem_of_split in Ht' as (a & b & ->). rewrite <- app_assoc in Hsort. simpl in Hsort.
    eapply (StronglySorted_after (fun t t' => ord (task_id t) < ord (task_id t'))); [exact Hsort|set_solver]. }
  assert (t ∈ active w /\ t' ∈ active w) as [Hta Hta'] by (rewrite Hact; set_solver).
  destruct (conflicting_claims w t t' Hi Hta Hta' Hc) as (k & u & u' & Hk & Hk' & Hw).
  destruct (runnable_excludes w t t' k u u' Hi Ht Hta') as [_ Ho]; [|done..|].
  - intros ->. lia.
  - specialize (Ho ord (takeable (store w)) (inv_queues _ _ _ Hs) (or_introl Hcap)). lia.
Qed.

(** C15: no operation of the state machine panics when it is used as documented,
    and the machine never gets stuck. From every state its operations reach,
    every operation that keeps the contract returns (no counter overflows, no
    assertion or unwrap fails), [buffer_task] included; and while there are active tasks, some task is
    running or ready to run. *)
Theorem unified_no_panic c w :
  reaches c w ->
  (forall o, valid w o -> exists w', apply w o = Some w') /\
  (forall tx id size, valid w (OSchedule tx id size true) ->
     exists sm s, buffer_task (do_create_task tx id size) (machine w) (store w) = Some (sm, s)) /\
  (active w <> [] -> runnable w <> []).
Proof.
  intros [Hi _]%reaches_inv. split_and!.
  - intros o Hv. destruct (apply_inv w o Hi Hv) as (w' & Ho & _). eauto.
  - intros tx id size Hv%valid_admissible. destruct (schedule_inv w _ true Hi Hv) as (r & sm & s & Hrun & _ & _ & Hnone & _).
    exists sm, s. unfold buffer_task. rewrite Hrun. cbn. by rewrite Hnone.
  - intros Hne Hnil. apply (some_ready w Hi Hne). unfold runnable in Hnil. pose proof (i_ready w Hi) as Hp.
    rewrite Hnil in Hp. by apply Permutation_nil_l in Hp.
Qed.

(** A machine without tasks leaves the queues as they were created. *)
Lemma idle_queues w k : inv w -> active w = [] -> queue (store w) k = UsageQueueInner_new (capability (store w)).
Proof.
  intros Hi Hnil. destruct (i_store w Hi) as (ord & [_ Hs _ _] & _). rewrite Hnil in Hs.
  destruct (Hs k) as (hs & Hm & Hh & _ & Hkind & _). cbn in Hm. apply Permutation_nil_l in Hm. symmetry in Hm.
  apply app_eq_nil in Hm as [-> Hw]. rewrite <- Hkind. apply held_by_usage in Hh.
  destruct (queue (store w) k) as [[[n|[]]|] b|[[ts|cur]|] b]; cbn in *; try naive_solver.
  apply fmap_nil_inv in Hw. by subst.
Qed.

(** Clearing ends and leaves nothing behind. From every state reached with no
    task running, [clear_and_reinitialize] terminates within one turn of its loop
    per active task (and one more), does not panic, returns the number of active
    tasks, and leaves a machine as newly created and every usage queue and
    counter of blocked usages as before any task. *)
Lemma unified_clear c w :
  reaches c w -> running w = [] ->
  exists s, clear_and_reinitialize (Datatypes.S (length (active w))) (machine w) (store w) =
      Some (fresh_machine (max_running_task_count (machine w)), s, Z.of_nat (length (active w))) /\
    (forall k, queue s k = UsageQueueInner_new c) /\ forall id, count (counts s) id = 0.
Proof.
  intros [Hi Hcap]%reaches_inv Hrun. destruct (clear_inv w Hi Hrun) as (s & Hc & Hcap' & Hi').
  exists s. split_and!; [done| |].
  - intros k. pose proof (idle_queues _ k Hi' eq_refl) as Hq. cbn [store] in Hq. by rewrite Hq, Hcap', Hcap.
  - intros id. destruct (i_store _ Hi') as (ord & [Hcl Hs Hcnt _] & _). cbn [store active] in *. rewrite Hcnt.
    eapply nblocked_stranger; [done|done|]. set_solver.
Qed.

(** With priority queueing, as block production uses it, a task waits for an
    account only behind tasks that can run or have a higher priority (a smaller
    id): a task with a lower priority that holds the account without being able
    to run yet is made to give it up. *)
Lemma unified_priority w t h k u u' :
  reaches PriorityQueueing w -> (u, t) ∈ waiting (queue (store w) k) ->
  h ∈ active w -> (k, u') ∈ lock_contexts h -> (u', h) ∉ waiting (queue (store w) k) ->
  h ∈ runnable w \/ task_id h < task_id t.
Proof.
  intros [Hi Hcap]%reaches_inv Hwait Hh Hk Hnw.
  destruct (i_store w Hi) as (ord & [Hc Hs _ Hord] & _). rewrite (Hord Hcap) in Hs.
  destruct (decide (0 < nblocked (store w) (task_id h))) as [Hpos|Hzero].
  - right. destruct (Hs k) as (hs & Hm & _ & _ & _ & Ho).
    assert ((u', h) ∈ members (claim_of <$> active w) k) as Hin by (by apply member_active).
    rewrite Hm, elem_of_app in Hin. destruct Hin as [Hin|Hin]; [|done].
    apply (ord_hold _ _ _ _ Ho (u', h) (u, t) Hin Hwait). by right.
  - left. apply (runnable_iff w h Hi). split; [done|]. pose proof (nblocked_nonneg (store w) (task_id h)). lia.
Qed.

(** ** Running a list of calls *)

Definition validb (w : world) (o : op) : bool :=
  match o with
  | OSchedule transaction id _ _ =>
      bool_decide (id ∉ task_id <$> active w) &&
      match validate_account_locks (account_keys transaction) 64 with Ok _ => true | Err _ => false end &&
      (2 * (total_task_count (machine w) + 1) <=? U32_MAX)
  | ONext => true
  | ODeschedule i => (i <? length (running w))%nat
  | OClear => bool_decide (length (running w) = 0%nat)
  end.

Fixpoint run (w : world) (ops : list op) : option world :=
  match ops with
  | [] => Some w
  | o :: ops => if validb w o then w ← apply w o; run w ops else None
  end.

Lemma validb_valid w o : validb w o = true -> valid w o.
Proof.
  destruct o as [tx id size force| |i|]; cbn [validb valid].
  - rewrite !andb_true_iff. intros [[Hid%bool_decide_eq_true Hv] Hb%Z.leb_le]. split_and!; [done| |done].
    exists 64%nat. split; [unfold word_max; lia|]. by destruct (validate_account_locks _ _) as [[]|].
  - done.
  - apply Nat.ltb_lt.
  - intros Hl%bool_decide_eq_true. by apply length_zero_iff_nil.
Qed.

Lemma run_reaches c w ops w' : reaches c w -> run w ops = Some w' -> reaches c w'.
Proof.
  revert w. induction ops as [|o ops IH]; intros w Hr Hrun; cbn in Hrun; [by injection Hrun as <-|].
  destruct (validb w o) eqn:Hv; [|done]. destruct (apply w o) as [w1|] eqn:Ho; [|done]. cbn in Hrun.
  eapply IH; [|exact Hrun]. eapply reachable_step; [exact Hr|]. exists o. split; [by apply validb_valid|done].
Qed.

Lemma start_reaches c max sm :
  initialize max = Some sm -> 0 < max_running_task_count sm -> reaches c (World sm (MkStore c ∅ ∅) [] []).
Proof. intros Hs Hm. apply reachable_init. by exists max, sm. Qed.

End Traces.
End Traces.
Import Traces.

(** Sample executions with two tasks running at a time. *)
Module SampleTraces.
Import SampleMessage.

Definition start (c : Capability) : world (Key := nat) (Tx := list (nat * bool)) :=
  World (MkMachine [] 0 0 2 0 0 0) (MkStore c ∅ ∅) [] [].

(** The account 0 is written by the first two tasks; the third reads another. *)
Definition fifo_ops : list (@op (list (nat * bool))) :=
  [OSchedule [(0%nat, true)] 0 0 false; OSchedule [(0%nat, true); (1%nat, true)] 1 0 false;
   OSchedule [(2%nat, false)] 2 0 false].

(** The task 9 waits for 0 and holds 1 until the task 3 takes it. *)
Definition priority_ops : list (@op (list (nat * bool))) :=
  [OSchedule [(0%nat, true)] 1 0 false; OSchedule [(0%nat, true); (1%nat, true)] 9 0 false;
   OSchedule [(1%nat, true)] 3 0 false].

Definition buffer_ops : list (@op (list (nat * bool))) :=
  [OSchedule [(0%nat, true)] 0 0 true; OSchedule [(0%nat, true); (1%nat, false)] 1 0 true;
   OSchedule [(1%nat, true)] 2 0 true].

Definition sample (c : Capability) ops : world := default (start c) (run (start c) ops).

Lemma sample_reaches c ops : run (start c) ops = Some (sample c ops) -> reaches c (sample c ops).
Proof. apply run_reaches. by apply (start_reaches c (Some 2)). Qed.

End SampleTraces.
Import SampleMessage SampleTraces.

Lemma unified_isolation_witness :
  let w := sample FifoQueueing fifo_ops in
  (task_id <$> runnable w) = [0; 2] /\ ~ conflicting [(0%nat, true)] [(2%nat, false)].
Proof.
  split; [by vm_compute|].
  refine (unified_isolation FifoQueueing (sample FifoQueueing fifo_ops) 0 1
            (do_create_task [(0%nat, true)] 0 0) (do_create_task [(2%nat, false)] 2 0) _ _ _ _).
  - apply sample_reaches. by vm_compute.
  - by vm_compute.
  - by vm_compute.
  - done.
Defined.

Lemma unified_fifo_order_witness :
  (task_id <$> active (sample FifoQueueing fifo_ops)) = [0; 1; 2] /\
  ~ conflicting [(0%nat, true); (1%nat, true)] [(2%nat, false)].
Proof.
  split; [by vm_compute|].
  refine (unified_fifo_order (sample FifoQueueing fifo_ops)
            [do_create_task [(0%nat, true)] 0 0; do_create_task [(0%nat, true); (1%nat, true)] 1 0]
            (do_create_task [(2%nat, false)] 2 0) [] (do_create_task [(0%nat, true); (1%nat, true)] 1 0) _ _ _ _).
  - apply sample_reaches. by vm_compute.
  - by vm_compute.
  - vm_compute. right. left.
  - right. left.
Defined.

Lemma unified_no_panic_witness :
  exists w', apply (sample FifoQueueing fifo_ops) (ODeschedule 0) = Some w' /\ (task_id <$> runnable w') = [2; 1].
Proof.
  destruct (proj1 (unified_no_panic FifoQueueing (sample FifoQueueing fifo_ops)
    ltac:(apply sample_reaches; by vm_compute)) (ODeschedule 0)) as (w' & Hw').
  - vm_compute. lia.
  - exists w'. split; [exact Hw'|]. vm_compute in Hw'. injection Hw' as <-. by vm_compute.
Defined.

