(* ===== verification/OrdMap.v ===== *)
(** * Ordered maps and sets

    [BTreeMap] and [BTreeSet] of the Rust standard library as lists sorted by
    key, for any strictly ordered type of keys. The fork choice keeps the
    children of a block and its batch of updates in them, and iterates in their
    order. *)

From S2P Require Import Prelude.

Class KeyOrder (K : Type) : Type := {
  klt : K -> K -> Prop;
  #[global] klt_dec x y :: Decision (klt x y);
  klt_irrefl x : ~ klt x x;
  klt_trans x y z : klt x y -> klt y z -> klt x z;
  klt_total x y : klt x y \/ x = y \/ klt y x
}.

(** The lexicographic order of pairs. *)
#[global] Instance pair_order {A B} `{EqDecision A, KeyOrder A, KeyOrder B} : KeyOrder (A * B).
Proof.
  refine {| klt p q := klt p.1 q.1 \/ (p.1 = q.1 /\ klt p.2 q.2); klt_dec p q := _ |}.
  - intros [a b] [Ha|[_ Hb]]; simpl in *; [by apply klt_irrefl in Ha|by apply klt_irrefl in Hb].
  - intros [a1 b1] [a2 b2] [a3 b3]; simpl. intros [H1|[-> H1]] [H2|[-> H2]]; eauto using klt_trans.
  - intros [a1 b1] [a2 b2]; simpl. destruct (klt_total a1 a2) as [|[->|]]; auto.
    destruct (klt_total b1 b2) as [|[->|]]; auto 10.
Defined.

#[global] Instance Z_order : KeyOrder Z.
Proof. refine {| klt := Z.lt; klt_dec x y := _ |}; intros *; lia. Defined.

Lemma klt_asym {K} `{KeyOrder K} (x y : K) : klt x y -> ~ klt y x.
Proof. intros H1 H2. by eapply klt_irrefl, klt_trans. Qed.

Lemma klt_ne {K} `{KeyOrder K} (x y : K) : klt x y -> x <> y.
Proof. intros Hlt ->. by eapply klt_irrefl. Qed.

(** ** Maps *)
Section Maps.
Context {K V : Type} `{EqDecision K} `{KeyOrder K}.
#[local] Abbreviation map := (list (K * V)).

(** [BTreeMap::insert]. *)
Fixpoint om_insert (k : K) (v : V) (m : map) : map :=
  match m with
  | [] => [(k, v)]
  | (k', v') :: m' =>
      if decide (klt k k') then (k, v) :: m
      else if decide (k = k') then (k, v) :: m'
      else (k', v') :: om_insert k v m'
  end.

(** [BTreeMap::get]. *)
Fixpoint om_lookup (k : K) (m : map) : option V :=
  match m with
  | [] => None
  | (k', v') :: m' => if decide (k = k') then Some v' else om_lookup k m'
  end.

Definition om_sorted (m : map) : Prop := StronglySorted (fun e1 e2 => klt e1.1 e2.1) m.

Lemma om_insert_in k v m e : e ∈ om_insert k v m -> e = (k, v) \/ e ∈ m.
Proof.
  induction m as [|[k' v'] m IH]; simpl; [set_solver|]. repeat case_decide; set_solver.
Qed.

Lemma om_insert_sorted k v m : om_sorted m -> om_sorted (om_insert k v m).
Proof.
  unfold om_sorted. induction m as [|[k' v'] m IH]; simpl; intros Hs; [repeat constructor|].
  apply StronglySorted_inv in Hs as [Hs Hk]. repeat case_decide.
  - constructor; [by constructor|]. constructor; [done|]. eapply Forall_impl; [exact Hk|].
    intros [k2 v2]; simpl. by apply klt_trans.
  - subst. by constructor.
  - constructor; [by apply IH|]. apply Forall_forall. intros e [->|He]%om_insert_in; simpl.
    + destruct (klt_total k k') as [|[|]]; done.
    + rewrite Forall_forall in Hk. by apply Hk.
Qed.

Lemma om_lookup_insert k v m k' : om_sorted m ->
  om_lookup k' (om_insert k v m) = if decide (k' = k) then Some v else om_lookup k' m.
Proof.
  unfold om_sorted. induction m as [|[k1 v1] m IH]; simpl; intros Hs; [by case_decide|].
  apply StronglySorted_inv in Hs as [Hs Hk].
  destruct (decide (klt k k1)); [simpl; by repeat case_decide|].
  destruct (decide (k = k1)) as [->|]; simpl; [by repeat case_decide|].
  rewrite IH by done. repeat case_decide; congruence.
Qed.

Lemma om_lookup_in k v m : om_sorted m -> om_lookup k m = Some v <-> (k, v) ∈ m.
Proof.
  unfold om_sorted. induction m as [|[k1 v1] m IH]; simpl; intros Hs; [set_solver|].
  apply StronglySorted_inv in Hs as [Hs Hk]. rewrite elem_of_cons. case_decide as Hd.
  - subst. split; [intros [= ->]; by left|]. intros [[= ->]|Hin]; [done|].
    rewrite Forall_forall in Hk. apply Hk in Hin. simpl in Hin. by apply klt_irrefl in Hin.
  - rewrite IH by done. naive_solver.
Qed.

(** Inserting a new key adds an entry; inserting an old one replaces its value. *)
Lemma om_insert_new k v m : om_lookup k m = None -> om_insert k v m ≡ₚ (k, v) :: m.
Proof.
  induction m as [|[k1 v1] m IH]; simpl; intros Hk; [done|]. destruct (decide (k = k1)) as [->|Hne]; [done|].
  case_decide; [done|]. rewrite IH by done. solve_Permutation.
Qed.

Lemma om_insert_old k v v0 m : om_sorted m -> om_lookup k m = Some v0 ->
  exists l1 l2, m = l1 ++ (k, v0) :: l2 /\ om_insert k v m = l1 ++ (k, v) :: l2.
Proof.
  unfold om_sorted. induction m as [|[k1 v1] m IH]; simpl; intros Hs Hk; [done|].
  apply StronglySorted_inv in Hs as [Hs Hk1]. destruct (decide (k = k1)) as [->|Hne].
  - injection Hk as ->. exists [], m. split; [done|]. rewrite decide_False by apply klt_irrefl. done.
  - destruct (IH Hs Hk) as (l1 & l2 & Hm & Hi). rewrite decide_False.
    + exists ((k1, v1) :: l1), l2. by rewrite Hi, Hm.
    + rewrite Forall_forall in Hk1. apply klt_asym. apply (Hk1 (k, v0)). rewrite Hm. set_solver.
Qed.

(** [entry(k).and_modify(..).or_insert(..)]. *)
Definition om_entry (k : K) (modify : V -> option V) (new : V) (m : map) : option map :=
  match om_lookup k m with
  | Some v => v' ← modify v; Some (om_insert k v' m)
  | None => Some (om_insert k new m)
  end.

End Maps.

(** ** Sets *)
Section Sets.
Context {K : Type} `{EqDecision K} `{KeyOrder K}.

(** [BTreeSet::insert]. *)
Fixpoint os_insert (k : K) (s : list K) : list K :=
  match s with
  | [] => [k]
  | k' :: s' =>
      if decide (klt k k') then k :: s
      else if decide (k = k') then s
      else k' :: os_insert k s'
  end.

(** [BTreeSet::remove]. *)
Definition os_remove (k : K) (s : list K) : list K := filter (fun k' => k' <> k) s.

Definition os_sorted (s : list K) : Prop := StronglySorted klt s.

Lemma os_insert_in k s x : x ∈ os_insert k s <-> x = k \/ x ∈ s.
Proof. induction s as [|k' s IH]; simpl; [set_solver|]. repeat case_decide; set_solver. Qed.

Lemma os_insert_sorted k s : os_sorted s -> os_sorted (os_insert k s).
Proof.
  unfold os_sorted. induction s as [|k' s IH]; simpl; intros Hs; [repeat constructor|].
  pose proof Hs as Hs0. apply StronglySorted_inv in Hs as [Hs Hk]. repeat case_decide; [|done|].
  - constructor; [done|]. constructor; [done|]. eapply Forall_impl; [exact Hk|]. intros k2. by apply klt_trans.
  - constructor; [by apply IH|]. apply Forall_forall. intros x [->|Hx]%os_insert_in.
    + destruct (klt_total k k') as [|[|]]; done.
    + rewrite Forall_forall in Hk. by apply Hk.
Qed.

Lemma os_insert_perm k s : k ∉ s -> os_insert k s ≡ₚ k :: s.
Proof.
  induction s as [|k' s IH]; simpl; intros Hk; [done|]. rewrite not_elem_of_cons in Hk. destruct Hk as [Hne Hk].
  repeat case_decide; [done|done|]. rewrite IH by done. solve_Permutation.
Qed.

Lemma os_remove_in k s x : x ∈ os_remove k s <-> x ∈ s /\ x <> k.
Proof. unfold os_remove. rewrite list_elem_of_filter. naive_solver. Qed.

Lemma os_remove_absent k s : k ∉ s -> os_remove k s = s.
Proof.
  unfold os_remove. induction s as [|x s IH]; intros Hk; [done|]. rewrite filter_cons, decide_True by set_solver.
  f_equal. apply IH. set_solver.
Qed.

Lemma os_remove_sorted k s : os_sorted s -> os_sorted (os_remove k s).
Proof. apply StronglySorted_filter. Qed.

Lemma os_sorted_NoDup s : os_sorted s -> NoDup s.
Proof.
  unfold os_sorted. induction 1 as [|k s Hs IH Hk]; constructor; [|done].
  intros Hin. rewrite Forall_forall in Hk. by apply Hk, klt_irrefl in Hin.
Qed.

End Sets.
