(* ===== verification/ForkChoice.v ===== *)
(** * Fork choice: the heaviest subtree

    [HeaviestSubtreeForkChoice] of src/core/src/consensus: the tree of blocks
    with the stake that voted for each, and for each block the heaviest and the
    deepest block below it, kept up to date while blocks, votes and verdicts on
    duplicate blocks arrive. Panics are [None]; stakes are [u64] with the
    wrap-around of release builds. *)

From S2P Require Import Prelude OrdMap.

Module Fork.

(** A hash is its 32 bytes read as one big-endian number: its order is the order
    of the bytes. *)
Abbreviation Slot := Z.
Abbreviation Hash := Z.
Abbreviation SlotHashKey := (Z * Z)%type.

Definition default_key : SlotHashKey := (0, 0).

(** ** Updates *)

Inductive UpdateLabel : Type :=
| LAggregate
| LAdd
| LMarkValid (slot : Slot)
| LMarkInvalid (slot : Slot)
| LSubtract.

#[global] Instance UpdateLabel_eq_dec : EqDecision UpdateLabel.
Proof. solve_decision. Defined.

(** The derived order: the variants in turn, then the slot. *)
Definition label_rank (l : UpdateLabel) : Z * Z :=
  match l with
  | LAggregate => (0, 0)
  | LAdd => (1, 0)
  | LMarkValid slot => (2, slot)
  | LMarkInvalid slot => (3, slot)
  | LSubtract => (4, 0)
  end.

Lemma label_rank_inj l1 l2 : label_rank l1 = label_rank l2 -> l1 = l2.
Proof. destruct l1, l2; simpl; congruence. Qed.

#[global] Instance label_order : KeyOrder UpdateLabel.
Proof.
  refine {| klt l1 l2 := klt (label_rank l1) (label_rank l2); klt_dec l1 l2 := _ |}.
  - intros l. apply klt_irrefl.
  - intros l1 l2 l3. apply klt_trans.
  - intros l1 l2. destruct (klt_total (label_rank l1) (label_rank l2)) as [|[?%label_rank_inj|]]; auto.
Defined.

Inductive UpdateOperation : Type :=
| Add (stake : Z)
| MarkValid (slot : Slot)
| MarkInvalid (slot : Slot)
| Subtract (stake : Z)
| Aggregate.

#[global] Instance UpdateOperation_eq_dec : EqDecision UpdateOperation.
Proof. solve_decision. Defined.

(** [UpdateOperation::update_stake]. *)
Definition update_stake (new_stake : Z) (self : UpdateOperation) : option UpdateOperation :=
  match self with
  | Aggregate => None
  | Add stake => Some (Add (wadd 64 stake new_stake))
  | MarkValid _ => None
  | MarkInvalid _ => None
  | Subtract stake => Some (Subtract (wadd 64 stake new_stake))
  end.

Abbreviation UpdateOperations := (list ((SlotHashKey * UpdateLabel) * UpdateOperation)).

(** ** Blocks *)

Record ForkInfo : Type := MkForkInfo {
  stake_voted_at : Z;
  stake_voted_subtree : Z;
  height : Z;
  best_slot : SlotHashKey;
  deepest_slot : SlotHashKey;
  parent : option SlotHashKey;
  children : list SlotHashKey;
  latest_invalid_ancestor : option Slot;
  is_duplicate_confirmed : bool
}.

Definition is_unconfirmed_duplicate (self : ForkInfo) (my_slot : Slot) : bool :=
  match latest_invalid_ancestor self with Some ancestor => ancestor =? my_slot | None => false end.

Definition is_candidate (self : ForkInfo) : bool :=
  match latest_invalid_ancestor self with None => true | Some _ => false end.

Definition with_validity (self : ForkInfo) (invalid : option Slot) (confirmed : bool) : ForkInfo :=
  MkForkInfo (stake_voted_at self) (stake_voted_subtree self) (height self) (best_slot self) (deepest_slot self)
    (parent self) (children self) invalid confirmed.

Definition set_duplicate_confirmed (self : ForkInfo) : ForkInfo := with_validity self None true.

Definition update_with_newly_valid_ancestor (newly_valid_ancestor : Slot) (self : ForkInfo) : ForkInfo :=
  match latest_invalid_ancestor self with
  | Some invalid =>
      if invalid <=? newly_valid_ancestor then with_validity self None (is_duplicate_confirmed self) else self
  | None => self
  end.

Definition update_with_newly_invalid_ancestor (newly_invalid_ancestor : Slot) (self : ForkInfo) : option ForkInfo :=
  if is_duplicate_confirmed self then None
  else
    Some (if match latest_invalid_ancestor self with
             | Some invalid => invalid <? newly_invalid_ancestor
             | None => true
             end
          then with_validity self (Some newly_invalid_ancestor) (is_duplicate_confirmed self)
          else self).

Definition with_parent (p : option SlotHashKey) (self : ForkInfo) : ForkInfo :=
  MkForkInfo (stake_voted_at self) (stake_voted_subtree self) (height self) (best_slot self) (deepest_slot self)
    p (children self) (latest_invalid_ancestor self) (is_duplicate_confirmed self).

Definition with_children (cs : list SlotHashKey) (self : ForkInfo) : ForkInfo :=
  MkForkInfo (stake_voted_at self) (stake_voted_subtree self) (height self) (best_slot self) (deepest_slot self)
    (parent self) cs (latest_invalid_ancestor self) (is_duplicate_confirmed self).

Definition with_best (b : SlotHashKey) (self : ForkInfo) : ForkInfo :=
  MkForkInfo (stake_voted_at self) (stake_voted_subtree self) (height self) b (deepest_slot self)
    (parent self) (children self) (latest_invalid_ancestor self) (is_duplicate_confirmed self).

Definition with_deepest (d : SlotHashKey) (h : Z) (self : ForkInfo) : ForkInfo :=
  MkForkInfo (stake_voted_at self) (stake_voted_subtree self) h (best_slot self) d
    (parent self) (children self) (latest_invalid_ancestor self) (is_duplicate_confirmed self).

Definition with_stakes (at_ subtree : Z) (self : ForkInfo) : ForkInfo :=
  MkForkInfo at_ subtree (height self) (best_slot self) (deepest_slot self)
    (parent self) (children self) (latest_invalid_ancestor self) (is_duplicate_confirmed self).

Section Fork.
Context {Pubkey : Type} `{Countable Pubkey}.

(** Without [last_root_time], which only paces a log line. *)
Record HeaviestSubtreeForkChoice : Type := MkFork {
  fork_infos : gmap SlotHashKey ForkInfo;
  latest_votes : gmap Pubkey SlotHashKey;
  tree_root : SlotHashKey
}.
#[local] Abbreviation FC := HeaviestSubtreeForkChoice.

Definition with_infos (self : FC) (infos : gmap SlotHashKey ForkInfo) : FC :=
  MkFork infos (latest_votes self) (tree_root self).

(** ** Queries *)

Definition contains_block (self : FC) (key : SlotHashKey) : bool := bool_decide (is_Some (fork_infos self !! key)).
Definition best_slot_of (self : FC) (key : SlotHashKey) : option SlotHashKey := best_slot <$> fork_infos self !! key.
Definition deepest_slot_of (self : FC) (key : SlotHashKey) : option SlotHashKey :=
  deepest_slot <$> fork_infos self !! key.
Definition best_overall_slot (self : FC) : option SlotHashKey := best_slot_of self (tree_root self).
Definition deepest_overall_slot (self : FC) : option SlotHashKey := deepest_slot_of self (tree_root self).
Definition stake_voted_subtree_of (self : FC) (key : SlotHashKey) : option Z :=
  stake_voted_subtree <$> fork_infos self !! key.
Definition stake_voted_at_of (self : FC) (key : SlotHashKey) : option Z := stake_voted_at <$> fork_infos self !! key.
Definition height_of (self : FC) (key : SlotHashKey) : option Z := height <$> fork_infos self !! key.
Definition parent_of (self : FC) (key : SlotHashKey) : option SlotHashKey := fork_infos self !! key ≫= parent.
Definition children_of (self : FC) (key : SlotHashKey) : option (list SlotHashKey) :=
  children <$> fork_infos self !! key.
Definition latest_invalid_ancestor_of (self : FC) (key : SlotHashKey) : option Slot :=
  fork_infos self !! key ≫= latest_invalid_ancestor.
Definition is_duplicate_confirmed_of (self : FC) (key : SlotHashKey) : option bool :=
  is_duplicate_confirmed <$> fork_infos self !! key.
Definition is_unconfirmed_duplicate_of (self : FC) (key : SlotHashKey) : option bool :=
  (fun info => is_unconfirmed_duplicate info key.1) <$> fork_infos self !! key.
Definition is_candidate_of (self : FC) (key : SlotHashKey) : option bool := is_candidate <$> fork_infos self !! key.
Definition is_empty (self : FC) : bool := bool_decide (fork_infos self = ∅).

Definition compare_keys (k1 k2 : SlotHashKey) : comparison :=
  if decide (klt k1 k2) then Lt else if decide (k1 = k2) then Eq else Gt.

Definition max_by_weight (self : FC) (slot1 slot2 : SlotHashKey) : option comparison :=
  weight1 ← stake_voted_subtree_of self slot1;
  weight2 ← stake_voted_subtree_of self slot2;
  Some (if weight1 =? weight2 then CompOpp (compare_keys slot1 slot2) else weight1 ?= weight2).

(** [AncestorIterator], collected: the ancestors of a block, nearest first. Every
    turn goes to a block of the map or ends. *)
Fixpoint ancestors (fuel : nat) (infos : gmap SlotHashKey ForkInfo) (key : SlotHashKey) : list SlotHashKey :=
  match fuel with
  | O => []
  | S fuel =>
      match infos !! key ≫= parent with
      | None => []
      | Some p => p :: ancestors fuel infos p
      end
  end.

Definition ancestor_iterator (self : FC) (key : SlotHashKey) : list SlotHashKey :=
  ancestors (size (fork_infos self)) (fork_infos self) key.

Definition is_strict_ancestor (self : FC) (maybe_ancestor_key node_key : SlotHashKey) : bool :=
  if bool_decide (maybe_ancestor_key = node_key) then false
  else if node_key.1 <? maybe_ancestor_key.1 then false
  else existsb (fun a => (a.1 =? maybe_ancestor_key.1) && (a.2 =? maybe_ancestor_key.2))
         (ancestor_iterator self node_key).

(** ** New blocks *)

(** The loop of [is_best_child] over the children of the parent. *)
Fixpoint best_among (self : FC) (key : SlotHashKey) (weight : Z) (cs : list SlotHashKey) : option bool :=
  match cs with
  | [] => Some true
  | child :: cs =>
      child_weight ← stake_voted_subtree_of self child;
      candidate ← is_candidate_of self child;
      if negb candidate then best_among self key weight cs
      else if (weight <? child_weight) || ((weight =? child_weight) && bool_decide (klt child key)) then Some false
      else best_among self key weight cs
  end.

Definition is_best_child (self : FC) (maybe_best_child : SlotHashKey) : option bool :=
  weight ← stake_voted_subtree_of self maybe_best_child;
  match parent_of self maybe_best_child with
  | None => Some true
  | Some p => cs ← children_of self p; best_among self maybe_best_child weight cs
  end.

(** The loop of [is_deepest_child]. *)
Fixpoint deepest_among (self : FC) (key : SlotHashKey) (h weight : Z) (cs : list SlotHashKey) : option bool :=
  match cs with
  | [] => Some true
  | child :: cs =>
      child_height ← height_of self child;
      child_weight ← stake_voted_subtree_of self child;
      match child_height ?= h, child_weight ?= weight, compare_keys child key with
      | Gt, _, _ => Some false
      | Eq, Gt, _ => Some false
      | Eq, Eq, Lt => Some false
      | _, _, _ => deepest_among self key h weight cs
      end
  end.

Definition is_deepest_child (self : FC) (maybe_deepest_child : SlotHashKey) : option bool :=
  weight ← stake_voted_subtree_of self maybe_deepest_child;
  h ← height_of self maybe_deepest_child;
  match parent_of self maybe_deepest_child with
  | None => Some true
  | Some p => cs ← children_of self p; deepest_among self maybe_deepest_child h weight cs
  end.

(** The first loop of [propagate_new_leaf]: the ancestors that considered the
    previous leaf the best slot. *)
Fixpoint propagate_best (fuel : nat) (key parent_best : SlotHashKey) (ancestor : option SlotHashKey)
    (infos : gmap SlotHashKey ForkInfo) : option (gmap SlotHashKey ForkInfo) :=
  match ancestor with
  | None => Some infos
  | Some a =>
      match fuel with
      | O => None
      | S fuel =>
          info ← infos !! a;
          if bool_decide (best_slot info = parent_best)
          then propagate_best fuel key parent_best (parent info) (<[a := with_best key info]> infos)
          else Some infos
      end
  end.

(** The second loop: the deepest slot and the height. *)
Fixpoint propagate_deepest (fuel : nat) (key : SlotHashKey) (ancestor : option SlotHashKey)
    (current_child : SlotHashKey) (current_height : Z) (self : FC) : option FC :=
  match ancestor with
  | None => Some self
  | Some a =>
      match fuel with
      | O => None
      | S fuel =>
          deepest ← is_deepest_child self current_child;
          if negb deepest then Some self
          else
            info ← fork_infos self !! a;
            let info := with_deepest key (current_height + 1) info in
            propagate_deepest fuel key (parent info) a (height info)
              (with_infos self (<[a := info]> (fork_infos self)))
      end
  end.

Definition propagate_new_leaf (self : FC) (key parent_key : SlotHashKey) : option FC :=
  let fuel := S (size (fork_infos self)) in
  parent_best ← best_slot_of self parent_key;
  best ← is_best_child self key;
  infos ← (if (best : bool) then propagate_best fuel key parent_best (Some parent_key) (fork_infos self)
           else Some (fork_infos self));
  propagate_deepest fuel key (Some parent_key) key 1 (with_infos self infos).

Definition add_new_leaf_slot (self : FC) (key : SlotHashKey) (parent_key : option SlotHashKey) : option FC :=
  if contains_block self key then Some self
  else
    let invalid := parent_key ≫= latest_invalid_ancestor_of self in
    let leaf := MkForkInfo 0 0 1 key key parent_key [] invalid
                  (match parent_key with None => true | Some _ => false end) in
    let self := with_infos self (<[key := leaf]> (fork_infos self)) in
    match parent_key with
    | None => Some self
    | Some p =>
        info ← fork_infos self !! p;
        let info := with_children (os_insert key (children info)) info in
        propagate_new_leaf (with_infos self (<[p := info]> (fork_infos self))) key p
    end.

Definition new (root : SlotHashKey) : option FC := add_new_leaf_slot (MkFork ∅ ∅ root) root None.

(** ** Batches of updates *)

Definition do_insert_aggregate_operation (ops : UpdateOperations) (modify_fork_validity : option UpdateOperation)
    (key : SlotHashKey) : bool * UpdateOperations :=
  match om_lookup (key, LAggregate) ops with
  | Some _ => (false, ops)
  | None =>
      let ops := match modify_fork_validity with
                 | Some (MarkValid slot) => om_insert (key, LMarkValid slot) (MarkValid slot) ops
                 | Some (MarkInvalid slot) => om_insert (key, LMarkInvalid slot) (MarkInvalid slot) ops
                 | _ => ops
                 end in
      (true, om_insert (key, LAggregate) Aggregate ops)
  end.

(** The loop of [do_insert_aggregate_operations_across_ancestors]. *)
Fixpoint insert_across (ops : UpdateOperations) (modify_fork_validity : option UpdateOperation)
    (keys : list SlotHashKey) : UpdateOperations :=
  match keys with
  | [] => ops
  | key :: keys =>
      let '(inserted, ops) := do_insert_aggregate_operation ops modify_fork_validity key in
      if inserted then insert_across ops modify_fork_validity keys else ops
  end.

Definition do_insert_aggregate_operations_across_ancestors (self : FC) (ops : UpdateOperations)
    (modify_fork_validity : option UpdateOperation) (key : SlotHashKey) : UpdateOperations :=
  insert_across ops modify_fork_validity (ancestor_iterator self key).

Definition insert_aggregate_operations (self : FC) (ops : UpdateOperations) (key : SlotHashKey) : UpdateOperations :=
  do_insert_aggregate_operations_across_ancestors self ops None key.

(** The variables of the loop of [aggregate_slot] over the children. *)
Record Totals : Type := MkTotals {
  t_stake : Z;
  t_confirmed : bool;
  t_best : SlotHashKey;
  t_best_child : SlotHashKey;
  t_best_child_stake : Z;
  t_deepest : SlotHashKey;
  t_deepest_child : SlotHashKey;
  t_deepest_child_stake : Z;
  t_deepest_child_height : Z
}.

Definition totals_start (key : SlotHashKey) (at_ : Z) : Totals := MkTotals at_ false key key 0 key key 0 0.

Definition aggregate_child (infos : gmap SlotHashKey ForkInfo) (key : SlotHashKey) (t : Totals)
    (child_key : SlotHashKey) : option Totals :=
  child ← infos !! child_key;
  let stake := stake_voted_subtree child in
  let '(best, best_child, best_child_stake) :=
    if is_candidate child &&
       (bool_decide (t_best_child t = key) || (t_best_child_stake t <? stake) ||
        ((stake =? t_best_child_stake t) && bool_decide (klt child_key (t_best_child t))))
    then (best_slot child, child_key, stake)
    else (t_best t, t_best_child t, t_best_child_stake t) in
  let deeper := match bool_decide (t_deepest_child t = key), height child ?= t_deepest_child_height t,
                      stake ?= t_deepest_child_stake t, compare_keys child_key (t_deepest_child t) with
                | true, _, _, _ | _, Gt, _, _ | _, Eq, Gt, _ | _, Eq, Eq, Lt => true
                | _, _, _, _ => false
                end in
  let '(deepest, deepest_child, deepest_child_stake, deepest_child_height) :=
    if (deeper : bool) then (deepest_slot child, child_key, stake, height child)
    else (t_deepest t, t_deepest_child t, t_deepest_child_stake t, t_deepest_child_height t) in
  Some (MkTotals (wadd 64 (t_stake t) stake) (t_confirmed t || is_duplicate_confirmed child)
          best best_child best_child_stake deepest deepest_child deepest_child_stake deepest_child_height).

Definition with_totals (t : Totals) (self : ForkInfo) : ForkInfo :=
  let self := if t_confirmed t then set_duplicate_confirmed self else self in
  MkForkInfo (stake_voted_at self) (t_stake t) (t_deepest_child_height t + 1) (t_best t) (t_deepest t)
    (parent self) (children self) (latest_invalid_ancestor self) (is_duplicate_confirmed self).

Definition aggregate_slot (key : SlotHashKey) (infos : gmap SlotHashKey ForkInfo) :
    option (gmap SlotHashKey ForkInfo) :=
  match infos !! key with
  | None => Some infos
  | Some info =>
      t ← foldM (aggregate_child infos key) (totals_start key (stake_voted_at info)) (children info);
      Some (<[key := with_totals t info]> infos)
  end.

Definition mark_fork_valid (key : SlotHashKey) (valid_slot : Slot) (infos : gmap SlotHashKey ForkInfo) :
    gmap SlotHashKey ForkInfo :=
  match infos !! key with
  | None => infos
  | Some info =>
      let info := update_with_newly_valid_ancestor valid_slot info in
      <[key := if key.1 =? valid_slot then with_validity info (latest_invalid_ancestor info) true else info]> infos
  end.

Definition mark_fork_invalid (key : SlotHashKey) (invalid_slot : Slot) (infos : gmap SlotHashKey ForkInfo) :
    option (gmap SlotHashKey ForkInfo) :=
  match infos !! key with
  | None => Some infos
  | Some info => info ← update_with_newly_invalid_ancestor invalid_slot info; Some (<[key := info]> infos)
  end.

Definition add_slot_stake (key : SlotHashKey) (stake : Z) (infos : gmap SlotHashKey ForkInfo) :
    gmap SlotHashKey ForkInfo :=
  alter (fun info => with_stakes (wadd 64 (stake_voted_at info) stake) (wadd 64 (stake_voted_subtree info) stake) info)
    key infos.

Definition subtract_slot_stake (key : SlotHashKey) (stake : Z) (infos : gmap SlotHashKey ForkInfo) :
    gmap SlotHashKey ForkInfo :=
  alter (fun info => with_stakes (wsub 64 (stake_voted_at info) stake) (wsub 64 (stake_voted_subtree info) stake) info)
    key infos.

Definition process_operation (infos : gmap SlotHashKey ForkInfo)
    (o : (SlotHashKey * UpdateLabel) * UpdateOperation) : option (gmap SlotHashKey ForkInfo) :=
  let key := o.1.1 in
  match o.2 with
  | MarkValid valid_slot => Some (mark_fork_valid key valid_slot infos)
  | MarkInvalid invalid_slot => mark_fork_invalid key invalid_slot infos
  | Aggregate => aggregate_slot key infos
  | Add stake => Some (add_slot_stake key stake infos)
  | Subtract stake => Some (subtract_slot_stake key stake infos)
  end.

(** From the greatest to the smallest slot. *)
Definition process_update_operations (self : FC) (ops : UpdateOperations) : option FC :=
  infos ← foldM process_operation (fork_infos self) (reverse ops);
  Some (with_infos self infos).

(** ** Votes *)

(** The stake of a vote account in the epoch of a slot: [epoch_stakes.get(&epoch)
    .map(|s| s.vote_account_stake(pubkey)).unwrap_or(0)] with
    [epoch_schedule.get_epoch]. *)
Definition StakeOf : Type := Pubkey -> Slot -> Z.

(** One turn of the loop of [generate_update_operations]; the observed keys are a
    set, their slots are not read. *)
Definition generate_vote (stake_of : StakeOf) (st : UpdateOperations * gset Pubkey * FC)
    (vote : Pubkey * SlotHashKey) : option (UpdateOperations * gset Pubkey * FC) :=
  let '(ops, observed, self) := st in
  let '(pubkey, new_vote) := vote in
  if new_vote.1 <? (tree_root self).1 then Some st
  else if bool_decide (pubkey ∈ observed) then None
  else
    let observed := {[pubkey]} ∪ observed in
    let stale := match latest_votes self !! pubkey with
                 | Some old => (new_vote.1 <? old.1) || ((new_vote.1 =? old.1) && (old.2 <=? new_vote.2))
                 | None => false
                 end in
    if (stale : bool) then Some (ops, observed, self)
    else
      let old_vote := latest_votes self !! pubkey in
      let self := MkFork (fork_infos self) (<[pubkey := new_vote]> (latest_votes self)) (tree_root self) in
      ops ← (match old_vote with
             | None => Some ops
             | Some old =>
                 if negb (if new_vote.1 =? old.1 then new_vote.2 <? old.2 else old.1 <? new_vote.1) then None
                 else
                   let stake_update := stake_of pubkey old.1 in
                   if 0 <? stake_update then
                     ops ← om_entry (old, LSubtract) (update_stake stake_update) (Subtract stake_update) ops;
                     Some (insert_aggregate_operations self ops old)
                   else Some ops
             end);
      let stake_update := stake_of pubkey new_vote.1 in
      ops ← om_entry (new_vote, LAdd) (update_stake stake_update) (Add stake_update) ops;
      Some (insert_aggregate_operations self ops new_vote, observed, self).

Definition generate_update_operations (stake_of : StakeOf) (self : FC) (pubkey_votes : list (Pubkey * SlotHashKey)) :
    option (UpdateOperations * FC) :=
  '(ops, _, self) ← foldM (generate_vote stake_of) ([], ∅, self) pubkey_votes;
  Some (ops, self).

Definition add_votes (stake_of : StakeOf) (self : FC) (pubkey_votes : list (Pubkey * SlotHashKey)) :
    option (SlotHashKey * FC) :=
  '(ops, self) ← generate_update_operations stake_of self pubkey_votes;
  self ← process_update_operations self ops;
  best ← best_overall_slot self;
  Some (best, self).

(** ** Roots and subtrees *)

(** The loop of [subtree_diff]: depth first, the last child first. The set of
    the blocks reached is the list in the order of the visits. *)
Fixpoint subtree_loop (fuel : nat) (infos : gmap SlotHashKey ForkInfo) (root2 : SlotHashKey)
    (pending reached : list SlotHashKey) : option (list SlotHashKey) :=
  match pending with
  | [] => Some reached
  | current :: pending =>
      match fuel with
      | O => None
      | S fuel =>
          if bool_decide (current = root2) then subtree_loop fuel infos root2 pending reached
          else
            info ← infos !! current;
            subtree_loop fuel infos root2 (reverse (children info) ++ pending) (reached ++ [current])
      end
  end.

Definition subtree_diff (self : FC) (root1 root2 : SlotHashKey) : option (list SlotHashKey) :=
  if contains_block self root1
  then subtree_loop (S (size (fork_infos self))) (fork_infos self) root2 [root1] []
  else Some [].

(** [fork_infos.remove(..).expect(..)] for each block. *)
Fixpoint remove_blocks (infos : gmap SlotHashKey ForkInfo) (keys : list SlotHashKey) :
    option (gmap SlotHashKey ForkInfo) :=
  match keys with
  | [] => Some infos
  | key :: keys => _ ← infos !! key; remove_blocks (delete key infos) keys
  end.

Definition set_tree_root (self : FC) (new_root : SlotHashKey) : option FC :=
  remove_set ← subtree_diff self (tree_root self) new_root;
  infos ← remove_blocks (fork_infos self) remove_set;
  root_info ← infos !! new_root;
  Some (MkFork (<[new_root := with_parent None root_info]> infos) (latest_votes self) new_root).

Definition add_root_parent (self : FC) (root_parent : SlotHashKey) : option FC :=
  if negb (root_parent.1 <? (tree_root self).1) then None
  else if contains_block self root_parent then None
  else
    root_info ← fork_infos self !! tree_root self;
    let root_info := with_parent (Some root_parent) root_info in
    let root_parent_info :=
      MkForkInfo 0 (stake_voted_subtree root_info) (height root_info + 1) (best_slot root_info)
        (deepest_slot root_info) None [tree_root self] None (is_duplicate_confirmed root_info) in
    Some (MkFork (<[root_parent := root_parent_info]> (<[tree_root self := root_info]> (fork_infos self)))
            (latest_votes self) root_parent).

(** The loop of [split_off] that moves the subtree. *)
Fixpoint move_loop (fuel : nat) (to_visit : list SlotHashKey) (infos split : gmap SlotHashKey ForkInfo) :
    option (gmap SlotHashKey ForkInfo * gmap SlotHashKey ForkInfo) :=
  match to_visit with
  | [] => Some (infos, split)
  | current :: to_visit =>
      match fuel with
      | O => None
      | S fuel =>
          info ← infos !! current;
          move_loop fuel (reverse (children info) ++ to_visit) (delete current infos) (<[current := info]> split)
      end
  end.

Definition retain_votes (votes : gmap Pubkey SlotHashKey) (infos : gmap SlotHashKey ForkInfo) :
    gmap Pubkey SlotHashKey :=
  filter (fun e => is_Some (infos !! e.2)) votes.

(** The tree that remains and the tree split off. *)
Definition split_off (self : FC) (key : SlotHashKey) : option (FC * FC) :=
  if bool_decide (tree_root self = key) then None
  else
    split_tree_root ← fork_infos self !! key;
    p ← parent split_tree_root;
    let ops := insert_aggregate_operations self [] key in
    parent_info ← fork_infos self !! p;
    if bool_decide (key ∉ children parent_info) then None
    else
      let parent_info := with_children (os_remove key (children parent_info)) parent_info in
      self ← process_update_operations (with_infos self (<[p := parent_info]> (fork_infos self))) ops;
      '(infos, split) ← move_loop (S (size (fork_infos self))) [key] (fork_infos self) ∅;
      parent_info ← infos !! p;
      let infos := <[p := with_children (os_remove key (children parent_info)) parent_info]> infos in
      let split := <[key := with_parent None split_tree_root]> split in
      Some (MkFork infos (retain_votes (latest_votes self) infos) (tree_root self),
            MkFork split (retain_votes (latest_votes self) split) key).

(** The traversal of [purge_prune]; [root_found] is its [tree_root]. *)
Fixpoint purge_loop (fuel : nat) (new_root : SlotHashKey) (to_visit : list SlotHashKey) (self : FC)
    (purged : list SlotHashKey) (pruned : list FC) (root_found : bool) :
    option (FC * list SlotHashKey * list FC * bool) :=
  match to_visit with
  | [] => Some (self, purged, pruned, root_found)
  | cur_slot :: to_visit =>
      match fuel with
      | O => None
      | S fuel =>
          if bool_decide (cur_slot = new_root) then purge_loop fuel new_root to_visit self purged pruned true
          else if decide (klt cur_slot new_root) then
            cs ← children_of self cur_slot;
            purge_loop fuel new_root (reverse cs ++ to_visit) self (purged ++ [cur_slot]) pruned root_found
          else
            '(self, subtree) ← split_off self cur_slot;
            purge_loop fuel new_root to_visit self purged (pruned ++ [subtree]) root_found
      end
  end.

Definition purge_prune (self : FC) (new_root : SlotHashKey) : option (FC * list SlotHashKey * list FC) :=
  '(self, purged, pruned, root_found) ←
    purge_loop (S (size (fork_infos self))) new_root [tree_root self] self [] [] false;
  infos ← remove_blocks (fork_infos self) purged;
  if (root_found : bool) then
    info ← infos !! new_root;
    Some (MkFork (<[new_root := with_parent None info]> infos) (latest_votes self) new_root, purged, pruned)
  else Some (with_infos self infos, purged, pruned).

(** [sort_by_key] of the blocks of a tree, with their parents in the other. *)
Definition merge_nodes (other : FC) (merge_leaf : SlotHashKey) : list (SlotHashKey * SlotHashKey) :=
  foldr (fun e l => om_insert e.1 (default merge_leaf (parent e.2)) l) [] (map_to_list (fork_infos other)).

(** [votes] are the latest votes of the other tree in the order of iteration. *)
Definition merge (stake_of : StakeOf) (self other : FC) (merge_leaf : SlotHashKey)
    (votes : list (Pubkey * SlotHashKey)) : option FC :=
  if negb (contains_block self merge_leaf) then None
  else
    self ← foldM (fun self n => add_new_leaf_slot self n.1 (Some n.2)) self (merge_nodes other merge_leaf);
    '(_, self) ← add_votes stake_of self votes;
    Some self.

(** ** Duplicate blocks *)

(** The loops over [subtree_diff] of the two functions below. *)
Definition insert_marks (ops : UpdateOperations) (mark : UpdateOperation) (keys : list SlotHashKey) :
    UpdateOperations :=
  fold_left (fun ops key => (do_insert_aggregate_operation ops (Some mark) key).2) keys ops.

Definition mark_fork_invalid_candidate (self : FC) (key : SlotHashKey) : option FC :=
  match fork_infos self !! key with
  | None => Some self
  | Some info =>
      if is_duplicate_confirmed info then None
      else
        subtree ← subtree_diff self key default_key;
        let ops := insert_marks [] (MarkInvalid key.1) subtree in
        process_update_operations self (insert_aggregate_operations self ops key)
  end.

Definition mark_fork_valid_candidate (self : FC) (key : SlotHashKey) : option (list SlotHashKey * FC) :=
  newly_confirmed ← foldM (fun l a =>
    confirmed ← is_duplicate_confirmed_of self a;
    Some (if (confirmed : bool) then l else l ++ [a])) [] (key :: ancestor_iterator self key);
  subtree ← subtree_diff self key default_key;
  let ops := insert_marks [] (MarkValid key.1) subtree in
  self ← process_update_operations self (insert_aggregate_operations self ops key);
  Some (newly_confirmed, self).

(** ** Choosing *)

(** [last_voted] and [stray] are the tower's [last_voted_slot_hash] and
    [is_stray_last_vote]. *)
Definition heaviest_slot_on_same_voted_fork (self : FC) (last_voted : option SlotHashKey) (stray : bool) :
    option (option SlotHashKey) :=
  match last_voted with
  | None => Some None
  | Some last_voted =>
      match is_candidate_of self last_voted with
      | Some true => Some (best_slot_of self last_voted)
      | Some false => Some (deepest_slot_of self last_voted)
      | None => if negb stray then None else Some None
      end
  end.

(** What [new_from_frozen_banks] reads of a bank. *)
Record BankInfo : Type := MkBankInfo {
  is_frozen : bool;
  bank_slot : Slot;
  bank_hash : Hash;
  bank_parent_slot : Slot;
  bank_parent_hash : Hash
}.

Definition add_frozen_bank (root : SlotHashKey) (st : FC * Slot) (bank : BankInfo) : option (FC * Slot) :=
  let '(self, prev_slot) := st in
  if negb (is_frozen bank) then None
  else if root.1 <? bank_slot bank then
    if negb (prev_slot <? bank_slot bank) then None
    else if bank_hash bank =? 0 then None
    else if bank_parent_hash bank =? 0 then None
    else
      self ← add_new_leaf_slot self (bank_slot bank, bank_hash bank)
               (Some (bank_parent_slot bank, bank_parent_hash bank));
      Some (self, bank_slot bank)
  else Some st.

Definition new_from_frozen_banks (root : SlotHashKey) (frozen_banks : list BankInfo) : option FC :=
  self ← new root;
  '(self, _) ← foldM (add_frozen_bank root) (self, root.1) frozen_banks;
  Some self.

End Fork.
End Fork.
