(* ===== verification/ForkTree.v ===== *)
(** * The tree of blocks

    What the fork choice keeps: the shape of the tree, the fields of a block
    that summarise its children, and the batches of updates that restore them
    from the leaves to the root. *)

From S2P Require Import Prelude OrdMap ForkChoice.
Import Fork.

Module Tree.

Abbreviation Infos := (gmap SlotHashKey ForkInfo).

Definition no_info : ForkInfo := MkForkInfo 0 0 0 default_key default_key None [] None false.
Definition info_at (m : Infos) (k : SlotHashKey) : ForkInfo := default no_info (m !! k).

Lemma info_at_some (m : Infos) k i : m !! k = Some i -> info_at m k = i.
Proof. unfold info_at. by intros ->. Qed.

Lemma lookup_info_at (m : Infos) k : is_Some (m !! k) -> m !! k = Some (info_at m k).
Proof. intros [i Hi]. unfold info_at. by rewrite Hi. Qed.

Lemma info_at_insert (m : Infos) k i k' : info_at (<[k := i]> m) k' = if decide (k' = k) then i else info_at m k'.
Proof. unfold info_at. case_decide; [subst; by rewrite lookup_insert_eq|by rewrite lookup_insert_ne]. Qed.

Lemma is_Some_insert (m : Infos) k i k' : is_Some (m !! k) -> is_Some (<[k := i]> m !! k') <-> is_Some (m !! k').
Proof.
  intros Hk. destruct (decide (k' = k)) as [->|Hne]; [rewrite lookup_insert_eq|rewrite lookup_insert_ne by done];
    [split; [done|eauto]|done].
Qed.

(** ** Shape *)

Record tree_ok (m : Infos) (root : SlotHashKey) : Prop := {
  tree_root_in : is_Some (m !! root);
  tree_root_parent : parent (info_at m root) = None;
  tree_parent : forall k, is_Some (m !! k) -> k <> root ->
    exists p, parent (info_at m k) = Some p /\ is_Some (m !! p) /\ k ∈ children (info_at m p);
  tree_child : forall k c, is_Some (m !! k) -> c ∈ children (info_at m k) ->
    k.1 < c.1 /\ is_Some (m !! c) /\ parent (info_at m c) = Some k;
  tree_sorted : forall k, is_Some (m !! k) -> os_sorted (children (info_at m k))
}.

(** Two maps with the same blocks, parents and children. *)
Definition same_shape (m m' : Infos) : Prop :=
  forall k, (is_Some (m' !! k) <-> is_Some (m !! k)) /\
    parent (info_at m' k) = parent (info_at m k) /\ children (info_at m' k) = children (info_at m k).

#[global] Instance same_shape_preorder : PreOrder same_shape.
Proof.
  split.
  - intros m k. done.
  - intros m1 m2 m3 H1 H2 k. destruct (H1 k) as (Ha & Hb & Hc), (H2 k) as (Ha' & Hb' & Hc').
    split_and!; [by rewrite Ha', Ha|congruence|congruence].
Qed.

Lemma tree_ok_shape m m' root : same_shape m m' -> tree_ok m root -> tree_ok m' root.
Proof.
  intros Hsh [Hr Hrp Hp Hc Hs]. split.
  - by apply Hsh.
  - by destruct (Hsh root) as (_ & -> & _).
  - intros k Hk%Hsh Hne. destruct (Hsh k) as (_ & -> & _). destruct (Hp k Hk Hne) as (p & Hpp & Hpin & Hkc).
    exists p. destruct (Hsh p) as (Hp1 & _ & ->). by rewrite Hp1.
  - intros k c Hk%Hsh. destruct (Hsh k) as (_ & _ & ->). intros Hin. destruct (Hc k c Hk Hin) as (Hlt & Hcin & Hcp).
    destruct (Hsh c) as (-> & -> & _). done.
  - intros k Hk%Hsh. destruct (Hsh k) as (_ & _ & ->). by apply Hs.
Qed.

Lemma same_shape_insert (m : Infos) k i :
  is_Some (m !! k) -> parent i = parent (info_at m k) -> children i = children (info_at m k) ->
  same_shape m (<[k := i]> m).
Proof.
  intros Hk Hp Hc k'. rewrite is_Some_insert, info_at_insert by done. split; [done|]. case_decide; [subst|]; done.
Qed.

Lemma tree_parent_unique m root k p : tree_ok m root -> is_Some (m !! k) -> parent (info_at m k) = Some p ->
  is_Some (m !! p) /\ k ∈ children (info_at m p) /\ p.1 < k.1.
Proof.
  intros Ht Hk Hp. assert (k <> root) as Hne.
  { intros ->. pose proof (tree_root_parent _ _ Ht). congruence. }
  destruct (tree_parent _ _ Ht k Hk Hne) as (p' & Hp' & Hin & Hc). assert (p' = p) as -> by congruence.
  destruct (tree_child _ _ Ht p k Hin Hc) as (Hlt & _). done.
Qed.

Lemma slots_bounded (m : Infos) : exists b, forall k, is_Some (m !! k) -> k.1 <= b.
Proof.
  induction m as [|k i m Hk [b Hb]] using map_ind.
  - exists 0. intros k. rewrite lookup_empty. by intros [? ?].
  - exists (Z.max b k.1). intros k' Hk'. destruct (decide (k' = k)) as [->|Hne]; [lia|].
    rewrite lookup_insert_ne in Hk' by done. specialize (Hb k' Hk'). lia.
Qed.

(** Induction from the leaves to the root. *)
Lemma tree_induction (m : Infos) root (P : SlotHashKey -> Prop) :
  tree_ok m root ->
  (forall k, is_Some (m !! k) -> (forall c, c ∈ children (info_at m k) -> P c) -> P k) ->
  forall k, is_Some (m !! k) -> P k.
Proof.
  intros Ht Hstep. destruct (slots_bounded m) as [b Hb].
  enough (forall n k, is_Some (m !! k) -> b - k.1 < Z.of_nat n -> P k) as Hn.
  { intros k Hk. apply (Hn (Z.to_nat (b - k.1 + 1)) k Hk). specialize (Hb k Hk). lia. }
  induction n as [|n IH]; intros k Hk Hlt; [specialize (Hb k Hk); lia|]. apply Hstep; [done|]. intros c Hc.
  destruct (tree_child _ _ Ht k c Hk Hc) as (Hkc & Hcin & _). apply IH; [done|lia].
Qed.

(** [x] is [a] or below it. *)
Inductive below (m : Infos) (a : SlotHashKey) : SlotHashKey -> Prop :=
| below_refl : below m a a
| below_step x c : below m a x -> c ∈ children (info_at m x) -> below m a c.

Lemma below_trans m a b x : below m a b -> below m b x -> below m a x.
Proof. intros Hab Hbx. induction Hbx; [done|]. by eapply below_step. Qed.

Lemma below_child m a c x : c ∈ children (info_at m a) -> below m c x -> below m a x.
Proof. intros Hc. apply below_trans. eapply below_step; [apply below_refl|done]. Qed.

Lemma below_in m root a x : tree_ok m root -> is_Some (m !! a) -> below m a x -> is_Some (m !! x) /\ (x = a \/ a.1 < x.1).
Proof.
  intros Ht Ha Hb. induction Hb as [|x c Hb [Hx IH] Hc]; [auto|].
  destruct (tree_child _ _ Ht x c Hx Hc) as (Hlt & Hcin & _). split; [done|right]. destruct IH as [->|]; lia.
Qed.

(** Two blocks with a block below both are below one another. *)
Lemma below_comparable m root a b x :
  tree_ok m root -> is_Some (m !! a) -> is_Some (m !! b) -> below m a x -> below m b x -> below m a b \/ below m b a.
Proof.
  intros Ht Ha Hb Hax. revert b Hb. induction Hax as [|x c Hax IH Hc]; intros b Hb Hbx; [by right|].
  destruct (below_in _ _ _ _ Ht Ha Hax) as [Hx _]. destruct (tree_child _ _ Ht x c Hx Hc) as (_ & Hcin & Hcp).
  inversion Hbx as [|x' c' Hbx' Hc' Heq]; subst; [left; by eapply below_step|].
  destruct (below_in _ _ _ _ Ht Hb Hbx') as [Hx' _]. destruct (tree_child _ _ Ht x' c Hx' Hc') as (_ & _ & Hcp').
  assert (x' = x) as -> by congruence. by apply IH.
Qed.

(** The subtrees of two children are disjoint. *)
Lemma below_disjoint m root a c c' x :
  tree_ok m root -> is_Some (m !! a) -> c ∈ children (info_at m a) -> c' ∈ children (info_at m a) ->
  below m c x -> below m c' x -> c = c'.
Proof.
  intros Ht Ha Hc Hc' Hx Hx'.
  destruct (tree_child _ _ Ht a c Ha Hc) as (Hlt & Hcin & Hcp), (tree_child _ _ Ht a c' Ha Hc') as (Hlt' & Hcin' & Hcp').
  assert (forall c c', is_Some (m !! c) -> is_Some (m !! c') -> a.1 < c.1 -> parent (info_at m c') = Some a ->
    below m c c' -> c = c') as Hone.
  { intros d d' Hd Hd' Hld Hdp Hb. inversion Hb as [|y z Hy Hz Heq]; subst; [done|].
    destruct (below_in _ _ _ _ Ht Hd Hy) as [Hyin Hylt]. destruct (tree_child _ _ Ht y d' Hyin Hz) as (_ & _ & Hyp).
    assert (y = a) as -> by congruence. destruct Hylt as [->|]; lia. }
  destruct (below_comparable _ _ c c' x Ht Hcin Hcin' Hx Hx') as [|]; [by apply Hone|symmetry; by apply Hone].
Qed.

Lemma below_shape m m' a x : same_shape m m' -> below m a x -> below m' a x.
Proof.
  intros Hsh Hb. induction Hb as [|x c Hb IH Hc]; [constructor|]. eapply below_step; [done|].
  by destruct (Hsh x) as (_ & _ & ->).
Qed.

(** ** Summaries *)

Definition weight (m : Infos) (k : SlotHashKey) : Z := stake_voted_subtree (info_at m k).
Definition candidate (m : Infos) (k : SlotHashKey) : Prop := latest_invalid_ancestor (info_at m k) = None.
Definition confirmed (m : Infos) (k : SlotHashKey) : Prop := is_duplicate_confirmed (info_at m k) = true.

(** The order in which children are preferred: more stake, then the earlier
    key; for the depth, the height comes first. *)
Definition heavier (m : Infos) (c c' : SlotHashKey) : Prop :=
  weight m c' < weight m c \/ (weight m c' = weight m c /\ klt c c').
Definition deeper (m : Infos) (c c' : SlotHashKey) : Prop :=
  height (info_at m c') < height (info_at m c) \/
  (height (info_at m c') = height (info_at m c) /\ heavier m c c').

(** [c] is the first of the keys that satisfy [P] in the order [R]. *)
Definition first_of (R : SlotHashKey -> SlotHashKey -> Prop) (P : SlotHashKey -> Prop) (l : list SlotHashKey)
    (c : SlotHashKey) : Prop :=
  c ∈ l /\ P c /\ forall c', c' ∈ l -> P c' -> c' = c \/ R c c'.

(** The deepest block below [k] and the height, by the children. *)
Definition deepest_ok (m : Infos) (k : SlotHashKey) : Prop :=
  (children (info_at m k) = [] /\ height (info_at m k) = 1 /\ deepest_slot (info_at m k) = k) \/
  exists c, first_of (deeper m) (fun _ => True) (children (info_at m k)) c /\
    height (info_at m k) = height (info_at m c) + 1 /\ deepest_slot (info_at m k) = deepest_slot (info_at m c).

(** The best block below a valid [k]: that of its heaviest valid child. *)
Definition best_ok (m : Infos) (k : SlotHashKey) : Prop :=
  ((forall c, c ∈ children (info_at m k) -> ~ candidate m c) /\ best_slot (info_at m k) = k) \/
  exists c, first_of (heavier m) (candidate m) (children (info_at m k)) c /\
    best_slot (info_at m k) = best_slot (info_at m c).

(** The best block of any block, valid or not, is itself or that of a child. *)
Definition best_within (m : Infos) (k : SlotHashKey) : Prop :=
  best_slot (info_at m k) = k \/ exists c, c ∈ children (info_at m k) /\ best_slot (info_at m k) = best_slot (info_at m c).

Record node_ok (m : Infos) (k : SlotHashKey) : Prop := {
  ok_stake : weight m k = wrap 64 (stake_voted_at (info_at m k) + Zsum (weight m) (children (info_at m k)));
  ok_confirmed : forall c, c ∈ children (info_at m k) -> confirmed m c -> confirmed m k;
  ok_deepest : deepest_ok m k;
  ok_best : candidate m k -> best_ok m k;
  ok_within : best_within m k
}.

(** What the parent reads of a block. *)
Definition summary (i : ForkInfo) : Z * Z * SlotHashKey * SlotHashKey * option Slot * bool :=
  (stake_voted_subtree i, height i, best_slot i, deepest_slot i, latest_invalid_ancestor i, is_duplicate_confirmed i).

(** The children of a block, read through two maps that agree on them. *)
Section SameChildren.
Context (m m' : Infos) (l : list SlotHashKey).
Context (Hsum : forall c, c ∈ l -> summary (info_at m' c) = summary (info_at m c)).

Lemma summary_fields c : c ∈ l ->
  weight m' c = weight m c /\ height (info_at m' c) = height (info_at m c) /\
  best_slot (info_at m' c) = best_slot (info_at m c) /\ deepest_slot (info_at m' c) = deepest_slot (info_at m c) /\
  (candidate m' c <-> candidate m c) /\ (confirmed m' c <-> confirmed m c).
Proof.
  intros Hin. specialize (Hsum c Hin). unfold summary in Hsum. injection Hsum as H1 H2 H3 H4 H5 H6.
  unfold weight, candidate, confirmed. by rewrite H1, H2, H3, H4, H5, H6.
Qed.

Lemma heavier_same c c' : c ∈ l -> c' ∈ l -> heavier m' c c' <-> heavier m c c'.
Proof.
  intros H1 H2. destruct (summary_fields c H1) as (Hw1 & _), (summary_fields c' H2) as (Hw2 & _).
  unfold heavier. by rewrite Hw1, Hw2.
Qed.

Lemma deeper_same c c' : c ∈ l -> c' ∈ l -> deeper m' c c' <-> deeper m c c'.
Proof.
  intros H1 H2. destruct (summary_fields c H1) as (_ & Hh1 & _), (summary_fields c' H2) as (_ & Hh2 & _).
  unfold deeper. by rewrite Hh1, Hh2, heavier_same.
Qed.

Lemma first_of_same (R R' : SlotHashKey -> SlotHashKey -> Prop) (P P' : SlotHashKey -> Prop) c :
  (forall c c', c ∈ l -> c' ∈ l -> R' c c' <-> R c c') -> (forall c, c ∈ l -> P' c <-> P c) ->
  first_of R P l c -> first_of R' P' l c.
Proof.
  clear Hsum. intros HR HP (Hin & Hc & Hall). split_and!; [done|by apply HP|]. intros c' Hin' Hc'.
  destruct (Hall c' Hin') as [|]; [by apply HP|by left|right; by apply HR].
Qed.
End SameChildren.

(** A block's summary depends on its own record and the summaries of its
    children only. *)
Lemma node_ok_change (m m' : Infos) k :
  children (info_at m' k) = children (info_at m k) -> height (info_at m' k) = height (info_at m k) ->
  best_slot (info_at m' k) = best_slot (info_at m k) -> deepest_slot (info_at m' k) = deepest_slot (info_at m k) ->
  (candidate m' k -> candidate m k) -> (confirmed m k -> confirmed m' k) ->
  (forall c, c ∈ children (info_at m k) -> summary (info_at m' c) = summary (info_at m c)) ->
  weight m' k = wrap 64 (stake_voted_at (info_at m' k) + Zsum (weight m) (children (info_at m k))) ->
  node_ok m k -> node_ok m' k.
Proof.
  intros Hch Hh Hb Hd Hcand Hconf Hsum Hw [_ Of Od Ob Oi]. unfold deepest_ok, best_ok, best_within in *.
  pose proof (summary_fields m m' _ Hsum) as Hsame. split; unfold deepest_ok, best_ok, best_within.
  - rewrite Hw, Hch. f_equal. f_equal. apply Zsum_ext. intros c Hin. symmetry. by apply Hsame.
  - rewrite Hch. intros c Hin Hcc. apply Hconf, (Of c Hin). by apply Hsame.
  - rewrite Hch, Hh, Hd. destruct Od as [Od|(c & Hf & Oh & Odd)]; [by left|]. right. exists c.
    pose proof Hf as (Hin & _). destruct (Hsame c Hin) as (_ & -> & _ & -> & _). split_and!; [|done|done].
    apply (first_of_same _ (deeper m) _ (fun _ => True)); [by apply deeper_same|done|done].
  - rewrite Hch, Hb. intros Hc%Hcand. destruct (Ob Hc) as [[Hno ->]|(c & Hf & ->)].
    + left. split; [|done]. intros c Hin Hcc. apply (Hno c Hin). by apply Hsame.
    + right. exists c. pose proof Hf as (Hin & _). destruct (Hsame c Hin) as (_ & _ & -> & _). split; [|done].
      apply (first_of_same _ (heavier m) _ (candidate m)); [by apply heavier_same|intros; by apply Hsame|done].
  - rewrite Hch, Hb. destruct Oi as [?|(c & Hin & Hbc)]; [by left|right]. exists c.
    destruct (Hsame c Hin) as (_ & _ & -> & _). done.
Qed.

Lemma node_ok_ext (m m' : Infos) k :
  info_at m' k = info_at m k ->
  (forall c, c ∈ children (info_at m k) -> summary (info_at m' c) = summary (info_at m c)) ->
  node_ok m k -> node_ok m' k.
Proof.
  intros Hk Hsum Hok. apply (node_ok_change m); [congruence..| | |done| |done].
  - unfold candidate. by rewrite Hk.
  - unfold confirmed. by rewrite Hk.
  - unfold weight at 1. rewrite Hk. apply Hok.
Qed.

(** ** Choosing among the children *)

Lemma heavier_trans m x y z : heavier m x y -> heavier m y z -> heavier m x z.
Proof. unfold heavier. intros [?|[? ?]] [?|[? ?]]; [left; lia..|right]. split; [lia|]. by eapply klt_trans. Qed.

Lemma heavier_total m x y : heavier m x y \/ x = y \/ heavier m y x.
Proof.
  unfold heavier. destruct (Z.lt_trichotomy (weight m x) (weight m y)) as [|[|]]; auto.
  destruct (klt_total x y) as [|[|]]; auto 10.
Qed.

Lemma deeper_trans m x y z : deeper m x y -> deeper m y z -> deeper m x z.
Proof. unfold deeper. intros [?|[? ?]] [?|[? ?]]; [left; lia..|right]. split; [lia|]. by eapply heavier_trans. Qed.

Lemma deeper_total m x y : deeper m x y \/ x = y \/ deeper m y x.
Proof.
  unfold deeper. destruct (Z.lt_trichotomy (height (info_at m x)) (height (info_at m y))) as [|[|]]; auto.
  destruct (heavier_total m x y) as [|[|]]; auto 10.
Qed.

Section FirstOf.
Context (R : SlotHashKey -> SlotHashKey -> Prop) (P : SlotHashKey -> Prop).
Context (Rtrans : forall x y z, R x y -> R y z -> R x z) (Rtotal : forall x y, R x y \/ x = y \/ R y x).

Lemma first_of_replace l c x : first_of R P l c -> P x -> R x c -> first_of R P (l ++ [x]) x.
Proof using Rtrans.
  clear Rtotal. intros (Hin & Hc & Hall) Hx HR. split_and!; [set_solver|done|].
  intros c' [Hc'|Hc']%elem_of_app HP; [|left; set_solver]. right. destruct (Hall c' Hc' HP) as [->|]; eauto.
Qed.

Lemma first_of_keep l c x : first_of R P l c -> ~ (P x /\ R x c) -> first_of R P (l ++ [x]) c.
Proof using Rtotal.
  clear Rtrans. intros (Hin & Hc & Hall) Hx. split_and!; [set_solver|done|].
  intros c' [Hc'|Hc']%elem_of_app HP; [auto|]. apply list_elem_of_singleton in Hc' as ->.
  destruct (Rtotal c x) as [|[|]]; auto. tauto.
Qed.

Lemma first_of_single l x : (forall c, c ∈ l -> ~ P c) -> P x -> first_of R P (l ++ [x]) x.
Proof using Type.
  clear Rtrans Rtotal. intros Hno Hx. split_and!; [set_solver|done|]. intros c' [Hc'|Hc']%elem_of_app HP; [by destruct (Hno c')|].
  left. set_solver.
Qed.

Lemma first_of_unique l c c' : (forall x, ~ R x x) -> first_of R P l c -> first_of R P l c' -> c = c'.
Proof using Rtrans.
  clear Rtotal. intros Hirr (Hin & Hc & Hall) (Hin' & Hc' & Hall').
  destruct (Hall c' Hin' Hc') as [|H1]; [done|]. destruct (Hall' c Hin Hc) as [|H2]; [done|].
  destruct (Hirr c). eauto.
Qed.
End FirstOf.

Lemma is_candidate_iff m k : is_candidate (info_at m k) = true <-> candidate m k.
Proof. unfold is_candidate, candidate. by destruct (latest_invalid_ancestor _). Qed.

(** The variables of the loop of [aggregate_slot] after the children [pre]. *)
Record totals_ok (m : Infos) (k : SlotHashKey) (at_ : Z) (pre : list SlotHashKey) (t : Totals) : Prop := {
  to_stake : t_stake t = wrap 64 (at_ + Zsum (weight m) pre);
  to_confirmed : t_confirmed t = true <-> exists c, c ∈ pre /\ confirmed m c;
  to_best : ((forall c, c ∈ pre -> ~ candidate m c) /\ t_best t = k /\ t_best_child t = k) \/
    exists c, c <> k /\ first_of (heavier m) (candidate m) pre c /\ t_best_child t = c /\
      t_best_child_stake t = weight m c /\ t_best t = best_slot (info_at m c);
  to_deepest : (pre = [] /\ t_deepest t = k /\ t_deepest_child t = k /\ t_deepest_child_height t = 0) \/
    exists c, c <> k /\ first_of (deeper m) (fun _ => True) pre c /\ t_deepest_child t = c /\
      t_deepest_child_stake t = weight m c /\ t_deepest_child_height t = height (info_at m c) /\
      t_deepest t = deepest_slot (info_at m c)
}.

Lemma compare_keys_lt k1 k2 : compare_keys k1 k2 = Lt <-> klt k1 k2.
Proof. unfold compare_keys. repeat case_decide; naive_solver. Qed.

(** Whether a child replaces the best child so far. *)
Lemma better_spec m k c c0 : c0 <> k ->
  is_candidate (info_at m c) &&
    (bool_decide (c0 = k) || (weight m c0 <? weight m c) || ((weight m c =? weight m c0) && bool_decide (klt c c0))) = true
  <-> candidate m c /\ heavier m c c0.
Proof.
  intros Hne. rewrite andb_true_iff, !orb_true_iff, andb_true_iff, is_candidate_iff, !bool_decide_eq_true, Z.ltb_lt, Z.eqb_eq.
  unfold heavier. naive_solver.
Qed.

(** Whether a child replaces the deepest child so far. *)
Lemma deepens_spec m k c c0 : c0 <> k ->
  match bool_decide (c0 = k), height (info_at m c) ?= height (info_at m c0), weight m c ?= weight m c0,
        compare_keys c c0 with
  | true, _, _, _ | _, Gt, _, _ | _, Eq, Gt, _ | _, Eq, Eq, Lt => true
  | _, _, _, _ => false
  end = true <-> deeper m c c0.
Proof.
  intros Hne. rewrite bool_decide_eq_false_2 by done. unfold deeper, heavier.
  destruct (Z.compare_spec (height (info_at m c)) (height (info_at m c0)));
    [|split; [done|lia]|split; [lia|done]].
  destruct (Z.compare_spec (weight m c) (weight m c0)); [|split; [done|lia]|split; [lia|done]].
  destruct (compare_keys c c0) eqn:E; (split; [|intros [?|[_ [?|[_ Hk]]]]; [lia|lia|apply compare_keys_lt in Hk; congruence]]);
    try done. intros _. apply compare_keys_lt in E. auto.
Qed.

Lemma best_step m k pre c best best_child best_child_stake :
  c <> k ->
  ((forall c, c ∈ pre -> ~ candidate m c) /\ best = k /\ best_child = k) \/
    (exists c, c <> k /\ first_of (heavier m) (candidate m) pre c /\ best_child = c /\
      best_child_stake = weight m c /\ best = best_slot (info_at m c)) ->
  let '(best', best_child', best_child_stake') :=
    if is_candidate (info_at m c) &&
       (bool_decide (best_child = k) || (best_child_stake <? weight m c) ||
        ((weight m c =? best_child_stake) && bool_decide (klt c best_child)))
    then (best_slot (info_at m c), c, weight m c) else (best, best_child, best_child_stake) in
  ((forall c', c' ∈ pre ++ [c] -> ~ candidate m c') /\ best' = k /\ best_child' = k) \/
    exists c', c' <> k /\ first_of (heavier m) (candidate m) (pre ++ [c]) c' /\ best_child' = c' /\
      best_child_stake' = weight m c' /\ best' = best_slot (info_at m c').
Proof.
  intros Hne [(Hno & -> & ->)|(c0 & Hc0 & Hfirst & -> & -> & ->)].
  - rewrite bool_decide_eq_true_2 by done. simpl. rewrite andb_true_r. destruct (is_candidate (info_at m c)) eqn:E.
    + apply is_candidate_iff in E. right. exists c. split_and!; try done. by apply first_of_single.
    + left. split_and!; try done. intros c' [Hc'|Hc']%elem_of_app; [by apply Hno|].
      apply list_elem_of_singleton in Hc' as ->. rewrite <- is_candidate_iff, E. done.
  - destruct (_ && _) eqn:E; right.
    + apply (better_spec m k c c0 Hc0) in E as [Hcand Hheavy]. exists c. split_and!; try done.
      eapply first_of_replace; [apply heavier_trans|done|done|done].
    + exists c0. split_and!; try done. apply first_of_keep; [apply heavier_total|done|].
      rewrite <- (better_spec m k c c0 Hc0). by rewrite E.
Qed.

Lemma deepest_step m k pre c deepest deepest_child deepest_child_stake deepest_child_height :
  c <> k ->
  (pre = [] /\ deepest = k /\ deepest_child = k /\ deepest_child_height = 0) \/
    (exists c, c <> k /\ first_of (deeper m) (fun _ => True) pre c /\ deepest_child = c /\
      deepest_child_stake = weight m c /\ deepest_child_height = height (info_at m c) /\
      deepest = deepest_slot (info_at m c)) ->
  let '(deepest', deepest_child', deepest_child_stake', deepest_child_height') :=
    if match bool_decide (deepest_child = k), height (info_at m c) ?= deepest_child_height,
             weight m c ?= deepest_child_stake, compare_keys c deepest_child with
       | true, _, _, _ | _, Gt, _, _ | _, Eq, Gt, _ | _, Eq, Eq, Lt => true
       | _, _, _, _ => false
       end
    then (deepest_slot (info_at m c), c, weight m c, height (info_at m c))
    else (deepest, deepest_child, deepest_child_stake, deepest_child_height) in
  (pre ++ [c] = [] /\ deepest' = k /\ deepest_child' = k /\ deepest_child_height' = 0) \/
    (exists c', c' <> k /\ first_of (deeper m) (fun _ => True) (pre ++ [c]) c' /\ deepest_child' = c' /\
      deepest_child_stake' = weight m c' /\ deepest_child_height' = height (info_at m c') /\
      deepest' = deepest_slot (info_at m c')).
Proof.
  intros Hne [(-> & -> & -> & ->)|(c0 & Hc0 & Hfirst & -> & -> & -> & ->)].
  - rewrite bool_decide_eq_true_2 by done. right. exists c. split_and!; try done. apply first_of_single; [set_solver|done].
  - match goal with |- context [if ?b then (deepest_slot _, _, _, _) else _] => destruct b eqn:E end; right.
    + apply (deepens_spec m k c c0 Hc0) in E. exists c. split_and!; try done.
      eapply first_of_replace; [apply deeper_trans|done|done|done].
    + exists c0. split_and!; try done. apply first_of_keep; [apply deeper_total|done|].
      rewrite <- (deepens_spec m k c c0 Hc0). rewrite E. naive_solver.
Qed.

Lemma aggregate_child_ok m k at_ pre t c :
  totals_ok m k at_ pre t -> is_Some (m !! c) -> c <> k ->
  exists t', aggregate_child m k t c = Some t' /\ totals_ok m k at_ (pre ++ [c]) t'.
Proof.
  intros [Hs Hcf Hb Hd] Hc Hne. unfold aggregate_child. rewrite (lookup_info_at m c Hc). cbn [mbind option_bind].
  fold (weight m c). pose proof (best_step m k pre c _ _ _ Hne Hb) as Hb'.
  pose proof (deepest_step m k pre c _ _ _ _ Hne Hd) as Hd'.
  match type of Hb' with context [if ?b then ?x else ?y] => destruct (if b then x else y) as [[b1 bc] bcs] end.
  match type of Hd' with context [if ?b then ?x else ?y] => destruct (if b then x else y) as [[[d dc] dcs] dch] end.
  eexists. split; [done|]. split; cbn; [|..|done|done].
  - rewrite Hs, wadd_wrap, Zsum_app by lia. f_equal. cbn. lia.
  - rewrite orb_true_iff, Hcf. fold (confirmed m c). split.
    + intros [(c' & Hin & Hc')|Hcc]; [exists c'|exists c]; set_solver.
    + intros (c' & [Hin|Hin]%elem_of_app & Hc'); [left; eauto|right]. by apply list_elem_of_singleton in Hin as ->.
Qed.

(** Aggregating a block makes its summary right. *)
Lemma aggregate_slot_ok m root k :
  tree_ok m root -> is_Some (m !! k) -> in_word 64 (stake_voted_at (info_at m k)) ->
  exists t, aggregate_slot k m = Some (<[k := with_totals t (info_at m k)]> m) /\
    totals_ok m k (stake_voted_at (info_at m k)) (children (info_at m k)) t.
Proof.
  intros Ht Hk Hw. unfold aggregate_slot. rewrite (lookup_info_at m k Hk).
  destruct (foldM_inv (aggregate_child m k) (totals_ok m k (stake_voted_at (info_at m k)))
    (children (info_at m k)) [] (totals_start k (stake_voted_at (info_at m k)))) as (t & Hf & Hok).
  - split; cbn; [|split; [done|set_solver]|left; set_solver|by left].
    rewrite Z.add_0_r. symmetry. apply wrap_small. unfold in_word, word_max in Hw. lia.
  - intros pre c t Ht1 Hin. destruct (tree_child _ _ Ht k c Hk Hin) as (Hlt & Hc & _).
    apply aggregate_child_ok; [done|done|]. intros ->. lia.
  - exists t. rewrite Hf. done.
Qed.

Lemma with_totals_fields t i :
  stake_voted_at (with_totals t i) = stake_voted_at i /\ parent (with_totals t i) = parent i /\
  children (with_totals t i) = children i /\
  is_duplicate_confirmed (with_totals t i) = (t_confirmed t || is_duplicate_confirmed i) /\
  latest_invalid_ancestor (with_totals t i) = if t_confirmed t then None else latest_invalid_ancestor i.
Proof. unfold with_totals. by destruct (t_confirmed t). Qed.

Lemma with_totals_ok m root k t :
  tree_ok m root -> is_Some (m !! k) -> totals_ok m k (stake_voted_at (info_at m k)) (children (info_at m k)) t ->
  node_ok (<[k := with_totals t (info_at m k)]> m) k.
Proof.
  intros Ht Hk [Hs Hcf Hb Hd]. set (m' := <[k := _]> m).
  assert (info_at m' k = with_totals t (info_at m k)) as Hnew by (unfold m'; by rewrite info_at_insert, decide_True).
  assert (children (info_at m' k) = children (info_at m k)) as Hch by (rewrite Hnew; apply with_totals_fields).
  assert (forall c, c ∈ children (info_at m k) -> summary (info_at m' c) = summary (info_at m c)) as Hsum.
  { intros c Hin. destruct (tree_child _ _ Ht k c Hk Hin) as (Hlt & _). unfold m'. rewrite info_at_insert, decide_False; [done|].
    intros ->. lia. }
  pose proof (summary_fields m m' _ Hsum) as Hsame. split; unfold deepest_ok, best_ok, best_within.
  - unfold weight at 1. rewrite Hch, Hnew. cbn. rewrite Hs. f_equal. f_equal.
    + symmetry. apply with_totals_fields.
    + apply Zsum_ext. intros c Hin. symmetry. by apply Hsame.
  - rewrite Hch. intros c Hin Hcc. unfold confirmed. rewrite Hnew.
    assert (t_confirmed t = true) as Htc by (apply Hcf; exists c; split; [done|by apply Hsame]).
    destruct (with_totals_fields t (info_at m k)) as (_ & _ & _ & -> & _). by rewrite Htc.
  - rewrite Hch, Hnew. cbn. destruct Hd as [(-> & -> & _ & ->)|(c & _ & Hf & _ & _ & -> & ->)]; [by left|]. right.
    exists c. pose proof Hf as (Hin & _). destruct (Hsame c Hin) as (_ & -> & _ & -> & _). split_and!; [|done|done].
    apply (first_of_same _ (deeper m) _ (fun _ => True)); [by apply deeper_same|done|done].
  - intros _. rewrite Hch, Hnew. cbn. destruct Hb as [(Hno & -> & _)|(c & _ & Hf & _ & _ & ->)].
    + left. split; [|done]. intros c Hin Hcc. apply (Hno c Hin). by apply Hsame.
    + right. exists c. pose proof Hf as (Hin & _). destruct (Hsame c Hin) as (_ & _ & -> & _). split; [|done].
      apply (first_of_same _ (heavier m) _ (candidate m)); [by apply heavier_same|intros; by apply Hsame|done].
  - rewrite Hch, Hnew. cbn. destruct Hb as [(_ & -> & _)|(c & _ & (Hin & _) & _ & _ & ->)]; [by left|right].
    exists c. destruct (Hsame c Hin) as (_ & _ & -> & _). done.
Qed.

(** ** Batches *)

Abbreviation Entry := ((SlotHashKey * UpdateLabel) * UpdateOperation)%type.

Definition op_label (o : UpdateOperation) : UpdateLabel :=
  match o with
  | Add _ => LAdd
  | MarkValid slot => LMarkValid slot
  | MarkInvalid slot => LMarkInvalid slot
  | Subtract _ => LSubtract
  | Aggregate => LAggregate
  end.

Definition is_mark (o : UpdateOperation) : Prop :=
  match o with MarkValid _ | MarkInvalid _ => True | _ => False end.

#[global] Instance is_mark_dec o : Decision (is_mark o).
Proof. destruct o; cbn; apply _. Defined.

Definition pending (ops : list Entry) (k : SlotHashKey) : Prop := ((k, LAggregate), Aggregate) ∈ ops.

(** A batch in the order of processing: a block whose summary changes is followed
    by its parent. *)
Record batch_ok (m : Infos) (ops : list Entry) : Prop := {
  batch_sorted : StronglySorted (fun o1 o2 => klt o2.1 o1.1) ops;
  batch_label : forall o, o ∈ ops -> o.1.2 = op_label o.2;
  batch_parent : forall o p, o ∈ ops -> is_Some (m !! o.1.1) -> parent (info_at m o.1.1) = Some p -> pending ops p;
  batch_mark : forall o, o ∈ ops -> is_Some (m !! o.1.1) -> is_mark o.2 -> pending ops o.1.1
}.

(** The stake an entry adds to a block. *)
Definition contribution (k : SlotHashKey) (o : Entry) : Z :=
  if decide (o.1.1 = k) then match o.2 with Add s => s | Subtract s => - s | _ => 0 end else 0.

(** What an entry does to the latest invalid ancestor of a block. *)
Definition mark_effect (k : SlotHashKey) (o : Entry) (l : option Slot) : option Slot :=
  if decide (o.1.1 = k) then
    match o.2 with
    | MarkValid s => match l with Some i => if i <=? s then None else l | None => None end
    | MarkInvalid s => match l with Some i => if i <? s then Some s else l | None => Some s end
    | _ => l
    end
  else l.

Definition confirms (k : SlotHashKey) (o : Entry) : Prop := o.1.1 = k /\ o.2 = MarkValid k.1.

Definition child_confirmed (m : Infos) (k : SlotHashKey) : Prop :=
  exists c, c ∈ children (info_at m k) /\ confirmed m c.

(** The effect of one entry. *)
Record stepped (m : Infos) (o : Entry) (m' : Infos) : Prop := {
  st_shape : same_shape m m';
  st_others : forall k, k <> o.1.1 -> info_at m' k = info_at m k;
  st_stake : forall k, is_Some (m !! k) ->
    stake_voted_at (info_at m' k) = wrap 64 (stake_voted_at (info_at m k) + contribution k o);
  st_confirmed : forall k, is_Some (m !! k) -> confirmed m' k <->
    confirmed m k \/ confirms k o \/ (o = ((k, LAggregate), Aggregate) /\ child_confirmed m k);
  st_latest : forall k, is_Some (m !! k) ->
    (latest_invalid_ancestor (info_at m' k) = mark_effect k o (latest_invalid_ancestor (info_at m k)) /\
     ~ (o = ((k, LAggregate), Aggregate) /\ child_confirmed m k)) \/
    (latest_invalid_ancestor (info_at m' k) = None /\ o = ((k, LAggregate), Aggregate) /\ child_confirmed m k);
  st_node : is_Some (m !! o.1.1) -> o.2 = Aggregate -> node_ok m' o.1.1;
  st_kept : ~ is_mark o.2 -> node_ok m o.1.1 -> node_ok m' o.1.1
}.

Lemma contribution_ne k o : k <> o.1.1 -> contribution k o = 0.
Proof. intros Hne. unfold contribution. by rewrite decide_False. Qed.

Lemma mark_effect_ne k o l : k <> o.1.1 -> mark_effect k o l = l.
Proof. intros Hne. unfold mark_effect. by rewrite decide_False. Qed.

Section Step.
Context (m : Infos) (root : SlotHashKey) (k : SlotHashKey) (op : UpdateOperation).
Context (Htree : tree_ok m root) (Hwords : forall k, is_Some (m !! k) -> in_word 64 (stake_voted_at (info_at m k))).
#[local] Abbreviation o := ((k, op_label op), op).

Lemma stake_same k' : is_Some (m !! k') -> stake_voted_at (info_at m k') = wrap 64 (stake_voted_at (info_at m k') + 0).
Proof. intros Hk%Hwords. rewrite Z.add_0_r, wrap_small; [done|]. unfold in_word, word_max in Hk. lia. Qed.

Lemma stepped_missing : ~ is_Some (m !! k) -> stepped m o m.
Proof.
  intros Hk. assert (forall k', is_Some (m !! k') -> k' <> k) as Hne by (intros k' Hk' ->; done). split.
  - reflexivity.
  - done.
  - intros k' Hk'. rewrite contribution_ne by (simpl; by apply Hne). by apply stake_same.
  - intros k' Hk'. split; [by left|]. intros [?|[[Heq _]|[Heq _]]]; [done|..]; destruct (Hne k' Hk'); simpl in *; congruence.
  - intros k' Hk'. left. rewrite mark_effect_ne by (simpl; by apply Hne). split; [done|].
    intros [Heq _]. destruct (Hne k' Hk'). simpl in *. congruence.
  - done.
  - done.
Qed.

Lemma stepped_insert i :
  is_Some (m !! k) -> parent i = parent (info_at m k) -> children i = children (info_at m k) ->
  stake_voted_at i = wrap 64 (stake_voted_at (info_at m k) + contribution k o) ->
  (is_duplicate_confirmed i = true <-> confirmed m k \/ confirms k o \/
     (op = Aggregate /\ child_confirmed m k)) ->
  (latest_invalid_ancestor i = mark_effect k o (latest_invalid_ancestor (info_at m k)) /\
     ~ (op = Aggregate /\ child_confirmed m k)) \/
    (latest_invalid_ancestor i = None /\ op = Aggregate /\ child_confirmed m k) ->
  (op = Aggregate -> node_ok (<[k := i]> m) k) ->
  (~ is_mark op -> node_ok m k -> node_ok (<[k := i]> m) k) ->
  stepped m o (<[k := i]> m).
Proof.
  intros Hk Hp Hc Hst Hcf Hl Hn Hkept.
  assert (forall k', k' <> k -> info_at (<[k := i]> m) k' = info_at m k') as Hother.
  { intros k' Hne. by rewrite info_at_insert, decide_False. }
  assert (info_at (<[k := i]> m) k = i) as Hself by (by rewrite info_at_insert, decide_True).
  split.
  - by apply same_shape_insert.
  - done.
  - intros k' Hk'. destruct (decide (k' = k)) as [->|Hne]; [by rewrite Hself|].
    rewrite Hother, contribution_ne by done. by apply stake_same.
  - intros k' Hk'. unfold confirmed. destruct (decide (k' = k)) as [->|Hne].
    + rewrite Hself, Hcf. fold (confirmed m k). split; (intros [?|[?|[Ho ?]]]; [by left|by right; left|right; right]).
      * by subst op.
      * split; [|done]. by injection Ho.
    + rewrite Hother by done. split; [by left|]. intros [?|[[Heq _]|[Heq _]]]; [done|..]; simpl in *; congruence.
  - intros k' Hk'. destruct (decide (k' = k)) as [->|Hne].
    + rewrite Hself. destruct Hl as [[Hl1 Hl2]|(Hl1 & -> & Hl2)]; [left|by right]. split; [done|].
      intros [Heq ?]. apply Hl2. split; [by injection Heq|done].
    + left. rewrite Hother, mark_effect_ne by done. split; [done|]. intros [Heq _]. congruence.
  - done.
  - done.
Qed.

Lemma alter_missing (f : ForkInfo -> ForkInfo) : m !! k = None -> alter f k m = m.
Proof.
  intros Hk. apply map_eq. intros k'. destruct (decide (k' = k)) as [->|]; [|by rewrite lookup_alter_ne].
  by rewrite lookup_alter_eq, Hk.
Qed.

Lemma alter_present (f : ForkInfo -> ForkInfo) : is_Some (m !! k) -> alter f k m = <[k := f (info_at m k)]> m.
Proof.
  intros Hk. apply map_eq. intros k'. destruct (decide (k' = k)) as [->|].
  - by rewrite lookup_alter_eq, lookup_insert_eq, (lookup_info_at m k Hk).
  - by rewrite lookup_alter_ne, lookup_insert_ne.
Qed.

(** Adding or subtracting stake keeps a right summary right. *)
Lemma with_stakes_ok d :
  is_Some (m !! k) -> node_ok m k ->
  node_ok (<[k := with_stakes (wrap 64 (stake_voted_at (info_at m k) + d))
                    (wrap 64 (weight m k + d)) (info_at m k)]> m) k.
Proof.
  intros Hk Hok. set (i := with_stakes _ _ _). set (m' := <[k := i]> m).
  assert (info_at m' k = i) as Hself by (unfold m'; by rewrite info_at_insert, decide_True).
  apply (node_ok_change m); [by rewrite Hself..| | | | |done].
  - unfold candidate. by rewrite Hself.
  - unfold confirmed. by rewrite Hself.
  - intros c Hin. destruct (tree_child _ _ Htree k c Hk Hin) as (Hlt & _). unfold m'.
    rewrite info_at_insert, decide_False; [done|]. intros ->. lia.
  - unfold weight at 1. rewrite Hself. cbn. rewrite (ok_stake _ _ Hok). unfold wrap.
    rewrite !Z.add_mod_idemp_l by done. f_equal. lia.
Qed.

End Step.

Section Process.
Context (m : Infos) (root : SlotHashKey) (k : SlotHashKey).
Context (Htree : tree_ok m root) (Hwords : forall k, is_Some (m !! k) -> in_word 64 (stake_voted_at (info_at m k))).
Context (Hk : is_Some (m !! k)).

(** The validity of a block that an entry does not concern. *)
Lemma validity_same op : ~ is_mark op -> op <> Aggregate ->
  (confirmed m k <-> confirmed m k \/ confirms k ((k, op_label op), op) \/
     (op = Aggregate /\ child_confirmed m k)) /\
  mark_effect k ((k, op_label op), op) (latest_invalid_ancestor (info_at m k)) = latest_invalid_ancestor (info_at m k).
Proof.
  intros Hm Ha. split.
  - split; [by left|]. intros [?|[[_ Hc]|[Hc _]]]; [done| |done]. simpl in Hc. by subst op.
  - unfold mark_effect. cbn. rewrite decide_True by done. by destruct op.
Qed.

Lemma stake_step op d :
  ~ is_mark op -> op <> Aggregate -> contribution k ((k, op_label op), op) = d ->
  stepped m ((k, op_label op), op)
    (<[k := with_stakes (wrap 64 (stake_voted_at (info_at m k) + d)) (wrap 64 (weight m k + d)) (info_at m k)]> m).
Proof.
  intros Hm Ha Hd. destruct (validity_same op Hm Ha) as [Hc Hl].
  apply stepped_insert; try done.
  - by rewrite Hd.
  - rewrite Hl. left. split; [done|]. intros [? _]. done.
  - intros _ Hok. by eapply with_stakes_ok.
Qed.

Lemma mark_valid_step s : stepped m ((k, LMarkValid s), MarkValid s) (mark_fork_valid k s m).
Proof.
  unfold mark_fork_valid. rewrite (lookup_info_at m k Hk).
  set (i := update_with_newly_valid_ancestor s (info_at m k)).
  assert (parent i = parent (info_at m k) /\ children i = children (info_at m k) /\
    stake_voted_at i = stake_voted_at (info_at m k) /\ is_duplicate_confirmed i = is_duplicate_confirmed (info_at m k) /\
    latest_invalid_ancestor i = mark_effect k ((k, LMarkValid s), MarkValid s) (latest_invalid_ancestor (info_at m k)))
    as (Hp & Hch & Hst & Hc & Hl).
  { subst i. unfold update_with_newly_valid_ancestor, mark_effect. cbn. rewrite decide_True by done.
    destruct (latest_invalid_ancestor (info_at m k)) as [l|] eqn:E; [|done]. destruct (l <=? s); cbn; by rewrite ?E. }
  assert (contribution k ((k, LMarkValid s), MarkValid s) = 0) as Hcon by (unfold contribution; by case_decide).
  match goal with |- stepped _ _ (<[_ := ?x]> _) => set (i' := x) end.
  assert (parent i' = parent i /\ children i' = children i /\ stake_voted_at i' = stake_voted_at i /\
    latest_invalid_ancestor i' = latest_invalid_ancestor i) as (Hp' & Hch' & Hst' & Hl')
    by (subst i'; by destruct (k.1 =? s)).
  apply (stepped_insert m k (MarkValid s)); try done.
  - congruence.
  - congruence.
  - change (op_label (MarkValid s)) with (LMarkValid s). rewrite Hcon, Hst', Hst. by apply stake_same.
  - unfold confirmed, confirms. subst i'. destruct (Z.eqb_spec k.1 s) as [<-|Hne]; cbn [is_duplicate_confirmed with_validity].
    + split; [|done]. intros _. right. by left.
    + rewrite Hc. split; [by left|]. intros [?|[[_ Heq]|[Heq _]]]; [done| |done]. simpl in Heq. congruence.
  - left. rewrite Hl', Hl. split; [done|]. intros [? _]. done.
Qed.

Lemma mark_invalid_step s : ~ confirmed m k ->
  exists m', mark_fork_invalid k s m = Some m' /\ stepped m ((k, LMarkInvalid s), MarkInvalid s) m'.
Proof.
  intros Hno. unfold mark_fork_invalid. rewrite (lookup_info_at m k Hk). unfold update_with_newly_invalid_ancestor.
  unfold confirmed in Hno. apply not_true_is_false in Hno as Hnc. rewrite Hnc. cbn [mbind option_bind].
  eexists. split; [done|].
  assert (contribution k ((k, LMarkInvalid s), MarkInvalid s) = 0) as Hcon by (unfold contribution; by case_decide).
  match goal with |- stepped _ _ (<[_ := ?x]> _) => set (i := x) end.
  assert (parent i = parent (info_at m k) /\ children i = children (info_at m k) /\
    stake_voted_at i = stake_voted_at (info_at m k) /\ is_duplicate_confirmed i = is_duplicate_confirmed (info_at m k) /\
    latest_invalid_ancestor i = mark_effect k ((k, LMarkInvalid s), MarkInvalid s) (latest_invalid_ancestor (info_at m k)))
    as (Hp & Hch & Hst & Hc & Hl).
  { subst i. unfold mark_effect. cbn. rewrite decide_True by done.
    destruct (latest_invalid_ancestor (info_at m k)) as [l|] eqn:E; [destruct (l <? s)|]; cbn; by rewrite ?E. }
  apply (stepped_insert m k (MarkInvalid s)); try done.
  - change (op_label (MarkInvalid s)) with (LMarkInvalid s). rewrite Hcon, Hst. by apply stake_same.
  - rewrite Hc. unfold confirmed. split; [by left|]. intros [?|[[_ Heq]|[Heq _]]]; done.
  - left. split; [done|]. intros [? _]. done.
Qed.

Lemma aggregate_step : exists m', aggregate_slot k m = Some m' /\ stepped m ((k, LAggregate), Aggregate) m'.
Proof.
  destruct (aggregate_slot_ok m root k) as (t & Hrun & Ht); [done|done|by apply Hwords|].
  eexists. split; [done|]. destruct (with_totals_fields t (info_at m k)) as (Hst & Hp & Hch & Hc & Hl).
  apply (stepped_insert m k Aggregate); try done.
  - rewrite Hst. unfold contribution. cbn [fst snd]. case_decide; by apply stake_same.
  - rewrite Hc, orb_true_iff, (to_confirmed _ _ _ _ _ Ht). fold (confirmed m k). split.
    + intros [?|?]; [right; right; done|by left].
    + intros [?|[[_ ?]|[_ ?]]]; [by right|done|by left].
  - rewrite Hl. unfold mark_effect. cbn [fst snd]. rewrite decide_True by done.
    pose proof (to_confirmed _ _ _ _ _ Ht) as Htc. destruct (t_confirmed t).
    + right. split_and!; [done|done|by apply Htc].
    + left. split; [done|]. intros [_ Hcc]. apply Htc in Hcc. done.
  - intros _. by eapply with_totals_ok.
  - intros _ _. by eapply with_totals_ok.
Qed.
End Process.

(** Processing one entry. *)
Lemma process_operation_ok m root o :
  tree_ok m root -> (forall k, is_Some (m !! k) -> in_word 64 (stake_voted_at (info_at m k))) ->
  o.1.2 = op_label o.2 ->
  (forall s, o.2 = MarkInvalid s -> is_Some (m !! o.1.1) -> ~ confirmed m o.1.1) ->
  exists m', process_operation m o = Some m' /\ stepped m o m'.
Proof.
  destruct o as [[k lab] op]. cbn. intros Ht Hw -> Hinv. unfold process_operation. cbn [fst snd].
  destruct (decide (is_Some (m !! k))) as [Hk|Hk].
  - destruct op as [s|s|s|s|].
    + eexists. split; [done|]. unfold add_slot_stake. rewrite alter_present by done.
      apply (stake_step m root k Ht Hw Hk (Add s) s); [auto|done|]. unfold contribution. cbn. by rewrite decide_True.
    + eexists. split; [done|]. by apply mark_valid_step.
    + eapply mark_invalid_step; eauto.
    + eexists. split; [done|]. unfold subtract_slot_stake. rewrite alter_present by done.
      apply (stake_step m root k Ht Hw Hk (Subtract s) (- s)); [auto|done|]. unfold contribution. cbn. by rewrite decide_True.
    + by eapply aggregate_step.
  - exists m. split; [|by apply stepped_missing]. apply eq_None_not_Some in Hk.
    destruct op; unfold add_slot_stake, subtract_slot_stake, mark_fork_valid, mark_fork_invalid, aggregate_slot;
      rewrite ?Hk; try done; f_equal; by apply alter_missing.
Qed.

(** ** Processing a batch *)

(** A confirmed block is valid, and invalid ancestors come before the block. *)
Definition marks_ok (m : Infos) : Prop :=
  forall k, is_Some (m !! k) ->
    (confirmed m k -> latest_invalid_ancestor (info_at m k) = None) /\
    (forall s, latest_invalid_ancestor (info_at m k) = Some s -> s <= k.1).

(** The parent of a confirmed block is confirmed. *)
Definition confirmed_up (m : Infos) : Prop :=
  forall k c, is_Some (m !! k) -> c ∈ children (info_at m k) -> confirmed m c -> confirmed m k.

(** A batch either declares no block invalid, or only unconfirmed ones while it
    confirms none. *)
Definition verdicts_ok (m : Infos) (ops : list Entry) : Prop :=
  (forall o s, o ∈ ops -> o.2 <> MarkInvalid s) \/
  (confirmed_up m /\ (forall o s, o ∈ ops -> o.2 <> MarkValid s) /\
   forall o s, o ∈ ops -> o.2 = MarkInvalid s -> s <= o.1.1.1 /\ (is_Some (m !! o.1.1) -> ~ confirmed m o.1.1)).

Record processed (m : Infos) (ops : list Entry) (m' : Infos) : Prop := {
  pr_shape : same_shape m m';
  pr_stake : forall k, is_Some (m !! k) ->
    stake_voted_at (info_at m' k) = wrap 64 (stake_voted_at (info_at m k) + Zsum (contribution k) ops);
  pr_mono : forall k, is_Some (m !! k) -> confirmed m k -> confirmed m' k;
  pr_confirmed : forall k, is_Some (m !! k) -> confirmed m' k ->
    confirmed m k \/ (exists o, o ∈ ops /\ confirms k o) \/ (exists c, c ∈ children (info_at m k) /\ confirmed m' c);
  pr_confirms : forall k o, is_Some (m !! k) -> o ∈ ops -> confirms k o -> confirmed m' k;
  pr_latest : forall k, is_Some (m !! k) -> ~ confirmed m' k ->
    latest_invalid_ancestor (info_at m' k) =
    foldl (fun l o => mark_effect k o l) (latest_invalid_ancestor (info_at m k)) ops
}.

Lemma confirmed_same m m' o :
  stepped m o m' -> confirmed_up m -> (forall s, o.2 <> MarkValid s) ->
  forall k, is_Some (m !! k) -> confirmed m' k <-> confirmed m k.
Proof.
  intros Hst Hup Hno k Hk. rewrite (st_confirmed _ _ _ Hst k Hk). split; [|by left].
  intros [?|[[_ Ho]|[_ (c & Hc & Hcc)]]]; [done|by destruct (Hno k.1)|by eapply Hup].
Qed.

Lemma stepped_words m o m' : stepped m o m' ->
  forall k, is_Some (m' !! k) -> in_word 64 (stake_voted_at (info_at m' k)).
Proof.
  intros Hst k Hk%(st_shape _ _ _ Hst). rewrite (st_stake _ _ _ Hst k Hk). apply wrap_in_word. lia.
Qed.

Lemma stepped_marks m o m' :
  stepped m o m' -> marks_ok m ->
  (forall s, o.2 = MarkInvalid s -> s <= o.1.1.1 /\ (is_Some (m !! o.1.1) -> ~ confirmed m o.1.1)) ->
  marks_ok m'.
Proof.
  intros Hst Hm Hinv k Hk%(st_shape _ _ _ Hst). destruct (Hm k Hk) as [H1 H2].
  destruct (st_latest _ _ _ Hst k Hk) as [[Hl Hno]|(Hl & _)]; [|by rewrite Hl]. rewrite Hl. unfold mark_effect.
  destruct (decide (o.1.1 = k)) as [Heq|Hne].
  - split.
    + intros [Hc|[[_ Hc]|Hc]]%(st_confirmed _ _ _ Hst k Hk); [rewrite (H1 Hc)|rewrite Hc|done].
      * destruct (o.2) eqn:Eo; try done. destruct (Hinv slot eq_refl) as [_ Hn]. rewrite Heq in Hn. by destruct (Hn Hk).
      * destruct (latest_invalid_ancestor (info_at m k)) as [s|] eqn:El; [|done].
        rewrite (proj2 (Z.leb_le _ _)); [done|]. by apply H2.
    + intros s. destruct (o.2) as [|v|v| |] eqn:Eo; try apply H2.
      * destruct (latest_invalid_ancestor (info_at m k)) as [l|]; [|done]. destruct (l <=? v); [done|]. intros [= ->]. by apply H2.
      * destruct (Hinv v eq_refl) as [Hv _]. rewrite Heq in Hv.
        destruct (latest_invalid_ancestor (info_at m k)) as [l|]; [destruct (l <? v)|]; intros [= <-]; [done|by apply H2|done].
  - split; [|apply H2]. intros Hc. apply H1. unfold confirmed in *. by rewrite (st_others _ _ _ Hst) in Hc.
Qed.

Lemma verdict_head m o ops :
  verdicts_ok m (o :: ops) ->
  forall s, o.2 = MarkInvalid s -> s <= o.1.1.1 /\ (is_Some (m !! o.1.1) -> ~ confirmed m o.1.1).
Proof.
  intros [Hno|(_ & _ & Hinv)] s Ho; [by destruct (Hno o s ltac:(left))|]. apply (Hinv o s); [left|done].
Qed.

Lemma verdicts_step m o ops m' : verdicts_ok m (o :: ops) -> stepped m o m' -> verdicts_ok m' ops.
Proof.
  intros [Hno|(Hup & Hnv & Hinv)] Hst; [left; intros; apply Hno; by right|]. right.
  assert (forall k, is_Some (m !! k) -> confirmed m' k <-> confirmed m k) as Hsame.
  { eapply confirmed_same; [done|done|]. intros s. apply Hnv. left. }
  split_and!.
  - intros k c Hk%(st_shape _ _ _ Hst) Hc Hcc. destruct (st_shape _ _ _ Hst k) as (_ & _ & Hch). rewrite Hch in Hc.
    destruct (decide (is_Some (m !! c))) as [Hcin|Hcout].
    + apply Hsame; [done|]. apply (Hup k c Hk Hc). by apply Hsame.
    + destruct (decide (c = o.1.1)) as [->|Hne].
      * exfalso. apply Hcout. unfold confirmed, info_at in Hcc. destruct (m' !! o.1.1) eqn:E; [|done].
        apply (st_shape _ _ _ Hst). by rewrite E.
      * unfold confirmed in Hcc |- *. rewrite (st_others _ _ _ Hst c Hne) in Hcc. apply Hsame; [done|]. by eapply Hup.
  - intros o' s Ho'. apply Hnv. by right.
  - intros o' s Ho' Hs. destruct (Hinv o' s) as [H1 H2]; [by right|done|]. split; [done|].
    intros Hk%(st_shape _ _ _ Hst). rewrite Hsame by done. by apply H2.
Qed.

(** The entries left after the first keep the order of the batch. *)
Lemma batch_tail m root o ops m' :
  tree_ok m root -> batch_ok m (o :: ops) -> stepped m o m' -> batch_ok m' ops.
Proof.
  intros Ht [Hs Hlab Hpar Hmark] Hst. apply StronglySorted_inv in Hs as [Hs Ho]. rewrite Forall_forall in Ho.
  assert (forall k, pending (o :: ops) k -> (exists o', o' ∈ ops /\ (k.1 < o'.1.1.1 \/ o'.1.1 = k)) -> pending ops k) as Hrest.
  { intros k [Heq|?]%elem_of_cons (o' & Ho' & Hk); [|done]. exfalso. specialize (Ho o' Ho'). rewrite <- Heq in Ho.
    destruct o' as [[k' l'] op']. cbn in *. destruct Ho as [[Hlt|[H1 H2]]|[-> Hl]].
    - destruct Hk as [?| ->]; lia.
    - destruct Hk as [?| ->]; lia.
    - destruct l'; cbn in Hl; lia. }
  split; [done|intros; apply Hlab; by right| |].
  - intros o' p Ho' Hk%(st_shape _ _ _ Hst) Hp. destruct (st_shape _ _ _ Hst o'.1.1) as (_ & Hpp & _). rewrite Hpp in Hp.
    apply Hrest; [eapply Hpar; [by right|done|done]|]. exists o'. split; [done|]. left.
    by apply (tree_parent_unique _ _ _ _ Ht Hk Hp).
  - intros o' Ho' Hk%(st_shape _ _ _ Hst) Hm. apply Hrest; [apply Hmark; [by right|done|done]|]. exists o'. auto.
Qed.

(** A block whose summary was right is right after an entry, or its turn is yet
    to come. *)
Lemma nodes_step m root o ops m' :
  tree_ok m root -> batch_ok m (o :: ops) -> stepped m o m' ->
  (forall k, is_Some (m !! k) -> node_ok m k \/ pending (o :: ops) k) ->
  forall k, is_Some (m' !! k) -> node_ok m' k \/ pending ops k.
Proof.
  intros Ht Hb Hst Hnodes k Hk%(st_shape _ _ _ Hst).
  destruct (decide (o = ((k, LAggregate), Aggregate))) as [->|Hne].
  { left. by apply (st_node _ _ _ Hst). }
  destruct (Hnodes k Hk) as [Hok|[Heq|Hp]%elem_of_cons]; [|congruence|by right].
  destruct (decide (o.1.1 = k)) as [Heq|Hother].
  - destruct (decide (is_mark o.2)) as [Hm|Hm].
    + right. assert (pending (o :: ops) k) as [Hp|Hp]%elem_of_cons; [|congruence|done].
      rewrite <- Heq. apply (batch_mark _ _ Hb o); [left|by rewrite Heq|done].
    + left. rewrite <- Heq. apply (st_kept _ _ _ Hst); [done|by rewrite Heq].
  - destruct (decide (o.1.1 ∈ children (info_at m k))) as [Hin|Hout].
    + right. destruct (tree_child _ _ Ht k _ Hk Hin) as (Hlt & Hc & Hcp).
      assert (pending (o :: ops) k) as [Hp|Hp]%elem_of_cons; [|congruence|done].
      eapply (batch_parent _ _ Hb o); [left|done|done].
    + left. eapply node_ok_ext; [|..|exact Hok]; [by apply (st_others _ _ _ Hst); congruence|].
      intros c Hc. rewrite (st_others _ _ _ Hst); [done|]. congruence.
Qed.

Lemma mark_effect_step m o m' k : stepped m o m' -> is_Some (m !! k) -> ~ confirmed m' k ->
  latest_invalid_ancestor (info_at m' k) = mark_effect k o (latest_invalid_ancestor (info_at m k)).
Proof.
  intros Hst Hk Hno. destruct (st_latest _ _ _ Hst k Hk) as [[? _]|(_ & Ho & Hc)]; [done|].
  destruct Hno. apply (st_confirmed _ _ _ Hst k Hk). auto.
Qed.

Lemma confirmed_in (m : Infos) k : confirmed m k -> is_Some (m !! k).
Proof. unfold confirmed, info_at. destruct (m !! k); [done|]. done. Qed.

Lemma processed_cons m o m1 ops m2 : stepped m o m1 -> processed m1 ops m2 -> processed m (o :: ops) m2.
Proof.
  intros Hst Hpr.
  assert (forall k, is_Some (m !! k) -> is_Some (m1 !! k)) as Hin by (intros k; apply (st_shape _ _ _ Hst)).
  assert (forall k, confirmed m k -> confirmed m1 k) as Hmono1.
  { intros k Hc. apply (st_confirmed _ _ _ Hst); [by apply confirmed_in|by left]. }
  assert (forall k, confirmed m1 k -> confirmed m2 k) as Hmono2.
  { intros k Hc. apply (pr_mono _ _ _ Hpr); [by apply confirmed_in|done]. }
  split.
  - etrans; [apply (st_shape _ _ _ Hst)|apply (pr_shape _ _ _ Hpr)].
  - intros k Hk. rewrite (pr_stake _ _ _ Hpr) by auto. rewrite (st_stake _ _ _ Hst) by auto.
    rewrite Zsum_cons. unfold wrap. rewrite Z.add_mod_idemp_l by done. f_equal. lia.
  - auto.
  - intros k Hk Hc. destruct (pr_confirmed _ _ _ Hpr k (Hin k Hk) Hc) as [Hc1|[(o' & Ho' & Hco)|(c & Hcc & Hc1)]].
    + apply (st_confirmed _ _ _ Hst k Hk) in Hc1 as [?|[?|[_ (c & Hcin & Hcc)]]]; [by left| |].
      * right. left. exists o. split; [left|done].
      * right. right. exists c. auto.
    + right. left. exists o'. split; [by right|done].
    + right. right. exists c. destruct (st_shape _ _ _ Hst k) as (_ & _ & <-). done.
  - intros k o' Hk [->|Ho']%elem_of_cons Hco.
    + apply Hmono2, (st_confirmed _ _ _ Hst k Hk). auto.
    + eapply (pr_confirms _ _ _ Hpr); eauto.
  - intros k Hk Hno. rewrite (pr_latest _ _ _ Hpr k) by auto. cbn [foldl]. f_equal.
    apply mark_effect_step; [done|done|]. auto.
Qed.

(** Processing a batch restores every summary. *)
Lemma process_batch ops : forall m root,
  tree_ok m root -> (forall k, is_Some (m !! k) -> in_word 64 (stake_voted_at (info_at m k))) ->
  marks_ok m -> verdicts_ok m ops -> batch_ok m ops ->
  (forall k, is_Some (m !! k) -> node_ok m k \/ pending ops k) ->
  exists m', foldM process_operation m ops = Some m' /\ processed m ops m' /\ marks_ok m' /\
    forall k, is_Some (m' !! k) -> node_ok m' k.
Proof.
  induction ops as [|o ops IH]; intros m root Ht Hw Hm Hv Hb Hnodes.
  - exists m. split_and!; [done| |done|].
    + split; try done; [intros k Hk; by apply stake_same|intros; by left|set_solver].
    + intros k Hk. destruct (Hnodes k Hk) as [|Hp]; [done|]. by apply elem_of_nil in Hp.
  - destruct (process_operation_ok m root o) as (m1 & Hrun & Hst); [done|done| | |].
    { apply (batch_label _ _ Hb). left. } { intros s Hs. by apply (verdict_head _ _ _ Hv s). }
    destruct (IH m1 root) as (m2 & Hrun2 & Hpr & Hm2 & Hok).
    { eapply tree_ok_shape; [apply (st_shape _ _ _ Hst)|done]. }
    { by eapply stepped_words. } { eapply stepped_marks; [done|done|by eapply verdict_head]. }
    { by eapply verdicts_step. } { by eapply batch_tail. } { by eapply nodes_step. }
    exists m2. cbn [foldM]. rewrite Hrun. cbn [mbind option_bind]. split_and!; [done| |done|done].
    by eapply processed_cons.
Qed.

End Tree.
