(* ===== verification/ForkUpdate.v ===== *)
(** * Batches of updates of the fork choice

    How the batches are made: the aggregations a change needs up to the root,
    the stakes votes move, and the marks a verdict spreads over a subtree. *)

From S2P Require Import Prelude OrdMap ForkChoice ForkTree.
Import Fork Tree.

Module Update.

(** ** Ancestors *)

(** [l] are the ancestors of [k] up to the root, nearest first. *)
Fixpoint is_chain (m : Infos) (k : SlotHashKey) (l : list SlotHashKey) : Prop :=
  match l with
  | [] => parent (info_at m k) = None
  | p :: l => parent (info_at m k) = Some p /\ is_chain m p l
  end.

Lemma ancestors_missing (fuel : nat) (m : Infos) k : m !! k = None -> ancestors fuel m k = [].
Proof. intros Hk. destruct fuel; [done|]. cbn. by rewrite Hk. Qed.

Lemma ancestors_cons (fuel : nat) (m : Infos) k : is_Some (m !! k) ->
  ancestors (S fuel) m k = match parent (info_at m k) with None => [] | Some p => p :: ancestors fuel m p end.
Proof. intros Hk. cbn. by rewrite (lookup_info_at m k Hk). Qed.

Lemma ancestors_below (fuel : nat) (m : Infos) root : tree_ok m root -> forall k a, is_Some (m !! k) -> a ∈ ancestors fuel m k ->
  a.1 < k.1 /\ is_Some (m !! a).
Proof.
  intros Ht. induction fuel as [|fuel IH]; intros k a Hk Ha; [by apply elem_of_nil in Ha|].
  rewrite ancestors_cons in Ha by done. destruct (parent (info_at m k)) as [p|] eqn:Hp; [|by apply elem_of_nil in Ha].
  destruct (tree_parent_unique _ _ _ _ Ht Hk Hp) as (Hpin & _ & Hlt).
  apply elem_of_cons in Ha as [->|Ha]; [done|]. destruct (IH p a Hpin Ha). split; [lia|done].
Qed.

Lemma ancestors_NoDup (fuel : nat) (m : Infos) root : tree_ok m root -> forall k, is_Some (m !! k) -> NoDup (k :: ancestors fuel m k).
Proof.
  intros Ht. induction fuel as [|fuel IH]; intros k Hk; [apply NoDup_singleton|]. apply NoDup_cons. split.
  - intros Hin. destruct (ancestors_below _ _ _ Ht k k Hk Hin). lia.
  - rewrite ancestors_cons by done. destruct (parent (info_at m k)) as [p|] eqn:Hp; [|constructor].
    destruct (tree_parent_unique _ _ _ _ Ht Hk Hp) as (Hpin & _). by apply IH.
Qed.

Lemma chain_or_exhausted (fuel : nat) (m : Infos) root : tree_ok m root -> forall k, is_Some (m !! k) ->
  is_chain m k (ancestors fuel m k) \/ length (ancestors fuel m k) = fuel.
Proof.
  intros Ht. induction fuel as [|fuel IH]; intros k Hk; [by right|]. rewrite ancestors_cons by done.
  destruct (parent (info_at m k)) as [p|] eqn:Hp; [|by left].
  destruct (tree_parent_unique _ _ _ _ Ht Hk Hp) as (Hpin & _). destruct (IH p Hpin) as [Hc|Hl]; [left|right].
  - by split.
  - simpl. by rewrite Hl.
Qed.

Lemma keys_bound (m : Infos) l : NoDup l -> (forall k, k ∈ l -> is_Some (m !! k)) -> (length l <= size m)%nat.
Proof.
  intros Hnd Hin. rewrite <- (size_list_to_set (C := gset SlotHashKey)) by done. rewrite <- size_dom.
  apply subseteq_size. intros k Hk%elem_of_list_to_set. apply elem_of_dom. by apply Hin.
Qed.

(** The iterator reaches the root. *)
Lemma ancestors_chain m root k : tree_ok m root -> is_Some (m !! k) -> is_chain m k (ancestors (size m) m k).
Proof.
  intros Ht Hk. destruct (chain_or_exhausted (size m) m root Ht k Hk) as [|Hl]; [done|]. exfalso.
  pose proof (keys_bound m _ (ancestors_NoDup (size m) m root Ht k Hk)) as Hb. simpl in Hb. rewrite Hl in Hb.
  enough (S (size m) <= size m)%nat by lia. apply Hb. intros a [->|Ha]%elem_of_cons; [done|].
  by eapply (ancestors_below _ _ _ Ht k).
Qed.

(** A block is below its ancestors and itself only. *)
Lemma below_chain m root a l : tree_ok m root -> is_Some (m !! a) -> forall x,
  is_Some (m !! x) -> is_chain m x l -> below m a x <-> a ∈ x :: l.
Proof.
  intros Ht Ha. induction l as [|p l IH]; intros x Hx Hc.
  - rewrite list_elem_of_singleton. split; [|intros ->; constructor]. intros Hb.
    inversion Hb as [|y c Hy Hcy Heq]; subst; [done|]. destruct (below_in _ _ _ _ Ht Ha Hy) as [Hyin _].
    destruct (tree_child _ _ Ht y x Hyin Hcy) as (_ & _ & Hp). cbn in Hc. congruence.
  - destruct Hc as [Hp Hc]. destruct (tree_parent_unique _ _ _ _ Ht Hx Hp) as (Hpin & Hxp & _).
    rewrite elem_of_cons, <- (IH p Hpin Hc). split.
    + intros Hb. inversion Hb as [|y c Hy Hcy Heq]; subst; [by left|right]. destruct (below_in _ _ _ _ Ht Ha Hy) as [Hyin _].
      destruct (tree_child _ _ Ht y x Hyin Hcy) as (_ & _ & Hp'). by assert (y = p) as -> by congruence.
    + intros [->|Hb]; [constructor|by eapply below_step].
Qed.

Lemma below_or_not m root a x : tree_ok m root -> is_Some (m !! a) -> is_Some (m !! x) -> below m a x \/ ~ below m a x.
Proof.
  intros Ht Ha Hx. rewrite (below_chain m root a _ Ht Ha x Hx (ancestors_chain m root x Ht Hx)).
  destruct (decide (a ∈ x :: ancestors (size m) m x)); auto.
Qed.

(** ** Aggregations up to the root *)

Record ops_ok (ops : UpdateOperations) : Prop := {
  ops_sorted : om_sorted ops;
  ops_label : forall o, o ∈ ops -> o.1.2 = op_label o.2
}.

(** The parents of the blocks an entry names are aggregated; those of [k] may be
    missing. *)
Definition closed_but (m : Infos) (k : option SlotHashKey) (ops : UpdateOperations) : Prop :=
  forall o p, o ∈ ops -> is_Some (m !! o.1.1) -> parent (info_at m o.1.1) = Some p -> Some o.1.1 <> k -> pending ops p.

Lemma om_insert_elem (ops : UpdateOperations) key op e :
  om_sorted ops -> e ∈ om_insert key op ops <-> e = (key, op) \/ (e ∈ ops /\ e.1 <> key).
Proof.
  intros Hs. destruct e as [key' op']. rewrite <- (om_lookup_in key' op' _ (om_insert_sorted key op ops Hs)).
  rewrite om_lookup_insert by done. rewrite <- (om_lookup_in key' op' ops Hs). simpl. case_decide; naive_solver.
Qed.

Lemma ops_ok_insert ops k op : ops_ok ops -> ops_ok (om_insert (k, op_label op) op ops).
Proof.
  intros [Hs Hl]. split; [by apply om_insert_sorted|]. intros o. rewrite om_insert_elem by done.
  intros [->|[Ho _]]; [done|by apply Hl].
Qed.

Lemma pending_iff ops k : ops_ok ops -> pending ops k <-> is_Some (om_lookup (k, LAggregate) ops).
Proof.
  intros [Hs Hl]. unfold pending. rewrite <- (om_lookup_in _ _ _ Hs). split; [by intros ->|]. intros [op Hop].
  rewrite Hop. apply (om_lookup_in _ _ _ Hs), Hl in Hop. simpl in Hop. by destruct op.
Qed.

(** Inserting an aggregation that is not there yet. *)
Lemma insert_aggregate ops k :
  ops_ok ops -> om_lookup (k, LAggregate) ops = None ->
  forall e, e ∈ om_insert (k, LAggregate) Aggregate ops <-> e = ((k, LAggregate), Aggregate) \/ e ∈ ops.
Proof.
  intros Hok Hnone e. rewrite om_insert_elem by apply Hok. split; [naive_solver|].
  intros [?|He]; [by left|right]. split; [done|]. intros Heq. destruct e as [key op]. simpl in Heq. subst key.
  apply (om_lookup_in _ _ _ (ops_sorted _ Hok)) in He. congruence.
Qed.

Lemma chain_below m root l : tree_ok m root -> forall k a, is_Some (m !! k) -> is_chain m k l -> a ∈ l ->
  a.1 < k.1 /\ is_Some (m !! a).
Proof.
  intros Ht. induction l as [|p l IH]; intros k a Hk Hc Ha; [by apply elem_of_nil in Ha|]. destruct Hc as [Hp Hc].
  destruct (tree_parent_unique _ _ _ _ Ht Hk Hp) as (Hpin & _ & Hlt).
  apply elem_of_cons in Ha as [->|Ha]; [done|]. destruct (IH p a Hpin Hc Ha). split; [lia|done].
Qed.

Lemma chain_pending m root k0 ops l : tree_ok m root -> closed_but m (Some k0) ops -> forall k,
  is_Some (m !! k) -> is_chain m k l -> k.1 < k0.1 -> pending ops k -> forall a, a ∈ l -> pending ops a.
Proof.
  intros Ht Hcl. induction l as [|p l IH]; intros k Hk Hc Hlt Hpend a Ha; [by apply elem_of_nil in Ha|].
  destruct Hc as [Hp Hc]. destruct (tree_parent_unique _ _ _ _ Ht Hk Hp) as (Hpin & _ & Hplt).
  assert (pending ops p) as Hpp.
  { eapply (Hcl ((k, LAggregate), Aggregate)); [done|done|done|]. simpl. intros [= ->]. lia. }
  apply elem_of_cons in Ha as [->|Ha]; [done|]. eapply (IH p); [done|done|lia|done|done].
Qed.

Record extended (m : Infos) (ops ops' : UpdateOperations) (l : list SlotHashKey) : Prop := {
  ext_ok : ops_ok ops';
  ext_closed : closed_but m None ops';
  ext_pending : forall a, a ∈ l -> pending ops' a;
  ext_old : forall e, e ∈ ops -> e ∈ ops';
  ext_new : forall e, e ∈ ops' -> e ∈ ops \/ exists a, a ∈ l /\ e = ((a, LAggregate), Aggregate);
  ext_sum : forall k, Zsum (contribution k) ops' = Zsum (contribution k) ops
}.

Lemma contribution_aggregate k a : contribution k ((a, LAggregate), Aggregate) = 0.
Proof. unfold contribution. by case_decide. Qed.

Lemma insert_across_spec m root l : tree_ok m root -> forall ops k,
  ops_ok ops -> closed_but m (Some k) ops -> is_Some (m !! k) -> is_chain m k l ->
  extended m ops (insert_across ops None l) l.
Proof.
  intros Ht. induction l as [|p l IH]; intros ops k Hok Hcl Hk Hc; cbn [insert_across].
  - split; [done| |by intros a ?%elem_of_nil|done|by left|done].
    intros o q Ho Ho1 Hq _. apply (Hcl o q Ho Ho1 Hq). intros [= Heq]. cbn in Hc. congruence.
  - destruct Hc as [Hp Hc]. destruct (tree_parent_unique _ _ _ _ Ht Hk Hp) as (Hpin & _ & Hlt).
    unfold do_insert_aggregate_operation. destruct (om_lookup (p, LAggregate) ops) as [op|] eqn:E.
    + assert (pending ops p) as Hpp by (apply pending_iff; [done|by rewrite E]).
      split; [done| | |done|by left|done].
      * intros o q Ho Ho1 Hq _. destruct (decide (o.1.1 = k)) as [Heq|Hne]; [|apply (Hcl o q); naive_solver].
        rewrite Heq in Hq. congruence.
      * intros a [->|Ha]%elem_of_cons; [done|]. by eapply (chain_pending m root k ops l Ht Hcl p).
    + pose proof (insert_aggregate ops p Hok E) as Hin. set (ops1 := om_insert _ _ ops) in *.
      destruct (IH ops1 p) as [Hok' Hcl' Hpend Hold Hnew Hsum].
      * by apply (ops_ok_insert ops p Aggregate).
      * intros o q [->|Ho]%Hin Ho1 Hq Hne; [done|]. apply Hin.
        destruct (decide (o.1.1 = k)) as [Heq|Hnk]; [left; congruence|]. right. apply (Hcl o q); naive_solver.
      * done.
      * done.
      * split; [done|done| | | |].
        -- intros a [->|Ha]%elem_of_cons; [|by apply Hpend]. apply Hold, Hin. by left.
        -- intros e He. apply Hold, Hin. by right.
        -- intros e He. apply Hnew in He as [[->|He]%Hin|(a & Ha & ->)]; [|by left|].
           ++ right. exists p. split; [left|done].
           ++ right. exists a. split; [by right|done].
        -- intros k'. rewrite Hsum. unfold ops1. rewrite (Zsum_perm _ _ _ (om_insert_new _ Aggregate ops E)), Zsum_cons.
           by rewrite contribution_aggregate.
Qed.

(** The whole insertion, for a block of the tree or not. *)
Section Aggregations.
Context {Pubkey : Type} `{Countable Pubkey}.
#[local] Abbreviation FC := (HeaviestSubtreeForkChoice (Pubkey := Pubkey)).

Lemma insert_aggregate_operations_spec (self : FC) root ops k :
  tree_ok (fork_infos self) root -> ops_ok ops -> closed_but (fork_infos self) (Some k) ops ->
  exists l, extended (fork_infos self) ops (insert_aggregate_operations self ops k) l /\
    (is_Some (fork_infos self !! k) -> is_chain (fork_infos self) k l).
Proof.
  intros Ht Hok Hcl. unfold insert_aggregate_operations, do_insert_aggregate_operations_across_ancestors, ancestor_iterator.
  destruct (decide (is_Some (fork_infos self !! k))) as [Hk|Hk].
  - exists (ancestors (size (fork_infos self)) (fork_infos self) k). split; [|intros; by eapply ancestors_chain].
    eapply insert_across_spec; [done..|by eapply ancestors_chain].
  - exists []. split; [|done]. apply eq_None_not_Some in Hk as Hnone. rewrite ancestors_missing by done.
    split; [done| |by intros a ?%elem_of_nil|done|by left|done].
    intros o q Ho Ho1 Hq _. apply (Hcl o q Ho Ho1 Hq). intros [= Heq]. by rewrite Heq in Ho1.
Qed.
End Aggregations.

(** ** From a batch to its processing *)

Lemma batch_of_ops m ops :
  ops_ok ops -> closed_but m None ops -> (forall o, o ∈ ops -> is_Some (m !! o.1.1) -> is_mark o.2 -> pending ops o.1.1) ->
  batch_ok m (reverse ops).
Proof.
  intros [Hs Hl] Hcl Hm. unfold pending in *.
  assert (forall o, o ∈ reverse ops <-> o ∈ ops) as Hrev by (intros o; apply elem_of_reverse).
  split.
  - clear -Hs. unfold om_sorted in Hs. induction Hs as [|o ops Hs IH Ho]; [constructor|]. rewrite reverse_cons.
    apply StronglySorted_snoc; [done|]. intros o' Ho'. rewrite elem_of_reverse in Ho'. rewrite Forall_forall in Ho. exact (Ho o' Ho').
  - intros o Ho%Hrev. by apply Hl.
  - intros o p Ho%Hrev Hk Hp. apply Hrev. by apply (Hcl o p).
  - intros o Ho%Hrev Hk Ho2. apply Hrev. by apply Hm.
Qed.

(** ** Marks *)

Definition mark_of (mark : UpdateOperation) : Prop := exists s, mark = MarkValid s \/ mark = MarkInvalid s.

Lemma do_insert_mark ops mark k : ops_ok ops -> mark_of mark ->
  om_lookup (k, LAggregate) ops = None -> (forall o, o ∈ ops -> o.1.1 <> k) ->
  ops_ok (do_insert_aggregate_operation ops (Some mark) k).2 /\
  forall e, e ∈ (do_insert_aggregate_operation ops (Some mark) k).2 <->
    e ∈ ops \/ e = ((k, op_label mark), mark) \/ e = ((k, LAggregate), Aggregate).
Proof.
  intros Hok Hm Hnone Hfresh. unfold do_insert_aggregate_operation. rewrite Hnone. cbn [snd].
  assert (match mark with
          | MarkValid slot => om_insert (k, LMarkValid slot) (MarkValid slot) ops
          | MarkInvalid slot => om_insert (k, LMarkInvalid slot) (MarkInvalid slot) ops
          | _ => ops end = om_insert (k, op_label mark) mark ops) as -> by (destruct Hm as [s [-> | ->]]; done).
  assert (ops_ok (om_insert (k, op_label mark) mark ops)) as Hok1 by by apply ops_ok_insert.
  split; [by apply (ops_ok_insert _ k Aggregate)|]. intros e. rewrite !om_insert_elem by (apply Hok1 || apply Hok).
  assert (op_label mark <> LAggregate) as Hlab by (destruct Hm as [s [-> | ->]]; done). split; [tauto|].
  intros [He|[->| ->]]; [|right; split; [by left|]; cbn; congruence|by left].
  right. split; [right; split; [done|]|]; intros Heq; apply (Hfresh e He); by rewrite Heq.
Qed.

(** The marks of a subtree. *)
Lemma insert_marks_spec mark : mark_of mark -> forall keys ops,
  ops_ok ops -> NoDup keys -> (forall o, o ∈ ops -> o.1.1 ∉ keys) ->
  ops_ok (insert_marks ops mark keys) /\
  forall e, e ∈ insert_marks ops mark keys <->
    e ∈ ops \/ exists k, k ∈ keys /\ (e = ((k, op_label mark), mark) \/ e = ((k, LAggregate), Aggregate)).
Proof.
  intros Hm. induction keys as [|k keys IH]; intros ops Hok Hnd Hfresh.
  - split; [done|]. intros e. split; [by left|]. intros [?|(k & Hk & _)]; [done|]. by apply elem_of_nil in Hk.
  - apply NoDup_cons in Hnd as [Hk Hnd].
    destruct (do_insert_mark ops mark k Hok Hm) as [Hok1 Hin1].
    { destruct (om_lookup (k, LAggregate) ops) as [op|] eqn:E; [|done].
      apply (om_lookup_in _ _ _ (ops_sorted _ Hok)) in E. destruct (Hfresh _ E). by left. }
    { intros o Ho Heq. destruct (Hfresh o Ho). rewrite Heq. by left. }
    destruct (IH _ Hok1 Hnd) as [Hok2 Hin2].
    { intros o [Ho|[->| ->]]%Hin1; cbn; [|done|done]. intros Hin. destruct (Hfresh o Ho). by right. }
    unfold insert_marks in *. cbn [fold_left]. split; [done|]. intros e. rewrite Hin2, Hin1. split.
    + intros [[?|He]|(k' & Hk' & He)]; [by left|right; exists k|right; exists k']; (split; [|done]); [by left|by right].
    + intros [?|(k' & [->|Hk']%elem_of_cons & He)]; [by left; left|left; by right|right; eauto].
Qed.

Section MarkBatch.
Context {Pubkey : Type} `{Countable Pubkey} (self : HeaviestSubtreeForkChoice (Pubkey := Pubkey)) (root : SlotHashKey).
Context (Ht : tree_ok (fork_infos self) root) (key : SlotHashKey) (mark : UpdateOperation) (Hm : mark_of mark).
Context (Hkey : is_Some (fork_infos self !! key)) (subtree : list SlotHashKey) (Hnd : NoDup subtree).
Context (Hsub : forall x, x ∈ subtree <-> below (fork_infos self) key x).

(** The batch that marks a subtree. *)
Definition mark_batch : UpdateOperations := insert_aggregate_operations self (insert_marks [] mark subtree) key.

Lemma mark_batch_spec :
  batch_ok (fork_infos self) (reverse mark_batch) /\
  (forall e, e ∈ mark_batch -> e.2 = Aggregate \/ (below (fork_infos self) key e.1.1 /\ e = ((e.1.1, op_label mark), mark))) /\
  (forall x, below (fork_infos self) key x -> ((x, op_label mark), mark) ∈ mark_batch).
Proof.
  destruct (insert_marks_spec mark Hm subtree []) as [Hok Hin].
  { split; [constructor|by intros o ?%elem_of_nil]. } { done. } { by intros o ?%elem_of_nil. }
  assert (forall e, e ∈ insert_marks [] mark subtree <-> exists k, below (fork_infos self) key k /\
    (e = ((k, op_label mark), mark) \/ e = ((k, LAggregate), Aggregate))) as Hin'.
  { intros e. rewrite Hin. setoid_rewrite Hsub. split; [intros [?%elem_of_nil|?]; done|by right]. }
  assert (forall k, below (fork_infos self) key k -> pending (insert_marks [] mark subtree) k) as Hpend.
  { intros k Hk. apply Hin'. eauto. }
  destruct (insert_aggregate_operations_spec self root (insert_marks [] mark subtree) key Ht Hok) as (l & Hext & Hl).
  { intros o p (k & Hk & Ho)%Hin' Hoin Hp Hne. assert (o.1.1 = k) as Hok1 by (by destruct Ho as [-> | ->]).
    rewrite Hok1 in *. apply Hpend. inversion Hk as [|y c Hy Hc Heq]; [congruence|]. subst.
    destruct (below_in _ _ _ _ Ht Hkey Hy) as [Hyin _].
    destruct (tree_child _ _ Ht y _ Hyin Hc) as (_ & _ & Hcp). assert (y = p) as -> by congruence. done. }
  fold mark_batch in Hext. destruct Hext as [Hok' Hcl _ Hold Hnew _]. split_and!.
  - apply batch_of_ops; [done|done|]. intros o Ho Hoin Hmk. apply Hnew in Ho as [(k & Hk & Ho)%Hin'|(a & _ & ->)]; [|done].
    apply Hold, Hpend. by destruct Ho as [-> | ->].
  - intros e [(k & Hk & [-> | ->])%Hin'|(a & _ & ->)]%Hnew; [by right|by left|by left].
  - intros x Hx. apply Hold, Hin'. eauto.
Qed.

(** What it does to the latest invalid ancestors. *)
Lemma mark_batch_effect (f : option Slot -> option Slot) k l :
  (forall k l, mark_effect k ((k, op_label mark), mark) l = f l) -> (forall l, f (f l) = f l) ->
  (below (fork_infos self) key k -> foldl (fun l o => mark_effect k o l) l (reverse mark_batch) = f l) /\
  (~ below (fork_infos self) key k -> foldl (fun l o => mark_effect k o l) l (reverse mark_batch) = l).
Proof.
  intros Hf Hidem. destruct mark_batch_spec as (_ & Hshape & Hall).
  assert (forall o, o ∈ reverse mark_batch -> (forall l, mark_effect k o l = l) \/
    (below (fork_infos self) key k /\ forall l, mark_effect k o l = f l)) as Hcase.
  { intros o Ho. rewrite elem_of_reverse in Ho. destruct (decide (o.1.1 = k)) as [Heq|Hne].
    - destruct (Hshape o Ho) as [Ha|[Hb Ho']].
      + left. intros l0. unfold mark_effect. rewrite decide_True by done. by rewrite Ha.
      + right. rewrite Heq in *. split; [done|]. intros l0. by rewrite Ho'.
    - left. intros l0. unfold mark_effect. by rewrite decide_False. }
  split.
  - intros Hb. assert (((k, op_label mark), mark) ∈ reverse mark_batch) as Hin by (rewrite elem_of_reverse; by apply Hall).
    assert (forall ops l, (forall o, o ∈ ops -> o ∈ reverse mark_batch) ->
      foldl (fun l o => mark_effect k o l) (f l) ops = f l) as Hrest.
    { induction ops as [|o ops IH]; intros l0 Hsubs; [done|]. cbn.
      destruct (Hcase o (Hsubs o ltac:(left))) as [->|[_ ->]]; rewrite ?Hidem; apply IH; intros; apply Hsubs; by right. }
    apply list_elem_of_split in Hin as (l1 & l2 & Heq). rewrite Heq, foldl_app. cbn. rewrite Hf.
    assert (forall ops l, (forall o, o ∈ ops -> o ∈ reverse mark_batch) ->
      f (foldl (fun l o => mark_effect k o l) l ops) = f l) as Hpre.
    { induction ops as [|o ops IH]; intros l0 Hsubs; [done|]. cbn. rewrite IH by (intros; apply Hsubs; by right).
      destruct (Hcase o (Hsubs o ltac:(left))) as [->|[_ ->]]; by rewrite ?Hidem. }
    rewrite Hpre by (intros; rewrite Heq; set_solver). apply Hrest. intros; rewrite Heq; set_solver.
  - intros Hno. revert l Hcase. generalize (reverse mark_batch). induction l as [|o ops IH]; intros l0 Hcase; [done|]. cbn.
    destruct (Hcase o ltac:(left)) as [->|[? _]]; [|done]. apply IH. intros; apply Hcase; by right.
Qed.
End MarkBatch.

(** ** Votes *)

(** The entries that move stake. *)
Definition stake_op (lab : UpdateLabel) (s : Z) : UpdateOperation :=
  match lab with LSubtract => Subtract s | _ => Add s end.

Lemma contribution_other k k' lab op : k <> k' -> contribution k' ((k, lab), op) = 0.
Proof. intros Hne. unfold contribution. cbn. by rewrite decide_False. Qed.

Lemma contribution_stake k lab s : lab = LAdd \/ lab = LSubtract ->
  contribution k ((k, lab), stake_op lab s) = match lab with LSubtract => - s | _ => s end.
Proof. intros [-> | ->]; unfold contribution; cbn; by rewrite decide_True. Qed.

Lemma wadd_exact x y : exists q, wadd 64 x y = x + y + q * 2 ^ 64.
Proof. exists (- ((x + y) / 2 ^ 64)). unfold wadd, wrap. rewrite Z.mod_eq by done. lia. Qed.

Lemma wrap_shift x y q : x = y + q * 2 ^ 64 -> wrap 64 x = wrap 64 y.
Proof. intros ->. unfold wrap. by rewrite Z.mod_add by done. Qed.

(** Counting the stake of a vote into the entry of its block. *)
Lemma stake_entry ops k lab s :
  ops_ok ops -> lab = LAdd \/ lab = LSubtract ->
  exists ops', om_entry (k, lab) (update_stake s) (stake_op lab s) ops = Some ops' /\ ops_ok ops' /\
    (forall e, e ∈ ops' -> e ∈ ops \/ (e.1.1 = k /\ ~ is_mark e.2)) /\
    (forall a, pending ops a -> pending ops' a) /\
    (forall x k', wrap 64 (x + Zsum (contribution k') ops')
       = wrap 64 (x + (Zsum (contribution k') ops + contribution k' ((k, lab), stake_op lab s)))).
Proof.
  intros Hok Hlab. pose proof Hok as [Hs Hl]. unfold om_entry.
  assert (forall op, op_label op = lab -> is_mark op -> False) as Hnm by (intros op <-; destruct op, Hlab; done).
  assert (forall op, op_label op = lab -> ops_ok (om_insert (k, lab) op ops)) as Hok'
    by (intros op <-; by apply ops_ok_insert).
  assert (forall op e, op_label op = lab -> e ∈ om_insert (k, lab) op ops -> e ∈ ops \/ (e.1.1 = k /\ ~ is_mark e.2)) as Hel.
  { intros op e Hop. rewrite om_insert_elem by done. intros [->|[? _]]; [right|by left]. split; [done|]. intros Hmk. by apply (Hnm op). }
  assert (forall op a, pending ops a -> pending (om_insert (k, lab) op ops) a) as Hpend.
  { intros op a Ha. apply om_insert_elem; [done|]. right. split; [done|]. cbn. intros [= <- <-]. by destruct Hlab. }
  destruct (om_lookup (k, lab) ops) as [op0|] eqn:E.
  - pose proof (Hl ((k, lab), op0) (proj1 (om_lookup_in _ _ _ Hs) E)) as Hop0. cbn in Hop0.
    assert (exists s0, op0 = stake_op lab s0) as (s0 & ->).
    { destruct Hlab as [-> | ->], op0; cbn in Hop0; try done; eauto. }
    assert (update_stake s (stake_op lab s0) = Some (stake_op lab (wadd 64 s0 s))) as Hup
      by (destruct Hlab as [-> | ->]; done).
    assert (op_label (stake_op lab (wadd 64 s0 s)) = lab) as Hlab' by (destruct Hlab as [-> | ->]; done).
    rewrite Hup. cbn [mbind option_bind]. eexists. split_and!; [done|auto|eauto|auto|].
    intros x k'. destruct (om_insert_old (k, lab) (stake_op lab (wadd 64 s0 s)) _ ops Hs E) as (l1 & l2 & Heq & ->).
    rewrite Heq, !Zsum_app, !Zsum_cons. destruct (decide (k = k')) as [<-|Hne]; [|rewrite !contribution_other by done; f_equal; lia].
    rewrite !contribution_stake by done. destruct (wadd_exact s0 s) as (q & ->).
    destruct Hlab as [-> | ->]; cbn; [apply (wrap_shift _ _ q)|apply (wrap_shift _ _ (- q))]; lia.
  - assert (op_label (stake_op lab s) = lab) as Hlab' by (destruct Hlab as [-> | ->]; done).
    eexists. split_and!; [done|auto|eauto|auto|]. intros x k'.
    rewrite (Zsum_perm _ _ _ (om_insert_new (k, lab) (stake_op lab s) ops E)), Zsum_cons. f_equal. lia.
Qed.

Section Votes.
Context {Pubkey : Type} `{Countable Pubkey} (stake_of : Pubkey -> Slot -> Z).
#[local] Abbreviation FC := (HeaviestSubtreeForkChoice (Pubkey := Pubkey)).
Context (stake_nonneg : forall v s, 0 <= stake_of v s).

(** The stake of the validators whose latest vote is for a block. *)
Definition votes_at (votes : gmap Pubkey SlotHashKey) (k : SlotHashKey) : Z :=
  Zsum (fun e => if decide (e.2 = k) then stake_of e.1 k.1 else 0) (map_to_list votes).

(** Which votes count: those from the root on, later than the validator's vote so
    far, or for another block of the same slot with a smaller hash. *)
Definition newer (new old : SlotHashKey) : Prop := old.1 < new.1 \/ (old.1 = new.1 /\ new.2 < old.2).

Definition record_vote (root : SlotHashKey) (votes : gmap Pubkey SlotHashKey) (vote : Pubkey * SlotHashKey) :
    gmap Pubkey SlotHashKey :=
  if decide (vote.2.1 < root.1) then votes
  else match votes !! vote.1 with
       | Some old => if decide (newer vote.2 old) then <[vote.1 := vote.2]> votes else votes
       | None => <[vote.1 := vote.2]> votes
       end.

Lemma votes_at_insert votes v new k :
  votes_at (<[v := new]> votes) k =
  votes_at votes k - (match votes !! v with Some old => if decide (old = k) then stake_of v k.1 else 0 | None => 0 end)
  + (if decide (new = k) then stake_of v k.1 else 0).
Proof. unfold votes_at. rewrite Zsum_map_insert. cbn. by destruct (votes !! v). Qed.

Record gen_ok (self0 : FC) (ops : UpdateOperations) (self : FC) : Prop := {
  gen_infos : fork_infos self = fork_infos self0;
  gen_root : tree_root self = tree_root self0;
  gen_ops : ops_ok ops;
  gen_closed : closed_but (fork_infos self0) None ops;
  gen_plain : forall o, o ∈ ops -> ~ is_mark o.2;
  gen_stake : forall k, wrap 64 (votes_at (latest_votes self0) k + Zsum (contribution k) ops)
    = wrap 64 (votes_at (latest_votes self) k)
}.

(** Moving the stake of one vote away from or to a block. *)
Lemma move_stake (self0 self : FC) ops k lab s :
  tree_ok (fork_infos self0) (tree_root self0) -> fork_infos self = fork_infos self0 ->
  ops_ok ops -> closed_but (fork_infos self0) None ops -> (forall o, o ∈ ops -> ~ is_mark o.2) ->
  lab = LAdd \/ lab = LSubtract ->
  exists ops1 ops2, om_entry (k, lab) (update_stake s) (stake_op lab s) ops = Some ops1 /\
    insert_aggregate_operations self ops1 k = ops2 /\ ops_ok ops2 /\ closed_but (fork_infos self0) None ops2 /\
    (forall o, o ∈ ops2 -> ~ is_mark o.2) /\
    (forall x k', wrap 64 (x + Zsum (contribution k') ops2)
       = wrap 64 (x + (Zsum (contribution k') ops + contribution k' ((k, lab), stake_op lab s)))).
Proof.
  intros Ht Hi Hok Hcl Hno Hlab. destruct (stake_entry ops k lab s Hok Hlab) as (ops1 & He & Hok1 & Hel & Hp & Hsum).
  destruct (insert_aggregate_operations_spec self (tree_root self0) ops1 k) as (l & [Hok2 Hcl2 _ _ Hnew Hsum2] & _).
  { by rewrite Hi. } { done. }
  { rewrite Hi. intros o p Ho Ho1 Hpp Hne. apply Hel in Ho as [Ho|[Heq _]]; [|congruence]. by apply Hp, (Hcl o p). }
  rewrite Hi in Hcl2. eexists ops1, _. split_and!; [done|reflexivity|done|done| |].
  - intros o Ho. apply Hnew in Ho as [[Ho|[_ ?]]%Hel|(a & _ & ->)]; [by apply Hno|done|]. intros [].
  - intros x k'. by rewrite Hsum2, Hsum.
Qed.

Lemma wrap_add_congr x y c : wrap 64 x = wrap 64 y -> wrap 64 (x + c) = wrap 64 (y + c).
Proof. unfold wrap. intros Heq. by rewrite <- (Z.add_mod_idemp_l x), Heq, Z.add_mod_idemp_l. Qed.

Lemma contribution_at k k' lab s : lab = LAdd \/ lab = LSubtract ->
  contribution k' ((k, lab), stake_op lab s) =
  if decide (k = k') then match lab with LSubtract => - s | _ => s end else 0.
Proof.
  intros Hlab. case_decide as Hd; [subst; by apply contribution_stake|by apply contribution_other].
Qed.

(** The stake of a validator leaves the block of its previous vote. *)
Lemma subtract_vote (self0 self : FC) ops v new old_vote :
  tree_ok (fork_infos self0) (tree_root self0) -> fork_infos self = fork_infos self0 ->
  ops_ok ops -> closed_but (fork_infos self0) None ops -> (forall o, o ∈ ops -> ~ is_mark o.2) ->
  (forall old, old_vote = Some old -> newer new old) ->
  exists ops1,
    (match old_vote with
     | None => Some ops
     | Some old =>
         if negb (if new.1 =? old.1 then new.2 <? old.2 else old.1 <? new.1) then None
         else
           let stake_update := stake_of v old.1 in
           if 0 <? stake_update then
             ops ← om_entry (old, LSubtract) (update_stake stake_update) (Subtract stake_update) ops;
             Some (insert_aggregate_operations self ops old)
           else Some ops
     end) = Some ops1 /\ ops_ok ops1 /\ closed_but (fork_infos self0) None ops1 /\
    (forall o, o ∈ ops1 -> ~ is_mark o.2) /\
    (forall x k, wrap 64 (x + Zsum (contribution k) ops1) = wrap 64 (x + (Zsum (contribution k) ops -
       (match old_vote with Some old => if decide (old = k) then stake_of v k.1 else 0 | None => 0 end)))).
Proof.
  intros Ht Hi Hok Hcl Hno Hnew. destruct old_vote as [old|].
  2: { exists ops. split_and!; try done. intros x k. f_equal. lia. }
  specialize (Hnew old eq_refl). unfold newer in Hnew.
  assert ((if new.1 =? old.1 then new.2 <? old.2 else old.1 <? new.1) = true) as ->.
  { destruct (Z.eqb_spec new.1 old.1); apply Z.ltb_lt; lia. }
  cbn [negb]. cbn zeta. destruct (Z.ltb_spec 0 (stake_of v old.1)) as [Hpos|Hzero].
  - destruct (move_stake self0 self ops old LSubtract (stake_of v old.1)) as (ops1 & ops2 & He & Hi2 & Hok2 & Hcl2 & Hno2 & Hsum);
      [done..|by right|].
    change (stake_op LSubtract (stake_of v old.1)) with (Subtract (stake_of v old.1)) in He. rewrite He.
    cbn [mbind option_bind]. rewrite Hi2. exists ops2. split_and!; try done. intros x k. rewrite Hsum.
    rewrite contribution_at by (by right). case_decide; [subst|]; f_equal; lia.
  - exists ops. split_and!; try done. intros x k. pose proof (stake_nonneg v old.1). f_equal. case_decide; [subst|]; lia.
Qed.

Lemma stale_spec new old :
  (new.1 <? old.1) || ((new.1 =? old.1) && (old.2 <=? new.2)) = if decide (newer new old) then false else true.
Proof.
  unfold newer. destruct (Z.ltb_spec new.1 old.1), (Z.eqb_spec new.1 old.1), (Z.leb_spec old.2 new.2);
    cbn; case_decide; (done || lia).
Qed.

Lemma generate_vote_spec (self0 self : FC) ops observed vote :
  tree_ok (fork_infos self0) (tree_root self0) -> gen_ok self0 ops self ->
  ((tree_root self0).1 <= vote.2.1 -> vote.1 ∉ observed) ->
  exists ops' observed' self', generate_vote stake_of (ops, observed, self) vote = Some (ops', observed', self') /\
    gen_ok self0 ops' self' /\ latest_votes self' = record_vote (tree_root self0) (latest_votes self) vote /\
    (forall v, v ∈ observed' -> v ∈ observed \/ (v = vote.1 /\ (tree_root self0).1 <= vote.2.1)).
Proof.
  intros Ht Hg Hobs. destruct vote as [v new]. cbn [fst snd] in *. unfold generate_vote, record_vote. cbn [fst snd].
  cbv zeta.
  rewrite (gen_root _ _ _ Hg). destruct (Z.ltb_spec new.1 (tree_root self0).1) as [Hlt|Hge].
  { rewrite decide_True by done. exists ops, observed, self. split_and!; [done|done|done|auto]. }
  rewrite decide_False by lia. rewrite bool_decide_eq_false_2 by auto.
  set (self1 := MkFork (fork_infos self) (<[v := new]> (latest_votes self)) (tree_root self0)).
  assert (forall x, x ∈ {[v]} ∪ observed -> x ∈ observed \/ x = v /\ (tree_root self0).1 <= new.1) as Hobs'.
  { intros x Hx. apply elem_of_union in Hx as [Hx%elem_of_singleton|Hx]; auto. }
  destruct Hg as [Hi Hr Hok Hcl Hno Hst].
  assert ((exists old, latest_votes self !! v = Some old /\ ~ newer new old) \/
          forall old, latest_votes self !! v = Some old -> newer new old) as [(old & Hold & Hn)|Hnew].
  { destruct (latest_votes self !! v) as [old|]; [|by right].
    destruct (decide (newer new old)); [right; congruence|left; eauto]. }
  { rewrite Hold, stale_spec, !decide_False by done. exists ops, ({[v]} ∪ observed), self. split_and!; try done. }
  assert (match latest_votes self !! v with
          | Some old => (new.1 <? old.1) || ((new.1 =? old.1) && (old.2 <=? new.2))
          | None => false
          end = false) as ->.
  { destruct (latest_votes self !! v) as [old|]; [|done]. rewrite stale_spec, decide_True; auto. }
  assert (match latest_votes self !! v with
          | Some old => if decide (newer new old) then <[v := new]> (latest_votes self) else latest_votes self
          | None => <[v := new]> (latest_votes self)
          end = latest_votes self1) as ->.
  { destruct (latest_votes self !! v) as [old|]; [|done]. rewrite decide_True; auto. }
  destruct (subtract_vote self0 self1 ops v new (latest_votes self !! v)) as (ops1 & He1 & Hok1 & Hcl1 & Hno1 & Hsum1);
    [done..|].
  cbv zeta in He1. rewrite He1. cbn [mbind option_bind].
  destruct (move_stake self0 self1 ops1 new LAdd (stake_of v new.1)) as (ops2 & ops3 & He2 & Hi2 & Hok2 & Hcl2 & Hno2 & Hsum2);
    [done..|by left|].
  change (stake_op LAdd (stake_of v new.1)) with (Add (stake_of v new.1)) in He2. rewrite He2. cbn [mbind option_bind].
  rewrite Hi2. exists ops3, ({[v]} ∪ observed), self1. split_and!; [done| |done|done].
  split; try done. intros k. rewrite Hsum2, contribution_at by (by left). cbn [latest_votes self1].
  rewrite votes_at_insert. set (gone := match _ with Some _ => _ | None => _ end).
  assert (exists come, (if decide (new = k) then stake_of v new.1 else 0) = come /\
    (if decide (new = k) then stake_of v k.1 else 0) = come) as (come & -> & ->)
    by (case_decide; subst; eauto).
  transitivity (wrap 64 (votes_at (latest_votes self0) k + come + Zsum (contribution k) ops1)); [f_equal; lia|].
  rewrite Hsum1. fold gone.
  transitivity (wrap 64 (votes_at (latest_votes self0) k + Zsum (contribution k) ops + (come - gone))); [f_equal; lia|].
  rewrite (wrap_add_congr _ _ _ (Hst k)). f_equal. lia.
Qed.

Lemma generate_votes (self0 : FC) votes : tree_ok (fork_infos self0) (tree_root self0) -> forall ops observed self,
  gen_ok self0 ops self ->
  NoDup (filter (fun vote : Pubkey * SlotHashKey => (tree_root self0).1 <= vote.2.1) votes).*1 ->
  (forall vote, vote ∈ votes -> (tree_root self0).1 <= vote.2.1 -> vote.1 ∉ observed) ->
  exists ops' observed' self', foldM (generate_vote stake_of) (ops, observed, self) votes = Some (ops', observed', self') /\
    gen_ok self0 ops' self' /\ latest_votes self' = foldl (record_vote (tree_root self0)) (latest_votes self) votes.
Proof.
  intros Ht. induction votes as [|vote votes IH]; intros ops observed self Hg Hnd Hobs; [by eexists _, _, _|].
  destruct (generate_vote_spec self0 self ops observed vote) as (ops1 & obs1 & self1 & Hrun & Hg1 & Hl1 & Hobs1);
    [done|done|apply Hobs; left|].
  destruct (IH ops1 obs1 self1 Hg1) as (ops2 & obs2 & self2 & Hrun2 & Hg2 & Hl2).
  - rewrite filter_cons in Hnd. case_decide; [|done]. rewrite fmap_cons in Hnd. by apply NoDup_cons in Hnd as [_ ?].
  - intros vote' Hin Hge Hv. apply Hobs1 in Hv as [Hv|[Heq Hge']]; [by apply (Hobs vote'); [right|..]|].
    rewrite filter_cons_True, fmap_cons, NoDup_cons in Hnd by done. destruct Hnd as [Hnot _]. apply Hnot.
    rewrite <- Heq. apply list_elem_of_fmap_2. by apply list_elem_of_filter.
  - exists ops2, obs2, self2. cbn [foldM]. rewrite Hrun. cbn [mbind option_bind]. split_and!; [done|done|].
    rewrite Hl2, Hl1. done.
Qed.

Lemma generate_spec (self : FC) votes :
  tree_ok (fork_infos self) (tree_root self) ->
  NoDup (filter (fun vote : Pubkey * SlotHashKey => (tree_root self).1 <= vote.2.1) votes).*1 ->
  exists ops self', generate_update_operations stake_of self votes = Some (ops, self') /\ gen_ok self ops self' /\
    latest_votes self' = foldl (record_vote (tree_root self)) (latest_votes self) votes.
Proof.
  intros Ht Hnd. destruct (generate_votes self votes Ht [] ∅ self) as (ops & obs & self' & Hrun & Hg & Hl); [|done|set_solver|].
  - split; try done.
    + split; [constructor|set_solver].
    + intros o p Ho. by apply elem_of_nil in Ho.
    + intros o Ho. by apply elem_of_nil in Ho.
    + intros k. by rewrite Z.add_0_r.
  - exists ops, self'. unfold generate_update_operations. rewrite Hrun. done.
Qed.

End Votes.

End Update.
