(* ===== verification/ForkVisit.v ===== *)
(** * Traversals of the tree of blocks

    The loops that walk a subtree from a list of blocks to visit: the blocks of
    a subtree ([subtree_diff]), and the blocks a subtree takes with it when it is
    split off. Each block is visited once, so that the number of blocks is fuel
    enough. *)

From S2P Require Import Prelude OrdMap ForkChoice ForkTree ForkUpdate.
Import Fork Tree Update.

Module Visit.

(** The walk from [r1] that does not enter [r2]: [pending] is to be visited,
    [seen] was taken from the list, [reached] is what was visited. *)
Record visit (m : Infos) (r1 r2 : SlotHashKey) (pending reached seen : list SlotHashKey) : Prop := {
  v_nodup : NoDup (pending ++ seen);
  v_in : forall x, x ∈ pending ++ seen -> is_Some (m !! x) /\ below m r1 x;
  v_reached : forall x, x ∈ reached <-> x ∈ seen /\ x <> r2;
  v_distinct : NoDup reached;
  v_parent : forall x, x ∈ pending ++ seen -> x <> r1 -> exists y, y ∈ reached /\ x ∈ children (info_at m y);
  v_children : forall x c, x ∈ reached -> c ∈ children (info_at m x) -> c ∈ pending ++ seen;
  v_start : r1 ∈ pending ++ seen
}.

Lemma visit_start m r1 r2 : is_Some (m !! r1) -> visit m r1 r2 [r1] [] [].
Proof.
  intros Hr. split.
  - apply NoDup_singleton.
  - intros x ->%list_elem_of_singleton. split; [done|constructor].
  - intros x. split; [by intros ?%elem_of_nil|intros [?%elem_of_nil _]; done].
  - constructor.
  - intros x ->%list_elem_of_singleton. done.
  - intros x c ?%elem_of_nil. done.
  - by left.
Qed.

Lemma visit_bound m r1 r2 pending reached seen : visit m r1 r2 pending reached seen ->
  (length pending + length seen <= size m)%nat.
Proof. intros Hv. rewrite <- length_app. apply keys_bound; [apply Hv|]. intros x Hx. by apply (v_in _ _ _ _ _ _ Hv). Qed.

Lemma visit_skip m r1 r2 pending reached seen :
  visit m r1 r2 (r2 :: pending) reached seen -> visit m r1 r2 pending reached (r2 :: seen).
Proof.
  intros [Hnd Hin Hre Hdi Hpa Hch Hst].
  assert (forall x, x ∈ pending ++ r2 :: seen <-> x ∈ (r2 :: pending) ++ seen) as Hiff by set_solver.
  split; [by rewrite <- Permutation_middle| | |done| | |by apply Hiff].
  - intros x Hx. apply Hin. by apply Hiff.
  - intros x. rewrite Hre, elem_of_cons. naive_solver.
  - intros x Hx. apply Hpa. by apply Hiff.
  - intros x c Hx Hc. apply Hiff. by eapply Hch.
Qed.

Lemma visit_step m root r1 r2 cur pending reached seen :
  tree_ok m root -> cur <> r2 -> visit m r1 r2 (cur :: pending) reached seen ->
  visit m r1 r2 (reverse (children (info_at m cur)) ++ pending) (reached ++ [cur]) (cur :: seen).
Proof.
  intros Ht Hne [Hnd Hin Hre Hdi Hpa Hch Hst]. destruct (Hin cur ltac:(set_solver)) as [Hcur Hbelow].
  assert (forall x, x ∈ (reverse (children (info_at m cur)) ++ pending) ++ cur :: seen <->
    x ∈ children (info_at m cur) \/ x ∈ (cur :: pending) ++ seen) as Hiff.
  { intros x. rewrite !elem_of_app, elem_of_reverse, !elem_of_cons. naive_solver. }
  assert (cur ∉ seen) as Hns. { rewrite <- app_comm_cons, NoDup_cons in Hnd. set_solver. }
  assert (cur ∉ reached) as Hnr by (rewrite Hre; tauto).
  assert (forall x, x ∈ children (info_at m cur) -> x ∉ (cur :: pending) ++ seen) as Hfresh.
  { intros x Hx Hold. destruct (tree_child _ _ Ht cur x Hcur Hx) as (Hlt & Hxin & Hxp).
    destruct (decide (x = r1)) as [->|Hxr].
    - assert (is_Some (m !! r1)) as Hr by apply (Hin r1 Hst). destruct (below_in _ _ _ _ Ht Hr Hbelow) as [_ [->|?]]; lia.
    - destruct (Hpa x Hold Hxr) as (y & Hy & Hxy). assert (is_Some (m !! y)) as Hyin.
      { apply Hin. apply elem_of_app. right. by apply Hre. }
      destruct (tree_child _ _ Ht y x Hyin Hxy) as (_ & _ & Hyp). congruence. }
  split.
  - rewrite <- app_assoc, reverse_Permutation, <- Permutation_middle.
    apply NoDup_app. split_and!; [by apply os_sorted_NoDup, Ht|done|done].
  - intros x [Hx|Hx]%Hiff; [|by apply Hin]. destruct (tree_child _ _ Ht cur x Hcur Hx) as (_ & Hxin & _).
    split; [done|by eapply below_step].
  - intros x. rewrite elem_of_app, Hre, list_elem_of_singleton, elem_of_cons. naive_solver.
  - apply NoDup_app. split_and!; [done|set_solver|apply NoDup_singleton].
  - intros x [Hx|Hx]%Hiff Hxr; [exists cur; set_solver|]. destruct (Hpa x Hx Hxr) as (y & Hy & Hxy). exists y. set_solver.
  - intros x c [Hx|Hx]%elem_of_app Hc; apply Hiff; [right; by eapply Hch|]. apply list_elem_of_singleton in Hx as ->. by left.
  - apply Hiff. by right.
Qed.

(** What the walk has visited when the list is empty. *)
Lemma visit_done m root r1 r2 reached seen :
  tree_ok m root -> (forall y, below m r2 y -> parent (info_at m r1) <> Some y) -> visit m r1 r2 [] reached seen ->
  forall x, x ∈ reached <-> below m r1 x /\ ~ below m r2 x.
Proof.
  intros Ht Hab [_ Hin Hre _ Hpa Hch Hst] x. simpl in *. split.
  - intros Hx. split; [apply Hin; by apply Hre|]. intros Hb. revert Hx. induction Hb as [|y c Hb IH Hc].
    + rewrite Hre. tauto.
    + intros Hc'. pose proof (proj1 (Hre c) Hc') as [Hcs _]. destruct (Hin c Hcs) as [Hcin _].
      destruct (decide (is_Some (m !! y))) as [Hy|Hy].
      * destruct (tree_child _ _ Ht y c Hy Hc) as (_ & _ & Hcp). destruct (decide (c = r1)) as [->|Hcr]; [by destruct (Hab y Hb)|].
        destruct (Hpa c Hcs Hcr) as (y' & Hy' & Hcy'). destruct (Hin y') as [Hyin' _]; [by apply Hre|].
        destruct (tree_child _ _ Ht y' c Hyin' Hcy') as (_ & _ & Hcp'). assert (y' = y) as -> by congruence. by apply IH.
      * unfold info_at in Hc. apply eq_None_not_Some in Hy. rewrite Hy in Hc. by apply elem_of_nil in Hc.
  - intros [Hb Hno]. induction Hb as [|y c Hb IH Hc].
    + apply Hre. split; [done|]. intros ->. apply Hno. constructor.
    + apply Hre. split; [|intros ->; apply Hno; constructor]. eapply Hch; [|done]. apply IH. intros Hb'. apply Hno.
      by eapply below_step.
Qed.

(** A walk that avoids a key no block has visits the whole subtree. *)
Lemma visit_all m root r1 r2 reached seen :
  tree_ok m root -> is_Some (m !! r1) -> m !! r2 = None -> visit m r1 r2 [] reached seen ->
  forall x, x ∈ reached <-> below m r1 x.
Proof.
  intros Ht Hr H2 Hv. assert (forall y, below m r2 y -> y = r2) as Hb.
  { intros y Hy. induction Hy as [|y c Hy IH Hc]; [done|]. subst y. unfold info_at in Hc. rewrite H2 in Hc. by apply elem_of_nil in Hc. }
  intros x. rewrite (visit_done m root r1 r2 reached seen Ht); [|intros y Hy Hp|done].
  - split; [tauto|]. intros Hx. split; [done|].
    intros Hx2. rewrite (Hb x Hx2) in Hx. destruct (below_in _ _ _ _ Ht Hr Hx) as [[i Hi] _]. congruence.
  - rewrite (Hb y Hy) in Hp. destruct (tree_parent_unique _ _ _ _ Ht Hr Hp) as ([i Hi] & _). congruence.
Qed.

Lemma subtree_loop_spec (fuel : nat) m root r1 r2 : tree_ok m root -> forall pending reached seen,
  visit m r1 r2 pending reached seen -> (size m <= fuel + length seen)%nat ->
  exists reached' seen', subtree_loop fuel m r2 pending reached = Some reached' /\ visit m r1 r2 [] reached' seen'.
Proof.
  intros Ht. induction fuel as [|fuel IH]; intros pending reached seen Hv Hf; pose proof (visit_bound _ _ _ _ _ _ Hv) as Hb;
    (destruct pending as [|cur pending]; [cbn; eauto|]); cbn in Hb; [lia|].
  cbn [subtree_loop]. case_bool_decide as Heq.
  - subst cur. apply (IH _ _ (r2 :: seen)); [by apply visit_skip|simpl; lia].
  - destruct (v_in _ _ _ _ _ _ Hv cur ltac:(set_solver)) as [Hcur _]. rewrite (lookup_info_at m cur Hcur).
    cbn [mbind option_bind]. apply (IH _ _ (cur :: seen)); [by eapply visit_step|simpl; lia].
Qed.

(** [split_off] moves the blocks of a subtree from one map to another. *)
Lemma move_loop_spec (fuel : nat) (m : Infos) (root r1 r2 : SlotHashKey) (M : Infos) :
  tree_ok m root -> is_Some (m !! r1) -> m !! r2 = None -> (forall x, below m r1 x -> M !! x = m !! x) ->
  forall pending reached seen (infos split : Infos),
  visit m r1 r2 pending reached seen -> (size m <= fuel + length seen)%nat ->
  (forall k, infos !! k = if decide (k ∈ reached) then None else M !! k) ->
  (forall k, split !! k = if decide (k ∈ reached) then M !! k else None) ->
  exists infos' split' reached' seen', move_loop fuel pending infos split = Some (infos', split') /\
    visit m r1 r2 [] reached' seen' /\
    (forall k, infos' !! k = if decide (k ∈ reached') then None else M !! k) /\
    (forall k, split' !! k = if decide (k ∈ reached') then M !! k else None).
Proof.
  intros Ht Hr1 Hr2 HM. induction fuel as [|fuel IH]; intros pending reached seen infos split Hv Hf Hi Hs;
    pose proof (visit_bound _ _ _ _ _ _ Hv) as Hb;
    (destruct pending as [|cur pending]; [cbn; by exists infos, split, reached, seen|]); cbn in Hb; [lia|].
  destruct (v_in _ _ _ _ _ _ Hv cur ltac:(set_solver)) as [Hcur Hbelow].
  assert (cur <> r2) as Hne. { intros ->. rewrite Hr2 in Hcur. by destruct Hcur. }
  assert (cur ∉ reached) as Hnr.
  { rewrite (v_reached _ _ _ _ _ _ Hv). pose proof (v_nodup _ _ _ _ _ _ Hv) as Hnd.
    rewrite <- app_comm_cons, NoDup_cons in Hnd. set_solver. }
  cbn [move_loop]. rewrite Hi, decide_False, (HM cur Hbelow), (lookup_info_at m cur Hcur) by done. cbn [mbind option_bind].
  apply (IH _ (reached ++ [cur]) (cur :: seen)); [by eapply visit_step|simpl; lia| |].
  - intros k. destruct (decide (k = cur)) as [->|Hk].
    + rewrite lookup_delete_eq, decide_True by set_solver. done.
    + rewrite lookup_delete_ne, Hi by done. apply decide_ext. set_solver.
  - intros k. destruct (decide (k = cur)) as [->|Hk].
    + rewrite lookup_insert_eq, decide_True by set_solver. by rewrite (HM cur Hbelow), (lookup_info_at m cur Hcur).
    + rewrite lookup_insert_ne, Hs by done. apply decide_ext. set_solver.
Qed.

Section Diff.
Context {Pubkey : Type} `{Countable Pubkey} (self : HeaviestSubtreeForkChoice (Pubkey := Pubkey)) (root : SlotHashKey).
Context (Ht : tree_ok (fork_infos self) root).

(** [subtree_diff] returns the blocks of a subtree outside another. *)
Lemma subtree_diff_spec r1 r2 :
  is_Some (fork_infos self !! r1) -> (forall y, below (fork_infos self) r2 y -> parent (info_at (fork_infos self) r1) <> Some y) ->
  exists l, subtree_diff self r1 r2 = Some l /\ NoDup l /\
    forall x, x ∈ l <-> below (fork_infos self) r1 x /\ ~ below (fork_infos self) r2 x.
Proof.
  intros Hr Hab. unfold subtree_diff, contains_block. rewrite bool_decide_eq_true_2 by done.
  destruct (subtree_loop_spec (S (size (fork_infos self))) _ root r1 r2 Ht [r1] [] []) as (l & seen & Hrun & Hv).
  { by apply visit_start. } { simpl. lia. }
  exists l. split_and!; [done|apply Hv|by eapply visit_done].
Qed.

(** With a key that no block has, the whole subtree. *)
Lemma subtree_all r1 r2 :
  is_Some (fork_infos self !! r1) -> fork_infos self !! r2 = None ->
  exists l, subtree_diff self r1 r2 = Some l /\ NoDup l /\ forall x, x ∈ l <-> below (fork_infos self) r1 x.
Proof.
  intros Hr H2. unfold subtree_diff, contains_block. rewrite bool_decide_eq_true_2 by done.
  destruct (subtree_loop_spec (S (size (fork_infos self))) _ root r1 r2 Ht [r1] [] []) as (l & seen & Hrun & Hv).
  { by apply visit_start. } { simpl. lia. }
  exists l. split_and!; [done|apply Hv|by eapply visit_all].
Qed.
End Diff.

End Visit.
