(* ===== verification/ForkLeaf.v ===== *)
(** * New blocks of the fork choice

    [add_new_leaf_slot] updates the best and the deepest slots of the ancestors
    of a new leaf without aggregating them again; the two loops of
    [propagate_new_leaf] leave the summaries of all the blocks right. *)

From S2P Require Import Prelude OrdMap ForkChoice ForkTree ForkUpdate.
Import Fork Tree Update.

Module Leaf.

(** ** The best slots *)

Record best_right (m : Infos) (k : SlotHashKey) : Prop := {
  br_best : candidate m k -> best_ok m k;
  br_within : best_within m k
}.

(** What [best_right] reads of a block. *)
Definition best_view (i : ForkInfo) : Z * SlotHashKey * option Slot :=
  (stake_voted_subtree i, best_slot i, latest_invalid_ancestor i).

Lemma best_view_fields m m' c : best_view (info_at m' c) = best_view (info_at m c) ->
  weight m' c = weight m c /\ best_slot (info_at m' c) = best_slot (info_at m c) /\ (candidate m' c <-> candidate m c).
Proof. intros [= H1 H2 H3]. unfold weight, candidate. by rewrite H1, H2, H3. Qed.

Lemma heavier_weights m m' (l : list SlotHashKey) :
  (forall c, c ∈ l -> weight m' c = weight m c) -> forall c c', c ∈ l -> c' ∈ l -> heavier m' c c' <-> heavier m c c'.
Proof. intros Hw c c' Hc Hc'. unfold heavier. by rewrite !Hw. Qed.

Lemma best_right_ext (m m' : Infos) k :
  best_view (info_at m' k) = best_view (info_at m k) -> children (info_at m' k) = children (info_at m k) ->
  (forall c, c ∈ children (info_at m k) -> best_view (info_at m' c) = best_view (info_at m c)) ->
  best_right m k -> best_right m' k.
Proof.
  intros Hk Hch Hv [Hb Hw]. destruct (best_view_fields _ _ _ Hk) as (_ & Hbk & Hck).
  assert (forall c, c ∈ children (info_at m k) -> weight m' c = weight m c /\
    best_slot (info_at m' c) = best_slot (info_at m c) /\ (candidate m' c <-> candidate m c)) as Hf.
  { intros c Hc. by apply best_view_fields, Hv. }
  split; unfold best_ok, best_within; rewrite Hch, Hbk.
  - intros Hc%Hck. destruct (Hb Hc) as [[Hno ->]|(c & Hfirst & ->)]; [left|right].
    + split; [|done]. intros c Hin Hcc. apply (Hno c Hin). by apply (Hf c Hin).
    + exists c. destruct (Hf c (proj1 Hfirst)) as (_ & -> & _). split; [|done].
      eapply first_of_same; [|intros; by apply Hf|done]. apply heavier_weights. intros; by apply Hf.
  - destruct Hw as [?|(c & Hin & ?)]; [by left|right]. exists c. destruct (Hf c Hin) as (_ & -> & _). done.
Qed.

(** The best slot of a block lies below it. *)
Lemma best_below m root : tree_ok m root -> forall k, is_Some (m !! k) ->
  (forall n, below m k n -> best_within m n) -> below m k (best_slot (info_at m k)).
Proof.
  intros Ht. apply (tree_induction m root (fun k => (forall n, below m k n -> best_within m n) ->
    below m k (best_slot (info_at m k))) Ht).
  intros k Hk IH Hw. destruct (Hw k (below_refl _ _)) as [->|(c & Hc & ->)]; [constructor|].
  eapply below_child; [done|]. apply IH; [done|]. intros n Hn. apply Hw. by eapply below_child.
Qed.

(** The block a step of the loop changes. *)
Section Step.
Context (m : Infos) (root key pb : SlotHashKey) (c a : SlotHashKey) (Ht : tree_ok m root).
Context (Hc : is_Some (m !! c)) (Hp : parent (info_at m c) = Some a).
Context (Hpb : best_slot (info_at m c) = pb) (Hbelow : below m c pb).
Context (Hrest : forall n, is_Some (m !! n) -> n <> c -> best_right m n).

Lemma step_parent : is_Some (m !! a) /\ c ∈ children (info_at m a) /\ a.1 < c.1 /\ a <> c.
Proof using Ht Hc Hp.
  destruct (tree_parent_unique _ _ _ _ Ht Hc Hp) as (Ha & Hca & Hlt). split_and!; [done..|]. intros ->. lia.
Qed.

(** The child whose best slot is the parent's is on the path. *)
Lemma step_child c1 : c1 ∈ children (info_at m a) -> best_slot (info_at m c1) = pb -> c1 = c.
Proof using Ht Hc Hp Hpb Hbelow Hrest.
  intros Hc1 Hb1. destruct step_parent as (Ha & Hca & _). destruct (decide (c1 = c)) as [|Hne]; [done|].
  destruct (tree_child _ _ Ht a c1 Ha Hc1) as (_ & Hin1 & _).
  apply (below_disjoint m root a c1 c pb Ht Ha Hc1 Hca); [|done]. rewrite <- Hb1.
  apply (best_below _ _ Ht); [done|]. intros n Hn. apply Hrest.
  - by apply (below_in _ _ _ _ Ht Hin1 Hn).
  - intros ->. apply Hne. apply (below_disjoint m root a c1 c c Ht Ha Hc1 Hca Hn). constructor.
Qed.

Lemma step_changed :
  best_slot (info_at m a) = pb ->
  best_right (<[a := with_best key (info_at m a)]> (<[c := with_best key (info_at m c)]> m)) a.
Proof using Ht Hc Hp Hpb Hbelow Hrest.
  intros Hba. destruct step_parent as (Ha & Hca & Hlt & Hne). destruct (Hrest a Ha Hne) as [Hb Hw].
  set (m' := <[a := _]> _).
  assert (info_at m' a = with_best key (info_at m a)) as Hia.
  { unfold m'. rewrite info_at_insert. by case_decide. }
  assert (forall x, best_slot (info_at m' x) = if decide (x = a \/ x = c) then key else best_slot (info_at m x)) as Hbx.
  { intros x. unfold m'. rewrite !info_at_insert. repeat case_decide; subst; naive_solver. }
  assert (forall x, weight m' x = weight m x /\ (candidate m' x <-> candidate m x)) as Hx.
  { intros x. unfold weight, candidate, m'. rewrite !info_at_insert. repeat case_decide; subst; done. }
  split; unfold best_ok, best_within; rewrite Hbx, Hia; cbn; rewrite decide_True by auto.
  - intros Hcand. apply Hx in Hcand. right. exists c. rewrite Hbx, decide_True by auto. split; [|done].
    destruct (Hb Hcand) as [[_ Hself]|(c1 & Hfirst & Hb1)].
    + destruct (below_in _ _ _ _ Ht Hc Hbelow) as [_ Hcmp]. rewrite <- Hba, Hself in Hcmp.
      destruct Hcmp as [->|]; [done|lia].
    + assert (c1 = c) as -> by (apply step_child; [apply Hfirst|congruence]).
      eapply first_of_same; [|intros; by apply Hx|done]. apply heavier_weights. intros; by apply Hx.
  - right. exists c. by rewrite Hbx, decide_True by auto.
Qed.

Lemma step_stopped :
  best_slot (info_at m a) <> pb -> best_right (<[c := with_best key (info_at m c)]> m) a.
Proof using Ht Hc Hp Hpb Hbelow Hrest.
  intros Hba. destruct step_parent as (Ha & Hca & Hlt & Hne). destruct (Hrest a Ha Hne) as [Hb Hw].
  set (m' := <[c := _]> _).
  assert (info_at m' a = info_at m a) as Hia by (unfold m'; rewrite info_at_insert; by case_decide).
  assert (forall x, best_slot (info_at m x) <> pb -> best_slot (info_at m' x) = best_slot (info_at m x)) as Hbx.
  { intros x Hx. unfold m'. rewrite info_at_insert. case_decide; [congruence|done]. }
  assert (forall x, weight m' x = weight m x /\ (candidate m' x <-> candidate m x)) as Hx.
  { intros x. unfold weight, candidate, m'. rewrite !info_at_insert. repeat case_decide; subst; done. }
  split; unfold best_ok, best_within; rewrite Hia.
  - intros Hcand. apply Hx in Hcand. destruct (Hb Hcand) as [[Hno ?]|(c1 & Hfirst & Hb1)]; [left|right].
    + split; [|done]. intros x Hin Hxc. apply (Hno x Hin). by apply Hx.
    + exists c1. rewrite Hbx by congruence. split; [|done].
      eapply first_of_same; [|intros; by apply Hx|done]. apply heavier_weights. intros; by apply Hx.
  - destruct Hw as [?|(c1 & Hin & Hb1)]; [by left|right]. exists c1. by rewrite Hbx by congruence.
Qed.

(** The other blocks do not read the changed one. *)
Lemma step_others n i : best_right m n -> n <> c -> n <> a -> is_Some (m !! n) -> best_right (<[c := i]> m) n.
Proof using Ht Hc Hp.
  intros Hn Hnc Hna Hin. apply (best_right_ext m); [by rewrite info_at_insert, decide_False..| |done].
  intros x Hx. rewrite info_at_insert, decide_False; [done|]. intros ->.
  destruct (tree_child _ _ Ht n c Hin Hx) as (_ & _ & Hpn). congruence.
Qed.
End Step.

(** The maps that differ from [m] in best slots only. *)
Definition best_only (m m' : Infos) : Prop :=
  forall k, (is_Some (m' !! k) <-> is_Some (m !! k)) /\
    info_at m' k = with_best (best_slot (info_at m' k)) (info_at m k).

#[global] Instance best_only_preorder : PreOrder best_only.
Proof.
  split.
  - intros m k. split; [done|]. by destruct (info_at m k).
  - intros m1 m2 m3 H1 H2 k. destruct (H1 k) as [Ha Hb], (H2 k) as [Ha' Hb']. split; [by rewrite Ha', Ha|].
    rewrite Hb', Hb. done.
Qed.

Lemma best_only_insert (m : Infos) k b : is_Some (m !! k) -> best_only m (<[k := with_best b (info_at m k)]> m).
Proof.
  intros Hk k'. rewrite is_Some_insert, info_at_insert by done. split; [done|]. case_decide; [by subst|].
  by destruct (info_at m k').
Qed.

Lemma best_only_shape m m' : best_only m m' -> same_shape m m'.
Proof. intros Hb k. destruct (Hb k) as [Hk ->]. done. Qed.

Lemma is_chain_shape m m' k l : same_shape m m' -> is_chain m k l -> is_chain m' k l.
Proof.
  intros Hsh. revert k. induction l as [|p l IH]; intros k; cbn; destruct (Hsh k) as (_ & -> & _); [done|].
  intros [? ?]. split; [done|by apply IH].
Qed.

(** The first loop, from the parent of a block [c] whose best slot was [pb] and
    now is [key]. *)
Lemma propagate_best_ok (fuel : nat) key pb : forall (m : Infos) root c l,
  tree_ok m root -> is_Some (m !! c) -> best_slot (info_at m c) = pb -> below m c pb ->
  (forall n, is_Some (m !! n) -> n <> c -> best_right m n) ->
  best_right (<[c := with_best key (info_at m c)]> m) c -> is_chain m c l -> (length l <= fuel)%nat ->
  exists m', propagate_best fuel key pb (parent (info_at m c)) (<[c := with_best key (info_at m c)]> m) = Some m' /\
    best_only m m' /\ forall n, is_Some (m !! n) -> best_right m' n.
Proof.
  induction fuel as [|fuel IH]; intros m root c l Ht Hc Hpb Hbelow Hrest Hcok Hl Hlen;
    pose proof (best_only_insert m c key Hc) as Honly;
    (destruct l as [|a l]; [cbn in Hl; rewrite Hl|destruct Hl as [Hp Hl]; rewrite Hp]).
  1,3: cbn; eexists; split_and!; [done|done|]; intros n Hn; destruct (decide (n = c)) as [->|Hne]; [done|];
    apply (best_right_ext m); [by rewrite info_at_insert, decide_False..| |by apply Hrest];
    intros x Hx; rewrite info_at_insert, decide_False; [done|]; intros ->;
    destruct (tree_child _ _ Ht n c Hn Hx) as (_ & _ & Hpn); congruence.
  { simpl in Hlen. lia. }
  destruct (step_parent m root c a Ht Hc Hp) as (Ha & Hca & Hlt & Hne).
  cbn [propagate_best]. rewrite lookup_insert_ne, (lookup_info_at m a Ha) by done. cbn [mbind option_bind].
  set (m1 := <[c := _]> m) in *.
  assert (info_at m1 a = info_at m a) as Hia by (unfold m1; rewrite info_at_insert; by case_decide).
  assert (forall n, is_Some (m !! n) -> n <> a -> best_right m1 n) as Hrest1.
  { intros n Hn Hna. destruct (decide (n = c)) as [->|Hnc]; [done|].
    eapply step_others; [done|done|done|by apply Hrest|done|done|done]. }
  case_bool_decide as Hba.
  - edestruct (IH m1 root a l) as (m' & Hrun & Hm' & Hall).
    { by eapply tree_ok_shape, Ht; apply best_only_shape. } { by apply Honly. } { by rewrite Hia. }
    { eapply below_shape; [by apply best_only_shape|]. by eapply below_child. }
    { intros n Hn. apply Hrest1. by apply Honly. }
    { rewrite Hia. by eapply (step_changed m root key pb c a). }
    { eapply is_chain_shape; [by apply best_only_shape|done]. } { simpl in Hlen. lia. }
    rewrite Hia in Hrun. exists m'. split_and!; [done|by etrans|]. intros n Hn. apply Hall. by apply Honly.
  - exists m1. split_and!; [done|done|]. intros n Hn. destruct (decide (n = a)) as [->|Hna]; [|by apply Hrest1].
    by eapply (step_stopped m root key pb c a).
Qed.

(** ** The deepest slots *)

(** [is_best_child] and [is_deepest_child] compare with the siblings. *)
Section Siblings.
Context {Pubkey : Type} `{Countable Pubkey} (self : HeaviestSubtreeForkChoice (Pubkey := Pubkey)).
#[local] Abbreviation m := (fork_infos self).

Lemma best_among_spec key cs : (forall c, c ∈ cs -> is_Some (m !! c)) ->
  exists b, best_among self key (weight m key) cs = Some b /\
    (b = true <-> forall c, c ∈ cs -> candidate m c -> ~ heavier m c key).
Proof.
  induction cs as [|c cs IH]; intros Hin.
  - exists true. split; [done|]. split; [|done]. intros _ c Hc. by apply elem_of_nil in Hc.
  - destruct IH as (b & Hb & Hiff); [intros; apply Hin; by right|]. pose proof (lookup_info_at _ c (Hin c ltac:(left))) as Hc.
    cbn [best_among]. unfold stake_voted_subtree_of, is_candidate_of. rewrite Hc. cbn [fmap option_fmap option_map mbind option_bind].
    fold (weight m c). destruct (is_candidate (info_at m c)) eqn:Hcand; cbn [negb].
    + apply is_candidate_iff in Hcand. destruct (_ || _) eqn:E.
      * exists false. split; [done|]. split; [done|]. intros Hall. destruct (Hall c ltac:(left) Hcand).
        unfold heavier. rewrite orb_true_iff, andb_true_iff, Z.ltb_lt, Z.eqb_eq, bool_decide_eq_true in E. naive_solver.
      * exists b. split; [done|]. rewrite Hiff. split; [|intros Hall x Hx; apply Hall; by right].
        intros Hall x [->|Hx]%elem_of_cons Hxc; [|by apply Hall]. unfold heavier. intros Hh.
        rewrite orb_false_iff, andb_false_iff, Z.ltb_ge, Z.eqb_neq, bool_decide_eq_false in E. destruct E as [E1 E2].
        destruct Hh as [|[? ?]]; [lia|destruct E2; [lia|done]].
    + exists b. split; [done|]. rewrite Hiff. split; [|intros Hall x Hx; apply Hall; by right].
      intros Hall x [->|Hx]%elem_of_cons Hxc; [|by apply Hall]. apply is_candidate_iff in Hxc. congruence.
Qed.

Lemma deepest_among_spec key cs : (forall c, c ∈ cs -> is_Some (m !! c)) ->
  exists b, deepest_among self key (height (info_at m key)) (weight m key) cs = Some b /\
    (b = true <-> forall c, c ∈ cs -> ~ deeper m c key).
Proof.
  induction cs as [|c cs IH]; intros Hin.
  - exists true. split; [done|]. split; [|done]. intros _ c Hc. by apply elem_of_nil in Hc.
  - destruct IH as (b & Hb & Hiff); [intros; apply Hin; by right|]. pose proof (lookup_info_at _ c (Hin c ltac:(left))) as Hc.
    cbn [deepest_among]. unfold stake_voted_subtree_of, height_of. rewrite Hc. cbn [fmap option_fmap option_map mbind option_bind].
    fold (weight m c).
    assert ((deeper m c key /\ exists b, Some b = Some false /\
      match height (info_at m c) ?= height (info_at m key), weight m c ?= weight m key, compare_keys c key with
      | Gt, _, _ | Eq, Gt, _ | Eq, Eq, Lt => Some false
      | _, _, _ => deepest_among self key (height (info_at m key)) (weight m key) cs end = Some b) \/
      (~ deeper m c key /\
       match height (info_at m c) ?= height (info_at m key), weight m c ?= weight m key, compare_keys c key with
      | Gt, _, _ | Eq, Gt, _ | Eq, Eq, Lt => Some false
      | _, _, _ => deepest_among self key (height (info_at m key)) (weight m key) cs end = Some b)) as Hcase.
    { unfold deeper, heavier.
      destruct (Z.compare_spec (height (info_at m c)) (height (info_at m key)));
        [|right; split; [lia|done]|left; split; [lia|eauto]].
      destruct (Z.compare_spec (weight m c) (weight m key)); [|right; split; [lia|done]|left; split; [lia|eauto]].
      destruct (compare_keys c key) eqn:E; [right|left|right];
        [|split; [apply compare_keys_lt in E; auto|eauto]|];
        (split; [intros [?|[_ [?|[_ Hk]]]]; [lia|lia|apply compare_keys_lt in Hk; congruence]|done]). }
    destruct Hcase as [[Hd (b' & [= ->] & ->)]|[Hd ->]].
    + exists false. split; [done|]. split; [done|]. intros Hall. by destruct (Hall c ltac:(left)).
    + exists b. split; [done|]. rewrite Hiff. split; [|intros Hall x Hx; apply Hall; by right].
      intros Hall x [->|Hx]%elem_of_cons; [done|by apply Hall].
Qed.

Lemma is_best_child_spec root key p : tree_ok m root -> is_Some (m !! key) -> parent (info_at m key) = Some p ->
  exists b, is_best_child self key = Some b /\
    (b = true <-> forall c, c ∈ children (info_at m p) -> candidate m c -> ~ heavier m c key).
Proof.
  intros Ht Hk Hp. destruct (tree_parent_unique _ _ _ _ Ht Hk Hp) as (Hpin & _).
  unfold is_best_child, stake_voted_subtree_of, parent_of, children_of.
  rewrite (lookup_info_at _ _ Hk). cbn. rewrite Hp, (lookup_info_at _ _ Hpin). cbn.
  apply best_among_spec. intros c Hc. by apply (tree_child _ _ Ht p).
Qed.

Lemma is_deepest_child_spec root key p : tree_ok m root -> is_Some (m !! key) -> parent (info_at m key) = Some p ->
  exists b, is_deepest_child self key = Some b /\
    (b = true <-> forall c, c ∈ children (info_at m p) -> ~ deeper m c key).
Proof.
  intros Ht Hk Hp. destruct (tree_parent_unique _ _ _ _ Ht Hk Hp) as (Hpin & _).
  unfold is_deepest_child, stake_voted_subtree_of, height_of, parent_of, children_of.
  rewrite (lookup_info_at _ _ Hk). cbn. rewrite Hp, (lookup_info_at _ _ Hpin). cbn.
  apply deepest_among_spec. intros c Hc. by apply (tree_child _ _ Ht p).
Qed.
End Siblings.

(** What a block [a] says of its children when [c] among them has become deeper,
    or is new: it follows another child, or [c] is the deepest now. *)
Definition deep_view (m : Infos) (c a : SlotHashKey) : Prop :=
  (exists c1, c1 ∈ children (info_at m a) /\ c1 <> c /\
     (forall x, x ∈ children (info_at m a) -> x <> c -> x = c1 \/ deeper m c1 x) /\
     height (info_at m a) = height (info_at m c1) + 1 /\ deepest_slot (info_at m a) = deepest_slot (info_at m c1)) \/
  ((forall x, x ∈ children (info_at m a) -> ~ deeper m x c) /\ height (info_at m a) <= height (info_at m c) + 1).

Lemma deeper_heights m m' x y :
  weight m' x = weight m x -> weight m' y = weight m y ->
  height (info_at m' x) = height (info_at m x) -> height (info_at m' y) = height (info_at m y) ->
  deeper m' x y <-> deeper m x y.
Proof. intros H1 H2 H3 H4. unfold deeper, heavier. by rewrite H1, H2, H3, H4. Qed.

Lemma deeper_irrefl m x : ~ deeper m x x.
Proof. unfold deeper, heavier. intros [?|[_ [?|[_ Hk]]]]; [lia|lia|]. by apply klt_irrefl in Hk. Qed.

(** The maps that differ from [m] in deepest slots and heights only. *)
Definition deepest_only (m m' : Infos) : Prop :=
  forall k, (is_Some (m' !! k) <-> is_Some (m !! k)) /\
    info_at m' k = with_deepest (deepest_slot (info_at m' k)) (height (info_at m' k)) (info_at m k).

#[global] Instance deepest_only_preorder : PreOrder deepest_only.
Proof.
  split.
  - intros m k. split; [done|]. by destruct (info_at m k).
  - intros m1 m2 m3 H1 H2 k. destruct (H1 k) as [Ha Hb], (H2 k) as [Ha' Hb']. split; [by rewrite Ha', Ha|].
    rewrite Hb', Hb. done.
Qed.

Lemma deepest_only_insert (m : Infos) k d h : is_Some (m !! k) -> deepest_only m (<[k := with_deepest d h (info_at m k)]> m).
Proof.
  intros Hk k'. rewrite is_Some_insert, info_at_insert by done. split; [done|]. case_decide; [by subst|].
  by destruct (info_at m k').
Qed.

Lemma deepest_only_shape m m' : deepest_only m m' -> same_shape m m'.
Proof. intros Hb k. destruct (Hb k) as [Hk ->]. done. Qed.

Lemma deepest_only_weight m m' k : deepest_only m m' -> weight m' k = weight m k.
Proof. intros Hb. unfold weight. destruct (Hb k) as [_ ->]. done. Qed.

(** A block none of whose children changed. *)
Lemma deepest_ok_ext (m m' : Infos) k :
  deepest_only m m' -> (forall x, x = k \/ x ∈ children (info_at m k) -> info_at m' x = info_at m x) ->
  deepest_ok m k -> deepest_ok m' k.
Proof.
  intros Honly Hsame. unfold deepest_ok. rewrite (Hsame k) by auto.
  intros [?|(c & Hf & Hh & Hd)]; [by left|right]. exists c. rewrite (Hsame c) by (right; apply Hf). split; [|done].
  apply (first_of_same _ (deeper m) _ (fun _ => True)); [|done|done]. intros x y Hx Hy.
  apply deeper_heights; try (by apply deepest_only_weight); by rewrite Hsame by auto.
Qed.

(** The parent of a block that became deeper. *)
Lemma deep_view_of_ok (m : Infos) c a d h :
  is_Some (m !! c) -> c ∈ children (info_at m a) -> a <> c -> height (info_at m c) <= h -> deepest_ok m a ->
  deep_view (<[c := with_deepest d h (info_at m c)]> m) c a.
Proof.
  intros Hc Hca Hne Hle Hok. pose proof (deepest_only_insert m c d h Hc) as Honly. set (m' := <[c := _]> m) in *.
  assert (forall x, x <> c -> info_at m' x = info_at m x) as Hx.
  { intros x Hxc. unfold m'. by rewrite info_at_insert, decide_False. }
  assert (height (info_at m' c) = h) as Hh by (unfold m'; by rewrite info_at_insert, decide_True).
  unfold deep_view. rewrite (Hx a) by done.
  destruct Hok as [[Hnil _]|(c1 & (Hin & _ & Hall) & Hha & Hda)]; [rewrite Hnil in Hca; by apply elem_of_nil in Hca|].
  destruct (decide (c1 = c)) as [->|Hc1]; [right|left].
  - split; [|rewrite Hh; lia]. intros x Hxin Hd. destruct (decide (x = c)) as [->|Hxc]; [by apply deeper_irrefl in Hd|].
    destruct (Hall x Hxin I) as [|Hcx]; [done|]. apply (deeper_irrefl m' c). eapply deeper_trans; [|done].
    unfold deeper, heavier in Hcx |- *. rewrite Hh, (Hx x), !(deepest_only_weight m m') by done. destruct Hcx as [|[? ?]]; [lia|].
    destruct (decide (height (info_at m x) = h)); [right; split; [done|done]|left; lia].
  - exists c1. rewrite (Hx c1) by done. split_and!; [done..| |done|done]. intros x Hxin Hxc.
    destruct (Hall x Hxin I) as [|Hd]; [by left|right]. apply (deeper_heights m m'); [by apply deepest_only_weight..|by rewrite Hx|by rewrite Hx|done].
Qed.

Section Deepest.
Context {Pubkey : Type} `{Countable Pubkey} (self : HeaviestSubtreeForkChoice (Pubkey := Pubkey)).

(** The second loop, from the parent of a block [c] whose deepest slot is [key]. *)
Lemma propagate_deepest_ok (fuel : nat) key : forall (m : Infos) root c l,
  tree_ok m root -> is_Some (m !! c) -> deepest_slot (info_at m c) = key ->
  (forall n, is_Some (m !! n) -> parent (info_at m c) <> Some n -> deepest_ok m n) ->
  (forall a, parent (info_at m c) = Some a -> deep_view m c a) -> is_chain m c l -> (length l <= fuel)%nat ->
  exists m', propagate_deepest fuel key (parent (info_at m c)) c (height (info_at m c)) (with_infos self m)
      = Some (with_infos self m') /\
    deepest_only m m' /\ forall n, is_Some (m !! n) -> deepest_ok m' n.
Proof.
  induction fuel as [|fuel IH]; intros m root c l Ht Hc Hkey Hrest Hview Hl Hlen;
    (destruct l as [|a l]; [cbn in Hl; rewrite Hl in *|destruct Hl as [Hp Hl]; rewrite Hp in *]).
  1,3: cbn; eexists; split_and!; [done|done|]; intros n Hn; by apply Hrest.
  { simpl in Hlen. lia. }
  destruct (step_parent m root c a Ht Hc Hp) as (Ha & Hca & Hlt & Hne). cbn [propagate_deepest].
  destruct (is_deepest_child_spec (with_infos self m) root c a Ht Hc Hp) as (b & -> & Hb). cbn [mbind option_bind].
  cbn in Hb. destruct b; cbn [negb].
  - pose proof (proj1 Hb eq_refl) as Hfirst. clear Hb. cbn [fork_infos with_infos]. rewrite (lookup_info_at m a Ha).
    cbn [mbind option_bind]. set (h := height (info_at m c) + 1) in *.
    pose proof (deepest_only_insert m a key h Ha) as Honly. set (m1 := <[a := _]> m) in *.
    assert (info_at m1 a = with_deepest key h (info_at m a)) as Hia by (unfold m1; by rewrite info_at_insert, decide_True).
    assert (forall x, x <> a -> info_at m1 x = info_at m x) as Hx.
    { intros x Hxa. unfold m1. by rewrite info_at_insert, decide_False. }
    edestruct (IH m1 root a l) as (m' & Hrun & Hm' & Hall).
    { eapply tree_ok_shape, Ht. by apply deepest_only_shape. } { by apply Honly. } { by rewrite Hia. }
    { rewrite Hia. cbn. intros n Hn%Honly Hpn. destruct (decide (n = a)) as [->|Hna].
      - right. exists c. rewrite Hia, (Hx c) by done. cbn. rewrite Hkey. split_and!; [|done|done]. split_and!; [done|done|].
        intros x Hxin _. destruct (deeper_total m c x) as [Hd|[|Hd]]; [right|by left|by destruct (Hfirst x Hxin)].
        destruct (tree_child _ _ Ht a x Ha Hxin) as (Hax & _).
        apply (deeper_heights m m1); [by apply deepest_only_weight..| | |done]; rewrite Hx; try done. intros ->. lia.
      - apply (deepest_ok_ext m); [done| |apply Hrest; congruence]. intros x [->|Hxin]; apply Hx; [done|]. intros ->.
        by destruct (tree_child _ _ Ht n a Hn Hxin) as (_ & _ & ?). }
    { rewrite Hia. cbn. intros a2 Hp2. destruct (step_parent m root a a2 Ht Ha Hp2) as (Ha2 & Hca2 & _ & Hne2).
      apply deep_view_of_ok; [done..| |apply Hrest; congruence]. unfold h.
      destruct (Hview a eq_refl) as [(c1 & Hin1 & _ & _ & -> & _)|[_ ?]]; [|done].
      destruct (Z.lt_ge_cases (height (info_at m c)) (height (info_at m c1))); [|lia].
      destruct (Hfirst c1 Hin1). by left. }
    { eapply is_chain_shape; [by apply deepest_only_shape|done]. } { simpl in Hlen. lia. }
    rewrite Hia in Hrun. cbn in Hrun. exists m'. split_and!; [done|by etrans|]. intros n Hn. apply Hall. by apply Honly.
  - exists m. split_and!; [done|done|]. intros n Hn. destruct (decide (n = a)) as [->|Hna]; [|apply Hrest; congruence].
    destruct (Hview a eq_refl) as [(c1 & Hin1 & Hc1 & Hall & Hh & Hd)|[Hno _]]; [right|by apply Hb in Hno].
    exists c1. split_and!; [|done|done]. split_and!; [done|done|]. intros x Hxin _.
    destruct (decide (x = c)) as [->|Hxc]; [right|by apply Hall].
    destruct (deeper_total m c1 c) as [|[|Hd1]]; [done|done|]. exfalso.
    assert (false = true); [|done]. apply Hb. intros y Hyin Hyc. destruct (decide (y = c)) as [->|Hy]; [by apply deeper_irrefl in Hyc|].
    apply (deeper_irrefl m c). destruct (Hall y Hyin Hy) as [->|Hc1y]; eauto using deeper_trans.
Qed.
End Deepest.

(** ** The new leaf *)

Section NewLeaf.
Context (m : Infos) (root key p : SlotHashKey) (leaf : ForkInfo).
Context (Ht : tree_ok m root) (Hok : forall k, is_Some (m !! k) -> node_ok m k).
Context (Hnew : m !! key = None) (Hp : is_Some (m !! p)) (Hlt : p.1 < key.1).
Context (Hleaf : leaf = MkForkInfo 0 0 1 key key (Some p) [] (latest_invalid_ancestor (info_at m p)) false).

(** The map with the leaf and the link to it. *)
Definition linked : Infos := <[p := with_children (os_insert key (children (info_at m p))) (info_at m p)]> (<[key := leaf]> m).

Lemma linked_at k : info_at linked k =
  if decide (k = p) then with_children (os_insert key (children (info_at m p))) (info_at m p)
  else if decide (k = key) then leaf else info_at m k.
Proof. unfold linked. by rewrite !info_at_insert. Qed.

Lemma linked_ne : p <> key.
Proof. intros ->. lia. Qed.

Lemma linked_in k : is_Some (linked !! k) <-> k = key \/ is_Some (m !! k).
Proof.
  unfold linked. destruct (decide (k = p)) as [->|Hkp]; [rewrite lookup_insert_eq; naive_solver|].
  rewrite lookup_insert_ne by done. destruct (decide (k = key)) as [->|Hk]; [rewrite lookup_insert_eq; naive_solver|].
  rewrite lookup_insert_ne by done. naive_solver.
Qed.

Lemma linked_key : info_at linked key = leaf.
Proof. rewrite linked_at, decide_False, decide_True; [done|done|]. symmetry. apply linked_ne. Qed.

Lemma linked_old k : is_Some (m !! k) -> summary (info_at linked k) = summary (info_at m k) /\
  stake_voted_at (info_at linked k) = stake_voted_at (info_at m k) /\ parent (info_at linked k) = parent (info_at m k) /\
  (k <> p -> info_at linked k = info_at m k).
Proof.
  intros Hk. rewrite linked_at. case_decide; [by subst|]. rewrite decide_False; [done|]. intros ->. rewrite Hnew in Hk. by destruct Hk.
Qed.

Lemma linked_children k c : is_Some (m !! k) ->
  c ∈ children (info_at linked k) <-> c ∈ children (info_at m k) \/ (k = p /\ c = key).
Proof.
  intros Hk. destruct (decide (k = p)) as [->|Hkp].
  - rewrite linked_at, decide_True by done. cbn. rewrite os_insert_in. clear Ht Hok. naive_solver.
  - destruct (linked_old k Hk) as (_ & _ & _ & Hi). rewrite (Hi Hkp). clear Ht Hok. naive_solver.
Qed.

Lemma child_old k c : is_Some (m !! k) -> c ∈ children (info_at m k) -> is_Some (m !! c) /\ c <> key.
Proof.
  intros Hk Hc. destruct (tree_child _ _ Ht k c Hk Hc) as (_ & Hin & _). split; [done|]. intros ->.
  rewrite Hnew in Hin. by destruct Hin.
Qed.

Lemma linked_tree : tree_ok linked root.
Proof.
  split.
  - apply linked_in. right. apply Ht.
  - destruct (linked_old root (tree_root_in _ _ Ht)) as (_ & _ & -> & _). apply Ht.
  - intros k [->|Hk]%linked_in Hne.
    + exists p. rewrite linked_key, Hleaf, linked_in, linked_children by done. naive_solver.
    + destruct (tree_parent _ _ Ht k Hk Hne) as (q & Hq & Hqin & Hkq). exists q.
      destruct (linked_old k Hk) as (_ & _ & -> & _). rewrite linked_in, linked_children by done. naive_solver.
  - intros k c [->|Hk]%linked_in; [rewrite linked_key, Hleaf; cbn; by intros ?%elem_of_nil|].
    rewrite linked_children by done. intros [Hc|[-> ->]].
    + destruct (tree_child _ _ Ht k c Hk Hc) as (? & Hcin & Hcp). rewrite linked_in.
      destruct (linked_old c Hcin) as (_ & _ & -> & _). naive_solver.
    + rewrite linked_in, linked_key, Hleaf. naive_solver.
  - intros k [->|Hk]%linked_in; [rewrite linked_key, Hleaf; constructor|]. rewrite linked_at. case_decide.
    + apply os_insert_sorted. by apply Ht.
    + case_decide; [rewrite Hleaf; constructor|]. by apply Ht.
Qed.

(** The stakes and the confirmations are right at once. *)
Lemma linked_base k : is_Some (linked !! k) ->
  weight linked k = wrap 64 (stake_voted_at (info_at linked k) + Zsum (weight linked) (children (info_at linked k))) /\
  (forall c, c ∈ children (info_at linked k) -> confirmed linked c -> confirmed linked k).
Proof.
  assert (forall c, is_Some (m !! c) -> weight linked c = weight m c /\ (confirmed linked c <-> confirmed m c)) as Hsame.
  { intros c Hc. destruct (linked_old c Hc) as ([= H1 H2 H3 H4 H5 H6] & _). unfold weight, confirmed. by rewrite H1, H6. }
  assert (weight linked key = 0 /\ ~ confirmed linked key) as [Hwk Hck].
  { unfold weight, confirmed. by rewrite linked_key, Hleaf. }
  intros [->|Hk]%linked_in.
  - rewrite Hwk, linked_key, Hleaf. split; [done|]. cbn. by intros c ?%elem_of_nil.
  - destruct (Hok k Hk) as [Hs Hc _ _ _]. destruct (Hsame k Hk) as [Hw Hkc]. destruct (linked_old k Hk) as (_ & Hat & _ & _). split.
    + rewrite Hw, Hs, Hat. f_equal. f_equal.
      transitivity (Zsum (weight linked) (children (info_at m k))).
      { apply Zsum_ext. intros c Hin. symmetry. by apply Hsame, (child_old k c Hk). }
      rewrite linked_at. destruct (decide (k = p)) as [->|Hkp].
      * cbn [children with_children]. assert (key ∉ children (info_at m p)) as Hnin. { intros Hin. by apply (child_old p key Hk) in Hin as [_ ?]. }
        rewrite (Zsum_perm _ _ _ (os_insert_perm key _ Hnin)). rewrite Zsum_cons, Hwk. lia.
      * rewrite decide_False; [done|]. intros ->. rewrite Hnew in Hk. by destruct Hk.
    + intros c. rewrite linked_children by done. intros [Hin|[_ ->]] Hcc; [|done].
      apply Hkc, (Hc c Hin), Hsame; [|done]. by apply (child_old k).
Qed.

(** All the blocks but the parent are as before. *)
Lemma linked_others k : is_Some (linked !! k) -> k <> p -> best_right linked k /\ deepest_ok linked k.
Proof.
  intros [->|Hk]%linked_in Hkp.
  - split; [split|]; unfold best_ok, best_within, deepest_ok; rewrite linked_key, Hleaf; cbn; [|by left|by left].
    intros _. left. split; [|done]. by intros c ?%elem_of_nil.
  - assert (node_ok linked k) as [_ _ Hd Hb Hw]; [|by split].
    apply (node_ok_ext m); [by apply linked_old| |by apply Hok]. intros c Hc. apply linked_old. by apply (child_old k).
Qed.

Lemma linked_heavier x y : is_Some (m !! x) -> is_Some (m !! y) -> heavier linked x y <-> heavier m x y.
Proof.
  intros Hx Hy. destruct (linked_old x Hx) as ([= Hwx _ _ _ _ _] & _), (linked_old y Hy) as ([= Hwy _ _ _ _ _] & _).
  unfold heavier, weight. by rewrite Hwx, Hwy.
Qed.

(** The view the parent has of the new leaf in the second loop. *)
Lemma linked_view : deep_view linked key p.
Proof.
  destruct (linked_old p Hp) as ([= Hwp Hhp _ Hdp _ _] & _). unfold deep_view.
  destruct (ok_deepest _ _ (Hok p Hp)) as [(Hnil & Hh & Hd)|(c & (Hin & _ & Hall) & Hh & Hd)]; [right|left].
  - split; [|rewrite Hhp, Hh, linked_key, Hleaf; cbn; lia]. intros x. rewrite linked_children, Hnil by done.
    intros [?%elem_of_nil|[_ ->]]; [done|apply deeper_irrefl].
  - destruct (child_old p c Hp Hin) as [Hcin Hck]. destruct (linked_old c Hcin) as ([= Hwc Hhc _ Hdc _ _] & _).
    exists c. rewrite Hhp, Hdp, Hhc, Hdc, linked_children by done. split_and!; [by left|done| |done|done].
    intros x. rewrite linked_children by done. intros [Hx|[_ ->]] Hxk; [|done].
    destruct (Hall x Hx I) as [|Hdx]; [by left|right]. destruct (child_old p x Hp Hx) as [Hxin _].
    destruct (linked_old x Hxin) as ([= Hwx Hhx _ _ _ _] & _).
    apply (deeper_heights m linked); [done|done|done|done|done].
Qed.

Lemma linked_candidate x : is_Some (m !! x) -> candidate linked x <-> candidate m x.
Proof.
  intros Hx. destruct (linked_old x Hx) as ([= _ _ _ _ Hl _] & _). unfold candidate. by rewrite Hl.
Qed.

(** A sibling beats the leaf: the parent is right too. *)
Lemma linked_beaten :
  ~ (forall c, c ∈ children (info_at linked p) -> candidate linked c -> ~ heavier linked c key) -> best_right linked p.
Proof.
  intros Hbeaten. destruct (linked_old p Hp) as ([= _ _ Hbp _ Hlp _] & _). pose proof (ok_within _ _ (Hok p Hp)) as Hw.
  assert (forall x, ~ heavier linked x x) as Hirr.
  { unfold heavier. intros x [?|[_ Hk]]; [lia|]. by apply klt_irrefl in Hk. }
  split; unfold best_ok, best_within; rewrite Hbp.
  - intros Hcand%(linked_candidate p Hp). destruct (ok_best _ _ (Hok p Hp) Hcand) as [[Hno _]|(c & (Hin & Hc & Hall) & Hb)].
    + destruct Hbeaten. intros c. rewrite linked_children by done. intros [Hc|[_ ->]] Hcc; [|apply Hirr].
      destruct (Hno c Hc). by apply (linked_candidate c) in Hcc; [|apply (child_old p)].
    + destruct (child_old p c Hp Hin) as [Hcin Hck]. destruct (linked_old c Hcin) as ([= _ _ Hbc _ _ _] & _).
      right. exists c. rewrite Hbc. split; [|done]. split_and!; [apply linked_children; auto|by apply linked_candidate|].
      assert (forall x, x ∈ children (info_at m p) -> candidate linked x -> x = c \/ heavier linked c x) as Hall'.
      { intros x Hx Hxc. destruct (child_old p x Hp Hx) as [Hxin _]. rewrite linked_heavier by done.
        apply Hall; [done|]. by apply linked_candidate. }
      intros x. rewrite linked_children by done. intros [Hx|[_ ->]] Hxc; [by apply Hall'|right].
      destruct (heavier_total linked c key) as [|[|Hkc]]; [done|done|]. destruct Hbeaten.
      intros y. rewrite linked_children by done. intros [Hy|[_ ->]] Hyc Hyk; [|by apply Hirr in Hyk].
      apply (Hirr key). destruct (Hall' y Hy Hyc) as [->|Hcy]; eauto using heavier_trans.
  - destruct Hw as [?|(c & Hin & Hb)]; [by left|right]. destruct (child_old p c Hp Hin) as [Hcin Hck].
    destruct (linked_old c Hcin) as ([= _ _ Hbc _ _ _] & _). exists c. rewrite Hbc, linked_children; auto.
Qed.

(** The leaf is the best child: the parent takes it over. *)
Lemma linked_best :
  (forall c, c ∈ children (info_at linked p) -> candidate linked c -> ~ heavier linked c key) ->
  best_right (<[p := with_best key (info_at linked p)]> linked) p.
Proof.
  intros Hfirst. set (m' := <[p := _]> linked). pose proof linked_ne as Hne.
  assert (info_at m' p = with_best key (info_at linked p)) as Hpi by (unfold m'; by rewrite info_at_insert, decide_True).
  assert (info_at m' key = leaf) as Hki by (unfold m'; by rewrite info_at_insert, decide_False, linked_key).
  assert (forall x, weight m' x = weight linked x /\ (candidate m' x <-> candidate linked x)) as Hx.
  { intros x. unfold weight, candidate, m'. rewrite info_at_insert. case_decide; by subst. }
  assert (key ∈ children (info_at linked p)) as Hin by (apply linked_children; auto).
  split; unfold best_ok, best_within; rewrite Hpi; cbn.
  - intros Hcand%Hx%(linked_candidate p Hp). right. exists key. rewrite Hki, Hleaf. split; [|done]. split_and!; [done| |].
    + unfold candidate. rewrite Hki, Hleaf. apply Hcand.
    + intros x Hxin Hxc%Hx. destruct (heavier_total linked key x) as [Hh|[|Hh]]; [right|by left|by destruct (Hfirst x Hxin Hxc)].
      apply (heavier_weights linked m' [key; x]); [intros; by apply Hx|left|right; left|done].
  - right. exists key. by rewrite Hki, Hleaf.
Qed.

Lemma linked_below : below linked p (best_slot (info_at linked p)).
Proof.
  destruct (linked_old p Hp) as ([= _ _ Hbp _ _ _] & _). rewrite Hbp.
  assert (below m p (best_slot (info_at m p))) as Hb.
  { apply (best_below m root Ht p Hp). intros n Hn. apply Hok. by apply (below_in m root p n Ht). }
  clear Hbp. induction Hb as [|x c Hb IH Hc]; [constructor|].
  eapply below_step; [exact IH|]. apply linked_children; [|by left].
  by apply (below_in m root p x Ht).
Qed.
End NewLeaf.

(** The two loops leave a map with the same shape, stakes and verdicts, and right
    summaries. *)
Definition bests_only (m m' : Infos) : Prop := exists m1, best_only m m1 /\ deepest_only m1 m'.

Lemma bests_only_fields m m' k : bests_only m m' ->
  (is_Some (m' !! k) <-> is_Some (m !! k)) /\ parent (info_at m' k) = parent (info_at m k) /\
  children (info_at m' k) = children (info_at m k) /\ weight m' k = weight m k /\
  stake_voted_at (info_at m' k) = stake_voted_at (info_at m k) /\
  latest_invalid_ancestor (info_at m' k) = latest_invalid_ancestor (info_at m k) /\
  is_duplicate_confirmed (info_at m' k) = is_duplicate_confirmed (info_at m k).
Proof.
  intros (m1 & H1 & H2). unfold weight. destruct (H1 k) as [Hin1 E1], (H2 k) as [Hin2 E2].
  rewrite Hin2, Hin1. split; [done|]. rewrite E2, E1. done.
Qed.

Lemma best_only_deepest m m' k : best_only m m' -> deepest_ok m k -> deepest_ok m' k.
Proof.
  intros Hb. assert (forall x, height (info_at m' x) = height (info_at m x) /\
    deepest_slot (info_at m' x) = deepest_slot (info_at m x) /\ weight m' x = weight m x) as Hx.
  { intros x. unfold weight. destruct (Hb x) as [_ ->]. done. }
  unfold deepest_ok. destruct (best_only_shape _ _ Hb k) as (_ & _ & ->). destruct (Hx k) as (-> & -> & _).
  intros [?|(c & Hf & Hh & Hd)]; [by left|right]. exists c. destruct (Hx c) as (-> & -> & _). split; [|done].
  apply (first_of_same _ (deeper m) _ (fun _ => True)); [|done|done]. intros x y _ _. by apply deeper_heights; apply Hx.
Qed.

Lemma best_only_view m m' c a : best_only m m' -> deep_view m c a -> deep_view m' c a.
Proof.
  intros Hb. assert (forall x, height (info_at m' x) = height (info_at m x) /\
    deepest_slot (info_at m' x) = deepest_slot (info_at m x) /\ weight m' x = weight m x) as Hx.
  { intros x. unfold weight. destruct (Hb x) as [_ ->]. done. }
  assert (forall x y, deeper m' x y <-> deeper m x y) as Hd by (intros x y; by apply deeper_heights; apply Hx).
  unfold deep_view. destruct (best_only_shape _ _ Hb a) as (_ & _ & ->). destruct (Hx a) as (-> & -> & _).
  intros [(c1 & Hin & Hne & Hall & ? & ?)|[Hno ?]]; [left|right].
  - exists c1. destruct (Hx c1) as (-> & -> & _). split_and!; try done. intros x Hxin Hxc. rewrite Hd. by apply Hall.
  - destruct (Hx c) as (-> & _). split; [|done]. intros x Hxin. rewrite Hd. by apply Hno.
Qed.

Lemma deepest_only_best m m' k : deepest_only m m' -> best_right m k -> best_right m' k.
Proof.
  intros Hd. assert (forall x, best_view (info_at m' x) = best_view (info_at m x)) as Hx.
  { intros x. destruct (Hd x) as [_ ->]. done. }
  apply best_right_ext; [done|by apply deepest_only_shape|done].
Qed.

(** The blocks of a map, the loops' fuel. *)
Lemma chain_exists m root k : tree_ok m root -> is_Some (m !! k) -> exists l, is_chain m k l /\ (length l <= size m)%nat.
Proof.
  intros Ht Hk. exists (ancestors (size m) m k). split; [by eapply ancestors_chain|].
  pose proof (ancestors_NoDup (size m) m root Ht k Hk) as Hnd. apply NoDup_cons in Hnd as [_ Hnd].
  apply (keys_bound m _ Hnd). intros a Ha. by apply (ancestors_below (size m) m root Ht k a Hk).
Qed.

Section AddLeaf.
Context {Pubkey : Type} `{Countable Pubkey} (self : HeaviestSubtreeForkChoice (Pubkey := Pubkey)).
#[local] Abbreviation m := (fork_infos self).

(** A new leaf is linked, then the loops run. *)
Lemma add_new_leaf_linked key p :
  m !! key = None -> is_Some (m !! p) -> p.1 < key.1 ->
  add_new_leaf_slot self key (Some p) =
    propagate_new_leaf (with_infos self (linked m key p
      (MkForkInfo 0 0 1 key key (Some p) [] (latest_invalid_ancestor (info_at m p)) false))) key p.
Proof.
  intros Hnew Hp Hlt. unfold add_new_leaf_slot, contains_block.
  rewrite bool_decide_eq_false_2 by (rewrite Hnew; by intros [? ?]). cbv zeta.
  assert (Some p ≫= latest_invalid_ancestor_of self = latest_invalid_ancestor (info_at m p)) as ->.
  { unfold latest_invalid_ancestor_of. cbn. by rewrite (lookup_info_at m p Hp). }
  cbn [fork_infos with_infos]. rewrite lookup_insert_ne by (intros ->; lia). by rewrite (lookup_info_at m p Hp).
Qed.

(** The first loop and its guard. *)
Lemma propagate_best_leaf root key p :
  let leaf := MkForkInfo 0 0 1 key key (Some p) [] (latest_invalid_ancestor (info_at m p)) false in
  let m2 := linked m key p leaf in
  tree_ok m root -> (forall k, is_Some (m !! k) -> node_ok m k) -> m !! key = None -> is_Some (m !! p) -> p.1 < key.1 ->
  exists b m', is_best_child (with_infos self m2) key = Some b /\
    (if (b : bool) then propagate_best (S (size m2)) key (best_slot (info_at m2 p)) (Some p) m2 else Some m2) = Some m' /\
    best_only m2 m' /\ forall k, is_Some (m2 !! k) -> best_right m' k.
Proof.
  intros leaf m2 Ht Hok Hnew Hp Hlt.
  pose proof (linked_tree m root key p leaf Ht Hnew Hp Hlt eq_refl) as Ht2.
  pose proof (linked_others m root key p leaf Ht Hok Hnew Hp Hlt eq_refl) as Hothers.
  assert (is_Some (m2 !! key) /\ is_Some (m2 !! p)) as [Hk2 Hp2] by (split; apply linked_in; auto).
  destruct (is_best_child_spec (with_infos self m2) root key p Ht2 Hk2) as (b & Hb & Hiff).
  { cbn. unfold m2. by rewrite linked_key. }
  cbn in Hiff. exists b. destruct b.
  - pose proof (proj1 Hiff eq_refl) as Hfirst. destruct (chain_exists m2 root p Ht2 Hp2) as (l & Hl & Hlen).
    destruct (propagate_best_ok (size m2) key (best_slot (info_at m2 p)) m2 root p l) as (m' & Hrun & Honly & Hall); try done.
    { by eapply linked_below. } { intros n Hn Hne. by apply Hothers. } { by eapply linked_best. }
    exists m'. split_and!; [done| |done|done]. cbn [propagate_best]. rewrite (lookup_info_at m2 p Hp2).
    cbn [mbind option_bind]. by rewrite bool_decide_eq_true_2.
  - exists m2. split_and!; [done|done|done|]. intros k Hk. destruct (decide (k = p)) as [->|Hkp]; [|by apply Hothers].
    eapply linked_beaten; try done. intros Hall. by apply Hiff in Hall.
Qed.

Lemma add_new_leaf_nodes root key p :
  let leaf := MkForkInfo 0 0 1 key key (Some p) [] (latest_invalid_ancestor (info_at m p)) false in
  let m2 := linked m key p leaf in
  tree_ok m root -> (forall k, is_Some (m !! k) -> node_ok m k) -> m !! key = None -> is_Some (m !! p) -> p.1 < key.1 ->
  exists m', add_new_leaf_slot self key (Some p) = Some (with_infos self m') /\ bests_only m2 m' /\
    tree_ok m' root /\ forall k, is_Some (m' !! k) -> node_ok m' k.
Proof.
  intros leaf m2 Ht Hok Hnew Hp Hlt.
  destruct (propagate_best_leaf root key p Ht Hok Hnew Hp Hlt) as (b & m3 & Hb & Hrun3 & Honly3 & Hbest).
  fold leaf m2 in Hb, Hrun3, Honly3, Hbest.
  pose proof (linked_tree m root key p leaf Ht Hnew Hp Hlt eq_refl) as Ht2. fold m2 in Ht2.
  assert (is_Some (m2 !! key) /\ is_Some (m2 !! p)) as [Hk2 Hp2] by (split; apply linked_in; auto).
  pose proof (tree_ok_shape _ _ _ (best_only_shape _ _ Honly3) Ht2) as Ht3.
  assert (info_at m2 key = leaf) as Hleaf by (unfold m2; by apply linked_key).
  assert (parent (info_at m3 key) = Some p /\ height (info_at m3 key) = 1 /\ deepest_slot (info_at m3 key) = key)
    as (Hp3 & Hh3 & Hd3) by (destruct (Honly3 key) as [_ ->]; rewrite Hleaf; done).
  assert (is_Some (m3 !! key)) as Hk3 by by apply Honly3.
  destruct (chain_exists m3 root key Ht3 Hk3) as (l & Hl & Hlen).
  assert (size m3 = size m2) as Hsz.
  { rewrite <- !size_dom. f_equal. apply set_eq. intros k. rewrite !elem_of_dom. apply Honly3. }
  destruct (propagate_deepest_ok self (S (size m2)) key m3 root key l) as (m' & Hrun & Honly & Hdeep); try done.
  { rewrite Hp3. intros n Hn%Honly3 Hne. eapply best_only_deepest; [done|]. eapply linked_others; try done. congruence. }
  { rewrite Hp3. intros a [= <-]. eapply best_only_view; [done|]. by eapply linked_view. }
  { lia. }
  assert (bests_only m2 m') as Hbo by (by exists m3). exists m'. split_and!; [|done| |].
  - rewrite add_new_leaf_linked by done. fold leaf m2. unfold propagate_new_leaf, best_slot_of. cbn [fork_infos with_infos].
    rewrite (lookup_info_at m2 p Hp2). cbn [fmap option_fmap option_map mbind option_bind]. rewrite Hb. cbn [mbind option_bind].
    rewrite Hrun3. cbn [mbind option_bind]. rewrite Hp3, Hh3 in Hrun. apply Hrun.
  - eapply tree_ok_shape, Ht3. by apply deepest_only_shape.
  - intros k Hk. pose proof (proj1 (proj1 (bests_only_fields m2 m' k Hbo)) Hk) as Hk2'.
    destruct (linked_base m root key p leaf Ht Hok Hnew Hp Hlt eq_refl k Hk2') as [Hs Hc]. fold m2 in Hs, Hc.
    destruct (bests_only_fields m2 m' k Hbo) as (_ & _ & Hch & Hw & Hat & _ & Hcf).
    assert (forall c, confirmed m' c <-> confirmed m2 c) as Hcc.
    { intros c. unfold confirmed. by destruct (bests_only_fields m2 m' c Hbo) as (_ & _ & _ & _ & _ & _ & ->). }
    pose proof (deepest_only_best m3 m' k Honly (Hbest k Hk2')) as [Hbr Hbw].
    split; [| |apply Hdeep; by apply Honly3|done|done].
    + rewrite Hw, Hat, Hch, Hs. f_equal. f_equal. apply Zsum_ext. intros c _. symmetry. by apply bests_only_fields.
    + rewrite Hch. intros c Hin Hcf'. apply Hcc. eapply Hc; [done|by apply Hcc].
Qed.
End AddLeaf.

End Leaf.
