(* ===== verification/ForkInvariant.v ===== *)
(** * The invariant of the fork choice

    Every operation of [HeaviestSubtreeForkChoice] keeps the tree well formed,
    the summaries of the blocks right, the stakes equal to the latest votes and
    the marks of duplicate blocks consistent; and none of them panics when it is
    used as the replay stage uses it. *)

From S2P Require Import Prelude OrdMap ForkChoice ForkTree ForkUpdate ForkVisit ForkLeaf.
Import Fork Tree Update Visit Leaf.

(** What the fork choice relies on of the epoch stakes: a stake is a number of
    lamports, and together they fit [u64] whatever each validator votes for. *)
Class Stakes {Pubkey} `{Countable Pubkey} (stake_of : Pubkey -> Slot -> Z) : Prop := {
  stake_nonneg v s : 0 <= stake_of v s;
  stake_total (votes : gmap Pubkey SlotHashKey) :
    Zsum (fun e => stake_of e.1 e.2.1) (map_to_list votes) <= U64_MAX
}.

Module Invariant.
Section Invariant.
Context {Pubkey : Type} `{Countable Pubkey} (stake_of : Pubkey -> Slot -> Z) `{!Stakes stake_of}.
#[local] Abbreviation FC := (HeaviestSubtreeForkChoice (Pubkey := Pubkey)).

(** An invalid block makes the blocks below it invalid, from a later ancestor if
    at all another. *)
Definition spread (m : Infos) : Prop :=
  forall k c s, is_Some (m !! k) -> c ∈ children (info_at m k) -> latest_invalid_ancestor (info_at m k) = Some s ->
    exists s', latest_invalid_ancestor (info_at m c) = Some s' /\ s <= s'.

Record fc_ok (self : FC) : Prop := {
  fc_tree : tree_ok (fork_infos self) (tree_root self);
  fc_nodes : forall k, is_Some (fork_infos self !! k) -> node_ok (fork_infos self) k;
  fc_marks : marks_ok (fork_infos self);
  fc_spread : spread (fork_infos self);
  fc_stake : forall k, is_Some (fork_infos self !! k) ->
    stake_voted_at (info_at (fork_infos self) k) = votes_at stake_of (latest_votes self) k;
  fc_default : fork_infos self !! default_key = None
}.

Lemma votes_at_bounds votes k : 0 <= votes_at stake_of votes k <= U64_MAX.
Proof.
  split.
  - apply Zsum_nonneg. intros e _. case_decide; [apply stake_nonneg|lia].
  - etrans; [|apply (stake_total votes)]. apply Zsum_le. intros e _. case_decide; [by subst|apply stake_nonneg].
Qed.

Lemma votes_at_wrap votes k : wrap 64 (votes_at stake_of votes k) = votes_at stake_of votes k.
Proof. apply wrap_small. pose proof (votes_at_bounds votes k). unfold word_max in *. lia. Qed.

Lemma fc_words self : fc_ok self ->
  forall k, is_Some (fork_infos self !! k) -> in_word 64 (stake_voted_at (info_at (fork_infos self) k)).
Proof. intros Hok k Hk. rewrite (fc_stake _ Hok k Hk). apply votes_at_bounds. Qed.

Lemma fc_confirmed_up self : fc_ok self -> confirmed_up (fork_infos self).
Proof. intros Hok k c Hk Hc Hcc. by eapply (ok_confirmed _ _ (fc_nodes _ Hok k Hk)). Qed.

(** ** Batches without marks *)

Lemma plain_verdicts m ops : confirmed_up m -> (forall o, o ∈ ops -> ~ is_mark o.2) -> verdicts_ok m ops.
Proof. intros _ Hno. left. intros o s Ho Heq. apply (Hno o Ho). by rewrite Heq. Qed.

Lemma no_marks_effect k ops l : (forall o, o ∈ ops -> ~ is_mark o.2) -> foldl (fun l o => mark_effect k o l) l ops = l.
Proof.
  revert l. induction ops as [|o ops IH]; intros l Hno; cbn; [done|]. rewrite IH by (intros; apply Hno; by right).
  unfold mark_effect. case_decide; [|done]. specialize (Hno o ltac:(left)). by destruct o.2.
Qed.

(** Such a batch leaves the marks alone. *)
Lemma plain_batch_marks m root ops m' :
  tree_ok m root -> confirmed_up m -> marks_ok m -> marks_ok m' -> processed m ops m' ->
  (forall o, o ∈ ops -> ~ is_mark o.2) ->
  forall k, is_Some (m !! k) -> (confirmed m' k <-> confirmed m k) /\
    latest_invalid_ancestor (info_at m' k) = latest_invalid_ancestor (info_at m k).
Proof.
  intros Ht Hup Hm Hm' Hpr Hno.
  assert (forall k, is_Some (m !! k) -> confirmed m' k -> confirmed m k) as Hsame.
  { apply (tree_induction m root (fun k => confirmed m' k -> confirmed m k) Ht). intros k Hk IH Hc.
    destruct (pr_confirmed _ _ _ Hpr k Hk Hc) as [|[(o & Ho & [_ Hco])|(c & Hcin & Hcc)]]; [done| |].
    - destruct (Hno o Ho). by rewrite Hco.
    - eapply Hup; [done|done|]. apply IH; [done|done]. }
  intros k Hk. split; [split; [by apply Hsame|by apply (pr_mono _ _ _ Hpr)]|].
  destruct (decide (is_duplicate_confirmed (info_at m' k) = true)) as [Hc|Hc].
  - rewrite (proj1 (Hm' k (proj2 (proj1 (pr_shape _ _ _ Hpr k)) Hk)) Hc). symmetry. apply (Hm k Hk). by apply Hsame.
  - rewrite (pr_latest _ _ _ Hpr k Hk Hc). by apply no_marks_effect.
Qed.

(** The state after a batch. *)
Lemma batch_fc_ok (self self' : FC) ops :
  fc_ok self -> processed (fork_infos self) ops (fork_infos self') -> marks_ok (fork_infos self') ->
  (forall k, is_Some (fork_infos self' !! k) -> node_ok (fork_infos self') k) ->
  spread (fork_infos self') -> tree_root self' = tree_root self ->
  (forall k, is_Some (fork_infos self !! k) ->
     wrap 64 (stake_voted_at (info_at (fork_infos self) k) + Zsum (contribution k) ops)
     = votes_at stake_of (latest_votes self') k) ->
  fc_ok self'.
Proof.
  intros Hok Hpr Hm' Hn' Hsp Hr Hst. pose proof (pr_shape _ _ _ Hpr) as Hsh. split; [|done|done|done| |].
  - rewrite Hr. eapply tree_ok_shape; [done|apply Hok].
  - intros k Hk%Hsh. rewrite (pr_stake _ _ _ Hpr k Hk). by apply Hst.
  - apply eq_None_not_Some. intros Hd%Hsh. rewrite (fc_default _ Hok) in Hd. by destruct Hd.
Qed.

(** A batch without marks leaves the invalid blocks alone. *)
Lemma plain_spread m root ops m' :
  tree_ok m root -> confirmed_up m -> marks_ok m -> marks_ok m' -> processed m ops m' ->
  (forall o, o ∈ ops -> ~ is_mark o.2) -> spread m -> spread m'.
Proof.
  intros Ht Hup Hm Hm' Hpr Hno Hsp k c s Hk%(pr_shape _ _ _ Hpr).
  pose proof (fun k Hk => proj2 (plain_batch_marks m root ops m' Ht Hup Hm Hm' Hpr Hno k Hk)) as Hl.
  destruct (pr_shape _ _ _ Hpr k) as (_ & _ & ->). rewrite Hl by done. intros Hc.
  destruct (tree_child _ _ Ht k c Hk Hc) as (_ & Hcin & _). rewrite (Hl c) by done. by apply Hsp.
Qed.

(** ** Votes *)

Lemma add_votes_ok (self : FC) votes :
  fc_ok self -> NoDup (filter (fun vote : Pubkey * SlotHashKey => (tree_root self).1 <= vote.2.1) votes).*1 ->
  exists best self', add_votes stake_of self votes = Some (best, self') /\ fc_ok self' /\
    best_overall_slot self' = Some best /\ tree_root self' = tree_root self /\
    latest_votes self' = foldl (record_vote (tree_root self)) (latest_votes self) votes /\
    same_shape (fork_infos self) (fork_infos self') /\
    (forall k, is_Some (fork_infos self !! k) ->
       latest_invalid_ancestor (info_at (fork_infos self') k) = latest_invalid_ancestor (info_at (fork_infos self) k)).
Proof.
  intros Hok Hnd. pose proof (fc_tree _ Hok) as Ht. pose proof (fc_confirmed_up _ Hok) as Hup.
  destruct (generate_spec stake_of stake_nonneg self votes Ht Hnd) as (ops & self1 & Hgen & Hg & Hlv).
  destruct Hg as [Hi Hr Hops Hcl Hno Hst].
  assert (forall o, o ∈ reverse ops -> ~ is_mark o.2) as Hno' by (intros o Ho; rewrite elem_of_reverse in Ho; auto).
  destruct (process_batch (reverse ops) (fork_infos self) (tree_root self)) as (m' & Hrun & Hpr & Hm' & Hn').
  { done. } { by apply fc_words. } { apply Hok. } { by apply plain_verdicts. }
  { apply batch_of_ops; [done|done|]. intros o Ho _ Hmk. by destruct (Hno o Ho). }
  { intros k Hk. left. by apply (fc_nodes _ Hok). }
  set (self' := with_infos self1 m').
  assert (fc_ok self') as Hok'.
  { eapply batch_fc_ok; [exact Hok|exact Hpr|done|done| |by cbn|].
    { eapply plain_spread; [done|done|apply Hok|done|done|done|apply Hok]. }
    intros k Hk. cbn. rewrite (fc_stake _ Hok k Hk), (Zsum_perm _ _ _ (reverse_Permutation ops)), Hst. apply votes_at_wrap. }
  destruct (tree_root_in _ _ (fc_tree _ Hok')) as [root_info Hroot].
  exists (best_slot root_info), self'. unfold add_votes. rewrite Hgen. cbn [mbind option_bind].
  unfold process_update_operations. rewrite Hi, Hrun. cbn [mbind option_bind]. fold self'.
  assert (best_overall_slot self' = Some (best_slot root_info)) as Hbest.
  { unfold best_overall_slot, best_slot_of. by rewrite Hroot. }
  rewrite Hbest. split_and!; [done|done|done|done|done|apply Hpr|].
  intros k Hk. apply (plain_batch_marks _ _ _ _ Ht Hup (fc_marks _ Hok) Hm' Hpr Hno' k Hk).
Qed.

(** ** New blocks *)

Lemma votes_at_none (votes : gmap Pubkey SlotHashKey) k : (forall v, votes !! v <> Some k) -> votes_at stake_of votes k = 0.
Proof.
  intros Hno. apply Zsum_zero. intros [v k'] Hv%elem_of_map_to_list. case_decide; [|done]. cbn in *. subst. by destruct (Hno v).
Qed.

Lemma add_new_leaf_ok (self : FC) key p :
  fc_ok self -> fork_infos self !! key = None -> is_Some (fork_infos self !! p) -> p.1 < key.1 -> key <> default_key ->
  (forall v, latest_votes self !! v <> Some key) ->
  exists self', add_new_leaf_slot self key (Some p) = Some self' /\ fc_ok self' /\
    tree_root self' = tree_root self /\ latest_votes self' = latest_votes self /\
    (forall k, is_Some (fork_infos self' !! k) <-> k = key \/ is_Some (fork_infos self !! k)).
Proof.
  intros Hok Hnew Hp Hlt Hdef Hvotes. pose proof (fc_tree _ Hok) as Ht. pose proof (fc_nodes _ Hok) as Hn.
  destruct (add_new_leaf_nodes self (tree_root self) key p Ht Hn Hnew Hp Hlt) as (m' & Hrun & Hbo & Ht' & Hn').
  set (leaf := MkForkInfo _ _ _ _ _ _ _ _ _) in Hbo. set (m2 := linked _ _ _ _) in Hbo.
  assert (info_at m2 key = leaf) as Hkey by (unfold m2; by apply linked_key).
  assert (forall k, is_Some (m' !! k) <-> k = key \/ is_Some (fork_infos self !! k)) as Hin.
  { intros k. rewrite (proj1 (bests_only_fields m2 m' k Hbo)). by apply linked_in. }
  assert (forall k, is_Some (fork_infos self !! k) ->
    latest_invalid_ancestor (info_at m' k) = latest_invalid_ancestor (info_at (fork_infos self) k) /\
    (confirmed m' k <-> confirmed (fork_infos self) k) /\
    stake_voted_at (info_at m' k) = stake_voted_at (info_at (fork_infos self) k)) as Hold.
  { intros k Hk. destruct (bests_only_fields m2 m' k Hbo) as (_ & _ & _ & _ & Hs & Hl & Hc).
    destruct (linked_old (fork_infos self) key p leaf Hnew k Hk) as ([= _ _ _ _ Hl' Hc'] & Hs' & _).
    unfold confirmed. rewrite Hs, Hl, Hc. unfold m2. by rewrite Hl', Hc', Hs'. }
  destruct (bests_only_fields m2 m' key Hbo) as (_ & _ & Hck & _ & Hsk & Hlk & Hcfk). rewrite Hkey in Hck, Hsk, Hlk, Hcfk.
  cbn in Hck, Hsk, Hlk, Hcfk. exists (with_infos self m'). split_and!; [done| |done|done|done]. split; cbn; [done|done| | | |].
  - intros k [->|Hk]%Hin.
    + unfold confirmed. rewrite Hcfk, Hlk. split; [done|]. intros s Hs. apply (fc_marks _ Hok) in Hs; [lia|done].
    + destruct (Hold k Hk) as (-> & -> & _). by apply (fc_marks _ Hok).
  - intros k c s [->|Hk]%Hin; [rewrite Hck; by intros ?%elem_of_nil|].
    destruct (bests_only_fields m2 m' k Hbo) as (_ & _ & -> & _). unfold m2. rewrite linked_children by done.
    intros [Hc|[-> ->]] Hs; [|exists s; rewrite Hlk; split; [|lia]; by destruct (Hold p Hp) as (<- & _)].
    destruct (tree_child _ _ Ht k c Hk Hc) as (_ & Hcin & _).
    destruct (Hold k Hk) as (Hlk' & _), (Hold c Hcin) as (-> & _). rewrite Hlk' in Hs. by apply (fc_spread _ Hok k).
  - intros k [->|Hk]%Hin; [rewrite Hsk; symmetry; by apply votes_at_none|].
    destruct (Hold k Hk) as (_ & _ & ->). by apply (fc_stake _ Hok).
  - apply eq_None_not_Some. intros [?|Hd]%Hin; [congruence|]. rewrite (fc_default _ Hok) in Hd. by destruct Hd.
Qed.

(** ** Duplicate blocks *)

(** A verdict on [key] that changes the latest invalid ancestors of its subtree by
    [f]. *)
Section Verdict.
Context (self : FC) (Hok : fc_ok self) (key : SlotHashKey) (Hkey : is_Some (fork_infos self !! key)).
Context (mark : UpdateOperation) (Hmark : mark_of mark) (f : option Slot -> option Slot).
Context (Hf : forall k l, mark_effect k ((k, op_label mark), mark) l = f l) (Hidem : forall l, f (f l) = f l).
Context (Hverdict : forall ops, (forall o, o ∈ ops -> o.2 = Aggregate \/
  (below (fork_infos self) key o.1.1 /\ o = ((o.1.1, op_label mark), mark))) -> verdicts_ok (fork_infos self) ops).

Lemma mark_contribution k o : o.2 = Aggregate \/ (below (fork_infos self) key o.1.1 /\ o = ((o.1.1, op_label mark), mark)) ->
  contribution k o = 0.
Proof using Hmark.
  clear - Hmark. intros Ho. unfold contribution. case_decide; [|done].
  destruct Ho as [->|[_ ->]]; [done|]. by destruct Hmark as [s [-> | ->]].
Qed.

Lemma mark_batch_run :
  exists subtree m', subtree_diff self key default_key = Some subtree /\
    (forall x, x ∈ subtree <-> below (fork_infos self) key x) /\ NoDup subtree /\
    process_update_operations self (mark_batch self key mark subtree) = Some (with_infos self m') /\
    processed (fork_infos self) (reverse (mark_batch self key mark subtree)) m' /\ marks_ok m' /\
    forall k, is_Some (m' !! k) -> node_ok m' k.
Proof.
  pose proof (fc_tree _ Hok) as Ht.
  destruct (subtree_all self (tree_root self) Ht key default_key Hkey (fc_default _ Hok)) as (l & Hrun & Hnd & Hl).
  destruct (mark_batch_spec self (tree_root self) Ht key mark Hmark Hkey l Hnd Hl) as (Hb & Hshape & _).
  destruct (process_batch (reverse (mark_batch self key mark l)) (fork_infos self) (tree_root self)) as (m' & Hpr & Hrest); try done.
  { by apply fc_words. } { apply Hok. } { apply Hverdict. intros o Ho. rewrite elem_of_reverse in Ho. by apply Hshape. }
  { intros k Hk. left. by apply (fc_nodes _ Hok). }
  exists l, m'. split_and!; try done; try apply Hrest. unfold process_update_operations. by rewrite Hpr.
Qed.

(** The latest invalid ancestors afterwards. *)
Lemma mark_latest subtree m' :
  (forall x, x ∈ subtree <-> below (fork_infos self) key x) -> NoDup subtree ->
  processed (fork_infos self) (reverse (mark_batch self key mark subtree)) m' ->
  forall k, is_Some (fork_infos self !! k) -> ~ confirmed m' k ->
    (below (fork_infos self) key k ->
       latest_invalid_ancestor (info_at m' k) = f (latest_invalid_ancestor (info_at (fork_infos self) k))) /\
    (~ below (fork_infos self) key k ->
       latest_invalid_ancestor (info_at m' k) = latest_invalid_ancestor (info_at (fork_infos self) k)).
Proof.
  intros Hl Hnd Hpr k Hk Hc. rewrite (pr_latest _ _ _ Hpr k Hk Hc).
  by apply (mark_batch_effect self (tree_root self) (fc_tree _ Hok)).
Qed.

Lemma mark_fc_ok subtree m' :
  (forall x, x ∈ subtree <-> below (fork_infos self) key x) -> NoDup subtree ->
  processed (fork_infos self) (reverse (mark_batch self key mark subtree)) m' ->
  marks_ok m' -> (forall k, is_Some (m' !! k) -> node_ok m' k) -> spread m' -> fc_ok (with_infos self m').
Proof.
  intros Hl Hnd Hpr Hm' Hn' Hsp. eapply batch_fc_ok; [exact Hok|exact Hpr|done|done|done|done|].
  intros k Hk. cbn. rewrite Zsum_zero, Z.add_0_r, (fc_stake _ Hok k Hk); [apply votes_at_wrap|].
  intros o Ho. rewrite elem_of_reverse in Ho. apply mark_contribution.
  by apply (mark_batch_spec self (tree_root self) (fc_tree _ Hok) key mark Hmark Hkey subtree Hnd Hl).
Qed.

(** The invalid blocks stay closed under children. *)
Lemma mark_spread subtree m' :
  (forall x, x ∈ subtree <-> below (fork_infos self) key x) -> NoDup subtree ->
  processed (fork_infos self) (reverse (mark_batch self key mark subtree)) m' ->
  marks_ok m' -> (forall k, is_Some (m' !! k) -> node_ok m' k) ->
  (forall l1 l2 s, (forall s0, l1 = Some s0 -> exists s1, l2 = Some s1 /\ s0 <= s1) -> f l1 = Some s ->
     exists s', f l2 = Some s' /\ s <= s') ->
  (confirmed m' key \/ forall l s, l = Some s -> exists s', f l = Some s' /\ s <= s') ->
  spread m'.
Proof.
  intros Hl Hnd Hpr Hm' Hn' Hmono Hgrow k c s Hk' Hc Hs. pose proof (fc_tree _ Hok) as Ht.
  pose proof (pr_shape _ _ _ Hpr) as Hsh. pose proof (proj1 (proj1 (Hsh k)) Hk') as Hk.
  destruct (Hsh k) as (_ & _ & Hch). rewrite Hch in Hc. destruct (tree_child _ _ Ht k c Hk Hc) as (_ & Hcin & Hcp).
  assert (~ confirmed m' k) as Hkc.
  { intros Hcf. rewrite (proj1 (Hm' k Hk') Hcf) in Hs. done. }
  assert (~ confirmed m' c) as Hcc.
  { intros Hcf. apply Hkc. apply (ok_confirmed _ _ (Hn' k Hk') c); [by rewrite Hch|done]. }
  destruct (mark_latest subtree m' Hl Hnd Hpr k Hk Hkc) as [Hk1 Hk2].
  destruct (mark_latest subtree m' Hl Hnd Hpr c Hcin Hcc) as [Hc1 Hc2].
  assert (forall x, below (fork_infos self) key x \/ ~ below (fork_infos self) key x) as Hdec.
  { intros x. destruct (decide (x ∈ subtree)) as [?%Hl|Hx]; [by left|right]. by rewrite <- Hl. }
  destruct (Hdec k) as [Hbk|Hbk].
  - rewrite Hc1 by (by eapply below_step). rewrite Hk1 in Hs by done. eapply Hmono; [|done]. intros s0 Hs0.
    by apply (fc_spread _ Hok k c s0).
  - rewrite Hk2 in Hs by done. destruct (fc_spread _ Hok k c s Hk Hc Hs) as (s1 & Hs1 & Hle).
    destruct (Hdec c) as [Hbc|Hbc]; [|rewrite Hc2 by done; eauto]. rewrite Hc1 by done.
    destruct Hgrow as [Hck|Hgrow].
    + inversion Hbc as [|y z Hy Hz Heq]; subst; [done|]. destruct (below_in _ _ _ _ Ht Hkey Hy) as [Hyin _].
      destruct (tree_child _ _ Ht y c Hyin Hz) as (_ & _ & Hyp). assert (y = k) as -> by congruence. done.
    + destruct (Hgrow _ _ Hs1) as (s' & ? & ?). exists s'. split; [done|lia].
Qed.
End Verdict.

Lemma below_unconfirmed (self : FC) key x :
  fc_ok self -> is_Some (fork_infos self !! key) -> ~ confirmed (fork_infos self) key ->
  below (fork_infos self) key x -> ~ confirmed (fork_infos self) x.
Proof.
  intros Hok Hkey Hno Hb. induction Hb as [|y c Hb IH Hc]; [done|]. intros Hcc. apply IH.
  eapply fc_confirmed_up; [done| |done|done]. by apply (below_in _ _ _ _ (fc_tree _ Hok) Hkey Hb).
Qed.

Definition raise_to (s : Slot) (l : option Slot) : option Slot :=
  match l with Some l => if l <? s then Some s else Some l | None => Some s end.
Definition clear_to (s : Slot) (l : option Slot) : option Slot :=
  match l with Some l => if l <=? s then None else Some l | None => None end.

(** Marking a block that is not confirmed invalidates its subtree. *)
Lemma mark_invalid_ok (self : FC) key :
  fc_ok self -> is_Some (fork_infos self !! key) -> ~ confirmed (fork_infos self) key ->
  exists self', mark_fork_invalid_candidate self key = Some self' /\ fc_ok self' /\
    tree_root self' = tree_root self /\ latest_votes self' = latest_votes self /\
    same_shape (fork_infos self) (fork_infos self') /\
    (forall k, is_Some (fork_infos self !! k) ->
       (confirmed (fork_infos self') k <-> confirmed (fork_infos self) k) /\
       (below (fork_infos self) key k -> ~ candidate (fork_infos self') k) /\
       (~ below (fork_infos self) key k -> candidate (fork_infos self') k <-> candidate (fork_infos self) k)).
Proof.
  intros Hok Hkey Hno. pose proof (fc_tree _ Hok) as Ht.
  assert (mark_of (MarkInvalid key.1)) as Hmark by (exists key.1; by right).
  assert (forall k l, mark_effect k ((k, LMarkInvalid key.1), MarkInvalid key.1) l = raise_to key.1 l) as Hf.
  { intros k l. unfold mark_effect. cbn. rewrite decide_True by done. by destruct l. }
  assert (forall l, raise_to key.1 (raise_to key.1 l) = raise_to key.1 l) as Hidem.
  { intros [l|]; cbn; [destruct (l <? key.1) eqn:E; cbn; [by rewrite Z.ltb_irrefl|by rewrite E]|by rewrite Z.ltb_irrefl]. }
  assert (forall ops, (forall o, o ∈ ops -> o.2 = Aggregate \/ (below (fork_infos self) key o.1.1 /\
    o = ((o.1.1, LMarkInvalid key.1), MarkInvalid key.1))) -> verdicts_ok (fork_infos self) ops) as Hverdict.
  { intros ops Hops. right. split_and!; [by apply fc_confirmed_up| |].
    - intros o s Ho Hv. destruct (Hops o Ho) as [Ha|[_ Ha]]; rewrite Ha in Hv; done.
    - intros o s Ho Hv. destruct (Hops o Ho) as [Ha|[Hb Ha]]; [congruence|]. rewrite Ha in Hv. injection Hv as <-.
      destruct (below_in _ _ _ _ Ht Hkey Hb) as [_ Hs]. split; [destruct Hs as [->|]; lia|].
      intros _. by eapply below_unconfirmed. }
  destruct (mark_batch_run self Hok key Hkey (MarkInvalid key.1) Hmark Hverdict)
    as (sub & m' & Hsub & Hl & Hnd & Hrun & Hpr & Hm' & Hn').
  assert (forall k, is_Some (fork_infos self !! k) -> confirmed m' k -> confirmed (fork_infos self) k) as Hsame.
  { apply (tree_induction _ _ (fun k => confirmed m' k -> confirmed (fork_infos self) k) Ht). intros k Hk IH Hc.
    destruct (pr_confirmed _ _ _ Hpr k Hk Hc) as [|[(o & Ho & [_ Hco])|(c & Hcin & Hcc)]]; [done| |].
    - rewrite elem_of_reverse in Ho.
      destruct (mark_batch_spec self _ Ht key _ Hmark Hkey sub Hnd Hl) as (_ & Hshape & _).
      destruct (Hshape o Ho) as [Ha|[_ Ha]]; rewrite Ha in Hco; done.
    - eapply fc_confirmed_up; [done|done|done|]. by apply IH. }
  pose proof (mark_latest self Hok key Hkey _ Hmark _ Hf Hidem sub m' Hl Hnd Hpr) as Hlat.
  exists (with_infos self m'). split_and!; [|  |done|done|apply Hpr|].
  - unfold mark_fork_invalid_candidate. rewrite (lookup_info_at _ _ Hkey). unfold confirmed in Hno.
    apply not_true_is_false in Hno. rewrite Hno, Hsub. exact Hrun.
  - apply (mark_fc_ok self Hok key Hkey (MarkInvalid key.1) Hmark sub m'); try done.
    apply (mark_spread self Hok key Hkey (MarkInvalid key.1) Hmark (raise_to key.1) Hf Hidem Hverdict sub m'); try done.
    + intros l1 l2 s H12. destruct l1 as [s0|]; cbn.
      * destruct (H12 s0 eq_refl) as (s1 & -> & ?). cbn. intros Hs.
        destruct (Z.ltb_spec s0 key.1), (Z.ltb_spec s1 key.1); injection Hs as <-; eexists; (split; [done|lia]).
      * intros [= <-]. destruct l2 as [s1|]; cbn; [destruct (Z.ltb_spec s1 key.1)|]; eexists; (split; [done|lia]).
    + right. intros l s ->. cbn. destruct (Z.ltb_spec s key.1); eexists; (split; [done|lia]).
  - cbn. intros k Hk. split; [split; [by apply Hsame|by apply (pr_mono _ _ _ Hpr)]|].
    split; intros Hb; unfold candidate.
    + rewrite (proj1 (Hlat k Hk (fun Hc => below_unconfirmed self key k Hok Hkey Hno Hb (Hsame k Hk Hc))) Hb).
      unfold raise_to. destruct (latest_invalid_ancestor _) as [l|]; [destruct (l <? key.1)|]; done.
    + destruct (decide (is_duplicate_confirmed (info_at m' k) = true)) as [Hc|Hc].
      * rewrite (proj1 (Hm' k (proj2 (proj1 (pr_shape _ _ _ Hpr k)) Hk)) Hc).
        by rewrite (proj1 (fc_marks _ Hok k Hk) (Hsame k Hk Hc)).
      * by rewrite (proj2 (Hlat k Hk Hc) Hb).
Qed.

(** The ancestors of a block, as the iterator gives them. *)
Lemma ancestors_in (self : FC) key a :
  fc_ok self -> is_Some (fork_infos self !! key) -> a ∈ key :: ancestor_iterator self key -> is_Some (fork_infos self !! a).
Proof.
  intros Hok Hkey [->|Ha]%elem_of_cons; [done|]. by apply (ancestors_below _ _ _ (fc_tree _ Hok) key a Hkey) in Ha as [_ ?].
Qed.

(** A confirmed block confirms the blocks above it. *)
Lemma confirmed_above (m : Infos) root a x :
  tree_ok m root -> confirmed_up m -> is_Some (m !! a) -> below m a x -> confirmed m x -> confirmed m a.
Proof.
  intros Ht Hup Ha Hb. induction Hb as [|y c Hb IH Hc]; [done|]. intros Hcc. apply IH.
  eapply Hup; [|done|done]. by apply (below_in _ _ _ _ Ht Ha Hb).
Qed.

Lemma newly_confirmed_run (self : FC) keys acc :
  (forall a, a ∈ keys -> is_Some (fork_infos self !! a)) ->
  foldM (fun l a =>
    confirmed ← is_duplicate_confirmed_of self a;
    Some (if (confirmed : bool) then l else l ++ [a])) acc keys
  = Some (acc ++ filter (fun a => is_duplicate_confirmed (info_at (fork_infos self) a) = false) keys).
Proof.
  revert acc. induction keys as [|a keys IH]; intros acc Hin; cbn [foldM]; [by rewrite filter_nil, app_nil_r|].
  assert (is_duplicate_confirmed_of self a = Some (is_duplicate_confirmed (info_at (fork_infos self) a))) as ->.
  { unfold is_duplicate_confirmed_of. by rewrite (lookup_info_at _ a (Hin a ltac:(left))). }
  cbn [mbind option_bind]. rewrite IH by (intros; apply Hin; by right). rewrite filter_cons.
  destruct (is_duplicate_confirmed (info_at (fork_infos self) a)) eqn:E.
  - by rewrite decide_False.
  - by rewrite decide_True, <- app_assoc by done.
Qed.

(** Confirming a block confirms its ancestors, makes them valid again, and clears
    in its subtree the marks that stem from it or from before it. *)
Lemma mark_valid_ok (self : FC) key :
  fc_ok self -> is_Some (fork_infos self !! key) ->
  exists self', mark_fork_valid_candidate self key
      = Some (filter (fun a => is_duplicate_confirmed (info_at (fork_infos self) a) = false)
                (key :: ancestor_iterator self key), self') /\
    fc_ok self' /\ tree_root self' = tree_root self /\ latest_votes self' = latest_votes self /\
    same_shape (fork_infos self) (fork_infos self') /\
    (forall k, is_Some (fork_infos self !! k) ->
       (confirmed (fork_infos self') k <-> confirmed (fork_infos self) k \/ below (fork_infos self) k key)) /\
    (forall k, below (fork_infos self) k key -> is_Some (fork_infos self !! k) -> candidate (fork_infos self') k) /\
    (forall k s, below (fork_infos self) key k -> ~ confirmed (fork_infos self') k ->
       latest_invalid_ancestor (info_at (fork_infos self) k) = Some s ->
       candidate (fork_infos self') k <-> s <= key.1).
Proof.
  intros Hok Hkey. pose proof (fc_tree _ Hok) as Ht.
  assert (mark_of (MarkValid key.1)) as Hmark by (exists key.1; by left).
  assert (forall k l, mark_effect k ((k, LMarkValid key.1), MarkValid key.1) l = clear_to key.1 l) as Hf.
  { intros k l. unfold mark_effect. cbn. rewrite decide_True by done. by destruct l. }
  assert (forall l, clear_to key.1 (clear_to key.1 l) = clear_to key.1 l) as Hidem.
  { intros [l|]; cbn; [|done]. destruct (l <=? key.1) eqn:E; cbn; [done|by rewrite E]. }
  assert (forall ops, (forall o, o ∈ ops -> o.2 = Aggregate \/ (below (fork_infos self) key o.1.1 /\
    o = ((o.1.1, LMarkValid key.1), MarkValid key.1))) -> verdicts_ok (fork_infos self) ops) as Hverdict.
  { intros ops Hops. left. intros o s Ho Hv. destruct (Hops o Ho) as [Ha|[_ Ha]]; rewrite Ha in Hv; done. }
  destruct (mark_batch_run self Hok key Hkey (MarkValid key.1) Hmark Hverdict)
    as (sub & m' & Hsub & Hl & Hnd & Hrun & Hpr & Hm' & Hn').
  destruct (mark_batch_spec self _ Ht key _ Hmark Hkey sub Hnd Hl) as (_ & Hshape & Hall).
  pose proof (mark_latest self Hok key Hkey _ Hmark _ Hf Hidem sub m' Hl Hnd Hpr) as Hlat.
  pose proof (pr_shape _ _ _ Hpr) as Hsh.
  assert (confirmed m' key) as Hck.
  { eapply (pr_confirms _ _ _ Hpr key ((key, LMarkValid key.1), MarkValid key.1)); [done| |done].
    rewrite elem_of_reverse. apply (Hall key). constructor. }
  assert (forall k, is_Some (fork_infos self !! k) -> confirmed m' k <->
    confirmed (fork_infos self) k \/ below (fork_infos self) k key) as Hconf.
  { intros k Hk. split; [revert k Hk|intros [Hc|Hb]].
    - apply (tree_induction _ _ (fun k => confirmed m' k -> confirmed (fork_infos self) k \/ below (fork_infos self) k key) Ht).
      intros k Hk IH Hc. destruct (pr_confirmed _ _ _ Hpr k Hk Hc) as [|[(o & Ho & [Hok1 Hco])|(c & Hcin & Hcc)]]; [by left|right|].
      + rewrite elem_of_reverse in Ho. destruct (Hshape o Ho) as [Ha|[Hb Ha]]; rewrite Ha in Hco; [done|].
        injection Hco as Hs. rewrite Hok1 in Hb. destruct (below_in _ _ _ _ Ht Hkey Hb) as [_ [->|?]]; [constructor|lia].
      + destruct (IH c Hcin Hcc) as [?|Hb]; [left; by eapply fc_confirmed_up|right]. by eapply below_child.
    - by apply (pr_mono _ _ _ Hpr).
    - eapply (confirmed_above m' (tree_root self)); [by eapply tree_ok_shape| |by apply Hsh|by eapply below_shape|done].
      intros x c Hx Hc Hcc. by apply (ok_confirmed _ _ (Hn' x Hx) c). }
  exists (with_infos self m'). split_and!; [| |done|done|done|done| |].
  - unfold mark_fork_valid_candidate. rewrite newly_confirmed_run by (intros; by eapply ancestors_in).
    cbn [mbind option_bind]. rewrite Hsub. cbn [mbind option_bind]. fold (mark_batch self key (MarkValid key.1) sub).
    by rewrite Hrun.
  - apply (mark_fc_ok self Hok key Hkey (MarkValid key.1) Hmark sub m'); try done.
    apply (mark_spread self Hok key Hkey (MarkValid key.1) Hmark (clear_to key.1) Hf Hidem Hverdict sub m'); try done; [|by left].
    intros [s0|] l2 s H12; cbn; [|done]. destruct (H12 s0 eq_refl) as (s1 & -> & ?). cbn. destruct (Z.leb_spec s0 key.1); [done|].
    intros [= <-]. destruct (Z.leb_spec s1 key.1); [lia|eauto].
  - intros k Hb Hk. apply (Hm' k); [by apply Hsh|]. apply Hconf; auto.
  - intros k s Hb Hc Hs. destruct (below_in _ _ _ _ Ht Hkey Hb) as [Hk _]. unfold candidate. cbn.
    rewrite (proj1 (Hlat k Hk Hc) Hb), Hs. cbn. destruct (Z.leb_spec s key.1); (split; [done|]); [done|lia].
Qed.

End Invariant.
End Invariant.
