(* ===== verification/ForkRoots.v ===== *)
(** * Roots and subtrees of the fork choice

    Moving the root up or down, splitting a subtree off and merging it back keep
    the invariant of both trees. *)

From S2P Require Import Prelude OrdMap ForkChoice ForkTree ForkUpdate ForkVisit ForkLeaf ForkInvariant.
Import Fork Tree Update Visit Leaf Invariant.

Module Roots.

(** ** Subtrees *)

(** Every block is below the root. *)
Lemma all_below m root : tree_ok m root -> forall k, is_Some (m !! k) -> below m root k.
Proof.
  intros Ht k Hk. destruct (chain_exists m root k Ht Hk) as (l & Hl & _). revert k Hk Hl.
  induction l as [|p l IH]; intros k Hk Hl.
  - destruct (decide (k = root)) as [->|Hne]; [constructor|]. destruct (tree_parent _ _ Ht k Hk Hne) as (p & Hp & _).
    cbn in Hl. congruence.
  - destruct Hl as [Hp Hl]. destruct (tree_parent_unique _ _ _ _ Ht Hk Hp) as (Hpin & Hc & _).
    eapply below_step; [by apply IH|done].
Qed.

(** [m'] is the subtree of [m] below [r], with [r] as its root. *)
Definition subtree_of (m : Infos) (r : SlotHashKey) (m' : Infos) : Prop :=
  (forall k, is_Some (m' !! k) <-> is_Some (m !! k) /\ below m r k) /\
  (forall k, below m r k -> info_at m' k = if decide (k = r) then with_parent None (info_at m k) else info_at m k).

Section Subtree.
Context (m : Infos) (root r : SlotHashKey) (m' : Infos).
Context (Ht : tree_ok m root) (Hr : is_Some (m !! r)) (Hcut : subtree_of m r m').

Lemma subtree_info k : is_Some (m' !! k) ->
  is_Some (m !! k) /\ below m r k /\ summary (info_at m' k) = summary (info_at m k) /\
  stake_voted_at (info_at m' k) = stake_voted_at (info_at m k) /\ children (info_at m' k) = children (info_at m k) /\
  (k <> r -> parent (info_at m' k) = parent (info_at m k)).
Proof.
  intros [Hk Hb]%Hcut. rewrite (proj2 Hcut k Hb). split_and!; [done|done|by case_decide..|].
  intros Hne. by rewrite decide_False.
Qed.

Lemma subtree_child k c : is_Some (m' !! k) -> c ∈ children (info_at m' k) ->
  is_Some (m' !! c) /\ c <> r /\ k.1 < c.1 /\ parent (info_at m' c) = Some k /\ c ∈ children (info_at m k).
Proof.
  intros Hk Hc. destruct (subtree_info k Hk) as (Hkm & Hb & _ & _ & Hch & _). rewrite Hch in Hc.
  destruct (tree_child _ _ Ht k c Hkm Hc) as (Hlt & Hcm & Hcp).
  assert (is_Some (m' !! c)) as Hc' by (apply Hcut; split; [done|by eapply below_step]).
  assert (c <> r) as Hne. { intros ->. destruct (below_in _ _ _ _ Ht Hr Hb) as [_ [->|?]]; lia. }
  split_and!; try done. by rewrite (proj2 (proj2 (proj2 (proj2 (proj2 (subtree_info c Hc')))))).
Qed.

Lemma subtree_tree : tree_ok m' r.
Proof.
  assert (is_Some (m' !! r)) as Hr' by (apply Hcut; split; [done|constructor]). split.
  - done.
  - rewrite (proj2 Hcut r) by constructor. by rewrite decide_True.
  - intros k Hk Hne. destruct (subtree_info k Hk) as (Hkm & Hb & _ & _ & _ & Hp). rewrite Hp by done.
    inversion Hb as [|y c Hy Hc Heq]; subst; [done|]. destruct (below_in _ _ _ _ Ht Hr Hy) as [Hym _].
    destruct (tree_child _ _ Ht y k Hym Hc) as (_ & _ & Hcp). exists y.
    assert (is_Some (m' !! y)) as Hy' by by apply Hcut. split_and!; [done|done|].
    by destruct (subtree_info y Hy') as (_ & _ & _ & _ & -> & _).
  - intros k c Hk Hc. by destruct (subtree_child k c Hk Hc) as (? & ? & ? & ? & ?).
  - intros k Hk. destruct (subtree_info k Hk) as (Hkm & _ & _ & _ & -> & _). by apply Ht.
Qed.

Lemma subtree_nodes : (forall k, is_Some (m !! k) -> node_ok m k) -> forall k, is_Some (m' !! k) -> node_ok m' k.
Proof.
  intros Hn k Hk. destruct (subtree_info k Hk) as (Hkm & Hb & [= Hw Hh Hbs Hd Hl Hc] & Hs & Hch & _).
  apply (node_ok_change m); [done|done|done|done| | | | |by apply Hn].
  - unfold candidate. by rewrite Hl.
  - unfold confirmed. by rewrite Hc.
  - intros c Hcin. rewrite <- Hch in Hcin. destruct (subtree_child k c Hk Hcin) as (Hc' & _). by apply subtree_info.
  - unfold weight at 1. rewrite Hw, Hs. apply (Hn k Hkm).
Qed.

Lemma subtree_marks : marks_ok m -> marks_ok m'.
Proof.
  intros Hm k Hk. destruct (subtree_info k Hk) as (Hkm & _ & [= _ _ _ _ Hl Hc] & _). unfold confirmed. rewrite Hl, Hc. by apply Hm.
Qed.

Lemma subtree_spread : spread m -> spread m'.
Proof.
  intros Hsp k c s Hk Hc. destruct (subtree_child k c Hk Hc) as (Hc' & _ & _ & _ & Hcm).
  destruct (subtree_info k Hk) as (Hkm & _ & [= _ _ _ _ Hl _] & _), (subtree_info c Hc') as (_ & _ & [= _ _ _ _ Hl' _] & _).
  rewrite Hl, Hl'. by apply Hsp.
Qed.
End Subtree.

(** Removing blocks. *)
Lemma remove_blocks_spec (keys : list SlotHashKey) (m : Infos) :
  NoDup keys -> (forall k, k ∈ keys -> is_Some (m !! k)) ->
  exists m', remove_blocks m keys = Some m' /\ forall k, m' !! k = if decide (k ∈ keys) then None else m !! k.
Proof.
  revert m. induction keys as [|key keys IH]; intros m Hnd Hin.
  - exists m. split; [done|]. intros k. rewrite decide_False; [done|]. by intros ?%elem_of_nil.
  - apply NoDup_cons in Hnd as [Hk Hnd]. cbn [remove_blocks]. destruct (Hin key ltac:(left)) as [i Hi]. rewrite Hi.
    cbn [mbind option_bind]. destruct (IH (delete key m) Hnd) as (m' & Hrun & Hm').
    { intros k Hkin. rewrite lookup_delete_ne by (intros ->; done). apply Hin. by right. }
    exists m'. split; [done|]. intros k. rewrite Hm'. destruct (decide (k = key)) as [->|Hne].
    + rewrite decide_False, decide_True by (done || left). apply lookup_delete_eq.
    + rewrite lookup_delete_ne by done. apply decide_ext. rewrite elem_of_cons. naive_solver.
Qed.

(** ** A root above the root *)

Section RootParent.
Context (m : Infos) (root rp : SlotHashKey) (Ht : tree_ok m root) (Hnew : m !! rp = None) (Hlt : rp.1 < root.1).
Context (i : ForkInfo).
Context (Hi : i = MkForkInfo 0 (weight m root) (height (info_at m root) + 1) (best_slot (info_at m root))
  (deepest_slot (info_at m root)) None [root] None (is_duplicate_confirmed (info_at m root))).

Definition raised : Infos := <[rp := i]> (<[root := with_parent (Some rp) (info_at m root)]> m).

Lemma raised_at k : info_at raised k =
  if decide (k = rp) then i else if decide (k = root) then with_parent (Some rp) (info_at m root) else info_at m k.
Proof. unfold raised. by rewrite !info_at_insert. Qed.

Lemma raised_in k : is_Some (raised !! k) <-> k = rp \/ is_Some (m !! k).
Proof.
  unfold raised. destruct (decide (k = rp)) as [->|Hne]; [rewrite lookup_insert_eq; naive_solver|].
  rewrite lookup_insert_ne by done. rewrite is_Some_insert by apply Ht. naive_solver.
Qed.

Lemma raised_old k : is_Some (m !! k) ->
  k <> rp /\ summary (info_at raised k) = summary (info_at m k) /\
  stake_voted_at (info_at raised k) = stake_voted_at (info_at m k) /\ children (info_at raised k) = children (info_at m k) /\
  parent (info_at raised k) = if decide (k = root) then Some rp else parent (info_at m k).
Proof.
  intros Hk. assert (k <> rp) as Hne. { intros ->. rewrite Hnew in Hk. by destruct Hk. }
  rewrite raised_at, decide_False by done. case_decide; by subst.
Qed.

Lemma raised_tree : tree_ok raised rp.
Proof.
  split.
  - apply raised_in. by left.
  - by rewrite raised_at, decide_True, Hi by done.
  - intros k [->|Hk]%raised_in Hne; [done|]. destruct (raised_old k Hk) as (_ & _ & _ & _ & Hp). rewrite Hp.
    destruct (decide (k = root)) as [->|Hkr].
    + exists rp. split_and!; [done|apply raised_in; by left|]. rewrite raised_at, decide_True, Hi by done. by left.
    + destruct (tree_parent _ _ Ht k Hk Hkr) as (p & Hpp & Hpin & Hc). exists p. split_and!; [done|apply raised_in; by right|].
      by destruct (raised_old p Hpin) as (_ & _ & _ & -> & _).
  - intros k c [->|Hk]%raised_in.
    + rewrite raised_at, decide_True, Hi by done. cbn. intros ->%list_elem_of_singleton.
      destruct (raised_old root (tree_root_in _ _ Ht)) as (_ & _ & _ & _ & Hp). rewrite Hp, decide_True, raised_in by done.
      split_and!; [done|right; apply Ht|done].
    + destruct (raised_old k Hk) as (_ & _ & _ & -> & _). intros Hc. destruct (tree_child _ _ Ht k c Hk Hc) as (Hkc & Hcin & Hcp).
      destruct (raised_old c Hcin) as (_ & _ & _ & _ & Hp). rewrite Hp, raised_in. split_and!; [done|by right|].
      rewrite decide_False; [done|]. intros ->. rewrite (tree_root_parent _ _ Ht) in Hcp. done.
  - intros k [->|Hk]%raised_in; [rewrite raised_at, decide_True, Hi by done; repeat constructor|].
    destruct (raised_old k Hk) as (_ & _ & _ & -> & _). by apply Ht.
Qed.

Lemma raised_root_node : in_word 64 (weight m root) -> candidate m root -> node_ok raised rp.
Proof.
  intros Hw Hcand. destruct (raised_old root (tree_root_in _ _ Ht)) as (Hne & [= Hwr Hhr Hbr Hdr Hlr Hcr] & _).
  assert (info_at raised rp = i) as Hrp by (by rewrite raised_at, decide_True).
  split; unfold deepest_ok, best_ok, best_within; rewrite ?Hrp, ?Hi; cbn.
  - unfold weight. rewrite Hrp, Hi, Hwr. cbn. fold (weight m root). rewrite Z.add_0_r. symmetry. apply wrap_small. unfold in_word, word_max in Hw. lia.
  - intros c ->%list_elem_of_singleton. unfold confirmed. by rewrite Hrp, Hi, Hcr.
  - right. exists root. rewrite Hhr, Hdr. split; [|done]. split_and!; [left|done|]. intros c ->%list_elem_of_singleton. by left.
  - intros _. right. exists root. rewrite Hbr. split; [|done]. split_and!; [left| |].
    + unfold candidate. by rewrite Hlr.
    + intros c ->%list_elem_of_singleton. by left.
  - right. exists root. rewrite Hbr. split; [left|done].
Qed.

Lemma raised_node k : is_Some (m !! k) -> node_ok m k -> node_ok raised k.
Proof.
  intros Hk Hn. destruct (raised_old k Hk) as (Hne & [= Hw Hh Hb Hd Hl Hc] & Hs & Hch & _).
  apply (node_ok_change m); [done..| | | | |done].
  - unfold candidate. by rewrite Hl.
  - unfold confirmed. by rewrite Hc.
  - intros c Hcin. destruct (tree_child _ _ Ht k c Hk Hcin) as (_ & Hcm & _). by apply raised_old.
  - unfold weight at 1. rewrite Hw, Hs. apply Hn.
Qed.
End RootParent.

Section Roots.
Context {Pubkey : Type} `{Countable Pubkey} (stake_of : Pubkey -> Slot -> Z) `{!Stakes stake_of}.
#[local] Abbreviation FC := (HeaviestSubtreeForkChoice (Pubkey := Pubkey)).
#[local] Abbreviation fc_ok := (fc_ok stake_of).

(** The subtree below a block, with the votes for its blocks. *)
Lemma subtree_fc_ok (self self' : FC) r :
  fc_ok self -> is_Some (fork_infos self !! r) -> subtree_of (fork_infos self) r (fork_infos self') ->
  tree_root self' = r ->
  (forall k, is_Some (fork_infos self' !! k) ->
     votes_at stake_of (latest_votes self') k = votes_at stake_of (latest_votes self) k) ->
  fc_ok self'.
Proof.
  intros Hok Hr Hcut Hroot Hv. pose proof (fc_tree _ _ Hok) as Ht. split.
  - rewrite Hroot. by eapply subtree_tree.
  - eapply subtree_nodes; [done|done|done|apply Hok].
  - eapply subtree_marks; [done|apply Hok].
  - eapply subtree_spread; [done|done|done|apply Hok].
  - intros k Hk. destruct (subtree_info _ _ _ Hcut k Hk) as (Hkm & _ & _ & -> & _). rewrite Hv by done. by apply Hok.
  - apply eq_None_not_Some. intros [Hd _]%Hcut. rewrite (fc_default _ _ Hok) in Hd. by destruct Hd.
Qed.

(** Removing every block that is not below [r]. *)
Lemma reroot_ok (self : FC) r l :
  fc_ok self -> is_Some (fork_infos self !! r) -> NoDup l ->
  (forall k, k ∈ l <-> is_Some (fork_infos self !! k) /\ ~ below (fork_infos self) r k) ->
  exists m1, remove_blocks (fork_infos self) l = Some m1 /\ m1 !! r = Some (info_at (fork_infos self) r) /\
    let m' := <[r := with_parent None (info_at (fork_infos self) r)]> m1 in
    subtree_of (fork_infos self) r m' /\ fc_ok (MkFork m' (latest_votes self) r).
Proof.
  intros Hok Hr Hnd Hl. pose proof (fc_tree _ _ Hok) as Ht.
  destruct (remove_blocks_spec l (fork_infos self) Hnd) as (m1 & Hrun & Hm1); [by intros k [? _]%Hl|].
  assert (forall k, is_Some (fork_infos self !! k) -> k ∉ l <-> below (fork_infos self) r k) as Hout.
  { intros k Hk. rewrite Hl. split; [|tauto]. intros Hkl. destruct (below_or_not _ _ r k Ht Hr Hk); tauto. }
  assert (m1 !! r = Some (info_at (fork_infos self) r)) as Hr1.
  { rewrite Hm1, decide_False; [by apply lookup_info_at|]. apply Hout; [done|constructor]. }
  exists m1. split_and!; [done..|]. cbv zeta.
  assert (subtree_of (fork_infos self) r (<[r := with_parent None (info_at (fork_infos self) r)]> m1)) as Hcut.
  { split.
    - intros k. rewrite is_Some_insert by (by rewrite Hr1). rewrite Hm1. split.
      + case_decide as Hkl; [by intros [? ?]|]. intros Hk. split; [done|by apply Hout].
      + intros [Hk Hb]. rewrite decide_False by (by apply Hout). done.
    - intros k Hb. rewrite info_at_insert. case_decide; [by subst|]. unfold info_at. rewrite Hm1, decide_False; [done|].
      apply Hout; [|done]. by apply (below_in _ _ _ _ Ht Hr Hb). }
  split; [done|]. by eapply subtree_fc_ok.
Qed.

Lemma set_tree_root_ok (self : FC) r :
  fc_ok self -> is_Some (fork_infos self !! r) ->
  exists self', set_tree_root self r = Some self' /\ fc_ok self' /\ tree_root self' = r /\
    latest_votes self' = latest_votes self /\ subtree_of (fork_infos self) r (fork_infos self').
Proof.
  intros Hok Hr. pose proof (fc_tree _ _ Hok) as Ht.
  destruct (subtree_diff_spec self (tree_root self) Ht (tree_root self) r (tree_root_in _ _ Ht)) as (l & Hdiff & Hnd & Hl).
  { intros y _. by rewrite (tree_root_parent _ _ Ht). }
  destruct (reroot_ok self r l Hok Hr Hnd) as (m1 & Hrun & Hr1 & Hcut & Hok').
  { intros k. rewrite Hl. split; intros [Hb Hn]; (split; [|done]);
      [by apply (below_in _ _ _ _ Ht (tree_root_in _ _ Ht) Hb)|by apply all_below]. }
  eexists. split; [unfold set_tree_root; rewrite Hdiff; cbn [mbind option_bind]; rewrite Hrun; cbn [mbind option_bind];
    rewrite Hr1; done|]. done.
Qed.

Lemma add_root_parent_ok (self : FC) rp :
  fc_ok self -> fork_infos self !! rp = None -> rp.1 < (tree_root self).1 -> rp <> default_key ->
  candidate (fork_infos self) (tree_root self) -> (forall v, latest_votes self !! v <> Some rp) ->
  exists self', add_root_parent self rp = Some self' /\ fc_ok self' /\ tree_root self' = rp /\
    latest_votes self' = latest_votes self /\
    (forall k, is_Some (fork_infos self' !! k) <-> k = rp \/ is_Some (fork_infos self !! k)).
Proof.
  intros Hok Hnew Hlt Hdef Hcand Hvotes. pose proof (fc_tree _ _ Hok) as Ht.
  assert (in_word 64 (weight (fork_infos self) (tree_root self))) as Hw.
  { rewrite (ok_stake _ _ (fc_nodes _ _ Hok _ (tree_root_in _ _ Ht))). by apply wrap_in_word. }
  set (i := MkForkInfo 0 (weight (fork_infos self) (tree_root self)) (height (info_at (fork_infos self) (tree_root self)) + 1)
    (best_slot (info_at (fork_infos self) (tree_root self))) (deepest_slot (info_at (fork_infos self) (tree_root self)))
    None [tree_root self] None (is_duplicate_confirmed (info_at (fork_infos self) (tree_root self)))).
  pose proof (raised_in (fork_infos self) (tree_root self) rp Ht i eq_refl) as Hin.
  pose proof (raised_old (fork_infos self) (tree_root self) rp Hnew i) as Hold.
  assert (info_at (raised (fork_infos self) (tree_root self) rp i) rp = i) as Hrp by (by rewrite raised_at, decide_True).
  exists (MkFork (raised (fork_infos self) (tree_root self) rp i) (latest_votes self) rp).
  split_and!; [|split|done|done|exact Hin]; cbn.
  - unfold add_root_parent, contains_block. rewrite (proj2 (Z.ltb_lt _ _) Hlt). cbn [negb].
    rewrite bool_decide_eq_false_2 by (rewrite Hnew; by intros [? ?]). by rewrite (lookup_info_at _ _ (tree_root_in _ _ Ht)).
  - by apply raised_tree.
  - intros k [->|Hk]%Hin; [by apply raised_root_node|]. apply raised_node; try done. by apply Hok.
  - intros k [->|Hk]%Hin; [rewrite Hrp; cbn; done|]. destruct (Hold k Hk) as (_ & [= _ _ _ _ Hl Hc] & _).
    unfold confirmed. rewrite Hl, Hc. by apply (fc_marks _ _ Hok).
  - intros k c s [->|Hk]%Hin; [by rewrite Hrp|]. destruct (Hold k Hk) as (_ & [= _ _ _ _ Hl _] & _ & -> & _). rewrite Hl. intros Hc.
    destruct (tree_child _ _ Ht k c Hk Hc) as (_ & Hcin & _). destruct (Hold c Hcin) as (_ & [= _ _ _ _ Hl' _] & _).
    rewrite Hl'. by apply (fc_spread _ _ Hok).
  - intros k [->|Hk]%Hin; [rewrite Hrp; symmetry; by apply votes_at_none|].
    destruct (Hold k Hk) as (_ & _ & -> & _). by apply Hok.
  - apply eq_None_not_Some. intros [?|Hd]%Hin; [congruence|]. rewrite (fc_default _ _ Hok) in Hd. by destruct Hd.
Qed.

(** ** A new tree *)

Lemma new_ok (root : SlotHashKey) : root <> default_key ->
  exists self : FC, new root = Some self /\ fc_ok self /\ tree_root self = root /\ latest_votes self = ∅ /\
    (forall k, is_Some (fork_infos self !! k) <-> k = root).
Proof.
  intros Hdef. set (i := MkForkInfo 0 0 1 root root None [] None true). exists (MkFork {[root := i]} ∅ root).
  assert (forall k, is_Some (({[root := i]} : Infos) !! k) <-> k = root) as Hin.
  { intros k. destruct (decide (k = root)) as [->|Hne]; [rewrite lookup_singleton_eq; naive_solver|].
    rewrite lookup_singleton_ne by done. split; [by intros [? ?]|done]. }
  assert (info_at {[root := i]} root = i) as Hi by (unfold info_at; by rewrite lookup_singleton_eq).
  split_and!; [done|split|done|done|done]; cbn.
  - split.
    + by apply Hin.
    + by rewrite Hi.
    + by intros k ->%Hin.
    + intros k c ->%Hin. rewrite Hi. by intros ?%elem_of_nil.
    + intros k ->%Hin. rewrite Hi. constructor.
  - intros k ->%Hin. split; unfold deepest_ok, best_ok, best_within, weight, confirmed; rewrite ?Hi; cbn; try done.
    + by left. + intros _. left. split; [|done]. by intros c ?%elem_of_nil. + by left.
  - intros k ->%Hin. by rewrite Hi.
  - intros k c s ->%Hin. rewrite Hi. by intros ?%elem_of_nil.
  - intros k ->%Hin. rewrite Hi. symmetry. apply votes_at_none. intros v. by rewrite lookup_empty.
  - by rewrite lookup_singleton_ne.
Qed.

End Roots.
End Roots.
