(* ===== verification/ForkSplit.v ===== *)
(** * Splitting a subtree off

    [split_off] cuts a subtree out of a tree, updates the ancestors of the cut and
    makes the subtree a tree of its own; both trees satisfy the invariant, with
    the votes for their own blocks. *)

From S2P Require Import Prelude OrdMap ForkChoice ForkTree ForkUpdate ForkVisit ForkLeaf ForkInvariant ForkRoots.
Import Fork Tree Update Visit Leaf Invariant Roots.

Module Split.

(** ** Aggregations next to blocks they do not read *)

Lemma aggregate_slot_shape k m m' : aggregate_slot k m = Some m' -> same_shape m m' /\ dom m' = dom m.
Proof.
  unfold aggregate_slot. destruct (m !! k) as [i|] eqn:E; [|by intros [= <-]].
  destruct (foldM _ _ _) as [t|]; [|done]. cbn. intros [= <-]. pose proof (info_at_some m k i E) as Hi. split.
  - apply same_shape_insert; [by rewrite E|..]; rewrite Hi; unfold with_totals; by destruct (t_confirmed t).
  - rewrite dom_insert_L. apply elem_of_dom_2 in E. set_solver.
Qed.

Lemma foldM_ext {A B} (f g : A -> B -> option A) l : (forall a b, b ∈ l -> f a b = g a b) -> forall a, foldM f a l = foldM g a l.
Proof.
  induction l as [|b l IH]; intros Hfg a; [done|]. cbn [foldM]. rewrite Hfg by left. destruct (g a b); [|done].
  cbn. apply IH. intros. apply Hfg. by right.
Qed.

Lemma aggregate_frame m d root k : tree_ok m root -> is_Some (m !! k) -> m ##ₘ d ->
  aggregate_slot k (m ∪ d) = (fun m' => m' ∪ d) <$> aggregate_slot k m.
Proof.
  intros Ht Hk Hd. assert (forall x, is_Some (m !! x) -> (m ∪ d) !! x = m !! x) as Hl.
  { intros x [i Hx]. apply lookup_union_l. by eapply map_disjoint_Some_l. }
  unfold aggregate_slot. rewrite Hl by done. rewrite (lookup_info_at m k Hk).
  rewrite (foldM_ext _ (aggregate_child m k)).
  - destruct (foldM _ _ _) as [t|]; [|done]. cbn. by rewrite insert_union_l.
  - intros t c Hc. unfold aggregate_child. rewrite Hl; [done|]. by apply (tree_child _ _ Ht k).
Qed.

Lemma batch_frame d root ops : forall m, tree_ok m root -> m ##ₘ d ->
  (forall o, o ∈ ops -> o.2 = Aggregate /\ is_Some (m !! o.1.1)) ->
  foldM process_operation (m ∪ d) ops = (fun m' => m' ∪ d) <$> foldM process_operation m ops.
Proof.
  induction ops as [|o ops IH]; intros m Ht Hd Hops; [done|]. cbn [foldM].
  destruct (Hops o ltac:(left)) as [Hagg Hin]. 
  assert (forall M, process_operation M o = aggregate_slot o.1.1 M) as Hrun by (intros M; unfold process_operation; by rewrite Hagg).
  rewrite !Hrun, (aggregate_frame m d root) by done. destruct (aggregate_slot o.1.1 m) as [m1|] eqn:E; [|done].
  cbn [fmap option_fmap option_map mbind option_bind]. destruct (aggregate_slot_shape _ _ _ E) as [Hsh Hdom]. apply IH.
  - by eapply tree_ok_shape.
  - apply map_disjoint_dom. rewrite Hdom. by apply map_disjoint_dom.
  - intros o' Ho'. destruct (Hops o') as [? Hin']; [by right|]. split; [done|]. by apply Hsh.
Qed.

(** ** The tree that remains *)

Section Rest.
Context (m : Infos) (root key p : SlotHashKey) (sub : list SlotHashKey).
Context (Ht : tree_ok m root) (Hkey : is_Some (m !! key)) (Hp : parent (info_at m key) = Some p).
Context (Hsub : forall x, x ∈ sub <-> below m key x).

Definition cut_parent : ForkInfo := with_children (os_remove key (children (info_at m p))) (info_at m p).
Definition rest : Infos := <[p := cut_parent]> (filter (fun e => e.1 ∉ sub) m).
Definition cut_off : Infos := filter (fun e => e.1 ∈ sub) m.

Lemma parent_outside : is_Some (m !! p) /\ key ∈ children (info_at m p) /\ p.1 < key.1 /\ p ∉ sub.
Proof.
  destruct (tree_parent_unique _ _ _ _ Ht Hkey Hp) as (Hpin & Hc & Hlt). split_and!; try done.
  rewrite Hsub. intros Hb. destruct (below_in _ _ _ _ Ht Hkey Hb) as [_ [->|?]]; lia.
Qed.

Lemma rest_lookup k : rest !! k = if decide (k = p) then Some cut_parent else if decide (k ∈ sub) then None else m !! k.
Proof.
  unfold rest. destruct (decide (k = p)) as [->|Hne]; [by rewrite lookup_insert_eq|]. rewrite lookup_insert_ne by done.
  destruct (decide (k ∈ sub)) as [Hk|Hk].
  - apply map_lookup_filter_None. right. cbn. intros i _. by intros ?.
  - destruct (m !! k) as [i|] eqn:E; [by apply map_lookup_filter_Some|]. apply map_lookup_filter_None. by left.
Qed.

Lemma cut_off_lookup k : cut_off !! k = if decide (k ∈ sub) then m !! k else None.
Proof.
  unfold cut_off. case_decide as Hk.
  - destruct (m !! k) as [i|] eqn:E; [by apply map_lookup_filter_Some|]. apply map_lookup_filter_None. by left.
  - apply map_lookup_filter_None. right. by intros i _.
Qed.

Lemma rest_in k : is_Some (rest !! k) <-> is_Some (m !! k) /\ ~ below m key k.
Proof.
  destruct parent_outside as (Hpin & _ & _ & Hps). rewrite <- Hsub, rest_lookup.
  destruct (decide (k = p)) as [->|Hne]; [naive_solver|]. destruct (decide (k ∈ sub)); [|naive_solver].
  split; [by intros [? ?]|naive_solver].
Qed.

Lemma rest_at k : is_Some (rest !! k) -> info_at rest k = if decide (k = p) then cut_parent else info_at m k.
Proof.
  intros Hk. unfold info_at. rewrite rest_lookup in Hk |- *. destruct (decide (k = p)); [done|].
  destruct (decide (k ∈ sub)); [by destruct Hk|done].
Qed.

Lemma rest_fields k : is_Some (rest !! k) ->
  summary (info_at rest k) = summary (info_at m k) /\ stake_voted_at (info_at rest k) = stake_voted_at (info_at m k) /\
  parent (info_at rest k) = parent (info_at m k) /\
  (forall c, c ∈ children (info_at rest k) <-> c ∈ children (info_at m k) /\ c <> key).
Proof.
  intros Hk. rewrite rest_at by done. case_decide as Heq; [rewrite Heq|split_and!; try done].
  - unfold cut_parent. split_and!; try done. intros c. cbn. by rewrite os_remove_in.
  - intros c. split; [|tauto]. intros Hc. split; [done|]. intros ->. apply rest_in in Hk as [Hkm _].
    destruct (tree_child _ _ Ht k key Hkm Hc) as (_ & _ & Hkp). congruence.
Qed.

Lemma rest_child k c : is_Some (rest !! k) -> c ∈ children (info_at rest k) ->
  c ∈ children (info_at m k) /\ is_Some (rest !! c).
Proof.
  intros Hk [Hc Hne]%rest_fields; [|done]. split; [done|]. apply rest_in in Hk as [Hkm Hb].
  destruct (tree_child _ _ Ht k c Hkm Hc) as (_ & Hcm & Hcp). apply rest_in. split; [done|]. intros Hbc.
  inversion Hbc as [|y z Hy Hz Heq]; subst; [done|]. destruct (below_in _ _ _ _ Ht Hkey Hy) as [Hym _].
  destruct (tree_child _ _ Ht y c Hym Hz) as (_ & _ & Hcp'). assert (y = k) as -> by congruence. done.
Qed.

Lemma rest_tree : tree_ok rest root.
Proof.
  assert (is_Some (rest !! root)) as Hroot.
  { apply rest_in. split; [apply Ht|]. intros Hb. pose proof (all_below m root Ht key Hkey) as Hb'.
    destruct (below_in _ _ _ _ Ht Hkey Hb) as [_ [Heq|?]], (below_in _ _ _ _ Ht (tree_root_in _ _ Ht) Hb') as [_ [Heq'|?]]; try lia;
      [rewrite <- Heq, (tree_root_parent _ _ Ht) in Hp; done|rewrite <- Heq in *; lia|rewrite Heq' in *; lia]. }
  split.
  - done.
  - destruct (rest_fields root Hroot) as (_ & _ & -> & _). apply Ht.
  - intros k Hk Hne. destruct (rest_fields k Hk) as (_ & _ & -> & _). apply rest_in in Hk as [Hkm Hb].
    destruct (tree_parent _ _ Ht k Hkm Hne) as (q & Hq & Hqm & Hkq). exists q.
    assert (is_Some (rest !! q)) as Hqr.
    { apply rest_in. split; [done|]. intros Hbq. apply Hb. by eapply below_step. }
    split_and!; [done|done|]. apply rest_fields; [done|]. split; [done|]. intros ->. apply Hb. constructor.
  - intros k c Hk Hc. destruct (rest_child k c Hk Hc) as [Hcm Hcr]. destruct (rest_fields c Hcr) as (_ & _ & -> & _).
    apply rest_in in Hk as [Hkm _]. by destruct (tree_child _ _ Ht k c Hkm Hcm) as (? & _ & ?).
  - intros k Hk. rewrite rest_at by done. case_decide; [apply os_remove_sorted|]; apply Ht; [apply parent_outside|].
    by apply rest_in in Hk as [? _].
Qed.

Lemma rest_node k : is_Some (rest !! k) -> k <> p -> node_ok m k -> node_ok rest k.
Proof.
  intros Hk Hkp. apply node_ok_ext; [by rewrite rest_at, decide_False|]. intros c Hc. apply rest_fields.
  apply (rest_child k c Hk). by rewrite rest_at, decide_False.
Qed.

(** The map with the parent cut is the two parts side by side. *)
Lemma cut_union : <[p := cut_parent]> m = rest ∪ cut_off /\ rest ##ₘ cut_off.
Proof.
  destruct parent_outside as (Hpin & _ & _ & Hps). split.
  - apply map_eq. intros k. destruct (decide (k = p)) as [->|Hne].
    + rewrite lookup_insert_eq. symmetry. apply lookup_union_Some_l. by rewrite rest_lookup, decide_True.
    + rewrite lookup_insert_ne by done. destruct (decide (k ∈ sub)) as [Hk|Hk].
      * rewrite lookup_union_r by (by rewrite rest_lookup, decide_False, decide_True). by rewrite cut_off_lookup, decide_True.
      * by rewrite lookup_union_l; [rewrite rest_lookup, !decide_False|rewrite cut_off_lookup, decide_False].
  - apply map_disjoint_spec. intros k i j. rewrite rest_lookup, cut_off_lookup.
    destruct (decide (k = p)) as [->|]; [by rewrite decide_False|]. by case_decide.
Qed.
End Rest.

Section SplitOff.
Context {Pubkey : Type} `{Countable Pubkey} (stake_of : Pubkey -> Slot -> Z) `{!Stakes stake_of}.
#[local] Abbreviation FC := (HeaviestSubtreeForkChoice (Pubkey := Pubkey)).
#[local] Abbreviation fc_ok := (fc_ok stake_of).

(** The votes for the blocks of a map are kept. *)
Lemma retain_votes_at (votes : gmap Pubkey SlotHashKey) (m : Infos) k :
  is_Some (m !! k) -> votes_at stake_of (retain_votes votes m) k = votes_at stake_of votes k.
Proof.
  intros Hk. unfold retain_votes, votes_at. induction votes as [|v k' votes Hv IH] using map_ind.
  - by rewrite map_filter_empty.
  - rewrite map_to_list_insert, Zsum_cons, <- IH by done. rewrite map_filter_insert.
    case_decide as Hin; cbn in Hin.
    + rewrite map_to_list_insert by (apply map_lookup_filter_None; by left). by rewrite Zsum_cons.
    + cbn. rewrite decide_False by (intros ->; done). rewrite delete_id by done. lia.
Qed.

Section Cut.
Context (self : FC) (Hok : fc_ok self) (key p : SlotHashKey) (Hkey : is_Some (fork_infos self !! key)).
Context (Hp : parent (info_at (fork_infos self) key) = Some p) (sub : list SlotHashKey).
Context (Hsub : forall x, x ∈ sub <-> below (fork_infos self) key x).
#[local] Abbreviation m := (fork_infos self).
#[local] Abbreviation m0 := (rest (fork_infos self) key p sub).

(** The batch of [split_off] repairs the ancestors of the cut. *)
Lemma split_batch :
  exists ops m', ops = insert_aggregate_operations self [] key /\
    foldM process_operation m0 (reverse ops) = Some m' /\
    (forall o, o ∈ reverse ops -> o.2 = Aggregate /\ is_Some (m0 !! o.1.1)) /\
    processed m0 (reverse ops) m' /\ marks_ok m' /\ (forall k, is_Some (m' !! k) -> node_ok m' k).
Proof.
  pose proof (fc_tree _ _ Hok) as Ht. pose proof (rest_in m (tree_root self) key p sub Ht Hkey Hp Hsub) as Hin.
  pose proof (rest_fields m (tree_root self) key p sub Ht Hkey Hp Hsub) as Hfields.
  pose proof (rest_tree m (tree_root self) key p sub Ht Hkey Hp Hsub) as Ht0.
  destruct (insert_aggregate_operations_spec self (tree_root self) [] key Ht) as (l & Hext & Hl).
  { split; [constructor|by intros o ?%elem_of_nil]. } { by intros o q ?%elem_of_nil. }
  specialize (Hl Hkey). set (ops := insert_aggregate_operations self [] key) in *. destruct Hext as [Hoo Hcl Hpend _ Hnew _].
  assert (forall a, a ∈ l -> is_Some (m0 !! a)) as Hlin.
  { intros a Ha. destruct (chain_below m (tree_root self) l Ht key a Hkey Hl Ha) as [Hlt Ham]. apply Hin. split; [done|].
    intros Hb. destruct (below_in _ _ _ _ Ht Hkey Hb) as [_ [->|?]]; lia. }
  assert (forall o, o ∈ reverse ops -> o.2 = Aggregate /\ is_Some (m0 !! o.1.1)) as Hops.
  { intros o Ho. rewrite elem_of_reverse in Ho. apply Hnew in Ho as [?%elem_of_nil|(a & Ha & ->)]; [done|]. split; [done|by apply Hlin]. }
  assert (p ∈ l) as Hpl. { destruct l as [|q l]; cbn in Hl; [congruence|]. destruct Hl as [Hq _]. rewrite Hp in Hq. injection Hq as <-. left. }
  destruct (process_batch (reverse ops) m0 (tree_root self)) as (m' & Hrun & Hpr & Hm' & Hn').
  { done. }
  { intros k Hk. destruct (Hfields k Hk) as (_ & -> & _). apply Hin in Hk as [Hk _]. by apply (fc_words stake_of). }
  { intros k Hk. destruct (Hfields k Hk) as ([= _ _ _ _ Hla Hc] & _). unfold confirmed. rewrite Hla, Hc.
    apply (fc_marks _ _ Hok). by apply Hin in Hk as [? _]. }
  { left. intros o s Ho. destruct (Hops o Ho) as [-> _]. done. }
  { apply batch_of_ops; [done| |].
    - intros o q Ho Hoin Hq _. destruct (Hfields _ Hoin) as (_ & _ & Hpq & _). rewrite Hpq in Hq.
      apply (Hcl o q Ho); [by apply Hin in Hoin as [? _]|done|done].
    - intros o Ho _. destruct (Hops o) as [-> _]; [by rewrite elem_of_reverse|done]. }
  { intros k Hk. destruct (decide (k = p)) as [->|Hne].
    - right. unfold pending. rewrite elem_of_reverse. by apply Hpend.
    - left. apply rest_node with (root := tree_root self); try done. apply (fc_nodes _ _ Hok). by apply Hin in Hk as [? _]. }
  exists ops, m'. done.
Qed.

(** The tree that remains satisfies the invariant. *)
Lemma rest_fc_ok ops (self' : FC) :
  processed m0 ops (fork_infos self') -> (forall o, o ∈ ops -> o.2 = Aggregate) ->
  marks_ok (fork_infos self') -> (forall k, is_Some (fork_infos self' !! k) -> node_ok (fork_infos self') k) ->
  tree_root self' = tree_root self -> latest_votes self' = retain_votes (latest_votes self) (fork_infos self') -> fc_ok self'.
Proof.
  intros Hpr Hagg Hm' Hn' Hroot Hv. pose proof (fc_tree _ _ Hok) as Ht.
  pose proof (rest_in m (tree_root self) key p sub Ht Hkey Hp Hsub) as Hin.
  pose proof (rest_fields m (tree_root self) key p sub Ht Hkey Hp Hsub) as Hfields.
  pose proof (rest_tree m (tree_root self) key p sub Ht Hkey Hp Hsub) as Ht0.
  pose proof (rest_child m (tree_root self) key p sub Ht Hkey Hp Hsub) as Hchild.
  pose proof (pr_shape _ _ _ Hpr) as Hsh.
  assert (forall k, is_Some (m0 !! k) -> is_Some (m !! k) /\ (confirmed m0 k <-> confirmed m k) /\
    latest_invalid_ancestor (info_at m0 k) = latest_invalid_ancestor (info_at m k)) as Hsame.
  { intros k Hk. destruct (Hfields k Hk) as ([= _ _ _ _ Hla Hc] & _). unfold confirmed. rewrite Hla, Hc.
    by apply Hin in Hk as [? _]. }
  split; [|done|done| | |].
  - rewrite Hroot. by eapply tree_ok_shape.
  - eapply (plain_spread m0 (tree_root self)); [done| | |done|exact Hpr| |].
    + intros k c Hk Hc Hcc. destruct (Hchild k c Hk Hc) as [Hcm Hc0]. apply (Hsame k Hk).
      eapply (fc_confirmed_up stake_of); [done|by apply Hsame|done|by apply (Hsame c Hc0)].
    + intros k Hk. destruct (Hsame k Hk) as (Hkm & Hc & Hla). rewrite Hc, Hla. by apply (fc_marks _ _ Hok).
    + intros o Ho. rewrite (Hagg o Ho). by intros Hmk.
    + intros k c s Hk Hc. destruct (Hchild k c Hk Hc) as [Hcm Hc0]. destruct (Hsame k Hk) as (Hkm & _ & ->), (Hsame c Hc0) as (_ & _ & ->).
      by apply (fc_spread _ _ Hok).
  - intros k Hk. rewrite Hv, retain_votes_at by done. apply Hsh in Hk. rewrite (pr_stake _ _ _ Hpr k Hk), Zsum_zero, Z.add_0_r.
    + destruct (Hfields k Hk) as (_ & -> & _). rewrite (fc_stake _ _ Hok k) by apply Hsame, Hk. by apply votes_at_wrap.
    + intros o Ho. unfold contribution. case_decide; [|done]. by rewrite (Hagg o Ho).
  - apply eq_None_not_Some. intros Hd%Hsh. apply Hin in Hd as [Hd _]. rewrite (fc_default _ _ Hok) in Hd. by destruct Hd.
Qed.

(** The traversal separates the two maps. *)
Lemma split_moved ops m' :
  processed m0 ops m' ->
  move_loop (S (size (m' ∪ cut_off m sub))) [key] (m' ∪ cut_off m sub) ∅ = Some (m', cut_off m sub) /\
  is_Some (m' !! p) /\
  <[p := with_children (os_remove key (children (info_at m' p))) (info_at m' p)]> m' = m'.
Proof.
  intros Hpr. pose proof (fc_tree _ _ Hok) as Ht. pose proof (pr_shape _ _ _ Hpr) as Hsh.
  pose proof (rest_in m (tree_root self) key p sub Ht Hkey Hp Hsub) as Hin.
  destruct (parent_outside m (tree_root self) key p sub Ht Hkey Hp Hsub) as (Hpin & _ & _ & Hps).
  assert (forall k, cut_off m sub !! k = if decide (k ∈ sub) then m !! k else None) as Hd by apply cut_off_lookup.
  assert (forall k, k ∈ sub -> m' !! k = None) as Hm'.
  { intros k Hk. apply eq_None_not_Some. intros [_ Hb]%Hsh%Hin. apply Hb. by apply Hsub. }
  assert (forall x, below m key x -> (m' ∪ cut_off m sub) !! x = m !! x) as HM.
  { intros x Hx%Hsub. rewrite lookup_union_r by auto. by rewrite Hd, decide_True. }
  assert (is_Some (m' !! p)) as Hp'. { apply Hsh, Hin. split; [done|]. by rewrite <- Hsub. }
  split_and!; [|done|].
  - edestruct (move_loop_spec (S (size (m' ∪ cut_off m sub))) m (tree_root self) key default_key (m' ∪ cut_off m sub) Ht Hkey
      (fc_default _ _ Hok) HM [key] [] []) as (infos & split & reached & seen & Hrun & Hv & Hi & Hs).
    { by apply visit_start. }
    { enough (size m <= size (m' ∪ cut_off m sub))%nat by (simpl; lia).
      rewrite <- !size_dom. apply subseteq_size. intros k. rewrite !elem_of_dom.
      intros Hk. destruct (decide (k ∈ sub)) as [Hks|Hks]; [by rewrite HM by by apply Hsub|].
      apply lookup_union_is_Some. left. apply Hsh, Hin. split; [done|]. by rewrite <- Hsub. }
    { intros k. rewrite decide_False; [done|]. by intros ?%elem_of_nil. }
    { intros k. rewrite lookup_empty, decide_False; [done|]. by intros ?%elem_of_nil. }
    rewrite Hrun. pose proof (visit_all m (tree_root self) key default_key _ _ Ht Hkey (fc_default _ _ Hok) Hv) as Hall.
    setoid_rewrite <- Hsub in Hall. do 2 f_equal; apply map_eq; intros k; rewrite ?Hi, ?Hs, ?Hd.
    + case_decide as Hk; [by rewrite Hm' by by apply Hall|]. rewrite lookup_union_l; [done|].
      rewrite Hd, decide_False; [done|]. by rewrite <- Hall.
    + case_decide as Hk; [rewrite decide_True by (by apply Hall); apply HM, Hsub, Hall, Hk|].
      rewrite decide_False; [done|]. by rewrite <- Hall.
  - apply insert_id. rewrite (lookup_info_at _ _ Hp'). f_equal. destruct (Hsh p) as (_ & _ & Hch).
    rewrite os_remove_absent; [by destruct (info_at m' p)|]. rewrite Hch.
    intros [_ ?]%(rest_fields m (tree_root self) key p sub Ht Hkey Hp Hsub p (proj1 (proj1 (Hsh p)) Hp')). done.
Qed.

(** The subtree that leaves. *)
Lemma cut_off_subtree : subtree_of m key (<[key := with_parent None (info_at m key)]> (cut_off m sub)).
Proof.
  pose proof (fc_tree _ _ Hok) as Ht.
  pose proof (cut_off_lookup m sub) as Hl.
  assert (key ∈ sub) as Hks by (apply Hsub; constructor). split.
  - intros k. rewrite is_Some_insert by (by rewrite Hl, decide_True). rewrite Hl, <- Hsub. case_decide; [naive_solver|].
    split; [by intros [? ?]|naive_solver].
  - intros k Hb. rewrite info_at_insert. case_decide; [by subst|]. unfold info_at. by rewrite Hl, decide_True by (by apply Hsub).
Qed.
End Cut.

Lemma split_off_ok (self : FC) key :
  fc_ok self -> is_Some (fork_infos self !! key) -> key <> tree_root self ->
  exists rest split, split_off self key = Some (rest, split) /\ fc_ok rest /\ fc_ok split /\
    tree_root rest = tree_root self /\ tree_root split = key /\
    (forall k, is_Some (fork_infos rest !! k) <-> is_Some (fork_infos self !! k) /\ ~ below (fork_infos self) key k) /\
    (forall k, is_Some (fork_infos rest !! k) -> parent (info_at (fork_infos rest) k) = parent (info_at (fork_infos self) k) /\
       forall c, c ∈ children (info_at (fork_infos rest) k) <-> c ∈ children (info_at (fork_infos self) k) /\ c <> key) /\
    subtree_of (fork_infos self) key (fork_infos split) /\
    latest_votes rest = retain_votes (latest_votes self) (fork_infos rest) /\
    latest_votes split = retain_votes (latest_votes self) (fork_infos split).
Proof.
  intros Hok Hkey Hne. pose proof (fc_tree _ _ Hok) as Ht.
  destruct (tree_parent _ _ Ht key Hkey Hne) as (p & Hp & Hpin & Hkc).
  destruct (subtree_all self (tree_root self) Ht key default_key Hkey (fc_default _ _ Hok)) as (sub & _ & _ & Hsub).
  destruct (split_batch self Hok key p Hkey Hp sub Hsub) as (ops & m' & -> & Hrun & Hops & Hpr & Hm' & Hn').
  destruct (cut_union (fork_infos self) (tree_root self) key p sub Ht Hkey Hp Hsub) as [Hunion Hdisj].
  destruct (parent_outside (fork_infos self) (tree_root self) key p sub Ht Hkey Hp Hsub) as (_ & _ & _ & Hps).
  pose proof (rest_in (fork_infos self) (tree_root self) key p sub Ht Hkey Hp Hsub) as Hin.
  pose proof (rest_tree (fork_infos self) (tree_root self) key p sub Ht Hkey Hp Hsub) as Ht0.
  set (m0 := rest (fork_infos self) key p sub) in *. set (d := cut_off (fork_infos self) sub) in *.
  destruct (split_moved self Hok key p Hkey Hp sub Hsub _ m' Hpr) as (Hmove & Hp' & Hm'p). fold d in Hmove.
  exists (MkFork m' (retain_votes (latest_votes self) m') (tree_root self)).
  set (split := <[key := with_parent None (info_at (fork_infos self) key)]> d).
  exists (MkFork split (retain_votes (latest_votes self) split) key).
  assert (subtree_of (fork_infos self) key split) as Hcut by by apply cut_off_subtree.
  split_and!; try done.
  - unfold split_off. rewrite bool_decide_eq_false_2, (lookup_info_at _ _ Hkey) by done. cbn [mbind option_bind].
    rewrite Hp. cbn [mbind option_bind]. rewrite (lookup_info_at _ _ Hpin). cbn [mbind option_bind].
    rewrite bool_decide_eq_false_2 by (intros Hn; by apply Hn). fold (cut_parent (fork_infos self) key p).
    unfold process_update_operations at 1. cbn [fork_infos with_infos]. rewrite Hunion.
    rewrite (batch_frame d (tree_root self)), Hrun by done. cbn [fmap option_fmap option_map mbind option_bind].
    cbn [fork_infos with_infos latest_votes tree_root]. rewrite Hmove. cbn [mbind option_bind].
    rewrite (lookup_info_at _ _ Hp'). cbn [mbind option_bind]. by rewrite Hm'p.
  - eapply (rest_fc_ok self Hok key p Hkey Hp sub Hsub); [exact Hpr| |done|done|done|done]. intros o Ho. by apply Hops.
  - eapply (subtree_fc_ok stake_of self); [exact Hok|exact Hkey|exact Hcut|reflexivity|]. intros k Hk. cbn in *. by apply retain_votes_at.
  - intros k. cbn. rewrite (proj1 (pr_shape _ _ _ Hpr k)). apply Hin.
  - intros k. cbn. destruct (pr_shape _ _ _ Hpr k) as (Hk & -> & ->). rewrite Hk. intros Hk0.
    by destruct (rest_fields (fork_infos self) (tree_root self) key p sub Ht Hkey Hp Hsub k Hk0) as (_ & _ & ? & ?).
Qed.
End SplitOff.

(** ** Merging *)

Section Merge.
Context {Pubkey : Type} `{Countable Pubkey} (stake_of : Pubkey -> Slot -> Z) `{!Stakes stake_of}.
#[local] Abbreviation FC := (HeaviestSubtreeForkChoice (Pubkey := Pubkey)).
#[local] Abbreviation fc_ok := (fc_ok stake_of).

(** The blocks of the other tree, sorted, with their parents. *)
Lemma merge_nodes_spec (other : FC) leaf :
  om_sorted (merge_nodes other leaf) /\
  forall k q, (k, q) ∈ merge_nodes other leaf <->
    is_Some (fork_infos other !! k) /\ q = default leaf (parent (info_at (fork_infos other) k)).
Proof.
  unfold merge_nodes.
  assert (forall l : list (SlotHashKey * ForkInfo), NoDup l.*1 ->
    om_sorted (foldr (fun e l => om_insert e.1 (default leaf (parent e.2)) l) [] l) /\
    forall k q, (k, q) ∈ foldr (fun e l => om_insert e.1 (default leaf (parent e.2)) l) [] l <->
      exists i : ForkInfo, (k, i) ∈ l /\ q = default leaf (parent i)) as Hl.
  { induction l as [|[k0 i0] l IH]; cbn; intros Hnd.
    - split; [constructor|]. intros k q. split; [by intros ?%elem_of_nil|]. intros (i & ?%elem_of_nil & _). done.
    - apply NoDup_cons in Hnd as [Hk0 Hnd]. destruct (IH Hnd) as [Hs Hin]. split; [by apply om_insert_sorted|].
      intros k q. rewrite <- (om_lookup_in k q) by by apply om_insert_sorted. rewrite om_lookup_insert by done.
      destruct (decide (k = k0)) as [->|Hne].
      + split; [intros [= <-]; exists i0; split; [left|done]|]. intros (i & [[= ->]|Hi]%elem_of_cons & ->); [done|].
        destruct Hk0. apply list_elem_of_fmap. by exists (k0, i).
      + rewrite (om_lookup_in k q) by done. rewrite Hin. split; intros (i & Hi & ->); exists i; (split; [|done]); [by right|].
        apply elem_of_cons in Hi as [[= -> ->]|Hi]; done. }
  destruct (Hl (map_to_list (fork_infos other)) (NoDup_fst_map_to_list _)) as [Hs Hin]. split; [done|].
  intros k q. rewrite Hin. setoid_rewrite elem_of_map_to_list. split.
  - intros (i & Hi & ->). rewrite (info_at_some _ _ _ Hi). eauto.
  - intros [Hk ->]. exists (info_at (fork_infos other) k). by rewrite (lookup_info_at _ _ Hk).
Qed.

(** What merging relies on: trees without common blocks, and the leaf before the
    root of the other. *)
Record mergeable (self other : FC) (leaf : SlotHashKey) : Prop := {
  mg_leaf : is_Some (fork_infos self !! leaf);
  mg_slot : leaf.1 < (tree_root other).1;
  mg_fresh : forall k, is_Some (fork_infos other !! k) -> fork_infos self !! k = None;
  mg_votes : forall k v, is_Some (fork_infos other !! k) -> latest_votes self !! v <> Some k
}.

Lemma merge_leaves_ok (other : FC) leaf : fc_ok other -> forall todo done (self : FC),
  merge_nodes other leaf = done ++ todo -> fc_ok self ->
  is_Some (fork_infos self !! leaf) -> leaf.1 < (tree_root other).1 ->
  (forall n, n ∈ todo -> fork_infos self !! n.1 = None) -> (forall n, n ∈ done -> is_Some (fork_infos self !! n.1)) ->
  (forall k v, is_Some (fork_infos other !! k) -> latest_votes self !! v <> Some k) ->
  exists self', foldM (fun self n => add_new_leaf_slot self n.1 (Some n.2)) self todo = Some self' /\ fc_ok self' /\
    tree_root self' = tree_root self /\ latest_votes self' = latest_votes self /\
    (forall k, is_Some (fork_infos self' !! k) <-> is_Some (fork_infos self !! k) \/ k ∈ todo.*1).
Proof.
  intros Hoko. destruct (merge_nodes_spec other leaf) as [Hs Hin]. pose proof (fc_tree _ _ Hoko) as Hto.
  induction todo as [|[k q] todo IH]; intros done self Heq Hok Hleaf Hslot Hfresh Hdone Hvotes.
  - exists self. split_and!; [done..|]. intros k. split; [by left|]. intros [?|?%elem_of_nil]; done.
  - cbn [foldM fst snd]. assert ((k, q) ∈ merge_nodes other leaf) as Hkq by (rewrite Heq; set_solver).
    apply Hin in Hkq as [Hk Hq].
    assert (is_Some (fork_infos self !! q) /\ q.1 < k.1) as [Hqin Hlt].
    { destruct (parent (info_at (fork_infos other) k)) as [p|] eqn:Hp; cbn in Hq; subst q.
      - destruct (tree_parent_unique _ _ _ _ Hto Hk Hp) as (Hpin & _ & Hlt). split; [|done].
        set (n := (p, default leaf (parent (info_at (fork_infos other) p)))).
        assert (n ∈ merge_nodes other leaf) as Hn by by apply Hin. rewrite Heq in Hn, Hs.
        apply elem_of_app in Hn as [Hn|Hn]; [by apply (Hdone n)|]. exfalso. apply StronglySorted_app_r in Hs.
        apply StronglySorted_inv in Hs as [_ Hall]. rewrite Forall_forall in Hall. apply elem_of_cons in Hn as [[= -> _]|Hn]; [lia|].
        specialize (Hall n Hn). cbn in Hall. destruct Hall as [?|[? _]]; lia.
      - split; [done|]. destruct (decide (k = tree_root other)) as [->|Hne]; [done|].
        destruct (tree_parent _ _ Hto k Hk Hne) as (p & Hp' & _). congruence. }
    destruct (add_new_leaf_ok stake_of self k q) as (self1 & Hrun & Hok1 & Hr1 & Hv1 & Hin1); try done.
    { by apply (Hfresh (k, q)); left. } { intros ->. rewrite (fc_default _ _ Hoko) in Hk. by destruct Hk. } { intros v. by apply Hvotes. }
    rewrite Hrun. cbn [mbind option_bind].
    destruct (IH (done ++ [(k, q)]) self1) as (self' & Hrun' & Hok' & Hr' & Hv' & Hin').
    { by rewrite <- app_assoc. } { done. } { apply Hin1. by right. } { done. }
    { intros n Hn. apply eq_None_not_Some. intros [Heqk|Hn1]%Hin1; [|rewrite (Hfresh n) in Hn1 by (by right); by destruct Hn1].
      rewrite Heq in Hs. apply StronglySorted_app_r, StronglySorted_inv in Hs as [_ Hall]. rewrite Forall_forall in Hall.
      specialize (Hall n Hn). cbn in Hall. rewrite Heqk in Hall. lia. }
    { intros n [Hn|Hn]%elem_of_app; apply Hin1; [right; by apply Hdone|]. apply list_elem_of_singleton in Hn as ->. by left. }
    { intros k' v Hk'. rewrite Hv1. by apply Hvotes. }
    exists self'. split_and!; [done|done|congruence|congruence|]. intros k'. rewrite Hin', Hin1. cbn. rewrite elem_of_cons. naive_solver.
Qed.

Lemma merge_ok (self other : FC) leaf votes :
  fc_ok self -> fc_ok other -> mergeable self other leaf -> votes ≡ₚ map_to_list (latest_votes other) ->
  exists self', merge stake_of self other leaf votes = Some self' /\ fc_ok self' /\ tree_root self' = tree_root self /\
    latest_votes self' = foldl (record_vote (tree_root self)) (latest_votes self) votes /\
    (forall k, is_Some (fork_infos self' !! k) <-> is_Some (fork_infos self !! k) \/ is_Some (fork_infos other !! k)).
Proof.
  intros Hok Hoko [Hleaf Hslot Hfresh Hvotes] Hperm. destruct (merge_nodes_spec other leaf) as [Hs Hin].
  destruct (merge_leaves_ok other leaf Hoko (merge_nodes other leaf) [] self) as (self1 & Hrun & Hok1 & Hr1 & Hv1 & Hin1); try done.
  { intros [k q] [Hk _]%Hin. by apply Hfresh. } { by intros n ?%elem_of_nil. }
  destruct (add_votes_ok stake_of self1 votes Hok1) as (best & self' & Hvrun & Hok' & _ & Hr' & Hv' & Hsh & _).
  { assert (NoDup votes.*1) as Hnd by (rewrite (fmap_Permutation fst _ _ Hperm); apply NoDup_fst_map_to_list).
    by apply NoDup_fmap_filter. }
  exists self'. split_and!; [|done|congruence|congruence|].
  - unfold merge, contains_block. rewrite bool_decide_eq_true_2 by done. cbn [negb]. rewrite Hrun. cbn [mbind option_bind].
    by rewrite Hvrun.
  - intros k. rewrite (proj1 (Hsh k)), Hin1. f_equiv. rewrite list_elem_of_fmap. split.
    + intros ([k' q] & -> & [? _]%Hin). done.
    + intros Hk. exists (k, default leaf (parent (info_at (fork_infos other) k))). split; [done|]. by apply Hin.
Qed.
End Merge.

End Split.
