(* ===== verification/ForkPurge.v ===== *)
(** * Purging and pruning a tree

    [purge_prune] walks a tree from its root: blocks before the new root are purged,
    subtrees after it are split off, and the subtree of the new root remains. The
    walk ends, no assertion of it fails, and every tree it leaves satisfies the
    invariant. *)

From S2P Require Import Prelude OrdMap ForkChoice ForkTree ForkUpdate ForkVisit ForkLeaf ForkInvariant ForkRoots ForkSplit.
Import Fork Tree Update Visit Leaf Invariant Roots Split.

Module Purge.

Lemma NoDup_length_size {A} (m : gmap SlotHashKey A) (l : list SlotHashKey) :
  NoDup l -> (forall k, k ∈ l -> is_Some (m !! k)) -> (length l <= size m)%nat.
Proof.
  intros Hnd Hin. rewrite <- size_dom, <- (size_list_to_set (C := gset SlotHashKey)) by done. apply subseteq_size.
  intros k Hk%elem_of_list_to_set. by apply elem_of_dom, Hin.
Qed.

Section Purge.
Context {Pubkey : Type} `{Countable Pubkey} (stake_of : Pubkey -> Slot -> Z) `{!Stakes stake_of}.
#[local] Abbreviation FC := (HeaviestSubtreeForkChoice (Pubkey := Pubkey)).
#[local] Abbreviation fc_ok := (fc_ok stake_of).
Context (root new_root : SlotHashKey).

(** The blocks met so far: purged, to visit, and the new root when it was found. *)
Definition met (purged to_visit : list SlotHashKey) (found : bool) : list SlotHashKey :=
  purged ++ to_visit ++ if found then [new_root] else [].

(** The walk: what was met hangs off what was purged, and nothing else does. *)
Record purging (self : FC) (to_visit purged : list SlotHashKey) (found : bool) : Prop := {
  pg_ok : fc_ok self;
  pg_root : tree_root self = root;
  pg_nodup : NoDup (met purged to_visit found);
  pg_in k : k ∈ met purged to_visit found -> is_Some (fork_infos self !! k) /\
    (k = root \/ exists p, parent (info_at (fork_infos self) k) = Some p /\ p ∈ purged);
  pg_start : root ∈ met purged to_visit found;
  pg_purged k : k ∈ purged -> klt k new_root;
  pg_children p c : p ∈ purged -> c ∈ children (info_at (fork_infos self) p) -> c ∈ met purged to_visit found
}.

Lemma met_cons purged k to_visit found l : l ∈ met purged (k :: to_visit) found <-> l = k \/ l ∈ met purged to_visit found.
Proof. unfold met. set_solver. Qed.

(** The new root. *)
Lemma purging_found self to_visit purged found :
  purging self (new_root :: to_visit) purged found -> found = false /\ purging self to_visit purged true.
Proof.
  intros [Hok Hr Hnd Hin Hst Hp Hc]. assert (found = false) as ->.
  { destruct found; [|done]. unfold met in Hnd. apply NoDup_app in Hnd as (_ & _ & Hnd). cbn in Hnd.
    apply NoDup_cons in Hnd as [Hn _]. destruct Hn. set_solver. }
  assert (met purged to_visit true ≡ₚ met purged (new_root :: to_visit) false) as Hperm.
  { unfold met. cbn. rewrite app_nil_r. f_equiv. by rewrite Permutation_app_comm. }
  split; [done|]. split; try done; [by rewrite Hperm|intros k; rewrite Hperm; apply Hin|by rewrite Hperm|].
  intros p c. rewrite Hperm. apply Hc.
Qed.

(** A block before the new root. *)
Lemma purging_purge self k to_visit purged found :
  purging self (k :: to_visit) purged found -> klt k new_root ->
  purging self (reverse (children (info_at (fork_infos self) k)) ++ to_visit) (purged ++ [k]) found.
Proof.
  intros [Hok Hr Hnd Hin Hst Hp Hc] Hk. pose proof (fc_tree _ _ Hok) as Ht. rewrite Hr in Ht.
  set (cs := children (info_at (fork_infos self) k)). destruct (Hin k ltac:(apply met_cons; by left)) as [Hkin _].
  assert (forall l, l ∈ met (purged ++ [k]) (reverse cs ++ to_visit) found <-> l ∈ cs \/ l ∈ met purged (k :: to_visit) found) as Hmet.
  { intros l. unfold met. rewrite !elem_of_app, elem_of_cons, elem_of_reverse. set_solver. }
  assert (k ∉ purged) as Hkp.
  { unfold met in Hnd. apply NoDup_app in Hnd as (_ & Hd & _). intros Hx. apply (Hd k Hx). set_solver. }
  assert (forall c, c ∈ cs -> c ∉ met purged (k :: to_visit) found) as Hfresh.
  { intros c Hcc Hm. destruct (tree_child _ _ Ht k c Hkin Hcc) as (_ & _ & Hcp). destruct (Hin c Hm) as [_ [->|(p & Hp' & Hpp)]].
    - rewrite (tree_root_parent _ _ Ht) in Hcp. done.
    - congruence. }
  split; try done.
  - assert (met (purged ++ [k]) (reverse cs ++ to_visit) found ≡ₚ cs ++ met purged (k :: to_visit) found) as ->.
    { unfold met. rewrite reverse_Permutation. solve_Permutation. }
    apply NoDup_app. split_and!; [|done|done]. apply os_sorted_NoDup, Ht, Hkin.
  - intros l [Hl|Hl]%Hmet.
    + destruct (tree_child _ _ Ht k l Hkin Hl) as (_ & ? & ?). split; [done|]. right. exists k. split; [done|]. set_solver.
    + destruct (Hin l Hl) as [? [?|(p & ? & ?)]]; (split; [done|]); [by left|]. right. exists p. split; [done|]. set_solver.
  - apply Hmet. by right.
  - intros l [?| ->%list_elem_of_singleton]%elem_of_app; [by apply Hp|done].
  - intros p c [Hpp| ->%list_elem_of_singleton]%elem_of_app Hcc; apply Hmet; [right; by eapply Hc|by left].
Qed.

(** A subtree after the new root. *)
Lemma purging_split self k to_visit purged found :
  purging self (k :: to_visit) purged found -> klt new_root k -> k <> root ->
  exists rest split, split_off self k = Some (rest, split) /\ fc_ok split /\ purging rest to_visit purged found /\
    (size (fork_infos rest) < size (fork_infos self))%nat /\
    (is_Some (fork_infos rest !! new_root) <-> is_Some (fork_infos self !! new_root)).
Proof.
  intros [Hok Hr Hnd Hin Hst Hp Hc] Hk Hkr. pose proof (fc_tree _ _ Hok) as Ht. rewrite Hr in Ht.
  destruct (Hin k ltac:(apply met_cons; by left)) as [Hkin _].
  destruct (split_off_ok stake_of self k Hok Hkin ltac:(by rewrite Hr)) as
    (rest & split & Hrun & Hok1 & Hok2 & Hr1 & _ & Hdom & Hfields & _).
  assert (forall x, klt x new_root \/ x = new_root -> ~ below (fork_infos self) k x) as Hbefore.
  { intros x Hx Hb. destruct (below_in _ _ _ _ Ht Hkin Hb) as [_ [->|Hlt]].
    - destruct Hx as [Hx| ->]; [exact (klt_asym _ _ Hx Hk)|exact (klt_irrefl _ Hk)].
    - cbn in Hk. destruct Hx as [Hx| ->]; [cbn in Hx|]; lia. }
  assert (forall x, x ∈ met purged to_visit found -> x <> k /\ ~ below (fork_infos self) k x) as Hkeep.
  { intros x Hx. assert (x <> k) as Hne.
    { intros ->. unfold met in Hnd, Hx. apply NoDup_app in Hnd as (_ & Hd & Hnd). apply NoDup_cons in Hnd as [Hn _].
      apply elem_of_app in Hx as [Hx|Hx]; [|done]. apply (Hd k Hx). by left. }
    split; [done|]. intros Hb. destruct (Hin x ltac:(apply met_cons; by right)) as [Hxin [->|(p & Hpp & Hpin)]].
    - destruct (below_in _ _ _ _ Ht (tree_root_in _ _ Ht) (all_below _ _ Ht k Hkin)) as [_ [?|?]]; [done|].
      destruct (below_in _ _ _ _ Ht Hkin Hb) as [_ [?|?]]; [done|lia].
    - inversion Hb as [|y c Hy Hyc Heq]; subst; [done|]. destruct (below_in _ _ _ _ Ht Hkin Hy) as [Hyin _].
      destruct (tree_child _ _ Ht y x Hyin Hyc) as (_ & _ & Hxp). assert (y = p) as -> by congruence.
      by apply (Hbefore p (or_introl (Hp p Hpin))). }
  exists rest, split. split_and!; [done|done| | |].
  - split; try done; [by rewrite Hr1|..].
    + unfold met in Hnd |- *. apply NoDup_app in Hnd as (H1 & H2 & [_ H3]%NoDup_cons). apply NoDup_app.
      split_and!; [done| |done]. intros x Hx Hy. apply (H2 x Hx). by right.
    + intros x Hx. destruct (Hkeep x Hx) as [_ Hb]. destruct (Hin x ltac:(apply met_cons; by right)) as [Hxin Hxp].
      assert (is_Some (fork_infos rest !! x)) as Hx' by by apply Hdom. split; [done|]. by destruct (Hfields x Hx') as [-> _].
    + apply met_cons in Hst as [?|?]; [done|done].
    + intros p c Hpp Hcc. destruct (Hin p ltac:(unfold met; set_solver)) as [Hpin _].
      assert (is_Some (fork_infos rest !! p)) as Hp' by (apply Hdom; split; [done|apply Hbefore; left; by apply Hp]).
      apply (Hfields p Hp') in Hcc as [Hcc Hck]. apply (Hc p c Hpp), met_cons in Hcc as [?|?]; done.
  - rewrite <- !size_dom. apply subset_size. split.
    + intros x. rewrite !elem_of_dom. by intros [? _]%Hdom.
    + intros Hsub. assert (k ∈ dom (fork_infos self)) as Hx by by apply elem_of_dom. apply Hsub, elem_of_dom, Hdom in Hx as [_ Hx].
      apply Hx. constructor.
  - rewrite Hdom. split; [by intros [? _]|]. intros ?. split; [done|]. apply Hbefore. by right.
Qed.

(** When the walk is over every block was purged or is below the new root. *)
Lemma purged_or_below self purged found x : purging self [] purged found -> is_Some (fork_infos self !! x) ->
  x ∈ purged \/ (found = true /\ below (fork_infos self) new_root x).
Proof.
  intros [Hok Hr Hnd Hin Hst Hp Hc] Hx. pose proof (fc_tree _ _ Hok) as Ht. rewrite Hr in Ht.
  assert (forall y, y ∈ met purged [] found -> y ∈ purged \/ (found = true /\ y = new_root)) as Hm.
  { intros y. unfold met. destruct found; set_solver. }
  induction (all_below _ _ Ht x Hx) as [|y c Hy IH Hyc].
  - destruct (Hm _ Hst) as [?|[? ->]]; [by left|right]. split; [done|constructor].
  - destruct (below_in _ _ _ _ Ht (tree_root_in _ _ Ht) Hy) as [Hyin _]. destruct (IH Hyin) as [Hyp|[Hf Hb]].
    + destruct (Hm c (Hc y c Hyp Hyc)) as [?|[? ->]]; [by left|right]. split; [done|constructor].
    + right. split; [done|]. by eapply below_step.
Qed.

Context (Hroot : root = new_root \/ klt root new_root).

Lemma purge_loop_ok fuel : forall to_visit self purged pruned found,
  purging self to_visit purged found -> Forall fc_ok pruned ->
  (size (fork_infos self) <= fuel + length purged + Nat.b2n found)%nat ->
  exists self' purged' pruned' found',
    purge_loop fuel new_root to_visit self purged pruned found = Some (self', purged', pruned', found') /\
    purging self' [] purged' found' /\ Forall fc_ok pruned' /\
    (is_Some (fork_infos self' !! new_root) <-> is_Some (fork_infos self !! new_root)).
Proof.
  induction fuel as [|fuel IH]; intros [|k to_visit] self purged pruned found Hpg Hpr Hf; cbn [purge_loop]; try by eexists _, _, _, _.
  { pose proof (NoDup_length_size (fork_infos self) _ (pg_nodup _ _ _ _ Hpg) (fun k Hk => proj1 (pg_in _ _ _ _ Hpg k Hk))) as Hlen.
    unfold met in Hlen. rewrite !length_app in Hlen. destruct found; cbn in *; lia. }
  case_bool_decide as Hk; [subst k|].
  { destruct (purging_found _ _ _ _ Hpg) as [-> Hpg']. apply IH; [done|done|]. cbn in *. lia. }
  case_decide as Hlt.
  - destruct (pg_in _ _ _ _ Hpg k ltac:(apply met_cons; by left)) as [Hkin _]. unfold children_of.
    rewrite (lookup_info_at _ _ Hkin). cbn [fmap option_fmap option_map mbind option_bind].
    apply IH; [by apply purging_purge|done|]. rewrite length_app. cbn. lia.
  - assert (klt new_root k) as Hgt by (destruct (klt_total k new_root) as [?|[?|?]]; done).
    destruct (purging_split _ _ _ _ _ Hpg Hgt) as (rest & split & -> & Hok & Hpg' & Hsize & Hnew).
    { intros ->. destruct Hroot as [->|Hx]; [done|]. by apply Hlt. }
    cbn [mbind option_bind]. destruct (IH to_visit rest purged (pruned ++ [split]) found Hpg') as (s & p & q & fo & Hrun & H1 & H2 & H3).
    { apply Forall_app. split; [done|]. by constructor. } { lia. }
    exists s, p, q, fo. split_and!; [done..|]. by rewrite H3, Hnew.
Qed.

End Purge.

Section Prune.
Context {Pubkey : Type} `{Countable Pubkey} (stake_of : Pubkey -> Slot -> Z) `{!Stakes stake_of}.
#[local] Abbreviation FC := (HeaviestSubtreeForkChoice (Pubkey := Pubkey)).
#[local] Abbreviation fc_ok := (fc_ok stake_of).

(** The trees [purge_prune] leaves; without the new root nothing remains of the tree
    itself. *)
Lemma purge_prune_ok (self : FC) new_root :
  fc_ok self -> tree_root self = new_root \/ klt (tree_root self) new_root ->
  exists self' purged pruned, purge_prune self new_root = Some (self', purged, pruned) /\ Forall fc_ok pruned /\
    (is_Some (fork_infos self !! new_root) -> fc_ok self' /\ tree_root self' = new_root) /\
    (fork_infos self !! new_root = None -> is_empty self' = true).
Proof.
  intros Hok Hroot. pose proof (fc_tree _ _ Hok) as Ht. unfold purge_prune.
  destruct (purge_loop_ok stake_of (tree_root self) new_root Hroot (S (size (fork_infos self))) [tree_root self] self [] [] false)
    as (s & purged & pruned & found & -> & Hpg & Hpr & Hnew); [|by constructor|cbn; lia|].
  { split; cbn; try done.
    - by apply NoDup_singleton.
    - intros k ->%list_elem_of_singleton. split; [apply Ht|by left].
    - by left.
    - by intros k ?%elem_of_nil.
    - by intros p c ?%elem_of_nil. }
  cbn [mbind option_bind]. pose proof (fun x => purged_or_below stake_of _ _ _ _ _ x Hpg) as Hall.
  destruct Hpg as [Hs Hr Hnd Hin _ Hp _]. unfold met in *. cbn [app] in *.
  apply NoDup_app in Hnd as (Hnd & _ & _). pose proof (fc_tree _ _ Hs) as Hts.
  assert (forall k, k ∈ purged -> is_Some (fork_infos s !! k)) as Hpin by (intros k Hk; apply Hin; set_solver).
  destruct found.
  - destruct (Hin new_root ltac:(set_solver)) as [Hn _].
    destruct (reroot_ok stake_of s new_root purged Hs Hn Hnd) as (m1 & -> & Hr1 & _ & Hok').
    { intros k. split; [|intros [Hk Hb]; by destruct (Hall k Hk) as [?|[_ ?]]]. intros Hk. split; [by apply Hpin|].
      intros Hb. pose proof (Hp k Hk) as Hlt. destruct (below_in _ _ _ _ Hts Hn Hb) as [_ [->|?]]; [by apply klt_irrefl in Hlt|].
      cbn in Hlt. lia. }
    cbn [mbind option_bind]. rewrite Hr1. cbn [mbind option_bind]. eexists _, _, _. split_and!; [done|done|done|].
    intros Hnone. apply Hnew in Hn as [? Hn]. congruence.
  - destruct (remove_blocks_spec purged (fork_infos s) Hnd Hpin) as (m1 & -> & Hm1). cbn [mbind option_bind].
    assert (forall k, is_Some (fork_infos s !! k) -> k ∈ purged) as Hpu by (intros k Hk; by destruct (Hall k Hk) as [?|[? _]]).
    eexists _, _, _. split_and!; [done|done| |].
    + intros Hn%Hnew%Hpu%Hp. by apply klt_irrefl in Hn.
    + intros _. unfold is_empty, with_infos. cbn. apply bool_decide_eq_true, map_eq. intros k. rewrite Hm1, lookup_empty.
      case_decide as Hk; [done|]. apply eq_None_not_Some. by intros ?%Hpu.
Qed.
End Prune.
End Purge.
