(* ===== verification/ForkTheorems.v ===== *)
(** * What the fork choice computes

    The reachable states of [HeaviestSubtreeForkChoice] under the way the replay
    stage and the repair service use it, and what its answers mean: the stake of a
    block is that of the latest votes below it, the best slot ends the heaviest
    valid path, the deepest slot the longest one, and none of it depends on the
    history that led to the state. *)

From S2P Require Import Prelude OrdMap ForkChoice ForkTree ForkUpdate ForkVisit ForkLeaf ForkInvariant ForkRoots ForkSplit ForkPurge.
Import Fork Tree Update Visit Leaf Invariant Roots Split Purge.

Module Heaviest.
Section Heaviest.
Context {Pubkey : Type} `{Countable Pubkey} (stake_of : Pubkey -> Slot -> Z) `{!Stakes stake_of}.
#[local] Abbreviation FC := (HeaviestSubtreeForkChoice (Pubkey := Pubkey)).
#[local] Abbreviation fc_ok := (fc_ok stake_of).

(** ** Use *)

Inductive Op : Type :=
| AddLeaf (key parent_key : SlotHashKey)
| AddVotes (votes : list (Pubkey * SlotHashKey))
| MarkInvalidFork (key : SlotHashKey)
| MarkValidFork (key : SlotHashKey)
| SetRoot (key : SlotHashKey)
| AddRootParent (key : SlotHashKey)
| SplitOff (key : SlotHashKey)
| PurgePrune (key : SlotHashKey).

Definition known (self : FC) (key : SlotHashKey) : Prop := contains_block self key = true.

(** A key that no block of the tree and no recorded vote has yet. *)
Definition unused (self : FC) (key : SlotHashKey) : Prop :=
  ~ known self key /\ key <> default_key /\ map_Forall (fun _ vote => vote <> key) (latest_votes self).

(** What the callers see to. *)
Definition allowed (self : FC) (o : Op) : Prop :=
  match o with
  | AddLeaf key p => known self key \/ (unused self key /\ known self p /\ p.1 < key.1)
  | AddVotes votes => NoDup (filter (fun vote : Pubkey * SlotHashKey => (tree_root self).1 <= vote.2.1) votes).*1
  | MarkInvalidFork key => is_duplicate_confirmed_of self key <> Some true
  | MarkValidFork key => known self key
  | SetRoot key => known self key
  | AddRootParent key => unused self key /\ key.1 < (tree_root self).1 /\ is_candidate_of self (tree_root self) = Some true
  | SplitOff key => known self key /\ key <> tree_root self
  | PurgePrune key => tree_root self = key \/ klt (tree_root self) key
  end.

#[global] Instance known_dec (self : FC) key : Decision (known self key).
Proof. unfold known. apply _. Defined.
#[global] Instance unused_dec (self : FC) key : Decision (unused self key).
Proof. unfold unused. apply _. Defined.
#[global] Instance allowed_dec (self : FC) o : Decision (allowed self o).
Proof. destruct o; cbn [allowed]; apply _. Defined.

(** The trees an operation leaves; the callers drop an empty one. *)
Definition run (self : FC) (o : Op) : option (list FC) :=
  match o with
  | AddLeaf key p => self ← add_new_leaf_slot self key (Some p); Some [self]
  | AddVotes votes => '(_, self) ← add_votes stake_of self votes; Some [self]
  | MarkInvalidFork key => self ← mark_fork_invalid_candidate self key; Some [self]
  | MarkValidFork key => '(_, self) ← mark_fork_valid_candidate self key; Some [self]
  | SetRoot key => self ← set_tree_root self key; Some [self]
  | AddRootParent key => self ← add_root_parent self key; Some [self]
  | SplitOff key => '(self, subtree) ← split_off self key; Some [self; subtree]
  | PurgePrune key =>
      '(self, _, pruned) ← purge_prune self key;
      Some (filter (fun tree => is_empty tree = false) [self] ++ pruned)
  end.

Inductive reachable : FC -> Prop :=
| reach_new root self : root <> default_key -> new root = Some self -> reachable self
| reach_run self o trees self' : reachable self -> allowed self o -> run self o = Some trees -> self' ∈ trees -> reachable self'
| reach_merge self other leaf votes self' :
    reachable self -> reachable other -> mergeable self other leaf -> votes ≡ₚ map_to_list (latest_votes other) ->
    merge stake_of self other leaf votes = Some self' -> reachable self'.

Lemma known_iff (self : FC) key : known self key <-> is_Some (fork_infos self !! key).
Proof. unfold known, contains_block. by rewrite bool_decide_eq_true. Qed.

Lemma unused_none (self : FC) key : unused self key ->
  fork_infos self !! key = None /\ key <> default_key /\ forall v, latest_votes self !! v <> Some key.
Proof.
  intros (Hk & ? & Hv). split_and!; [|done|intros v Hv'; by apply (Hv v key)]. apply eq_None_not_Some. by rewrite <- known_iff.
Qed.

Lemma candidate_of (self : FC) key : is_candidate_of self key = Some true <->
  is_Some (fork_infos self !! key) /\ candidate (fork_infos self) key.
Proof.
  unfold is_candidate_of, candidate, info_at. destruct (fork_infos self !! key) as [i|]; cbn; [|split; [done|by intros [[? ?] _]]].
  unfold is_candidate. destruct (latest_invalid_ancestor i); naive_solver.
Qed.

Lemma run_ok (self : FC) o : fc_ok self -> allowed self o -> exists trees, run self o = Some trees /\ Forall fc_ok trees.
Proof.
  intros Hok Ha.
  assert (forall m : option FC, (exists self', m = Some self' /\ fc_ok self') ->
    exists trees, (self' ← m; Some [self']) = Some trees /\ Forall fc_ok trees) as Hone.
  { intros m (self' & -> & Hok'). exists [self']. split; [done|]. by constructor. }
  destruct o as [key p|votes|key|key|key|key|key|key]; cbn [run allowed] in Ha |- *.
  - apply Hone. destruct Ha as [Hk|(Hu & Hp & Hlt)].
    + exists self. split; [|done]. unfold add_new_leaf_slot. by rewrite Hk.
    + apply unused_none in Hu as (Hnew & Hdef & Hv). apply known_iff in Hp.
      destruct (add_new_leaf_ok stake_of self key p) as (self' & ? & ? & _); eauto.
  - destruct (add_votes_ok stake_of self votes Hok Ha) as (best & self' & -> & ? & _). by apply (Hone (Some self')); eauto.
  - apply Hone. destruct (decide (is_Some (fork_infos self !! key))) as [Hk|Hk].
    + destruct (mark_invalid_ok stake_of self key Hok Hk) as (self' & ? & ? & _); [|eauto].
      intros Hc. apply Ha. unfold is_duplicate_confirmed_of. rewrite (lookup_info_at _ _ Hk). cbn. by f_equal.
    + exists self. split; [|done]. unfold mark_fork_invalid_candidate. apply eq_None_not_Some in Hk. by rewrite Hk.
  - apply known_iff in Ha. destruct (mark_valid_ok stake_of self key Hok Ha) as (self' & -> & ? & _).
    by apply (Hone (Some self')); eauto.
  - apply known_iff in Ha. apply Hone. destruct (set_tree_root_ok stake_of self key Hok Ha) as (self' & ? & ? & _). eauto.
  - apply Hone. destruct Ha as (Hu & Hlt & [_ Hc]%candidate_of). apply unused_none in Hu as (Hnew & Hdef & Hv).
    destruct (add_root_parent_ok stake_of self key) as (self' & ? & ? & _); eauto.
  - destruct Ha as [Hk%known_iff Hne].
    destruct (split_off_ok stake_of self key Hok Hk Hne) as (rest & split & -> & ? & ? & _). eexists. split; [done|].
    by repeat apply Forall_cons_2.
  - destruct (purge_prune_ok stake_of self key Hok Ha) as (self' & purged & pruned & -> & Hpr & Hk & Hn). eexists. split; [done|].
    apply Forall_app. split; [|done]. apply Forall_forall. intros tree [Hne ->%list_elem_of_singleton]%list_elem_of_filter.
    destruct (fork_infos self !! key) eqn:E; [by apply Hk|]. by rewrite Hn in Hne.
Qed.

Lemma reachable_ok (self : FC) : reachable self -> fc_ok self.
Proof.
  induction 1 as [root self Hroot Hnew|self o trees self' _ Hok Ha Hrun Hin|self other leaf votes self' _ Hok _ Hoko Hm Hp Hrun].
  - destruct (new_ok stake_of root Hroot) as (self' & Hrun & Hok & _). congruence.
  - destruct (run_ok self o Hok Ha) as (trees1 & Hrun1 & Hok1). rewrite Hrun in Hrun1. injection Hrun1 as <-.
    rewrite Forall_forall in Hok1. by apply Hok1.
  - destruct (merge_ok stake_of self other leaf votes Hok Hoko Hm Hp) as (self1 & Hrun1 & Hok1 & _). congruence.
Qed.

(** ** Starting from the frozen banks *)

Definition bank_key (bank : BankInfo) : SlotHashKey := (bank_slot bank, bank_hash bank).
Definition parent_key (bank : BankInfo) : SlotHashKey := (bank_parent_slot bank, bank_parent_hash bank).

(** What the bank forks give: frozen banks in the order of their slots, and for each
    bank after the root its parent, which is the root or a bank before. *)
Inductive banks_ok (root : SlotHashKey) : list SlotHashKey -> Slot -> list BankInfo -> Prop :=
| banks_nil seen prev : banks_ok root seen prev []
| banks_old seen prev bank banks : is_frozen bank = true -> bank_slot bank <= root.1 ->
    banks_ok root seen prev banks -> banks_ok root seen prev (bank :: banks)
| banks_next seen prev bank banks : is_frozen bank = true -> root.1 < bank_slot bank -> prev < bank_slot bank ->
    bank_hash bank <> 0 -> bank_parent_hash bank <> 0 -> parent_key bank ∈ seen -> bank_parent_slot bank < bank_slot bank ->
    banks_ok root (bank_key bank :: seen) (bank_slot bank) banks -> banks_ok root seen prev (bank :: banks).

Lemma add_frozen_banks_ok root banks : forall seen prev self,
  banks_ok root seen prev banks -> reachable self -> latest_votes self = ∅ ->
  (forall k, known self k <-> k ∈ seen) -> (forall k, k ∈ seen -> k.1 <= prev) ->
  exists self' prev', foldM (add_frozen_bank root) (self, prev) banks = Some (self', prev') /\ reachable self'.
Proof.
  induction banks as [|bank banks IH]; intros seen prev self Hb Hr Hv Hseen Hprev; cbn [foldM]; [by eexists _, _|].
  inversion Hb as [|? ? ? ? Hf Hle Hb'|? ? ? ? Hf Hlt Hpr Hh Hph Hpar Hps Hb']; subst; unfold add_frozen_bank; rewrite Hf; cbn [negb].
  - rewrite (proj2 (Z.ltb_ge _ _)) by done. by eapply IH.
  - rewrite (proj2 (Z.ltb_lt _ _) Hlt), (proj2 (Z.ltb_lt _ _) Hpr). cbn [negb].
    rewrite (proj2 (Z.eqb_neq _ _) Hh), (proj2 (Z.eqb_neq _ _) Hph). fold (bank_key bank) (parent_key bank).
    assert (bank_key bank ∉ seen) as Hnew by (intros Hx%Hprev; cbn in Hx; lia).
    assert (allowed self (AddLeaf (bank_key bank) (parent_key bank))) as Ha.
    { right. split_and!; [|by apply Hseen|done]. split_and!; [by rewrite Hseen| |by rewrite Hv]. intros [= _ ?]. done. }
    pose proof (reachable_ok self Hr) as Hok. destruct (Ha) as [Hk|(Hu & Hp & Hslt)]; [by apply Hseen in Hk|].
    pose proof (unused_none _ _ Hu) as (Hn & Hd & Hvv). apply known_iff in Hp as Hp'.
    destruct (add_new_leaf_ok stake_of self (bank_key bank) (parent_key bank) Hok Hn Hp' Hslt Hd Hvv) as (self' & Hrun & _ & _ & Hlv & Hin).
    rewrite Hrun. cbn [mbind option_bind]. eapply (IH _ _ self' Hb').
    + eapply (reach_run self (AddLeaf (bank_key bank) (parent_key bank)) [self']); [done|done| |by left]. cbn [run]. by rewrite Hrun.
    + by rewrite Hlv.
    + intros k. rewrite known_iff, Hin, <- known_iff, Hseen, elem_of_cons. done.
    + intros k [->|Hk]%elem_of_cons; [done|]. specialize (Hprev k Hk). lia.
Qed.

Lemma frozen_banks_ok root banks : root <> default_key -> banks_ok root [root] root.1 banks ->
  exists self, new_from_frozen_banks root banks = Some self /\ reachable self.
Proof.
  intros Hroot Hb. destruct (new_ok stake_of root Hroot) as (self0 & Hnew & _ & _ & Hv & Hin). unfold new_from_frozen_banks.
  rewrite Hnew. cbn [mbind option_bind].
  destruct (add_frozen_banks_ok root banks [root] root.1 self0 Hb) as (self & prev & -> & Hr); [by eapply reach_new|done| | |by exists self].
  - intros k. rewrite known_iff, Hin. by rewrite list_elem_of_singleton.
  - by intros k ->%list_elem_of_singleton.
Qed.

(** ** The stake below a block *)

(** The stake of the latest votes for a block or one of its descendants. *)
Definition stake_below (self : FC) (k : SlotHashKey) : Z :=
  Zsum (fun e => if decide (k ∈ e.2 :: ancestor_iterator self e.2) then stake_of e.1 e.2.1 else 0)
    (map_to_list (latest_votes self)).

Lemma iterator_below (self : FC) root k x : tree_ok (fork_infos self) root -> is_Some (fork_infos self !! k) ->
  k ∈ x :: ancestor_iterator self x <-> is_Some (fork_infos self !! x) /\ below (fork_infos self) k x.
Proof.
  intros Ht Hk. destruct (decide (is_Some (fork_infos self !! x))) as [Hx|Hx].
  - rewrite <- (below_chain _ root k _ Ht Hk x Hx (ancestors_chain _ root x Ht Hx)). tauto.
  - unfold ancestor_iterator. rewrite ancestors_missing by (by apply eq_None_not_Some).
    rewrite list_elem_of_singleton. split; [intros ->; done|tauto].
Qed.

(** A block counts the votes for itself and those its children count. *)
Lemma stake_below_split (self : FC) root k : tree_ok (fork_infos self) root -> is_Some (fork_infos self !! k) ->
  stake_below self k = votes_at stake_of (latest_votes self) k + Zsum (stake_below self) (children (info_at (fork_infos self) k)).
Proof.
  intros Ht Hk. unfold stake_below, votes_at. rewrite <- Zsum_swap, <- Zsum_plus. apply Zsum_ext. intros [v x] _. cbn [fst snd].
  assert (forall c, c ∈ children (info_at (fork_infos self) k) ->
    c ∈ x :: ancestor_iterator self x <-> is_Some (fork_infos self !! x) /\ below (fork_infos self) c x) as Hc.
  { intros c Hc. apply (iterator_below self root c x Ht). by apply (tree_child _ _ Ht k). }
  pose proof (iterator_below self root k x Ht Hk) as Hkx. destruct (decide (x = k)) as [->|Hne].
  - rewrite decide_True by left. rewrite Zsum_zero; [lia|]. intros c Hcin. rewrite decide_False; [done|].
    intros [_ Hb]%Hc; [|done]. destruct (tree_child _ _ Ht k c Hk Hcin) as (Hlt & Hcm & _).
    destruct (below_in _ _ _ _ Ht Hcm Hb) as [_ [->|?]]; lia.
  - case_decide as Hin.
    + apply Hkx in Hin as [Hx Hb]. assert (exists c, c ∈ children (info_at (fork_infos self) k) /\ below (fork_infos self) c x) as (c0 & Hc0 & Hb0).
      { clear - Hb Hne. induction Hb as [|y c Hb IH Hc]; [done|]. destruct (decide (y = k)) as [->|Hyk].
        - exists c. split; [done|constructor].
        - destruct IH as (c0 & ? & ?); [done|]. exists c0. split; [done|by eapply below_step]. }
      rewrite (Zsum_ext _ (fun c => if decide (c = c0) then stake_of v x.1 else 0)).
      * rewrite (Zsum_delta (fun _ => stake_of v x.1)) by (by apply os_sorted_NoDup, Ht). by rewrite decide_True.
      * intros c Hcin. apply decide_ext. rewrite Hc by done. split; [intros [_ ?]|intros ->; done].
        by eapply (below_disjoint _ _ k).
    + rewrite Zsum_zero; [done|]. intros c Hcin. rewrite decide_False; [done|]. intros [Hx Hb]%Hc; [|done].
      apply Hin, Hkx. split; [done|by eapply below_child].
Qed.

Lemma stake_below_bounds (self : FC) k : 0 <= stake_below self k <= U64_MAX.
Proof.
  split.
  - apply Zsum_nonneg. intros e _. case_decide; [apply stake_nonneg|lia].
  - etrans; [|apply (stake_total (latest_votes self))]. apply Zsum_le. intros e _. case_decide; [lia|apply stake_nonneg].
Qed.

Lemma weight_exact (self : FC) : fc_ok self -> forall k, is_Some (fork_infos self !! k) ->
  weight (fork_infos self) k = stake_below self k.
Proof.
  intros Hok. pose proof (fc_tree _ _ Hok) as Ht. apply (tree_induction _ _ (fun k => weight (fork_infos self) k = stake_below self k) Ht).
  intros k Hk IH. rewrite (ok_stake _ _ (fc_nodes _ _ Hok k Hk)), (fc_stake _ _ Hok k Hk).
  rewrite (Zsum_ext _ (stake_below self)) by done. rewrite <- (stake_below_split self _ k Ht Hk). apply wrap_small.
  pose proof (stake_below_bounds self k). unfold word_max in *. lia.
Qed.

(** ** The heaviest path *)

Definition child_of (self : FC) (k c : SlotHashKey) : Prop := c ∈ default [] (children_of self k).
Definition valid (self : FC) (k : SlotHashKey) : Prop := is_candidate_of self k = Some true.

(** More stake below, and the earlier key between equals. *)
Definition preferred (self : FC) (c c' : SlotHashKey) : Prop :=
  stake_below self c' < stake_below self c \/ (stake_below self c' = stake_below self c /\ klt c c').

(** The heaviest path of valid blocks from a block ends at another. *)
Inductive heaviest (self : FC) : SlotHashKey -> SlotHashKey -> Prop :=
| heaviest_stop k : (forall c, child_of self k c -> ~ valid self c) -> heaviest self k k
| heaviest_step k c b : child_of self k c -> valid self c ->
    (forall c', child_of self k c' -> valid self c' -> c' = c \/ preferred self c c') ->
    heaviest self c b -> heaviest self k b.

Lemma child_of_iff (self : FC) k c : is_Some (fork_infos self !! k) ->
  child_of self k c <-> c ∈ children (info_at (fork_infos self) k).
Proof. intros Hk. unfold child_of, children_of. by rewrite (lookup_info_at _ _ Hk). Qed.

Lemma preferred_irrefl (self : FC) c c' : preferred self c c' -> preferred self c' c -> False.
Proof. unfold preferred. intros [?|[? Hk]] [?|[? Hk']]; try lia. by apply (klt_asym _ _ Hk). Qed.

Lemma heaviest_unique (self : FC) k b b' : heaviest self k b -> heaviest self k b' -> b = b'.
Proof.
  intros Hb. revert b'. induction Hb as [k Hno|k c b Hc Hv Hall Hb IH]; intros b' Hb'.
  - inversion Hb' as [|? c ? Hc Hv]; subst; [done|]. by destruct (Hno c).
  - inversion Hb' as [? Hno|? c' ? Hc' Hv' Hall' Hb'']; subst; [by destruct (Hno c)|].
    destruct (Hall c' Hc' Hv') as [->|Hp]; [by apply IH|]. destruct (Hall' c Hc Hv) as [->|Hp']; [by apply IH|].
    by destruct (preferred_irrefl self c c').
Qed.

Lemma best_heaviest (self : FC) : fc_ok self -> forall k, is_Some (fork_infos self !! k) -> candidate (fork_infos self) k ->
  heaviest self k (best_slot (info_at (fork_infos self) k)) /\
  candidate (fork_infos self) (best_slot (info_at (fork_infos self) k)) /\
  below (fork_infos self) k (best_slot (info_at (fork_infos self) k)).
Proof.
  intros Hok. pose proof (fc_tree _ _ Hok) as Ht.
  apply (tree_induction _ _ (fun k => candidate (fork_infos self) k ->
    heaviest self k (best_slot (info_at (fork_infos self) k)) /\
    candidate (fork_infos self) (best_slot (info_at (fork_infos self) k)) /\
    below (fork_infos self) k (best_slot (info_at (fork_infos self) k))) Ht).
  intros k Hk IH Hc.
  assert (forall c, child_of self k c -> valid self c <-> candidate (fork_infos self) c) as Hvalid.
  { intros c Hcin%child_of_iff; [|done]. unfold valid. rewrite candidate_of. split; [tauto|]. intros ?. split; [|done].
    by apply (tree_child _ _ Ht k). }
  destruct (ok_best _ _ (fc_nodes _ _ Hok k Hk) Hc) as [[Hno ->]|(c & (Hin & Hcc & Hall) & ->)].
  - split_and!; [|done|constructor]. apply heaviest_stop. intros c Hcin. rewrite Hvalid by done. apply Hno. by apply child_of_iff.
  - destruct (IH c Hin Hcc) as (Hh & Hcb & Hb). split_and!; [|done|by eapply below_child].
    assert (child_of self k c) as Hck by by apply child_of_iff.
    apply (heaviest_step self k c); [done|by apply Hvalid| |done]. intros c' Hc' Hv%Hvalid; [|done].
    apply child_of_iff in Hc'; [|done]. destruct (Hall c' Hc' Hv) as [|Hp]; [by left|right].
    unfold preferred. rewrite <- (weight_exact self Hok c), <- (weight_exact self Hok c') by (by apply (tree_child _ _ Ht k)). exact Hp.
Qed.

(** ** The longest path *)

Inductive path (self : FC) : SlotHashKey -> SlotHashKey -> Z -> Prop :=
| path_here k : path self k k 1
| path_child k c x n : child_of self k c -> path self c x n -> path self k x (n + 1).

Lemma deepest_longest (self : FC) : fc_ok self -> forall k, is_Some (fork_infos self !! k) ->
  path self k (deepest_slot (info_at (fork_infos self) k)) (height (info_at (fork_infos self) k)) /\
  forall x n, path self k x n -> n <= height (info_at (fork_infos self) k).
Proof.
  intros Hok. pose proof (fc_tree _ _ Hok) as Ht.
  apply (tree_induction _ _ (fun k => path self k (deepest_slot (info_at (fork_infos self) k)) (height (info_at (fork_infos self) k)) /\
    forall x n, path self k x n -> n <= height (info_at (fork_infos self) k)) Ht). intros k Hk IH.
  destruct (ok_deepest _ _ (fc_nodes _ _ Hok k Hk)) as [(Hnil & -> & ->)|(c & (Hin & _ & Hall) & -> & ->)].
  - split; [constructor|]. intros x n Hp. inversion Hp as [|? c ? n' Hc]; subst; [lia|].
    apply child_of_iff in Hc; [|done]. rewrite Hnil in Hc. by apply elem_of_nil in Hc.
  - split.
    + apply (path_child self k c); [by apply child_of_iff|by apply IH].
    + intros x n Hp. inversion Hp as [|? c' ? n' Hc' Hp']; subst.
      * pose proof (proj2 (IH c Hin) c 1 (path_here self c)). lia.
      * apply child_of_iff in Hc'; [|done]. pose proof (proj2 (IH c' Hc') x n' Hp').
        destruct (Hall c' Hc' I) as [->|[?|[? _]]]; lia.
Qed.

(** ** States that look the same *)

(** The same blocks, links and valid blocks, and the same votes. *)
Record same_view (self1 self2 : FC) : Prop := {
  sv_known : forall k, contains_block self1 k = contains_block self2 k;
  sv_children : forall k, children_of self1 k = children_of self2 k;
  sv_valid : forall k, is_candidate_of self1 k = is_candidate_of self2 k;
  sv_votes : latest_votes self1 = latest_votes self2
}.

Lemma same_view_at (self1 self2 : FC) k : same_view self1 self2 -> is_Some (fork_infos self1 !! k) ->
  is_Some (fork_infos self2 !! k) /\ children (info_at (fork_infos self1) k) = children (info_at (fork_infos self2) k) /\
  (candidate (fork_infos self1) k <-> candidate (fork_infos self2) k).
Proof.
  intros [Hk Hc Hv _] H1. assert (is_Some (fork_infos self2 !! k)) as H2 by (rewrite <- known_iff; unfold known; rewrite <- Hk; by apply known_iff).
  specialize (Hc k). specialize (Hv k). pose proof (candidate_of self1 k) as C1. pose proof (candidate_of self2 k) as C2.
  unfold children_of in Hc. rewrite (lookup_info_at _ _ H1), (lookup_info_at _ _ H2) in Hc. injection Hc as Hc.
  rewrite Hv in C1. split_and!; [done|done|]. tauto.
Qed.

Lemma first_of_eq (R R' : SlotHashKey -> SlotHashKey -> Prop) P P' l c c' :
  (forall x y z, R x y -> R y z -> R x z) -> (forall x, ~ R x x) ->
  (forall x y, x ∈ l -> y ∈ l -> R' x y <-> R x y) -> (forall x, x ∈ l -> P' x <-> P x) ->
  first_of R P l c -> first_of R' P' l c' -> c = c'.
Proof.
  intros Htr Hirr HR HP Hc Hc'. eapply (first_of_unique R P Htr); [done|done|].
  eapply (first_of_same l R' R P' P); [|symmetry; by apply HP|done]. intros. symmetry. by apply HR.
Qed.

Lemma heavier_irrefl m x : ~ heavier m x x.
Proof. unfold heavier. intros [?|[_ Hk]]; [lia|]. by apply klt_irrefl in Hk. Qed.

Lemma same_view_weight (self1 self2 : FC) : fc_ok self1 -> fc_ok self2 -> same_view self1 self2 ->
  forall k, is_Some (fork_infos self1 !! k) -> weight (fork_infos self1) k = weight (fork_infos self2) k.
Proof.
  intros Hok1 Hok2 Hv. apply (tree_induction _ _ (fun k => weight (fork_infos self1) k = weight (fork_infos self2) k) (fc_tree _ _ Hok1)).
  intros k Hk IH. destruct (same_view_at _ _ k Hv Hk) as (Hk2 & Hch & _).
  rewrite (ok_stake _ _ (fc_nodes _ _ Hok1 k Hk)), (ok_stake _ _ (fc_nodes _ _ Hok2 k Hk2)).
  rewrite (fc_stake _ _ Hok1 k Hk), (fc_stake _ _ Hok2 k Hk2), (sv_votes _ _ Hv), <- Hch.
  by rewrite (Zsum_ext _ (weight (fork_infos self2))).
Qed.

Lemma same_view_deepest (self1 self2 : FC) : fc_ok self1 -> fc_ok self2 -> same_view self1 self2 ->
  forall k, is_Some (fork_infos self1 !! k) ->
    height (info_at (fork_infos self1) k) = height (info_at (fork_infos self2) k) /\
    deepest_slot (info_at (fork_infos self1) k) = deepest_slot (info_at (fork_infos self2) k).
Proof.
  intros Hok1 Hok2 Hv. pose proof (fc_tree _ _ Hok1) as Ht. pose proof (same_view_weight _ _ Hok1 Hok2 Hv) as Hw.
  apply (tree_induction _ _ (fun k => height (info_at (fork_infos self1) k) = height (info_at (fork_infos self2) k) /\
    deepest_slot (info_at (fork_infos self1) k) = deepest_slot (info_at (fork_infos self2) k)) Ht).
  intros k Hk IH. destruct (same_view_at _ _ k Hv Hk) as (Hk2 & Hch & _).
  pose proof (ok_deepest _ _ (fc_nodes _ _ Hok1 k Hk)) as D1. pose proof (ok_deepest _ _ (fc_nodes _ _ Hok2 k Hk2)) as D2.
  unfold deepest_ok in D1, D2. rewrite <- Hch in D2.
  destruct D1 as [(Hn1 & -> & ->)|(c1 & Hf1 & -> & ->)], D2 as [(Hn2 & -> & ->)|(c2 & Hf2 & -> & ->)]; [done| | |].
  - destruct Hf2 as [Hin _]. rewrite Hn1 in Hin. by apply elem_of_nil in Hin.
  - destruct Hf1 as [Hin _]. rewrite Hn2 in Hin. by apply elem_of_nil in Hin.
  - assert (c1 = c2) as ->; [|destruct (IH c2) as [-> ->]; [apply Hf2|done]].
    eapply first_of_eq; [apply (deeper_trans (fork_infos self1))|apply deeper_irrefl| |done|exact Hf1|exact Hf2].
    intros x y Hx Hy. apply deeper_heights; symmetry; first [apply Hw; by apply (tree_child _ _ Ht k)|by apply IH].
Qed.

Lemma same_view_best (self1 self2 : FC) : fc_ok self1 -> fc_ok self2 -> same_view self1 self2 ->
  forall k, is_Some (fork_infos self1 !! k) -> candidate (fork_infos self1) k ->
    best_slot (info_at (fork_infos self1) k) = best_slot (info_at (fork_infos self2) k).
Proof.
  intros Hok1 Hok2 Hv. pose proof (fc_tree _ _ Hok1) as Ht. pose proof (same_view_weight _ _ Hok1 Hok2 Hv) as Hw.
  apply (tree_induction _ _ (fun k => candidate (fork_infos self1) k ->
    best_slot (info_at (fork_infos self1) k) = best_slot (info_at (fork_infos self2) k)) Ht).
  intros k Hk IH Hc. destruct (same_view_at _ _ k Hv Hk) as (Hk2 & Hch & Hcc).
  pose proof (ok_best _ _ (fc_nodes _ _ Hok1 k Hk) Hc) as B1.
  pose proof (ok_best _ _ (fc_nodes _ _ Hok2 k Hk2) (proj1 Hcc Hc)) as B2.
  assert (forall c, c ∈ children (info_at (fork_infos self1) k) -> candidate (fork_infos self2) c <-> candidate (fork_infos self1) c) as Hsame.
  { intros c Hin. symmetry. apply (same_view_at _ _ c Hv). by apply (tree_child _ _ Ht k). }
  unfold best_ok in B1, B2. rewrite <- Hch in B2. destruct B1 as [[Hn1 ->]|(c1 & Hf1 & ->)], B2 as [[Hn2 ->]|(c2 & Hf2 & ->)]; [done| | |].
  - destruct Hf2 as (Hin & Hc2 & _). by destruct (Hn1 c2 Hin (proj1 (Hsame c2 Hin) Hc2)).
  - destruct Hf1 as (Hin & Hc1 & _). by destruct (Hn2 c1 Hin (proj2 (Hsame c1 Hin) Hc1)).
  - assert (c1 = c2) as ->; [|apply IH; [apply Hf2|by apply Hsame; apply Hf2]].
    eapply first_of_eq; [apply (heavier_trans (fork_infos self1))|apply heavier_irrefl| |exact Hsame|exact Hf1|exact Hf2].
    apply heavier_weights. intros c Hin. symmetry. apply Hw. by apply (tree_child _ _ Ht k).
Qed.

(** ** Votes *)

Lemma newer_trans k1 k2 k3 : newer k1 k2 -> newer k2 k3 -> newer k1 k3.
Proof. unfold newer. lia. Qed.

Lemma record_votes_spec root votes : forall latest : gmap Pubkey SlotHashKey,
  let latest' := foldl (record_vote root) latest votes in
  (forall v k, (v, k) ∈ votes -> root.1 <= k.1 -> exists l, latest' !! v = Some l /\ ~ newer k l) /\
  (forall v l, latest' !! v = Some l -> latest !! v = Some l \/ ((v, l) ∈ votes /\ root.1 <= l.1)) /\
  (forall v old, latest !! v = Some old -> exists l, latest' !! v = Some l /\ (l = old \/ newer l old)).
Proof.
  induction votes as [|[v k] votes IH]; intros latest; cbn [foldl].
  - split_and!; [by intros v k ?%elem_of_nil|by left|eauto].
  - destruct (IH (record_vote root latest (v, k))) as (H1 & H2 & H3).
    assert (forall u l, record_vote root latest (v, k) !! u = Some l -> latest !! u = Some l \/ (u = v /\ l = k /\ root.1 <= k.1)) as Hnew.
    { intros u l. unfold record_vote. cbn. case_decide; [by left|]. destruct (latest !! v) as [old|]; [case_decide; [|by left]|];
        (destruct (decide (u = v)) as [->|Hne]; [rewrite lookup_insert_eq; intros [= <-]; right; split_and!; [done|done|lia]
        |rewrite lookup_insert_ne by done; by left]). }
    assert (forall u old, latest !! u = Some old -> exists l, record_vote root latest (v, k) !! u = Some l /\ (l = old \/ newer l old)) as Hold.
    { intros u old Hu. unfold record_vote. cbn. case_decide; [eauto|].
      destruct (decide (u = v)) as [->|Hne].
      - rewrite Hu. case_decide; [|eauto]. exists k. rewrite lookup_insert_eq. auto.
      - exists old. split; [|by left]. destruct (latest !! v); [case_decide|]; by rewrite ?lookup_insert_ne. }
    split_and!.
    + intros u l [[= -> ->]|Hin]%elem_of_cons Hge; [|by apply H1].
      assert (exists l, record_vote root latest (v, k) !! v = Some l /\ ~ newer k l) as (l & Hl & Hn).
      { unfold record_vote. cbn. rewrite decide_False by lia. destruct (latest !! v) as [old|] eqn:E; [case_decide|];
          [exists k|exists old|exists k]; rewrite ?lookup_insert_eq; (split; [done|]); [|done|]; unfold newer; lia. }
      destruct (H3 v l Hl) as (l' & Hl' & Hor). exists l'. split; [done|]. intros Hk. destruct Hor as [->|Hor]; [done|].
      apply Hn. by eapply newer_trans.
    + intros u l Hl. apply H2 in Hl as [Hl|[Hl Hge]]; [|right; split; [by right|done]].
      apply Hnew in Hl as [Hl|(-> & -> & Hge)]; [by left|right]. split; [left|done].
    + intros u old Hu. destruct (Hold u old Hu) as (l & Hl & Hor). destruct (H3 u l Hl) as (l' & Hl' & Hor').
      exists l'. split; [done|]. destruct Hor as [->|Hor]; [done|]. right. destruct Hor' as [->|Hor']; [done|by eapply newer_trans].
Qed.

(** ** Theorems *)

(** C24: No panic. From every state that the operations reach, every operation whose
    conditions the callers see to returns, purging and pruning included: all the
    [unwrap]s, [expect]s and assertions of the fork choice hold and the walks of the
    tree end. So do merges of trees without common blocks, building the tree from
    the frozen banks of a validator that starts, and the choice of the best blocks
    overall and on the fork of the last vote, which is a block of the tree unless it
    is stray. No block has the default key, slot 0 with the hash of zeros. *)
Theorem fork_choice_no_panic (self : FC) (o : Op) :
  reachable self ->
  (allowed self o -> exists trees, run self o = Some trees) /\
  (forall other leaf votes, reachable other -> mergeable self other leaf ->
     votes ≡ₚ map_to_list (latest_votes other) -> exists self', merge stake_of self other leaf votes = Some self') /\
  (exists best deepest, best_overall_slot self = Some best /\ deepest_overall_slot self = Some deepest) /\
  (forall last_voted stray, (forall k, last_voted = Some k -> known self k \/ stray = true) ->
     exists choice, heaviest_slot_on_same_voted_fork self last_voted stray = Some choice) /\
  (forall root banks, root <> default_key -> banks_ok root [root] root.1 banks ->
     exists start, new_from_frozen_banks root banks = Some start /\ reachable start).
Proof.
  intros Hr. pose proof (reachable_ok self Hr) as Hok. split_and!.
  - intros Ha. destruct (run_ok self o Hok Ha) as (trees & ? & _). eauto.
  - intros other leaf votes Hoko%reachable_ok Hm Hp.
    destruct (merge_ok stake_of self other leaf votes Hok Hoko Hm Hp) as (self' & ? & _). eauto.
  - unfold best_overall_slot, deepest_overall_slot, best_slot_of, deepest_slot_of.
    rewrite (lookup_info_at _ _ (tree_root_in _ _ (fc_tree _ _ Hok))). cbn. eauto.
  - intros [k|] stray Hk; unfold heaviest_slot_on_same_voted_fork; [|eauto]. unfold is_candidate_of.
    destruct (Hk k eq_refl) as [Hin%known_iff| ->].
    + rewrite (lookup_info_at _ _ Hin). cbn. destruct (is_candidate _); eauto.
    + destruct (fork_infos self !! k) as [i|]; cbn; [destruct (is_candidate i)|]; eauto.
  - intros. by apply frozen_banks_ok.
Qed.

(** C12: The stakes are exact. In every reachable state the stake of a block is the
    stake of the validators whose latest vote is for it, and the stake of its
    subtree is that of the validators whose latest vote is for it or a block below
    it; the additions and subtractions of [u64] never leave a wrong total. *)
Theorem fork_stakes_exact (self : FC) (k : SlotHashKey) :
  reachable self -> contains_block self k = true ->
  stake_voted_at_of self k = Some (votes_at stake_of (latest_votes self) k) /\
  stake_voted_subtree_of self k = Some (stake_below self k).
Proof.
  intros Hok%reachable_ok Hk%known_iff. unfold stake_voted_at_of, stake_voted_subtree_of. rewrite (lookup_info_at _ _ Hk). cbn.
  rewrite (fc_stake _ _ Hok k Hk). split; [done|]. f_equal. by apply weight_exact.
Qed.

(** C11: The best slot is the heaviest. In every reachable state, the best slot of a
    valid block is where one arrives by always going to the valid child with the
    most stake below it (the earlier key between equals); there is one such block,
    it is valid and it descends from the block asked for. *)
Theorem fork_best_is_heaviest (self : FC) (k : SlotHashKey) :
  reachable self -> is_candidate_of self k = Some true ->
  exists b, best_slot_of self k = Some b /\ heaviest self k b /\ (forall b', heaviest self k b' -> b' = b) /\
    is_candidate_of self b = Some true /\ k ∈ b :: ancestor_iterator self b.
Proof.
  intros Hok%reachable_ok [Hk Hc]%candidate_of. destruct (best_heaviest self Hok k Hk Hc) as (Hh & Hcb & Hb).
  exists (best_slot (info_at (fork_infos self) k)).
  destruct (below_in _ _ _ _ (fc_tree _ _ Hok) Hk Hb) as [Hbin _]. split_and!.
  - unfold best_slot_of. by rewrite (lookup_info_at _ _ Hk).
  - done.
  - intros b' Hb'. by eapply heaviest_unique.
  - by apply candidate_of.
  - by apply (iterator_below self (tree_root self) k _ (fc_tree _ _ Hok) Hk).
Qed.

(** The deepest slot ends a longest path. In every reachable state the height of
    a block is the length of the path to its deepest slot, and no path down from
    the block is longer. *)
Lemma fork_deepest_is_longest (self : FC) (k : SlotHashKey) :
  reachable self -> contains_block self k = true ->
  exists d h, deepest_slot_of self k = Some d /\ height_of self k = Some h /\ path self k d h /\
    forall x n, path self k x n -> n <= h.
Proof.
  intros Hok%reachable_ok Hk%known_iff. destruct (deepest_longest self Hok k Hk) as [Hp Hmax].
  unfold deepest_slot_of, height_of. rewrite (lookup_info_at _ _ Hk). cbn. eauto 10.
Qed.

(** C23: The history does not matter. Two reachable states with the same blocks,
    links, valid blocks and latest votes give the same stakes, heights, deepest
    slots and, for valid blocks, best slots: updating the ancestors of a change,
    in batches or leaf by leaf, computes what computing afresh would. *)
Theorem fork_history_irrelevant (self1 self2 : FC) (k : SlotHashKey) :
  reachable self1 -> reachable self2 -> same_view self1 self2 -> contains_block self1 k = true ->
  stake_voted_subtree_of self1 k = stake_voted_subtree_of self2 k /\
  height_of self1 k = height_of self2 k /\ deepest_slot_of self1 k = deepest_slot_of self2 k /\
  (is_candidate_of self1 k = Some true -> best_slot_of self1 k = best_slot_of self2 k).
Proof.
  intros H1%reachable_ok H2%reachable_ok Hv Hk%known_iff. destruct (same_view_at _ _ k Hv Hk) as (Hk2 & _).
  pose proof (same_view_weight _ _ H1 H2 Hv k Hk) as Hw. destruct (same_view_deepest _ _ H1 H2 Hv k Hk) as [Hh Hd].
  unfold stake_voted_subtree_of, height_of, deepest_slot_of, best_slot_of.
  rewrite (lookup_info_at _ _ Hk), (lookup_info_at _ _ Hk2). cbn. split_and!; [by f_equal..|].
  intros [_ Hc]%candidate_of. f_equal. by apply same_view_best.
Qed.

(** An invalid fork is not chosen. Once a block that is not confirmed is marked
    invalid, no block of its subtree is valid, the best slot of every valid block
    lies outside its subtree, and the other blocks are as valid as before. *)
Lemma fork_invalid_excluded (self self' : FC) (key : SlotHashKey) :
  reachable self -> contains_block self key = true -> allowed self (MarkInvalidFork key) ->
  mark_fork_invalid_candidate self key = Some self' ->
  (forall k, key ∈ k :: ancestor_iterator self' k -> is_candidate_of self' k <> Some true) /\
  (forall k b, is_candidate_of self' k = Some true -> best_slot_of self' k = Some b -> key ∉ b :: ancestor_iterator self' b) /\
  (forall k, key ∉ k :: ancestor_iterator self' k -> is_candidate_of self' k = is_candidate_of self k).
Proof.
  intros Hok%reachable_ok Hk%known_iff Ha Hrun. cbn in Ha.
  destruct (mark_invalid_ok stake_of self key Hok Hk) as (self1 & Hrun1 & Hok' & _ & _ & Hsh & Hmarks).
  { intros Hc. apply Ha. unfold is_duplicate_confirmed_of. rewrite (lookup_info_at _ _ Hk). cbn. by f_equal. }
  assert (self1 = self') as -> by congruence. pose proof (fc_tree _ _ Hok') as Ht'. pose proof (proj2 (proj1 (Hsh key)) Hk) as Hk'.
  pose proof (fun x => iterator_below self' (tree_root self') key x Ht' Hk') as Hit.
  assert (same_shape (fork_infos self') (fork_infos self)) as Hsh' by (intros x; by destruct (Hsh x) as (? & -> & ->)).
  assert (forall k, key ∈ k :: ancestor_iterator self' k -> is_candidate_of self' k <> Some true) as Hno.
  { intros k [Hkin Hb]%Hit [_ Hc]%candidate_of. apply Hsh in Hkin. eapply (Hmarks k Hkin); [|done]. by eapply below_shape. }
  split_and!; [done| |].
  - intros k b [Hkin Hc]%candidate_of Hb Hin. apply (Hno b Hin). apply candidate_of.
    unfold best_slot_of in Hb. rewrite (lookup_info_at _ _ Hkin) in Hb. injection Hb as <-.
    destruct (best_heaviest self' Hok' k Hkin Hc) as (_ & Hcb & Hbel). split; [|done]. by apply (below_in _ _ _ _ Ht' Hkin Hbel).
  - intros k Hout. unfold is_candidate_of. destruct (decide (is_Some (fork_infos self !! k))) as [Hkin|Hkin].
    + pose proof (proj2 (proj1 (Hsh k)) Hkin) as Hkin'. rewrite (lookup_info_at _ _ Hkin), (lookup_info_at _ _ Hkin'). cbn. f_equal.
      apply eq_bool_prop_intro. rewrite !Is_true_true, !is_candidate_iff. apply (Hmarks k Hkin). intros Hb. apply Hout, Hit.
      split; [done|by eapply below_shape].
    + assert (~ is_Some (fork_infos self' !! k)) as Hkin' by (by rewrite (proj1 (Hsh k))).
      apply eq_None_not_Some in Hkin, Hkin'. by rewrite Hkin, Hkin'.
Qed.

(** Confirmed blocks stay valid. In every reachable state the ancestors of a
    duplicate-confirmed block are duplicate confirmed, and such blocks are valid:
    the assertion that guards their invalidation can only fail by a request to
    invalidate a confirmed block itself. *)
Lemma fork_confirmed_valid (self : FC) (k a : SlotHashKey) :
  reachable self -> is_duplicate_confirmed_of self k = Some true -> a ∈ k :: ancestor_iterator self k ->
  is_duplicate_confirmed_of self a = Some true /\ is_candidate_of self a = Some true.
Proof.
  intros Hok%reachable_ok Hc Hin. pose proof (fc_tree _ _ Hok) as Ht. unfold is_duplicate_confirmed_of in *.
  destruct (fork_infos self !! k) as [i|] eqn:E; [|done]. injection Hc as Hc.
  assert (is_Some (fork_infos self !! k)) as Hk by (by rewrite E). pose proof (ancestors_in stake_of self k a Hok Hk Hin) as Ha.
  assert (confirmed (fork_infos self) a) as Hca.
  { eapply (confirmed_above _ _ a k Ht); [by apply (fc_confirmed_up stake_of)|done| |unfold confirmed; by rewrite (info_at_some _ _ _ E)].
    by apply (iterator_below self (tree_root self) a k Ht Ha). }
  rewrite candidate_of, (lookup_info_at _ _ Ha). cbn. split_and!; [by f_equal|done|]. by apply (fc_marks _ _ Hok).
Qed.

(** Votes are the newest. After [add_votes] every validator's latest vote is its
    vote before or one of the votes given from the root on; it is at least as new
    as each of them, by the slot and, within a slot, the smaller hash. *)
Lemma fork_votes_newest (self self' : FC) (votes : list (Pubkey * SlotHashKey)) best :
  reachable self -> allowed self (AddVotes votes) -> add_votes stake_of self votes = Some (best, self') ->
  best_overall_slot self' = Some best /\
  (forall v k, (v, k) ∈ votes -> (tree_root self).1 <= k.1 -> exists l, latest_votes self' !! v = Some l /\ ~ newer k l) /\
  (forall v l, latest_votes self' !! v = Some l ->
     latest_votes self !! v = Some l \/ ((v, l) ∈ votes /\ (tree_root self).1 <= l.1)) /\
  (forall v old, latest_votes self !! v = Some old -> exists l, latest_votes self' !! v = Some l /\ (l = old \/ newer l old)).
Proof.
  intros Hok%reachable_ok Ha Hrun. destruct (add_votes_ok stake_of self votes Hok Ha) as (best' & self1 & Hrun' & _ & Hb & _ & Hl & _).
  rewrite Hrun in Hrun'. injection Hrun' as <- <-. rewrite Hl. split; [done|]. apply record_votes_spec.
Qed.

End Heaviest.
End Heaviest.

(** ** A sample

    Two validators, two forks of the root. *)
Module SampleFork.
Import Heaviest.

#[local] Abbreviation ForkZ := (HeaviestSubtreeForkChoice (Pubkey := Z)).

Definition stake (v : Z) (_ : Slot) : Z := if decide (v = 1) then 30 else if decide (v = 2) then 20 else 0.

#[global] Instance stake_stakes : Stakes stake.
Proof.
  split.
  - intros v s. unfold stake. repeat case_decide; lia.
  - intros votes. transitivity (Zsum (fun v => (if decide (v = 1) then 30 else 0) + (if decide (v = 2) then 20 else 0)) (map_to_list votes).*1).
    + rewrite Zsum_fmap. apply Zsum_le. intros e _. unfold stake. repeat case_decide; lia.
    + rewrite Zsum_plus, (Zsum_delta (fun _ => 30)), (Zsum_delta (fun _ => 20)) by apply NoDup_fst_map_to_list.
      repeat case_decide; unfold U64_MAX; lia.
Qed.

(** Runs operations as long as they are allowed and leave one tree. *)
Fixpoint runs (self : ForkZ) (ops : list (Op (Pubkey := Z))) : option ForkZ :=
  match ops with
  | [] => Some self
  | o :: ops =>
      if decide (allowed self o) then
        match run stake self o with Some [self] => runs self ops | _ => None end
      else None
  end.

Definition from_new (root : SlotHashKey) (ops : list (Op (Pubkey := Z))) : option ForkZ :=
  self ← new root; runs self ops.

Lemma from_new_reachable root ops self : root <> default_key -> from_new root ops = Some self -> reachable stake self.
Proof.
  intros Hroot. unfold from_new. destruct (new root) as [self0|] eqn:Hnew; [|done]. cbn [mbind option_bind].
  assert (reachable stake self0) as Hr by by eapply reach_new. clear Hnew. revert self0 Hr.
  induction ops as [|o ops IH]; intros self0 Hr; cbn [runs]; [by intros [= <-]|]. case_decide as Ha; [|done].
  destruct (run stake self0 o) as [[|self1 [|]]|] eqn:E; [done| |done|done]. apply IH. eapply reach_run; [done..|]. by left.
Qed.

Definition blocks : list (Op (Pubkey := Z)) := [AddLeaf (1, 5) (0, 7); AddLeaf (2, 6) (0, 7); AddLeaf (3, 8) (1, 5)].
Definition empty_fork : ForkZ := MkFork ∅ ∅ (0, 0).
Definition voted_ops : list (Op (Pubkey := Z)) := blocks ++ [AddVotes [(1, (3, 8)); (2, (2, 6))]].
Definition voted : ForkZ := default empty_fork (from_new (0, 7) voted_ops).

(** The same tree, with the votes before the last block and the other fork first. *)
Definition voted_ops' : list (Op (Pubkey := Z)) :=
  [AddLeaf (2, 6) (0, 7); AddVotes [(2, (2, 6)); (1, (2, 6))]; AddLeaf (1, 5) (0, 7); AddLeaf (3, 8) (1, 5);
   AddVotes [(1, (3, 8))]].
Definition voted' : ForkZ := default empty_fork (from_new (0, 7) voted_ops').

Lemma voted_reachable : reachable stake voted.
Proof. apply (from_new_reachable (0, 7) voted_ops); [done|]. vm_compute. reflexivity. Qed.
Lemma voted'_reachable : reachable stake voted'.
Proof. apply (from_new_reachable (0, 7) voted_ops'); [done|]. vm_compute. reflexivity. Qed.
Lemma voted_same_view : same_view voted voted'.
Proof.
  assert (fork_infos voted = fork_infos voted') as Hi by (vm_compute; reflexivity).
  split.
  - intros k. unfold contains_block. by rewrite Hi.
  - intros k. unfold children_of. by rewrite Hi.
  - intros k. unfold is_candidate_of. by rewrite Hi.
  - vm_compute. reflexivity.
Qed.
End SampleFork.
Import SampleFork.

Lemma fork_choice_no_panic_witness :
  (exists trees, Heaviest.run stake voted (Heaviest.PurgePrune (1, 5)) = Some trees) /\
  (length <$> Heaviest.run stake voted (Heaviest.PurgePrune (1, 5))) = Some 2%nat /\
  best_overall_slot voted = Some (3, 8).
Proof.
  split; [|split; vm_compute; reflexivity].
  refine (proj1 (Heaviest.fork_choice_no_panic stake voted (Heaviest.PurgePrune (1, 5)) voted_reachable) _).
  apply (bool_decide_eq_true_1 _). vm_compute. reflexivity.
Defined.

Lemma fork_stakes_exact_witness :
  stake_voted_subtree_of voted (1, 5) = Some (Heaviest.stake_below stake voted (1, 5)) /\
  Heaviest.stake_below stake voted (1, 5) = 30.
Proof.
  split; [|vm_compute; reflexivity]. apply (Heaviest.fork_stakes_exact stake voted (1, 5) voted_reachable).
  vm_compute. reflexivity.
Defined.

Lemma fork_best_is_heaviest_witness :
  exists b, best_slot_of voted (0, 7) = Some b /\ Heaviest.heaviest stake voted (0, 7) b.
Proof.
  destruct (Heaviest.fork_best_is_heaviest stake voted (0, 7) voted_reachable) as (b & Hb & Hh & _).
  - vm_compute. reflexivity.
  - exists b. split; assumption.
Defined.

Lemma fork_history_irrelevant_witness : best_slot_of voted (0, 7) = best_slot_of voted' (0, 7).
Proof.
  apply (Heaviest.fork_history_irrelevant stake voted voted' (0, 7) voted_reachable voted'_reachable voted_same_view);
    vm_compute; reflexivity.
Defined.

