(* ===== verification/FrozenVotes.v ===== *)
(** * Votes on their way to the fork choice

    [LatestValidatorVotesForFrozenBanks] keeps each validator's newest vote for a
    frozen bank, seen in a replayed block or in gossip, and hands the replayed ones
    to the fork choice in batches; [UnfrozenGossipVerifiedVoteHashes] holds the
    gossip votes for banks that are not frozen yet. The replay stage feeds both
    (src/core/src: consensus.rs, replay_stage.rs). Panics are [None]. *)

From S2P Require Import Prelude ForkChoice.
Import Fork.

Module FrozenVotes.
Section FrozenVotes.
Context {Pubkey : Type} `{Countable Pubkey}.
#[local] Abbreviation FC := (HeaviestSubtreeForkChoice (Pubkey := Pubkey)).

(** ** The newest votes for frozen banks *)

Abbreviation VoteMap := (gmap Pubkey (Slot * list Hash)).

Record LatestValidatorVotesForFrozenBanks : Type := MkLatest {
  max_gossip_frozen_votes : VoteMap;
  max_replay_frozen_votes : VoteMap;
  fork_choice_dirty_set : VoteMap
}.
#[local] Abbreviation LV := LatestValidatorVotesForFrozenBanks.

Definition no_votes : LV := MkLatest ∅ ∅ ∅.

Definition vote_map (is_replay_vote : bool) (self : LV) : VoteMap :=
  if is_replay_vote then max_replay_frozen_votes self else max_gossip_frozen_votes self.

(** An entry of the map of the vote's source, and for a replayed vote one of the
    dirty set. *)
Definition put_vote (is_replay_vote : bool) (pk : Pubkey) (entry dirty : Slot * list Hash) (self : LV) : LV :=
  if is_replay_vote
  then MkLatest (max_gossip_frozen_votes self) (<[pk := entry]> (max_replay_frozen_votes self))
         (<[pk := dirty]> (fork_choice_dirty_set self))
  else MkLatest (<[pk := entry]> (max_gossip_frozen_votes self)) (max_replay_frozen_votes self)
         (fork_choice_dirty_set self).

(** [or_default] gives a missing entry of the dirty set slot 0 and no hashes. *)
Definition check_add_vote (self : LV) (vote_pubkey : Pubkey) (vote_slot : Slot) (frozen_hash : option Hash)
    (is_replay_vote : bool) : option (LV * (bool * option Slot)) :=
  let latest := vote_map is_replay_vote self !! vote_pubkey in
  match frozen_hash with
  | None => Some (self, (false, fst <$> latest))
  | Some frozen_hash =>
      let first := (vote_slot, [frozen_hash]) in
      match latest with
      | None => Some (put_vote is_replay_vote vote_pubkey first first self, (true, Some vote_slot))
      | Some (latest_slot, latest_hashes) =>
          if latest_slot <? vote_slot
          then Some (put_vote is_replay_vote vote_pubkey first first self, (true, Some vote_slot))
          else if (vote_slot =? latest_slot) && negb (bool_decide (frozen_hash ∈ latest_hashes))
          then
            let '(dirty_slot, dirty_hashes) := default (0, []) (fork_choice_dirty_set self !! vote_pubkey) in
            if is_replay_vote && bool_decide (frozen_hash ∈ dirty_hashes) then None
            else Some (put_vote is_replay_vote vote_pubkey (latest_slot, latest_hashes ++ [frozen_hash])
                         (dirty_slot, dirty_hashes ++ [frozen_hash]) self, (true, Some vote_slot))
          else Some (self, (false, Some latest_slot))
      end
  end.

(** The dirty set is consumed in the order a hash map gives its entries in, here
    [new_votes]. *)
Definition take_votes_dirty_set (self : LV) (new_votes : list (Pubkey * (Slot * list Hash))) (root : Slot) :
    LV * list (Pubkey * SlotHashKey) :=
  (MkLatest (max_gossip_frozen_votes self) (max_replay_frozen_votes self) ∅,
   '(pk, (slot, hashes)) ← filter (fun vote => root <= vote.2.1) new_votes;
   (fun hash => (pk, (slot, hash))) <$> hashes).

(** ** Gossip votes for banks not frozen yet *)

Abbreviation VotesPerSlot := (gmap Slot (gmap Hash (list Pubkey))).

(** [votes_per_slot.entry(slot).or_default().entry(hash).or_default().push(pubkey)]. *)
Definition push_vote (pk : Pubkey) (vote_slot : Slot) (hash : Hash) (votes_per_slot : VotesPerSlot) : VotesPerSlot :=
  let hashes := default ∅ (votes_per_slot !! vote_slot) in
  <[vote_slot := <[hash := default [] (hashes !! hash) ++ [pk]]> hashes]> votes_per_slot.

(** [UnfrozenGossipVerifiedVoteHashes::add_vote]. *)
Definition add_vote (self : VotesPerSlot) (pk : Pubkey) (vote_slot : Slot) (hash : Hash) (is_frozen : bool)
    (latest : LV) : option (VotesPerSlot * LV) :=
  let frozen_hash := if is_frozen then Some hash else None in
  '(latest, (was_added, latest_frozen_vote_slot)) ← check_add_vote latest pk vote_slot frozen_hash false;
  if negb was_added && match latest_frozen_vote_slot with Some slot => slot <=? vote_slot | None => true end
  then Some (push_vote pk vote_slot hash self, latest)
  else Some (self, latest).

(** [UnfrozenGossipVerifiedVoteHashes::set_root]. *)
Definition set_root (self : VotesPerSlot) (new_root : Slot) : VotesPerSlot :=
  filter (fun entry => new_root <= entry.1) self.

Definition remove_slot_hash (self : VotesPerSlot) (slot : Slot) (hash : Hash) : VotesPerSlot * option (list Pubkey) :=
  match self !! slot with
  | None => (self, None)
  | Some slot_hashes => (<[slot := delete hash slot_hashes]> self, slot_hashes !! hash)
  end.

(** ** The replay stage *)

Context (stake_of : Pubkey -> Slot -> Z).

(** The fork choice and the two stores of votes. *)
Record Replay : Type := MkReplay {
  heaviest_subtree_fork_choice : FC;
  unfrozen_gossip_verified_vote_hashes : VotesPerSlot;
  latest_validator_votes_for_frozen_banks : LV
}.

Definition process_gossip_verified_vote_hashes (self : Replay) (received : list (Pubkey * SlotHashKey)) : option Replay :=
  foldM (fun self '(pk, (slot, hash)) =>
    let is_frozen := contains_block (heaviest_subtree_fork_choice self) (slot, hash) in
    '(unfrozen, latest) ← add_vote (unfrozen_gossip_verified_vote_hashes self) pk slot hash is_frozen
                            (latest_validator_votes_for_frozen_banks self);
    Some (MkReplay (heaviest_subtree_fork_choice self) unfrozen latest)) self received.

(** The gossip votes held back for a frozen bank count from now on. *)
Definition count_frozen_voters (key : SlotHashKey) (unfrozen : VotesPerSlot) (latest : LV) : option (VotesPerSlot * LV) :=
  let '(unfrozen, new_frozen_voters) := remove_slot_hash unfrozen key.1 key.2 in
  latest ← foldM (fun latest pk => fst <$> check_add_vote latest pk key.1 (Some key.2) false)
             latest (default [] new_frozen_voters);
  Some (unfrozen, latest).

(** A bank is frozen: its block becomes a leaf, and its voters are counted. *)
Definition bank_frozen (self : Replay) (key parent_key : SlotHashKey) : option Replay :=
  fork ← add_new_leaf_slot (heaviest_subtree_fork_choice self) key (Some parent_key);
  '(unfrozen, latest) ← count_frozen_voters key (unfrozen_gossip_verified_vote_hashes self)
                          (latest_validator_votes_for_frozen_banks self);
  Some (MkReplay fork unfrozen latest).

(** The part of [Tower::collect_vote_lockouts] that records the last vote of each
    staked vote account of a bank. *)
Definition record_landed_votes (get_frozen_hash : Slot -> option Hash) (latest : LV) (landed : list (Pubkey * Slot)) :
    option LV :=
  foldM (fun latest '(key, last_landed_voted_slot) =>
    fst <$> check_add_vote latest key last_landed_voted_slot (get_frozen_hash last_landed_voted_slot) true)
    latest landed.

(** [compute_bank_stats] of the fork choice. *)
Definition compute_bank_stats (fork : FC) (latest : LV) (new_votes : list (Pubkey * (Slot * list Hash))) :
    option (FC * LV) :=
  let '(latest, new_votes) := take_votes_dirty_set latest new_votes (tree_root fork).1 in
  '(_, fork) ← add_votes stake_of fork new_votes;
  Some (fork, latest).

(** The votes of one newly frozen bank, as [ReplayStage::compute_bank_stats] takes
    them in. *)
Definition replay_bank_votes (self : Replay) (get_frozen_hash : Slot -> option Hash) (landed : list (Pubkey * Slot))
    (new_votes : list (Pubkey * (Slot * list Hash))) : option Replay :=
  latest ← record_landed_votes get_frozen_hash (latest_validator_votes_for_frozen_banks self) landed;
  '(fork, latest) ← compute_bank_stats (heaviest_subtree_fork_choice self) latest new_votes;
  Some (MkReplay fork (unfrozen_gossip_verified_vote_hashes self) latest).

(** The part of [set_progress_and_tower_bft_root] on this state. *)
Definition set_tower_bft_root (self : Replay) (key : SlotHashKey) : option Replay :=
  fork ← set_tree_root (heaviest_subtree_fork_choice self) key;
  Some (MkReplay fork (set_root (unfrozen_gossip_verified_vote_hashes self) key.1)
          (latest_validator_votes_for_frozen_banks self)).

End FrozenVotes.
End FrozenVotes.
