(* ===== verification/FrozenTheorems.v ===== *)
(** * What becomes of the votes

    The replay stage's use of the vote stores of [FrozenVotes] as a transition
    system with a history of what was received. The fork choice counts for each
    validator the first replayed vote for its newest slot; the gossip store counts
    the newest vote for a frozen bank; a second vote for one slot with another hash
    is lost. *)

From S2P Require Import Prelude OrdMap ForkChoice ForkTree ForkUpdate ForkVisit ForkLeaf ForkInvariant ForkRoots ForkSplit ForkPurge ForkTheorems FrozenVotes.
Import Fork Tree Update Visit Leaf Invariant Roots Split Purge Heaviest FrozenVotes.

Module VotesSeen.
Section VotesSeen.
Context {Pubkey : Type} `{Countable Pubkey} (stake_of : Pubkey -> Slot -> Z) `{!Stakes stake_of}.
#[local] Abbreviation FC := (HeaviestSubtreeForkChoice (Pubkey := Pubkey)).
#[local] Abbreviation LV := (LatestValidatorVotesForFrozenBanks (Pubkey := Pubkey)).
#[local] Abbreviation Replay := (Replay (Pubkey := Pubkey)).
#[local] Abbreviation VotesPerSlot := (gmap Slot (gmap Hash (list Pubkey))).
#[local] Abbreviation Votes := (list (Pubkey * SlotHashKey)).
#[local] Abbreviation fork := heaviest_subtree_fork_choice.
#[local] Abbreviation latest := latest_validator_votes_for_frozen_banks.
#[local] Abbreviation unfrozen := unfrozen_gossip_verified_vote_hashes.

(** ** Use *)

Inductive Event : Type :=
| Frozen (key parent_key : SlotHashKey)
| Gossip (received : Votes)
| BankVotes (get_frozen_hash : Slot -> option Hash) (landed : list (Pubkey * Slot))
    (new_votes : list (Pubkey * (Slot * list Hash)))
| Root (key : SlotHashKey)
| Invalid (key : SlotHashKey)
| Valid (key : SlotHashKey).

Definition with_fork (st : Replay) (fork : FC) : Replay := MkReplay fork (unfrozen st) (latest st).

Definition step (st : Replay) (e : Event) : option Replay :=
  match e with
  | Frozen key p => bank_frozen st key p
  | Gossip received => process_gossip_verified_vote_hashes st received
  | BankVotes g landed new_votes => replay_bank_votes stake_of st g landed new_votes
  | Root key => set_tower_bft_root st key
  | Invalid key => with_fork st <$> mark_fork_invalid_candidate (fork st) key
  | Valid key => with_fork st <$> (snd <$> mark_fork_valid_candidate (fork st) key)
  end.

(** What the callers see to. The vote accounts of a bank have distinct keys, slots are
    [u64]; the dirty set is consumed in some order. *)
Definition permitted (st : Replay) (e : Event) : Prop :=
  match e with
  | Frozen key p => allowed (fork st) (AddLeaf key p)
  | Gossip _ => True
  | BankVotes g landed new_votes =>
      NoDup landed.*1 /\ Forall (fun vote => 0 <= vote.2) landed /\
      (forall lv, record_landed_votes g (latest st) landed = Some lv -> new_votes ≡ₚ map_to_list (fork_choice_dirty_set lv))
  | Root key => allowed (fork st) (SetRoot key)
  | Invalid key => allowed (fork st) (MarkInvalidFork key)
  | Valid key => allowed (fork st) (MarkValidFork key)
  end.

(** What was received: the replayed votes for frozen banks, the gossip votes, and
    the banks frozen. *)
Record History : Type := MkHistory {
  replayed : Votes;
  gossiped : Votes;
  frozen : list SlotHashKey
}.

Definition landed_votes (g : Slot -> option Hash) (landed : list (Pubkey * Slot)) : Votes :=
  omap (fun vote => (fun hash => (vote.1, (vote.2, hash))) <$> g vote.2) landed.

Definition record (h : History) (e : Event) : History :=
  match e with
  | Frozen key _ => MkHistory (replayed h) (gossiped h) (frozen h ++ [key])
  | Gossip received => MkHistory (replayed h) (gossiped h ++ received) (frozen h)
  | BankVotes g landed _ => MkHistory (replayed h ++ landed_votes g landed) (gossiped h) (frozen h)
  | _ => h
  end.

Inductive trace : Replay -> History -> Prop :=
| trace_new root fc : root <> default_key -> new root = Some fc ->
    trace (MkReplay fc ∅ no_votes) (MkHistory [] [] [root])
| trace_step st h e st' : trace st h -> permitted st e -> step st e = Some st' -> trace st' (record h e).

(** ** Replayed votes *)

(** The newest of a validator's votes: for the largest slot, and the first for it. *)
Definition newest (votes : Votes) (v : Pubkey) (k : SlotHashKey) : Prop :=
  exists i, votes !! i = Some (v, k) /\
    (forall j k', votes !! j = Some (v, k') -> k'.1 <= k.1 /\ ((j < i)%nat -> k'.1 < k.1)).

Lemma newest_in votes v k : newest votes v k -> (v, k) ∈ votes.
Proof. intros (i & Hi & _). by eapply list_elem_of_lookup_2. Qed.

Lemma newest_max votes v k k' : newest votes v k -> (v, k') ∈ votes -> k'.1 <= k.1.
Proof. intros (i & _ & Hmax) [j Hj]%list_elem_of_lookup. by eapply Hmax. Qed.

Lemma newest_unique votes v k k' : newest votes v k -> newest votes v k' -> k = k'.
Proof.
  intros (i & Hi & Hmax) (j & Hj & Hmax'). destruct (Hmax j k' Hj) as [H1 H2], (Hmax' i k Hi) as [H3 H4].
  destruct (lt_eq_lt_dec i j) as [[Hlt|<-]|Hlt]; [specialize (H4 Hlt); lia|congruence|specialize (H2 Hlt); lia].
Qed.

Lemma newest_snoc_new votes v s h : (forall k, (v, k) ∈ votes -> k.1 < s) -> newest (votes ++ [(v, (s, h))]) v (s, h).
Proof.
  intros Hlt. exists (length votes). split; [by apply list_lookup_middle|].
  intros j k' [Hj|[Hle Hj]]%lookup_app_Some; cbn.
  - assert (k'.1 < s) by (by eapply Hlt, list_elem_of_lookup_2). lia.
  - apply list_lookup_singleton_Some in Hj as [Hj [= <-]]. cbn. split; [done|]. lia.
Qed.

Lemma newest_snoc_old votes v k u l : newest votes v k -> (u = v -> l.1 <= k.1) -> newest (votes ++ [(u, l)]) v k.
Proof.
  intros (i & Hi & Hmax) Hold. exists i. split; [by apply lookup_app_l_Some|].
  intros j k' [Hj|[Hle Hj]]%lookup_app_Some; [by apply Hmax|]. apply list_lookup_singleton_Some in Hj as [Hj [= -> ->]].
  split; [by apply Hold|]. apply lookup_lt_Some in Hi. lia.
Qed.

(** What the votes stored say of the votes received. *)
Record store_ok (votes : Votes) (lv : LV) : Prop := {
  store_entry v s hs : max_replay_frozen_votes lv !! v = Some (s, hs) ->
    0 <= s /\ exists h hs', hs = h :: hs' /\ newest votes v (s, h);
  store_none v k : max_replay_frozen_votes lv !! v = None -> (v, k) ∉ votes
}.

(** The newest vote of [v] is in the fork choice or older than its root; at slot 0 it
    may be another version. *)
Definition delivered (root : Slot) (votes : gmap Pubkey SlotHashKey) (lv : LV) (v : Pubkey) : Prop :=
  forall s h hs, max_replay_frozen_votes lv !! v = Some (s, h :: hs) ->
  s < root \/ exists h', votes !! v = Some (s, h') /\ (0 < s -> h' = h).

(** The dirty set: a vote for a new slot, or a second one for the slot of a vote that
    is delivered, with slot 0. *)
Definition dirty_ok (root : Slot) (lvotes : gmap Pubkey SlotHashKey) (votes : Votes) (lv : LV) (v : Pubkey) : Prop :=
  match fork_choice_dirty_set lv !! v with
  | None => delivered root lvotes lv v
  | Some d =>
      (exists s h, d = (s, [h]) /\ max_replay_frozen_votes lv !! v = Some (s, [h]) /\
         forall k, (v, k) ∈ votes -> k.1 < s \/ k = (s, h)) \/
      (exists s h hs, d = (0, [h]) /\ (v, (s, h)) ∈ votes /\ max_replay_frozen_votes lv !! v = Some (s, hs) /\
         delivered root lvotes lv v)
  end.

(** A replayed vote lands in [lv]. *)
Inductive lands (lv : LV) (v : Pubkey) (s : Slot) (h : Hash) : LV -> Prop :=
| lands_new : (forall ls lhs, max_replay_frozen_votes lv !! v = Some (ls, lhs) -> ls < s) ->
    lands lv v s h (put_vote true v (s, [h]) (s, [h]) lv)
| lands_again lhs : max_replay_frozen_votes lv !! v = Some (s, lhs) ->
    lands lv v s h (put_vote true v (s, lhs ++ [h]) (0, [h]) lv)
| lands_old ls lhs : max_replay_frozen_votes lv !! v = Some (ls, lhs) -> s <= ls -> lands lv v s h lv.

Lemma check_replay_vote lv v s h : fork_choice_dirty_set lv !! v = None ->
  exists lv' a, check_add_vote lv v s (Some h) true = Some (lv', a) /\ lands lv v s h lv'.
Proof.
  intros Hd. unfold check_add_vote, vote_map. destruct (max_replay_frozen_votes lv !! v) as [[ls lhs]|] eqn:Ev.
  - destruct (ls <? s) eqn:E1.
    { eexists _, _. split; [done|]. constructor. intros ? ? ?. simplify_eq. lia. }
    destruct ((s =? ls) && _) eqn:E2.
    + rewrite Hd. cbn [default andb]. rewrite bool_decide_eq_false_2 by apply not_elem_of_nil.
      apply andb_true_iff in E2 as [E2%Z.eqb_eq _]. subst ls. eexists _, _. split; [done|]. by constructor.
    + eexists _, _. split; [done|]. eapply lands_old; [done|lia].
  - eexists _, _. split; [done|]. constructor. intros ? ? ?. congruence.
Qed.

Lemma lands_other lv v s h lv' u : lands lv v s h lv' -> u <> v ->
  max_replay_frozen_votes lv' !! u = max_replay_frozen_votes lv !! u /\
  fork_choice_dirty_set lv' !! u = fork_choice_dirty_set lv !! u.
Proof. intros [] Hne; cbn; rewrite ?lookup_insert_ne by done; done. Qed.

Lemma lands_gossip lv v s h lv' : lands lv v s h lv' -> max_gossip_frozen_votes lv' = max_gossip_frozen_votes lv.
Proof. by intros []. Qed.

Lemma lands_store votes lv v s h lv' : store_ok votes lv -> 0 <= s -> lands lv v s h lv' ->
  store_ok (votes ++ [(v, (s, h))]) lv'.
Proof.
  intros [Hent Hnone] Hs Hl. split.
  - intros u s' hs' Hu. destruct (decide (u = v)) as [->|Hne]; cycle 1.
    { rewrite (proj1 (lands_other _ _ _ _ _ u Hl Hne)) in Hu. destruct (Hent u s' hs' Hu) as (? & h1 & hs1 & -> & Hn).
      split; [done|]. exists h1, hs1. split; [done|]. by apply newest_snoc_old. }
    destruct Hl as [Hnew|lhs Hv|ls lhs Hv Hle]; cbn in Hu; rewrite ?lookup_insert_eq in Hu.
    + injection Hu as <- <-. split; [done|]. exists h, []. split; [done|]. apply newest_snoc_new. intros k Hk.
      destruct (max_replay_frozen_votes lv !! v) as [[ls lhs]|] eqn:E; [|by apply (Hnone v k E) in Hk].
      destruct (Hent v ls lhs E) as (_ & h1 & hs1 & _ & Hn). pose proof (newest_max _ _ _ _ Hn Hk). cbn in *.
      specialize (Hnew _ _ eq_refl). lia.
    + injection Hu as <- <-. destruct (Hent v s lhs Hv) as (? & h1 & hs1 & -> & Hn). split; [done|].
      exists h1, (hs1 ++ [h]). split; [done|]. by apply newest_snoc_old.
    + rewrite Hv in Hu. injection Hu as <- <-. destruct (Hent v ls lhs Hv) as (? & h1 & hs1 & -> & Hn). split; [done|].
      exists h1, hs1. split; [done|]. by apply newest_snoc_old.
  - intros u k Hu [Hk|[= -> ->]%list_elem_of_singleton]%elem_of_app.
    + destruct (decide (u = v)) as [->|Hne]; [|rewrite (proj1 (lands_other _ _ _ _ _ u Hl Hne)) in Hu; by apply (Hnone u k Hu)].
      destruct Hl; cbn in Hu; rewrite ?lookup_insert_eq in Hu; congruence.
    + destruct Hl; cbn in Hu; rewrite ?lookup_insert_eq in Hu; congruence.
Qed.

Lemma lands_dirty root lvotes votes lv v s h lv' : store_ok votes lv -> lands lv v s h lv' ->
  fork_choice_dirty_set lv !! v = None -> (forall u, dirty_ok root lvotes votes lv u) ->
  forall u, dirty_ok root lvotes (votes ++ [(v, (s, h))]) lv' u.
Proof.
  intros Hst Hl Hd Hok u. specialize (Hok u). unfold dirty_ok, delivered in *. destruct (decide (u = v)) as [->|Hne].
  - rewrite Hd in Hok. destruct Hl as [Hnew|lhs Hv|ls lhs Hv Hle]; cbn.
    + rewrite !lookup_insert_eq. left. exists s, h. split_and!; [done..|].
      intros k [Hk|[= ->]%list_elem_of_singleton]%elem_of_app; [left|by right].
      destruct (max_replay_frozen_votes lv !! v) as [[ls lhs]|] eqn:E; [|by apply (store_none _ _ Hst v k E) in Hk].
      destruct (store_entry _ _ Hst v ls lhs E) as (_ & h1 & hs1 & _ & Hn). pose proof (newest_max _ _ _ _ Hn Hk). cbn in *.
      specialize (Hnew _ _ eq_refl). lia.
    + rewrite !lookup_insert_eq. right. exists s, h, (lhs ++ [h]). split_and!; [done|set_solver|done|].
      destruct (store_entry _ _ Hst v s lhs Hv) as (_ & h1 & hs1 & -> & _). intros s' h' hs' [= <- <- <-]. by eapply Hok.
    + by rewrite Hd.
  - destruct (lands_other _ _ _ _ _ u Hl Hne) as [-> ->]. destruct (fork_choice_dirty_set lv !! u) as [d|]; [|done].
    destruct Hok as [(s1 & h1 & -> & Hm & Hk)|(s1 & h1 & hs1 & -> & Hin & Hm & Hdel)]; [left; exists s1, h1|right; exists s1, h1, hs1].
    + split_and!; [done..|]. intros k [?|[= -> _]%list_elem_of_singleton]%elem_of_app; [by apply Hk|done].
    + split_and!; [done|set_solver|done..].
Qed.

(** The votes of a bank. *)
Lemma record_landed_ok g root lvotes landed : forall votes lv, store_ok votes lv ->
  (forall u, dirty_ok root lvotes votes lv u) -> NoDup landed.*1 -> Forall (fun vote => 0 <= vote.2) landed ->
  (forall u, u ∈ landed.*1 -> fork_choice_dirty_set lv !! u = None) ->
  exists lv', record_landed_votes g lv landed = Some lv' /\ store_ok (votes ++ landed_votes g landed) lv' /\
    (forall u, dirty_ok root lvotes (votes ++ landed_votes g landed) lv' u) /\
    max_gossip_frozen_votes lv' = max_gossip_frozen_votes lv.
Proof.
  unfold record_landed_votes, landed_votes.
  induction landed as [|[v s] landed IH]; intros votes lv Hst Hok Hnd Hpos Hd; cbn [foldM omap list_omap fst snd].
  { exists lv. rewrite app_nil_r. auto. }
  apply NoDup_cons in Hnd as [Hv Hnd]. apply Forall_cons in Hpos as [Hs Hpos]. cbn [snd] in Hs.
  destruct (g s) as [h|]; cbn [fmap option_fmap option_map].
  - destruct (check_replay_vote lv v s h (Hd v ltac:(by left))) as (lv1 & a & -> & Hl).
    cbn [fmap option_fmap option_map fst mbind option_bind].
    destruct (IH (votes ++ [(v, (s, h))]) lv1) as (lv' & Hrun & Hst' & Hok' & Hg); [by eapply lands_store| |done|done| |].
    + eapply lands_dirty; [done|done| |done]. apply Hd. by left.
    + intros u Hu. rewrite (proj2 (lands_other _ _ _ _ _ u Hl ltac:(intros ->; done))). apply Hd. by right.
    + exists lv'. rewrite <- app_assoc in Hst', Hok'. split_and!; [done..|]. rewrite Hg. by eapply lands_gossip.
  - apply IH; [done..|]. intros u Hu. apply Hd. by right.
Qed.

(** The batch taken: the dirty votes from the root on, one for each validator. *)
Lemma take_batch (root : Slot) (new_votes : list (Pubkey * (Slot * list Hash))) (lv : LV) :
  (forall v e, (v, e) ∈ new_votes -> exists h, e.2 = [h]) ->
  (take_votes_dirty_set lv new_votes root).2 =
  (fun e => (e.1, (e.2.1, hd 0 e.2.2))) <$> filter (fun e => root <= e.2.1) new_votes.
Proof.
  intros Hone. unfold take_votes_dirty_set. cbn [snd]. induction new_votes as [|[v [s hs]] l IH]; [done|].
  assert (forall v e, (v, e) ∈ l -> exists h, e.2 = [h]) as Hl by (intros u e Hin; apply (Hone u); set_solver).
  destruct (Hone v (s, hs)) as (h & Hh); [set_solver|]. cbn in Hh. subst hs. rewrite !filter_cons. cbn [fst snd].
  case_decide; [|by apply IH]. cbn. f_equal. by apply IH.
Qed.

Lemma take_batch_spec root lvotes votes lv new_votes :
  (forall u, dirty_ok root lvotes votes lv u) -> new_votes ≡ₚ map_to_list (fork_choice_dirty_set lv) ->
  NoDup (take_votes_dirty_set lv new_votes root).2.*1 /\
  forall v k, (v, k) ∈ (take_votes_dirty_set lv new_votes root).2 <->
    fork_choice_dirty_set lv !! v = Some (k.1, [k.2]) /\ root <= k.1.
Proof.
  intros Hok Hp.
  assert (forall v e, (v, e) ∈ new_votes -> exists h, e.2 = [h]) as Hone.
  { intros v [s hs]. rewrite Hp, elem_of_map_to_list. intros Hv. specialize (Hok v). unfold dirty_ok in Hok. rewrite Hv in Hok.
    destruct Hok as [(? & h & [= -> ->] & _)|(? & h & ? & [= -> ->] & _)]; by exists h. }
  rewrite (take_batch _ _ _ Hone). split.
  - rewrite <- list_fmap_compose. apply NoDup_fmap_filter. rewrite Hp. apply NoDup_fst_map_to_list.
  - intros v [s h]. rewrite list_elem_of_fmap. cbn. split.
    + intros ([u [s' hs]] & Heq & [Hroot Hin]%list_elem_of_filter). destruct (Hone u (s', hs) Hin) as (h' & Hh). cbn in *. subst hs.
      cbn in Heq. simplify_eq. by rewrite Hp, elem_of_map_to_list in Hin.
    + intros [Hd Hroot]. exists (v, (s, [h])). split; [done|]. apply list_elem_of_filter. by rewrite Hp, elem_of_map_to_list.
Qed.

(** ** What the fork choice has *)

Record inv (st : Replay) (h : History) : Prop := {
  inv_fork : reachable stake_of (fork st);
  inv_store : store_ok (replayed h) (latest st);
  inv_clean : fork_choice_dirty_set (latest st) = ∅;
  inv_delivered v : delivered (tree_root (fork st)).1 (latest_votes (fork st)) (latest st) v;
  inv_votes v k : latest_votes (fork st) !! v = Some k -> (v, k) ∈ replayed h
}.

(** One validator's vote after a batch. *)
Lemma recorded_one votes lv v (root : SlotHashKey) (lvotes lvotes' : gmap Pubkey SlotHashKey) :
  store_ok votes lv -> dirty_ok root.1 lvotes votes lv v -> (forall k, lvotes !! v = Some k -> (v, k) ∈ votes) ->
  (forall k, fork_choice_dirty_set lv !! v = Some (k.1, [k.2]) -> root.1 <= k.1 -> exists l, lvotes' !! v = Some l /\ ~ newer k l) ->
  (forall l, lvotes' !! v = Some l ->
     lvotes !! v = Some l \/ (fork_choice_dirty_set lv !! v = Some (l.1, [l.2]) /\ root.1 <= l.1)) ->
  (forall old, lvotes !! v = Some old -> exists l, lvotes' !! v = Some l /\ (l = old \/ newer l old)) ->
  delivered root.1 lvotes' lv v /\ (forall k, lvotes' !! v = Some k -> (v, k) ∈ votes).
Proof.
  intros Hst Hok Hold Hnew Hfrom Hkeep. unfold dirty_ok in Hok. destruct (fork_choice_dirty_set lv !! v) as [d|] eqn:Hd; cycle 1.
  { assert (forall l, lvotes' !! v = Some l -> lvotes !! v = Some l) as Hsame by (intros l [?|[? _]]%Hfrom; done).
    split; [|intros k ?%Hsame; by apply Hold]. intros s h hs Hm. destruct (Hok s h hs Hm) as [?|(h' & Hl & Hh)]; [by left|right].
    destruct (Hkeep _ Hl) as (l & Hl' & _). exists h'. split; [|done]. apply Hsame in Hl' as Hl2. congruence. }
  destruct Hok as [(s & h & -> & Hm & Hk)|(s & h & hs & -> & Hin & Hm & Hdel)].
  - assert (forall k, lvotes' !! v = Some k -> (v, k) ∈ votes) as Hvotes.
    { destruct (store_entry _ _ Hst v _ _ Hm) as (_ & h1 & hs1 & [= <- <-] & Hn%newest_in).
      intros [k1 k2] [?|[[= -> ->] _]]%Hfrom; [by apply Hold|done]. }
    split; [|done]. intros s' h' hs' Hm'. rewrite Hm in Hm'. injection Hm' as <- <- <-.
    destruct (decide (s < root.1)) as [|Hr]; [by left|right].
    destruct (Hnew (s, h) eq_refl) as (l & Hl & Hnn); [cbn; lia|].
    destruct (Hk l (Hvotes l Hl)) as [Hlt| ->]; [destruct Hnn; by left|]. by exists h.
  - destruct (store_entry _ _ Hst v _ _ Hm) as (Hpos & h1 & hs1 & -> & Hn).
    assert (s < root.1 \/ exists l1 l2, lvotes !! v = Some (s, l1) /\ (0 < s -> l1 = h1) /\ lvotes' !! v = Some (s, l2) /\
      (l2 = l1 \/ (s = 0 /\ l2 = h))) as [Hlt|(l1 & l2 & Hl1 & Hh1 & Hl2 & Heq)].
    { destruct (Hdel s h1 hs1 Hm) as [|(l1 & Hl1 & Hh1)]; [by left|right]. destruct (Hkeep _ Hl1) as ([s2 l2] & Hl2 & Hnn).
      destruct (Hfrom _ Hl2) as [Ho|[[= <- <-] _]]; [rewrite Hl1 in Ho; injection Ho as <- <-; exists l1, l1; auto|].
      destruct Hnn as [[= <- <-]|[Hx|[Hx _]]]; cbn in *; [exists h, h; auto 10|lia|]. subst s. exists l1, h. auto 10. }
    + assert (forall k, lvotes' !! v = Some k -> lvotes !! v = Some k) as Hsame.
      { intros k [?|[[= Hk _] ?]]%Hfrom; [done|]. lia. }
      split; [|intros k ?%Hsame; by apply Hold]. intros s' h' hs' Hm'. rewrite Hm in Hm'. injection Hm' as <- <- <-. by left.
    + split.
      * intros s' h' hs' Hm'. rewrite Hm in Hm'. injection Hm' as <- <- <-. right. exists l2. split; [done|].
        intros Hs. destruct Heq as [->|[-> _]]; [by apply Hh1|lia].
      * intros k Hk'. rewrite Hl2 in Hk'. injection Hk' as <-. destruct Heq as [->|[-> ->]]; [by apply Hold|done].
Qed.

(** The fork choice after a batch. *)
Lemma batch_delivered votes lv new_votes (root : SlotHashKey) (lvotes : gmap Pubkey SlotHashKey) :
  store_ok votes lv -> (forall u, dirty_ok root.1 lvotes votes lv u) ->
  new_votes ≡ₚ map_to_list (fork_choice_dirty_set lv) -> (forall v k, lvotes !! v = Some k -> (v, k) ∈ votes) ->
  let '(lv', batch) := take_votes_dirty_set lv new_votes root.1 in
  let lvotes' := foldl (record_vote root) lvotes batch in
  store_ok votes lv' /\ (forall v, delivered root.1 lvotes' lv' v) /\ (forall v k, lvotes' !! v = Some k -> (v, k) ∈ votes).
Proof.
  intros Hst Hok Hp Hold. pose proof (take_batch_spec root.1 lvotes votes lv new_votes Hok Hp) as [_ Hb].
  unfold take_votes_dirty_set in *. cbn [snd] in Hb. set (batch := mbind _ _) in *.
  destruct (record_votes_spec root batch lvotes) as (Hnew & Hfrom & Hkeep).
  assert (forall v, delivered root.1 (foldl (record_vote root) lvotes batch) lv v /\
    (forall k, foldl (record_vote root) lvotes batch !! v = Some k -> (v, k) ∈ votes)) as Hone.
  { intros v. apply (recorded_one votes lv v root lvotes); [done|done|by apply Hold| | |by apply Hkeep].
    - intros k Hd Hr. apply (Hnew v k); [by apply Hb|done].
    - intros l [?|[Hl _]]%Hfrom; [by left|right]. by apply Hb. }
  split_and!; [|intros v; apply (Hone v)|intros v; apply (Hone v)]. destruct Hst as [H1 H2]. by split.
Qed.

(** ** Gossip votes *)

(** The votes of a validator the gossip store counts, and those it has counted or
    given up for a newer one. *)
Definition counts (lv : LV) (v : Pubkey) (k : SlotHashKey) : Prop :=
  exists hs, max_gossip_frozen_votes lv !! v = Some (k.1, hs) /\ k.2 ∈ hs.
Definition counted (lv : LV) (v : Pubkey) (k : SlotHashKey) : Prop :=
  exists s hs, max_gossip_frozen_votes lv !! v = Some (s, hs) /\ (k.1 < s \/ (k.1 = s /\ k.2 ∈ hs)).

(** The voters held back for a bank. *)
Definition waiting (unf : VotesPerSlot) (k : SlotHashKey) : list Pubkey :=
  default [] (default ∅ (unf !! k.1) !! k.2).

Lemma waiting_push pk s h unf k :
  waiting (push_vote pk s h unf) k = waiting unf k ++ (if decide (k = (s, h)) then [pk] else []).
Proof.
  destruct k as [s' h']. unfold waiting, push_vote. cbn [fst snd]. destruct (decide (s' = s)) as [->|Hs].
  - rewrite lookup_insert_eq. cbn. destruct (decide (h' = h)) as [->|Hh].
    + rewrite lookup_insert_eq, decide_True by done. done.
    + rewrite lookup_insert_ne, decide_False, app_nil_r by congruence. done.
  - rewrite lookup_insert_ne, decide_False, app_nil_r by congruence. done.
Qed.

Lemma waiting_remove unf s h : default [] (remove_slot_hash unf s h).2 = waiting unf (s, h) /\
  forall k, k <> (s, h) -> waiting (remove_slot_hash unf s h).1 k = waiting unf k.
Proof.
  unfold waiting, remove_slot_hash. cbn [fst snd]. destruct (unf !! s) as [hashes|] eqn:E; [|done]. split; [done|].
  intros [s' h'] Hk. cbn [fst snd]. destruct (decide (s' = s)) as [->|Hs]; [|by rewrite lookup_insert_ne].
  rewrite lookup_insert_eq, E. cbn. rewrite lookup_delete_ne by congruence. done.
Qed.

Lemma waiting_removed unf s h : waiting (remove_slot_hash unf s h).1 (s, h) = [].
Proof.
  unfold waiting, remove_slot_hash. cbn [fst snd]. destruct (unf !! s) as [hashes|] eqn:E; cbn; [|by rewrite E].
  rewrite lookup_insert_eq. cbn. by rewrite lookup_delete_eq.
Qed.

Lemma waiting_set_root unf root k : waiting (set_root unf root) k = if decide (root <= k.1) then waiting unf k else [].
Proof.
  unfold waiting, set_root. rewrite map_lookup_filter. destruct (unf !! k.1); cbn; case_decide; simplify_option_eq; done.
Qed.

(** The votes [new] were given to the gossip store. *)
Record gossip_step (new : Votes) (lv lv' : LV) : Prop := {
  gs_replay : max_replay_frozen_votes lv' = max_replay_frozen_votes lv;
  gs_dirty : fork_choice_dirty_set lv' = fork_choice_dirty_set lv;
  gs_kept v k : counted lv v k -> counted lv' v k;
  gs_new v k : (v, k) ∈ new -> counted lv' v k;
  gs_from v k : counts lv' v k -> counts lv v k \/ (v, k) ∈ new
}.

Lemma gossip_step_refl lv : gossip_step [] lv lv.
Proof. split; [done|done|done|by intros ?? ?%elem_of_nil|by left]. Qed.

Lemma gossip_step_trans l1 l2 lv1 lv2 lv3 : gossip_step l1 lv1 lv2 -> gossip_step l2 lv2 lv3 -> gossip_step (l1 ++ l2) lv1 lv3.
Proof.
  intros [Hr1 Hd1 Hk1 Hn1 Hf1] [Hr2 Hd2 Hk2 Hn2 Hf2]. split; [congruence|congruence|auto|..].
  - intros v k [?|?]%elem_of_app; auto.
  - intros v k [[?|?]%Hf1|?]%Hf2; [by left|..]; right; set_solver.
Qed.

Lemma put_gossip lv v s h hs d :
  h ∈ hs -> (forall k, counted lv v k -> k.1 < s \/ (k.1 = s /\ k.2 ∈ hs)) ->
  (forall h', h' ∈ hs -> h' = h \/ counts lv v (s, h')) ->
  gossip_step [(v, (s, h))] lv (put_vote false v (s, hs) d lv).
Proof.
  intros Hh Hkeep Hfrom. split; [done|done|..]; intros u k.
  - intros Hc. destruct (decide (u = v)) as [->|Hne]; [exists s, hs; cbn; rewrite lookup_insert_eq; auto|].
    destruct Hc as (s1 & hs1 & ? & ?). exists s1, hs1. cbn. by rewrite lookup_insert_ne.
  - intros [= -> ->]%list_elem_of_singleton. exists s, hs. cbn. rewrite lookup_insert_eq. auto.
  - intros (hs1 & Hu & Hin). cbn in Hu. destruct (decide (u = v)) as [->|Hne].
    + rewrite lookup_insert_eq in Hu. destruct k as [s' h']. cbn in *. injection Hu as <- <-.
      destruct (Hfrom h' Hin) as [->|?]; [right; set_solver|by left].
    + rewrite lookup_insert_ne in Hu by done. left. by exists hs1.
Qed.

Lemma check_gossip_vote lv v s h :
  exists lv' a, check_add_vote lv v s (Some h) false = Some (lv', a) /\ gossip_step [(v, (s, h))] lv lv'.
Proof.
  unfold check_add_vote, vote_map. destruct (max_gossip_frozen_votes lv !! v) as [[ls lhs]|] eqn:Ev.
  - destruct (ls <? s) eqn:E1.
    { eexists _, _. split; [done|]. apply put_gossip; [set_solver| |set_solver].
      intros k (s1 & hs1 & ? & Hk). simplify_eq. left. lia. }
    destruct ((s =? ls) && negb (bool_decide (h ∈ lhs))) eqn:E2; [destruct (default _ _) as [ds dh]; cbn [andb]|];
      eexists _, _; (split; [done|]).
    + apply andb_true_iff in E2 as [E2%Z.eqb_eq _]. subst ls. apply put_gossip; [set_solver|..].
      * intros k (s1 & hs1 & ? & Hk). simplify_eq. set_solver.
      * intros h' [?| ->%list_elem_of_singleton]%elem_of_app; [right; by exists lhs|by left].
    + split; [done|done|done| |by left]. intros u k [= -> ->]%list_elem_of_singleton. exists ls, lhs. split; [done|]. cbn.
      destruct (decide (s = ls)) as [->|]; [right|left; lia]. rewrite Z.eqb_refl in E2.
      by apply negb_false_iff, bool_decide_eq_true in E2.
  - eexists _, _. split; [done|]. apply put_gossip; [set_solver| |set_solver].
    intros k (s1 & hs1 & ? & Hk). congruence.
Qed.

(** What the stores say of the gossip votes received and the banks frozen: a vote
    is counted, held back for a bank that is not frozen, or older than the root. *)
Record gossip_ok (root : Slot) (known : SlotHashKey -> Prop) (received : Votes) (frozen : list SlotHashKey)
    (unf : VotesPerSlot) (lv : LV) : Prop := {
  go_votes v k : (v, k) ∈ received -> counted lv v k \/ (v ∈ waiting unf k /\ ~ known k) \/ k.1 < root;
  go_from v k : counts lv v k -> (v, k) ∈ received /\ k ∈ frozen;
  go_waiting v k : v ∈ waiting unf k -> (v, k) ∈ received;
  go_known k : known k -> k ∈ frozen
}.

Lemma gossip_ok_received root known received frozen unf lv v k unf' lv' new :
  gossip_ok root known received frozen unf lv -> gossip_step new lv lv' ->
  (forall e, e ∈ new -> e = (v, k) /\ k ∈ frozen) -> unf' = unf \/ unf' = push_vote v k.1 k.2 unf ->
  counted lv' v k \/ (v ∈ waiting unf' k /\ ~ known k) ->
  gossip_ok root known (received ++ [(v, k)]) frozen unf' lv'.
Proof.
  intros [Hv Hf Hw Hk] Hs Hnew Hunf Hthis.
  assert (forall u l, u ∈ waiting unf l -> u ∈ waiting unf' l) as Hkeep.
  { intros u l Hu. destruct Hunf as [->| ->]; [done|]. rewrite waiting_push. set_solver. }
  split; [| | |done].
  - intros u l [Hu|[= -> ->]%list_elem_of_singleton]%elem_of_app; [|tauto].
    destruct (Hv u l Hu) as [?%(gs_kept _ _ _ Hs)|[[? ?]|?]]; [by left|right; left; split; auto|auto].
  - intros u l [[? ?]%Hf|[[= -> ->] ?]%Hnew]%(gs_from _ _ _ Hs); (split; [set_solver|done]).
  - intros u l Hu. apply elem_of_app. destruct Hunf as [->| ->]; [left; by apply Hw|]. rewrite waiting_push in Hu.
    apply elem_of_app in Hu as [?|Hu]; [left; by apply Hw|]. right. destruct k. case_decide; set_solver.
Qed.

Lemma add_vote_ok root known received frozen unf lv v s h (is_frozen : bool) :
  gossip_ok root known received frozen unf lv -> (is_frozen = true <-> known (s, h)) ->
  exists unf' lv', add_vote unf v s h is_frozen lv = Some (unf', lv') /\
    gossip_ok root known (received ++ [(v, (s, h))]) frozen unf' lv' /\
    max_replay_frozen_votes lv' = max_replay_frozen_votes lv /\ fork_choice_dirty_set lv' = fork_choice_dirty_set lv.
Proof.
  intros Hok Hf. unfold add_vote. destruct is_frozen.
  - destruct (check_gossip_vote lv v s h) as (lv' & [was lfs] & -> & Hs). cbn [mbind option_bind].
    assert (known (s, h)) as Hk by by apply Hf.
    assert (forall e, e ∈ [(v, (s, h))] -> e = (v, (s, h)) /\ (s, h) ∈ frozen) as Hnew.
    { intros e ->%list_elem_of_singleton. split; [done|]. by apply (go_known _ _ _ _ _ _ Hok). }
    pose proof (gs_new _ _ _ Hs v (s, h) ltac:(set_solver)) as Hc.
    destruct (negb was && _); eexists _, _; (split_and!; [done| |apply Hs|apply Hs]); eapply gossip_ok_received; eauto.
  - assert (~ known (s, h)) as Hk by (intros Hk; by apply Hf in Hk). cbn [check_add_vote vote_map mbind option_bind negb andb].
    destruct (max_gossip_frozen_votes lv !! v) as [[ls lhs]|] eqn:Ev; cbn; [destruct (ls <=? s) eqn:E|];
      eexists _, _; (split_and!; [done| |done|done]);
      (eapply gossip_ok_received; [done|apply gossip_step_refl|by intros e ?%elem_of_nil|by (left + right)|]).
    1,3: right; split; [|done]; rewrite waiting_push, decide_True by done; set_solver.
    left. exists ls, lhs. split; [done|]. left. cbn. lia.
Qed.

(** The voters held back for a bank are counted when it is frozen. *)
Lemma add_frozen_voters (k : SlotHashKey) voters : forall lv,
  exists lv', foldM (fun latest pk => fst <$> check_add_vote latest pk k.1 (Some k.2) false) lv voters = Some lv' /\
    gossip_step ((fun v => (v, k)) <$> voters) lv lv'.
Proof.
  induction voters as [|v voters IH]; intros lv; cbn [foldM]; [exists lv; split; [done|apply gossip_step_refl]|].
  destruct (check_gossip_vote lv v k.1 k.2) as (lv1 & a & -> & Hs1). cbn [fmap option_fmap option_map fst mbind option_bind].
  destruct (IH lv1) as (lv' & Hrun & Hs2). exists lv'. split; [done|]. rewrite fmap_cons.
  change ((v, k) :: ?l) with ([(v, k)] ++ l). rewrite (surjective_pairing k) at 1. by eapply gossip_step_trans.
Qed.

Lemma gossip_ok_frozen root (known known' : SlotHashKey -> Prop) received frozen unf lv lv' k :
  gossip_ok root known received frozen unf lv -> (forall l, known' l -> l = k \/ known l) ->
  gossip_step ((fun v => (v, k)) <$> waiting unf k) lv lv' ->
  gossip_ok root known' received (frozen ++ [k]) (remove_slot_hash unf k.1 k.2).1 lv'.
Proof.
  intros [Hv Hf Hw Hk] Hknown Hs. destruct (waiting_remove unf k.1 k.2) as [_ Hrest].
  rewrite <- surjective_pairing in Hrest. pose proof (waiting_removed unf k.1 k.2) as Hgone. rewrite <- surjective_pairing in Hgone.
  split.
  - intros v l Hin. destruct (Hv v l Hin) as [?%(gs_kept _ _ _ Hs)|[[Hwl Hnk]|?]]; [by left| |auto].
    destruct (decide (l = k)) as [->|Hne].
    + left. apply (gs_new _ _ _ Hs), list_elem_of_fmap. eauto.
    + right; left. rewrite Hrest by done. split; [done|]. by intros [?|?]%Hknown.
  - intros v l [[? ?]%Hf|(u & [= -> ->] & Hu)%list_elem_of_fmap]%(gs_from _ _ _ Hs); (split; [|set_solver]); [done|by apply Hw].
  - intros v l Hin. destruct (decide (l = k)) as [->|Hne]; [rewrite Hgone in Hin; by apply elem_of_nil in Hin|].
    rewrite Hrest in Hin by done. by apply Hw.
  - intros l [->|?%Hk]%Hknown; set_solver.
Qed.

Lemma gossip_ok_root root (known known' : SlotHashKey -> Prop) root' received frozen unf lv lv' :
  gossip_ok root known received frozen unf lv -> (forall l, known' l -> known l) -> root <= root' ->
  max_gossip_frozen_votes lv' = max_gossip_frozen_votes lv -> gossip_ok root' known' received frozen (set_root unf root') lv'.
Proof.
  intros [Hv Hf Hw Hk] Hknown Hroot Hg. unfold counted, counts in *. split; unfold counted, counts; rewrite ?Hg; [|done| |auto].
  - intros v l Hin. destruct (decide (l.1 < root')); [auto|].
    rewrite waiting_set_root, decide_True by lia. destruct (Hv v l Hin) as [|[[? ?]|?]]; [by left|right; left; auto|lia].
  - intros v l. rewrite waiting_set_root. case_decide; [apply Hw|by intros ?%elem_of_nil].
Qed.

Lemma gossip_ok_fork root (known known' : SlotHashKey -> Prop) received frozen unf lv lv' :
  gossip_ok root known received frozen unf lv -> (forall l, known' l -> known l) ->
  max_gossip_frozen_votes lv' = max_gossip_frozen_votes lv -> gossip_ok root known' received frozen unf lv'.
Proof.
  intros [Hv Hf Hw Hk] Hknown Hg. unfold counted, counts in *. split; unfold counted, counts; rewrite ?Hg; [|done|done|auto].
  intros v l Hin. destruct (Hv v l Hin) as [|[[? ?]|?]]; [by left|right; left; auto|auto].
Qed.

(** ** Every event *)

(** The operations of the fork choice other than votes keep the latest votes; its
    root moves to later slots only. *)
Lemma fork_run (self : FC) o : reachable stake_of self -> allowed self o ->
  match o with AddLeaf _ _ | MarkInvalidFork _ | MarkValidFork _ | SetRoot _ => True | _ => False end ->
  exists self', run stake_of self o = Some [self'] /\ reachable stake_of self' /\ latest_votes self' = latest_votes self /\
    (tree_root self).1 <= (tree_root self').1 /\
    match o with SetRoot key => tree_root self' = key | _ => tree_root self' = tree_root self end /\
    (forall k, known self' k -> match o with AddLeaf key _ => k = key | _ => False end \/ known self k).
Proof.
  intros Hr Ha Ho. pose proof (reachable_ok stake_of self Hr) as Hok.
  cut (exists self', run stake_of self o = Some [self'] /\ latest_votes self' = latest_votes self /\
    (tree_root self).1 <= (tree_root self').1 /\
    match o with SetRoot key => tree_root self' = key | _ => tree_root self' = tree_root self end /\
    (forall k, known self' k -> match o with AddLeaf key _ => k = key | _ => False end \/ known self k)).
  { intros (self' & Hrun & Hrest). exists self'. split_and!; [done| |apply Hrest..].
    eapply reach_run; [done..|]. by left. }
  destruct o as [key p|votes|key|key|key|key|key|key]; try done; cbn [run allowed] in Ha |- *.
  - destruct Ha as [Hk|(Hu & Hp & Hlt)].
    + exists self. unfold add_new_leaf_slot. rewrite Hk. split_and!; auto. lia.
    + apply unused_none in Hu as (Hnew & Hdef & Hv). apply known_iff in Hp.
      destruct (add_new_leaf_ok stake_of self key p) as (self' & Hadd & _ & Hroot & Hlv & Hin); [done..|].
      exists self'. rewrite Hadd. split_and!; [done|done|by rewrite Hroot|done|]. intros k. rewrite !known_iff. by rewrite Hin.
  - destruct (decide (is_Some (fork_infos self !! key))) as [Hk|Hk].
    + destruct (mark_invalid_ok stake_of self key Hok Hk) as (self' & Hmark & _ & Hroot & Hlv & Hsh & _).
      { intros Hc. apply Ha. unfold is_duplicate_confirmed_of. rewrite (lookup_info_at _ _ Hk). cbn. by f_equal. }
      exists self'. rewrite Hmark. split_and!; [done|done|by rewrite Hroot|done|]. intros k. rewrite !known_iff. right. by apply Hsh.
    + exists self. unfold mark_fork_invalid_candidate. apply eq_None_not_Some in Hk. rewrite Hk. split_and!; auto. lia.
  - apply known_iff in Ha. destruct (mark_valid_ok stake_of self key Hok Ha) as (self' & -> & _ & Hroot & Hlv & Hsh & _).
    exists self'. split_and!; [done|done|by rewrite Hroot|done|]. intros k. rewrite !known_iff. right. by apply Hsh.
  - apply known_iff in Ha. destruct (set_tree_root_ok stake_of self key Hok Ha) as (self' & Hset & _ & Hroot & Hlv & Hcut & _).
    pose proof (fc_tree _ _ Hok) as Ht.
    exists self'. rewrite Hset. split_and!; [done|done| |done|intros k; rewrite !known_iff; right; by apply Hcut].
    rewrite Hroot. pose proof (all_below _ _ Ht key Ha) as Hb.
    destruct (below_in _ _ _ _ Ht (tree_root_in _ _ Ht) Hb) as [_ [->|?]]; lia.
Qed.

Lemma known_from_root (self : FC) k : reachable stake_of self -> known self k -> (tree_root self).1 <= k.1.
Proof.
  intros Hr Hk%known_iff. pose proof (fc_tree _ _ (reachable_ok stake_of self Hr)) as Ht.
  destruct (below_in _ _ _ _ Ht (tree_root_in _ _ Ht) (all_below _ _ Ht k Hk)) as [_ [->|?]]; lia.
Qed.

(** The invariant: the replayed votes and the gossip votes. *)
Record st_ok (st : Replay) (h : History) : Prop := {
  ok_inv : inv st h;
  ok_gossip : gossip_ok (tree_root (fork st)).1 (known (fork st)) (gossiped h) (frozen h) (unfrozen st) (latest st)
}.

(** The replayed side depends on the replay maps only, and survives a new root. *)
Lemma inv_keep st h st' h' :
  inv st h -> replayed h' = replayed h -> reachable stake_of (fork st') ->
  latest_votes (fork st') = latest_votes (fork st) -> (tree_root (fork st)).1 <= (tree_root (fork st')).1 ->
  max_replay_frozen_votes (latest st') = max_replay_frozen_votes (latest st) ->
  fork_choice_dirty_set (latest st') = fork_choice_dirty_set (latest st) -> inv st' h'.
Proof.
  intros [Hr [H1 H2] Hc Hd Hv] Hh Hr' Hlv Hroot Hm Hdi. split; [done|split|..]; rewrite ?Hh, ?Hm, ?Hdi; [done..| |].
  - intros v s x hs. rewrite Hm, Hlv. intros Hx. destruct (Hd v s x hs Hx); [left; lia|by right].
  - rewrite Hlv. apply Hv.
Qed.

Lemma inv_gossip st h st' h' : inv st h -> replayed h' = replayed h -> fork st' = fork st ->
  max_replay_frozen_votes (latest st') = max_replay_frozen_votes (latest st) ->
  fork_choice_dirty_set (latest st') = fork_choice_dirty_set (latest st) -> inv st' h'.
Proof. intros Hi ? Hf ??. apply (inv_keep st h); rewrite ?Hf; [done|done|by apply (inv_fork _ _ Hi)|done|reflexivity|done|done]. Qed.

Lemma frozen_ok st h key p : st_ok st h -> permitted st (Frozen key p) ->
  exists st', bank_frozen st key p = Some st' /\ st_ok st' (record h (Frozen key p)).
Proof.
  intros [Hi Hg] Hp. destruct (fork_run (fork st) (AddLeaf key p) (inv_fork _ _ Hi) Hp I) as (fc & Hrun & Hr & Hlv & Hle & Hroot & Hk).
  unfold bank_frozen, count_frozen_voters. cbn [run] in Hrun. apply bind_Some in Hrun as (fc' & -> & [= ->]). cbn [mbind option_bind].
  destruct (waiting_remove (unfrozen st) key.1 key.2) as [Hvoters _]. rewrite <- surjective_pairing in Hvoters.
  destruct (add_frozen_voters key (waiting (unfrozen st) key) (latest st)) as (lv' & Hfold & Hs).
  pose proof (gossip_ok_frozen _ _ (known fc) _ _ _ _ lv' key Hg Hk Hs) as Hg'.
  destruct (remove_slot_hash _ _ _) as [unf voters]. cbn [fst snd] in *. rewrite Hvoters, Hfold. cbn [mbind option_bind].
  eexists. split; [done|]. split; cbn; [|by rewrite Hroot]. eapply inv_keep; [done|done|done|done|done|apply Hs|apply Hs].
Qed.

Lemma gossip_votes_ok h received : forall st, st_ok st h ->
  exists st', process_gossip_verified_vote_hashes st received = Some st' /\ st_ok st' (record h (Gossip received)).
Proof.
  intros st Hst. unfold process_gossip_verified_vote_hashes.
  destruct (foldM_inv (fun self '(pk, (slot, hash)) =>
    let is_frozen := contains_block (fork self) (slot, hash) in
    '(unfrozen, latest) ← add_vote (unfrozen self) pk slot hash is_frozen (latest self);
    Some (MkReplay (fork self) unfrozen latest)) (fun pre st' => st_ok st' (record h (Gossip pre))) received [] st)
    as (st' & Hrun & Hok).
  - destruct Hst as [Hi Hg]. split; cbn; [by eapply (inv_gossip st h)|by rewrite app_nil_r].
  - intros pre [v [s x]] st1 [Hi1 Hg1] _. cbn in Hg1.
    destruct (add_vote_ok _ _ _ _ _ _ v s x (contains_block (fork st1) (s, x)) Hg1) as (unf' & lv' & Hadd & Hg2 & Hm & Hd); [done|].
    cbv zeta. rewrite Hadd. cbn. eexists. split; [done|]. split; cbn; [by eapply inv_gossip|].
    by rewrite app_assoc.
  - by exists st'.
Qed.

Lemma bank_votes_ok st h g landed new_votes : st_ok st h -> permitted st (BankVotes g landed new_votes) ->
  exists st', replay_bank_votes stake_of st g landed new_votes = Some st' /\
    st_ok st' (record h (BankVotes g landed new_votes)) /\ tree_root (fork st') = tree_root (fork st).
Proof.
  intros [[Hr Hs Hc Hd Hv] Hg] (Hnd & Hpos & Hperm).
  destruct (record_landed_ok g (tree_root (fork st)).1 (latest_votes (fork st)) landed _ _ Hs) as (lv & Hland & Hs' & Hdirty & Hmg);
    [|done|done|by intros u _; rewrite Hc, lookup_empty|].
  { intros u. unfold dirty_ok. by rewrite Hc, lookup_empty. }
  specialize (Hperm lv Hland). unfold replay_bank_votes, compute_bank_stats. rewrite Hland. cbn [mbind option_bind].
  destruct (take_batch_spec _ _ _ lv new_votes Hdirty Hperm) as [Hnb _].
  pose proof (batch_delivered _ lv new_votes (tree_root (fork st)) (latest_votes (fork st)) Hs' Hdirty Hperm) as Hb.
  destruct (take_votes_dirty_set _ _ _) as [lv' batch] eqn:Et. cbn [fst snd] in *.
  assert (allowed (fork st) (AddVotes batch)) as Ha by (cbn; by apply NoDup_fmap_filter).
  destruct (add_votes_ok stake_of (fork st) batch (reachable_ok stake_of _ Hr) Ha) as (best & fc & Hadd & _ & _ & Hroot & Hlv & Hsh & _).
  rewrite Hadd. cbn [mbind option_bind]. rewrite <- Hlv in Hb. destruct Hb as (Hs2 & Hd2 & Hv2).
  { intros v k Hk. apply elem_of_app. left. by apply Hv. }
  injection Et as <- _. eexists. split_and!; [done| |done]. split; [split|]; cbn; [|done|done|by rewrite Hroot|done|].
  - eapply (reach_run stake_of (fork st) (AddVotes batch) [fc]); [done..| |by left]. cbn. by rewrite Hadd.
  - rewrite Hroot. eapply gossip_ok_fork; [done| |done]. intros k. rewrite !known_iff. apply Hsh.
Qed.

(** An operation of the fork choice alone. *)
Lemma with_fork_ok st h o : st_ok st h -> allowed (fork st) o ->
  match o with MarkInvalidFork _ | MarkValidFork _ => True | _ => False end ->
  exists fc, run stake_of (fork st) o = Some [fc] /\ st_ok (with_fork st fc) h.
Proof.
  intros [Hi Hg] Ha Ho. destruct (fork_run (fork st) o (inv_fork _ _ Hi) Ha) as (fc & Hrun & Hr & Hlv & Hle & Hroot & Hk);
    [by destruct o|]. exists fc. split; [done|]. split; [by eapply inv_keep|]. cbn.
  assert (tree_root fc = tree_root (fork st)) as -> by (by destruct o).
  eapply gossip_ok_fork; [done| |done]. intros k Hin. destruct (Hk k Hin) as [?|?]; [by destruct o|done].
Qed.

Lemma step_ok st h e : st_ok st h -> permitted st e -> exists st', step st e = Some st' /\ st_ok st' (record h e).
Proof.
  intros Hok Hp. destruct e as [key p|received|g landed new_votes|key|key|key]; cbn [step].
  - by apply frozen_ok.
  - by apply gossip_votes_ok.
  - destruct (bank_votes_ok st h g landed new_votes Hok Hp) as (st' & ? & ? & _). eauto.
  - destruct Hok as [Hi Hg]. destruct (fork_run (fork st) (SetRoot key) (inv_fork _ _ Hi) Hp I) as (fc & Hrun & Hr & Hlv & Hle & Hroot & Hk).
    unfold set_tower_bft_root. cbn [run] in Hrun. apply bind_Some in Hrun as (fc' & -> & [= ->]). cbn. eexists. split; [done|]. split; [by eapply inv_keep|]. cbn.
    rewrite Hroot in Hle |- *. eapply gossip_ok_root; [done| |done|done]. intros k Hin. by destruct (Hk k Hin).
  - destruct (with_fork_ok st h (MarkInvalidFork key) Hok Hp I) as (fc & Hrun & ?). cbn [run] in Hrun.
    apply bind_Some in Hrun as (fc' & -> & [= ->]). cbn. eauto.
  - destruct (with_fork_ok st h (MarkValidFork key) Hok Hp I) as (fc & Hrun & ?). cbn [run] in Hrun.
    apply bind_Some in Hrun as ([vs fc'] & -> & [= ->]). cbn. eauto.
Qed.

Lemma trace_ok st h : trace st h -> st_ok st h.
Proof.
  induction 1 as [root fc Hroot Hnew|st h e st' _ IH Hp Hrun].
  - destruct (new_ok stake_of root Hroot) as (fc' & Hnew' & Hok & Hr & Hlv & Hin). rewrite Hnew in Hnew'. injection Hnew' as <-.
    split; split; cbn; [by eapply reach_new|split; cbn|..]; try (intros *; rewrite ?Hlv, ?lookup_empty; done).
    + intros v k _ ?%elem_of_nil. done.
    + intros v k ?%elem_of_nil. done.
    + intros v k (hs & Hhs & _). cbn in Hhs. by rewrite lookup_empty in Hhs.
    + intros v k Hw. unfold waiting in Hw. rewrite lookup_empty in Hw. cbn in Hw. rewrite lookup_empty in Hw. by apply elem_of_nil in Hw.
    + intros k ->%known_iff%Hin. set_solver.
  - destruct (step_ok st h e IH Hp) as (st1 & Hrun1 & Hok1). congruence.
Qed.

(** C13: Replayed votes reach the fork choice. Whatever the replay stage did before,
    taking in the votes of a newly frozen bank runs through without a panic and leaves
    nothing to deliver: every validator with a vote for a frozen bank that ever landed
    has a newest one, the first for its largest slot; the fork choice counts exactly
    that one unless it is older than the root or for slot 0; and it counts no vote
    that did not land. *)
Theorem replayed_votes_delivered st h g landed new_votes :
  trace st h -> permitted st (BankVotes g landed new_votes) ->
  let votes := replayed h ++ landed_votes g landed in
  exists st', step st (BankVotes g landed new_votes) = Some st' /\ fork_choice_dirty_set (latest st') = ∅ /\
    (forall v k, (v, k) ∈ votes -> exists k', newest votes v k') /\
    (forall v k, newest votes v k -> (tree_root (fork st)).1 <= k.1 -> 0 < k.1 -> latest_votes (fork st') !! v = Some k) /\
    (forall v k, latest_votes (fork st') !! v = Some k -> (v, k) ∈ votes).
Proof.
  intros Ht Hp votes. destruct (bank_votes_ok st h g landed new_votes (trace_ok st h Ht) Hp) as (st' & Hrun & [[_ Hs Hc Hd Hv] _] & Hr).
  exists st'. cbn in Hs, Hv. fold votes in Hs, Hv.
  assert (forall v k, (v, k) ∈ votes -> exists s x hs, max_replay_frozen_votes (latest st') !! v = Some (s, x :: hs) /\
    newest votes v (s, x)) as Hex.
  { intros v k Hk. destruct (max_replay_frozen_votes (latest st') !! v) as [[s hs]|] eqn:E.
    - destruct (store_entry _ _ Hs v s hs E) as (_ & x & hs' & -> & ?). eauto.
    - by apply (store_none _ _ Hs v k E) in Hk. }
  split_and!; [done|done| | |done].
  - intros v k Hk. destruct (Hex v k Hk) as (s & x & hs & _ & ?). eauto.
  - intros v k Hn Hroot Hpos. destruct (Hex v k (newest_in _ _ _ Hn)) as (s & x & hs & Hsx & Hn').
    rewrite (newest_unique _ _ _ _ Hn Hn') in *. cbn in Hroot, Hpos.
    destruct (Hd v s x hs Hsx) as [Hlt|(x' & -> & Heq)]; [rewrite Hr in Hlt; lia|]. by rewrite Heq.
Qed.

(** C29: Gossip votes are counted once their bank is frozen. Taking in gossip votes
    never panics; afterwards every vote ever received for a bank of the fork
    choice is counted as its voter's newest one or gave way to one for a later slot,
    whether the bank was frozen before or after the vote arrived; and a vote that
    is counted was received, and its bank was frozen. *)
Theorem gossip_votes_counted st h received :
  trace st h ->
  exists st', step st (Gossip received) = Some st' /\
    (forall v k, (v, k) ∈ gossiped h ++ received -> known (fork st') k -> counted (latest st') v k) /\
    (forall v k, counts (latest st') v k -> (v, k) ∈ gossiped h ++ received /\ k ∈ frozen h).
Proof.
  intros Ht. destruct (gossip_votes_ok h received st (trace_ok st h Ht)) as (st' & Hrun & [Hi [Hv Hf Hw Hk]]).
  exists st'. split_and!; [done| |done]. intros v k Hin Hkn. pose proof (known_from_root _ _ (inv_fork _ _ Hi) Hkn).
  destruct (Hv v k Hin) as [?|[[_ ?]|?]]; [done|done|lia].
Qed.

(** C40: A second vote for a slot is lost. When a validator's newest vote was already
    handed to the fork choice, a replayed vote of it for the same slot with another
    hash is reported as added, but it enters the dirty set with slot 0: with any
    later root the next batch has no vote of the validator, and the vote is refused
    from then on. *)
Theorem second_hash_lost (lv : LV) v s hs x root :
  max_replay_frozen_votes lv !! v = Some (s, hs) -> x ∉ hs -> fork_choice_dirty_set lv !! v = None -> 0 < root ->
  exists lv', check_add_vote lv v s (Some x) true = Some (lv', (true, Some s)) /\
    forall new_votes, new_votes ≡ₚ map_to_list (fork_choice_dirty_set lv') ->
    let '(lv2, batch) := take_votes_dirty_set lv' new_votes root in
    (forall k, (v, k) ∉ batch) /\ check_add_vote lv2 v s (Some x) true = Some (lv2, (false, Some s)).
Proof.
  clear Stakes0 stake_of. intros Hv Hx Hd Hroot. unfold check_add_vote, vote_map. rewrite Hv, Z.ltb_irrefl, Z.eqb_refl, Hd, bool_decide_eq_false_2 by done.
  cbn. rewrite bool_decide_eq_false_2 by apply not_elem_of_nil. eexists. split; [done|]. intros new_votes Hp. cbn in *.
  rewrite lookup_insert_eq, Z.ltb_irrefl, Z.eqb_refl, bool_decide_eq_true_2 by set_solver. split; [|done].
  intros k ([u [s' hs']] & Hin & [Hs' Hnv]%list_elem_of_filter)%list_elem_of_bind.
  apply list_elem_of_fmap in Hin as (x' & [= -> ->] & _). rewrite Hp, elem_of_map_to_list, lookup_insert_eq in Hnv.
  injection Hnv as <- _. cbn in Hs'. lia.
Qed.

End VotesSeen.
End VotesSeen.

(** ** A sample

    Two banks are frozen above the root; a gossip vote for the second one arrives
    before it is frozen, and both validators' votes land. *)
Module SampleVotes.
Import SampleFork VotesSeen.

Definition start : Replay (Pubkey := Z) := MkReplay (default empty_fork (new (0, 7))) ∅ no_votes.
Definition received : list (Z * SlotHashKey) := [(2, (3, 8)); (1, (1, 5))].
Definition after (st : Replay (Pubkey := Z)) (e : Event) : Replay := default start (step stake st e).
Definition st1 : Replay := after start (Frozen (1, 5) (0, 7)).
Definition st2 : Replay := after st1 (Gossip received).
Definition st3 : Replay := after st2 (Frozen (3, 8) (1, 5)).
Definition hashes (s : Slot) : option Hash := if decide (s = 1) then Some 5 else if decide (s = 3) then Some 8 else None.
Definition landed : list (Z * Slot) := [(1, 3); (2, 1)].
Definition new_votes : list (Z * (Slot * list Hash)) :=
  map_to_list (fork_choice_dirty_set (default no_votes
    (record_landed_votes hashes (latest_validator_votes_for_frozen_banks st3) landed))).

Lemma sample_trace : trace stake st3 (MkHistory [] received [(0, 7); (1, 5); (3, 8)]).
Proof.
  eapply (trace_step stake st2 (MkHistory [] received [(0, 7); (1, 5)]) (Frozen (3, 8) (1, 5)));
    [|apply (bool_decide_eq_true_1 _); vm_compute; reflexivity|vm_compute; reflexivity].
  eapply (trace_step stake st1 (MkHistory [] [] [(0, 7); (1, 5)]) (Gossip received)); [|done|vm_compute; reflexivity].
  eapply (trace_step stake start (MkHistory [] [] [(0, 7)]) (Frozen (1, 5) (0, 7)));
    [|apply (bool_decide_eq_true_1 _); vm_compute; reflexivity|vm_compute; reflexivity].
  by apply trace_new.
Qed.

Lemma sample_permitted : permitted st3 (BankVotes hashes landed new_votes).
Proof.
  split_and!.
  - apply (bool_decide_eq_true_1 _). reflexivity.
  - by repeat apply Forall_cons_2.
  - intros lv Hlv. unfold new_votes. by rewrite Hlv.
Qed.
End SampleVotes.
Import SampleFork SampleVotes.

Lemma replayed_votes_delivered_witness :
  exists st', VotesSeen.step stake st3 (VotesSeen.BankVotes hashes landed new_votes) = Some st' /\
    latest_votes (heaviest_subtree_fork_choice st') !! 1 = Some (3, 8).
Proof.
  destruct (VotesSeen.replayed_votes_delivered stake _ _ hashes landed new_votes sample_trace sample_permitted)
    as (st' & Hrun & _ & _ & Hnew & _).
  exists st'. split; [exact Hrun|]. apply Hnew.
  - assert (VotesSeen.replayed (VotesSeen.MkHistory [] received [(0, 7); (1, 5); (3, 8)]) ++ VotesSeen.landed_votes hashes landed
      = [(1, (3, 8)); (2, (1, 5))]) as -> by reflexivity.
    exists 0%nat. split; [reflexivity|]. intros [|[|j]] k' Hk; [injection Hk as <-|discriminate|discriminate]. cbn. lia.
  - assert (tree_root (heaviest_subtree_fork_choice st3) = (0, 7)) as -> by reflexivity. cbn. lia.
  - cbn. lia.
Defined.

Lemma gossip_votes_counted_witness :
  exists st', VotesSeen.step stake st3 (VotesSeen.Gossip []) = Some st' /\
    (Heaviest.known (heaviest_subtree_fork_choice st') (3, 8) ->
     VotesSeen.counted (latest_validator_votes_for_frozen_banks st') 2 (3, 8)).
Proof.
  destruct (VotesSeen.gossip_votes_counted stake _ _ [] sample_trace) as (st' & Hrun & Hc & _).
  exists st'. split; [exact Hrun|]. apply Hc. vm_compute. left.
Defined.

Lemma second_hash_lost_witness :
  exists lv', check_add_vote (MkLatest ∅ {[1 := (3, [8])]} ∅) 1 3 (Some 9) true = Some (lv', (true, Some 3)) /\
    let '(lv2, batch) := take_votes_dirty_set lv' [(1, (0, [9]))] 2 in
    (forall k, (1, k) ∉ batch) /\ check_add_vote lv2 1 3 (Some 9) true = Some (lv2, (false, Some 3)).
Proof.
  destruct (VotesSeen.second_hash_lost (MkLatest ∅ {[1 := (3, [8])]} ∅) 1 3 [8] 9 2) as (lv' & Hadd & Hlost).
  - vm_compute. reflexivity.
  - set_solver.
  - vm_compute. reflexivity.
  - lia.
  - exists lv'. split; [exact Hadd|]. apply Hlost. vm_compute in Hadd. injection Hadd as <-. vm_compute. reflexivity.
Defined.
