(* ===== verification/TransactionContext.v ===== *)
(** * Transaction context: the accounts and instructions of a running transaction

    src/transaction-context: the accounts that a transaction has loaded, behind
    borrow counters; the stack and the trace of its instructions; and the
    operations through which a program may change an account, with the checks
    of ownership, writability and size and the books of lamports and bytes.

    An operation on the context is a state transformer that may fail and may
    panic: on an error the changes made so far stay, a panic is [None]. *)

From S2P Require Import Prelude.

Module Ctx.

Abbreviation Pubkey := Z (only parsing).
Abbreviation Bytes := (list Z) (only parsing).

Inductive InstructionError : Type :=
| CallDepth
| MissingAccount
| UnbalancedInstruction
| MaxInstructionTraceLengthExceeded
| InvalidAccountOwner
| AccountBorrowFailed
| AccountBorrowOutstanding
| ModifiedProgramId
| ExternalAccountLamportSpend
| ReadonlyLamportChange
| ArithmeticOverflow
| InvalidRealloc
| MaxAccountsDataAllocationsExceeded
| ReadonlyDataModified
| ExternalAccountDataModified
| AccountDataSizeChanged
| ExecutableAccountNotRentExempt
| ExecutableModified
| GenericError
| AccountDataTooSmall
| InvalidAccountData
| UninitializedAccount
| AccountAlreadyInitialized
| MissingRequiredSignature
| InsufficientFunds
| AccountNotRentExempt
| InvalidInstructionData
| InvalidArgument
| Custom (code : Z).

#[global] Instance InstructionError_eq_dec : EqDecision InstructionError.
Proof. solve_decision. Defined.

(** ** What the crate takes from other crates: rent, and the sysvar of the
    instructions, whose account holds the index of the current instruction. *)
Class Runtime := {
  Rent : Type;
  is_exempt : Rent -> Z -> Z -> bool;
  instructions_id : Pubkey;
  sysvar_id : Pubkey;
  store_current_index_checked : Bytes -> Z -> result InstructionError Bytes
}.

(** The index is stored in place. *)
Class RuntimeLaws (RT : Runtime) : Prop := {
  store_current_index_length d i d' :
    store_current_index_checked d i = Ok d' -> length d' = length d
}.

Definition MAX_ACCOUNTS_PER_TRANSACTION : nat := 256.
Definition MAX_ACCOUNT_DATA_LEN : Z := 10 * 1024 * 1024.
Definition MAX_ACCOUNT_DATA_GROWTH_PER_TRANSACTION : Z := MAX_ACCOUNT_DATA_LEN * 2.

(** Signed saturating arithmetic. *)
Definition sat_signed (w x : Z) : Z := Z.max (- 2 ^ (w - 1)) (Z.min x (2 ^ (w - 1) - 1)).
Definition checked_signed (w x : Z) : option Z :=
  if (- 2 ^ (w - 1) <=? x) && (x <=? 2 ^ (w - 1) - 1) then Some x else None.

(** ** Accounts

    [AccountSharedFields] and [AccountPrivateFields], two arrays that run in
    parallel, as one record; [vm_len] is the length that programs are shown. *)
Record Account : Type := MkAccount {
  key : Pubkey;
  owner : Pubkey;
  lamports : Z;
  vm_len : Z;
  rent_epoch : Z;
  executable : bool;
  payload : Bytes
}.

Definition set_vm_len (a : Account) (n : Z) : Account :=
  MkAccount (key a) (owner a) (lamports a) n (rent_epoch a) (executable a) (payload a).
Definition view_set_lamports (a : Account) (x : Z) : Account :=
  MkAccount (key a) (owner a) x (vm_len a) (rent_epoch a) (executable a) (payload a).
Definition view_set_owner (a : Account) (x : Pubkey) : Account :=
  MkAccount (key a) x (lamports a) (vm_len a) (rent_epoch a) (executable a) (payload a).
Definition view_set_executable (a : Account) (x : bool) : Account :=
  MkAccount (key a) (owner a) (lamports a) (vm_len a) (rent_epoch a) x (payload a).
(** Writing through [data_as_mut_slice] leaves the length as it is. *)
Definition view_write (a : Account) (d : Bytes) : Account :=
  MkAccount (key a) (owner a) (lamports a) (vm_len a) (rent_epoch a) (executable a) d.
Definition view_set_data (a : Account) (d : Bytes) : Account :=
  MkAccount (key a) (owner a) (lamports a) (Z.of_nat (length d)) (rent_epoch a) (executable a) d.
Definition view_resize (a : Account) (new_len : nat) : Account :=
  view_set_data a (take new_len (payload a) ++ replicate (new_len - length (payload a)) 0).
Definition view_extend (a : Account) (d : Bytes) : Account := view_set_data a (payload a ++ d).
Definition data_len (a : Account) : Z := Z.of_nat (length (payload a)).

(** ** [BorrowCounter]: an [i8], negative while borrowed mutably *)
Definition is_writing (counter : Z) : bool := counter <? 0.
Definition is_reading (counter : Z) : bool := 0 <? counter.
Definition counter_try_borrow (counter : Z) : result InstructionError Z :=
  if is_writing counter then Err AccountBorrowFailed
  else
    match checked_signed 8 (counter + 1) with
    | Some counter => Ok counter
    | None => Err AccountBorrowFailed
    end.
Definition counter_try_borrow_mut (counter : Z) : result InstructionError Z :=
  if is_writing counter || is_reading counter then Err AccountBorrowFailed
  else Ok (sat_signed 8 (counter - 1)).
Definition counter_release_borrow (counter : Z) : Z := sat_signed 8 (counter - 1).
Definition counter_release_borrow_mut (counter : Z) : Z := sat_signed 8 (counter + 1).

(** ** [TransactionAccounts] *)
Record TransactionAccounts : Type := MkTransactionAccounts {
  accounts : list Account;
  borrow_counters : list Z;
  touched_flags : list bool;
  resize_delta : Z;
  lamports_delta : Z
}.

(** An account as it is loaded: its key, owner, lamports, rent epoch, executable
    flag and data. *)
Record KeyedAccount : Type := MkKeyedAccount {
  k_key : Pubkey;
  k_owner : Pubkey;
  k_lamports : Z;
  k_rent_epoch : Z;
  k_executable : bool;
  k_data : Bytes
}.

Definition account_of (k : KeyedAccount) : Account :=
  MkAccount (k_key k) (k_owner k) (k_lamports k) (Z.of_nat (length (k_data k))) (k_rent_epoch k)
    (k_executable k) (k_data k).

Definition accounts_new (l : list KeyedAccount) : TransactionAccounts :=
  MkTransactionAccounts (account_of <$> l) (replicate (length l) 0) (replicate (length l) false) 0 0.

Definition deconstruct (ta : TransactionAccounts) : list KeyedAccount :=
  (fun a => MkKeyedAccount (key a) (owner a) (lamports a) (rent_epoch a) (executable a) (payload a))
  <$> accounts ta.

(** ** The context *)
Record InstructionAccount : Type := MkInstructionAccount {
  index_in_transaction : nat;
  ia_is_signer : bool;
  ia_is_writable : bool
}.

Record InstructionFrame : Type := MkFrame {
  nesting_level : nat;
  program_account_index_in_tx : nat;
  instruction_accounts : list InstructionAccount;
  dedup_map : list nat;
  instruction_data : Bytes
}.

Definition frame_default : InstructionFrame := MkFrame 0 0 [] [] [].

Section Context_.
Context `{RT : Runtime}.

Record TransactionContext : Type := MkContext {
  tx_accounts : TransactionAccounts;
  instruction_stack_capacity : nat;
  instruction_trace_capacity : nat;
  instruction_stack : list nat;
  instruction_trace : list InstructionFrame;
  top_level_instruction_index : Z;
  return_data : Pubkey * Bytes;
  rent : Rent
}.

Definition set_accounts (c : TransactionContext) (x : TransactionAccounts) : TransactionContext :=
  MkContext x (instruction_stack_capacity c) (instruction_trace_capacity c) (instruction_stack c)
    (instruction_trace c) (top_level_instruction_index c) (return_data c) (rent c).
Definition set_stack (c : TransactionContext) (x : list nat) : TransactionContext :=
  MkContext (tx_accounts c) (instruction_stack_capacity c) (instruction_trace_capacity c) x
    (instruction_trace c) (top_level_instruction_index c) (return_data c) (rent c).
Definition set_trace (c : TransactionContext) (x : list InstructionFrame) : TransactionContext :=
  MkContext (tx_accounts c) (instruction_stack_capacity c) (instruction_trace_capacity c)
    (instruction_stack c) x (top_level_instruction_index c) (return_data c) (rent c).
Definition set_top_level (c : TransactionContext) (x : Z) : TransactionContext :=
  MkContext (tx_accounts c) (instruction_stack_capacity c) (instruction_trace_capacity c)
    (instruction_stack c) (instruction_trace c) x (return_data c) (rent c).

Definition context_new (l : list KeyedAccount) (rent : Rent) (stack_capacity trace_capacity : nat) :
    TransactionContext :=
  MkContext (accounts_new l) stack_capacity trace_capacity [] [frame_default] 0 (0, []) rent.

(** ** The monad *)
Definition M (A : Type) : Type :=
  TransactionContext -> option (TransactionContext * result InstructionError A).

#[global] Instance M_ret : MRet M := fun A x c => Some (c, Ok x).
#[global] Instance M_bind : MBind M := fun A B f m c =>
  match m c with
  | None => None
  | Some (c, Err e) => Some (c, Err e)
  | Some (c, Ok x) => f x c
  end.

Definition raise {A} (e : InstructionError) : M A := fun c => Some (c, Err e).
Definition panic {A} : M A := fun _ => None.
Definition reads {A} (f : TransactionContext -> A) : M A := fun c => Some (c, Ok (f c)).
Definition modify (f : TransactionContext -> TransactionContext) : M unit := fun c => Some (f c, Ok tt).
Definition lift {A} (r : result InstructionError A) : M A := fun c => Some (c, r).
(** [ok_or] and [unwrap]. *)
Definition ok_or {A} (o : option A) (e : InstructionError) : M A :=
  match o with Some x => mret x | None => raise e end.
Definition unwrap {A} (o : option A) : M A :=
  match o with Some x => mret x | None => panic end.
Definition when (b : bool) (m : M unit) : M unit := if b then m else mret tt.

(** ** Operations on the accounts *)
Definition modify_accounts (f : TransactionAccounts -> TransactionAccounts) : M unit :=
  modify (fun c => set_accounts c (f (tx_accounts c))).

Definition ta_set_accounts (ta : TransactionAccounts) (x : list Account) : TransactionAccounts :=
  MkTransactionAccounts x (borrow_counters ta) (touched_flags ta) (resize_delta ta) (lamports_delta ta).
Definition ta_set_counters (ta : TransactionAccounts) (x : list Z) : TransactionAccounts :=
  MkTransactionAccounts (accounts ta) x (touched_flags ta) (resize_delta ta) (lamports_delta ta).
Definition ta_set_touched (ta : TransactionAccounts) (x : list bool) : TransactionAccounts :=
  MkTransactionAccounts (accounts ta) (borrow_counters ta) x (resize_delta ta) (lamports_delta ta).
Definition ta_set_resize_delta (ta : TransactionAccounts) (x : Z) : TransactionAccounts :=
  MkTransactionAccounts (accounts ta) (borrow_counters ta) (touched_flags ta) x (lamports_delta ta).
Definition ta_set_lamports_delta (ta : TransactionAccounts) (x : Z) : TransactionAccounts :=
  MkTransactionAccounts (accounts ta) (borrow_counters ta) (touched_flags ta) (resize_delta ta) x.

Definition account_touch (index : nat) : M unit :=
  ta ← reads tx_accounts;
  _ ← ok_or (touched_flags ta !! index) MissingAccount;
  modify_accounts (fun ta => ta_set_touched ta (<[index := true]> (touched_flags ta))).

Definition accounts_update_resize_delta (old_len new_len : Z) : M unit :=
  modify_accounts (fun ta =>
    ta_set_resize_delta ta (sat_signed 64 (resize_delta ta + sat_signed 64 (new_len - old_len)))).

Definition accounts_can_data_be_resized (old_len new_len : Z) : M unit :=
  if MAX_ACCOUNT_DATA_LEN <? new_len then raise InvalidRealloc
  else
    let length_delta := sat_signed 64 (new_len - old_len) in
    ta ← reads tx_accounts;
    if MAX_ACCOUNT_DATA_GROWTH_PER_TRANSACTION <? sat_signed 64 (resize_delta ta + length_delta)
    then raise MaxAccountsDataAllocationsExceeded
    else mret tt.

Definition accounts_try_borrow_mut (index : nat) : M unit :=
  ta ← reads tx_accounts;
  counter ← ok_or (borrow_counters ta !! index) MissingAccount;
  counter ← lift (counter_try_borrow_mut counter);
  _ ← modify_accounts (fun ta => ta_set_counters ta (<[index := counter]> (borrow_counters ta)));
  _ ← unwrap (accounts ta !! index);
  mret tt.

Definition accounts_try_borrow (index : nat) : M unit :=
  ta ← reads tx_accounts;
  counter ← ok_or (borrow_counters ta !! index) MissingAccount;
  counter ← lift (counter_try_borrow counter);
  _ ← modify_accounts (fun ta => ta_set_counters ta (<[index := counter]> (borrow_counters ta)));
  _ ← unwrap (accounts ta !! index);
  mret tt.

(** [Drop] of a shared and of a mutable reference. *)
Definition drop_ref (index : nat) : M unit :=
  modify_accounts (fun ta =>
    ta_set_counters ta (alter counter_release_borrow index (borrow_counters ta))).

Definition drop_ref_mut (index : nat) : M unit :=
  modify_accounts (fun ta =>
    let ta := ta_set_accounts ta (alter (fun a => set_vm_len a (data_len a)) index (accounts ta)) in
    ta_set_counters ta (alter counter_release_borrow_mut index (borrow_counters ta))).

Definition add_lamports_delta (balance : Z) : M unit :=
  ta ← reads tx_accounts;
  delta ← ok_or (checked_signed 128 (lamports_delta ta + balance)) ArithmeticOverflow;
  modify_accounts (fun ta => ta_set_lamports_delta ta delta).

(** A store through a mutable reference to the account. *)
Definition store (index : nat) (f : Account -> Account) : M unit :=
  modify_accounts (fun ta => ta_set_accounts ta (alter f index (accounts ta))).

(** ** Operations on the context *)
Definition get_number_of_accounts : M Z :=
  reads (fun c => wrap 16 (Z.of_nat (length (accounts (tx_accounts c))))).

Definition get_key_of_account_at_index (index : nat) : M Pubkey :=
  ta ← reads tx_accounts;
  ok_or (key <$> accounts ta !! index) MissingAccount.

Definition find_index_of_account (c : TransactionContext) (pubkey : Pubkey) : option nat :=
  (fun '(i, _) => Z.to_nat (wrap 16 (Z.of_nat i)))
  <$> list_find (fun a => key a = pubkey) (accounts (tx_accounts c)).

Definition get_instruction_trace_length (c : TransactionContext) : nat :=
  (length (instruction_trace c) - 1)%nat.

(** [InstructionContext]: a frame of the trace, seen with its position. *)
Definition get_instruction_context_at_index_in_trace (index_in_trace : nat) :
    M (nat * InstructionFrame) :=
  trace ← reads instruction_trace;
  frame ← ok_or (trace !! index_in_trace) CallDepth;
  mret (index_in_trace, frame).

Definition get_instruction_context_at_nesting_level (nesting_level : nat) : M (nat * InstructionFrame) :=
  stack ← reads instruction_stack;
  index_in_trace ← ok_or (stack !! nesting_level) CallDepth;
  get_instruction_context_at_index_in_trace index_in_trace.

Definition get_current_instruction_context : M (nat * InstructionFrame) :=
  height ← reads (fun c => length (instruction_stack c));
  match height with
  | O => raise CallDepth
  | S level => get_instruction_context_at_nesting_level level
  end.

Definition get_next_instruction_context : M (nat * InstructionFrame) :=
  len ← reads (fun c => length (instruction_trace c));
  match len with
  | O => raise CallDepth
  | S index_in_trace => get_instruction_context_at_index_in_trace index_in_trace
  end.

(** [last_mut().ok_or(CallDepth)] and a store into the frame. *)
Definition modify_last_frame (f : InstructionFrame -> InstructionFrame) : M unit :=
  trace ← reads instruction_trace;
  frame ← ok_or (last trace) CallDepth;
  modify (fun c => set_trace c (removelast trace ++ [f frame])).

Definition configure_next_instruction (program_index : nat) (ias : list InstructionAccount)
    (deduplication_map : list nat) (data : Bytes) : M unit :=
  modify_last_frame (fun frame => MkFrame (nesting_level frame) program_index ias deduplication_map data).

(** The end of [push]: the instructions sysvar, where it is loaded, records the
    instruction that runs. The reference is dropped on every way out. *)
Definition store_index : M unit :=
  found ← reads (fun c => find_index_of_account c instructions_id);
  match found with
  | None => mret tt
  | Some index =>
      _ ← accounts_try_borrow_mut index;
      ta ← reads tx_accounts;
      account ← unwrap (accounts ta !! index);
      top ← reads top_level_instruction_index;
      if negb (owner account =? sysvar_id)
      then _ ← drop_ref_mut index; raise InvalidAccountOwner
      else
        match store_current_index_checked (payload account) (wrap 16 top) with
        | Err e => _ ← drop_ref_mut index; raise e
        | Ok d => _ ← store index (fun a => view_write a d); drop_ref_mut index
        end
  end.

Definition push : M unit :=
  nesting_level ← reads (fun c => length (instruction_stack c));
  ta ← reads tx_accounts;
  _ ← when (negb (nesting_level =? 0)%nat && negb (lamports_delta ta =? 0)) (raise UnbalancedInstruction);
  _ ← modify_last_frame (fun frame =>
        MkFrame nesting_level (program_account_index_in_tx frame) (instruction_accounts frame)
          (dedup_map frame) (instruction_data frame));
  index_in_trace ← reads get_instruction_trace_length;
  trace_capacity ← reads instruction_trace_capacity;
  _ ← when (trace_capacity <=? index_in_trace)%nat (raise MaxInstructionTraceLengthExceeded);
  _ ← modify (fun c => set_trace c (instruction_trace c ++ [frame_default]));
  stack_capacity ← reads instruction_stack_capacity;
  _ ← when (stack_capacity <=? nesting_level)%nat (raise CallDepth);
  _ ← modify (fun c => set_stack c (instruction_stack c ++ [index_in_trace]));
  store_index.

Definition get_index_of_program_account_in_transaction (frame : InstructionFrame) :
    result InstructionError nat :=
  if Z.of_nat (program_account_index_in_tx frame) =? word_max 16 then Err MissingAccount
  else Ok (program_account_index_in_tx frame).

(** Runs the closure of [pop] and keeps its outcome as a value. *)
Definition attempt {A} (m : M A) : M (result InstructionError A) := fun c =>
  match m c with
  | None => None
  | Some (c, r) => Some (c, Ok r)
  end.

Definition check_balance_and_refs : M bool :=
  '(_, frame) ← get_current_instruction_context;
  index ← lift (get_index_of_program_account_in_transaction frame);
  borrowed ← attempt (accounts_try_borrow_mut index);
  match borrowed with
  | Err AccountBorrowFailed => raise AccountBorrowOutstanding
  | Err e => raise e
  | Ok _ =>
      _ ← drop_ref_mut index;
      ta ← reads tx_accounts;
      mret (negb (lamports_delta ta =? 0))
  end.

Definition pop : M unit :=
  stack ← reads instruction_stack;
  match stack with
  | [] => raise CallDepth
  | _ =>
      detected_an_unbalanced_instruction ← attempt check_balance_and_refs;
      _ ← modify (fun c => set_stack c (removelast (instruction_stack c)));
      stack ← reads instruction_stack;
      _ ← when (bool_decide (stack = []))
            (modify (fun c => set_top_level c (sat_add 64 (top_level_instruction_index c) 1)));
      unbalanced ← lift detected_an_unbalanced_instruction;
      if (unbalanced : bool) then raise UnbalancedInstruction else mret tt
  end.

Definition set_return_data (program_id : Pubkey) (data : Bytes) : M unit :=
  modify (fun c =>
    MkContext (tx_accounts c) (instruction_stack_capacity c) (instruction_trace_capacity c)
      (instruction_stack c) (instruction_trace c) (top_level_instruction_index c)
      (program_id, data) (rent c)).

(** ** [InstructionContext] *)
Definition get_number_of_instruction_accounts (frame : InstructionFrame) : Z :=
  wrap 16 (Z.of_nat (length (instruction_accounts frame))).

Definition check_number_of_instruction_accounts (frame : InstructionFrame) (expected_at_least : Z) :
    result InstructionError unit :=
  if get_number_of_instruction_accounts frame <? expected_at_least then Err MissingAccount else Ok tt.

Definition get_instruction_account (frame : InstructionFrame) (i : nat) :
    result InstructionError InstructionAccount :=
  match instruction_accounts frame !! i with
  | Some ia => Ok ia
  | None => Err MissingAccount
  end.

Definition get_index_of_instruction_account_in_transaction (frame : InstructionFrame) (i : nat) :
    result InstructionError nat :=
  ia ← get_instruction_account frame i; Ok (index_in_transaction ia).

Definition get_index_of_account_in_instruction (frame : InstructionFrame) (index : nat) :
    result InstructionError nat :=
  match dedup_map frame !! index with
  | Some i => if (length (instruction_accounts frame) <=? i)%nat then Err MissingAccount else Ok i
  | None => Err MissingAccount
  end.

Definition is_instruction_account_duplicate (frame : InstructionFrame) (i : nat) :
    result InstructionError (option nat) :=
  index ← get_index_of_instruction_account_in_transaction frame i;
  first ← get_index_of_account_in_instruction frame index;
  Ok (if (first =? i)%nat then None else Some first).

Definition is_instruction_account_signer (frame : InstructionFrame) (i : nat) :
    result InstructionError bool :=
  ia ← get_instruction_account frame i; Ok (ia_is_signer ia).

Definition is_instruction_account_writable (frame : InstructionFrame) (i : nat) :
    result InstructionError bool :=
  ia ← get_instruction_account frame i; Ok (ia_is_writable ia).

Definition get_program_key (frame : InstructionFrame) : M Pubkey :=
  index ← lift (get_index_of_program_account_in_transaction frame);
  get_key_of_account_at_index index.

Definition get_program_owner (frame : InstructionFrame) : M Pubkey :=
  index ← lift (get_index_of_program_account_in_transaction frame);
  _ ← accounts_try_borrow index;
  ta ← reads tx_accounts;
  a ← unwrap (accounts ta !! index);
  _ ← drop_ref index;
  mret (owner a).

Definition get_key_of_instruction_account (frame : InstructionFrame) (i : nat) : M Pubkey :=
  index ← lift (get_index_of_instruction_account_in_transaction frame i);
  get_key_of_account_at_index index.

Fixpoint collect_signers (l : list InstructionAccount) (acc : gset Pubkey) : M (gset Pubkey) :=
  match l with
  | [] => mret acc
  | ia :: l =>
      if ia_is_signer ia then
        k ← get_key_of_account_at_index (index_in_transaction ia);
        collect_signers l ({[k]} ∪ acc)
      else collect_signers l acc
  end.

Definition get_signers (frame : InstructionFrame) : M (gset Pubkey) :=
  collect_signers (instruction_accounts frame) ∅.

(** ** [BorrowedInstructionAccount]: the account and the program that borrows it *)
Record Borrowed : Type := MkBorrowed {
  b_account : InstructionAccount;
  b_program : nat
}.

Definition b_index (b : Borrowed) : nat := index_in_transaction (b_account b).

Definition try_borrow_instruction_account (frame : InstructionFrame) (i : nat) : M Borrowed :=
  ia ← lift (get_instruction_account frame i);
  _ ← accounts_try_borrow_mut (index_in_transaction ia);
  mret (MkBorrowed ia (program_account_index_in_tx frame)).

Definition borrowed_account (b : Borrowed) : M Account :=
  ta ← reads tx_accounts; unwrap (accounts ta !! b_index b).

Definition is_writable (b : Borrowed) : bool := ia_is_writable (b_account b).

Definition is_owned_by_current_program (b : Borrowed) : M bool :=
  a ← borrowed_account b;
  ta ← reads tx_accounts;
  mret (match accounts ta !! b_program b with
        | Some program => key program =? owner a
        | None => false
        end).

Definition touch (b : Borrowed) : M unit := account_touch (b_index b).

Definition update_accounts_resize_delta (b : Borrowed) (new_len : Z) : M unit :=
  a ← borrowed_account b;
  accounts_update_resize_delta (data_len a) new_len.

Definition can_data_be_changed (b : Borrowed) : M unit :=
  _ ← when (negb (is_writable b)) (raise ReadonlyDataModified);
  owned ← is_owned_by_current_program b;
  when (negb owned) (raise ExternalAccountDataModified).

Definition can_data_be_resized (b : Borrowed) (new_len : Z) : M unit :=
  a ← borrowed_account b;
  let old_len := data_len a in
  owned ← is_owned_by_current_program b;
  _ ← when (negb (new_len =? old_len) && negb owned) (raise AccountDataSizeChanged);
  _ ← accounts_can_data_be_resized old_len new_len;
  can_data_be_changed b.

(** Compares the buffer with zeros, a block of 1024 at a time. *)
Fixpoint is_zeroed_chunks (fuel : nat) (buf : Bytes) : bool :=
  match fuel with
  | O => false
  | S fuel =>
      if (length buf <? 1024)%nat then bool_decide (buf = replicate (length buf) 0)
      else bool_decide (take 1024 buf = replicate 1024 0) && is_zeroed_chunks fuel (drop 1024 buf)
  end.

Definition is_zeroed (buf : Bytes) : bool := is_zeroed_chunks (length buf + 1) buf.

Definition set_owner (b : Borrowed) (pubkey : Pubkey) : M unit :=
  owned ← is_owned_by_current_program b;
  _ ← when (negb owned) (raise ModifiedProgramId);
  _ ← when (negb (is_writable b)) (raise ModifiedProgramId);
  a ← borrowed_account b;
  _ ← when (negb (is_zeroed (payload a))) (raise ModifiedProgramId);
  if owner a =? pubkey then mret tt
  else _ ← touch b; store (b_index b) (fun a => view_set_owner a pubkey).

Definition set_lamports (b : Borrowed) (x : Z) : M unit :=
  owned ← is_owned_by_current_program b;
  a ← borrowed_account b;
  _ ← when (negb owned && (x <? lamports a)) (raise ExternalAccountLamportSpend);
  _ ← when (negb (is_writable b)) (raise ReadonlyLamportChange);
  let old_lamports := lamports a in
  if old_lamports =? x then mret tt
  else
    let lamports_balance := sat_signed 128 (x - old_lamports) in
    _ ← add_lamports_delta lamports_balance;
    _ ← touch b;
    store (b_index b) (fun a => view_set_lamports a x).

Definition checked_add_lamports (b : Borrowed) (x : Z) : M unit :=
  a ← borrowed_account b;
  new ← ok_or (checked_add 64 (lamports a) x) ArithmeticOverflow;
  set_lamports b new.

Definition checked_sub_lamports (b : Borrowed) (x : Z) : M unit :=
  a ← borrowed_account b;
  new ← ok_or (checked_sub (lamports a) x) ArithmeticOverflow;
  set_lamports b new.

(** [get_data_mut] hands out the slice; what is written through it has the same
    length. *)
Definition get_data_mut (b : Borrowed) : M Bytes :=
  _ ← can_data_be_changed b;
  _ ← touch b;
  a ← borrowed_account b;
  mret (payload a).

Definition write_data (b : Borrowed) (f : Bytes -> Bytes) : M unit :=
  d ← get_data_mut b;
  let d' := f d in
  store (b_index b) (fun a => view_write a (if (length d' =? length d)%nat then d' else d)).

Definition set_data_from_slice (b : Borrowed) (d : Bytes) : M unit :=
  _ ← can_data_be_resized b (Z.of_nat (length d));
  _ ← touch b;
  _ ← update_accounts_resize_delta b (Z.of_nat (length d));
  store (b_index b) (fun a => view_set_data a d).

Definition set_data_length (b : Borrowed) (new_length : nat) : M unit :=
  _ ← can_data_be_resized b (Z.of_nat new_length);
  a ← borrowed_account b;
  if (length (payload a) =? new_length)%nat then mret tt
  else
    _ ← touch b;
    _ ← update_accounts_resize_delta b (Z.of_nat new_length);
    store (b_index b) (fun a => view_resize a new_length).

Definition extend_from_slice (b : Borrowed) (d : Bytes) : M unit :=
  a ← borrowed_account b;
  let new_len := sat_add 64 (data_len a) (Z.of_nat (length d)) in
  _ ← can_data_be_resized b new_len;
  if bool_decide (d = []) then mret tt
  else
    _ ← touch b;
    _ ← update_accounts_resize_delta b new_len;
    store (b_index b) (fun a => view_extend a d).

Definition is_rent_exempt_at_data_length (b : Borrowed) (data_length : Z) : M bool :=
  a ← borrowed_account b;
  r ← reads rent;
  mret (is_exempt r (lamports a) data_length).

Definition set_executable (b : Borrowed) (x : bool) : M unit :=
  a ← borrowed_account b;
  exempt ← is_rent_exempt_at_data_length b (data_len a);
  _ ← when (negb exempt) (raise ExecutableAccountNotRentExempt);
  owned ← is_owned_by_current_program b;
  _ ← when (negb owned) (raise ExecutableModified);
  _ ← when (negb (is_writable b)) (raise ExecutableModified);
  if eqb (executable a) x then mret tt
  else _ ← touch b; store (b_index b) (fun a => view_set_executable a x).

(** Writing a value in its serialized form; [None] when it cannot be serialized. *)
Definition set_state (b : Borrowed) (serialized : option Bytes) : M unit :=
  d ← get_data_mut b;
  bytes ← ok_or serialized GenericError;
  _ ← when (length d <? length bytes)%nat (raise AccountDataTooSmall);
  store (b_index b) (fun a => view_write a (bytes ++ drop (length bytes) d)).

(** ** The memory of a program

    A region of it: where it starts, how long it is, whether a store goes through,
    and the account the violation handler may grow. *)
Record Region : Type := MkRegion {
  region_vm_addr : Z;
  region_len : Z;
  region_writable : bool;
  region_account : option nat
}.

Definition modify_memory_region_of_account (b : Borrowed) (region : Region) : M Region :=
  a ← borrowed_account b;
  changeable ← attempt (can_data_be_changed b);
  mret match changeable with
       | Ok _ => MkRegion (region_vm_addr region) (data_len a) true (Some (b_index b))
       | Err _ => MkRegion (region_vm_addr region) (data_len a) false None
       end.

(** [is_shared]: whether another handle to the same account data exists. *)
Definition create_memory_region_of_account (b : Borrowed) (is_shared : bool) (vaddr : Z) : M Region :=
  changeable ← attempt (can_data_be_changed b);
  let can_data_be_changed := match changeable with Ok _ => true | Err _ => false end in
  let payload := if can_data_be_changed then Some (b_index b) else None in
  if can_data_be_changed && negb is_shared then
    d ← get_data_mut b; mret (MkRegion vaddr (Z.of_nat (length d)) true payload)
  else
    a ← borrowed_account b; mret (MkRegion vaddr (data_len a) false payload).

(** ** [access_violation_handler]: an account grows under a store of a program

    The result is the region as the handler leaves it; [direct]: both features,
    stricter constraints and direct mapping, are on. *)
Definition access_violation (direct : bool) (region : Region) (reserved : Z) (is_load : bool) (vm_addr len : Z) :
    M Region :=
  if is_load then mret region
  else
    match region_account region with
    | None => mret region
    | Some index =>
        let requested_length := sat_sub (sat_add 64 vm_addr len) (region_vm_addr region) in
        if reserved <? requested_length then mret region
        else
          borrowed ← attempt (accounts_try_borrow_mut index);
          match borrowed with
          | Err _ => mret region
          | Ok _ =>
              touched ← attempt (account_touch index);
              match touched with
              | Err _ => _ ← drop_ref_mut index; mret region
              | Ok _ =>
                  ta ← reads tx_accounts;
                  a ← unwrap (accounts ta !! index);
                  let remaining_allowed_growth :=
                    Z.max 0 (sat_signed 64 (MAX_ACCOUNT_DATA_GROWTH_PER_TRANSACTION - resize_delta ta)) in
                  let unshared len :=
                    MkRegion (region_vm_addr region) len (direct || region_writable region) (region_account region) in
                  if region_len region <? requested_length then
                    let old_len := data_len a in
                    let new_len := Z.min (Z.min reserved MAX_ACCOUNT_DATA_LEN)
                                     (sat_add 64 old_len remaining_allowed_growth) in
                    updated ← attempt (accounts_update_resize_delta old_len new_len);
                    match updated with
                    | Err _ => _ ← drop_ref_mut index; mret region
                    | Ok _ =>
                        _ ← store index (fun a => view_resize a (Z.to_nat new_len));
                        _ ← drop_ref_mut index;
                        mret (unshared new_len)
                    end
                  else _ ← drop_ref_mut index; mret (unshared (region_len region))
              end
          end
    end.

(** The last frame is a placeholder for the next instruction. *)
Definition take_instruction_trace (c : TransactionContext) : TransactionContext * list InstructionFrame :=
  (set_trace c [], removelast (instruction_trace c)).

(** ** The record of an execution *)
Record ExecutionRecord : Type := MkExecutionRecord {
  er_accounts : list KeyedAccount;
  er_return_data : Pubkey * Bytes;
  er_touched_account_count : Z;
  er_accounts_resize_delta : Z
}.

Definition execution_record (c : TransactionContext) : ExecutionRecord :=
  MkExecutionRecord (deconstruct (tx_accounts c)) (return_data c)
    (foldl (fun n (t : bool) => sat_add 64 n (if t then 1 else 0)) 0 (touched_flags (tx_accounts c)))
    (resize_delta (tx_accounts c)).
End Context_.

End Ctx.
