(* ===== verification/ContextSpec.v ===== *)
(** * Transaction context: what a program may do to an account

    An abstract account of the operations of [BorrowedInstructionAccount]: a
    change of one account, allowed by its owner and by the flags of the
    instruction, with the books of lamports and of bytes brought up to date. Each
    operation leaves the context as it was, or makes one such change. *)

From S2P Require Import Prelude TransactionContext.
Import Ctx.

Lemma alter_as_insert {A} (f : A -> A) (l : list A) i x : l !! i = Some x -> alter f i l = <[i := f x]> l.
Proof.
  intros Hx. apply list_eq. intros j. destruct (decide (i = j)) as [<-|Hne].
  - rewrite list_lookup_alter_eq, Hx, list_lookup_insert_eq; [done|by eapply lookup_lt_Some].
  - by rewrite list_lookup_alter_ne, list_lookup_insert_ne.
Qed.

Lemma sat_signed_id w x : - 2 ^ (w - 1) <= x <= 2 ^ (w - 1) - 1 -> sat_signed w x = x.
Proof. unfold sat_signed. lia. Qed.

Section Spec.
Context `{RT : Runtime}.
Implicit Types (c : TransactionContext) (b : Borrowed).

Definition accs c : list Account := accounts (tx_accounts c).
Definition total_lamports c : Z := Zsum lamports (accs c).
Definition total_data c : Z := Zsum data_len (accs c).

(** ** The invariant: the books against the initial totals [L] and [D] *)
Record books (L D : Z) (c : TransactionContext) : Prop := {
  books_counters : length (borrow_counters (tx_accounts c)) = length (accs c);
  books_touched : length (touched_flags (tx_accounts c)) = length (accs c);
  books_few : (length (accs c) <= MAX_ACCOUNTS_PER_TRANSACTION)%nat;
  books_range : Forall (fun a => is_u64 (lamports a)) (accs c);
  books_vm_len : Forall (fun a => vm_len a = data_len a) (accs c);
  books_lamports : lamports_delta (tx_accounts c) = total_lamports c - L;
  books_data : resize_delta (tx_accounts c) = total_data c - D;
  books_growth : resize_delta (tx_accounts c) <= MAX_ACCOUNT_DATA_GROWTH_PER_TRANSACTION;
  books_initial : 0 <= L <= 2 ^ 80 /\ 0 <= D <= 2 ^ 62
}.

(** ** Changes of one account *)

(** The account [a'] in place of the one at [i]. *)
Definition put (i : nat) (a' : Account) (c : TransactionContext) : TransactionContext :=
  let ta := tx_accounts c in
  match accounts ta !! i with
  | Some a =>
      set_accounts c
        (MkTransactionAccounts (<[i := a']> (accounts ta)) (borrow_counters ta)
           (<[i := true]> (touched_flags ta))
           (resize_delta ta + (data_len a' - data_len a))
           (lamports_delta ta + (lamports a' - lamports a)))
  | None => c
  end.

(** What the program whose key is [program] may change. *)
Record allowed (program : option Pubkey) (writable : bool) (c : TransactionContext) (a a' : Account) : Prop := {
  allowed_key : key a' = key a;
  allowed_rent_epoch : rent_epoch a' = rent_epoch a;
  allowed_writable : a' <> a -> writable = true;
  allowed_spend : lamports a' < lamports a -> program = Some (owner a);
  allowed_range : is_u64 (lamports a');
  allowed_owner : owner a' <> owner a ->
    program = Some (owner a) /\ Forall (fun x => x = 0) (payload a);
  allowed_executable : executable a' <> executable a -> program = Some (owner a);
  allowed_data : payload a' <> payload a -> program = Some (owner a);
  allowed_length : data_len a' = data_len a \/
    (data_len a' <= MAX_ACCOUNT_DATA_LEN /\
     resize_delta (tx_accounts c) + (data_len a' - data_len a) <= MAX_ACCOUNT_DATA_GROWTH_PER_TRANSACTION);
  allowed_vm_len : vm_len a' = data_len a'
}.

Definition program_key c b : option Pubkey := key <$> accs c !! b_program b.

Inductive effect b c : TransactionContext -> Prop :=
| effect_none : effect b c c
| effect_put a a' : accs c !! b_index b = Some a -> allowed (program_key c b) (is_writable b) c a a' ->
    effect b c (put (b_index b) a' c).

(** The operations, as the values a program may choose from. *)
Inductive AccountOp : Type :=
| OSetOwner (pubkey : Pubkey)
| OSetLamports (x : Z)
| OAddLamports (x : Z)
| OSubLamports (x : Z)
| OWriteData (f : Bytes -> Bytes)
| OSetData (d : Bytes)
| OSetLength (n : nat)
| OExtend (d : Bytes)
| OSetExecutable (x : bool)
| OSetState (serialized : option Bytes).

Definition run_op (b : Borrowed) (op : AccountOp) : M unit :=
  match op with
  | OSetOwner pubkey => set_owner b pubkey
  | OSetLamports x => set_lamports b x
  | OAddLamports x => checked_add_lamports b x
  | OSubLamports x => checked_sub_lamports b x
  | OWriteData f => write_data b f
  | OSetData d => set_data_from_slice b d
  | OSetLength n => set_data_length b n
  | OExtend d => extend_from_slice b d
  | OSetExecutable x => set_executable b x
  | OSetState serialized => set_state b serialized
  end.

(** The amounts are machine words. *)
Definition op_ok (op : AccountOp) : Prop :=
  match op with
  | OSetLamports x | OAddLamports x | OSubLamports x => is_u64 x
  | _ => True
  end.

(** ** Running the primitives *)
Section Run.
Context (L D : Z) (c : TransactionContext) (Hok : books L D c) (b : Borrowed) (a : Account).
Context (Ha : accs c !! b_index b = Some a).

Definition owned : bool := bool_decide (program_key c b = Some (owner a)).

Lemma run_borrowed : borrowed_account b c = Some (c, Ok a).
Proof. unfold borrowed_account, unwrap, accs in *. cbv [mbind M_bind reads]. by rewrite Ha. Qed.

Lemma run_owned : is_owned_by_current_program b c = Some (c, Ok owned).
Proof.
  unfold is_owned_by_current_program. cbv [mbind M_bind]. rewrite run_borrowed. cbv [reads mret M_ret].
  do 3 f_equal. unfold owned, program_key, accs. destruct (accounts (tx_accounts c) !! b_program b); simpl; [|done].
  symmetry. destruct (Z.eqb_spec (key a0) (owner a)) as [Heq|Hne].
  - apply bool_decide_eq_true_2. congruence.
  - apply bool_decide_eq_false_2. congruence.
Qed.

Lemma touched_lt : (b_index b < length (touched_flags (tx_accounts c)))%nat.
Proof. rewrite (books_touched _ _ _ Hok). by eapply lookup_lt_Some. Qed.

Lemma lamports_bound l : Forall (fun a => is_u64 (lamports a)) l ->
  0 <= Zsum lamports l <= Z.of_nat (length l) * U64_MAX.
Proof.
  induction 1 as [|x l Hx _ IH]; [simpl; lia|]. rewrite Zsum_cons. simpl length. unfold in_word in Hx. lia.
Qed.

Lemma data_len_nonneg x : 0 <= data_len x.
Proof. unfold data_len. lia. Qed.

Lemma total_data_bound : 0 <= data_len a <= total_data c.
Proof.
  split; [apply data_len_nonneg|]. unfold total_data. apply list_elem_of_lookup_2 in Ha.
  apply list_elem_of_split in Ha as (l1 & l2 & ->). rewrite Zsum_app, Zsum_cons.
  assert (0 <= Zsum data_len l1) by (apply Zsum_nonneg; intros; apply data_len_nonneg).
  assert (0 <= Zsum data_len l2) by (apply Zsum_nonneg; intros; apply data_len_nonneg). lia.
Qed.

Lemma growth_range : - 2 ^ 62 <= resize_delta (tx_accounts c) <= MAX_ACCOUNT_DATA_GROWTH_PER_TRANSACTION.
Proof.
  pose proof total_data_bound. destruct Hok as [_ _ _ _ _ _ -> Hg [_ HD]]. lia.
Qed.

Lemma run_touch : touch b c =
  Some (set_accounts c (ta_set_touched (tx_accounts c) (<[b_index b := true]> (touched_flags (tx_accounts c)))), Ok tt).
Proof.
  unfold touch, account_touch. cbv [mbind M_bind reads]. destruct (lookup_lt_is_Some_2 _ _ touched_lt) as [x ->].
  done.
Qed.

(** A store after a touch, which leaves lamports and length. *)
Lemma run_store f : lamports (f a) = lamports a -> data_len (f a) = data_len a ->
  (touch b ≫= fun _ => store (b_index b) f) c = Some (put (b_index b) (f a) c, Ok tt).
Proof.
  intros Hl Hd. cbv [mbind M_bind]. rewrite run_touch. unfold store, modify_accounts, modify, put. do 2 f_equal.
  unfold accs in Ha. rewrite Ha, Hl, Hd, !Z.sub_diag, !Z.add_0_r. simpl. unfold ta_set_accounts. simpl.
  do 2 f_equal. by apply alter_as_insert.
Qed.

Lemma run_resize n f : 0 <= n <= MAX_ACCOUNT_DATA_LEN -> lamports (f a) = lamports a -> data_len (f a) = n ->
  resize_delta (tx_accounts c) + (n - data_len a) <= MAX_ACCOUNT_DATA_GROWTH_PER_TRANSACTION ->
  (touch b ≫= fun _ => update_accounts_resize_delta b n ≫= fun _ => store (b_index b) f) c =
  Some (put (b_index b) (f a) c, Ok tt).
Proof.
  intros Hn Hl Hd Hg. cbv [mbind M_bind]. rewrite run_touch. unfold update_accounts_resize_delta, borrowed_account.
  cbv [mbind M_bind reads]. simpl. unfold accs in Ha. rewrite Ha. simpl.
  unfold store, modify_accounts, modify, put. rewrite Ha, Hl, Hd, Z.sub_diag, Z.add_0_r. simpl.
  pose proof growth_range. pose proof total_data_bound as [Hd0 Hdt].
  assert (0 <= total_data c <= 2 ^ 62 + MAX_ACCOUNT_DATA_GROWTH_PER_TRANSACTION /\
    - 2 ^ 62 <= resize_delta (tx_accounts c) - data_len a) as Ht.
  { destruct Hok as [_ _ _ _ _ _ Hr Hg' [_ HD]]. lia. }
  unfold MAX_ACCOUNT_DATA_GROWTH_PER_TRANSACTION, MAX_ACCOUNT_DATA_LEN in *.
  rewrite (sat_signed_id 64 (n - data_len a)), sat_signed_id by (simpl; lia).
  unfold ta_set_accounts. simpl. do 4 f_equal. by apply alter_as_insert.
Qed.

Lemma total_lamports_range : 0 <= total_lamports c <= 2 ^ 80.
Proof.
  destruct Hok as [_ _ Hf Hr _ _ _ _ _]. pose proof (lamports_bound _ Hr) as Hb. unfold total_lamports.
  unfold MAX_ACCOUNTS_PER_TRANSACTION, word_max in *. lia.
Qed.

Lemma lamports_range : is_u64 (lamports a).
Proof. exact (Forall_lookup_1 _ _ _ _ (books_range _ _ _ Hok) Ha). Qed.

Lemma run_lamports x : is_u64 x ->
  (add_lamports_delta (sat_signed 128 (x - lamports a)) ≫= fun _ =>
   touch b ≫= fun _ => store (b_index b) (fun a => view_set_lamports a x)) c =
  Some (put (b_index b) (view_set_lamports a x) c, Ok tt).
Proof.
  intros Hx. pose proof lamports_range as Hl. pose proof total_lamports_range as Ht.
  pose proof (books_lamports _ _ _ Hok) as Hd. destruct (books_initial _ _ _ Hok) as [HL _].
  unfold in_word, word_max in *. unfold add_lamports_delta. cbv [mbind M_bind reads].
  rewrite sat_signed_id by (simpl; lia). unfold checked_signed.
  rewrite !(proj2 (Z.leb_le _ _)) by (simpl; lia). simpl.
  unfold touch, account_touch. cbv [mbind M_bind reads]. simpl.
  destruct (lookup_lt_is_Some_2 _ _ touched_lt) as [y ->]. simpl.
  unfold store, modify_accounts, modify, put. unfold accs in Ha. rewrite Ha. simpl.
  unfold data_len at 1. simpl. fold (data_len a). rewrite Z.sub_diag, Z.add_0_r.
  unfold ta_set_accounts. simpl. do 4 f_equal. by apply (alter_as_insert (fun a => view_set_lamports a x)).
Qed.

Lemma can_change_iff : exists r, can_data_be_changed b c = Some (c, r) /\
  (r = Ok tt <-> is_writable b = true /\ program_key c b = Some (owner a)).
Proof.
  unfold can_data_be_changed. cbv [mbind M_bind]. destruct (is_writable b); simpl; [|eexists; naive_solver].
  rewrite run_owned. unfold owned. case_bool_decide; eexists; naive_solver.
Qed.

Lemma run_can_change : exists r, can_data_be_changed b c = Some (c, r) /\
  (r = Ok tt -> is_writable b = true /\ program_key c b = Some (owner a)).
Proof. destruct can_change_iff as (r & Hr & Hres). exists r. split; [done|]. apply Hres. Qed.

Lemma can_resize_iff n : 0 <= n -> exists r, can_data_be_resized b n c = Some (c, r) /\
  (r = Ok tt <-> is_writable b = true /\ program_key c b = Some (owner a) /\ n <= MAX_ACCOUNT_DATA_LEN /\
    resize_delta (tx_accounts c) + (n - data_len a) <= MAX_ACCOUNT_DATA_GROWTH_PER_TRANSACTION).
Proof.
  intros Hn. unfold can_data_be_resized. cbv [mbind M_bind]. rewrite run_borrowed, run_owned.
  destruct (negb (n =? data_len a) && negb owned) eqn:Hown; simpl.
  { eexists. split; [done|]. split; [done|]. intros (_ & Ho & _). unfold owned in Hown.
    rewrite bool_decide_eq_true_2 in Hown by done. by rewrite andb_false_r in Hown. }
  unfold accounts_can_data_be_resized. destruct (Z.ltb_spec MAX_ACCOUNT_DATA_LEN n) as [|HM]; simpl.
  { eexists. split; [done|]. split; [done|]. intros (_ & _ & ? & _). lia. }
  cbv [mbind M_bind reads].
  assert (sat_signed 64 (resize_delta (tx_accounts c) + sat_signed 64 (n - data_len a)) =
    resize_delta (tx_accounts c) + (n - data_len a)) as ->.
  { pose proof growth_range. pose proof total_data_bound as [Hd0 Hdt].
    destruct Hok as [_ _ _ _ _ _ Hr Hg' [_ HD]].
    unfold MAX_ACCOUNT_DATA_GROWTH_PER_TRANSACTION, MAX_ACCOUNT_DATA_LEN in *.
    rewrite (sat_signed_id 64 (n - data_len a)), sat_signed_id by (simpl; lia). done. }
  destruct (Z.ltb_spec MAX_ACCOUNT_DATA_GROWTH_PER_TRANSACTION
    (resize_delta (tx_accounts c) + (n - data_len a))) as [|HG]; simpl.
  { eexists. split; [done|]. split; [done|]. intros (_ & _ & _ & ?). lia. }
  destruct can_change_iff as (r & -> & Hr). exists r. split; [done|]. naive_solver.
Qed.

Lemma run_can_resize n : 0 <= n -> exists r, can_data_be_resized b n c = Some (c, r) /\
  (r = Ok tt -> is_writable b = true /\ program_key c b = Some (owner a) /\ n <= MAX_ACCOUNT_DATA_LEN /\
    resize_delta (tx_accounts c) + (n - data_len a) <= MAX_ACCOUNT_DATA_GROWTH_PER_TRANSACTION).
Proof. intros Hn. destruct (can_resize_iff n Hn) as (r & Hr & Hres). exists r. split; [done|]. apply Hres. Qed.

Lemma is_zeroed_spec (buf : Bytes) : is_zeroed buf = true <-> Forall (fun x => x = 0) buf.
Proof.
  unfold is_zeroed.
  enough (forall fuel buf, (length buf < fuel)%nat -> is_zeroed_chunks fuel buf = true <-> Forall (fun x => x = 0) buf)
    as He by (apply He; lia).
  assert (forall l : Bytes, l = replicate (length l) 0 <-> Forall (fun x => x = 0) l) as Hrep.
  { intros l. rewrite Forall_forall. split.
    - intros -> x [-> _]%elem_of_replicate. done.
    - intros Hl. apply list_eq. intros i. destruct (l !! i) as [x|] eqn:Hx.
      + rewrite (Hl x) by (by eapply list_elem_of_lookup_2). symmetry. apply lookup_replicate.
        split; [done|by eapply lookup_lt_Some].
      + symmetry. apply lookup_replicate_None. by apply lookup_ge_None. }
  induction fuel as [|fuel IH]; intros l Hl; [lia|]. cbn [is_zeroed_chunks].
  destruct (Nat.ltb_spec (length l) 1024) as [Hlt|Hge]; [by rewrite bool_decide_eq_true|].
  rewrite andb_true_iff, bool_decide_eq_true, IH by (rewrite length_drop; lia).
  pose proof (Hrep (take 1024 l)) as Ht. rewrite length_take_le in Ht by done. rewrite Ht.
  by rewrite <- Forall_app, take_drop.
Qed.

(** ** The allowed changes *)
Ltac allowed_tac := split; first [done|by left|simpl; lia|assumption].

Lemma vm_len_ok : vm_len a = data_len a.
Proof. exact (Forall_lookup_1 _ _ _ _ (books_vm_len _ _ _ Hok) Ha). Qed.

Lemma allowed_same : allowed (program_key c b) (is_writable b) c a a.
Proof. pose proof lamports_range. pose proof vm_len_ok. allowed_tac. Qed.

Lemma allowed_lamports_change x : is_u64 x -> is_writable b = true ->
  (x < lamports a -> program_key c b = Some (owner a)) ->
  allowed (program_key c b) (is_writable b) c a (view_set_lamports a x).
Proof. intros Hx Hw Ho. pose proof vm_len_ok. allowed_tac. Qed.

Lemma allowed_owner_change pubkey : is_writable b = true -> program_key c b = Some (owner a) ->
  is_zeroed (payload a) = true ->
  allowed (program_key c b) (is_writable b) c a (view_set_owner a pubkey).
Proof.
  intros Hw Ho Hz%is_zeroed_spec. pose proof lamports_range. pose proof vm_len_ok. allowed_tac.
Qed.

Lemma allowed_executable_change x : is_writable b = true -> program_key c b = Some (owner a) ->
  allowed (program_key c b) (is_writable b) c a (view_set_executable a x).
Proof. intros Hw Ho. pose proof lamports_range. pose proof vm_len_ok. allowed_tac. Qed.

Lemma allowed_write d : is_writable b = true -> program_key c b = Some (owner a) ->
  length d = length (payload a) ->
  allowed (program_key c b) (is_writable b) c a (view_write a d).
Proof.
  intros Hw Ho Hd. assert (data_len (view_write a d) = data_len a) as Hl by (unfold data_len; simpl; lia).
  pose proof lamports_range. pose proof vm_len_ok. split; rewrite ?Hl; first [done|by left|simpl; lia|assumption].
Qed.

Lemma allowed_set_data d : is_writable b = true -> program_key c b = Some (owner a) ->
  Z.of_nat (length d) <= MAX_ACCOUNT_DATA_LEN ->
  resize_delta (tx_accounts c) + (Z.of_nat (length d) - data_len a) <= MAX_ACCOUNT_DATA_GROWTH_PER_TRANSACTION ->
  allowed (program_key c b) (is_writable b) c a (view_set_data a d).
Proof. intros Hw Ho Hd Hg. pose proof lamports_range. split; first [done|simpl; lia|by right]. Qed.

(** ** Each operation is an allowed change *)
Definition refines (m : M unit) : Prop := exists c' r, m c = Some (c', r) /\ effect b c c'.

Lemma refines_none r : refines (fun c => Some (c, r)).
Proof. exists c, r. split; [done|constructor]. Qed.

Lemma refines_put m a' : m c = Some (put (b_index b) a' c, Ok tt) ->
  allowed (program_key c b) (is_writable b) c a a' -> refines m.
Proof. intros Hm Hal. eexists _, _. split; [done|]. by econstructor. Qed.

Lemma set_lamports_refines x : is_u64 x -> refines (set_lamports b x).
Proof.
  intros Hx. unfold refines, set_lamports. cbv [mbind M_bind]. rewrite run_owned, run_borrowed.
  destruct (negb owned && (x <? lamports a)) eqn:Hs; simpl; [by apply refines_none|].
  destruct (is_writable b) eqn:Hw; simpl; [|by apply refines_none].
  destruct (lamports a =? x); [by apply refines_none|].
  apply (refines_put _ _ (run_lamports x Hx)). apply allowed_lamports_change; [done..|].
  intros Hlt. unfold owned in Hs. case_bool_decide; [done|]. simpl in Hs. bool_to_prop. lia.
Qed.

Lemma checked_add_refines x : is_u64 x -> refines (checked_add_lamports b x).
Proof.
  intros Hx. unfold refines, checked_add_lamports. cbv [mbind M_bind]. rewrite run_borrowed.
  unfold checked_add. destruct (Z.leb_spec (lamports a + x) U64_MAX); simpl; [|by apply refines_none].
  apply set_lamports_refines. pose proof lamports_range as Hl. unfold in_word in *. lia.
Qed.

Lemma checked_sub_refines x : is_u64 x -> refines (checked_sub_lamports b x).
Proof.
  intros Hx. unfold refines, checked_sub_lamports. cbv [mbind M_bind]. rewrite run_borrowed.
  unfold checked_sub. destruct (Z.leb_spec x (lamports a)); simpl; [|by apply refines_none].
  apply set_lamports_refines. pose proof lamports_range as Hl. unfold in_word in *. lia.
Qed.

Lemma set_owner_refines pubkey : refines (set_owner b pubkey).
Proof.
  unfold refines, set_owner. cbv [mbind M_bind]. rewrite run_owned. unfold owned.
  case_bool_decide as Ho; simpl; [|by apply refines_none].
  destruct (is_writable b) eqn:Hw; simpl; [|by apply refines_none]. rewrite run_borrowed.
  destruct (is_zeroed (payload a)) eqn:Hz; simpl; [|by apply refines_none].
  destruct (owner a =? pubkey); [by apply refines_none|].
  apply (refines_put _ _ (run_store (fun a => view_set_owner a pubkey) eq_refl eq_refl)).
  by apply allowed_owner_change.
Qed.

Lemma set_executable_refines x : refines (set_executable b x).
Proof.
  unfold refines, set_executable. cbv [mbind M_bind]. rewrite run_borrowed.
  unfold is_rent_exempt_at_data_length. cbv [mbind M_bind]. rewrite run_borrowed. cbv [reads mret M_ret].
  destruct (is_exempt _ _ _); simpl; [|by apply refines_none].
  rewrite run_owned. unfold owned. case_bool_decide as Ho; simpl; [|by apply refines_none].
  destruct (is_writable b) eqn:Hw; simpl; [|by apply refines_none].
  destruct (eqb (executable a) x); [by apply refines_none|].
  apply (refines_put _ _ (run_store (fun a => view_set_executable a x) eq_refl eq_refl)).
  by apply allowed_executable_change.
Qed.

(** The slice is handed out after a touch. *)
Lemma run_get_data_mut :
  (exists e, get_data_mut b c = Some (c, Err e)) \/
  (is_writable b = true /\ program_key c b = Some (owner a) /\
   get_data_mut b c = Some (put (b_index b) a c, Ok (payload a))).
Proof.
  unfold get_data_mut. cbv [mbind M_bind]. destruct run_can_change as ([[]|e] & -> & Hr); [right|left; by eexists].
  destruct (Hr eq_refl) as [Hw Ho]. split_and!; [done..|]. rewrite run_touch. unfold borrowed_account.
  cbv [mbind M_bind reads]. simpl. unfold accs in Ha. rewrite Ha. simpl. unfold put.
  rewrite Ha, !Z.sub_diag, !Z.add_0_r, (list_insert_id (accounts _)) by done. done.
Qed.

(** Mapping the account: at most a touch; the handler may grow only what the
    program may change. *)
Definition maps (m : M Region) : Prop :=
  exists c' r, m c = Some (c', r) /\ (c' = c \/ c' = put (b_index b) a c) /\
    forall region i, r = Ok region -> region_account region = Some i ->
      i = b_index b /\ is_writable b = true /\ program_key c b = Some (owner a).

Lemma run_modify_region region : maps (modify_memory_region_of_account b region).
Proof.
  unfold maps, modify_memory_region_of_account, attempt. cbv [mbind M_bind]. rewrite run_borrowed.
  destruct run_can_change as ([[]|e] & -> & Hr); eexists _, _; (split; [done|]); (split; [by left|]); intros ? ? [= <-]; [|done].
  intros [= <-]. naive_solver.
Qed.

Lemma run_create_region is_shared vaddr : maps (create_memory_region_of_account b is_shared vaddr).
Proof.
  unfold maps, create_memory_region_of_account, attempt. cbv [mbind M_bind].
  destruct run_can_change as ([[]|e] & -> & Hr); cbv [andb].
  - destruct (Hr eq_refl) as [Hw Ho]. destruct is_shared; cbv [negb].
    + rewrite run_borrowed. eexists _, _; (split; [done|]); (split; [by left|]). intros ? ? [= <-] [= <-]. done.
    + destruct run_get_data_mut as [[e ->]|(_ & _ & ->)]; eexists _, _; (split; [done|]); (split; [by auto|]).
      * done.
      * intros ? ? [= <-] [= <-]. done.
  - rewrite run_borrowed. eexists _, _; (split; [done|]); (split; [by left|]). by intros ? ? [= <-].
Qed.

Lemma put_lookup a' : accs (put (b_index b) a' c) !! b_index b = Some a'.
Proof.
  unfold put, accs in *. rewrite Ha. simpl. apply list_lookup_insert_eq. by eapply lookup_lt_Some.
Qed.

(** A store through the slice that was handed out. *)
Lemma run_store_slice f : lamports (f a) = lamports a -> data_len (f a) = data_len a ->
  store (b_index b) f (put (b_index b) a c) = Some (put (b_index b) (f a) c, Ok tt).
Proof.
  intros Hl Hd. unfold store, modify_accounts, modify, put. unfold accs in Ha. rewrite Ha. simpl.
  rewrite Hl, Hd, !Z.sub_diag, !Z.add_0_r. unfold ta_set_accounts. simpl. do 4 f_equal.
  rewrite (list_insert_id (accounts _)) by done. by apply alter_as_insert.
Qed.

Lemma write_data_refines f : refines (write_data b f).
Proof.
  unfold refines, write_data. cbv [mbind M_bind].
  destruct run_get_data_mut as [[e ->]|(Hw & Ho & ->)]; [by apply refines_none|].
  set (d := if (length (f (payload a)) =? length (payload a))%nat then f (payload a) else payload a).
  assert (length d = length (payload a)) as Hd.
  { subst d. destruct (Nat.eqb_spec (length (f (payload a))) (length (payload a))); done. }
  rewrite (run_store_slice (fun a => view_write a d)); [|done|unfold data_len; simpl; lia].
  eexists _, _. split; [done|]. econstructor; [done|]. by apply allowed_write.
Qed.

Lemma set_state_refines s : refines (set_state b s).
Proof.
  unfold refines, set_state. cbv [mbind M_bind].
  destruct run_get_data_mut as [[e ->]|(Hw & Ho & ->)]; [by apply refines_none|].
  assert (effect b c (put (b_index b) a c)) as Hsame by (econstructor; [done|apply allowed_same]).
  destruct s as [bytes|]; simpl; [|by eexists _, _].
  destruct (Nat.ltb_spec (length (payload a)) (length bytes)) as [|Hle]; simpl; [by eexists _, _|].
  assert (length (bytes ++ drop (length bytes) (payload a)) = length (payload a)) as Hd
    by (rewrite length_app, length_drop; lia).
  rewrite (run_store_slice (fun a' => view_write a' (bytes ++ drop (length bytes) (payload a))));
    [|done|unfold data_len; simpl; lia].
  eexists _, _. split; [done|]. econstructor; [done|]. by apply allowed_write.
Qed.

Lemma set_data_refines d : refines (set_data_from_slice b d).
Proof.
  unfold refines, set_data_from_slice. cbv [mbind M_bind].
  destruct (run_can_resize (Z.of_nat (length d)) ltac:(lia)) as ([[]|e] & -> & Hr); [|by apply refines_none].
  destruct (Hr eq_refl) as (Hw & Ho & Hmax & Hg).
  apply (refines_put _ _ (run_resize (Z.of_nat (length d)) (fun a => view_set_data a d) (conj (Nat2Z.is_nonneg _) Hmax) eq_refl eq_refl Hg)).
  by apply allowed_set_data.
Qed.

Lemma resize_length n : length (take n (payload a) ++ replicate (n - length (payload a)) 0) = n.
Proof. rewrite length_app, length_take, length_replicate. lia. Qed.

Lemma set_data_length_refines n : refines (set_data_length b n).
Proof.
  unfold refines, set_data_length. cbv [mbind M_bind].
  destruct (run_can_resize (Z.of_nat n) ltac:(lia)) as ([[]|e] & -> & Hr); [|by apply refines_none].
  destruct (Hr eq_refl) as (Hw & Ho & Hmax & Hg). rewrite run_borrowed.
  destruct (length (payload a) =? n)%nat; [by apply refines_none|]. pose proof (resize_length n) as Hlen.
  assert (data_len (view_resize a n) = Z.of_nat n) as Hd by (unfold data_len; simpl; by rewrite Hlen).
  apply (refines_put _ _ (run_resize (Z.of_nat n) (fun a => view_resize a n) (conj (Nat2Z.is_nonneg _) Hmax) eq_refl Hd Hg)).
  unfold view_resize. apply allowed_set_data; [done..| |]; by rewrite Hlen.
Qed.

Lemma extend_refines d : refines (extend_from_slice b d).
Proof.
  unfold refines, extend_from_slice. cbv [mbind M_bind]. rewrite run_borrowed.
  set (n := sat_add 64 (data_len a) (Z.of_nat (length d))).
  assert (0 <= n) as Hn by (subst n; pose proof (data_len_nonneg a); unfold sat_add, word_max; lia).
  destruct (run_can_resize n Hn) as ([[]|e] & -> & Hr); [|by apply refines_none].
  destruct (Hr eq_refl) as (Hw & Ho & Hmax & Hg). case_bool_decide; [by apply refines_none|].
  assert (n = Z.of_nat (length (payload a ++ d))) as Hnd.
  { rewrite length_app. subst n. unfold sat_add, data_len, MAX_ACCOUNT_DATA_LEN, word_max in *. lia. }
  assert (data_len (view_extend a d) = n) as Hd by done.
  apply (refines_put _ _ (run_resize n (fun a => view_extend a d) (conj Hn Hmax) eq_refl Hd Hg)).
  unfold view_extend. rewrite Hnd in Hmax, Hg. by apply allowed_set_data.
Qed.

Lemma run_op_refines op : op_ok op -> refines (run_op b op).
Proof.
  destruct op; simpl; intros Hop; auto using set_owner_refines, set_lamports_refines, checked_add_refines,
    checked_sub_refines, write_data_refines, set_data_refines, set_data_length_refines, extend_refines,
    set_executable_refines, set_state_refines.
Qed.
End Run.
End Spec.
