(* ===== verification/ContextTrace.v ===== *)
(** * Transaction context: whole transactions

    A transaction as a sequence of steps: instructions are pushed and popped,
    accounts are borrowed, changed and released, in any order a program may
    choose. The books stay balanced, the borrow counters count the references
    that are out, and no step panics. *)

From S2P Require Import Prelude TransactionContext ContextSpec.
Import Ctx.

#[local] Arguments Zsum : simpl never.

Lemma Zsum_insert {A} (f : A -> Z) (l : list A) i x y : l !! i = Some x ->
  Zsum f (<[i := y]> l) = Zsum f l + (f y - f x).
Proof.
  intros Hx. rewrite <- (take_drop_middle l i x Hx) at 2.
  rewrite insert_take_drop by (by eapply lookup_lt_Some). rewrite !Zsum_app, !Zsum_cons. lia.
Qed.

Section Trace.
Context `{RL : RuntimeLaws}.
Implicit Types (c : TransactionContext) (b : Borrowed).

(** ** Account changes keep the books *)
Lemma put_books L D c i a a' : books L D c -> accs c !! i = Some a ->
  is_u64 (lamports a') -> vm_len a' = data_len a' ->
  resize_delta (tx_accounts c) + (data_len a' - data_len a) <= MAX_ACCOUNT_DATA_GROWTH_PER_TRANSACTION ->
  books L D (put i a' c).
Proof.
  intros [Hc Ht Hf Hr Hv Hl Hd Hg Hi] Ha Hrange Hvm Hlen. unfold put, total_lamports, total_data, accs in *. rewrite Ha.
  split; unfold accs, total_lamports, total_data, accs, set_accounts;
    cbn [tx_accounts accounts borrow_counters touched_flags resize_delta lamports_delta];
    rewrite ?length_insert; try done.
  - by apply Forall_insert.
  - by apply Forall_insert.
  - rewrite (Zsum_insert _ _ _ a) by done. lia.
  - rewrite (Zsum_insert _ _ _ a) by done. lia.
Qed.

Lemma effect_books L D c b c' : books L D c -> effect b c c' -> books L D c'.
Proof.
  intros Hok [|a a' Ha [_ _ _ _ Hrange _ _ _ Hlen Hvm]]; [done|]. apply (put_books _ _ _ _ a); [done..|].
  pose proof (books_growth _ _ _ Hok). destruct Hlen as [->|[_ Hlen]]; lia.
Qed.

(** ** Borrows *)
Definition counters c : list Z := borrow_counters (tx_accounts c).
Definition set_counter (i : nat) (x : Z) c : TransactionContext :=
  set_accounts c (ta_set_counters (tx_accounts c) (<[i := x]> (counters c))).

Lemma set_counter_books L D c i x : books L D c -> books L D (set_counter i x c).
Proof.
  intros [Hc Ht Hf Hr Hv Hl Hd Hg Hi].
  split; unfold accs, total_lamports, total_data, set_counter in *; simpl; rewrite ?length_insert; done.
Qed.

Lemma run_try_borrow_mut L D c i : books L D c ->
  (exists e, accounts_try_borrow_mut i c = Some (c, Err e)) \/
  (exists a, accs c !! i = Some a /\ counters c !! i = Some 0 /\
    accounts_try_borrow_mut i c = Some (set_counter i (-1) c, Ok tt)).
Proof.
  intros Hok. unfold accounts_try_borrow_mut. cbv [mbind M_bind reads]. fold (counters c).
  destruct (counters c !! i) as [x|] eqn:Hx; simpl; [|left; by eexists].
  assert (is_Some (accs c !! i)) as [a Ha].
  { apply lookup_lt_is_Some. rewrite <- (books_counters _ _ _ Hok). by eapply lookup_lt_Some. }
  unfold counter_try_borrow_mut, is_writing, is_reading, lift.
  destruct (Z.ltb_spec x 0); simpl; [left; by eexists|]. destruct (Z.ltb_spec 0 x); simpl; [left; by eexists|].
  assert (x = 0) as -> by lia. right. exists a. split_and!; [done..|].
  unfold accs in Ha. rewrite Ha. done.
Qed.

Lemma run_try_borrow L D c i : books L D c ->
  (exists e, accounts_try_borrow i c = Some (c, Err e)) \/
  (exists a x, accs c !! i = Some a /\ counters c !! i = Some x /\ 0 <= x < 127 /\
    accounts_try_borrow i c = Some (set_counter i (x + 1) c, Ok tt)).
Proof.
  intros Hok. unfold accounts_try_borrow. cbv [mbind M_bind reads]. fold (counters c).
  destruct (counters c !! i) as [x|] eqn:Hx; simpl; [|left; by eexists].
  assert (is_Some (accs c !! i)) as [a Ha].
  { apply lookup_lt_is_Some. rewrite <- (books_counters _ _ _ Hok). by eapply lookup_lt_Some. }
  unfold counter_try_borrow, is_writing, checked_signed, lift.
  destruct (Z.ltb_spec x 0); simpl; [left; by eexists|].
  destruct (_ && _) eqn:Hb; simpl; [|left; by eexists]. bool_to_prop. simpl in *.
  right. exists a, x. split_and!; [done|done|lia|lia|]. unfold accs in Ha. rewrite Ha. done.
Qed.

Lemma set_vm_len_id L D c i : books L D c ->
  alter (fun a => set_vm_len a (data_len a)) i (accs c) = accs c.
Proof.
  intros Hok. destruct (accs c !! i) as [a|] eqn:Ha.
  - rewrite (alter_as_insert _ _ _ _ Ha). apply list_insert_id. rewrite Ha. f_equal.
    pose proof (Forall_lookup_1 _ _ _ _ (books_vm_len _ _ _ Hok) Ha) as Hv. simpl in Hv.
    destruct a. unfold set_vm_len. simpl in *. by rewrite Hv.
  - apply list_eq. intros j. destruct (decide (i = j)) as [<-|];
      [by rewrite list_lookup_alter_eq, Ha|by rewrite list_lookup_alter_ne].
Qed.

Lemma run_drop_ref_mut L D c i x : books L D c -> counters c !! i = Some x ->
  drop_ref_mut i c = Some (set_counter i (counter_release_borrow_mut x) c, Ok tt).
Proof.
  intros Hok Hx. unfold drop_ref_mut, modify_accounts, modify, set_counter. do 3 f_equal.
  unfold ta_set_counters, ta_set_accounts. simpl. fold (accs c). rewrite (set_vm_len_id L D) by done.
  fold (counters c). by rewrite (alter_as_insert _ _ _ _ Hx).
Qed.

Lemma run_drop_ref c i x : counters c !! i = Some x ->
  drop_ref i c = Some (set_counter i (counter_release_borrow x) c, Ok tt).
Proof.
  intros Hx. unfold drop_ref, modify_accounts, modify, set_counter. do 3 f_equal.
  fold (counters c). by rewrite (alter_as_insert _ _ _ _ Hx).
Qed.

Lemma set_counter_twice c i x y : set_counter i y (set_counter i x c) = set_counter i y c.
Proof. unfold set_counter, set_accounts, ta_set_counters, counters. simpl. by rewrite list_insert_insert_eq. Qed.

Lemma set_counter_id c i x : counters c !! i = Some x -> set_counter i x c = c.
Proof.
  intros Hx. unfold set_counter, ta_set_counters. rewrite list_insert_id by done.
  unfold counters. by destruct c as [[]].
Qed.

Lemma counters_set_counter c i x y : counters c !! i = Some y -> counters (set_counter i x c) !! i = Some x.
Proof. intros Hy. unfold counters. simpl. apply list_lookup_insert_eq. by eapply lookup_lt_Some. Qed.

(** A borrow that is released at once leaves no trace. *)
Lemma borrow_and_drop L D c i a : books L D c -> counters c !! i = Some 0 -> accs c !! i = Some a ->
  drop_ref_mut i (set_counter i (-1) c) = Some (c, Ok tt).
Proof.
  intros Hok Hc Ha. rewrite (run_drop_ref_mut L D _ _ (-1)).
  - rewrite set_counter_twice. by rewrite set_counter_id.
  - by apply set_counter_books.
  - by eapply counters_set_counter.
Qed.

(** ** The stack and the trace of instructions *)

Lemma books_ext L D c c' : tx_accounts c' = tx_accounts c -> books L D c -> books L D c'.
Proof.
  intros Heq [Hc Ht Hf Hr Hv Hl Hd Hg Hi].
  split; unfold total_lamports, total_data, accs in *; rewrite ?Heq; done.
Qed.

(** The instructions on the stack are in the trace, at the level they run at; the
    last frame of the trace waits for the next instruction. *)
Record frames_ok c : Prop := {
  frames_trace : instruction_trace c <> [];
  frames_stack : forall n k, instruction_stack c !! n = Some k ->
    (S k < length (instruction_trace c))%nat /\
    exists f, instruction_trace c !! k = Some f /\ nesting_level f = n;
  frames_height : (length (instruction_stack c) <= instruction_stack_capacity c)%nat;
  frames_length : (length (instruction_trace c) <= S (instruction_trace_capacity c))%nat
}.

Definition set_level (n : nat) (f : InstructionFrame) : InstructionFrame :=
  MkFrame n (program_account_index_in_tx f) (instruction_accounts f) (dedup_map f) (instruction_data f).

(** Changing the last frame leaves the stack in order. *)
Lemma frames_modify_last c f g tr : frames_ok c -> instruction_trace c = tr ++ [f] ->
  frames_ok (set_trace c (tr ++ [g])).
Proof.
  intros [Htr Hst Hh Hl] Heq. rewrite Heq, length_app in Hl. split; simpl.
  - by destruct tr.
  - intros n k Hk. destruct (Hst n k Hk) as [Hlt (fr & Hfr & Hn)]. rewrite Heq, length_app in Hlt. simpl in Hlt.
    rewrite length_app. simpl. split; [done|]. exists fr. split; [|done].
    rewrite Heq, lookup_app_l in Hfr by lia. by rewrite lookup_app_l by lia.
  - done.
  - by rewrite length_app.
Qed.

Lemma run_modify_last f c tr fr : instruction_trace c = tr ++ [fr] ->
  modify_last_frame f c = Some (set_trace c (tr ++ [f fr]), Ok tt).
Proof.
  intros Htr. unfold modify_last_frame. cbv [mbind M_bind reads]. rewrite Htr, last_snoc. simpl.
  by rewrite removelast_last.
Qed.

(** [store_index] changes nothing but the data of the instructions sysvar, in place. *)
Definition only_sysvar c c' : Prop :=
  c' = c \/
  exists i a d, accs c !! i = Some a /\ key a = instructions_id /\ owner a = sysvar_id /\
    length d = length (payload a) /\
    c' = set_accounts c (ta_set_accounts (tx_accounts c) (<[i := view_write a d]> (accs c))).

Lemma only_sysvar_books L D c c' : books L D c -> only_sysvar c c' ->
  books L D c' /\ counters c' = counters c.
Proof.
  intros Hok [->|(i & a & d & Ha & _ & _ & Hd & ->)]; [done|]. split; [|done].
  destruct Hok as [Hc Ht Hf Hr Hv Hl Hg Hgr Hi]. unfold total_lamports, total_data, accs in *.
  assert (data_len (view_write a d) = data_len a) as Hdl by (unfold data_len; simpl; lia).
  split; unfold accs, total_lamports, total_data, accs, set_accounts, ta_set_accounts;
    cbn [tx_accounts accounts borrow_counters touched_flags resize_delta lamports_delta];
    rewrite ?length_insert; try done.
  - apply Forall_insert; [done|]. exact (Forall_lookup_1 _ _ _ _ Hr Ha).
  - apply Forall_insert; [done|]. rewrite Hdl. exact (Forall_lookup_1 _ _ _ _ Hv Ha).
  - rewrite (Zsum_insert _ _ _ a) by done. simpl. lia.
  - rewrite (Zsum_insert _ _ _ a) by done. lia.
Qed.

Lemma find_index_spec L D c k i : books L D c -> find_index_of_account c k = Some i ->
  exists a, accs c !! i = Some a /\ key a = k.
Proof.
  intros Hok. unfold find_index_of_account. fold (accs c). intros ([j a] & Hf & ->)%fmap_Some.
  apply list_find_Some in Hf as (Ha & Hk & _). exists a. split; [|done].
  pose proof (lookup_lt_Some _ _ _ Ha) as Hlt. pose proof (books_few _ _ _ Hok) as Hfew.
  unfold MAX_ACCOUNTS_PER_TRANSACTION in Hfew. rewrite wrap_small by lia. by rewrite Nat2Z.id.
Qed.

Lemma store_index_spec L D c : books L D c ->
  exists c' r, store_index c = Some (c', r) /\ only_sysvar c c'.
Proof.
  intros Hok. unfold store_index. cbv [mbind M_bind reads].
  destruct (find_index_of_account c instructions_id) as [i|] eqn:Hf; [|eexists _, _; split; [done|by left]].
  destruct (run_try_borrow_mut L D c i Hok) as [[e ->]|(a & Ha & Hc & ->)]; [eexists _, _; split; [done|by left]|].
  destruct (find_index_spec L D c _ i Hok Hf) as (a' & Ha' & Hk). simplify_eq.
  change (accounts (tx_accounts (set_counter i (-1) c))) with (accs c). rewrite Ha.
  cbv [unwrap mret M_ret]. change (top_level_instruction_index (set_counter i (-1) c)) with (top_level_instruction_index c).
  destruct (Z.eqb_spec (owner a) sysvar_id) as [Ho|Ho]; cbn [negb]; cycle 1.
  { rewrite (borrow_and_drop L D c i a) by done. eexists _, _. split; [done|by left]. }
  destruct (store_current_index_checked (payload a) (wrap 16 (top_level_instruction_index c))) as [d|e] eqn:Hd; cycle 1.
  { rewrite (borrow_and_drop L D c i a) by done. eexists _, _. split; [done|by left]. }
  set (c2 := set_accounts c (ta_set_accounts (tx_accounts c) (<[i := view_write a d]> (accs c)))).
  assert (only_sysvar c c2) as Hs.
  { right. exists i, a, d. split_and!; [done..|by eapply store_current_index_length|done]. }
  destruct (only_sysvar_books L D c c2 Hok Hs) as [Hok2 Hc2].
  assert (store i (fun a => view_write a d) (set_counter i (-1) c) = Some (set_counter i (-1) c2, Ok tt)) as ->.
  { unfold store, modify_accounts, modify, set_counter, c2, set_accounts, ta_set_accounts, ta_set_counters, counters, accs in *. simpl.
    by rewrite (alter_as_insert _ _ _ _ Ha). }
  rewrite (borrow_and_drop L D c2 i (view_write a d)); [by eexists _, _|done|by rewrite Hc2|].
  unfold c2, accs in *. simpl. apply list_lookup_insert_eq. by eapply lookup_lt_Some.
Qed.

Lemma only_sysvar_frames c c' : only_sysvar c c' ->
  instruction_stack c' = instruction_stack c /\ instruction_trace c' = instruction_trace c /\
  instruction_stack_capacity c' = instruction_stack_capacity c /\
  instruction_trace_capacity c' = instruction_trace_capacity c.
Proof. by intros [->|(i & a & d & _ & _ & _ & _ & ->)]. Qed.

Lemma frames_ext c c' : instruction_stack c' = instruction_stack c ->
  instruction_trace c' = instruction_trace c ->
  instruction_stack_capacity c' = instruction_stack_capacity c ->
  instruction_trace_capacity c' = instruction_trace_capacity c -> frames_ok c -> frames_ok c'.
Proof. intros Hs Ht Hsc Htc [????]. split; rewrite ?Hs, ?Ht, ?Hsc, ?Htc; done. Qed.

(** The frame that was configured goes onto the stack. *)
Lemma frames_pushed c tr fr : frames_ok c -> instruction_trace c = tr ++ [fr] ->
  (length tr < instruction_trace_capacity c)%nat ->
  (length (instruction_stack c) < instruction_stack_capacity c)%nat ->
  frames_ok (set_stack (set_trace c ((tr ++ [set_level (length (instruction_stack c)) fr]) ++ [frame_default]))
    (instruction_stack c ++ [length tr])).
Proof.
  intros [Htr Hst Hh Hl] Heq Hcap Hscap. split; simpl.
  - by destruct tr.
  - intros n k Hk. rewrite !length_app. simpl. apply lookup_snoc_Some in Hk as [[Hlt Hk]|[-> <-]].
    + destruct (Hst n k Hk) as [Hk1 (f & Hf & Hn)]. rewrite Heq, length_app in Hk1. simpl in Hk1.
      rewrite Heq, lookup_app_l in Hf by lia. split; [lia|]. exists f. split; [|done].
      by rewrite <- app_assoc, lookup_app_l by lia.
    + split; [lia|]. exists (set_level (length (instruction_stack c)) fr). split; [|done]. rewrite <- app_assoc. simpl. by apply list_lookup_middle.
  - rewrite length_app. simpl. lia.
  - rewrite !length_app. simpl. lia.
Qed.

Lemma frames_grown c f : frames_ok c -> (length (instruction_trace c) <= instruction_trace_capacity c)%nat ->
  frames_ok (set_trace c (instruction_trace c ++ [f])).
Proof.
  intros [Htr Hst Hh Hl] Hcap. split; simpl.
  - by destruct (instruction_trace c).
  - intros n k Hk. destruct (Hst n k Hk) as [Hlt (fr & Hfr & Hn)]. rewrite length_app. simpl. split; [lia|].
    exists fr. split; [|done]. by apply lookup_app_l_Some.
  - done.
  - rewrite length_app. simpl. lia.
Qed.

Lemma context_push_spec L D c : books L D c -> frames_ok c ->
  exists c' r, push c = Some (c', r) /\ books L D c' /\ frames_ok c' /\ counters c' = counters c /\
    only_sysvar c (set_accounts c (tx_accounts c')) /\
    (r = Ok tt -> (instruction_stack c = [] \/ total_lamports c = L) /\
      exists k, instruction_stack c' = instruction_stack c ++ [k]).
Proof.
  intros Hok Hf. destruct (last (instruction_trace c)) as [fr|] eqn:Hlast; cycle 1.
  { apply last_None in Hlast. by destruct (frames_trace _ Hf). }
  apply last_Some in Hlast as [tr Htr]. pose proof (frames_length _ Hf) as Hlen. rewrite Htr, length_app in Hlen.
  assert (forall x, tx_accounts x = tx_accounts c -> only_sysvar c (set_accounts c (tx_accounts x))) as Hsame.
  { intros x ->. left. by destruct c. }
  unfold push. cbv [mbind M_bind reads].
  destruct (negb (length (instruction_stack c) =? 0)%nat && negb (lamports_delta (tx_accounts c) =? 0)) eqn:Hbal; simpl.
  { eexists _, _. split_and!; [done..|by apply Hsame|done]. }
  assert (instruction_stack c = [] \/ total_lamports c = L) as HL.
  { pose proof (books_lamports _ _ _ Hok). apply andb_false_iff in Hbal as [Hb|Hb]; apply negb_false_iff in Hb.
    - left. apply Nat.eqb_eq, length_zero_iff_nil in Hb. done.
    - right. bool_to_prop. lia. }
  rewrite (run_modify_last _ _ tr fr) by done. fold (set_level (length (instruction_stack c)) fr).
  set (c1 := set_trace c (tr ++ [set_level (length (instruction_stack c)) fr])).
  assert (frames_ok c1) as Hf1 by (by eapply frames_modify_last).
  assert (get_instruction_trace_length c1 = length tr) as ->.
  { unfold get_instruction_trace_length, c1. simpl. rewrite length_app. simpl. lia. }
  change (instruction_trace_capacity c1) with (instruction_trace_capacity c).
  destruct (Nat.leb_spec (instruction_trace_capacity c) (length tr)) as [|Hcap]; simpl.
  { eexists _, _. split_and!; [done|by apply (books_ext _ _ c)|done|done|by apply Hsame|done]. }
  destruct (Nat.leb_spec (instruction_stack_capacity c) (length (instruction_stack c))) as [|Hscap]; simpl.
  { eexists _, _. split_and!; [done|by apply (books_ext _ _ c)| |done|by apply Hsame|done].
    apply (frames_grown c1); [done|]. unfold c1. simpl. rewrite length_app. simpl. lia. }
  set (c3 := set_stack (set_trace c1 ((tr ++ [set_level (length (instruction_stack c)) fr]) ++ [frame_default]))
    (instruction_stack c ++ [length tr])).
  assert (frames_ok c3) as Hf3 by (by apply (frames_pushed c tr fr)).
  assert (books L D c3) as Hok3 by (by apply (books_ext _ _ c)).
  destruct (store_index_spec L D c3 Hok3) as (c' & r & Hr & Hs).
  destruct (only_sysvar_books L D c3 c' Hok3 Hs) as [Hok' Hc']. destruct (only_sysvar_frames c3 c' Hs) as (Hs1 & Hs2 & Hs3 & Hs4).
  exists c', r. split_and!; [done|done|by apply (frames_ext c3)|done| |].
  - destruct Hs as [->|(i0 & a & d & ? & ? & ? & ? & ->)]; [by apply Hsame|]. right. by exists i0, a, d.
  - intros _. split; [done|]. exists (length tr). by rewrite Hs1.
Qed.

Lemma run_current_context c : frames_ok c -> instruction_stack c <> [] ->
  exists k f, get_current_instruction_context c = Some (c, Ok (k, f)) /\
    instruction_trace c !! k = Some f /\ last (instruction_stack c) = Some k.
Proof.
  intros Hf Hne. unfold get_current_instruction_context, get_instruction_context_at_nesting_level,
    get_instruction_context_at_index_in_trace. cbv [mbind M_bind reads].
  destruct (last (instruction_stack c)) as [k|] eqn:Hl; [|by apply last_None in Hl].
  destruct (length (instruction_stack c)) as [|n] eqn:Hn; [by apply nil_length_inv in Hn|].
  rewrite last_lookup, Hn in Hl. simpl in Hl. rewrite Hl. simpl.
  destruct (frames_stack _ Hf n k Hl) as [_ (f & Hfr & _)]. rewrite Hfr. simpl. by exists k, f.
Qed.

(** [pop] succeeds only when the lamports add up. *)
Lemma check_balance_spec L D c : books L D c -> frames_ok c ->
  exists r, check_balance_and_refs c = Some (c, r) /\ (r = Ok false -> total_lamports c = L).
Proof.
  intros Hok Hf. unfold check_balance_and_refs. cbv [mbind M_bind].
  destruct (decide (instruction_stack c = [])) as [Hs|Hs].
  { unfold get_current_instruction_context. cbv [mbind M_bind reads]. rewrite Hs. by eexists. }
  destruct (run_current_context c Hf Hs) as (k & f & -> & _ & _).
  unfold lift. destruct (get_index_of_program_account_in_transaction f) as [i|e]; [|by eexists].
  unfold attempt. destruct (run_try_borrow_mut L D c i Hok) as [[e ->]|(a & Ha & Hc & ->)].
  - destruct e; by eexists.
  - rewrite (borrow_and_drop L D c i a) by done. cbv [reads mret M_ret]. eexists. split; [done|].
    intros [= Hb]. apply negb_false_iff in Hb. bool_to_prop. pose proof (books_lamports _ _ _ Hok). lia.
Qed.

Lemma frames_pop c : frames_ok c -> frames_ok (set_stack c (removelast (instruction_stack c))).
Proof.
  intros [Htr Hst Hh Hl]. destruct (last (instruction_stack c)) as [k|] eqn:Hs.
  - apply last_Some in Hs as [st Hs]. rewrite Hs, removelast_last. rewrite Hs, length_app in Hh.
    split; simpl; [done| |lia|done]. intros n j Hj. apply Hst. rewrite Hs. by apply lookup_app_l_Some.
  - apply last_None in Hs. rewrite Hs. split; simpl; [done| |lia|done]. intros n j Hj. done.
Qed.

Lemma context_pop_spec L D c : books L D c -> frames_ok c ->
  exists c' r, pop c = Some (c', r) /\ tx_accounts c' = tx_accounts c /\ frames_ok c' /\
    (r = Ok tt -> total_lamports c = L) /\
    (instruction_stack c <> [] -> instruction_stack c' = removelast (instruction_stack c)).
Proof.
  intros Hok Hf. unfold pop. cbv [mbind M_bind reads]. destruct (instruction_stack c) as [|x st] eqn:Hs.
  { by eexists _, _. }
  unfold attempt at 1. destruct (check_balance_spec L D c Hok Hf) as (r & -> & Hr).
  rewrite <- Hs. cbn [modify]. pose proof (frames_pop c Hf) as Hfp.
  assert (forall c', tx_accounts c' = tx_accounts c -> frames_ok c' ->
    instruction_stack c' = removelast (instruction_stack c) ->
    exists c2 r', match lift r c' with
      | Some (c0, Ok x0) => (if (x0 : bool) then raise UnbalancedInstruction else mret tt) c0
      | Some (c0, Err e) => Some (c0, Err e) | None => None end = Some (c2, r') /\
      tx_accounts c2 = tx_accounts c /\ frames_ok c2 /\ (r' = Ok tt -> total_lamports c = L) /\
      (instruction_stack c <> [] -> instruction_stack c2 = removelast (instruction_stack c))) as Hend.
  { intros c' Ht Hf' Hst. unfold lift. destruct r as [[]|e]; eexists _, _; split_and!; try done. intros _. by apply Hr. }
  unfold when. case_bool_decide; cbn [modify]; apply Hend; try done. by eapply (frames_ext (set_stack c _)).
Qed.

Lemma configure_spec c p ias dm d : frames_ok c ->
  exists c', configure_next_instruction p ias dm d c = Some (c', Ok tt) /\
    tx_accounts c' = tx_accounts c /\ instruction_stack c' = instruction_stack c /\ frames_ok c'.
Proof.
  intros Hf. destruct (last (instruction_trace c)) as [fr|] eqn:Hlast; cycle 1.
  { apply last_None in Hlast. by destruct (frames_trace _ Hf). }
  apply last_Some in Hlast as [tr Htr]. unfold configure_next_instruction.
  rewrite (run_modify_last _ _ tr fr) by done. eexists. split_and!; [done..|]. by eapply frames_modify_last.
Qed.

(** ** Growth under a store *)

Lemma put_set_counter i j x a' c : put i a' (set_counter j x c) = set_counter j x (put i a' c).
Proof. unfold put, set_counter. simpl. by destruct (accounts (tx_accounts c) !! i). Qed.

Lemma put_counters i a' c : counters (put i a' c) = counters c.
Proof. unfold put, counters. by destruct (accounts (tx_accounts c) !! i). Qed.

Lemma accs_put c i a a' : accs c !! i = Some a -> accs (put i a' c) = <[i := a']> (accs c).
Proof. intros Ha. unfold put. unfold accs in Ha. by rewrite Ha. Qed.

Lemma put_frames i a' c : instruction_stack (put i a' c) = instruction_stack c /\
  instruction_trace (put i a' c) = instruction_trace c /\
  instruction_stack_capacity (put i a' c) = instruction_stack_capacity c /\
  instruction_trace_capacity (put i a' c) = instruction_trace_capacity c.
Proof. unfold put. by destruct (accounts (tx_accounts c) !! i). Qed.

(** The account as a borrow with no rights. *)
Definition plain_borrow (i : nat) : Borrowed := MkBorrowed (MkInstructionAccount i false false) 0.

Section Violation.
Context (L D : Z) (c : TransactionContext) (Hok : books L D c) (i : nat) (a : Account).
Context (Ha : accs c !! i = Some a) (Hc : counters c !! i = Some 0).

Let c1 := set_counter i (-1) c.

Lemma violation_books : books L D c1.
Proof. by apply set_counter_books. Qed.

Lemma violation_touch : account_touch i c1 = Some (put i a c1, Ok tt).
Proof.
  pose proof violation_books as Hok1. assert (accs c1 !! b_index (plain_borrow i) = Some a) as Ha1 by done.
  change (account_touch i) with (touch (plain_borrow i)). rewrite (run_touch L D c1 Hok1 _ a Ha1).
  unfold put. change (accounts (tx_accounts c1)) with (accs c). rewrite Ha, !Z.sub_diag, !Z.add_0_r.
  rewrite (list_insert_id (accs c)) by done. done.
Qed.

Lemma violation_release {A} (x : A) a' : books L D (put i a' c1) ->
  (drop_ref_mut i ≫= fun _ => (mret x : M A)) (put i a' c1) = Some (put i a' c, Ok x).
Proof.
  intros Hb. cbv [mbind M_bind]. rewrite (run_drop_ref_mut L D _ _ (-1)); [|done|].
  - unfold c1. rewrite put_set_counter, set_counter_twice, set_counter_id; [done|]. by rewrite put_counters.
  - rewrite put_counters. by eapply counters_set_counter.
Qed.

Lemma violation_same : books L D (put i a c1).
Proof.
  pose proof violation_books as Hok1. apply (put_books _ _ _ _ a); [done|done| | |].
  - exact (Forall_lookup_1 _ _ _ _ (books_range _ _ _ Hok) Ha).
  - exact (Forall_lookup_1 _ _ _ _ (books_vm_len _ _ _ Hok) Ha).
  - pose proof (books_growth _ _ _ Hok). change (resize_delta (tx_accounts c1)) with (resize_delta (tx_accounts c)). lia.
Qed.

Lemma violation_resize n : 0 <= n <= MAX_ACCOUNT_DATA_LEN ->
  resize_delta (tx_accounts c) + (n - data_len a) <= MAX_ACCOUNT_DATA_GROWTH_PER_TRANSACTION ->
  (accounts_update_resize_delta (data_len a) n ≫= fun _ => store i (fun a => view_resize a (Z.to_nat n)))
    (put i a c1) = Some (put i (view_resize a (Z.to_nat n)) c1, Ok tt) /\
  books L D (put i (view_resize a (Z.to_nat n)) c1) /\ books L D (put i (view_resize a (Z.to_nat n)) c).
Proof.
  intros Hn Hg. pose proof violation_books as Hok1.
  assert (accs c1 !! b_index (plain_borrow i) = Some a) as Ha1 by done.
  assert (data_len (view_resize a (Z.to_nat n)) = n) as Hd.
  { unfold data_len, view_resize. simpl. rewrite resize_length. lia. }
  pose proof (Forall_lookup_1 _ _ _ _ (books_range _ _ _ Hok) Ha) as Hl. simpl in Hl. split_and!.
  - pose proof (run_resize L D c1 Hok1 (plain_borrow i) a Ha1 n (fun a => view_resize a (Z.to_nat n)) Hn eq_refl Hd Hg) as Hr.
    revert Hr. cbv [mbind M_bind]. change (touch (plain_borrow i)) with (account_touch i). rewrite violation_touch.
    unfold update_accounts_resize_delta. cbv [mbind M_bind]. rewrite (run_borrowed _ _ a); [done|].
    exact (put_lookup c1 (plain_borrow i) a Ha1 a).
  - apply (put_books L D c1 i a); [done..|]. by rewrite Hd.
  - apply (put_books L D c i a); [done..|]. by rewrite Hd.
Qed.
End Violation.

(** What the handler does: nothing, or it touches the account, or it resizes it
    within the limits. *)
Inductive violation_effect c (i : nat) : TransactionContext -> Prop :=
| violation_none : violation_effect c i c
| violation_touched a : accs c !! i = Some a -> violation_effect c i (put i a c)
| violation_resized a n : accs c !! i = Some a -> 0 <= n <= MAX_ACCOUNT_DATA_LEN ->
    resize_delta (tx_accounts c) + (n - data_len a) <= MAX_ACCOUNT_DATA_GROWTH_PER_TRANSACTION ->
    violation_effect c i (put i (view_resize a (Z.to_nat n)) c).

Lemma access_violation_spec L D c direct region reserved is_load vm_addr len :
  books L D c -> 0 <= reserved ->
  exists c' x, access_violation direct region reserved is_load vm_addr len c = Some (c', Ok x) /\ books L D c' /\
    region_account x = region_account region /\
    (c' = c \/ exists i, region_account region = Some i /\ violation_effect c i c').
Proof.
  intros Hok Hres. unfold access_violation. destruct is_load; [by eexists _, _; split_and!; [..|left]|].
  destruct (region_account region) as [i|] eqn:Hreg; [|by eexists _, _; split_and!; [..|left]].
  set (req := sat_sub _ _). destruct (reserved <? req); [by eexists _, _; split_and!; [..|left]|].
  unfold attempt. cbv [mbind M_bind].
  destruct (run_try_borrow_mut L D c i Hok) as [[e ->]|(a & Ha & Hc & ->)]; [by eexists _, _; split_and!; [..|left]|].
  rewrite (violation_touch L D c Hok i a Ha). unfold reads.
  change (accounts (tx_accounts (put i a (set_counter i (-1) c)))) with (accs (put i a (set_counter i (-1) c))).
  assert (accs (put i a (set_counter i (-1) c)) !! i = Some a) as ->
    by exact (put_lookup (set_counter i (-1) c) (plain_borrow i) a Ha a). cbv [unwrap mret M_ret].
  assert (resize_delta (tx_accounts (put i a (set_counter i (-1) c))) = resize_delta (tx_accounts c)) as ->.
  { unfold put. change (accounts (tx_accounts (set_counter i (-1) c))) with (accs c). rewrite Ha. simpl. lia. }
  destruct (region_len region <? req); cycle 1.
  { eexists _, _. split; [exact (violation_release L D c i Hc _ a (violation_same L D c Hok i a Ha))|].
    assert (violation_effect c i (put i a c)) as He by (by constructor). split_and!; [|done|right; by exists i].
    apply (put_books _ _ _ _ a); [done..| | |].
    - exact (Forall_lookup_1 _ _ _ _ (books_range _ _ _ Hok) Ha).
    - exact (Forall_lookup_1 _ _ _ _ (books_vm_len _ _ _ Hok) Ha).
    - pose proof (books_growth _ _ _ Hok). lia. }
  set (n := Z.min _ _).
  assert (0 <= n <= MAX_ACCOUNT_DATA_LEN /\
    resize_delta (tx_accounts c) + (n - data_len a) <= MAX_ACCOUNT_DATA_GROWTH_PER_TRANSACTION) as [Hn Hg].
  { pose proof (growth_range L D c Hok (plain_borrow i) a Ha). pose proof (books_growth _ _ _ Hok).
    pose proof (data_len_nonneg a). subst n. unfold MAX_ACCOUNT_DATA_GROWTH_PER_TRANSACTION, MAX_ACCOUNT_DATA_LEN in *.
    rewrite sat_signed_id by (simpl; lia). unfold sat_add, word_max. lia. }
  destruct (violation_resize L D c Hok i a Ha n Hn Hg) as (Hrun & Hb1 & Hb). revert Hrun. cbv [mbind M_bind].
  destruct (accounts_update_resize_delta (data_len a) n (put i a (set_counter i (-1) c))) as [[c2 [[]|e]]|]; [|done..].
  intros ->. eexists _, _. split; [exact (violation_release L D c i Hc _ _ Hb1)|]. split_and!; [done..|].
  right. exists i. split; [done|]. by constructor.
Qed.
End Trace.
