(* ===== verification/ContextTheorems.v ===== *)
(** * Transaction context: what holds of every transaction

    The machine: a context with the references that are out. The theorems: no
    step panics; mutable references are exclusive; an instruction that ends
    without an error has neither made nor destroyed lamports; account data stays
    within the limits; and a program changes only what it owns and only through
    accounts its instruction made writable. *)

From S2P Require Import Prelude TransactionContext ContextSpec ContextTrace.
Import Ctx.

#[local] Arguments Zsum : simpl never.

Module Transactions.
Section Machine.
Context `{RL : RuntimeLaws}.
Implicit Types (c : TransactionContext) (b : Borrowed).

Record Machine : Type := MkMachine {
  mctx : TransactionContext;
  (** the mutable references, and the indices of the shared ones *)
  held : list Borrowed;
  shared : list nat
}.

Inductive TxOp : Type :=
| TConfigure (program : nat) (ias : list InstructionAccount) (dedup : list nat) (data : Bytes)
| TPush
| TPop
| TBorrow (i : nat)
| TUse (n : nat) (op : AccountOp)
| TDrop (n : nat)
| TShare (i : nat)
| TUnshare (n : nat)
| TReturn (program : Pubkey) (data : Bytes)
| TViolation (direct : bool) (region : Region) (reserved : Z) (is_load : bool) (vm_addr len : Z).

(** The machine after an operation on the context; an error is the program's to
    deal with, and the context stays as the operation left it. *)
Definition after {A} (m : Machine) (op : M A) (k : Machine -> A -> Machine) : option Machine :=
  match op (mctx m) with
  | None => None
  | Some (c, Ok x) => Some (k (MkMachine c (held m) (shared m)) x)
  | Some (c, Err _) => Some (MkMachine c (held m) (shared m))
  end.

Definition stay {A} (m : Machine) (_ : A) : Machine := m.

Definition borrow_current (i : nat) : M Borrowed :=
  x ← get_current_instruction_context; try_borrow_instruction_account x.2 i.

Definition step (m : Machine) (op : TxOp) : option Machine :=
  match op with
  | TConfigure p ias dm d => after m (configure_next_instruction p ias dm d) stay
  | TPush => after m push stay
  | TPop => after m pop stay
  | TBorrow i => after m (borrow_current i) (fun m b => MkMachine (mctx m) (b :: held m) (shared m))
  | TUse n op =>
      match held m !! n with
      | Some b => after m (run_op b op) stay
      | None => Some m
      end
  | TDrop n =>
      match held m !! n with
      | Some b => after m (drop_ref_mut (b_index b))
                    (fun m _ => MkMachine (mctx m) (delete n (held m)) (shared m))
      | None => Some m
      end
  | TShare i => after m (accounts_try_borrow i) (fun m _ => MkMachine (mctx m) (held m) (i :: shared m))
  | TUnshare n =>
      match shared m !! n with
      | Some i => after m (drop_ref i) (fun m _ => MkMachine (mctx m) (held m) (delete n (shared m)))
      | None => Some m
      end
  | TReturn p d => after m (set_return_data p d) stay
  | TViolation direct region reserved is_load vm_addr len =>
      after m (access_violation direct region reserved is_load vm_addr len) stay
  end.

(** The arguments are machine words. *)
Definition txop_ok (op : TxOp) : Prop :=
  match op with
  | TUse _ op => op_ok op
  | TViolation _ _ reserved _ _ _ => 0 <= reserved
  | _ => True
  end.

Definition run (m : Machine) (ops : list TxOp) : option Machine := foldM step m ops.

(** ** The invariant *)
Definition held_at (m : Machine) (i : nat) : nat := length (filter (fun b => b_index b = i) (held m)).
Definition shared_at (m : Machine) (i : nat) : nat := length (filter (fun j => j = i) (shared m)).

(** The counter of an account counts its references. *)
Definition counted (m : Machine) (i : nat) (x : Z) : Prop :=
  (held_at m i = 0%nat /\ x = Z.of_nat (shared_at m i) /\ x <= 127) \/
  (held_at m i = 1%nat /\ shared_at m i = 0%nat /\ x = -1).

Record refs_ok (m : Machine) : Prop := {
  refs_counted : forall i x, counters (mctx m) !! i = Some x -> counted m i x;
  refs_held : forall b, b ∈ held m -> (b_index b < length (counters (mctx m)))%nat;
  refs_shared : forall i, i ∈ shared m -> (i < length (counters (mctx m)))%nat
}.

Record machine_ok (L D : Z) (m : Machine) : Prop := {
  mok_books : books L D (mctx m);
  mok_frames : frames_ok (mctx m);
  mok_refs : refs_ok m
}.

(** Steps that leave the references alone. *)
Lemma refs_same m c : refs_ok m -> counters c = counters (mctx m) ->
  refs_ok (MkMachine c (held m) (shared m)).
Proof. intros [H1 H2 H3] Hc. split; simpl; rewrite ?Hc; done. Qed.

Lemma held_cons c b h sh i : held_at (MkMachine c (b :: h) sh) i =
  ((if decide (b_index b = i) then 1 else 0) + held_at (MkMachine c h sh) i)%nat.
Proof. unfold held_at. simpl. rewrite filter_cons. by case_decide. Qed.

Lemma shared_cons c h j sh i : shared_at (MkMachine c h (j :: sh)) i =
  ((if decide (j = i) then 1 else 0) + shared_at (MkMachine c h sh) i)%nat.
Proof. unfold shared_at. simpl. rewrite filter_cons. by case_decide. Qed.

Lemma filter_delete {A} (P : A -> Prop) `{!forall x, Decision (P x)} (l : list A) n x : l !! n = Some x ->
  length (filter P l) = ((if decide (P x) then 1 else 0) + length (filter P (delete n l)))%nat.
Proof.
  intros Hx. rewrite <- (take_drop_middle l n x Hx) at 1. rewrite delete_take_drop, !filter_app, !length_app, filter_cons.
  case_decide; simpl; lia.
Qed.

Lemma counters_lookup_set c i j x y : counters c !! i = Some y -> counters (set_counter i x c) !! j =
  if decide (i = j) then Some x else counters c !! j.
Proof.
  intros Hy. unfold counters. simpl. case_decide as Hd; [subst j|].
  - apply list_lookup_insert_eq. by eapply lookup_lt_Some.
  - by apply list_lookup_insert_ne.
Qed.

Lemma counters_length_set c i x : length (counters (set_counter i x c)) = length (counters c).
Proof. unfold counters. simpl. apply length_insert. Qed.

(** A mutable borrow of a free account. *)
Lemma refs_borrow m b : refs_ok m -> counters (mctx m) !! b_index b = Some 0 ->
  refs_ok (MkMachine (set_counter (b_index b) (-1) (mctx m)) (b :: held m) (shared m)).
Proof.
  intros [H1 H2 H3] Hc. split; simpl; rewrite ?counters_length_set.
  - intros i x. rewrite (counters_lookup_set _ _ _ _ _ Hc). unfold counted. rewrite held_cons.
    change (shared_at (MkMachine _ (b :: held m) (shared m)) i) with (shared_at m i).
    change (held_at (MkMachine _ (held m) (shared m)) i) with (held_at m i). case_decide as Hd.
    + subst i. intros [= <-]. right. destruct (H1 _ _ Hc) as [(-> & Hs & _)|(_ & _ & ?)]; [|lia]. split_and!; lia.
    + intros Hx. by apply H1.
  - intros b' [->|Hb]%elem_of_cons; [by eapply lookup_lt_Some|by apply H2].
  - done.
Qed.

Lemma refs_drop m n b : refs_ok m -> held m !! n = Some b ->
  exists x, counters (mctx m) !! b_index b = Some x /\
  refs_ok (MkMachine (set_counter (b_index b) (counter_release_borrow_mut x) (mctx m)) (delete n (held m)) (shared m)).
Proof.
  intros [H1 H2 H3] Hn. pose proof (list_elem_of_lookup_2 _ _ _ Hn) as Hin.
  destruct (lookup_lt_is_Some_2 _ _ (H2 b Hin)) as [x Hx]. exists x. split; [done|].
  pose proof (filter_delete (fun b' => b_index b' = b_index b) _ _ _ Hn) as Hb. rewrite decide_True in Hb by done.
  assert (x = -1) as ->.
  { destruct (H1 _ _ Hx) as [(Hh & _)|(_ & _ & ?)]; [|done]. unfold held_at in Hh. lia. }
  split; simpl; rewrite ?counters_length_set.
  - intros i y. rewrite (counters_lookup_set _ _ _ _ _ Hx). unfold counted.
    change (shared_at (MkMachine _ (delete n (held m)) (shared m)) i) with (shared_at m i).
    pose proof (filter_delete (fun b' => b_index b' = i) _ _ _ Hn) as Hbi.
    change (length (filter (fun b' => b_index b' = i) (held m))) with (held_at m i) in Hbi. case_decide as Hd.
    + subst i. intros [= <-]. left.
      destruct (H1 _ _ Hx) as [(Hh & _ & _)|(Hh & Hs & _)]; [lia|].
      unfold held_at. simpl. rewrite Hs. unfold counter_release_borrow_mut, sat_signed. simpl. split_and!; lia.
    + intros Hy. unfold held_at. simpl.
      specialize (H1 _ _ Hy). unfold counted in H1. rewrite Hbi in H1. done.
  - intros b' Hb'. apply H2. apply list_elem_of_In. apply list_elem_of_In in Hb'.
    rewrite delete_take_drop, in_app_iff in Hb'. rewrite <- (take_drop_middle _ _ _ Hn), in_app_iff. simpl. tauto.
  - done.
Qed.

Lemma refs_share m i x : refs_ok m -> counters (mctx m) !! i = Some x -> 0 <= x < 127 ->
  refs_ok (MkMachine (set_counter i (x + 1) (mctx m)) (held m) (i :: shared m)).
Proof.
  intros [H1 H2 H3] Hc Hx. split; simpl; rewrite ?counters_length_set.
  - intros j y. rewrite (counters_lookup_set _ _ _ _ _ Hc). unfold counted. rewrite shared_cons.
    change (held_at (MkMachine _ (held m) (i :: shared m)) j) with (held_at m j).
    change (shared_at (MkMachine _ (held m) (shared m)) j) with (shared_at m j). case_decide as Hd.
    + subst j. intros [= <-]. destruct (H1 _ _ Hc) as [(Hh & Hs & _)|(_ & _ & ?)]; [|lia]. left. split_and!; lia.
    + intros Hy. by apply H1.
  - done.
  - intros j [->|Hj]%elem_of_cons; [by eapply lookup_lt_Some|by apply H3].
Qed.

Lemma refs_unshare m n i : refs_ok m -> shared m !! n = Some i ->
  exists x, counters (mctx m) !! i = Some x /\
  refs_ok (MkMachine (set_counter i (counter_release_borrow x) (mctx m)) (held m) (delete n (shared m))).
Proof.
  intros [H1 H2 H3] Hn. pose proof (list_elem_of_lookup_2 _ _ _ Hn) as Hin.
  destruct (lookup_lt_is_Some_2 _ _ (H3 i Hin)) as [x Hx]. exists x. split; [done|].
  split; simpl; rewrite ?counters_length_set.
  - intros j y. rewrite (counters_lookup_set _ _ _ _ _ Hx). unfold counted.
    change (held_at (MkMachine _ (held m) (delete n (shared m))) j) with (held_at m j).
    pose proof (filter_delete (fun k => k = j) _ _ _ Hn) as Hbi.
    change (length (filter (fun k => k = j) (shared m))) with (shared_at m j) in Hbi. case_decide as Hd.
    + subst j. intros [= <-].
      destruct (H1 _ _ Hx) as [(Hh & Hs & ?)|(_ & Hs & _)]; [|lia]. left. unfold shared_at. simpl.
      unfold counter_release_borrow, sat_signed. simpl. split_and!; lia.
    + intros Hy. unfold shared_at. simpl.
      specialize (H1 _ _ Hy). unfold counted in H1. rewrite Hbi in H1. done.
  - done.
  - intros j Hj. apply H3. apply list_elem_of_In. apply list_elem_of_In in Hj.
    rewrite delete_take_drop, in_app_iff in Hj. rewrite <- (take_drop_middle _ _ _ Hn), in_app_iff. simpl. tauto.
Qed.
(** ** The steps *)

(** What a step may do to the accounts. *)
Definition account_change (m : Machine) (op : TxOp) (c' : TransactionContext) : Prop :=
  match op with
  | TUse n _ => c' = mctx m \/ exists b, held m !! n = Some b /\ effect b (mctx m) c'
  | TPush => only_sysvar (mctx m) (set_accounts (mctx m) (tx_accounts c'))
  | TViolation _ region _ _ _ _ =>
      c' = mctx m \/ exists i, region_account region = Some i /\ violation_effect (mctx m) i c'
  | _ => accs c' = accs (mctx m)
  end.

(** What a program can do between being called and returning, calls apart. *)
Definition program_op (op : TxOp) : bool :=
  match op with
  | TBorrow _ | TUse _ _ | TDrop _ | TShare _ | TUnshare _ | TReturn _ _ => true
  | _ => false
  end.

(** The instruction that runs. *)
Definition running (c : TransactionContext) : option InstructionFrame :=
  k ← last (instruction_stack c); instruction_trace c !! k.

(** The references the instruction took. *)
Definition taken_by (f : InstructionFrame) (b : Borrowed) : Prop :=
  b_program b = program_account_index_in_tx f /\ b_account b ∈ instruction_accounts f.

(** A program stays in its instruction, and takes references in no other. *)
Definition local_change (m : Machine) (op : TxOp) (m' : Machine) : Prop :=
  program_op op = true ->
  running (mctx m') = running (mctx m) /\
  forall b, b ∈ held m' -> b ∈ held m \/ exists f, running (mctx m) = Some f /\ taken_by f b.

Definition step_ok (L D : Z) (m : Machine) (op : TxOp) : Prop :=
  exists m', step m op = Some m' /\ machine_ok L D m' /\ account_change m op (mctx m') /\ local_change m op m'.

Lemma local_same m op m' : running (mctx m') = running (mctx m) -> held m' ⊆ held m -> local_change m op m'.
Proof. intros Hr Hh _. split; [done|]. intros b Hb. left. by apply Hh. Qed.

Lemma put_running i a' c : running (put i a' c) = running c.
Proof. unfold running. destruct (put_frames i a' c) as (-> & -> & _). done. Qed.


Section Steps.
Context (L D : Z) (m : Machine) (Hm : machine_ok L D m).

Lemma same_accounts_ok c : tx_accounts c = tx_accounts (mctx m) -> frames_ok c ->
  machine_ok L D (MkMachine c (held m) (shared m)).
Proof.
  intros Hc Hf. destruct Hm as [Hb _ Hr]. split; [by eapply books_ext|done|].
  apply refs_same; [done|]. unfold counters. by rewrite Hc.
Qed.

(** Nothing but counters moved. *)
Lemma counter_ok i x h sh : refs_ok (MkMachine (set_counter i x (mctx m)) h sh) ->
  machine_ok L D (MkMachine (set_counter i x (mctx m)) h sh).
Proof.
  intros Hr. destruct Hm as [Hb Hf _]. split; [by apply set_counter_books| |done]. by apply (frames_ext (mctx m)).
Qed.

Lemma machine_eta : MkMachine (mctx m) (held m) (shared m) = m.
Proof. by destruct m. Qed.

Lemma after_stay_ok {A} op (f : M A) c r : step m op = after m f stay -> f (mctx m) = Some (c, r) ->
  machine_ok L D (MkMachine c (held m) (shared m)) -> account_change m op c ->
  (program_op op = true -> running c = running (mctx m)) -> step_ok L D m op.
Proof.
  intros Hs Hf Hok Hc Hr. exists (MkMachine c (held m) (shared m)). split_and!; [|done|done|].
  - rewrite Hs. unfold after. rewrite Hf. by destruct r.
  - intros Hp. by apply (local_same m op); [apply Hr|..].
Qed.

Lemma frame_steps_ok p ias dm d : step_ok L D m (TConfigure p ias dm d).
Proof.
  destruct (configure_spec (mctx m) p ias dm d (mok_frames _ _ _ Hm)) as (c & Hc & Hta & _ & Hf).
  eapply after_stay_ok; [done|exact Hc|by apply same_accounts_ok| |done]. simpl. unfold accs. by rewrite Hta.
Qed.

Lemma push_ok : step_ok L D m TPush.
Proof.
  destruct (context_push_spec L D (mctx m) (mok_books _ _ _ Hm) (mok_frames _ _ _ Hm)) as (c & r & Hp & Hb & Hf & Hc & Hs & _).
  apply (after_stay_ok _ push c r); [done|done| |done|done]. split; [done..|]. apply refs_same; [apply Hm|done].
Qed.

Lemma pop_ok : step_ok L D m TPop.
Proof.
  destruct (context_pop_spec L D (mctx m) (mok_books _ _ _ Hm) (mok_frames _ _ _ Hm)) as (c & r & Hp & Hta & Hf & _).
  apply (after_stay_ok _ pop c r); [done|done|by apply same_accounts_ok| |done]. simpl. unfold accs. by rewrite Hta.
Qed.

Lemma return_ok p d : step_ok L D m (TReturn p d).
Proof.
  eapply after_stay_ok; [done|done| |done|done]. apply same_accounts_ok; [done|].
  by apply (frames_ext (mctx m)); [..|apply Hm].
Qed.

Lemma put_machine_ok i a' : books L D (put i a' (mctx m)) ->
  machine_ok L D (MkMachine (put i a' (mctx m)) (held m) (shared m)).
Proof.
  intros Hb. destruct (put_frames i a' (mctx m)) as (H1 & H2 & H3 & H4).
  split; [done|by apply (frames_ext (mctx m)); [..|apply Hm]|]. apply refs_same; [apply Hm|apply put_counters].
Qed.

Lemma unchanged_ok : machine_ok L D (MkMachine (mctx m) (held m) (shared m)).
Proof. by rewrite machine_eta. Qed.

Lemma violation_ok direct region reserved is_load vm_addr len : 0 <= reserved ->
  step_ok L D m (TViolation direct region reserved is_load vm_addr len).
Proof.
  intros Hr. destruct (access_violation_spec L D (mctx m) direct region reserved is_load vm_addr len
    (mok_books _ _ _ Hm) Hr) as (c & x & Hv & Hb & _ & Hc).
  eapply after_stay_ok; [done|exact Hv| |exact Hc|done].
  destruct Hc as [->|(i & _ & Hi)]; [apply unchanged_ok|]. destruct Hi; [apply unchanged_ok|by apply put_machine_ok..].
Qed.

(** A step that is not taken. *)
Lemma idle_ok op : step m op = Some m -> account_change m op (mctx m) -> step_ok L D m op.
Proof. intros Hs Hc. exists m. split_and!; [done..|]. by apply local_same. Qed.

Lemma use_ok n op : op_ok op -> step_ok L D m (TUse n op).
Proof.
  intros Hop. destruct (held m !! n) as [b|] eqn:Hn.
  2: { apply idle_ok; simpl; [by rewrite Hn|by left]. }
  assert (is_Some (accs (mctx m) !! b_index b)) as [a Ha].
  { apply lookup_lt_is_Some. rewrite <- (books_counters _ _ _ (mok_books _ _ _ Hm)).
    apply (refs_held _ (mok_refs _ _ _ Hm)). by eapply list_elem_of_lookup_2. }
  destruct (run_op_refines L D (mctx m) (mok_books _ _ _ Hm) b a Ha op Hop) as (c & r & Hrun & Heff).
  eapply after_stay_ok; [simpl; by rewrite Hn|exact Hrun| | |].
  - pose proof (effect_books _ _ _ _ _ (mok_books _ _ _ Hm) Heff) as Hb.
    destruct Heff; [apply unchanged_ok|by apply put_machine_ok].
  - right. by exists b.
  - intros _. destruct Heff; [done|apply put_running].
Qed.

(** A failed borrow. *)
Lemma refused_ok op : step m op = Some (MkMachine (mctx m) (held m) (shared m)) ->
  account_change m op (mctx m) -> step_ok L D m op.
Proof. rewrite machine_eta. apply idle_ok. Qed.

Lemma borrow_ok i : step_ok L D m (TBorrow i).
Proof.
  destruct (decide (instruction_stack (mctx m) = [])) as [Hs|Hs].
  { apply refused_ok; [|done]. simpl. unfold after, borrow_current, get_current_instruction_context.
    cbv [mbind M_bind reads]. by rewrite Hs. }
  destruct (run_current_context _ (mok_frames _ _ _ Hm) Hs) as (k & f & Hcur & Hf & Hk).
  destruct (get_instruction_account f i) as [ia|e] eqn:Hia; cycle 1.
  { apply refused_ok; [|done]. simpl. unfold after, borrow_current, try_borrow_instruction_account.
    cbv [mbind M_bind lift]. rewrite Hcur. simpl. by rewrite Hia. }
  destruct (run_try_borrow_mut L D (mctx m) (index_in_transaction ia) (mok_books _ _ _ Hm)) as [[e He]|(a & _ & Hc & Hb)].
  { apply refused_ok; [|done]. simpl. unfold after, borrow_current, try_borrow_instruction_account.
    cbv [mbind M_bind lift]. rewrite Hcur. simpl. by rewrite Hia, He. }
  set (b := MkBorrowed ia (program_account_index_in_tx f)).
  exists (MkMachine (set_counter (b_index b) (-1) (mctx m)) (b :: held m) (shared m)). split_and!.
  - simpl. unfold after, borrow_current, try_borrow_instruction_account.
    cbv [mbind M_bind lift]. rewrite Hcur. simpl. by rewrite Hia, Hb.
  - apply counter_ok, refs_borrow; [apply Hm|done].
  - done.
  - intros _. split; [done|]. intros b' [->|Hb']%elem_of_cons; [right|by left]. exists f.
    split; [unfold running; by rewrite Hk|]. split; [done|]. simpl. unfold get_instruction_account in Hia.
    destruct (instruction_accounts f !! i) as [ia'|] eqn:Hl; [|done].
    injection Hia as <-. by eapply list_elem_of_lookup_2.
Qed.

Lemma drop_ok n : step_ok L D m (TDrop n).
Proof.
  destruct (held m !! n) as [b|] eqn:Hn; [|apply idle_ok; simpl; [by rewrite Hn|done]].
  destruct (refs_drop m n b (mok_refs _ _ _ Hm) Hn) as (x & Hx & Hr).
  exists (MkMachine (set_counter (b_index b) (counter_release_borrow_mut x) (mctx m)) (delete n (held m)) (shared m)).
  split_and!; [|by apply counter_ok|done|].
  - simpl. rewrite Hn. unfold after. by rewrite (run_drop_ref_mut L D _ _ x (mok_books _ _ _ Hm) Hx).
  - apply local_same; [done|]. apply sublist_subseteq, sublist_delete.
Qed.

Lemma share_ok i : step_ok L D m (TShare i).
Proof.
  destruct (run_try_borrow L D (mctx m) i (mok_books _ _ _ Hm)) as [[e He]|(a & x & _ & Hx & Hr & Hb)].
  - apply refused_ok; [|done]. simpl. unfold after. by rewrite He.
  - exists (MkMachine (set_counter i (x + 1) (mctx m)) (held m) (i :: shared m)). split_and!; [| |done|by apply local_same].
    + simpl. unfold after. by rewrite Hb.
    + apply counter_ok, refs_share; [apply Hm|done|done].
Qed.

Lemma unshare_ok n : step_ok L D m (TUnshare n).
Proof.
  destruct (shared m !! n) as [i|] eqn:Hn; [|apply idle_ok; simpl; [by rewrite Hn|done]].
  destruct (refs_unshare m n i (mok_refs _ _ _ Hm) Hn) as (x & Hx & Hr).
  exists (MkMachine (set_counter i (counter_release_borrow x) (mctx m)) (held m) (delete n (shared m))).
  split_and!; [|by apply counter_ok|done|by apply local_same].
  simpl. rewrite Hn. unfold after. by rewrite (run_drop_ref _ _ x Hx).
Qed.

Lemma step_spec op : txop_ok op -> step_ok L D m op.
Proof.
  destruct op; intros Hop; eauto using frame_steps_ok, push_ok, pop_ok, borrow_ok, use_ok, drop_ok, share_ok,
    unshare_ok, return_ok, violation_ok.
Qed.
End Steps.

(** ** From the start of a transaction *)
Definition start (l : list KeyedAccount) (r : Rent) (stack_capacity trace_capacity : nat) : Machine :=
  MkMachine (context_new l r stack_capacity trace_capacity) [] [].

(** A loaded transaction: at most 256 accounts, lamports in 64 bits, and data that
    fits in memory. *)
Definition loaded (l : list KeyedAccount) : Prop :=
  (length l <= MAX_ACCOUNTS_PER_TRANSACTION)%nat /\ Forall (fun k => is_u64 (k_lamports k)) l /\
  Zsum (fun k => Z.of_nat (length (k_data k))) l <= 2 ^ 62.

Definition initial_lamports (l : list KeyedAccount) : Z := Zsum k_lamports l.
Definition initial_data (l : list KeyedAccount) : Z := Zsum (fun k => Z.of_nat (length (k_data k))) l.

Lemma start_ok l r sc tc : loaded l -> machine_ok (initial_lamports l) (initial_data l) (start l r sc tc).
Proof.
  intros (Hlen & Hlam & Hdata).
  assert (Forall (fun a => is_u64 (lamports a)) (account_of <$> l)) as Hr by (by rewrite Forall_fmap).
  pose proof (lamports_bound _ Hr) as Hb. rewrite Zsum_fmap, length_fmap in Hb.
  assert (0 <= initial_data l) by (apply Zsum_nonneg; intros; lia).
  split.
  - split; unfold accs, start, context_new, accounts_new, total_lamports, total_data, accs;
      cbn [mctx tx_accounts accounts borrow_counters touched_flags resize_delta lamports_delta];
      rewrite ?length_replicate, ?length_fmap, ?Zsum_fmap; try done.
    + apply Forall_fmap, Forall_true. by intros.
    + symmetry. apply Z.sub_diag.
    + symmetry. apply Z.sub_diag.
    + change (Zsum (fun x => lamports (account_of x)) l) with (initial_lamports l) in Hb.
      unfold MAX_ACCOUNTS_PER_TRANSACTION, word_max in *. split; [lia|done].
  - split; simpl; [done|by intros|lia|lia].
  - split; simpl; [|set_solver..]. intros i x. unfold counters. simpl. intros [-> _]%lookup_replicate. by left.
Qed.

Lemma context_run_ok L D ops : forall m, machine_ok L D m -> Forall txop_ok ops ->
  exists m', run m ops = Some m' /\ machine_ok L D m'.
Proof.
  induction ops as [|op ops IH]; intros m Hm Hops; [by exists m|]. apply Forall_cons in Hops as [Hop Hops].
  destruct (step_spec L D m Hm op Hop) as (m1 & Hs & Hm1 & _ & _). unfold run. simpl. rewrite Hs. by apply IH.
Qed.

(** ** Account data *)

(** The same account, its data as long as it was or within the limit. *)
Definition sized (a a' : Account) : Prop :=
  key a' = key a /\ rent_epoch a' = rent_epoch a /\
  (data_len a' = data_len a \/ data_len a' <= MAX_ACCOUNT_DATA_LEN).

#[local] Instance sized_preorder : PreOrder sized.
Proof.
  split; [intros a; unfold sized; auto|].
  intros a1 a2 a3 (K1 & E1 & H1) (K2 & E2 & H2). unfold sized. rewrite K2, E2. split_and!; [done..|].
  destruct H2 as [->|H2]; auto.
Qed.

Lemma Forall2_insert_r {A} (R : A -> A -> Prop) `{!Reflexive R} (l : list A) i a a' :
  l !! i = Some a -> R a a' -> Forall2 R l (<[i := a']> l).
Proof.
  intros Ha Hr. apply Forall2_same_length_lookup. split; [by rewrite length_insert|].
  intros j x y Hx. destruct (decide (i = j)) as [->|Hne].
  - rewrite list_lookup_insert_eq by (by eapply lookup_lt_Some). intros [= <-]. congruence.
  - rewrite list_lookup_insert_ne by done. intros Hy. assert (x = y) as -> by congruence. done.
Qed.

Lemma sized_resize a n : 0 <= n <= MAX_ACCOUNT_DATA_LEN -> sized a (view_resize a (Z.to_nat n)).
Proof. intros Hn. split_and!; [done..|]. right. unfold data_len, view_resize. simpl. rewrite resize_length. lia. Qed.

Lemma change_sized m op c' : account_change m op c' -> Forall2 sized (accs (mctx m)) (accs c').
Proof.
  destruct op; simpl; try (intros ->; done).
  - intros [Heq|(i & a & d & Ha & _ & _ & Hd & Heq)]; apply (f_equal accs) in Heq; unfold accs in Heq at 1; simpl in Heq;
      unfold accs at 2; rewrite Heq; [done|].
    apply (Forall2_insert_r _ _ _ a); [done|]. split_and!; [done..|]. left. unfold data_len. simpl. lia.
  - intros [->|(b & _ & [|a a' Ha Hal])]; [done..|]. rewrite (accs_put _ _ a) by done.
    apply (Forall2_insert_r _ _ _ a); [done|]. split_and!; [apply Hal..|]. destruct (allowed_length _ _ _ _ _ Hal) as [?|[? _]]; auto.
  - intros [->|(i & _ & [|a Ha|a n Ha Hn _])]; [done..| |]; rewrite (accs_put _ _ a) by done;
      apply (Forall2_insert_r _ _ _ a); try done. by apply sized_resize.
Qed.

Lemma run_sized L D ops : forall m m', machine_ok L D m -> Forall txop_ok ops -> run m ops = Some m' ->
  Forall2 sized (accs (mctx m)) (accs (mctx m')).
Proof.
  induction ops as [|op ops IH]; intros m m' Hm Hops; [by intros [= <-]|]. apply Forall_cons in Hops as [Hop Hops].
  destruct (step_spec L D m Hm op Hop) as (m1 & Hs & Hm1 & Hch & _). unfold run. simpl. rewrite Hs. intros Hrun.
  etrans; [by eapply change_sized|]. by apply (IH m1).
Qed.

(** ** One instruction *)

Definition writable_at (f : InstructionFrame) (j : nat) : Prop :=
  exists ia, ia ∈ instruction_accounts f /\ index_in_transaction ia = j /\ ia_is_writable ia = true.

(** What the program [p] may have done to the account: everything, if it owned it
    and the instruction made it writable. *)
Record guarded (p : option Pubkey) (writable : Prop) (a a' : Account) : Prop := {
  guarded_key : key a' = key a;
  guarded_foreign : p <> Some (owner a) ->
    owner a' = owner a /\ payload a' = payload a /\ executable a' = executable a /\ lamports a <= lamports a';
  guarded_readonly : ~ writable -> a' = a
}.

#[local] Instance guarded_preorder p w : PreOrder (guarded p w).
Proof.
  split; [by split|]. intros a1 a2 a3 [K1 F1 W1] [K2 F2 W2]. split; [congruence| |].
  - intros Hp. destruct (F1 Hp) as (Ho & Hd & He & Hl). rewrite <- Ho in Hp. destruct (F2 Hp) as (Ho' & Hd' & He' & Hl').
    split_and!; [congruence..|lia].
  - intros Hne. rewrite W2, W1 by done. done.
Qed.

Definition guards (p : option Pubkey) (f : InstructionFrame) (c c' : TransactionContext) : Prop :=
  forall j a, accs c !! j = Some a -> exists a', accs c' !! j = Some a' /\ guarded p (writable_at f j) a a'.

Lemma guards_same p f c c' : accs c' = accs c -> guards p f c c'.
Proof. intros Heq j a Ha. exists a. rewrite Heq. by split. Qed.

#[local] Instance Account_eq_dec : EqDecision Account.
Proof. solve_decision. Defined.

Lemma allowed_guarded p w c a a' (W : Prop) : allowed p w c a a' -> (w = true -> W) -> guarded p W a a'.
Proof.
  intros Hal HW. split; [apply Hal| |].
  - intros Hp. split_and!.
    + destruct (decide (owner a' = owner a)) as [|Hne]; [done|]. by destruct (allowed_owner _ _ _ _ _ Hal Hne).
    + destruct (decide (payload a' = payload a)) as [|Hne]; [done|]. by pose proof (allowed_data _ _ _ _ _ Hal Hne).
    + destruct (decide (executable a' = executable a)) as [|Hne]; [done|]. by pose proof (allowed_executable _ _ _ _ _ Hal Hne).
    + destruct (Z.le_gt_cases (lamports a) (lamports a')) as [|Hlt]; [done|]. by pose proof (allowed_spend _ _ _ _ _ Hal Hlt).
  - intros HnW. destruct (decide (a' = a)) as [|Hne]; [done|]. destruct HnW. apply HW.
    by apply (allowed_writable _ _ _ _ _ Hal).
Qed.

Record inside (L D : Z) (p : option Pubkey) (f : InstructionFrame) (m : Machine) : Prop := {
  inside_ok : machine_ok L D m;
  inside_running : running (mctx m) = Some f;
  inside_key : key <$> accs (mctx m) !! program_account_index_in_tx f = p;
  inside_held : Forall (taken_by f) (held m)
}.

Lemma effect_guards L D p f m b c' : inside L D p f m -> taken_by f b -> effect b (mctx m) c' -> guards p f (mctx m) c'.
Proof.
  intros [_ _ Hk _] [Hp Hin] [|a a' Ha Hal]; [by apply guards_same|].
  intros j x Hx. rewrite (accs_put _ _ a) by done. destruct (decide (b_index b = j)) as [<-|Hne].
  - rewrite list_lookup_insert_eq by (by eapply lookup_lt_Some). exists a'. split; [done|].
    assert (x = a) as -> by congruence. unfold program_key in Hal. rewrite Hp, Hk in Hal.
    eapply allowed_guarded; [done|]. intros Hw. by exists (b_account b).
  - rewrite list_lookup_insert_ne by done. by exists x.
Qed.

Lemma change_guards L D p f m op c' : inside L D p f m -> program_op op = true -> account_change m op c' ->
  guards p f (mctx m) c'.
Proof.
  intros Hin. destruct op; simpl; try done; try (intros _ ?; by apply guards_same).
  intros _ [->|(b & Hb & Heff)]; [by apply guards_same|]. eapply effect_guards; [done| |done].
  eapply Forall_forall; [apply Hin|]. by eapply list_elem_of_lookup_2.
Qed.

Lemma inside_next L D p f m m' : inside L D p f m -> machine_ok L D m' ->
  Forall2 sized (accs (mctx m)) (accs (mctx m')) -> running (mctx m') = running (mctx m) ->
  (forall b, b ∈ held m' -> b ∈ held m \/ taken_by f b) -> inside L D p f m'.
Proof.
  intros [_ Hrun Hk Hheld] Hok Hs Hr Hh. split; [done|congruence| |].
  - rewrite <- Hk. destruct (accs (mctx m) !! program_account_index_in_tx f) as [a|] eqn:Ha.
    + destruct (Forall2_lookup_l _ _ _ _ _ Hs Ha) as (a' & -> & Hka & _). simpl. congruence.
    + apply lookup_ge_None in Ha. rewrite (Forall2_length _ _ _ Hs) in Ha. by rewrite lookup_ge_None_2.
  - apply Forall_forall. intros b Hb. destruct (Hh b Hb) as [Hb'|]; [by eapply Forall_forall|done].
Qed.

Lemma inside_step L D p f m op : inside L D p f m -> program_op op = true -> txop_ok op ->
  exists m', step m op = Some m' /\ inside L D p f m' /\ guards p f (mctx m) (mctx m').
Proof.
  intros Hin Hp Hop. destruct (step_spec L D m (inside_ok _ _ _ _ _ Hin) op Hop) as (m' & Hs & Hok & Hch & Hloc).
  exists m'. split_and!; [done| |by eapply change_guards]. destruct (Hloc Hp) as [Hr Hh].
  eapply inside_next; [done..|by eapply change_sized|done|]. intros b Hb.
  destruct (Hh b Hb) as [Hb'|(f' & Hf' & Ht)]; [by left|right]. pose proof (inside_running _ _ _ _ _ Hin). congruence.
Qed.

Lemma guards_trans p f c1 c2 c3 : guards p f c1 c2 -> guards p f c2 c3 -> guards p f c1 c3.
Proof.
  intros H12 H23 j a Ha. destruct (H12 j a Ha) as (a1 & Ha1 & H1). destruct (H23 j a1 Ha1) as (a2 & Ha2 & H2).
  exists a2. split; [done|]. by etrans.
Qed.

(** ** A program with its memory

    What a program does within its instruction: operations on the context, regions
    that are mapped to accounts it has borrowed, and stores beyond the end of a
    region, which the violation handler deals with. *)
Record Program : Type := MkProgram {
  pmachine : Machine;
  pregions : list Region
}.

Inductive ProgramOp : Type :=
| PContext (op : TxOp)
| PModify (n : nat) (region : Region)
| PCreate (n : nat) (is_shared : bool) (vaddr : Z)
| PViolation (j : nat) (direct : bool) (reserved : Z) (is_load : bool) (vm_addr len : Z).

Definition map_region (s : Program) (n : nat) (map : Borrowed -> M Region) : option Program :=
  let m := pmachine s in
  match held m !! n with
  | None => Some s
  | Some b =>
      match map b (mctx m) with
      | None => None
      | Some (c, Ok region) => Some (MkProgram (MkMachine c (held m) (shared m)) (region :: pregions s))
      | Some (c, Err _) => Some (MkProgram (MkMachine c (held m) (shared m)) (pregions s))
      end
  end.

Definition program_step (s : Program) (op : ProgramOp) : option Program :=
  match op with
  | PContext op => (fun m => MkProgram m (pregions s)) <$> step (pmachine s) op
  | PModify n region => map_region s n (fun b => modify_memory_region_of_account b region)
  | PCreate n is_shared vaddr => map_region s n (fun b => create_memory_region_of_account b is_shared vaddr)
  | PViolation j direct reserved is_load vm_addr len =>
      let m := pmachine s in
      match pregions s !! j with
      | None => Some s
      | Some region =>
          match access_violation direct region reserved is_load vm_addr len (mctx m) with
          | None => None
          | Some (c, Ok region) => Some (MkProgram (MkMachine c (held m) (shared m)) (<[j := region]> (pregions s)))
          | Some (c, Err _) => Some (MkProgram (MkMachine c (held m) (shared m)) (pregions s))
          end
      end
  end.

Definition program_run (s : Program) (ops : list ProgramOp) : option Program := foldM program_step s ops.

Definition program_op_ok (op : ProgramOp) : Prop :=
  match op with
  | PContext op => program_op op = true /\ txop_ok op
  | PViolation _ _ reserved _ _ _ => 0 <= reserved
  | _ => True
  end.

(** A region that can grow maps an account the program owns and the instruction
    makes writable. *)
Definition mapped (p : option Pubkey) (f : InstructionFrame) (c : TransactionContext) (region : Region) : Prop :=
  forall i, region_account region = Some i ->
    writable_at f i /\ exists a, accs c !! i = Some a /\ p = Some (owner a).

(** The program has run from [c0]. *)
Record within (L D : Z) (p : option Pubkey) (f : InstructionFrame) (c0 : TransactionContext) (s : Program) : Prop := {
  within_inside : inside L D p f (pmachine s);
  within_guards : guards p f c0 (mctx (pmachine s));
  within_length : length (accs (mctx (pmachine s))) = length (accs c0);
  within_mapped : Forall (mapped p f c0) (pregions s)
}.

Lemma within_held L D p f c0 s b : within L D p f c0 s -> b ∈ held (pmachine s) ->
  exists a, accs (mctx (pmachine s)) !! b_index b = Some a.
Proof.
  intros [[Hok _ _ _] _ _ _] Hb. apply lookup_lt_is_Some. rewrite <- (books_counters _ _ _ (mok_books _ _ _ Hok)).
  by apply (refs_held _ (mok_refs _ _ _ Hok)).
Qed.

(** What the program owns now it owned when it started. *)
Lemma within_owned L D p f c0 s b a : within L D p f c0 s -> b ∈ held (pmachine s) ->
  accs (mctx (pmachine s)) !! b_index b = Some a ->
  is_writable b = true -> program_key (mctx (pmachine s)) b = Some (owner a) ->
  writable_at f (b_index b) /\ exists a0, accs c0 !! b_index b = Some a0 /\ p = Some (owner a0).
Proof.
  intros [[_ _ Hk Hheld] Hg Hlen _] Hb Ha Hw Ho. destruct (proj1 (Forall_forall _ _) Hheld b Hb) as [Hp Hia].
  unfold program_key in Ho. rewrite Hp, Hk in Ho. split; [by exists (b_account b)|].
  destruct (accs c0 !! b_index b) as [a0|] eqn:Ha0; [|apply lookup_ge_None in Ha0; apply lookup_lt_Some in Ha; lia].
  exists a0. split; [done|]. destruct (Hg _ _ Ha0) as (a1 & Ha1 & [_ Hf _]). assert (a1 = a) as -> by congruence.
  destruct (decide (p = Some (owner a0))) as [|Hne]; [done|]. destruct (Hf Hne) as [Heq _]. congruence.
Qed.

(** Steps that write one account in place. *)
Lemma within_put L D p f c0 s i a a' regions : within L D p f c0 s -> accs (mctx (pmachine s)) !! i = Some a ->
  sized a a' -> a' = a \/ (writable_at f i /\ exists a0, accs c0 !! i = Some a0 /\ p = Some (owner a0)) ->
  books L D (put i a' (mctx (pmachine s))) -> Forall (mapped p f c0) regions ->
  within L D p f c0 (MkProgram (MkMachine (put i a' (mctx (pmachine s))) (held (pmachine s)) (shared (pmachine s))) regions).
Proof.
  intros [Hin Hg Hlen _] Ha Hs Hor Hb Hm. pose proof (accs_put _ _ a a' Ha) as Hput. split; cbn [pmachine pregions mctx].
  - eapply inside_next; [exact Hin|by apply put_machine_ok; [apply Hin|]| |apply put_running|by left].
    cbn [mctx]. rewrite Hput. by apply (Forall2_insert_r _ _ _ a).
  - intros j x Hx. destruct (Hg j x Hx) as (y & Hy & Hgd). rewrite Hput.
    destruct (decide (i = j)) as [<-|Hne]; [|exists y; by rewrite list_lookup_insert_ne].
    rewrite list_lookup_insert_eq by (by eapply lookup_lt_Some). exists a'. split; [done|].
    assert (y = a) as -> by congruence. destruct Hor as [->|(Hw & a0 & Ha0 & Hp)]; [done|].
    assert (a0 = x) as -> by congruence. destruct Hgd as [Hk _ _], Hs as [Hka _]. split; [congruence|by intros []|by intros []].
  - by rewrite Hput, length_insert.
  - done.
Qed.

Lemma within_map L D p f c0 s n map : within L D p f c0 s ->
  (forall b a, accs (mctx (pmachine s)) !! b_index b = Some a -> maps (mctx (pmachine s)) b a (map b)) ->
  exists s', map_region s n map = Some s' /\ within L D p f c0 s'.
Proof.
  intros Hw Hmap. unfold map_region. destruct (held (pmachine s) !! n) as [b|] eqn:Hn; [|by exists s].
  apply list_elem_of_lookup_2 in Hn as Hb. destruct (within_held _ _ _ _ _ _ _ Hw Hb) as [a Ha].
  pose proof (inside_ok _ _ _ _ _ (within_inside _ _ _ _ _ _ Hw)) as Hok.
  destruct (Hmap b a Ha) as (c' & res & -> & Hc & Hres).
  assert (forall regions, Forall (mapped p f c0) regions ->
    within L D p f c0 (MkProgram (MkMachine c' (held (pmachine s)) (shared (pmachine s))) regions)) as Hnext.
  { intros regions Hreg. destruct Hc as [-> | ->]; [destruct s as [[] ?], Hw; by split|].
    apply (within_put _ _ _ _ _ _ _ a); try done; [by left|]. apply (put_books _ _ _ _ a); [apply Hok|done| | |].
    - exact (Forall_lookup_1 _ _ _ _ (books_range _ _ _ (mok_books _ _ _ Hok)) Ha).
    - exact (Forall_lookup_1 _ _ _ _ (books_vm_len _ _ _ (mok_books _ _ _ Hok)) Ha).
    - pose proof (books_growth _ _ _ (mok_books _ _ _ Hok)). lia. }
  destruct res as [region|e]; eexists; (split; [done|]); apply Hnext; [|apply Hw]. constructor; [|apply Hw].
  intros i Hi. destruct (Hres region i eq_refl Hi) as (-> & Hwr & Ho). by eapply within_owned.
Qed.

Lemma within_violation L D p f c0 s j direct reserved is_load vm_addr len : within L D p f c0 s -> 0 <= reserved ->
  exists s', program_step s (PViolation j direct reserved is_load vm_addr len) = Some s' /\ within L D p f c0 s'.
Proof.
  intros Hw Hr. simpl. destruct (pregions s !! j) as [region|] eqn:Hj; [|by exists s].
  pose proof (inside_ok _ _ _ _ _ (within_inside _ _ _ _ _ _ Hw)) as Hok.
  destruct (access_violation_spec L D _ direct region reserved is_load vm_addr len (mok_books _ _ _ Hok) Hr)
    as (c' & x & -> & Hb & Hx & Hc).
  pose proof (Forall_lookup_1 _ _ _ _ (within_mapped _ _ _ _ _ _ Hw) Hj) as Hmap.
  assert (Forall (mapped p f c0) (<[j := x]> (pregions s))) as Hregs.
  { apply Forall_insert; [apply Hw|]. intros i Hi. apply Hmap. by rewrite <- Hx. }
  eexists. split; [done|]. destruct Hc as [->|(i & Hi & He)]; [destruct s as [[] ?], Hw; by split|].
  destruct He as [|a Ha|a n Ha Hn _]; [destruct s as [[] ?], Hw; by split|..].
  - apply (within_put _ _ _ _ _ _ _ a); try done. by left.
  - apply (within_put _ _ _ _ _ _ _ a); try done; [by apply sized_resize|right]. by apply Hmap.
Qed.

Lemma within_step L D p f c0 s op : within L D p f c0 s -> program_op_ok op ->
  exists s', program_step s op = Some s' /\ within L D p f c0 s'.
Proof.
  intros Hw Hop. pose proof (mok_books _ _ _ (inside_ok _ _ _ _ _ (within_inside _ _ _ _ _ _ Hw))) as Hbooks.
  destruct op as [op|n region|n sh vaddr|]; simpl in Hop.
  - destruct Hop as [Hp Hop]. destruct Hw as [Hin Hg Hlen Hm]. simpl.
    destruct (inside_step _ _ _ _ _ _ Hin Hp Hop) as (m' & Hs & Hin' & Hg'). rewrite Hs. eexists. split; [done|].
    split; [done|by eapply guards_trans| |done].
    destruct (step_spec L D _ (inside_ok _ _ _ _ _ Hin) op Hop) as (m1 & Hs1 & _ & Hch & _).
    assert (m1 = m') as -> by congruence. rewrite <- Hlen. symmetry. exact (Forall2_length _ _ _ (change_sized _ _ _ Hch)).
  - apply within_map; [done|]. intros b a Ha. by eapply run_modify_region.
  - apply within_map; [done|]. intros b a Ha. by eapply run_create_region.
  - by apply within_violation.
Qed.

Lemma within_run L D p f c0 ops : forall s, within L D p f c0 s -> Forall program_op_ok ops ->
  exists s', program_run s ops = Some s' /\ within L D p f c0 s'.
Proof.
  induction ops as [|op ops IH]; intros s Hw Hops; [by exists s|]. apply Forall_cons in Hops as [Hop Hops].
  destruct (within_step _ _ _ _ _ _ _ Hw Hop) as (s1 & Hs & Hw1). unfold program_run. simpl. rewrite Hs. by apply IH.
Qed.

(** ** The theorems *)
Section Theorems.
Context (l : list KeyedAccount) (r : Rent) (sc tc : nat).

Lemma record_lamports c : Zsum k_lamports (er_accounts (execution_record c)) = total_lamports c.
Proof. unfold execution_record, deconstruct. cbn [er_accounts]. by rewrite Zsum_fmap. Qed.

(** Whether a further reference can be taken. *)
Lemma borrow_verdicts L D m i : machine_ok L D m -> (i < length (counters (mctx m)))%nat ->
  (exists c, accounts_try_borrow_mut i (mctx m) = Some (c, Ok tt)) <-> held_at m i = 0%nat /\ shared_at m i = 0%nat.
Proof.
  intros Hm [x Hx]%lookup_lt_is_Some. pose proof (refs_counted _ (mok_refs _ _ _ Hm) _ _ Hx) as Hc.
  destruct (run_try_borrow_mut L D (mctx m) i (mok_books _ _ _ Hm)) as [[e He]|(a & _ & H0 & Hb)].
  - split; [rewrite He; by intros [? ?]|]. intros [Hh Hs]. exfalso.
    assert (x = 0) as -> by (destruct Hc as [(_ & -> & _)|(? & _)]; lia).
    assert (is_Some (accs (mctx m) !! i)) as [a Ha].
    { apply lookup_lt_is_Some. rewrite <- (books_counters _ _ _ (mok_books _ _ _ Hm)). by eapply lookup_lt_Some. }
    revert He. unfold accounts_try_borrow_mut. cbv [mbind M_bind reads]. fold (counters (mctx m)). rewrite Hx. simpl.
    unfold accs in Ha. by rewrite Ha.
  - split; [|intros _; by eexists]. intros _. assert (x = 0) as -> by congruence.
    destruct Hc as [(Hh & Hs & _)|(_ & _ & ?)]; [|lia]. split; [done|lia].
Qed.

(** C4: Whatever the programs of a transaction do, no operation of the context
    panics, and whenever an instruction ends without an error, the accounts hold
    as many lamports as the transaction was loaded with; so they do whenever a
    program calls another one. Held together with [pop] rejecting an unbalanced
    instruction, no lamport is made or destroyed. *)
Theorem context_conserves_lamports ops : loaded l -> Forall txop_ok ops ->
  exists m c res, run (start l r sc tc) ops = Some m /\
    pop (mctx m) = Some (c, res) /\
    (res = Ok tt -> Zsum k_lamports (er_accounts (execution_record c)) = initial_lamports l) /\
    (exists c' res', push (mctx m) = Some (c', res') /\
      (res' = Ok tt -> instruction_stack (mctx m) <> [] -> total_lamports (mctx m) = initial_lamports l)).
Proof.
  intros Hl Hops. destruct (context_run_ok _ _ ops _ (start_ok l r sc tc Hl) Hops) as (m & Hrun & Hm).
  destruct (context_pop_spec _ _ _ (mok_books _ _ _ Hm) (mok_frames _ _ _ Hm)) as (c & res & Hp & Hta & _ & Hres & _).
  destruct (context_push_spec _ _ _ (mok_books _ _ _ Hm) (mok_frames _ _ _ Hm)) as (c' & res' & Hp' & _ & _ & _ & _ & Hres').
  exists m, c, res. split_and!; [done..| |].
  - intros Hok. rewrite record_lamports. unfold total_lamports, accs. rewrite Hta. by apply Hres.
  - exists c', res'. split; [done|]. intros Hok Hne. by destruct (Hres' Hok) as [[?|?] _].
Qed.

(** C30: At every point of a transaction there is at most one mutable reference to
    an account, and none beside shared ones; and a mutable borrow succeeds exactly
    when no reference to the account is out. *)
Theorem context_borrows_exclusive ops : loaded l -> Forall txop_ok ops ->
  exists m, run (start l r sc tc) ops = Some m /\
    forall i, (i < length l)%nat ->
      (held_at m i <= 1)%nat /\ (held_at m i = 1%nat -> shared_at m i = 0%nat) /\
      ((exists c, accounts_try_borrow_mut i (mctx m) = Some (c, Ok tt)) <->
        held_at m i = 0%nat /\ shared_at m i = 0%nat).
Proof.
  intros Hl Hops. destruct (context_run_ok _ _ ops _ (start_ok l r sc tc Hl) Hops) as (m & Hrun & Hm).
  exists m. split; [done|]. intros i Hi.
  assert (i < length (counters (mctx m)))%nat as Hi'.
  { unfold counters. rewrite (books_counters _ _ _ (mok_books _ _ _ Hm)).
    rewrite <- (Forall2_length _ _ _ (run_sized _ _ ops _ _ (start_ok l r sc tc Hl) Hops Hrun)).
    unfold accs. simpl. by rewrite length_fmap. }
  destruct (lookup_lt_is_Some_2 _ _ Hi') as [x Hx]. pose proof (refs_counted _ (mok_refs _ _ _ Hm) _ _ Hx) as Hc.
  split_and!; [destruct Hc as [(-> & _)|(-> & _)]; lia|destruct Hc as [(-> & _)|(_ & ? & _)]; [lia|done]|].
  by eapply borrow_verdicts.
Qed.

(** C31: At every point of a transaction the accounts are the loaded ones in their
    order, each with data as long as when it was loaded or within 10 MiB; all
    together have grown by no more than 20 MiB; and the record of the execution
    reports the growth as it is. *)
Theorem context_data_bounded ops : loaded l -> Forall txop_ok ops ->
  exists m, run (start l r sc tc) ops = Some m /\
    Forall2 sized (account_of <$> l) (accs (mctx m)) /\
    total_data (mctx m) <= initial_data l + MAX_ACCOUNT_DATA_GROWTH_PER_TRANSACTION /\
    er_accounts_resize_delta (execution_record (mctx m)) = total_data (mctx m) - initial_data l.
Proof.
  intros Hl Hops. destruct (context_run_ok _ _ ops _ (start_ok l r sc tc Hl) Hops) as (m & Hrun & Hm).
  exists m. pose proof (books_growth _ _ _ (mok_books _ _ _ Hm)). pose proof (books_data _ _ _ (mok_books _ _ _ Hm)).
  split_and!; [done| |lia|done]. exact (run_sized _ _ ops _ _ (start_ok l r sc tc Hl) Hops Hrun).
Qed.

(** C16: Between being called and calling another program or returning, a program
    changes only what it may, whatever references it takes, regions it maps and
    stores beyond a region it makes. An account it does not own keeps its owner, its
    data and its executable flag and loses no lamports; an account that no entry of
    the instruction makes writable stays as it is. At the start it holds no mutable
    references, and regions it has from before, if any, map accounts it may change. *)
Theorem program_access_controlled before ops m f regions :
  let p := key <$> accs (mctx m) !! program_account_index_in_tx f in
  loaded l -> Forall txop_ok before -> run (start l r sc tc) before = Some m ->
  held m = [] -> running (mctx m) = Some f -> Forall (mapped p f (mctx m)) regions -> Forall program_op_ok ops ->
  exists s, program_run (MkProgram m regions) ops = Some s /\ guards p f (mctx m) (mctx (pmachine s)).
Proof.
  intros p Hl Hbefore Hrun Hheld Hf Hregs Hops.
  destruct (context_run_ok _ _ before _ (start_ok l r sc tc Hl) Hbefore) as (m0 & Hrun0 & Hm).
  rewrite Hrun in Hrun0. injection Hrun0 as <-.
  destruct (within_run (initial_lamports l) (initial_data l) p f (mctx m) ops (MkProgram m regions)) as (s & Hs & Hw);
    [|done|by exists s; split; [|apply Hw]].
  split; [split; [done..|simpl; by rewrite Hheld]|by apply guards_same|done|done].
Qed.
End Theorems.
End Machine.

(** ** A runtime and a transaction *)
Definition demo_store (d : Bytes) (i : Z) : result InstructionError Bytes :=
  if (length d <? 2)%nat then Err AccountDataTooSmall
  else Ok (take (length d - 2) d ++ [i mod 256; i / 256]).

#[local] Instance demo_runtime : Runtime := {|
  Rent := Z; is_exempt r balance len := r * (128 + len) <=? balance;
  instructions_id := 90; sysvar_id := 91; store_current_index_checked := demo_store
|}.

#[local] Instance demo_runtime_laws : RuntimeLaws demo_runtime.
Proof.
  split. intros d i d'. simpl. unfold demo_store. destruct (Nat.ltb_spec (length d) 2); [done|].
  intros [= <-]. rewrite length_app, length_take. simpl. lia.
Qed.

Definition demo_rent : @Rent demo_runtime := 2.

(** The program 7, two accounts it owns, one of another program, the sysvar. *)
Definition demo_accounts : list KeyedAccount :=
  [MkKeyedAccount 7 1 1 0 true []; MkKeyedAccount 20 7 500 0 false [1; 2; 3];
   MkKeyedAccount 21 7 0 0 false []; MkKeyedAccount 22 9 40 0 false [8];
   MkKeyedAccount 90 91 1 0 false [0; 0; 0; 0]].

Definition demo_call : list TxOp :=
  [TConfigure 0 [MkInstructionAccount 1 true true; MkInstructionAccount 2 false true;
                 MkInstructionAccount 3 false true; MkInstructionAccount 1 false false] [] [5]; TPush].

(** Moves 100 lamports, grows an account, fails to spend what it does not own. *)
Definition demo_body : list TxOp :=
  [TBorrow 0; TUse 0 (OSubLamports 100); TBorrow 1; TUse 0 (OSetLength 64); TUse 0 (OAddLamports 60);
   TBorrow 2; TUse 0 (OSubLamports 1); TUse 0 (OSetData []); TUse 0 (OAddLamports 40); TBorrow 3; TShare 4;
   TUse 2 (OSetOwner 9); TDrop 0; TDrop 0; TDrop 0; TUnshare 0; TReturn 7 [1]].

Lemma context_conserves_lamports_witness :
  exists m c res, run (start demo_accounts demo_rent 5 64) (demo_call ++ demo_body) = Some m /\
    pop (mctx m) = Some (c, res) /\
    (res = Ok tt -> Zsum k_lamports (er_accounts (execution_record c)) = initial_lamports demo_accounts) /\
    (exists c' res', push (mctx m) = Some (c', res') /\
      (res' = Ok tt -> instruction_stack (mctx m) <> [] -> total_lamports (mctx m) = initial_lamports demo_accounts)).
Proof.
  apply (context_conserves_lamports demo_accounts demo_rent 5 64 (demo_call ++ demo_body)).
  - split_and!; [vm_compute; lia|repeat constructor; vm_compute; done|vm_compute; done].
  - repeat constructor; vm_compute; done.
Defined.

(** It ends without an error. *)
Example demo_pops : (snd <$> (run (start demo_accounts demo_rent 5 64) (demo_call ++ demo_body) ≫= fun m => pop (mctx m)))
  = Some (Ok tt).
Proof. vm_compute. reflexivity. Qed.

Lemma context_borrows_exclusive_witness :
  exists m, run (start demo_accounts demo_rent 5 64) (demo_call ++ take 11 demo_body) = Some m /\
    forall i, (i < length demo_accounts)%nat ->
      (held_at m i <= 1)%nat /\ (held_at m i = 1%nat -> shared_at m i = 0%nat) /\
      ((exists c, accounts_try_borrow_mut i (mctx m) = Some (c, Ok tt)) <->
        held_at m i = 0%nat /\ shared_at m i = 0%nat).
Proof.
  apply (context_borrows_exclusive demo_accounts demo_rent 5 64 (demo_call ++ take 11 demo_body)).
  - split_and!; [vm_compute; lia|repeat constructor; vm_compute; done|vm_compute; done].
  - repeat constructor; vm_compute; done.
Defined.

Lemma context_data_bounded_witness :
  exists m, run (start demo_accounts demo_rent 5 64) (demo_call ++ demo_body) = Some m /\
    Forall2 sized (account_of <$> demo_accounts) (accs (mctx m)) /\
    total_data (mctx m) <= initial_data demo_accounts + MAX_ACCOUNT_DATA_GROWTH_PER_TRANSACTION /\
    er_accounts_resize_delta (execution_record (mctx m)) = total_data (mctx m) - initial_data demo_accounts.
Proof.
  apply (context_data_bounded demo_accounts demo_rent 5 64 (demo_call ++ demo_body)).
  - split_and!; [vm_compute; lia|repeat constructor; vm_compute; done|vm_compute; done].
  - repeat constructor; vm_compute; done.
Defined.

Definition demo_called : Machine := default (start demo_accounts demo_rent 5 64) (run (start demo_accounts demo_rent 5 64) demo_call).
Definition demo_frame : InstructionFrame := default frame_default (running (mctx demo_called)).

(** Maps the account it owns in both ways and one it does not own; grows the first
    by a store beyond its end, tries to grow the other. *)
Definition demo_stores : list ProgramOp :=
  [PContext (TBorrow 0); PCreate 0 true 4000; PModify 0 (MkRegion 5000 0 false None); PContext (TDrop 0);
   PContext (TBorrow 2); PModify 0 (MkRegion 6000 0 false None); PContext (TDrop 0);
   PViolation 1 false 10 false 5000 8; PViolation 0 false 10 false 6000 8] ++ (PContext <$> demo_body).

Example demo_grows : (fun s => data_len <$> accs (mctx (pmachine s))) <$> program_run (MkProgram demo_called []) (take 9 demo_stores)
  = Some [0; 10; 0; 1; 4].
Proof. vm_compute. reflexivity. Qed.

Lemma program_access_controlled_witness :
  exists s, program_run (MkProgram demo_called []) demo_stores = Some s /\
    guards (key <$> accs (mctx demo_called) !! program_account_index_in_tx demo_frame) demo_frame
      (mctx demo_called) (mctx (pmachine s)).
Proof.
  apply (program_access_controlled demo_accounts demo_rent 5 64 demo_call demo_stores demo_called demo_frame []).
  - split_and!; [vm_compute; lia|repeat constructor; vm_compute; done|vm_compute; done].
  - repeat constructor; vm_compute; done.
  - vm_compute. reflexivity.
  - vm_compute. reflexivity.
  - vm_compute. reflexivity.
  - constructor.
  - repeat constructor; vm_compute; done.
Defined.
End Transactions.
