(* ===== verification/Builtin.v ===== *)
(** * Builtin programs

    What the builtin programs share: the scope of a borrowed account, and the sysvars
    that are read after a check of the account that stands for them
    (src/program-runtime/src/sysvar_cache.rs). *)

From S2P Require Import Prelude TransactionContext.
Import Ctx.

Module Builtin.
Section Shared.
Context `{RT : Runtime}.

(** A borrow and its release at the end of its scope, on every way out. *)
Definition with_borrowed {A} (frame : InstructionFrame) (i : nat) (k : Borrowed -> M A) : M A :=
  b ← try_borrow_instruction_account frame i;
  r ← attempt (k b);
  _ ← drop_ref_mut (b_index b);
  lift r.

(** [get_sysvar_with_account_check]. *)
Definition check_sysvar_account (id : Pubkey) (frame : InstructionFrame) (i : nat) : M unit :=
  k ← get_key_of_instruction_account frame i;
  if k =? id then mret tt else raise InvalidArgument.

Definition sysvar_with_account_check {A} (id : Pubkey) (sysvar : result InstructionError A)
    (frame : InstructionFrame) (i : nat) : M A :=
  _ ← check_sysvar_account id frame i; lift sysvar.

End Shared.
End Builtin.
