(* ===== verification/BuiltinRuns.v ===== *)
(** * Builtin programs: running with one borrowed account

    A triple for computations that change nothing but the account they have
    borrowed, with its rule for sequences, and the triples of the operations builtin
    programs use; the scope of a borrow; and what the readers of an instruction say:
    keys, signatures and sysvars. *)

From S2P Require Import Prelude TransactionContext ContextSpec ContextTrace Builtin.
Import Ctx Builtin.

Section Runs.
Context `{RL : RuntimeLaws} (L D : Z) (b : Borrowed).
Implicit Types (c : TransactionContext) (a : Account).

Definition has c a : Prop := books L D c /\ accs c !! b_index b = Some a.
Definition moved c c' a' : Prop := c' = c \/ c' = put (b_index b) a' c.

(** [m] does not panic; it changes at most the borrowed account, which ends as [a'];
    the books stay right; and [Q] holds of the account and the outcome. *)
Definition runs {A} (m : M A) c (Q : Account -> result InstructionError A -> Prop) : Prop :=
  exists c' r a', m c = Some (c', r) /\ moved c c' a' /\ has c' a' /\ Q a' r.

Lemma put_put i a1 a2 c a : accs c !! i = Some a -> put i a2 (put i a1 c) = put i a2 c.
Proof.
  intros Ha. unfold put. unfold accs in Ha. rewrite Ha. simpl.
  rewrite list_lookup_insert_eq by (by eapply lookup_lt_Some). simpl. unfold set_accounts. simpl.
  rewrite !list_insert_insert_eq. do 2 f_equal; lia.
Qed.

Lemma moved_trans c c1 c2 a a1 a2 : has c a -> moved c c1 a1 -> has c1 a1 -> moved c1 c2 a2 -> has c2 a2 ->
  moved c c2 a2.
Proof.
  intros [_ Ha] [->| ->] [_ H1] [->| ->] [_ H2]; [by left|by right| |].
  - right. congruence.
  - right. by eapply put_put.
Qed.

Lemma runs_bind {A B} (m : M A) (k : A -> M B) c a Q : has c a ->
  runs m c (fun a1 r => match r with
                        | Ok x => forall c1, moved c c1 a1 -> has c1 a1 -> runs (k x) c1 Q
                        | Err e => Q a1 (Err e)
                        end) ->
  runs (m ≫= k) c Q.
Proof.
  intros Ha (c1 & r & a1 & Hm & Hmv & H1 & HQ). unfold runs. cbv [mbind M_bind]. rewrite Hm.
  destruct r as [x|e]; [|by exists c1, (Err e), a1].
  destruct (HQ c1 Hmv H1) as (c2 & r2 & a2 & Hk & Hmv2 & H2 & HQ2). exists c2, r2, a2.
  split_and!; [done| |done|done]. by eapply moved_trans.
Qed.

Lemma runs_here {A} (m : M A) c a r Q : has c a -> m c = Some (c, r) -> Q a r -> runs m c Q.
Proof. intros Ha Hm HQ. exists c, r, a. split_and!; [done|by left|done|done]. Qed.

Lemma runs_mono {A} (m : M A) c Q (R : Account -> result InstructionError A -> Prop) :
  runs m c Q -> (forall a r, Q a r -> R a r) -> runs m c R.
Proof. intros (c' & r & a' & Hm & Hmv & Ha & HQ) HR. exists c', r, a'. auto. Qed.

(** A computation that changes nothing. *)
Lemma runs_read {A B} (m : M A) (k : A -> M B) c a r Q : has c a -> m c = Some (c, r) ->
  match r with Ok x => runs (k x) c Q | Err e => Q a (Err e) end -> runs (m ≫= k) c Q.
Proof.
  intros Ha Hm HQ. destruct r as [x|e].
  - destruct HQ as (c' & r & a' & Hk & Hrest). exists c', r, a'. split; [|done]. cbv [mbind M_bind]. by rewrite Hm.
  - exists c, (Err e), a. cbv [mbind M_bind]. rewrite Hm. split_and!; [done|by left|done|done].
Qed.

Lemma runs_account {B} (k : Account -> M B) c a Q : has c a -> runs (k a) c Q -> runs (borrowed_account b ≫= k) c Q.
Proof. intros Ha. apply (runs_read _ _ _ a (Ok a)); [done|]. apply run_borrowed, Ha. Qed.

Lemma runs_lift {A B} (r : result InstructionError A) (k : A -> M B) c a Q : has c a ->
  match r with Ok x => runs (k x) c Q | Err e => Q a (Err e) end -> runs (lift r ≫= k) c Q.
Proof. intros Ha. by apply (runs_read _ _ _ a r). Qed.

Lemma runs_ok_or {A B} (o : option A) e (k : A -> M B) c a Q : has c a ->
  match o with Some x => runs (k x) c Q | None => Q a (Err e) end -> runs (ok_or o e ≫= k) c Q.
Proof. intros Ha HQ. destruct o as [x|]; [apply (runs_read _ _ _ a (Ok x))|apply (runs_read _ _ _ a (Err e))]; done. Qed.

Lemma runs_raise {A} e c a (Q : Account -> result InstructionError A -> Prop) : has c a -> Q a (Err e) -> runs (raise e) c Q.
Proof. intros Ha. by apply (runs_here _ _ a (Err e)). Qed.

Lemma runs_ret {A} (x : A) c a Q : has c a -> Q a (Ok x) -> runs (mret x) c Q.
Proof. intros Ha. by apply (runs_here _ _ a (Ok x)). Qed.

Lemma runs_attempt {A} (m : M A) c Q : runs m c (fun a r => Q a (Ok r)) -> runs (attempt m) c Q.
Proof.
  intros (c' & r & a' & Hm & Hmv & Ha & HQ). exists c', (Ok r), a'. unfold attempt. by rewrite Hm.
Qed.

(** ** The operations on the account *)

(** Everything but the data. *)
Definition same_but_data a a' : Prop :=
  key a' = key a /\ owner a' = owner a /\ lamports a' = lamports a /\ executable a' = executable a /\
  rent_epoch a' = rent_epoch a.

Lemma same_but_data_refl a : same_but_data a a.
Proof. done. Qed.

Lemma same_but_data_trans a1 a2 a3 : same_but_data a1 a2 -> same_but_data a2 a3 -> same_but_data a1 a3.
Proof. intros (? & ? & ? & ? & ?) (? & ? & ? & ? & ?). split_and!; congruence. Qed.

Lemma has_put c a a' : has c a -> allowed (program_key c b) (is_writable b) c a a' ->
  has (put (b_index b) a' c) a'.
Proof.
  intros [Hb Ha] Hal. split; [|by eapply put_lookup]. eapply effect_books; [done|]. by econstructor.
Qed.

Definition same_id a a' : Prop :=
  key a' = key a /\ owner a' = owner a /\ executable a' = executable a /\ rent_epoch a' = rent_epoch a.

Lemma same_but_data_id a a' : same_but_data a a' -> same_id a a'.
Proof. intros (? & ? & ? & ? & ?). by split_and!. Qed.

(** An operation whose outcome is known exactly. *)
Lemma runs_put {A} (m : M A) c a a' r Q : has c a -> m c = Some (put (b_index b) a' c, r) ->
  allowed (program_key c b) (is_writable b) c a a' -> Q a' r -> runs m c Q.
Proof.
  intros Ha Hm Hal HQ. exists (put (b_index b) a' c), r, a'. split_and!; [done|by right| |done]. by eapply has_put.
Qed.

(** The program may change the data. *)
Definition changeable c a : Prop := is_writable b = true /\ program_key c b = Some (owner a).

Lemma view_same c a : has c a -> view_set_data a (payload a) = a.
Proof.
  intros [Hb Ha]. pose proof (vm_len_ok L D c Hb b a Ha) as Hvm. destruct a. unfold view_set_data, data_len in *. simpl in *.
  by rewrite Hvm.
Qed.

Lemma view_write_same c a d : has c a -> length d = length (payload a) -> view_write a d = view_set_data a d.
Proof.
  intros [Hb Ha] Hd. pose proof (vm_len_ok L D c Hb b a Ha) as Hvm. destruct a.
  unfold view_write, view_set_data, data_len in *. simpl in *. by rewrite Hvm, Hd.
Qed.

(** What [bytes] leaves of the data it is written over. *)
Definition over (bytes d : Bytes) : option Bytes :=
  if (length bytes <=? length d)%nat then Some (bytes ++ drop (length bytes) d) else None.

Lemma runs_write_state c a ser : has c a ->
  runs (set_state b ser) c (fun a' r => same_but_data a a' /\
    (r = Ok tt -> changeable c a /\
      exists bytes d, ser = Some bytes /\ over bytes (payload a) = Some d /\ a' = view_set_data a d)).
Proof.
  intros H. pose proof H as [Hb Ha]. unfold set_state, over.
  destruct (run_get_data_mut L D c Hb b a Ha) as [[e He]|(Hw & Ho & Hd)].
  { apply (runs_read _ _ _ a (Err e)); done. }
  assert (allowed (program_key c b) (is_writable b) c a a) as Hsame by (by eapply allowed_same).
  destruct ser as [bytes|]; cycle 1.
  { apply (runs_put _ _ a a (Err GenericError)); [done| |done|done]. cbv [mbind M_bind]. by rewrite Hd. }
  destruct (Nat.ltb_spec (length (payload a)) (length bytes)) as [Hlt|Hle].
  { apply (runs_put _ _ a a (Err AccountDataTooSmall)); [done| |done|done]. cbv [mbind M_bind]. rewrite Hd. simpl.
    by rewrite (proj2 (Nat.ltb_lt _ _) Hlt). }
  assert (length (bytes ++ drop (length bytes) (payload a)) = length (payload a)) as Hlen
    by (rewrite length_app, length_drop; lia).
  apply (runs_put _ _ a (view_write a (bytes ++ drop (length bytes) (payload a))) (Ok tt)); [done| | |].
  - cbv [mbind M_bind]. rewrite Hd. simpl. rewrite (proj2 (Nat.ltb_ge _ _) Hle). simpl.
    by rewrite (run_store_slice c b a Ha (fun a' => view_write a' (bytes ++ drop (length bytes) (payload a))))
      by (done || unfold data_len; simpl; lia).
  - by eapply allowed_write.
  - split; [done|]. intros _. split; [done|]. exists bytes, (bytes ++ drop (length bytes) (payload a)).
    rewrite (proj2 (Nat.leb_le _ _) Hle). split_and!; [done..|]. by eapply view_write_same.
Qed.

Lemma runs_set_state c a ser : has c a ->
  runs (set_state b ser) c (fun a' r => same_but_data a a' /\
    (r = Ok tt -> exists bytes, ser = Some bytes /\ payload a' = bytes ++ drop (length bytes) (payload a))).
Proof.
  intros Ha. eapply runs_mono; [by apply runs_write_state|]. intros a' r [Hs Hr]. split; [done|].
  intros (_ & bytes & d & Hser & Hover & ->)%Hr. exists bytes. split; [done|]. unfold over in Hover.
  destruct (_ <=? _)%nat; [|done]. by injection Hover as <-.
Qed.

(** The limits on the length of data. *)
Definition resizable c a (n : nat) : bool :=
  (Z.of_nat n <=? MAX_ACCOUNT_DATA_LEN) &&
  (resize_delta (tx_accounts c) + (Z.of_nat n - data_len a) <=? MAX_ACCOUNT_DATA_GROWTH_PER_TRANSACTION).

Lemma runs_resize c a n : has c a ->
  runs (set_data_length b n) c (fun a' r =>
    match r with Ok _ => a' = view_resize a n | Err _ => a' = a end /\
    (changeable c a -> is_ok r = resizable c a n)).
Proof.
  intros H. pose proof H as [Hb Ha]. unfold set_data_length, resizable.
  destruct (can_resize_iff L D c Hb b a Ha (Z.of_nat n) ltac:(lia)) as ([[]|e] & Hc & Hr); cycle 1.
  { apply (runs_read _ _ _ a (Err e)); [done..|]. split; [done|]. intros [Hw Ho]. symmetry. apply not_true_iff_false.
    rewrite andb_true_iff, !Z.leb_le. intros [? ?]. naive_solver. }
  apply (runs_read _ _ _ a (Ok tt)); [done..|]. destruct (proj1 Hr eq_refl) as (Hw & Ho & Hmax & Hg).
  rewrite !(proj2 (Z.leb_le _ _)) by done.
  apply (runs_account _ _ a); [done|]. destruct (Nat.eqb_spec (length (payload a)) n) as [<-|_].
  { apply (runs_ret _ _ a); [done|]. split; [|done]. unfold view_resize. rewrite firstn_all, Nat.sub_diag, app_nil_r.
    symmetry. by eapply view_same. }
  pose proof (resize_length a n) as Hlen.
  assert (data_len (view_resize a n) = Z.of_nat n) as Hd by (unfold data_len; simpl; by rewrite Hlen).
  apply (runs_put _ _ a (view_resize a n) (Ok tt)); [done| | |done].
  - exact (run_resize L D c Hb b a Ha (Z.of_nat n) (fun a => view_resize a n) (conj (Nat2Z.is_nonneg _) Hmax) eq_refl Hd Hg).
  - unfold view_resize. eapply allowed_set_data; [done..| |]; by rewrite Hlen.
Qed.

Lemma runs_set_data_length c a n : has c a ->
  runs (set_data_length b n) c (fun a' r => same_but_data a a' /\ (r = Ok tt -> a' = view_resize a n)).
Proof.
  intros Ha. eapply runs_mono; [by apply runs_resize|]. intros a' [[]|e] [-> _]; done.
Qed.

Lemma runs_set_owner c a k : has c a ->
  runs (set_owner b k) c (fun a' r => match r with Ok _ => a' = view_set_owner a k | Err _ => a' = a end).
Proof.
  intros [Hb Ha]. unfold set_owner. assert (has c a) as H by done.
  apply (runs_read _ _ _ a (Ok (owned c b a))); [done|by apply run_owned|].
  destruct (owned c b a) eqn:Ho; simpl; [|by apply (runs_read _ _ _ a (Err ModifiedProgramId))].
  apply (runs_read _ _ _ a (Ok tt)); [done..|].
  destruct (is_writable b) eqn:Hw; simpl; [|by apply (runs_read _ _ _ a (Err ModifiedProgramId))].
  apply (runs_read _ _ _ a (Ok tt)); [done..|]. apply (runs_account _ _ a); [done|].
  destruct (is_zeroed (payload a)) eqn:Hz; simpl; [|by apply (runs_read _ _ _ a (Err ModifiedProgramId))].
  apply (runs_read _ _ _ a (Ok tt)); [done..|].
  destruct (Z.eqb_spec (owner a) k) as [<-|Hne]; [apply (runs_ret _ _ a); [done|by destruct a]|].
  apply (runs_put _ _ a (view_set_owner a k) (Ok tt)); [done| | |done].
  - by apply (run_store L D c Hb b a Ha (fun a => view_set_owner a k)).
  - apply (allowed_owner_change L D c Hb b a Ha); [done| |done].
    unfold owned in Ho. by apply bool_decide_eq_true_1 in Ho.
Qed.

(** The data filled with zeros. *)
Lemma runs_zero c a : has c a ->
  runs (write_data b (fun d => replicate (length d) 0)) c (fun a' r => same_but_data a a' /\
    (r = Ok tt -> a' = view_set_data a (replicate (length (payload a)) 0))).
Proof.
  intros H. pose proof H as [Hb Ha]. unfold write_data.
  destruct (run_get_data_mut L D c Hb b a Ha) as [[e He]|(Hw & Ho & Hd)].
  { apply (runs_read _ _ _ a (Err e)); done. }
  apply (runs_put _ _ a (view_write a (replicate (length (payload a)) 0)) (Ok tt)); [done| | |].
  - cbv [mbind M_bind]. rewrite Hd. rewrite length_replicate, Nat.eqb_refl.
    rewrite (run_store_slice c b a Ha (fun a' => view_write a' (replicate (length (payload a)) 0))); [done|done|].
    unfold data_len. simpl. by rewrite length_replicate.
  - eapply allowed_write; [done..|]. by rewrite length_replicate.
  - split; [done|]. intros _. eapply view_write_same; [done|]. by rewrite length_replicate.
Qed.

Lemma runs_set_lamports c a x : has c a -> is_u64 x ->
  runs (set_lamports b x) c (fun a' r => match r with Ok _ => a' = view_set_lamports a x | Err _ => a' = a end).
Proof.
  intros [Hb Ha] Hx. assert (has c a) as H by done. unfold set_lamports.
  apply (runs_read _ _ _ a (Ok (owned c b a))); [done|by apply run_owned|]. apply (runs_account _ _ a); [done|].
  destruct (negb (owned c b a) && (x <? lamports a)) eqn:Hs; simpl.
  { apply (runs_read _ _ _ a (Err ExternalAccountLamportSpend)); done. }
  apply (runs_read _ _ _ a (Ok tt)); [done..|].
  destruct (is_writable b) eqn:Hw; simpl; [|by apply (runs_read _ _ _ a (Err ReadonlyLamportChange))].
  apply (runs_read _ _ _ a (Ok tt)); [done..|].
  destruct (Z.eqb_spec (lamports a) x) as [<-|Hne]; [apply (runs_ret _ _ a); [done|by destruct a]|].
  apply (runs_put _ _ a (view_set_lamports a x) (Ok tt)); [done|by apply (run_lamports L D)| |done].
  rewrite Hw. rewrite <- Hw. eapply allowed_lamports_change; [done..|].
  intros Hlt. unfold owned in Hs. case_bool_decide; [done|]. simpl in Hs. bool_to_prop. lia.
Qed.

Lemma has_lamports c a : has c a -> is_u64 (lamports a).
Proof. intros [Hb Ha]. by eapply lamports_range. Qed.

Lemma runs_sub_lamports c a x : has c a -> is_u64 x ->
  runs (checked_sub_lamports b x) c (fun a' r =>
    match r with Ok _ => a' = view_set_lamports a (lamports a - x) /\ x <= lamports a | Err _ => a' = a end).
Proof.
  intros Ha Hx. unfold checked_sub_lamports. apply (runs_account _ _ a); [done|]. apply (runs_ok_or _ _ _ _ a); [done|].
  unfold checked_sub. destruct (Z.leb_spec x (lamports a)); [|done]. pose proof (has_lamports _ _ Ha) as Hl.
  eapply runs_mono; [apply (runs_set_lamports _ a); [done|unfold in_word in *; lia]|].
  intros a' [[]|e]; [done|done].
Qed.

Lemma runs_add_lamports c a x : has c a -> is_u64 x ->
  runs (checked_add_lamports b x) c (fun a' r =>
    match r with Ok _ => a' = view_set_lamports a (lamports a + x) | Err _ => a' = a end).
Proof.
  intros Ha Hx. unfold checked_add_lamports. apply (runs_account _ _ a); [done|]. apply (runs_ok_or _ _ _ _ a); [done|].
  unfold checked_add. destruct (Z.leb_spec (lamports a + x) U64_MAX); [|done]. pose proof (has_lamports _ _ Ha) as Hl.
  eapply runs_mono; [apply (runs_set_lamports _ a); [done|unfold in_word in *; lia]|].
  intros a' [[]|e]; done.
Qed.
End Runs.

Section Readers.
Context `{RL : RuntimeLaws}.
Implicit Types (c : TransactionContext) (a : Account).

(** ** Who signed *)
Definition key_at c (f : InstructionFrame) (i : nat) (k : Pubkey) : Prop :=
  exists ia a, instruction_accounts f !! i = Some ia /\ accs c !! index_in_transaction ia = Some a /\ key a = k.

Definition signed_at c (f : InstructionFrame) (i : nat) (k : Pubkey) : Prop :=
  exists ia a, instruction_accounts f !! i = Some ia /\ ia_is_signer ia = true /\
    accs c !! index_in_transaction ia = Some a /\ key a = k.

Definition signed c f k : Prop := exists i, signed_at c f i k.

(** ** The scope of a borrow *)
Definition scoped (L D : Z) {A} c (f : InstructionFrame) (i : nat) (m : M A)
    (Q : Account -> Account -> result InstructionError A -> Prop) : Prop :=
  exists c' r, m c = Some (c', r) /\ books L D c' /\
    ((c' = c /\ is_ok r = false) \/
     exists ia a a', instruction_accounts f !! i = Some ia /\
       accs c !! index_in_transaction ia = Some a /\ accs c' !! index_in_transaction ia = Some a' /\
       (c' = c \/ c' = put (index_in_transaction ia) a' c) /\ Q a a' r).

Lemma release_moved L D b c c' a' : books L D c' -> counters c !! b_index b = Some 0 ->
  moved b (set_counter (b_index b) (-1) c) c' a' ->
  exists c2, drop_ref_mut (b_index b) c' = Some (c2, Ok tt) /\ moved b c c2 a' /\ accs c2 = accs c' /\ books L D c2.
Proof.
  intros Hb Hc Hmv.
  assert (counters c' !! b_index b = Some (-1)) as Hc'.
  { destruct Hmv as [->| ->]; rewrite ?put_counters; by eapply counters_set_counter. }
  exists (set_counter (b_index b) 0 c'). split_and!; [by rewrite (run_drop_ref_mut L D _ _ (-1))| |done|by apply set_counter_books].
  destruct Hmv as [->| ->].
  - left. by rewrite set_counter_twice, set_counter_id.
  - right. rewrite put_set_counter, set_counter_twice, set_counter_id by (by rewrite put_counters). done.
Qed.

Lemma with_borrowed_spec L D {A} c f i (k : Borrowed -> M A) Q : books L D c ->
  (forall ia a, let b := MkBorrowed ia (program_account_index_in_tx f) in
    instruction_accounts f !! i = Some ia -> accs c !! b_index b = Some a ->
    has L D b (set_counter (b_index b) (-1) c) a ->
    runs L D b (k b) (set_counter (b_index b) (-1) c) (Q a)) ->
  scoped L D c f i (with_borrowed f i k) Q.
Proof.
  intros Hb Hk. unfold scoped, with_borrowed, try_borrow_instruction_account. cbv [mbind M_bind lift].
  unfold get_instruction_account. destruct (instruction_accounts f !! i) as [ia|] eqn:Hia; cycle 1.
  { eexists _, _. split_and!; [done|done|by left]. }
  set (b := MkBorrowed ia (program_account_index_in_tx f)).
  destruct (run_try_borrow_mut L D c (index_in_transaction ia) Hb) as [[e ->]|(a & Ha & Hc & ->)].
  { eexists _, _. split_and!; [done|done|by left]. }
  assert (has L D b (set_counter (b_index b) (-1) c) a) as Hhas by (split; [by apply set_counter_books|done]).
  destruct (Hk ia a eq_refl Ha Hhas) as (c1 & r & a' & Hrun & Hmv & [Hb1 Ha1] & HQ).
  destruct (release_moved L D b c c1 a' Hb1 Hc Hmv) as (c2 & Hdrop & Hmv2 & Heq & Hb2).
  subst b. unfold b_index in *. cbn [b_account] in *. unfold Ctx.attempt, mret, M_ret.
  rewrite Hrun. cbn [b_account]. rewrite Hdrop.
  exists c2, r. split_and!; [done|done|]. right. exists ia, a, a'. split_and!; [done|done|by rewrite Heq|done|done].
Qed.

(** A scope leaves the list of accounts with one entry replaced. *)
Lemma scope_accs c c' i a a' : accs c !! i = Some a -> accs c' !! i = Some a' -> c' = c \/ c' = put i a' c ->
  accs c' = <[i := a']> (accs c) /\ counters c' = counters c.
Proof.
  intros Ha Ha' [->| ->].
  - assert (a = a') as -> by congruence. split; [by rewrite list_insert_id|done].
  - split; [|apply put_counters]. unfold put. unfold accs in Ha. by rewrite Ha.
Qed.

(** What a scope leaves behind, when what is in it is known to succeed with [P]. *)
Lemma with_borrowed_run L D c f i (k : Borrowed -> M unit) (P : Account -> Account -> Prop) : books L D c ->
  (forall ia a, let b := MkBorrowed ia (program_account_index_in_tx f) in
    instruction_accounts f !! i = Some ia -> accs c !! b_index b = Some a ->
    has L D b (set_counter (b_index b) (-1) c) a ->
    runs L D b (k b) (set_counter (b_index b) (-1) c) (fun a' r => r = Ok tt -> P a a')) ->
  exists c' r, with_borrowed f i k c = Some (c', r) /\ books L D c' /\ counters c' = counters c /\
    (r = Ok tt -> exists ia a a', instruction_accounts f !! i = Some ia /\
      accs c !! index_in_transaction ia = Some a /\ P a a' /\
      accs c' = <[index_in_transaction ia := a']> (accs c)).
Proof.
  intros Hb Hk. destruct (with_borrowed_spec L D c f i k (fun a a' r => r = Ok tt -> P a a') Hb Hk)
    as (c' & r & Hrun & Hb' & Hcase). exists c', r. split_and!; [done..| |].
  - destruct Hcase as [[-> _]|(ia & a & a' & _ & Ha & Ha' & Hmv & _)]; [done|]. by eapply scope_accs.
  - intros ->. destruct Hcase as [[_ ?]|(ia & a & a' & Hia & Ha & Ha' & Hmv & HP)]; [done|].
    exists ia, a, a'. split_and!; [done|done|by apply HP|]. by eapply scope_accs.
Qed.

(** ** Reading the instruction *)
Lemma run_key c i : get_key_of_account_at_index i c =
  Some (c, match key <$> accs c !! i with Some k => Ok k | None => Err MissingAccount end).
Proof.
  unfold get_key_of_account_at_index. cbv [mbind M_bind reads]. unfold accs, ok_or.
  by destruct (accounts (tx_accounts c) !! i).
Qed.

Lemma run_key_at c f i : exists r, get_key_of_instruction_account f i c = Some (c, r) /\
  forall k, r = Ok k -> key_at c f i k.
Proof.
  unfold get_key_of_instruction_account, get_index_of_instruction_account_in_transaction, get_instruction_account.
  cbv [mbind M_bind lift result_bind]. destruct (instruction_accounts f !! i) as [ia|] eqn:Hia; [|by eexists].
  rewrite run_key. eexists. split; [done|]. intros k. destruct (accs c !! index_in_transaction ia) as [a|] eqn:Ha; [|done].
  intros [= <-]. by exists ia, a.
Qed.

Lemma collect_signers_spec c f l : (forall ia, ia ∈ l -> ia ∈ instruction_accounts f) -> forall acc,
  (forall k, k ∈ acc -> signed c f k) ->
  exists r, collect_signers l acc c = Some (c, r) /\ forall S, r = Ok S -> forall k, k ∈ S -> signed c f k.
Proof.
  induction l as [|ia l IH]; intros Hl acc Hacc; simpl; [by eexists; split; [done|]; intros S [= <-]|].
  destruct (ia_is_signer ia) eqn:Hs; [|apply IH; set_solver].
  cbv [mbind M_bind]. rewrite run_key. destruct (accs c !! index_in_transaction ia) as [a|] eqn:Ha; [|by eexists].
  apply IH; [set_solver|]. intros k [->%elem_of_singleton|Hk]%elem_of_union; [|by apply Hacc].
  destruct (list_elem_of_lookup_1 _ _ (Hl ia ltac:(set_solver))) as [i Hi]. exists i, ia, a. done.
Qed.

Lemma run_signers c f : exists r, get_signers f c = Some (c, r) /\ forall S, r = Ok S -> forall k, k ∈ S -> signed c f k.
Proof. by apply collect_signers_spec. Qed.

(** The value of a sysvar, with the account that stands for it among the accounts of
    the instruction. *)
Definition sysvar_at {A} c f (i : nat) id (x : result InstructionError A) (y : A) : Prop := key_at c f i id /\ x = Ok y.

Lemma run_sysvar_at {A} id (x : result InstructionError A) c f i : exists r,
  sysvar_with_account_check id x f i c = Some (c, r) /\ forall y, r = Ok y -> sysvar_at c f i id x y.
Proof.
  unfold sysvar_with_account_check, check_sysvar_account. cbv [mbind M_bind].
  destruct (run_key_at c f i) as ([k|e] & -> & Hk); [|by eexists].
  destruct (Z.eqb_spec k id) as [<-|]; [|by eexists]. exists x. split; [done|]. intros y Hy. split; [by apply Hk|done].
Qed.

Lemma run_sysvar {A} id (x : result InstructionError A) c f i : exists r,
  sysvar_with_account_check id x f i c = Some (c, r) /\ forall y, r = Ok y -> x = Ok y.
Proof. destruct (run_sysvar_at id x c f i) as (r & Hr & Hy). exists r. split; [done|]. intros y Hok. by apply Hy. Qed.

Lemma key_at_unique c f i k k' : key_at c f i k -> key_at c f i k' -> k = k'.
Proof. intros (ia & a & Hia & Ha & <-) (ia' & a' & Hia' & Ha' & <-). congruence. Qed.

Lemma signed_key_at c f i k : signed_at c f i k -> key_at c f i k.
Proof. intros (ia & a & ? & _ & ? & ?). by exists ia, a. Qed.

(** The instruction that runs. *)
Definition current c (f : InstructionFrame) : Prop :=
  exists k, get_current_instruction_context c = Some (c, Ok (k, f)).
End Readers.
