(* ===== verification/VoteState.v ===== *)
(** * Vote state: the tower of lockouts kept in a vote account

    The vote state of src/programs/vote/src/vote_state: the interface
    [VoteStateHandle] of handler.rs with its default methods, and the functions
    of mod.rs that apply votes, vote-state updates and tower syncs to it. The
    tower kept by the validator itself, [TowerVoteState] of
    src/core/src/consensus/tower_vote_state.rs, is the last part.

    A panic (a failed [assert!], [expect], [unwrap] or index) is [None]. *)

From S2P Require Import Prelude.

Module Vote.

Abbreviation Slot := Z (only parsing).
Abbreviation Epoch := Z (only parsing).
Abbreviation Hash := Z (only parsing).
Abbreviation Pubkey := Z (only parsing).
Abbreviation UnixTimestamp := Z (only parsing).

(** ** The crate [solana_vote_interface]

    Lockouts, the constants of the vote program and the conversion of a lockout
    into a landed vote are outside the repository. *)
Class VoteInterface := {
  Lockout : Type;
  #[global] Lockout_eq_dec :: EqDecision Lockout;
  (** [Lockout::new(slot)]: a lockout with one confirmation. *)
  Lockout_new : Slot -> Lockout;
  slot : Lockout -> Slot;
  confirmation_count : Lockout -> Z;
  (** The last slot at which the vote is still locked out. *)
  last_locked_out_slot : Lockout -> Slot;
  is_locked_out_at_slot : Lockout -> Slot -> bool;
  increase_confirmation_count : Lockout -> Z -> Lockout;
  (** The latency that [LandedVote::from(lockout)] sets. *)
  landed_latency : Lockout -> Z;
  MAX_LOCKOUT_HISTORY : nat;
  MAX_EPOCH_CREDITS_HISTORY : nat;
  VOTE_CREDITS_GRACE_SLOTS : Z;
  VOTE_CREDITS_MAXIMUM_PER_SLOT : Z
}.

(** What the crate documents of them. *)
Class VoteInterfaceLaws (VI : VoteInterface) : Prop := {
  slot_range l : is_u64 (slot l);
  slot_new s : is_u64 s -> slot (Lockout_new s) = s;
  confirmation_count_new s : confirmation_count (Lockout_new s) = 1;
  slot_increase l n : slot (increase_confirmation_count l n) = slot l;
  confirmation_count_range l : is_u32 (confirmation_count l);
  confirmation_count_increase l n : 0 <= n ->
    confirmation_count (increase_confirmation_count l n) = sat_add 32 (confirmation_count l) n;
  is_locked_out_spec l s : is_locked_out_at_slot l s = (s <=? last_locked_out_slot l);
  last_locked_out_slot_mono l l' :
    slot l = slot l' -> confirmation_count l <= confirmation_count l' ->
    last_locked_out_slot l <= last_locked_out_slot l';
  landed_latency_zero l : landed_latency l = 0;
  max_lockout_history_range : (1 <= MAX_LOCKOUT_HISTORY)%nat /\ Z.of_nat MAX_LOCKOUT_HISTORY <= U32_MAX;
  max_epoch_credits_history_range : (1 <= MAX_EPOCH_CREDITS_HISTORY)%nat;
  grace_slots_range : in_word 8 VOTE_CREDITS_GRACE_SLOTS;
  credits_maximum_range : 1 <= VOTE_CREDITS_MAXIMUM_PER_SLOT <= word_max 8
}.

Inductive VoteError : Type :=
| VoteTooOld
| SlotsMismatch
| SlotHashMismatch
| EmptySlots
| TimestampTooOld
| TooSoonToReauthorize
| LockoutConflict
| NewVoteStateLockoutMismatch
| SlotsNotOrdered
| ConfirmationsNotOrdered
| ZeroConfirmations
| ConfirmationTooLarge
| RootRollBack
| ConfirmationRollBack
| SlotSmallerThanRoot
| TooManyVotes
| VotesTooOldAllFiltered
| RootOnDifferentFork
| ActiveVoteAccountClose
| CommissionUpdateTooLate
| AssertionFailed.

#[global] Instance VoteError_eq_dec : EqDecision VoteError.
Proof. solve_decision. Defined.

Record BlockTimestamp : Type := MkBlockTimestamp {
  ts_slot : Slot;
  ts_timestamp : UnixTimestamp
}.

#[global] Instance BlockTimestamp_eq_dec : EqDecision BlockTimestamp.
Proof. solve_decision. Defined.

(** An entry of [epoch_credits]: the epoch, the credits at its end and the
    credits at its start. *)
Abbreviation EpochCredit := (Epoch * Z * Z)%type.

Section State.
Context `{VI : VoteInterface}.

Record LandedVote : Type := MkLandedVote {
  latency : Z;
  lockout : Lockout
}.

#[global] Instance LandedVote_eq_dec : EqDecision LandedVote.
Proof. solve_decision. Defined.

(** The accessors of the lockout inside a landed vote. *)
Definition vslot (v : LandedVote) : Slot := slot (lockout v).
Definition vcount (v : LandedVote) : Z := confirmation_count (lockout v).
Definition set_latency (v : LandedVote) (l : Z) : LandedVote := MkLandedVote l (lockout v).

(** [LandedVote::from(lockout)]. *)
Definition landed_from (l : Lockout) : LandedVote := MkLandedVote (landed_latency l) l.

(** ** The trait [VoteStateHandle]: the part the tower needs *)
Class VoteStateHandle (T : Type) := {
  votes : T -> list LandedVote;
  set_votes : T -> list LandedVote -> T;
  contains_slot : T -> Slot -> bool;
  last_lockout : T -> option Lockout;
  last_voted_slot : T -> option Slot;
  root_slot : T -> option Slot;
  set_root_slot : T -> option Slot -> T;
  current_epoch : T -> Epoch;
  epoch_credits : T -> list EpochCredit;
  set_epoch_credits : T -> list EpochCredit -> T;
  last_timestamp : T -> BlockTimestamp;
  set_last_timestamp : T -> BlockTimestamp -> T
}.

(** What is left of a state when the four parts are blanked out. *)
Definition handle_rest `{VoteStateHandle T} (s : T) : T :=
  set_last_timestamp (set_epoch_credits (set_root_slot (set_votes s []) None) []) (MkBlockTimestamp 0 0).

(** The four parts are independent fields, and the derived getters read the votes.
    The votes are searched by bisection, which is specified on sorted votes. *)
Class VoteStateHandleLaws T `{VoteStateHandle T} : Prop := {
  votes_set_votes s x : votes (set_votes s x) = x;
  votes_set_root_slot s x : votes (set_root_slot s x) = votes s;
  votes_set_epoch_credits s x : votes (set_epoch_credits s x) = votes s;
  votes_set_last_timestamp s x : votes (set_last_timestamp s x) = votes s;
  root_slot_set_votes s x : root_slot (set_votes s x) = root_slot s;
  root_slot_set_root_slot s x : root_slot (set_root_slot s x) = x;
  root_slot_set_epoch_credits s x : root_slot (set_epoch_credits s x) = root_slot s;
  root_slot_set_last_timestamp s x : root_slot (set_last_timestamp s x) = root_slot s;
  epoch_credits_set_votes s x : epoch_credits (set_votes s x) = epoch_credits s;
  epoch_credits_set_root_slot s x : epoch_credits (set_root_slot s x) = epoch_credits s;
  epoch_credits_set_epoch_credits s x : epoch_credits (set_epoch_credits s x) = x;
  epoch_credits_set_last_timestamp s x : epoch_credits (set_last_timestamp s x) = epoch_credits s;
  last_timestamp_set_votes s x : last_timestamp (set_votes s x) = last_timestamp s;
  last_timestamp_set_root_slot s x : last_timestamp (set_root_slot s x) = last_timestamp s;
  last_timestamp_set_epoch_credits s x : last_timestamp (set_epoch_credits s x) = last_timestamp s;
  last_timestamp_set_last_timestamp s x : last_timestamp (set_last_timestamp s x) = x;
  rest_set_votes s x : handle_rest (set_votes s x) = handle_rest s;
  rest_set_root_slot s x : handle_rest (set_root_slot s x) = handle_rest s;
  rest_set_epoch_credits s x : handle_rest (set_epoch_credits s x) = handle_rest s;
  rest_set_last_timestamp s x : handle_rest (set_last_timestamp s x) = handle_rest s;
  handle_ext s s' :
    votes s = votes s' -> root_slot s = root_slot s' -> epoch_credits s = epoch_credits s' ->
    last_timestamp s = last_timestamp s' -> handle_rest s = handle_rest s' -> s = s';
  contains_slot_spec s x :
    StronglySorted (fun v w => vslot v < vslot w) (votes s) ->
    contains_slot s x = bool_decide (x ∈ vslot <$> votes s);
  last_lockout_spec s : last_lockout s = lockout <$> last (votes s);
  last_voted_slot_spec s : last_voted_slot s = vslot <$> last (votes s);
  current_epoch_spec s : current_epoch s = default 0 ((fun c => c.1.1) <$> last (epoch_credits s))
}.

(** ** Its default methods *)
Section Handle.
Context `{VoteStateHandle T}.

Definition credits_for_vote_at_index (self : T) (index : nat) : Z :=
  let latency := from_option latency 0 (votes self !! index) in
  if latency =? 0 then 1
  else
    match checked_sub latency VOTE_CREDITS_GRACE_SLOTS with
    | None | Some 0 => VOTE_CREDITS_MAXIMUM_PER_SLOT
    | Some diff =>
        match checked_sub VOTE_CREDITS_MAXIMUM_PER_SLOT diff with
        | None | Some 0 => 1
        | Some credits => credits
        end
    end.

(** [last_mut().unwrap()] followed by a store. *)
Definition update_last {A} (f : A -> A) (l : list A) : option (list A) :=
  x ← last l; Some (removelast l ++ [f x]).

Definition increment_credits (self : T) (epoch : Epoch) (credits : Z) : option T :=
  self ←
    match epoch_credits self with
    | [] => Some (set_epoch_credits self [(epoch, 0, 0)])
    | _ =>
        '(last_epoch, last_credits, prev_credits) ← last (epoch_credits self);
        if epoch =? last_epoch then Some self
        else
          l ← (if negb (last_credits =? prev_credits)
               then Some (epoch_credits self ++ [(epoch, last_credits, last_credits)])
               else update_last (fun c => (epoch, c.1.2, c.2)) (epoch_credits self));
          Some (set_epoch_credits self
                  (if (MAX_EPOCH_CREDITS_HISTORY <? length l)%nat then drop 1 l else l))
    end;
  l ← update_last (fun c => (c.1.1, sat_add 64 c.1.2 credits, c.2)) (epoch_credits self);
  Some (set_epoch_credits self l).

Definition process_timestamp (self : T) (slot : Slot) (timestamp : UnixTimestamp) :
    result VoteError T :=
  let last_timestamp := last_timestamp self in
  if (slot <? ts_slot last_timestamp) || (timestamp <? ts_timestamp last_timestamp)
     || ((slot =? ts_slot last_timestamp)
         && negb (bool_decide (MkBlockTimestamp slot timestamp = last_timestamp))
         && negb (ts_slot last_timestamp =? 0))
  then Err TimestampTooOld
  else Ok (set_last_timestamp self (MkBlockTimestamp slot timestamp)).

(** The loop pops at most as many votes as there are. *)
Fixpoint pop_expired_loop (fuel : nat) (self : T) (next_vote_slot : Slot) : T :=
  match fuel with
  | O => self
  | S fuel =>
      match last_lockout self with
      | Some vote =>
          if negb (is_locked_out_at_slot vote next_vote_slot)
          then pop_expired_loop fuel (set_votes self (removelast (votes self))) next_vote_slot
          else self
      | None => self
      end
  end.

Definition pop_expired_votes (self : T) (next_vote_slot : Slot) : T :=
  pop_expired_loop (length (votes self)) self next_vote_slot.

(** The body of the loop of [double_lockouts] at position [i]. *)
Definition double_lockout (stack_depth : nat) (l : Lockout) (i : nat) : option Lockout :=
  n ← checked_add 64 (Z.of_nat i) (confirmation_count l);
  Some (if n <? Z.of_nat stack_depth then increase_confirmation_count l 1 else l).

Definition double_lockouts (self : T) : option T :=
  let stack_depth := length (votes self) in
  l ← mapM (fun '(i, v) => l ← double_lockout stack_depth (lockout v) i;
                           Some (MkLandedVote (latency v) l))
           (imap pair (votes self));
  Some (set_votes self l).

Definition compute_vote_latency (voted_for_slot current_slot : Slot) : Z :=
  Z.min (sat_sub current_slot voted_for_slot) (word_max 8).

Definition process_next_vote_slot (self : T) (next_vote_slot : Slot) (epoch : Epoch)
    (current_slot : Slot) : option T :=
  if from_option (fun last_voted_slot => next_vote_slot <=? last_voted_slot) false
       (last_voted_slot self)
  then Some self
  else
    let self := pop_expired_votes self next_vote_slot in
    let landed_vote := MkLandedVote (compute_vote_latency next_vote_slot current_slot)
                         (Lockout_new next_vote_slot) in
    self ←
      (if (length (votes self) =? MAX_LOCKOUT_HISTORY)%nat then
         let credits := credits_for_vote_at_index self 0 in
         landed_vote ← head (votes self);
         let self := set_votes self (drop 1 (votes self)) in
         let self := set_root_slot self (Some (vslot landed_vote)) in
         increment_credits self epoch credits
       else Some self);
    double_lockouts (set_votes self (votes self ++ [landed_vote])).

(** ** Applying votes: mod.rs *)

(** The loop of [check_slots_are_valid]; an iteration moves [i] or [j]. *)
Fixpoint check_slots_loop (fuel : nat) (self : T) (vote_slots : list Slot)
    (slot_hashes : list (Slot * Hash)) (i j : nat) : option (nat * nat) :=
  match fuel with
  | O => None
  | S fuel =>
      if (i <? length vote_slots)%nat && (0 <? j)%nat then
        vote_slot ← vote_slots !! i;
        if from_option (fun last_voted_slot => vote_slot <=? last_voted_slot) false
             (last_voted_slot self)
        then check_slots_loop fuel self vote_slots slot_hashes (S i) j
        else
          slot_hash ← slot_hashes !! (j - 1)%nat;
          if negb (vote_slot =? slot_hash.1)
          then check_slots_loop fuel self vote_slots slot_hashes i (j - 1)
          else check_slots_loop fuel self vote_slots slot_hashes (S i) (j - 1)
      else Some (i, j)
  end.

Definition check_slots_are_valid (self : T) (vote_slots : list Slot) (vote_hash : Hash)
    (slot_hashes : list (Slot * Hash)) : option (result VoteError unit) :=
  '(i, j) ← check_slots_loop (length vote_slots + length slot_hashes + 1) self vote_slots
              slot_hashes 0 (length slot_hashes);
  if (j =? length slot_hashes)%nat then Some (Err VoteTooOld)
  else if negb (i =? length vote_slots)%nat then Some (Err SlotsMismatch)
  else
    slot_hash ← slot_hashes !! j;
    Some (if negb (slot_hash.2 =? vote_hash) then Err SlotHashMismatch else Ok tt).

(** The root a proposal keeps: one older than the history gives way to what the
    state knows. *)
Definition adjust_root (self : T) (earliest_slot_hash_in_history : Slot)
    (proposed_root : option Slot) : option Slot :=
  match proposed_root with
  | Some root =>
      if root <? earliest_slot_hash_in_history then
        match list_find (fun vote => vslot vote <= root) (reverse (votes self)) with
        | Some (_, vote) => Some (vslot vote)
        | None => root_slot self
        end
      else proposed_root
  | None => None
  end.

(** The loop of [check_and_filter_proposed_vote_state]. *)
Fixpoint check_and_filter_loop (fuel : nat) (self : T) (proposed_lockouts : list Lockout)
    (slot_hashes : list (Slot * Hash)) (earliest : Slot) (root_to_check : option Slot)
    (proposed_lockouts_index slot_hashes_index : nat) (to_filter : list nat) :
    option (result VoteError (nat * nat * list nat)) :=
  match fuel with
  | O => None
  | S fuel =>
      if (proposed_lockouts_index <? length proposed_lockouts)%nat && (0 <? slot_hashes_index)%nat then
        proposed_vote_slot ←
          match root_to_check with
          | Some root => Some root
          | None => slot <$> proposed_lockouts !! proposed_lockouts_index
          end;
        not_ordered ←
          (if bool_decide (root_to_check = None) && (0 <? proposed_lockouts_index)%nat
           then previous ← proposed_lockouts !! (proposed_lockouts_index - 1)%nat;
                Some (proposed_vote_slot <=? slot previous)
           else Some false);
        if (not_ordered : bool) then Some (Err SlotsNotOrdered)
        else
          ancestor ← slot_hashes !! (slot_hashes_index - 1)%nat;
          match proposed_vote_slot ?= ancestor.1 with
          | Lt =>
              if (slot_hashes_index =? length slot_hashes)%nat then
                if earliest <=? proposed_vote_slot then Some (Err AssertionFailed)
                else
                  let to_filter :=
                    if negb (contains_slot self proposed_vote_slot)
                       && bool_decide (root_to_check = None)
                    then to_filter ++ [proposed_lockouts_index] else to_filter in
                  match root_to_check with
                  | Some new_proposed_root =>
                      if negb (new_proposed_root =? proposed_vote_slot) then None
                      else if earliest <=? new_proposed_root then Some (Err AssertionFailed)
                      else check_and_filter_loop fuel self proposed_lockouts slot_hashes earliest
                             None proposed_lockouts_index slot_hashes_index to_filter
                  | None =>
                      check_and_filter_loop fuel self proposed_lockouts slot_hashes earliest
                        None (S proposed_lockouts_index) slot_hashes_index to_filter
                  end
              else
                Some (Err (if bool_decide (root_to_check = None) then SlotsMismatch
                           else RootOnDifferentFork))
          | Gt =>
              check_and_filter_loop fuel self proposed_lockouts slot_hashes earliest root_to_check
                proposed_lockouts_index (slot_hashes_index - 1) to_filter
          | Eq =>
              match root_to_check with
              | Some _ =>
                  check_and_filter_loop fuel self proposed_lockouts slot_hashes earliest
                    None proposed_lockouts_index slot_hashes_index to_filter
              | None =>
                  check_and_filter_loop fuel self proposed_lockouts slot_hashes earliest
                    None (S proposed_lockouts_index) (slot_hashes_index - 1) to_filter
              end
          end
      else Some (Ok (proposed_lockouts_index, slot_hashes_index, to_filter))
  end.

(** The [retain] that drops the positions of [to_filter]. *)
Fixpoint retain_lockouts (to_filter : list nat) (proposed_lockouts_index filter_votes_index : nat)
    (l : list Lockout) : option (list Lockout) :=
  match l with
  | [] => Some []
  | lockout :: l =>
      '(should_retain, filter_votes_index) ←
        (if (filter_votes_index =? length to_filter)%nat then Some (true, filter_votes_index)
         else
           index ← to_filter !! filter_votes_index;
           Some (if (proposed_lockouts_index =? index)%nat then (false, S filter_votes_index)
                 else (true, filter_votes_index)));
      l ← retain_lockouts to_filter (S proposed_lockouts_index) filter_votes_index l;
      Some (if (should_retain : bool) then lockout :: l else l)
  end.

(** The lockouts and the root it leaves, when the proposal passes. *)
Definition check_and_filter_proposed_vote_state (self : T) (proposed_lockouts : list Lockout)
    (proposed_root : option Slot) (proposed_hash : Hash) (slot_hashes : list (Slot * Hash)) :
    option (result VoteError (list Lockout * option Slot)) :=
  match proposed_lockouts with
  | [] => Some (Err EmptySlots)
  | _ =>
      last_proposed_slot ← slot <$> last proposed_lockouts;
      if from_option (fun last_vote_slot => last_proposed_slot <=? last_vote_slot) false
           (vslot <$> last (votes self))
      then Some (Err VoteTooOld)
      else
        match last slot_hashes with
        | None => Some (Err SlotsMismatch)
        | Some (earliest_slot_hash_in_history, _) =>
            if last_proposed_slot <? earliest_slot_hash_in_history then Some (Err VoteTooOld)
            else
              let proposed_root := adjust_root self earliest_slot_hash_in_history proposed_root in
              r ← check_and_filter_loop (length proposed_lockouts + length slot_hashes + 2) self
                    proposed_lockouts slot_hashes earliest_slot_hash_in_history proposed_root
                    0 (length slot_hashes) [];
              match r with
              | Err e => Some (Err e)
              | Ok (proposed_lockouts_index, slot_hashes_index, to_filter) =>
                  if negb (proposed_lockouts_index =? length proposed_lockouts)%nat
                  then Some (Err SlotsMismatch)
                  else
                    slot_hash ← slot_hashes !! slot_hashes_index;
                    if negb (last_proposed_slot =? slot_hash.1) then None
                    else if negb (slot_hash.2 =? proposed_hash) then Some (Err SlotHashMismatch)
                    else
                      l ← retain_lockouts to_filter 0 0 proposed_lockouts;
                      Some (Ok (l, proposed_root))
              end
        end
  end.

(** ** [process_new_vote_state] *)

Definition check_root (current_root new_root : option Slot) : result VoteError unit :=
  match new_root, current_root with
  | Some new_root, Some current_root => if new_root <? current_root then Err RootRollBack else Ok tt
  | None, Some _ => Err RootRollBack
  | _, _ => Ok tt
  end.

(** One iteration of the loop over the new votes. *)
Definition check_new_vote (new_root : option Slot) (previous_vote : option LandedVote)
    (vote : LandedVote) : result VoteError unit :=
  if vcount vote =? 0 then Err ZeroConfirmations
  else if Z.of_nat MAX_LOCKOUT_HISTORY <? vcount vote then Err ConfirmationTooLarge
  else if from_option (fun new_root => (vslot vote <=? new_root) && negb (new_root =? 0)) false new_root
  then Err SlotSmallerThanRoot
  else
    match previous_vote with
    | Some previous_vote =>
        if vslot vote <=? vslot previous_vote then Err SlotsNotOrdered
        else if vcount previous_vote <=? vcount vote then Err ConfirmationsNotOrdered
        else if last_locked_out_slot (lockout previous_vote) <? vslot vote
        then Err NewVoteStateLockoutMismatch
        else Ok tt
    | None => Ok tt
    end.

Fixpoint check_new_votes (new_root : option Slot) (previous_vote : option LandedVote)
    (new_state : list LandedVote) : result VoteError unit :=
  match new_state with
  | [] => Ok tt
  | vote :: new_state =>
      _ ← check_new_vote new_root previous_vote vote;
      check_new_votes new_root (Some vote) new_state
  end.

(** The loop over the current votes up to the new root: how many there are and
    what they earn. *)
Fixpoint rooted_votes (self : T) (new_root : Slot) (l : list LandedVote)
    (current_vote_state_index : nat) (earned_credits : Z) : option (nat * Z) :=
  match l with
  | [] => Some (current_vote_state_index, earned_credits)
  | current_vote :: l =>
      if vslot current_vote <=? new_root then
        earned_credits ← checked_add 64 earned_credits
                           (credits_for_vote_at_index self current_vote_state_index);
        rooted_votes self new_root l (S current_vote_state_index) earned_credits
      else Some (current_vote_state_index, earned_credits)
  end.

(** The loop over both towers: every vote that is gone must have expired, every
    vote that stays keeps its confirmations and its latency. *)
Fixpoint compare_votes (fuel : nat) (self : T) (new_state : list LandedVote)
    (current_vote_state_index new_vote_state_index : nat) :
    option (result VoteError (list LandedVote)) :=
  match fuel with
  | O => None
  | S fuel =>
      match votes self !! current_vote_state_index, new_state !! new_vote_state_index with
      | Some current_vote, Some new_vote =>
          match vslot current_vote ?= vslot new_vote with
          | Lt =>
              if vslot new_vote <=? last_locked_out_slot (lockout current_vote)
              then Some (Err LockoutConflict)
              else compare_votes fuel self new_state (S current_vote_state_index) new_vote_state_index
          | Eq =>
              if vcount new_vote <? vcount current_vote then Some (Err ConfirmationRollBack)
              else
                compare_votes fuel self
                  (<[new_vote_state_index := set_latency new_vote (latency current_vote)]> new_state)
                  (S current_vote_state_index) (S new_vote_state_index)
          | Gt => compare_votes fuel self new_state current_vote_state_index (S new_vote_state_index)
          end
      | _, _ => Some (Ok new_state)
      end
  end.

Definition fill_latency (current_slot : Slot) (new_vote : LandedVote) : LandedVote :=
  if latency new_vote =? 0
  then set_latency new_vote (compute_vote_latency (vslot new_vote) current_slot)
  else new_vote.

(** The state is changed in place, so the state is returned with an error too. *)
Definition process_new_vote_state (self : T) (new_state : list LandedVote) (new_root : option Slot)
    (timestamp : option UnixTimestamp) (epoch : Epoch) (current_slot : Slot) :
    option (T * result VoteError unit) :=
  if bool_decide (new_state = []) then None
  else if (MAX_LOCKOUT_HISTORY <? length new_state)%nat then Some (self, Err TooManyVotes)
  else
    match check_root (root_slot self) new_root with
    | Err e => Some (self, Err e)
    | Ok _ =>
    match check_new_votes new_root None new_state with
    | Err e => Some (self, Err e)
    | Ok _ =>
        '(current_vote_state_index, earned_credits) ←
          match new_root with
          | Some new_root => rooted_votes self new_root (votes self) 0 0
          | None => Some (0%nat, 0)
          end;
        r ← compare_votes (length (votes self) + length new_state + 1) self new_state
              current_vote_state_index 0;
        match r with
        | Err e => Some (self, Err e)
        | Ok new_state =>
            let new_state := fill_latency current_slot <$> new_state in
            self ← (if bool_decide (root_slot self = new_root) then Some self
                    else increment_credits self epoch earned_credits);
            r ← match timestamp with
                | Some timestamp =>
                    last_vote ← last new_state;
                    Some (process_timestamp self (vslot last_vote) timestamp)
                | None => Some (Ok self)
                end;
            match r with
            | Err e => Some (self, Err e)
            | Ok self => Some (set_votes (set_root_slot self new_root) new_state, Ok tt)
            end
        end
    end
    end.

(** ** Vote instructions *)

Record VoteIx : Type := MkVoteIx {
  vote_slots : list Slot;
  vote_hash : Hash;
  vote_timestamp : option UnixTimestamp
}.

(** [VoteStateUpdate] and [TowerSync]; the block id of the latter is not used. *)
Record TowerSync : Type := MkTowerSync {
  sync_lockouts : list Lockout;
  sync_root : option Slot;
  sync_hash : Hash;
  sync_timestamp : option UnixTimestamp
}.

Fixpoint process_next_vote_slots (self : T) (slots : list Slot) (epoch : Epoch)
    (current_slot : Slot) : option T :=
  match slots with
  | [] => Some self
  | s :: slots =>
      self ← process_next_vote_slot self s epoch current_slot;
      process_next_vote_slots self slots epoch current_slot
  end.

Definition process_vote_unfiltered (self : T) (slots : list Slot) (vote : VoteIx)
    (slot_hashes : list (Slot * Hash)) (epoch : Epoch) (current_slot : Slot) :
    option (T * result VoteError unit) :=
  r ← check_slots_are_valid self slots (vote_hash vote) slot_hashes;
  match r with
  | Err e => Some (self, Err e)
  | Ok _ =>
      self ← process_next_vote_slots self slots epoch current_slot;
      Some (self, Ok tt)
  end.

Definition process_vote (self : T) (vote : VoteIx) (slot_hashes : list (Slot * Hash)) (epoch : Epoch)
    (current_slot : Slot) : option (T * result VoteError unit) :=
  if bool_decide (vote_slots vote = []) then Some (self, Err EmptySlots)
  else
    let earliest_slot_in_history := from_option fst 0 (last slot_hashes) in
    let slots := filter (fun slot => earliest_slot_in_history <= slot) (vote_slots vote) in
    if bool_decide (slots = []) then Some (self, Err VotesTooOldAllFiltered)
    else process_vote_unfiltered self slots vote slot_hashes epoch current_slot.

(** What [process_vote_with_account] does to the state it has loaded. *)
Definition process_vote_and_timestamp (self : T) (vote : VoteIx) (slot_hashes : list (Slot * Hash))
    (epoch : Epoch) (current_slot : Slot) : option (T * result VoteError unit) :=
  '(self, r) ← process_vote self vote slot_hashes epoch current_slot;
  match r with
  | Err e => Some (self, Err e)
  | Ok _ =>
      match vote_timestamp vote with
      | Some timestamp =>
          match vote_slots vote with
          | [] => Some (self, Err EmptySlots)
          | slot :: slots =>
              match process_timestamp self (foldr Z.max slot slots) timestamp with
              | Ok self => Some (self, Ok tt)
              | Err e => Some (self, Err e)
              end
          end
      | None => Some (self, Ok tt)
      end
  end.

Definition process_vote_unchecked (self : T) (vote : VoteIx) : option (T * result VoteError unit) :=
  if bool_decide (vote_slots vote = []) then Some (self, Err EmptySlots)
  else
    let slot_hashes := (fun x => (x, vote_hash vote)) <$> reverse (vote_slots vote) in
    process_vote_unfiltered self (vote_slots vote) vote slot_hashes (current_epoch self) 0.

(** [do_process_vote_state_update] and [do_process_tower_sync] have the same body. *)
Definition do_process_tower_sync (self : T) (slot_hashes : list (Slot * Hash)) (epoch : Epoch)
    (slot : Slot) (tower_sync : TowerSync) : option (T * result VoteError unit) :=
  r ← check_and_filter_proposed_vote_state self (sync_lockouts tower_sync) (sync_root tower_sync)
        (sync_hash tower_sync) slot_hashes;
  match r with
  | Err e => Some (self, Err e)
  | Ok (lockouts, root) =>
      process_new_vote_state self (landed_from <$> lockouts) root (sync_timestamp tower_sync) epoch slot
  end.

Definition do_process_vote_state_update (self : T) (slot_hashes : list (Slot * Hash)) (epoch : Epoch)
    (slot : Slot) (vote_state_update : TowerSync) : option (T * result VoteError unit) :=
  r ← check_and_filter_proposed_vote_state self (sync_lockouts vote_state_update)
        (sync_root vote_state_update) (sync_hash vote_state_update) slot_hashes;
  match r with
  | Err e => Some (self, Err e)
  | Ok (lockouts, root) =>
      process_new_vote_state self (landed_from <$> lockouts) root (sync_timestamp vote_state_update)
        epoch slot
  end.
End Handle.

(** ** The validator's own tower *)

Record TowerVoteState : Type := MkTowerVoteState {
  tower_votes : list Lockout;
  tower_root_slot : option Slot
}.

Definition tower (self : TowerVoteState) : list Slot := slot <$> tower_votes self.

Definition tower_last_lockout (self : TowerVoteState) : option Lockout := last (tower_votes self).

Definition tower_last_voted_slot (self : TowerVoteState) : option Slot :=
  slot <$> tower_last_lockout self.

Definition nth_recent_lockout (self : TowerVoteState) (position : nat) : option Lockout :=
  pos ← checked_sub (Z.of_nat (length (tower_votes self))) (sat_add 64 (Z.of_nat position) 1);
  tower_votes self !! Z.to_nat pos.

Fixpoint tower_pop_expired_loop (fuel : nat) (self : TowerVoteState) (next_vote_slot : Slot) :
    TowerVoteState :=
  match fuel with
  | O => self
  | S fuel =>
      match tower_last_lockout self with
      | Some vote =>
          if negb (is_locked_out_at_slot vote next_vote_slot)
          then tower_pop_expired_loop fuel
                 (MkTowerVoteState (removelast (tower_votes self)) (tower_root_slot self)) next_vote_slot
          else self
      | None => self
      end
  end.

Definition tower_pop_expired_votes (self : TowerVoteState) (next_vote_slot : Slot) : TowerVoteState :=
  tower_pop_expired_loop (length (tower_votes self)) self next_vote_slot.

Definition tower_double_lockouts (self : TowerVoteState) : option TowerVoteState :=
  let stack_depth := length (tower_votes self) in
  l ← mapM (fun '(i, l) => double_lockout stack_depth l i) (imap pair (tower_votes self));
  Some (MkTowerVoteState l (tower_root_slot self)).

Definition tower_process_next_vote_slot (self : TowerVoteState) (next_vote_slot : Slot) :
    option TowerVoteState :=
  if from_option (fun last_voted_slot => next_vote_slot <=? last_voted_slot) false
       (tower_last_voted_slot self)
  then Some self
  else
    let self := tower_pop_expired_votes self next_vote_slot in
    self ←
      (if (length (tower_votes self) =? MAX_LOCKOUT_HISTORY)%nat then
         rooted_vote ← head (tower_votes self);
         Some (MkTowerVoteState (drop 1 (tower_votes self)) (Some (slot rooted_vote)))
       else Some self);
    tower_double_lockouts
      (MkTowerVoteState (tower_votes self ++ [Lockout_new next_vote_slot]) (tower_root_slot self)).
End State.

End Vote.
