(* ===== verification/VoteTower.v ===== *)
(** * Vote state: the tower as a list of lockouts

    What one vote does to a tower, as a function on lists of lockouts, that the
    vote state and the validator's own tower both compute; and that the tower
    stays well formed. *)

From S2P Require Import Prelude VoteState.
Import Vote.

(** ** Lists changed at their end *)
Section Lists.
Context {A : Type}.

(** Pops from the end while [p] holds. *)
Fixpoint pop_while (p : A -> bool) (fuel : nat) (l : list A) : list A :=
  match fuel with
  | O => l
  | S fuel =>
      match last l with
      | Some x => if p x then pop_while p fuel (removelast l) else l
      | None => l
      end
  end.

Lemma removelast_snoc (l : list A) x : removelast (l ++ [x]) = l.
Proof. apply removelast_last. Qed.

Lemma pop_while_spec p fuel l : (length l <= fuel)%nat ->
  exists popped, l = pop_while p fuel l ++ popped /\ Forall (fun x => p x = true) popped /\
    (forall x, last (pop_while p fuel l) = Some x -> p x = false).
Proof.
  revert l. induction fuel as [|fuel IH]; intros l Hl; simpl.
  { destruct l; [|simpl in Hl; lia]. exists []. by rewrite Forall_nil. }
  destruct (last l) as [x|] eqn:Hlast.
  2:{ apply last_None in Hlast as ->. exists []. by rewrite Forall_nil. }
  destruct (p x) eqn:Hp.
  2:{ exists []. rewrite app_nil_r, Forall_nil, Hlast. naive_solver. }
  apply last_Some in Hlast as [l' ->]. rewrite removelast_snoc. rewrite length_app in Hl. simpl in Hl.
  destruct (IH l') as (popped & Heq & Hall & Hlast); [lia|].
  exists (popped ++ [x]). split_and!; [by rewrite app_assoc, <- Heq| |done].
  apply Forall_app. by rewrite Forall_singleton.
Qed.

Lemma last_drop_lt n (l : list A) : (n < length l)%nat -> last (drop n l) = last l.
Proof. intros Hn. rewrite !last_lookup, lookup_drop, length_drop. f_equal. lia. Qed.

(** Consecutive elements are related. *)
Lemma Sorted_lookup (R : A -> A -> Prop) l :
  Sorted R l <-> forall i x y, l !! i = Some x -> l !! S i = Some y -> R x y.
Proof.
  induction l as [|a l IH].
  { split; [done|constructor]. }
  split.
  - intros [Hs Hd]%Sorted_inv [|i] x y; simpl.
    + intros [= <-]. destruct Hd as [|b l Hab]; simpl; [done|]. by intros [= <-].
    + apply IH; done.
  - intros Hl. constructor; [apply IH; intros i; apply (Hl (S i))|].
    destruct l as [|b l]; constructor. by apply (Hl 0%nat).
Qed.

Lemma Sorted_app_l (R : A -> A -> Prop) l k : Sorted R (l ++ k) -> Sorted R l.
Proof.
  rewrite !Sorted_lookup. intros Hl i x y Hx Hy. apply (Hl i); by apply lookup_app_l_Some.
Qed.

Lemma Sorted_drop (R : A -> A -> Prop) n l : Sorted R l -> Sorted R (drop n l).
Proof.
  rewrite !Sorted_lookup. intros Hl i x y. rewrite !lookup_drop. intros Hx Hy.
  apply (Hl (n + i)%nat); [done|]. by rewrite <- plus_n_Sm in Hy.
Qed.

Lemma Sorted_snoc (R : A -> A -> Prop) l x :
  Sorted R (l ++ [x]) <-> Sorted R l /\ (forall y, last l = Some y -> R y x).
Proof.
  rewrite !Sorted_lookup. split.
  - intros Hl. split.
    + intros i a b Ha Hb. apply (Hl i); by apply lookup_app_l_Some.
    + intros y [l' ->]%last_Some. apply (Hl (length l')).
      * rewrite <- app_assoc. by apply list_lookup_middle.
      * rewrite lookup_app_r, length_app by (rewrite length_app; simpl; lia). simpl.
        by replace (S (length l') - (length l' + 1))%nat with 0%nat by lia.
  - intros [Hl Hx] i a b Ha Hb. apply lookup_snoc_Some in Hb as [[Hi Hb]|[Hi <-]].
    + apply (Hl i); [|done]. rewrite lookup_app_l in Ha by lia. done.
    + apply Hx. rewrite last_lookup, <- Hi. simpl. rewrite lookup_app_l in Ha by lia. done.
Qed.
End Lists.

Lemma Sorted_fmap {A B} (R : B -> B -> Prop) (f : A -> B) l :
  Sorted R (f <$> l) <-> Sorted (fun x y => R (f x) (f y)) l.
Proof.
  rewrite !Sorted_lookup. split.
  - intros Hl i x y Hx Hy. apply (Hl i); by rewrite list_lookup_fmap, ?Hx, ?Hy.
  - intros Hl i a b. rewrite !list_lookup_fmap, !fmap_Some. intros (x & Hx & ->) (y & Hy & ->).
    by apply (Hl i).
Qed.


Lemma removelast_fmap {A B} (f : A -> B) l : removelast (f <$> l) = f <$> removelast l.
Proof.
  destruct (last l) as [x|] eqn:Hl.
  - apply last_Some in Hl as [l' ->]. rewrite removelast_snoc, fmap_app. apply (removelast_snoc (f <$> l')).
  - by apply last_None in Hl as ->.
Qed.

Lemma pop_while_fmap {A B} (f : A -> B) (p : B -> bool) fuel l :
  pop_while p fuel (f <$> l) = f <$> pop_while (fun x => p (f x)) fuel l.
Proof.
  revert l. induction fuel as [|fuel IH]; intros l; simpl; [done|].
  rewrite fmap_last. destruct (last l) as [x|]; simpl; [|done].
  destruct (p (f x)); [|done]. by rewrite removelast_fmap, IH.
Qed.

Lemma mapM_imap_total {A B} (f : nat * A -> option B) (g : nat -> A -> B) l :
  (forall i x, l !! i = Some x -> f (i, x) = Some (g i x)) ->
  mapM f (imap pair l) = Some (imap g l).
Proof.
  intros Hf. apply mapM_Some, Forall2_lookup. intros i. rewrite !list_lookup_imap.
  destruct (l !! i) as [x|] eqn:Hx; simpl; constructor. by apply Hf.
Qed.

Lemma filter_none {A} (P : A -> Prop) `{forall x, Decision (P x)} l :
  Forall (fun x => ~ P x) l -> filter P l = [].
Proof. induction 1; [done|]. by rewrite filter_cons_False. Qed.

Lemma filter_all {A} (P : A -> Prop) `{forall x, Decision (P x)} l :
  Forall P l -> filter P l = l.
Proof. induction 1; [done|]. rewrite filter_cons_True by done. by f_equal. Qed.

Lemma Forall_filter {A} (P Q : A -> Prop) `{forall x, Decision (Q x)} l : Forall P l -> Forall P (filter Q l).
Proof. rewrite !Forall_forall. intros Hl x [_ Hx]%list_elem_of_filter. auto. Qed.

(** ** Towers *)
Section Tower.
Context `{VL : VoteInterfaceLaws}.

(** Consecutive votes: a later slot, fewer confirmations, and the older vote is
    still locked out at the newer one. *)
Definition vote_step (v w : Lockout) : Prop :=
  slot v < slot w /\ confirmation_count w < confirmation_count v /\ slot w <= last_locked_out_slot v.

(** The guarantees stated above [process_new_vote_state]. *)
Record tower_ok (l : list Lockout) : Prop := {
  tower_short : (length l <= MAX_LOCKOUT_HISTORY)%nat;
  tower_counts : Forall (fun v => 1 <= confirmation_count v <= Z.of_nat MAX_LOCKOUT_HISTORY) l;
  tower_steps : Sorted vote_step l
}.

Lemma tower_sorted l : Sorted vote_step l -> StronglySorted (fun v w => slot v < slot w) l.
Proof.
  intros Hl. apply Sorted_StronglySorted; [intros ???; lia|].
  eapply Sorted_lookup. intros i x y Hx Hy. by apply (proj1 (Sorted_lookup _ _) Hl i).
Qed.

Lemma tower_ok_nil : tower_ok [].
Proof. split; [simpl; lia|done|constructor]. Qed.

(** One vote for a slot newer than the tower. *)
Definition expired (next : Slot) (v : Lockout) : bool := negb (is_locked_out_at_slot v next).
Definition still_locked (next : Slot) (l : list Lockout) : list Lockout :=
  pop_while (expired next) (length l) l.
Definition without_rooted {A} (l : list A) : list A :=
  if (length l =? MAX_LOCKOUT_HISTORY)%nat then drop 1 l else l.
Definition double_at (depth : nat) (i : nat) (v : Lockout) : Lockout :=
  if Z.of_nat i + confirmation_count v <? Z.of_nat depth then increase_confirmation_count v 1 else v.
Definition double_all (l : list Lockout) : list Lockout := imap (double_at (length l)) l.
Definition next_tower (next : Slot) (l : list Lockout) : list Lockout :=
  double_all (without_rooted (still_locked next l) ++ [Lockout_new next]).
Definition next_root (next : Slot) (l : list Lockout) (root : option Slot) : option Slot :=
  if (length (still_locked next l) =? MAX_LOCKOUT_HISTORY)%nat
  then slot <$> head (still_locked next l) else root.

Lemma slot_double depth i v : slot (double_at depth i v) = slot v.
Proof. unfold double_at. split_if; [apply slot_increase|done]. Qed.

Lemma count_double depth i v : (depth <= MAX_LOCKOUT_HISTORY)%nat -> 1 <= confirmation_count v ->
  confirmation_count (double_at depth i v) =
    if Z.of_nat i + confirmation_count v <? Z.of_nat depth then confirmation_count v + 1
    else confirmation_count v.
Proof.
  intros Hd Hv. unfold double_at. split_if; [|done]. bool_to_prop.
  rewrite confirmation_count_increase by lia. apply sat_add_small.
  pose proof max_lockout_history_range as [_ ?]. lia.
Qed.

Lemma locked_double depth i v : (depth <= MAX_LOCKOUT_HISTORY)%nat -> 1 <= confirmation_count v ->
  last_locked_out_slot v <= last_locked_out_slot (double_at depth i v).
Proof.
  intros Hd Hv. apply last_locked_out_slot_mono; [by rewrite slot_double|].
  rewrite count_double by done. split_if; lia.
Qed.

Lemma double_lockout_at depth i v :
  (depth <= MAX_LOCKOUT_HISTORY)%nat -> (i < depth)%nat ->
  1 <= confirmation_count v <= Z.of_nat MAX_LOCKOUT_HISTORY ->
  double_lockout depth v i = Some (double_at depth i v).
Proof.
  intros Hd Hi Hv. unfold double_lockout, checked_add, double_at.
  pose proof max_lockout_history_range as [_ ?].
  rewrite (proj2 (Z.leb_le _ _)); [done|]. unfold word_max in *. lia.
Qed.

Section Next.
Context (next : Slot) (Hu : is_u64 next) (l : list Lockout) (Hok : tower_ok l).
Context (Hnew : forall v, last l = Some v -> slot v < next).

Lemma still_locked_spec : exists popped, l = still_locked next l ++ popped /\
  Forall (fun v => last_locked_out_slot v < next) popped /\
  (forall v, last (still_locked next l) = Some v -> next <= last_locked_out_slot v).
Proof using VL Hok.
  destruct (pop_while_spec (expired next) (length l) l) as (popped & Heq & Hp & Hlast); [done|].
  exists popped. split_and!; [done| |].
  - eapply Forall_impl; [done|]. unfold expired. intros v Hv. simpl in Hv.
    rewrite is_locked_out_spec in Hv. bool_to_prop. lia.
  - intros v Hv%Hlast. unfold expired in Hv. rewrite is_locked_out_spec in Hv. bool_to_prop. lia.
Qed.

Lemma still_locked_ok : tower_ok (still_locked next l).
Proof using VL Hok.
  destruct still_locked_spec as (popped & Heq & _ & _). destruct Hok as [Hlen Hc Hs].
  rewrite Heq in Hlen, Hc, Hs. rewrite length_app in Hlen. apply Forall_app in Hc as [Hc _].
  apply Sorted_app_l in Hs. by split; [lia|..].
Qed.

Lemma still_locked_before v : v ∈ still_locked next l -> slot v < next.
Proof using VL Hok Hnew.
  clear Hu. destruct still_locked_spec as (popped & Heq & _ & _). intros Hv.
  destruct (last l) as [w|] eqn:Hw.
  2:{ apply last_None in Hw. rewrite Hw in Heq at 1. symmetry in Heq. apply app_nil in Heq as [Heq _].
      rewrite Heq in Hv. set_solver. }
  pose proof (Hnew w eq_refl) as Hwn. apply last_Some in Hw as [l' Hl].
  assert (v ∈ l' ++ [w]) as Hin by (rewrite <- Hl, Heq; set_solver).
  pose proof (tower_sorted l (tower_steps _ Hok)) as Hs. rewrite Hl in Hs.
  apply elem_of_app in Hin as [Hin|Hin%list_elem_of_singleton]; [|by subst].
  apply list_elem_of_split in Hin as (l1 & l2 & ->). rewrite <- app_assoc in Hs. simpl in Hs.
  apply StronglySorted_after with (y := w) in Hs; [lia|set_solver].
Qed.

(** The tower before the confirmations are counted. *)
Lemma pushed_spec : let k := without_rooted (still_locked next l) ++ [Lockout_new next] in
  (length k <= MAX_LOCKOUT_HISTORY)%nat /\
  Forall (fun v => 1 <= confirmation_count v <= Z.of_nat MAX_LOCKOUT_HISTORY) k /\
  Sorted (fun v w => slot v < slot w /\ slot w <= last_locked_out_slot v) k /\
  Sorted (fun v w => confirmation_count w < confirmation_count v) (without_rooted (still_locked next l)).
Proof using VL Hu Hok Hnew.
  destruct still_locked_ok as [Hlen Hc Hs]. destruct still_locked_spec as (popped & _ & _ & Hlast).
  pose proof still_locked_before as Hb. pose proof max_lockout_history_range as [Hmax _].
  assert (exists n, without_rooted (still_locked next l) = drop n (still_locked next l) /\
    (length (drop n (still_locked next l)) < MAX_LOCKOUT_HISTORY)%nat) as (n & Hd & Hdl).
  { unfold without_rooted. split_if.
    - exists 1%nat. split; [done|]. rewrite length_drop. apply Nat.eqb_eq in E. lia.
    - exists 0%nat. split; [done|]. rewrite drop_0. apply Nat.eqb_neq in E. lia. }
  simpl. rewrite Hd. apply (Sorted_drop _ n) in Hs. apply (Forall_drop _ n) in Hc.
  split_and!.
  - rewrite length_app. simpl. lia.
  - apply Forall_app. split; [done|]. apply Forall_singleton. rewrite confirmation_count_new. lia.
  - apply Sorted_snoc. split.
    + eapply Sorted_lookup. intros i x y Hx Hy. destruct (proj1 (Sorted_lookup _ _) Hs i x y) as (?&?&?); done.
    + intros v Hv. rewrite slot_new by done. rewrite last_lookup, lookup_drop, length_drop in Hv. split.
      * apply Hb. eapply list_elem_of_lookup_2. done.
      * apply Hlast. rewrite last_lookup. pose proof (lookup_lt_Some _ _ _ Hv). rewrite <- Hv. f_equal. lia.
  - eapply Sorted_lookup. intros i x y Hx Hy. destruct (proj1 (Sorted_lookup _ _) Hs i x y) as (?&?&?); done.
Qed.

Lemma next_tower_ok : tower_ok (next_tower next l).
Proof using VL Hu Hok Hnew.
  destruct pushed_spec as (Hlen & Hc & Hs & Hd). unfold next_tower, double_all.
  set (k := without_rooted (still_locked next l) ++ [Lockout_new next]) in *.
  split; [by rewrite length_imap| |].
  - apply Forall_lookup. intros i x. rewrite list_lookup_imap. intros (v & Hv & [= <-])%bind_Some.
    pose proof (Forall_lookup_1 _ _ _ _ Hc Hv) as Hcv. simpl in Hcv.
    rewrite count_double by lia. split_if; bool_to_prop; lia.
  - apply Sorted_lookup. intros i x y. rewrite !list_lookup_imap.
    intros (v & Hv & [= <-])%bind_Some (w & Hw & [= <-])%bind_Some.
    pose proof (Forall_lookup_1 _ _ _ _ Hc Hv) as Hcv. pose proof (Forall_lookup_1 _ _ _ _ Hc Hw) as Hcw.
    simpl in Hcv, Hcw. destruct (proj1 (Sorted_lookup _ _) Hs i v w) as [Hlt Hll]; [done..|].
    unfold vote_step. rewrite !slot_double, !count_double by lia.
    pose proof (locked_double (length k) i v). split_and!; [done| |lia].
    pose proof (lookup_lt_Some _ _ _ Hw) as Hil. subst k.
    rewrite length_app in Hil, Hlen |- *. simpl in Hil, Hlen |- *.
    apply lookup_snoc_Some in Hw as [[Hi Hw]|[Hi <-]].
    + rewrite lookup_app_l in Hv by lia.
      pose proof (proj1 (Sorted_lookup _ _) Hd i v w Hv Hw) as Hvw. simpl in Hvw.
      repeat split_if; bool_to_prop; lia.
    + rewrite confirmation_count_new. repeat split_if; bool_to_prop; lia.
Qed.
End Next.
End Tower.
