(* ===== verification/VoteSteps.v ===== *)
(** * Vote state: the operations on one vote

    The default methods of [VoteStateHandle] against what they compute: the
    ledger of credits, the tower after one vote, and the invariant of vote
    states that they keep. The theorems hold for every implementation of the
    interface. *)

From S2P Require Import Prelude VoteState VoteTower.
Import Vote.

Create Rewrite HintDb handle.
#[export] Hint Rewrite @votes_set_votes @votes_set_root_slot @votes_set_epoch_credits
  @votes_set_last_timestamp @root_slot_set_votes @root_slot_set_root_slot
  @root_slot_set_epoch_credits @root_slot_set_last_timestamp @epoch_credits_set_votes
  @epoch_credits_set_root_slot @epoch_credits_set_epoch_credits @epoch_credits_set_last_timestamp
  @last_timestamp_set_votes @last_timestamp_set_root_slot @last_timestamp_set_epoch_credits
  @last_timestamp_set_last_timestamp @rest_set_votes @rest_set_root_slot @rest_set_epoch_credits
  @rest_set_last_timestamp using typeclasses eauto : handle.

(** ** The ledger of credits *)
Section Credits.
Context `{VL : VoteInterfaceLaws}.

(** Where [increment_credits] puts the credits of an epoch. *)
Definition open_epoch (epoch : Epoch) (l : list EpochCredit) : list EpochCredit :=
  match last l with
  | None => [(epoch, 0, 0)]
  | Some (e, c, p) =>
      if epoch =? e then l
      else
        let l := if c =? p then removelast l ++ [(epoch, c, p)] else l ++ [(epoch, c, c)] in
        if (MAX_EPOCH_CREDITS_HISTORY <? length l)%nat then drop 1 l else l
  end.

Definition credited (epoch : Epoch) (credits : Z) (l : list EpochCredit) : list EpochCredit :=
  default [] (update_last (fun c => (c.1.1, sat_add 64 c.1.2 credits, c.2)) (open_epoch epoch l)).

(** The credits of the account so far. *)
Definition credits (l : list EpochCredit) : Z := from_option (fun c => c.1.2) 0 (last l).

(** A bounded ledger: each epoch but the last earned credits, and each starts
    with the credits the one before it ended with. *)
Record ledger_ok (l : list EpochCredit) : Prop := {
  ledger_short : (length l <= MAX_EPOCH_CREDITS_HISTORY)%nat;
  ledger_range : Forall (fun c => 0 <= c.2 <= c.1.2 /\ c.1.2 <= U64_MAX) l;
  ledger_steps : Sorted (fun c d => d.2 = c.1.2 /\ c.2 < c.1.2) l
}.

Lemma ledger_ok_nil : ledger_ok [].
Proof. split; [simpl; lia|done|constructor]. Qed.

Lemma open_epoch_snoc epoch l : exists k c, open_epoch epoch l = k ++ [c] /\ c.1.1 = epoch.
Proof using VL.
  unfold open_epoch. destruct (last l) as [[[e c] p]|] eqn:Hl.
  2:{ by exists [], (epoch, 0, 0). }
  apply last_Some in Hl as [k ->]. split_if; [bool_to_prop; subst; by exists k, (e, c, p)|].
  rewrite removelast_snoc. pose proof max_epoch_credits_history_range as Hmax.
  set (l := if c =? p then k ++ [(epoch, c, p)] else (k ++ [(e, c, p)]) ++ [(epoch, c, c)]).
  assert (exists k' x, l = k' ++ [x] /\ x.1.1 = epoch) as (k' & x & Hk & Hx).
  { subst l. split_if; by eexists _, _. }
  simpl. fold l. rewrite Hk. split_if; [|by exists k', x].
  apply Nat.ltb_lt in E0. rewrite length_app in E0. simpl in E0.
  exists (drop 1 k'), x. by rewrite drop_app_le by lia.
Qed.

Lemma credited_snoc epoch n l : exists k e c p, open_epoch epoch l = k ++ [(e, c, p)] /\ e = epoch /\
  credited epoch n l = k ++ [(epoch, sat_add 64 c n, p)].
Proof using VL.
  destruct (open_epoch_snoc epoch l) as (k & [[e c] p] & Hk & He). exists k, e, c, p.
  unfold credited, update_last. rewrite Hk, last_snoc. simpl in *. subst e.
  by rewrite removelast_snoc.
Qed.

Lemma open_epoch_ok epoch l : ledger_ok l -> ledger_ok (open_epoch epoch l) /\
  credits (open_epoch epoch l) = credits l.
Proof using VL.
  intros [Hlen Hr Hs]. pose proof max_epoch_credits_history_range as Hmax.
  unfold open_epoch, credits. destruct (last l) as [[[e c] p]|] eqn:Hl; simpl.
  2:{ split; [|done]. split; [simpl; lia|repeat constructor; simpl; unfold word_max; lia|repeat constructor]. }
  apply last_Some in Hl as [k ->]. split_if; [by rewrite last_snoc|]. bool_to_prop.
  rewrite removelast_snoc. pose proof Hr as [Hrk Hre]%Forall_app. rewrite Forall_singleton in Hre. simpl in Hre.
  pose proof Hs as [Hsk Hse]%Sorted_snoc.
  destruct (Z.eqb_spec c p) as [->|Hcp].
  - rewrite length_app in *. simpl in *. rewrite (proj2 (Nat.ltb_ge _ _)) by lia.
    rewrite last_snoc. split; [|done]. split; [rewrite length_app; simpl; lia| |].
    + apply Forall_app. split; [done|]. apply Forall_singleton. simpl. lia.
    + apply Sorted_snoc. split; [done|]. intros y Hy. by apply (Hse y).
  - set (k' := (k ++ [(e, c, p)]) ++ [(epoch, c, c)]).
    assert (Sorted (fun c d : EpochCredit => d.2 = c.1.2 /\ c.2 < c.1.2) k') as Hs'.
    { apply Sorted_snoc. split; [done|]. intros y. rewrite last_snoc. intros [= <-]. simpl. lia. }
    assert (Forall (fun c : EpochCredit => 0 <= c.2 <= c.1.2 /\ c.1.2 <= U64_MAX) k') as Hr'.
    { apply Forall_app. split; [done|]. apply Forall_singleton. simpl. lia. }
    assert (length k' = length k + 2)%nat as Hl' by (subst k'; rewrite !length_app; simpl; lia).
    rewrite length_app in Hlen. simpl in Hlen.
    split_if.
    + rewrite last_drop_lt by lia. subst k'. rewrite last_snoc. split; [|done].
      split; [rewrite length_drop; lia|by apply Forall_drop|by apply Sorted_drop].
    + subst k'. rewrite last_snoc. split; [|done]. apply Nat.ltb_ge in E0. by split.
Qed.

Lemma credited_ok epoch n l : ledger_ok l -> 0 <= n ->
  ledger_ok (credited epoch n l) /\ credits (credited epoch n l) = sat_add 64 (credits l) n.
Proof using VL.
  intros Hl Hn. destruct (open_epoch_ok epoch l Hl) as [[Hlen Hr Hs] Hc].
  destruct (credited_snoc epoch n l) as (k & e & c & p & Ho & -> & ->). rewrite Ho in *.
  unfold credits in *. rewrite last_snoc in *. simpl in *. rewrite Hc. split; [|done].
  apply Forall_app in Hr as [Hr Hre]. rewrite Forall_singleton in Hre. simpl in Hre.
  split.
  - rewrite length_app in *. simpl in *. lia.
  - apply Forall_app. split; [done|]. apply Forall_singleton. simpl. unfold sat_add, word_max in *. lia.
  - apply Sorted_snoc in Hs as [Hs Hse]. apply Sorted_snoc. split; [done|].
    intros y Hy. by apply (Hse y).
Qed.
End Credits.

(** ** The root of a tower *)
Section Root.
Context `{VL : VoteInterfaceLaws}.

(** The root is older than the votes; a tower that starts at slot 0 may have it
    as its root too. *)
Definition root_ok (root : option Slot) (l : list Lockout) : Prop :=
  match root with
  | Some r => l <> [] /\ (r = 0 \/ Forall (fun v => r < slot v) l)
  | None => True
  end.

Lemma next_tower_slots next (l : list Lockout) : is_u64 next ->
  slot <$> next_tower next l = (slot <$> without_rooted (still_locked next l)) ++ [next].
Proof using VL.
  intros Hu. unfold next_tower, double_all. rewrite fmap_imap.
  rewrite (imap_ext _ (const slot)) by (intros; apply slot_double).
  rewrite imap_const, fmap_app. simpl. by rewrite slot_new by done.
Qed.

Lemma next_root_ok next l root : is_u64 next -> tower_ok l -> root_ok root l ->
  (forall v, last l = Some v -> slot v < next) ->
  root_ok (next_root next l root) (next_tower next l).
Proof using VL.
  intros Hu Hok Hroot Hnew. destruct (still_locked_spec next l Hok) as (popped & Heq & _).
  pose proof (still_locked_before next l Hok Hnew) as Hbefore.
  pose proof (tower_sorted _ (tower_steps _ (still_locked_ok next l Hok))) as Hsorted.
  assert (forall r, Forall (fun x => r < x) (slot <$> next_tower next l) ->
    root_ok (Some r) (next_tower next l)) as Hsome.
  { intros r Hr. rewrite Forall_fmap in Hr. split; [|right; exact Hr]. unfold next_tower, double_all.
    intros He%(f_equal length). rewrite length_imap, length_app in He. simpl in He. lia. }
  unfold next_root. destruct (length (still_locked next l) =? MAX_LOCKOUT_HISTORY)%nat eqn:Hfull.
  - destruct (still_locked next l) as [|v k] eqn:Hk; simpl; [done|]. apply Hsome.
    rewrite next_tower_slots, Hk by done. unfold without_rooted. rewrite Hfull. simpl. rewrite drop_0.
    apply StronglySorted_inv in Hsorted as [_ Hv]. apply Forall_app. rewrite Forall_singleton, Forall_fmap.
    split; [done|]. apply Hbefore. left.
  - destruct root as [r|]; [|done]. destruct Hroot as [Hne [->|Hr]].
    { split; [|by left]. unfold next_tower, double_all. intros He%(f_equal length).
      rewrite length_imap, length_app in He. simpl in He. lia. }
    apply Hsome. rewrite next_tower_slots by done. unfold without_rooted. rewrite Hfull.
    apply Forall_app. rewrite Forall_singleton, Forall_fmap.
    rewrite Heq in Hr. apply Forall_app in Hr as [Hr1 Hr2]. split; [done|].
    destruct (last l) as [v|] eqn:Hv; [|by apply last_None in Hv]. specialize (Hnew v eq_refl).
    enough (r < slot v) by lia. apply last_Some in Hv as [l' Hv].
    assert (v ∈ still_locked next l ++ popped) as Hin by (rewrite <- Heq, Hv; set_solver).
    rewrite Forall_forall in Hr1, Hr2. apply elem_of_app in Hin as [Hin|Hin]; auto.
Qed.
End Root.

Section Handle.
Context `{VL : VoteInterfaceLaws} {T : Type} {HT : VoteStateHandle T} {HL : VoteStateHandleLaws T}.
Implicit Types s : T.

Ltac handle_eq := apply handle_ext; by autorewrite with handle.

Lemma set_votes_twice s x y : set_votes (set_votes s x) y = set_votes s y.
Proof. handle_eq. Qed.

Lemma set_votes_id s : set_votes s (votes s) = s.
Proof. handle_eq. Qed.

Lemma set_epoch_credits_id s : set_epoch_credits s (epoch_credits s) = s.
Proof. handle_eq. Qed.

(** Opening the epoch. *)
Lemma open_epoch_eq s epoch :
  match epoch_credits s with
  | [] => Some (set_epoch_credits s [(epoch, 0, 0)])
  | _ =>
      '(e, c, p) ← last (epoch_credits s);
      if epoch =? e then Some s
      else
        l ← (if negb (c =? p) then Some (epoch_credits s ++ [(epoch, c, c)])
             else update_last (fun c => (epoch, c.1.2, c.2)) (epoch_credits s));
        Some (set_epoch_credits s (if (MAX_EPOCH_CREDITS_HISTORY <? length l)%nat then drop 1 l else l))
  end = Some (set_epoch_credits s (open_epoch epoch (epoch_credits s))).
Proof using VL HL.
  destruct (epoch_credits s) as [|a l0] eqn:Hl; [done|]. rewrite <- Hl.
  unfold open_epoch, update_last. destruct (last (epoch_credits s)) as [[[e c] p]|] eqn:Hlast; simpl.
  2:{ apply last_None in Hlast. congruence. }
  split_if; [by rewrite set_epoch_credits_id|]. destruct (c =? p); done.
Qed.

Lemma increment_credits_eq s epoch n :
  increment_credits s epoch n = Some (set_epoch_credits s (credited epoch n (epoch_credits s))).
Proof using VL HL.
  unfold increment_credits. rewrite open_epoch_eq. simpl. autorewrite with handle.
  destruct (credited_snoc epoch n (epoch_credits s)) as (k & e & c & p & Ho & -> & ->).
  rewrite Ho. unfold update_last. rewrite last_snoc. simpl. rewrite removelast_snoc. f_equal. handle_eq.
Qed.

(** ** Credits for one vote *)
Definition vote_credits (latency : Z) : Z :=
  if latency =? 0 then 1
  else Z.max 1 (VOTE_CREDITS_MAXIMUM_PER_SLOT - Z.max 0 (latency - VOTE_CREDITS_GRACE_SLOTS)).

Lemma credits_for_vote_eq s i :
  credits_for_vote_at_index s i = vote_credits (from_option latency 0 (votes s !! i)).
Proof using VL.
  unfold credits_for_vote_at_index, vote_credits, checked_sub.
  set (x := from_option latency 0 (votes s !! i)). pose proof credits_maximum_range.
  destruct (x =? 0); [done|]. destruct (Z.leb_spec VOTE_CREDITS_GRACE_SLOTS x); [|lia].
  destruct (x - VOTE_CREDITS_GRACE_SLOTS) eqn:E; [lia| |lia].
  destruct (Z.leb_spec (Z.pos p) VOTE_CREDITS_MAXIMUM_PER_SLOT); [|lia].
  destruct (VOTE_CREDITS_MAXIMUM_PER_SLOT - Z.pos p) eqn:E2; lia.
Qed.

Lemma vote_credits_range x : 1 <= vote_credits x <= VOTE_CREDITS_MAXIMUM_PER_SLOT.
Proof using VL. unfold vote_credits. pose proof credits_maximum_range. split_if; lia. Qed.

(** ** One vote *)
Definition lockouts (s : T) : list Lockout := lockout <$> votes s.

Definition kept_votes (next : Slot) (l : list LandedVote) : list LandedVote :=
  pop_while (fun v => expired next (lockout v)) (length l) l.

Lemma kept_votes_lockouts next l : lockout <$> kept_votes next l = still_locked next (lockout <$> l).
Proof. unfold still_locked, kept_votes. by rewrite pop_while_fmap, length_fmap. Qed.

Lemma without_rooted_fmap (l : list LandedVote) :
  lockout <$> without_rooted l = without_rooted (lockout <$> l).
Proof. unfold without_rooted. rewrite length_fmap. split_if; [by rewrite fmap_drop|done]. Qed.

Definition pushed_votes (next current_slot : Slot) (l : list LandedVote) : list LandedVote :=
  without_rooted (kept_votes next l) ++
  [MkLandedVote (compute_vote_latency next current_slot) (Lockout_new next)].

Definition next_votes (next current_slot : Slot) (l : list LandedVote) : list LandedVote :=
  let k := pushed_votes next current_slot l in
  imap (fun i v => MkLandedVote (latency v) (double_at (length k) i (lockout v))) k.

Lemma pushed_votes_lockouts next cur l :
  lockout <$> pushed_votes next cur l =
  without_rooted (still_locked next (lockout <$> l)) ++ [Lockout_new next].
Proof. unfold pushed_votes. by rewrite fmap_app, without_rooted_fmap, kept_votes_lockouts. Qed.

Lemma next_votes_lockouts next cur l :
  lockout <$> next_votes next cur l = next_tower next (lockout <$> l).
Proof.
  unfold next_votes, next_tower, double_all. rewrite <- pushed_votes_lockouts with (cur := cur).
  rewrite fmap_imap, imap_fmap, length_fmap. done.
Qed.

(** The root and the credits after it. *)
Definition next_credits (next : Slot) (epoch : Epoch) (l : list LandedVote) (ec : list EpochCredit) :
    list EpochCredit :=
  if (length (kept_votes next l) =? MAX_LOCKOUT_HISTORY)%nat
  then credited epoch (vote_credits (from_option latency 0 (head (kept_votes next l)))) ec else ec.

Lemma pop_expired_votes_eq s next :
  pop_expired_votes s next = set_votes s (kept_votes next (votes s)).
Proof using VL HL.
  unfold pop_expired_votes, kept_votes.
  enough (forall fuel s, pop_expired_loop fuel s next =
    set_votes s (pop_while (fun v => expired next (lockout v)) fuel (votes s))) as He by apply He.
  induction fuel as [|fuel IH]; intros s'; simpl; [by rewrite set_votes_id|].
  rewrite last_lockout_spec. destruct (last (votes s')) as [v|]; simpl; [|by rewrite set_votes_id].
  unfold expired. split_if; [|by rewrite set_votes_id].
  rewrite IH, set_votes_twice. by autorewrite with handle.
Qed.

Lemma double_lockouts_eq s :
  (length (votes s) <= MAX_LOCKOUT_HISTORY)%nat ->
  Forall (fun v => 1 <= confirmation_count v <= Z.of_nat MAX_LOCKOUT_HISTORY) (lockouts s) ->
  double_lockouts s = Some (set_votes s
    (imap (fun i v => MkLandedVote (latency v) (double_at (length (votes s)) i (lockout v))) (votes s))).
Proof using VL HL.
  intros Hlen Hc. unfold double_lockouts.
  rewrite (mapM_imap_total _
    (fun i v => MkLandedVote (latency v) (double_at (length (votes s)) i (lockout v)))); [done|].
  intros i v Hv. rewrite double_lockout_at; [done..|by eapply lookup_lt_Some|].
  refine (Forall_lookup_1 _ _ i _ Hc _). unfold lockouts. by rewrite list_lookup_fmap, Hv.
Qed.

(** Votes that are not newer than the last are ignored; any other is pushed. *)
Lemma process_next_vote_slot_eq s next epoch cur : is_u64 next -> tower_ok (lockouts s) ->
  (forall v, last (votes s) = Some v -> vslot v < next) ->
  exists s', process_next_vote_slot s next epoch cur = Some s' /\
    votes s' = next_votes next cur (votes s) /\
    root_slot s' = next_root next (lockouts s) (root_slot s) /\
    epoch_credits s' = next_credits next epoch (votes s) (epoch_credits s) /\
    last_timestamp s' = last_timestamp s /\ handle_rest s' = handle_rest s.
Proof using VL HL.
  intros Hu Hok Hnew. unfold process_next_vote_slot. rewrite last_voted_slot_spec.
  replace (from_option _ false _) with false; cycle 1.
  { destruct (last (votes s)) as [v|] eqn:Hv; simpl; [|done].
    specialize (Hnew v eq_refl). symmetry. apply Z.leb_gt. lia. }
  rewrite pop_expired_votes_eq. autorewrite with handle.
  destruct (pushed_spec next Hu (lockouts s) Hok) as (Hlen & Hc & _); [|].
  { intros v. unfold lockouts. rewrite fmap_last. destruct (last (votes s)) as [w|]; simpl; [|done].
    intros [= <-]. by apply Hnew. }
  unfold lockouts in *. rewrite <- pushed_votes_lockouts with (cur := cur) in Hlen, Hc.
  rewrite length_fmap in Hlen. unfold next_votes, next_root, next_credits.
  rewrite <- kept_votes_lockouts, length_fmap. unfold pushed_votes, without_rooted in *.
  destruct (length (kept_votes next (votes s)) =? MAX_LOCKOUT_HISTORY)%nat eqn:Hfull.
  - pose proof max_lockout_history_range as [Hmax _]. apply Nat.eqb_eq in Hfull.
    destruct (kept_votes next (votes s)) as [|v k] eqn:Hk; [simpl in Hfull; lia|]. simpl head. simpl.
    rewrite increment_credits_eq. simpl. rewrite double_lockouts_eq.
    + eexists. split; [done|]. autorewrite with handle. split_and!; try done. by rewrite credits_for_vote_eq, votes_set_votes.
    + autorewrite with handle. done.
    + unfold lockouts. autorewrite with handle. done.
  - simpl. rewrite double_lockouts_eq.
    + eexists. split; [done|]. by autorewrite with handle.
    + by autorewrite with handle.
    + unfold lockouts. by autorewrite with handle.
Qed.

(** A vote for a slot that is not newer than the last is ignored. *)
Lemma process_next_vote_slot_old s next epoch cur v :
  last (votes s) = Some v -> next <= vslot v -> process_next_vote_slot s next epoch cur = Some s.
Proof using VL HL.
  intros Hv Hle. unfold process_next_vote_slot. rewrite last_voted_slot_spec, Hv. simpl.
  by rewrite (proj2 (Z.leb_le _ _)).
Qed.

(** ** The invariant of vote states *)

Record vs_ok (s : T) : Prop := {
  vs_tower : tower_ok (lockouts s);
  vs_root : root_ok (root_slot s) (lockouts s);
  vs_ledger : ledger_ok (epoch_credits s);
  vs_latency : Forall (fun v => in_word 8 (latency v)) (votes s)
}.

Lemma compute_vote_latency_range x y : in_word 8 (compute_vote_latency x y).
Proof. unfold compute_vote_latency, sat_sub, in_word, word_max. lia. Qed.

(** The part of [tower_ok] that follows from the list of votes. *)
Lemma last_lockouts s next : (forall v, last (votes s) = Some v -> vslot v < next) ->
  forall w, last (lockouts s) = Some w -> slot w < next.
Proof.
  intros Hnew w. unfold lockouts. rewrite fmap_last.
  destruct (last (votes s)) as [v|]; simpl; [|done]. intros [= <-]. by apply Hnew.
Qed.

Lemma next_votes_latency next cur l : Forall (fun v => in_word 8 (latency v)) l ->
  Forall (fun v => in_word 8 (latency v)) (next_votes next cur l).
Proof.
  intros Hl. apply Forall_lookup. intros i x. unfold next_votes. rewrite list_lookup_imap.
  intros (v & Hv & [= <-])%bind_Some. simpl.
  enough (Forall (fun v => in_word 8 (latency v)) (pushed_votes next cur l)) as Hp
    by exact (Forall_lookup_1 _ _ _ _ Hp Hv).
  unfold pushed_votes. apply Forall_app. rewrite Forall_singleton.
  split; [|apply compute_vote_latency_range].
  destruct (pop_while_spec (fun v => expired next (lockout v)) (length l) l) as (popped & Heq & _); [done|].
  rewrite Heq in Hl. apply Forall_app in Hl as [Hl _]. fold (kept_votes next l) in Hl.
  unfold without_rooted. split_if; [by apply Forall_drop|done].
Qed.

Lemma next_credits_ok next epoch l ec : ledger_ok ec -> ledger_ok (next_credits next epoch l ec).
Proof using VL.
  intros Hec. unfold next_credits. split_if; [|done]. apply credited_ok; [done|].
  match goal with |- 0 <= vote_credits ?x => pose proof (vote_credits_range x) end. lia.
Qed.

Lemma next_votes_nonempty next cur l : next_votes next cur l <> [].
Proof.
  unfold next_votes, pushed_votes. intros He%(f_equal length).
  rewrite length_imap, length_app in He. simpl in He. lia.
Qed.

Lemma process_next_vote_slot_new_ok s next epoch cur : is_u64 next -> vs_ok s ->
  (forall v, last (votes s) = Some v -> vslot v < next) ->
  exists s', process_next_vote_slot s next epoch cur = Some s' /\ vs_ok s' /\ votes s' <> [].
Proof using VL HL.
  intros Hu [Hok Hroot Hledger Hlat] Hnew. pose proof (last_lockouts s next Hnew) as Hnew'.
  destruct (process_next_vote_slot_eq s next epoch cur Hu Hok Hnew) as (s' & Hs' & Hvo & Hr & Hc & _).
  assert (lockouts s' = next_tower next (lockouts s)) as Hl by (unfold lockouts; by rewrite Hvo, next_votes_lockouts).
  exists s'. split_and!; [done| |rewrite Hvo; apply next_votes_nonempty].
  split.
  - rewrite Hl. by apply next_tower_ok.
  - rewrite Hr, Hl. by apply next_root_ok.
  - rewrite Hc. by apply next_credits_ok.
  - rewrite Hvo. by apply next_votes_latency.
Qed.

(** Every vote leaves a well-formed state, without a panic. *)
Lemma process_next_vote_slot_ok s next epoch cur : is_u64 next -> vs_ok s ->
  exists s', process_next_vote_slot s next epoch cur = Some s' /\ vs_ok s' /\ votes s' <> [].
Proof using VL HL.
  intros Hu Hok. destruct (last (votes s)) as [v|] eqn:Hv.
  - destruct (decide (next <= vslot v)) as [Hle|Hgt].
    + exists s. rewrite (process_next_vote_slot_old _ _ _ _ v) by done.
      split_and!; [done..|]. by destruct (votes s).
    + apply process_next_vote_slot_new_ok; [done..|]. intros w. rewrite Hv. intros [= <-]. lia.
  - apply process_next_vote_slot_new_ok; [done..|]. by rewrite Hv.
Qed.

Lemma process_next_vote_slots_ok slots : forall s epoch cur, Forall is_u64 slots -> vs_ok s ->
  exists s', process_next_vote_slots s slots epoch cur = Some s' /\ vs_ok s'.
Proof using VL HL.
  induction slots as [|x slots IH]; intros s epoch cur Hu Hok; simpl; [by exists s|].
  apply Forall_cons in Hu as [Hx Hu].
  destruct (process_next_vote_slot_ok s x epoch cur Hx Hok) as (s' & -> & Hok' & _). simpl. by apply IH.
Qed.
End Handle.

(** ** The validator's own tower makes the same step *)
Section OwnTower.
Context `{VL : VoteInterfaceLaws}.
Implicit Types t : TowerVoteState.

Lemma tower_pop_expired_eq t next :
  tower_pop_expired_votes t next = MkTowerVoteState (still_locked next (tower_votes t)) (tower_root_slot t).
Proof.
  unfold tower_pop_expired_votes, still_locked.
  enough (forall fuel t, tower_pop_expired_loop fuel t next =
    MkTowerVoteState (pop_while (expired next) fuel (tower_votes t)) (tower_root_slot t)) as He by apply He.
  induction fuel as [|fuel IH]; intros [l r]; simpl; [done|]. unfold tower_last_lockout. simpl.
  destruct (last l) as [v|]; [|done]. unfold expired. split_if; [apply IH|done].
Qed.

Lemma tower_process_next_vote_slot_eq t next : is_u64 next -> tower_ok (tower_votes t) ->
  (forall v, last (tower_votes t) = Some v -> slot v < next) ->
  tower_process_next_vote_slot t next = Some (MkTowerVoteState (next_tower next (tower_votes t))
    (next_root next (tower_votes t) (tower_root_slot t))).
Proof using VL.
  intros Hu Hok Hnew. unfold tower_process_next_vote_slot, tower_last_voted_slot, tower_last_lockout.
  replace (from_option _ false _) with false; cycle 1.
  { destruct (last (tower_votes t)) as [v|] eqn:Hv; simpl; [|done].
    specialize (Hnew v eq_refl). symmetry. apply Z.leb_gt. lia. }
  rewrite tower_pop_expired_eq. simpl. destruct (pushed_spec next Hu _ Hok Hnew) as (Hlen & Hc & _).
  unfold next_tower, next_root, without_rooted in *.
  assert (forall k r, (length k <= MAX_LOCKOUT_HISTORY)%nat ->
    Forall (fun v => 1 <= confirmation_count v <= Z.of_nat MAX_LOCKOUT_HISTORY) k ->
    tower_double_lockouts (MkTowerVoteState k r) = Some (MkTowerVoteState (double_all k) r)) as Hdouble.
  { intros k r Hk Hck. unfold tower_double_lockouts. simpl.
    rewrite (mapM_imap_total _ (double_at (length k))); [done|]. intros i v Hv.
    apply double_lockout_at; [done|by eapply lookup_lt_Some|]. exact (Forall_lookup_1 _ _ _ _ Hck Hv). }
  destruct (length (still_locked next (tower_votes t)) =? MAX_LOCKOUT_HISTORY)%nat eqn:Hfull.
  - apply Nat.eqb_eq in Hfull. pose proof max_lockout_history_range as [Hmax _].
    destruct (still_locked next (tower_votes t)) as [|v k]; [simpl in Hfull; lia|]. simpl.
    by apply Hdouble.
  - simpl. by apply Hdouble.
Qed.
End OwnTower.
