(* ===== verification/VoteSync.v ===== *)
(** * Vote state: whole towers

    [process_new_vote_state], which replaces the tower of a vote state by one
    that is submitted whole: it accepts exactly the towers that the comment
    above it describes, and what it leaves is stated field by field. *)

From S2P Require Import Prelude VoteState VoteTower VoteSteps.
Import Vote.

(** Votes in the order of their slots. *)
Abbreviation by_slot := (StronglySorted (fun v w => vslot v < vslot w)).

Section Sync.
Context `{VL : VoteInterfaceLaws} {T : Type} {HT : VoteStateHandle T} {HL : VoteStateHandleLaws T}.
Implicit Types s : T.

(** ** The checks on the new tower alone *)

Definition above_root (root : option Slot) (v : Lockout) : Prop :=
  match root with
  | Some r => r = 0 \/ r < slot v
  | None => True
  end.

Lemma check_new_vote_ok root prev v :
  check_new_vote root prev v = Ok tt <->
  1 <= vcount v <= Z.of_nat MAX_LOCKOUT_HISTORY /\ above_root root (lockout v) /\
  (forall p, prev = Some p -> vote_step (lockout p) (lockout v)).
Proof using VL.
  unfold check_new_vote, above_root, vote_step, vslot, vcount.
  pose proof (confirmation_count_range (lockout v)) as [Hpos _].
  destruct root as [r|], prev as [p|]; simpl; split_ifs; bool_to_prop;
    repeat match goal with H : _ \/ _ |- _ => destruct H; bool_to_prop end;
    (split; [intros Hx; try discriminate Hx; split_and!; naive_solver lia
            |intros (Hc & Ha & Hp); try (specialize (Hp _ eq_refl)); try done; lia]).
Qed.

Lemma check_new_votes_ok root l : forall prev,
  check_new_votes root prev l = Ok tt <->
  Forall (fun v => 1 <= confirmation_count v <= Z.of_nat MAX_LOCKOUT_HISTORY) (lockout <$> l) /\
  Forall (above_root root) (lockout <$> l) /\
  Sorted vote_step (option_list (lockout <$> prev) ++ (lockout <$> l)).
Proof using VL.
  induction l as [|v l IH]; intros prev; simpl.
  { destruct prev; simpl; split; intros; repeat constructor. }
  rewrite result_bind_ok, !Forall_cons. split.
  - intros ([] & Hv%check_new_vote_ok & (Hc & Ha & Hs)%IH). simpl in Hs.
    split_and!; try apply Hv; [done..|]. destruct prev as [p|]; simpl; [|done].
    constructor; [done|]. constructor. by apply Hv.
  - intros ([Hc Hcs] & [Ha Has] & Hs). exists tt. rewrite check_new_vote_ok, IH.
    assert (Sorted vote_step (lockout v :: (lockout <$> l))) as Hvl.
    { destruct prev; simpl in Hs; [by apply Sorted_inv in Hs as [Hs _]|done]. }
    split; [split_and!|split_and!]; try done; [apply Hc..|].
    intros p ->. simpl in Hs. apply Sorted_inv in Hs as [_ Hp]. by inversion Hp.
Qed.

(** ** The votes that become rooted *)

Definition rooted (root : option Slot) (l : list LandedVote) : list LandedVote :=
  match root with Some r => filter (fun v => vslot v <= r) l | None => [] end.

Definition unrooted (root : option Slot) (l : list LandedVote) : list LandedVote :=
  match root with Some r => filter (fun v => r < vslot v) l | None => l end.

Definition earned (root : option Slot) (l : list LandedVote) : Z :=
  Zsum (fun v => vote_credits (latency v)) (rooted root l).

Lemma by_slot_split r l : by_slot l ->
  l = filter (fun v => vslot v <= r) l ++ filter (fun v => r < vslot v) l.
Proof using Type.
  induction 1 as [|v l Hs IH Hv]; [done|]. rewrite !filter_cons.
  destruct (decide (vslot v <= r)).
  - rewrite (decide_False (P := r < vslot v)) by lia. simpl. by rewrite <- IH.
  - rewrite (decide_True (P := r < vslot v)) by lia.
    rewrite (filter_none (fun v => vslot v <= r)) in IH |- *; simpl; [by f_equal| |].
    all: rewrite Forall_forall in Hv; apply Forall_forall; intros w Hw%Hv; lia.
Qed.

Lemma rooted_unrooted root l : by_slot l -> l = rooted root l ++ unrooted root l.
Proof using Type. destruct root; simpl; [apply by_slot_split|done]. Qed.

Lemma rooted_votes_eq s r l : forall done acc,
  votes s = done ++ l -> by_slot l ->
  0 <= acc -> acc + Z.of_nat (length l) * VOTE_CREDITS_MAXIMUM_PER_SLOT <= U64_MAX ->
  rooted_votes s r l (length done) acc =
    Some ((length done + length (rooted (Some r) l))%nat, acc + earned (Some r) l).
Proof using VL.
  unfold earned. simpl. induction l as [|v l IH]; intros dn acc Hv Hs Hacc Hmax; simpl.
  { by rewrite Nat.add_0_r, Z.add_0_r. }
  apply StronglySorted_inv in Hs as [Hs Hle]. rewrite filter_cons. simpl in Hmax. split_if; bool_to_prop.
  - rewrite decide_True by done. rewrite credits_for_vote_eq, Hv, list_lookup_middle by done. simpl.
    pose proof (vote_credits_range (latency v)). unfold checked_add.
    rewrite (proj2 (Z.leb_le _ _)) by nia. simpl.
    replace (S (length dn)) with (length (dn ++ [v])) by (rewrite length_app; simpl; lia).
    rewrite IH; [|by rewrite <- app_assoc|done|lia|lia]. rewrite length_app. unfold Zsum. simpl.
    do 2 f_equal; lia.
  - rewrite decide_False by lia.
    rewrite (filter_none (fun v => vslot v <= r)); [simpl; do 2 f_equal; lia|].
    rewrite Forall_forall in Hle. apply Forall_forall. intros w Hw%Hle. lia.
Qed.

(** ** The two towers against each other *)

(** No vote of the current tower is rolled back: one that is still there keeps
    its confirmations, one that is gone had expired at every later vote. *)
Definition no_rollback (cur new : list LandedVote) : Prop :=
  forall v, v ∈ cur ->
    (forall w, w ∈ new -> vslot w = vslot v -> vcount v <= vcount w) /\
    (vslot v ∉ vslot <$> new ->
     forall w, w ∈ new -> vslot v < vslot w -> last_locked_out_slot (lockout v) < vslot w).

(** A vote that was there keeps its latency. *)
Definition carry_latency (cur : list LandedVote) (w : LandedVote) : LandedVote :=
  match list_find (fun v => vslot v = vslot w) cur with
  | Some (_, v) => set_latency w (latency v)
  | None => w
  end.

Lemma carry_skip v cur w : vslot v <> vslot w -> carry_latency (v :: cur) w = carry_latency cur w.
Proof using Type.
  intros Hne. unfold carry_latency. simpl. rewrite decide_False by done.
  by destruct (list_find _ cur) as [[]|].
Qed.

Lemma carry_fresh cur w : Forall (fun v => vslot v <> vslot w) cur -> carry_latency cur w = w.
Proof using Type.
  intros Hc. unfold carry_latency. destruct (list_find _ cur) as [[i v]|] eqn:Hf; [|done].
  apply list_find_Some in Hf as (Hv & Heq & _). by pose proof (Forall_lookup_1 _ _ _ _ Hc Hv).
Qed.

Lemma carry_skip_all v cur l : Forall (fun w => vslot v < vslot w) l ->
  carry_latency (v :: cur) <$> l = carry_latency cur <$> l.
Proof using Type.
  intros Hl. apply list_fmap_ext. intros i w Hw. apply carry_skip.
  pose proof (Forall_lookup_1 _ _ _ _ Hl Hw) as Hvw. simpl in Hvw. lia.
Qed.

Section Cases.
Context (v w : LandedVote) (cur new : list LandedVote).
Context (Hcur : Forall (fun u => vslot v < vslot u) cur) (Hnew : Forall (fun u => vslot w < vslot u) new).

Lemma no_rollback_popped : vslot v < vslot w ->
  no_rollback (v :: cur) (w :: new) <->
  last_locked_out_slot (lockout v) < vslot w /\ no_rollback cur (w :: new).
Proof using Hnew.
  intros Hlt. rewrite Forall_forall in Hnew. split.
  - intros Hr. split; [|intros u Hu; apply Hr; by right].
    apply (Hr v); [left| |left|done]. rewrite fmap_cons, elem_of_cons, list_elem_of_fmap.
    intros [|(u & Hu & Hin%Hnew)]; lia.
  - intros [Hexp Hr] u [->|Hu]%elem_of_cons; [|by apply Hr].
    split; intros; repeat match goal with H : _ ∈ w :: new |- _ => apply elem_of_cons in H as [->|H%Hnew] end; lia.
Qed.

Lemma no_rollback_kept : vslot v = vslot w ->
  no_rollback (v :: cur) (w :: new) <-> vcount v <= vcount w /\ no_rollback cur new.
Proof using Hcur Hnew.
  intros Heq. rewrite Forall_forall in Hcur, Hnew. split.
  - intros Hr. split; [apply (Hr v); [left..|done]|]. intros u Hu. pose proof (Hcur u Hu) as Hvu.
    destruct (Hr u) as [H1 H2]; [by right|]. split; [intros x Hx; apply H1; by right|].
    intros Hn x Hx. apply H2; [|by right]. rewrite fmap_cons, elem_of_cons. intros [|]; [lia|done].
  - intros [Hc Hr] u [->|Hu]%elem_of_cons.
    + split.
      * intros x [->|Hx%Hnew]%elem_of_cons; [done|lia].
      * intros Hn. rewrite fmap_cons, Heq in Hn. destruct Hn. left.
    + pose proof (Hcur u Hu) as Hvu. destruct (Hr u Hu) as [H1 H2]. split.
      * intros x [->|Hx]%elem_of_cons; [lia|by apply H1].
      * intros Hn x [->|Hx]%elem_of_cons; [lia|]. apply H2; [|done]. intros Hin. apply Hn. rewrite fmap_cons. by right.
Qed.

Lemma no_rollback_fresh : vslot w < vslot v ->
  no_rollback (v :: cur) (w :: new) <-> no_rollback (v :: cur) new.
Proof using Hcur.
  intros Hlt. assert (forall u, u ∈ v :: cur -> vslot w < vslot u) as Hw.
  { rewrite Forall_forall in Hcur. intros u [->|Hu%Hcur]%elem_of_cons; lia. }
  split; intros Hr u Hu; destruct (Hr u Hu) as [H1 H2]; specialize (Hw u Hu); split.
  - intros x Hx. apply H1. by right.
  - intros Hn x Hx. apply H2; [|by right]. rewrite fmap_cons, elem_of_cons. intros [|]; [lia|done].
  - intros x [->|Hx]%elem_of_cons; [lia|by apply H1].
  - intros Hn x [->|Hx]%elem_of_cons; [lia|]. apply H2; [|done].
    intros Hin. apply Hn. rewrite fmap_cons. by right.
Qed.
End Cases.

Lemma compare_votes_eq s fuel : forall cdone cur ndone new,
  votes s = cdone ++ cur -> by_slot cur -> by_slot new -> (length cur + length new < fuel)%nat ->
  let r := compare_votes fuel s (ndone ++ new) (length cdone) (length ndone) in
  (no_rollback cur new -> r = Some (Ok (ndone ++ (carry_latency cur <$> new)))) /\
  (no_rollback cur new \/ exists e, r = Some (Err e)).
Proof using VL HL.
  induction fuel as [|fuel IH]; intros cdone cur ndone new Hv Hsc Hsn Hfuel; [lia|]. simpl.
  destruct cur as [|v cur].
  { rewrite Hv, app_nil_r, (lookup_ge_None_2 cdone) by done. split; [|left; intros u Hu; set_solver].
    intros _. do 3 f_equal. rewrite <- (list_fmap_id new) at 1. by apply list_fmap_ext. }
  rewrite Hv, list_lookup_middle by done.
  destruct new as [|w new].
  { rewrite app_nil_r, (lookup_ge_None_2 ndone) by done. split; [by rewrite app_nil_r|].
    left. intros u _. split; set_solver. }
  rewrite list_lookup_middle by done.
  pose proof Hsc as [Hsc' Hcv]%StronglySorted_inv. pose proof Hsn as [Hsn' Hnw]%StronglySorted_inv.
  assert (votes s = (cdone ++ [v]) ++ cur) as Hv' by (by rewrite <- app_assoc).
  assert (length (cdone ++ [v]) = S (length cdone)) as Hlc by (rewrite length_app; simpl; lia).
  assert (forall x, length (ndone ++ [x]) = S (length ndone)) as Hln by (intros; rewrite length_app; simpl; lia).
  simpl in Hfuel. destruct (Z.compare_spec (vslot v) (vslot w)) as [Heq|Hlt|Hgt].
  - rewrite no_rollback_kept by done. split_if; bool_to_prop.
    { split; [lia|]. right. by eexists. }
    specialize (IH (cdone ++ [v]) cur (ndone ++ [set_latency w (latency v)]) new).
    rewrite Hlc, Hln, <- !app_assoc in IH. simpl in IH.
    rewrite insert_app_r_alt, Nat.sub_diag by done. simpl.
    destruct IH as [H1 H2]; [done..|lia|]. split; [|destruct H2; [left; by split; [lia|]|by right]].
    intros [_ Hr%H1]. rewrite Hr. do 3 f_equal. simpl.
    rewrite carry_skip_all by (eapply Forall_impl; [done|]; simpl; intros; lia).
    unfold carry_latency at 2. simpl. by rewrite decide_True by done.
  - rewrite no_rollback_popped by done. split_if; bool_to_prop.
    { split; [lia|]. right. by eexists. }
    specialize (IH (cdone ++ [v]) cur ndone (w :: new)). rewrite Hlc in IH.
    destruct IH as [H1 H2]; [done..|simpl; lia|]. split; [|destruct H2; [left; by split; [lia|]|by right]].
    intros [_ Hr%H1]. rewrite Hr. rewrite carry_skip_all; [done|]. constructor; [done|].
    eapply Forall_impl; [done|]. simpl. intros. lia.
  - rewrite no_rollback_fresh by done.
    specialize (IH cdone (v :: cur) (ndone ++ [w]) new). rewrite Hln, <- !app_assoc in IH. simpl in IH.
    destruct IH as [H1 H2]; [done..|simpl; lia|]. split; [|destruct H2; auto].
    intros Hr%H1. rewrite Hr. do 3 f_equal. simpl. f_equal. symmetry. apply carry_fresh.
    constructor; [lia|]. eapply Forall_impl; [done|]. simpl. intros. lia.
Qed.

(** ** Acceptance *)

(** A timestamp never goes back; at the slot of the last one it may only repeat it. *)
Definition timestamp_ok (last : BlockTimestamp) (slot : Slot) (timestamp : UnixTimestamp) : Prop :=
  ts_slot last <= slot /\ ts_timestamp last <= timestamp /\
  (slot = ts_slot last -> timestamp = ts_timestamp last \/ ts_slot last = 0).

#[global] Instance timestamp_ok_dec l x y : Decision (timestamp_ok l x y).
Proof. unfold timestamp_ok. apply _. Defined.

Lemma process_timestamp_eq s x y :
  process_timestamp s x y =
  if decide (timestamp_ok (last_timestamp s) x y)
  then Ok (set_last_timestamp s (MkBlockTimestamp x y)) else Err TimestampTooOld.
Proof using Type.
  unfold process_timestamp, timestamp_ok. destruct (last_timestamp s) as [a b]. simpl.
  case_decide as Ht; split_if; try done; exfalso.
  - bool_to_prop. repeat match goal with H : _ \/ _ |- _ => destruct H as [H|H]; bool_to_prop end; try lia.
    all: naive_solver lia.
  - bool_to_prop. apply Ht. split_and!; [lia..|]. intros ->.
    repeat match goal with H : _ \/ _ |- _ => destruct H as [H|H]; bool_to_prop end; try lia.
    all: simplify_eq; auto.
Qed.

(** The root never goes back. *)
Definition root_forward (current new : option Slot) : Prop :=
  match current, new with
  | Some r, Some r' => r <= r'
  | Some _, None => False
  | None, _ => True
  end.

Lemma check_root_ok current new : check_root current new = Ok tt <-> root_forward current new.
Proof using Type. destruct current, new; simpl; try done. split_if; bool_to_prop; naive_solver lia. Qed.

(** The towers [process_new_vote_state] accepts. *)
Record accepts (s : T) (new : list LandedVote) (root : option Slot) (ts : option UnixTimestamp) : Prop := {
  accepts_tower : tower_ok (lockout <$> new);
  accepts_forward : root_forward (root_slot s) root;
  accepts_above : Forall (above_root root) (lockout <$> new);
  accepts_votes : no_rollback (unrooted root (votes s)) new;
  accepts_timestamp : forall t v, ts = Some t -> last new = Some v ->
    timestamp_ok (last_timestamp s) (vslot v) t
}.

(** The votes it leaves: votes that were there keep their latency, and those
    without one get the latency of this instruction. *)
Definition accepted_votes (s : T) (new : list LandedVote) (root : option Slot) (cur : Slot) :
    list LandedVote :=
  fill_latency cur <$> (carry_latency (unrooted root (votes s)) <$> new).

Definition accepted (s : T) (new : list LandedVote) (root : option Slot) (ts : option UnixTimestamp)
    (epoch : Epoch) (cur : Slot) : T :=
  let s1 := if bool_decide (root_slot s = root) then s
            else set_epoch_credits s (credited epoch (earned root (votes s)) (epoch_credits s)) in
  let s2 := match ts, last new with
            | Some t, Some v => set_last_timestamp s1 (MkBlockTimestamp (vslot v) t)
            | _, _ => s1
            end in
  set_votes (set_root_slot s2 root) (accepted_votes s new root cur).

Lemma fill_latency_lockout cur v : lockout (fill_latency cur v) = lockout v.
Proof using Type. unfold fill_latency. by split_if. Qed.

Lemma carry_latency_lockout cur v : lockout (carry_latency cur v) = lockout v.
Proof using Type. unfold carry_latency. by destruct (list_find _ cur) as [[]|]. Qed.

Lemma accepted_votes_lockouts s new root cur :
  lockout <$> accepted_votes s new root cur = lockout <$> new.
Proof using Type.
  unfold accepted_votes. rewrite <- !list_fmap_compose. apply list_fmap_ext. intros i v _. simpl.
  by rewrite fill_latency_lockout, carry_latency_lockout.
Qed.

Lemma votes_by_slot (l : list LandedVote) : tower_ok (lockout <$> l) -> by_slot l.
Proof using VL.
  intros [_ _ Hs]. apply Sorted_StronglySorted; [intros ???; lia|]. rewrite Sorted_fmap in Hs.
  eapply Sorted_lookup. intros i x y Hx Hy. exact (proj1 (proj1 (Sorted_lookup _ _) Hs i x y Hx Hy)).
Qed.

Lemma rooted_votes_total s root : tower_ok (lockouts s) ->
  match root with Some r => rooted_votes s r (votes s) 0 0 | None => Some (0%nat, 0) end =
  Some (length (rooted root (votes s)), earned root (votes s)).
Proof using VL.
  intros Hok. pose proof (votes_by_slot _ Hok) as Hs. destruct root as [r|]; [|done].
  rewrite (rooted_votes_eq s r (votes s) []) with (acc := 0); [done..|lia|].
  destruct Hok as [Hlen _ _]. unfold lockouts in Hlen. rewrite length_fmap in Hlen.
  pose proof max_lockout_history_range as [_ Hmax]. pose proof credits_maximum_range as Hc.
  unfold word_max in *. nia.
Qed.

Lemma last_lockout_eq (l k : list LandedVote) v : lockout <$> l = lockout <$> k -> last k = Some v ->
  exists w, last l = Some w /\ vslot w = vslot v.
Proof using Type.
  intros Heq%(f_equal last) Hv. rewrite !fmap_last, Hv in Heq. apply fmap_Some in Heq as (w & Hw & Heq).
  exists w. unfold vslot. by rewrite Heq.
Qed.

(** The function never panics on a tower; it accepts exactly the towers above. *)
Lemma process_new_vote_state_eq s new root ts epoch cur : vs_ok s -> new <> [] ->
  exists s' r, process_new_vote_state s new root ts epoch cur = Some (s', r) /\
    (r = Ok tt <-> accepts s new root ts) /\ (r = Ok tt -> s' = accepted s new root ts epoch cur).
Proof using VL HL.
  intros [Hok _ _ _] Hne. unfold process_new_vote_state. rewrite bool_decide_eq_false_2 by done.
  split_if.
  { eexists _, _. split_and!; [done| |done]. split; [done|]. intros [[Hlen _ _] _ _ _ _].
    rewrite length_fmap in Hlen. apply Nat.ltb_lt in E. lia. }
  apply Nat.ltb_ge in E.
  destruct (check_root (root_slot s) root) as [[]|e] eqn:Hroot; cycle 1.
  { eexists _, _. split_and!; [done| |done]. split; [done|]. intros [_ Hf%check_root_ok _ _ _]. congruence. }
  apply check_root_ok in Hroot.
  destruct (check_new_votes root None new) as [[]|e] eqn:Hnew; cycle 1.
  { eexists _, _. split_and!; [done| |done]. split; [done|]. intros [[_ Hc Hs] _ Ha _ _].
    assert (check_new_votes root None new = Ok tt) by (by apply check_new_votes_ok). congruence. }
  apply check_new_votes_ok in Hnew as (Hc & Ha & Hs). simpl in Hs.
  assert (tower_ok (lockout <$> new)) as Htower by (split; [by rewrite length_fmap|done..]).
  rewrite rooted_votes_total by done. simpl.
  pose proof (votes_by_slot _ Hok) as Hbs. pose proof (rooted_unrooted root _ Hbs) as Hsplit.
  destruct (compare_votes_eq s (length (votes s) + length new + 1) (rooted root (votes s))
    (unrooted root (votes s)) [] new) as [Hcmp1 Hcmp2]; [done|..].
  { rewrite Hsplit in Hbs. by apply StronglySorted_app_r in Hbs. }
  { by apply votes_by_slot. }
  { pose proof (f_equal length Hsplit) as Hl. rewrite length_app in Hl. lia. }
  simpl in Hcmp1, Hcmp2. destruct Hcmp2 as [Hroll|[e He]]; cycle 1.
  { rewrite He. simpl. eexists _, _. split_and!; [done| |done]. split; [done|].
    intros [_ _ _ Hroll%Hcmp1 _]. congruence. }
  rewrite Hcmp1 by done. simpl. rewrite increment_credits_eq. unfold accepted. fold (accepted_votes s new root cur).
  destruct (last new) as [v|] eqn:Hlast; [|by apply last_None in Hlast].
  destruct (last_lockout_eq (accepted_votes s new root cur) new v) as (w & Hw & Hvw); [|done|].
  { apply accepted_votes_lockouts. }
  set (s1 := if bool_decide (root_slot s = root) then s else _).
  replace (if bool_decide (root_slot s = root) then Some s else _) with (Some s1)
    by (subst s1; by case_bool_decide).
  assert (last_timestamp s1 = last_timestamp s) as Hts
    by (subst s1; case_bool_decide; by autorewrite with handle).
  simpl. destruct ts as [t|]; simpl.
  2:{ eexists _, _. split_and!; [done| |done]. split; [by split|done]. }
  rewrite Hw. simpl. rewrite process_timestamp_eq, Hts, Hvw. case_decide as Ht.
  - eexists _, _. split_and!; [done| |done]. split; [|done]. intros _. split; [done..|].
    intros t' v' [= <-]. rewrite Hlast. by intros [= <-].
  - eexists _, _. split_and!; [done| |done]. split; [done|]. intros [_ _ _ _ Htime].
    by destruct Ht; apply Htime.
Qed.
End Sync.
