(* ===== verification/VoteHistory.v ===== *)
(** * Vote state: proposals against the history of slot hashes

    [check_and_filter_proposed_vote_state]: which proposals agree with the slot
    hashes of the fork, and what is left of them. *)

From S2P Require Import Prelude VoteState VoteTower VoteSteps VoteSync.
Import Vote.

Section History.
Context `{VL : VoteInterfaceLaws} {T : Type} {HT : VoteStateHandle T} {HL : VoteStateHandleLaws T}.
Implicit Types s : T.

(** The slot hashes are sorted from the newest slot to the oldest. *)
Definition history_sorted (H : list (Slot * Hash)) : Prop :=
  StronglySorted (fun a b => b.1 < a.1) H.

Section Loop.
Context (s : T) (P : list Lockout) (H : list (Slot * Hash)) (E : Slot).
Context (Hsorted : history_sorted H) (HE : exists h, last H = Some (E, h)).

Lemma ancestor si : (0 < si <= length H)%nat ->
  exists a h, H !! (si - 1)%nat = Some (a, h) /\ take si H = take (si - 1) H ++ [(a, h)] /\
    (forall b, b ∈ take (si - 1) H -> a < b.1) /\ (si = length H -> a = E) /\ E <= a.
Proof.
  intros Hsi. destruct (lookup_lt_is_Some_2 H (si - 1)) as [[a h] Ha]; [lia|]. exists a, h.
  assert (take si H = take (si - 1) H ++ [(a, h)]) as Ht.
  { replace si with (S (si - 1)) at 1 by lia. by apply take_S_r. }
  pose proof Hsorted as Hs. rewrite <- (take_drop si H), Ht, <- app_assoc in Hs. simpl in Hs.
  assert (si = length H -> a = E) as HaE.
  { intros ->. destruct HE as [h' Hl]. rewrite last_lookup in Hl.
    replace (Init.Nat.pred (length H)) with (length H - 1)%nat in Hl by lia. congruence. }
  split_and!; [done|done| |done|].
  - intros b Hb. apply list_elem_of_split in Hb as (l1 & l2 & Hl). rewrite Hl, <- app_assoc in Hs. simpl in Hs.
    apply (StronglySorted_after _ _ _ _ (a, h)) in Hs; [done|set_solver].
  - destruct (decide (si = length H)) as [Heq|Hne]; [by rewrite HaE|].
    destruct HE as [h' Hl]. assert ((E, h') ∈ drop si H) as Hin.
    { rewrite <- (last_drop_lt si) in Hl by lia. apply last_Some in Hl as [l' ->]. set_solver. }
    apply StronglySorted_app_r in Hs. apply (StronglySorted_after _ [] _ _ (E, h')) in Hs; [simpl in Hs; lia|done].
Qed.

(** From position [pi] on the proposal is ordered, and every slot is found among
    the newest [si] of the history, or is older than all of it. *)
Definition matches (pi si : nat) : Prop :=
  (forall i x y, (pi <= S i)%nat -> P !! i = Some x -> P !! S i = Some y -> slot x < slot y) /\
  (forall i v, (pi <= i)%nat -> P !! i = Some v ->
    slot v ∈ (take si H).*1 \/ (si = length H /\ slot v < E)).

(** What is filtered out: slots that are too old and unknown. *)
Definition dropped (v : Lockout) : bool := (slot v <? E) && negb (contains_slot s (slot v)).

Definition dropped_from (pi : nat) : list nat :=
  filter (fun i => from_option dropped false (P !! i) = true) (seq pi (length P - pi)).

Lemma dropped_from_step pi v : P !! pi = Some v ->
  dropped_from pi = (if dropped v then [pi] else []) ++ dropped_from (S pi).
Proof.
  intros Hv. pose proof (lookup_lt_Some _ _ _ Hv). unfold dropped_from.
  replace (length P - pi)%nat with (S (length P - S pi)) by lia. simpl. rewrite filter_cons, Hv. simpl.
  destruct (dropped v); [by rewrite decide_True|by rewrite decide_False].
Qed.

Lemma matches_end si : matches (length P) si.
Proof.
  split; [intros i x y Hi _ Hy|intros i v Hi Hv]; [pose proof (lookup_lt_Some _ _ _ Hy)|pose proof (lookup_lt_Some _ _ _ Hv)]; lia.
Qed.

Lemma matches_later pi si i v u : matches pi si -> P !! pi = Some v -> (pi < i)%nat -> P !! i = Some u ->
  slot v < slot u.
Proof.
  intros [Ho _] Hv Hi. revert u. induction i as [|i IH]; [lia|]. intros u Hu.
  destruct (decide (pi = i)) as [->|]; [apply (Ho i); [lia|done..]|].
  destruct (lookup_lt_is_Some_2 P i) as [w Hw]; [pose proof (lookup_lt_Some _ _ _ Hu); lia|].
  specialize (IH ltac:(lia) w Hw). specialize (Ho i w u ltac:(lia) Hw Hu). lia.
Qed.

(** The slot before position [pi], if there is one, is older. *)
Definition ordered_at (pi : nat) : Prop :=
  forall x y, (0 < pi)%nat -> P !! (pi - 1)%nat = Some x -> P !! pi = Some y -> slot x < slot y.

Lemma matches_ordered pi si : matches pi si -> ordered_at pi.
Proof.
  intros [Ho _] x y Hpi Hx Hy. apply (Ho (pi - 1)%nat); [lia|done|]. by replace (S (pi - 1)) with pi by lia.
Qed.

Lemma matches_more pi si v : P !! pi = Some v -> ordered_at pi ->
  (slot v ∈ (take si H).*1 \/ (si = length H /\ slot v < E)) -> matches (S pi) si -> matches pi si.
Proof.
  intros Hv Ho Hin [Ho' Hin']. split.
  - intros i x y Hi Hx Hy. destruct (decide (S i = pi)) as [<-|]; [|apply (Ho' i); [lia|done..]].
    apply Ho; [lia| |done]. by replace (S i - 1)%nat with i by lia.
  - intros i u Hi Hu. destruct (decide (i = pi)) as [->|]; [|apply (Hin' i); [lia|done]].
    by simplify_eq.
Qed.

(** A slot too old for the history is passed over while none of it is used. *)
Lemma matches_old pi v : P !! pi = Some v -> ordered_at pi -> slot v < E ->
  matches pi (length H) <-> matches (S pi) (length H).
Proof.
  intros Hv Ho HvE. split; [|intros; apply (matches_more pi _ v); auto].
  intros [Ho' Hin]. split; [intros i x y Hi; apply Ho'; lia|intros i u Hi; apply Hin; lia].
Qed.

(** A slot newer than the oldest one left passes it over. *)
Lemma matches_newer pi si a h v : (0 < si <= length H)%nat -> H !! (si - 1)%nat = Some (a, h) ->
  P !! pi = Some v -> a < slot v -> matches pi si <-> matches pi (si - 1).
Proof.
  intros Hsi Ha Hv Hlt. destruct (ancestor si Hsi) as (a' & h' & Ha' & Ht & Hb & HaE & HEa). simplify_eq. split.
  - intros Hm. split; [apply Hm|]. intros i u Hi Hu. left.
    assert (slot v <= slot u) as Hle.
    { destruct (decide (i = pi)) as [->|]; [simplify_eq; lia|].
      pose proof (matches_later pi si i v u Hm Hv ltac:(lia) Hu). lia. }
    destruct (proj2 Hm i u Hi Hu) as [Hin|[-> HuE]]; [|specialize (HaE eq_refl); lia].
    rewrite Ht, fmap_app in Hin. apply elem_of_app in Hin as [Hin|Hin%list_elem_of_singleton]; [done|simpl in Hin; lia].
  - intros [Ho Hin]. split; [done|]. intros i u Hi Hu. destruct (Hin i u Hi Hu) as [Hx|[Hx _]]; [|lia].
    left. rewrite Ht, fmap_app. set_solver.
Qed.

(** A slot that is found uses up the history to it. *)
Lemma matches_found pi si a h v : (0 < si <= length H)%nat -> H !! (si - 1)%nat = Some (a, h) ->
  P !! pi = Some v -> slot v = a -> ordered_at pi -> matches pi si <-> matches (S pi) (si - 1).
Proof.
  intros Hsi Ha Hv <- Ho. destruct (ancestor si Hsi) as (a' & h' & Ha' & Ht & Hb & HaE & HEa). simplify_eq. split.
  - intros Hm. split; [intros i x y Hi; apply Hm; lia|]. intros i u Hi Hu. left.
    pose proof (matches_later pi si i v u Hm Hv ltac:(lia) Hu).
    destruct (proj2 Hm i u ltac:(lia) Hu) as [Hin|[-> HuE]]; [|specialize (HaE eq_refl); lia].
    rewrite Ht, fmap_app in Hin. apply elem_of_app in Hin as [Hin|Hin%list_elem_of_singleton]; [done|simpl in Hin; lia].
  - intros [Ho' Hin]. apply (matches_more pi si v); [done..| |].
    + left. rewrite Ht, fmap_app. set_solver.
    + split; [done|]. intros i u Hi Hu. destruct (Hin i u Hi Hu) as [Hx|[Hx _]]; [|lia].
      left. rewrite Ht, fmap_app. set_solver.
Qed.

(** A slot older than the oldest one left, when some of the history is used, is
    on another fork. *)
Lemma matches_missing pi si a h v : (0 < si < length H)%nat -> H !! (si - 1)%nat = Some (a, h) ->
  P !! pi = Some v -> slot v < a -> ~ matches pi si.
Proof.
  intros Hsi Ha Hv Hlt [_ Hin]. destruct (ancestor si ltac:(lia)) as (a' & h' & Ha' & Ht & Hb & _). simplify_eq.
  destruct (Hin pi v) as [Hx|[Hx _]]; [done..| |lia].
  rewrite Ht, fmap_app in Hx. apply elem_of_app in Hx as [Hx|Hx%list_elem_of_singleton]; [|simpl in Hx; lia].
  apply list_elem_of_fmap in Hx as ([b h''] & Heq & Hb'%Hb). simpl in *. lia.
Qed.

Lemma not_ordered_eq pi v : P !! pi = Some v ->
  exists b : bool,
    (if (0 <? pi)%nat
     then previous ← P !! (pi - 1)%nat; Some (slot v <=? slot previous) else Some false) = Some b /\
    (b = true <-> ~ ordered_at pi).
Proof.
  intros Hv. destruct (Nat.ltb_spec 0 pi) as [Hpi|Hpi].
  - destruct (lookup_lt_is_Some_2 P (pi - 1)) as [w Hw]; [pose proof (lookup_lt_Some _ _ _ Hv); lia|].
    rewrite Hw. simpl. eexists. split; [done|]. unfold ordered_at. rewrite Hw, Hv. rewrite Z.leb_le. split.
    + intros Hle Ho. specialize (Ho w v Hpi eq_refl eq_refl). lia.
    + intros Hn. destruct (decide (slot v <= slot w)); [done|]. destruct Hn. intros x y _ [= <-] [= <-]. lia.
  - eexists. split; [done|]. split; [done|]. intros Hn. destruct Hn. intros x y ?. lia.
Qed.

(** How the loop ends: the whole proposal was placed, or it is rejected. *)
Definition placed (pi si : nat) (tf : list nat) (r : option (result VoteError (nat * nat * list nat))) : Prop :=
  exists si', r = Some (Ok (length P, si', tf ++ dropped_from pi)) /\
    (pi = length P -> si' = si) /\
    (forall v, (pi < length P)%nat -> last P = Some v -> E <= slot v -> exists h, H !! si' = Some (slot v, h)).

Definition rejected (r : option (result VoteError (nat * nat * list nat))) : Prop :=
  (exists e, r = Some (Err e)) \/
  (exists pi si tf, r = Some (Ok (pi, si, tf)) /\ pi <> length P).

Definition loop_result (pi si : nat) (tf : list nat) (r : option (result VoteError (nat * nat * list nat))) :
    Prop :=
  (matches pi si /\ placed pi si tf r) \/ (~ matches pi si /\ rejected r).

Lemma loop_result_step pi si si' tf tf' v r : P !! pi = Some v ->
  (matches pi si <-> matches (S pi) si') ->
  tf' = tf ++ (if dropped v then [pi] else []) ->
  (forall w, S pi = length P -> last P = Some w -> E <= slot w -> exists h, H !! si' = Some (slot w, h)) ->
  loop_result (S pi) si' tf' r -> loop_result pi si tf r.
Proof.
  intros Hv Hm -> Hend [[Hm' Hp]|[Hm' Hr]]; [left|right; by rewrite Hm].
  split; [by apply Hm|]. destruct Hp as (si2 & -> & Heq & Hlast). exists si2.
  pose proof (lookup_lt_Some _ _ _ Hv). split_and!; [|lia|].
  - by rewrite (dropped_from_step pi v), <- app_assoc.
  - intros w _ Hw HEw. destruct (decide (S pi = length P)) as [Hl|]; [rewrite Heq by done; auto|].
    apply Hlast; [lia|done..].
Qed.

Lemma lockouts_loop_eq fuel : forall pi si tf, (pi <= length P)%nat -> (si <= length H)%nat ->
  (length P - pi + si < fuel)%nat ->
  loop_result pi si tf (check_and_filter_loop fuel s P H E None pi si tf).
Proof.
  induction fuel as [|fuel IH]; intros pi si tf Hpi Hsi Hfuel; [lia|].
  cbn [check_and_filter_loop].
  destruct (Nat.ltb_spec pi (length P)) as [Hlt|Hge]; cbn [andb]; cycle 1.
  { assert (pi = length P) as -> by lia. left. split; [apply matches_end|]. exists si. split_and!; [|done|lia].
    unfold dropped_from. by rewrite Nat.sub_diag, app_nil_r. }
  destruct (lookup_lt_is_Some_2 P pi Hlt) as [v Hv].
  assert (0 < length H)%nat as HnH.
  { destruct HE as [h Hl]. apply last_Some in Hl as [l' ->]. rewrite length_app. simpl. lia. }
  destruct (Nat.ltb_spec 0 si) as [Hsi0|]; cycle 1.
  { right. split; [|right; exists pi, si, tf; split; [done|lia]]. intros [_ Hin].
    destruct (Hin pi v) as [Hx|[Hx _]]; [done..| |lia]. assert (si = 0%nat) as -> by lia. by apply elem_of_nil in Hx. }
  rewrite Hv, !(bool_decide_eq_true_2 (None = None)) by done.
  cbn [mbind option_bind fmap option_fmap option_map andb].
  destruct (not_ordered_eq pi v Hv) as (b & Hb & Hord). rewrite Hb. cbn [mbind option_bind]. destruct b.
  { right. split; [|left; by eexists]. intros Hm%matches_ordered. by apply Hord. }
  assert (ordered_at pi) as Ho.
  { unfold ordered_at. intros x y Hp Hx Hy. destruct (decide (slot x < slot y)); [done|].
    assert (~ ordered_at pi) as Hn by (intros Ho; specialize (Ho x y Hp Hx Hy); lia). by apply Hord in Hn. }
  destruct (ancestor si ltac:(lia)) as (a & h & Ha & Ht & Hb' & HaE & HEa).
  rewrite Ha. cbn [mbind option_bind fst].
  destruct (Z.compare_spec (slot v) a) as [Heq|Hva|Hva].
  - apply (loop_result_step pi si (si - 1) tf tf v); [done|by apply (matches_found pi si a h v)| | |apply IH; lia].
    + unfold dropped. rewrite (proj2 (Z.ltb_ge _ _)) by lia. by rewrite app_nil_r.
    + intros w Hlen Hw _. exists h. rewrite last_lookup, <- Hlen in Hw. simpl in Hw. simplify_eq. done.
  - destruct (Nat.eqb_spec si (length H)) as [->|Hne].
    + rewrite (HaE eq_refl) in *. rewrite (proj2 (Z.leb_gt _ _)) by lia.
      eapply (loop_result_step pi _ (length H) tf); [done|by apply (matches_old pi v)| | |apply IH; lia].
      * unfold dropped. rewrite (proj2 (Z.ltb_lt _ _)) by lia. rewrite andb_true_r.
        simpl. destruct (negb _); [done|by rewrite app_nil_r].
      * intros w Hlen Hw HEw. rewrite last_lookup, <- Hlen in Hw. simpl in Hw. simplify_eq. lia.
    + right. split; [by apply (matches_missing pi si a h v); [lia|..]|]. left. by eexists.
  - destruct (IH pi (si - 1)%nat tf) as [[Hm (si' & Hr & Hx & Hy)]|[Hm Hr]]; [lia..| |].
    + left. split; [by apply (matches_newer pi si a h v)|]. exists si'. split_and!; [done|lia|done].
    + right. split; [|done]. by rewrite (matches_newer pi si a h v).
Qed.

(** The root is looked up first, with the lockouts after it. *)
Lemma root_loop_eq r fuel : forall si tf, (0 < length P)%nat -> (si <= length H)%nat ->
  (length P + si + 1 < fuel)%nat ->
  let res := check_and_filter_loop fuel s P H E (Some r) 0 si tf in
  (exists si' h, (0 < si' <= si)%nat /\ H !! (si' - 1)%nat = Some (r, h) /\ loop_result 0 si' tf res) \/
  (si = length H /\ r < E /\ loop_result 0 si tf res) \/
  ((r ∉ (take si H).*1) /\ ~ (si = length H /\ r < E) /\ rejected res).
Proof.
  assert (0 < length H)%nat as HnH.
  { destruct HE as [h Hl]. apply last_Some in Hl as [l' ->]. rewrite length_app. simpl. lia. }
  induction fuel as [|fuel IH]; intros si tf HP Hsi Hfuel; [lia|]. cbn [check_and_filter_loop]. cbv zeta.
  rewrite (proj2 (Nat.ltb_lt 0 (length P))) by done. cbn [andb].
  destruct (Nat.ltb_spec 0 si) as [Hsi0|]; cycle 1.
  { right. right. assert (si = 0%nat) as -> by lia. split_and!; [set_solver|lia|].
    right. exists 0%nat, 0%nat, tf. split; [done|lia]. }
  rewrite !(bool_decide_eq_false_2 (Some r = None)) by done.
  cbn [mbind option_bind andb]. destruct (ancestor si ltac:(lia)) as (a & h & Ha & Ht & Hb' & HaE & HEa).
  rewrite Ha. cbn [mbind option_bind fst].
  destruct (Z.compare_spec r a) as [->|Hra|Hra].
  - left. exists si, h. split_and!; [lia|lia|done|]. apply lockouts_loop_eq; lia.
  - destruct (Nat.eqb_spec si (length H)) as [->|Hne].
    + right. left. rewrite (HaE eq_refl) in *. rewrite !(proj2 (Z.leb_gt _ _)) by lia.
      rewrite (proj2 (Z.eqb_eq r r)), andb_false_r by done. cbn [negb]. split_and!; [done..|].
      apply lockouts_loop_eq; lia.
    + right. right. split_and!; [|lia|left; by eexists]. rewrite Ht, fmap_app. intros [Hx|Hx]%elem_of_app.
      * apply list_elem_of_fmap in Hx as ([b h''] & Heq & Hb%Hb'). simpl in *. lia.
      * apply list_elem_of_singleton in Hx. simpl in Hx. lia.
  - destruct (IH (si - 1)%nat tf) as [(si' & h' & Hsi' & Hr & Hres)|[(Hx & _)|(Hn & _ & Hrej)]]; [lia..| | |].
    + left. exists si', h'. split_and!; [lia|lia|done..].
    + lia.
    + right. right. split_and!; [|intros [-> ?]; specialize (HaE eq_refl); lia|done].
      rewrite Ht, fmap_app. intros [Hx|Hx%list_elem_of_singleton]%elem_of_app; [done|]. simpl in Hx. lia.
Qed.

Lemma take_from si r h x : (0 < si <= length H)%nat -> H !! (si - 1)%nat = Some (r, h) ->
  x ∈ (take si H).*1 <-> x ∈ H.*1 /\ r <= x.
Proof.
  intros Hsi Hr. destruct (ancestor si Hsi) as (a & h' & Ha & Ht & Hb & _). simplify_eq. split.
  - intros Hx. split.
    + rewrite <- (take_drop si H), fmap_app. set_solver.
    + rewrite Ht, fmap_app in Hx. apply elem_of_app in Hx as [Hx|Hx%list_elem_of_singleton]; [|simpl in Hx; lia].
      apply list_elem_of_fmap in Hx as (b & -> & Hin%Hb). lia.
  - intros [Hx Hle]. rewrite <- (take_drop si H), fmap_app in Hx. apply elem_of_app in Hx as [Hx|Hx]; [done|].
    apply list_elem_of_fmap in Hx as (b & -> & Hin). pose proof Hsorted as Hs.
    rewrite <- (take_drop si H), Ht, <- app_assoc in Hs. simpl in Hs.
    apply (StronglySorted_after _ _ _ _ b) in Hs; [simpl in Hs; lia|done].
Qed.

Lemma at_earliest si r h : (0 < si <= length H)%nat -> H !! (si - 1)%nat = Some (r, h) ->
  E <= r /\ (si = length H <-> r = E).
Proof.
  intros Hsi Hr. destruct (ancestor si Hsi) as (a & h' & Ha & Ht & Hb & HaE & HEa). simplify_eq.
  split; [done|]. split; [done|]. intros ->. destruct (decide (si = length H)); [done|exfalso].
  destruct HE as [h' Hl]. assert ((E, h') ∈ drop si H) as Hin.
  { rewrite <- (last_drop_lt si) in Hl by lia. apply last_Some in Hl as [l' ->]. set_solver. }
  pose proof Hsorted as Hs. rewrite <- (take_drop si H), Ht, <- app_assoc in Hs. simpl in Hs.
  apply (StronglySorted_after _ _ _ _ (E, h')) in Hs; [simpl in Hs; lia|done].
Qed.

(** The proposal lies on the fork: the slots are ordered, each is in the history
    and not older than the root, or older than the whole history. *)
Record on_history (root : option Slot) : Prop := {
  history_root : forall r, root = Some r -> r < E \/ r ∈ H.*1;
  history_ordered : Sorted (fun v w => slot v < slot w) P;
  history_slots : forall v, v ∈ P ->
    (slot v ∈ H.*1 /\ (forall r, root = Some r -> E <= r -> r <= slot v)) \/
    (slot v < E /\ (forall r, root = Some r -> r <= E))
}.

Lemma matches_whole root : (forall r, root = Some r -> r < E) ->
  matches 0 (length H) <-> on_history root.
Proof.
  intros Hroot. unfold matches. rewrite take_ge by done. split.
  - intros [Ho Hin]. split; [naive_solver|rewrite Sorted_lookup; intros i x y; apply Ho; lia|].
    intros v [i Hi]%list_elem_of_lookup. destruct (Hin i v) as [Hx|[_ Hx]]; [lia|done|left|right].
    all: split; [done|]; intros r Hr%Hroot; lia.
  - intros [_ Ho Hin]. rewrite Sorted_lookup in Ho. split; [intros i x y _; apply Ho|].
    intros i v _ Hv%list_elem_of_lookup_2. destruct (Hin v Hv) as [[]|[]]; auto.
Qed.

Lemma matches_root si r h : (0 < si <= length H)%nat -> H !! (si - 1)%nat = Some (r, h) ->
  matches 0 si <-> on_history (Some r).
Proof.
  intros Hsi Hr. destruct (at_earliest si r h Hsi Hr) as [HEr Hlen]. unfold matches. split.
  - intros [Ho Hin]. split.
    + intros ? [= <-]. right. apply (list_elem_of_fmap_2' fst H (r, h)); [by eapply list_elem_of_lookup_2|done].
    + rewrite Sorted_lookup. intros i x y. apply Ho. lia.
    + intros v [i Hi]%list_elem_of_lookup. destruct (Hin i v) as [Hx|[Hx Hy]]; [lia|done|left|right].
      * apply (take_from si r h) in Hx as [Hx Hle]; [|done..]. split; [done|]. by intros ? [= <-] _.
      * split; [done|]. intros ? [= <-]. apply Hlen in Hx. lia.
  - intros [_ Ho Hin]. rewrite Sorted_lookup in Ho. split; [intros i x y _; apply Ho|].
    intros i v _ Hv%list_elem_of_lookup_2. destruct (Hin v Hv) as [[Hx Hy]|[Hx Hy]].
    + left. rewrite (take_from si r h) by done. split; [done|]. by apply Hy.
    + right. split; [|done]. apply Hlen. specialize (Hy r eq_refl). lia.
Qed.

(** The loop, whole. *)
Lemma check_and_filter_loop_eq root : (0 < length P)%nat ->
  let res := check_and_filter_loop (length P + length H + 2) s P H E root 0 (length H) [] in
  (on_history root /\ exists si, placed 0 si [] res) \/ (~ on_history root /\ rejected res).
Proof.
  intros HP res. subst res. destruct root as [r|].
  - destruct (root_loop_eq r (length P + length H + 2) (length H) []) as
      [(si & h & Hsi & Hr & [[Hm Hp]|[Hm Hrej]])|[(_ & HrE & [[Hm Hp]|[Hm Hrej]])|(Hn & HrE & Hrej)]]; [done|lia..| | | | |].
    + left. split; [by apply (matches_root si r h)|by exists si].
    + right. split; [|done]. by rewrite <- (matches_root si r h).
    + left. split; [apply matches_whole; [naive_solver|done]|by eexists].
    + right. split; [|done]. rewrite <- matches_whole; [done|naive_solver].
    + right. split; [|done]. intros [Hroot _ _]. rewrite take_ge in Hn by done.
      destruct (Hroot r eq_refl); [tauto|done].
  - destruct (lockouts_loop_eq (length P + length H + 2) 0 (length H) []) as [[Hm Hp]|[Hm Hrej]]; [lia..| |].
    + left. split; [by apply matches_whole|by eexists].
    + right. split; [|done]. by rewrite <- matches_whole.
Qed.

(** The filter keeps the slots that are recent or known. *)
Lemma retain_lockouts_eq tf l : forall pi fi, drop pi P = l -> drop fi tf = dropped_from pi ->
  (fi <= length tf)%nat ->
  retain_lockouts tf pi fi l = Some (filter (fun v => dropped v = false) l).
Proof.
  induction l as [|v l IH]; intros pi fi Hl Hf Hfi; [done|]. cbn [retain_lockouts].
  assert (P !! pi = Some v) as Hv by (rewrite <- (Nat.add_0_r pi), <- lookup_drop, Hl; done).
  assert (drop (S pi) P = l) as Hl' by (rewrite <- Nat.add_1_r, <- drop_drop, Hl; done).
  pose proof (dropped_from_step pi v Hv) as Hstep. rewrite filter_cons.
  destruct (Nat.eqb_spec fi (length tf)) as [->|Hne]; cbn [mbind option_bind].
  - rewrite drop_ge, Hstep in Hf by done. destruct (dropped v); [done|]. simpl in Hf.
    rewrite (IH (S pi)); [|done|by rewrite drop_ge|done]. done.
  - destruct (lookup_lt_is_Some_2 tf fi) as [ix Hix]; [lia|]. rewrite Hix. cbn [mbind option_bind].
    assert (drop fi tf = ix :: drop (S fi) tf) as Hd by (by apply drop_S).
    destruct (dropped v) eqn:Hdv.
    + rewrite Hd, Hstep in Hf. simplify_eq/=. rewrite Nat.eqb_refl. cbn [mbind option_bind].
      rewrite (IH (S pi) (S fi)); [|done..|lia]. done.
    + simpl in Hstep. assert (pi <> ix) as Hpi.
      { intros ->. assert (ix ∈ dropped_from (S ix)) as Hin by (rewrite <- Hstep, <- Hf, Hd; left).
        unfold dropped_from in Hin. apply list_elem_of_filter in Hin as [_ Hin%elem_of_seq]. lia. }
      rewrite (proj2 (Nat.eqb_neq pi ix)) by done. cbn [mbind option_bind].
      rewrite (IH (S pi) fi); [|done|congruence|done]. done.
Qed.
End Loop.

Lemma history_unique H x h h' : history_sorted H -> (x, h) ∈ H -> (x, h') ∈ H -> h = h'.
Proof.
  intros Hs Hh Hh'. apply list_elem_of_split in Hh as (l1 & l2 & ->).
  apply elem_of_app in Hh' as [Hh'|[Hh'|Hh']%elem_of_cons]; [|congruence|].
  - apply list_elem_of_split in Hh' as (l3 & l4 & ->). rewrite <- app_assoc in Hs. simpl in Hs.
    apply (StronglySorted_after _ _ _ _ (x, h)) in Hs; [simpl in Hs; lia|set_solver].
  - apply (StronglySorted_after _ _ _ _ (x, h')) in Hs; [simpl in Hs; lia|done].
Qed.

(** ** Proposals that pass *)

(** The proposal ends with a vote [v] that is newer than the state and is in the
    history with the proposed hash, and the rest lies on the fork. *)
Record proposal_ok (s : T) (P : list Lockout) (root : option Slot) (hash : Hash)
    (H : list (Slot * Hash)) (E : Slot) (v : Lockout) : Prop := {
  proposal_last : last P = Some v;
  proposal_earliest : exists h, last H = Some (E, h);
  proposal_newer : forall w, last (votes s) = Some w -> vslot w < slot v;
  proposal_recent : E <= slot v;
  proposal_history : on_history P H E (adjust_root s E root);
  proposal_hash : (slot v, hash) ∈ H
}.

(** The lockouts that are left of it. *)
Definition kept_lockouts (s : T) (E : Slot) (P : list Lockout) : list Lockout :=
  filter (fun v => dropped s E v = false) P.

Lemma kept_nonempty s P root hash H E v :
  proposal_ok s P root hash H E v -> kept_lockouts s E P <> [].
Proof.
  intros [[P' ->]%last_Some _ _ HE _ _] He. assert (v ∈ kept_lockouts s E (P' ++ [v])) as Hv.
  { apply list_elem_of_filter. split; [|set_solver]. unfold dropped. by rewrite (proj2 (Z.ltb_ge _ _)). }
  rewrite He in Hv. by apply elem_of_nil in Hv.
Qed.

Lemma check_and_filter_eq s P root hash H : history_sorted H ->
  exists res, check_and_filter_proposed_vote_state s P root hash H = Some res /\
    (forall E v, proposal_ok s P root hash H E v -> res = Ok (kept_lockouts s E P, adjust_root s E root)) /\
    (forall x, res = Ok x -> exists E v, proposal_ok s P root hash H E v).
Proof.
  intros Hs. unfold check_and_filter_proposed_vote_state. destruct P as [|p0 P0] eqn:HP; rewrite <- ?HP.
  { eexists. split_and!; [done| |done]. intros E v [Hl _ _ _ _ _]. by rewrite HP in Hl. }
  assert (0 < length P)%nat as Hlen by (rewrite HP; simpl; lia).
  destruct (last P) as [v|] eqn:Hv; [|apply last_None in Hv; congruence]. cbn [mbind option_bind fmap option_fmap option_map].
  assert (forall E v', proposal_ok s P root hash H E v' -> v' = v) as Hvv.
  { intros E v' [Hl _ _ _ _ _]. congruence. }
  destruct (from_option _ false _) eqn:Hold.
  { eexists. split_and!; [done| |done]. intros E v' Hok. pose proof (Hvv _ _ Hok) as ->.
    destruct (last (votes s)) as [w|] eqn:Hw; [|done]. simpl in *. bool_to_prop.
    pose proof (proposal_newer _ _ _ _ _ _ _ Hok w Hw). lia. }
  destruct (last H) as [[E h]|] eqn:HE; cycle 1.
  { eexists. split_and!; [done| |done]. intros E v' [_ [h Hx] _ _ _ _]. congruence. }
  assert (forall E' v', proposal_ok s P root hash H E' v' -> E' = E) as HEE.
  { intros E' v' [_ [h' Hl] _ _ _ _]. congruence. }
  split_if; bool_to_prop.
  { eexists. split_and!; [done| |done]. intros E' v' Hok. pose proof (Hvv _ _ Hok) as ->.
    pose proof (HEE _ _ Hok) as ->. pose proof (proposal_recent _ _ _ _ _ _ _ Hok). lia. }
  destruct (check_and_filter_loop_eq s P H E Hs ltac:(by exists h) (adjust_root s E root) Hlen) as
    [[Hh (si0 & si & Hr & _ & Hlast)]|[Hn Hrej]]; cycle 1.
  { assert (forall E' v', ~ proposal_ok s P root hash H E' v') as Hno.
    { intros E' v' Hok. pose proof (HEE _ _ Hok) as ->. by destruct Hok. }
    destruct Hrej as [[e ->]|(pi & si & tf & -> & Hpi)]; cbn [mbind option_bind].
    - eexists. split_and!; [done|naive_solver|done].
    - rewrite (proj2 (Nat.eqb_neq _ _)) by done. eexists. split_and!; [done|naive_solver|done]. }
  rewrite Hr. cbn [mbind option_bind]. rewrite Nat.eqb_refl. cbn [negb].
  destruct (Hlast v Hlen Hv ltac:(lia)) as [h' Hh']. rewrite Hh'. cbn [mbind option_bind fst snd].
  rewrite Z.eqb_refl. cbn [negb]. pose proof (list_elem_of_lookup_2 _ _ _ Hh') as Hin.
  split_if; bool_to_prop.
  { eexists. split_and!; [done| |done]. intros E' v' Hok. pose proof (Hvv _ _ Hok) as ->.
    pose proof (history_unique H _ _ _ Hs Hin (proposal_hash _ _ _ _ _ _ _ Hok)). congruence. }
  subst h'. rewrite (retain_lockouts_eq s P E _ P 0 0); [|done|done|lia]. cbn [mbind option_bind].
  eexists. split_and!; [done| |].
  - intros E' v' Hok. by pose proof (HEE _ _ Hok) as ->.
  - intros x [= <-]. exists E, v. split; [done|by exists h| |done|done|done].
    intros w Hw. rewrite Hw in *. simpl in *. bool_to_prop. lia.
Qed.

(** ** Tower syncs, whole *)

Definition sync_accepts (s : T) (H : list (Slot * Hash)) (sync : TowerSync) (E : Slot) : Prop :=
  (exists v, proposal_ok s (sync_lockouts sync) (sync_root sync) (sync_hash sync) H E v) /\
  accepts s (landed_from <$> kept_lockouts s E (sync_lockouts sync)) (adjust_root s E (sync_root sync))
    (sync_timestamp sync).

Definition sync_accepted (s : T) (sync : TowerSync) (E : Slot) (epoch : Epoch) (cur : Slot) : T :=
  accepted s (landed_from <$> kept_lockouts s E (sync_lockouts sync)) (adjust_root s E (sync_root sync))
    (sync_timestamp sync) epoch cur.

Lemma do_process_tower_sync_eq s H epoch cur sync : vs_ok s -> history_sorted H ->
  exists s' r, do_process_tower_sync s H epoch cur sync = Some (s', r) /\
    (forall E, sync_accepts s H sync E -> r = Ok tt) /\
    (r = Ok tt -> exists E, sync_accepts s H sync E /\ s' = sync_accepted s sync E epoch cur).
Proof.
  intros Hok Hs. unfold do_process_tower_sync, sync_accepts, sync_accepted.
  destruct (check_and_filter_eq s (sync_lockouts sync) (sync_root sync) (sync_hash sync) H Hs)
    as (res & -> & H1 & H2). cbn [mbind option_bind]. destruct res as [[l root]|e]; cycle 1.
  { eexists _, _. split_and!; [done| |done]. intros E [[v Hp%H1] _]. done. }
  destruct (H2 _ eq_refl) as (E & v & Hp). pose proof (H1 _ _ Hp) as Heq. injection Heq as -> ->.
  destruct (process_new_vote_state_eq s (landed_from <$> kept_lockouts s E (sync_lockouts sync))
    (adjust_root s E (sync_root sync)) (sync_timestamp sync) epoch cur Hok) as (s' & r & -> & Hr & Hacc).
  { intros He%fmap_nil_inv. by apply (kept_nonempty _ _ _ _ _ _ _ Hp). }
  exists s', r. split_and!; [done| |].
  - intros E' [[v' Hp'] Ha]. apply Hr. destruct (proposal_earliest _ _ _ _ _ _ _ Hp) as [h Hl].
    destruct (proposal_earliest _ _ _ _ _ _ _ Hp') as [h' Hl']. by simplify_eq.
  - intros Ho. exists E. split_and!; [by exists v|by apply Hr|by apply Hacc].
Qed.
End History.
