(* ===== verification/VoteTrace.v ===== *)
(** * Vote state: sequences of vote instructions

    What a vote account goes through: old-style votes and tower syncs, each
    applied when it is accepted and dropped otherwise. No instruction panics,
    the state stays well formed, and a vote leaves the tower only when it is
    rooted or when its lockout has expired. *)

From S2P Require Import Prelude VoteState VoteTower VoteSteps VoteSync VoteHistory.
Import Vote.

Section Keep.
Context `{VL : VoteInterfaceLaws} {T : Type} {HT : VoteStateHandle T} {HL : VoteStateHandleLaws T}.
Implicit Types s : T.

(** ** Accepted towers are well formed *)

Lemma accepted_fields s new root ts epoch cur :
  votes (accepted s new root ts epoch cur) = accepted_votes s new root cur /\
  root_slot (accepted s new root ts epoch cur) = root /\
  epoch_credits (accepted s new root ts epoch cur) =
    (if bool_decide (root_slot s = root) then epoch_credits s
     else credited epoch (earned root (votes s)) (epoch_credits s)) /\
  last_timestamp (accepted s new root ts epoch cur) =
    match ts, last new with
    | Some t, Some v => MkBlockTimestamp (vslot v) t
    | _, _ => last_timestamp s
    end /\
  handle_rest (accepted s new root ts epoch cur) = handle_rest s.
Proof.
  unfold accepted. destruct ts, (last new); case_bool_decide; autorewrite with handle; by split_and!.
Qed.

Lemma earned_nonneg root l : 0 <= earned root l.
Proof.
  apply Zsum_nonneg. intros v _. pose proof (vote_credits_range (latency v)). lia.
Qed.

Lemma carry_latency_range cur w : Forall (fun v => in_word 8 (latency v)) cur -> in_word 8 (latency w) ->
  in_word 8 (latency (carry_latency cur w)).
Proof.
  intros Hc Hw. unfold carry_latency. destruct (list_find _ cur) as [[i v]|] eqn:Hf; [|done].
  apply list_find_Some in Hf as (Hv & _). simpl. exact (Forall_lookup_1 _ _ _ _ Hc Hv).
Qed.

Lemma unrooted_subset root l v : v ∈ unrooted root l -> v ∈ l.
Proof. destruct root; simpl; [|done]. by intros [_ Hv]%list_elem_of_filter. Qed.

Lemma accepted_ok s new root ts epoch cur : vs_ok s -> new <> [] ->
  Forall (fun v => in_word 8 (latency v)) new -> accepts s new root ts ->
  vs_ok (accepted s new root ts epoch cur).
Proof.
  intros [Hok Hroot Hledger Hlat] Hne Hnl [Htow Hfwd Hab _ _].
  destruct (accepted_fields s new root ts epoch cur) as (Hv & Hr & Hc & _).
  assert (lockouts (accepted s new root ts epoch cur) = lockout <$> new) as Hl
    by (unfold lockouts; by rewrite Hv, accepted_votes_lockouts).
  split.
  - by rewrite Hl.
  - rewrite Hr, Hl. destruct root as [r|]; [|done]. split; [by intros ?%fmap_nil_inv|].
    destruct (decide (r = 0)); [by left|right]. eapply Forall_impl; [done|]. simpl. intros x [|]; done.
  - rewrite Hc. case_bool_decide; [done|]. apply credited_ok; [done|]. apply earned_nonneg.
  - rewrite Hv. unfold accepted_votes. apply Forall_fmap, Forall_fmap, Forall_forall. intros w Hw. simpl.
    rewrite Forall_forall in Hnl. unfold fill_latency. split_if; [apply compute_vote_latency_range|].
    apply carry_latency_range; [|by apply Hnl]. apply Forall_forall. intros v Hvu%unrooted_subset.
    rewrite Forall_forall in Hlat. by apply Hlat.
Qed.

Lemma landed_from_range l : Forall (fun v => in_word 8 (latency v)) (landed_from <$> l).
Proof.
  apply Forall_fmap, Forall_forall. intros v _. simpl. rewrite landed_latency_zero. unfold in_word, word_max. lia.
Qed.

Lemma sync_accepted_ok s H sync E epoch cur : vs_ok s -> sync_accepts s H sync E ->
  vs_ok (sync_accepted s sync E epoch cur).
Proof.
  intros Hok [[v Hp] Ha]. apply accepted_ok; [done| |apply landed_from_range|done].
  intros He%fmap_nil_inv. by apply (kept_nonempty _ _ _ _ _ _ _ Hp).
Qed.

(** ** Old-style votes never panic *)

Lemma check_slots_loop_total s slots H fuel : forall i j, (i <= length slots)%nat -> (j <= length H)%nat ->
  (length slots - i + j < fuel)%nat ->
  exists i' j', check_slots_loop fuel s slots H i j = Some (i', j') /\
    (i' <= length slots)%nat /\ (j' <= j)%nat.
Proof.
  induction fuel as [|fuel IH]; intros i j Hi Hj Hfuel; [lia|]. cbn [check_slots_loop].
  destruct (Nat.ltb_spec i (length slots)) as [Hlt|]; cbn [andb]; [|by exists i, j].
  destruct (Nat.ltb_spec 0 j) as [Hj0|]; [|by exists i, j].
  destruct (lookup_lt_is_Some_2 slots i Hlt) as [x Hx]. rewrite Hx. cbn [mbind option_bind].
  split_if; [apply IH; lia|].
  destruct (lookup_lt_is_Some_2 H (j - 1)) as [y Hy]; [lia|]. rewrite Hy. cbn [mbind option_bind].
  split_if.
  - destruct (IH i (j - 1)%nat) as (i' & j' & ? & ? & ?); [lia..|]. exists i', j'. split_and!; [done|done|lia].
  - destruct (IH (S i) (j - 1)%nat) as (i' & j' & ? & ? & ?); [lia..|]. exists i', j'. split_and!; [done|done|lia].
Qed.

Lemma check_slots_are_valid_total s slots hash H :
  exists r, check_slots_are_valid s slots hash H = Some r.
Proof.
  unfold check_slots_are_valid.
  destruct (check_slots_loop_total s slots H (length slots + length H + 1) 0 (length H)) as (i & j & -> & Hi & Hj);
    [lia..|]. cbn [mbind option_bind].
  destruct (Nat.eqb_spec j (length H)); [by eexists|]. split_if; [by eexists|].
  destruct (lookup_lt_is_Some_2 H j) as [x ->]; [lia|]. by eexists.
Qed.

Lemma process_vote_total s vote H epoch cur : Forall is_u64 (vote_slots vote) -> vs_ok s ->
  exists s' r, process_vote s vote H epoch cur = Some (s', r) /\ (r = Ok tt -> vs_ok s').
Proof.
  intros Hu Hok. unfold process_vote, process_vote_unfiltered. repeat split_if; [by eexists _, _..|].
  match goal with |- context [check_slots_are_valid s ?l _ H] =>
    destruct (check_slots_are_valid_total s l (vote_hash vote) H) as [r ->];
    destruct (process_next_vote_slots_ok l s epoch cur ltac:(by apply Forall_filter) Hok) as (s' & Hs' & Hok')
  end.
  cbn [mbind option_bind]. destruct r as [[]|e]; [|by eexists _, _]. rewrite Hs'. by eexists _, _.
Qed.

(** ** What stays of a tower *)

(** From [s] to [s']: every vote is still there with at least its confirmations,
    or it is rooted, or its lockout ended before the newest vote; the root and
    the newest vote do not go back. *)
Record outlives (s s' : T) : Prop := {
  outlives_votes : forall v, v ∈ lockouts s ->
    (exists v', v' ∈ lockouts s' /\ slot v' = slot v /\ confirmation_count v <= confirmation_count v') \/
    (exists r, root_slot s' = Some r /\ slot v <= r) \/
    (exists w, last (lockouts s') = Some w /\ last_locked_out_slot v < slot w);
  outlives_root : root_forward (root_slot s) (root_slot s');
  outlives_last : forall w, last (lockouts s) = Some w ->
    exists w', last (lockouts s') = Some w' /\ slot w <= slot w'
}.

#[global] Instance outlives_preorder : PreOrder outlives.
Proof.
  split.
  - intros s. split; [naive_solver lia|destruct (root_slot s); simpl; [lia|done]|naive_solver lia].
  - intros s1 s2 s3 [V1 R1 L1] [V2 R2 L2]. split.
    + intros v [(v' & Hv' & Hs & Hc)|[(r & Hr & Hle)|(w & Hw & Hlt)]]%V1.
      * pose proof (last_locked_out_slot_mono v v' ltac:(done) Hc) as Hm.
        destruct (V2 v' Hv') as [(v2 & ? & ? & ?)|[(r & ? & ?)|(w & ? & ?)]].
        -- left. exists v2. split_and!; [done|congruence|lia].
        -- right. left. exists r. split; [done|lia].
        -- right. right. exists w. split; [done|lia].
      * right. left. rewrite Hr in R2. destruct (root_slot s3) as [r'|]; [|done]. exists r'. simpl in R2.
        split; [done|lia].
      * right. right. destruct (L2 w Hw) as (w' & Hw' & ?). exists w'. split; [done|lia].
    + destruct (root_slot s1), (root_slot s2), (root_slot s3); simpl in *; try done. lia.
    + intros w (w' & Hw' & ?)%L1. destruct (L2 w' Hw') as (w2 & ? & ?). exists w2. split; [done|lia].
Qed.

Lemma without_rooted_split next (l : list Lockout) : tower_ok l ->
  exists old, still_locked next l = old ++ without_rooted (still_locked next l) /\
    ((old = [] /\ forall root, next_root next l root = root) \/
     exists v, old = [v] /\ forall root, next_root next l root = Some (slot v)).
Proof.
  intros Hok. unfold without_rooted, next_root.
  destruct (Nat.eqb_spec (length (still_locked next l)) MAX_LOCKOUT_HISTORY) as [Hf|Hf].
  - pose proof max_lockout_history_range as [Hmax _].
    destruct (still_locked next l) as [|v k]; [simpl in Hf; lia|].
    exists [v]. split; [done|]. right. by exists v.
  - exists []. split; [done|]. by left.
Qed.

Lemma last_next_tower next l : is_u64 next -> exists w, last (next_tower next l) = Some w /\ slot w = next.
Proof.
  intros Hu. pose proof (f_equal last (next_tower_slots next l Hu)) as Hl. rewrite last_snoc, fmap_last in Hl.
  apply fmap_Some in Hl as (w & Hw & ->). by exists w.
Qed.

(** A vote in the middle of a sorted tower is at most the last. *)
Lemma tower_last_max l v w : Sorted vote_step l -> v ∈ l -> last l = Some w -> slot v <= slot w.
Proof.
  intros Hs%tower_sorted Hv [l' ->]%last_Some.
  apply elem_of_app in Hv as [Hv|Hv%list_elem_of_singleton]; [|by subst].
  apply list_elem_of_split in Hv as (l1 & l2 & ->). rewrite <- app_assoc in Hs. simpl in Hs.
  apply (StronglySorted_after _ _ _ _ w) in Hs; [simpl in Hs; lia|set_solver].
Qed.

Lemma next_tower_keeps next l v : is_u64 next -> tower_ok l -> (forall w, last l = Some w -> slot w < next) ->
  v ∈ without_rooted (still_locked next l) ->
  exists v', v' ∈ next_tower next l /\ slot v' = slot v /\ confirmation_count v <= confirmation_count v'.
Proof.
  intros Hu Hok Hnew [i Hi]%list_elem_of_lookup. destruct (pushed_spec next Hu l Hok Hnew) as (Hlen & Hc & _).
  set (k := without_rooted (still_locked next l) ++ [Lockout_new next]) in *.
  assert (k !! i = Some v) as Hk by (by apply lookup_app_l_Some).
  pose proof (Forall_lookup_1 _ _ _ _ Hc Hk) as Hcv. simpl in Hcv.
  exists (double_at (length k) i v). split_and!; [|apply slot_double|].
  - apply list_elem_of_lookup. exists i. unfold next_tower, double_all. fold k. by rewrite list_lookup_imap, Hk.
  - rewrite count_double by lia. split_if; lia.
Qed.

Lemma newer_or_not s next :
  (forall v, last (votes s) = Some v -> vslot v < next) \/ (exists v, last (votes s) = Some v /\ next <= vslot v).
Proof.
  destruct (last (votes s)) as [v|]; [|by left]. destruct (decide (vslot v < next)).
  - left. by intros ? [= <-].
  - right. exists v. split; [done|lia].
Qed.

Lemma process_next_vote_slot_outlives s next epoch cur s' : is_u64 next -> vs_ok s ->
  process_next_vote_slot s next epoch cur = Some s' -> outlives s s'.
Proof.
  intros Hu [Hok Hroot _ _] Hs'. destruct (newer_or_not s next) as [Hnew|(v & Hv & Hle)]; cycle 1.
  { rewrite (process_next_vote_slot_old _ _ _ _ v) in Hs' by done. by injection Hs' as <-. }
  destruct (process_next_vote_slot_eq s next epoch cur Hu Hok Hnew) as (s2 & Hs2 & Hvo & Hr & _).
  rewrite Hs2 in Hs'. injection Hs' as <-. pose proof (last_lockouts s next Hnew) as Hnew'.
  assert (lockouts s2 = next_tower next (lockouts s)) as Hl by (unfold lockouts; by rewrite Hvo, next_votes_lockouts).
  destruct (without_rooted_split next (lockouts s) Hok) as (old & Hsl & Hold).
  destruct (still_locked_spec next (lockouts s) Hok) as (popped & Hp & Hexp & _).
  destruct (last_next_tower next (lockouts s) Hu) as (w & Hw & Hwn). split.
  - rewrite Hl, Hr. intros v Hv. rewrite Hp, Hsl in Hv.
    apply elem_of_app in Hv as [[Hv|Hv]%elem_of_app|Hv].
    + right. left. destruct Hold as [[-> _]|(v0 & -> & ->)]; [by apply elem_of_nil in Hv|].
      apply list_elem_of_singleton in Hv as ->. by exists (slot v0).
    + left. by apply next_tower_keeps.
    + right. right. exists w. rewrite Forall_forall in Hexp. split; [done|]. rewrite Hwn. by apply Hexp.
  - rewrite Hr. destruct Hold as [[_ ->]|(v0 & -> & ->)]; [destruct (root_slot s); simpl; [lia|done]|].
    destruct (root_slot s) as [r|]; simpl; [|done]. destruct Hroot as [_ Hroot].
    assert (v0 ∈ lockouts s) as Hin by (rewrite Hp, Hsl; set_solver).
    destruct Hroot as [->|Hroot]; [apply slot_range|]. rewrite Forall_forall in Hroot. specialize (Hroot v0 Hin). lia.
  - rewrite Hl. intros x Hx%Hnew'. exists w. split; [done|lia].
Qed.

Lemma process_next_vote_slots_outlives slots : forall s epoch cur s', Forall is_u64 slots -> vs_ok s ->
  process_next_vote_slots s slots epoch cur = Some s' -> outlives s s'.
Proof.
  induction slots as [|x slots IH]; intros s epoch cur s' Hu Hok; simpl; [by intros [= <-]|].
  apply Forall_cons in Hu as [Hx Hu]. intros (s1 & Hs1 & Hs')%bind_Some.
  destruct (process_next_vote_slot_ok s x epoch cur Hx Hok) as (s2 & Hs2 & Hok2 & _). simplify_eq.
  etrans; [by eapply process_next_vote_slot_outlives|by eapply IH].
Qed.

Lemma last_filter {A} (P : A -> Prop) `{forall x, Decision (P x)} l v :
  last l = Some v -> P v -> last (filter P l) = Some v.
Proof. intros [l' ->]%last_Some Hv. by rewrite filter_app, filter_cons_True, filter_nil, last_snoc. Qed.

Lemma landed_lockouts (l : list Lockout) : lockout <$> (landed_from <$> l) = l.
Proof. rewrite <- list_fmap_compose. rewrite <- (list_fmap_id l) at 2. by apply list_fmap_ext. Qed.

Lemma lockouts_votes s v : v ∈ lockouts s -> exists u, u ∈ votes s /\ lockout u = v.
Proof. intros (u & -> & Hu)%list_elem_of_fmap. by exists u. Qed.

Lemma sync_accepted_outlives s H sync E epoch cur : vs_ok s -> sync_accepts s H sync E ->
  outlives s (sync_accepted s sync E epoch cur).
Proof.
  intros [Hok _ _ _] [[v [Hlast _ Hnew Hrec _ _]] [_ Hfwd _ Hroll _]]. unfold sync_accepted.
  set (root := adjust_root s E (sync_root sync)) in *. set (kept := kept_lockouts s E (sync_lockouts sync)) in *.
  destruct (accepted_fields s (landed_from <$> kept) root (sync_timestamp sync) epoch cur) as (Hv & Hr & _).
  set (s' := accepted _ _ _ _ _ _) in *.
  assert (lockouts s' = kept) as Hl
    by (unfold lockouts; by rewrite Hv, accepted_votes_lockouts, landed_lockouts).
  assert (last kept = Some v) as Hkept.
  { apply last_filter; [done|]. unfold dropped. by rewrite (proj2 (Z.ltb_ge _ _)). }
  split.
  - rewrite Hl, Hr. intros ? (u & Hu & <-)%lockouts_votes.
    destruct (decide (u ∈ unrooted root (votes s))) as [Hun|Hun]; cycle 1.
    { right. left. destruct root as [r|]; [|done]. exists r. split; [done|]. fold (vslot u).
      destruct (decide (vslot u <= r)); [done|]. destruct Hun. apply list_elem_of_filter. split; [lia|done]. }
    destruct (Hroll u Hun) as [Hsame Hgone].
    destruct (decide (vslot u ∈ vslot <$> (landed_from <$> kept))) as [Hin|Hin].
    + left. apply list_elem_of_fmap in Hin as (w & Heq & Hw). pose proof (Hsame w Hw (eq_sym Heq)) as Hc.
      apply list_elem_of_fmap in Hw as (x & -> & Hx). by exists x.
    + right. right. exists v. split; [done|]. apply (Hgone Hin (landed_from v)).
      * apply list_elem_of_fmap_2. apply last_Some in Hkept as [l' ->]. set_solver.
      * destruct (last (votes s)) as [w|] eqn:Hw; [|apply last_None in Hw; rewrite Hw in Hu; by apply elem_of_nil in Hu].
        specialize (Hnew w eq_refl). enough (vslot u <= vslot w) by (unfold vslot; simpl; unfold vslot in *; lia).
        apply (tower_last_max (lockouts s)); [apply Hok|by apply list_elem_of_fmap_2|].
        unfold lockouts. by rewrite fmap_last, Hw.
  - by rewrite Hr.
  - rewrite Hl. intros w. unfold lockouts. rewrite fmap_last. intros (x & Hx & ->)%fmap_Some.
    exists v. split; [done|]. specialize (Hnew x Hx). unfold vslot in Hnew. lia.
Qed.

(** ** Instructions *)

Inductive VoteOp : Type :=
| OpVote (vote : VoteIx)
| OpUpdate (vote_state_update : TowerSync)
| OpSync (tower_sync : TowerSync).

(** A vote instruction in a block: the slot hashes, the epoch and the slot it
    runs with. *)
Record Landing : Type := MkLanding {
  landing_hashes : list (Slot * Hash);
  landing_epoch : Epoch;
  landing_slot : Slot;
  landing_op : VoteOp
}.

Definition attempt (s : T) (x : Landing) : option (T * result VoteError unit) :=
  match landing_op x with
  | OpVote vote => process_vote_and_timestamp s vote (landing_hashes x) (landing_epoch x) (landing_slot x)
  | OpUpdate update =>
      do_process_vote_state_update s (landing_hashes x) (landing_epoch x) (landing_slot x) update
  | OpSync sync => do_process_tower_sync s (landing_hashes x) (landing_epoch x) (landing_slot x) sync
  end.

(** The account is written back only when the instruction succeeds. *)
Definition land (s : T) (x : Landing) : option T :=
  '(s', r) ← attempt s x; Some (if is_ok r then s' else s).

(** The slot hashes are sorted, and the slots of a vote are slots. *)
Definition landing_ok (x : Landing) : Prop :=
  history_sorted (landing_hashes x) /\
  match landing_op x with OpVote vote => Forall is_u64 (vote_slots vote) | _ => True end.

Lemma set_last_timestamp_ok s x : vs_ok s -> vs_ok (set_last_timestamp s x).
Proof. intros [????]. split; unfold lockouts in *; by autorewrite with handle. Qed.

Lemma set_last_timestamp_outlives s s' x : outlives s s' -> outlives s (set_last_timestamp s' x).
Proof. intros [???]. split; unfold lockouts in *; by autorewrite with handle. Qed.

Lemma process_vote_keeps s vote H epoch cur s' : Forall is_u64 (vote_slots vote) -> vs_ok s ->
  process_vote s vote H epoch cur = Some (s', Ok tt) -> outlives s s'.
Proof.
  intros Hu Hok. unfold process_vote, process_vote_unfiltered. repeat split_if; [done..|].
  intros ([[]|e] & _ & Hs')%bind_Some; [|done]. apply bind_Some in Hs' as (s2 & Hs2 & [= <-]).
  refine (process_next_vote_slots_outlives _ _ _ _ _ _ Hok Hs2). by apply Forall_filter.
Qed.

Lemma vote_attempt s vote H epoch cur : Forall is_u64 (vote_slots vote) -> vs_ok s ->
  exists s' r, process_vote_and_timestamp s vote H epoch cur = Some (s', r) /\
    (r = Ok tt -> vs_ok s' /\ outlives s s').
Proof.
  intros Hu Hok. unfold process_vote_and_timestamp.
  destruct (process_vote_total s vote H epoch cur Hu Hok) as (s' & r & Hp & Hok'). rewrite Hp. simpl.
  destruct r as [[]|e]; [|by eexists _, _]. specialize (Hok' eq_refl).
  pose proof (process_vote_keeps s vote H epoch cur s' Hu Hok Hp) as Hout.
  destruct (vote_timestamp vote) as [t|]; [|by eexists _, _].
  destruct (vote_slots vote) as [|x l]; [by eexists _, _|]. rewrite process_timestamp_eq. case_decide.
  - eexists _, _. split; [done|]. intros _. split; [by apply set_last_timestamp_ok|by apply set_last_timestamp_outlives].
  - by eexists _, _.
Qed.

Lemma sync_attempt s H epoch cur sync : history_sorted H -> vs_ok s ->
  exists s' r, do_process_tower_sync s H epoch cur sync = Some (s', r) /\
    (r = Ok tt -> vs_ok s' /\ outlives s s').
Proof.
  intros Hs Hok. destruct (do_process_tower_sync_eq s H epoch cur sync Hok Hs) as (s' & r & Hr & _ & Hacc).
  exists s', r. split; [done|]. intros (E & Ha & ->)%Hacc.
  split; [by eapply sync_accepted_ok|by eapply sync_accepted_outlives].
Qed.

Lemma attempt_ok s x : vs_ok s -> landing_ok x ->
  exists s' r, attempt s x = Some (s', r) /\ (r = Ok tt -> vs_ok s' /\ outlives s s').
Proof.
  intros Hok [Hs Hu]. unfold attempt. destruct (landing_op x); [by apply vote_attempt| |by apply sync_attempt].
  change do_process_vote_state_update with (@do_process_tower_sync VI T HT). by apply sync_attempt.
Qed.

Lemma land_ok s x : vs_ok s -> landing_ok x -> exists s', land s x = Some s' /\ vs_ok s' /\ outlives s s'.
Proof.
  intros Hok Hx. unfold land. destruct (attempt_ok s x Hok Hx) as (s' & [[]|e] & -> & Hr); simpl.
  - exists s'. split; [done|]. by apply Hr.
  - by exists s.
Qed.

Lemma lands_ok xs : forall s, vs_ok s -> Forall landing_ok xs ->
  exists s', foldM land s xs = Some s' /\ vs_ok s' /\ outlives s s'.
Proof.
  induction xs as [|x xs IH]; intros s Hok Hxs; simpl; [by exists s|].
  apply Forall_cons in Hxs as [Hx Hxs]. destruct (land_ok s x Hok Hx) as (s1 & -> & Hok1 & Ho1). simpl.
  destruct (IH s1 Hok1 Hxs) as (s2 & -> & Hok2 & Ho2). exists s2. split_and!; [done..|]. by etrans.
Qed.
End Keep.
