(* ===== verification/VoteOwn.v ===== *)
(** * Vote state: the validator's own tower lands on chain

    A validator votes on its local [TowerVoteState] and submits the whole tower
    as a tower sync. When its vote account agrees with the tower and the fork
    has the slots, the sync is accepted and does to the account what one vote
    for the slot would have done. *)

From S2P Require Import Prelude VoteState VoteTower VoteSteps VoteSync VoteHistory VoteTrace.
Import Vote.

Section Own.
Context `{VL : VoteInterfaceLaws} {T : Type} {HT : VoteStateHandle T} {HL : VoteStateHandleLaws T}.
Context (s : T) (next cur : Slot).
Context (Hok : vs_ok s) (Hu : is_u64 next) (Hnew : forall v, last (votes s) = Some v -> vslot v < next).
Context (Hroot : forall r, root_slot s = Some r -> Forall (fun v => r < vslot v) (votes s)).
Context (Hlat : Forall (fun v => latency v <> 0) (votes s)).

Let kept := without_rooted (kept_votes next (votes s)).
Let tower' := next_tower next (lockouts s).
Let root' := next_root next (lockouts s) (root_slot s).

Lemma own_split : exists old popped, votes s = old ++ kept ++ popped /\
  Forall (fun v => last_locked_out_slot (lockout v) < next) popped /\
  ((old = [] /\ root' = root_slot s /\
    (length (kept_votes next (votes s)) =? MAX_LOCKOUT_HISTORY)%nat = false) \/
   (exists v, old = [v] /\ root' = Some (vslot v) /\ head (kept_votes next (votes s)) = Some v /\
    (length (kept_votes next (votes s)) =? MAX_LOCKOUT_HISTORY)%nat = true)).
Proof.
  destruct (pop_while_spec (fun v => expired next (lockout v)) (length (votes s)) (votes s))
    as (popped & Heq & Hexp & _); [done|]. fold (kept_votes next (votes s)) in Heq.
  assert (Forall (fun v => last_locked_out_slot (lockout v) < next) popped) as Hexp'.
  { eapply Forall_impl; [done|]. unfold expired. intros v Hv. simpl in Hv. rewrite is_locked_out_spec in Hv.
    bool_to_prop. lia. }
  unfold kept, root', next_root, without_rooted. unfold lockouts. rewrite <- kept_votes_lockouts, length_fmap.
  destruct (length (kept_votes next (votes s)) =? MAX_LOCKOUT_HISTORY)%nat eqn:Hf.
  - pose proof max_lockout_history_range as [Hmax _]. apply Nat.eqb_eq in Hf.
    destruct (kept_votes next (votes s)) as [|v k]; [simpl in Hf; lia|].
    exists [v], popped. split_and!; [done..|]. right. by exists v.
  - exists [], popped. split_and!; [done..|]. by left.
Qed.

Lemma own_sorted : by_slot (votes s).
Proof. apply votes_by_slot, Hok. Qed.

Lemma own_before v : v ∈ votes s -> vslot v < next.
Proof.
  intros Hv. destruct (last (votes s)) as [w|] eqn:Hw; cycle 1.
  { apply last_None in Hw. rewrite Hw in Hv. by apply elem_of_nil in Hv. }
  specialize (Hnew w eq_refl). enough (vslot v <= vslot w) by lia.
  apply (tower_last_max (lockouts s)); [apply Hok|by apply list_elem_of_fmap_2|].
  unfold lockouts. by rewrite fmap_last, Hw.
Qed.

Lemma by_slot_unique l (v w : LandedVote) : by_slot l -> v ∈ l -> w ∈ l -> vslot v = vslot w -> v = w.
Proof.
  intros Hs Hv Hw Heq. apply list_elem_of_split in Hv as (l1 & l2 & ->).
  apply elem_of_app in Hw as [Hw|[->|Hw]%elem_of_cons]; [|done|].
  - apply list_elem_of_split in Hw as (l3 & l4 & ->). rewrite <- app_assoc in Hs. simpl in Hs.
    apply (StronglySorted_after _ _ _ _ v) in Hs; [simpl in Hs; lia|set_solver].
  - apply (StronglySorted_after _ _ _ _ w) in Hs; [simpl in Hs; lia|done].
Qed.

Lemma own_unrooted : exists popped, unrooted root' (votes s) = kept ++ popped /\
  Forall (fun v => last_locked_out_slot (lockout v) < next) popped /\ by_slot (kept ++ popped) /\
  (forall v, v ∈ kept ++ popped -> v ∈ votes s).
Proof.
  destruct own_split as (old & popped & Heq & Hexp & Hcase). exists popped.
  pose proof own_sorted as Hs. rewrite Heq in Hs. pose proof (StronglySorted_app_r _ _ _ Hs) as Hs'.
  split_and!; [|done|done|rewrite Heq; set_solver].
  destruct Hcase as [(-> & -> & _)|(v & -> & -> & _)].
  - destruct (root_slot s) as [r|] eqn:Hr; simpl; [|done]. simpl in Heq. rewrite <- Heq.
    apply filter_all. by apply Hroot.
  - simpl. rewrite Heq. simpl. rewrite filter_cons_False by lia. apply filter_all.
    simpl in Hs. by apply StronglySorted_inv in Hs as [_ Hv].
Qed.

Lemma own_slots : slot <$> tower' = (vslot <$> kept) ++ [next].
Proof.
  unfold tower'. rewrite next_tower_slots by done. unfold lockouts, kept.
  rewrite <- kept_votes_lockouts, <- without_rooted_fmap, <- list_fmap_compose. done.
Qed.

Lemma own_tower_ok : tower_ok tower'.
Proof. apply next_tower_ok; [done|apply Hok|by apply last_lockouts]. Qed.

Lemma own_no_rollback : no_rollback (unrooted root' (votes s)) (landed_from <$> tower').
Proof.
  destruct own_unrooted as (popped & -> & Hexp & Hs & Hsub).
  assert (forall x, x ∈ vslot <$> (landed_from <$> tower') <-> x ∈ (vslot <$> kept) ++ [next]) as Hslots.
  { intros x. rewrite <- own_slots, <- list_fmap_compose. done. }
  intros v [Hv|Hv]%elem_of_app.
  - assert (vslot v ∈ vslot <$> (landed_from <$> tower')) as Hin
      by (apply Hslots, elem_of_app; left; by apply list_elem_of_fmap_2).
    split; [|done]. intros w (x & -> & Hx)%list_elem_of_fmap Heq. unfold vslot, vcount in *. simpl in *.
    destruct (next_tower_keeps next (lockouts s) (lockout v)) as (v' & Hv' & Hsl & Hc); [done|apply Hok|by apply last_lockouts| |].
    { unfold lockouts. rewrite <- kept_votes_lockouts, <- without_rooted_fmap. by apply list_elem_of_fmap_2. }
    pose proof own_tower_ok as Hto. enough (landed_from v' = landed_from x) as Hvx by (injection Hvx as _ <-; done).
    apply (by_slot_unique (landed_from <$> tower')); [|by apply list_elem_of_fmap_2..|unfold vslot; simpl; congruence].
    apply votes_by_slot. by rewrite landed_lockouts.
  - assert (forall x, x ∈ vslot <$> (landed_from <$> tower') -> x = next \/ x < vslot v) as Hout.
    { intros x [Hx|Hx%list_elem_of_singleton]%Hslots%elem_of_app; [right|by left].
      apply list_elem_of_fmap in Hx as (u & -> & Hin). apply list_elem_of_split in Hin as (l1 & l2 & Hl).
      rewrite Hl, <- app_assoc in Hs. simpl in Hs. apply (StronglySorted_after _ _ _ _ v) in Hs; [done|set_solver]. }
    pose proof (own_before v ltac:(apply Hsub; set_solver)) as Hvn. split.
    + intros w Hw Heq. apply (list_elem_of_fmap_2 vslot), Hout in Hw. lia.
    + intros _ w Hw Hlt. apply (list_elem_of_fmap_2 vslot), Hout in Hw. rewrite Forall_forall in Hexp.
      specialize (Hexp v Hv). destruct Hw; lia.
Qed.

Lemma carry_known l v (w : LandedVote) : by_slot l -> v ∈ l -> vslot v = vslot w ->
  carry_latency l w = set_latency w (latency v).
Proof.
  intros Hs Hv Heq. unfold carry_latency. destruct (list_find _ l) as [[i u]|] eqn:Hf.
  - apply list_find_Some in Hf as (Hu' & Hequ & _). apply list_elem_of_lookup_2 in Hu'.
    by rewrite (by_slot_unique l u v) by (done || congruence).
  - apply list_find_None in Hf. rewrite Forall_forall in Hf. by destruct (Hf v Hv).
Qed.

Lemma own_votes : accepted_votes s (landed_from <$> tower') root' cur = next_votes next cur (votes s).
Proof.
  unfold accepted_votes, next_votes, tower', next_tower, double_all.
  unfold lockouts. rewrite <- pushed_votes_lockouts with (cur := cur).
  set (k := pushed_votes next cur (votes s)).
  apply list_eq. intros i. rewrite !list_lookup_fmap, !list_lookup_imap, list_lookup_fmap, length_fmap.
  destruct (k !! i) as [v|] eqn:Hk; simpl; [|done]. f_equal.
  destruct own_unrooted as (popped & -> & _ & Hs & Hsub).
  unfold k, pushed_votes in Hk. fold kept in Hk. apply lookup_snoc_Some in Hk as [[_ Hk]|[_ <-]].
  - apply list_elem_of_lookup_2 in Hk.
    rewrite (carry_known _ v) by (done || set_solver || (unfold vslot; simpl; by rewrite slot_double)).
    unfold fill_latency, set_latency. simpl. rewrite Forall_forall in Hlat.
    rewrite (proj2 (Z.eqb_neq _ 0)); [done|]. apply Hlat, Hsub. set_solver.
  - rewrite carry_fresh.
    + unfold fill_latency, set_latency. simpl. rewrite landed_latency_zero. simpl. unfold vslot. simpl.
      by rewrite slot_double, slot_new.
    + apply Forall_forall. intros u Hin%Hsub%own_before. unfold vslot at 2. simpl. rewrite slot_double, slot_new by done. lia.
Qed.

Lemma own_credits epoch :
  (if bool_decide (root_slot s = root') then epoch_credits s
   else credited epoch (earned root' (votes s)) (epoch_credits s)) =
  next_credits next epoch (votes s) (epoch_credits s).
Proof.
  unfold next_credits. destruct own_split as (old & popped & Heq & _ & [(-> & -> & ->)|(v & -> & Hr & -> & ->)]).
  { by rewrite bool_decide_eq_true_2. }
  assert (v ∈ votes s) as Hv by (rewrite Heq; set_solver).
  rewrite bool_decide_eq_false_2; cycle 1.
  { rewrite Hr. intros Hrs. specialize (Hroot _ Hrs). rewrite Forall_forall in Hroot. specialize (Hroot v Hv). lia. }
  f_equal. unfold earned. rewrite Hr. simpl. rewrite Heq. simpl. rewrite filter_cons_True by lia.
  pose proof own_sorted as Hs. rewrite Heq in Hs. apply StronglySorted_inv in Hs as [_ Hs].
  rewrite filter_none; [simpl; lia|]. eapply Forall_impl; [done|]. simpl. intros. lia.
Qed.

Lemma own_root_ok : root_ok root' tower'.
Proof. apply next_root_ok; [done|apply Hok|apply Hok|by apply last_lockouts]. Qed.

Lemma own_forward : root_forward (root_slot s) root'.
Proof.
  destruct own_split as (old & popped & Heq & _ & [(-> & -> & _)|(v & -> & -> & _)]).
  - destruct (root_slot s); simpl; [lia|done].
  - destruct (root_slot s) as [r|]; simpl; [|done]. specialize (Hroot r eq_refl).
    rewrite Forall_forall in Hroot. specialize (Hroot v ltac:(rewrite Heq; set_solver)). lia.
Qed.

Lemma own_accepts ts : (forall t, ts = Some t -> timestamp_ok (last_timestamp s) next t) ->
  accepts s (landed_from <$> tower') root' ts.
Proof.
  intros Hts. split.
  - rewrite landed_lockouts. apply own_tower_ok.
  - apply own_forward.
  - rewrite landed_lockouts. pose proof own_root_ok as Hr. destruct root' as [r|]; [|by apply Forall_true].
    destruct Hr as [_ [->|Hr]]; [apply Forall_true; by left|]. eapply Forall_impl; [done|]. simpl. auto.
  - apply own_no_rollback.
  - intros t v Ht Hv. rewrite fmap_last in Hv. apply fmap_Some in Hv as (w & Hw & ->).
    destruct (last_next_tower next (lockouts s) Hu) as (w' & Hw' & Hn). unfold tower' in Hw. simplify_eq.
    unfold vslot. simpl. by apply Hts.
Qed.

(** The submitted root is never replaced. *)
Lemma own_adjust E : adjust_root s E root' = root'.
Proof.
  destruct own_split as (old & popped & Heq & _ & [(-> & -> & _)|(v & -> & -> & _)]).
  - destruct (root_slot s) as [r|] eqn:Hr; [|done]. cbn [adjust_root]. split_if; [|done].
    destruct (list_find _ _) as [[i u]|] eqn:Hf; [|done]. apply list_find_Some in Hf as (Hin & Hle & _).
    apply list_elem_of_lookup_2 in Hin. rewrite elem_of_reverse in Hin.
    specialize (Hroot r eq_refl). rewrite Forall_forall in Hroot. specialize (Hroot u Hin). lia.
  - cbn [adjust_root]. split_if; [|done]. pose proof own_sorted as Hs.
    assert (v ∈ reverse (votes s)) as Hv by (rewrite elem_of_reverse, Heq; set_solver).
    destruct (list_find _ _) as [[i u]|] eqn:Hf; cycle 1.
    { apply list_find_None in Hf. rewrite Forall_forall in Hf. destruct (Hf v Hv). lia. }
    apply list_find_Some in Hf as (Hin & Hle & _). apply list_elem_of_lookup_2 in Hin. rewrite elem_of_reverse in Hin.
    rewrite Heq in Hin, Hs. simpl in Hin, Hs. apply elem_of_cons in Hin as [->|Hin]; [done|].
    apply StronglySorted_inv in Hs as [_ Hs]. rewrite Forall_forall in Hs. specialize (Hs u Hin). lia.
Qed.

(** Nothing of the tower is filtered out. *)
Lemma own_kept E : E <= next -> kept_lockouts s E tower' = tower'.
Proof.
  intros HE. apply filter_all. apply Forall_forall. intros v Hv. unfold dropped.
  apply (list_elem_of_fmap_2 slot) in Hv. rewrite own_slots in Hv.
  destruct (Z.ltb_spec (slot v) E) as [Hlt|]; simpl; [|done]. apply negb_false_iff.
  rewrite contains_slot_spec by apply own_sorted. apply bool_decide_eq_true.
  apply elem_of_app in Hv as [Hv|Hv%list_elem_of_singleton]; [|lia].
  apply list_elem_of_fmap in Hv as (u & -> & Hu'). apply list_elem_of_fmap_2.
  destruct own_unrooted as (popped & _ & _ & _ & Hsub). apply Hsub. set_solver.
Qed.

Section Proposal.
Context (H : list (Slot * Hash)) (hash : Hash) (E : Slot).
Context (Hs : history_sorted H) (HE : exists h, last H = Some (E, h)) (Hin : (next, hash) ∈ H).
Context (Hfork : forall x, x ∈ (slot <$> tower') \/ root' = Some x -> E <= x -> x ∈ H.*1).

Lemma own_recent : E <= next.
Proof.
  destruct HE as [h Hl]. apply last_Some in Hl as [l' Hl]. rewrite Hl in Hin, Hs.
  apply elem_of_app in Hin as [Hin'|Hin'%list_elem_of_singleton]; [|by simplify_eq].
  apply list_elem_of_split in Hin' as (l1 & l2 & ->). unfold history_sorted in Hs.
  rewrite <- app_assoc in Hs. simpl in Hs.
  apply (StronglySorted_after _ _ _ _ (E, h)) in Hs; [simpl in Hs; lia|set_solver].
Qed.

Lemma own_on_history : on_history tower' H E root'.
Proof.
  assert (forall r v, root' = Some r -> v ∈ tower' -> r <= slot v) as Hrv.
  { intros r v Hr Hv. pose proof own_root_ok as Ho. rewrite Hr in Ho. destruct Ho as [_ [->|Ho]]; [apply slot_range|].
    rewrite Forall_forall in Ho. specialize (Ho v Hv). lia. }
  split.
  - intros r Hr. destruct (decide (r < E)); [by left|right]. apply Hfork; [by right|lia].
  - pose proof (tower_steps _ own_tower_ok) as Hst. rewrite Sorted_lookup in Hst |- *.
    intros i x y Hx Hy. exact (proj1 (Hst i x y Hx Hy)).
  - intros v Hv. destruct (decide (slot v < E)).
    + right. split; [done|]. intros r Hr. specialize (Hrv r v Hr Hv). lia.
    + left. split; [apply Hfork; [left; by apply list_elem_of_fmap_2|lia]|]. intros r Hr _. by apply Hrv.
Qed.

Lemma own_sync_accepts ts : (forall t, ts = Some t -> timestamp_ok (last_timestamp s) next t) ->
  sync_accepts s H (MkTowerSync tower' root' hash ts) E.
Proof.
  intros Hts. unfold sync_accepts. simpl. rewrite own_adjust, own_kept by apply own_recent.
  split; [|by apply own_accepts].
  destruct (last_next_tower next (lockouts s) Hu) as (w & Hw & Hn). exists w.
  split; [done|done| | | |]; rewrite ?own_adjust, ?Hn; [done|apply own_recent|apply own_on_history|done].
Qed.
End Proposal.

(** The state that the sync leaves is the one that the vote leaves. *)
Lemma own_sync_accepted hash E ts epoch s1 : E <= next ->
  process_next_vote_slot s next epoch cur = Some s1 ->
  sync_accepted s (MkTowerSync tower' root' hash ts) E epoch cur =
  match ts with Some t => set_last_timestamp s1 (MkBlockTimestamp next t) | None => s1 end.
Proof.
  intros HE Hs1. destruct (process_next_vote_slot_eq s next epoch cur Hu (vs_tower _ Hok) Hnew)
    as (s2 & Hs2 & Hv & Hr & Hc & Ht & Hrest). rewrite Hs2 in Hs1. injection Hs1 as <-.
  unfold sync_accepted. simpl. rewrite own_adjust, own_kept by done.
  destruct (accepted_fields s (landed_from <$> tower') root' ts epoch cur) as (Av & Ar & Ac & At & Arest).
  destruct (last_next_tower next (lockouts s) Hu) as (w & Hw & Hn). fold tower' in Hw.
  rewrite fmap_last, Hw in At. simpl in At. rewrite own_votes in Av. rewrite own_credits in Ac.
  unfold vslot in At. simpl in At. rewrite Hn in At. fold root' in Hr.
  apply handle_ext; destruct ts; autorewrite with handle; congruence.
Qed.
End Own.
