(* ===== verification/VoteHandler.v ===== *)
(** * Vote state: the versions of the vote state

    The vote states of version 3 and 4 and the handler over both
    (src/programs/vote/src/vote_state/handler.rs): each implements the interface
    [VoteStateHandle], so that the theorems about towers hold for it; the
    operations on voters, commission and collectors; and the conversion of older
    versions. *)

From S2P Require Import Prelude TransactionContext VoteState VoteTower VoteSteps VoteSync VoteHistory VoteTrace.
Import Vote.

Module Handler.

(** ** The voters of an account

    [AuthorizedVoters] and the ring of prior voters belong to the crate
    [solana_vote_interface]. *)
Class VotersInterface := {
  AuthorizedVoters : Type;
  voters_default : AuthorizedVoters;
  voters_new : Epoch -> Pubkey -> AuthorizedVoters;
  voters_contains : AuthorizedVoters -> Epoch -> bool;
  voters_last : AuthorizedVoters -> option (Epoch * Pubkey);
  voters_insert : AuthorizedVoters -> Epoch -> Pubkey -> AuthorizedVoters;
  (** [get_and_cache_authorized_voter_for_epoch] *)
  voters_get_and_cache : AuthorizedVoters -> Epoch -> AuthorizedVoters * option Pubkey;
  voters_purge : AuthorizedVoters -> Epoch -> AuthorizedVoters;
  PriorVoters : Type;
  prior_default : PriorVoters;
  prior_last : PriorVoters -> option (Pubkey * Epoch * Epoch);
  prior_append : PriorVoters -> Pubkey * Epoch * Epoch -> PriorVoters;
  (** [VoteError as u32] *)
  vote_error_code : VoteError -> Z
}.

Abbreviation InstructionError := Ctx.InstructionError.

Section Versions.
Context `{VI : VoteInterface} `{AI : VotersInterface}.

Record VoteState1_14_11 : Type := MkVoteState1_14_11 {
  v1_node_pubkey : Pubkey;
  v1_authorized_withdrawer : Pubkey;
  v1_commission : Z;
  v1_votes : list Lockout;
  v1_root_slot : option Slot;
  v1_authorized_voters : AuthorizedVoters;
  v1_prior_voters : PriorVoters;
  v1_epoch_credits : list EpochCredit;
  v1_last_timestamp : BlockTimestamp
}.

Record VoteStateV3 : Type := MkVoteStateV3 {
  v3_node_pubkey : Pubkey;
  v3_authorized_withdrawer : Pubkey;
  v3_commission : Z;
  v3_votes : list LandedVote;
  v3_root_slot : option Slot;
  v3_authorized_voters : AuthorizedVoters;
  v3_prior_voters : PriorVoters;
  v3_epoch_credits : list EpochCredit;
  v3_last_timestamp : BlockTimestamp
}.

Record VoteStateV4 : Type := MkVoteStateV4 {
  v4_node_pubkey : Pubkey;
  v4_authorized_withdrawer : Pubkey;
  v4_inflation_rewards_collector : Pubkey;
  v4_block_revenue_collector : Pubkey;
  v4_inflation_rewards_commission_bps : Z;
  v4_block_revenue_commission_bps : Z;
  v4_pending_delegator_rewards : Z;
  v4_bls_pubkey_compressed : option (list Z);
  v4_votes : list LandedVote;
  v4_root_slot : option Slot;
  v4_authorized_voters : AuthorizedVoters;
  v4_epoch_credits : list EpochCredit;
  v4_last_timestamp : BlockTimestamp
}.

Inductive TargetVoteState : Type :=
| V3 (s : VoteStateV3)
| V4 (s : VoteStateV4).

Record VoteStateHandler : Type := MkHandler { target_state : TargetVoteState }.

Inductive VoteStateTargetVersion : Type := TargetV3 | TargetV4.

Inductive VoteStateVersions : Type :=
| Version0_23_5
| Version1_14_11 (s : VoteState1_14_11)
| VersionV3 (s : VoteStateV3)
| VersionV4 (s : VoteStateV4).

(** ** Field updates *)
Definition v3_set_voters (s : VoteStateV3) (x : AuthorizedVoters) : VoteStateV3 :=
  MkVoteStateV3 (v3_node_pubkey s) (v3_authorized_withdrawer s) (v3_commission s) (v3_votes s)
    (v3_root_slot s) x (v3_prior_voters s) (v3_epoch_credits s) (v3_last_timestamp s).
Definition v3_set_prior_voters (s : VoteStateV3) (x : PriorVoters) : VoteStateV3 :=
  MkVoteStateV3 (v3_node_pubkey s) (v3_authorized_withdrawer s) (v3_commission s) (v3_votes s)
    (v3_root_slot s) (v3_authorized_voters s) x (v3_epoch_credits s) (v3_last_timestamp s).
Definition v4_set_voters (s : VoteStateV4) (x : AuthorizedVoters) : VoteStateV4 :=
  MkVoteStateV4 (v4_node_pubkey s) (v4_authorized_withdrawer s) (v4_inflation_rewards_collector s)
    (v4_block_revenue_collector s) (v4_inflation_rewards_commission_bps s)
    (v4_block_revenue_commission_bps s) (v4_pending_delegator_rewards s) (v4_bls_pubkey_compressed s)
    (v4_votes s) (v4_root_slot s) x (v4_epoch_credits s) (v4_last_timestamp s).

(** ** [VoteStateHandle] for version 3 *)
Definition v3_set_votes (s : VoteStateV3) (x : list LandedVote) : VoteStateV3 :=
  MkVoteStateV3 (v3_node_pubkey s) (v3_authorized_withdrawer s) (v3_commission s) x
    (v3_root_slot s) (v3_authorized_voters s) (v3_prior_voters s) (v3_epoch_credits s) (v3_last_timestamp s).
Definition v3_set_root_slot (s : VoteStateV3) (x : option Slot) : VoteStateV3 :=
  MkVoteStateV3 (v3_node_pubkey s) (v3_authorized_withdrawer s) (v3_commission s) (v3_votes s)
    x (v3_authorized_voters s) (v3_prior_voters s) (v3_epoch_credits s) (v3_last_timestamp s).
Definition v3_set_epoch_credits (s : VoteStateV3) (x : list EpochCredit) : VoteStateV3 :=
  MkVoteStateV3 (v3_node_pubkey s) (v3_authorized_withdrawer s) (v3_commission s) (v3_votes s)
    (v3_root_slot s) (v3_authorized_voters s) (v3_prior_voters s) x (v3_last_timestamp s).
Definition v3_set_last_timestamp (s : VoteStateV3) (x : BlockTimestamp) : VoteStateV3 :=
  MkVoteStateV3 (v3_node_pubkey s) (v3_authorized_withdrawer s) (v3_commission s) (v3_votes s)
    (v3_root_slot s) (v3_authorized_voters s) (v3_prior_voters s) (v3_epoch_credits s) x.
Definition v3_set_authorized_withdrawer (s : VoteStateV3) (x : Pubkey) : VoteStateV3 :=
  MkVoteStateV3 (v3_node_pubkey s) x (v3_commission s) (v3_votes s)
    (v3_root_slot s) (v3_authorized_voters s) (v3_prior_voters s) (v3_epoch_credits s) (v3_last_timestamp s).
Definition v3_set_commission (s : VoteStateV3) (x : Z) : VoteStateV3 :=
  MkVoteStateV3 (v3_node_pubkey s) (v3_authorized_withdrawer s) x (v3_votes s)
    (v3_root_slot s) (v3_authorized_voters s) (v3_prior_voters s) (v3_epoch_credits s) (v3_last_timestamp s).
Definition v3_set_node_pubkey (s : VoteStateV3) (x : Pubkey) : VoteStateV3 :=
  MkVoteStateV3 x (v3_authorized_withdrawer s) (v3_commission s) (v3_votes s)
    (v3_root_slot s) (v3_authorized_voters s) (v3_prior_voters s) (v3_epoch_credits s) (v3_last_timestamp s).

(** [binary_search_by]: found, on sorted votes, when some vote has the slot. *)
Definition votes_contain (l : list LandedVote) (x : Slot) : bool := bool_decide (x ∈ vslot <$> l).

Definition current_epoch_of (l : list EpochCredit) : Epoch :=
  match l with
  | [] => 0
  | _ => from_option (fun c => c.1.1) 0 (last l)
  end.

#[global] Instance v3_handle : VoteStateHandle VoteStateV3 := {
  votes := v3_votes;
  set_votes := v3_set_votes;
  contains_slot s := votes_contain (v3_votes s);
  last_lockout s := lockout <$> last (v3_votes s);
  last_voted_slot s := slot <$> (lockout <$> last (v3_votes s));
  root_slot := v3_root_slot;
  set_root_slot := v3_set_root_slot;
  current_epoch s := current_epoch_of (v3_epoch_credits s);
  epoch_credits := v3_epoch_credits;
  set_epoch_credits := v3_set_epoch_credits;
  last_timestamp := v3_last_timestamp;
  set_last_timestamp := v3_set_last_timestamp
}.

(** ** [VoteStateHandle] for version 4 *)
Definition v4_with (s : VoteStateV4) (votes : list LandedVote) (root : option Slot)
    (credits : list EpochCredit) (ts : BlockTimestamp) : VoteStateV4 :=
  MkVoteStateV4 (v4_node_pubkey s) (v4_authorized_withdrawer s) (v4_inflation_rewards_collector s)
    (v4_block_revenue_collector s) (v4_inflation_rewards_commission_bps s)
    (v4_block_revenue_commission_bps s) (v4_pending_delegator_rewards s) (v4_bls_pubkey_compressed s)
    votes root (v4_authorized_voters s) credits ts.
Definition v4_set_votes (s : VoteStateV4) (x : list LandedVote) : VoteStateV4 :=
  v4_with s x (v4_root_slot s) (v4_epoch_credits s) (v4_last_timestamp s).
Definition v4_set_root_slot (s : VoteStateV4) (x : option Slot) : VoteStateV4 :=
  v4_with s (v4_votes s) x (v4_epoch_credits s) (v4_last_timestamp s).
Definition v4_set_epoch_credits (s : VoteStateV4) (x : list EpochCredit) : VoteStateV4 :=
  v4_with s (v4_votes s) (v4_root_slot s) x (v4_last_timestamp s).
Definition v4_set_last_timestamp (s : VoteStateV4) (x : BlockTimestamp) : VoteStateV4 :=
  v4_with s (v4_votes s) (v4_root_slot s) (v4_epoch_credits s) x.
Definition v4_set_keys (s : VoteStateV4) (node withdrawer collector : Pubkey) (commission_bps : Z) :
    VoteStateV4 :=
  MkVoteStateV4 node withdrawer (v4_inflation_rewards_collector s) collector commission_bps
    (v4_block_revenue_commission_bps s) (v4_pending_delegator_rewards s) (v4_bls_pubkey_compressed s)
    (v4_votes s) (v4_root_slot s) (v4_authorized_voters s) (v4_epoch_credits s) (v4_last_timestamp s).
Definition v4_set_authorized_withdrawer (s : VoteStateV4) (x : Pubkey) : VoteStateV4 :=
  v4_set_keys s (v4_node_pubkey s) x (v4_block_revenue_collector s) (v4_inflation_rewards_commission_bps s).
Definition v4_set_node_pubkey (s : VoteStateV4) (x : Pubkey) : VoteStateV4 :=
  v4_set_keys s x (v4_authorized_withdrawer s) (v4_block_revenue_collector s)
    (v4_inflation_rewards_commission_bps s).
Definition v4_set_block_revenue_collector (s : VoteStateV4) (x : Pubkey) : VoteStateV4 :=
  v4_set_keys s (v4_node_pubkey s) (v4_authorized_withdrawer s) x (v4_inflation_rewards_commission_bps s).

(** The commission is kept in basis points. *)
Definition v4_commission (s : VoteStateV4) : Z := wrap 8 (v4_inflation_rewards_commission_bps s / 100).
Definition v4_set_commission (s : VoteStateV4) (x : Z) : VoteStateV4 :=
  v4_set_keys s (v4_node_pubkey s) (v4_authorized_withdrawer s) (v4_block_revenue_collector s)
    (wrap 16 (x * 100)).

#[global] Instance v4_handle : VoteStateHandle VoteStateV4 := {
  votes := v4_votes;
  set_votes := v4_set_votes;
  contains_slot s := votes_contain (v4_votes s);
  last_lockout s := lockout <$> last (v4_votes s);
  last_voted_slot s := slot <$> (lockout <$> last (v4_votes s));
  root_slot := v4_root_slot;
  set_root_slot := v4_set_root_slot;
  current_epoch s := current_epoch_of (v4_epoch_credits s);
  epoch_credits := v4_epoch_credits;
  set_epoch_credits := v4_set_epoch_credits;
  last_timestamp := v4_last_timestamp;
  set_last_timestamp := v4_set_last_timestamp
}.

(** ** The handler dispatches on the version *)
Definition on_target {A} (f3 : VoteStateV3 -> A) (f4 : VoteStateV4 -> A) (s : VoteStateHandler) : A :=
  match target_state s with
  | V3 v3 => f3 v3
  | V4 v4 => f4 v4
  end.

Definition new_v3 (s : VoteStateV3) : VoteStateHandler := MkHandler (V3 s).
Definition new_v4 (s : VoteStateV4) : VoteStateHandler := MkHandler (V4 s).

#[global] Instance handler_handle : VoteStateHandle VoteStateHandler := {
  votes := on_target votes votes;
  set_votes s x := on_target (fun v3 => new_v3 (set_votes v3 x)) (fun v4 => new_v4 (set_votes v4 x)) s;
  contains_slot s x := on_target (fun v3 => contains_slot v3 x) (fun v4 => contains_slot v4 x) s;
  last_lockout := on_target last_lockout last_lockout;
  last_voted_slot := on_target last_voted_slot last_voted_slot;
  root_slot := on_target root_slot root_slot;
  set_root_slot s x :=
    on_target (fun v3 => new_v3 (set_root_slot v3 x)) (fun v4 => new_v4 (set_root_slot v4 x)) s;
  current_epoch := on_target current_epoch current_epoch;
  epoch_credits := on_target epoch_credits epoch_credits;
  set_epoch_credits s x :=
    on_target (fun v3 => new_v3 (set_epoch_credits v3 x)) (fun v4 => new_v4 (set_epoch_credits v4 x)) s;
  last_timestamp := on_target last_timestamp last_timestamp;
  set_last_timestamp s x :=
    on_target (fun v3 => new_v3 (set_last_timestamp v3 x)) (fun v4 => new_v4 (set_last_timestamp v4 x)) s
}.

Definition authorized_withdrawer : VoteStateHandler -> Pubkey :=
  on_target v3_authorized_withdrawer v4_authorized_withdrawer.
Definition set_authorized_withdrawer (s : VoteStateHandler) (x : Pubkey) : VoteStateHandler :=
  on_target (fun v3 => new_v3 (v3_set_authorized_withdrawer v3 x))
    (fun v4 => new_v4 (v4_set_authorized_withdrawer v4 x)) s.
Definition authorized_voters : VoteStateHandler -> AuthorizedVoters :=
  on_target v3_authorized_voters v4_authorized_voters.
Definition commission : VoteStateHandler -> Z := on_target v3_commission v4_commission.
Definition set_commission (s : VoteStateHandler) (x : Z) : VoteStateHandler :=
  on_target (fun v3 => new_v3 (v3_set_commission v3 x)) (fun v4 => new_v4 (v4_set_commission v4 x)) s.
Definition node_pubkey : VoteStateHandler -> Pubkey := on_target v3_node_pubkey v4_node_pubkey.
Definition set_node_pubkey (s : VoteStateHandler) (x : Pubkey) : VoteStateHandler :=
  on_target (fun v3 => new_v3 (v3_set_node_pubkey v3 x)) (fun v4 => new_v4 (v4_set_node_pubkey v4 x)) s.
(** Version 3 has no such field. *)
Definition set_block_revenue_collector (s : VoteStateHandler) (x : Pubkey) : VoteStateHandler :=
  on_target (fun v3 => new_v3 v3) (fun v4 => new_v4 (v4_set_block_revenue_collector v4 x)) s.

(** [VoteError::into]. *)
Definition from_vote_error (e : VoteError) : InstructionError := Ctx.Custom (vote_error_code e).

(** ** Voters *)
Definition v3_get_and_update_authorized_voter (self : VoteStateV3) (current_epoch : Epoch) :
    VoteStateV3 * result InstructionError Pubkey :=
  match voters_get_and_cache (v3_authorized_voters self) current_epoch with
  | (voters, None) => (v3_set_voters self voters, Err Ctx.InvalidAccountData)
  | (voters, Some pubkey) => (v3_set_voters self (voters_purge voters current_epoch), Ok pubkey)
  end.

Definition v4_get_and_update_authorized_voter (self : VoteStateV4) (current_epoch : Epoch) :
    VoteStateV4 * result InstructionError Pubkey :=
  match voters_get_and_cache (v4_authorized_voters self) current_epoch with
  | (voters, None) => (v4_set_voters self voters, Err Ctx.InvalidAccountData)
  | (voters, Some pubkey) =>
      (v4_set_voters self (voters_purge voters (sat_sub current_epoch 1)), Ok pubkey)
  end.

Definition get_and_update_authorized_voter (s : VoteStateHandler) (current_epoch : Epoch) :
    VoteStateHandler * result InstructionError Pubkey :=
  on_target
    (fun v3 => let '(v3, r) := v3_get_and_update_authorized_voter v3 current_epoch in (new_v3 v3, r))
    (fun v4 => let '(v4, r) := v4_get_and_update_authorized_voter v4 current_epoch in (new_v4 v4, r)) s.

Definition v3_set_new_authorized_voter (self : VoteStateV3) (authorized_pubkey : Pubkey)
    (current_epoch target_epoch : Epoch) (verify : Pubkey -> result InstructionError unit) :
    result InstructionError VoteStateV3 :=
  let '(self, r) := v3_get_and_update_authorized_voter self current_epoch in
  epoch_authorized_voter ← r;
  _ ← verify epoch_authorized_voter;
  if voters_contains (v3_authorized_voters self) target_epoch
  then Err (from_vote_error TooSoonToReauthorize)
  else
    match voters_last (v3_authorized_voters self) with
    | None => Err Ctx.InvalidAccountData
    | Some (latest_epoch, latest_authorized_pubkey) =>
        self ←
          (if negb (latest_authorized_pubkey =? authorized_pubkey) then
             let epoch_of_last_authorized_switch :=
               from_option (fun range => range.2) 0 (prior_last (v3_prior_voters self)) in
             if target_epoch <=? latest_epoch then Err Ctx.InvalidAccountData
             else
               Ok (v3_set_prior_voters self
                     (prior_append (v3_prior_voters self)
                        (latest_authorized_pubkey, epoch_of_last_authorized_switch, target_epoch)))
           else Ok self);
        Ok (v3_set_voters self (voters_insert (v3_authorized_voters self) target_epoch authorized_pubkey))
    end.

Definition v4_set_new_authorized_voter (self : VoteStateV4) (authorized_pubkey : Pubkey)
    (current_epoch target_epoch : Epoch) (verify : Pubkey -> result InstructionError unit) :
    result InstructionError VoteStateV4 :=
  let '(self, r) := v4_get_and_update_authorized_voter self current_epoch in
  epoch_authorized_voter ← r;
  _ ← verify epoch_authorized_voter;
  if voters_contains (v4_authorized_voters self) target_epoch
  then Err (from_vote_error TooSoonToReauthorize)
  else
    Ok (v4_set_voters self (voters_insert (v4_authorized_voters self) target_epoch authorized_pubkey)).

Definition set_new_authorized_voter (s : VoteStateHandler) (authorized_pubkey : Pubkey)
    (current_epoch target_epoch : Epoch) (verify : Pubkey -> result InstructionError unit) :
    result InstructionError VoteStateHandler :=
  on_target
    (fun v3 => v3 ← v3_set_new_authorized_voter v3 authorized_pubkey current_epoch target_epoch verify;
               Ok (new_v3 v3))
    (fun v4 => v4 ← v4_set_new_authorized_voter v4 authorized_pubkey current_epoch target_epoch verify;
               Ok (new_v4 v4)) s.

(** ** Conversion *)
Definition DEFAULT_BLOCK_REVENUE_COMMISSION_BPS : Z := 10000.

Definition landed_votes_from_lockouts (l : list Lockout) : list LandedVote := landed_from <$> l.

Definition try_convert_to_vote_state_v4 (versioned : VoteStateVersions) (vote_pubkey : Pubkey) :
    result InstructionError VoteStateV4 :=
  match versioned with
  | Version0_23_5 => Err Ctx.UninitializedAccount
  | Version1_14_11 s =>
      Ok (MkVoteStateV4 (v1_node_pubkey s) (v1_authorized_withdrawer s) vote_pubkey (v1_node_pubkey s)
            (sat_mul 16 (v1_commission s) 100) 10000 0 None (landed_votes_from_lockouts (v1_votes s))
            (v1_root_slot s) (v1_authorized_voters s) (v1_epoch_credits s) (v1_last_timestamp s))
  | VersionV3 s =>
      Ok (MkVoteStateV4 (v3_node_pubkey s) (v3_authorized_withdrawer s) vote_pubkey (v3_node_pubkey s)
            (sat_mul 16 (v3_commission s) 100) 10000 0 None (v3_votes s)
            (v3_root_slot s) (v3_authorized_voters s) (v3_epoch_credits s) (v3_last_timestamp s))
  | VersionV4 s => Ok s
  end.

(** [TowerVoteState::from] of a vote state. *)
Definition tower_from_v3 (s : VoteStateV3) : TowerVoteState :=
  MkTowerVoteState (lockout <$> v3_votes s) (v3_root_slot s).
Definition tower_from_v4 (s : VoteStateV4) : TowerVoteState :=
  MkTowerVoteState (lockout <$> v4_votes s) (v4_root_slot s).
Definition tower_from_v1 (s : VoteState1_14_11) : TowerVoteState :=
  MkTowerVoteState (v1_votes s) (v1_root_slot s).
End Versions.

(** ** The three implementations keep the laws of the interface *)
Section Laws.
Context `{VI : VoteInterface} `{AI : VotersInterface}.

Lemma current_epoch_of_spec (l : list EpochCredit) :
  current_epoch_of l = default 0 ((fun c => c.1.1) <$> last l).
Proof. destruct l as [|c l]; [done|]. unfold current_epoch_of. by destruct (last (c :: l)). Qed.

#[global] Instance v3_handle_laws : VoteStateHandleLaws VoteStateV3.
Proof.
  split; intros [] **; simplify_eq/=; try done.
  - destruct s'. unfold handle_rest in *. simplify_eq/=. done.
  - by destruct (last _).
  - apply current_epoch_of_spec.
Qed.

#[global] Instance v4_handle_laws : VoteStateHandleLaws VoteStateV4.
Proof.
  split; intros [] **; simplify_eq/=; try done.
  - destruct s'. unfold handle_rest in *. simplify_eq/=. done.
  - by destruct (last _).
  - apply current_epoch_of_spec.
Qed.

#[global] Instance handler_handle_laws : VoteStateHandleLaws VoteStateHandler.
Proof.
  split; try (intros [[s|s]] **; done).
  - intros [[s|s]] [[s'|s']] Hv Hr He Ht Hrest; [|done|done|]; do 2 f_equal.
    + apply (handle_ext s s'); [done..|]. exact (f_equal (on_target id (fun _ => s)) Hrest).
    + apply (handle_ext s s'); [done..|]. exact (f_equal (on_target (fun _ => s) id) Hrest).
  - intros [[s|s]]; exact (last_voted_slot_spec s).
  - intros [[s|s]]; exact (current_epoch_spec s).
Qed.
End Laws.
End Handler.
