(* ===== verification/VoteInstance.v ===== *)
(** * Vote state: the interface as the vote program's crate has it

    An instance of [VoteInterface] and [VotersInterface] with the documented
    behaviour: lockouts that double with each confirmation, 31 votes in a tower, 64
    entries of credits. It shows that the laws can hold, and runs the examples. *)

From S2P Require Import Prelude TransactionContext VoteState VoteTower VoteSteps VoteSync VoteHistory VoteTrace VoteHandler.
Import Vote Handler.

Module VoteDemo.

Definition demo_count (l : Z * Z) : Z := wrap 32 l.2.

#[global] Instance demo_votes : VoteInterface := {
  Lockout := Z * Z;
  Lockout_new s := (s, 1);
  slot l := wrap 64 l.1;
  confirmation_count := demo_count;
  last_locked_out_slot l := sat_add 64 (wrap 64 l.1) (2 ^ Z.min (demo_count l) 31);
  is_locked_out_at_slot l s := s <=? sat_add 64 (wrap 64 l.1) (2 ^ Z.min (demo_count l) 31);
  increase_confirmation_count l n := (l.1, sat_add 32 (demo_count l) n);
  landed_latency _ := 0;
  MAX_LOCKOUT_HISTORY := 31;
  MAX_EPOCH_CREDITS_HISTORY := 64;
  VOTE_CREDITS_GRACE_SLOTS := 2;
  VOTE_CREDITS_MAXIMUM_PER_SLOT := 16
}.

Lemma wrap_id w x : in_word w x -> wrap w x = x.
Proof. intros Hx. apply wrap_small. unfold in_word, word_max in Hx. lia. Qed.

#[global] Instance demo_votes_laws : VoteInterfaceLaws demo_votes.
Proof.
  split; simpl; try done.
  - intros l. by apply wrap_in_word.
  - intros s. apply wrap_id.
  - intros l. by apply wrap_in_word.
  - intros l n Hn. unfold demo_count at 1. simpl. apply wrap_id. unfold sat_add, in_word, word_max.
    pose proof (wrap_in_word 32 l.2 ltac:(lia)) as Hc. unfold demo_count, in_word, word_max in *. lia.
  - intros l l' Hs Hc. unfold sat_add. rewrite Hs.
    assert (2 ^ Z.min (demo_count l) 31 <= 2 ^ Z.min (demo_count l') 31) by (apply Z.pow_le_mono_r; lia). lia.
  - unfold word_max. lia.
  - lia.
Qed.

(** The voters of an account by epoch, in order. *)
Fixpoint demo_insert (l : list (Epoch * Pubkey)) (e : Epoch) (p : Pubkey) : list (Epoch * Pubkey) :=
  match l with
  | [] => [(e, p)]
  | (e', p') :: l' =>
      if e <? e' then (e, p) :: l else if e =? e' then (e, p) :: l' else (e', p') :: demo_insert l' e p
  end.

Definition demo_at (l : list (Epoch * Pubkey)) (e : Epoch) : option Pubkey :=
  snd <$> last (filter (fun x => x.1 <= e) l).

Definition demo_error_code (e : VoteError) : Z :=
  match e with
  | VoteTooOld => 0 | SlotsMismatch => 1 | SlotHashMismatch => 2 | EmptySlots => 3 | TimestampTooOld => 4
  | TooSoonToReauthorize => 5 | LockoutConflict => 6 | NewVoteStateLockoutMismatch => 7 | SlotsNotOrdered => 8
  | ConfirmationsNotOrdered => 9 | ZeroConfirmations => 10 | ConfirmationTooLarge => 11 | RootRollBack => 12
  | ConfirmationRollBack => 13 | SlotSmallerThanRoot => 14 | TooManyVotes => 15 | VotesTooOldAllFiltered => 16
  | RootOnDifferentFork => 17 | ActiveVoteAccountClose => 18 | CommissionUpdateTooLate => 19 | AssertionFailed => 20
  end.

#[global] Instance demo_voters : VotersInterface := {
  AuthorizedVoters := list (Epoch * Pubkey);
  voters_default := [];
  voters_new e p := [(e, p)];
  voters_contains l e := bool_decide (e ∈ l.*1);
  voters_last l := last l;
  voters_insert := demo_insert;
  voters_get_and_cache l e :=
    match demo_at l e with
    | Some p => (demo_insert l e p, Some p)
    | None => (l, None)
    end;
  voters_purge l e := filter (fun x => e <= x.1) l;
  PriorVoters := list (Pubkey * Epoch * Epoch);
  prior_default := [];
  prior_last := last;
  prior_append l x := l ++ [x];
  vote_error_code := demo_error_code
}.

(** A fresh account of each version: node 5, withdrawer 6, voter 4. *)
Definition demo_v3 : VoteStateV3 :=
  MkVoteStateV3 5 6 10 [] None [(0, 4)] [] [] (MkBlockTimestamp 0 0).
Definition demo_v4 : VoteStateV4 :=
  MkVoteStateV4 5 6 9 5 1000 10000 0 None [] None [(0, 4)] [] (MkBlockTimestamp 0 0).
Definition demo_handler : VoteStateHandler := new_v4 demo_v4.

Lemma fresh_ok `{VI : VoteInterface} {T : Type} {HT : VoteStateHandle T} (s : T) :
  votes s = [] -> root_slot s = None -> epoch_credits s = [] -> vs_ok s.
Proof.
  intros Hv Hr He. split; unfold lockouts; rewrite ?Hv, ?Hr, ?He; simpl; [|done| |done].
  - split; simpl; [lia|done|constructor].
  - split; simpl; try done; try constructor; try lia.
Qed.
End VoteDemo.
