(* ===== verification/VoteTheorems.v ===== *)
(** * Vote state: the theorems

    Of the vote states of every version, and of the validator's own tower. *)

From S2P Require Import Prelude TransactionContext VoteState VoteTower VoteSteps VoteSync VoteHistory VoteTrace VoteOwn VoteHandler VoteInstance.
Import Vote Handler VoteDemo.

Module Votes.
Section Theorems.
Context `{VL : VoteInterfaceLaws} {T : Type} {HT : VoteStateHandle T} {HL : VoteStateHandleLaws T}.
Implicit Types s : T.


(** C6: Whatever vote instructions an account accepts, a vote leaves its tower only
    once it is rooted or its lockout has ended before the newest vote; otherwise it is
    still there, with at least its confirmations. The root never goes back. *)
Theorem lockouts_respected s xs : vs_ok s -> Forall landing_ok xs ->
  exists s', foldM land s xs = Some s' /\
    (forall v, v ∈ lockouts s ->
      (exists v', v' ∈ lockouts s' /\ slot v' = slot v /\ confirmation_count v <= confirmation_count v') \/
      (exists r, root_slot s' = Some r /\ slot v <= r) \/
      (exists w, last (lockouts s') = Some w /\ last_locked_out_slot v < slot w)) /\
    root_forward (root_slot s) (root_slot s').
Proof. intros Hok Hxs. destruct (lands_ok xs s Hok Hxs) as (s' & Hs' & _ & [Hv Hr _]). by exists s'. Qed.

(** C5: A tower sync is accepted exactly when it should be. On a well-formed state and
    sorted slot hashes it never panics; it succeeds if and only if the proposal is on
    this fork, newer than the last vote, a well-formed tower above a root that does not
    go back, and drops or shortens no lockout that still holds; and then the new state
    is the proposal without the slots too old to be known, each vote with the latency
    it had or has now, the credits of what it rooted, and its timestamp. *)
Theorem tower_sync_exact s H epoch cur sync : vs_ok s -> history_sorted H ->
  exists s' r, do_process_tower_sync s H epoch cur sync = Some (s', r) /\
    (r = Ok tt <-> exists E, sync_accepts s H sync E) /\
    (r = Ok tt -> exists E, sync_accepts s H sync E /\ s' = sync_accepted s sync E epoch cur).
Proof.
  intros Hok Hs. destruct (do_process_tower_sync_eq s H epoch cur sync Hok Hs) as (s' & r & Hr & Hif & Hthen).
  exists s', r. split_and!; [done| |done]. split; [|intros [E HE]; by eapply Hif].
  intros (E & HE & _)%Hthen. by exists E.
Qed.



End Theorems.

(** ** Examples *)
Definition demo_hashes : list (Slot * Hash) := [(4, 44); (3, 33); (2, 22); (1, 11)].

Definition demo_landings : list Landing :=
  [MkLanding [(2, 22); (1, 11)] 0 3 (OpVote (MkVoteIx [1; 2] 22 (Some 1000)));
   MkLanding demo_hashes 0 5 (OpSync (MkTowerSync [(1, 3); (2, 2); (4, 1)] None 44 (Some 1001)));
   MkLanding demo_hashes 0 6 (OpSync (MkTowerSync [(3, 1)] None 33 None));
   MkLanding ((9, 99) :: demo_hashes) 0 10 (OpUpdate (MkTowerSync [(1, 3); (9, 1)] None 99 None))].

Lemma demo_landings_ok : Forall landing_ok demo_landings.
Proof. repeat constructor; simpl; unfold in_word, word_max; lia. Qed.


(** The third is refused, being older than the last vote; the fourth leaves out the
    slots 2 and 4, whose lockouts have ended. *)
Example demo_lands : (fun s => (slot <$> lockouts s)) <$> foldM land demo_handler demo_landings = Some [1; 9].
Proof. vm_compute. reflexivity. Qed.


Definition demo_voted : VoteStateV4 := v4_set_votes demo_v4 [MkLandedVote 1 (1, 2); MkLandedVote 1 (2, 1)].
Definition demo_state : VoteStateHandler := new_v4 demo_voted.

Lemma demo_state_ok : vs_ok demo_state.
Proof.
  split; [|done|apply ledger_ok_nil|repeat constructor; vm_compute; done].
  split; [vm_compute; lia|repeat constructor; vm_compute; done|repeat constructor; vm_compute; done].
Qed.

Lemma lockouts_respected_witness : exists s', foldM land demo_state (drop 1 demo_landings) = Some s' /\
    (forall v, v ∈ lockouts demo_state ->
      (exists v', v' ∈ lockouts s' /\ slot v' = slot v /\ confirmation_count v <= confirmation_count v') \/
      (exists r, root_slot s' = Some r /\ slot v <= r) \/
      (exists w, last (lockouts s') = Some w /\ last_locked_out_slot v < slot w)) /\
    root_forward (root_slot demo_state) (root_slot s').
Proof.
  apply (lockouts_respected demo_state (drop 1 demo_landings)); [apply demo_state_ok|].
  apply Forall_drop, demo_landings_ok.
Defined.

Definition demo_sync : TowerSync := MkTowerSync [(1, 3); (2, 2); (4, 1)] None 44 (Some 1001).

Lemma tower_sync_exact_witness : exists s' r, do_process_tower_sync demo_state demo_hashes 0 5 demo_sync = Some (s', r) /\
    (r = Ok tt <-> exists E, sync_accepts demo_state demo_hashes demo_sync E) /\
    (r = Ok tt -> exists E, sync_accepts demo_state demo_hashes demo_sync E /\ s' = sync_accepted demo_state demo_sync E 0 5).
Proof.
  apply (tower_sync_exact demo_state demo_hashes 0 5 demo_sync); [apply demo_state_ok|].
  repeat constructor; simpl; lia.
Defined.



End Votes.
