(* ===== verification/VoteProgram.v ===== *)
(** * The vote program on accounts

    The instructions of the vote program as they run in a transaction:
    src/programs/vote/src/vote_processor.rs and the functions of
    src/programs/vote/src/vote_state/mod.rs and handler.rs that read a vote account,
    change its state and write it back. They run in the monad of [Ctx], so that a
    failed borrow, a refused write and a panic of the vote state are all there. *)

From S2P Require Import Prelude TransactionContext Builtin VoteState VoteHandler.
Import Ctx Builtin Vote Handler.

Module VoteProgram.

(** ** Sysvars and instructions, as other crates define them *)
Record Clock : Type := MkClock {
  clock_slot : Slot;
  clock_epoch : Epoch;
  clock_leader_schedule_epoch : Epoch
}.

Record EpochSchedule : Type := MkEpochSchedule {
  slots_per_epoch : Z;
  first_normal_slot : Slot
}.

Record VoteInit : Type := MkVoteInit {
  init_node_pubkey : Pubkey;
  init_authorized_voter : Pubkey;
  init_authorized_withdrawer : Pubkey;
  init_commission : Z
}.

Inductive VoteAuthorize : Type := AuthorizeVoter | AuthorizeWithdrawer.

Section Program.
Context `{RT : Runtime} `{VI : VoteInterface} `{AI : VotersInterface}.

(** The derived key's seed is a string. *)
Record WithSeedArgs : Type := MkWithSeedArgs {
  authorization_type : VoteAuthorize;
  current_authority_derived_key_owner : Pubkey;
  current_authority_derived_key_seed : Bytes
}.

Inductive VoteInstruction : Type :=
| InitializeAccount (vote_init : VoteInit)
| Authorize (voter_pubkey : Pubkey) (vote_authorize : VoteAuthorize)
| AuthorizeWithSeed (args : WithSeedArgs) (new_authority : Pubkey)
| AuthorizeCheckedWithSeed (args : WithSeedArgs)
| UpdateValidatorIdentity
| UpdateCommission (commission : Z)
| VoteInst (vote : VoteIx)
| VoteSwitch (vote : VoteIx) (proof_hash : Hash)
| UpdateVoteState (vote_state_update : TowerSync)
| UpdateVoteStateSwitch (vote_state_update : TowerSync) (proof_hash : Hash)
| CompactUpdateVoteState (vote_state_update : TowerSync)
| CompactUpdateVoteStateSwitch (vote_state_update : TowerSync) (proof_hash : Hash)
| TowerSyncInst (tower_sync : TowerSync)
| TowerSyncSwitch (tower_sync : TowerSync) (proof_hash : Hash)
| Withdraw (lamports : Z)
| AuthorizeChecked (vote_authorize : VoteAuthorize).

(** The encoding of vote states and instructions, rent and derived keys. *)
Class VoteCodec := {
  v3_deserialize : Bytes -> result InstructionError VoteStateV3;
  versions_deserialize : Bytes -> result InstructionError VoteStateVersions;
  (** [bincode::deserialize] *)
  versions_bincode : Bytes -> option VoteStateVersions;
  versions_serialize : VoteStateVersions -> option Bytes;
  v3_size_of : nat;
  v4_size_of : nat;
  v3_is_uninitialized : VoteStateV3 -> bool;
  versions_is_uninitialized : VoteStateVersions -> bool;
  v3_new : VoteInit -> Clock -> VoteStateV3;
  v3_default : VoteStateV3;
  v4_default : VoteStateV4;
  v1_from_v3 : VoteStateV3 -> VoteState1_14_11;
  limited_deserialize : Bytes -> result InstructionError VoteInstruction;
  minimum_balance : Rent -> Z -> Z;
  create_with_seed : Pubkey -> Bytes -> Pubkey -> result Z Pubkey;
  (** [InstructionError::from(u64)] *)
  error_from_code : Z -> InstructionError;
  vote_program_id : Pubkey;
  clock_id : Pubkey;
  rent_id : Pubkey;
  slot_hashes_id : Pubkey
}.

(** What the invoke context gives to a builtin: features, and what the getters of
    the sysvar cache answer. *)
Record Invoke : Type := MkInvoke {
  feature_vote_state_v4 : bool;
  feature_deprecate_legacy_vote_ixs : bool;
  sysvar_clock : result InstructionError Clock;
  sysvar_rent : result InstructionError Rent;
  sysvar_epoch_schedule : result InstructionError EpochSchedule;
  sysvar_slot_hashes : result InstructionError (list (Slot * Hash))
}.

Context `{VC : VoteCodec}.

(** ** Reading a vote account *)
Inductive PreserveBehaviorInHandlerHelper : Type :=
| PreserveV3 (check_initialized : bool)
| PreserveV4.

Definition preserve_new (target_version : VoteStateTargetVersion) (check_initialized : bool) :
    PreserveBehaviorInHandlerHelper :=
  match target_version with
  | TargetV3 => PreserveV3 check_initialized
  | TargetV4 => PreserveV4
  end.

Definition get_vote_state_handler_checked (vote_account : Borrowed)
    (preserve_behavior : PreserveBehaviorInHandlerHelper) : M VoteStateHandler :=
  a ← borrowed_account vote_account;
  match preserve_behavior with
  | PreserveV3 check_initialized =>
      vote_state ← lift (v3_deserialize (payload a));
      if check_initialized && v3_is_uninitialized vote_state then raise UninitializedAccount
      else mret (new_v3 vote_state)
  | PreserveV4 =>
      versioned ← lift (versions_deserialize (payload a));
      if versions_is_uninitialized versioned then raise UninitializedAccount
      else
        vote_state ← lift (try_convert_to_vote_state_v4 versioned (key a));
        mret (new_v4 vote_state)
  end.

(** ** Writing it back *)

(** The first half of [set_vote_account_state]: whether the account is too small and
    cannot be made larger. *)
Definition cannot_hold (vote_account : Borrowed) (size : nat) : M bool :=
  a ← borrowed_account vote_account;
  if (length (payload a) <? size)%nat then
    exempt ← is_rent_exempt_at_data_length vote_account (Z.of_nat size);
    if negb exempt then mret true
    else
      r ← attempt (set_data_length vote_account size);
      mret (negb (is_ok r))
  else mret false.

Definition v3_set_vote_account_state (self : VoteStateV3) (vote_account : Borrowed) : M unit :=
  small ← cannot_hold vote_account v3_size_of;
  if (small : bool)
  then set_state vote_account (versions_serialize (Version1_14_11 (v1_from_v3 self)))
  else set_state vote_account (versions_serialize (VersionV3 self)).

Definition v4_set_vote_account_state (self : VoteStateV4) (vote_account : Borrowed) : M unit :=
  small ← cannot_hold vote_account v4_size_of;
  if (small : bool)
  then raise AccountNotRentExempt
  else set_state vote_account (versions_serialize (VersionV4 self)).

Definition set_vote_account_state (self : VoteStateHandler) (vote_account : Borrowed) : M unit :=
  match target_state self with
  | V3 v3 => v3_set_vote_account_state v3 vote_account
  | V4 v4 => v4_set_vote_account_state v4 vote_account
  end.

Definition create_new_vote_state_v4 (vote_pubkey : Pubkey) (vote_init : VoteInit) (clock : Clock) :
    VoteStateV4 :=
  MkVoteStateV4 (init_node_pubkey vote_init) (init_authorized_withdrawer vote_init) vote_pubkey
    (init_node_pubkey vote_init) (wrap 16 (init_commission vote_init * 100))
    DEFAULT_BLOCK_REVENUE_COMMISSION_BPS (v4_pending_delegator_rewards v4_default)
    (v4_bls_pubkey_compressed v4_default) (v4_votes v4_default) (v4_root_slot v4_default)
    (voters_new (clock_epoch clock) (init_authorized_voter vote_init))
    (v4_epoch_credits v4_default) (v4_last_timestamp v4_default).

Definition init_vote_account_state (vote_account : Borrowed) (vote_init : VoteInit) (clock : Clock)
    (target_version : VoteStateTargetVersion) : M unit :=
  match target_version with
  | TargetV3 => v3_set_vote_account_state (v3_new vote_init clock) vote_account
  | TargetV4 =>
      a ← borrowed_account vote_account;
      v4_set_vote_account_state (create_new_vote_state_v4 (key a) vote_init clock) vote_account
  end.

Definition deinitialize_vote_account_state (vote_account : Borrowed)
    (target_version : VoteStateTargetVersion) : M unit :=
  match target_version with
  | TargetV3 => v3_set_vote_account_state v3_default vote_account
  | TargetV4 => write_data vote_account (fun d => replicate (length d) 0)
  end.

Definition check_vote_account_length (vote_account : Borrowed) (target_version : VoteStateTargetVersion) :
    M unit :=
  a ← borrowed_account vote_account;
  let expected := match target_version with TargetV3 => v3_size_of | TargetV4 => v4_size_of end in
  if negb (length (payload a) =? expected)%nat then raise InvalidAccountData else mret tt.

(** ** The operations of mod.rs *)
Definition verify_authorized_signer (authorized : Pubkey) (signers : gset Pubkey) :
    result InstructionError unit :=
  if bool_decide (authorized ∈ signers) then Ok tt else Err MissingRequiredSignature.

Definition authorize (vote_account : Borrowed) (target_version : VoteStateTargetVersion)
    (authorized : Pubkey) (vote_authorize : VoteAuthorize) (signers : gset Pubkey) (clock : Clock) :
    M unit :=
  vote_state ← get_vote_state_handler_checked vote_account (preserve_new target_version false);
  vote_state ←
    match vote_authorize with
    | AuthorizeVoter =>
        let authorized_withdrawer_signer :=
          is_ok (verify_authorized_signer (authorized_withdrawer vote_state) signers) in
        target_epoch ← ok_or (checked_add 64 (clock_leader_schedule_epoch clock) 1) InvalidAccountData;
        lift (set_new_authorized_voter vote_state authorized (clock_epoch clock) target_epoch
                (fun epoch_authorized_voter =>
                   if authorized_withdrawer_signer then Ok tt
                   else verify_authorized_signer epoch_authorized_voter signers))
    | AuthorizeWithdrawer =>
        _ ← lift (verify_authorized_signer (authorized_withdrawer vote_state) signers);
        mret (set_authorized_withdrawer vote_state authorized)
    end;
  set_vote_account_state vote_state vote_account.

Definition update_validator_identity (vote_account : Borrowed) (target_version : VoteStateTargetVersion)
    (node_pubkey : Pubkey) (signers : gset Pubkey) : M unit :=
  vote_state ← get_vote_state_handler_checked vote_account (preserve_new target_version false);
  _ ← lift (verify_authorized_signer (authorized_withdrawer vote_state) signers);
  _ ← lift (verify_authorized_signer node_pubkey signers);
  let vote_state := set_node_pubkey vote_state node_pubkey in
  let vote_state := set_block_revenue_collector vote_state node_pubkey in
  set_vote_account_state vote_state vote_account.

Definition is_commission_update_allowed (slot : Slot) (epoch_schedule : EpochSchedule) : bool :=
  if slots_per_epoch epoch_schedule =? 0 then true
  else
    let relative_slot := sat_sub slot (first_normal_slot epoch_schedule) mod slots_per_epoch epoch_schedule in
    sat_mul 64 relative_slot 2 <=? slots_per_epoch epoch_schedule.

Definition update_commission (vote_account : Borrowed) (target_version : VoteStateTargetVersion)
    (new_commission : Z) (signers : gset Pubkey) (epoch_schedule : EpochSchedule) (clock : Clock) : M unit :=
  vote_state_result ←
    attempt (get_vote_state_handler_checked vote_account (preserve_new target_version false));
  let enforce_commission_update_rule :=
    match vote_state_result with
    | Ok decoded_vote_state => commission decoded_vote_state <? new_commission
    | Err _ => true
    end in
  if enforce_commission_update_rule && negb (is_commission_update_allowed (clock_slot clock) epoch_schedule)
  then raise (from_vote_error CommissionUpdateTooLate)
  else
    vote_state ← lift vote_state_result;
    _ ← lift (verify_authorized_signer (authorized_withdrawer vote_state) signers);
    set_vote_account_state (set_commission vote_state new_commission) vote_account.

(** The part of [withdraw] that has the vote account. *)
Definition withdraw_from (vote_account : Borrowed) (target_version : VoteStateTargetVersion) (amount : Z)
    (signers : gset Pubkey) (rent_sysvar : Rent) (clock : Clock) : M unit :=
  vote_state ← get_vote_state_handler_checked vote_account (preserve_new target_version false);
  _ ← lift (verify_authorized_signer (authorized_withdrawer vote_state) signers);
  a ← borrowed_account vote_account;
  remaining_balance ← ok_or (checked_sub (lamports a) amount) InsufficientFunds;
  _ ←
    (if remaining_balance =? 0 then
       let reject_active_vote_account_close :=
         match last (epoch_credits vote_state) with
         | Some (last_epoch_with_credits, _, _) =>
             sat_sub (clock_epoch clock) last_epoch_with_credits <? 2
         | None => false
         end in
       if reject_active_vote_account_close then raise (from_vote_error ActiveVoteAccountClose)
       else deinitialize_vote_account_state vote_account target_version
     else
       let min_rent_exempt_balance := minimum_balance rent_sysvar (Z.of_nat (length (payload a))) in
       if remaining_balance <? min_rent_exempt_balance then raise InsufficientFunds else mret tt);
  checked_sub_lamports vote_account amount.

Definition withdraw (frame : InstructionFrame) (vote_account_index : nat)
    (target_version : VoteStateTargetVersion) (amount : Z) (to_account_index : nat)
    (signers : gset Pubkey) (rent_sysvar : Rent) (clock : Clock) : M unit :=
  _ ← with_borrowed frame vote_account_index (fun vote_account =>
        withdraw_from vote_account target_version amount signers rent_sysvar clock);
  with_borrowed frame to_account_index (fun to_account => checked_add_lamports to_account amount).

(** [get_state]: whatever does not decode is invalid. *)
Definition get_state (vote_account : Borrowed) : M VoteStateVersions :=
  a ← borrowed_account vote_account;
  ok_or (versions_bincode (payload a)) InvalidAccountData.

Definition initialize_account (vote_account : Borrowed) (target_version : VoteStateTargetVersion)
    (vote_init : VoteInit) (signers : gset Pubkey) (clock : Clock) : M unit :=
  _ ← check_vote_account_length vote_account target_version;
  versioned ← get_state vote_account;
  if negb (versions_is_uninitialized versioned) then raise AccountAlreadyInitialized
  else
    _ ← lift (verify_authorized_signer (init_node_pubkey vote_init) signers);
    init_vote_account_state vote_account vote_init clock target_version.

(** The outcome of an operation on the vote state; its panics are panics. *)
Definition lift_vote (o : option (VoteStateHandler * result VoteError unit)) : M VoteStateHandler :=
  match o with
  | None => panic
  | Some (s, Ok _) => mret s
  | Some (_, Err e) => raise (from_vote_error e)
  end.

(** The beginning of the three operations that vote. *)
Definition voting_state (vote_account : Borrowed) (target_version : VoteStateTargetVersion)
    (clock : Clock) (signers : gset Pubkey) : M VoteStateHandler :=
  vote_state ← get_vote_state_handler_checked vote_account (preserve_new target_version true);
  let '(vote_state, r) := get_and_update_authorized_voter vote_state (clock_epoch clock) in
  authorized_voter ← lift r;
  _ ← lift (verify_authorized_signer authorized_voter signers);
  mret vote_state.

Definition process_vote_with_account (vote_account : Borrowed) (target_version : VoteStateTargetVersion)
    (slot_hashes : list (Slot * Hash)) (clock : Clock) (vote : VoteIx) (signers : gset Pubkey) : M unit :=
  vote_state ← voting_state vote_account target_version clock signers;
  vote_state ← lift_vote (process_vote_and_timestamp vote_state vote slot_hashes (clock_epoch clock) (clock_slot clock));
  set_vote_account_state vote_state vote_account.

Definition process_vote_state_update (vote_account : Borrowed) (target_version : VoteStateTargetVersion)
    (slot_hashes : list (Slot * Hash)) (clock : Clock) (vote_state_update : TowerSync)
    (signers : gset Pubkey) : M unit :=
  vote_state ← voting_state vote_account target_version clock signers;
  vote_state ← lift_vote (do_process_vote_state_update vote_state slot_hashes (clock_epoch clock)
                            (clock_slot clock) vote_state_update);
  set_vote_account_state vote_state vote_account.

Definition process_tower_sync (vote_account : Borrowed) (target_version : VoteStateTargetVersion)
    (slot_hashes : list (Slot * Hash)) (clock : Clock) (tower_sync : TowerSync)
    (signers : gset Pubkey) : M unit :=
  vote_state ← voting_state vote_account target_version clock signers;
  vote_state ← lift_vote (do_process_tower_sync vote_state slot_hashes (clock_epoch clock)
                            (clock_slot clock) tower_sync);
  set_vote_account_state vote_state vote_account.

(** ** The processor *)

Definition process_authorize_with_seed_instruction (inv : Invoke) (frame : InstructionFrame)
    (vote_account : Borrowed) (target_version : VoteStateTargetVersion) (new_authority : Pubkey)
    (args : WithSeedArgs) : M unit :=
  clock ← sysvar_with_account_check clock_id (sysvar_clock inv) frame 1;
  signer ← lift (is_instruction_account_signer frame 2);
  expected_authority_keys ←
    (if (signer : bool) then
       base_pubkey ← get_key_of_instruction_account frame 2;
       match create_with_seed base_pubkey (current_authority_derived_key_seed args)
               (current_authority_derived_key_owner args) with
       | Ok k => mret {[k]}
       | Err e => raise (error_from_code e)
       end
     else mret ∅);
  authorize vote_account target_version new_authority (authorization_type args)
    (expected_authority_keys : gset Pubkey) clock.

(** A key the instruction names and that has signed. *)
Definition checked_key (frame : InstructionFrame) (i : nat) : M Pubkey :=
  k ← get_key_of_instruction_account frame i;
  signer ← lift (is_instruction_account_signer frame i);
  if negb signer then raise MissingRequiredSignature else mret k.

(** The instructions while the vote account is borrowed; the result is what is left
    to do after its release. *)
Definition process_with_account (inv : Invoke) (frame : InstructionFrame) (me : Borrowed) : M (M unit) :=
  a ← borrowed_account me;
  if negb (owner a =? vote_program_id) then raise InvalidAccountOwner
  else
    let target_version := if feature_vote_state_v4 inv then TargetV4 else TargetV3 in
    signers ← get_signers frame;
    instruction ← lift (limited_deserialize (instruction_data frame));
    let done (m : M unit) : M (M unit) := _ ← m; mret (mret tt) in
    match instruction with
    | InitializeAccount vote_init =>
        r ← sysvar_with_account_check rent_id (sysvar_rent inv) frame 1;
        if negb (is_exempt r (lamports a) (Z.of_nat (length (payload a)))) then raise InsufficientFunds
        else
          clock ← sysvar_with_account_check clock_id (sysvar_clock inv) frame 2;
          done (initialize_account me target_version vote_init signers clock)
    | Authorize voter_pubkey vote_authorize =>
        clock ← sysvar_with_account_check clock_id (sysvar_clock inv) frame 1;
        done (authorize me target_version voter_pubkey vote_authorize signers clock)
    | AuthorizeWithSeed args new_authority =>
        _ ← lift (check_number_of_instruction_accounts frame 3);
        done (process_authorize_with_seed_instruction inv frame me target_version new_authority args)
    | AuthorizeCheckedWithSeed args =>
        _ ← lift (check_number_of_instruction_accounts frame 4);
        new_authority ← checked_key frame 3;
        done (process_authorize_with_seed_instruction inv frame me target_version new_authority args)
    | UpdateValidatorIdentity =>
        _ ← lift (check_number_of_instruction_accounts frame 2);
        node_pubkey ← get_key_of_instruction_account frame 1;
        done (update_validator_identity me target_version node_pubkey signers)
    | UpdateCommission new_commission =>
        epoch_schedule ← lift (sysvar_epoch_schedule inv);
        clock ← lift (sysvar_clock inv);
        done (update_commission me target_version new_commission signers epoch_schedule clock)
    | VoteInst vote | VoteSwitch vote _ =>
        if feature_deprecate_legacy_vote_ixs inv then raise InvalidInstructionData
        else
          slot_hashes ← sysvar_with_account_check slot_hashes_id (sysvar_slot_hashes inv) frame 1;
          clock ← sysvar_with_account_check clock_id (sysvar_clock inv) frame 2;
          done (process_vote_with_account me target_version slot_hashes clock vote signers)
    | UpdateVoteState vote_state_update | UpdateVoteStateSwitch vote_state_update _
    | CompactUpdateVoteState vote_state_update | CompactUpdateVoteStateSwitch vote_state_update _ =>
        if feature_deprecate_legacy_vote_ixs inv then raise InvalidInstructionData
        else
          slot_hashes ← lift (sysvar_slot_hashes inv);
          clock ← lift (sysvar_clock inv);
          done (process_vote_state_update me target_version slot_hashes clock vote_state_update signers)
    | TowerSyncInst tower_sync | TowerSyncSwitch tower_sync _ =>
        slot_hashes ← lift (sysvar_slot_hashes inv);
        clock ← lift (sysvar_clock inv);
        done (process_tower_sync me target_version slot_hashes clock tower_sync signers)
    | Withdraw amount =>
        _ ← lift (check_number_of_instruction_accounts frame 2);
        rent_sysvar ← lift (sysvar_rent inv);
        clock ← lift (sysvar_clock inv);
        mret (withdraw frame 0 target_version amount 1 signers rent_sysvar clock)
    | AuthorizeChecked vote_authorize =>
        _ ← lift (check_number_of_instruction_accounts frame 4);
        voter_pubkey ← checked_key frame 3;
        clock ← sysvar_with_account_check clock_id (sysvar_clock inv) frame 1;
        done (authorize me target_version voter_pubkey vote_authorize signers clock)
    end.

Definition process_instruction (inv : Invoke) : M unit :=
  x ← get_current_instruction_context;
  rest ← with_borrowed x.2 0 (process_with_account inv x.2);
  rest.
End Program.
End VoteProgram.
