(* ===== verification/VoteOutcome.v ===== *)
(** * The vote program on accounts: what each instruction may do

    The abstract account of the vote program: which signature an instruction needs,
    which vote state it leaves and which bytes are written back. The operations of
    [VoteProgram] are shown to do exactly that when they succeed, without panicking. *)

From S2P Require Import Prelude TransactionContext ContextSpec ContextTrace.
From S2P Require Import VoteState VoteTower VoteSteps VoteSync VoteHistory VoteTrace VoteHandler VoteProgram Builtin BuiltinRuns.
Import Ctx Builtin Vote Handler VoteProgram.

Section Outcome.
Context `{RL : RuntimeLaws} `{VL : VoteInterfaceLaws} `{AI : VotersInterface} `{VC : !VoteCodec}.
Implicit Types (c : TransactionContext) (a : Account) (s : VoteStateHandler).

(** ** Decoding and encoding *)

(** The vote state in an account, read for the target version. *)
Definition decoded (v : VoteStateTargetVersion) (check_initialized : bool) a :
    result InstructionError VoteStateHandler :=
  match v with
  | TargetV3 =>
      vote_state ← v3_deserialize (payload a);
      if check_initialized && v3_is_uninitialized vote_state then Err UninitializedAccount
      else Ok (new_v3 vote_state)
  | TargetV4 =>
      versioned ← versions_deserialize (payload a);
      if versions_is_uninitialized versioned then Err UninitializedAccount
      else vote_state ← try_convert_to_vote_state_v4 versioned (key a); Ok (new_v4 vote_state)
  end.

(** The data a state of [size] bytes is written into: that of the account, made longer
    if that is needed and allowed. *)
Definition room c a (size : nat) : option Bytes :=
  if (size <=? length (payload a))%nat then Some (payload a)
  else if is_exempt (rent c) (lamports a) (Z.of_nat size) && resizable c a size
  then Some (payload a ++ replicate (size - length (payload a)) 0)
  else None.

Definition stored (w : VoteStateVersions) (d : Bytes) : option Bytes :=
  bytes ← versions_serialize w; over bytes d.

(** The data after a state was written back: where there is no room for version 3, the
    state in the version before it; version 4 needs its room. *)
Definition written c a s : option Bytes :=
  match target_state s with
  | V3 s3 =>
      match room c a v3_size_of with
      | Some d => stored (VersionV3 s3) d
      | None => stored (Version1_14_11 (v1_from_v3 s3)) (payload a)
      end
  | V4 s4 => d ← room c a v4_size_of; stored (VersionV4 s4) d
  end.

(** The account with the state [s] written back. *)
Definition saved c a s a' : Prop := exists d, written c a s = Some d /\ a' = view_set_data a d.

(** A key derived from one that signed. *)
Definition derived c f (args : WithSeedArgs) k : Prop :=
  exists base, signed_at c f 2 base /\
    create_with_seed base (current_authority_derived_key_seed args)
      (current_authority_derived_key_owner args) = Ok k.

(** ** What the operations do to the state, under signatures [sg] *)
Definition by_voter (sg : Pubkey -> Prop) (e : Epoch) s : Prop :=
  exists voter, (get_and_update_authorized_voter s e).2 = Ok voter /\ sg voter.

Definition may_reauthorize (sg : Pubkey -> Prop) (auth : VoteAuthorize) (e : Epoch) s : Prop :=
  match auth with
  | AuthorizeWithdrawer => sg (authorized_withdrawer s)
  | AuthorizeVoter => sg (authorized_withdrawer s) \/ by_voter sg e s
  end.

Definition reauthorized (auth : VoteAuthorize) (k : Pubkey) (clock : Clock) s s' : Prop :=
  match auth with
  | AuthorizeWithdrawer => s' = set_authorized_withdrawer s k
  | AuthorizeVoter =>
      exists target_epoch, checked_add 64 (clock_leader_schedule_epoch clock) 1 = Some target_epoch /\
        set_new_authorized_voter s k (clock_epoch clock) target_epoch (fun _ => Ok tt) = Ok s'
  end.

(** The account [a] becomes [a'] with the state that [R] allows. *)
Definition rewrites (v : VoteStateTargetVersion) (check : bool) c a a'
    (R : VoteStateHandler -> VoteStateHandler -> Prop) : Prop :=
  exists s s', decoded v check a = Ok s /\ R s s' /\ saved c a s' a'.

Definition reauthorizes (v : VoteStateTargetVersion) (sg : Pubkey -> Prop) auth k clock c a a' : Prop :=
  rewrites v false c a a' (fun s s' =>
    may_reauthorize sg auth (clock_epoch clock) s /\ reauthorized auth k clock s s').

Definition reidentifies v (sg : Pubkey -> Prop) (n : Pubkey) c a a' : Prop :=
  rewrites v false c a a' (fun s s' =>
    sg (authorized_withdrawer s) /\ sg n /\
    s' = set_block_revenue_collector (set_node_pubkey s n) n).

Definition recommissions v (sg : Pubkey -> Prop) (x : Z) (schedule : EpochSchedule) clock c a a' : Prop :=
  rewrites v false c a a' (fun s s' =>
    sg (authorized_withdrawer s) /\ s' = set_commission s x /\
    (commission s < x -> is_commission_update_allowed (clock_slot clock) schedule = true)).

Definition votes_on v (sg : Pubkey -> Prop) (clock : Clock) (hashes : list (Slot * Hash)) (op : VoteOp) c a a' : Prop :=
  rewrites v true c a a' (fun s s' =>
    exists s1 voter, get_and_update_authorized_voter s (clock_epoch clock) = (s1, Ok voter) /\ sg voter /\
      VoteTrace.attempt s1 (MkLanding hashes (clock_epoch clock) (clock_slot clock) op) = Some (s', Ok tt)).

Definition fresh_state v (k : Pubkey) (init : VoteInit) (clock : Clock) : VoteStateHandler :=
  match v with
  | TargetV3 => new_v3 (v3_new init clock)
  | TargetV4 => new_v4 (create_new_vote_state_v4 k init clock)
  end.

Definition state_size v : nat := match v with TargetV3 => v3_size_of | TargetV4 => v4_size_of end.

Definition initializes v (sg : Pubkey -> Prop) (init : VoteInit) (clock : Clock) c a a' : Prop :=
  sg (init_node_pubkey init) /\ length (payload a) = state_size v /\
  (exists w, versions_bincode (payload a) = Some w /\ versions_is_uninitialized w = true) /\
  saved c a (fresh_state v (key a) init clock) a'.

(** An account without credits of this epoch or the last. *)
Definition inactive (clock : Clock) s : Prop :=
  forall e x y, last (epoch_credits s) = Some (e, x, y) -> e + 2 <= clock_epoch clock.

Definition closed v c a a' : Prop :=
  match v with
  | TargetV3 => saved c a (new_v3 v3_default) a'
  | TargetV4 => a' = view_set_data a (replicate (length (payload a)) 0)
  end.

(** Taking everything closes the account; what is left is enough for the rent. *)
Definition pays v (sg : Pubkey -> Prop) (amount : Z) (r : Rent) (clock : Clock) c a a' : Prop :=
  exists s a1, decoded v false a = Ok s /\ sg (authorized_withdrawer s) /\ amount <= lamports a /\
    (if lamports a =? amount then inactive clock s /\ closed v c a a1
     else minimum_balance r (Z.of_nat (length (payload a))) <= lamports a - amount /\ a1 = a) /\
    a' = view_set_lamports a1 (lamports a - amount).

(** ** The operations do that *)
Section Ops.
Context (L D : Z) (b : Borrowed) (v : VoteStateTargetVersion).

Lemma run_checked c a check : has L D b c a ->
  get_vote_state_handler_checked b (preserve_new v check) c = Some (c, decoded v check a).
Proof.
  intros [_ Ha]. unfold get_vote_state_handler_checked, decoded, preserve_new. cbv [mbind M_bind].
  rewrite (run_borrowed c b a Ha). unfold lift. destruct v; cbv [mbind result_bind].
  - destruct (v3_deserialize (payload a)) as [w|e]; [|done]. by destruct (check && v3_is_uninitialized w).
  - destruct (versions_deserialize (payload a)) as [w|e]; [|done]. destruct (versions_is_uninitialized w); [done|].
    by destruct (try_convert_to_vote_state_v4 w (key a)).
Qed.

Lemma saved_same c a s a' : saved c a s a' -> same_but_data a a'.
Proof. by intros (d & _ & ->). Qed.

Lemma runs_cannot_hold c a n : has L D b c a ->
  runs L D b (cannot_hold b n) c (fun a' r => same_but_data a a' /\
    exists small, r = Ok small /\ (changeable b c a ->
      match room c a n with
      | Some d => small = false /\ a' = view_set_data a d
      | None => small = true /\ a' = a
      end)).
Proof.
  intros Ha. pose proof (view_same _ _ _ _ _ Ha) as Hsame. unfold cannot_hold, room.
  apply (runs_account _ _ _ _ _ a); [done|].
  destruct (Nat.ltb_spec (length (payload a)) n) as [Hlt|Hle].
  2: { rewrite (proj2 (Nat.leb_le _ _)) by done. apply (runs_ret _ _ _ _ _ a); [done|]. split; [done|].
       exists false. by rewrite Hsame. }
  rewrite (proj2 (Nat.leb_gt _ _)) by done.
  eapply (runs_read _ _ _ _ _ _ a (Ok _)); [done| |].
  { unfold is_rent_exempt_at_data_length. cbv [mbind M_bind]. rewrite (run_borrowed c b a (proj2 Ha)). done. }
  destruct (is_exempt (rent c) (lamports a) (Z.of_nat n)); simpl.
  2: { apply (runs_ret _ _ _ _ _ a); [done|]. split; [done|]. by exists true. }
  apply (runs_bind _ _ _ _ _ _ a); [done|]. apply runs_attempt.
  eapply runs_mono; [by apply runs_resize|]. intros a1 r [Hr Hok] c1 _ H1. apply (runs_ret _ _ _ _ _ a1); [done|].
  split; [by destruct r; subst a1|]. exists (negb (is_ok r)). split; [done|]. intros Hch%Hok. rewrite <- Hch.
  destruct r; subst a1; simpl; [|done]. unfold view_resize. by rewrite (take_ge (payload a)) by lia.
Qed.

Lemma runs_stored c a w : has L D b c a ->
  runs L D b (set_state b (versions_serialize w)) c (fun a' r => same_but_data a a' /\
    (r = Ok tt -> changeable b c a /\ exists d, stored w (payload a) = Some d /\ a' = view_set_data a d)).
Proof.
  intros Ha. eapply runs_mono; [by apply runs_write_state|]. intros a' r [Hs Hr]. split; [done|].
  intros (Hch & bytes & d & Hb & Hd & ->)%Hr. split; [done|]. exists d. split; [|done]. unfold stored. by rewrite Hb.
Qed.

Lemma changeable_moved c c1 a a1 : has L D b c a -> same_but_data a a1 -> moved b c c1 a1 ->
  changeable b c1 a1 -> changeable b c a.
Proof.
  intros [_ Ha] (Hk & Ho & _) Hmv [Hw Hp]. split; [done|]. rewrite <- Ho, <- Hp. destruct Hmv as [-> | ->]; [done|].
  unfold program_key. rewrite (accs_put _ _ a) by done.
  destruct (decide (b_program b = b_index b)) as [->|Hne]; [|by rewrite list_lookup_insert_ne].
  rewrite list_lookup_insert_eq by (by eapply lookup_lt_Some). rewrite Ha. simpl. congruence.
Qed.

(** What is left of a write after the room was made. *)
Lemma runs_stored_in c a c1 a1 w (Q : Bytes -> Prop) d0 : has L D b c a -> has L D b c1 a1 -> moved b c c1 a1 ->
  same_but_data a a1 -> (changeable b c a -> a1 = view_set_data a d0) ->
  (changeable b c a -> forall d, stored w d0 = Some d -> Q d) ->
  runs L D b (set_state b (versions_serialize w)) c1 (fun a' r => same_but_data a a' /\
    (r = Ok tt -> exists d, Q d /\ a' = view_set_data a d)).
Proof.
  intros Ha H1 Hmv Hs1 Hroom HQ. eapply runs_mono; [by apply runs_stored|]. intros a2 r [Hs2 Hr].
  split; [by eapply same_but_data_trans|]. intros (Hch & d & Hd & ->)%Hr.
  pose proof (changeable_moved _ _ _ _ Ha Hs1 Hmv Hch) as Hch0. rewrite (Hroom Hch0) in Hd. simpl in Hd. exists d.
  split; [by apply HQ|]. by rewrite (Hroom Hch0).
Qed.

Lemma runs_write_back c a s : has L D b c a ->
  runs L D b (set_vote_account_state s b) c (fun a' r => same_but_data a a' /\ (r = Ok tt -> saved c a s a')).
Proof.
  intros Ha. pose proof (view_same _ _ _ _ _ Ha) as Hsame. unfold set_vote_account_state, saved, written.
  destruct (target_state s) as [s3|s4]; (apply (runs_bind _ _ _ _ _ _ a); [done|]);
    (eapply runs_mono; [by apply runs_cannot_hold|]); intros a1 r (Hs1 & small & -> & Hroom) c1 Hmv H1; destruct small.
  - apply (runs_stored_in c a c1 a1 _ _ (payload a)); try done; intros Hch; specialize (Hroom Hch).
    + destruct (room c a v3_size_of); destruct Hroom; congruence.
    + by destruct (room c a v3_size_of); destruct Hroom.
  - apply (runs_stored_in c a c1 a1 _ _ (default [] (room c a v3_size_of))); try done; intros Hch; specialize (Hroom Hch).
    + by destruct (room c a v3_size_of); destruct Hroom.
    + by destruct (room c a v3_size_of); destruct Hroom.
  - by apply (runs_raise _ _ _ _ _ a1).
  - apply (runs_stored_in c a c1 a1 _ _ (default [] (room c a v4_size_of))); try done; intros Hch; specialize (Hroom Hch).
    + by destruct (room c a v4_size_of); destruct Hroom.
    + by destruct (room c a v4_size_of); destruct Hroom.
Qed.

(** Reading the state, a decision, and writing back. *)
Lemma runs_rewrite c a check (k : VoteStateHandler -> M VoteStateHandler)
    (R : VoteStateHandler -> VoteStateHandler -> Prop) : has L D b c a ->
  (forall s, decoded v check a = Ok s -> exists r, k s c = Some (c, r) /\ forall s', r = Ok s' -> R s s') ->
  runs L D b (get_vote_state_handler_checked b (preserve_new v check) ≫= fun s =>
              k s ≫= fun s' => set_vote_account_state s' b) c (fun a' r =>
    same_but_data a a' /\ (r = Ok tt -> rewrites v check c a a' R)).
Proof.
  intros Ha Hk. apply (runs_read _ _ _ _ _ _ a (decoded v check a)); [done|by apply run_checked|].
  destruct (decoded v check a) as [s|e] eqn:Hd; [|done]. destruct (Hk s eq_refl) as (r & Hr & HR).
  apply (runs_read _ _ _ _ _ _ a r); [done..|]. destruct r as [s'|e]; [|done].
  eapply runs_mono; [by apply runs_write_back|]. intros a' r [Hs Hw]. split; [done|].
  intros Hr'. exists s, s'. split_and!; [done|by apply HR|by apply Hw].
Qed.

(** The postconditions below hold of any error that leaves the account. *)
Lemma runs_verify (S : gset Pubkey) k (m : M unit) c a (Q : Account -> result InstructionError unit -> Prop) :
  has L D b c a -> (forall e, Q a (Err e)) -> (k ∈ S -> runs L D b m c Q) ->
  runs L D b (lift (verify_authorized_signer k S) ≫= fun _ => m) c Q.
Proof.
  intros Ha HQ Hm. apply (runs_lift _ _ _ _ _ _ a); [done|]. unfold verify_authorized_signer.
  case_bool_decide; [by apply Hm|apply HQ].
Qed.

Lemma verify_ok k (S : gset Pubkey) : is_ok (verify_authorized_signer k S) = true <-> k ∈ S.
Proof. unfold verify_authorized_signer. by case_bool_decide. Qed.

(** [set_new_authorized_voter] asks about the voter of the epoch, once. *)
Lemma set_new_voter_spec s k e te verify s' : set_new_authorized_voter s k e te verify = Ok s' ->
  (exists voter, (get_and_update_authorized_voter s e).2 = Ok voter /\ verify voter = Ok tt) /\
  set_new_authorized_voter s k e te (fun _ => Ok tt) = Ok s'.
Proof.
  destruct s as [[s|s]]; unfold set_new_authorized_voter, get_and_update_authorized_voter, on_target; cbn [target_state].
  - unfold v3_set_new_authorized_voter. destruct (v3_get_and_update_authorized_voter s e) as [s1 [voter|err]]; [|done].
    cbv [mbind result_bind]. destruct (verify voter) as [[]|err] eqn:Hv; [|done]. intros Hs. split; [|done].
    by exists voter.
  - unfold v4_set_new_authorized_voter. destruct (v4_get_and_update_authorized_voter s e) as [s1 [voter|err]]; [|done].
    cbv [mbind result_bind]. destruct (verify voter) as [[]|err] eqn:Hv; [|done]. intros Hs. split; [|done].
    by exists voter.
Qed.

Lemma runs_authorize c a k auth (S : gset Pubkey) clock : has L D b c a ->
  runs L D b (authorize b v k auth S clock) c (fun a' r =>
    same_but_data a a' /\ (r = Ok tt -> reauthorizes v (.∈ S) auth k clock c a a')).
Proof.
  intros Ha. unfold authorize, reauthorizes. apply runs_rewrite; [done|]. intros s _.
  destruct auth; simpl.
  - destruct (checked_add 64 _ 1) as [te|]; [|by eexists]. eexists. split; [done|]. intros s' Hs.
    apply set_new_voter_spec in Hs as [(voter & Hvoter & Hver) Hs']. split; [|by exists te].
    destruct (is_ok _) eqn:Hw; [left; by apply verify_ok|]. right. exists voter. split; [done|].
    apply verify_ok. by rewrite Hver.
  - cbv [mbind M_bind]. unfold lift, verify_authorized_signer. case_bool_decide; [|by eexists].
    eexists. split; [done|]. by intros s' [= <-].
Qed.

Lemma runs_identity c a n (S : gset Pubkey) : has L D b c a ->
  runs L D b (update_validator_identity b v n S) c (fun a' r =>
    same_but_data a a' /\ (r = Ok tt -> reidentifies v (.∈ S) n c a a')).
Proof.
  intros Ha. unfold update_validator_identity.
  apply (runs_read _ _ _ _ _ _ a (decoded v false a)); [done|by apply run_checked|].
  destruct (decoded v false a) as [s|e] eqn:Hd; [|done].
  apply (runs_verify _ _ _ _ a); [done..|]. intros Hw. apply (runs_verify _ _ _ _ a); [done..|]. intros Hn.
  eapply runs_mono; [by apply runs_write_back|]. intros a' r [Hs Hr]. split; [done|].
  intros Henc%Hr. by exists s, (set_block_revenue_collector (set_node_pubkey s n) n).
Qed.

Lemma runs_commission c a x (S : gset Pubkey) schedule clock : has L D b c a ->
  runs L D b (update_commission b v x S schedule clock) c (fun a' r =>
    same_but_data a a' /\ (r = Ok tt -> recommissions v (.∈ S) x schedule clock c a a')).
Proof.
  intros Ha. unfold update_commission.
  apply (runs_read _ _ _ _ _ _ a (Ok (decoded v false a))); [done| |].
  { unfold Ctx.attempt. by rewrite (run_checked c a). }
  destruct (_ && _) eqn:Hlate; [by apply (runs_raise _ _ _ _ _ a)|].
  apply (runs_lift _ _ _ _ _ _ a); [done|]. destruct (decoded v false a) as [s|e] eqn:Hd; [|done].
  apply (runs_verify _ _ _ _ a); [done..|]. intros Hw.
  eapply runs_mono; [by apply runs_write_back|]. intros a' r [Hs Hr]. split; [done|].
  intros Henc%Hr. exists s, (set_commission s x). split_and!; [done|done|done| |done].
  intros Hlt. apply Z.ltb_lt in Hlt. rewrite Hlt in Hlate. simpl in Hlate. by apply negb_false_iff in Hlate.
Qed.

Lemma runs_initialize c a init (S : gset Pubkey) clock : has L D b c a ->
  runs L D b (initialize_account b v init S clock) c (fun a' r =>
    same_but_data a a' /\ (r = Ok tt -> initializes v (.∈ S) init clock c a a')).
Proof.
  intros Ha. unfold initialize_account, check_vote_account_length, get_state.
  apply (runs_read _ _ _ _ _ _ a
    (if negb (length (payload a) =? state_size v)%nat then Err InvalidAccountData else Ok tt)); [done| |].
  { cbv [mbind M_bind]. rewrite (run_borrowed c b a (proj2 Ha)). fold (state_size v). by destruct (negb _). }
  destruct (Nat.eqb_spec (length (payload a)) (state_size v)) as [Hlen|]; simpl; [|done].
  apply (runs_read _ _ _ _ _ _ a
    (match versions_bincode (payload a) with Some w => Ok w | None => Err InvalidAccountData end)); [done| |].
  { cbv [mbind M_bind]. rewrite (run_borrowed c b a (proj2 Ha)). by destruct (versions_bincode (payload a)). }
  destruct (versions_bincode (payload a)) as [w|] eqn:Hw; [|done].
  destruct (versions_is_uninitialized w) eqn:Hu; simpl; [|by apply (runs_raise _ _ _ _ _ a)].
  apply (runs_verify _ _ _ _ a); [done..|]. intros Hn.
  assert (runs L D b (set_vote_account_state (fresh_state v (key a) init clock) b) c (fun a' r =>
    same_but_data a a' /\ (r = Ok tt -> initializes v (.∈ S) init clock c a a'))) as Hgoal.
  { eapply runs_mono; [by apply runs_write_back|]. intros a' r [Hs Hr]. split; [done|].
    intros Henc%Hr. split_and!; [done|done|by exists w|done]. }
  unfold init_vote_account_state. destruct v; [exact Hgoal|]. by apply (runs_account _ _ _ _ _ a).
Qed.

(** ** Voting *)
Lemma voter_update s e : let s1 := (get_and_update_authorized_voter s e).1 in
  votes s1 = votes s /\ root_slot s1 = root_slot s /\ epoch_credits s1 = epoch_credits s.
Proof.
  destruct s as [[s|s]]; unfold get_and_update_authorized_voter, on_target; cbn [target_state].
  - unfold v3_get_and_update_authorized_voter. by destruct (voters_get_and_cache _ _) as [? [|]].
  - unfold v4_get_and_update_authorized_voter. by destruct (voters_get_and_cache _ _) as [? [|]].
Qed.

Lemma vs_ok_same s s1 : votes s1 = votes s -> root_slot s1 = root_slot s -> epoch_credits s1 = epoch_credits s ->
  vs_ok s -> vs_ok s1.
Proof. intros Hv Hr He [????]. split; unfold lockouts in *; by rewrite ?Hv, ?Hr, ?He. Qed.

Definition vote_step_of (clock : Clock) (hashes : list (Slot * Hash)) (op : VoteOp) s :
    option (VoteStateHandler * result VoteError unit) :=
  VoteTrace.attempt s (MkLanding hashes (clock_epoch clock) (clock_slot clock) op).

Lemma runs_votes c a (S : gset Pubkey) clock hashes op : has L D b c a ->
  (forall s, decoded v true a = Ok s -> vs_ok s) ->
  landing_ok (MkLanding hashes (clock_epoch clock) (clock_slot clock) op) ->
  runs L D b (voting_state b v clock S ≫= fun s => lift_vote (vote_step_of clock hashes op s) ≫= fun s =>
              set_vote_account_state s b) c (fun a' r =>
    same_but_data a a' /\ (r = Ok tt -> votes_on v (.∈ S) clock hashes op c a a')).
Proof.
  intros Ha Hvs Hl.
  assert (exists r, voting_state b v clock S c = Some (c, r) /\ forall s1, r = Ok s1 ->
    exists s voter, decoded v true a = Ok s /\ get_and_update_authorized_voter s (clock_epoch clock) = (s1, Ok voter) /\
      voter ∈ S) as (r & Hr & Hspec).
  { unfold voting_state. cbv [mbind M_bind]. rewrite (run_checked c a) by done.
    destruct (decoded v true a) as [s|e]; [|by eexists].
    destruct (get_and_update_authorized_voter s (clock_epoch clock)) as [s1 [voter|e]] eqn:Hg; [|by eexists].
    unfold lift, verify_authorized_signer. case_bool_decide; [|by eexists].
    eexists. split; [done|]. intros ? [= <-]. by exists s, voter. }
  apply (runs_read _ _ _ _ _ _ a r); [done..|]. destruct r as [s1|e]; [|done].
  destruct (Hspec s1 eq_refl) as (s & voter & Hd & Hg & Hin). pose proof (voter_update s (clock_epoch clock)) as Hu.
  rewrite Hg in Hu. destruct Hu as (Hu1 & Hu2 & Hu3).
  pose proof (vs_ok_same s s1 Hu1 Hu2 Hu3 (Hvs s Hd)) as Hok1.
  destruct (attempt_ok s1 _ Hok1 Hl) as (s' & res & Hatt & _). unfold vote_step_of. rewrite Hatt.
  destruct res as [[]|e]; cycle 1.
  { apply (runs_read _ _ _ _ _ _ a (Err (from_vote_error e))); done. }
  apply (runs_read _ _ _ _ _ _ a (Ok s')); [done..|].
  eapply runs_mono; [by apply runs_write_back|]. intros a' r [Hs Hw]. split; [done|].
  intros Henc%Hw. exists s, s'. split_and!; [done| |done]. by exists s1, voter.
Qed.

(** ** Withdrawing *)
Lemma runs_deinitialize c a : has L D b c a ->
  runs L D b (deinitialize_vote_account_state b v) c (fun a' r =>
    same_but_data a a' /\ (r = Ok tt -> closed v c a a')).
Proof.
  intros Ha. unfold deinitialize_vote_account_state, closed. destruct v.
  - change (v3_set_vote_account_state v3_default b) with (set_vote_account_state (new_v3 v3_default) b).
    by apply runs_write_back.
  - by apply runs_zero.
Qed.

Lemma active_spec clock s : match last (epoch_credits s) with
    | Some (e, _, _) => sat_sub (clock_epoch clock) e <? 2 | None => false end = false -> inactive clock s.
Proof.
  intros Hn e x y He. rewrite He in Hn. unfold sat_sub in Hn. bool_to_prop. lia.
Qed.

(** Taking the amount, after the account was closed or kept. *)
Lemma runs_take c a1 a amount Q : has L D b c a1 -> same_but_data a a1 -> is_u64 amount ->
  Q (view_set_lamports a1 (lamports a - amount)) (Ok tt) -> (forall a' e, same_id a a' -> Q a' (Err e)) ->
  runs L D b (checked_sub_lamports b amount) c Q.
Proof.
  intros Ha Hs Hx HQ He. eapply runs_mono; [by apply runs_sub_lamports|]. pose proof Hs as (_ & _ & Hl & _).
  intros a' [[]|e]; [|intros ->; apply He; by apply same_but_data_id]. intros [-> _]. by rewrite Hl.
Qed.

Lemma runs_withdraw_from c a amount (S : gset Pubkey) r clock : has L D b c a -> is_u64 amount ->
  runs L D b (withdraw_from b v amount S r clock) c (fun a' res =>
    same_id a a' /\ (res = Ok tt -> pays v (.∈ S) amount r clock c a a')).
Proof.
  intros Ha Hx. unfold withdraw_from.
  apply (runs_read _ _ _ _ _ _ a (decoded v false a)); [done|by apply run_checked|].
  destruct (decoded v false a) as [s|e] eqn:Hd; [|done].
  apply (runs_verify _ _ _ _ a); [done..|]. intros Hw. apply (runs_account _ _ _ _ _ a); [done|].
  apply (runs_ok_or _ _ _ _ _ _ _ a); [done|]. unfold checked_sub.
  destruct (Z.leb_spec amount (lamports a)) as [Hle|]; [|done].
  destruct (Z.eqb_spec (lamports a - amount) 0) as [Hz|Hz].
  - destruct (match last _ with Some _ => _ | None => _ end) eqn:Hact.
    { by apply (runs_read _ _ _ _ _ _ a (Err (from_vote_error ActiveVoteAccountClose))). }
    apply (runs_bind _ _ _ _ _ _ a); [done|]. eapply runs_mono; [by apply runs_deinitialize|].
    intros a1 [[]|e] [Hs1 Hcl]; [|split; [by apply same_but_data_id|done]]. intros c1 _ H1.
    apply (runs_take _ a1 a); [done..| |done]. split; [by apply same_but_data_id in Hs1|]. intros _. exists s, a1.
    rewrite (proj2 (Z.eqb_eq _ _)) by lia. split_and!; [done..|by apply active_spec|by apply Hcl|done].
  - destruct (Z.ltb_spec (lamports a - amount) (minimum_balance r (Z.of_nat (length (payload a))))) as [|Hmin].
    { by apply (runs_read _ _ _ _ _ _ a (Err InsufficientFunds)). }
    apply (runs_read _ _ _ _ _ _ a (Ok tt)); [done..|].
    apply (runs_take _ a a); [done..| |done]. split; [done|]. intros _. exists s, a.
    rewrite (proj2 (Z.eqb_neq _ _)) by lia. by split_and!.
Qed.
End Ops.
End Outcome.
