(* ===== verification/VoteInstructions.v ===== *)
(** * The vote program on accounts: the instructions

    Borrowing and releasing the vote account, the readers of the instruction, and the
    processor: each instruction ends in an error or does what [transition] says, a
    withdrawal apart, which is made after the release, and none panics on well-formed
    vote accounts. *)

From S2P Require Import Prelude TransactionContext ContextSpec ContextTrace.
From S2P Require Import VoteState VoteTower VoteSteps VoteSync VoteHistory VoteTrace VoteHandler Builtin BuiltinRuns VoteProgram VoteOutcome.
Import Ctx Builtin Vote Handler VoteProgram.

Section Instructions.
Context `{RL : RuntimeLaws} `{VL : VoteInterfaceLaws} `{AI : VotersInterface} `{VC : !VoteCodec}.
Implicit Types (c : TransactionContext) (a : Account) (s : VoteStateHandler).

Lemma run_checked_key c f i : exists r, checked_key f i c = Some (c, r) /\ forall k, r = Ok k -> signed_at c f i k.
Proof.
  unfold checked_key. cbv [mbind M_bind]. destruct (run_key_at c f i) as ([k|e] & -> & Hk); [|by eexists].
  unfold is_instruction_account_signer, get_instruction_account. cbv [mbind lift result_bind].
  destruct (Hk k eq_refl) as (ia & a & Hia & Ha & <-). rewrite Hia.
  destruct (ia_is_signer ia) eqn:Hs; simpl; [|by eexists]. eexists. split; [done|]. intros k [= <-]. by exists ia, a.
Qed.

(** ** The instructions on the vote account *)
Definition voting_op (ix : VoteInstruction) : option VoteOp :=
  match ix with
  | VoteInst vote | VoteSwitch vote _ => Some (OpVote vote)
  | UpdateVoteState u | UpdateVoteStateSwitch u _
  | CompactUpdateVoteState u | CompactUpdateVoteStateSwitch u _ => Some (OpUpdate u)
  | TowerSyncInst t | TowerSyncSwitch t _ => Some (OpSync t)
  | _ => None
  end.

Definition target_of (inv : Invoke) : VoteStateTargetVersion :=
  if feature_vote_state_v4 inv then TargetV4 else TargetV3.

(** The old kinds of votes, which a feature turns off. *)
Definition legacy (op : VoteOp) : bool := match op with OpSync _ => false | _ => true end.

(** Whether an instruction names the sysvars it reads: the hashes and the clock. *)
Definition names_sysvars (op : VoteOp) : bool := match op with OpVote _ => true | _ => false end.

Definition transition (inv : Invoke) c f (ix : VoteInstruction) a a' : Prop :=
  let v := target_of inv in
  match ix with
  | InitializeAccount init =>
      exists r clock, sysvar_at c f 1 rent_id (sysvar_rent inv) r /\
        is_exempt r (lamports a) (Z.of_nat (length (payload a))) = true /\
        sysvar_at c f 2 clock_id (sysvar_clock inv) clock /\
        initializes v (signed c f) init clock c a a'
  | Authorize k auth =>
      exists clock, sysvar_at c f 1 clock_id (sysvar_clock inv) clock /\
        reauthorizes v (signed c f) auth k clock c a a'
  | AuthorizeChecked auth =>
      exists clock k, sysvar_at c f 1 clock_id (sysvar_clock inv) clock /\ signed_at c f 3 k /\
        reauthorizes v (signed c f) auth k clock c a a'
  | AuthorizeWithSeed args k =>
      exists clock, sysvar_at c f 1 clock_id (sysvar_clock inv) clock /\
        reauthorizes v (derived c f args) (authorization_type args) k clock c a a'
  | AuthorizeCheckedWithSeed args =>
      exists clock k, sysvar_at c f 1 clock_id (sysvar_clock inv) clock /\ signed_at c f 3 k /\
        reauthorizes v (derived c f args) (authorization_type args) k clock c a a'
  | UpdateValidatorIdentity => exists n, key_at c f 1 n /\ reidentifies v (signed c f) n c a a'
  | UpdateCommission x =>
      exists clock schedule, sysvar_clock inv = Ok clock /\ sysvar_epoch_schedule inv = Ok schedule /\
        recommissions v (signed c f) x schedule clock c a a'
  | Withdraw _ => False
  | _ =>
      exists op clock hashes, voting_op ix = Some op /\
        legacy op && feature_deprecate_legacy_vote_ixs inv = false /\
        (names_sysvars op = true -> key_at c f 1 slot_hashes_id /\ key_at c f 2 clock_id) /\
        sysvar_clock inv = Ok clock /\ sysvar_slot_hashes inv = Ok hashes /\
        votes_on v (signed c f) clock hashes op c a a'
  end.

(** ** More signatures allow more *)
Lemma rewrites_mono v check c a a' (R R' : VoteStateHandler -> VoteStateHandler -> Prop) :
  (forall s s', R s s' -> R' s s') -> rewrites v check c a a' R -> rewrites v check c a a' R'.
Proof. intros HR (s & s' & Hd & Hr & He). exists s, s'. auto. Qed.

Section Mono.
Context (v : VoteStateTargetVersion) (sg sg' : Pubkey -> Prop) (Hsg : forall k, sg k -> sg' k).

Lemma reauthorizes_mono auth k clock c a a' : reauthorizes v sg auth k clock c a a' -> reauthorizes v sg' auth k clock c a a'.
Proof.
  apply rewrites_mono. intros s s' [Hm Hr]. split; [|done]. destruct auth; simpl in *; [|auto].
  destruct Hm as [|(voter & ? & ?)]; [auto|]. right. exists voter. auto.
Qed.

Lemma reidentifies_mono n c a a' : reidentifies v sg n c a a' -> reidentifies v sg' n c a a'.
Proof. apply rewrites_mono. intros s s' (? & ? & ?). auto. Qed.

Lemma recommissions_mono x schedule clock c a a' :
  recommissions v sg x schedule clock c a a' -> recommissions v sg' x schedule clock c a a'.
Proof. apply rewrites_mono. intros s s' (? & ? & ?). auto. Qed.

Lemma votes_on_mono clock hashes op c a a' : votes_on v sg clock hashes op c a a' -> votes_on v sg' clock hashes op c a a'.
Proof. apply rewrites_mono. intros s s' (s1 & voter & ? & ? & ?). exists s1, voter. auto. Qed.

Lemma initializes_mono init clock c a a' : initializes v sg init clock c a a' -> initializes v sg' init clock c a a'.
Proof. intros (? & ? & ? & ?). split_and!; auto. Qed.

Lemma pays_mono amount r clock c a a' : pays v sg amount r clock c a a' -> pays v sg' amount r clock c a a'.
Proof. intros (s & a1 & ? & ? & ?). exists s, a1. auto. Qed.
End Mono.

(** ** The part with the vote account *)

(** The arguments are machine words. *)
Definition ix_ok (ix : VoteInstruction) : Prop :=
  match ix with
  | VoteInst vote | VoteSwitch vote _ => Forall is_u64 (vote_slots vote)
  | Withdraw amount => is_u64 amount
  | _ => True
  end.

Definition first_part (inv : Invoke) c f a a' (r : result InstructionError (M unit)) : Prop :=
  match r with
  | Err _ => same_but_data a a'
  | Ok rest =>
      exists ix, limited_deserialize (instruction_data f) = Ok ix /\ owner a = vote_program_id /\
        match ix with
        | Withdraw amount =>
            a' = a /\ exists (S : gset Pubkey) r clock, (forall k, k ∈ S -> signed c f k) /\
              sysvar_rent inv = Ok r /\ sysvar_clock inv = Ok clock /\
              rest = withdraw f 0 (target_of inv) amount 1 S r clock
        | _ => rest = mret tt /\ same_but_data a a' /\ transition inv c f ix a a'
        end
  end.

Section Process.
Context (L D : Z) (b : Borrowed) (inv : Invoke) (c : TransactionContext) (f : InstructionFrame) (a : Account).
Context (Ha : has L D b c a).
Context (Hhashes : forall h, sysvar_slot_hashes inv = Ok h -> history_sorted h).
Context (Hwf : owner a = vote_program_id -> forall s, decoded (target_of inv) true a = Ok s -> vs_ok s).

(** An operation on the account after which nothing is left to do. *)
Lemma runs_done (ix : VoteInstruction) (m : M unit) (P : Account -> Prop) :
  limited_deserialize (instruction_data f) = Ok ix -> owner a = vote_program_id ->
  runs L D b m c (fun a' r => same_but_data a a' /\ (r = Ok tt -> P a')) ->
  (forall a', same_but_data a a' -> P a' -> transition inv c f ix a a') ->
  runs L D b (m ≫= fun _ => mret (mret tt)) c (first_part inv c f a).
Proof.
  intros Hix Ho Hm HP. apply (runs_bind _ _ _ _ _ _ a); [done|]. eapply runs_mono; [exact Hm|].
  intros a' [[]|e] [Hs Hok]; [|done]. intros c1 _ H1. apply (runs_ret _ _ _ _ _ a'); [done|].
  exists ix. split_and!; [done..|]. specialize (HP a' Hs (Hok eq_refl)).
  by destruct ix.
Qed.

Lemma runs_with_seed args k v : v = target_of inv ->
  runs L D b (process_authorize_with_seed_instruction inv f b v k args) c (fun a' r =>
    same_but_data a a' /\ (r = Ok tt -> exists clock, sysvar_at c f 1 clock_id (sysvar_clock inv) clock /\
      reauthorizes v (derived c f args) (authorization_type args) k clock c a a')).
Proof.
  intros Hv. unfold process_authorize_with_seed_instruction.
  destruct (run_sysvar_at clock_id (sysvar_clock inv) c f 1) as (r & Hr & Hclock).
  apply (runs_read _ _ _ _ _ _ a r); [done..|]. destruct r as [clock|]; [|done]. specialize (Hclock _ eq_refl).
  apply (runs_lift _ _ _ _ _ _ a); [done|]. destruct (is_instruction_account_signer f 2) as [signer|e] eqn:Hsig; [|done].
  assert (exists r, (if signer then
       base_pubkey ← get_key_of_instruction_account f 2;
       match create_with_seed base_pubkey (current_authority_derived_key_seed args)
               (current_authority_derived_key_owner args) with
       | Ok k => mret {[k]}
       | Err e => raise (error_from_code e)
       end
     else mret ∅) c = Some (c, r) /\ forall S : gset Pubkey, r = Ok S -> forall k, k ∈ S -> derived c f args k)
    as (r & Hr' & HS).
  { destruct signer; [|eexists; split; [done|]; intros S [= <-]; set_solver]. cbv [mbind M_bind].
    destruct (run_key_at c f 2) as ([base|e] & -> & Hk); [|by eexists].
    destruct (create_with_seed base _ _) as [k'|e] eqn:Hseed; [|by eexists]. eexists. split; [done|].
    intros S [= <-] k0 ->%elem_of_singleton. exists base. split; [|done].
    destruct (Hk base eq_refl) as (ia & a0 & Hia & Ha0 & Hk0). exists ia, a0. split_and!; [done| |done|done].
    unfold is_instruction_account_signer, get_instruction_account in Hsig. rewrite Hia in Hsig.
    cbv [mbind result_bind] in Hsig. by injection Hsig. }
  apply (runs_read _ _ _ _ _ _ a r); [done..|]. destruct r as [S|e]; [|done].
  eapply runs_mono; [by apply runs_authorize|]. intros a' r [Hs Hok]. split; [done|]. intros Ht%Hok.
  exists clock. split; [done|]. eapply reauthorizes_mono; [|exact Ht]. intros k0. by apply HS.
Qed.

(** A reader of the instruction whose error is the outcome. *)
Ltac reading H x Hx :=
  let r := fresh "r" in let Hr := fresh "Hr" in
  destruct H as (r & Hr & Hx); apply (runs_read _ _ _ _ _ _ a r); [exact Ha|exact Hr|];
  destruct r as [x|]; [specialize (Hx x eq_refl)|done].

Ltac lifting x Hx :=
  apply (runs_lift _ _ _ _ _ _ a); [exact Ha|];
  match goal with |- match ?r with _ => _ end => case_eq r; [intros x Hx|done] end.

Ltac not_deprecated :=
  let Hleg := fresh "Hleg" in
  destruct (feature_deprecate_legacy_vote_ixs inv) eqn:Hleg; [by apply (runs_raise _ _ _ _ _ a)|].

Lemma runs_vote_instruction ix op (S : gset Pubkey) clock hashes :
  limited_deserialize (instruction_data f) = Ok ix -> owner a = vote_program_id -> ix_ok ix ->
  voting_op ix = Some op -> legacy op && feature_deprecate_legacy_vote_ixs inv = false ->
  (names_sysvars op = true -> key_at c f 1 slot_hashes_id /\ key_at c f 2 clock_id) ->
  (forall k, k ∈ S -> signed c f k) -> sysvar_clock inv = Ok clock -> sysvar_slot_hashes inv = Ok hashes ->
  runs L D b ((voting_state b (target_of inv) clock S ≫= fun s => lift_vote (vote_step_of clock hashes op s) ≫= fun s =>
               set_vote_account_state s b) ≫= fun _ => mret (mret tt)) c (first_part inv c f a).
Proof.
  intros Hix Ho Hixok Hop Hleg Hnames HS Hclock Hh. eapply (runs_done ix); [done|done| |].
  { apply (runs_votes L D b); [exact Ha|by apply Hwf|]. split; [by apply Hhashes|].
    destruct ix; simpl in *; try done; injection Hop as <-; done. }
  intros a' _ Ht. eapply votes_on_mono in Ht; [|exact HS].
  destruct ix; try done; exists op, clock, hashes; done.
Qed.

Ltac syncing ix op :=
  let hashes := fresh "hashes" in let clock := fresh "clock" in
  let Hh := fresh "Hh" in let Hclock := fresh "Hclock" in
  lifting hashes Hh; lifting clock Hclock; by apply (runs_vote_instruction ix op).

Lemma runs_process : (forall ix, limited_deserialize (instruction_data f) = Ok ix -> ix_ok ix) ->
  runs L D b (process_with_account inv f b) c (first_part inv c f a).
Proof.
  intros Hixok. unfold process_with_account. apply (runs_account _ _ _ _ _ a); [exact Ha|].
  destruct (Z.eqb_spec (owner a) vote_program_id) as [Ho|]; simpl; [|by apply (runs_raise _ _ _ _ _ a)].
  fold (target_of inv). reading (run_signers c f) sgs HS. lifting ix Hix. specialize (Hixok ix Hix).
  destruct ix as [init|k auth|args k|args| |x|vote|vote h|u|u h|u|u h|t|t h|amount|auth].
  - reading (run_sysvar_at rent_id (sysvar_rent inv) c f 1) r Hrent.
    destruct (is_exempt r _ _) eqn:Hexempt; simpl; [|by apply (runs_raise _ _ _ _ _ a)].
    reading (run_sysvar_at clock_id (sysvar_clock inv) c f 2) clock Hclock.
    eapply (runs_done _ _ _ Hix Ho); [by apply runs_initialize|]. intros a' _ Ht. exists r, clock. split_and!; [done..|].
    eapply initializes_mono; [exact HS|exact Ht].
  - reading (run_sysvar_at clock_id (sysvar_clock inv) c f 1) clock Hclock.
    eapply (runs_done _ _ _ Hix Ho); [by apply runs_authorize|]. intros a' _ Ht. exists clock. split; [done|].
    eapply reauthorizes_mono; [exact HS|exact Ht].
  - lifting u Hu. eapply (runs_done _ _ _ Hix Ho); [by apply runs_with_seed|]. by intros a' _ Ht.
  - lifting u Hu. reading (run_checked_key c f 3) k Hk.
    eapply (runs_done _ _ _ Hix Ho); [by apply runs_with_seed|]. intros a' _ (clock & Hc & Ht). exists clock, k.
    by split_and!.
  - lifting u Hu. reading (run_key_at c f 1) n Hn.
    eapply (runs_done _ _ _ Hix Ho); [by apply runs_identity|]. intros a' _ Ht. exists n. split; [done|].
    eapply reidentifies_mono; [exact HS|exact Ht].
  - lifting schedule Hsch. lifting clock Hclock.
    eapply (runs_done _ _ _ Hix Ho); [by apply runs_commission|]. intros a' _ Ht. exists clock, schedule.
    split_and!; [done..|]. eapply recommissions_mono; [exact HS|exact Ht].
  - not_deprecated. reading (run_sysvar_at slot_hashes_id (sysvar_slot_hashes inv) c f 1) hashes Hh.
    reading (run_sysvar_at clock_id (sysvar_clock inv) c f 2) clock Hclock.
    destruct Hh, Hclock. by apply (runs_vote_instruction (VoteInst vote) (OpVote vote)).
  - not_deprecated. reading (run_sysvar_at slot_hashes_id (sysvar_slot_hashes inv) c f 1) hashes Hh.
    reading (run_sysvar_at clock_id (sysvar_clock inv) c f 2) clock Hclock.
    destruct Hh, Hclock. by apply (runs_vote_instruction (VoteSwitch vote h) (OpVote vote)).
  - not_deprecated. syncing (UpdateVoteState u) (OpUpdate u).
  - not_deprecated. syncing (UpdateVoteStateSwitch u h) (OpUpdate u).
  - not_deprecated. syncing (CompactUpdateVoteState u) (OpUpdate u).
  - not_deprecated. syncing (CompactUpdateVoteStateSwitch u h) (OpUpdate u).
  - syncing (TowerSyncInst t) (OpSync t).
  - syncing (TowerSyncSwitch t h) (OpSync t).
  - lifting u Hu. lifting r Hrent. lifting clock Hclock. apply (runs_ret _ _ _ _ _ a); [exact Ha|].
    exists (Withdraw amount). split_and!; [done..|]. by exists sgs, r, clock.
  - lifting u Hu. reading (run_checked_key c f 3) k Hk.
    reading (run_sysvar_at clock_id (sysvar_clock inv) c f 1) clock Hclock.
    eapply (runs_done _ _ _ Hix Ho); [by apply runs_authorize|]. intros a' _ Ht. exists clock, k.
    split_and!; [done..|]. eapply reauthorizes_mono; [exact HS|exact Ht].
Qed.
End Process.
End Instructions.
