(* ===== verification/VoteProgramTheorems.v ===== *)
(** * The vote program on accounts: the theorems

    The whole processor against its abstract account: it never panics on well-formed
    vote accounts, a success is exactly the transition of the instruction under the required
    signature, lamports are conserved and the accounts stay well formed. *)

From S2P Require Import Prelude TransactionContext ContextSpec ContextTrace.
From S2P Require Import VoteState VoteTower VoteSteps VoteSync VoteHistory VoteTrace VoteHandler VoteInstance.
From S2P Require Import Builtin BuiltinRuns VoteProgram VoteOutcome VoteInstructions.
Import Ctx Builtin Vote Handler VoteProgram.

#[local] Arguments Zsum : simpl never.

Module VoteAccounts.
Section Theorems.
Context `{RL : RuntimeLaws} `{VL : VoteInterfaceLaws} `{AI : VotersInterface} `{VC : !VoteCodec}.
Implicit Types (c : TransactionContext) (a : Account) (s : VoteStateHandler).

(** Every vote account that decodes holds a well-formed vote state. *)
Definition vote_accounts_ok (v : VoteStateTargetVersion) c : Prop :=
  forall i a s, accs c !! i = Some a -> owner a = vote_program_id -> decoded v false a = Ok s -> vs_ok s.

(** What the environment gives the program. *)
Record environment_ok (L D : Z) (inv : Invoke) c (f : InstructionFrame) : Prop := {
  env_books : books L D c;
  env_current : current c f;
  env_hashes : forall h, sysvar_slot_hashes inv = Ok h -> history_sorted h;
  env_accounts : vote_accounts_ok (target_of inv) c;
  env_words : forall ix, limited_deserialize (instruction_data f) = Ok ix -> ix_ok ix
}.

(** What a success has done to the accounts. *)
Definition outcome (inv : Invoke) c f c' (ix : VoteInstruction) : Prop :=
  match ix with
  | Withdraw amount =>
      exists ia ja a a1 t r clock,
        instruction_accounts f !! 0%nat = Some ia /\ instruction_accounts f !! 1%nat = Some ja /\
        accs c !! index_in_transaction ia = Some a /\ owner a = vote_program_id /\
        sysvar_rent inv = Ok r /\ sysvar_clock inv = Ok clock /\
        pays (target_of inv) (signed c f) amount r clock c a a1 /\
        <[index_in_transaction ia := a1]> (accs c) !! index_in_transaction ja = Some t /\
        accs c' = <[index_in_transaction ja := view_set_lamports t (lamports t + amount)]>
                    (<[index_in_transaction ia := a1]> (accs c))
  | _ =>
      exists ia a a',
        instruction_accounts f !! 0%nat = Some ia /\
        accs c !! index_in_transaction ia = Some a /\ owner a = vote_program_id /\
        same_but_data a a' /\ transition inv c f ix a a' /\
        accs c' = <[index_in_transaction ia := a']> (accs c)
  end.

Lemma decoded_checked v a s : decoded v true a = Ok s -> decoded v false a = Ok s.
Proof.
  unfold decoded. destruct v; [|done]. cbv [mbind result_bind]. destruct (v3_deserialize (payload a)); [|done]. simpl.
  by destruct (v3_is_uninitialized _).
Qed.

Lemma withdraw_spec L D c f v amount (sgs : gset Pubkey) r clock : books L D c -> is_u64 amount ->
  exists c' res, withdraw f 0 v amount 1 sgs r clock c = Some (c', res) /\ books L D c' /\ counters c' = counters c /\
    (res = Ok tt -> exists ia ja a a1 t,
      instruction_accounts f !! 0%nat = Some ia /\ instruction_accounts f !! 1%nat = Some ja /\
      accs c !! index_in_transaction ia = Some a /\ pays v (.∈ sgs) amount r clock c a a1 /\
      <[index_in_transaction ia := a1]> (accs c) !! index_in_transaction ja = Some t /\
      accs c' = <[index_in_transaction ja := view_set_lamports t (lamports t + amount)]>
                  (<[index_in_transaction ia := a1]> (accs c))).
Proof.
  intros Hb Hx. unfold withdraw. cbv [mbind M_bind].
  destruct (with_borrowed_spec L D c f 0 (fun b => withdraw_from b v amount sgs r clock)
    (fun a a' res => same_id a a' /\ (res = Ok tt -> pays v (.∈ sgs) amount r clock c a a')) Hb)
    as (c1 & res & Hrun & Hb1 & Hcase).
  { intros ia a b _ _ Hhas. exact (runs_withdraw_from L D b v (set_counter (b_index b) (-1) c) a amount sgs r clock Hhas Hx). }
  rewrite Hrun.
  destruct Hcase as [[-> Hres]|(ia & a & a1 & Hia & Ha & Ha1 & Hmv & Hid & Hok)].
  { destruct res; [done|]. by eexists _, _. }
  destruct (scope_accs _ _ _ _ _ Ha Ha1 Hmv) as [Haccs Hcnt].
  destruct res as [[]|e]; [|by eexists _, _]. specialize (Hok eq_refl).
  destruct (with_borrowed_spec L D c1 f 1 (fun b => checked_add_lamports b amount)
    (fun a a' res => match res with Ok _ => a' = view_set_lamports a (lamports a + amount) | Err _ => a' = a end) Hb1)
    as (c2 & res2 & Hrun2 & Hb2 & Hcase2); [intros; by apply (runs_add_lamports L D)|].
  exists c2, res2. split; [done|]. split; [done|].
  destruct Hcase2 as [[-> Hres]|(ja & t & t' & Hja & Ht & Ht' & Hmv2 & Hok2)]; [by destruct res2|].
  destruct (scope_accs _ _ _ _ _ Ht Ht' Hmv2) as [Haccs2 Hcnt2]. split; [congruence|]. intros ->.
  exists ia, ja, a, a1, t. rewrite Haccs2, Haccs, Hok2. rewrite Haccs in Ht. done.
Qed.

(** What decides whether an account can grow. *)
Lemma written_ext c c1 a s : rent c1 = rent c -> resize_delta (tx_accounts c1) = resize_delta (tx_accounts c) ->
  written c1 a s = written c a s.
Proof. intros Hr Hd. unfold written, room, resizable. by rewrite Hr, Hd. Qed.

Lemma pays_ext v sg amount r clock c c1 a a1 : rent c1 = rent c ->
  resize_delta (tx_accounts c1) = resize_delta (tx_accounts c) ->
  pays v sg amount r clock c1 a a1 -> pays v sg amount r clock c a a1.
Proof.
  intros Hr Hd (s & a2 & Hs & Hsg & Hle & Hcase & ->). exists s, a2. split_and!; [done..| |done].
  destruct (lamports a =? amount); [|done]. destruct Hcase as [Hin Hcl]. split; [done|].
  destruct v; [|done]. destruct Hcl as (d & Hw & ->). exists d. split; [|done]. by rewrite <- (written_ext c c1).
Qed.

Lemma put_same c i a : accs c !! i = Some a ->
  rent (put i a c) = rent c /\ resize_delta (tx_accounts (put i a c)) = resize_delta (tx_accounts c).
Proof. intros Ha. unfold put. unfold accs in Ha. rewrite Ha. simpl. split; [done|lia]. Qed.

Lemma process_spec L D inv c f : environment_ok L D inv c f ->
  exists c' r, process_instruction inv c = Some (c', r) /\ books L D c' /\ counters c' = counters c /\
    (r = Ok tt -> exists ix, limited_deserialize (instruction_data f) = Ok ix /\ outcome inv c f c' ix).
Proof.
  intros [Hb [k Hcur] Hh Hwf Hw]. unfold process_instruction. cbv [mbind M_bind]. rewrite Hcur. cbn [snd].
  destruct (with_borrowed_spec L D c f 0 (process_with_account inv f) (first_part inv c f) Hb)
    as (c1 & res & Hrun & Hb1 & Hcase).
  { intros ia a b Hia Ha Hhas. refine (runs_process L D b inv (set_counter (b_index b) (-1) c) f a Hhas Hh _ Hw).
    intros Ho s Hd. eapply Hwf; [exact Ha|done|]. by apply decoded_checked. }
  rewrite Hrun. destruct Hcase as [[-> Hres]|(ia & a & a1 & Hia & Ha & Ha1 & Hmv & Hpost)].
  { destruct res; [done|]. by eexists _, _. }
  destruct (scope_accs _ _ _ _ _ Ha Ha1 Hmv) as [Haccs Hcnt].
  destruct res as [rest|e]; [|by eexists _, _]. destruct Hpost as (ix & Hix & Ho & Hpost).
  assert (rest = mret tt /\ same_but_data a a1 /\ transition inv c f ix a a1 \/
    exists amount, ix = Withdraw amount /\ a1 = a /\ exists (sgs : gset Pubkey) r clock,
      (forall k, k ∈ sgs -> signed c f k) /\ sysvar_rent inv = Ok r /\ sysvar_clock inv = Ok clock /\
      rest = withdraw f 0 (target_of inv) amount 1 sgs r clock) as [(-> & Hs & Ht)|Hwd].
  { destruct ix; try (by left). right. by eexists. }
  - exists c1, (Ok tt). split_and!; [done..|]. intros _. exists ix. split; [done|].
    unfold outcome. destruct ix; try (by exists ia, a, a1); done.
  - destruct Hwd as (amount & -> & -> & sgs & r & clock & HS & Hr & Hclock & ->).
    destruct (withdraw_spec L D c1 f (target_of inv) amount sgs r clock Hb1 (Hw _ Hix))
      as (c2 & res & -> & Hb2 & Hcnt2 & Hok).
    exists c2, res. split_and!; [done..|congruence|]. intros (ia' & ja & a' & a2 & t & Hia' & Hja & Ha' & Hp & Ht & Heq)%Hok.
    exists (Withdraw amount). split; [done|]. rewrite list_insert_id in Haccs by done.
    exists ia', ja, a', a2, t, r, clock. rewrite Haccs in *. assert (ia' = ia) as -> by congruence.
    assert (a' = a) as -> by congruence. split_and!; try done. eapply pays_mono; [exact HS|].
    destruct Hmv as [-> | ->]; [exact Hp|]. destruct (put_same c (index_in_transaction ia) a Ha) as [Hre Hde].
    eapply pays_ext; [exact Hre|exact Hde|exact Hp].
Qed.

(** ** Nothing is left open *)
Lemma rewrites_unique v check c a a1 a2 (R : VoteStateHandler -> VoteStateHandler -> Prop) :
  (forall s s1 s2, R s s1 -> R s s2 -> s1 = s2) -> rewrites v check c a a1 R -> rewrites v check c a a2 R -> a1 = a2.
Proof.
  intros HR (s & s1 & Hd & H1 & d1 & Hw1 & ->) (s' & s2 & Hd' & H2 & d2 & Hw2 & ->).
  assert (s' = s) as -> by congruence. rewrite (HR s s1 s2) in Hw1 by done. congruence.
Qed.

Lemma reauthorizes_unique v sg auth k clock c a a1 a2 :
  reauthorizes v sg auth k clock c a a1 -> reauthorizes v sg auth k clock c a a2 -> a1 = a2.
Proof.
  apply rewrites_unique. intros s s1 s2 [_ H1] [_ H2]. destruct auth; simpl in *; [|congruence].
  destruct H1 as (e1 & He1 & H1), H2 as (e2 & He2 & H2). congruence.
Qed.

Lemma votes_unique v sg clock hashes op c a a1 a2 :
  votes_on v sg clock hashes op c a a1 -> votes_on v sg clock hashes op c a a2 -> a1 = a2.
Proof. apply rewrites_unique. intros s s1 s2 (t1 & v1 & Hg1 & _ & H1) (t2 & v2 & Hg2 & _ & H2). congruence. Qed.

Lemma transition_unique inv c f ix a a1 a2 : transition inv c f ix a a1 -> transition inv c f ix a a2 -> a1 = a2.
Proof.
  destruct ix as [init|k auth|args k|args| |x|vote|vote h|u|u h|u|u h|t|t h|amount|auth]; cbn [transition].
  7-14: intros (op & clock & hashes & [= <-] & _ & _ & Hc & Hh & H1) (op' & clock' & hashes' & [= <-] & _ & _ & Hc' & Hh' & H2);
    rewrite Hc in Hc'; injection Hc' as <-; rewrite Hh in Hh'; injection Hh' as <-; by eapply votes_unique.
  - intros (r & clock & _ & _ & [_ Hc] & _ & _ & _ & d & Hw & ->) (r' & clock' & _ & _ & [_ Hc'] & _ & _ & _ & d' & Hw' & ->).
    assert (clock' = clock) as -> by congruence. congruence.
  - intros (clock & [_ Hc] & H1) (clock' & [_ Hc'] & H2). assert (clock' = clock) as -> by congruence.
    by eapply reauthorizes_unique.
  - intros (clock & [_ Hc] & H1) (clock' & [_ Hc'] & H2). assert (clock' = clock) as -> by congruence.
    by eapply reauthorizes_unique.
  - intros (clock & k & [_ Hc] & Hk%signed_key_at & H1) (clock' & k' & [_ Hc'] & Hk'%signed_key_at & H2).
    assert (clock' = clock) as -> by congruence. rewrite (key_at_unique _ _ _ _ _ Hk' Hk) in H2.
    by eapply reauthorizes_unique.
  - intros (n & Hn & H1) (n' & Hn' & H2). rewrite (key_at_unique _ _ _ _ _ Hn' Hn) in H2.
    eapply rewrites_unique; [|exact H1|exact H2]. intros s s1 s2 (_ & _ & ->) (_ & _ & ->). done.
  - intros (clock & schedule & Hc & Hs & H1) (clock' & schedule' & Hc' & Hs' & H2).
    assert (clock' = clock) as -> by congruence. assert (schedule' = schedule) as -> by congruence.
    eapply rewrites_unique; [|exact H1|exact H2]. intros s s1 s2 (_ & -> & _) (_ & -> & _). done.
  - done.
  - intros (clock & k & [_ Hc] & Hk%signed_key_at & H1) (clock' & k' & [_ Hc'] & Hk'%signed_key_at & H2).
    assert (clock' = clock) as -> by congruence. rewrite (key_at_unique _ _ _ _ _ Hk' Hk) in H2.
    by eapply reauthorizes_unique.
Qed.

Lemma pays_unique v sg amount r clock c a a1 a2 :
  pays v sg amount r clock c a a1 -> pays v sg amount r clock c a a2 -> a1 = a2.
Proof.
  intros (s & b1 & _ & _ & _ & H1 & ->) (s' & b2 & _ & _ & _ & H2 & ->). destruct (lamports a =? amount).
  - destruct H1 as [_ H1], H2 as [_ H2]. unfold closed in *. destruct v; [|congruence].
    destruct H1 as (d1 & Hd1 & ->), H2 as (d2 & Hd2 & ->). congruence.
  - destruct H1 as [_ ->], H2 as [_ ->]. done.
Qed.

Lemma outcome_unique inv c f c1 c2 ix : outcome inv c f c1 ix -> outcome inv c f c2 ix -> accs c2 = accs c1.
Proof.
  intros H1 H2. assert ((exists amount, ix = Withdraw amount) \/ (forall c', outcome inv c f c' ix -> exists ia a a',
    instruction_accounts f !! 0%nat = Some ia /\ accs c !! index_in_transaction ia = Some a /\
    transition inv c f ix a a' /\ accs c' = <[index_in_transaction ia := a']> (accs c))) as [[amount ->]|Hother].
  { destruct ix; try (left; by eexists); right; intros c' (ia & a & a' & ? & ? & _ & _ & ? & ?); by exists ia, a, a'. }
  - destruct H1 as (ia & ja & a & a1 & t & r & clock & Hia & Hja & Ha & _ & Hr & Hc & Hp & Ht & ->).
    destruct H2 as (ia' & ja' & a' & a1' & t' & r' & clock' & Hia' & Hja' & Ha' & _ & Hr' & Hc' & Hp' & Ht' & ->).
    simplify_eq. assert (r' = r) as -> by congruence. assert (clock' = clock) as -> by congruence.
    assert (a1' = a1) as -> by (by eapply pays_unique). congruence.
  - destruct (Hother c1 H1) as (ia & a & a1 & Hia & Ha & Ht1 & ->).
    destruct (Hother c2 H2) as (ia' & a' & a2 & Hia' & Ha' & Ht2 & ->). simplify_eq. by rewrite (transition_unique inv c f ix a a2 a1).
Qed.

(** C2: The vote program does what its instructions say and nothing else. On
    well-formed vote accounts and slot hashes in their order the processor never panics
    and gives every borrow back.
    When it succeeds, the accounts are exactly those of the instruction's transition,
    which leaves nothing open: the state decoded from the vote account, the change
    allowed under the signatures of this instruction and with the keys at their places
    in it, and the new state written over the data, in the older version where version 3
    has no room; a withdrawal moves the amount to the recipient. No other account
    changes. *)
Theorem vote_program_refines L D inv c f : environment_ok L D inv c f ->
  exists c' r, process_instruction inv c = Some (c', r) /\ books L D c' /\ counters c' = counters c /\
    (r = Ok tt -> exists ix, limited_deserialize (instruction_data f) = Ok ix /\ outcome inv c f c' ix /\
      forall c2, outcome inv c f c2 ix -> accs c2 = accs c').
Proof.
  intros Henv. destruct (process_spec L D inv c f Henv) as (c' & r & Hrun & Hb & Hcnt & Hok). exists c', r.
  split_and!; [done..|]. intros (ix & Hix & Hout)%Hok. exists ix. split_and!; [done..|]. intros c2. by apply outcome_unique.
Qed.

(** ** Authority *)

(** The keys that have power over the vote account [a] for an instruction. *)
Definition governs (inv : Invoke) (ix : VoteInstruction) a (k : Pubkey) : Prop :=
  let v := target_of inv in
  let voter s := exists clock, sysvar_clock inv = Ok clock /\
    (get_and_update_authorized_voter s (clock_epoch clock)).2 = Ok k in
  match ix with
  | InitializeAccount init => k = init_node_pubkey init
  | Authorize _ AuthorizeVoter | AuthorizeChecked AuthorizeVoter =>
      exists s, decoded v false a = Ok s /\ (k = authorized_withdrawer s \/ voter s)
  | AuthorizeWithSeed args _ | AuthorizeCheckedWithSeed args =>
      exists s, decoded v false a = Ok s /\
        (k = authorized_withdrawer s \/ (authorization_type args = AuthorizeVoter /\ voter s))
  | Authorize _ AuthorizeWithdrawer | AuthorizeChecked AuthorizeWithdrawer
  | UpdateValidatorIdentity | UpdateCommission _ | Withdraw _ =>
      exists s, decoded v false a = Ok s /\ k = authorized_withdrawer s
  | _ => exists s, decoded v true a = Ok s /\ voter s
  end.

(** The signature of [k], or of the key it is derived from. *)
Definition approves c f (ix : VoteInstruction) (k : Pubkey) : Prop :=
  match ix with
  | AuthorizeWithSeed args _ | AuthorizeCheckedWithSeed args => derived c f args k
  | _ => signed c f k
  end.

Lemma reauthorizes_governed v (sg : Pubkey -> Prop) auth k clock c a a' : reauthorizes v sg auth k clock c a a' ->
  exists k' s, sg k' /\ decoded v false a = Ok s /\
    (k' = authorized_withdrawer s \/
     auth = AuthorizeVoter /\ (get_and_update_authorized_voter s (clock_epoch clock)).2 = Ok k').
Proof.
  intros (s & s' & Hd & [Hm _] & _). destruct auth; simpl in Hm.
  - destruct Hm as [Hw|(voter & Hv & Hs)]; [exists (authorized_withdrawer s), s; auto|]. exists voter, s. auto.
  - exists (authorized_withdrawer s), s. auto.
Qed.

Lemma votes_governed v (sg : Pubkey -> Prop) clock hashes op c a a' : votes_on v sg clock hashes op c a a' ->
  exists k s, sg k /\ decoded v true a = Ok s /\ (get_and_update_authorized_voter s (clock_epoch clock)).2 = Ok k.
Proof. intros (s & s' & Hd & (s1 & voter & Hg & Hsg & _) & _). exists voter, s. by rewrite Hg. Qed.

Lemma rewrites_withdrawer v (sg : Pubkey -> Prop) c a a' (R : VoteStateHandler -> VoteStateHandler -> Prop) :
  rewrites v false c a a' R -> (forall s s', R s s' -> sg (authorized_withdrawer s)) ->
  exists k, sg k /\ exists s, decoded v false a = Ok s /\ k = authorized_withdrawer s.
Proof. intros (s & s' & Hd & HR & _) Hsg. exists (authorized_withdrawer s). split; [by eapply Hsg|]. by exists s. Qed.

Lemma transition_approved inv c f ix a a' : transition inv c f ix a a' ->
  exists k, approves c f ix k /\ governs inv ix a k.
Proof.
  destruct ix as [init|k auth|args k|args| |x|vote|vote h|u|u h|u|u h|t|t h|amount|auth]; cbn [transition].
  7-14: intros (op & clock & hashes & _ & _ & _ & Hclock & _ & (k & s & Hsg & Hd & Hk)%votes_governed);
    exists k; (split; [done|]); exists s; (split; [done|]); by exists clock.
  - intros (r & clock & _ & _ & _ & Hsg & _). by exists (init_node_pubkey init).
  - intros (clock & [_ Hclock] & (k' & s & Hsg & Hd & Hk)%reauthorizes_governed). exists k'. split; [done|].
    destruct auth; exists s; (split; [done|]); destruct Hk as [|[? ?]]; [by left|right; by exists clock|done|done].
  - intros (clock & [_ Hclock] & (k' & s & Hsg & Hd & Hk)%reauthorizes_governed). exists k'. split; [done|].
    exists s. split; [done|]. destruct Hk as [|[? ?]]; [by left|right]. split; [done|]. by exists clock.
  - intros (clock & k & [_ Hclock] & _ & (k' & s & Hsg & Hd & Hk)%reauthorizes_governed). exists k'. split; [done|].
    exists s. split; [done|]. destruct Hk as [|[? ?]]; [by left|right]. split; [done|]. by exists clock.
  - intros (n & _ & Ht). apply (rewrites_withdrawer _ _ _ _ _ _ Ht). by intros s s' (? & _).
  - intros (clock & schedule & _ & _ & Ht). apply (rewrites_withdrawer _ _ _ _ _ _ Ht). by intros s s' (? & _).
  - done.
  - intros (clock & k & [_ Hclock] & _ & (k' & s & Hsg & Hd & Hk)%reauthorizes_governed). exists k'. split; [done|].
    destruct auth; exists s; (split; [done|]); destruct Hk as [|[? ?]]; [by left|right; by exists clock|done|done].
Qed.

(** C17: No vote account changes hands without its authority. Whenever the vote program
    succeeds, the vote account is one the program owns, and a key with power over it
    for that instruction has signed, or is derived from one that has: the withdrawer
    to withdraw, to change the commission, the identity or the withdrawer; the
    withdrawer or the voter of the epoch to change the voter; the voter of the epoch to
    vote; the node to take a new account. *)
Theorem vote_program_authority L D inv c f c' : environment_ok L D inv c f ->
  process_instruction inv c = Some (c', Ok tt) ->
  exists ix ia a k, limited_deserialize (instruction_data f) = Ok ix /\
    instruction_accounts f !! 0%nat = Some ia /\ accs c !! index_in_transaction ia = Some a /\
    owner a = vote_program_id /\ approves c f ix k /\ governs inv ix a k.
Proof.
  intros Henv Hrun. destruct (process_spec L D inv c f Henv) as (c2 & r & Hrun2 & _ & _ & Hok).
  rewrite Hrun in Hrun2. injection Hrun2 as <- <-. destruct (Hok eq_refl) as (ix & Hix & Hout).
  assert ((exists amount, ix = Withdraw amount) \/ exists ia a a',
    instruction_accounts f !! 0%nat = Some ia /\ accs c !! index_in_transaction ia = Some a /\
    owner a = vote_program_id /\ transition inv c f ix a a') as [[amount ->]|(ia & a & a' & Hia & Ha & Ho & Ht)].
  { destruct ix; try (left; by eexists); right; destruct Hout as (ia & a & a' & ? & ? & ? & _ & ? & _); by exists ia, a, a'. }
  - destruct Hout as (ia & ja & a & a1 & t & r & clock & Hia & _ & Ha & Ho & _ & _ & (s & a2 & Hd & Hs & _) & _).
    exists (Withdraw amount), ia, a, (authorized_withdrawer s). split_and!; [done..|]. by exists s.
  - destruct (transition_approved _ _ _ _ _ _ Ht) as (k & Happ & Hgov). by exists ix, ia, a, k.
Qed.

(** ** Well-formed accounts stay well formed *)

(** The state as an account of the version before keeps it: without latencies. *)
Definition forget_latency (s : VoteStateV3) : VoteStateV3 := v3_set_votes s (landed_from <$> (lockout <$> v3_votes s)).

(** A state without votes, root and credits. *)
Definition empty_tower {T} `{VoteStateHandle T} (s : T) : Prop :=
  votes s = [] /\ root_slot s = None /\ epoch_credits s = [].

(** What the crates that encode vote states document: what is serialized is what is
    deserialized, whatever follows it; a new state has no votes; data of zeros is an
    account that is not initialized, and version 4 is always initialized. *)
Class VoteCodecLaws : Prop := {
  decode_v3 (s : VoteStateV3) bytes rest : versions_serialize (VersionV3 s) = Some bytes -> v3_deserialize (bytes ++ rest) = Ok s;
  decode_v1 (s : VoteStateV3) bytes rest : versions_serialize (Version1_14_11 (v1_from_v3 s)) = Some bytes ->
    v3_deserialize (bytes ++ rest) = Ok (forget_latency s);
  decode_v4 (s : VoteStateV4) bytes rest : versions_serialize (VersionV4 s) = Some bytes ->
    versions_deserialize (bytes ++ rest) = Ok (VersionV4 s);
  v4_initialized (s : VoteStateV4) : versions_is_uninitialized (VersionV4 s) = false;
  zeros_uninitialized n w : versions_deserialize (replicate n 0) = Ok w -> versions_is_uninitialized w = true;
  new_v3_empty init clock : empty_tower (v3_new init clock);
  default_v3_empty : empty_tower v3_default;
  default_v4_empty : empty_tower v4_default
}.

Context `{CL : VoteCodecLaws}.

Lemma empty_ok {T} `{VoteStateHandle T} (s : T) : empty_tower s -> vs_ok s.
Proof.
  intros (Hv & Hr & He). split; unfold lockouts; rewrite ?Hv, ?Hr, ?He; simpl; [|done|apply ledger_ok_nil|done].
  split; simpl; [lia|done|constructor].
Qed.

Lemma forget_latency_ok (s : VoteStateV3) : vs_ok s -> vs_ok (forget_latency s).
Proof.
  intros [Ht Hr Hl _]. assert (lockouts (forget_latency s) = lockouts s) as Heq.
  { unfold lockouts. simpl. by rewrite landed_lockouts. }
  split; rewrite ?Heq; [done..|]. apply landed_from_range.
Qed.

Lemma v3_handler_ok (s : VoteStateV3) : vs_ok s <-> vs_ok (new_v3 s).
Proof. split; intros [????]; by split. Qed.

Lemma stored_prefix w d d' : stored w d = Some d' -> exists bytes rest, versions_serialize w = Some bytes /\ d' = bytes ++ rest.
Proof.
  unfold stored, over. intros (bytes & Hb & Hd)%bind_Some. destruct (_ <=? _)%nat; [|done]. injection Hd as <-. by eexists _, _.
Qed.

(** What was written back is what is read. *)
Lemma saved_ok (v : VoteStateTargetVersion) c a s a' s2 :
  (match v, target_state s with TargetV3, V3 _ | TargetV4, V4 _ => true | _, _ => false end = true) ->
  saved c a s a' -> decoded v false a' = Ok s2 -> vs_ok s -> vs_ok s2.
Proof.
  unfold saved, written, decoded. intros Hv (d & Hd & ->). simpl. destruct s as [[s3|s4]], v; cbn [target_state] in *; try done;
    cbv [mbind result_bind].
  - destruct (room c a v3_size_of); apply stored_prefix in Hd as (bytes & rest & Hs & ->).
    + rewrite (decode_v3 _ _ _ Hs). by intros [= <-].
    + rewrite (decode_v1 _ _ _ Hs). intros [= <-] Hok. apply v3_handler_ok, forget_latency_ok. by apply v3_handler_ok.
  - apply bind_Some in Hd as (d0 & _ & (bytes & rest & Hs & ->)%stored_prefix).
    rewrite (decode_v4 _ _ _ Hs), v4_initialized. by intros [= <-].
Qed.

(** The version of a decoded state, and of what becomes of it. *)
Definition versioned (v : VoteStateTargetVersion) s : bool :=
  match v, target_state s with TargetV3, V3 _ | TargetV4, V4 _ => true | _, _ => false end.

Lemma decoded_versioned v check a s : decoded v check a = Ok s -> versioned v s = true.
Proof.
  unfold decoded. destruct v; cbv [mbind result_bind].
  - destruct (v3_deserialize (payload a)) as [w|]; [|done]. destruct (check && _); [done|]. by intros [= <-].
  - destruct (versions_deserialize (payload a)) as [w|]; [|done]. destruct (versions_is_uninitialized w); [done|].
    destruct (try_convert_to_vote_state_v4 w (key a)); [|done]. by intros [= <-].
Qed.

(** [s'] is of the same version, with the same tower and credits. *)
Definition alike s s' : Prop :=
  (forall v, versioned v s' = versioned v s) /\
  votes s' = votes s /\ root_slot s' = root_slot s /\ epoch_credits s' = epoch_credits s.

Lemma alike_ok s s' : alike s s' -> vs_ok s -> vs_ok s'.
Proof. intros (_ & ? & ? & ?). by apply vs_ok_same. Qed.

Lemma set_new_voter_alike s k e te verify s' : set_new_authorized_voter s k e te verify = Ok s' -> alike s s'.
Proof.
  destruct s as [[s|s]]; unfold set_new_authorized_voter, on_target; cbn [target_state].
  - unfold v3_set_new_authorized_voter, v3_get_and_update_authorized_voter.
    destruct (voters_get_and_cache _ _) as [l [voter|]]; cbv [mbind result_bind]; [|done].
    destruct (verify voter); [|done]. destruct (voters_contains _ _); [done|].
    destruct (voters_last _) as [[latest p]|]; [|done]. destruct (negb _); [destruct (_ <=? _); [done|]|];
      intros [= <-]; by split_and!.
  - unfold v4_set_new_authorized_voter, v4_get_and_update_authorized_voter.
    destruct (voters_get_and_cache _ _) as [l [voter|]]; cbv [mbind result_bind]; [|done].
    destruct (verify voter); [|done]. destruct (voters_contains _ _); [done|]. intros [= <-]; by split_and!.
Qed.

Lemma reauthorized_alike auth k clock s s' : reauthorized auth k clock s s' -> alike s s'.
Proof.
  destruct auth; simpl; [|intros ->; destruct s as [[s|s]]; by split_and!].
  intros (te & _ & Hs). by eapply set_new_voter_alike.
Qed.

Lemma voter_alike s e : alike s (get_and_update_authorized_voter s e).1.
Proof.
  split; [|apply voter_update]. intros v. destruct s as [[s|s]]; unfold get_and_update_authorized_voter, on_target; simpl.
  - unfold v3_get_and_update_authorized_voter. by destruct (voters_get_and_cache _ _) as [? [|]].
  - unfold v4_get_and_update_authorized_voter. by destruct (voters_get_and_cache _ _) as [? [|]].
Qed.

(** Voting changes nothing but the tower, the credits and the timestamp. *)
Lemma next_slot_rest s next epoch cur s' : is_u64 next -> vs_ok s ->
  process_next_vote_slot s next epoch cur = Some s' -> handle_rest s' = handle_rest s.
Proof.
  intros Hu Hok Hs. destruct (newer_or_not s next) as [Hnew|(x & Hx & Hle)].
  - destruct (process_next_vote_slot_eq s next epoch cur Hu (vs_tower _ Hok) Hnew) as (s2 & Hs2 & _ & _ & _ & _ & Hr).
    congruence.
  - rewrite (process_next_vote_slot_old _ _ _ _ x) in Hs by done. by injection Hs as <-.
Qed.

Lemma next_slots_rest slots : forall s epoch cur s', Forall is_u64 slots -> vs_ok s ->
  process_next_vote_slots s slots epoch cur = Some s' -> handle_rest s' = handle_rest s.
Proof.
  induction slots as [|x slots IH]; intros s epoch cur s' Hu Hok; simpl; [by intros [= <-]|].
  apply Forall_cons in Hu as [Hx Hu]. intros (s1 & Hs1 & Hs')%bind_Some.
  destruct (process_next_vote_slot_ok s x epoch cur Hx Hok) as (s2 & Hs2 & Hok2 & _). simplify_eq.
  etrans; [exact (IH _ _ _ _ Hu Hok2 Hs')|by eapply next_slot_rest].
Qed.

Lemma vote_rest s vote H epoch cur s' : Forall is_u64 (vote_slots vote) -> vs_ok s ->
  process_vote_and_timestamp s vote H epoch cur = Some (s', Ok tt) -> handle_rest s' = handle_rest s.
Proof.
  intros Hu Hok. unfold process_vote_and_timestamp. intros ([s1 r] & Hp & Hs')%bind_Some.
  assert (r = Ok tt -> handle_rest s1 = handle_rest s) as H1.
  { intros ->. revert Hp. unfold process_vote, process_vote_unfiltered. repeat split_if; [done..|].
    intros ([[]|e] & _ & Hx)%bind_Some; [|done]. apply bind_Some in Hx as (s2 & Hs2 & [= <-]).
    refine (next_slots_rest _ _ _ _ _ _ Hok Hs2). by apply Forall_filter. }
  destruct r as [[]|e]; [|done]. specialize (H1 eq_refl). simpl in Hs'.
  destruct (vote_timestamp vote) as [t|]; [|by injection Hs' as <-].
  destruct (vote_slots vote) as [|x l]; [done|]. rewrite process_timestamp_eq in Hs'. case_decide; [|done].
  injection Hs' as <-. etrans; [exact (rest_set_last_timestamp s1 _)|exact H1].
Qed.

Lemma attempt_rest s x s' : vs_ok s -> landing_ok x -> VoteTrace.attempt s x = Some (s', Ok tt) ->
  handle_rest s' = handle_rest s.
Proof.
  intros Hok [Hh Hu]. unfold VoteTrace.attempt. destruct (landing_op x) as [vote|u|t]; [by apply vote_rest|..];
    [change do_process_vote_state_update with (@do_process_tower_sync VI VoteStateHandler handler_handle)|].
  all: match goal with |- context [do_process_tower_sync _ _ _ _ ?y] =>
    destruct (do_process_tower_sync_eq s (landing_hashes x) (landing_epoch x) (landing_slot x) y Hok Hh)
      as (s2 & r & -> & _ & Hthen) end; intros [= <- ->]; destruct (Hthen eq_refl) as (E & _ & ->); apply accepted_fields.
Qed.

Lemma rest_versioned s s' v : handle_rest s' = handle_rest s -> versioned v s' = versioned v s.
Proof. by destruct s as [[s|s]], s' as [[s'|s']]. Qed.

(** Each transition writes a well-formed state of the right version. *)
Lemma rewritten_ok v check c a a' R s2 : rewrites v check c a a' R ->
  (forall s, decoded v false a = Ok s -> vs_ok s) -> decoded v false a' = Ok s2 ->
  (forall s s', versioned v s = true -> vs_ok s -> R s s' -> versioned v s' = true /\ vs_ok s') -> vs_ok s2.
Proof.
  intros (s & s' & Hd & HR & Henc) Hok Hd2 Hstep.
  assert (decoded v false a = Ok s) as Hd0 by (destruct check; [by apply decoded_checked|done]).
  destruct (Hstep s s' (decoded_versioned _ _ _ _ Hd) (Hok s Hd0) HR) as [Hv' Hok'].
  by apply (saved_ok v c a s' a').
Qed.

Lemma alike_step v s s' : versioned v s = true -> vs_ok s -> alike s s' -> versioned v s' = true /\ vs_ok s'.
Proof. intros Hv Hok Hal. split; [rewrite (proj1 Hal); done|by eapply alike_ok]. Qed.

Lemma fresh_state_ok v k init clock : versioned v (fresh_state v k init clock) = true /\ vs_ok (fresh_state v k init clock).
Proof.
  destruct v; (split; [done|]); apply empty_ok; [exact (new_v3_empty init clock)|exact default_v4_empty].
Qed.

Lemma votes_step v sg clock hashes op s s' : history_sorted hashes ->
  match op with OpVote vote => Forall is_u64 (vote_slots vote) | _ => True end ->
  versioned v s = true -> vs_ok s ->
  (exists s1 voter, get_and_update_authorized_voter s (clock_epoch clock) = (s1, Ok voter) /\ (sg : Pubkey -> Prop) voter /\
      VoteTrace.attempt s1 (MkLanding hashes (clock_epoch clock) (clock_slot clock) op) = Some (s', Ok tt)) ->
  versioned v s' = true /\ vs_ok s'.
Proof.
  intros Hh Hu Hv Hok (s1 & voter & Hg & _ & Hatt). pose proof (voter_alike s (clock_epoch clock)) as Hal.
  rewrite Hg in Hal. destruct (alike_step v s s1 Hv Hok Hal) as [Hv1 Hok1].
  assert (landing_ok (MkLanding hashes (clock_epoch clock) (clock_slot clock) op)) as Hl by done.
  split; [by rewrite (rest_versioned s1 s') by (by eapply attempt_rest)|].
  destruct (attempt_ok s1 _ Hok1 Hl) as (s2 & r & Hr & Hkeep). rewrite Hatt in Hr. injection Hr as <- <-. by apply Hkeep.
Qed.

Definition account_ok v a : Prop := owner a = vote_program_id -> forall s, decoded v false a = Ok s -> vs_ok s.

Lemma transition_ok inv c f ix a a' :
  (forall h, sysvar_slot_hashes inv = Ok h -> history_sorted h) -> ix_ok ix ->
  transition inv c f ix a a' -> (forall s, decoded (target_of inv) false a = Ok s -> vs_ok s) ->
  forall s2, decoded (target_of inv) false a' = Ok s2 -> vs_ok s2.
Proof.
  intros Hh Hix Ht Hok s2 Hd2.
  assert (forall sg auth k clock, reauthorizes (target_of inv) sg auth k clock c a a' -> vs_ok s2) as Hauth.
  { intros sg auth k clock Hr. apply (rewritten_ok _ _ _ _ _ _ _ Hr Hok Hd2).
    intros s s' Hv Hs [_ Hre]. apply (alike_step _ s); [done..|]. by eapply reauthorized_alike. }
  assert (forall sg clock hashes op, history_sorted hashes ->
    match op with OpVote vote => Forall is_u64 (vote_slots vote) | _ => True end ->
    votes_on (target_of inv) sg clock hashes op c a a' -> vs_ok s2) as Hvote.
  { intros sg clock hashes op Hs Hu Hr. apply (rewritten_ok _ _ _ _ _ _ _ Hr Hok Hd2).
    intros s s' Hv Hs1 Hstep. by eapply votes_step. }
  destruct ix as [init|k auth|args k|args| |x|vote|vote h|u|u h|u|u h|t|t h|amount|auth]; cbn [transition] in Ht.
  7-14: destruct Ht as (op & clock & hashes & [= <-] & _ & _ & _ & Hhash & Hr); by eapply Hvote; [apply Hh| |exact Hr].
  - destruct Ht as (r & clock & _ & _ & _ & _ & _ & _ & Henc). destruct (fresh_state_ok (target_of inv) (key a) init clock) as [Hv Hfresh].
    by eapply saved_ok.
  - destruct Ht as (clock & _ & Hr). by eapply Hauth.
  - destruct Ht as (clock & _ & Hr). by eapply Hauth.
  - destruct Ht as (clock & k & _ & _ & Hr). by eapply Hauth.
  - destruct Ht as (n & _ & Hr). apply (rewritten_ok _ _ _ _ _ _ _ Hr Hok Hd2). intros s s' Hv Hs (_ & _ & ->).
    apply (alike_step _ s); [done..|]. destruct s as [[s|s]]; by split_and!.
  - destruct Ht as (clock & schedule & _ & _ & Hr). apply (rewritten_ok _ _ _ _ _ _ _ Hr Hok Hd2).
    intros s s' Hv Hs (_ & -> & _). apply (alike_step _ s); [done..|]. destruct s as [[s|s]]; by split_and!.
  - done.
  - destruct Ht as (clock & k & _ & _ & Hr). by eapply Hauth.
Qed.

Lemma decoded_ext v check a a' : payload a' = payload a -> key a' = key a -> decoded v check a' = decoded v check a.
Proof. intros Hp Hk. unfold decoded. by rewrite Hp, Hk. Qed.

Lemma pays_ok v sg amount r clock c a a1 : pays v sg amount r clock c a a1 ->
  (forall s, decoded v false a = Ok s -> vs_ok s) -> forall s, decoded v false a1 = Ok s -> vs_ok s.
Proof.
  intros (s & a2 & Hd & _ & _ & Hcase & ->) Hok s2. rewrite (decoded_ext _ _ a2) by done. intros Hd2.
  destruct (lamports a =? amount); [|destruct Hcase as [_ ->]; by apply Hok].
  destruct Hcase as [_ Hcl]. unfold closed in Hcl. destruct v.
  - eapply (saved_ok TargetV3); [..|exact Hcl|exact Hd2|]; [done|]. apply v3_handler_ok, empty_ok, default_v3_empty.
  - subst a2. unfold decoded in Hd2. cbv [mbind result_bind] in Hd2. simpl in Hd2.
    destruct (versions_deserialize (replicate _ 0)) as [w|] eqn:Hw; [|done].
    by rewrite (zeros_uninitialized _ _ Hw) in Hd2.
Qed.

Lemma pays_lamports v sg amount r clock c a a1 : pays v sg amount r clock c a a1 -> lamports a1 = lamports a - amount.
Proof. by intros (s & a2 & _ & _ & _ & _ & ->). Qed.

Lemma accounts_insert v (l : list Account) i a' : (forall j a, l !! j = Some a -> account_ok v a) -> account_ok v a' ->
  forall j a, <[i := a']> l !! j = Some a -> account_ok v a.
Proof. intros Hl Ha' j a [(<- & <- & _)|[_ Hj]]%list_lookup_insert_Some; [done|by eapply Hl]. Qed.

(** C18: Well-formed vote accounts stay well formed. A successful instruction of the vote
    program leaves in every vote account that decodes a well-formed vote state, and the
    lamports of the transaction's accounts add up to what they were. *)
Theorem vote_program_keeps_accounts L D inv c f c' : environment_ok L D inv c f ->
  process_instruction inv c = Some (c', Ok tt) ->
  vote_accounts_ok (target_of inv) c' /\ total_lamports c' = total_lamports c.
Proof.
  intros Henv Hrun. destruct (process_spec L D inv c f Henv) as (c2 & r & Hrun2 & _ & _ & Hok).
  rewrite Hrun in Hrun2. injection Hrun2 as <- <-. destruct (Hok eq_refl) as (ix & Hix & Hout).
  destruct Henv as [_ _ Hh Hwf Hw]. specialize (Hw ix Hix).
  assert (forall j a, accs c !! j = Some a -> account_ok (target_of inv) a) as Hall.
  { intros j a Ha Ho s Hd. by eapply Hwf. }
  assert (forall l, (forall j a, l !! j = Some a -> account_ok (target_of inv) a) ->
    accs c' = l -> vote_accounts_ok (target_of inv) c') as Hdone.
  { intros l Hl Heq j a s Ha Ho Hd. rewrite Heq in Ha. by eapply Hl. }
  assert ((exists amount, ix = Withdraw amount) \/ exists ia a a', accs c !! index_in_transaction ia = Some a /\
    owner a = vote_program_id /\ same_but_data a a' /\ transition inv c f ix a a' /\
    accs c' = <[index_in_transaction ia := a']> (accs c)) as [[amount ->]|(ia & a & a' & Ha & Ho & Hs & Ht & Heq)].
  { destruct ix; try (left; by eexists); right; destruct Hout as (ia & a & a' & _ & ? & ? & ? & ? & ?); by exists ia, a, a'. }
  - destruct Hout as (ia & ja & a & a1 & t & r & clock & _ & _ & Ha & Ho & _ & _ & Hp & Ht & Heq).
    assert (forall j x, <[index_in_transaction ia := a1]> (accs c) !! j = Some x -> account_ok (target_of inv) x) as Hall1.
    { apply accounts_insert; [done|]. intros _. eapply pays_ok; [done|]. by eapply Hall. }
    split.
    + eapply Hdone; [|exact Heq]. apply accounts_insert; [done|]. exact (Hall1 _ _ Ht).
    + unfold total_lamports. rewrite Heq, (Zsum_insert _ _ _ t), (Zsum_insert _ _ _ a) by done.
      rewrite (pays_lamports _ _ _ _ _ _ _ _ Hp). simpl. lia.
  - split.
    + eapply Hdone; [|exact Heq]. apply accounts_insert; [done|]. intros _.
      apply (transition_ok inv c f ix a a' Hh Hw Ht). by eapply Hall.
    + unfold total_lamports. rewrite Heq, (Zsum_insert _ _ _ a) by done. destruct Hs as (_ & _ & Hl & _). lia.
Qed.
End Theorems.
End VoteAccounts.
