(* ===== verification/VoteWire.v ===== *)
(** * The vote program on accounts: an encoding, and examples

    An instance of [VoteCodec] with its laws: each part of a vote state is written in
    order, lists with their length, versions with a tag. It shows that the laws can
    hold, and the examples run the vote program on it. *)

From S2P Require Import Prelude TransactionContext ContextSpec ContextTrace ContextTheorems.
From S2P Require Import VoteState VoteTower VoteSteps VoteSync VoteHistory VoteTrace VoteHandler VoteInstance VoteTheorems.
From S2P Require Import Builtin BuiltinRuns VoteProgram VoteOutcome VoteInstructions VoteProgramTheorems.
Import Ctx Builtin Vote Handler VoteProgram VoteDemo VoteAccounts.

Module Wire.

(** ** Writers and readers *)
Class Wire (A : Type) := {
  wput : A -> Bytes;
  wget : Bytes -> option (A * Bytes);
  wget_wput x rest : wget (wput x ++ rest) = Some (x, rest)
}.

#[export] Instance wire_Z : Wire Z.
Proof.
  refine {| wput x := [x]; wget d := match d with x :: d => Some (x, d) | [] => None end |}. done.
Defined.

#[export] Instance wire_prod {A B} `{Wire A, Wire B} : Wire (A * B).
Proof.
  refine {| wput x := wput x.1 ++ wput x.2;
            wget d := '(x, d) ← wget d; '(y, d) ← wget d; Some ((x, y), d) |}.
  intros [x y] rest. simpl. rewrite <- app_assoc, wget_wput. simpl. by rewrite wget_wput.
Defined.

Fixpoint wget_list {A} `{Wire A} (n : nat) (d : Bytes) : option (list A * Bytes) :=
  match n with
  | O => Some ([], d)
  | S n => '(x, d) ← wget d; '(l, d) ← wget_list n d; Some (x :: l, d)
  end.

Lemma wget_list_spec {A} `{Wire A} (l : list A) rest :
  wget_list (length l) (concat (wput <$> l) ++ rest) = Some (l, rest).
Proof.
  induction l as [|x l IH]; [done|]. change (concat (wput <$> x :: l)) with (wput x ++ concat (wput <$> l)).
  cbn [length wget_list]. rewrite <- app_assoc, wget_wput. cbn [mbind option_bind]. by rewrite IH.
Qed.

#[export] Instance wire_list {A} `{Wire A} : Wire (list A).
Proof.
  refine {| wput l := Z.of_nat (length l) :: concat (wput <$> l);
            wget d := match d with n :: d => wget_list (Z.to_nat n) d | [] => None end |}.
  intros l rest. simpl. rewrite Nat2Z.id. apply wget_list_spec.
Defined.

#[export] Instance wire_option {A} `{Wire A} : Wire (option A).
Proof.
  refine {| wput o := match o with Some x => 1 :: wput x | None => [0] end;
            wget d := match d with
                      | 0 :: d => Some (None, d)
                      | _ :: d => '(x, d) ← wget d; Some (Some x, d)
                      | [] => None
                      end |}.
  intros [x|] rest; [|done]. simpl. by rewrite wget_wput.
Defined.

(** A type with the shape of another. *)
Definition wire_iso {A B} `{Wire B} (f : A -> B) (g : B -> A) (Hgf : forall x, g (f x) = x) : Wire A.
Proof.
  refine {| wput x := wput (f x); wget d := '(y, d) ← wget d; Some (g y, d) |}.
  intros x rest. rewrite wget_wput. simpl. by rewrite Hgf.
Defined.

#[export] Instance wire_landed : Wire LandedVote.
Proof.
  refine (wire_iso (B := Z * (Z * Z)) (fun v => (latency v, lockout v)) (fun x => MkLandedVote x.1 x.2) _).
  by intros [].
Defined.

#[export] Instance wire_timestamp : Wire BlockTimestamp.
Proof. refine (wire_iso (fun t => (ts_slot t, ts_timestamp t)) (fun x => MkBlockTimestamp x.1 x.2) _). by intros []. Defined.

#[export] Instance wire_v1 : Wire VoteState1_14_11.
Proof.
  refine (wire_iso (B := Z * Z * Z * list (Z * Z) * option Z * list (Z * Z) * list (Z * Z * Z) * list (Z * Z * Z) * BlockTimestamp)
    (fun s => (v1_node_pubkey s, v1_authorized_withdrawer s, v1_commission s, v1_votes s, v1_root_slot s,
               v1_authorized_voters s, v1_prior_voters s, v1_epoch_credits s, v1_last_timestamp s))
    (fun '(a, b, c, d, e, f, g, h, i) => MkVoteState1_14_11 a b c d e f g h i) _). by intros [].
Defined.

#[export] Instance wire_v3 : Wire VoteStateV3.
Proof.
  refine (wire_iso (B := Z * Z * Z * list LandedVote * option Z * list (Z * Z) * list (Z * Z * Z) * list (Z * Z * Z) * BlockTimestamp)
    (fun s => (v3_node_pubkey s, v3_authorized_withdrawer s, v3_commission s, v3_votes s, v3_root_slot s,
               v3_authorized_voters s, v3_prior_voters s, v3_epoch_credits s, v3_last_timestamp s))
    (fun '(a, b, c, d, e, f, g, h, i) => MkVoteStateV3 a b c d e f g h i) _). by intros [].
Defined.

#[export] Instance wire_v4 : Wire VoteStateV4.
Proof.
  refine (wire_iso (B := Z * Z * Z * Z * Z * Z * Z * option (list Z) * list LandedVote * option Z * list (Z * Z) *
                         list (Z * Z * Z) * BlockTimestamp)
    (fun s => (v4_node_pubkey s, v4_authorized_withdrawer s, v4_inflation_rewards_collector s,
               v4_block_revenue_collector s, v4_inflation_rewards_commission_bps s, v4_block_revenue_commission_bps s,
               v4_pending_delegator_rewards s, v4_bls_pubkey_compressed s, v4_votes s, v4_root_slot s,
               v4_authorized_voters s, v4_epoch_credits s, v4_last_timestamp s))
    (fun '(a, b, c, d, e, f, g, h, i, j, k, l, m) => MkVoteStateV4 a b c d e f g h i j k l m) _). by intros [].
Defined.

(** ** Versions *)
Definition wire_serialize (w : VoteStateVersions) : option Bytes :=
  Some match w with
       | Version0_23_5 => [0]
       | Version1_14_11 s => 1 :: wput s
       | VersionV3 s => 2 :: wput s
       | VersionV4 s => 3 :: wput s
       end.

Definition wire_versions (d : Bytes) : option VoteStateVersions :=
  match d with
  | 0 :: _ => Some Version0_23_5
  | 1 :: d => (Version1_14_11 ∘ fst) <$> wget d
  | 2 :: d => (VersionV3 ∘ fst) <$> wget d
  | 3 :: d => (VersionV4 ∘ fst) <$> wget d
  | _ => None
  end.

Lemma wire_roundtrip w bytes rest : wire_serialize w = Some bytes -> wire_versions (bytes ++ rest) = Some w.
Proof.
  unfold wire_serialize. intros Hb. apply (inj Some) in Hb as <-. destruct w as [|s|s|s]; [done|..].
  all: change ((?x :: ?l) ++ rest) with (x :: (l ++ rest)).
  all: unfold wire_versions; by rewrite wget_wput.
Qed.

Definition wire_v3_default : VoteStateV3 := MkVoteStateV3 0 0 0 [] None [] [] [] (MkBlockTimestamp 0 0).
Definition wire_v4_default : VoteStateV4 :=
  MkVoteStateV4 0 0 0 0 0 0 0 None [] None [] [] (MkBlockTimestamp 0 0).

Definition wire_v1_from (s : VoteStateV3) : VoteState1_14_11 :=
  MkVoteState1_14_11 (v3_node_pubkey s) (v3_authorized_withdrawer s) (v3_commission s) (lockout <$> v3_votes s)
    (v3_root_slot s) (v3_authorized_voters s) (v3_prior_voters s) (v3_epoch_credits s) (v3_last_timestamp s).

Definition wire_v3_from (s : VoteState1_14_11) : VoteStateV3 :=
  MkVoteStateV3 (v1_node_pubkey s) (v1_authorized_withdrawer s) (v1_commission s) (landed_from <$> v1_votes s)
    (v1_root_slot s) (v1_authorized_voters s) (v1_prior_voters s) (v1_epoch_credits s) (v1_last_timestamp s).

Definition wire_v3_deserialize (d : Bytes) : result InstructionError VoteStateV3 :=
  match wire_versions d with
  | Some Version0_23_5 => Ok wire_v3_default
  | Some (Version1_14_11 s) => Ok (wire_v3_from s)
  | Some (VersionV3 s) => Ok s
  | _ => Err InvalidAccountData
  end.

Definition wire_uninitialized (w : VoteStateVersions) : bool :=
  match w with
  | Version0_23_5 => true
  | Version1_14_11 s => bool_decide (v1_authorized_voters s = [])
  | VersionV3 s => bool_decide (v3_authorized_voters s = [])
  | VersionV4 _ => false
  end.

(** The instructions of the examples. *)
Definition wire_instruction (d : Bytes) : result InstructionError VoteInstruction :=
  match d with
  | [3; amount] => Ok (Withdraw amount)
  | [5; x] => Ok (UpdateCommission x)
  | 14 :: d =>
      match (wget d : option (list (Z * Z) * option Z * Z * option Z * Bytes)) with
      | Some (l, root, hash, ts, _) => Ok (TowerSyncInst (MkTowerSync l root hash ts))
      | None => Err InvalidInstructionData
      end
  | _ => Err InvalidInstructionData
  end.

#[export] Existing Instance Transactions.demo_runtime.
#[export] Existing Instance Transactions.demo_runtime_laws.

#[export] Instance demo_codec : VoteCodec := {
  v3_deserialize := wire_v3_deserialize;
  versions_deserialize d := match wire_versions d with Some w => Ok w | None => Err InvalidAccountData end;
  versions_bincode := wire_versions;
  versions_serialize := wire_serialize;
  v3_size_of := 100;
  v4_size_of := 100;
  v3_is_uninitialized s := bool_decide (v3_authorized_voters s = []);
  versions_is_uninitialized := wire_uninitialized;
  v3_new init clock :=
    MkVoteStateV3 (init_node_pubkey init) (init_authorized_withdrawer init) (init_commission init) [] None
      [(clock_epoch clock, init_authorized_voter init)] [] [] (MkBlockTimestamp 0 0);
  v3_default := wire_v3_default;
  v4_default := wire_v4_default;
  v1_from_v3 := wire_v1_from;
  limited_deserialize := wire_instruction;
  minimum_balance r n := r * (128 + n);
  create_with_seed base seed owner := Ok (base + foldr Z.add 0 seed + owner);
  error_from_code e := Custom e;
  vote_program_id := 8;
  clock_id := 92;
  rent_id := 93;
  slot_hashes_id := 94
}.

#[export] Instance demo_codec_laws : VoteCodecLaws.
Proof.
  split.
  - intros s bytes rest Hb. cbn [v3_deserialize demo_codec]. unfold wire_v3_deserialize. by rewrite (wire_roundtrip (VersionV3 s) _ _ Hb).
  - intros s bytes rest Hb. cbn [v3_deserialize demo_codec]. unfold wire_v3_deserialize. rewrite (wire_roundtrip (Version1_14_11 (wire_v1_from s)) _ _ Hb).
    by destruct s.
  - intros s bytes rest Hb. cbn [versions_deserialize demo_codec]. by rewrite (wire_roundtrip (VersionV4 s) _ _ Hb).
  - done.
  - intros [|n] w; simpl; [done|]. by intros [= <-].
  - by intros.
  - done.
  - done.
Qed.

(** ** Transactions of the examples *)

(** The vote program 8, a vote account it owns with two votes, a recipient, the voter 4
    and the withdrawer 6. *)
Definition vote_data : Bytes := let d := 3 :: wput Votes.demo_voted in d ++ replicate (100 - length d) 0.

Definition vote_accounts : list KeyedAccount :=
  [MkKeyedAccount 8 1 1 0 true []; MkKeyedAccount 20 8 1500 0 false vote_data;
   MkKeyedAccount 21 0 7 0 false []; MkKeyedAccount 4 0 9 0 false []; MkKeyedAccount 6 0 9 0 false []].

Definition vote_frame (data : Bytes) : InstructionFrame :=
  MkFrame 0 0 [MkInstructionAccount 1 false true; MkInstructionAccount 2 false true;
               MkInstructionAccount 3 true false; MkInstructionAccount 4 true false] [] data.

Definition vote_called (data : Bytes) : list Transactions.TxOp :=
  [Transactions.TConfigure 0 (instruction_accounts (vote_frame data)) [] data; Transactions.TPush].

Definition vote_machine (data : Bytes) : Transactions.Machine :=
  let m := Transactions.start vote_accounts Transactions.demo_rent 5 64 in default m (Transactions.run m (vote_called data)).
Definition vote_context (data : Bytes) : TransactionContext := Transactions.mctx (vote_machine data).

Definition demo_invoke : Invoke :=
  MkInvoke true true (Ok (MkClock 5 0 0)) (Ok Transactions.demo_rent) (Ok (MkEpochSchedule 32 0))
    (Ok Votes.demo_hashes).

Lemma vote_loaded : Transactions.loaded vote_accounts.
Proof. split_and!; [vm_compute; lia|repeat constructor; vm_compute; done|vm_compute; done]. Qed.

Lemma vote_context_books data :
  books (Transactions.initial_lamports vote_accounts) (Transactions.initial_data vote_accounts) (vote_context data).
Proof.
  destruct (Transactions.context_run_ok _ _ (vote_called data) _ (Transactions.start_ok vote_accounts Transactions.demo_rent 5 64 vote_loaded)
    ltac:(repeat constructor)) as (m & Hrun & Hm).
  unfold vote_context, vote_machine. rewrite Hrun. apply Hm.
Qed.

Lemma vote_context_accs data : accs (vote_context data) = account_of <$> vote_accounts.
Proof. reflexivity. Qed.

Lemma ok_inj {E A} (x y : A) : @Ok E A x = Ok y -> x = y.
Proof. by intros [= ->]. Qed.

Definition vote_account : Account := account_of (MkKeyedAccount 20 8 1500 0 false vote_data).

Lemma vote_account_decoded : decoded (target_of demo_invoke) false vote_account = Ok Votes.demo_state.
Proof.
  assert (Hv : wire_versions vote_data = Some (VersionV4 Votes.demo_voted)) by by apply (wire_roundtrip (VersionV4 Votes.demo_voted)).
  change (decoded (target_of demo_invoke) false vote_account) with
    (versioned ← match wire_versions vote_data with Some w => Ok w | None => Err InvalidAccountData end;
     if wire_uninitialized versioned then Err UninitializedAccount
     else vote_state ← try_convert_to_vote_state_v4 versioned 20; Ok (new_v4 vote_state)).
  by rewrite Hv.
Qed.

Lemma vote_account_unique i k : vote_accounts !! i = Some k -> k_owner k = 8 -> account_of k = vote_account.
Proof.
  unfold vote_accounts, vote_account. generalize vote_data as d. intros d Hi Ho.
  destruct i as [|[|[|[|[|i]]]]]; cbn [lookup list_lookup] in Hi;
    first [by injection Hi as <-|discriminate].
Qed.

Lemma vote_context_ok data : vote_accounts_ok (target_of demo_invoke) (vote_context data).
Proof.
  intros i a s Ha Ho Hd. rewrite (vote_context_accs data) in Ha. apply list_lookup_fmap_Some in Ha as (k & -> & Hk).
  rewrite (vote_account_unique i k Hk Ho), vote_account_decoded in Hd. apply ok_inj in Hd as <-. exact Votes.demo_state_ok.
Qed.

Lemma vote_environment data : (forall ix, wire_instruction data = Ok ix -> ix_ok ix) ->
  environment_ok (Transactions.initial_lamports vote_accounts) (Transactions.initial_data vote_accounts) demo_invoke
    (vote_context data) (vote_frame data).
Proof.
  intros Hw. split; [apply vote_context_books|by exists 0%nat| |apply vote_context_ok|exact Hw].
  intros h [= <-]. repeat constructor; simpl; lia.
Qed.

(** A tower sync for slot 4, signed by the voter. *)
Definition sync_data : Bytes := 14 :: wput (([(1, 3); (2, 2); (4, 1)], None, 44, None) : list (Z * Z) * option Z * Z * option Z).
(** A withdrawal of 900 lamports, signed by the withdrawer. *)
Definition withdraw_data : Bytes := [3; 900].

Lemma sync_decoded : wire_instruction sync_data = Ok (TowerSyncInst (MkTowerSync [(1, 3); (2, 2); (4, 1)] None 44 None)).
Proof. reflexivity. Qed.

Lemma sync_words ix : wire_instruction sync_data = Ok ix -> ix_ok ix.
Proof. rewrite sync_decoded. intros <-%ok_inj. exact I. Qed.

Lemma withdraw_words ix : wire_instruction withdraw_data = Ok ix -> ix_ok ix.
Proof.
  change (wire_instruction withdraw_data) with (@Ok InstructionError _ (Withdraw 900)).
  intros <-%ok_inj. unfold ix_ok, in_word, word_max. lia.
Qed.

Lemma vote_program_refines_witness :
  exists c' r, process_instruction demo_invoke (vote_context withdraw_data) = Some (c', r) /\
    books (Transactions.initial_lamports vote_accounts) (Transactions.initial_data vote_accounts) c' /\
    counters c' = counters (vote_context withdraw_data) /\
    (r = Ok tt -> exists ix, limited_deserialize (instruction_data (vote_frame withdraw_data)) = Ok ix /\
      outcome demo_invoke (vote_context withdraw_data) (vote_frame withdraw_data) c' ix /\
      forall c2, outcome demo_invoke (vote_context withdraw_data) (vote_frame withdraw_data) c2 ix -> accs c2 = accs c').
Proof. apply (vote_program_refines _ _ _ _ _ (vote_environment withdraw_data withdraw_words)). Defined.

(** Both succeed. *)
Definition ended (data : Bytes) : TransactionContext :=
  match process_instruction demo_invoke (vote_context data) with
  | Some (c', Ok _) => c'
  | _ => vote_context data
  end.

Definition succeeds (data : Bytes) : bool :=
  match process_instruction demo_invoke (vote_context data) with Some (_, Ok _) => true | _ => false end.

Lemma succeeds_ended data : succeeds data = true ->
  process_instruction demo_invoke (vote_context data) = Some (ended data, Ok tt).
Proof.
  unfold succeeds, ended. generalize (process_instruction demo_invoke (vote_context data)) as r.
  by intros [[c' [[]|]]|].
Qed.

Lemma withdraw_succeeds : succeeds withdraw_data = true.
Proof. vm_cast_no_check (eq_refl true). Qed.

Lemma sync_succeeds : succeeds sync_data = true.
Proof. vm_cast_no_check (eq_refl true). Qed.

Lemma vote_program_authority_witness :
  exists ix ia a k, limited_deserialize (instruction_data (vote_frame sync_data)) = Ok ix /\
    instruction_accounts (vote_frame sync_data) !! 0%nat = Some ia /\
    accs (vote_context sync_data) !! index_in_transaction ia = Some a /\
    owner a = vote_program_id /\ approves (vote_context sync_data) (vote_frame sync_data) ix k /\
    governs demo_invoke ix a k.
Proof. exact (vote_program_authority _ _ _ _ _ _ (vote_environment sync_data sync_words) (succeeds_ended _ sync_succeeds)). Defined.

Lemma vote_program_keeps_accounts_witness :
  vote_accounts_ok (target_of demo_invoke) (ended sync_data) /\
  total_lamports (ended sync_data) = total_lamports (vote_context sync_data).
Proof. exact (vote_program_keeps_accounts _ _ _ _ _ _ (vote_environment sync_data sync_words) (succeeds_ended _ sync_succeeds)). Defined.
End Wire.
