(* ===== verification/SystemProgram.v ===== *)
(** * The system program

    src/programs/system/src/system_processor.rs and system_instruction.rs: creating
    accounts, giving them space and an owner, transfers, and nonce accounts. The
    operations run in the monad of [Ctx], with the errors of every call.

    Nonce states, the encoding of instructions and nonce states, rent and derived keys
    belong to other crates. *)

From S2P Require Import Prelude TransactionContext Builtin.
Import Ctx Builtin.

Module System.

(** ** What other crates define *)
Inductive SystemError : Type :=
| AccountAlreadyInUse
| ResultWithNegativeLamports
| InvalidAccountDataLength
| AddressWithSeedMismatch
| NonceNoRecentBlockhashes
| NonceBlockhashNotExpired.

Record NonceData : Type := MkNonceData {
  authority : Pubkey;
  durable_nonce : Z;
  lamports_per_signature : Z
}.

Inductive NonceState : Type :=
| Uninitialized
| Initialized (data : NonceData).

Inductive AuthorizeNonceError : Type :=
| NonceUninitialized
| NonceMissingRequiredSignature (account_authority : Pubkey).

Inductive SystemInstruction : Type :=
| CreateAccount (lamports space : Z) (owner : Pubkey)
| CreateAccountWithSeed (base : Pubkey) (seed : Bytes) (lamports space : Z) (owner : Pubkey)
| Assign (owner : Pubkey)
| Transfer (lamports : Z)
| TransferWithSeed (lamports : Z) (from_seed : Bytes) (from_owner : Pubkey)
| AdvanceNonceAccount
| WithdrawNonceAccount (lamports : Z)
| InitializeNonceAccount (authorized : Pubkey)
| AuthorizeNonceAccount (nonce_authority : Pubkey)
| UpgradeNonceAccount
| Allocate (space : Z)
| AllocateWithSeed (base : Pubkey) (seed : Bytes) (space : Z) (owner : Pubkey)
| AssignWithSeed (base : Pubkey) (seed : Bytes) (owner : Pubkey).

Section Program.
Context `{RT : Runtime}.

Class SystemInterface := {
  (** [nonce::versions::Versions] *)
  Versions : Type;
  versions_new : NonceState -> Versions;
  versions_state : Versions -> NonceState;
  versions_upgrade : Versions -> option Versions;
  versions_authorize : Versions -> gset Pubkey -> Pubkey -> result AuthorizeNonceError Versions;
  (** [bincode] *)
  nonce_deserialize : Bytes -> option Versions;
  nonce_serialize : Versions -> option Bytes;
  (** [DurableNonce::from_blockhash] *)
  from_blockhash : Z -> Z;
  limited_deserialize : Bytes -> result InstructionError SystemInstruction;
  minimum_balance : Rent -> Z -> Z;
  create_with_seed : Pubkey -> Bytes -> Pubkey -> result Z Pubkey;
  (** [InstructionError::from(u64)] *)
  error_from_code : Z -> InstructionError;
  (** [SystemError as u32] *)
  system_error_code : SystemError -> Z;
  MAX_PERMITTED_DATA_LENGTH : Z;
  system_program_id : Pubkey;
  recent_blockhashes_id : Pubkey;
  rent_id : Pubkey
}.

(** What the invoke context gives to the program. The messages it logs are left out;
    two of them look up a key, which can fail, when they are logged. *)
Record Invoke : Type := MkInvoke {
  blockhash : Z;
  blockhash_lamports_per_signature : Z;
  sysvar_recent_blockhashes : result InstructionError (list Z);
  sysvar_rent : result InstructionError Rent;
  is_logging : bool
}.

Context `{SI : SystemInterface}.

(** [SystemError::into]. *)
Definition from_system_error (e : SystemError) : InstructionError := Custom (system_error_code e).

(** ** Addresses *)
Record Address : Type := MkAddress {
  address : Pubkey;
  base : option Pubkey
}.

Definition is_signer (self : Address) (signers : gset Pubkey) : bool :=
  match base self with
  | Some base => bool_decide (base ∈ signers)
  | None => bool_decide (address self ∈ signers)
  end.

Definition create (address : Pubkey) (with_seed : option (Pubkey * Bytes * Pubkey)) :
    result InstructionError Address :=
  base ←
    match with_seed with
    | Some (base, seed, owner) =>
        match create_with_seed base seed owner with
        | Err e => Err (error_from_code e)
        | Ok address_with_seed =>
            if negb (address =? address_with_seed) then Err (from_system_error AddressWithSeedMismatch)
            else Ok (Some base)
        end
    | None => Ok None
    end;
  Ok (MkAddress address base).

(** ** Accounts *)
Definition allocate (account : Borrowed) (address : Address) (space : Z) (signers : gset Pubkey) : M unit :=
  if negb (is_signer address signers) then raise MissingRequiredSignature
  else
    a ← borrowed_account account;
    if negb (bool_decide (payload a = [])) || negb (owner a =? system_program_id)
    then raise (from_system_error AccountAlreadyInUse)
    else if MAX_PERMITTED_DATA_LENGTH <? space
    then raise (from_system_error InvalidAccountDataLength)
    else set_data_length account (Z.to_nat space).

Definition assign (account : Borrowed) (address : Address) (new_owner : Pubkey) (signers : gset Pubkey) : M unit :=
  a ← borrowed_account account;
  if owner a =? new_owner then mret tt
  else if negb (is_signer address signers) then raise MissingRequiredSignature
  else set_owner account new_owner.

Definition allocate_and_assign (to : Borrowed) (to_address : Address) (space : Z) (new_owner : Pubkey)
    (signers : gset Pubkey) : M unit :=
  _ ← allocate to to_address space signers;
  assign to to_address new_owner signers.

(** The part of [transfer_verified] that has the account the lamports come from. *)
Definition transfer_from (from : Borrowed) (amount : Z) : M unit :=
  a ← borrowed_account from;
  if negb (bool_decide (payload a = [])) then raise InvalidArgument
  else if lamports a <? amount then raise (from_system_error ResultWithNegativeLamports)
  else checked_sub_lamports from amount.

Definition transfer_verified (frame : InstructionFrame) (from_account_index to_account_index : nat)
    (amount : Z) : M unit :=
  _ ← with_borrowed frame from_account_index (fun from => transfer_from from amount);
  with_borrowed frame to_account_index (fun to => checked_add_lamports to amount).

(** A signature that is missing, with its message. *)
Definition must_sign (inv : Invoke) (frame : InstructionFrame) (i : nat) : M unit :=
  _ ← (if is_logging inv then _ ← get_key_of_instruction_account frame i; mret tt else mret tt);
  raise MissingRequiredSignature.

Definition transfer (inv : Invoke) (frame : InstructionFrame) (from_account_index to_account_index : nat)
    (amount : Z) : M unit :=
  signer ← lift (is_instruction_account_signer frame from_account_index);
  if negb signer then must_sign inv frame from_account_index
  else transfer_verified frame from_account_index to_account_index amount.

Definition transfer_with_seed (inv : Invoke) (frame : InstructionFrame)
    (from_account_index from_base_account_index : nat) (from_seed : Bytes) (from_owner : Pubkey)
    (to_account_index : nat) (amount : Z) : M unit :=
  signer ← lift (is_instruction_account_signer frame from_base_account_index);
  if negb signer then must_sign inv frame from_base_account_index
  else
    base ← get_key_of_instruction_account frame from_base_account_index;
    match create_with_seed base from_seed from_owner with
    | Err e => raise (error_from_code e)
    | Ok address_from_seed =>
        from_key ← get_key_of_instruction_account frame from_account_index;
        if negb (from_key =? address_from_seed) then raise (from_system_error AddressWithSeedMismatch)
        else transfer_verified frame from_account_index to_account_index amount
    end.

(** The part of [create_account] that has the new account. *)
Definition create_at (to : Borrowed) (to_address : Address) (space : Z) (new_owner : Pubkey)
    (signers : gset Pubkey) : M unit :=
  a ← borrowed_account to;
  if 0 <? lamports a then raise (from_system_error AccountAlreadyInUse)
  else allocate_and_assign to to_address space new_owner signers.

Definition create_account (inv : Invoke) (frame : InstructionFrame) (from_account_index to_account_index : nat)
    (to_address : Address) (amount space : Z) (new_owner : Pubkey) (signers : gset Pubkey) : M unit :=
  _ ← with_borrowed frame to_account_index (fun to => create_at to to_address space new_owner signers);
  transfer inv frame from_account_index to_account_index amount.

(** ** Nonce accounts *)
Definition get_state (account : Borrowed) : M Versions :=
  a ← borrowed_account account;
  ok_or (nonce_deserialize (payload a)) InvalidAccountData.

Definition advance_nonce_account (inv : Invoke) (account : Borrowed) (signers : gset Pubkey) : M unit :=
  if negb (is_writable account) then raise InvalidArgument
  else
    state ← get_state account;
    match versions_state state with
    | Initialized data =>
        if negb (bool_decide (authority data ∈ signers)) then raise MissingRequiredSignature
        else
          let next_durable_nonce := from_blockhash (blockhash inv) in
          if durable_nonce data =? next_durable_nonce
          then raise (from_system_error NonceBlockhashNotExpired)
          else
            let new_data := MkNonceData (authority data) next_durable_nonce
                              (blockhash_lamports_per_signature inv) in
            set_state account (nonce_serialize (versions_new (Initialized new_data)))
    | Uninitialized => raise InvalidAccountData
    end.

(** The part of [withdraw_nonce_account] that has the nonce account. *)
Definition withdraw_nonce_from (inv : Invoke) (from : Borrowed) (amount : Z) (rent : Rent)
    (signers : gset Pubkey) : M unit :=
  if negb (is_writable from) then raise InvalidArgument
  else
    state ← get_state from;
    a ← borrowed_account from;
    signer ←
      match versions_state state with
      | Uninitialized =>
          if lamports a <? amount then raise InsufficientFunds else mret (key a)
      | Initialized data =>
          _ ←
            (if amount =? lamports a then
               if durable_nonce data =? from_blockhash (blockhash inv)
               then raise (from_system_error NonceBlockhashNotExpired)
               else set_state from (nonce_serialize (versions_new Uninitialized))
             else
               let min_balance := minimum_balance rent (data_len a) in
               needed ← ok_or (checked_add 64 amount min_balance) InsufficientFunds;
               if lamports a <? needed then raise InsufficientFunds else mret tt);
          mret (authority data)
      end;
    if negb (bool_decide (signer ∈ signers)) then raise MissingRequiredSignature
    else checked_sub_lamports from amount.

Definition withdraw_nonce_account (inv : Invoke) (frame : InstructionFrame) (from_account_index : nat)
    (amount : Z) (to_account_index : nat) (rent : Rent) (signers : gset Pubkey) : M unit :=
  _ ← with_borrowed frame from_account_index (fun from => withdraw_nonce_from inv from amount rent signers);
  with_borrowed frame to_account_index (fun to => checked_add_lamports to amount).

Definition initialize_nonce_account (inv : Invoke) (account : Borrowed) (nonce_authority : Pubkey)
    (rent : Rent) : M unit :=
  if negb (is_writable account) then raise InvalidArgument
  else
    state ← get_state account;
    match versions_state state with
    | Uninitialized =>
        a ← borrowed_account account;
        if lamports a <? minimum_balance rent (data_len a) then raise InsufficientFunds
        else
          let data := MkNonceData nonce_authority (from_blockhash (blockhash inv))
                        (blockhash_lamports_per_signature inv) in
          set_state account (nonce_serialize (versions_new (Initialized data)))
    | Initialized _ => raise InvalidAccountData
    end.

Definition authorize_nonce_account (account : Borrowed) (nonce_authority : Pubkey) (signers : gset Pubkey) :
    M unit :=
  if negb (is_writable account) then raise InvalidArgument
  else
    state ← get_state account;
    match versions_authorize state signers nonce_authority with
    | Ok versions => set_state account (nonce_serialize versions)
    | Err NonceUninitialized => raise InvalidAccountData
    | Err (NonceMissingRequiredSignature _) => raise MissingRequiredSignature
    end.

Definition upgrade_nonce_account (nonce_account : Borrowed) : M unit :=
  a ← borrowed_account nonce_account;
  if negb (owner a =? system_program_id) then raise InvalidAccountOwner
  else if negb (is_writable nonce_account) then raise InvalidArgument
  else
    nonce_versions ← get_state nonce_account;
    match versions_upgrade nonce_versions with
    | None => raise InvalidArgument
    | Some nonce_versions => set_state nonce_account (nonce_serialize nonce_versions)
    end.

(** ** The processor *)

(** The instructions on the first account alone, with the address it may be derived to. *)
Definition on_account (frame : InstructionFrame) (with_seed : option (Pubkey * Bytes * Pubkey))
    (op : Borrowed -> Address -> M unit) : M unit :=
  _ ← lift (check_number_of_instruction_accounts frame 1);
  with_borrowed frame 0 (fun account =>
    k ← get_key_of_instruction_account frame 0;
    address ← lift (create k with_seed);
    op account address).

Definition creating (inv : Invoke) (frame : InstructionFrame) (with_seed : option (Pubkey * Bytes * Pubkey))
    (amount space : Z) (new_owner : Pubkey) (signers : gset Pubkey) : M unit :=
  _ ← lift (check_number_of_instruction_accounts frame 2);
  k ← get_key_of_instruction_account frame 1;
  to_address ← lift (create k with_seed);
  create_account inv frame 0 1 to_address amount space new_owner signers.

(** The sysvar of recent blockhashes, which must not be empty. *)
Definition with_blockhashes (inv : Invoke) (frame : InstructionFrame) (i : nat) (m : M unit) : M unit :=
  recent_blockhashes ← sysvar_with_account_check recent_blockhashes_id (sysvar_recent_blockhashes inv) frame i;
  if bool_decide (recent_blockhashes = []) then raise (from_system_error NonceNoRecentBlockhashes) else m.

Definition process (inv : Invoke) (frame : InstructionFrame) (instruction : SystemInstruction)
    (signers : gset Pubkey) : M unit :=
  match instruction with
  | CreateAccount amount space new_owner => creating inv frame None amount space new_owner signers
  | CreateAccountWithSeed base seed amount space new_owner =>
      creating inv frame (Some (base, seed, new_owner)) amount space new_owner signers
  | Assign new_owner => on_account frame None (fun account address => assign account address new_owner signers)
  | Transfer amount =>
      _ ← lift (check_number_of_instruction_accounts frame 2);
      transfer inv frame 0 1 amount
  | TransferWithSeed amount from_seed from_owner =>
      _ ← lift (check_number_of_instruction_accounts frame 3);
      transfer_with_seed inv frame 0 1 from_seed from_owner 2 amount
  | AdvanceNonceAccount =>
      _ ← lift (check_number_of_instruction_accounts frame 1);
      with_borrowed frame 0 (fun me => with_blockhashes inv frame 1 (advance_nonce_account inv me signers))
  | WithdrawNonceAccount amount =>
      _ ← lift (check_number_of_instruction_accounts frame 2);
      _ ← sysvar_with_account_check recent_blockhashes_id (sysvar_recent_blockhashes inv) frame 2;
      rent ← sysvar_with_account_check rent_id (sysvar_rent inv) frame 3;
      withdraw_nonce_account inv frame 0 amount 1 rent signers
  | InitializeNonceAccount authorized =>
      _ ← lift (check_number_of_instruction_accounts frame 1);
      with_borrowed frame 0 (fun me =>
        with_blockhashes inv frame 1 (
          rent ← sysvar_with_account_check rent_id (sysvar_rent inv) frame 2;
          initialize_nonce_account inv me authorized rent))
  | AuthorizeNonceAccount nonce_authority =>
      _ ← lift (check_number_of_instruction_accounts frame 1);
      with_borrowed frame 0 (fun me => authorize_nonce_account me nonce_authority signers)
  | UpgradeNonceAccount =>
      _ ← lift (check_number_of_instruction_accounts frame 1);
      with_borrowed frame 0 upgrade_nonce_account
  | Allocate space => on_account frame None (fun account address => allocate account address space signers)
  | AllocateWithSeed base seed space new_owner =>
      on_account frame (Some (base, seed, new_owner)) (fun account address =>
        allocate_and_assign account address space new_owner signers)
  | AssignWithSeed base seed new_owner =>
      on_account frame (Some (base, seed, new_owner)) (fun account address =>
        assign account address new_owner signers)
  end.

Definition process_instruction (inv : Invoke) : M unit :=
  x ← get_current_instruction_context;
  instruction ← lift (limited_deserialize (instruction_data x.2));
  signers ← get_signers x.2;
  process inv x.2 instruction signers.
End Program.
End System.
