(* ===== verification/SystemOutcome.v ===== *)
(** * The system program: what each instruction may do

    The abstract account of the system program: which signature an instruction needs and
    what it leaves in which account. The operations of [System] are shown to do exactly
    that when they succeed, and never to panic. *)

From S2P Require Import Prelude TransactionContext ContextSpec ContextTrace Builtin BuiltinRuns SystemProgram.
Import Ctx Builtin System.

Section Outcome.
Context `{RL : RuntimeLaws} `{SI : !SystemInterface}.
Implicit Types (c : TransactionContext) (a : Account).

(** ** The changes *)

(** The signature for an account: its own key, or the base its key is derived from. *)
Definition authorized (sg : Pubkey -> Prop) (with_seed : option (Pubkey * Bytes * Pubkey)) (k : Pubkey) : Prop :=
  match with_seed with
  | None => sg k
  | Some (base, seed, new_owner) => create_with_seed base seed new_owner = Ok k /\ sg base
  end.

(** Space of zeros, for an account of the system program without data. *)
Definition allocated (space : Z) a a' : Prop :=
  payload a = [] /\ owner a = system_program_id /\ space <= MAX_PERMITTED_DATA_LENGTH /\
  a' = view_set_data a (replicate (Z.to_nat space) 0).

(** A new owner; keeping the owner needs no signature. *)
Definition assigned (ok : Prop) (new_owner : Pubkey) a a' : Prop :=
  a' = view_set_owner a new_owner /\ (owner a <> new_owner -> ok).

(** A new nonce state, written over the old one. *)
Definition nonce_rewritten (R : Versions -> Versions -> Prop) a a' : Prop :=
  same_but_data a a' /\
  exists v v' bytes, nonce_deserialize (payload a) = Some v /\ R v v' /\ nonce_serialize v' = Some bytes /\
    payload a' = bytes ++ drop (length bytes) (payload a).

Definition fresh_nonce (inv : Invoke) (k : Pubkey) : Versions :=
  versions_new (Initialized (MkNonceData k (from_blockhash (blockhash inv)) (blockhash_lamports_per_signature inv))).

Definition advanced (inv : Invoke) (sg : Pubkey -> Prop) a a' : Prop :=
  nonce_rewritten (fun v v' => exists d, versions_state v = Initialized d /\ sg (authority d) /\
    durable_nonce d <> from_blockhash (blockhash inv) /\ v' = fresh_nonce inv (authority d)) a a'.

Definition initialized (inv : Invoke) (rent : Rent) (k : Pubkey) a a' : Prop :=
  minimum_balance rent (data_len a) <= lamports a /\
  nonce_rewritten (fun v v' => versions_state v = Uninitialized /\ v' = fresh_nonce inv k) a a'.

Definition reauthorized (sg : Pubkey -> Prop) (k : Pubkey) a a' : Prop :=
  nonce_rewritten (fun v v' => exists S : gset Pubkey, (forall k, k ∈ S -> sg k) /\
    versions_authorize v S k = Ok v') a a'.

Definition upgraded a a' : Prop :=
  owner a = system_program_id /\ nonce_rewritten (fun v v' => versions_upgrade v = Some v') a a'.

(** Lamports taken from a nonce account: all of them, which ends its use as a nonce
    account, or as many as leave it exempt from rent. *)
Definition nonce_paid (inv : Invoke) (sg : Pubkey -> Prop) (rent : Rent) (amount : Z) a a' : Prop :=
  exists v, nonce_deserialize (payload a) = Some v /\ amount <= lamports a /\
    match versions_state v with
    | Uninitialized => sg (key a) /\ a' = view_set_lamports a (lamports a - amount)
    | Initialized d =>
        sg (authority d) /\
        if amount =? lamports a then
          durable_nonce d <> from_blockhash (blockhash inv) /\
          exists a1, nonce_rewritten (fun _ v' => v' = versions_new Uninitialized) a a1 /\
            a' = view_set_lamports a1 0
        else
          amount + minimum_balance rent (data_len a) <= lamports a /\
          a' = view_set_lamports a (lamports a - amount)
    end.

Section Ops.
Context (L D : Z) (b : Borrowed) (sg : Pubkey -> Prop) (S : gset Pubkey) (HS : forall k, k ∈ S -> sg k).

(** The outcome of an operation, when it succeeds. *)
Definition gives (P : Account -> Prop) (a' : Account) (r : result InstructionError unit) : Prop := r = Ok tt -> P a'.

Lemma runs_err c a (m : M unit) e P : has L D b c a -> m c = Some (c, Err e) -> runs L D b m c (gives P).
Proof. intros Ha Hm. by apply (runs_here _ _ _ _ _ a (Err e)). Qed.

Lemma is_signer_authorized k with_seed addr : create k with_seed = Ok addr -> is_signer addr S = true ->
  authorized sg with_seed k.
Proof.
  unfold create, is_signer, authorized. cbv [mbind result_bind].
  destruct with_seed as [[[bs seed] new_owner]|].
  - destruct (create_with_seed bs seed new_owner) as [k'|e]; [|done]. destruct (Z.eqb_spec k k') as [<-|]; [|done].
    intros [= <-]. simpl. intros H%bool_decide_eq_true_1. split; [done|]. by apply HS.
  - intros [= <-]. simpl. intros H%bool_decide_eq_true_1. by apply HS.
Qed.

Lemma runs_allocate c a k ws addr space : has L D b c a -> create k ws = Ok addr ->
  runs L D b (allocate b addr space S) c (gives (fun a' => authorized sg ws k /\ allocated space a a')).
Proof.
  intros Ha Hc. unfold allocate. destruct (is_signer addr S) eqn:Hs; simpl; [|by apply (runs_err _ a _ MissingRequiredSignature)].
  apply (runs_account _ _ _ _ _ a); [done|]. case_bool_decide as Hp; simpl; [|by eapply (runs_err _ a)].
  destruct (Z.eqb_spec (owner a) system_program_id) as [Ho|]; simpl; [|by eapply (runs_err _ a)].
  destruct (Z.ltb_spec MAX_PERMITTED_DATA_LENGTH space) as [|Hle]; [by eapply (runs_err _ a)|].
  eapply runs_mono; [by apply runs_set_data_length|]. intros a' r [_ Hr] Hok. split; [by eapply is_signer_authorized|].
  split_and!; [done..|]. rewrite (Hr Hok). unfold view_resize. rewrite Hp. by rewrite take_nil, Nat.sub_0_r.
Qed.

Lemma runs_assign c a k ws addr new_owner : has L D b c a -> create k ws = Ok addr ->
  runs L D b (assign b addr new_owner S) c (gives (assigned (authorized sg ws k) new_owner a)).
Proof.
  intros Ha Hc. unfold assign. apply (runs_account _ _ _ _ _ a); [done|].
  destruct (Z.eqb_spec (owner a) new_owner) as [Ho|Ho].
  { apply (runs_ret _ _ _ _ _ a); [done|]. intros _. split; [|done]. subst. by destruct a. }
  destruct (is_signer addr S) eqn:Hs; simpl; [|by eapply (runs_err _ a)].
  eapply runs_mono; [by apply runs_set_owner|]. intros a' [[]|e] Heq Hok; [|done].
  split; [done|]. intros _. by eapply is_signer_authorized.
Qed.

Lemma runs_allocate_and_assign c a k ws addr space new_owner : has L D b c a -> create k ws = Ok addr ->
  runs L D b (allocate_and_assign b addr space new_owner S) c (gives (fun a' =>
    authorized sg ws k /\ exists a1, allocated space a a1 /\ assigned True new_owner a1 a')).
Proof.
  intros Ha Hc. unfold allocate_and_assign. apply (runs_bind _ _ _ _ _ _ a); [done|].
  eapply runs_mono; [by eapply (runs_allocate c a k ws)|]. intros a1 [[]|e] Hal; [|done]. intros c1 _ H1.
  destruct (Hal eq_refl) as [Hk Ha1]. eapply runs_mono; [by eapply (runs_assign c1 a1 k ws)|].
  intros a' r Hr Hok. split; [done|]. exists a1. split; [done|]. by destruct (Hr Hok) as [? _].
Qed.

Lemma runs_create_at c a k ws addr space new_owner : has L D b c a -> create k ws = Ok addr ->
  runs L D b (create_at b addr space new_owner S) c (gives (fun a' =>
    lamports a = 0 /\ authorized sg ws k /\ exists a1, allocated space a a1 /\ assigned True new_owner a1 a')).
Proof.
  intros Ha Hc. unfold create_at. apply (runs_account _ _ _ _ _ a); [done|]. pose proof (has_lamports _ _ _ _ _ Ha) as Hl.
  destruct (Z.ltb_spec 0 (lamports a)); [by eapply (runs_err _ a)|].
  eapply runs_mono; [by eapply (runs_allocate_and_assign c a k ws)|]. intros a' r Hr Hok. split; [|by apply Hr].
  unfold in_word in Hl. lia.
Qed.

Lemma runs_transfer_from c a amount : has L D b c a -> is_u64 amount ->
  runs L D b (transfer_from b amount) c (gives (fun a' =>
    payload a = [] /\ amount <= lamports a /\ a' = view_set_lamports a (lamports a - amount))).
Proof.
  intros Ha Hx. unfold transfer_from. apply (runs_account _ _ _ _ _ a); [done|].
  case_bool_decide as Hp; simpl; [|by eapply (runs_err _ a)].
  destruct (Z.ltb_spec (lamports a) amount); [by eapply (runs_err _ a)|].
  eapply runs_mono; [by apply runs_sub_lamports|]. by intros a' [[]|e] Heq Hok; [destruct Heq|].
Qed.

(** ** Nonce accounts *)
Lemma run_get_state c a : has L D b c a -> get_state b c =
  Some (c, match nonce_deserialize (payload a) with Some v => Ok v | None => Err InvalidAccountData end).
Proof.
  intros [_ Ha]. unfold get_state. cbv [mbind M_bind]. rewrite (run_borrowed c b a Ha). by destruct (nonce_deserialize _).
Qed.

(** The beginning of every operation on a nonce account. *)
Lemma runs_nonce {A} c a (k : Versions -> M A) (Q : Account -> result InstructionError A -> Prop) : has L D b c a ->
  (forall e, Q a (Err e)) ->
  (forall v, nonce_deserialize (payload a) = Some v -> runs L D b (k v) c Q) ->
  runs L D b (if negb (is_writable b) then raise InvalidArgument else get_state b ≫= k) c Q.
Proof.
  intros Ha He Hk. destruct (is_writable b); simpl; [|by apply (runs_raise _ _ _ _ _ a)].
  eapply (runs_read _ _ _ _ _ _ a); [done|by apply run_get_state|].
  destruct (nonce_deserialize (payload a)) as [v|]; [by apply Hk|done].
Qed.

Lemma runs_set_nonce c a v v' (R : Versions -> Versions -> Prop) : has L D b c a ->
  nonce_deserialize (payload a) = Some v -> R v v' ->
  runs L D b (set_state b (nonce_serialize v')) c (gives (nonce_rewritten R a)).
Proof.
  intros Ha Hv HR. eapply runs_mono; [by apply runs_set_state|]. intros a' r [Hs Hr] Hok.
  destruct (Hr Hok) as (bytes & Hb & Hp). split; [done|]. by exists v, v', bytes.
Qed.

Lemma runs_advance c a inv : has L D b c a ->
  runs L D b (advance_nonce_account inv b S) c (gives (advanced inv sg a)).
Proof.
  intros Ha. unfold advance_nonce_account. apply (runs_nonce _ a); [done|done|]. intros v Hv.
  destruct (versions_state v) as [|d] eqn:Hst; [by eapply (runs_err _ a)|].
  case_bool_decide as Hin; simpl; [|by eapply (runs_err _ a)].
  destruct (Z.eqb_spec (durable_nonce d) (from_blockhash (blockhash inv))); [by eapply (runs_err _ a)|].
  apply (runs_set_nonce _ a v); [done..|]. exists d. split_and!; [done|by apply HS|done|done].
Qed.

Lemma runs_initialize_nonce c a inv k rent : has L D b c a ->
  runs L D b (initialize_nonce_account inv b k rent) c (gives (initialized inv rent k a)).
Proof.
  intros Ha. unfold initialize_nonce_account. apply (runs_nonce _ a); [done|done|]. intros v Hv.
  destruct (versions_state v) as [|d] eqn:Hst; [|by eapply (runs_err _ a)].
  apply (runs_account _ _ _ _ _ a); [done|].
  destruct (Z.ltb_spec (lamports a) (minimum_balance rent (data_len a))); [by eapply (runs_err _ a)|].
  eapply runs_mono; [by apply (runs_set_nonce _ a v (fresh_nonce inv k)
    (fun v v' => versions_state v = Uninitialized /\ v' = fresh_nonce inv k))|].
  intros a' r Hr Hok. split; [done|by apply Hr].
Qed.

Lemma runs_authorize_nonce c a k : has L D b c a ->
  runs L D b (authorize_nonce_account b k S) c (gives (reauthorized sg k a)).
Proof.
  intros Ha. unfold authorize_nonce_account. apply (runs_nonce _ a); [done|done|]. intros v Hv.
  destruct (versions_authorize v S k) as [v'|[|k']] eqn:Hau; [|by eapply (runs_err _ a)|by eapply (runs_err _ a)].
  apply (runs_set_nonce _ a v); [done..|]. by exists S.
Qed.

Lemma runs_upgrade c a : has L D b c a -> runs L D b (upgrade_nonce_account b) c (gives (upgraded a)).
Proof.
  intros Ha. unfold upgrade_nonce_account. apply (runs_account _ _ _ _ _ a); [done|].
  destruct (Z.eqb_spec (owner a) system_program_id) as [Ho|]; simpl; [|by eapply (runs_err _ a)].
  apply (runs_nonce _ a); [done|done|]. intros v Hv.
  destruct (versions_upgrade v) as [v'|] eqn:Hup; [|by eapply (runs_err _ a)].
  eapply runs_mono; [by apply (runs_set_nonce _ a v v' (fun v v' => versions_upgrade v = Some v'))|].
  intros a' r Hr Hok. split; [done|by apply Hr].
Qed.

(** The end of a withdrawal. *)
Lemma runs_pay c a1 k amount (Q : Account -> Prop) : has L D b c a1 -> is_u64 amount ->
  (amount <= lamports a1 -> sg k -> Q (view_set_lamports a1 (lamports a1 - amount))) ->
  runs L D b (if negb (bool_decide (k ∈ S)) then raise MissingRequiredSignature else checked_sub_lamports b amount) c (gives Q).
Proof.
  intros Ha Hx HQ. case_bool_decide as Hin; simpl; [|by eapply (runs_err _ a1)].
  eapply runs_mono; [by apply runs_sub_lamports|]. intros a' [[]|e] Heq Hok; [|done]. destruct Heq as [-> Hle].
  apply HQ; [done|by apply HS].
Qed.

Lemma runs_withdraw_nonce c a inv amount rent : has L D b c a -> is_u64 amount ->
  runs L D b (withdraw_nonce_from inv b amount rent S) c (gives (nonce_paid inv sg rent amount a)).
Proof.
  intros Ha Hx. unfold withdraw_nonce_from. apply (runs_nonce _ a); [done|done|]. intros v Hv.
  apply (runs_account _ _ _ _ _ a); [done|].
  destruct (versions_state v) as [|d] eqn:Hst.
  { destruct (Z.ltb_spec (lamports a) amount); [by apply (runs_read _ _ _ _ _ _ a (Err InsufficientFunds))|].
    apply (runs_read _ _ _ _ _ _ a (Ok (key a))); [done..|]. apply (runs_pay _ a); [done..|].
    intros _ Hk. exists v. by rewrite Hst. }
  destruct (Z.eqb_spec amount (lamports a)) as [Heq|Hne].
  - destruct (Z.eqb_spec (durable_nonce d) (from_blockhash (blockhash inv))) as [|Hd].
    { by apply (runs_read _ _ _ _ _ _ a (Err (from_system_error NonceBlockhashNotExpired))). }
    apply (runs_bind _ _ _ _ _ _ a); [done|]. apply (runs_bind _ _ _ _ _ _ a); [done|].
    eapply runs_mono; [by apply (runs_set_nonce _ a v (versions_new Uninitialized) (fun _ v' => v' = versions_new Uninitialized))|].
    intros a1 [[]|e] Hr; [|done]. specialize (Hr eq_refl). intros c1 _ H1. apply (runs_ret _ _ _ _ _ a1); [done|].
    intros c2 _ H2. apply (runs_pay _ a1); [done..|]. intros _ Hk. exists v. split_and!; [done|lia|]. rewrite Hst.
    split; [done|]. rewrite (proj2 (Z.eqb_eq _ _) Heq). split; [done|]. exists a1. split; [done|].
    destruct Hr as [(_ & _ & Hl & _) _]. f_equal. lia.
  - apply (runs_bind _ _ _ _ _ _ a); [done|]. apply (runs_bind _ _ _ _ _ _ a); [done|].
    apply (runs_ok_or _ _ _ _ _ _ _ a); [done|]. unfold checked_add.
    destruct (Z.leb_spec (amount + minimum_balance rent (data_len a)) U64_MAX); [|done].
    destruct (Z.ltb_spec (lamports a) (amount + minimum_balance rent (data_len a))); [by apply (runs_raise _ _ _ _ _ a)|].
    apply (runs_ret _ _ _ _ _ a); [done|]. intros c1 _ H1. apply (runs_ret _ _ _ _ _ a); [done|].
    intros c2 _ H2. apply (runs_pay _ a); [done..|]. intros Hle Hk. exists v. split_and!; [done|lia|]. rewrite Hst.
    split; [done|]. rewrite (proj2 (Z.eqb_neq _ _) Hne). split; [lia|done].
Qed.
End Ops.
End Outcome.
