(* ===== verification/SystemTheorems.v ===== *)
(** * The system program: the theorems

    The whole processor against its abstract account: it never panics, a success does
    exactly what the instruction says under the required signature, lamports are
    conserved, and a nonce is used once. *)

From S2P Require Import Prelude TransactionContext ContextSpec ContextTrace Builtin BuiltinRuns SystemProgram SystemOutcome.
Import Ctx Builtin System.

#[local] Arguments Zsum : simpl never.

Module SystemAccounts.
Section Theorems.
Context `{RL : RuntimeLaws} `{SI : !SystemInterface}.
Implicit Types (c : TransactionContext) (a : Account) (l : list Account).

(** ** What a success has done to the accounts *)
Definition changes_first c (f : InstructionFrame) c' (P : Account -> Account -> Prop) : Prop :=
  exists ia a a', instruction_accounts f !! 0%nat = Some ia /\ accs c !! index_in_transaction ia = Some a /\
    P a a' /\ accs c' = <[index_in_transaction ia := a']> (accs c).

(** Lamports that arrive at an account. *)
Definition receives (f : InstructionFrame) (j : nat) (amount : Z) l l' : Prop :=
  exists ja t, instruction_accounts f !! j = Some ja /\ l !! index_in_transaction ja = Some t /\
    l' = <[index_in_transaction ja := view_set_lamports t (lamports t + amount)]> l.

(** Lamports that leave an account without data for another one. *)
Definition sends (f : InstructionFrame) (i j : nat) (amount : Z) l l' : Prop :=
  exists ia a, instruction_accounts f !! i = Some ia /\ l !! index_in_transaction ia = Some a /\
    payload a = [] /\ amount <= lamports a /\
    receives f j amount (<[index_in_transaction ia := view_set_lamports a (lamports a - amount)]> l) l'.

Definition signer_at (f : InstructionFrame) (i : nat) : Prop :=
  exists ia, instruction_accounts f !! i = Some ia /\ ia_is_signer ia = true.

(** A new account: no lamports before, space, an owner, and then the lamports. *)
Definition created c f c' (ws : option (Pubkey * Bytes * Pubkey)) (amount space : Z) (new_owner : Pubkey) : Prop :=
  exists ja a a1 a2, instruction_accounts f !! 1%nat = Some ja /\ accs c !! index_in_transaction ja = Some a /\
    lamports a = 0 /\ authorized (signed c f) ws (key a) /\ allocated space a a1 /\ assigned True new_owner a1 a2 /\
    signer_at f 0 /\ sends f 0 1 amount (<[index_in_transaction ja := a2]> (accs c)) (accs c').

Definition outcome (inv : Invoke) c f c' (ix : SystemInstruction) : Prop :=
  let sg := signed c f in
  match ix with
  | CreateAccount amount space new_owner => created c f c' None amount space new_owner
  | CreateAccountWithSeed base seed amount space new_owner =>
      created c f c' (Some (base, seed, new_owner)) amount space new_owner
  | Assign new_owner =>
      changes_first c f c' (fun a a' => assigned (authorized sg None (key a)) new_owner a a')
  | AssignWithSeed base seed new_owner =>
      changes_first c f c' (fun a a' => assigned (authorized sg (Some (base, seed, new_owner)) (key a)) new_owner a a')
  | Allocate space => changes_first c f c' (fun a a' => authorized sg None (key a) /\ allocated space a a')
  | AllocateWithSeed base seed space new_owner =>
      changes_first c f c' (fun a a' => authorized sg (Some (base, seed, new_owner)) (key a) /\
        exists a1, allocated space a a1 /\ assigned True new_owner a1 a')
  | Transfer amount => signer_at f 0 /\ sends f 0 1 amount (accs c) (accs c')
  | TransferWithSeed amount from_seed from_owner =>
      exists base k, signed_at c f 1 base /\ create_with_seed base from_seed from_owner = Ok k /\ key_at c f 0 k /\
        sends f 0 2 amount (accs c) (accs c')
  | AdvanceNonceAccount => changes_first c f c' (advanced inv sg)
  | WithdrawNonceAccount amount =>
      exists rent ia a a1, sysvar_rent inv = Ok rent /\ instruction_accounts f !! 0%nat = Some ia /\
        accs c !! index_in_transaction ia = Some a /\ nonce_paid inv sg rent amount a a1 /\
        receives f 1 amount (<[index_in_transaction ia := a1]> (accs c)) (accs c')
  | InitializeNonceAccount k =>
      exists rent, sysvar_rent inv = Ok rent /\ changes_first c f c' (initialized inv rent k)
  | AuthorizeNonceAccount k => changes_first c f c' (reauthorized sg k)
  | UpgradeNonceAccount => changes_first c f c' upgraded
  end.

(** ** Running *)

(** [m] does not panic, keeps the books and the references, and a success leaves [P]. *)
Definition ends (L D : Z) c (m : M unit) (P : TransactionContext -> Prop) : Prop :=
  exists c' r, m c = Some (c', r) /\ books L D c' /\ counters c' = counters c /\ (r = Ok tt -> P c').

Section Ends.
Context (L D : Z) (inv : Invoke) (f : InstructionFrame).

Lemma ends_read {A} c (m : M A) (k : A -> M unit) r P : books L D c -> m c = Some (c, r) ->
  (forall x, r = Ok x -> ends L D c (k x) P) -> ends L D c (m ≫= k) P.
Proof.
  intros Hb Hm Hk. unfold ends. cbv [mbind M_bind]. rewrite Hm. destruct r as [x|e]; [by apply Hk|].
  by exists c, (Err e).
Qed.

Lemma ends_err c (m : M unit) e P : books L D c -> m c = Some (c, Err e) -> ends L D c m P.
Proof. intros Hb Hm. by exists c, (Err e). Qed.

Lemma ends_lift {A} c (r : result InstructionError A) (k : A -> M unit) P : books L D c ->
  (forall x, r = Ok x -> ends L D c (k x) P) -> ends L D c (lift r ≫= k) P.
Proof. intros Hb. by apply ends_read. Qed.

Lemma ends_mono c m (P Q : TransactionContext -> Prop) : ends L D c m P -> (forall c', P c' -> Q c') -> ends L D c m Q.
Proof. intros (c' & r & ? & ? & ? & HP) HQ. exists c', r. split_and!; [done..|]. intros Hok. by apply HQ, HP. Qed.

Lemma ends_bind c (m : M unit) (k : M unit) P Q : ends L D c m P ->
  (forall c1, books L D c1 -> counters c1 = counters c -> P c1 -> ends L D c1 k Q) -> ends L D c (m ≫= fun _ => k) Q.
Proof.
  intros (c1 & r & Hm & Hb & Hc & HP) Hk. unfold ends. cbv [mbind M_bind]. rewrite Hm.
  destruct r as [[]|e]; [|by exists c1, (Err e)].
  destruct (Hk c1 Hb Hc (HP eq_refl)) as (c' & r & ? & ? & ? & ?). exists c', r. split_and!; [done..|congruence|done].
Qed.

Lemma ends_first c (k : Borrowed -> M unit) P : books L D c ->
  (forall ia a b, b = MkBorrowed ia (program_account_index_in_tx f) ->
    instruction_accounts f !! 0%nat = Some ia -> accs c !! b_index b = Some a ->
    has L D b (set_counter (b_index b) (-1) c) a ->
    runs L D b (k b) (set_counter (b_index b) (-1) c) (gives (P a))) ->
  ends L D c (with_borrowed f 0 k) (fun c' => changes_first c f c' P).
Proof. intros Hb Hk. apply (with_borrowed_run L D c f 0 k P Hb). intros ia a b Hia Ha Hh. by apply (Hk ia a b). Qed.

Lemma ends_receives c j amount : books L D c -> is_u64 amount ->
  ends L D c (with_borrowed f j (fun to => checked_add_lamports to amount)) (fun c' =>
    receives f j amount (accs c) (accs c')).
Proof.
  intros Hb Hx. destruct (with_borrowed_run L D c f j (fun to => checked_add_lamports to amount)
    (fun t t' => t' = view_set_lamports t (lamports t + amount)) Hb) as (c' & r & Hrun & Hb' & Hc & HP).
  { intros ja t b Hja Ht Hh. eapply runs_mono; [by apply runs_add_lamports|]. by intros a' [[]|e] Heq Hok. }
  exists c', r. split_and!; [done..|]. intros (ja & t & t' & Hja & Ht & -> & Heq)%HP. by exists ja, t.
Qed.

Lemma ends_sends c i j amount : books L D c -> is_u64 amount ->
  ends L D c (transfer_verified f i j amount) (fun c' => sends f i j amount (accs c) (accs c')).
Proof.
  intros Hb Hx. unfold transfer_verified. eapply ends_bind.
  { apply (with_borrowed_run L D c f i _ (fun a a' =>
      payload a = [] /\ amount <= lamports a /\ a' = view_set_lamports a (lamports a - amount)) Hb).
    intros ia a b Hia Ha Hh. by apply runs_transfer_from. }
  intros c1 Hb1 _ (ia & a & a' & Hia & Ha & (Hp & Hle & ->) & Heq). eapply ends_mono; [by apply ends_receives|].
  intros c' Hr. exists ia, a. split_and!; [done..|]. by rewrite Heq in Hr.
Qed.

Lemma run_signer_at i b : is_instruction_account_signer f i = Ok b -> b = true -> signer_at f i.
Proof.
  unfold is_instruction_account_signer, get_instruction_account, signer_at. cbv [mbind result_bind].
  destruct (instruction_accounts f !! i) as [ia|]; [|done]. intros [= <-] ?. by exists ia.
Qed.

Lemma ends_must_sign c i P : books L D c -> ends L D c (must_sign inv f i) P.
Proof.
  intros Hb. unfold must_sign. destruct (is_logging inv).
  - destruct (run_key_at c f i) as ([k|e] & Hr & _); [eapply (ends_err _ _ MissingRequiredSignature)|eapply (ends_err _ _ e)];
      try done; cbv [mbind M_bind]; by rewrite Hr.
  - by eapply (ends_err _ _ MissingRequiredSignature).
Qed.

Lemma ends_transfer c i j amount : books L D c -> is_u64 amount ->
  ends L D c (transfer inv f i j amount) (fun c' => signer_at f i /\ sends f i j amount (accs c) (accs c')).
Proof.
  intros Hb Hx. unfold transfer. apply ends_lift; [done|]. intros signer Hs.
  destruct signer; simpl; [|by apply ends_must_sign].
  eapply ends_mono; [by apply ends_sends|]. intros c' H. split; [by eapply run_signer_at|done].
Qed.

Lemma ends_transfer_with_seed c i ib seed from_owner j amount : books L D c -> is_u64 amount ->
  ends L D c (transfer_with_seed inv f i ib seed from_owner j amount) (fun c' =>
    exists bs k, signed_at c f ib bs /\ create_with_seed bs seed from_owner = Ok k /\ key_at c f i k /\
      sends f i j amount (accs c) (accs c')).
Proof.
  intros Hb Hx. unfold transfer_with_seed. apply ends_lift; [done|]. intros signer Hs.
  destruct signer; simpl; [|by apply ends_must_sign].
  destruct (run_key_at c f ib) as (r & Hr & Hk). apply (ends_read _ _ _ r); [done..|]. intros bs ->.
  destruct (create_with_seed bs seed from_owner) as [k|e] eqn:Hseed; [|by eapply ends_err].
  destruct (run_key_at c f i) as (r2 & Hr2 & Hk2). apply (ends_read _ _ _ r2); [done..|]. intros k2 ->.
  destruct (Z.eqb_spec k2 k) as [->|]; simpl; [|by eapply ends_err].
  eapply ends_mono; [by apply ends_sends|]. intros c' H. exists bs, k. split_and!; [|done|by apply Hk2|done].
  destruct (run_signer_at _ _ Hs eq_refl) as (ia & Hia & Hsig), (Hk bs eq_refl) as (ia' & a & Hia' & Ha & Hka).
  exists ia, a. rewrite Hia in Hia'. by injection Hia' as <-.
Qed.

Lemma key_of_first c i k ia a : key_at c f i k -> instruction_accounts f !! i = Some ia ->
  accs c !! index_in_transaction ia = Some a -> key a = k.
Proof. intros (ia' & a' & Hia' & Ha' & <-) Hia Ha. congruence. Qed.

(** An instruction on the first account, with its address. *)
Lemma ends_on_account c ws op (P : Account -> Account -> Prop) : books L D c ->
  (forall b c1 a addr, has L D b c1 a -> create (key a) ws = Ok addr -> runs L D b (op b addr) c1 (gives (P a))) ->
  ends L D c (on_account f ws op) (fun c' => changes_first c f c' P).
Proof.
  intros Hb Hop. unfold on_account. apply ends_lift; [done|]. intros _ _. apply ends_first; [done|].
  intros ia a b -> Hia Ha Hh.
  destruct (run_key_at (set_counter (index_in_transaction ia) (-1) c) f 0) as (r & Hr & Hk).
  apply (runs_read _ _ _ _ _ _ a r); [done..|]. destruct r as [k|e]; [|done].
  apply (runs_lift _ _ _ _ _ _ a); [done|]. destruct (create k ws) as [addr|e] eqn:Hc; [|done].
  apply Hop; [done|]. by rewrite (key_of_first _ 0 k ia a (Hk k eq_refl) Hia Ha).
Qed.

Lemma ends_creating c ws amount space new_owner (S : gset Pubkey) : books L D c -> is_u64 amount ->
  (forall k, k ∈ S -> signed c f k) ->
  ends L D c (creating inv f ws amount space new_owner S) (fun c' => created c f c' ws amount space new_owner).
Proof.
  intros Hb Hx HS. unfold creating. apply ends_lift; [done|]. intros _ _.
  destruct (run_key_at c f 1) as (r & Hr & Hk). apply (ends_read _ _ _ r); [done..|]. intros k ->.
  apply ends_lift; [done|]. intros addr Hc. unfold create_account. eapply ends_bind.
  { apply (with_borrowed_run L D c f 1 _ (fun a a' => lamports a = 0 /\ authorized (signed c f) ws (key a) /\
      exists a1, allocated space a a1 /\ assigned True new_owner a1 a') Hb).
    intros ja a b Hja Ha Hh. apply (runs_create_at L D b (signed c f) S HS _ a (key a) ws addr space new_owner); [done|].
    by rewrite (key_of_first _ 1 k ja a (Hk k eq_refl) Hja Ha). }
  intros c1 Hb1 _ (ja & a & a2 & Hja & Ha & (Hl & Hau & a1 & Hal & Has) & Heq).
  eapply ends_mono; [by apply ends_transfer|]. intros c' [Hs Hsend]. exists ja, a, a1, a2. rewrite Heq in Hsend. done.
Qed.

Lemma runs_blockhashes b c i a (m : M unit) Q : has L D b c a ->
  runs L D b m c (gives Q) -> runs L D b (with_blockhashes inv f i m) c (gives Q).
Proof.
  intros Ha Hm. unfold with_blockhashes.
  destruct (run_sysvar recent_blockhashes_id (sysvar_recent_blockhashes inv) c f i) as (r & Hr & _).
  apply (runs_read _ _ _ _ _ _ a r); [done..|]. destruct r as [l|e]; [|done].
  case_bool_decide; [by apply (runs_raise _ _ _ _ _ a)|done].
Qed.

Lemma ends_withdraw_nonce c amount rent (S : gset Pubkey) : books L D c -> is_u64 amount ->
  (forall k, k ∈ S -> signed c f k) ->
  ends L D c (withdraw_nonce_account inv f 0 amount 1 rent S) (fun c' =>
    exists ia a a1, instruction_accounts f !! 0%nat = Some ia /\ accs c !! index_in_transaction ia = Some a /\
      nonce_paid inv (signed c f) rent amount a a1 /\
      receives f 1 amount (<[index_in_transaction ia := a1]> (accs c)) (accs c')).
Proof.
  intros Hb Hx HS. unfold withdraw_nonce_account. eapply ends_bind.
  { apply (with_borrowed_run L D c f 0 _ (nonce_paid inv (signed c f) rent amount) Hb).
    intros ia a b Hia Ha Hh. by apply runs_withdraw_nonce. }
  intros c1 Hb1 _ (ia & a & a1 & Hia & Ha & Hp & Heq). eapply ends_mono; [by apply ends_receives|].
  intros c' Hr. exists ia, a, a1. rewrite Heq in Hr. done.
Qed.

(** The amounts are machine words. *)
Definition ix_ok (ix : SystemInstruction) : Prop :=
  match ix with
  | CreateAccount amount _ _ | CreateAccountWithSeed _ _ amount _ _ | Transfer amount
  | TransferWithSeed amount _ _ | WithdrawNonceAccount amount => is_u64 amount
  | _ => True
  end.

Lemma ends_process c ix (S : gset Pubkey) : books L D c -> ix_ok ix -> (forall k, k ∈ S -> signed c f k) ->
  ends L D c (process inv f ix S) (fun c' => outcome inv c f c' ix).
Proof.
  intros Hb Hix HS. destruct ix; cbn [process ix_ok] in *.
  1, 2: by apply ends_creating.
  - apply ends_on_account; [done|]. intros b c1 a addr Ha Hc. by apply (runs_assign L D b (signed c f) S HS c1 a (key a) None).
  - apply ends_lift; [done|]. intros _ _. by apply ends_transfer.
  - apply ends_lift; [done|]. intros _ _. by apply ends_transfer_with_seed.
  - apply ends_lift; [done|]. intros _ _. apply ends_first; [done|]. intros ia a b _ _ _ Ha.
    apply (runs_blockhashes _ _ _ a); [done|]. by apply runs_advance.
  - apply ends_lift; [done|]. intros _ _.
    destruct (run_sysvar recent_blockhashes_id (sysvar_recent_blockhashes inv) c f 2) as (r & Hr & _).
    apply (ends_read _ _ _ r); [done..|]. intros _ _.
    destruct (run_sysvar rent_id (sysvar_rent inv) c f 3) as (r3 & Hr3 & Hrent).
    apply (ends_read _ _ _ r3); [done..|]. intros rent ->. eapply ends_mono; [by apply ends_withdraw_nonce|].
    intros c' (ia & a & a1 & H). exists rent, ia, a, a1. split; [by apply Hrent|done].
  - apply ends_lift; [done|]. intros _ _.
    apply (ends_mono _ _ (fun c' => changes_first c f c' (fun a a' => exists rent, sysvar_rent inv = Ok rent /\
      initialized inv rent authorized a a'))); cycle 1.
    { intros c' (ia & a & a' & Hia & Ha & (rent & Hrent & Hi) & Heq). exists rent. split; [done|]. by exists ia, a, a'. }
    apply ends_first; [done|]. intros ia a b _ _ _ Ha. apply (runs_blockhashes _ _ _ a); [done|].
    destruct (run_sysvar rent_id (sysvar_rent inv) (set_counter (b_index b) (-1) c) f 2) as (r & Hr & Hrent).
    apply (runs_read _ _ _ _ _ _ a r); [done..|]. destruct r as [rent|e]; [|done].
    eapply runs_mono; [by apply runs_initialize_nonce|]. intros a' r Hg Hok. exists rent. split; [by apply Hrent|by apply Hg].
  - apply ends_lift; [done|]. intros _ _. apply ends_first; [done|]. intros ia a b _ _ _ Ha. by apply runs_authorize_nonce.
  - apply ends_lift; [done|]. intros _ _. apply ends_first; [done|]. intros ia a b _ _ _ Ha. by apply runs_upgrade.
  - apply ends_on_account; [done|]. intros b c1 a addr Ha Hc. by apply (runs_allocate L D b (signed c f) S HS c1 a (key a) None).
  - apply ends_on_account; [done|]. intros b c1 a addr Ha Hc. by apply (runs_allocate_and_assign L D b (signed c f) S HS c1 a (key a) (Some (_, _, _))).
  - apply ends_on_account; [done|]. intros b c1 a addr Ha Hc. by apply (runs_assign L D b (signed c f) S HS c1 a (key a) (Some (_, _, _))).
Qed.
End Ends.

(** What the environment gives the program. *)
Record environment_ok (L D : Z) c (f : InstructionFrame) : Prop := {
  env_books : books L D c;
  env_current : current c f;
  env_words : forall ix, limited_deserialize (instruction_data f) = Ok ix -> ix_ok ix
}.

Lemma system_process_spec L D inv c f : environment_ok L D c f ->
  ends L D c (process_instruction inv) (fun c' => exists ix, limited_deserialize (instruction_data f) = Ok ix /\
    outcome inv c f c' ix).
Proof.
  intros [Hb [k Hcur] Hw]. unfold process_instruction. eapply ends_read; [done|exact Hcur|]. intros x [= <-]. cbn [snd].
  apply ends_lift; [done|]. intros ix Hix. destruct (run_signers c f) as (r & Hr & HS).
  apply (ends_read _ _ _ _ _ r); [done..|]. intros S ->.
  eapply ends_mono; [apply ends_process; [done|by apply Hw|by apply HS]|]. intros c' Ho. by exists ix.
Qed.

(** ** Lamports *)
Lemma receives_total f j amount l l' : receives f j amount l l' -> Zsum lamports l' = Zsum lamports l + amount.
Proof. intros (ja & t & _ & Ht & ->). rewrite (Zsum_insert _ _ _ t) by done. simpl. lia. Qed.

Lemma sends_total f i j amount l l' : sends f i j amount l l' -> Zsum lamports l' = Zsum lamports l.
Proof.
  intros (ia & a & _ & Ha & _ & _ & Hr). rewrite (receives_total _ _ _ _ _ Hr), (Zsum_insert _ _ _ a) by done. simpl. lia.
Qed.

Lemma changes_first_total c f c' P : (forall a a', P a a' -> lamports a' = lamports a) -> changes_first c f c' P ->
  total_lamports c' = total_lamports c.
Proof.
  intros HP (ia & a & a' & _ & Ha & Hp & Heq). unfold total_lamports. rewrite Heq, (Zsum_insert _ _ _ a), (HP _ _ Hp) by done. lia.
Qed.

Lemma nonce_paid_lamports inv sg rent amount a a' : nonce_paid inv sg rent amount a a' -> lamports a' = lamports a - amount.
Proof.
  intros (v & _ & _ & Hcase). destruct (versions_state v) as [|d]; [by destruct Hcase as [_ ->]|].
  destruct Hcase as [_ Hcase]. destruct (Z.eqb_spec amount (lamports a)); [|by destruct Hcase as [_ ->]].
  destruct Hcase as (_ & a1 & _ & ->). simpl. lia.
Qed.

Lemma outcome_total inv c f c' ix : outcome inv c f c' ix -> total_lamports c' = total_lamports c.
Proof.
  assert (forall R a a', nonce_rewritten R a a' -> lamports a' = lamports a) as Hn by (by intros R a a' [(_ & _ & ? & _) _]).
  assert (forall ok o a a', assigned ok o a a' -> lamports a' = lamports a) as Ha by (by intros ok o a a' [-> _]).
  assert (forall n a a', allocated n a a' -> lamports a' = lamports a) as Hal by (by intros n a a' (_ & _ & _ & ->)).
  assert (forall ws amount space o, created c f c' ws amount space o -> total_lamports c' = total_lamports c) as Hc.
  { intros ws amount space o (ja & a & a1 & a2 & _ & Hja & _ & _ & H1%Hal & H2%Ha & _ & Hs%sends_total).
    unfold total_lamports. rewrite Hs, (Zsum_insert _ _ _ a) by done. lia. }
  destruct ix; cbn [outcome].
  1, 2: apply Hc.
  - apply changes_first_total. intros a a'. apply Ha.
  - intros [_ Hs]. by apply sends_total in Hs.
  - intros (? & ? & _ & _ & _ & Hs). by apply sends_total in Hs.
  - apply changes_first_total. intros a a'. apply Hn.
  - intros (rent & ia & a & a1 & _ & _ & Hia & Hp%nonce_paid_lamports & Hr%receives_total).
    unfold total_lamports. rewrite Hr, (Zsum_insert _ _ _ a) by done. lia.
  - intros (rent & _ & H). revert H. apply changes_first_total. intros a a' [_ H]. revert H. apply Hn.
  - apply changes_first_total. intros a a'. apply Hn.
  - apply changes_first_total. intros a a' [_ H]. revert H. apply Hn.
  - apply changes_first_total. intros a a' [_ H]. revert H. apply Hal.
  - apply changes_first_total. intros a a' (_ & a1 & H1%Hal & H2%Ha). congruence.
  - apply changes_first_total. intros a a'. apply Ha.
Qed.

(** C19: The system program does what its instructions say and nothing else. The processor
    never panics, keeps the books of the transaction and gives every borrow back; when
    it succeeds, the accounts are exactly those the instruction leaves: space of zeros, a
    new owner, lamports moved, a nonce state written, each under the signature it needs.
    The lamports of all accounts add up to what they were. *)
Theorem system_program_refines L D inv c f : environment_ok L D c f ->
  exists c' r, process_instruction inv c = Some (c', r) /\ books L D c' /\ counters c' = counters c /\
    (r = Ok tt -> total_lamports c' = total_lamports c /\
      exists ix, limited_deserialize (instruction_data f) = Ok ix /\ outcome inv c f c' ix).
Proof.
  intros Henv. destruct (system_process_spec L D inv c f Henv) as (c' & r & Hrun & Hb & Hc & Hok).
  exists c', r. split_and!; [done..|]. intros (ix & Hix & Ho)%Hok. split; [by eapply outcome_total|by exists ix].
Qed.

(** ** Authority *)

(** How the crate of nonce accounts documents its states. *)
Class SystemLaws : Prop := {
  state_new s : versions_state (versions_new s) = s;
  nonce_roundtrip v bytes rest : nonce_serialize v = Some bytes -> nonce_deserialize (bytes ++ rest) = Some v;
  authorize_law v (S : gset Pubkey) k v' : versions_authorize v S k = Ok v' ->
    exists d, versions_state v = Initialized d /\ authority d ∈ S /\
      versions_state v' = Initialized (MkNonceData k (durable_nonce d) (lamports_per_signature d));
  upgrade_law v v' : versions_upgrade v = Some v' ->
    exists d n, versions_state v = Initialized d /\
      versions_state v' = Initialized (MkNonceData (authority d) n (lamports_per_signature d))
}.

Context `{SL : SystemLaws}.

(** The nonce an account holds. *)
Definition nonce_of a : option NonceData :=
  v ← nonce_deserialize (payload a); match versions_state v with Initialized d => Some d | Uninitialized => None end.

Definition uninitialized a : Prop :=
  exists v, nonce_deserialize (payload a) = Some v /\ versions_state v = Uninitialized.

(** The keys that have power over an account of the system program. *)
Definition controls a (k : Pubkey) : Prop :=
  k = key a \/ (exists seed new_owner, create_with_seed k seed new_owner = Ok (key a)) \/
  (exists d, nonce_of a = Some d /\ authority d = k).

Definition gains a a' : Prop := exists x, lamports a <= x /\ a' = view_set_lamports a x.

(** What happens without a signature: a first nonce in an account that has none, and a
    nonce brought to the current version, whose authority stays. *)
Definition unsigned_change (ix : SystemInstruction) a a' : Prop :=
  match ix with
  | InitializeNonceAccount _ => same_but_data a a' /\ uninitialized a
  | UpgradeNonceAccount =>
      same_but_data a a' /\ owner a = system_program_id /\
      exists d d', nonce_of a = Some d /\ nonce_of a' = Some d' /\ authority d' = authority d
  | _ => False
  end.

Definition permitted c f ix a a' : Prop :=
  gains a a' \/ (exists k, signed c f k /\ controls a k) \/ unsigned_change ix a a'.

Lemma gains_refl a : gains a a.
Proof. exists (lamports a). split; [done|]. by destruct a. Qed.

Lemma authorized_controls c f ws a : authorized (signed c f) ws (key a) -> exists k, signed c f k /\ controls a k.
Proof.
  destruct ws as [[[bs seed] o]|]; simpl; [|intros H; exists (key a); split; [done|by left]].
  intros [Hk Hs]. exists bs. split; [done|]. right. left. by exists seed, o.
Qed.

Lemma rewritten_states R a a' : nonce_rewritten R a a' ->
  exists v v', nonce_deserialize (payload a) = Some v /\ R v v' /\ nonce_deserialize (payload a') = Some v'.
Proof.
  intros (_ & v & v' & bytes & Hv & HR & Hb & ->). exists v, v'. split_and!; [done..|]. by apply nonce_roundtrip.
Qed.

Lemma nonce_of_state a v d : nonce_deserialize (payload a) = Some v -> versions_state v = Initialized d -> nonce_of a = Some d.
Proof. intros Hv Hs. unfold nonce_of. rewrite Hv. simpl. by rewrite Hs. Qed.

(** One account changed. *)
Lemma insert_permitted c f ix i0 a0 a0' l : accs c !! i0 = Some a0 -> permitted c f ix a0 a0' ->
  l = <[i0 := a0']> (accs c) ->
  forall i a, accs c !! i = Some a -> exists a', l !! i = Some a' /\ permitted c f ix a a'.
Proof.
  intros H0 Hp -> i a Ha. destruct (decide (i0 = i)) as [<-|Hne].
  - exists a0'. rewrite list_lookup_insert_eq by (by eapply lookup_lt_Some). split; [done|]. congruence.
  - exists a. rewrite list_lookup_insert_ne by done. split; [done|]. left. apply gains_refl.
Qed.

(** Lamports arrive last. *)
Lemma receives_permitted c f ix j amount l l' : 0 <= amount -> receives f j amount l l' ->
  (forall i a, accs c !! i = Some a -> exists a', l !! i = Some a' /\ permitted c f ix a a') ->
  (forall a t, ~ unsigned_change ix a t) ->
  forall i a, accs c !! i = Some a -> exists a', l' !! i = Some a' /\ permitted c f ix a a'.
Proof.
  intros Hx (ja & t & _ & Ht & ->) Hl Hno i a Ha. destruct (Hl i a Ha) as (a' & Ha' & Hp).
  destruct (decide (index_in_transaction ja = i)) as [<-|Hne].
  - eexists. rewrite list_lookup_insert_eq by (by eapply lookup_lt_Some). split; [done|].
    assert (t = a') as -> by congruence. destruct Hp as [(x & Hle & ->)|[Hk|Hu]]; [|by right; left|].
    + left. exists (x + amount). split; [lia|done].
    + by destruct (Hno a a').
  - exists a'. by rewrite list_lookup_insert_ne.
Qed.

Lemma sends_permitted c f ix i j amount l l' : 0 <= amount -> sends f i j amount l l' ->
  (forall ia a0, instruction_accounts f !! i = Some ia -> accs c !! index_in_transaction ia = Some a0 ->
    exists k, signed c f k /\ controls a0 k) ->
  (forall n a, accs c !! n = Some a -> exists a', l !! n = Some a' /\ permitted c f ix a a') ->
  (forall a t, ~ unsigned_change ix a t) ->
  forall n a, accs c !! n = Some a -> exists a', l' !! n = Some a' /\ permitted c f ix a a'.
Proof.
  intros Hx (ia & a0 & Hia & Ha0 & _ & _ & Hr) Hfrom Hl Hno. eapply receives_permitted; [done|exact Hr| |done].
  intros n a Ha. destruct (decide (index_in_transaction ia = n)) as [<-|Hne].
  - eexists. rewrite list_lookup_insert_eq by (by eapply lookup_lt_Some). split; [done|]. right. left. by eapply Hfrom.
  - rewrite list_lookup_insert_ne by done. by apply Hl.
Qed.

Lemma same_permitted c f ix n a : accs c !! n = Some a -> exists a', accs c !! n = Some a' /\ permitted c f ix a a'.
Proof. intros Ha. exists a. split; [done|]. left. apply gains_refl. Qed.

Lemma signer_controls c f i ia a : signer_at f i -> instruction_accounts f !! i = Some ia ->
  accs c !! index_in_transaction ia = Some a -> exists k, signed c f k /\ controls a k.
Proof.
  intros (ia' & Hia' & Hs) Hia Ha. exists (key a). split; [|by left]. exists i, ia, a. rewrite Hia in Hia'.
  by injection Hia' as <-.
Qed.

Lemma first_permitted c f c' ix P : (forall a a', P a a' -> permitted c f ix a a') -> changes_first c f c' P ->
  forall n a, accs c !! n = Some a -> exists a', accs c' !! n = Some a' /\ permitted c f ix a a'.
Proof. intros HP (ia & a & a' & _ & Ha & Hp & Heq). eapply insert_permitted; [exact Ha|by apply HP|done]. Qed.

Lemma assigned_permitted c f ix ws new_owner a a' :
  assigned (authorized (signed c f) ws (key a)) new_owner a a' -> permitted c f ix a a'.
Proof.
  intros [-> Hok]. destruct (decide (owner a = new_owner)) as [<-|Hne].
  - left. replace (view_set_owner a (owner a)) with a by (by destruct a). apply gains_refl.
  - right. left. by eapply authorized_controls, Hok.
Qed.

Lemma created_permitted c f c' ix ws amount space new_owner : 0 <= amount -> created c f c' ws amount space new_owner ->
  (forall a t, ~ unsigned_change ix a t) ->
  forall n a, accs c !! n = Some a -> exists a', accs c' !! n = Some a' /\ permitted c f ix a a'.
Proof.
  intros Hx (ja & a & a1 & a2 & Hja & Ha & _ & Hau & _ & _ & Hs & Hsend) Hno.
  eapply sends_permitted; [done|exact Hsend| | |done].
  - intros ia a0 Hia Ha0. by eapply signer_controls.
  - eapply insert_permitted; [exact Ha| |done]. right. left. by eapply authorized_controls.
Qed.

Lemma paid_controls c f inv rent amount a a' : nonce_paid inv (signed c f) rent amount a a' ->
  exists k, signed c f k /\ controls a k.
Proof.
  intros (v & Hv & _ & Hcase). destruct (versions_state v) as [|d] eqn:Hst.
  - exists (key a). split; [by destruct Hcase|by left].
  - exists (authority d). split; [by destruct Hcase|]. right. right. exists d. split; [by eapply nonce_of_state|done].
Qed.

Lemma outcome_permitted inv c f c' ix : ix_ok ix -> outcome inv c f c' ix ->
  forall n a, accs c !! n = Some a -> exists a', accs c' !! n = Some a' /\ permitted c f ix a a'.
Proof.
  intros Hix Ho. destruct ix; cbn [ix_ok outcome] in *; unfold in_word in Hix.
  1, 2: eapply created_permitted; [|exact Ho|by intros ?? []]; lia.
  - revert Ho. apply first_permitted. intros a a'. apply (assigned_permitted _ _ _ None).
  - destruct Ho as [Hs Hsend]. eapply sends_permitted; [|exact Hsend| | |by intros ?? []]; [lia| |apply same_permitted].
    intros ia a0 Hia Ha0. by eapply signer_controls.
  - destruct Ho as (bs & k & Hs & Hseed & Hk & Hsend). eapply sends_permitted; [|exact Hsend| | |by intros ?? []]; [lia| |apply same_permitted].
    intros ia a0 Hia Ha0. exists bs. split; [by exists 1%nat|]. right. left. eexists _, _.
    by rewrite (key_of_first _ c 0 k ia a0 Hk Hia Ha0).
  - revert Ho. apply first_permitted. intros a a' (v & v' & Hv & (d & Hd & Hs & _) & _)%rewritten_states.
    right. left. exists (authority d). split; [done|]. right. right. exists d. split; [by eapply nonce_of_state|done].
  - destruct Ho as (rent & ia & a & a1 & _ & _ & Ha & Hp & Hr). eapply receives_permitted; [|exact Hr| |by intros ?? []]; [lia|].
    eapply insert_permitted; [exact Ha| |done]. right. left. by eapply paid_controls.
  - destruct Ho as (rent & _ & Ho). revert Ho. apply first_permitted. intros a a' [_ Hn].
    right. right. split; [apply Hn|]. apply rewritten_states in Hn as (v & v' & Hv & (Hst & _) & _). by exists v.
  - revert Ho. apply first_permitted. intros a a' (v & v' & Hv & (S & HS & Hau) & _)%rewritten_states.
    apply authorize_law in Hau as (d & Hd & Hin & _). right. left. exists (authority d). split; [by apply HS|].
    right. right. exists d. split; [by eapply nonce_of_state|done].
  - revert Ho. apply first_permitted. intros a a' [Ho Hn]. right. right. split; [apply Hn|]. split; [done|].
    apply rewritten_states in Hn as (v & v' & Hv & Hup & Hv'). apply upgrade_law in Hup as (d & x & Hd & Hd').
    eexists d, _. split_and!; [by eapply nonce_of_state|by eapply nonce_of_state|done].
  - revert Ho. apply first_permitted. intros a a' [Hau _]. right. left. by eapply (authorized_controls _ _ None).
  - revert Ho. apply first_permitted. intros a a' [Hau _]. right. left. by eapply authorized_controls.
  - revert Ho. apply first_permitted. intros a a'. apply assigned_permitted.
Qed.

(** C27: The system program touches no account without its authority. When an instruction
    succeeds, every account has only gained lamports, or a key with power over it has
    signed: its own key, a base key its key is derived from, or the authority of the
    nonce it holds. The exceptions are a first nonce written into an account that has
    none and a nonce upgraded to the current version, which keeps its authority. *)
Theorem system_program_authority L D inv c f c' : environment_ok L D c f ->
  process_instruction inv c = Some (c', Ok tt) ->
  exists ix, limited_deserialize (instruction_data f) = Ok ix /\
    forall n a, accs c !! n = Some a -> exists a', accs c' !! n = Some a' /\
      (gains a a' \/ (exists k, signed c f k /\ controls a k) \/ unsigned_change ix a a').
Proof.
  intros Henv Hrun. destruct (system_process_spec L D inv c f Henv) as (c2 & r & Hrun2 & _ & _ & Hok).
  rewrite Hrun in Hrun2. injection Hrun2 as <- <-. destruct (Hok eq_refl) as (ix & Hix & Ho).
  exists ix. split; [done|]. eapply outcome_permitted; [|exact Ho]. by apply Henv.
Qed.

(** C28: A nonce is used once. A nonce account that has been advanced holds, under the same
    authority, which has signed, the nonce of the current blockhash in place of another
    one; and as long as the blockhash is the same, advancing an account with that data
    again fails. *)
Theorem nonce_advances_once L D inv c f c' : environment_ok L D c f ->
  limited_deserialize (instruction_data f) = Ok AdvanceNonceAccount ->
  process_instruction inv c = Some (c', Ok tt) ->
  exists ia a a' d, instruction_accounts f !! 0%nat = Some ia /\ accs c !! index_in_transaction ia = Some a /\
    accs c' !! index_in_transaction ia = Some a' /\ nonce_of a = Some d /\ signed c f (authority d) /\
    durable_nonce d <> from_blockhash (blockhash inv) /\
    nonce_of a' = Some (MkNonceData (authority d) (from_blockhash (blockhash inv)) (blockhash_lamports_per_signature inv)) /\
    forall L2 D2 inv2 c2 f2 ia2 a2, environment_ok L2 D2 c2 f2 ->
      limited_deserialize (instruction_data f2) = Ok AdvanceNonceAccount -> blockhash inv2 = blockhash inv ->
      instruction_accounts f2 !! 0%nat = Some ia2 -> accs c2 !! index_in_transaction ia2 = Some a2 ->
      payload a2 = payload a' -> exists c3 e, process_instruction inv2 c2 = Some (c3, Err e).
Proof.
  intros Henv Hix Hrun. destruct (system_process_spec L D inv c f Henv) as (c1 & r & Hrun1 & _ & _ & Hok).
  rewrite Hrun in Hrun1. injection Hrun1 as <- <-. destruct (Hok eq_refl) as (ix & Hix' & Ho).
  assert (ix = AdvanceNonceAccount) as -> by congruence. destruct Ho as (ia & a & a' & Hia & Ha & Hadv & Heq).
  apply rewritten_states in Hadv as (v & v' & Hv & (d & Hd & Hs & Hne & ->) & Hv').
  exists ia, a, a', d. split_and!; [done..| |by eapply nonce_of_state|done|done|eapply nonce_of_state; [done|apply state_new]|].
  { rewrite Heq. apply list_lookup_insert_eq. by eapply lookup_lt_Some. }
  intros L2 D2 inv2 c2 f2 ia2 a2 Henv2 Hix2 Hbh Hia2 Ha2 Hp.
  destruct (system_process_spec L2 D2 inv2 c2 f2 Henv2) as (c3 & [[]|e] & Hrun2 & _ & _ & Hok2); [|by exists c3, e].
  exfalso. destruct (Hok2 eq_refl) as (ix & Hix2' & Ho2). assert (ix = AdvanceNonceAccount) as -> by congruence.
  destruct Ho2 as (ia2' & a2' & a3 & Hia2' & Ha2' & Hadv2 & _). assert (ia2' = ia2) as -> by congruence.
  assert (a2' = a2) as -> by congruence. apply rewritten_states in Hadv2 as (v2 & v2' & Hv2 & (d2 & Hd2 & _ & Hne2 & _) & _).
  rewrite Hp, Hv' in Hv2. injection Hv2 as <-. unfold fresh_nonce in Hd2. rewrite state_new in Hd2.
  injection Hd2 as <-. simpl in Hne2. by rewrite Hbh in Hne2.
Qed.
End Theorems.
End SystemAccounts.
