(* ===== verification/SystemWire.v ===== *)
(** * The system program: an encoding, and examples

    An instance of [SystemInterface] with its laws, and transactions that run the
    program on it. *)

From S2P Require Import Prelude TransactionContext ContextSpec ContextTrace ContextTheorems.
From S2P Require Import Builtin BuiltinRuns SystemProgram SystemOutcome SystemTheorems.
Import Ctx Builtin System SystemAccounts.

Module SystemWire.

(** A nonce state with its version: 0 for the old one, 1 for the current one. *)
Definition demo_nonce_put (v : Z * NonceState) : Bytes :=
  match v.2 with
  | Uninitialized => [v.1; 0]
  | Initialized d => [v.1; 1; authority d; durable_nonce d; lamports_per_signature d]
  end.

Definition demo_nonce_get (d : Bytes) : option (Z * NonceState) :=
  match d with
  | v :: 0 :: _ => Some (v, Uninitialized)
  | v :: 1 :: k :: n :: p :: _ => Some (v, Initialized (MkNonceData k n p))
  | _ => None
  end.

Definition demo_blockhash (x : Z) : Z := x + 1000.

Definition demo_upgrade (v : Z * NonceState) : option (Z * NonceState) :=
  match v with
  | (0, Initialized d) => Some (1, Initialized (MkNonceData (authority d) (demo_blockhash (durable_nonce d)) (lamports_per_signature d)))
  | _ => None
  end.

Definition demo_authorize (v : Z * NonceState) (S : gset Pubkey) (k : Pubkey) :
    result AuthorizeNonceError (Z * NonceState) :=
  match v.2 with
  | Uninitialized => Err NonceUninitialized
  | Initialized d =>
      if bool_decide (authority d ∈ S)
      then Ok (v.1, Initialized (MkNonceData k (durable_nonce d) (lamports_per_signature d)))
      else Err (NonceMissingRequiredSignature (authority d))
  end.

(** The instructions of the examples. *)
Definition demo_instruction (d : Bytes) : result InstructionError SystemInstruction :=
  match d with
  | [0; amount; space; new_owner] => Ok (CreateAccount amount space new_owner)
  | [2; amount] => Ok (Transfer amount)
  | [4] => Ok AdvanceNonceAccount
  | _ => Err InvalidInstructionData
  end.

Definition demo_error_code (e : SystemError) : Z :=
  match e with
  | AccountAlreadyInUse => 0
  | ResultWithNegativeLamports => 1
  | InvalidAccountDataLength => 3
  | AddressWithSeedMismatch => 5
  | NonceNoRecentBlockhashes => 6
  | NonceBlockhashNotExpired => 7
  end.

#[export] Existing Instance Transactions.demo_runtime.
#[export] Existing Instance Transactions.demo_runtime_laws.

#[export] Instance demo_system : SystemInterface := {
  Versions := Z * NonceState;
  versions_new s := (1, s);
  versions_state := snd;
  versions_upgrade := demo_upgrade;
  versions_authorize := demo_authorize;
  nonce_deserialize := demo_nonce_get;
  nonce_serialize v := Some (demo_nonce_put v);
  from_blockhash := demo_blockhash;
  limited_deserialize := demo_instruction;
  minimum_balance r n := r * (128 + n);
  create_with_seed base seed new_owner := Ok (base + foldr Z.add 0 seed + new_owner);
  error_from_code e := Custom e;
  system_error_code := demo_error_code;
  MAX_PERMITTED_DATA_LENGTH := 10 * 1024 * 1024;
  system_program_id := 0;
  recent_blockhashes_id := 95;
  rent_id := 93
}.

#[export] Instance demo_system_laws : SystemLaws.
Proof.
  split.
  - done.
  - intros [v [|[k n p]]] bytes rest Hb; apply (inj Some) in Hb as <-; reflexivity.
  - intros [v [|d]] S k v'; [done|]. cbn [versions_authorize demo_system]. unfold demo_authorize. cbn [snd fst]. case_bool_decide as Hin; [|done]. intros [= <-]. by exists d.
  - intros [[| |] [|d]] v' Hu; try discriminate Hu. apply (inj Some) in Hu as <-. by eexists d, _.
Qed.

(** ** Transactions of the examples *)

(** The system program 0, a nonce account, a sysvar, the authority 4 and a wallet 5. *)
Definition demo_accounts : list KeyedAccount :=
  [MkKeyedAccount 0 1 1 0 true []; MkKeyedAccount 30 0 2000 0 false [1; 1; 4; 77; 5];
   MkKeyedAccount 95 1 1 0 false []; MkKeyedAccount 4 0 900 0 false []; MkKeyedAccount 5 0 10 0 false []].

Definition transfer_frame : InstructionFrame :=
  MkFrame 0 0 [MkInstructionAccount 3 true true; MkInstructionAccount 4 false true] [] [2; 300].
Definition advance_frame : InstructionFrame :=
  MkFrame 0 0 [MkInstructionAccount 1 false true; MkInstructionAccount 2 false false; MkInstructionAccount 3 true false] [] [4].

Definition called (f : InstructionFrame) : list Transactions.TxOp :=
  [Transactions.TConfigure 0 (instruction_accounts f) [] (instruction_data f); Transactions.TPush].

Definition demo_context (f : InstructionFrame) : TransactionContext :=
  let m := Transactions.start demo_accounts Transactions.demo_rent 5 64 in
  Transactions.mctx (default m (Transactions.run m (called f))).

Definition demo_invoke : Invoke := MkInvoke 8 5 (Ok [8; 7]) (Ok Transactions.demo_rent) true.

Lemma demo_loaded : Transactions.loaded demo_accounts.
Proof. split_and!; [vm_compute; lia|repeat constructor; vm_compute; done|vm_compute; done]. Qed.

Lemma demo_books f :
  books (Transactions.initial_lamports demo_accounts) (Transactions.initial_data demo_accounts) (demo_context f).
Proof.
  destruct (Transactions.context_run_ok _ _ (called f) _ (Transactions.start_ok demo_accounts Transactions.demo_rent 5 64 demo_loaded)
    ltac:(repeat constructor)) as (m & Hrun & Hm).
  unfold demo_context. rewrite Hrun. apply Hm.
Qed.

Lemma transfer_environment :
  environment_ok (Transactions.initial_lamports demo_accounts) (Transactions.initial_data demo_accounts)
    (demo_context transfer_frame) transfer_frame.
Proof.
  split; [apply demo_books|by exists 0%nat|]. intros ix [= <-]. simpl. unfold in_word, word_max. lia.
Qed.

Lemma advance_environment :
  environment_ok (Transactions.initial_lamports demo_accounts) (Transactions.initial_data demo_accounts)
    (demo_context advance_frame) advance_frame.
Proof. split; [apply demo_books|by exists 0%nat|]. by intros ix [= <-]. Qed.

(** Both succeed. *)
Definition ended (f : InstructionFrame) : TransactionContext :=
  match process_instruction demo_invoke (demo_context f) with
  | Some (c', Ok _) => c'
  | _ => demo_context f
  end.

Definition succeeds (f : InstructionFrame) : bool :=
  match process_instruction demo_invoke (demo_context f) with Some (_, Ok _) => true | _ => false end.

Lemma succeeds_ends f : succeeds f = true -> process_instruction demo_invoke (demo_context f) = Some (ended f, Ok tt).
Proof.
  unfold succeeds, ended. generalize (process_instruction demo_invoke (demo_context f)) as r.
  by intros [[c' [[]|]]|].
Qed.

Lemma transfer_succeeds : succeeds transfer_frame = true.
Proof. vm_cast_no_check (eq_refl true). Qed.

Lemma advance_succeeds : succeeds advance_frame = true.
Proof. vm_cast_no_check (eq_refl true). Qed.

Lemma system_program_refines_witness :
  exists c' r, process_instruction demo_invoke (demo_context transfer_frame) = Some (c', r) /\
    books (Transactions.initial_lamports demo_accounts) (Transactions.initial_data demo_accounts) c' /\
    counters c' = counters (demo_context transfer_frame) /\
    (r = Ok tt -> total_lamports c' = total_lamports (demo_context transfer_frame) /\
      exists ix, limited_deserialize (instruction_data transfer_frame) = Ok ix /\
        outcome demo_invoke (demo_context transfer_frame) transfer_frame c' ix).
Proof. apply (system_program_refines _ _ _ _ _ transfer_environment). Defined.

Lemma system_program_authority_witness :
  exists ix, limited_deserialize (instruction_data transfer_frame) = Ok ix /\
    forall n a, accs (demo_context transfer_frame) !! n = Some a -> exists a', accs (ended transfer_frame) !! n = Some a' /\
      (gains a a' \/ (exists k, signed (demo_context transfer_frame) transfer_frame k /\ controls a k) \/
       unsigned_change ix a a').
Proof. exact (system_program_authority _ _ _ _ _ _ transfer_environment (succeeds_ends _ transfer_succeeds)). Defined.

Lemma nonce_advances_once_witness :
  exists ia a a' d, instruction_accounts advance_frame !! 0%nat = Some ia /\
    accs (demo_context advance_frame) !! index_in_transaction ia = Some a /\
    accs (ended advance_frame) !! index_in_transaction ia = Some a' /\ nonce_of a = Some d /\
    signed (demo_context advance_frame) advance_frame (authority d) /\
    durable_nonce d <> demo_blockhash 8 /\ nonce_of a' = Some (MkNonceData (authority d) (demo_blockhash 8) 5).
Proof.
  destruct (nonce_advances_once _ _ _ _ _ _ advance_environment eq_refl (succeeds_ends _ advance_succeeds))
    as (ia & a & a' & d & H1 & H2 & H3 & H4 & H5 & H6 & H7 & _).
  exists ia, a, a', d. split_and!; assumption.
Defined.
End SystemWire.
