(* ===== verification/TransactionBytes.v ===== *)
(** * Reading serialized transactions: the byte readers

    The readers of src/transaction-view/src/bytes.rs. A reader takes the whole
    packet and a cursor it moves ([&mut usize]); the cursor keeps its new value
    when the reader fails. A read that the source marks [unsafe] is [None] when
    it would leave the packet, so a theorem that gives [Some] is a proof of
    memory safety.

    The file also has the vocabulary the frames are verified with: [denotes]
    says which encodings a parser accepts, for every packet and cursor, and is
    closed under sequencing and loops. *)

From S2P Require Import Prelude.

Abbreviation U16_MAX := (word_max 16).
Abbreviation is_u8 := (in_word 8).

Definition len {A} (l : list A) : Z := Z.of_nat (length l).

Inductive TransactionViewError : Type :=
| ParseError
| SanitizeError
| AddressLookupMismatch.

#[global] Instance TransactionViewError_eq_dec : EqDecision TransactionViewError.
Proof. solve_decision. Defined.

(** ** Readers *)

(** [fn(bytes: &[u8], offset: &mut usize) -> Result<A>]. *)
Definition Parser (A : Type) : Type := list Z -> Z -> result TransactionViewError A * Z.

#[global] Instance parser_ret : MRet Parser := fun _ a _ offset => (Ok a, offset).

#[global] Instance parser_bind : MBind Parser := fun _ _ f p bytes offset =>
  match p bytes offset with
  | (Ok a, offset') => f a bytes offset'
  | (Err e, offset') => (Err e, offset')
  end.

(** The value of the cursor, and an early return. *)
Definition tell : Parser Z := fun _ offset => (Ok offset, offset).
Definition fail {A} (e : TransactionViewError) : Parser A := fun _ offset => (Err e, offset).

(** [for _ in 0..n { body }]. *)
Fixpoint loop {S} (n : nat) (body : S -> Parser S) (s : S) : Parser S :=
  match n with
  | O => mret s
  | Datatypes.S n => s ← body s; loop n body s
  end.

(** Types that are read in place: byte arrays of alignment 1. *)
Class Pod (T : Type) : Type := {
  size_of : Z;
  of_bytes : list Z -> T;
  to_bytes : T -> list Z
}.
Arguments size_of T {_} : simpl never.
Arguments of_bytes {T _} _ : simpl never.
Arguments to_bytes {T _} _ : simpl never.

Class PodLaws (T : Type) `{Pod T} : Prop := {
  size_of_range : 0 < size_of T <= 64;
  to_of_bytes : forall b, len b = size_of T -> to_bytes (of_bytes b) = b
}.

(** A value that fills its size. *)
Definition pod_ok {T} `{Pod T} (x : T) : Prop :=
  len (to_bytes x) = size_of T /\ of_bytes (to_bytes x) = x.

#[global] Instance pod_u8 : Pod Z :=
  {| size_of := 1; of_bytes := fun b => hd 0 b; to_bytes := fun b => [b] |}.

#[global] Instance pod_u8_laws : PodLaws Z.
Proof.
  split; [done|]. intros [|b [|? ?]]; try done; change (size_of Z) with 1; unfold len; simpl; lia.
Qed.

Lemma size_of_u8 : size_of Z = 1.
Proof. done. Qed.

Definition check_remaining (bytes : list Z) (offset num_bytes : Z) : result TransactionViewError unit :=
  if num_bytes >? wsub 64 (len bytes) offset then Err ParseError else Ok tt.

(** [check_remaining(bytes, *offset, num_bytes)?]. *)
Definition require_remaining (num_bytes : Z) : Parser unit :=
  fun bytes offset => (check_remaining bytes offset num_bytes, offset).

(** [bytes.get(offset).ok_or(ParseError)]. *)
Definition get_byte (bytes : list Z) (offset : Z) : result TransactionViewError Z :=
  match bytes !! Z.to_nat offset with
  | Some b => Ok b
  | None => Err ParseError
  end.

Definition read_byte : Parser Z :=
  fun bytes offset => (get_byte bytes offset, wadd 64 offset 1).

Definition unchecked_read_byte (bytes : list Z) (offset : Z) : option (Z * Z) :=
  value ← bytes !! Z.to_nat offset;
  Some (value, wadd 64 offset 1).

(** The loop of [read_compressed_u16] over the indices that are left. *)
Fixpoint read_compressed_loop (indices : list Z) (result shift : Z) : Parser Z :=
  match indices with
  | [] => fun _ offset => (Ok result, wadd 64 offset 3)
  | i :: indices => fun bytes offset =>
      match get_byte bytes (wadd 64 offset i) with
      | Err e => (Err e, offset)
      | Ok byte =>
          if ((0 <? i) && (byte =? 0)) || ((i =? 2) && (byte >? 3)) then (Err ParseError, offset)
          else
            let result := Z.lor result (wrap 16 (Z.shiftl (Z.land byte 0x7F) shift)) in
            let shift := wadd 16 shift 7 in
            if Z.land byte 0x80 =? 0 then (Ok result, wadd 64 (wadd 64 offset i) 1)
            else read_compressed_loop indices result shift bytes offset
      end
  end.

Definition read_compressed_u16 : Parser Z := read_compressed_loop [0; 1; 2] 0 0.

Definition optimized_read_compressed_u16 : Parser Z := fun bytes offset =>
  match get_byte bytes offset with
  | Err e => (Err e, offset)
  | Ok byte1 =>
      let result := Z.lor 0 (Z.land byte1 0x7F) in
      if Z.land byte1 0x80 =? 0 then (Ok result, wadd 64 offset 1)
      else
        match get_byte bytes (wadd 64 offset 1) with
        | Err e => (Err e, offset)
        | Ok byte2 =>
            if (byte2 =? 0) || negb (Z.land byte2 0x80 =? 0) then (Err ParseError, offset)
            else
              (Ok (Z.lor result (wrap 16 (Z.shiftl (Z.land byte2 0x7F) 7))), wadd 64 offset 2)
        end
  end.

Definition advance_offset_for_array (T : Type) `{Pod T} (num_elements : Z) : Parser unit :=
  let array_len_bytes := wrap 64 (num_elements * size_of T) in
  fun bytes offset =>
    match check_remaining bytes offset array_len_bytes with
    | Ok _ => (Ok tt, wadd 64 offset array_len_bytes)
    | Err e => (Err e, offset)
    end.

Definition advance_offset_for_type (T : Type) `{Pod T} : Parser unit :=
  let type_size := size_of T in
  fun bytes offset =>
    match check_remaining bytes offset type_size with
    | Ok _ => (Ok tt, wadd 64 offset type_size)
    | Err e => (Err e, offset)
    end.

(** ** Reads in place *)

(** [n] bytes of the packet from [offset] on. *)
Definition window (bytes : list Z) (offset n : Z) : list Z :=
  take (Z.to_nat n) (drop (Z.to_nat offset) bytes).

(** [bytes.as_ptr().add(offset)]: the pointer has to stay within the packet or
    one past its end. *)
Definition ptr_add (bytes : list Z) (offset : Z) : option Z :=
  if (0 <=? offset) && (offset <=? len bytes) then Some offset else None.

(** [slice::from_raw_parts(ptr as *const T, num_elements)]: the range read has
    to be within the packet. *)
Definition from_raw_parts (T : Type) `{Pod T} (bytes : list Z) (ptr num_elements : Z) :
    option (list T) :=
  if ptr + num_elements * size_of T <=? len bytes
  then Some ((fun i : nat => of_bytes (window bytes (ptr + Z.of_nat i * size_of T) (size_of T))) <$>
               seq 0 (Z.to_nat num_elements))
  else None.

(** [&*(ptr as *const T)]. *)
Definition deref (T : Type) `{Pod T} (bytes : list Z) (ptr : Z) : option T :=
  if ptr + size_of T <=? len bytes then Some (of_bytes (window bytes ptr (size_of T))) else None.

Definition read_slice_data (T : Type) `{Pod T} (bytes : list Z) (offset num_elements : Z) :
    option (result TransactionViewError (list T) * Z) :=
  current_ptr ← ptr_add bytes offset;
  match advance_offset_for_array T num_elements bytes offset with
  | (Err e, offset) => Some (Err e, offset)
  | (Ok _, offset) =>
      slice ← from_raw_parts T bytes current_ptr num_elements;
      Some (Ok slice, offset)
  end.

Definition unchecked_read_slice_data (T : Type) `{Pod T} (bytes : list Z) (offset num_elements : Z) :
    option (list T * Z) :=
  current_ptr ← ptr_add bytes offset;
  let array_len_bytes := wrap 64 (num_elements * size_of T) in
  let offset := wadd 64 offset array_len_bytes in
  slice ← from_raw_parts T bytes current_ptr num_elements;
  Some (slice, offset).

Definition read_type (T : Type) `{Pod T} (bytes : list Z) (offset : Z) :
    option (result TransactionViewError T * Z) :=
  current_ptr ← ptr_add bytes offset;
  match advance_offset_for_type T bytes offset with
  | (Err e, offset) => Some (Err e, offset)
  | (Ok _, offset) =>
      value ← deref T bytes current_ptr;
      Some (Ok value, offset)
  end.

(** ** The encoding of array lengths *)

(** Seven bits a byte, least significant first, as few bytes as possible. *)
Definition encode_u16 (v : Z) : list Z :=
  if v <? 128 then [v]
  else if v <? 16384 then [v mod 128 + 128; v / 128]
  else [v mod 128 + 128; (v / 128) mod 128 + 128; v / 16384].

(** What a packet is: bytes, no more of them than a [u16] counts. *)
Definition packet (bytes : list Z) : Prop := Forall is_u8 bytes /\ len bytes <= U16_MAX.

(** [denotes p R]: at any cursor of any packet, [p] succeeds with [a] exactly
    when the bytes ahead start with an [e] such that [R offset a e tail], and
    then it has consumed [e]. *)
Definition denotes {A} (p : Parser A) (R : Z -> A -> list Z -> list Z -> Prop) : Prop :=
  forall pre suf a o', packet (pre ++ suf) ->
    p (pre ++ suf) (len pre) = (Ok a, o') <->
    exists e tail, suf = e ++ tail /\ R (len pre) a e tail /\ o' = len pre + len e.

(** One after the other. *)
Definition seq_den {A B} (R1 : Z -> A -> list Z -> list Z -> Prop)
    (R2 : A -> Z -> B -> list Z -> list Z -> Prop) (o : Z) (b : B) (e tail : list Z) : Prop :=
  exists a e1 e2, e = e1 ++ e2 /\ R1 o a e1 (e2 ++ tail) /\ R2 a (o + len e1) b e2 tail.

Fixpoint loop_den {S} (n : nat) (R : S -> Z -> S -> list Z -> list Z -> Prop) (s : S) :
    Z -> S -> list Z -> list Z -> Prop :=
  match n with
  | O => fun _ s' e _ => s' = s /\ e = []
  | Datatypes.S n => seq_den (R s) (fun s => loop_den n R s)
  end.

(** ** Lengths *)
Create Rewrite HintDb lens.

Lemma len_nil {A} : len (@nil A) = 0.
Proof. done. Qed.
Lemma len_cons {A} (x : A) l : len (x :: l) = 1 + len l.
Proof. unfold len. simpl. lia. Qed.
Lemma len_app {A} (l1 l2 : list A) : len (l1 ++ l2) = len l1 + len l2.
Proof. unfold len. rewrite length_app. lia. Qed.
Lemma len_nonneg {A} (l : list A) : 0 <= len l.
Proof. unfold len. lia. Qed.
Lemma len_to_nat {A} (l : list A) : Z.to_nat (len l) = length l.
Proof. unfold len. lia. Qed.
Lemma len_0 {A} (l : list A) : len l = 0 -> l = [].
Proof. unfold len. destruct l; [done|]. simpl. lia. Qed.
Lemma len_fmap {A B} (f : A -> B) l : len (f <$> l) = len l.
Proof. unfold len. by rewrite length_fmap. Qed.
Lemma len_concat {A B} (f : A -> list B) l : len (concat (f <$> l)) = Zsum (fun x => len (f x)) l.
Proof. induction l as [|x l IH]; [done|]. rewrite fmap_cons, Zsum_cons. simpl. by rewrite len_app, IH. Qed.

#[export] Hint Rewrite @len_nil @len_cons @len_app @len_to_nat @len_fmap : lens.

(** Arithmetic on lengths of packets. *)
Ltac len_lia :=
  autorewrite with lens in *;
  repeat match goal with
  | |- context [@len ?A ?l] =>
      lazymatch goal with H : 0 <= len l |- _ => fail | _ => pose proof (len_nonneg l) end
  | H : context [@len ?A ?l] |- _ =>
      lazymatch goal with H : 0 <= len l |- _ => fail | _ => pose proof (len_nonneg l) end
  end;
  unfold in_word, word_max in *; lia.

Lemma take_len {A} (l1 l2 : list A) n : n = len l1 -> take (Z.to_nat n) (l1 ++ l2) = l1.
Proof. intros ->. rewrite len_to_nat. apply take_app_length. Qed.

Lemma drop_len {A} (l1 l2 : list A) n : n = len l1 -> drop (Z.to_nat n) (l1 ++ l2) = l2.
Proof. intros ->. rewrite len_to_nat. apply drop_app_length. Qed.

Lemma window_app pre e tail n : n = len e -> window (pre ++ e ++ tail) (len pre) n = e.
Proof. intros Hn. unfold window. rewrite drop_len by done. by apply take_len. Qed.

(** A list is its first [n] elements and the rest. *)
Lemma split_len {A} (l : list A) n : 0 <= n <= len l -> exists l1 l2, l = l1 ++ l2 /\ len l1 = n.
Proof.
  intros Hn. exists (take (Z.to_nat n) l), (drop (Z.to_nat n) l).
  rewrite take_drop. split; [done|]. unfold len in *. rewrite length_take. lia.
Qed.

(** ** Denotations: sequencing and loops *)

Lemma denotes_iff {A} (p : Parser A) R1 R2 :
  denotes p R1 -> (forall o a e tail, R1 o a e tail <-> R2 o a e tail) -> denotes p R2.
Proof.
  intros Hp HR pre suf a o' Hb. unfold denotes in Hp. rewrite Hp by done.
  split; intros (e & tail & ? & ? & ?); exists e, tail; naive_solver.
Qed.

(** The same, for encodings found in a packet at a cursor within it. *)
Lemma denotes_weaken {A} (p : Parser A) R1 R2 :
  denotes p R1 ->
  (forall o a e tail, 0 <= o -> o + len e + len tail <= U16_MAX -> Forall is_u8 e -> Forall is_u8 tail ->
    R1 o a e tail <-> R2 o a e tail) ->
  denotes p R2.
Proof.
  intros Hp HR pre suf a o' Hb. unfold denotes in Hp. rewrite Hp by done. destruct Hb as [[_ Hs]%Forall_app Hl].
  split; intros (e & tail & -> & Ha & ?); exists e, tail; apply Forall_app in Hs as [? ?];
    (split_and!; [done|apply HR; try done; len_lia|done]).
Qed.

Lemma denotes_ret {A} (a : A) : denotes (mret a) (fun _ a' e _ => a' = a /\ e = []).
Proof.
  intros pre suf a' o' Hb. unfold mret, parser_ret. split.
  - intros [= -> <-]. exists [], suf. split_and!; try done. len_lia.
  - intros (e & tail & -> & [-> ->] & ->). f_equal. len_lia.
Qed.

Lemma denotes_tell : denotes tell (fun o a e _ => a = o /\ e = []).
Proof.
  intros pre suf a' o' Hb. unfold tell. split.
  - intros [= -> <-]. exists [], suf. split_and!; try done. len_lia.
  - intros (e & tail & -> & [-> ->] & ->). f_equal. len_lia.
Qed.

Lemma denotes_fail {A} err : denotes (@fail A err) (fun _ _ _ _ => False).
Proof. intros pre suf a' o' Hb. unfold fail. naive_solver. Qed.

Lemma denotes_bind {A B} (p : Parser A) (f : A -> Parser B) R1 R2 :
  denotes p R1 -> (forall a, denotes (f a) (R2 a)) -> denotes (p ≫= f) (seq_den R1 R2).
Proof.
  intros Hp Hf pre suf b o' Hb. unfold mbind, parser_bind. split.
  - destruct (p _ _) as [[a|err] o1] eqn:E; [|done]. intros Hfa.
    apply Hp in E as (e1 & rest & -> & HR1 & ->); [|done].
    rewrite app_assoc in Hfa, Hb. rewrite <- len_app in Hfa.
    apply Hf in Hfa as (e2 & tail & -> & HR2 & ->); [|done]. rewrite len_app in HR2.
    exists (e1 ++ e2), tail. rewrite <- app_assoc. split_and!; [done| |len_lia].
    by exists a, e1, e2.
  - intros (e & tail & -> & (a & e1 & e2 & -> & HR1 & HR2) & ->).
    rewrite <- app_assoc in *.
    rewrite (proj2 (Hp pre (e1 ++ e2 ++ tail) a (len pre + len e1) Hb)); [|by exists e1, (e2 ++ tail)].
    rewrite app_assoc in *. rewrite <- len_app in HR2.
    replace (len pre + len e1) with (len (pre ++ e1)) by len_lia.
    apply Hf; [done|]. exists e2, tail. split_and!; [done|done|len_lia].
Qed.

Lemma seq_den_intro {A B} (R1 : Z -> A -> list Z -> list Z -> Prop)
    (R2 : A -> Z -> B -> list Z -> list Z -> Prop) o a b e1 e2 tail :
  R1 o a e1 (e2 ++ tail) -> R2 a (o + len e1) b e2 tail -> seq_den R1 R2 o b (e1 ++ e2) tail.
Proof. intros. by exists a, e1, e2. Qed.

(** A step that reads nothing. *)
Lemma seq_den_pure {A B} (R1 : Z -> A -> list Z -> list Z -> Prop)
    (R2 : A -> Z -> B -> list Z -> list Z -> Prop) o a b e tail :
  R1 o a [] (e ++ tail) -> R2 a o b e tail -> seq_den R1 R2 o b e tail.
Proof. intros. exists a, [], e. rewrite len_nil, Z.add_0_r. done. Qed.

(** A step that reads all of the rest. *)
Lemma seq_den_last {A B} (R1 : Z -> A -> list Z -> list Z -> Prop)
    (R2 : A -> Z -> B -> list Z -> list Z -> Prop) o a b e tail :
  R1 o a e tail -> R2 a (o + len e) b [] tail -> seq_den R1 R2 o b e tail.
Proof. intros. exists a, e, []. by rewrite app_nil_r. Qed.

Lemma denotes_if {A} (c : bool) (p q : Parser A) R1 R2 :
  denotes p R1 -> denotes q R2 ->
  denotes (if c then p else q) (fun o a e tail => if c then R1 o a e tail else R2 o a e tail).
Proof. by destruct c. Qed.

Lemma denotes_bind_pair {A B C} (p : Parser (A * B)) (f : A -> B -> Parser C) R1 R2 :
  denotes p R1 -> (forall x y, denotes (f x y) (R2 x y)) ->
  denotes ('(x, y) ← p; f x y) (seq_den R1 (fun xy => R2 xy.1 xy.2)).
Proof. intros Hp Hf. apply denotes_bind; [done|]. intros []. apply Hf. Qed.

Lemma denotes_loop {S} n (body : S -> Parser S) R :
  (forall s, denotes (body s) (R s)) -> forall s, denotes (loop n body s) (loop_den n R s).
Proof.
  intros Hb. induction n as [|n IH]; intros s; simpl; [apply denotes_ret|].
  by apply denotes_bind.
Qed.

(** A loop whose body reads one encoded item and folds it into its state. *)
Lemma loop_den_items {S I} (R : S -> Z -> S -> list Z -> list Z -> Prop)
    (enc : I -> list Z) (wf : I -> Prop) (upd : S -> I -> S) :
  (forall s o s' e tail, R s o s' e tail <-> exists i, wf i /\ e = enc i /\ s' = upd s i) ->
  forall n s o s' e tail,
    loop_den n R s o s' e tail <->
    exists items, length items = n /\ Forall wf items /\ e = concat (enc <$> items) /\ s' = fold_left upd items s.
Proof.
  intros HR. induction n as [|n IH]; intros s o s' e tail; simpl.
  - split; [intros [-> ->]; by exists []|]. intros ([|] & ? & _ & -> & ->); done.
  - unfold seq_den. split.
    + intros (s1 & e1 & e2 & -> & (i & Hi & -> & ->)%HR & (items & <- & Hitems & -> & ->)%IH).
      exists (i :: items). split_and!; try done. by constructor.
    + intros ([|i items] & Hl & Hitems & -> & ->); [done|]. injection Hl as Hl.
      apply Forall_cons in Hitems as [Hi Hitems]. exists (upd s i), (enc i), (concat (enc <$> items)).
      split_and!; [done|apply HR; by exists i|]. apply IH. by exists items.
Qed.

(** ** Denotations of the readers *)

Lemma packet_bound bytes : packet bytes -> len bytes <= U16_MAX.
Proof. by intros []. Qed.

Lemma wadd_packet bytes o n : packet bytes -> 0 <= o -> 0 <= n -> o + n <= len bytes + 3 -> wadd 64 o n = o + n.
Proof. intros Hb%packet_bound ???. apply wadd_small. unfold word_max in *. lia. Qed.

Lemma check_remaining_spec pre suf n :
  packet (pre ++ suf) -> check_remaining (pre ++ suf) (len pre) n = if n <=? len suf then Ok tt else Err ParseError.
Proof.
  intros Hb%packet_bound. unfold check_remaining. rewrite wsub_small by len_lia.
  rewrite len_app. replace (len pre + len suf - len pre) with (len suf) by lia.
  rewrite Z.gtb_ltb, Z.ltb_antisym. by destruct (n <=? len suf).
Qed.

Lemma denotes_require_remaining n :
  denotes (require_remaining n) (fun _ _ e tail => e = [] /\ n <= len tail).
Proof.
  intros pre suf [] o' Hb. unfold require_remaining. rewrite check_remaining_spec by done.
  split.
  - split_if; [|done]. intros [= <-]. bool_to_prop. exists [], suf. split_and!; try done. len_lia.
  - intros (e & tail & -> & [-> Hn] & ->). apply Z.leb_le in Hn. simpl. rewrite Hn. f_equal. len_lia.
Qed.

Lemma get_byte_cons pre b suf : get_byte (pre ++ b :: suf) (len pre) = Ok b.
Proof. unfold get_byte. rewrite len_to_nat. by rewrite list_lookup_middle. Qed.

Lemma get_byte_nil pre : get_byte (pre ++ []) (len pre) = Err ParseError.
Proof.
  unfold get_byte. rewrite len_to_nat, app_nil_r, lookup_ge_None_2; [done|]. lia.
Qed.

Lemma denotes_read_byte : denotes read_byte (fun _ b e _ => e = [b] /\ is_u8 b).
Proof.
  intros pre suf b o' Hb. unfold read_byte. split.
  - destruct suf as [|b' suf]; [by rewrite get_byte_nil|]. rewrite get_byte_cons.
    intros [= -> <-]. pose proof Hb as [[_ [Hb' _]%Forall_cons]%Forall_app _].
    exists [b], suf. split_and!; try done. rewrite (wadd_packet _ _ _ Hb) by len_lia. len_lia.
  - intros (e & tail & -> & [-> Hr] & ->). simpl in *. rewrite get_byte_cons.
    rewrite (wadd_packet _ _ _ Hb) by len_lia. f_equal. 
Qed.

Lemma advance_spec pre suf n :
  packet (pre ++ suf) -> 0 <= n ->
  match check_remaining (pre ++ suf) (len pre) n with
  | Ok _ => (Ok tt, wadd 64 (len pre) n)
  | Err err => (Err err, len pre)
  end = if n <=? len suf then (Ok tt, len pre + n) else (Err ParseError, len pre).
Proof.
  intros Hb Hn. rewrite check_remaining_spec by done. split_if; [|done]. bool_to_prop.
  rewrite (wadd_packet _ _ _ Hb) by len_lia. done.
Qed.

Lemma denotes_skip n (p : Parser unit) :
  0 <= n ->
  (forall pre suf, packet (pre ++ suf) ->
    p (pre ++ suf) (len pre) = if n <=? len suf then (Ok tt, len pre + n) else (Err ParseError, len pre)) ->
  denotes p (fun _ _ e _ => len e = n).
Proof.
  intros Hn Hp pre suf [] o' Hb. rewrite Hp by done. split.
  - split_if; [|done]. intros [= <-]. bool_to_prop.
    destruct (split_len suf n) as (e & tail & -> & He); [done|]. exists e, tail. by rewrite He.
  - intros (e & tail & -> & He & ->). rewrite (proj2 (Z.leb_le _ _)) by len_lia. by rewrite He.
Qed.

Lemma denotes_advance_array (T : Type) `{Pod T} n :
  denotes (advance_offset_for_array T n) (fun _ _ e _ => len e = wrap 64 (n * size_of T)).
Proof.
  pose proof (wrap_in_word 64 (n * size_of T)) as [Hn _]; [done|].
  apply denotes_skip; [done|]. intros pre suf Hb. by apply advance_spec.
Qed.

Lemma denotes_advance_type (T : Type) `{PodLaws T} :
  denotes (advance_offset_for_type T) (fun _ _ e _ => len e = size_of T).
Proof.
  pose proof size_of_range as Hs. apply denotes_skip; [lia|]. intros pre suf Hb.
  apply advance_spec; [done|lia].
Qed.

(** ** Compressed lengths *)

Lemma bytes_enum (P : Z -> bool) : forallb P (seqZ 0 256) = true -> forall b, is_u8 b -> P b = true.
Proof.
  intros HP b Hb. rewrite forallb_forall in HP. apply HP, list_elem_of_In, elem_of_seqZ.
  unfold in_word, word_max in *. lia.
Qed.

Lemma land_low b : Z.land b 0x7F = b mod 128.
Proof. apply (Z.land_ones b 7). done. Qed.

Lemma land_high b : is_u8 b -> (Z.land b 0x80 =? 0) = (b <? 128).
Proof.
  intros Hb. apply eqb_prop. by apply (bytes_enum (fun b => eqb (Z.land b 0x80 =? 0) (b <? 128))).
Qed.

Lemma lor_shift a b n : 0 <= n -> 0 <= a < 2 ^ n -> Z.lor a (Z.shiftl b n) = a + b * 2 ^ n.
Proof.
  intros Hn Ha. assert (Z.land a (Z.shiftl b n) = 0) as H0.
  { apply Z.bits_inj'. intros i Hi. rewrite Z.land_spec, Z.bits_0.
    destruct (Z.lt_ge_cases i n) as [Hlt|Hge].
    - rewrite Z.shiftl_spec_low by done. apply andb_false_r.
    - replace (Z.testbit a i) with false; [done|]. symmetry.
      destruct (decide (a = 0)) as [->|]; [apply Z.bits_0|]. apply Z.bits_above_log2; [lia|].
      apply Z.log2_lt_pow2; [lia|]. pose proof (Z.pow_le_mono_r 2 n i). lia. }
  rewrite <- Z.lxor_lor, <- Z.add_nocarry_lxor by done. by rewrite Z.shiftl_mul_pow2.
Qed.

(** The next seven bits of a length. *)
Lemma lor_group a b n : 0 <= n -> 0 <= a < 2 ^ n -> 0 <= b -> b mod 128 * 2 ^ n < 2 ^ 16 ->
  Z.lor a (wrap 16 (Z.shiftl (Z.land b 0x7F) n)) = a + b mod 128 * 2 ^ n.
Proof.
  intros ????. rewrite land_low, wrap_small, lor_shift; [done..|].
  rewrite Z.shiftl_mul_pow2 by done. split; [|done].
  pose proof (Z.mod_pos_bound b 128). apply Z.mul_nonneg_nonneg; lia.
Qed.

Lemma encode_u16_1 v e : 0 <= v < 128 -> e = encode_u16 v <-> e = [v].
Proof. intros. unfold encode_u16. by rewrite (proj2 (Z.ltb_lt v 128)) by lia. Qed.

Lemma encode_u16_short b1 b2 v :
  is_u8 b1 -> is_u8 b2 ->
  (0 <= v < 16384 /\ [b1; b2] = encode_u16 v) <->
  (128 <= b1 /\ 0 < b2 < 128 /\ v = b1 mod 128 + b2 * 128).
Proof.
  unfold encode_u16, in_word, word_max. intros.
  assert (128 <= b1 -> b1 mod 128 = b1 - 128) as Hm.
  { intros. symmetry. apply (Z.mod_unique _ _ 1); lia. }
  split.
  - intros [Hv He]. pose proof (Z.div_mod v 128). pose proof (Z.mod_pos_bound v 128).
    split_ifs; bool_to_prop; rewrite ?Hm by lia; lia.
  - intros (?&?&->). rewrite Hm by done.
    rewrite (proj2 (Z.ltb_ge _ _)), (proj2 (Z.ltb_lt _ _)) by lia. split; [lia|].
    rewrite <- (Z.mod_unique (b1 - 128 + b2 * 128) 128 b2 (b1 - 128)) by lia.
    rewrite <- (Z.div_unique (b1 - 128 + b2 * 128) 128 b2 (b1 - 128)) by lia.
    f_equal. lia.
Qed.

Lemma encode_u16_long b1 b2 b3 v :
  is_u8 b1 -> is_u8 b2 -> is_u8 b3 ->
  (0 <= v <= U16_MAX /\ [b1; b2; b3] = encode_u16 v) <->
  (128 <= b1 /\ 128 <= b2 /\ 0 < b3 <= 3 /\ v = b1 mod 128 + b2 mod 128 * 128 + b3 * 16384).
Proof.
  unfold encode_u16, in_word, word_max. intros.
  assert (forall b, 128 <= b < 256 -> b mod 128 = b - 128) as Hm.
  { intros. symmetry. apply (Z.mod_unique _ _ 1); lia. }
  split.
  - intros [Hv He]. pose proof (Z.div_mod v 128). pose proof (Z.mod_pos_bound v 128).
    pose proof (Z.div_mod (v / 128) 128). pose proof (Z.mod_pos_bound (v / 128) 128).
    replace (v / 16384) with (v / 128 / 128) in He by (by rewrite Z.div_div).
    split_ifs; bool_to_prop.
    rewrite (Hm (v mod 128 + 128)), (Hm ((v / 128) mod 128 + 128)) by lia. lia.
  - intros (?&?&?&->). rewrite !Hm by lia.
    rewrite !(proj2 (Z.ltb_ge _ _)) by lia. split; [lia|].
    rewrite <- (Z.mod_unique (b1 - 128 + (b2 - 128) * 128 + b3 * 16384) 128 (b2 - 128 + b3 * 128) (b1 - 128)) by lia.
    rewrite <- (Z.div_unique (b1 - 128 + (b2 - 128) * 128 + b3 * 16384) 128 (b2 - 128 + b3 * 128) (b1 - 128)) by lia.
    rewrite <- (Z.mod_unique (b2 - 128 + b3 * 128) 128 b3 (b2 - 128)) by lia.
    rewrite <- (Z.div_unique (b1 - 128 + (b2 - 128) * 128 + b3 * 16384) 16384 b3 (b1 - 128 + (b2 - 128) * 128)) by lia.
    f_equal; [lia|]. f_equal. lia.
Qed.

Lemma len_encode_u16 v : 1 <= len (encode_u16 v) <= 3.
Proof. unfold encode_u16. split_ifs; done. Qed.

Lemma len_encode_u16_short v : v < 16384 -> len (encode_u16 v) = if v <? 128 then 1 else 2.
Proof. intros Hv%Z.ltb_lt. unfold encode_u16. rewrite Hv. by split_ifs. Qed.

(** What [optimized_read_compressed_u16] does with the bytes ahead. *)
Lemma optimized_read_spec pre suf :
  packet (pre ++ suf) ->
  optimized_read_compressed_u16 (pre ++ suf) (len pre) =
  match suf with
  | b1 :: rest =>
      if b1 <? 128 then (Ok b1, len pre + 1)
      else match rest with
           | b2 :: _ =>
               if (0 <? b2) && (b2 <? 128) then (Ok (b1 mod 128 + b2 * 128), len pre + 2)
               else (Err ParseError, len pre)
           | [] => (Err ParseError, len pre)
           end
  | [] => (Err ParseError, len pre)
  end.
Proof.
  intros Hb. unfold optimized_read_compressed_u16.
  destruct suf as [|b1 rest]; [by rewrite get_byte_nil|]. rewrite get_byte_cons.
  pose proof Hb as [[_ [Hb1 Hrest]%Forall_cons]%Forall_app _]. unfold in_word, word_max in Hb1.
  rewrite land_high, land_low, (wadd_packet _ _ _ Hb) by len_lia. rewrite Z.lor_0_l.
  destruct (b1 <? 128) eqn:E1; bool_to_prop; [by rewrite Z.mod_small by lia|].
  replace (len pre + 1) with (len (pre ++ [b1])) by len_lia.
  replace (pre ++ b1 :: rest) with ((pre ++ [b1]) ++ rest) in * by (by rewrite <- app_assoc).
  destruct rest as [|b2 rest]; [by rewrite get_byte_nil|]. rewrite get_byte_cons.
  apply Forall_cons in Hrest as [Hb2 _]. rewrite land_high by done.
  unfold in_word, word_max in Hb2.
  destruct (b2 <? 128) eqn:E2; bool_to_prop; [|by rewrite orb_true_r, andb_false_r].
  destruct (b2 =? 0) eqn:E0; bool_to_prop; [by subst|].
  rewrite (proj2 (Z.ltb_lt 0 b2)) by lia. simpl. rewrite (wadd_packet _ _ _ Hb) by len_lia.
  pose proof (Z.mod_pos_bound b1 128). rewrite lor_group; [|lia..|rewrite (Z.mod_small b2); lia].
  rewrite (Z.mod_small b2) by lia. done.
Qed.

Lemma denotes_optimized_read :
  denotes optimized_read_compressed_u16 (fun _ v e _ => 0 <= v < 16384 /\ e = encode_u16 v).
Proof.
  intros pre suf v o' Hb. rewrite optimized_read_spec by done.
  pose proof Hb as [[_ Hs]%Forall_app _]. split.
  - destruct suf as [|b1 [|b2 rest]]; [done|..].
    + apply Forall_cons in Hs as [Hs _]. unfold in_word in Hs. split_ifs; intros; simplify_eq. bool_to_prop.
      exists [v], []. split; [done|]. split; [split; [lia|apply encode_u16_1; done || lia]|done].
    + apply Forall_cons in Hs as [Hb1 [Hb2 Hs]%Forall_cons]. split_ifs; bool_to_prop; intros; simplify_eq.
      * unfold in_word in Hb1. exists [v], (b2 :: rest). split; [done|]. split; [split; [lia|apply encode_u16_1; done || lia]|done].
      * exists [b1; b2], rest. split; [done|]. split; [|done]. apply encode_u16_short; done || lia.
  - intros (e & tail & -> & [Hv He] & ->). destruct (Z.lt_ge_cases v 128) as [Hlt|Hge].
    + apply encode_u16_1 in He as ->; [|lia]. simpl. by rewrite (proj2 (Z.ltb_lt v 128)).
    + assert (exists b1 b2, e = [b1; b2]) as (b1 & b2 & ->).
      { rewrite He. unfold encode_u16. rewrite (proj2 (Z.ltb_ge _ _)), (proj2 (Z.ltb_lt _ _)) by lia. eauto. }
      apply Forall_cons in Hs as [Hb1 [Hb2 Hs]%Forall_cons].
      destruct (proj1 (encode_u16_short b1 b2 v Hb1 Hb2)) as (? & ? & ->); [done|]. simpl.
      rewrite (proj2 (Z.ltb_ge _ _)), !(proj2 (Z.ltb_lt _ _)) by lia. done.
Qed.

(** What [read_compressed_u16] does with the bytes ahead. *)
Lemma read_compressed_spec pre suf :
  packet (pre ++ suf) ->
  read_compressed_u16 (pre ++ suf) (len pre) =
  match suf with
  | b1 :: rest =>
      if b1 <? 128 then (Ok b1, len pre + 1)
      else match rest with
           | b2 :: rest =>
               if b2 =? 0 then (Err ParseError, len pre)
               else if b2 <? 128 then (Ok (b1 mod 128 + b2 * 128), len pre + 2)
               else match rest with
                    | b3 :: _ =>
                        if (b3 =? 0) || (b3 >? 3) then (Err ParseError, len pre)
                        else (Ok (b1 mod 128 + b2 mod 128 * 128 + b3 * 16384), len pre + 3)
                    | [] => (Err ParseError, len pre)
                    end
           | [] => (Err ParseError, len pre)
           end
  | [] => (Err ParseError, len pre)
  end.
Proof.
  intros Hb. unfold read_compressed_u16. cbn [read_compressed_loop].
  rewrite (wadd_packet _ (len pre) 0 Hb), Z.add_0_r by len_lia.
  change (wadd 16 0 7) with 7. change (wadd 16 7 7) with 14. cbn [Z.ltb Z.eqb Z.compare andb orb Pos.eqb].
  destruct suf as [|b1 rest]; [by rewrite get_byte_nil|]. rewrite get_byte_cons.
  pose proof Hb as [[_ [Hb1 Hrest]%Forall_cons]%Forall_app _]. pose proof Hb1 as Hr1.
  unfold in_word, word_max in Hr1. pose proof (Z.mod_pos_bound b1 128).
  rewrite (land_high b1), (lor_group 0 b1 0), !(wadd_packet _ _ 1 Hb) by len_lia.
  destruct (b1 <? 128) eqn:E1; bool_to_prop; [by rewrite Z.mod_small, Z.mul_1_r by lia|].
  replace (len pre + 1) with (len (pre ++ [b1])) by len_lia.
  replace (pre ++ b1 :: rest) with ((pre ++ [b1]) ++ rest) in * by (by rewrite <- app_assoc).
  destruct rest as [|b2 rest]; [by rewrite get_byte_nil|]. rewrite get_byte_cons.
  apply Forall_cons in Hrest as [Hb2 Hrest]. pose proof Hb2 as Hr2. unfold in_word, word_max in Hr2.
  destruct (b2 =? 0); [done|]. cbn [orb]. pose proof (Z.mod_pos_bound b2 128).
  rewrite land_high, (lor_group _ b2 7), !(wadd_packet _ _ _ Hb) by (done || len_lia).
  destruct (b2 <? 128) eqn:E2; bool_to_prop.
  { rewrite (Z.mod_small b2) by lia. f_equal; [f_equal; lia|len_lia]. }
  replace (len pre + 2) with (len ((pre ++ [b1]) ++ [b2])) by len_lia.
  replace ((pre ++ [b1]) ++ b2 :: rest) with (((pre ++ [b1]) ++ [b2]) ++ rest) in * by (by rewrite <- app_assoc).
  destruct rest as [|b3 rest]; [by rewrite get_byte_nil|]. rewrite get_byte_cons.
  apply Forall_cons in Hrest as [Hb3 _]. destruct ((b3 =? 0) || (b3 >? 3)) eqn:E3; [done|].
  unfold in_word in Hb3. bool_to_prop. rewrite land_high by (unfold in_word; lia).
  rewrite (proj2 (Z.ltb_lt b3 128)) by lia.
  rewrite (lor_group _ b3 14); [|lia..|rewrite (Z.mod_small b3); lia].
  rewrite (Z.mod_small b3) by lia. f_equal; [f_equal; lia|len_lia].
Qed.

Lemma denotes_read_compressed :
  denotes read_compressed_u16 (fun _ v e _ => 0 <= v <= U16_MAX /\ e = encode_u16 v).
Proof.
  intros pre suf v o' Hb. rewrite read_compressed_spec by done.
  pose proof Hb as [[_ Hs]%Forall_app _]. split.
  - destruct suf as [|b1 rest]; [done|]. apply Forall_cons in Hs as [Hb1 Hs]. pose proof Hb1 as Hr1.
    unfold in_word in Hr1. split_if; bool_to_prop.
    { intros [= -> <-]. exists [v], rest. split; [done|]. split; [split|done].
      - unfold word_max. lia.
      - apply encode_u16_1; done || lia. }
    destruct rest as [|b2 rest]; [done|]. apply Forall_cons in Hs as [Hb2 Hs]. pose proof Hb2 as Hr2.
    unfold in_word in Hr2. split_if; [done|]. split_if; bool_to_prop.
    { intros [= <- <-]. exists [b1; b2], rest. split; [done|]. split; [|done].
      destruct (proj2 (encode_u16_short b1 b2 (b1 mod 128 + b2 * 128) Hb1 Hb2)); [lia|].
      split; [unfold word_max; lia|done]. }
    destruct rest as [|b3 rest]; [done|]. apply Forall_cons in Hs as [Hb3 Hs]. pose proof Hb3 as Hr3.
    unfold in_word in Hr3. split_if; [done|]. bool_to_prop. intros [= <- <-].
    exists [b1; b2; b3], rest. split; [done|]. split; [|done]. apply encode_u16_long; try done. split_and!; lia || done.
  - intros (e & tail & -> & [Hv He] & ->). destruct (Z.lt_ge_cases v 16384) as [Hlt|Hge].
    + pose proof (proj2 (denotes_optimized_read pre (e ++ tail) v (len pre + len e) Hb)) as Ho.
      rewrite optimized_read_spec in Ho by done. specialize (Ho ltac:(exists e, tail; naive_solver)).
      destruct (e ++ tail) as [|b1 [|b2 rest]]; split_ifs; bool_to_prop; simplify_eq;
        congruence || lia.
    + assert (exists b1 b2 b3, e = [b1; b2; b3]) as (b1 & b2 & b3 & ->).
      { rewrite He. unfold encode_u16. rewrite !(proj2 (Z.ltb_ge _ _)) by lia. eauto. }
      simpl in Hs. rewrite !Forall_cons in Hs. destruct Hs as (Hb1 & Hb2 & Hb3 & _).
      destruct (proj1 (encode_u16_long b1 b2 b3 v Hb1 Hb2 Hb3)) as (? & ? & ? & ->); [done|]. simpl.
      rewrite !(proj2 (Z.ltb_ge _ _)), !(proj2 (Z.eqb_neq _ _)) by lia. simpl.
      rewrite Z.gtb_ltb, (proj2 (Z.ltb_ge _ _)) by lia. done.
Qed.

(** The two-byte reader of compressed lengths used by the parsers is the
    three-byte reader restricted to the lengths that fit in two bytes: at every
    cursor of every packet it succeeds exactly when the general reader does with
    a length below 2^14, with the same length and the same new cursor, and
    otherwise fails. The general reader accepts exactly the minimal encoding of
    each u16, and then moves past it. *)
Lemma compressed_u16_readers (bytes : list Z) (offset v offset' : Z) :
  packet bytes -> 0 <= offset <= len bytes ->
  (optimized_read_compressed_u16 bytes offset = (Ok v, offset') <->
   read_compressed_u16 bytes offset = (Ok v, offset') /\ v < 16384) /\
  (read_compressed_u16 bytes offset = (Ok v, offset') <->
   0 <= v <= U16_MAX /\ offset' = offset + len (encode_u16 v) /\
   exists tail, drop (Z.to_nat offset) bytes = encode_u16 v ++ tail).
Proof.
  intros Hb Ho. destruct (split_len bytes offset Ho) as (pre & suf & -> & <-).
  pose proof (denotes_optimized_read pre suf v offset' Hb) as H1.
  pose proof (denotes_read_compressed pre suf v offset' Hb) as H2.
  rewrite H1, H2, drop_len by done. split; split.
  - intros (e & tail & -> & [Hv ->] & ->). split; [|lia]. exists (encode_u16 v), tail.
    split; [done|]. split; [|done]. split; [unfold word_max; lia|done].
  - intros [(e & tail & -> & [Hv ->] & ->) Hlt]. exists (encode_u16 v), tail.
    split; [done|]. split; [|done]. split; [lia|done].
  - intros (e & tail & -> & [Hv ->] & ->). eauto.
  - intros (Hv & -> & tail & ->). exists (encode_u16 v), tail. auto.
Qed.

(** ** Reads in place *)

Lemma len_pods (T : Type) `{Pod T} (es : list T) :
  Forall pod_ok es -> len (concat (to_bytes <$> es)) = len es * size_of T.
Proof. induction 1 as [|x l [Hx _] _ IH]; [done|]. rewrite fmap_cons. simpl. len_lia. Qed.

(** Any bytes of the right number are an array. *)
Lemma pods_of_bytes (T : Type) `{PodLaws T} e n :
  0 <= n -> len e = n * size_of T ->
  exists es : list T, e = concat (to_bytes <$> es) /\ len es = n /\ Forall pod_ok es.
Proof.
  pose proof size_of_range as Hs. intros Hn. revert e. pattern n. apply natlike_ind; [|clear n Hn|done].
  - intros e He%len_0. by exists [].
  - intros n Hn IH e He. destruct (split_len e (size_of T)) as (e1 & e2 & -> & He1); [lia|].
    destruct (IH e2) as (es & -> & <- & Hes); [len_lia|]. exists (of_bytes e1 :: es).
    rewrite fmap_cons. simpl. rewrite to_of_bytes by done. split_and!; [done|len_lia|].
    constructor; [|done]. split; by rewrite to_of_bytes.
Qed.

(** The elements of an array are the values its bytes hold. *)
Lemma from_raw_parts_spec (T : Type) `{PodLaws T} pre (es : list T) tail n :
  Forall pod_ok es ->
  n = len es ->
  from_raw_parts T (pre ++ concat (to_bytes <$> es) ++ tail) (len pre) n = Some es.
Proof.
  intros Hes ->. unfold from_raw_parts.
  pose proof (len_pods T es Hes). rewrite (proj2 (Z.leb_le _ _)) by len_lia. f_equal.
  rewrite len_to_nat. apply list_eq. intros i. rewrite list_lookup_fmap.
  destruct (es !! i) as [x|] eqn:Hx; [|by rewrite lookup_seq_ge by (by apply lookup_ge_None)].
  rewrite lookup_seq_lt by (by eapply lookup_lt_Some). simpl. f_equal.
  rewrite <- (take_drop_middle es i x Hx), fmap_app, fmap_cons, concat_app in *. simpl.
  apply Forall_app in Hes as [Hpre [[Hs Hx'] _]%Forall_cons].
  replace (len pre + Z.of_nat i * size_of T) with (len (pre ++ concat (to_bytes <$> take i es))).
  - rewrite <- !app_assoc, (app_assoc pre). by rewrite window_app.
  - rewrite len_app, len_pods by done. f_equal. f_equal. unfold len. rewrite length_take.
    apply lookup_lt_Some in Hx. lia.
Qed.

Lemma deref_spec (T : Type) `{PodLaws T} pre (x : T) tail :
  pod_ok x -> deref T (pre ++ to_bytes x ++ tail) (len pre) = Some x.
Proof.
  intros [Hl Hx]. unfold deref. rewrite (proj2 (Z.leb_le _ _)) by len_lia.
  by rewrite window_app, Hx.
Qed.

Lemma ptr_add_spec pre suf : ptr_add (pre ++ suf) (len pre) = Some (len pre).
Proof. unfold ptr_add. by rewrite !(proj2 (Z.leb_le _ _)) by len_lia. Qed.

(** The reads of single bytes. *)
Lemma concat_bytes (l : list Z) : concat (to_bytes <$> l) = l.
Proof. induction l as [|b l IH]; [done|]. rewrite fmap_cons. cbn [concat]. by rewrite IH. Qed.

Lemma bytes_from_raw_parts pre l tail n :
  n = len l -> from_raw_parts Z (pre ++ l ++ tail) (len pre) n = Some l.
Proof.
  intros Hn. rewrite <- (concat_bytes l) at 1. apply (from_raw_parts_spec Z); [|done].
  apply Forall_forall. done.
Qed.

Lemma unchecked_read_byte_spec pre b suf :
  packet (pre ++ b :: suf) -> unchecked_read_byte (pre ++ b :: suf) (len pre) = Some (b, len pre + 1).
Proof.
  intros Hb. unfold unchecked_read_byte. rewrite len_to_nat, list_lookup_middle by done. simpl.
  by rewrite (wadd_packet _ _ _ Hb) by len_lia.
Qed.

Lemma unchecked_read_bytes_spec pre l suf n :
  packet (pre ++ l ++ suf) -> n = len l ->
  unchecked_read_slice_data Z (pre ++ l ++ suf) (len pre) n = Some (l, len pre + n).
Proof.
  intros Hb ->. unfold unchecked_read_slice_data. rewrite ptr_add_spec. simpl.
  rewrite bytes_from_raw_parts by done. simpl. rewrite size_of_u8, Z.mul_1_r. pose proof (packet_bound _ Hb).
  rewrite wrap_small by len_lia. by rewrite (wadd_packet _ _ _ Hb) by len_lia.
Qed.

Lemma read_bytes_spec pre l suf n :
  packet (pre ++ l ++ suf) -> n = len l ->
  read_slice_data Z (pre ++ l ++ suf) (len pre) n = Some (Ok l, len pre + n).
Proof.
  intros Hb ->. unfold read_slice_data. rewrite ptr_add_spec. simpl.
  pose proof (packet_bound _ Hb).
  rewrite (proj2 (denotes_advance_array Z (len l) pre (l ++ suf) tt (len pre + len l) Hb)).
  - by rewrite bytes_from_raw_parts.
  - exists l, suf. split_and!; try done. rewrite size_of_u8, wrap_small; [lia|len_lia].
Qed.

Lemma read_type_spec (T : Type) `{PodLaws T} pre (x : T) suf :
  packet (pre ++ to_bytes x ++ suf) -> pod_ok x ->
  read_type T (pre ++ to_bytes x ++ suf) (len pre) = Some (Ok x, len pre + size_of T).
Proof.
  intros Hb Hx. unfold read_type. rewrite ptr_add_spec. simpl.
  rewrite (proj2 (denotes_advance_type T pre (to_bytes x ++ suf) tt (len pre + size_of T) Hb)).
  - by rewrite deref_spec.
  - exists (to_bytes x), suf. destruct Hx as [Hl _]. by rewrite Hl.
Qed.

(** ** Automation for parsers *)

(** The denotation of a parser built from the readers. *)
Ltac denote :=
  repeat first
    [ apply denotes_read_byte | apply denotes_tell | apply denotes_ret | apply denotes_fail
    | apply denotes_optimized_read | apply denotes_require_remaining
    | apply denotes_advance_array | (apply denotes_advance_type; apply _)
    | eapply denotes_if | eapply denotes_bind_pair; [|intros ? ?] | eapply denotes_bind; [|intros ?] ].

(** Takes the encoding of a sequence apart. *)
Ltac den_inv :=
  repeat match goal with
  | H : seq_den _ _ _ _ _ _ |- _ => destruct H as (? & ? & ? & -> & ? & H)
  | H : _ /\ _ |- _ => destruct H
  | H : ?x = [] |- _ => subst x
  | u : unit |- _ => destruct u
  end; simpl in *.
