(* ===== verification/TransactionFrames.v ===== *)
(** * Frames of serialized transactions

    src/transaction-view parses a packet once into a [TransactionFrame] of
    offsets and counts. The file has the parser of each part and of the whole
    packet, statement for statement.

    The specification is the wire format: [encode] writes out a transaction.
    The parser accepts exactly the encodings of well-formed transactions
    ([wf_transaction]) and its frame is the one their lengths give
    ([frame_of]). *)

From S2P Require Import Prelude ComputeBudget TransactionBytes.

(** ** Data *)

Record Pubkey : Type := MkPubkey { pubkey_bytes : list Z }.
Record Signature : Type := MkSignature { signature_bytes : list Z }.
Record Hash : Type := MkHash { hash_bytes : list Z }.

#[global] Instance Pubkey_eq_dec : EqDecision Pubkey.
Proof. solve_decision. Defined.
#[global] Instance Pubkey_countable : Countable Pubkey.
Proof. by apply (inj_countable' pubkey_bytes MkPubkey); intros []. Defined.

#[global] Instance pod_pubkey : Pod Pubkey :=
  {| size_of := 32; of_bytes := MkPubkey; to_bytes := pubkey_bytes |}.
#[global] Instance pod_signature : Pod Signature :=
  {| size_of := 64; of_bytes := MkSignature; to_bytes := signature_bytes |}.
#[global] Instance pod_hash : Pod Hash :=
  {| size_of := 32; of_bytes := MkHash; to_bytes := hash_bytes |}.

#[global] Instance pod_pubkey_laws : PodLaws Pubkey.
Proof. by split. Qed.
#[global] Instance pod_signature_laws : PodLaws Signature.
Proof. by split. Qed.
#[global] Instance pod_hash_laws : PodLaws Hash.
Proof. by split. Qed.

(** The constants of the SDK's packet and message formats. *)
Class PacketSdk : Type := {
  PACKET_SIZE : Z;             (** [solana_packet::PACKET_DATA_SIZE] *)
  MESSAGE_VERSION_PREFIX : Z   (** [solana_message::MESSAGE_VERSION_PREFIX] *)
}.

(** "The packet has a maximum length of 1232 bytes"; the prefix is the bit that
    tells a versioned message from the signature count of a legacy one. *)
Class PacketSdkLaws `{PacketSdk} : Prop := {
  packet_size_law : PACKET_SIZE = 1232;
  message_version_prefix_law : MESSAGE_VERSION_PREFIX = 0x80
}.

Inductive TransactionVersion : Type := Legacy | V0.

#[global] Instance TransactionVersion_eq_dec : EqDecision TransactionVersion.
Proof. solve_decision. Defined.

Record SVMMessageAddressTableLookup : Type := MkLookup {
  account_key : Pubkey;
  writable_indexes : list Z;
  readonly_indexes : list Z
}.

(** ** Frames *)
Module Frames.
Section Frames.
Context `{PacketSdk}.

Definition MAX_SIGNATURES_PER_PACKET : Z :=
  wrap 8 (PACKET_SIZE / (size_of Signature + size_of Pubkey)).

Record SignatureFrame : Type := MkSignatureFrame {
  num_signatures : Z;
  signature_offset : Z
}.

Definition SignatureFrame_try_new : Parser SignatureFrame :=
  num_signatures ← read_byte;
  if (num_signatures =? 0) || (num_signatures >? MAX_SIGNATURES_PER_PACKET) then fail ParseError
  else
    offset ← tell;
    let signature_offset := wrap 16 offset in
    advance_offset_for_array Signature num_signatures;;
    mret (MkSignatureFrame num_signatures signature_offset).

Record MessageHeaderFrame : Type := MkMessageHeaderFrame {
  message_offset : Z;
  version : TransactionVersion;
  num_required_signatures : Z;
  num_readonly_signed_accounts : Z;
  num_readonly_unsigned_accounts : Z
}.

Definition MessageHeaderFrame_try_new : Parser MessageHeaderFrame :=
  offset ← tell;
  let message_offset := wrap 16 offset in
  message_prefix ← read_byte;
  '(version, num_required_signatures) ←
    (if negb (Z.land message_prefix MESSAGE_VERSION_PREFIX =? 0)
     then
       let version := Z.land message_prefix (255 - MESSAGE_VERSION_PREFIX) in
       if version =? 0 then (n ← read_byte; mret (V0, n)) else fail ParseError
     else mret (Legacy, message_prefix));
  num_readonly_signed_accounts ← read_byte;
  num_readonly_unsigned_accounts ← read_byte;
  mret (MkMessageHeaderFrame message_offset version num_required_signatures
          num_readonly_signed_accounts num_readonly_unsigned_accounts).

Definition MAX_STATIC_ACCOUNTS_PER_PACKET : Z := wrap 8 (PACKET_SIZE / size_of Pubkey).

Record StaticAccountKeysFrame : Type := MkStaticAccountKeysFrame {
  num_static_accounts : Z;
  static_accounts_offset : Z
}.

Definition StaticAccountKeysFrame_try_new : Parser StaticAccountKeysFrame :=
  num_static_accounts ← read_byte;
  if (num_static_accounts =? 0) || (num_static_accounts >? MAX_STATIC_ACCOUNTS_PER_PACKET)
  then fail ParseError
  else
    offset ← tell;
    let static_accounts_offset := wrap 16 offset in
    advance_offset_for_array Pubkey num_static_accounts;;
    mret (MkStaticAccountKeysFrame num_static_accounts static_accounts_offset).

Record InstructionFrame : Type := MkInstructionFrame {
  num_accounts : Z;
  data_len : Z;
  num_accounts_len : Z;
  data_len_len : Z
}.

Record InstructionsFrame : Type := MkInstructionsFrame {
  num_instructions : Z;
  instructions_offset : Z;
  frames : list InstructionFrame
}.

(** The body of the loop over the instructions. *)
Definition instruction_frame (frames : list InstructionFrame) : Parser (list InstructionFrame) :=
  _program_id_index ← read_byte;
  num_accounts_offset ← tell;
  num_accounts ← optimized_read_compressed_u16;
  offset ← tell;
  let num_accounts_len := wrap 8 (wsub 64 offset num_accounts_offset) in
  advance_offset_for_array Z num_accounts;;
  data_len_offset ← tell;
  data_len ← optimized_read_compressed_u16;
  offset ← tell;
  let data_len_len := wrap 8 (wsub 64 offset data_len_offset) in
  advance_offset_for_array Z data_len;;
  mret (frames ++ [MkInstructionFrame num_accounts data_len num_accounts_len data_len_len]).

Definition InstructionsFrame_try_new : Parser InstructionsFrame :=
  num_instructions ← optimized_read_compressed_u16;
  require_remaining (wrap 64 (3 * num_instructions));;
  offset ← tell;
  let instructions_offset := wrap 16 offset in
  frames ← loop (Z.to_nat num_instructions) instruction_frame [];
  mret (MkInstructionsFrame num_instructions instructions_offset frames).

Definition MIN_SIZED_ATL : Z := size_of Pubkey + 1 + 1 + 1.

Definition MIN_SIZED_PACKET_WITH_ATLS : Z :=
  1 + size_of Signature + 1 + 3 + 1 + size_of Pubkey + size_of Hash + 1 + 1.

Definition MAX_ATLS_PER_PACKET : Z :=
  wrap 8 ((PACKET_SIZE - MIN_SIZED_PACKET_WITH_ATLS) / MIN_SIZED_ATL).

Record AddressTableLookupFrame : Type := MkAddressTableLookupFrame {
  num_address_table_lookups : Z;
  address_table_lookups_offset : Z;
  total_writable_lookup_accounts : Z;
  total_readonly_lookup_accounts : Z
}.

(** The body of the loop over the lookups; its state is the two totals. *)
Definition lookup_frame (totals : Z * Z) : Parser (Z * Z) :=
  advance_offset_for_type Pubkey;;
  num_write_accounts ← optimized_read_compressed_u16;
  let total_writable_lookup_accounts := wadd 32 totals.1 num_write_accounts in
  advance_offset_for_array Z num_write_accounts;;
  num_read_accounts ← optimized_read_compressed_u16;
  let total_readonly_lookup_accounts := wadd 32 totals.2 num_read_accounts in
  advance_offset_for_array Z num_read_accounts;;
  mret (total_writable_lookup_accounts, total_readonly_lookup_accounts).

(** [u16::try_from(total).map_err(|_| SanitizeError)?]. *)
Definition u16_try_from (total : Z) : Parser Z :=
  if total <=? U16_MAX then mret total else fail SanitizeError.

Definition AddressTableLookupFrame_try_new : Parser AddressTableLookupFrame :=
  num_address_table_lookups ← read_byte;
  if num_address_table_lookups >? MAX_ATLS_PER_PACKET then fail ParseError
  else
    require_remaining (wrap 64 (MIN_SIZED_ATL * num_address_table_lookups));;
    offset ← tell;
    let address_table_lookups_offset := wrap 16 offset in
    totals ← loop (Z.to_nat num_address_table_lookups) lookup_frame (0, 0);
    total_writable_lookup_accounts ← u16_try_from totals.1;
    total_readonly_lookup_accounts ← u16_try_from totals.2;
    mret (MkAddressTableLookupFrame num_address_table_lookups address_table_lookups_offset
            total_writable_lookup_accounts total_readonly_lookup_accounts).

Record TransactionFrame : Type := MkTransactionFrame {
  signature : SignatureFrame;
  message_header : MessageHeaderFrame;
  static_account_keys_frame : StaticAccountKeysFrame;
  recent_blockhash_offset : Z;
  instructions : InstructionsFrame;
  address_table_lookup : AddressTableLookupFrame
}.

(** The parts of [TransactionFrame::try_new] that read. *)
Definition transaction_frame : Parser TransactionFrame :=
  signature ← SignatureFrame_try_new;
  message_header ← MessageHeaderFrame_try_new;
  static_account_keys ← StaticAccountKeysFrame_try_new;
  offset ← tell;
  let recent_blockhash_offset := wrap 16 offset in
  advance_offset_for_type Hash;;
  instructions ← InstructionsFrame_try_new;
  address_table_lookup ←
    match version message_header with
    | Legacy => mret (MkAddressTableLookupFrame 0 0 0 0)
    | V0 => AddressTableLookupFrame_try_new
    end;
  mret (MkTransactionFrame signature message_header static_account_keys recent_blockhash_offset
          instructions address_table_lookup).

Definition TransactionFrame_try_new (bytes : list Z) : result TransactionViewError TransactionFrame :=
  match transaction_frame bytes 0 with
  | (Err e, _) => Err e
  | (Ok frame, offset) => if negb (offset =? len bytes) then Err ParseError else Ok frame
  end.

(** ** The wire format *)

Record Transaction : Type := MkTransaction {
  tx_signatures : list Signature;
  tx_version : TransactionVersion;
  tx_num_required_signatures : Z;
  tx_num_readonly_signed : Z;
  tx_num_readonly_unsigned : Z;
  tx_account_keys : list Pubkey;
  tx_blockhash : Hash;
  tx_instructions : list SVMInstruction;
  tx_lookups : list SVMMessageAddressTableLookup
}.

Definition encode_bytes (l : list Z) : list Z := encode_u16 (len l) ++ l.

Definition encode_instruction (ix : SVMInstruction) : list Z :=
  Z.of_nat (program_id_index ix) :: encode_bytes (accounts ix) ++ encode_bytes (data ix).

Definition encode_lookup (l : SVMMessageAddressTableLookup) : list Z :=
  to_bytes (account_key l) ++ encode_bytes (writable_indexes l) ++ encode_bytes (readonly_indexes l).

Definition encode_signatures (t : Transaction) : list Z :=
  len (tx_signatures t) :: concat (to_bytes <$> tx_signatures t).

Definition encode_header (t : Transaction) : list Z :=
  match tx_version t with Legacy => [] | V0 => [0x80] end ++
  [tx_num_required_signatures t; tx_num_readonly_signed t; tx_num_readonly_unsigned t].

Definition encode_keys (t : Transaction) : list Z :=
  len (tx_account_keys t) :: concat (to_bytes <$> tx_account_keys t).

Definition encode_instructions (t : Transaction) : list Z :=
  encode_u16 (len (tx_instructions t)) ++ concat (encode_instruction <$> tx_instructions t).

Definition encode_lookups (t : Transaction) : list Z :=
  match tx_version t with
  | Legacy => []
  | V0 => len (tx_lookups t) :: concat (encode_lookup <$> tx_lookups t)
  end.

Definition encode (t : Transaction) : list Z :=
  encode_signatures t ++ encode_header t ++ encode_keys t ++ to_bytes (tx_blockhash t) ++
  encode_instructions t ++ encode_lookups t.

(** What the format can express, and the limits the parser puts on a packet. *)
Definition wf_instruction (ix : SVMInstruction) : Prop :=
  len (accounts ix) < 16384 /\ len (data ix) < 16384.

Definition wf_lookup (l : SVMMessageAddressTableLookup) : Prop :=
  pod_ok (account_key l) /\ len (writable_indexes l) < 16384 /\ len (readonly_indexes l) < 16384.

Definition wf_lookups (t : Transaction) : Prop :=
  match tx_version t with
  | Legacy => tx_lookups t = []
  | V0 =>
      len (tx_lookups t) <= MAX_ATLS_PER_PACKET /\ Forall wf_lookup (tx_lookups t) /\
      MIN_SIZED_ATL * len (tx_lookups t) <= len (concat (encode_lookup <$> tx_lookups t))
  end.

Definition wf_transaction (t : Transaction) : Prop :=
  (1 <= len (tx_signatures t) <= MAX_SIGNATURES_PER_PACKET /\ Forall pod_ok (tx_signatures t)) /\
  (tx_version t = Legacy -> tx_num_required_signatures t < 128) /\
  (1 <= len (tx_account_keys t) <= MAX_STATIC_ACCOUNTS_PER_PACKET /\ Forall pod_ok (tx_account_keys t)) /\
  pod_ok (tx_blockhash t) /\
  (len (tx_instructions t) < 16384 /\ Forall wf_instruction (tx_instructions t)) /\
  wf_lookups t.

(** The frame of a transaction, from the lengths of its parts. *)
Definition instruction_frame_of (ix : SVMInstruction) : InstructionFrame :=
  MkInstructionFrame (len (accounts ix)) (len (data ix))
    (len (encode_u16 (len (accounts ix)))) (len (encode_u16 (len (data ix)))).

Definition message_start (t : Transaction) : Z := len (encode_signatures t).
Definition keys_start (t : Transaction) : Z := message_start t + len (encode_header t) + 1.
Definition blockhash_start (t : Transaction) : Z :=
  message_start t + len (encode_header t) + len (encode_keys t).
Definition instructions_start (t : Transaction) : Z :=
  blockhash_start t + size_of Hash + len (encode_u16 (len (tx_instructions t))).
Definition lookups_start (t : Transaction) : Z :=
  blockhash_start t + size_of Hash + len (encode_instructions t) + 1.

Definition lookups_frame_of (t : Transaction) : AddressTableLookupFrame :=
  match tx_version t with
  | Legacy => MkAddressTableLookupFrame 0 0 0 0
  | V0 =>
      MkAddressTableLookupFrame (len (tx_lookups t)) (lookups_start t)
        (Zsum (fun l => len (writable_indexes l)) (tx_lookups t))
        (Zsum (fun l => len (readonly_indexes l)) (tx_lookups t))
  end.

Definition frame_of (t : Transaction) : TransactionFrame :=
  MkTransactionFrame
    (MkSignatureFrame (len (tx_signatures t)) 1)
    (MkMessageHeaderFrame (message_start t) (tx_version t) (tx_num_required_signatures t)
       (tx_num_readonly_signed t) (tx_num_readonly_unsigned t))
    (MkStaticAccountKeysFrame (len (tx_account_keys t)) (keys_start t))
    (blockhash_start t)
    (MkInstructionsFrame (len (tx_instructions t)) (instructions_start t)
       (instruction_frame_of <$> tx_instructions t))
    (lookups_frame_of t).

(** ** The parser of each part *)
Context `{!PacketSdkLaws}.

Lemma MAX_SIGNATURES_12 : MAX_SIGNATURES_PER_PACKET = 12.
Proof. unfold MAX_SIGNATURES_PER_PACKET. by rewrite packet_size_law. Qed.
Lemma MAX_STATIC_ACCOUNTS_38 : MAX_STATIC_ACCOUNTS_PER_PACKET = 38.
Proof. unfold MAX_STATIC_ACCOUNTS_PER_PACKET. by rewrite packet_size_law. Qed.
Lemma MAX_ATLS_31 : MAX_ATLS_PER_PACKET = 31.
Proof. unfold MAX_ATLS_PER_PACKET. by rewrite packet_size_law. Qed.

(** A counted array after its one-byte count. *)
Lemma counted_array (T : Type) `{PodLaws T} (e : list Z) n :
  is_u8 n -> len e = wrap 64 (n * size_of T) <->
  exists es : list T, e = concat (to_bytes <$> es) /\ len es = n /\ Forall pod_ok es.
Proof.
  intros Hn. pose proof size_of_range as Hs. unfold in_word, word_max in Hn.
  rewrite wrap_small by nia. split.
  - intros. apply (pods_of_bytes T); [lia|done].
  - intros (es & -> & <- & Hes). by apply len_pods.
Qed.

Definition signature_den (o : Z) (f : SignatureFrame) (e _tail : list Z) : Prop :=
  exists sigs : list Signature,
    1 <= len sigs <= MAX_SIGNATURES_PER_PACKET /\ Forall pod_ok sigs /\
    e = len sigs :: concat (to_bytes <$> sigs) /\ f = MkSignatureFrame (len sigs) (o + 1).

Lemma denotes_signature_frame : denotes SignatureFrame_try_new signature_den.
Proof.
  eapply denotes_weaken.
  { unfold SignatureFrame_try_new. denote. }
  unfold signature_den. intros o f e tail Ho Hl _ _. rewrite MAX_SIGNATURES_12. split.
  - intros Hd. den_inv. destruct (_ || _) eqn:E; [done|]. bool_to_prop. den_inv. subst.
    match goal with Hw : len _ = wrap 64 _ |- _ =>
      apply (counted_array Signature) in Hw as (sigs & -> & <- & Hok); [|done] end.
    exists sigs. rewrite app_nil_r in *. unfold in_word in *. split_and!; try done; try lia.
    all: f_equal. all: try apply wrap_small. all: len_lia.
  - intros (sigs & Hn & Hok & -> & ->). apply (seq_den_intro _ _ o (len sigs) _ [_]); [split; [done|len_lia]|].
    rewrite (proj2 (Z.eqb_neq _ _)), Z.gtb_ltb, (proj2 (Z.ltb_ge _ _)) by lia. simpl.
    eapply seq_den_pure; [done|]. eapply (seq_den_last _ _ _ tt).
    + simpl. apply (counted_array Signature); [len_lia|]. by exists sigs.
    + split; [|done]. f_equal. rewrite wrap_small; len_lia.
Qed.

Definition static_account_keys_den (o : Z) (f : StaticAccountKeysFrame) (e _tail : list Z) : Prop :=
  exists keys : list Pubkey,
    1 <= len keys <= MAX_STATIC_ACCOUNTS_PER_PACKET /\ Forall pod_ok keys /\
    e = len keys :: concat (to_bytes <$> keys) /\ f = MkStaticAccountKeysFrame (len keys) (o + 1).

Lemma denotes_static_account_keys_frame : denotes StaticAccountKeysFrame_try_new static_account_keys_den.
Proof.
  eapply denotes_weaken.
  { unfold StaticAccountKeysFrame_try_new. denote. }
  unfold static_account_keys_den. intros o f e tail Ho Hl _ _. rewrite MAX_STATIC_ACCOUNTS_38. split.
  - intros Hd. den_inv. destruct (_ || _) eqn:E; [done|]. bool_to_prop. den_inv. subst.
    match goal with Hw : len _ = wrap 64 _ |- _ =>
      apply (counted_array Pubkey) in Hw as (keys & -> & <- & Hok); [|done] end.
    exists keys. rewrite app_nil_r in *. unfold in_word in *. split_and!; try done; try lia.
    all: f_equal. all: try apply wrap_small. all: len_lia.
  - intros (keys & Hn & Hok & -> & ->). apply (seq_den_intro _ _ o (len keys) _ [_]); [split; [done|len_lia]|].
    rewrite (proj2 (Z.eqb_neq _ _)), Z.gtb_ltb, (proj2 (Z.ltb_ge _ _)) by lia. simpl.
    eapply seq_den_pure; [done|]. eapply (seq_den_last _ _ _ tt).
    + simpl. apply (counted_array Pubkey); [len_lia|]. by exists keys.
    + split; [|done]. f_equal. rewrite wrap_small; len_lia.
Qed.

(** The prefix byte of a version-0 message. *)
Lemma version_prefix b : is_u8 b ->
  (Z.land b MESSAGE_VERSION_PREFIX =? 0) = (b <? 128) /\
  (128 <= b -> Z.land b (255 - MESSAGE_VERSION_PREFIX) = 0 <-> b = 128).
Proof.
  intros Hb. rewrite message_version_prefix_law. split; [by apply land_high|].
  intros Hge. change (255 - 0x80) with 0x7F. rewrite land_low. unfold in_word, word_max in Hb.
  rewrite <- (Z.mod_unique b 128 1 (b - 128)) by lia. lia.
Qed.

Definition message_header_den (o : Z) (f : MessageHeaderFrame) (e _tail : list Z) : Prop :=
  exists v nreq nsigned nunsigned,
    (v = Legacy -> nreq < 128) /\
    e = match v with Legacy => [] | V0 => [0x80] end ++ [nreq; nsigned; nunsigned] /\
    f = MkMessageHeaderFrame o v nreq nsigned nunsigned.

Lemma denotes_message_header_frame : denotes MessageHeaderFrame_try_new message_header_den.
Proof.
  eapply denotes_weaken.
  { unfold MessageHeaderFrame_try_new. denote. }
  unfold message_header_den. intros o f e tail Ho Hl Hu8 _. split.
  - intros Hd. den_inv. destruct (version_prefix x2) as [E1 E2]; [done|]. rewrite E1 in *.
    assert (wrap 16 o = o) as Ho16 by (apply wrap_small; len_lia).
    destruct (x2 <? 128) eqn:E; bool_to_prop; simpl in *; den_inv; subst.
    + rewrite Ho16. by eexists Legacy, _, _, _.
    + destruct (_ =? 0) eqn:E0; [|done]. den_inv; subst. bool_to_prop. apply E2 in E0 as ->; [|done].
      rewrite Ho16. by eexists V0, _, _, _.
  - intros (v & nreq & ns & nu & Hlt & -> & ->).
    eapply seq_den_pure; [done|].
    assert (wrap 16 o = o) as Ho16 by (apply wrap_small; len_lia).
    rewrite !Forall_app, !Forall_cons in Hu8. destruct Hu8 as (Hv & Hr & Hs & Hu & _).
    destruct v; simpl.
    + apply (seq_den_intro _ _ _ nreq _ [nreq]); [done|].
      destruct (version_prefix nreq Hr) as [-> _]. rewrite (proj2 (Z.ltb_lt _ _)) by auto. simpl.
      eapply (seq_den_pure _ _ _ (Legacy, nreq)); [done|]. simpl.
      apply (seq_den_intro _ _ _ ns _ [ns] [nu]); [done|].
      apply (seq_den_intro _ _ _ nu _ [nu] []); [done|]. by rewrite Ho16.
    + apply (seq_den_intro _ _ _ 128 _ [128]); [done|].
      destruct (version_prefix 128) as [-> E2]; [done|]. simpl. rewrite (proj2 (E2 ltac:(lia)) eq_refl). simpl.
      eapply (seq_den_intro _ _ _ (V0, nreq) _ [nreq] [ns; nu]).
      { by apply (seq_den_intro _ _ _ nreq _ [nreq] []). }
      apply (seq_den_intro _ _ _ ns _ [ns] [nu]); [done|].
      apply (seq_den_intro _ _ _ nu _ [nu] []); [done|]. by rewrite Ho16.
Qed.

(** The bytes of an array, counted by a compressed length. *)
Lemma byte_array (e : list Z) n : 0 <= n < 16384 -> len e = wrap 64 (n * size_of Z) <-> n = len e.
Proof. intros Hn. rewrite size_of_u8, wrap_small by lia. lia. Qed.

(** The length of an encoded length, as the loop computes it. *)
Lemma encoded_len o v :
  0 <= o -> o + len (encode_u16 v) <= U16_MAX ->
  wrap 8 (wsub 64 (o + len (encode_u16 v)) o) = len (encode_u16 v).
Proof.
  intros. pose proof (len_encode_u16 v). rewrite wsub_small by len_lia.
  rewrite wrap_small; lia.
Qed.

Lemma denotes_instruction_frame frames :
  denotes (instruction_frame frames) (fun _ frames' e _ =>
    exists ix, wf_instruction ix /\ e = encode_instruction ix /\
      frames' = frames ++ [instruction_frame_of ix]).
Proof.
  eapply denotes_weaken.
  { unfold instruction_frame. denote. }
  intros o f e tail Ho Hl Hu8 _. split.
  - intros Hd. den_inv. subst. rewrite byte_array in * by done. subst.
    rewrite !len_nil, !Z.add_0_r, !encoded_len, app_nil_r by len_lia.
    match goal with |- context [[?p] ++ encode_u16 (len ?a) ++ _ ++ encode_u16 (len ?d) ++ _] =>
      exists (MkInstruction (Z.to_nat p) a d) end.
    unfold wf_instruction, encode_instruction, encode_bytes. simpl. rewrite Z2Nat.id by len_lia.
    rewrite <- !app_assoc. split_and!; try done; lia.
  - intros (ix & [Ha Hd] & -> & ->). unfold encode_instruction, encode_bytes in *.
    rewrite <- !app_assoc in *. apply Forall_cons in Hu8 as [Hp _].
    apply (seq_den_intro _ _ _ (Z.of_nat (program_id_index ix)) _ [_]); [done|].
    eapply seq_den_pure; [done|]. eapply seq_den_intro; [split; [|done]; len_lia|].
    eapply seq_den_pure; [done|]. eapply (seq_den_intro _ _ _ tt); [apply byte_array; [len_lia|done]|].
    eapply seq_den_pure; [done|]. eapply seq_den_intro; [split; [|done]; len_lia|].
    eapply seq_den_pure; [done|]. eapply (seq_den_last _ _ _ tt); [apply byte_array; [len_lia|done]|].
    split; [|done]. rewrite !encoded_len by len_lia. done.
Qed.

Lemma len_encode_instruction ix : 3 <= len (encode_instruction ix).
Proof.
  unfold encode_instruction, encode_bytes. pose proof (len_encode_u16 (len (accounts ix))).
  pose proof (len_encode_u16 (len (data ix))). len_lia.
Qed.

Lemma fold_snoc {A B} (g : A -> B) l acc : fold_left (fun acc x => acc ++ [g x]) l acc = acc ++ (g <$> l).
Proof.
  revert acc. induction l as [|x l IH]; intros acc; simpl; [by rewrite app_nil_r|].
  by rewrite IH, <- app_assoc.
Qed.

Definition instructions_den (o : Z) (f : InstructionsFrame) (e _tail : list Z) : Prop :=
  exists ixs, len ixs < 16384 /\ Forall wf_instruction ixs /\
    e = encode_u16 (len ixs) ++ concat (encode_instruction <$> ixs) /\
    f = MkInstructionsFrame (len ixs) (o + len (encode_u16 (len ixs))) (instruction_frame_of <$> ixs).

Lemma denotes_instructions_frame : denotes InstructionsFrame_try_new instructions_den.
Proof.
  eapply denotes_weaken.
  { unfold InstructionsFrame_try_new. denote. apply denotes_loop, denotes_instruction_frame. }
  unfold instructions_den. intros o f e tail Ho Hl Hu8 _. split.
  - intros Hd. den_inv. subst.
    match goal with Hd : loop_den _ _ _ _ _ _ _ |- _ =>
      apply (loop_den_items _ encode_instruction wf_instruction (fun fs ix => fs ++ [instruction_frame_of ix]))
        in Hd as (ixs & Hn & Hwf & -> & ->); [|done] end.
    assert (x = len ixs) as -> by (unfold len; lia). rewrite fold_snoc, app_nil_r in *.
    exists ixs. split_and!; try done. rewrite len_nil, Z.add_0_r, wrap_small; [done|].
    pose proof (len_encode_u16 (len ixs)). len_lia.
  - intros (ixs & Hn & Hwf & -> & ->).
    assert (3 * len ixs <= len (concat (encode_instruction <$> ixs))) as H3.
    { rewrite len_concat. clear. induction ixs as [|ix ixs IH]; [done|]. rewrite Zsum_cons.
      pose proof (len_encode_instruction ix). len_lia. }
    eapply seq_den_intro; [split; [|done]; len_lia|].
    apply (seq_den_pure _ _ _ tt); [split; [done|]; rewrite wrap_small by len_lia; len_lia|].
    eapply seq_den_pure; [done|]. eapply seq_den_last.
    + apply (loop_den_items _ encode_instruction wf_instruction (fun fs ix => fs ++ [instruction_frame_of ix])); [done|].
      exists ixs. rewrite len_to_nat. by split_and!.
    + split; [|done]. rewrite fold_snoc, wrap_small; [done|]. 
      pose proof (len_encode_u16 (len ixs)). len_lia.
Qed.

Definition add_totals (totals : Z * Z) (l : SVMMessageAddressTableLookup) : Z * Z :=
  (wadd 32 totals.1 (len (writable_indexes l)), wadd 32 totals.2 (len (readonly_indexes l))).

Lemma denotes_lookup_frame totals :
  denotes (lookup_frame totals) (fun _ totals' e _ =>
    exists l, wf_lookup l /\ e = encode_lookup l /\ totals' = add_totals totals l).
Proof.
  eapply denotes_weaken.
  { unfold lookup_frame. denote. }
  intros o f e tail Ho Hl Hu8 _. split.
  - intros Hd. den_inv. subst. rewrite byte_array in * by done. subst.
    match goal with Hk : len ?k = size_of Pubkey
      |- context [?k ++ encode_u16 (len ?w) ++ _ ++ encode_u16 (len ?r) ++ _] =>
      exists (MkLookup (of_bytes k) w r) end.
    unfold wf_lookup, encode_lookup, encode_bytes, pod_ok. cbn [account_key writable_indexes readonly_indexes].
    rewrite to_of_bytes, <- !app_assoc, app_nil_r by done. split_and!; try done; lia.
  - intros (l & ([Hk _] & Hw & Hr) & -> & ->). unfold encode_lookup, encode_bytes in *.
    rewrite <- !app_assoc in *.
    apply (seq_den_intro _ _ _ tt); [done|]. eapply seq_den_intro; [split; [|done]; len_lia|].
    eapply (seq_den_intro _ _ _ tt); [apply byte_array; [len_lia|done]|].
    eapply seq_den_intro; [split; [|done]; len_lia|].
    by eapply (seq_den_last _ _ _ tt); [apply byte_array; [len_lia|done]|].
Qed.

(** The lookup totals do not wrap in a packet. *)
Lemma add_totals_sum ls w r :
  0 <= w -> 0 <= r ->
  w + Zsum (fun l => len (writable_indexes l)) ls <= U32_MAX ->
  r + Zsum (fun l => len (readonly_indexes l)) ls <= U32_MAX ->
  fold_left add_totals ls (w, r) =
  (w + Zsum (fun l => len (writable_indexes l)) ls, r + Zsum (fun l => len (readonly_indexes l)) ls).
Proof.
  revert w r. induction ls as [|l ls IH]; intros w r Hw Hr Hws Hrs; simpl; [f_equal; lia|].
  rewrite !Zsum_cons in *. unfold add_totals at 2. simpl.
  assert (0 <= Zsum (fun l => len (writable_indexes l)) ls) by (apply Zsum_nonneg; intros; apply len_nonneg).
  assert (0 <= Zsum (fun l => len (readonly_indexes l)) ls) by (apply Zsum_nonneg; intros; apply len_nonneg).
  rewrite !wadd_small by len_lia. rewrite IH by len_lia. f_equal; lia.
Qed.

Lemma lookup_totals_le ls :
  Zsum (fun l => len (writable_indexes l)) ls + Zsum (fun l => len (readonly_indexes l)) ls <=
  len (concat (encode_lookup <$> ls)).
Proof.
  rewrite len_concat, <- Zsum_plus. apply Zsum_le. intros l _. unfold encode_lookup, encode_bytes. len_lia.
Qed.

Lemma lookup_totals ls n : len (concat (encode_lookup <$> ls)) <= n -> n <= U16_MAX ->
  fold_left add_totals ls (0, 0) =
    (Zsum (fun l => len (writable_indexes l)) ls, Zsum (fun l => len (readonly_indexes l)) ls) /\
  Zsum (fun l => len (writable_indexes l)) ls <= U16_MAX /\
  Zsum (fun l => len (readonly_indexes l)) ls <= U16_MAX.
Proof.
  intros Hl Hn. pose proof (lookup_totals_le ls).
  assert (0 <= Zsum (fun l => len (writable_indexes l)) ls) by (apply Zsum_nonneg; intros; apply len_nonneg).
  assert (0 <= Zsum (fun l => len (readonly_indexes l)) ls) by (apply Zsum_nonneg; intros; apply len_nonneg).
  rewrite add_totals_sum; unfold word_max in *; split_and?; try lia. done.
Qed.

Definition lookups_den (o : Z) (f : AddressTableLookupFrame) (e tail : list Z) : Prop :=
  exists ls, len ls <= MAX_ATLS_PER_PACKET /\ Forall wf_lookup ls /\
    MIN_SIZED_ATL * len ls <= len (concat (encode_lookup <$> ls) ++ tail) /\
    e = len ls :: concat (encode_lookup <$> ls) /\
    f = MkAddressTableLookupFrame (len ls) (o + 1)
          (Zsum (fun l => len (writable_indexes l)) ls) (Zsum (fun l => len (readonly_indexes l)) ls).

Lemma denotes_lookups_frame : denotes AddressTableLookupFrame_try_new lookups_den.
Proof.
  eapply denotes_weaken.
  { unfold AddressTableLookupFrame_try_new, u16_try_from. denote. apply denotes_loop, denotes_lookup_frame. }
  unfold lookups_den. intros o f e tail Ho Hl Hu8 _. rewrite MAX_ATLS_31. unfold MIN_SIZED_ATL.
  change (size_of Pubkey) with 32. split.
  - intros Hd. den_inv. destruct (_ >? _) eqn:E; [done|]. bool_to_prop. den_inv.
    match goal with Hd : loop_den _ _ _ _ _ _ _ |- _ =>
      apply (loop_den_items _ encode_lookup wf_lookup add_totals)
        in Hd as (ls & Hn & Hwf & -> & ->); [|done] end. subst.
    assert (x = len ls) as -> by (unfold len, in_word in *; lia). exists ls.
    destruct (lookup_totals ls U16_MAX) as (Ht & Htw & Htr); [len_lia|done|]. rewrite Ht in *. simpl in *.
    rewrite !(proj2 (Z.leb_le _ _)) in * by done. den_inv. subst. rewrite wrap_small in * by len_lia.
    rewrite !app_nil_r in *. split_and!; try done. f_equal. len_lia.
  - intros (ls & Hn & Hwf & Hmin & -> & ->).
    destruct (lookup_totals ls U16_MAX) as (Ht & Htw & Htr); [len_lia|done|].
    apply (seq_den_intro _ _ o (len ls) _ [_]); [split; [done|len_lia]|].
    rewrite Z.gtb_ltb, (proj2 (Z.ltb_ge _ _)) by lia.
    apply (seq_den_pure _ _ _ tt); [split; [done|]; rewrite wrap_small by len_lia; done|].
    eapply seq_den_pure; [done|]. eapply seq_den_last.
    { apply (loop_den_items _ encode_lookup wf_lookup add_totals); [done|].
      exists ls. rewrite len_to_nat. by split_and!. }
    simpl. rewrite !(proj2 (Z.leb_le _ _)) by done.
    eapply seq_den_pure; [done|]. eapply seq_den_pure; [done|].
    split; [|done]. f_equal. rewrite wrap_small; len_lia.
Qed.

(** ** The whole packet *)

Definition lookups_or_none_den (v : TransactionVersion) (o : Z) (f : AddressTableLookupFrame)
    (e tail : list Z) : Prop :=
  match v with
  | Legacy => f = MkAddressTableLookupFrame 0 0 0 0 /\ e = []
  | V0 => lookups_den o f e tail
  end.

Definition transaction_den : Z -> TransactionFrame -> list Z -> list Z -> Prop :=
  seq_den signature_den (fun signature =>
  seq_den message_header_den (fun message_header =>
  seq_den static_account_keys_den (fun static_account_keys =>
  seq_den (fun o a e _ => a = o /\ e = []) (fun offset =>
  seq_den (fun _ (_ : unit) e _ => len e = size_of Hash) (fun _ =>
  seq_den instructions_den (fun instructions =>
  seq_den (lookups_or_none_den (version message_header)) (fun lookups _ f e _ =>
    f = MkTransactionFrame signature message_header static_account_keys (wrap 16 offset)
          instructions lookups /\ e = []))))))).

Lemma denotes_transaction_frame : denotes transaction_frame transaction_den.
Proof.
  unfold transaction_frame, transaction_den.
  apply denotes_bind; [apply denotes_signature_frame|intros s].
  apply denotes_bind; [apply denotes_message_header_frame|intros h].
  apply denotes_bind; [apply denotes_static_account_keys_frame|intros k].
  apply denotes_bind; [apply denotes_tell|intros o].
  apply denotes_bind; [apply (denotes_advance_type Hash)|intros _].
  apply denotes_bind; [apply denotes_instructions_frame|intros i].
  apply denotes_bind; [|intros l; apply denotes_ret].
  destruct (version h); [apply denotes_ret|apply denotes_lookups_frame].
Qed.

Lemma transaction_den_sound f bytes :
  packet bytes -> transaction_den 0 f bytes [] ->
  exists t, wf_transaction t /\ bytes = encode t /\ f = frame_of t.
Proof.
  intros Hb%packet_bound Hd. unfold transaction_den in Hd. den_inv.
  destruct H1 as (sigs & Hsigs & Hsok & -> & ->), H2 as (v & nreq & ns & nu & Hlegacy & -> & ->).
  destruct H3 as (keys & Hkeys & Hkok & -> & ->), H6 as (ixs & Hixs & Hiok & -> & ->).
  cbn [version] in *. subst. change (len (@nil Z)) with 0 in *. rewrite app_nil_r, !Z.add_0_r, !Z.add_0_l, H5.
  rewrite app_nil_r in Hb. rewrite !Z.add_0_r, !Z.add_0_l, H5 in H7.
  rewrite wrap_small by (destruct v; len_lia). unfold lookups_or_none_den, lookups_den in H7.
  destruct v.
  - destruct H7 as [-> ->].
    by exists (MkTransaction sigs Legacy nreq ns nu keys (MkHash x9) ixs []).
  - destruct H7 as (ls & Hls & Hlok & Hmin & -> & ->). rewrite app_nil_r in Hmin.
    by exists (MkTransaction sigs V0 nreq ns nu keys (MkHash x9) ixs ls).
Qed.

Lemma transaction_den_complete t :
  packet (encode t) -> wf_transaction t -> transaction_den 0 (frame_of t) (encode t) [].
Proof.
  intros Hb%packet_bound (Hsigs & Hlegacy & Hkeys & [Hhash _] & Hixs & Hls). unfold encode in Hb.
  apply (seq_den_intro _ _ _ (MkSignatureFrame (len (tx_signatures t)) 1)).
  { exists (tx_signatures t). by destruct Hsigs. }
  apply (seq_den_intro _ _ _ (message_header (frame_of t))); [by eexists _, _, _, _|].
  apply (seq_den_intro _ _ _ (static_account_keys_frame (frame_of t))).
  { exists (tx_account_keys t). by destruct Hkeys. }
  eapply seq_den_pure; [done|]. apply (seq_den_intro _ _ _ tt); [done|].
  apply (seq_den_intro _ _ _ (Frames.instructions (frame_of t))).
  { exists (tx_instructions t). destruct Hixs. split_and!; try done. by rewrite Hhash. }
  apply (seq_den_last _ _ _ (lookups_frame_of t)).
  - unfold lookups_or_none_den, lookups_frame_of, encode_lookups, wf_lookups in *. simpl.
    destruct (tx_version t); [done|]. destruct Hls as (? & ? & ?).
    exists (tx_lookups t). rewrite app_nil_r. split_and!; try done. rewrite Hhash. f_equal.
  - split; [|done]. unfold frame_of. f_equal. rewrite wrap_small; [done|]. len_lia.
Qed.

Lemma transaction_frame_spec bytes f :
  packet bytes ->
  TransactionFrame_try_new bytes = Ok f <->
  exists t, wf_transaction t /\ bytes = encode t /\ f = frame_of t.
Proof.
  intros Hb. unfold TransactionFrame_try_new.
  split.
  - destruct (transaction_frame bytes 0) as [[f'|] o] eqn:E; [|done].
    apply (denotes_transaction_frame [] bytes f' o Hb) in E as (e & tail & Hbytes & He & ->). split_if; [done|]. intros [= ->]. bool_to_prop. subst.
    change (len (@nil Z)) with 0 in *. assert (tail = []) as -> by (apply len_0; len_lia).
    rewrite app_nil_r in *. by apply transaction_den_sound.
  - intros (t & Ht & -> & ->). change (transaction_frame (encode t) 0) with
      (transaction_frame ([] ++ encode t) (len (@nil Z))).
    rewrite (proj2 (denotes_transaction_frame [] (encode t) (frame_of t) (len (encode t)) Hb)).
    + by rewrite Z.eqb_refl.
    + exists (encode t), []. rewrite app_nil_r. split_and!; [done|by apply transaction_den_complete|done].
Qed.

End Frames.
End Frames.
