(* ===== verification/TransactionView.v ===== *)
(** * Views of serialized transactions

    The accessors of src/transaction-view read a packet in place through its
    frame, without checks: [Views] has them with their iterators, and the
    sanitization that turns an unsanitized view into a sanitized one;
    [Resolved] has the view with its address lookups resolved and its cache of
    writable accounts. An access that would leave the packet, or an index that
    would panic, is [None]. *)

From S2P Require Import Prelude Accounts ComputeBudget TransactionBytes TransactionFrames.

(** ** Iterators *)
Section Iterators.
Context {It Item : Type} (next : It -> option (option Item * It)).

(** [for x in it { body }], where the body may panic or return early; out of
    fuel is [None]. *)
Fixpoint for_each {S E} (fuel : nat) (body : S -> Item -> option (result E S)) (it : It) (s : S) :
    option (result E S) :=
  match fuel with
  | O => None
  | Datatypes.S fuel =>
      match next it with
      | None => None
      | Some (None, _) => Some (Ok s)
      | Some (Some x, it) =>
          match body s x with
          | None => None
          | Some (Err e) => Some (Err e)
          | Some (Ok s) => for_each fuel body it s
          end
      end
  end.

Definition collect (fuel : nat) (it : It) : option (list Item) :=
  match for_each (E := Empty_set) fuel (fun l x => Some (Ok (l ++ [x]))) it [] with
  | Some (Ok l) => Some l
  | _ => None
  end.

(** The iterator gives these items and then ends, without leaving the packet. *)
Inductive yields : It -> list Item -> Prop :=
| yields_end it it' : next it = Some (None, it') -> yields it []
| yields_next it x it' xs : next it = Some (Some x, it') -> yields it' xs -> yields it (x :: xs).

(** With a turn for every item, the loop runs over all of them. *)
Lemma for_each_spec {S E} (body : S -> Item -> option (result E S)) it xs :
  yields it xs -> forall fuel s, (length xs < fuel)%nat ->
  for_each fuel body it s = try_fold body s xs.
Proof.
  induction 1 as [it it' Hn|it x it' xs Hn _ IH]; intros [|fuel] s Hf; simpl in *; try lia; rewrite Hn; [done|].
  destruct (body s x) as [[|]|]; [|done..]. apply IH. lia.
Qed.

Lemma collect_spec it xs fuel : yields it xs -> (length xs < fuel)%nat -> collect fuel it = Some xs.
Proof.
  intros Hy Hf. unfold collect. rewrite (for_each_spec _ it xs) by done.
  assert (forall ys l, try_fold (E := Empty_set) (fun l x => Some (Ok (l ++ [x]))) l ys = Some (Ok (l ++ ys))) as ->; [|done].
  induction ys as [|y ys IH]; intros l; simpl; [by rewrite app_nil_r|]. by rewrite IH, <- app_assoc.
Qed.

(** A check of every item. *)
Lemma try_fold_check {E} (body : unit -> Item -> result E unit) (ok : Item -> bool) (err : E) xs :
  (forall x, body tt x = if ok x then Ok tt else Err err) ->
  try_fold (fun s x => Some (body s x)) tt xs = Some (if forallb ok xs then Ok tt else Err err).
Proof.
  intros Hb. induction xs as [|x xs IH]; [done|]. simpl. rewrite Hb. destruct (ok x); [done|done].
Qed.
End Iterators.

(** ** Views *)
Module Views.
Section Views.
Context `{PacketSdk}.

(** [TransactionView<SANITIZED, D>]; the container [D] is the bytes it holds. *)
Record TransactionView (SANITIZED : bool) : Type := MkView {
  view_data : list Z;
  frame : Frames.TransactionFrame
}.
#[global] Arguments MkView {SANITIZED} view_data frame.
#[global] Arguments view_data {SANITIZED} t.
#[global] Arguments frame {SANITIZED} t.

Definition try_new_unsanitized (bytes : list Z) : result TransactionViewError (TransactionView false) :=
  frame ← Frames.TransactionFrame_try_new bytes;
  Ok (MkView bytes frame).

Section Accessors.
Context {SANITIZED : bool} (view : TransactionView SANITIZED).

Definition num_signatures : Z := Frames.num_signatures (Frames.signature (frame view)).
Definition version : TransactionVersion := Frames.version (Frames.message_header (frame view)).
Definition num_required_signatures : Z :=
  Frames.num_required_signatures (Frames.message_header (frame view)).
Definition num_readonly_signed_static_accounts : Z :=
  Frames.num_readonly_signed_accounts (Frames.message_header (frame view)).
Definition num_readonly_unsigned_static_accounts : Z :=
  Frames.num_readonly_unsigned_accounts (Frames.message_header (frame view)).
Definition num_static_account_keys : Z :=
  Frames.num_static_accounts (Frames.static_account_keys_frame (frame view)).
Definition num_instructions : Z := Frames.num_instructions (Frames.instructions (frame view)).
Definition num_address_table_lookups : Z :=
  Frames.num_address_table_lookups (Frames.address_table_lookup (frame view)).
Definition total_writable_lookup_accounts : Z :=
  Frames.total_writable_lookup_accounts (Frames.address_table_lookup (frame view)).
Definition total_readonly_lookup_accounts : Z :=
  Frames.total_readonly_lookup_accounts (Frames.address_table_lookup (frame view)).

Definition signatures : option (list Signature) :=
  ptr ← ptr_add (view_data view) (Frames.signature_offset (Frames.signature (frame view)));
  from_raw_parts Signature (view_data view) ptr num_signatures.

Definition static_account_keys : option (list Pubkey) :=
  ptr ← ptr_add (view_data view)
          (Frames.static_accounts_offset (Frames.static_account_keys_frame (frame view)));
  from_raw_parts Pubkey (view_data view) ptr num_static_account_keys.

Definition recent_blockhash : option Hash :=
  ptr ← ptr_add (view_data view) (Frames.recent_blockhash_offset (frame view));
  deref Hash (view_data view) ptr.

(** [&self.data()[message_offset..]]. *)
Definition message_data : option (list Z) :=
  let start := Frames.message_offset (Frames.message_header (frame view)) in
  if start <=? len (view_data view) then Some (drop (Z.to_nat start) (view_data view)) else None.

End Accessors.

Record InstructionsIterator : Type := MkInstructionsIterator {
  ixs_bytes : list Z;
  ixs_offset : Z;
  ixs_num : Z;
  ixs_index : Z;
  ixs_frames : list Frames.InstructionFrame
}.

(** [InstructionsIterator::next]. *)
Definition next_instruction (it : InstructionsIterator) :
    option (option SVMInstruction * InstructionsIterator) :=
  if ixs_index it <? ixs_num it then
    f ← ixs_frames it !! Z.to_nat (ixs_index it);
    let index := wadd 16 (ixs_index it) 1 in
    '(program_id_index, offset) ← unchecked_read_byte (ixs_bytes it) (ixs_offset it);
    let offset := wadd 64 offset (Frames.num_accounts_len f) in
    '(accounts, offset) ← unchecked_read_slice_data Z (ixs_bytes it) offset (Frames.num_accounts f);
    let offset := wadd 64 offset (Frames.data_len_len f) in
    '(data, offset) ← unchecked_read_slice_data Z (ixs_bytes it) offset (Frames.data_len f);
    Some (Some (MkInstruction (Z.to_nat program_id_index) accounts data),
          MkInstructionsIterator (ixs_bytes it) offset (ixs_num it) index (ixs_frames it))
  else Some (None, it).

(** [InstructionsIterator::len]. *)
Definition instructions_len (it : InstructionsIterator) : Z := wsub 16 (ixs_num it) (ixs_index it).

Record AddressTableLookupIterator : Type := MkAddressTableLookupIterator {
  atl_bytes : list Z;
  atl_offset : Z;
  atl_num : Z;
  atl_index : Z
}.

(** [AddressTableLookupIterator::next]. *)
Definition next_lookup (it : AddressTableLookupIterator) :
    option (option SVMMessageAddressTableLookup * AddressTableLookupIterator) :=
  let bytes := atl_bytes it in
  if atl_index it <? atl_num it then
    let at_offset offset := MkAddressTableLookupIterator bytes offset (atl_num it) (wadd 8 (atl_index it) 1) in
    '(r, offset) ← read_type Pubkey bytes (atl_offset it);
    match r with
    | Err _ => Some (None, at_offset offset)
    | Ok account_key =>
    match optimized_read_compressed_u16 bytes offset with
    | (Err _, offset) => Some (None, at_offset offset)
    | (Ok num_write_accounts, offset) =>
    '(r, offset) ← read_slice_data Z bytes offset num_write_accounts;
    match r with
    | Err _ => Some (None, at_offset offset)
    | Ok writable_indexes =>
    match optimized_read_compressed_u16 bytes offset with
    | (Err _, offset) => Some (None, at_offset offset)
    | (Ok num_read_accounts, offset) =>
    '(r, offset) ← read_slice_data Z bytes offset num_read_accounts;
    match r with
    | Err _ => Some (None, at_offset offset)
    | Ok readonly_indexes =>
        Some (Some (MkLookup account_key writable_indexes readonly_indexes), at_offset offset)
    end end end end end
  else Some (None, it).

(** [AddressTableLookupIterator::len]. *)
Definition lookups_len (it : AddressTableLookupIterator) : Z := wsub 8 (atl_num it) (atl_index it).

Definition instructions_iter {S} (view : TransactionView S) : InstructionsIterator :=
  MkInstructionsIterator (view_data view)
    (Frames.instructions_offset (Frames.instructions (frame view)))
    (num_instructions view) 0
    (Frames.frames (Frames.instructions (frame view))).

Definition address_table_lookup_iter {S} (view : TransactionView S) : AddressTableLookupIterator :=
  MkAddressTableLookupIterator (view_data view)
    (Frames.address_table_lookups_offset (Frames.address_table_lookup (frame view)))
    (num_address_table_lookups view) 0.

(** One more turn than there are items. *)
Definition instructions_fuel {S} (view : TransactionView S) : nat :=
  Datatypes.S (Z.to_nat (num_instructions view)).
Definition lookups_fuel {S} (view : TransactionView S) : nat :=
  Datatypes.S (Z.to_nat (num_address_table_lookups view)).

Definition instructions {S} (view : TransactionView S) : option (list SVMInstruction) :=
  collect next_instruction (instructions_fuel view) (instructions_iter view).

Definition address_table_lookups {S} (view : TransactionView S) :
    option (list SVMMessageAddressTableLookup) :=
  collect next_lookup (lookups_fuel view) (address_table_lookup_iter view).

(** ** Sanitization *)

Definition total_number_of_accounts (view : TransactionView false) : Z :=
  sat_add 16 (sat_add 16 (num_static_account_keys view) (total_writable_lookup_accounts view))
    (total_readonly_lookup_accounts view).

Definition sanitize_signatures (view : TransactionView false) : result TransactionViewError unit :=
  if negb (num_signatures view =? num_required_signatures view) then Err SanitizeError
  else if num_static_account_keys view <? num_signatures view then Err SanitizeError
  else Ok tt.

Definition sanitize_account_access (view : TransactionView false) : result TransactionViewError unit :=
  if num_readonly_unsigned_static_accounts view >?
     wsub 8 (num_static_account_keys view) (num_required_signatures view) then Err SanitizeError
  else if num_readonly_signed_static_accounts view >=? num_required_signatures view
  then Err SanitizeError
  else if total_number_of_accounts view >? 256 then Err SanitizeError
  else Ok tt.

(** [solana_transaction_context::MAX_INSTRUCTION_TRACE_LENGTH]. *)
Definition MAX_INSTRUCTION_TRACE_LENGTH : Z := 64.

(** The checks of one instruction. *)
Definition sanitize_instruction (max_program_id_index max_account_index : Z) (_ : unit)
    (instruction : SVMInstruction) : result TransactionViewError unit :=
  if Z.of_nat (program_id_index instruction) >? max_program_id_index then Err SanitizeError
  else if Z.of_nat (program_id_index instruction) =? 0 then Err SanitizeError
  else if existsb (fun account_index => account_index >? max_account_index) (accounts instruction)
  then Err SanitizeError
  else Ok tt.

Definition sanitize_instructions (view : TransactionView false) (enable_static_instruction_limit : bool) :
    option (result TransactionViewError unit) :=
  if enable_static_instruction_limit && (num_instructions view >? MAX_INSTRUCTION_TRACE_LENGTH)
  then Some (Err SanitizeError)
  else
    let max_program_id_index := wsub 8 (num_static_account_keys view) 1 in
    let max_account_index := wrap 8 (wsub 16 (total_number_of_accounts view) 1) in
    for_each next_instruction (instructions_fuel view)
      (fun s ix => Some (sanitize_instruction max_program_id_index max_account_index s ix))
      (instructions_iter view) tt.

Definition sanitize_lookup (_ : unit) (l : SVMMessageAddressTableLookup) :
    result TransactionViewError unit :=
  if bool_decide (writable_indexes l = []) && bool_decide (readonly_indexes l = [])
  then Err SanitizeError else Ok tt.

Definition sanitize_address_table_lookups (view : TransactionView false) :
    option (result TransactionViewError unit) :=
  for_each next_lookup (lookups_fuel view) (fun s l => Some (sanitize_lookup s l))
    (address_table_lookup_iter view) tt.

Definition sanitize_checks (view : TransactionView false) (enable_static_instruction_limit : bool) :
    option (result TransactionViewError unit) :=
  match sanitize_signatures view with
  | Err e => Some (Err e)
  | Ok _ =>
  match sanitize_account_access view with
  | Err e => Some (Err e)
  | Ok _ =>
  r ← sanitize_instructions view enable_static_instruction_limit;
  match r with
  | Err e => Some (Err e)
  | Ok _ => sanitize_address_table_lookups view
  end end end.

(** [TransactionView::<false, _>::sanitize]. *)
Definition sanitize (view : TransactionView false) (enable_static_instruction_limit : bool) :
    option (result TransactionViewError (TransactionView true)) :=
  r ← sanitize_checks view enable_static_instruction_limit;
  match r with
  | Err e => Some (Err e)
  | Ok _ => Some (Ok (MkView (view_data view) (frame view)))
  end.

Definition try_new_sanitized (bytes : list Z) (enable_static_instruction_limit : bool) :
    option (result TransactionViewError (TransactionView true)) :=
  match try_new_unsanitized bytes with
  | Err e => Some (Err e)
  | Ok unsanitized_view => sanitize unsanitized_view enable_static_instruction_limit
  end.

(** ** Accessors of sanitized views *)

(** [static_account_keys()[program_id_index]] for each instruction. *)
Definition program_instructions (view : TransactionView true) : option (list (Pubkey * SVMInstruction)) :=
  ixs ← instructions view;
  mapM (fun ix =>
    keys ← static_account_keys view;
    program_id ← keys !! program_id_index ix;
    Some (program_id, ix)) ixs.

Definition num_static_unsigned_static_accounts (view : TransactionView true) : Z :=
  wsub 8 (num_static_account_keys view) (num_required_signatures view).

Definition num_writable_unsigned_static_accounts (view : TransactionView true) : Z :=
  wsub 8 (num_static_unsigned_static_accounts view) (num_readonly_unsigned_static_accounts view).

Definition num_writable_signed_static_accounts (view : TransactionView true) : Z :=
  wsub 8 (num_required_signatures view) (num_readonly_signed_static_accounts view).

Definition total_num_accounts (view : TransactionView true) : Z :=
  wadd 16 (wadd 16 (num_static_account_keys view) (total_writable_lookup_accounts view))
    (total_readonly_lookup_accounts view).

Definition num_requested_write_locks (view : TransactionView true) : Z :=
  wadd 16
    (wsub 8 (wsub 8 (num_static_account_keys view) (num_readonly_signed_static_accounts view))
       (num_readonly_unsigned_static_accounts view))
    (total_writable_lookup_accounts view).

(** ** Views of encodings *)
Context `{!PacketSdkLaws}.

Definition view_of {S} (t : Frames.Transaction) : TransactionView S :=
  MkView (Frames.encode t) (Frames.frame_of t).

Lemma wadd_len pre x (l tail : list Z) n :
  packet (pre ++ l ++ tail) -> x = len pre -> n = len l -> wadd 64 x n = len (pre ++ l).
Proof. intros Hb -> ->. rewrite (wadd_packet _ _ _ Hb) by len_lia. len_lia. Qed.

(** One turn of the instruction iterator. *)
Lemma next_instruction_spec bytes pre ix tail num index frames :
  packet bytes -> bytes = pre ++ Frames.encode_instruction ix ++ tail ->
  frames !! Z.to_nat index = Some (Frames.instruction_frame_of ix) ->
  0 <= index < num -> num <= U16_MAX ->
  next_instruction (MkInstructionsIterator bytes (len pre) num index frames) =
  Some (Some ix, MkInstructionsIterator bytes (len (pre ++ Frames.encode_instruction ix)) num (index + 1) frames).
Proof.
  intros Hb -> Hf Hi Hnum. unfold next_instruction. cbn [ixs_index ixs_num ixs_frames ixs_bytes ixs_offset].
  rewrite (proj2 (Z.ltb_lt _ _)) by lia. rewrite Hf. simpl.
  unfold Frames.encode_instruction, Frames.encode_bytes in *. cbn [app] in *.
  rewrite unchecked_read_byte_spec by done. cbn [mbind option_bind].
  replace (len pre + 1) with (len (pre ++ [Z.of_nat (program_id_index ix)])) by len_lia.
  rewrite cons_middle, app_assoc in Hb |- *. rewrite <- !app_assoc in Hb |- *. rewrite (app_assoc pre [_]) in Hb |- *.
  rewrite (wadd_len _ _ _ _ _ Hb) by done. rewrite app_assoc in Hb |- *.
  rewrite unchecked_read_bytes_spec by done. cbn [mbind option_bind]. rewrite <- len_app.
  rewrite app_assoc in Hb |- *.
  rewrite (wadd_len _ _ _ _ _ Hb) by done. rewrite app_assoc in Hb |- *.
  rewrite unchecked_read_bytes_spec by done. cbn [mbind option_bind]. rewrite <- len_app.
  rewrite (wadd_small 16) by (unfold word_max in *; lia). rewrite Nat2Z.id. 
  destruct ix as [pid accs d]. cbn [program_id_index accounts data]. rewrite <- !app_assoc. done.
Qed.

Lemma yields_instructions bytes num frames ixs : forall pre tail index,
  packet bytes -> bytes = pre ++ concat (Frames.encode_instruction <$> ixs) ++ tail ->
  drop (Z.to_nat index) frames = Frames.instruction_frame_of <$> ixs ->
  0 <= index -> num = index + len ixs -> num <= U16_MAX ->
  yields next_instruction (MkInstructionsIterator bytes (len pre) num index frames) ixs.
Proof.
  induction ixs as [|ix ixs IH]; intros pre tail index Hb Hbytes Hd Hi Hnum Hmax.
  - eapply yields_end. unfold next_instruction. cbn [ixs_index ixs_num].
    rewrite (proj2 (Z.ltb_ge _ _)) by len_lia. done.
  - rewrite fmap_cons in Hbytes. cbn [concat] in Hbytes. rewrite <- app_assoc in Hbytes.
    eapply yields_next.
    + apply (next_instruction_spec bytes pre ix _ _ _ _ Hb Hbytes); [|len_lia|done].
      rewrite <- (Nat.add_0_r (Z.to_nat index)), <- lookup_drop, Hd. done.
    + eapply IH; [done| | |lia|len_lia|done].
      * rewrite Hbytes. by rewrite <- app_assoc.
      * replace (Z.to_nat (index + 1)) with (Z.to_nat index + 1)%nat by lia.
        rewrite <- drop_drop, Hd. done.
Qed.

(** One turn of the lookup iterator. *)
Lemma optimized_read_encoded pre v tail :
  packet (pre ++ encode_u16 v ++ tail) -> 0 <= v < 16384 ->
  optimized_read_compressed_u16 (pre ++ encode_u16 v ++ tail) (len pre) =
  (Ok v, len (pre ++ encode_u16 v)).
Proof.
  intros Hb Hv. apply (denotes_optimized_read pre _ _ _ Hb). exists (encode_u16 v), tail.
  split_and!; try done; len_lia.
Qed.

Lemma next_lookup_spec bytes pre l tail num index :
  packet bytes -> bytes = pre ++ Frames.encode_lookup l ++ tail -> Frames.wf_lookup l ->
  0 <= index < num -> num <= word_max 8 ->
  next_lookup (MkAddressTableLookupIterator bytes (len pre) num index) =
  Some (Some l, MkAddressTableLookupIterator bytes (len (pre ++ Frames.encode_lookup l)) num (index + 1)).
Proof.
  intros Hb -> (Hk & Hw & Hr) Hi Hnum. pose proof (proj1 Hk) as Hlen.
  unfold next_lookup. cbn [atl_index atl_num atl_bytes atl_offset].
  rewrite (proj2 (Z.ltb_lt _ _)) by lia.
  unfold Frames.encode_lookup, Frames.encode_bytes in *. rewrite <- !app_assoc in Hb |- *.
  rewrite read_type_spec by done. cbn [mbind option_bind]. rewrite <- Hlen, <- len_app.
  rewrite app_assoc in Hb |- *. rewrite optimized_read_encoded by (done || len_lia).
  rewrite app_assoc in Hb |- *. rewrite read_bytes_spec by done. cbn [mbind option_bind]. rewrite <- len_app.
  rewrite app_assoc in Hb |- *. rewrite optimized_read_encoded by (done || len_lia).
  rewrite app_assoc in Hb |- *. rewrite read_bytes_spec by done. cbn [mbind option_bind]. rewrite <- len_app.
  rewrite (wadd_small 8) by (unfold word_max in *; lia).
  destruct l as [k w r]. cbn [account_key writable_indexes readonly_indexes].
  rewrite <- !app_assoc. done.
Qed.

Lemma yields_lookups bytes num ls : forall pre tail index,
  packet bytes -> bytes = pre ++ concat (Frames.encode_lookup <$> ls) ++ tail ->
  Forall Frames.wf_lookup ls -> 0 <= index -> num = index + len ls -> num <= word_max 8 ->
  yields next_lookup (MkAddressTableLookupIterator bytes (len pre) num index) ls.
Proof.
  induction ls as [|l ls IH]; intros pre tail index Hb Hbytes Hwf Hi Hnum Hmax.
  - eapply yields_end. unfold next_lookup. cbn [atl_index atl_num].
    rewrite (proj2 (Z.ltb_ge _ _)) by len_lia. done.
  - rewrite fmap_cons in Hbytes. cbn [concat] in Hbytes. rewrite <- app_assoc in Hbytes.
    apply Forall_cons in Hwf as [Hl Hwf]. eapply yields_next.
    + apply (next_lookup_spec bytes pre l _ _ _ Hb Hbytes); [done|len_lia|done].
    + eapply IH; [done| |done|lia|len_lia|done]. rewrite Hbytes. by rewrite <- app_assoc.
Qed.

(** ** Accessors give back what was encoded *)
Section Encoded.
Context (t : Frames.Transaction) (Hwf : Frames.wf_transaction t) (Hb : packet (Frames.encode t)).
Context {S : bool}.

(** A part of an encoding starts where the frame says. *)
Definition part_at (part : list Z) (offset : Z) : Prop :=
  exists pre post, Frames.encode t = pre ++ part ++ post /\ len pre = offset.

Lemma signatures_at : part_at (concat (to_bytes <$> Frames.tx_signatures t)) 1.
Proof. by eexists [_], _. Qed.

Lemma keys_at : part_at (concat (to_bytes <$> Frames.tx_account_keys t)) (Frames.keys_start t).
Proof.
  exists (Frames.encode_signatures t ++ Frames.encode_header t ++ [len (Frames.tx_account_keys t)]).
  eexists. split.
  - unfold Frames.encode, Frames.encode_keys. rewrite <- !app_assoc. done.
  - unfold Frames.keys_start, Frames.message_start. len_lia.
Qed.

Lemma blockhash_at : part_at (to_bytes (Frames.tx_blockhash t)) (Frames.blockhash_start t).
Proof.
  exists (Frames.encode_signatures t ++ Frames.encode_header t ++ Frames.encode_keys t). eexists. split.
  - unfold Frames.encode. by rewrite <- !app_assoc.
  - unfold Frames.blockhash_start, Frames.message_start. len_lia.
Qed.

Lemma instructions_at :
  part_at (concat (Frames.encode_instruction <$> Frames.tx_instructions t)) (Frames.instructions_start t).
Proof.
  exists (Frames.encode_signatures t ++ Frames.encode_header t ++ Frames.encode_keys t ++
          to_bytes (Frames.tx_blockhash t) ++ encode_u16 (len (Frames.tx_instructions t))).
  eexists. split.
  - unfold Frames.encode, Frames.encode_instructions. by rewrite <- !app_assoc.
  - destruct Hwf as (_ & _ & _ & [Hh _] & _).
    unfold Frames.instructions_start, Frames.blockhash_start, Frames.message_start. len_lia.
Qed.

Lemma lookups_at :
  Frames.tx_version t = V0 ->
  part_at (concat (Frames.encode_lookup <$> Frames.tx_lookups t)) (Frames.lookups_start t).
Proof.
  intros Hv. exists (Frames.encode_signatures t ++ Frames.encode_header t ++ Frames.encode_keys t ++
          to_bytes (Frames.tx_blockhash t) ++ Frames.encode_instructions t ++ [len (Frames.tx_lookups t)]).
  exists []. split.
  - unfold Frames.encode, Frames.encode_lookups. rewrite Hv, app_nil_r, <- !app_assoc. done.
  - destruct Hwf as (_ & _ & _ & [Hh _] & _).
    unfold Frames.lookups_start, Frames.blockhash_start, Frames.message_start. len_lia.
Qed.

Lemma signatures_encoded : signatures (view_of (S := S) t) = Some (Frames.tx_signatures t).
Proof.
  destruct signatures_at as (pre & post & He & Hpre), Hwf as ([_ Hok] & _).
  unfold signatures, view_of. cbn [view_data frame Frames.frame_of Frames.signature Frames.signature_offset].
  rewrite He, <- Hpre, ptr_add_spec. by apply (from_raw_parts_spec Signature).
Qed.

Lemma static_account_keys_encoded :
  static_account_keys (view_of (S := S) t) = Some (Frames.tx_account_keys t).
Proof.
  destruct keys_at as (pre & post & He & Hpre), Hwf as (_ & _ & [_ Hok] & _).
  unfold static_account_keys, view_of. cbn [view_data frame Frames.frame_of
    Frames.static_account_keys_frame Frames.static_accounts_offset].
  rewrite He, <- Hpre, ptr_add_spec. by apply (from_raw_parts_spec Pubkey).
Qed.

Lemma recent_blockhash_encoded : recent_blockhash (view_of (S := S) t) = Some (Frames.tx_blockhash t).
Proof.
  destruct blockhash_at as (pre & post & He & Hpre), Hwf as (_ & _ & _ & Hok & _).
  unfold recent_blockhash, view_of. cbn [view_data frame Frames.frame_of Frames.recent_blockhash_offset].
  rewrite He, <- Hpre, ptr_add_spec. by apply (deref_spec Hash).
Qed.

Lemma message_data_encoded :
  message_data (view_of (S := S) t) =
  Some (Frames.encode_header t ++ Frames.encode_keys t ++ to_bytes (Frames.tx_blockhash t) ++
        Frames.encode_instructions t ++ Frames.encode_lookups t).
Proof.
  unfold message_data, view_of. cbn [view_data frame Frames.frame_of Frames.message_header Frames.message_offset].
  unfold Frames.message_start, Frames.encode. rewrite (proj2 (Z.leb_le _ _)) by len_lia.
  by rewrite drop_len.
Qed.

Lemma instructions_yield :
  yields next_instruction (instructions_iter (view_of (S := S) t)) (Frames.tx_instructions t).
Proof.
  destruct instructions_at as (pre & post & He & Hpre), Hwf as (_ & _ & _ & _ & [Hn _] & _).
  unfold instructions_iter, num_instructions, view_of.
  cbn [view_data frame Frames.frame_of Frames.instructions Frames.instructions_offset Frames.num_instructions Frames.frames].
  rewrite <- Hpre. apply (yields_instructions _ _ _ _ pre post 0); try done. unfold word_max. lia.
Qed.

Lemma lookups_yield :
  yields next_lookup (address_table_lookup_iter (view_of (S := S) t)) (Frames.tx_lookups t).
Proof.
  destruct Hwf as (_ & _ & _ & _ & _ & Hls). pose proof Hls as Hls'. unfold Frames.wf_lookups in Hls.
  unfold address_table_lookup_iter, num_address_table_lookups, view_of. cbn [view_data frame Frames.frame_of
    Frames.address_table_lookup]. unfold Frames.lookups_frame_of.
  destruct (Frames.tx_version t) eqn:Hv; cbn [Frames.num_address_table_lookups Frames.address_table_lookups_offset].
  - rewrite Hls. by eapply yields_end.
  - destruct lookups_at as (pre & post & He & Hpre); [done|]. destruct Hls as (Hn & Hok & _).
    rewrite Frames.MAX_ATLS_31 in Hn. rewrite <- Hpre.
    apply (yields_lookups _ _ _ pre post 0); try done. unfold word_max. lia.
Qed.

Lemma num_lookups_encoded : num_address_table_lookups (view_of (S := S) t) = len (Frames.tx_lookups t).
Proof.
  destruct Hwf as (_ & _ & _ & _ & _ & Hls). unfold Frames.wf_lookups in Hls.
  unfold num_address_table_lookups, view_of. cbn [frame Frames.frame_of Frames.address_table_lookup].
  unfold Frames.lookups_frame_of. destruct (Frames.tx_version t); [by rewrite Hls|done].
Qed.

(** What a loop over the instructions or lookups of a view computes. *)
Lemma for_instructions {St E} (body : St -> SVMInstruction -> option (result E St)) s :
  for_each next_instruction (instructions_fuel (view_of (S := S) t)) body (instructions_iter (view_of (S := S) t)) s =
  try_fold body s (Frames.tx_instructions t).
Proof.
  apply for_each_spec; [apply instructions_yield|]. unfold instructions_fuel, num_instructions. simpl.
  rewrite len_to_nat. lia.
Qed.

Lemma for_lookups {St E} (body : St -> SVMMessageAddressTableLookup -> option (result E St)) s :
  for_each next_lookup (lookups_fuel (view_of (S := S) t)) body (address_table_lookup_iter (view_of (S := S) t)) s =
  try_fold body s (Frames.tx_lookups t).
Proof.
  apply for_each_spec; [apply lookups_yield|]. unfold lookups_fuel.
  rewrite num_lookups_encoded, len_to_nat. lia.
Qed.

Lemma instructions_encoded : instructions (view_of (S := S) t) = Some (Frames.tx_instructions t).
Proof.
  apply collect_spec; [apply instructions_yield|]. unfold instructions_fuel, num_instructions. simpl.
  rewrite len_to_nat. lia.
Qed.

Lemma lookups_encoded : address_table_lookups (view_of (S := S) t) = Some (Frames.tx_lookups t).
Proof.
  apply collect_spec; [apply lookups_yield|]. unfold lookups_fuel. rewrite num_lookups_encoded, len_to_nat. lia.
Qed.
End Encoded.

(** ** What the sanitizer accepts *)

Definition writable_lookups (t : Frames.Transaction) : Z :=
  Zsum (fun l => len (writable_indexes l)) (Frames.tx_lookups t).
Definition readonly_lookups (t : Frames.Transaction) : Z :=
  Zsum (fun l => len (readonly_indexes l)) (Frames.tx_lookups t).
Definition num_accounts (t : Frames.Transaction) : Z :=
  len (Frames.tx_account_keys t) + writable_lookups t + readonly_lookups t.

Definition sane_counts (t : Frames.Transaction) : bool :=
  (len (Frames.tx_signatures t) =? Frames.tx_num_required_signatures t) &&
  (Frames.tx_num_required_signatures t + Frames.tx_num_readonly_unsigned t <=? len (Frames.tx_account_keys t)) &&
  (Frames.tx_num_readonly_signed t <? Frames.tx_num_required_signatures t) &&
  (num_accounts t <=? 256).

Definition sane_instruction (t : Frames.Transaction) (ix : SVMInstruction) : bool :=
  (0 <? Z.of_nat (program_id_index ix)) &&
  (Z.of_nat (program_id_index ix) <? len (Frames.tx_account_keys t)) &&
  forallb (fun a => a <? num_accounts t) (accounts ix).

Definition sane_lookup (l : SVMMessageAddressTableLookup) : bool :=
  0 <? len (writable_indexes l) + len (readonly_indexes l).

Definition sane (enable_static_instruction_limit : bool) (t : Frames.Transaction) : bool :=
  sane_counts t &&
  (negb enable_static_instruction_limit || (len (Frames.tx_instructions t) <=? 64)) &&
  forallb (sane_instruction t) (Frames.tx_instructions t) &&
  forallb sane_lookup (Frames.tx_lookups t).

Section Sanitized.
Context (t : Frames.Transaction) (Hwf : Frames.wf_transaction t) (Hb : packet (Frames.encode t)).

Lemma lookups_nonneg : 0 <= writable_lookups t /\ 0 <= readonly_lookups t.
Proof. split; apply Zsum_nonneg; intros; apply len_nonneg. Qed.

Lemma header_bytes :
  is_u8 (Frames.tx_num_required_signatures t) /\ is_u8 (Frames.tx_num_readonly_signed t) /\
  is_u8 (Frames.tx_num_readonly_unsigned t).
Proof.
  destruct Hb as [Hu _]. unfold Frames.encode, Frames.encode_header in Hu.
  rewrite !Forall_app, !Forall_cons in Hu. tauto.
Qed.

Lemma lookup_totals_encoded {S} :
  total_writable_lookup_accounts (view_of (S := S) t) = writable_lookups t /\
  total_readonly_lookup_accounts (view_of (S := S) t) = readonly_lookups t.
Proof.
  destruct Hwf as (_ & _ & _ & _ & _ & Hls). unfold Frames.wf_lookups in Hls.
  unfold total_writable_lookup_accounts, total_readonly_lookup_accounts, view_of, writable_lookups, readonly_lookups.
  cbn [frame Frames.frame_of Frames.address_table_lookup]. unfold Frames.lookups_frame_of.
  destruct (Frames.tx_version t); [by rewrite Hls|done].
Qed.

Lemma keys_range : 1 <= len (Frames.tx_account_keys t) <= 38.
Proof. destruct Hwf as (_ & _ & [Hk _] & _). by rewrite Frames.MAX_STATIC_ACCOUNTS_38 in Hk. Qed.

Lemma total_number_of_accounts_encoded :
  total_number_of_accounts (view_of t) = Z.min (num_accounts t) U16_MAX.
Proof.
  unfold total_number_of_accounts. destruct (lookup_totals_encoded (S := false)) as [-> ->].
  pose proof lookups_nonneg. pose proof keys_range. unfold num_static_account_keys, num_accounts. simpl.
  unfold sat_add. unfold word_max. lia.
Qed.

Lemma sanitize_counts_spec :
  match sanitize_signatures (view_of t) with
  | Ok _ => sanitize_account_access (view_of t)
  | Err e => Err e
  end = if sane_counts t then Ok tt else Err SanitizeError.
Proof.
  pose proof header_bytes as (H1 & H2 & H3). pose proof keys_range as Hk. unfold in_word, word_max in *.
  unfold sanitize_signatures, sanitize_account_access, sane_counts. rewrite total_number_of_accounts_encoded.
  unfold num_signatures, num_required_signatures, num_static_account_keys,
    num_readonly_unsigned_static_accounts, num_readonly_signed_static_accounts, view_of. simpl.
  destruct (_ =? _) eqn:E1; simpl; [|done]. bool_to_prop. rewrite E1.
  destruct (len (Frames.tx_account_keys t) <? _) eqn:E2; bool_to_prop.
  { by rewrite (proj2 (Z.leb_gt _ _)) by lia. }
  rewrite wsub_small by (unfold word_max; lia).
  rewrite !Z.gtb_ltb, Z.geb_leb. unfold word_max. split_ifs; bool_to_prop; done || lia.
Qed.

Lemma sanitize_instruction_spec ix :
  sane_counts t = true ->
  sanitize_instruction (wsub 8 (len (Frames.tx_account_keys t)) 1)
    (wrap 8 (wsub 16 (total_number_of_accounts (view_of t)) 1)) tt ix =
  if sane_instruction t ix then Ok tt else Err SanitizeError.
Proof.
  intros Hc. pose proof keys_range as Hk. unfold sane_counts in Hc. bool_to_prop.
  pose proof lookups_nonneg. assert (1 <= num_accounts t) by (unfold num_accounts; lia).
  rewrite total_number_of_accounts_encoded, Z.min_l, !wsub_small by (unfold word_max; lia).
  rewrite wrap_small by lia. unfold sanitize_instruction, sane_instruction.
  replace (existsb (fun a => a >? num_accounts t - 1) (accounts ix))
    with (negb (forallb (fun a => a <? num_accounts t) (accounts ix))).
  - rewrite Z.gtb_ltb. destruct (forallb _ _); split_ifs; bool_to_prop; try done; try lia.
    all: destruct E; bool_to_prop; lia || done.
  - induction (accounts ix) as [|a l IH]; [done|]. simpl. rewrite <- IH, negb_andb. f_equal.
    destruct (a <? _) eqn:E1, (a >? _) eqn:E2; bool_to_prop; done || lia.
Qed.

Lemma sanitize_lookup_spec l :
  sanitize_lookup tt l = if sane_lookup l then Ok tt else Err SanitizeError.
Proof.
  unfold sanitize_lookup, sane_lookup. destruct l as [k [|] [|]]; simpl; try done.
  all: rewrite (proj2 (Z.ltb_lt _ _)); [done|len_lia].
Qed.

Lemma sanitize_checks_spec limit :
  sanitize_checks (view_of t) limit = Some (if sane limit t then Ok tt else Err SanitizeError).
Proof.
  unfold sanitize_checks, sane. pose proof sanitize_counts_spec as Hc.
  destruct (sanitize_signatures (view_of t)) as [[]|e]; [|by destruct (sane_counts t); simplify_eq].
  rewrite Hc. destruct (sane_counts t) eqn:Es; [|done]. cbn [andb]. unfold sanitize_instructions.
  change (num_instructions (view_of t)) with (len (Frames.tx_instructions t)).
  change (num_static_account_keys (view_of t)) with (len (Frames.tx_account_keys t)).
  unfold MAX_INSTRUCTION_TRACE_LENGTH. rewrite Z.gtb_ltb, Z.ltb_antisym.
  destruct limit; cbn [andb orb negb]; [destruct (_ <=? 64); cbn [andb orb negb]; [|done]|].
  all: rewrite (for_instructions t Hwf Hb), (try_fold_check _ (sane_instruction t) SanitizeError)
         by (intros; by apply sanitize_instruction_spec).
  all: destruct (forallb (sane_instruction t) _); cbn [andb mbind option_bind]; [|done].
  all: unfold sanitize_address_table_lookups.
  all: by rewrite (for_lookups t Hwf Hb), (try_fold_check _ sane_lookup SanitizeError)
         by apply sanitize_lookup_spec.
Qed.
End Sanitized.

Lemma try_new_encoded t :
  Frames.wf_transaction t -> packet (Frames.encode t) ->
  try_new_unsanitized (Frames.encode t) = Ok (view_of t).
Proof.
  intros Hwf Hb. unfold try_new_unsanitized.
  rewrite (proj2 (Frames.transaction_frame_spec (Frames.encode t) (Frames.frame_of t) Hb)); [done|].
  by exists t.
Qed.

Lemma try_new_accepts bytes v :
  packet bytes ->
  try_new_unsanitized bytes = Ok v <->
  exists t, Frames.wf_transaction t /\ bytes = Frames.encode t /\ v = view_of t.
Proof.
  intros Hb. split.
  - unfold try_new_unsanitized. rewrite result_bind_ok.
    intros (f & (t & Ht & -> & ->)%Frames.transaction_frame_spec & [= <-]); [|done]. by exists t.
  - intros (t & Ht & -> & ->). by apply try_new_encoded.
Qed.

Lemma encode_inj t1 t2 :
  Frames.wf_transaction t1 -> Frames.wf_transaction t2 -> packet (Frames.encode t1) ->
  Frames.encode t1 = Frames.encode t2 -> t1 = t2.
Proof.
  intros H1 H2 Hb He. assert (view_of (S := false) t1 = view_of t2) as Hv.
  { enough (Ok (E := TransactionViewError) (view_of (S := false) t1) = Ok (view_of t2)) by congruence.
    rewrite <- (try_new_encoded t1), <- (try_new_encoded t2); [by rewrite He|done|by rewrite <- He|done|done]. }
  pose proof (signatures_encoded t1 H1 (S := false)) as Hs. pose proof (static_account_keys_encoded t1 H1 (S := false)) as Hk.
  pose proof (recent_blockhash_encoded t1 H1 (S := false)) as Hh.
  pose proof (instructions_encoded t1 H1 Hb (S := false)) as Hi. pose proof (lookups_encoded t1 H1 Hb (S := false)) as Hl.
  assert (packet (Frames.encode t2)) as Hb2 by (by rewrite <- He).
  rewrite Hv in Hs, Hk, Hh, Hi, Hl.
  rewrite signatures_encoded in Hs by done. rewrite static_account_keys_encoded in Hk by done.
  rewrite recent_blockhash_encoded in Hh by done. rewrite instructions_encoded in Hi by done.
  rewrite lookups_encoded in Hl by done.
  pose proof (f_equal version Hv). pose proof (f_equal num_required_signatures Hv).
  pose proof (f_equal num_readonly_signed_static_accounts Hv).
  pose proof (f_equal num_readonly_unsigned_static_accounts Hv).
  clear Hv He H1 H2 Hb Hb2. destruct t1, t2.
  unfold version, num_required_signatures, num_readonly_signed_static_accounts,
    num_readonly_unsigned_static_accounts in *. simpl in *. congruence.
Qed.

(** A program called by a sanitized transaction is one of its static keys. *)
Lemma program_instructions_encoded t limit :
  Frames.wf_transaction t -> packet (Frames.encode t) -> sane limit t = true ->
  exists pixs, program_instructions (view_of t) = Some pixs /\ pixs.*2 = Frames.tx_instructions t /\
    forall id ix, (id, ix) ∈ pixs -> Frames.tx_account_keys t !! program_id_index ix = Some id.
Proof.
  intros Hwf Hb Hs. unfold program_instructions. rewrite instructions_encoded by done. cbn [mbind option_bind].
  unfold sane in Hs. bool_to_prop. rewrite static_account_keys_encoded by done. cbn [mbind option_bind].
  assert (forall ixs, forallb (sane_instruction t) ixs = true -> exists pixs,
    mapM (fun ix => program_id ← Frames.tx_account_keys t !! program_id_index ix; Some (program_id, ix)) ixs = Some pixs /\
    pixs.*2 = ixs /\ forall id ix, (id, ix) ∈ pixs -> Frames.tx_account_keys t !! program_id_index ix = Some id) as Hm;
    [|by apply Hm].
  induction ixs as [|ix ixs IH]; simpl; intros Hi; [exists []; set_solver|]. bool_to_prop.
  destruct IH as (pixs & -> & <- & Hp); [done|].
  unfold sane_instruction in *. bool_to_prop.
  destruct (lookup_lt_is_Some_2 (Frames.tx_account_keys t) (program_id_index ix)) as [id Hid]; [unfold len in *; lia|].
  rewrite Hid. simpl. eexists. split; [done|]. split; [done|].
  intros id' ix' [[= -> ->]|]%elem_of_cons; auto.
Qed.

(** C22: The wire format round-trips through a view. Parsing the encoding of a
    well-formed transaction gives a view from which every accessor, reading the
    packet in place without checks, returns exactly the field that was encoded:
    the signatures, the header, the static keys, the blockhash, the instructions
    and the address lookups (by draining the iterators), and the message that was
    signed. *)
Theorem view_roundtrip (t : Frames.Transaction) :
  Frames.wf_transaction t -> packet (Frames.encode t) ->
  exists view, try_new_unsanitized (Frames.encode t) = Ok view /\
    signatures view = Some (Frames.tx_signatures t) /\
    version view = Frames.tx_version t /\
    num_required_signatures view = Frames.tx_num_required_signatures t /\
    num_readonly_signed_static_accounts view = Frames.tx_num_readonly_signed t /\
    num_readonly_unsigned_static_accounts view = Frames.tx_num_readonly_unsigned t /\
    static_account_keys view = Some (Frames.tx_account_keys t) /\
    recent_blockhash view = Some (Frames.tx_blockhash t) /\
    instructions view = Some (Frames.tx_instructions t) /\
    address_table_lookups view = Some (Frames.tx_lookups t) /\
    message_data view = Some (drop (length (Frames.encode_signatures t)) (Frames.encode t)).
Proof.
  intros Hwf Hb. exists (view_of t). split; [by apply try_new_encoded|].
  rewrite signatures_encoded, static_account_keys_encoded, recent_blockhash_encoded,
    instructions_encoded, lookups_encoded, message_data_encoded by done.
  split_and!; try done. f_equal. unfold Frames.encode. by rewrite drop_app_length.
Qed.

(** The parser accepts exactly the encodings of well-formed transactions: a
    packet parses if and only if it is such an encoding, the view is then the one
    of that transaction, and no packet encodes two transactions. *)
Lemma parser_accepts_encodings (bytes : list Z) (view : TransactionView false) :
  packet bytes ->
  (try_new_unsanitized bytes = Ok view <->
   exists t, Frames.wf_transaction t /\ bytes = Frames.encode t /\ view = view_of t) /\
  (forall t1 t2, Frames.wf_transaction t1 -> Frames.wf_transaction t2 ->
     bytes = Frames.encode t1 -> bytes = Frames.encode t2 -> t1 = t2).
Proof.
  intros Hb. split; [by apply try_new_accepts|]. intros t1 t2 H1 H2 He1 He2.
  apply encode_inj; [done|done| |]; by rewrite <- He1.
Qed.

(** C21: Views are memory safe. On a view of any packet the parser accepts, no
    unchecked read of an accessor or iterator leaves the packet and no index
    panics, the loops of the sanitizer included; on a sanitized view the lookup of
    each instruction's program id among the static keys does not panic either. *)
Theorem views_memory_safe (bytes : list Z) (limit : bool) (view : TransactionView false) :
  packet bytes -> try_new_unsanitized bytes = Ok view ->
  is_Some (signatures view) /\ is_Some (static_account_keys view) /\
  is_Some (recent_blockhash view) /\ is_Some (message_data view) /\
  is_Some (instructions view) /\ is_Some (address_table_lookups view) /\
  exists r, sanitize view limit = Some r /\
    match r with
    | Ok sanitized => is_Some (program_instructions sanitized)
    | Err e => e = SanitizeError
    end.
Proof.
  intros Hb (t & Ht & -> & ->)%try_new_accepts; [|done].
  rewrite signatures_encoded, static_account_keys_encoded, recent_blockhash_encoded,
    instructions_encoded, lookups_encoded, message_data_encoded by done. split_and!; [done..|].
  unfold sanitize. rewrite sanitize_checks_spec by done. cbn [mbind option_bind].
  destruct (sane limit t) eqn:Hs; [|by eexists]. eexists. split; [done|].
  destruct (program_instructions_encoded t limit) as (pixs & Hp & _); [done..|].
  exists pixs. exact Hp.
Qed.

(** Sanitization is exact. A packet gives a sanitized view if and only if it
    encodes a well-formed transaction that is [sane] in unbounded arithmetic: as
    many signatures as required, the readonly parts of the header within the
    static keys, a writable fee payer, at most 256 accounts, program ids that are
    static keys other than the fee payer, account indexes below the number of
    accounts, no empty lookup and, with the limit enabled, at most 64
    instructions. A well-formed transaction that is not sane gets
    [SanitizeError]. *)
Lemma sanitize_exact (bytes : list Z) (limit : bool) (view : TransactionView true) :
  packet bytes ->
  (try_new_sanitized bytes limit = Some (Ok view) <->
   exists t, Frames.wf_transaction t /\ bytes = Frames.encode t /\ sane limit t = true /\ view = view_of t) /\
  (forall t, Frames.wf_transaction t -> bytes = Frames.encode t -> sane limit t = false ->
     try_new_sanitized bytes limit = Some (Err SanitizeError)).
Proof.
  intros Hb. unfold try_new_sanitized.
  assert (forall t, Frames.wf_transaction t -> bytes = Frames.encode t -> sanitize (view_of t) limit =
    Some (if sane limit t then Ok (view_of t) else Err SanitizeError)) as Hs.
  { intros t Ht ->. unfold sanitize. rewrite sanitize_checks_spec by done. by destruct (sane limit t). }
  split; [split|].
  - destruct (try_new_unsanitized bytes) as [u|] eqn:E; [|done].
    apply try_new_accepts in E as (t & Ht & He & ->); [|done]. rewrite (Hs t Ht He). intros Hv.
    exists t. destruct (sane limit t); by simplify_eq.
  - intros (t & Ht & -> & Hst & ->). rewrite try_new_encoded, Hs, Hst by done. done.
  - intros t Ht -> Hst. rewrite try_new_encoded, Hs, Hst by done. done.
Qed.

End Views.
End Views.

(** ** Resolved views *)

(** The addresses loaded from lookup tables. *)
Record LoadedAddresses : Type := MkLoadedAddresses {
  loaded_writable : list Pubkey;
  loaded_readonly : list Pubkey
}.

(** [AccountKeys::new(static_keys, dynamic_keys).iter()] of the SDK. *)
Class AccountKeysSdk : Type := {
  account_keys_iter : list Pubkey -> option LoadedAddresses -> list Pubkey
}.

(** The keys in the order their indexes count: static, then writable, then
    readonly. *)
Class AccountKeysLaws `{AccountKeysSdk} : Prop := {
  account_keys_order : forall static dynamic,
    account_keys_iter static dynamic =
    static ++ match dynamic with Some l => loaded_writable l ++ loaded_readonly l | None => [] end
}.

Module Resolved.
Section Resolved.
Context `{PacketSdk} `{Sdk Pubkey} `{AccountKeysSdk}.

Record ResolvedTransactionView : Type := MkResolved {
  view : Views.TransactionView true;
  resolved_addresses : option LoadedAddresses;
  writable_cache : list bool
}.

(** Whether the header or the lookups ask to write the account at [index]. *)
Definition is_requested_write (v : Views.TransactionView true) (index : Z) : bool :=
  let num_static_account_keys := Views.num_static_account_keys v in
  let num_signed_accounts := Views.num_required_signatures v in
  if index >=? num_static_account_keys then
    wsub 64 index num_static_account_keys <? Views.total_writable_lookup_accounts v
  else if index >=? num_signed_accounts then
    wsub 64 index num_signed_accounts <? Views.num_writable_unsigned_static_accounts v
  else index <? Views.num_writable_signed_static_accounts v.

(** One turn of the first loop; an index past the cache panics. *)
Definition cache_key (v : Views.TransactionView true) (reserved_account_keys : gset Pubkey)
    (cache : list bool) (entry : nat * Pubkey) : option (list bool) :=
  let '(index, key) := entry in
  if (index <? length cache)%nat then
    Some (<[index := is_requested_write v (Z.of_nat index) &&
                     negb (bool_decide (key ∈ reserved_account_keys))]> cache)
  else None.

(** One turn of the second loop; the state is the cache and the answer to
    whether the upgradeable loader is among the keys, once it is known. *)
Definition demote_program (account_keys : list Pubkey) (state : list bool * option bool)
    (ix : SVMInstruction) : option (result Empty_set (list bool * option bool)) :=
  let '(cache, is_upgradable_loader_present) := state in
  writable ← cache !! program_id_index ix;
  if (writable : bool) then
    let present := match is_upgradable_loader_present with
                   | Some present => present
                   | None => existsb (fun key => bool_decide (key = bpf_loader_upgradeable_id)) account_keys
                   end in
    Some (Ok (if (present : bool) then cache else <[program_id_index ix := false]> cache, Some present))
  else Some (Ok (cache, is_upgradable_loader_present)).

Definition cache_is_writable (v : Views.TransactionView true) (resolved : option LoadedAddresses)
    (reserved_account_keys : gset Pubkey) : option (list bool) :=
  static ← Views.static_account_keys v;
  let account_keys := account_keys_iter static resolved in
  cache ← foldM (cache_key v reserved_account_keys) (replicate 256 false) (imap pair account_keys);
  r ← for_each (E := Empty_set) Views.next_instruction (Views.instructions_fuel v) (demote_program account_keys)
        (Views.instructions_iter v) (cache, None);
  match r with
  | Ok (cache, _) => Some cache
  | Err e => match (e : Empty_set) with end
  end.

(** The checks of [ResolvedTransactionView::try_new]. *)
Definition addresses_match (v : Views.TransactionView true) (resolved : option LoadedAddresses) : bool :=
  if bool_decide (Views.version v = V0) && bool_decide (resolved = None) then false
  else
    match resolved with
    | Some loaded =>
        negb (negb (len (loaded_writable loaded) =? Views.total_writable_lookup_accounts v) ||
              negb (len (loaded_readonly loaded) =? Views.total_readonly_lookup_accounts v))
    | None =>
        negb (negb (Views.total_writable_lookup_accounts v =? 0) ||
              negb (Views.total_readonly_lookup_accounts v =? 0))
    end.

Definition try_new (v : Views.TransactionView true) (resolved : option LoadedAddresses)
    (reserved_account_keys : gset Pubkey) : option (result TransactionViewError ResolvedTransactionView) :=
  if addresses_match v resolved then
    cache ← cache_is_writable v resolved reserved_account_keys;
    Some (Ok (MkResolved v resolved cache))
  else Some (Err AddressLookupMismatch).

(** ** The [SVMMessage] implementation *)

Definition num_transaction_signatures (r : ResolvedTransactionView) : Z :=
  Views.num_required_signatures (view r).
Definition num_write_locks (r : ResolvedTransactionView) : Z :=
  Views.num_requested_write_locks (view r).

Definition account_keys_of (r : ResolvedTransactionView) : option (list Pubkey) :=
  static ← Views.static_account_keys (view r);
  Some (account_keys_iter static (resolved_addresses r)).

Definition fee_payer (r : ResolvedTransactionView) : option Pubkey :=
  static ← Views.static_account_keys (view r);
  static !! 0%nat.

Definition is_writable_at (r : ResolvedTransactionView) (index : nat) : bool :=
  default false (writable_cache r !! index).

Definition is_signer (r : ResolvedTransactionView) (index : nat) : bool :=
  Z.of_nat index <? Views.num_required_signatures (view r).

Definition is_invoked (r : ResolvedTransactionView) (key_index : nat) : option bool :=
  if Z.of_nat key_index <=? word_max 8 then
    ixs ← Views.instructions (view r);
    Some (existsb (fun ix => bool_decide (program_id_index ix = key_index)) ixs)
  else Some false.

(** What locks and schedulers read of a resolved view. *)
#[global] Instance resolved_svm_message : SVMMessage Pubkey ResolvedTransactionView := {|
  account_keys := fun r => default [] (account_keys_of r);
  is_writable := is_writable_at
|}.

(** ** What the cache holds *)
Context `{!PacketSdkLaws} `{!AccountKeysLaws}.

(** Account [i] is asked to be written: a signer that is not among the last
    readonly signers, another static key that is not among the last readonly
    ones, or an account a lookup loads as writable. *)
Definition requested_write (t : Frames.Transaction) (i : Z) : bool :=
  let keys := len (Frames.tx_account_keys t) in
  let nreq := Frames.tx_num_required_signatures t in
  if i <? nreq then i <? nreq - Frames.tx_num_readonly_signed t
  else if i <? keys then i <? keys - Frames.tx_num_readonly_unsigned t
  else i <? keys + Views.writable_lookups t.

Definition invoked (t : Frames.Transaction) (i : nat) : bool :=
  existsb (fun ix => bool_decide (program_id_index ix = i)) (Frames.tx_instructions t).

Definition loader_present (keys : list Pubkey) : bool :=
  existsb (fun key => bool_decide (key = bpf_loader_upgradeable_id)) keys.

(** The account is asked to be written, is not reserved, and is not a program
    the transaction calls without the upgradeable loader. *)
Definition writable_spec (t : Frames.Transaction) (keys : list Pubkey) (reserved : gset Pubkey)
    (i : nat) (key : Pubkey) : bool :=
  requested_write t (Z.of_nat i) && negb (bool_decide (key ∈ reserved)) &&
  negb (invoked t i && negb (loader_present keys)).

Section Encoded.
Context (t : Frames.Transaction) (Hwf : Frames.wf_transaction t) (Hb : packet (Frames.encode t)).
Context (Hsane : Views.sane_counts t = true).

Lemma sane_counts_facts :
  len (Frames.tx_signatures t) = Frames.tx_num_required_signatures t /\
  Frames.tx_num_required_signatures t + Frames.tx_num_readonly_unsigned t <= len (Frames.tx_account_keys t) /\
  0 <= Frames.tx_num_readonly_unsigned t /\
  0 <= Frames.tx_num_readonly_signed t < Frames.tx_num_required_signatures t /\
  1 <= len (Frames.tx_account_keys t) <= 38 /\
  0 <= Views.writable_lookups t /\ 0 <= Views.readonly_lookups t /\
  len (Frames.tx_account_keys t) + Views.writable_lookups t + Views.readonly_lookups t <= 256.
Proof.
  pose proof Hsane as Hs. unfold Views.sane_counts, Views.num_accounts in Hs. bool_to_prop.
  pose proof (Views.header_bytes t Hb) as (? & ? & ?). pose proof (Views.lookups_nonneg t).
  pose proof (Views.keys_range t Hwf). unfold in_word in *. lia.
Qed.

Lemma num_writable_spec :
  Views.num_writable_unsigned_static_accounts (Views.view_of t) =
    len (Frames.tx_account_keys t) - Frames.tx_num_required_signatures t - Frames.tx_num_readonly_unsigned t /\
  Views.num_writable_signed_static_accounts (Views.view_of t) =
    Frames.tx_num_required_signatures t - Frames.tx_num_readonly_signed t.
Proof.
  pose proof sane_counts_facts. unfold Views.num_writable_unsigned_static_accounts,
    Views.num_static_unsigned_static_accounts, Views.num_writable_signed_static_accounts,
    Views.num_static_account_keys, Views.num_required_signatures,
    Views.num_readonly_unsigned_static_accounts, Views.num_readonly_signed_static_accounts. simpl.
  rewrite !wsub_small; unfold word_max; rewrite ?wsub_small; unfold word_max; lia.
Qed.

Lemma is_requested_write_spec i :
  0 <= i <= 256 -> is_requested_write (Views.view_of t) i = requested_write t i.
Proof.
  intros Hi. pose proof sane_counts_facts. destruct num_writable_spec as [Hu Hs].
  destruct (Views.lookup_totals_encoded t Hwf (S := true)) as [Hw _].
  unfold is_requested_write, requested_write. rewrite Hu, Hs, Hw.
  change (Views.num_static_account_keys (Views.view_of t)) with (len (Frames.tx_account_keys t)).
  change (Views.num_required_signatures (Views.view_of t)) with (Frames.tx_num_required_signatures t).
  rewrite !Z.geb_leb. apply eq_true_iff_eq.
  split_ifs; bool_to_prop; rewrite ?wsub_small by (unfold word_max; lia); rewrite ?Z.ltb_lt; lia.
Qed.

(** The first loop. *)
Lemma cache_keys_spec keys reserved :
  (length keys <= 256)%nat ->
  exists cache,
    foldM (cache_key (Views.view_of t) reserved) (replicate 256 false) (imap pair keys) = Some cache /\
    length cache = 256%nat /\
    (forall i key, keys !! i = Some key ->
      cache !! i = Some (requested_write t (Z.of_nat i) && negb (bool_decide (key ∈ reserved)))) /\
    (forall i, (length keys <= i < 256)%nat -> cache !! i = Some false).
Proof.
  intros Hk.
  set (g := fun (i : nat) key => requested_write t (Z.of_nat i) && negb (bool_decide (key ∈ reserved))).
  destruct (foldM_inv (cache_key (Views.view_of t) reserved)
    (fun pre cache => length cache = 256%nat /\ (forall e, e ∈ pre -> keys !! e.1 = Some e.2) /\
       (forall i key, (i, key) ∈ pre -> cache !! i = Some (g i key)) /\
       (forall i, (i < 256)%nat -> (forall key, (i, key) ∉ pre) -> cache !! i = Some false))
    (imap pair keys) [] (replicate 256 false)) as (cache & Hf & Hlen & _ & Hin & Hout).
  - split_and!; [apply length_replicate|set_solver|set_solver|]. intros i Hi _. by apply lookup_replicate_2.
  - intros pre [j k] cache (Hlen & Hpre & Hin & Hout) Hjk.
    apply elem_of_lookup_imap in Hjk as (? & ? & [= <- <-] & Hj).
    assert (j < 256)%nat as Hj256 by (apply lookup_lt_Some in Hj; lia).
    eexists. split; [unfold cache_key; rewrite (proj2 (Nat.ltb_lt _ _)) by lia; done|].
    rewrite is_requested_write_spec by lia. split_and!.
    + by rewrite length_insert.
    + intros e [He|He]%elem_of_app; [auto|]. apply list_elem_of_singleton in He as ->. done.
    + intros i key Hi. destruct (decide (i = j)) as [->|Hne].
      * rewrite list_lookup_insert_eq by lia. assert (key = k) as ->; [|done].
        apply elem_of_app in Hi as [Hi%Hpre|Hi%list_elem_of_singleton]; simpl in Hi; congruence.
      * rewrite list_lookup_insert_ne by done. apply Hin. set_solver.
    + intros i Hi Hno. rewrite list_lookup_insert_ne; [|intros <-; apply (Hno k); set_solver].
      apply Hout; [done|]. set_solver.
  - exists cache. split_and!; [done|done|..].
    + intros i key Hi. apply Hin, elem_of_lookup_imap. eauto.
    + intros i Hi. apply Hout; [lia|]. intros key (? & ? & [= <- <-] & Hl)%elem_of_lookup_imap.
      apply lookup_lt_Some in Hl. lia.
Qed.

(** The second loop. *)
Lemma demote_programs_spec keys cache0 ixs :
  length cache0 = 256%nat -> Forall (fun ix => (program_id_index ix < 256)%nat) ixs ->
  exists cache memo,
    try_fold (demote_program keys) (cache0, None) ixs = Some (Ok (cache, memo)) /\
    length cache = 256%nat /\
    forall i b, cache0 !! i = Some b ->
      cache !! i = Some (b && negb (existsb (fun ix => bool_decide (program_id_index ix = i)) ixs &&
                                    negb (loader_present keys))).
Proof.
  intros Hlen0 Hixs.
  destruct (try_fold_inv (demote_program keys)
    (fun pre st => length st.1 = 256%nat /\ (st.2 = None \/ st.2 = Some (loader_present keys)) /\
      forall i b, cache0 !! i = Some b ->
        st.1 !! i = Some (b && negb (existsb (fun ix => bool_decide (program_id_index ix = i)) pre &&
                                     negb (loader_present keys))))
    (fun _ _ _ => False) ixs (cache0, None)) as [([cache memo] & Hf & Hl & _ & Hc)|(e & ? & ? & ? & _ & _ & [])].
  - split_and!; [done|by left|]. intros i b Hi. simpl. by rewrite Hi, andb_true_r.
  - intros pre ix post [cache memo] -> (Hl & Hm & Hc). left. cbn [fst snd] in *.
    apply Forall_app in Hixs as [_ [Hix _]%Forall_cons].
    destruct (lookup_lt_is_Some_2 cache0 (program_id_index ix)) as [b Hb0]; [lia|].
    unfold demote_program. rewrite (Hc _ _ Hb0). cbn [mbind option_bind].
    replace (match memo with Some present => present
             | None => existsb (fun key => bool_decide (key = bpf_loader_upgradeable_id)) keys end)
      with (loader_present keys) by (destruct Hm as [->| ->]; done).
    destruct (b && _) eqn:Eb.
    + eexists. split; [done|]. cbn [fst snd]. split_and!.
      * destruct (loader_present keys); [done|]. by rewrite length_insert.
      * by right.
      * intros i b' Hi. rewrite existsb_app. simpl. rewrite orb_false_r.
        destruct (loader_present keys) eqn:Ep; [rewrite (Hc _ _ Hi), !andb_false_r; done|].
        rewrite !andb_true_r in *. case_bool_decide as Hd; [subst i|].
        -- rewrite list_lookup_insert_eq by lia. by rewrite orb_true_r, andb_false_r.
        -- rewrite list_lookup_insert_ne by done. rewrite (Hc _ _ Hi), orb_false_r. by rewrite andb_true_r.
    + eexists. split; [done|]. cbn [fst snd]. split_and!; [done|done|].
      intros i b' Hi. rewrite (Hc _ _ Hi), existsb_app. simpl. rewrite orb_false_r.
      case_bool_decide as Hd; [subst i|by rewrite orb_false_r].
      rewrite Hb0 in Hi. injection Hi as ->. rewrite orb_true_r. simpl. rewrite negb_involutive, Eb.
      destruct b'; [|done]. simpl in *. destruct (loader_present keys); [|done].
      by rewrite andb_false_r in Eb.
  - eauto.
Qed.

(** How many of the first [n] accounts are asked to be written. *)
Lemma requested_writes_count n :
  Z.of_nat (length (filter (fun i => requested_write t (Z.of_nat i) = true) (seq 0 n))) =
  Z.min (Z.of_nat n) (Frames.tx_num_required_signatures t - Frames.tx_num_readonly_signed t) +
  Z.max 0 (Z.min (Z.of_nat n) (len (Frames.tx_account_keys t) - Frames.tx_num_readonly_unsigned t) -
           Frames.tx_num_required_signatures t) +
  Z.max 0 (Z.min (Z.of_nat n) (len (Frames.tx_account_keys t) + Views.writable_lookups t) -
           len (Frames.tx_account_keys t)).
Proof.
  pose proof sane_counts_facts. induction n as [|n IH]; [simpl; lia|].
  rewrite seq_S, filter_app, length_app, Nat2Z.inj_add, IH. simpl (0 + n)%nat. rewrite filter_cons, filter_nil.
  unfold requested_write. case_decide as Hd; simpl length; revert Hd; split_ifs; bool_to_prop; intros; simplify_eq;
    try lia; rewrite ?Z.ltb_lt in *; lia.
Qed.

Lemma num_write_locks_spec n :
  Z.of_nat n = len (Frames.tx_account_keys t) + Views.writable_lookups t + Views.readonly_lookups t ->
  Views.num_requested_write_locks (Views.view_of t) =
  Z.of_nat (length (filter (fun i => requested_write t (Z.of_nat i) = true) (seq 0 n))).
Proof.
  intros Hn. rewrite requested_writes_count, Hn. pose proof sane_counts_facts.
  unfold Views.num_requested_write_locks. destruct (Views.lookup_totals_encoded t Hwf (S := true)) as [-> _].
  unfold Views.num_static_account_keys, Views.num_readonly_signed_static_accounts,
    Views.num_readonly_unsigned_static_accounts. simpl.
  rewrite !wsub_small; unfold word_max; try (rewrite ?wsub_small; unfold word_max; lia).
  rewrite wadd_small; unfold word_max; lia.
Qed.

Lemma cache_is_writable_spec limit resolved reserved :
  Views.sane limit t = true ->
  (length (account_keys_iter (Frames.tx_account_keys t) resolved) <= 256)%nat ->
  exists cache, cache_is_writable (Views.view_of t) resolved reserved = Some cache /\
    let keys := account_keys_iter (Frames.tx_account_keys t) resolved in
    (forall i key, keys !! i = Some key -> cache !! i = Some (writable_spec t keys reserved i key)) /\
    (forall i, (length keys <= i)%nat -> default false (cache !! i) = false).
Proof.
  intros Hs Hk. unfold cache_is_writable. rewrite Views.static_account_keys_encoded by done.
  cbn [mbind option_bind]. set (keys := account_keys_iter _ _) in *.
  destruct (cache_keys_spec keys reserved Hk) as (cache0 & -> & Hlen0 & Hin & Hout). cbn [mbind option_bind].
  rewrite (Views.for_instructions t Hwf Hb).
  destruct (demote_programs_spec keys cache0 (Frames.tx_instructions t)) as (cache & memo & -> & Hlen & Hc); [done| |].
  { pose proof Hs as Hs'. unfold Views.sane in Hs'. bool_to_prop. pose proof sane_counts_facts.
    apply Forall_forall. intros ix Hix. match goal with Hf : forallb (Views.sane_instruction t) _ = true |- _ =>
      rewrite forallb_forall in Hf; specialize (Hf ix (proj1 (list_elem_of_In _ _) Hix)) as Hsi end.
    unfold Views.sane_instruction in Hsi. bool_to_prop. lia. }
  cbn [mbind option_bind]. exists cache. split; [done|]. split.
  - intros i key Hi. rewrite (Hc i _ (Hin i key Hi)). done.
  - intros i Hi. destruct (decide (i < 256)%nat) as [Hlt|Hge].
    + by rewrite (Hc i false (Hout i (conj Hi Hlt))).
    + rewrite lookup_ge_None_2; [done|lia].
Qed.
End Encoded.

(** The addresses fit the lookups of the transaction. *)
Definition addresses_fit (t : Frames.Transaction) (resolved : option LoadedAddresses) : Prop :=
  match resolved with
  | Some loaded => len (loaded_writable loaded) = Views.writable_lookups t /\
                   len (loaded_readonly loaded) = Views.readonly_lookups t
  | None => Frames.tx_version t = Legacy
  end.

Lemma addresses_match_spec t resolved :
  Frames.wf_transaction t ->
  addresses_match (Views.view_of t) resolved = true <-> addresses_fit t resolved.
Proof.
  intros Hwf. destruct (Views.lookup_totals_encoded t Hwf (S := true)) as [Hw Hr].
  unfold addresses_match, addresses_fit. rewrite Hw, Hr.
  change (Views.version (Views.view_of t)) with (Frames.tx_version t).
  destruct resolved as [loaded|].
  - rewrite (bool_decide_eq_false_2 (Some loaded = None)), andb_false_r by done.
    rewrite negb_orb, !negb_involutive, andb_true_iff, !Z.eqb_eq. done.
  - rewrite (bool_decide_eq_true_2 (None = None)), andb_true_r by done.
    destruct Hwf as (_ & _ & _ & _ & _ & Hls). unfold Frames.wf_lookups in Hls.
    unfold Views.writable_lookups, Views.readonly_lookups.
    destruct (Frames.tx_version t); simpl; [by rewrite Hls|done].
Qed.

(** C34: The resolved view of a sanitized transaction tells locks and schedulers
    the truth. With loaded addresses that fit its lookups (and only then) the
    view is built, without a panic; its account keys are the static keys followed
    by the loaded writable and readonly ones; its cache says that an account is
    writable exactly when the header or the lookups ask for it, the key is not
    reserved, and it is not a called program while the upgradeable loader is
    absent; an index past the keys is never writable; and the number of write
    locks charged is the number of accounts asked to be written. *)
Theorem resolved_view_accesses (t : Frames.Transaction) (limit : bool)
    (resolved : option LoadedAddresses) (reserved : gset Pubkey) :
  Frames.wf_transaction t -> packet (Frames.encode t) -> Views.sane limit t = true ->
  (~ addresses_fit t resolved ->
     try_new (Views.view_of t) resolved reserved = Some (Err AddressLookupMismatch)) /\
  (addresses_fit t resolved ->
     exists r, try_new (Views.view_of t) resolved reserved = Some (Ok r) /\
       let keys := Frames.tx_account_keys t ++
                   match resolved with Some l => loaded_writable l ++ loaded_readonly l | None => [] end in
       account_keys r = keys /\
       accounts_with_is_writable r = imap (fun i key => (key, writable_spec t keys reserved i key)) keys /\
       (forall i, (length keys <= i)%nat -> is_writable r i = false) /\
       fee_payer r = head keys /\
       num_write_locks r =
         Z.of_nat (length (filter (fun i => requested_write t (Z.of_nat i) = true) (seq 0 (length keys))))).
Proof.
  intros Hwf Hb Hs. pose proof Hs as Hc. unfold Views.sane in Hc. bool_to_prop.
  pose proof (addresses_match_spec t resolved Hwf) as Hm. unfold try_new. split.
  { intros Hn. rewrite <- Hm in Hn. by destruct (addresses_match _ _). }
  intros Hfit. rewrite (proj2 Hm Hfit).
  pose proof (account_keys_order (Frames.tx_account_keys t) resolved) as Hk.
  assert (len (account_keys_iter (Frames.tx_account_keys t) resolved) =
    len (Frames.tx_account_keys t) + Views.writable_lookups t + Views.readonly_lookups t) as Hlen.
  { rewrite Hk. unfold addresses_fit in Hfit. destruct resolved; [len_lia|].
    destruct Hwf as (_ & _ & _ & _ & _ & Hls). unfold Frames.wf_lookups in Hls. rewrite Hfit in Hls.
    unfold Views.writable_lookups, Views.readonly_lookups. rewrite Hls. simpl. len_lia. }
  pose proof (sane_counts_facts t Hwf Hb ltac:(done)).
  destruct (cache_is_writable_spec t Hwf Hb ltac:(done) limit resolved reserved Hs) as (cache & -> & Hin & Hout);
    [unfold len in *; lia|].
  rewrite Hk in *. eexists. split; [done|].
  assert (forall r, view r = Views.view_of t -> resolved_addresses r = resolved -> account_keys r =
    Frames.tx_account_keys t ++ match resolved with Some l => loaded_writable l ++ loaded_readonly l | None => [] end) as Hak.
  { intros r Hv Hr. simpl. unfold account_keys_of. rewrite Hv, Hr, Views.static_account_keys_encoded by done.
    simpl. by rewrite Hk. }
  split_and!; [by apply Hak| | | |].
  - unfold accounts_with_is_writable. rewrite Hak by done. apply imap_ext. intros i key Hi.
    simpl. unfold is_writable_at. simpl. by rewrite (Hin i key Hi).
  - intros i Hi. simpl. unfold is_writable_at. simpl. by apply Hout.
  - unfold fee_payer. simpl. rewrite Views.static_account_keys_encoded by done. simpl.
    destruct (Frames.tx_account_keys t) eqn:Ek; [rewrite len_nil in *; lia|done].
  - unfold num_write_locks. simpl. apply num_write_locks_spec; [done..|]. exact Hlen.
Qed.

End Resolved.
End Resolved.

(** ** A sample transaction *)
Module SampleView.

#[export] Instance sample_packet_sdk : PacketSdk := {| PACKET_SIZE := 1232; MESSAGE_VERSION_PREFIX := 0x80 |}.
#[export] Instance sample_packet_laws : PacketSdkLaws.
Proof. by split. Qed.

#[export] Instance sample_account_keys : AccountKeysSdk := {|
  account_keys_iter := fun static dynamic =>
    static ++ match dynamic with Some l => loaded_writable l ++ loaded_readonly l | None => [] end
|}.
#[export] Instance sample_account_keys_laws : AccountKeysLaws.
Proof. by split. Qed.

Definition key (n : Z) : Pubkey := MkPubkey (replicate 32 n).

#[export] Instance sample_sdk : Sdk Pubkey := {
  vote_id := key 101;
  system_program_id := key 102;
  compute_budget_id := key 103;
  bpf_loader_upgradeable_id := key 104;
  bpf_loader_deprecated_id := key 105;
  bpf_loader_id := key 106;
  loader_v4_id := key 107;
  secp256k1_program_id := key 108;
  ed25519_program_id := key 109;
  secp256r1_program_id := key 110;
  first_byte := fun k => Z.to_nat (hd 0 (pubkey_bytes k));
  HEAP_LENGTH := 32768;
  PACKET_DATA_SIZE := 1232;
  decode_compute_budget := fun _ => None
}.

(** One signer, a program and a readonly account, a lookup of a writable and a
    readonly account; the instruction passes the signer and both loaded accounts. *)
Definition sample : Frames.Transaction :=
  Frames.MkTransaction [MkSignature (replicate 64 7)] V0 1 0 1 [key 1; key 2; key 3] (MkHash (replicate 32 9))
    [MkInstruction 1 [0; 3; 4] [200; 1]] [MkLookup (key 4) [5] [6]].

Definition sample_loaded : LoadedAddresses := MkLoadedAddresses [key 5] [key 6].

Lemma packet_check bytes :
  forallb (fun b => (0 <=? b) && (b <=? 255)) bytes = true -> len bytes <= U16_MAX -> packet bytes.
Proof.
  intros Hb Hl. split; [|done]. apply Forall_forall. intros b Hin. rewrite forallb_forall in Hb.
  specialize (Hb b (proj1 (list_elem_of_In _ _) Hin)). bool_to_prop. unfold in_word, word_max. lia.
Qed.

Lemma sample_packet : packet (Frames.encode sample).
Proof. apply packet_check; vm_compute; done. Qed.

Lemma pod_check {T} `{Pod T} (x : T) : len (to_bytes x) = size_of T -> of_bytes (to_bytes x) = x -> pod_ok x.
Proof. by split. Qed.

Lemma sample_wf : Frames.wf_transaction sample.
Proof.
  assert (forall n, pod_ok (key n)) as Hkey by (intros; by apply pod_check).
  split_and!; [vm_compute; congruence|vm_compute; congruence| |done|vm_compute; congruence
    |vm_compute; congruence| | |done| |].
  - apply Forall_singleton. by apply pod_check.
  - repeat (apply Forall_cons; split; [apply Hkey|]). by apply Forall_nil.
  - by apply pod_check.
  - apply Forall_singleton. split; vm_compute; congruence.
  - split_and!; [vm_compute; congruence| |vm_compute; congruence].
    apply Forall_singleton. split; [apply Hkey|]. split; vm_compute; congruence.
Qed.

Lemma sample_sane : Views.sane true sample = true.
Proof. vm_compute. reflexivity. Qed.

End SampleView.
Import SampleView.

Lemma view_roundtrip_witness :
  exists view, Views.try_new_unsanitized (Frames.encode sample) = Ok view /\
    Views.instructions view = Some [MkInstruction 1 [0; 3; 4] [200; 1]].
Proof.
  destruct (Views.view_roundtrip sample sample_wf sample_packet)
    as (view & Hv & _ & _ & _ & _ & _ & _ & _ & Hi & _).
  exists view. split; [exact Hv|exact Hi].
Defined.

Lemma views_memory_safe_witness :
  packet (Frames.encode sample) /\ is_Some (Views.signatures (Views.view_of (S := false) sample)).
Proof.
  split; [exact sample_packet|].
  apply (Views.views_memory_safe (Frames.encode sample) true (Views.view_of sample) sample_packet).
  vm_compute. reflexivity.
Defined.

Lemma resolved_view_accesses_witness :
  exists r, Resolved.try_new (Views.view_of sample) (Some sample_loaded) {[key 3]} = Some (Ok r) /\
    accounts_with_is_writable r =
      [(key 1, true); (key 2, false); (key 3, false); (key 5, true); (key 6, false)].
Proof.
  destruct (proj2 (Resolved.resolved_view_accesses sample true (Some sample_loaded) {[key 3]}
    sample_wf sample_packet sample_sane)) as (r & Hr & _ & Ha & _); [by split|].
  exists r. split; [exact Hr|]. rewrite Ha. vm_compute. reflexivity.
Defined.
